(* ===== verification/_CoqProject ===== *)
-Q . S2P
Prelude.v
Text.v
ScVal.v
Rules.v
Prize.v
ScoringConfig.v
Scoring.v
SquadValidator.v
SquadService.v
Tournament.v
LeagueDb.v
HeadToHead.v
League.v
Settlement.v
TxCoordinator.v
Financial.v
Membership.v
Refunds.v
DepositVerification.v
Retroactive.v
CircuitBreaker.v
Swiss.v
Merkle.v
Escrow.v
Draft.v
Json.v
IdempotencyStore.v
Idempotency.v
AuditLog.v
FinancialAudit.v
LockManager.v
Pricing.v
Bonus.v
Ratings.v
RefreshTokens.v
Sessions.v
Auth.v
JwtKeys.v
Reconciliation.v
DepositQueue.v
Indexer.v
ReplayQueue.v
