(* ===== verification/Prelude.v ===== *)
(** * FantasyXI: a verification development of the game and money logic

    FantasyXI is a fantasy football platform.  The backend
    ([src/backend/src], TypeScript) keeps squads, scores them from the data of
    the official game, runs leagues of several formats, takes entry fees and
    pays prizes through an escrow contract on Stellar.  This library models the
    services that decide what users own, score and are paid, and proves what
    each promises.

    ** The parts and how they interact

    - Scores: a gameweek ends, [jobs/gameweekSettlement.ts] publishes an event;
      its subscribers score every squad ([scoringService.ts]), give back the
      squads of Free Hits ([squadService.ts]) and settle head-to-head matches
      and cups; the job then ends the classic leagues and their seasons.
      Statistics that the official feed corrects later are applied as
      differences ([retroactiveBpsAdjustmentService.ts]).
      During the week [provisionalBps.ts] predicts the bonus points.
    - Squads: [squadService.ts] changes them under a lock ([lockManager.ts]),
      after [squadValidator.ts] and [deadlineGuard.ts], at prices that
      [pricingService.ts] moves.
    - Leagues: [leagueService.ts] owns the rows of leagues, members, fixtures
      and invitations that settlement and finance read; [tournamentService.ts]
      draws schedules and brackets, [swissTournamentEngine.ts] plays Swiss
      tournaments and [draftService.ts] drafts; [matchmakingService.ts] pairs
      users by a rating.
    - Money: [prizeService.ts] splits a pool, [financialService.ts] takes the
      fees, plans and sends settlements and refunds,
      [transactionCoordinatorService.ts] follows what was submitted, and
      [merkleTree.ts] proves claims.  The escrow contract
      ([src/contracts/src/lib.rs], Rust) holds the deposits and the prizes;
      [eventIndexer.ts] reads its events back into the same tables, and
      [ledgerReconciliationService.ts] compares the two sides.  A payment that
      a user claims is looked up on the chain ([depositVerificationService.ts]
      and [stellarService.ts]); a transaction the network dropped is built and
      sent again ([sorobanTransactionReplayQueue.ts]).
    - Around every request: idempotency keys ([middleware/idempotency.ts]), the
      tokens, sessions, signing keys and permissions of the user, and the audit
      logs.  Outside calls run behind [circuitBreaker.ts].

    ** Files

    - [Prelude] (this file): outcomes of fallible code ([result] and the
      [state_error] monad with its transactions), JavaScript numbers and [Map]s,
      sums, searching, grouping, stable sorting by a comparator, and their
      lemmas; [Text]: character classes, [trim], [split], numerals; [ScVal]:
      the values of contract events; [Rules]: the shared enums and squad rules
      of [types/index.ts]; [Json]: JSON values and their canonical text.
    - [ScoringConfig] (models/leagueScoringConfig.ts), [Scoring]
      (scoringService.ts), [Bonus] (provisionalBps.ts), [SquadValidator]
      (squadValidator.ts, deadlineGuard.ts), [SquadService] (squadService.ts),
      [Pricing] (pricingService.ts).
    - [LeagueDb]: the tables of the league service; [Tournament]
      (tournamentService.ts), [HeadToHead] and [League] (leagueService.ts),
      [Swiss] (swissTournamentEngine.ts, swissTournamentService.ts), [Draft]
      (draftService.ts), [Ratings] (ratings and the matchmaking queue, over the
      real numbers of the Standard Library).
    - [Settlement] (gameweekSettlement.ts, eventBus.ts,
      gameweekEventHandlers.ts) composes [Scoring], [SquadService],
      [HeadToHead], [Tournament] and [League]; [Retroactive]
      (retroactiveBpsAdjustmentService.ts, normalizePlayerStats of
      fplNormalizer.ts) corrects the scores that [Scoring] stored.
    - [Prize] (prizeService.ts and the branch of the Rust contract that reads
      its basis points), [Financial] (financialService.ts, contractLeagueId.ts),
      [Refunds] (refunds of financialService.ts, payoutDeadLetterService.ts and
      its worker and job), [TxCoordinator] (transactionCoordinatorService.ts),
      [Merkle] (merkleTree.ts, settlementProof.ts, contractLeagueId.ts),
      [Escrow] (contracts/src/lib.rs).  [Membership] composes [League] and
      [Financial]: both write the members of a league.
    - [DepositQueue] (queues/depositQueue.ts) and [Indexer]
      (workers/eventIndexer.ts), over the tables of [Financial];
      [Reconciliation] (ledgerReconciliationService.ts);
      [DepositVerification] (depositVerificationService.ts, the check of
      stellarService.ts), composed with the confirmation of [Financial];
      [ReplayQueue] (sorobanTransactionReplayQueue.ts).
    - [IdempotencyStore] and [Idempotency]: a store interface with two
      implementations, and the middleware over the interface.
    - [AuditLog] and [FinancialAudit]: the hash chain and the buffered log;
      [LockManager] (lockManager.ts); [CircuitBreaker] (circuitBreaker.ts).
    - [RefreshTokens], [Sessions], [Auth] (the guards of protected routes) and
      [JwtKeys] (the rotation of signing keys).

    Names are the source's.  An interface becomes a [Record], with a prefix per
    type on its fields; a union or a set of thrown errors becomes an
    [Inductive]; a method that reads and writes its object takes and returns
    the object's state; a loop with an early [throw] is [mfoldl] or [mmapM]; a
    [Map] or an object used as one is an association list in insertion order.

    ** How effects are modelled

    - A handler of a database service maps the tables it reads to those it
      leaves.  A transaction commits or leaves the tables as they were; writes
      outside one stay when the handler throws later.
    - Where requests can interleave, a handler is cut where it awaits something
      another request can change ([join_checks] and [join_commit]; the checks,
      the locked section and the end of [makePick]; a poll against a poll), and
      an [Inductive] step relation has one constructor per piece; the theorems
      then hold of every state reachable from an initial one.  [ReplayQueue]
      goes further: its routines are programs over a type of commands, and any
      interleaving of the commands of any number of instances is a run.
      In [RefreshTokens] the two statements of a rotation are steps of their
      own on a READ COMMITTED database: an update waits for the rows another
      transaction holds and misses those that it inserts.  In [TxCoordinator]
      the announcement of a change is a step after the update, and a process may
      die between them.
    - The answers of the network, the clock, random numbers and the identifiers
      the database draws are arguments.  Emitted events and contract calls are
      logs in the state.
    - Parameters with hypotheses: SHA-256 (32 bytes; for forged claims and
      altered audit entries no collision on the inputs actually hashed), the XDR
      of the Stellar SDK, [localeCompare], whether Prisma returns [Decimal]
      columns as objects, the token contracts of [Escrow] (a transfer moves what
      it says or traps), and the chain itself (for [ReplayQueue]: an envelope is
      applied once, at the sequence number of its source, and its final status
      stays).
    - What Prisma refuses is refused here: [Indexer.upsert_tx] selects a
      transaction by its hash alone, which is no unique key, so every batch of
      the indexer with such an upsert fails; and [Number.isFinite] is false of a
      [Decimal] object, so [Financial.prepareSettlement] has no plan for a
      league whose entry fee arrives as one.

    ** What the theorems show

    - Money: the contract is solvent, its settlements distribute exactly what was
      deposited, and a freeze holds; a pool is conserved to the cent and its
      basis points survive the encoding; a settlement plan pays the pool it
      computed to the ranking it read; settlements and refunds happen once, a
      change of a transaction is announced at most once, however runs are
      repeated or instances interleave; a payment is confirmed only on evidence
      from the chain, and the two services that look for the evidence, each with
      its own checks, agree; what the replay queue says of a submission the
      chain says too, and it leaves at most one envelope per sequence number
      that the network can still apply; the indexer keeps every deposit it
      cannot credit as one exception, handles a second delivery as none and
      skips no event, though an event it refuses holds it up; the reconciliation
      reports exactly the movements on which ledger and chain disagree; every
      integer and intermediate of the prize calculation is a safe integer;
      published claims verify, and a forged one needs a collision.
    - Requests: a key replays the response of its first request and handlers of
      one key never overlap, over any store that meets the interface, which the
      Redis store does; a refresh token rotates once and its reuse ends the
      family, unless a rotation commits meanwhile; a revoked session stays
      revoked; a guarded route answers only whom its policy admits, and checks
      the session of a token that names one; a rotation rejects no live token and a revoked key
      verifies none; locks exclude in time; the chained log makes tampering
      evident against a last hash kept elsewhere, appends that race are serialised, the buffered log loses nothing
      but what it counts as dropped.
    - Scores: the substitution engine, with its shared mutable details, refines
      a specification on lists; the validator accepts exactly the legal squads;
      the provisional bonus follows its rule; prices move slowly; a
      correction moves every stored score by the difference of two calculations,
      leaves the compared columns without a further one, and moves no total of a
      league that has ended or been paid.
    - Leagues: membership counts (the payment endpoint's uncounted rows
      included), the lifecycle, head-to-head tables and cups have invariants
      over reachable states; schedules are complete and balanced;
      playoffs, cups, drafts and Swiss tournaments end with what they promise;
      the matchmaking queue pairs users consistently.
    - Failures: an open circuit admits nothing and recovers; the remaining
      theorems state errors and defects exactly as they happen (a league that
      overfills when joins race, the classic season that ends before its last
      week counts, drafts whose overlapping picks exceed a quota, a tree that
      is never built for a UUID, a settlement that is never booked once its
      event was indexed, a deposit that stops the indexer, a token that survives
      the revocation of its family, a withdrawal of the fees that takes the
      deposits).

    Every theorem of the manifest with hypotheses has a witness that applies it
    to concrete data.

    ** Fuel and bounds

    Recursion that is not structural runs on fuel that its length lemma shows to
    be enough: the number of players for Swiss pairings (each call removes two)
    and for the substitution loop, the number of leaves for a Merkle tree (a
    level at most halves, rounded up), the number of items for batches, the bits
    of a number for its digits.  Points, cents, tenths and milliseconds are
    integers; decimal amounts are exact rationals where the code has
    floating-point numbers, and [Prize.prize_arithmetic_safe] bounds what the
    code computes on them.

    ** Assumptions to know

    [Promise.all] over independent calls runs them in order; an address may be
    asked for its authorisation more than once in an invocation of the contract; text that is hashed
    or compared character by character is ASCII; records' timestamps, display
    names and log messages are left out unless a decision reads them.

    ** Not modelled

    Input and output (HTTP, sockets, Redis commands, e-mail, telemetry), the
    calls of the Stellar and FPL APIs themselves and their caches, analytics and
    forecasting formulas, the statistical integrity signals, the controllers
    around the services, the guardian, federation, upgrade and result entry
    points of the contract, and the frontend: they hold no rule of the game or of the money that a theorem here
    relies on, or their content is a call of a library.  Of the core there
    remain league tiers, the balance audits, rate limits, disputes, the live
    leaderboards and the second factors of the sign-in. *)

From Stdlib Require Export ZArith Lia.
From Stdlib Require Import QArith Qround.
From stdpp Require Export base tactics numbers list gmap strings option sorting.

#[global] Open Scope Z_scope.

(** ** Outcomes: a value or a thrown error

    [throw new E(...)] is [Err]; the error type is one inductive per
    component.  [let* x := m in k] sequences them and [m ;;; k] drops a unit result. *)

Inductive result (E A : Type) : Type :=
| Ok (a : A)
| Err (e : E).
Arguments Ok {E A} _.
Arguments Err {E A} _.

Definition rbind {E A B} (m : result E A) (f : A → result E B) : result E B :=
  match m with Ok a => f a | Err e => Err e end.

Definition rmap {E A B} (f : A → B) (m : result E A) : result E B :=
  match m with Ok a => Ok (f a) | Err e => Err e end.

Declare Scope result_scope.
Delimit Scope result_scope with result.
Notation "'let*' x := m 'in' k" := (rbind m (λ x, k))
  (at level 200, x name, m at level 100, k at level 200, right associativity) : result_scope.
Notation "'let*' ' p := m 'in' k" := (rbind m (λ p, k))
  (at level 200, p pattern, m at level 100, k at level 200, right associativity) : result_scope.
Notation "m ;;; k" := (rbind m (λ _, k))
  (at level 100, k at level 200, right associativity) : result_scope.
#[global] Open Scope result_scope.

(** [throw_if b e]: [if (b) throw e]. *)
Definition throw_if {E} (b : bool) (e : E) : result E unit :=
  if b then Err e else Ok tt.

(** [or_throw o e]: [if (!o) throw e; use o]. *)
Definition or_throw {E A} (o : option A) (e : E) : result E A :=
  match o with Some a => Ok a | None => Err e end.

Definition is_ok {E A} (r : result E A) : bool :=
  match r with Ok _ => true | Err _ => false end.

(** Sequential [for ... of] with early [throw]. *)
Fixpoint mfoldl {E A S} (f : S → A → result E S) (s : S) (l : list A) : result E S :=
  match l with
  | [] => Ok s
  | a :: l => let* s' := f s a in mfoldl f s' l
  end.

Fixpoint mmapM {E A B} (f : A → result E B) (l : list A) : result E (list B) :=
  match l with
  | [] => Ok []
  | a :: l => let* b := f a in let* bs := mmapM f l in Ok (b :: bs)
  end.

(** ** JavaScript numbers

    Integers are [Z] (their range is a theorem where it matters); decimal
    money amounts are exact rationals, [Math.round] is round-half-up. *)

Definition math_round (q : Q) : Z := Qfloor (q + (1 # 2)).

(** A [number]: finite, or one of NaN / Infinity / -Infinity. *)
Inductive jsnum : Type :=
| Fin (q : Q)
| NonFinite.

Definition int (z : Z) : jsnum := Fin (inject_Z z).

(** [Number.isFinite]. *)
Definition is_finite (n : jsnum) : bool :=
  match n with Fin _ => true | NonFinite => false end.

(** The value of an integral number, [None] when [Number.isInteger] fails. *)
Definition as_integer (n : jsnum) : option Z :=
  match n with
  | Fin q => if Z.rem (Qnum q) (Zpos (Qden q)) =? 0
             then Some (Qnum q / Zpos (Qden q)) else None
  | NonFinite => None
  end.

(** [Math.round(a / b)] on integers, [b > 0]. *)
Definition round_div (a b : Z) : Z := (2 * a + b) / (2 * b).

Definition MAX_SAFE_INTEGER : Z := 2 ^ 53 - 1.

Fixpoint sumZ (l : list Z) : Z :=
  match l with [] => 0 | z :: l => z + sumZ l end.

Definition sum_of {A} (f : A → Z) (l : list A) : Z := sumZ (f <$> l).
Arguments sum_of {A} _ _ : simpl never.

Definition countb {A} (p : A → bool) (l : list A) : Z :=
  Z.of_nat (length (List.filter p l)).

(** [Array.prototype.findIndex]. *)
Fixpoint find_index {A} (p : A → bool) (l : list A) : option nat :=
  match l with
  | [] => None
  | a :: l => if p a then Some O else S <$> find_index p l
  end.

(** ** JavaScript [Map]: insertion ordered, keys unique *)

Section jsmap.
Context {K V : Type} `{EqDecision K}.

Fixpoint map_get (k : K) (m : list (K * V)) : option V :=
  match m with
  | [] => None
  | (k', v) :: m => if decide (k = k') then Some v else map_get k m
  end.

Fixpoint map_set (k : K) (v : V) (m : list (K * V)) : list (K * V) :=
  match m with
  | [] => [(k, v)]
  | (k', v') :: m => if decide (k = k') then (k', v) :: m else (k', v') :: map_set k v m
  end.

Definition map_has (k : K) (m : list (K * V)) : bool := bool_decide (is_Some (map_get k m)).

Fixpoint map_delete (k : K) (m : list (K * V)) : list (K * V) :=
  match m with
  | [] => []
  | (k', v') :: m => if decide (k = k') then m else (k', v') :: map_delete k m
  end.

Definition map_keys (m : list (K * V)) : list K := m.*1.
Definition map_values (m : list (K * V)) : list V := m.*2.

End jsmap.

(** ** [Array.prototype.sort]: stable, driven by a comparator *)

Section sort.
Context {A : Type} (cmp : A → A → Z).

Fixpoint insert_by (x : A) (l : list A) : list A :=
  match l with
  | [] => [x]
  | y :: l' => if cmp x y <=? 0 then x :: y :: l' else y :: insert_by x l'
  end.

Definition sort_by (l : list A) : list A := foldr insert_by [] l.

End sort.

(** Comparator combinators: [a.f - b.f], [b.f - a.f] and [c1 || c2]. *)
Definition asc {A} (f : A → Z) (a b : A) : Z := f a - f b.
Definition desc {A} (f : A → Z) (a b : A) : Z := f b - f a.
Definition then_by {A} (c1 c2 : A → A → Z) (a b : A) : Z :=
  if c1 a b =? 0 then c2 a b else c1 a b.

(** What a comparator must satisfy for the engine to sort by it. *)
Class Comparator {A} (cmp : A → A → Z) : Prop := {
  cmp_sgn : ∀ a b, Z.sgn (cmp b a) = - Z.sgn (cmp a b);
  cmp_trans : ∀ a b c, cmp a b ≤ 0 → cmp b c ≤ 0 → cmp a c ≤ 0
}.

(** ** Automation *)

Create HintDb fxi.

(** Case analysis on every [if] of the goal or of a hypothesis, with the
    boolean comparisons turned into propositions. *)
Ltac bool_to_prop :=
  repeat match goal with
  | H : (_ && _) = true |- _ => apply andb_true_iff in H as [? ?]
  | H : (_ || _) = false |- _ => apply orb_false_iff in H as [? ?]
  | H : negb _ = true |- _ => apply negb_true_iff in H
  | H : negb _ = false |- _ => apply negb_false_iff in H
  | H : (_ <=? _) = true |- _ => apply Z.leb_le in H
  | H : (_ <=? _) = false |- _ => apply Z.leb_gt in H
  | H : (_ <? _) = true |- _ => apply Z.ltb_lt in H
  | H : (_ <? _) = false |- _ => apply Z.ltb_ge in H
  | H : (_ =? _) = true |- _ => apply Z.eqb_eq in H
  | H : (_ =? _) = false |- _ => apply Z.eqb_neq in H
  | H : bool_decide _ = true |- _ => apply bool_decide_eq_true_1 in H
  | H : bool_decide _ = false |- _ => apply bool_decide_eq_false_1 in H
  end.

Lemma Ok_inj {E A} (a b : A) : Ok (E := E) a = Ok b → a = b.
Proof. congruence. Qed.

Lemma Err_inj {E A} (a b : E) : Err (A := A) a = Err b → a = b.
Proof. congruence. Qed.

(** Peel a [result] computation known to be [Ok]: split every bind, guard and
    branch it went through. *)
Ltac inv_ok :=
  repeat match goal with
  | H : Ok _ = Ok _ |- _ => apply Ok_inj in H
  | H : Err _ = Err _ |- _ => apply Err_inj in H
  | H : Err _ = Ok _ |- _ => discriminate H
  | H : Ok _ = Err _ |- _ => discriminate H
  | H : rbind (throw_if ?b _) _ = Ok _ |- _ =>
      let E := fresh "Hguard" in destruct b eqn:E; [discriminate H|]; cbn in H
  | H : throw_if ?b _ = Ok _ |- _ =>
      let E := fresh "Hguard" in destruct b eqn:E; [discriminate H|]; clear H
  | H : rbind (or_throw ?o _) _ = Ok _ |- _ =>
      let E := fresh "Hsome" in destruct o eqn:E; [|discriminate H]; cbn in H
  | H : rbind ?m _ = Ok _ |- _ =>
      let E := fresh "Hm" in destruct m eqn:E; [|discriminate H]; cbn in H
  end.

(** ** Lemmas: results *)

Lemma bind_ok {E A B} (m : result E A) (f : A → result E B) b :
  rbind m f = Ok b ↔ ∃ a, m = Ok a ∧ f a = Ok b.
Proof. destruct m; cbn; split; [by eauto|by intros (? & [= ->] & ?)|done|by intros (? & ? & ?)]. Qed.

Lemma throw_if_ok {E} (b : bool) (e : E) u : throw_if b e = Ok u ↔ b = false.
Proof. destruct b, u; cbn; naive_solver. Qed.

Lemma or_throw_ok {E A} (o : option A) (e : E) a : or_throw o e = Ok a ↔ o = Some a.
Proof. destruct o; cbn; naive_solver. Qed.

(** A loop invariant for [mfoldl]. *)
Lemma mfoldl_inv {E A S} (P : S → Prop) (f : S → A → result E S) l s s' :
  (∀ s a s', a ∈ l → P s → f s a = Ok s' → P s') →
  P s → mfoldl f s l = Ok s' → P s'.
Proof.
  revert s. induction l as [|a l IH]; intros s Hf Hs Hl; cbn in Hl.
  - inv_ok. by subst.
  - apply bind_ok in Hl as (s1 & H1 & H2).
    eapply IH; [| |exact H2].
    + intros ??? Hin. apply Hf. by right.
    + eapply Hf; [by left|exact Hs|exact H1].
Qed.

Lemma mfoldl_app {E A S} (f : S → A → result E S) l1 l2 s :
  mfoldl f s (l1 ++ l2) = let* s' := mfoldl f s l1 in mfoldl f s' l2.
Proof.
  revert s. induction l1 as [|a l1 IH]; intros s; cbn; [done|].
  destruct (f s a); cbn; [apply IH|done].
Qed.

Lemma mmapM_ok {E A B} (f : A → result E B) l bs :
  mmapM f l = Ok bs ↔ Forall2 (λ a b, f a = Ok b) l bs.
Proof.
  revert bs. induction l as [|a l IH]; intros bs; cbn.
  - split; [intros H; inv_ok; by subst | by inversion 1].
  - rewrite bind_ok. setoid_rewrite bind_ok. split.
    + intros (b & Hb & bs' & Hbs & H). inv_ok. subst. constructor; [done|]. by apply IH.
    + inversion 1 as [|? b ? bs' Hb Hbs]; subst. exists b. split; [done|].
      exists bs'. split; [by apply IH|done].
Qed.

(** ** Lemmas: numbers *)

Lemma as_integer_int z : as_integer (int z) = Some z.
Proof. cbn. rewrite Z.rem_1_r. cbn. by rewrite Z.div_1_r. Qed.

(** [Math.round(c / 100 * 100)] gives the cents back. *)
Lemma math_round_cents c : math_round ((c # 100) * 100) = c.
Proof. unfold math_round, Qfloor. cbn. symmetry. apply (Z.div_unique _ _ _ 100); lia. Qed.

Lemma round_div_bounds a b : 0 < b → 2 * a - b < 2 * b * round_div a b ≤ 2 * a + b.
Proof.
  intros Hb. unfold round_div.
  pose proof (Z.div_mod (2 * a + b) (2 * b)). pose proof (Z.mod_pos_bound (2 * a + b) (2 * b)).
  lia.
Qed.

(** ** Lemmas: searching *)

Lemma find_index_Some {A} (p : A → bool) l i :
  find_index p l = Some i → ∃ a, l !! i = Some a ∧ p a = true.
Proof.
  revert i. induction l as [|a l IH]; intros i; cbn; [done|]. destruct (p a) eqn:E.
  - intros [= <-]. eauto.
  - intros (i' & Hi & ->)%fmap_Some. by apply IH.
Qed.

Lemma find_index_first {A} (p : A → bool) l i a :
  (∀ k, find_index p l = Some k → (i < k)%nat) → l !! i = Some a → p a = false.
Proof.
  revert i. induction l as [|b l IH]; intros i; [done|]. cbn. destruct (p b) eqn:E.
  - intros H _. specialize (H O eq_refl). lia.
  - destruct i as [|i]; cbn; [by intros _ [= <-]|]. intros H. apply IH.
    intros k Hk. specialize (H (S k)). rewrite Hk in H. cbn in H. specialize (H eq_refl). lia.
Qed.

(** The only element satisfying [p] is the one found. *)
Lemma find_index_unique {A} (p : A → bool) l x :
  List.filter p l = [x] →
  ∃ i, find_index p l = Some i ∧ l !! i = Some x ∧ ∀ j y, l !! j = Some y → p y = true → j = i.
Proof.
  induction l as [|a l IH]; cbn; [done|]. destruct (p a) eqn:E.
  - intros [= <- Hl]. exists O. split_and!; [done|done|]. intros [|j] y Hj Hy; [done|]. exfalso.
    assert (y ∈ List.filter p l) as Hin; [|rewrite Hl in Hin; by apply elem_of_nil in Hin].
    apply list_elem_of_In, filter_In. split; [|done].
    apply list_elem_of_In. by eapply list_elem_of_lookup_2.
  - intros (i & -> & Hi & Hu)%IH. exists (S i). split; [done|]. split; [exact Hi|].
    intros [|j] y Hj Hy; cbn in Hj; [injection Hj as <-; congruence|]. f_equal. by eapply Hu.
Qed.

Lemma find_index_None {A} (p : A → bool) l :
  find_index p l = None ↔ ∀ a, a ∈ l → p a = false.
Proof.
  induction l as [|a l IH]; cbn; [by split; [intros _ ? ?%elem_of_nil|]|].
  destruct (p a) eqn:E.
  - split; [done|]. intros H. specialize (H a). rewrite H in E; [done|by left].
  - rewrite fmap_None, IH. split; intros H b; [intros [->|?]%elem_of_cons; auto|].
    intros Hb. apply H. by right.
Qed.

(** ** Lemmas: [Array.prototype.filter] *)

Lemma elem_of_lfilter {A} (p : A → bool) l x : x ∈ List.filter p l ↔ x ∈ l ∧ p x = true.
Proof. by rewrite !list_elem_of_In, filter_In. Qed.

Lemma NoDup_lfilter {A} (p : A → bool) (l : list A) : NoDup l → NoDup (List.filter p l).
Proof. rewrite !base.NoDup_ListNoDup. apply List.NoDup_filter. Qed.

Lemma lfilter_perm {A} (p : A → bool) l1 l2 :
  l1 ≡ₚ l2 → List.filter p l1 ≡ₚ List.filter p l2.
Proof. induction 1; cbn; [done| | |by etrans]; repeat destruct (p _); done || by constructor. Qed.

Lemma lfilter_fmap {A B} (f : A → B) (p : B → bool) (q : A → bool) l :
  (∀ a, p (f a) = q a) → List.filter p (f <$> l) = f <$> List.filter q l.
Proof.
  intros H. induction l as [|a l IH]; [done|]. cbn. rewrite H. destruct (q a); cbn; by f_equal.
Qed.

Lemma lfilter_ext {A} (p q : A → bool) l :
  (∀ x, x ∈ l → p x = q x) → List.filter p l = List.filter q l.
Proof.
  induction l as [|a l IH]; intros H; [done|]. cbn. rewrite (H a) by (by left).
  rewrite IH; [done|]. intros. apply H. by right.
Qed.

Lemma lfilter_nil {A} (p : A → bool) l : (∀ x, x ∈ l → p x = false) → List.filter p l = [].
Proof.
  induction l as [|a l IH]; intros H; [done|]. cbn. rewrite (H a) by (by left).
  apply IH. intros. apply H. by right.
Qed.

Lemma lfilter_split {A} (p : A → bool) l :
  List.filter p l ++ List.filter (λ x, negb (p x)) l ≡ₚ l.
Proof.
  induction l as [|a l IH]; [done|]. cbn. destruct (p a); cbn.
  - by constructor.
  - rewrite <- Permutation_middle. by constructor.
Qed.

Lemma omap_fmap_seq {A R} (f : R → option A) (c : nat → R) (l : list A) n :
  (∀ i, f (c (n + i)%nat) = l !! i) → omap f (c <$> seq n (length l)) = l.
Proof.
  revert n. induction l as [|a l IH]; intros n H; [done|]. cbn.
  pose proof (H O) as H0. rewrite Nat.add_0_r in H0. rewrite H0. cbn. f_equal. apply IH.
  intros i. etrans; [|exact (H (S i))]. do 2 f_equal. lia.
Qed.

Lemma omap_filter {A B} (f : A → option B) (q : A → bool) (p : B → bool) l :
  (∀ a b, a ∈ l → f a = Some b → p b = q a) →
  omap f (List.filter q l) = List.filter p (omap f l).
Proof.
  induction l as [|a l IH]; intros H; [done|].
  specialize (IH ltac:(intros; apply H; [by right|done])). specialize (H a).
  assert (∀ k, omap f (a :: k) = match f a with Some b => b :: omap f k | None => omap f k end)
    as Ho by done.
  cbn [List.filter]. rewrite Ho. destruct (f a) as [b|] eqn:E.
  - cbn [List.filter]. rewrite (H b) by (by left || done). rewrite <- IH.
    destruct (q a); [by rewrite Ho|done].
  - rewrite <- IH. destruct (q a); [by rewrite Ho|done].
Qed.

Lemma omap_perm {A B} (f : A → option B) l1 l2 : l1 ≡ₚ l2 → omap f l1 ≡ₚ omap f l2.
Proof.
  induction 1; cbn; [done| | |by etrans]; repeat destruct (f _); rewrite ?IHPermutation; done || constructor.
Qed.

Lemma NoDup_fmap_lfilter {A B} (f : A → B) (p : A → bool) l :
  NoDup (f <$> l) → NoDup (f <$> List.filter p l).
Proof.
  induction l as [|a l IH]; [done|]. intros [H1 H2]%list.NoDup_cons. cbn.
  destruct (p a); [|by apply IH]. cbn. apply list.NoDup_cons. split; [|by apply IH].
  intros (x & Hx & [Hin _]%elem_of_lfilter)%list_elem_of_fmap. apply H1. rewrite Hx.
  apply list_elem_of_fmap. by exists x.
Qed.

Lemma countb_cons {A} (p : A → bool) a l : countb p (a :: l) = (if p a then 1 else 0) + countb p l.
Proof. unfold countb. cbn. destruct (p a); cbn; lia. Qed.

Lemma countb_app {A} (p : A → bool) l1 l2 : countb p (l1 ++ l2) = countb p l1 + countb p l2.
Proof. unfold countb. rewrite List.filter_app, length_app. lia. Qed.

Lemma countb_perm {A} (p : A → bool) l1 l2 : l1 ≡ₚ l2 → countb p l1 = countb p l2.
Proof. intros H. unfold countb. by rewrite (lfilter_perm p _ _ H). Qed.

Lemma countb_nonneg {A} (p : A → bool) l : 0 ≤ countb p l.
Proof. unfold countb. lia. Qed.

Lemma countb_lfilter {A} (p q : A → bool) l : countb p (List.filter q l) ≤ countb p l.
Proof.
  induction l as [|a l IH]; [done|]. cbn. rewrite countb_cons.
  destruct (q a); rewrite ?countb_cons; destruct (p a); lia.
Qed.

Lemma countb_zero {A} (p : A → bool) l : (∀ a, a ∈ l → p a = false) → countb p l = 0.
Proof.
  induction l as [|a l IH]; intros H; [done|]. rewrite countb_cons, (H a) by (by left).
  rewrite IH; [done|]. intros. apply H. by right.
Qed.

Lemma countb_fmap {A B} (f : A → B) (p : B → bool) l : countb p (f <$> l) = countb (λ a, p (f a)) l.
Proof. induction l as [|a l IH]; [done|]. cbn [fmap list_fmap]. rewrite !countb_cons. by f_equal. Qed.

Lemma fmap_concat {A B} (f : A → B) (ls : list (list A)) :
  f <$> concat ls = concat ((λ l : list A, f <$> l) <$> ls).
Proof. induction ls as [|l ls IH]; [done|]. cbn [concat fmap list_fmap]. by rewrite fmap_app, IH. Qed.

Lemma countb_concat {A} (p : A → bool) (ls : list (list A)) :
  countb p (concat ls) = sumZ (countb p <$> ls).
Proof. induction ls as [|l ls IH]; [done|]. cbn. by rewrite countb_app, IH. Qed.

(** Exactly one element of a duplicate-free list satisfies [p]. *)
Lemma countb_unique {A} (p : A → bool) l k :
  NoDup l → k ∈ l → (∀ x, x ∈ l → p x = true ↔ x = k) → countb p l = 1.
Proof.
  induction l as [|a l IH]; [by intros _ ?%elem_of_nil|]. intros [Ha Hl]%list.NoDup_cons Hk Hp.
  rewrite countb_cons. apply elem_of_cons in Hk as [->|Hk].
  - rewrite (proj2 (Hp a ltac:(by left)) eq_refl). rewrite countb_zero; [done|].
    intros x Hx. apply not_true_iff_false. intros E. apply Hp in E; [|by right]. by subst.
  - destruct (p a) eqn:E; [|apply IH; try done; intros x Hx; apply Hp; by right].
    apply Hp in E; [|by left]. by subst.
Qed.

Lemma countb_ext {A} (p q : A → bool) l : (∀ x, x ∈ l → p x = q x) → countb p l = countb q l.
Proof. intros H. unfold countb. by rewrite (lfilter_ext p q). Qed.

Lemma countb_alter {A} (p : A → bool) f i (l : list A) : countb p (alter f i l) ≤ countb p l + 1.
Proof.
  revert i. induction l as [|a l IH]; intros [|i]; [done|done| |].
  - change (alter f O (a :: l)) with (f a :: l). rewrite !countb_cons.
    destruct (p (f a)), (p a); lia.
  - change (alter f (S i) (a :: l)) with (a :: alter f i l). rewrite !countb_cons.
    specialize (IH i). lia.
Qed.

(** ** Lemmas: sums *)

Lemma sumZ_app l1 l2 : sumZ (l1 ++ l2) = sumZ l1 + sumZ l2.
Proof. induction l1; cbn; lia. Qed.

Lemma sumZ_perm l1 l2 : l1 ≡ₚ l2 → sumZ l1 = sumZ l2.
Proof. induction 1; cbn; lia. Qed.

Global Instance sumZ_proper : Proper ((≡ₚ) ==> (=)) sumZ.
Proof. intros l1 l2. apply sumZ_perm. Qed.

Lemma sumZ_nonneg l : Forall (λ z, 0 ≤ z) l → 0 ≤ sumZ l.
Proof. induction 1; cbn; lia. Qed.

Lemma sum_of_cons {A} (f : A → Z) x l : sum_of f (x :: l) = f x + sum_of f l.
Proof. done. Qed.

Lemma sum_of_app {A} (f : A → Z) l1 l2 : sum_of f (l1 ++ l2) = sum_of f l1 + sum_of f l2.
Proof. unfold sum_of. by rewrite fmap_app, sumZ_app. Qed.

Lemma sum_of_perm {A} (f : A → Z) l1 l2 : l1 ≡ₚ l2 → sum_of f l1 = sum_of f l2.
Proof. intros H. unfold sum_of. by rewrite H. Qed.

Lemma sum_of_ext {A} (f g : A → Z) l : (∀ x, x ∈ l → f x = g x) → sum_of f l = sum_of g l.
Proof.
  induction l as [|x l IH]; intros H; [done|]. rewrite !sum_of_cons, H by set_solver.
  rewrite IH; [done|]. set_solver.
Qed.

Lemma sum_of_add {A} (f g : A → Z) l : sum_of (λ x, f x + g x) l = sum_of f l + sum_of g l.
Proof. induction l as [|x l IH]; [done|]. rewrite !sum_of_cons. lia. Qed.

Lemma sum_of_insert {A} (f : A → Z) (l : list A) i x y :
  l !! i = Some x → sum_of f (<[i:=y]> l) = sum_of f l - f x + f y.
Proof.
  revert i. induction l as [|z l IH]; intros [|i] H; simplify_eq/=.
  - rewrite !sum_of_cons. lia.
  - rewrite !sum_of_cons. pose proof (IH i H). unfold insert in *. lia.
Qed.

Lemma sum_of_lfilter {A} (f : A → Z) (p : A → bool) l :
  sum_of f (List.filter p l) = sum_of (λ x, if p x then f x else 0) l.
Proof.
  induction l as [|x l IH]; [done|]. cbn [List.filter]. rewrite sum_of_cons.
  destruct (p x); rewrite ?sum_of_cons; lia.
Qed.

Lemma sum_of_fmap {A B} (g : A → B) (f : B → Z) l : sum_of f (g <$> l) = sum_of (λ x, f (g x)) l.
Proof.
  induction l as [|x l IH]; [done|]. cbn. rewrite !sum_of_cons. by f_equal.
Qed.

Lemma sum_of_zip_fst {A B} (f : A → Z) (l : list A) (k : list B) :
  length l = length k → sum_of (λ t, f t.1) (zip l k) = sum_of f l.
Proof.
  revert k. induction l as [|a l IH]; intros [|b k]; try done. cbn. intros [= H].
  rewrite !sum_of_cons. by rewrite IH.
Qed.

Lemma sum_of_zip_snd {A B} (f : B → Z) (l : list A) (k : list B) :
  length l = length k → sum_of (λ t, f t.2) (zip l k) = sum_of f k.
Proof.
  revert k. induction l as [|a l IH]; intros [|b k]; try done. cbn. intros [= H].
  rewrite !sum_of_cons. by rewrite IH.
Qed.

(** ** Lemmas: [Map] *)

Section jsmap_lemmas.
Context {K V : Type} `{EqDecision K}.
Implicit Types m : list (K * V).

Lemma map_get_set_eq k v m : map_get k (map_set k v m) = Some v.
Proof.
  induction m as [|[k' v'] m IH]; cbn; [by rewrite decide_True|].
  case_decide as Hk; cbn; [by rewrite decide_True|]. by rewrite decide_False.
Qed.

Lemma map_get_set_ne k k' v m : k ≠ k' → map_get k (map_set k' v m) = map_get k m.
Proof.
  intros Hk. induction m as [|[k0 v0] m IH]; cbn; [by rewrite decide_False|].
  destruct (decide (k' = k0)); cbn; repeat case_decide; congruence.
Qed.

Lemma map_get_set k k' v m :
  map_get k (map_set k' v m) = if decide (k = k') then Some v else map_get k m.
Proof. case_decide; subst; [apply map_get_set_eq|by apply map_get_set_ne]. Qed.

Lemma map_get_elem k v m : map_get k m = Some v → (k, v) ∈ m.
Proof.
  induction m as [|[k' v'] m IH]; cbn; [done|].
  case_decide; intros; simplify_eq; set_solver.
Qed.

Lemma map_get_None k m : map_get k m = None ↔ k ∉ m.*1.
Proof.
  induction m as [|[k' v'] m IH]; cbn; [set_solver|].
  rewrite not_elem_of_cons. case_decide as Hk; [split; [done|by intros [? _]]|].
  rewrite IH. split; [done|by intros [_ ?]].
Qed.

Lemma map_get_NoDup k v m : NoDup m.*1 → (k, v) ∈ m → map_get k m = Some v.
Proof.
  induction m as [|[k' v'] m IH]; cbn; [set_solver|]. intros [Hk Hm]%list.NoDup_cons Hin.
  apply elem_of_cons in Hin as [?|Hin]; simplify_eq; [by rewrite decide_True|].
  rewrite decide_False; [by apply IH|]. intros ->. apply Hk.
  apply list_elem_of_fmap. by exists (k', v).
Qed.

Lemma map_set_keys k v m :
  (map_set k v m).*1 = if decide (k ∈ m.*1) then m.*1 else m.*1 ++ [k].
Proof.
  induction m as [|[k' v'] m IH]; cbn; [done|].
  destruct (decide (k = k')) as [->|Hk]; cbn.
  - rewrite decide_True; [done|set_solver].
  - rewrite IH. repeat case_decide; set_solver.
Qed.

Lemma map_set_NoDup k v m : NoDup m.*1 → NoDup (map_set k v m).*1.
Proof.
  intros H. rewrite map_set_keys. case_decide; [done|].
  apply list.NoDup_app. split; [done|]. split; [set_solver|apply NoDup_singleton].
Qed.

Lemma map_set_set k v v' m : map_set k v (map_set k v' m) = map_set k v m.
Proof.
  induction m as [|[k0 v0] m IH]; cbn; [by rewrite decide_True|].
  case_decide as Hk; cbn; [by rewrite decide_True|]. rewrite decide_False by done. by rewrite IH.
Qed.

Lemma map_set_same k v m : map_get k m = Some v → map_set k v m = m.
Proof.
  induction m as [|[k0 v0] m IH]; cbn; [done|]. case_decide as Hk; [by intros [= ->]|].
  intros H. by rewrite IH.
Qed.

Lemma length_map_set k v m :
  length (map_set k v m) = if decide (k ∈ m.*1) then length m else S (length m).
Proof.
  rewrite <- (length_fmap fst (map_set k v m)), map_set_keys. case_decide.
  - by rewrite length_fmap.
  - rewrite length_app, length_fmap. cbn. lia.
Qed.

Lemma elem_of_map_set k v m p : p ∈ map_set k v m → p = (k, v) ∨ p ∈ m.
Proof.
  induction m as [|[k0 v0] m IH]; cbn; [set_solver|]. case_decide; subst; set_solver.
Qed.

Lemma map_delete_sublist k m : map_delete k m `sublist_of` m.
Proof.
  induction m as [|[k0 v0] m IH]; cbn; [done|]. case_decide; by constructor.
Qed.

Lemma map_delete_NoDup k m : NoDup m.*1 → NoDup (map_delete k m).*1.
Proof.
  intros H. assert ((map_delete k m).*1 `sublist_of` m.*1) as Hs.
  { clear H. induction m as [|[k0 v0] m IH]; cbn; [done|]. case_decide; by constructor. }
  by eapply sublist_NoDup.
Qed.

Lemma map_delete_notin k m : NoDup m.*1 → k ∉ (map_delete k m).*1.
Proof.
  induction m as [|[k0 v0] m IH]; cbn; [set_solver|]. intros [Hk Hm]%list.NoDup_cons.
  case_decide; subst; [done|]. cbn. apply not_elem_of_cons. split; [done|by apply IH].
Qed.

Lemma map_get_delete_ne k k' m : k ≠ k' → map_get k (map_delete k' m) = map_get k m.
Proof.
  intros Hk. induction m as [|[k0 v0] m IH]; cbn; [done|].
  destruct (decide (k' = k0)) as [->|]; cbn; [by rewrite decide_False|]. by rewrite IH.
Qed.

Lemma map_set_absent k v m : k ∉ m.*1 → map_set k v m = m ++ [(k, v)].
Proof.
  intros Hx. induction m as [|[k' v'] m IH]; [done|]. cbn in *.
  rewrite not_elem_of_cons in Hx. destruct Hx as [H1 H2]. rewrite decide_False by done. by rewrite IH.
Qed.

(** Building a [Map] from entries with distinct keys keeps them in order. *)
Lemma map_of_entries {A} (key : A → K) (val : A → V) (l : list A) m :
  NoDup (m.*1 ++ (key <$> l)) →
  foldl (λ m x, map_set (key x) (val x) m) m l = m ++ ((λ x, (key x, val x)) <$> l).
Proof.
  revert m. induction l as [|x l IH]; intros m H; cbn; [symmetry; apply app_nil_r|].
  assert (key x ∉ m.*1) as Hx.
  { apply list.NoDup_app in H as (_ & H & _). intros Hin. apply (H _ Hin). left. }
  rewrite map_set_absent, IH, <- app_assoc; [done| |done]. rewrite fmap_app, <- app_assoc. exact H.
Qed.

Lemma length_map_delete k m :
  length (map_delete k m) = if decide (k ∈ m.*1) then pred (length m) else length m.
Proof.
  induction m as [|[k0 v0] m IH]; cbn; [done|]. destruct (decide (k = k0)) as [->|Hk].
  - rewrite decide_True; [done|by left].
  - cbn. rewrite IH. destruct (decide (k ∈ m.*1)) as [Hin|Hin].
    + rewrite decide_True by (by right). destruct m; [by apply elem_of_nil in Hin|done].
    + rewrite decide_False; [done|]. by rewrite elem_of_cons; intros [?|?].
Qed.

End jsmap_lemmas.

(** ** Tallies: [map.set(k, (map.get(k) || 0) + 1)] over a list *)

Section tally.
Context {A K : Type} `{EqDecision K} (key : A → K).

Definition tally (l : list A) : list (K * Z) :=
  foldl (λ m x, map_set (key x) (default 0 (map_get (key x) m) + 1) m) [] l.

Lemma tally_snoc l x :
  tally (l ++ [x]) = map_set (key x) (default 0 (map_get (key x) (tally l)) + 1) (tally l).
Proof. unfold tally. by rewrite foldl_app. Qed.

Lemma tally_NoDup l : NoDup (tally l).*1.
Proof.
  induction l as [|x l IH] using rev_ind; [constructor|]. rewrite tally_snoc. by apply map_set_NoDup.
Qed.

Lemma tally_get l k : default 0 (map_get k (tally l)) = countb (λ x, bool_decide (key x = k)) l.
Proof.
  induction l as [|x l IH] using rev_ind; [done|].
  rewrite tally_snoc, countb_app, map_get_set, countb_cons, <- IH.
  change (countb (λ x, bool_decide (key x = k)) (@nil A)) with 0.
  destruct (decide (k = key x)) as [->|Hk].
  - rewrite bool_decide_true by done. cbn [default]. unfold id. lia.
  - rewrite bool_decide_false by congruence. lia.
Qed.

Lemma tally_elem l k n : (k, n) ∈ tally l → n = countb (λ x, bool_decide (key x = k)) l.
Proof.
  intros H. rewrite <- tally_get. by rewrite (map_get_NoDup _ _ _ (tally_NoDup l) H).
Qed.

(** A bound on every entry is a bound on every count. *)
Lemma tally_bound l b :
  0 ≤ b → (∀ e, e ∈ tally l → e.2 ≤ b) ↔ ∀ k, countb (λ x, bool_decide (key x = k)) l ≤ b.
Proof.
  intros Hb. split.
  - intros H k. rewrite <- tally_get. destruct (map_get k (tally l)) as [n|] eqn:E; [|done].
    apply map_get_elem in E. by apply (H (k, n)).
  - intros H [k n] He. cbn. by rewrite (tally_elem _ _ _ He).
Qed.

End tally.

Lemma length_remove_dups_le `{EqDecision A} (l : list A) : (length (remove_dups l) ≤ length l)%nat.
Proof. induction l as [|a l IH]; cbn; [done|]. case_decide; cbn; lia. Qed.

(** [new Set(l).size === l.length]. *)
Lemma length_remove_dups_eq `{EqDecision A} (l : list A) :
  length (remove_dups l) = length l ↔ NoDup l.
Proof.
  induction l as [|a l IH]; cbn; [by split; [constructor|]|].
  rewrite list.NoDup_cons, <- IH. pose proof (length_remove_dups_le l).
  destruct (decide_rel elem_of a l) as [Ha|Ha]; cbn; split.
  - lia.
  - by intros [? _].
  - intros. split; [done|lia].
  - intros [_ ->]. done.
Qed.

(** ** Lemmas: sorting *)

Section sort_lemmas.
Context {A : Type} (cmp : A → A → Z).

Lemma insert_by_perm x l : insert_by cmp x l ≡ₚ x :: l.
Proof.
  induction l as [|y l IH]; cbn; [done|]. destruct (_ <=? _); [done|].
  rewrite IH. constructor.
Qed.

Lemma sort_by_perm l : sort_by cmp l ≡ₚ l.
Proof. induction l as [|x l IH]; cbn; [done|]. by rewrite insert_by_perm, IH. Qed.

Lemma length_sort_by l : length (sort_by cmp l) = length l.
Proof. apply Permutation_length, sort_by_perm. Qed.

Lemma elem_of_sort_by x l : x ∈ sort_by cmp l ↔ x ∈ l.
Proof. by rewrite sort_by_perm. Qed.

Context `{!Comparator cmp}.

Lemma cmp_refl_0 a : cmp a a = 0.
Proof. pose proof (cmp_sgn a a). lia. Qed.

Lemma cmp_total a b : cmp a b ≤ 0 ∨ cmp b a ≤ 0.
Proof. pose proof (cmp_sgn a b). lia. Qed.

Lemma cmp_flip a b : 0 < cmp a b ↔ cmp b a < 0.
Proof. pose proof (cmp_sgn a b). lia. Qed.

Lemma insert_by_sorted x l :
  StronglySorted (λ a b, cmp a b ≤ 0) l → StronglySorted (λ a b, cmp a b ≤ 0) (insert_by cmp x l).
Proof.
  induction 1 as [|y l Hl IH Hy]; cbn; [by repeat constructor|].
  destruct (cmp x y <=? 0) eqn:E; bool_to_prop.
  - constructor; [by constructor|]. constructor; [done|].
    eapply Forall_impl; [exact Hy|]. intros z Hz. by eapply cmp_trans.
  - constructor; [done|]. rewrite insert_by_perm. constructor; [|done].
    destruct (cmp_total x y); lia.
Qed.

Lemma sort_by_sorted l : StronglySorted (λ a b, cmp a b ≤ 0) (sort_by cmp l).
Proof. induction l; cbn; [constructor|]. by apply insert_by_sorted. Qed.

(** Sorting a list that is already sorted changes nothing. *)
Lemma sort_by_id l : StronglySorted (λ a b, cmp a b ≤ 0) l → sort_by cmp l = l.
Proof.
  induction 1 as [|x l Hl IH Hx]; [done|]. unfold sort_by in *. cbn. rewrite IH.
  destruct l as [|y l]; cbn; [done|]. inversion Hx; subst.
  by rewrite (proj2 (Z.leb_le _ _)).
Qed.

(** When no two elements compare equal the result does not depend on the
    order in which the database returned the rows. *)
Lemma sort_by_unique l1 l2 :
  (∀ a b, a ∈ l1 → b ∈ l1 → cmp a b = 0 → a = b) → l1 ≡ₚ l2 → sort_by cmp l1 = sort_by cmp l2.
Proof.
  intros Hanti Hp.
  assert (sort_by cmp l1 ≡ₚ sort_by cmp l2) as Hp' by by rewrite !sort_by_perm.
  pose proof (sort_by_sorted l1) as H1. pose proof (sort_by_sorted l2) as H2.
  assert (∀ a b, a ∈ sort_by cmp l1 → b ∈ sort_by cmp l1 → cmp a b = 0 → a = b) as Ha.
  { intros a b. rewrite !elem_of_sort_by. apply Hanti. }
  clear Hanti Hp. revert Hp' H1 H2 Ha.
  generalize (sort_by cmp l2). generalize (sort_by cmp l1).
  intros k1. induction k1 as [|x k1 IH]; intros k2 Hp H1 H2 Ha.
  - by apply Permutation_nil_l in Hp.
  - destruct k2 as [|y k2]; [by apply symmetry, Permutation_nil_cons in Hp|].
    inversion H1 as [|?? Hs1 Hf1]; inversion H2 as [|?? Hs2 Hf2]; subst.
    assert (x = y) as <-.
    { assert (x ∈ y :: k2) as Hx by (rewrite <- Hp; set_solver).
      assert (y ∈ x :: k1) as Hy by (rewrite Hp; set_solver).
      apply elem_of_cons in Hx as [->|Hx]; [done|].
      apply elem_of_cons in Hy as [->|Hy]; [done|].
      apply Ha; [set_solver|set_solver|].
      rewrite Forall_forall in Hf1, Hf2. specialize (Hf1 _ Hy). specialize (Hf2 _ Hx).
      pose proof (cmp_sgn x y). lia. }
    f_equal. apply IH; [by apply Permutation_cons_inv in Hp|done|done|set_solver].
Qed.

End sort_lemmas.

Global Instance asc_comparator {A} (f : A → Z) : Comparator (asc f).
Proof. unfold asc. split; intros; lia. Qed.

Global Instance desc_comparator {A} (f : A → Z) : Comparator (desc f).
Proof. unfold desc. split; intros; lia. Qed.

Global Instance then_by_comparator {A} (c1 c2 : A → A → Z) `{!Comparator c1, !Comparator c2} :
  Comparator (then_by c1 c2).
Proof.
  unfold then_by. split.
  - intros a b. pose proof (cmp_sgn (cmp := c1) a b). pose proof (cmp_sgn (cmp := c2) a b).
    destruct (c1 a b =? 0) eqn:E1, (c1 b a =? 0) eqn:E2; bool_to_prop; lia.
  - intros a b c. pose proof (cmp_trans (cmp := c1) a b c). pose proof (cmp_trans (cmp := c1) c a b).
    pose proof (cmp_trans (cmp := c1) b c a). pose proof (cmp_trans (cmp := c2) a b c).
    pose proof (cmp_sgn (cmp := c1) a b). pose proof (cmp_sgn (cmp := c1) b c).
    pose proof (cmp_sgn (cmp := c1) a c).
    destruct (c1 a b =? 0) eqn:E1, (c1 b c =? 0) eqn:E2, (c1 a c =? 0) eqn:E3;
      bool_to_prop; intros; lia.
Qed.

Lemma insert_by_fmap {A B} (f : A → B) (cmp : B → B → Z) x l :
  insert_by cmp (f x) (f <$> l) = f <$> insert_by (λ a b, cmp (f a) (f b)) x l.
Proof.
  induction l as [|y l IH]; [done|]. cbn [fmap list_fmap insert_by].
  destruct (cmp (f x) (f y) <=? 0); [done|]. cbn [fmap list_fmap]. by rewrite <- IH.
Qed.

(** Sorting by a key commutes with taking it. *)
Lemma sort_by_fmap {A B} (f : A → B) (cmp : B → B → Z) l :
  sort_by cmp (f <$> l) = f <$> sort_by (λ a b, cmp (f a) (f b)) l.
Proof.
  unfold sort_by. induction l as [|x l IH]; [done|]. cbn [fmap list_fmap foldr].
  rewrite <- insert_by_fmap, <- IH. done.
Qed.

Lemma insert_by_ext {A} (cmp cmp' : A → A → Z) x l :
  (∀ a b, cmp a b = cmp' a b) → insert_by cmp x l = insert_by cmp' x l.
Proof. intros H. induction l as [|y l IH]; cbn; [done|]. by rewrite H, IH. Qed.

Lemma sort_by_ext {A} (cmp cmp' : A → A → Z) l :
  (∀ a b, cmp a b = cmp' a b) → sort_by cmp l = sort_by cmp' l.
Proof.
  intros H. unfold sort_by. induction l as [|x l IH]; cbn; [done|]. rewrite IH. by apply insert_by_ext.
Qed.

#[export] Hint Resolve sort_by_perm sort_by_sorted map_set_NoDup : fxi.
#[export] Hint Rewrite @length_sort_by @sumZ_app @map_get_set_eq : fxi.

Lemma sorted_impl {A} (R R' : A → A → Prop) l :
  (∀ a b, R a b → R' a b) → StronglySorted R l → StronglySorted R' l.
Proof.
  intros HR. induction 1 as [|a l _ IH Ha]; constructor; [done|]. eapply Forall_impl; [exact Ha|]. auto.
Qed.

Lemma sorted_suffix {A} (R : A → A → Prop) l1 l2 : StronglySorted R (l1 ++ l2) → StronglySorted R l2.
Proof. induction l1 as [|a l1 IH]; [done|]. intros H. apply IH. by inversion H. Qed.

Lemma sorted_snoc {A} (R : A → A → Prop) l x :
  StronglySorted R l → (∀ a, a ∈ l → R a x) → StronglySorted R (l ++ [x]).
Proof.
  induction 1 as [|a l Hl IH Ha]; intros Hx; cbn; [by repeat constructor|].
  constructor; [apply IH; intros b Hb; apply Hx; by right|].
  apply Forall_app. split; [done|]. repeat constructor. apply Hx. by left.
Qed.

Lemma sorted_elem {A} (R : A → A → Prop) a l x : StronglySorted R (a :: l) → x ∈ l → R a x.
Proof. intros H Hx. inversion_clear H as [|? ? _ Ha]. by apply (proj1 (Forall_forall _ _) Ha). Qed.

Lemma lfilter_insert_by {A} (p : A → bool) (cmp : A → A → Z) `{!Comparator cmp} x l :
  StronglySorted (λ a b, cmp a b ≤ 0) l →
  List.filter p (insert_by cmp x l) = if p x then insert_by cmp x (List.filter p l) else List.filter p l.
Proof.
  induction 1 as [|y l Hl IH Hy]; cbn; [by destruct (p x)|].
  destruct (cmp x y <=? 0) eqn:E; cbn.
  - destruct (p x); [|done]. destruct (p y); cbn; [by rewrite E|]. apply Z.leb_le in E.
    destruct (List.filter p l) as [|z l'] eqn:F; cbn; [done|].
    assert (z ∈ List.filter p l) as [Hz _]%elem_of_lfilter by (rewrite F; by left).
    rewrite Forall_forall in Hy. specialize (Hy z Hz). pose proof (cmp_trans (cmp := cmp) x y z) as Ht.
    by rewrite (proj2 (Z.leb_le (cmp x z) 0) ltac:(lia)).
  - rewrite IH. destruct (p y), (p x); cbn; by rewrite ?E.
Qed.

(** The sort is stable, so filtering commutes with it. *)
Lemma lfilter_sort_by {A} (p : A → bool) (cmp : A → A → Z) `{!Comparator cmp} l :
  List.filter p (sort_by cmp l) = sort_by cmp (List.filter p l).
Proof.
  induction l as [|x l IH]; [done|]. change (sort_by cmp (x :: l)) with (insert_by cmp x (sort_by cmp l)).
  rewrite (lfilter_insert_by p cmp x _ (sort_by_sorted cmp l)), IH. cbn [List.filter]. by destruct (p x).
Qed.

Lemma lfilter_id {A} (p : A → bool) l : (∀ x, x ∈ l → p x = true) → List.filter p l = l.
Proof.
  induction l as [|a l IH]; intros H; [done|]. cbn. rewrite (H a) by (by left).
  f_equal. apply IH. intros. apply H. by right.
Qed.

Lemma lfilter_lfilter {A} (p q : A → bool) l :
  (∀ x, p x = true → q x = true) → List.filter p (List.filter q l) = List.filter p l.
Proof.
  intros H. induction l as [|a l IH]; [done|]. cbn. destruct (q a) eqn:Eq; cbn; [by rewrite IH|].
  destruct (p a) eqn:Ep; [by apply H in Ep; congruence|done].
Qed.

Lemma countb_delete {A} (p : A → bool) (l : list A) i x :
  l !! i = Some x → countb p l = (if p x then 1 else 0) + countb p (delete i l).
Proof. intros H. by rewrite (countb_perm p _ _ (delete_Permutation _ _ _ H)), countb_cons. Qed.

Lemma countb_insert {A} (p : A → bool) (l : list A) i x y :
  l !! i = Some x → countb p (<[i:=y]> l) + (if p x then 1 else 0) = countb p l + (if p y then 1 else 0).
Proof.
  revert i. induction l as [|a l IH]; intros [|i] H; try done.
  - injection H as ->. change (<[O:=y]> (x :: l)) with (y :: l). rewrite !countb_cons. lia.
  - change (<[S i:=y]> (a :: l)) with (a :: <[i:=y]> l). rewrite !countb_cons. specialize (IH i H). lia.
Qed.

(** ** Stateful code that can throw

    What was written before a throw stays, except inside a transaction. *)

Section state_error.
Context {S E : Type}.

Definition state_error (A : Type) : Type := S → S * result E A.

Definition mok {A} (a : A) : state_error A := λ s, (s, Ok a).
Definition mthrow {A} (e : E) : state_error A := λ s, (s, Err e).
Definition mbind' {A B} (m : state_error A) (k : A → state_error B) : state_error B := λ s,
  match m s with (s', Ok a) => k a s' | (s', Err e) => (s', Err e) end.
Definition mread {A} (f : S → A) : state_error A := λ s, (s, Ok (f s)).
Definition mlift {A} (r : result E A) : state_error A := λ s, (s, r).

(** A write that the database may refuse. *)
Definition mwrite (f : S → result E S) : state_error () := λ s,
  match f s with Ok s' => (s', Ok tt) | Err e => (s, Err e) end.

(** [$transaction]: a throw takes back what was written inside. *)
Definition mtransaction {A} (m : state_error A) : state_error A := λ s,
  match m s with (s', Ok a) => (s', Ok a) | (_, Err e) => (s, Err e) end.

Definition guard_throw (b : bool) (e : E) : state_error () := if b then mthrow e else mok tt.
Definition found {A} (o : option A) (e : E) : state_error A :=
  match o with Some a => mok a | None => mthrow e end.
End state_error.

Arguments state_error : clear implicits.

Declare Scope state_error_scope.
Delimit Scope state_error_scope with state_error.
Notation "'let!' x := m 'in' k" := (mbind' m (λ x, k))
  (at level 200, x pattern, m at level 100, k at level 200) : state_error_scope.
Notation "m ;! k" := (mbind' m (λ _, k)) (at level 199, right associativity) : state_error_scope.

Lemma mbind_cases {S E A B} (m : state_error S E A) (k : A → state_error S E B) s s' r :
  mbind' m k s = (s', r) →
  (∃ s1 a, m s = (s1, Ok a) ∧ k a s1 = (s', r)) ∨ (∃ e, m s = (s', Err e) ∧ r = Err e).
Proof. unfold mbind'. destruct (m s) as [s1 [a|e]]; [eauto|]. intros [= <- <-]. eauto. Qed.

Lemma NoDup_snoc {A} (l : list A) x : NoDup l → x ∉ l → NoDup (l ++ [x]).
Proof.
  intros. apply list.NoDup_app. split_and!; [done| |apply NoDup_singleton]. set_solver.
Qed.

Lemma countb_pos {A} (p : A → bool) l x : x ∈ l → p x = true → 0 < countb p l.
Proof.
  intros [i Hi]%list_elem_of_lookup Hp. rewrite <- (take_drop_middle l i x Hi), countb_app, countb_cons, Hp.
  pose proof (countb_nonneg p (take i l)). pose proof (countb_nonneg p (drop (S i) l)). lia.
Qed.

Lemma countb_elem {A} (p : A → bool) l : 0 < countb p l → ∃ x, x ∈ l ∧ p x = true.
Proof.
  induction l as [|a l IH]; [done|]. rewrite countb_cons. destruct (p a) eqn:E.
  - intros _. exists a. split; [by left|done].
  - intros H. destruct IH as (x & Hx & Hp); [lia|]. exists x. split; [by right|done].
Qed.

(** A key that is unique in a table. *)
Lemma fmap_unique {A K} (g : A → K) (q : list A) e1 e2 : NoDup (g <$> q) → e1 ∈ q → e2 ∈ q → g e1 = g e2 → e1 = e2.
Proof.
  intros Hnd [i Hi]%list_elem_of_lookup [j Hj]%list_elem_of_lookup E.
  assert (i = j) as -> by (eapply (NoDup_lookup (g <$> q)); [done| |]; rewrite list_lookup_fmap, ?Hi, ?Hj; cbn; by rewrite ?E).
  congruence.
Qed.

Lemma find_elem {A} (p : A → bool) l x : List.find p l = Some x → x ∈ l ∧ p x = true.
Proof. intros [H1 H2]%List.find_some. by rewrite list_elem_of_In. Qed.

Lemma find_absent {A} (p : A → bool) l x : List.find p l = None → x ∈ l → p x = false.
Proof. intros Hf Hx. eapply List.find_none; [exact Hf|]. by apply list_elem_of_In. Qed.

Lemma find_iff {A} (f : A → bool) l : (∃ x, List.find f l = Some x) ↔ ∃ x, x ∈ l ∧ f x = true.
Proof.
  split; [intros (x & Hx%find_elem); by exists x|]. intros (x & Hx & Hf).
  destruct (List.find f l) as [y|] eqn:E; [by exists y|]. exfalso. pose proof (find_absent f l x E Hx). congruence.
Qed.

Lemma find_lfilter {A} (f g : A → bool) l : List.find f (List.filter g l) = List.find (λ x, g x && f x) l.
Proof. induction l as [|x l IH]; [done|]. cbn. destruct (g x); cbn; [by destruct (f x)|done]. Qed.

Lemma find_ext {A} (f g : A → bool) l : (∀ x, f x = g x) → List.find f l = List.find g l.
Proof. intros H. induction l as [|x l IH]; [done|]. cbn. by rewrite H, IH. Qed.

(** ** Grouping in a [Map]: [map.get(key(x)) ?? []], [push], [set] *)

Section grouping.
Context {K A : Type} `{EqDecision K} (key : A → option K).

(** Elements without a key are skipped. *)
Definition add_to_group (groups : list (K * list A)) (x : A) : list (K * list A) :=
  match key x with
  | Some k => map_set k (default [] (map_get k groups) ++ [x]) groups
  | None => groups
  end.

Definition group_by (l : list A) : list (K * list A) := foldl add_to_group [] l.

Definition with_key (k : K) (x : A) : bool := bool_decide (key x = Some k).

Lemma with_key_eq k x : with_key k x = bool_decide (key x = Some k).
Proof. done. Qed.

(** Each key once, with its elements in the order of the list. *)
Lemma group_by_spec l :
  NoDup (group_by l).*1 ∧
  (∀ k, default [] (map_get k (group_by l)) = List.filter (with_key k) l) ∧
  (∀ k g, map_get k (group_by l) = Some g → g ≠ []).
Proof.
  induction l as [|x l IH] using rev_ind; [split_and!; [constructor|done|done]|].
  destruct IH as (Hnd & Hget & Hin). unfold group_by in *. rewrite foldl_app. cbn [foldl].
  setoid_rewrite List.filter_app. cbn [List.filter]. set (m := foldl add_to_group [] l) in *.
  unfold add_to_group. setoid_rewrite with_key_eq. destruct (key x) as [k0|] eqn:Ek.
  - split_and!; [by apply map_set_NoDup| |].
    + intros k. rewrite map_get_set. case_decide as E.
      * subst k. rewrite bool_decide_eq_true_2 by done. cbn. by rewrite Hget.
      * rewrite bool_decide_eq_false_2 by congruence. by rewrite app_nil_r.
    + intros k g. rewrite map_get_set. case_decide; [|apply Hin]. intros [= <-]. by destruct (default _ _).
  - split_and!; [done| |done]. intros k. rewrite bool_decide_eq_false_2 by done. by rewrite app_nil_r.
Qed.

Lemma group_by_get l k :
  map_get k (group_by l) = match List.filter (with_key k) l with [] => None | g => Some g end.
Proof.
  destruct (group_by_spec l) as (_ & Hget & Hne). rewrite <- Hget. destruct (map_get k (group_by l)) as [[|a g]|] eqn:E; [|done|done].
  by destruct (Hne _ _ E).
Qed.

Lemma group_by_entry l k g : (k, g) ∈ group_by l ↔ g = List.filter (with_key k) l ∧ g ≠ [].
Proof.
  destruct (group_by_spec l) as (Hnd & Hget & Hne). split.
  - intros Hin%map_get_NoDup; [|done]. split; [|by eapply Hne]. by rewrite <- Hget, Hin.
  - intros [-> Hg]. apply map_get_elem. rewrite group_by_get. by destruct (List.filter _ l).
Qed.

End grouping.
