(* ===== verification/Text.v ===== *)
(** * Text

    The string operations of JavaScript the components share, on ASCII text:
    character classes of the regular expressions, [trim], [split], [toLowerCase]; and the
    numerals [BigInt] prints and reads. *)

From Stdlib Require Import Ascii String.
From S2P Require Import Prelude.

#[local] Open Scope Z_scope.

Definition is_hex_lower (c : ascii) : bool :=
  let n := Z.of_N (N_of_ascii c) in ((48 <=? n) && (n <=? 57)) || ((97 <=? n) && (n <=? 102)).

Definition is_hex (c : ascii) : bool :=
  let n := Z.of_N (N_of_ascii c) in is_hex_lower c || ((65 <=? n) && (n <=? 70)).

Definition lower_char (c : ascii) : ascii :=
  let n := N_of_ascii c in if (65 <=? Z.of_N n) && (Z.of_N n <=? 90) then ascii_of_N (n + 32) else c.

(** [toLowerCase]. *)
Definition lower_string (s : string) : string := string_of_list_ascii (lower_char <$> list_ascii_of_string s).

Definition is_blank (c : ascii) : bool :=
  let n := Z.of_N (N_of_ascii c) in (n =? 32) || ((9 <=? n) && (n <=? 13)).

Fixpoint drop_blank (l : list ascii) : list ascii :=
  match l with [] => [] | c :: l' => if is_blank c then drop_blank l' else l end.

(** [trim()]. *)
Definition trim_text (l : list ascii) : list ascii := reverse (drop_blank (reverse (drop_blank l))).

Definition is_digit (c : ascii) : bool := let n := nat_of_ascii c in (48 <=? n)%nat && (n <=? 57)%nat.

Definition is_lower_letter (c : ascii) : bool := let n := Z.of_N (N_of_ascii c) in (97 <=? n) && (n <=? 122).

(** [split(sep)] for a separator of one character: never empty. *)
Fixpoint split_char (sep : ascii) (l : list ascii) : list (list ascii) :=
  match l with
  | [] => [[]]
  | c :: l' =>
      if Ascii.eqb c sep then [] :: split_char sep l'
      else match split_char sep l' with w :: ws => (c :: w) :: ws | [] => [[c]] end
  end.

(** [split(/\s+/)]: the maximal blank runs separate. *)
Fixpoint split_blanks (l : list ascii) : list (list ascii) :=
  match l with
  | [] => [[]]
  | c :: l' =>
      if is_blank c then
        match l' with c' :: _ => if is_blank c' then split_blanks l' else [] :: split_blanks l' | [] => [[]; []] end
      else match split_blanks l' with w :: ws => (c :: w) :: ws | [] => [[c]] end
  end.

Example split_blanks_runs :
  split_blanks (list_ascii_of_string "Bearer   abc.def x") = list_ascii_of_string <$> ["Bearer"; "abc.def"; "x"]%string.
Proof. reflexivity. Qed.

Example split_char_keys :
  split_char ","%char (list_ascii_of_string "a:1,c,b") = list_ascii_of_string <$> ["a:1"; "c"; "b"]%string.
Proof. reflexivity. Qed.

(** ** Numbers as text *)

Definition hex_digit (c : ascii) : Z :=
  let n := Z.of_N (N_of_ascii c) in
  if n <=? 57 then n - 48 else if n <=? 70 then n - 55 else n - 87.

(** The digits of a number, the least significant first; a number has at most
    as many digits as bits. *)
Fixpoint radix_fuel (fuel : nat) (base n : Z) : list Z :=
  match fuel with
  | O => []
  | S fuel => n mod base :: (if n / base =? 0 then [] else radix_fuel fuel base (n / base))
  end.

Definition radix_digits (base n : Z) : list Z := reverse (radix_fuel (S (Z.to_nat (Z.log2 n))) base n).

Definition radix_value (base : Z) (l : list Z) : Z := foldl (λ acc d, base * acc + d) 0 l.

Definition digit_char (d : Z) : ascii :=
  ascii_of_N (Z.to_N (if d <? 10 then 48 + d else 87 + d)).

(** [toString(base)] of a [BigInt]. *)
Definition radix_text (base n : Z) : list ascii :=
  if n <? 0 then "-"%char :: (digit_char <$> radix_digits base (- n)) else digit_char <$> radix_digits base n.

(** [padStart]. *)
Definition pad_start (n : nat) (c : ascii) (l : list ascii) : list ascii := replicate (n - length l) c ++ l.

Definition parse_digits (base : Z) (l : list ascii) : option Z :=
  if negb (bool_decide (l = [])) && forallb (λ c, is_hex c && (hex_digit c <? base)) l
  then Some (radix_value base (hex_digit <$> l)) else None.

(** [BigInt(text)]; [None] is a SyntaxError. *)
Definition bigint_of_text (s : list ascii) : option Z :=
  match trim_text s with
  | [] => Some 0
  | "0"%char :: c :: l =>
      if existsb (Ascii.eqb c) ["x"; "X"]%char then parse_digits 16 l
      else if existsb (Ascii.eqb c) ["o"; "O"]%char then parse_digits 8 l
      else if existsb (Ascii.eqb c) ["b"; "B"]%char then parse_digits 2 l
      else parse_digits 10 ("0"%char :: c :: l)
  | "-"%char :: l => Z.opp <$> parse_digits 10 l
  | "+"%char :: l => parse_digits 10 l
  | l => parse_digits 10 l
  end.

(** ** Lemmas: digits *)

Lemma digit_char_hex d : 0 ≤ d < 16 →
  is_hex (digit_char d) = true ∧ hex_digit (digit_char d) = d ∧ is_blank (digit_char d) = false.
Proof.
  intros Hd. assert (d = 0 ∨ d = 1 ∨ d = 2 ∨ d = 3 ∨ d = 4 ∨ d = 5 ∨ d = 6 ∨ d = 7 ∨ d = 8 ∨ d = 9 ∨ d = 10 ∨
    d = 11 ∨ d = 12 ∨ d = 13 ∨ d = 14 ∨ d = 15) as H by lia.
  repeat (destruct H as [->|H]; [by split_and!|]). subst. by split_and!.
Qed.

Lemma digit_char_dec d : 0 ≤ d < 10 → digit_char d ∉ ["x"; "X"; "o"; "O"; "b"; "B"; "-"; "+"]%char.
Proof.
  intros Hd. assert (d = 0 ∨ d = 1 ∨ d = 2 ∨ d = 3 ∨ d = 4 ∨ d = 5 ∨ d = 6 ∨ d = 7 ∨ d = 8 ∨ d = 9) as H by lia.
  repeat (destruct H as [->|H]; [apply (bool_decide_unpack _); vm_compute; exact I|]). subst.
  apply (bool_decide_unpack _); vm_compute; exact I.
Qed.

Definition in_base (base : Z) (l : list Z) : Prop := Forall (λ d, 0 ≤ d < base) l.

Lemma radix_value_snoc base l d : radix_value base (l ++ [d]) = base * radix_value base l + d.
Proof. unfold radix_value. by rewrite foldl_app. Qed.

Lemma radix_fuel_spec fuel base n : 2 ≤ base → 0 ≤ n < base ^ Z.of_nat fuel → (0 < fuel)%nat →
  radix_value base (reverse (radix_fuel fuel base n)) = n ∧ in_base base (radix_fuel fuel base n) ∧
  (1 ≤ length (radix_fuel fuel base n))%nat.
Proof.
  intros Hb. revert n. induction fuel as [|fuel IH]; intros n Hn Hf; [lia|]. cbn [radix_fuel].
  pose proof (Z.mod_pos_bound n base). pose proof (Z.div_mod n base).
  destruct (Z.eqb_spec (n / base) 0) as [E|E].
  - cbn. split_and!; [rewrite E in *; lia| |lia]. constructor; [lia|constructor].
  - rewrite Nat2Z.inj_succ, Z.pow_succ_r in Hn by lia.
    assert (0 ≤ n / base < base ^ Z.of_nat fuel) as Hq.
    { split; [apply Z.div_pos; lia|]. apply Z.div_lt_upper_bound; lia. }
    destruct fuel as [|fuel']; [cbn in Hq; lia|]. destruct (IH (n / base) Hq) as (IH1 & IH2 & IH3); [lia|].
    rewrite reverse_cons, radix_value_snoc, IH1. split_and!; [lia| |cbn; lia]. constructor; [lia|done].
Qed.

Lemma radix_digits_spec base n : 2 ≤ base → 0 ≤ n →
  radix_value base (radix_digits base n) = n ∧ in_base base (radix_digits base n) ∧ radix_digits base n ≠ [].
Proof.
  intros Hb Hn. unfold radix_digits.
  destruct (radix_fuel_spec (S (Z.to_nat (Z.log2 n))) base n) as (H1 & H2 & H3); [done| |lia|].
  { split; [done|]. rewrite Nat2Z.inj_succ, Z2Nat.id by apply Z.log2_nonneg.
    destruct (Z.eq_dec n 0) as [->|Hne]; [apply Z.pow_pos_nonneg; cbn; lia|].
    apply Z.lt_le_trans with (2 ^ Z.succ (Z.log2 n)); [apply Z.log2_spec; lia|].
    apply Z.pow_le_mono_l; lia. }
  split_and!; [done|by apply Forall_reverse|]. intros E. apply (f_equal length) in E. rewrite length_reverse in E. cbn in *. lia.
Qed.

Lemma parse_digits_text base l : base ≤ 16 → in_base base l → l ≠ [] →
  parse_digits base (digit_char <$> l) = Some (radix_value base l).
Proof.
  intros Hb Hl Hne. unfold parse_digits. rewrite bool_decide_eq_false_2 by (by destruct l).
  assert (forallb (λ c, is_hex c && (hex_digit c <? base)) (digit_char <$> l) = true ∧ hex_digit <$> (digit_char <$> l) = l) as [-> ->].
  { clear Hne. induction Hl as [|d l Hd Hl [IH1 IH2]]; [done|]. destruct (digit_char_hex d) as (H1 & H2 & _); [lia|].
    cbn [fmap list_fmap forallb]. rewrite H1, H2, IH1. split; [|by f_equal]. destruct (Z.ltb_spec d base); [done|lia]. }
  done.
Qed.

Lemma drop_blank_id l : (∀ c, head l = Some c → is_blank c = false) → drop_blank l = l.
Proof. destruct l as [|c l]; [done|]. intros H. cbn. by rewrite (H c eq_refl). Qed.

Lemma trim_text_id l : (∀ c, head l = Some c → is_blank c = false) → (∀ c, last l = Some c → is_blank c = false) →
  trim_text l = l.
Proof.
  intros H1 H2. unfold trim_text. rewrite (drop_blank_id l) by done.
  rewrite drop_blank_id, reverse_involutive; [done|]. intros x Hx. apply H2. by rewrite <- head_reverse.
Qed.

(** Printing and reading back a number. *)
Lemma digits_shape m : 0 ≤ m → ∃ d l, digit_char <$> radix_digits 10 m = digit_char d :: l ∧ 0 ≤ d < 10 ∧
  (∀ c, last (digit_char d :: l) = Some c → is_blank c = false) ∧ parse_digits 10 (digit_char d :: l) = Some m ∧
  ∀ c l', l = c :: l' → c ∉ ["x"; "X"; "o"; "O"; "b"; "B"; "-"; "+"]%char.
Proof.
  intros Hm. destruct (radix_digits_spec 10 m) as (H1 & H2 & H3); [lia|done|].
  pose proof (parse_digits_text 10 _ ltac:(lia) H2 H3) as Hp. rewrite H1 in Hp.
  destruct (radix_digits 10 m) as [|d l] eqn:E; [done|]. exists d, (digit_char <$> l).
  pose proof H2 as Hall. inversion H2 as [|? ? Hd Hl]; subst. split_and!; [done|lia|lia| |done|].
  - intros c Hc. change (last (digit_char <$> d :: l) = Some c) in Hc. rewrite fmap_last in Hc.
    apply fmap_Some in Hc as (x & Hx & ->). apply last_Some_elem_of in Hx.
    apply (digit_char_hex x). apply (proj1 (Forall_forall _ _) Hall) in Hx. lia.
  - intros c l' Hc. destruct l as [|y l]; [done|]. injection Hc as <- _. apply digit_char_dec. by inversion Hl.
Qed.

Lemma bigint_decimal n : bigint_of_text (radix_text 10 n) = Some n.
Proof.
  unfold radix_text. destruct (Z.ltb_spec n 0) as [Hn|Hn].
  - destruct (digits_shape (- n)) as (d & l & -> & Hd & Hlast & Hp & _); [lia|].
    unfold bigint_of_text. rewrite trim_text_id; [|by intros c [= <-]|].
    + cbn [fmap option_fmap option_map]. rewrite Hp. cbn. f_equal. lia.
    + intros c Hc. apply Hlast. rewrite last_cons in Hc. destruct (last (digit_char d :: l)) eqn:E; [done|by apply last_None in E].
  - destruct (digits_shape n Hn) as (d & l & -> & Hd & Hlast & Hp & Hx).
    unfold bigint_of_text. rewrite trim_text_id; [| |done].
    2: { intros c [= <-]. apply (digit_char_hex d). lia. }
    pose proof (digit_char_dec d Hd) as Hnot. set (c := digit_char d) in *. clearbody c.
    destruct (decide (c = "0"%char)) as [->|Hc0].
    + destruct l as [|c l]; [done|]. specialize (Hx c l eq_refl).
      cbn [existsb]. rewrite !(proj2 (Ascii.eqb_neq _ _)) by (intros ->; apply Hx; set_solver). done.
    + destruct c as [[] [] [] [] [] [] [] []]; try exact Hp; try done; exfalso; apply Hnot; set_solver.
Qed.

Lemma radix_value_bounds base l : 2 ≤ base → in_base base l → 0 ≤ radix_value base l < base ^ Z.of_nat (length l).
Proof.
  intros Hb. induction l as [|d l IH] using rev_ind; intros Hl; [done|].
  apply Forall_app in Hl as [Hl Hd]. inversion Hd as [|? ? Hd' _]; subst. specialize (IH Hl).
  rewrite radix_value_snoc, length_app, Nat2Z.inj_add, Z.pow_add_r by lia. cbn [length]. nia.
Qed.

(** Lists of digits of the same length with the same value are the same. *)
Lemma radix_value_inj base l k : 2 ≤ base → in_base base l → in_base base k → length l = length k →
  radix_value base l = radix_value base k → l = k.
Proof.
  intros Hb. revert k. induction l as [|d l IH] using rev_ind; intros k Hl Hk Hlen E.
  { by destruct k. }
  destruct k as [|x k _] using rev_ind; [rewrite length_app in Hlen; cbn in Hlen; lia|].
  apply Forall_app in Hl as [Hl Hd], Hk as [Hk Hx]. inversion Hd as [|? ? Hd' _]; inversion Hx as [|? ? Hx' _]; subst.
  rewrite !radix_value_snoc in E. rewrite !length_app in Hlen. cbn in Hlen.
  assert (radix_value base l = radix_value base k) by nia. assert (d = x) as -> by nia. f_equal. apply IH; [done..|lia|done].
Qed.

Lemma radix_fuel_length fuel base n k : 2 ≤ base → 0 ≤ n < base ^ Z.of_nat k → (0 < k)%nat →
  (length (radix_fuel fuel base n) ≤ k)%nat.
Proof.
  intros Hb. revert n k. induction fuel as [|fuel IH]; intros n k Hn Hk; [cbn; lia|]. cbn [radix_fuel].
  destruct (Z.eqb_spec (n / base) 0) as [E|E]; [cbn; lia|]. destruct k as [|k]; [lia|]. cbn.
  rewrite Nat2Z.inj_succ, Z.pow_succ_r in Hn by lia.
  assert (0 ≤ n / base < base ^ Z.of_nat k) as Hq.
  { split; [apply Z.div_pos; lia|]. apply Z.div_lt_upper_bound; lia. }
  destruct k as [|k]; [cbn in Hq; lia|]. specialize (IH (n / base) (S k) Hq). lia.
Qed.

Lemma radix_value_zeros base k l : radix_value base (replicate k 0 ++ l) = radix_value base l.
Proof.
  unfold radix_value. rewrite foldl_app. f_equal. induction k as [|k IH]; [done|]. cbn.
  by replace (base * 0 + 0) with 0 by lia.
Qed.

(** A number printed with leading zeros. *)
Lemma pad_radix base w n : 2 ≤ base → 0 ≤ n < base ^ Z.of_nat w → (0 < w)%nat → ∃ l,
  pad_start w "0"%char (radix_text base n) = digit_char <$> l ∧ in_base base l ∧ length l = w ∧ radix_value base l = n.
Proof.
  intros Hb Hn Hw. unfold radix_text. destruct (Z.ltb_spec n 0) as [|_]; [lia|].
  destruct (radix_digits_spec base n) as (H1 & H2 & _); [done|lia|].
  assert (length (radix_digits base n) ≤ w)%nat.
  { unfold radix_digits. rewrite length_reverse. by apply radix_fuel_length. }
  exists (replicate (w - length (radix_digits base n)) 0 ++ radix_digits base n). split_and!.
  - unfold pad_start. rewrite length_fmap, fmap_app, fmap_replicate. done.
  - apply Forall_app. split; [|done]. apply Forall_replicate. lia.
  - rewrite length_app, length_replicate. lia.
  - by rewrite radix_value_zeros.
Qed.

Lemma digit_char_digit d : 0 ≤ d < 10 → is_digit (digit_char d) = true.
Proof.
  intros Hd. assert (d = 0 ∨ d = 1 ∨ d = 2 ∨ d = 3 ∨ d = 4 ∨ d = 5 ∨ d = 6 ∨ d = 7 ∨ d = 8 ∨ d = 9) as H by lia.
  repeat (destruct H as [->|H]; [done|]). by subst.
Qed.
