(* ===== verification/ScVal.v ===== *)
(** * Values of contract events

    What [scValToNative] of the Stellar SDK gives for the values the escrow
    contract publishes, and the conversions of JavaScript the event readers
    apply to them. *)

From Stdlib Require Import Ascii String.
From S2P Require Import Prelude Text.

#[local] Open Scope Z_scope.

(** A [bigint], a number, a text (a symbol or an address, which is no numeral),
    an array, an object, [null]. *)
Inductive native : Type :=
| NBig (z : Z)
| NNum (z : Z)
| NText (s : string)
| NArray (l : list native)
| NRecord (fields : list (string * native))
| NVoid.

(** [BigInt(x)]; [None] is the exception. *)
Definition native_BigInt (x : native) : option Z :=
  match x with NBig z | NNum z => Some z | _ => None end.

(** [Number(x)]. *)
Definition native_Number (x : native) : jsnum :=
  match x with NBig z | NNum z => int z | NVoid => int 0 | _ => NonFinite end.

Definition integer_text (z : Z) : string := string_of_list_ascii (radix_text 10 z).

(** [join(",")] of texts. *)
Fixpoint comma_join (l : list string) : string :=
  match l with
  | [] => ""
  | [s] => s
  | s :: l => s +:+ "," +:+ comma_join l
  end.

(** [String(x)]; in an array [null] is empty. *)
Fixpoint native_text (x : native) : string :=
  match x with
  | NBig z | NNum z => integer_text z
  | NText s => s
  | NArray l => comma_join ((fix texts (l : list native) : list string :=
      match l with [] => [] | NVoid :: l => "" :: texts l | y :: l => native_text y :: texts l end) l)
  | NRecord _ => "[object Object]"
  | NVoid => "null"
  end.

Definition native_field (name : string) (fields : list (string * native)) : option native := map_get name fields.

(** A value that is not falsy. *)
Definition native_truthy (x : native) : bool :=
  match x with
  | NBig z | NNum z => negb (z =? 0)
  | NText s => negb (bool_decide (s = ""%string))
  | NArray _ | NRecord _ => true
  | NVoid => false
  end.
