(* ===== verification/Rules.v ===== *)
(** * Shared enumerations and squad rules

    The enums of [backend/prisma/schema.prisma] that
    [backend/src/types/index.ts] re-exports, and its [SQUAD_RULES]. *)

From S2P Require Import Prelude.

Inductive Position : Type := GKP | DEF | MID | FWD.

Inductive ChipType : Type := WILDCARD | BENCH_BOOST | TRIPLE_CAPTAIN | FREE_HIT.

Global Instance Position_eq_dec : EqDecision Position.
Proof. solve_decision. Defined.

Global Instance ChipType_eq_dec : EqDecision ChipType.
Proof. solve_decision. Defined.

(** [Record<Position, A>]. *)
Record ByPosition (A : Type) : Type := { at_GKP : A; at_DEF : A; at_MID : A; at_FWD : A }.
Arguments Build_ByPosition {A} _ _ _ _.
Arguments at_GKP {A} _.
Arguments at_DEF {A} _.
Arguments at_MID {A} _.
Arguments at_FWD {A} _.

Definition at_position {A} (r : ByPosition A) (p : Position) : A :=
  match p with GKP => at_GKP r | DEF => at_DEF r | MID => at_MID r | FWD => at_FWD r end.

Definition position_name (p : Position) : string :=
  match p with GKP => "GKP" | DEF => "DEF" | MID => "MID" | FWD => "FWD" end.

(** [Object.values(Position)]. *)
Definition positions : list Position := [GKP; DEF; MID; FWD].

(** [SQUAD_RULES]; prices are tenths of a million. *)
Definition TOTAL_PLAYERS : Z := 15.
Definition STARTERS : Z := 11.
Definition BENCH : Z := 4.
Definition POSITION_COUNTS : ByPosition Z := Build_ByPosition 2 5 5 3.
Definition MIN_STARTERS : ByPosition Z := Build_ByPosition 1 3 2 1.
Definition MAX_PER_TEAM : Z := 3.
Definition STARTING_BUDGET : Z := 1000.
Definition FREE_TRANSFERS_PER_GAMEWEEK : Z := 1.
Definition MAX_FREE_TRANSFERS : Z := 5.
Definition TRANSFER_POINTS_COST : Z := 4.

(** How many elements of a list play in position [p]. *)
Definition count_position {A} (pos : A → Position) (p : Position) (l : list A) : Z :=
  countb (λ a, bool_decide (pos a = p)) l.

Lemma count_position_cons {A} (pos : A → Position) p a l :
  count_position pos p (a :: l) = (if decide (pos a = p) then 1 else 0) + count_position pos p l.
Proof.
  unfold count_position, countb. cbn. destruct (decide (pos a = p)).
  - rewrite bool_decide_true by done. cbn. lia.
  - by rewrite bool_decide_false.
Qed.

Lemma count_position_app {A} (pos : A → Position) p l1 l2 :
  count_position pos p (l1 ++ l2) = count_position pos p l1 + count_position pos p l2.
Proof. induction l1 as [|a l1 IH]; [done|]. cbn [app]. rewrite !count_position_cons, IH. lia. Qed.

Lemma count_position_insert {A} (pos : A → Position) p (l : list A) i x y :
  l !! i = Some x →
  count_position pos p (<[i:=y]> l)
  = count_position pos p l - (if decide (pos x = p) then 1 else 0)
    + (if decide (pos y = p) then 1 else 0).
Proof.
  revert i. induction l as [|z l IH]; intros [|i] H; simplify_eq/=.
  - rewrite !count_position_cons. lia.
  - rewrite !count_position_cons. unfold insert in *. rewrite (IH i H). lia.
Qed.

Lemma count_position_fmap {A B} (f : A → B) (pos : B → Position) (pos' : A → Position) p l :
  (∀ a, pos (f a) = pos' a) → count_position pos p (f <$> l) = count_position pos' p l.
Proof.
  intros Hf. induction l as [|a l IH]; [done|]. cbn [fmap list_fmap].
  rewrite !count_position_cons, Hf. fold (fmap (M := list) f). by rewrite IH.
Qed.

Lemma count_position_perm {A} (pos : A → Position) p l1 l2 :
  l1 ≡ₚ l2 → count_position pos p l1 = count_position pos p l2.
Proof. induction 1; rewrite ?count_position_cons in *; lia. Qed.

Lemma count_position_nonneg {A} (pos : A → Position) p l : 0 ≤ count_position pos p l.
Proof. unfold count_position, countb. lia. Qed.

(** The four counts partition the list. *)
Lemma count_position_total {A} (pos : A → Position) l :
  sum_of (λ p, count_position pos p l) positions = Z.of_nat (length l).
Proof.
  unfold sum_of. induction l as [|a l IH]; [done|].
  cbn [fmap list_fmap positions sumZ length] in *. rewrite !count_position_cons.
  destruct (pos a); repeat case_decide; try done; lia.
Qed.
