(* ===== verification/Prize.v ===== *)
(** * Prize pools: [backend/src/services/league/prizeService.ts]

    Amounts enter and leave as decimal numbers ([Q]); everything in between
    is integer cents, as in the code.  A quotient by a zero weight is NaN in
    the code, hence the integer-or-NaN type [jsint]. *)

From Stdlib Require Import QArith Qround Lqa.
From S2P Require Import Prelude.

Inductive PrizeError : Type :=
| UnknownPreset
| CustomSplitsRequired
| InvalidSplits
| NegativeArguments
| PayoutsDoNotMatchPool
| NotRepresentable.

(** An integer, or NaN ([None]). *)
Notation jsint := (option Z).
Definition jadd (a b : jsint) : jsint := x ← a; y ← b; Some (x + y).
Definition jsub (a b : jsint) : jsint := x ← a; y ← b; Some (x - y).

Definition jmul (a b : jsint) : jsint := x ← a; y ← b; Some (x * y).

(** [Math.floor(a / b)]; [0 / 0] is NaN.  A zero divisor only ever meets a
    zero dividend: the divisor is the sum of the weights. *)
Definition jfloor_div (a b : jsint) : jsint :=
  x ← a; y ← b; if y =? 0 then None else Some (x / y).

Definition jsum (l : list jsint) : jsint := foldr jadd (Some 0) l.

(** [PrizePreset]; [OtherPreset] is a value outside the union that an
    untyped caller passes through, which the code answers with a throw. *)
Inductive PrizePreset : Type :=
| Standard
| WinnerTakesAll
| TopFive
| Custom
| OtherPreset (value : string).

Global Instance PrizePreset_eq_dec : EqDecision PrizePreset.
Proof. solve_decision. Defined.

Record PrizeOptions := {
  preset : option PrizePreset;
  customSplitsBps : option (list jsnum)
}.

Record PrizeResult := {
  participantCount : Z;
  entryFee : Q;
  grossTotal : Q;
  platformFee : Q;
  prizePool : Q;
  prizes : option Q * option Q * option Q;
  payouts : list (option Q);
  splitsBps : list jsint
}.

Definition PLATFORM_FEE_PERCENT : Z := 5.
Definition STANDARD_SPLITS_BPS : list Z := [6000; 3000; 1000].
Definition TWO_PLAYER_SPLITS_BPS : list Z := [7000; 3000].
Definition TOP_FIVE_SPLITS_BPS : list Z := [4500; 2500; 1500; 1000; 500].

Definition parsePreset (value : string) : result PrizeError PrizePreset :=
  if decide (value = "standard") then Ok Standard
  else if decide (value = "winner-takes-all") then Ok WinnerTakesAll
  else if decide (value = "top-five") then Ok TopFive
  else if decide (value = "custom") then Ok Custom
  else Err UnknownPreset.

(** [validateSplits]: on success the integer weights. *)
Definition validateSplits (splits : list jsnum) : result PrizeError (list Z) :=
  match mapM as_integer splits with
  | None => Err InvalidSplits
  | Some zs =>
      if bool_decide (zs = []) || existsb (λ v, (v <? 0) || (10000 <? v)) zs
         || negb (sumZ zs =? 10000)
      then Err InvalidSplits else Ok zs
  end.

(** The shape of the three [map((value, index) => ...)] calls: every element
    takes its share, the last one takes what is left of [total]. *)
Definition split_remainder {A} (total : jsint) (share : A → jsint) (l : list A) : list jsint :=
  imap (λ i v,
    if bool_decide (S i = length l)
    then jsub total (jsum (share <$> take i l))
    else share v) l.

(** Weights of a truncated tier list, scaled back to 10 000. *)
Definition renormalise (tiers : list jsint) : list jsint :=
  let weight := jsum tiers in
  split_remainder (Some 10000) (λ v, jfloor_div (jmul v (Some 10000)) weight) tiers.

Definition baseSplits (count : Z) (options : PrizeOptions) : result PrizeError (list jsint) :=
  match preset options with
  | Some Custom =>
      let* custom := or_throw (customSplitsBps options) CustomSplitsRequired in
      let* zs := validateSplits custom in
      Ok (Some <$> zs)
  | Some WinnerTakesAll => Ok [Some 10000]
  | Some TopFive =>
      Ok (renormalise (Some <$> take (Z.to_nat (Z.min count 5)) TOP_FIVE_SPLITS_BPS))
  | None | Some Standard =>
      Ok (Some <$> (if count =? 1 then [10000]
                    else if count =? 2 then TWO_PLAYER_SPLITS_BPS
                    else STANDARD_SPLITS_BPS))
  | Some (OtherPreset _) => Err UnknownPreset
  end.

(** Fewer participants than tiers: keep the first [count] tiers. *)
Definition truncateSplits (count : Z) (splits : list jsint) : list jsint :=
  if (0 <? count) && (count <? Z.of_nat (length splits))
  then renormalise (take (Z.to_nat count) splits)
  else splits.

(** Cents paid per tier. *)
Definition payoutsCents (prizePoolCents : Z) (splits : list jsint) : list jsint :=
  split_remainder (Some prizePoolCents)
    (λ bps, jfloor_div (jmul (Some prizePoolCents) bps) (Some 10000)) splits.

Definition amount (cents : Z) : Q := cents # 100.

(** [payouts[i] ?? 0]: NaN stays NaN. *)
Definition prizeAt (payouts : list jsint) (i : nat) : option Q :=
  match payouts !! i with Some p => option_map amount p | None => Some (amount 0) end.

Definition calculatePrizeDistribution (participants fee : jsnum) (options : PrizeOptions) :
    result PrizeError PrizeResult :=
  match participants, fee with
  | Fin p, Fin f =>
      throw_if (negb (Qle_bool 0 p) || negb (Qle_bool 0 f)) NegativeArguments ;;;
      let count := Qfloor p in
      let feeInCents := math_round (f * 100) in
      let grossCents := count * feeInCents in
      let platformFeeCents := round_div (grossCents * PLATFORM_FEE_PERCENT) 100 in
      let prizePoolCents := grossCents - platformFeeCents in
      let* base := baseSplits count options in
      let splits := truncateSplits count base in
      let payouts := payoutsCents prizePoolCents splits in
      Ok {| participantCount := count;
            entryFee := amount feeInCents;
            grossTotal := amount grossCents;
            platformFee := amount platformFeeCents;
            prizePool := amount prizePoolCents;
            prizes := (prizeAt payouts 0, prizeAt payouts 1, prizeAt payouts 2);
            payouts := option_map amount <$> payouts;
            splitsBps := splits |}
  | _, _ => Err NegativeArguments
  end.

Definition encodeSorobanDistribution (splits : list jsnum) : result PrizeError (list Z) :=
  validateSplits splits.

(** One step of the encoding loop, [remainingBps] threaded as the state. *)
Fixpoint encodeAmounts (poolCents remainingBps : Z) (cents : list Z) :
    result PrizeError (list Z) :=
  match cents with
  | [] => Ok []
  | [_] => Ok [remainingBps]
  | a :: rest =>
      let basisPoints := (a * 10000 + poolCents - 1) / poolCents in
      let representedCents := poolCents * basisPoints / 10000 in
      throw_if (negb (representedCents =? a) || (remainingBps <? basisPoints))
        NotRepresentable ;;;
      let* tl := encodeAmounts poolCents (remainingBps - basisPoints) rest in
      Ok (basisPoints :: tl)
  end.

Definition encodeSorobanPayoutAmounts (amounts : list Q) (pool : Q) :
    result PrizeError (list Z) :=
  let poolCents := math_round (pool * 100) in
  let cents := (λ a, math_round (a * 100)) <$> amounts in
  throw_if ((poolCents <=? 0) || bool_decide (cents = []) || existsb (λ a, a <? 0) cents
            || negb (sumZ cents =? poolCents)) PayoutsDoNotMatchPool ;;;
  let* encoded := encodeAmounts poolCents 10000 cents in
  validateSplits (int <$> encoded).

(** ** The escrow contract's side: [settle_internal] in
    [contracts/src/lib.rs], the [distribution_bps] branch.  Amounts are
    [i128] stroops, 100 000 to the cent. *)

Definition STROOPS_PER_CENT : Z := 100000.

Fixpoint distribute (prize_pool remaining : Z) (splits : list Z) : list Z :=
  match splits with
  | [] => []
  | [_] => [remaining]
  | basis_points :: splits =>
      let pool_cents := Z.quot prize_pool 100000 in
      let share_cents := Z.quot (pool_cents * basis_points) 10000 in
      let share := share_cents * 100000 in
      share :: distribute prize_pool (remaining - share) splits
  end.

(** Saturating [u32] addition. *)
Definition saturating_add (a b : Z) : Z := Z.min (2 ^ 32 - 1) (a + b).

Definition contractDistribution (prize_pool : Z) (winners : nat) (splits : list Z) : option (list Z) :=
  if negb (length splits =? winners)%nat || bool_decide (splits = [])
     || existsb (λ bp, 10000 <? bp) splits
     || negb (foldl saturating_add 0 splits =? 10000)
  then None
  else Some (distribute prize_pool prize_pool splits).

(** ** Reference: split [total] greedily, the last element takes the rest *)

Fixpoint split_rest {A} (total : Z) (g : A → Z) (l : list A) : list Z :=
  match l with
  | [] => []
  | [_] => [total]
  | v :: l => g v :: split_rest (total - g v) g l
  end.

(** Rank weights in basis points. *)
Definition weights (zs : list Z) : Prop := Forall (λ v, 0 ≤ v) zs ∧ sumZ zs = 10000.

(** The tiers kept for [count] participants still carry weight (always true
    of the built-in presets; a custom list may start with zeros). *)
Definition tiers_carry_weight (count : Z) (options : PrizeOptions) : Prop :=
  match preset options with
  | Some Custom => ∃ l zs, customSplitsBps options = Some l ∧ mapM as_integer l = Some zs ∧
      (0 < count → 0 < sumZ (take (Z.to_nat count) zs))
  | _ => True
  end.

(** ** Reference: the calculation in doubles

    The same calculation with every integer it forms kept: a result beyond the
    safe integers, which a double need not hold, is [None], and so is NaN.
    Floors and ceilings of quotients of safe integers are exact. *)

Definition safe (z : Z) : option Z := if Z.abs z <=? MAX_SAFE_INTEGER then Some z else None.

(** [reduce((sum, value) => sum + value, 0)] *)
Definition checked_sum (l : list (option Z)) : option Z := foldl (λ acc x, a ← acc; v ← x; safe (a + v)) (Some 0) l.

(** [Math.floor(a * b / c)] *)
Definition checked_share (a b c : Z) : option Z := m ← safe (a * b); if c =? 0 then None else safe (m / c).

Definition checked_split (total : Z) (share : Z → option Z) (l : list Z) : option (list Z) :=
  mapM id (imap (λ i v,
    if bool_decide (S i = length l)
    then s ← checked_sum (share <$> take i l); safe (total - s)
    else share v) l).

Definition checked_renormalise (tiers : list Z) : option (list Z) :=
  weight ← checked_sum (Some <$> tiers); checked_split 10000 (λ v, checked_share v 10000 weight) tiers.

Definition checked_base (count : Z) (options : PrizeOptions) : option (list Z) :=
  match preset options with
  | Some Custom =>
      custom ← customSplitsBps options; zs ← mapM as_integer custom; _ ← checked_sum (Some <$> zs); Some zs
  | Some WinnerTakesAll => Some [10000]
  | Some TopFive => checked_renormalise (take (Z.to_nat (Z.min count 5)) TOP_FIVE_SPLITS_BPS)
  | None | Some Standard =>
      Some (if count =? 1 then [10000] else if count =? 2 then TWO_PLAYER_SPLITS_BPS else STANDARD_SPLITS_BPS)
  | Some (OtherPreset _) => None
  end.

Definition checked_truncate (count : Z) (splits : list Z) : option (list Z) :=
  if (0 <? count) && (count <? Z.of_nat (length splits)) then checked_renormalise (take (Z.to_nat count) splits) else Some splits.

(** Gross, fee, pool and payouts in cents. *)
Definition checked_calculation (count feeInCents : Z) (options : PrizeOptions) : option (Z * Z * Z * list Z) :=
  gross ← safe (count * feeInCents);
  percents ← safe (gross * PLATFORM_FEE_PERCENT);
  platform ← safe (round_div percents 100);
  pool ← safe (gross - platform);
  base ← checked_base count options;
  splits ← checked_truncate count base;
  cents ← checked_split pool (λ bps, checked_share pool bps 10000) splits;
  Some (gross, platform, pool, cents).

Fixpoint checked_encode (poolCents remainingBps : Z) (cents : list Z) : option (list Z) :=
  match cents with
  | [] => Some []
  | [_] => Some [remainingBps]
  | a :: rest =>
      m ← safe (a * 10000);
      let basisPoints := (m + poolCents - 1) / poolCents in
      w ← safe (poolCents * basisPoints);
      if negb (w / 10000 =? a) || (remainingBps <? basisPoints) then None else
      remaining ← safe (remainingBps - basisPoints);
      tl ← checked_encode poolCents remaining rest;
      Some (basisPoints :: tl)
  end.

Definition checked_encoding (poolCents : Z) (cents : list Z) : option (list Z) :=
  _ ← checked_sum (Some <$> cents); checked_encode poolCents 10000 cents.

(** ** Lemmas *)

Lemma jsub_assoc T a b : jsub T (jadd a b) = jsub (jsub T a) b.
Proof. destruct T, a, b; cbn; try done. f_equal. lia. Qed.

Lemma split_remainder_cons {A} T share (v w : A) l :
  split_remainder T share (v :: w :: l)
  = share v :: split_remainder (jsub T (share v)) share (w :: l).
Proof.
  unfold split_remainder. rewrite imap_cons. f_equal. apply imap_ext. intros i x _.
  cbn -[take]. destruct (decide (S i = length (w :: l))) as [Hi|Hi].
  - rewrite !bool_decide_true by (cbn in *; lia). cbn. by rewrite jsub_assoc.
  - rewrite !bool_decide_false by (cbn in *; lia). done.
Qed.

Lemma split_remainder_spec {A} T share (g : A → Z) l :
  (∀ v, length l ≠ 1%nat → v ∈ l → share v = Some (g v)) →
  split_remainder (Some T) share l = Some <$> split_rest T g l.
Proof.
  revert T. induction l as [|v l IH]; intros T Hg; [done|].
  destruct l as [|w l].
  - cbn. by rewrite Z.sub_0_r.
  - rewrite split_remainder_cons, Hg by (cbn; set_solver || lia).
    cbn [jsub mbind option_bind split_rest fmap list_fmap]. f_equal. apply IH.
    intros x _ Hx. apply Hg; [cbn; lia|set_solver].
Qed.

Lemma split_rest_sum {A} T (g : A → Z) l : l ≠ [] → sumZ (split_rest T g l) = T.
Proof.
  revert T. induction l as [|v [|w l] IH]; intros T H; [done|cbn; lia|].
  cbn [split_rest sumZ] in *. rewrite IH by done. lia.
Qed.

Lemma split_rest_nonneg {A} T (g : A → Z) l :
  (∀ v, v ∈ l → 0 ≤ g v) → sum_of g l ≤ T → Forall (λ z, 0 ≤ z) (split_rest T g l).
Proof.
  revert T. induction l as [|v l IH]; intros T Hg HT; [constructor|].
  rewrite sum_of_cons in HT. pose proof (Hg v (list_elem_of_here _ _)).
  assert (0 ≤ sum_of g l).
  { unfold sum_of. apply sumZ_nonneg, Forall_fmap, Forall_forall. intros x ?.
    apply Hg. by right. }
  destruct l as [|w l]; [repeat constructor; lia|].
  constructor; [done|]. apply IH; [|lia]. intros x ?. apply Hg. by right.
Qed.

Lemma length_split_rest {A} T (g : A → Z) l : length (split_rest T g l) = length l.
Proof. revert T. induction l as [|v [|w l] IH]; intros T; cbn in *; auto. Qed.

(** Flooring each share never exceeds the whole. *)
Lemma sum_floor_le a b l : 0 < b → sum_of (λ v, a * v / b) l ≤ a * sumZ l / b.
Proof.
  intros Hb. induction l as [|v l IH]; [change (0 ≤ a * 0 / b); by rewrite Z.mul_0_r, Z.div_0_l by lia|].
  rewrite sum_of_cons. cbn [sumZ]. rewrite Z.mul_add_distr_l.
  assert (a * v / b + a * sumZ l / b ≤ (a * v + a * sumZ l) / b); [|lia].
  apply Z.div_le_lower_bound; [done|].
  pose proof (Z.mul_div_le (a * v) b Hb). pose proof (Z.mul_div_le (a * sumZ l) b Hb). lia.
Qed.

Lemma jsum_Some zs : jsum (Some <$> zs) = Some (sumZ zs).
Proof. unfold jsum. induction zs as [|z zs IH]; [done|]. cbn in *. by rewrite IH. Qed.

(** Scaling a tier list back to 10 000 yields weights again. *)
Lemma renormalise_weights zs :
  zs ≠ [] → Forall (λ v, 0 ≤ v) zs → (0 < sumZ zs ∨ length zs = 1%nat) →
  ∃ ws, renormalise (Some <$> zs) = Some <$> ws ∧ weights ws ∧ length ws = length zs.
Proof.
  intros Hne Hpos Hw.
  set (g := λ v : jsint, default 0 v * 10000 / sumZ zs).
  exists (split_rest 10000 g (Some <$> zs)). split; [|split; [split|]].
  - unfold renormalise. rewrite jsum_Some. apply split_remainder_spec.
    intros ? Hlen (v & -> & Hv)%list_elem_of_fmap. rewrite length_fmap in Hlen.
    cbn. rewrite (proj2 (Z.eqb_neq _ _)) by (destruct Hw; [lia|done]). done.
  - destruct Hw as [Hw|Hw].
    + apply split_rest_nonneg.
      * intros ? (v & -> & Hv)%list_elem_of_fmap. rewrite Forall_forall in Hpos.
        apply Z.div_pos; [|done]. cbn. pose proof (Hpos v Hv). lia.
      * pose proof (sum_floor_le 10000 (sumZ zs) zs Hw) as Hle.
        rewrite Z.div_mul in Hle by lia. unfold sum_of in *. rewrite <-list_fmap_compose.
        etrans; [|exact Hle]. apply Z.eq_le_incl, (sum_of_ext _ _ zs).
        intros v _. unfold g. cbn [compose default]. by rewrite (Z.mul_comm 10000).
    + destruct zs as [|z [|]]; [done| |done]. cbn. repeat constructor; lia.
  - apply split_rest_sum. by destruct zs.
  - by rewrite length_split_rest, length_fmap.
Qed.

Lemma payoutsCents_spec pool zs :
  payoutsCents pool (Some <$> zs) = Some <$> split_rest pool (λ bps, pool * bps / 10000) zs.
Proof.
  unfold payoutsCents.
  rewrite (split_remainder_spec pool _ (λ bps : jsint, pool * default 0 bps / 10000)).
  - f_equal. generalize pool at 1 3. induction zs as [|z [|z' zs] IH]; intros T; [done|done|].
    cbn [fmap list_fmap split_rest] in *. cbn [default]. by rewrite IH.
  - by intros ? _ (v & -> & _)%list_elem_of_fmap.
Qed.

Lemma payouts_sum_nonneg pool zs :
  0 ≤ pool → weights zs → zs ≠ [] →
  let cents := split_rest pool (λ bps, pool * bps / 10000) zs in
  sumZ cents = pool ∧ Forall (λ c, 0 ≤ c) cents.
Proof.
  intros Hp [Hpos Hsum] Hne. cbn. split; [by apply split_rest_sum|].
  apply split_rest_nonneg.
  - intros v Hv. rewrite Forall_forall in Hpos. apply Z.div_pos; [|done].
    pose proof (Hpos v Hv). nia.
  - pose proof (sum_floor_le pool 10000 zs ltac:(lia)) as Hle.
    rewrite Hsum, Z.div_mul in Hle by lia. done.
Qed.

(** What a successful calculation computed, in cents. *)
Record calculation (participants fee : Q) (r : PrizeResult) (cents ws : list Z) : Prop := {
  calc_gross : grossTotal r = amount (Qfloor participants * math_round (fee * 100));
  calc_fee : platformFee r =
    amount (round_div (Qfloor participants * math_round (fee * 100) * 5) 100);
  calc_pool : prizePool r = amount (Qfloor participants * math_round (fee * 100)
    - round_div (Qfloor participants * math_round (fee * 100) * 5) 100);
  calc_payouts : payouts r = Some <$> (amount <$> cents);
  calc_splits : splitsBps r = Some <$> ws;
  calc_weights : ws = [] ∧ Qfloor participants = 0 ∨ ws ≠ [] ∧ weights ws;
  calc_cents : cents = split_rest (Qnum (prizePool r)) (λ b, Qnum (prizePool r) * b / 10000) ws;
  calc_few : 0 < Qfloor participants → Z.of_nat (length ws) ≤ Qfloor participants;
  calc_pool_nonneg : 0 ≤ Qnum (prizePool r)
}.

Lemma validateSplits_ok splits zs :
  validateSplits splits = Ok zs → mapM as_integer splits = Some zs ∧ zs ≠ [] ∧ weights zs.
Proof.
  unfold validateSplits. destruct (mapM _ _) as [zs'|]; [|done].
  destruct (_ || _) eqn:E; [done|]. intros [= ->]. bool_to_prop.
  split_and!; [done|done|]. split; [|done].
  apply Forall_forall. intros v Hv.
  destruct (decide (0 ≤ v)) as [|Hneg]; [done|exfalso].
  match goal with H : existsb _ _ = false |- _ => rename H into Hex end.
  rewrite <-not_true_iff_false in Hex. apply Hex, existsb_exists.
  exists v. split; [by apply list_elem_of_In|].
  rewrite (proj2 (Z.ltb_lt _ _)) by lia. done.
Qed.

Lemma standard_weights count :
  let ws := if count =? 1 then [10000]
            else if count =? 2 then TWO_PLAYER_SPLITS_BPS else STANDARD_SPLITS_BPS in
  ws ≠ [] ∧ weights ws ∧ Forall (λ v, 0 < v) ws.
Proof.
  destruct (count =? 1); [|destruct (count =? 2)];
    repeat first [split | done | constructor | lia].
Qed.

Lemma top_five_weights count :
  0 < count → ∃ ws,
    renormalise (Some <$> take (Z.to_nat (Z.min count 5)) TOP_FIVE_SPLITS_BPS) = Some <$> ws ∧
    ws ≠ [] ∧ weights ws ∧ Z.of_nat (length ws) ≤ count.
Proof.
  intros Hc. set (n := Z.to_nat (Z.min count 5)).
  assert (∃ k, n = S k ∧ (S k ≤ 5)%nat ∧ Z.of_nat (S k) ≤ count) as (k & -> & Hk & Hkc).
  { exists (pred n). unfold n. lia. }
  destruct (renormalise_weights (take (S k) TOP_FIVE_SPLITS_BPS)) as (ws & Hws & Hw & Hl).
  - done.
  - apply Forall_take. repeat constructor; lia.
  - left. do 5 (destruct k as [|k]; [done|]). lia.
  - exists ws. split_and!; [done| |done|].
    + intros ->. by destruct k.
    + rewrite Hl, length_take. lia.
Qed.

(** The tier list before truncation. *)
Lemma baseSplits_weights count options base :
  0 ≤ count → baseSplits count options = Ok base →
  ∃ ws, base = Some <$> ws ∧ (ws = [] ∧ count = 0 ∨ ws ≠ [] ∧ weights ws) ∧
  (preset options = Some Custom → ∃ l, customSplitsBps options = Some l ∧ mapM as_integer l = Some ws) ∧
  (preset options ≠ Some Custom → Forall (λ v, 0 < v) ws ∨ Z.of_nat (length ws) ≤ count).
Proof.
  unfold baseSplits. intros Hc Hb. pose proof (standard_weights count) as (Hne & Hw & Hpos).
  destruct (preset options) as [[]|] eqn:Hp; inv_ok; subst.
  - eexists. split_and!; [done|by right|done|by left].
  - exists [10000]. split_and!; [done| |done|].
    + right. split; [done|]. split; [repeat constructor; lia|done].
    + left. repeat constructor; lia.
  - destruct (decide (count = 0)) as [->|Hn].
    { exists []. split_and!; [done|by left|done|by left; constructor]. }
    destruct (top_five_weights count) as (ws & -> & ? & ? & ?); [lia|].
    exists ws. split_and!; [done|by right|done|by right].
  - apply validateSplits_ok in Hm as (? & ? & ?).
    eexists. split_and!; [done|by right|eauto|done].
  - eexists. split_and!; [done|by right|done|by left].
Qed.

Lemma truncateSplits_weights count ws :
  (ws = [] ∧ count = 0 ∨ ws ≠ [] ∧ weights ws) →
  (0 < count → Z.of_nat (length ws) ≤ count ∨ 0 < sumZ (take (Z.to_nat count) ws)) →
  ∃ ws', truncateSplits count (Some <$> ws) = Some <$> ws' ∧
    (ws' = [] ∧ count = 0 ∨ ws' ≠ [] ∧ weights ws') ∧
    (0 < count → Z.of_nat (length ws') ≤ count).
Proof.
  intros Hws Hpos. unfold truncateSplits. rewrite length_fmap.
  destruct ((0 <? count) && (count <? Z.of_nat (length ws))) eqn:E.
  - bool_to_prop. destruct Hws as [[-> ->]|[Hne [Hp Hs]]]; [cbn in *; lia|].
    destruct (renormalise_weights (take (Z.to_nat count) ws)) as (ws' & Heq & Hw & Hl).
    + intros Ht. apply (f_equal length) in Ht. rewrite length_take in Ht. cbn in Ht. lia.
    + by apply Forall_take.
    + left. destruct Hpos; lia.
    + rewrite <-fmap_take, Heq. exists ws'. split_and!; [done| |].
      * right. split; [|done]. intros ->. rewrite length_take in Hl. cbn in Hl. lia.
      * intros _. rewrite Hl, length_take. lia.
  - exists ws. split_and!; [done|done|]. intros Hc. apply andb_false_iff in E as [E|E]; bool_to_prop; lia.
Qed.

Lemma sum_take_pos ws n : Forall (λ v, 0 < v) ws → ws ≠ [] → (0 < n)%nat → 0 < sumZ (take n ws).
Proof.
  intros Hp Hne Hn. destruct ws as [|w ws]; [done|]. destruct n as [|n]; [lia|]. cbn.
  inversion Hp; subst. assert (0 ≤ sumZ (take n ws)); [|lia].
  apply sumZ_nonneg, Forall_take. eapply Forall_impl; [done|]. cbn. lia.
Qed.

(** The fee never exceeds the gross pool. *)
Lemma fee_le_gross g : 0 ≤ g → 0 ≤ g - round_div (g * 5) 100.
Proof. intros Hg. pose proof (round_div_bounds (g * 5) 100). lia. Qed.

Lemma math_round_nonneg q : (0 <= q)%Q → 0 ≤ math_round q.
Proof.
  intros Hq. unfold math_round.
  assert (Qfloor 0 ≤ Qfloor (q + (1 # 2))) as H; [|done]. apply Qfloor_resp_le. lra.
Qed.

(** The tiers that are kept carry weight. *)
Lemma tiers_kept count options ws : 0 ≤ count → tiers_carry_weight count options →
  (ws = [] ∧ count = 0 ∨ ws ≠ [] ∧ weights ws) →
  (preset options = Some Custom → ∃ l, customSplitsBps options = Some l ∧ mapM as_integer l = Some ws) →
  (preset options ≠ Some Custom → Forall (λ v, 0 < v) ws ∨ Z.of_nat (length ws) ≤ count) →
  0 < count → Z.of_nat (length ws) ≤ count ∨ 0 < sumZ (take (Z.to_nat count) ws).
Proof.
  intros Hcount Htiers Hws Hcustom Hbuiltin Hc. destruct (decide (preset options = Some Custom)) as [Hpre|Hpre].
  - right. unfold tiers_carry_weight in Htiers. rewrite Hpre in Htiers.
    destruct Htiers as (l & zs & Hl & Hz & Hsum), (Hcustom Hpre) as (l' & Hl' & Hz').
    simplify_eq. by apply Hsum.
  - destruct (Hbuiltin Hpre) as [Hpos|]; [|by left]. right.
    destruct Hws as [[-> Hz]|[Hne _]]; [lia|]. apply sum_take_pos; [done|done|lia].
Qed.

Lemma calculate_spec participants fee options r :
  calculatePrizeDistribution participants fee options = Ok r →
  ∃ p f, participants = Fin p ∧ fee = Fin f ∧ 
    participantCount r = Qfloor p ∧ 0 ≤ Qfloor p ∧ 0 ≤ math_round (f * 100) ∧
    (tiers_carry_weight (Qfloor p) options → ∃ cents ws, calculation p f r cents ws).
Proof.
  intros H. destruct participants as [p|], fee as [f|]; try discriminate H.
  unfold calculatePrizeDistribution in H. inv_ok. subst r.
  apply orb_false_iff in Hguard as [Hp%negb_false_iff%Qle_bool_iff Hf%negb_false_iff%Qle_bool_iff].
  assert (0 ≤ Qfloor p) as Hcount by (apply (Qfloor_resp_le 0); done).
  assert (0 ≤ math_round (f * 100)) as Hfee.
  { apply math_round_nonneg. lra. }
  exists p, f. split_and!; try done. intros Htiers.
  destruct (baseSplits_weights _ _ _ Hcount Hm) as (ws & -> & Hws & Hcustom & Hbuiltin).
  destruct (truncateSplits_weights (Qfloor p) ws Hws (tiers_kept _ _ _ Hcount Htiers Hws Hcustom Hbuiltin)) as (ws' & Heq & Hws' & Hlen).
  rewrite Heq.
  exists (split_rest (Qfloor p * math_round (f * 100)
    - round_div (Qfloor p * math_round (f * 100) * 5) 100)
    (λ b, (Qfloor p * math_round (f * 100)
      - round_div (Qfloor p * math_round (f * 100) * 5) 100) * b / 10000) ws'), ws'.
  split; try done; cbn [payouts prizePool amount Qnum].
  - rewrite payoutsCents_spec. by rewrite <-!list_fmap_compose.
  - by apply fee_le_gross, Z.mul_nonneg_nonneg.
Qed.

Lemma calculate_arguments p f options r : calculatePrizeDistribution (Fin p) (Fin f) options = Ok r →
  (0 <= p)%Q ∧ (0 <= f)%Q ∧ entryFee r = amount (math_round (f * 100)).
Proof.
  intros H. unfold calculatePrizeDistribution in H. inv_ok. subst r.
  by apply orb_false_iff in Hguard as [Hp%negb_false_iff%Qle_bool_iff Hf%negb_false_iff%Qle_bool_iff].
Qed.

(** *** Encoding for the contract *)

Lemma foldl_saturating s l :
  0 ≤ s → Forall (λ v, 0 ≤ v) l → s + sumZ l < 2 ^ 32 → foldl saturating_add s l = s + sumZ l.
Proof.
  intros Hs Hl. revert s Hs. induction Hl as [|v l Hv Hl IH]; intros s Hs Hb; cbn in *; [lia|].
  pose proof (sumZ_nonneg _ Hl).
  unfold saturating_add at 2. rewrite Z.min_r by lia. rewrite IH; lia.
Qed.

Lemma elem_le_sum v l : Forall (λ v, 0 ≤ v) l → v ∈ l → v ≤ sumZ l.
Proof.
  induction 1 as [|x l Hx Hl IH]; [set_solver|]. pose proof (sumZ_nonneg _ Hl).
  intros [->|?]%elem_of_cons; cbn; [lia|]. specialize (IH ltac:(done)). lia.
Qed.

(** The contract's loop is the backend's split, in stroops. *)
Lemma distribute_split_rest pool T bps :
  0 ≤ pool → Forall (λ v, 0 ≤ v) bps →
  distribute (pool * 100000) (T * 100000) bps
  = (λ c, c * 100000) <$> split_rest T (λ b, pool * b / 10000) bps.
Proof.
  intros Hp Hb. revert T. induction Hb as [|b [|b' bps] Hb Hbs IH]; intros T; [done|done|].
  change (distribute ?pp ?r (b :: b' :: bps)) with
    (Z.quot (Z.quot pp 100000 * b) 10000 * 100000
     :: distribute pp (r - Z.quot (Z.quot pp 100000 * b) 10000 * 100000) (b' :: bps)).
  rewrite Z.quot_mul by lia. rewrite Z.quot_div_nonneg by nia.
  rewrite <-Z.mul_sub_distr_r, IH. done.
Qed.

Lemma contractDistribution_spec pool bps :
  0 ≤ pool → bps ≠ [] → weights bps →
  contractDistribution (pool * 100000) (length bps) bps
  = Some ((λ c, c * 100000) <$> split_rest pool (λ b, pool * b / 10000) bps).
Proof.
  intros Hp Hne [Hb Hs]. unfold contractDistribution.
  rewrite foldl_saturating by (done || lia). rewrite Hs, Nat.eqb_refl.
  rewrite bool_decide_false by done. 
  destruct (existsb _ _) eqn:E; cbn.
  - apply existsb_exists in E as (v & Hv%list_elem_of_In & Hlt). bool_to_prop.
    pose proof (elem_le_sum _ _ Hb Hv). lia.
  - by rewrite distribute_split_rest.
Qed.

Lemma encodeAmounts_cons pool rem a c cs :
  let bp := (a * 10000 + pool - 1) / pool in
  encodeAmounts pool rem (a :: c :: cs)
  = (throw_if (negb (pool * bp / 10000 =? a) || (rem <? bp)) NotRepresentable ;;;
     let* tl := encodeAmounts pool (rem - bp) (c :: cs) in Ok (bp :: tl)).
Proof. done. Qed.

Lemma encodeAmounts_sound pool rem cents bps :
  encodeAmounts pool rem cents = Ok bps → cents ≠ [] → 0 < pool → Forall (λ c, 0 ≤ c) cents →
  sumZ bps = rem ∧ length bps = length cents ∧
  split_rest (sumZ cents) (λ b, pool * b / 10000) bps = cents.
Proof.
  intros H Hne Hp Hc. revert rem bps H. induction Hc as [|a rest Ha Hrest IH]; [done|].
  intros rem bps H. destruct rest as [|a' rest].
  - cbn in H. inv_ok. subst. cbn. split_and!; [lia|done|f_equal; lia].
  - rewrite encodeAmounts_cons in H. inv_ok. bool_to_prop. subst bps.
    edestruct IH as (Hsum & Hlen & Hsplit); [done|exact Hm|].
    destruct a0 as [|b0 tl]; [done|]. cbn [sumZ length] in *.
    split_and!; [lia|lia|]. cbn [split_rest] in *. f_equal; [lia|].
    match goal with H : _ / 10000 = a |- _ => rewrite H end.
    by replace (a + (a' + sumZ rest) - a) with (a' + sumZ rest) by lia.
Qed.

(** Any payout list the backend computed itself can be encoded. *)
Lemma encodeAmounts_complete pool rem T ws :
  0 < pool → Forall (λ v, 0 ≤ v) ws → sumZ ws ≤ rem →
  ∃ bps, encodeAmounts pool rem (split_rest T (λ b, pool * b / 10000) ws) = Ok bps ∧
    Forall (λ v, 0 ≤ v) bps.
Proof.
  intros Hp Hws. revert rem T. induction Hws as [|w ws Hw Hws IH]; intros rem T Hrem.
  - by exists [].
  - destruct ws as [|w' ws].
    { exists [rem]. cbn in *. split; [done|]. constructor; [lia|done]. }
    change (split_rest T ?g (w :: ?l)) with (g w :: split_rest (T - g w) g l).
    set (a := pool * w / 10000). set (bp := (a * 10000 + pool - 1) / pool).
    assert (a * 10000 ≤ pool * w) as Ha.
    { unfold a. pose proof (Z.mul_div_le (pool * w) 10000). lia. }
    assert (0 ≤ a) by (apply Z.div_pos; nia).
    assert (a * 10000 ≤ pool * bp) as Hlo.
    { unfold bp. pose proof (Z.div_mod (a * 10000 + pool - 1) pool).
      pose proof (Z.mod_pos_bound (a * 10000 + pool - 1) pool). lia. }
    assert (bp ≤ w) as Hhi by (apply Z.lt_succ_r, Z.div_lt_upper_bound; lia).
    assert (0 ≤ bp) by (apply Z.div_pos; lia).
    assert (pool * bp / 10000 = a) as Hrep.
    { apply Z.le_antisymm; [apply Z.div_le_mono; nia|]. apply Z.div_le_lower_bound; lia. }
    cbn [sumZ] in Hrem.
    destruct (IH (rem - bp) (T - a)) as (tl & Htl & Hpos); [cbn [sumZ]; lia|].
    exists (bp :: tl). split; [|by constructor].
    destruct (split_rest (T - a) (λ b, pool * b / 10000) (w' :: ws)) as [|c cs] eqn:Ec.
    { by apply (f_equal length) in Ec; rewrite length_split_rest in Ec. }
    rewrite encodeAmounts_cons. fold bp. rewrite Hrep, Z.eqb_refl.
    rewrite (proj2 (Z.ltb_ge _ _)) by (pose proof (sumZ_nonneg _ Hws) as Hs; cbn in Hs; lia).
    cbn [negb orb throw_if rbind]. by rewrite Htl.
Qed.

Lemma validateSplits_int bps :
  bps ≠ [] → weights bps → validateSplits (int <$> bps) = Ok bps.
Proof.
  intros Hne [Hb Hs]. unfold validateSplits.
  assert (mapM as_integer (int <$> bps) = Some bps) as ->.
  { apply mapM_Some. clear. induction bps; constructor; [apply as_integer_int|done]. }
  rewrite bool_decide_false by done. rewrite Hs. cbn.
  destruct (existsb _ _) eqn:E; [|done].
  apply existsb_exists in E as (v & Hv%list_elem_of_In & Hlt).
  pose proof (elem_le_sum _ _ Hb Hv). rewrite Forall_forall in Hb. specialize (Hb v Hv).
  apply orb_true_iff in Hlt as []; bool_to_prop; lia.
Qed.

Lemma encode_amount_cents cents pool :
  0 < pool → Forall (λ c, 0 ≤ c) cents → sumZ cents = pool → cents ≠ [] →
  encodeSorobanPayoutAmounts (amount <$> cents) (amount pool)
  = (let* encoded := encodeAmounts pool 10000 cents in validateSplits (int <$> encoded)).
Proof.
  intros Hp Hc Hs Hne. unfold encodeSorobanPayoutAmounts, amount.
  rewrite <-list_fmap_compose, math_round_cents.
  rewrite (list_fmap_ext _ id _ (λ _ _ _, math_round_cents _)), list_fmap_id.
  rewrite Hs, Z.eqb_refl, bool_decide_false by done.
  rewrite (proj2 (Z.leb_gt _ _)) by done. cbn.
  destruct (existsb _ _) eqn:E; [|done].
  apply existsb_exists in E as (v & Hv%list_elem_of_In & Hlt). bool_to_prop.
  rewrite Forall_forall in Hc. specialize (Hc v Hv). lia.
Qed.

(** *** Doubles *)

Lemma safe_ok z : 0 ≤ z ≤ MAX_SAFE_INTEGER → safe z = Some z.
Proof. intros H. unfold safe. by rewrite (proj2 (Z.leb_le _ _)) by lia. Qed.

Lemma checked_sum_ok l : Forall (λ v, 0 ≤ v) l → sumZ l ≤ MAX_SAFE_INTEGER → checked_sum (Some <$> l) = Some (sumZ l).
Proof.
  intros Hl Hb. unfold checked_sum.
  assert (∀ s, 0 ≤ s → s + sumZ l ≤ MAX_SAFE_INTEGER →
    foldl (λ (acc x : option Z), a ← acc; v ← x; safe (a + v)) (Some s) (Some <$> l) = Some (s + sumZ l)) as H.
  { clear Hb. induction Hl as [|v l Hv Hl IH]; intros s Hs Hb; cbn in *; [f_equal; lia|].
    pose proof (sumZ_nonneg _ Hl). rewrite safe_ok by lia. rewrite IH by lia. f_equal. lia. }
  by rewrite H.
Qed.

Lemma mapM_id_Some {A} (l : list A) : mapM id (Some <$> l) = Some l.
Proof. apply mapM_Some. induction l; constructor; done. Qed.

Lemma sum_of_take {A} (g : A → Z) (l : list A) i : (∀ v, v ∈ l → 0 ≤ g v) → sum_of g (take i l) ≤ sum_of g l.
Proof.
  intros Hg. rewrite <- (take_drop i l) at 2. rewrite sum_of_app.
  assert (0 ≤ sum_of g (drop i l)); [|lia]. unfold sum_of. apply sumZ_nonneg, Forall_fmap, Forall_drop, Forall_forall, Hg.
Qed.

Lemma sumZ_take l i : Forall (λ v, 0 ≤ v) l → sumZ (take i l) ≤ sumZ l.
Proof. intros Hl. rewrite <- (take_drop i l) at 2. rewrite sumZ_app. pose proof (sumZ_nonneg _ (Forall_drop _ i _ Hl)). lia. Qed.

Lemma checked_split_ok total share g l :
  (∀ v, length l ≠ 1%nat → v ∈ l → share v = Some (g v)) → (∀ v, v ∈ l → 0 ≤ g v) → sum_of g l ≤ total →
  0 ≤ total ≤ MAX_SAFE_INTEGER → checked_split total share l = Some (split_rest total g l).
Proof.
  intros Hs Hg Hsum Ht. rewrite <- mapM_id_Some, <- (split_remainder_spec total share g l Hs).
  unfold checked_split, split_remainder. f_equal. apply imap_ext. intros i v Hi. cbv beta.
  destruct (bool_decide_reflect (S i = length l)) as [Hl|]; [|done].
  destruct (decide (length l = 1%nat)) as [H1|H1].
  { assert (i = 0%nat) as -> by lia. change (safe (total - 0) = Some (total - 0)). apply safe_ok. lia. }
  assert (share <$> take i l = Some <$> (g <$> take i l)) as ->.
  { rewrite <- list_fmap_compose. apply Forall_fmap_ext_1, Forall_take, Forall_forall. intros x Hx. by apply Hs. }
  pose proof (sum_of_take g l i Hg). unfold sum_of in *.
  assert (Forall (λ z, 0 ≤ z) (g <$> take i l)) as Hn.
  { by apply Forall_fmap, Forall_take, Forall_forall. }
  pose proof (sumZ_nonneg _ Hn). rewrite checked_sum_ok by (done || lia). rewrite jsum_Some. cbn. apply safe_ok. lia.
Qed.

Lemma checked_share_ok a b c : 0 ≤ a * b ≤ MAX_SAFE_INTEGER → 0 < c → checked_share a b c = Some (a * b / c).
Proof.
  intros H Hc. unfold checked_share. rewrite safe_ok by done. cbn. rewrite (proj2 (Z.eqb_neq _ _)) by lia.
  apply safe_ok. split; [apply Z.div_pos; lia|]. apply Z.div_le_upper_bound; nia.
Qed.

Lemma split_rest_some T (g : Z → Z) l : split_rest T (λ v : jsint, g (default 0 v)) (Some <$> l) = split_rest T g l.
Proof. revert T. induction l as [|z [|z' l] IH]; intros T; [done|done|]. exact (f_equal (cons (g z)) (IH (T - g z))). Qed.

Lemma checked_renormalise_ok zs ws : Forall (λ v, 0 ≤ v) zs → sumZ zs ≤ 10000 → (0 < sumZ zs ∨ length zs = 1%nat) →
  renormalise (Some <$> zs) = Some <$> ws → checked_renormalise zs = Some ws.
Proof.
  intros Hz Hs Hw Hr. unfold checked_renormalise, renormalise in *. rewrite jsum_Some in Hr.
  rewrite checked_sum_ok by (unfold MAX_SAFE_INTEGER; done || lia). cbn [mbind option_bind].
  set (g := λ v, v * 10000 / sumZ zs).
  assert (∀ v, length zs ≠ 1%nat → v ∈ zs → 0 ≤ v ≤ 10000 ∧ 0 < sumZ zs) as Hv.
  { intros v Hl Hin. pose proof (elem_le_sum _ _ Hz Hin). rewrite Forall_forall in Hz. specialize (Hz v Hin). lia. }
  assert (split_remainder (Some 10000) (λ v : jsint, jfloor_div (jmul v (Some 10000)) (Some (sumZ zs))) (Some <$> zs)
    = Some <$> split_rest 10000 g zs) as Hsplit.
  { rewrite (split_remainder_spec 10000 _ (λ v : jsint, g (default 0 v))).
    - f_equal. apply split_rest_some.
    - intros ? Hl (v & -> & Hin)%list_elem_of_fmap. rewrite length_fmap in Hl. destruct (Hv v Hl Hin). cbn.
      by rewrite (proj2 (Z.eqb_neq _ _)) by lia. }
  rewrite Hsplit in Hr. apply (inj (fmap Some)) in Hr as <-. destruct (decide (length zs = 1%nat)) as [H1|H1].
  - destruct zs as [|z [|]]; done.
  - assert (sumZ zs ≠ 0) as Hne by (destruct Hw; [lia|done]). apply checked_split_ok; [| | |unfold MAX_SAFE_INTEGER; lia].
    + intros v Hl Hin. destruct (Hv v Hl Hin). apply checked_share_ok; unfold MAX_SAFE_INTEGER; lia.
    + intros v Hin. destruct (Hv v H1 Hin). apply Z.div_pos; lia.
    + pose proof (sum_floor_le 10000 (sumZ zs) zs ltac:(lia)) as H. rewrite Z.div_mul in H by done.
      etrans; [|exact H]. apply Z.eq_le_incl, sum_of_ext. intros v _. unfold g. by rewrite Z.mul_comm.
Qed.

Lemma checked_base_ok count options base ws : 0 ≤ count → baseSplits count options = Ok base → base = Some <$> ws →
  checked_base count options = Some ws.
Proof.
  intros Hc Hb ->. unfold baseSplits, checked_base in *. destruct (preset options) as [[]|]; inv_ok.
  - f_equal. by apply (inj (fmap Some)).
  - f_equal. by apply (inj (fmap Some)).
  - destruct (decide (count = 0)) as [->|Hn]; [by destruct ws|].
    apply checked_renormalise_ok; [| | |done]; unfold TOP_FIVE_SPLITS_BPS.
    + apply Forall_take. repeat constructor; lia.
    + etrans; [apply sumZ_take; repeat constructor; lia|by vm_compute].
    + left. apply sum_take_pos; [repeat constructor; lia|done|lia].
  - apply validateSplits_ok in Hm as (Hz & _ & [Hp Hs]). apply (inj (fmap Some)) in Hb as ->.
    cbn. rewrite Hz. cbn. by rewrite checked_sum_ok by (unfold MAX_SAFE_INTEGER; done || lia).
  - f_equal. by apply (inj (fmap Some)).
Qed.

Lemma checked_truncate_ok count ws ws' : Forall (λ v, 0 ≤ v) ws → sumZ ws ≤ 10000 →
  (0 < count → Z.of_nat (length ws) ≤ count ∨ 0 < sumZ (take (Z.to_nat count) ws)) →
  truncateSplits count (Some <$> ws) = Some <$> ws' → checked_truncate count ws = Some ws'.
Proof.
  intros Hp Hs Hw H. unfold truncateSplits, checked_truncate in *. rewrite length_fmap in H.
  destruct ((0 <? count) && (count <? Z.of_nat (length ws))) eqn:E; [|f_equal; by apply (inj (fmap Some))].
  bool_to_prop. rewrite <- fmap_take in H. apply checked_renormalise_ok; [by apply Forall_take| | |done].
  - etrans; [by apply sumZ_take|done].
  - left. destruct Hw; lia.
Qed.

(** The payouts of a positive pool can be encoded. *)
Lemma payouts_encode pool ws : 0 < pool → ws ≠ [] → weights ws →
  let cents := split_rest pool (λ b, pool * b / 10000) ws in
  ∃ bps, encodeAmounts pool 10000 cents = Ok bps ∧ encodeSorobanPayoutAmounts (amount <$> cents) (amount pool) = Ok bps.
Proof.
  intros Hp Hne [Hw Hs] cents. destruct (payouts_sum_nonneg pool ws ltac:(lia) (conj Hw Hs) Hne) as [Hsum Hpc].
  fold cents in Hsum, Hpc. destruct (encodeAmounts_complete pool 10000 pool ws) as (bps & Hb & Hbp); [done|done|lia|].
  fold cents in Hb. assert (cents ≠ []) as Hcne by (unfold cents; destruct ws as [|? []]; done).
  destruct (encodeAmounts_sound _ _ _ _ Hb Hcne Hp Hpc) as (Hsb & Hlb & _).
  assert (bps ≠ []) by (intros ->; by destruct cents). exists bps. split; [done|].
  rewrite encode_amount_cents by done. rewrite Hb. by apply validateSplits_int.
Qed.

(** The weights of a calculation, with every sum safe. *)
Lemma checked_weights p f options r : calculatePrizeDistribution (Fin p) (Fin f) options = Ok r →
  tiers_carry_weight (participantCount r) options →
  ∃ base ws, checked_base (Qfloor p) options = Some base ∧ checked_truncate (Qfloor p) base = Some ws ∧ splitsBps r = Some <$> ws.
Proof.
  intros H Ht. unfold calculatePrizeDistribution in H. inv_ok. subst r. cbn [participantCount splitsBps] in *.
  apply orb_false_iff in Hguard as [Hp%negb_false_iff%Qle_bool_iff _].
  assert (0 ≤ Qfloor p) as Hcount by (apply (Qfloor_resp_le 0); done).
  destruct (baseSplits_weights _ _ _ Hcount Hm) as (ws & -> & Hws & Hcustom & Hbuiltin).
  pose proof (tiers_kept _ _ _ Hcount Ht Hws Hcustom Hbuiltin) as Hk.
  destruct (truncateSplits_weights (Qfloor p) ws Hws Hk) as (ws' & Heq & _).
  exists ws, ws'. split_and!; [by eapply checked_base_ok| |done].
  apply checked_truncate_ok; [| |done|done].
  - destruct Hws as [[-> _]|[_ [? _]]]; [constructor|done].
  - destruct Hws as [[-> _]|[_ [_ ->]]]; done.
Qed.

(** Up to the bound every product with 10 000 is safe. *)
Lemma checked_encode_ok pool rem cents bps : 0 < pool ≤ 900719925474 → Forall (λ c, 0 ≤ c ≤ pool) cents →
  0 ≤ rem ≤ 10000 → encodeAmounts pool rem cents = Ok bps → checked_encode pool rem cents = Some bps.
Proof.
  intros Hp Hc. revert rem bps. induction Hc as [|a rest Ha Hrest IH]; intros rem bps Hr H; [by injection H as <-|].
  destruct rest as [|a' rest]; [by injection H as <-|]. rewrite encodeAmounts_cons in H.
  change (checked_encode pool rem (a :: a' :: rest)) with
    (m ← safe (a * 10000); let bp := (m + pool - 1) / pool in w ← safe (pool * bp);
     if negb (w / 10000 =? a) || (rem <? bp) then None else
     remaining ← safe (rem - bp); tl ← checked_encode pool remaining (a' :: rest); Some (bp :: tl)).
  rewrite (safe_ok (a * 10000)) by (unfold MAX_SAFE_INTEGER; lia). cbn [mbind option_bind]. cbv zeta.
  set (bp := (a * 10000 + pool - 1) / pool) in *. inv_ok. subst bps.
  assert (0 ≤ bp) by (apply Z.div_pos; lia). apply orb_false_iff in Hguard as [He Hlt]. bool_to_prop.
  rewrite (safe_ok (pool * bp)) by (unfold MAX_SAFE_INTEGER; nia). cbn [mbind option_bind].
  rewrite (proj2 (Z.eqb_eq _ _)) by done. rewrite (proj2 (Z.ltb_ge _ _)) by lia. cbn [negb orb].
  rewrite safe_ok by (unfold MAX_SAFE_INTEGER; lia). cbn [mbind option_bind]. by rewrite (IH (rem - bp) a0) by (done || lia).
Qed.

(** ** Properties *)

(** The contract decodes what the encoder accepts. *)
Lemma encode_decodes cents pool bps :
  Forall (λ c, 0 ≤ c) cents →
  encodeSorobanPayoutAmounts (amount <$> cents) (amount pool) = Ok bps →
  contractDistribution (pool * STROOPS_PER_CENT) (length cents) bps
  = Some ((λ c, c * STROOPS_PER_CENT) <$> cents).
Proof.
  intros Hc H.
  assert (0 < pool ∧ cents ≠ [] ∧ sumZ cents = pool) as (Hp & Hne & Hs).
  { unfold encodeSorobanPayoutAmounts, amount in H.
    rewrite <-list_fmap_compose, math_round_cents in H.
    rewrite (list_fmap_ext _ id _ (λ _ _ _, math_round_cents _)), list_fmap_id in H.
    inv_ok. bool_to_prop. done. }
  rewrite encode_amount_cents in H by done. inv_ok.
  destruct (encodeAmounts_sound pool 10000 cents a) as (Hsum & Hlen & Hsplit); try done.
  apply validateSplits_ok in H as (Hz & Hnz & Hw).
  assert (mapM as_integer (int <$> a) = Some a) as Ha.
  { apply mapM_Some. clear. induction a; constructor; [apply as_integer_int|done]. }
  simplify_eq. unfold STROOPS_PER_CENT. rewrite <-Hlen.
  rewrite contractDistribution_spec by (done || lia). by rewrite Hsplit.
Qed.

(** C1. No cent is lost or created: whenever the calculation returns and the
    kept tiers carry weight, the gross pool is the whole participants times the
    entry fee in cents, the platform fee is 5% of it rounded half up, the net
    pool is the rest, and the payouts are whole non-negative cents, at most one
    per participant, that add up to exactly the net pool. *)
Theorem prize_pool_conserved participants fee options r :
  calculatePrizeDistribution participants fee options = Ok r →
  tiers_carry_weight (participantCount r) options →
  ∃ p f cents,
    participants = Fin p ∧ fee = Fin f ∧ (0 <= p)%Q ∧ (0 <= f)%Q ∧
    let gross := Qfloor p * math_round (f * 100) in
    let platform := round_div (gross * 5) 100 in
    participantCount r = Qfloor p ∧ entryFee r = amount (math_round (f * 100)) ∧
    grossTotal r = amount gross ∧ platformFee r = amount platform ∧
    prizePool r = amount (gross - platform) ∧
    payouts r = Some <$> (amount <$> cents) ∧
    sumZ cents = gross - platform ∧ Forall (λ c, 0 ≤ c) cents ∧
    (0 < participantCount r → Z.of_nat (length cents) ≤ participantCount r).
Proof.
  intros H Ht. destruct (calculate_spec _ _ _ _ H) as (p & f & -> & -> & Hc & Hp & Hf & Hspec).
  destruct (calculate_arguments _ _ _ _ H) as (Hp0 & Hf0 & He).
  rewrite Hc in *. destruct (Hspec Ht) as (cents & ws & [Hg Hpf Hpool Hpay _ Hws -> Hfew Hnn]).
  eexists p, f, _. split; [done|]. split; [done|]. split; [done|]. split; [done|]. cbv zeta.
  split_and!; [done|done|exact Hg|exact Hpf|exact Hpool|exact Hpay| | |].
  - rewrite Hpool in *. cbn [amount Qnum] in *. destruct Hws as [[-> Hz]|[Hne Hw]].
    + cbn. by rewrite Hz.
    + by apply payouts_sum_nonneg.
  - destruct Hws as [[-> Hz]|[Hne Hw]]; [constructor|]. by apply payouts_sum_nonneg.
  - rewrite length_split_rest. done.
Qed.

Lemma prize_pool_conserved_witness :
  let opts := {| preset := Some Custom; customSplitsBps := Some [int 5000; int 2500; int 2500] |} in
  ∃ r cents,
    calculatePrizeDistribution (int 2) (Fin (12.5)) opts = Ok r ∧
    payouts r = Some <$> (amount <$> cents) ∧ sumZ cents = 2500 - 125.
Proof.
  intros opts. pose (m := calculatePrizeDistribution (int 2) (Fin (12.5)) opts).
  assert (is_ok m = true) as Hok by by vm_compute.
  destruct m as [r|] eqn:Hm; [|done].
  destruct (prize_pool_conserved (int 2) (Fin (12.5)) opts r) as (p & f & cents & Ep & Ef & _ & _ & H); [exact Hm| |].
  - eexists _, [5000; 2500; 2500]. split_and!; [done|done|]. intros _. 
    replace (participantCount r) with 2; [done|].
    assert (rmap participantCount m = Ok 2) as He by by vm_compute.
    rewrite Hm in He. cbn in He. congruence.
  - injection Ep as <-. injection Ef as <-. exists r, cents. destruct H as (_ & _ & _ & _ & _ & Hp & Hs & _ & _).
    split; [exact Hm|]. split; [exact Hp|exact Hs].
Defined.

(** C11. The on-chain split is the off-chain split: a tie-adjusted list of
    non-negative cent amounts that [encodeSorobanPayoutAmounts] accepts for a
    pool is encoded as basis points from which the contract's
    [distribution_bps] loop recomputes exactly those amounts, in stroops. *)
Theorem encoded_payouts_decode cents pool bps :
  Forall (λ c, 0 ≤ c) cents →
  encodeSorobanPayoutAmounts (amount <$> cents) (amount pool) = Ok bps →
  contractDistribution (pool * STROOPS_PER_CENT) (length cents) bps
  = Some ((λ c, c * STROOPS_PER_CENT) <$> cents).
Proof. apply encode_decodes. Qed.

Lemma encoded_payouts_decode_witness :
  encodeSorobanPayoutAmounts (amount <$> [2138; 2138; 474]) (amount 4750) = Ok [4502; 4502; 996] ∧
  contractDistribution (4750 * STROOPS_PER_CENT) 3 [4502; 4502; 996]
  = Some ((λ c, c * STROOPS_PER_CENT) <$> [2138; 2138; 474]).
Proof.
  assert (encodeSorobanPayoutAmounts (amount <$> [2138; 2138; 474]) (amount 4750)
    = Ok [4502; 4502; 996]) as H by by vm_compute.
  split; [exact H|]. apply (encoded_payouts_decode [2138; 2138; 474]); [|exact H].
  repeat constructor; lia.
Defined.

(** Every distribution the service calculates for a positive pool can be
    sent to the contract: the encoder accepts it, and the contract pays each
    winner exactly the calculated cents. *)
Theorem calculated_payouts_encodable participants fee options r :
  calculatePrizeDistribution participants fee options = Ok r →
  tiers_carry_weight (participantCount r) options →
  (0 < prizePool r)%Q →
  ∃ cents bps,
    payouts r = Some <$> (amount <$> cents) ∧
    encodeSorobanPayoutAmounts (amount <$> cents) (prizePool r) = Ok bps ∧
    contractDistribution (Qnum (prizePool r) * STROOPS_PER_CENT) (length cents) bps
    = Some ((λ c, c * STROOPS_PER_CENT) <$> cents).
Proof.
  intros H Ht Hpool. destruct (calculate_spec _ _ _ _ H) as (p & f & -> & -> & Hc & Hp & Hf & Hspec).
  rewrite Hc in *. destruct (Hspec Ht) as (cents & ws & [Hg Hpf Hpl Hpay _ Hws Hcents Hfew Hnn]).
  rewrite Hpl in Hcents, Hnn, Hpool |- *. cbn [amount Qnum] in *.
  set (pool := _ - round_div _ 100) in *.
  assert (0 < pool) as Hpos by (unfold Qlt, amount in Hpool; cbn in Hpool; lia).
  destruct Hws as [[-> Hz]|[Hne [Hw Hs]]].
  { unfold pool in Hpos. rewrite Hz in Hpos. done. }
  destruct (payouts_sum_nonneg pool ws ltac:(lia) (conj Hw Hs) Hne) as [_ Hpc].
  destruct (payouts_encode pool ws Hpos Hne (conj Hw Hs)) as (bps & _ & He). rewrite <- Hcents in He, Hpc.
  exists cents, bps. split_and!; [done|exact He|]. by apply encode_decodes.
Qed.

Lemma calculated_payouts_encodable_witness :
  let opts := {| preset := None; customSplitsBps := None |} in
  ∃ r cents bps,
    calculatePrizeDistribution (int 7) (Fin (3.33)) opts = Ok r ∧
    encodeSorobanPayoutAmounts (amount <$> cents) (prizePool r) = Ok bps.
Proof.
  intros opts. pose (m := calculatePrizeDistribution (int 7) (Fin (3.33)) opts).
  assert (rmap (λ r, Qnum (prizePool r)) m = Ok 2214) as Hok by by vm_compute.
  destruct m as [r|] eqn:Hm; [|done]. cbn in Hok.
  destruct (calculated_payouts_encodable (int 7) (Fin (3.33)) opts r) as (cents & bps & H1 & H2 & H3);
    [exact Hm|done| |].
  - unfold Qlt. cbn. assert (Qnum (prizePool r) = 2214) as -> by congruence. lia.
  - by exists r, cents, bps.
Defined.

(** C32. Arithmetic stays exact: when the gross pool is at most 9.0e11 cents
    (nine billion USDC), the calculation in doubles forms safe integers only,
    products, sums and renormalised weights included, so it computes exactly the
    gross pool, fee, net pool and payouts of the calculation; and so does the
    encoding of its payouts for the contract, which accepts them. *)
Theorem prize_arithmetic_safe p f options r :
  calculatePrizeDistribution (Fin p) (Fin f) options = Ok r →
  tiers_carry_weight (participantCount r) options →
  Qfloor p * math_round (f * 100) ≤ 900719925474 →
  ∃ gross platform pool cents,
    checked_calculation (Qfloor p) (math_round (f * 100)) options = Some (gross, platform, pool, cents) ∧
    grossTotal r = amount gross ∧ platformFee r = amount platform ∧ prizePool r = amount pool ∧
    payouts r = Some <$> (amount <$> cents) ∧
    (0 < pool → ∃ bps, checked_encoding pool cents = Some bps ∧
      encodeSorobanPayoutAmounts (amount <$> cents) (prizePool r) = Ok bps).
Proof.
  intros H Ht Hb. pose proof (checked_weights _ _ _ _ H Ht) as (base & ws & Hbase & Htrunc & Hw).
  destruct (calculate_spec _ _ _ _ H) as (p' & f' & [= <-] & [= <-] & Hc & Hp & Hf & Hspec).
  rewrite Hc in Ht. destruct (Hspec Ht) as (cents & ws' & [Hg Hpf Hpool Hpay Hsp Hws Hcents _ Hnn]).
  assert (ws' = ws) as ->.
  { apply (inj (fmap Some)). rewrite <- Hsp. exact Hw. }
  set (gross := Qfloor p * math_round (f * 100)) in *. set (platform := round_div (gross * 5) 100) in *.
  rewrite Hpool in Hnn, Hcents. cbn [amount Qnum] in Hnn, Hcents.
  assert (0 ≤ gross) by nia. assert (0 ≤ platform) by (unfold platform, round_div; apply Z.div_pos; lia).
  exists gross, platform, (gross - platform), cents. split_and!; [|done..|].
  - unfold checked_calculation. rewrite Hbase. cbn [mbind option_bind]. fold gross.
    rewrite safe_ok by (unfold MAX_SAFE_INTEGER; lia). cbn [mbind option_bind].
    change (gross * PLATFORM_FEE_PERCENT) with (gross * 5). rewrite safe_ok by (unfold MAX_SAFE_INTEGER; lia).
    cbn [mbind option_bind]. fold platform. rewrite safe_ok by (unfold MAX_SAFE_INTEGER; lia). cbn [mbind option_bind].
    rewrite safe_ok by (unfold MAX_SAFE_INTEGER; lia). cbn [mbind option_bind]. rewrite Htrunc. cbn [mbind option_bind].
    destruct Hws as [[-> _]|[Hne [Hwn Hws]]]; [by rewrite Hcents|].
    rewrite (checked_split_ok _ _ (λ b, (gross - platform) * b / 10000)); [by rewrite Hcents| | | |unfold MAX_SAFE_INTEGER; lia].
    + intros v _ Hv. pose proof (elem_le_sum _ _ Hwn Hv). rewrite Forall_forall in Hwn. specialize (Hwn v Hv).
      apply checked_share_ok; [|lia]. unfold MAX_SAFE_INTEGER. nia.
    + intros v Hv. rewrite Forall_forall in Hwn. specialize (Hwn v Hv). apply Z.div_pos; nia.
    + pose proof (sum_floor_le (gross - platform) 10000 ws ltac:(lia)) as Hs. by rewrite Hws, Z.div_mul in Hs by lia.
  - intros Hpos. destruct Hws as [[-> Hz]|[Hne Hw2]]; [unfold platform, gross in Hpos; by rewrite Hz in Hpos|].
    destruct (payouts_sum_nonneg (gross - platform) ws Hnn Hw2 Hne) as [Hs Hcn]. rewrite <- Hcents in Hs, Hcn.
    destruct (payouts_encode (gross - platform) ws Hpos Hne Hw2) as (bps & He & Hbps). rewrite <- Hcents in He, Hbps.
    exists bps. split; [|by rewrite Hpool]. unfold checked_encoding.
    rewrite checked_sum_ok by (unfold MAX_SAFE_INTEGER; done || lia). cbn [mbind option_bind].
    apply checked_encode_ok; [lia| |lia|done]. apply Forall_forall. intros c Hin. rewrite <- Hs.
    split; [by eapply Forall_forall in Hcn|by apply elem_le_sum].
Qed.

(** Two million managers at 4500 USDC under the five tiers: within the bound. *)
Lemma prize_arithmetic_safe_witness :
  ∃ gross platform pool cents bps,
    checked_calculation 2000000 450000 {| preset := Some TopFive; customSplitsBps := None |} = Some (gross, platform, pool, cents) ∧
    sumZ cents = 855000000000 ∧ checked_encoding pool cents = Some bps.
Proof.
  set (opts := {| preset := Some TopFive; customSplitsBps := None |}).
  pose (m := calculatePrizeDistribution (Fin 2000000) (Fin 4500) opts).
  assert (is_ok m = true) as Hok by (vm_compute; reflexivity). destruct m as [r|] eqn:Hm; [|discriminate Hok].
  destruct (prize_arithmetic_safe 2000000 4500 opts r Hm I) as (g & f & p & cents & H & _ & _ & _ & _ & He);
    [vm_compute; discriminate|].
  change (math_round (4500 * 100)) with 450000 in H. change (Qfloor 2000000) with 2000000 in H.
  assert (checked_calculation 2000000 450000 opts =
    Some (900000000000, 45000000000, 855000000000, [384750000000; 213750000000; 128250000000; 85500000000; 42750000000])) as E
    by (vm_compute; reflexivity).
  rewrite E in H. injection H as <- <- <- <-. destruct (He eq_refl) as (bps & Hb & _).
  eexists _, _, _, _, bps. split; [exact E|]. split; [reflexivity|exact Hb].
Defined.

(** Ten times as many: the fee no longer fits. *)
Example beyond_the_bound :
  checked_calculation 20000000 450000000 {| preset := Some TopFive; customSplitsBps := None |} = None.
Proof. vm_compute. reflexivity. Qed.

(** The guard of [tiers_carry_weight] is needed: accepted custom splits that
    start with zeros give NaN payouts when only those tiers are kept. *)
Lemma custom_leading_zeros_pay_nan :
  ∃ r, calculatePrizeDistribution (int 2) (int 10)
    {| preset := Some Custom; customSplitsBps := Some [int 0; int 0; int 10000] |} = Ok r ∧
  validateSplits [int 0; int 0; int 10000] = Ok [0; 0; 10000] ∧
  payouts r = [None; None] ∧ prizePool r = amount 1900.
Proof. eexists. split; [vm_compute; reflexivity|]. by vm_compute. Qed.
