(* ===== verification/ScoringConfig.v ===== *)
(** * League scoring configurations

    [backend/src/models/leagueScoringConfig.ts]: the validator that turns
    untyped JSON into a canonical configuration, the presets, and
    [scoringConfigToJson] of [leagueService.ts], which writes it back. *)

From Stdlib Require Import QArith.
From S2P Require Import Prelude Rules.

(** An [unknown] value as it arrives from a request body or a JSON column. *)
Inductive json : Type :=
| JUndefined
| JNull
| JBool (b : bool)
| JNum (n : jsnum)
| JStr (s : string)
| JArr (l : list json)
| JObj (fields : list (string * json)).

Inductive ConfigError : Type :=
| NotAnObject
| MissingOrUnknownFields
| BadVersion
| BadAppearance
| AppearanceFields
| NotInRange (path : string) (minimum maximum : Z)
| WeightsNotObject (path : string)
| WeightsKeys (path : string)
| BothConfigAndPreset
| UnknownScoringPreset.

Record LeagueScoringConfig : Type := {
  underSixtyMinutes : Z;
  sixtyOrMoreMinutes : Z;
  goals : ByPosition Z;
  assists : Z;
  cleanSheets : ByPosition Z;
  goalsConcededPerTwo : ByPosition Z;
  savesPerThree : Z;
  penaltySaves : Z;
  penaltyMisses : Z;
  yellowCards : Z;
  redCards : Z;
  ownGoals : Z;
  bonus : Z
}.

Global Instance ByPosition_eq_dec {A} `{EqDecision A} : EqDecision (ByPosition A).
Proof. solve_decision. Defined.

Global Instance LeagueScoringConfig_eq_dec : EqDecision LeagueScoringConfig.
Proof. solve_decision. Defined.

(** ** Presets *)

(** [makePreset()]; the other presets override some of its fields. *)
Definition CLASSIC_FPL : LeagueScoringConfig := {|
  underSixtyMinutes := 1; sixtyOrMoreMinutes := 2;
  goals := Build_ByPosition 6 6 5 4;
  assists := 3;
  cleanSheets := Build_ByPosition 4 4 1 0;
  goalsConcededPerTwo := Build_ByPosition (-1) (-1) 0 0;
  savesPerThree := 1; penaltySaves := 5; penaltyMisses := -2;
  yellowCards := -1; redCards := -3; ownGoals := -2; bonus := 1 |}.

Definition ALL_ATTACK : LeagueScoringConfig := {|
  underSixtyMinutes := 1; sixtyOrMoreMinutes := 2;
  goals := Build_ByPosition 10 8 7 6;
  assists := 5;
  cleanSheets := Build_ByPosition 2 2 1 0;
  goalsConcededPerTwo := Build_ByPosition (-1) (-1) 0 0;
  savesPerThree := 1; penaltySaves := 3; penaltyMisses := -2;
  yellowCards := -1; redCards := -3; ownGoals := -2; bonus := 1 |}.

Definition DEFENSIVE_MASTERMIND : LeagueScoringConfig := {|
  underSixtyMinutes := 1; sixtyOrMoreMinutes := 2;
  goals := Build_ByPosition 6 6 5 4;
  assists := 3;
  cleanSheets := Build_ByPosition 8 7 2 0;
  goalsConcededPerTwo := Build_ByPosition (-2) (-2) 0 0;
  savesPerThree := 2; penaltySaves := 8; penaltyMisses := -2;
  yellowCards := -1; redCards := -3; ownGoals := -2; bonus := 1 |}.

Definition LEAGUE_SCORING_PRESETS : list (string * LeagueScoringConfig) :=
  [("CLASSIC_FPL", CLASSIC_FPL); ("ALL_ATTACK", ALL_ATTACK);
   ("DEFENSIVE_MASTERMIND", DEFENSIVE_MASTERMIND)].

(** ** Validation *)

(** [isRecord]: the fields of a plain object. *)
Definition isRecord (value : json) : option (list (string * json)) :=
  match value with JObj fields => Some fields | _ => None end.

Definition property (fields : list (string * json)) (key : string) : json :=
  default JUndefined (map_get key fields).

(** Exactly the expected keys: same number, and each one an own property. *)
Definition hasExactly (fields : list (string * json)) (keys : list string) : bool :=
  (length fields =? length keys)%nat && forallb (λ key, map_has key fields) keys.

Definition readInteger (value : json) (path : string) (minimum maximum : Z) :
    result ConfigError Z :=
  match value with
  | JNum n =>
      match as_integer n with
      | Some z => if (z <? minimum) || (maximum <? z)
                  then Err (NotInRange path minimum maximum) else Ok z
      | None => Err (NotInRange path minimum maximum)
      end
  | _ => Err (NotInRange path minimum maximum)
  end.

Definition readPositionWeights (value : json) (path : string) (minimum maximum : Z) :
    result ConfigError (ByPosition Z) :=
  let* fields := or_throw (isRecord value) (WeightsNotObject path) in
  throw_if (negb (hasExactly fields (position_name <$> positions))) (WeightsKeys path) ;;;
  let read p := readInteger (property fields (position_name p))
                  (path +:+ "." +:+ position_name p) minimum maximum in
  let* g := read GKP in
  let* d := read DEF in
  let* m := read MID in
  let* f := read FWD in
  Ok (Build_ByPosition g d m f).

Definition readFlatWeights (input : list (string * json)) (fields : list string)
    (minimum maximum : Z) : result ConfigError (list (string * Z)) :=
  mmapM (λ field, rmap (λ z, (field, z))
    (readInteger (property input field) field minimum maximum)) fields.

Definition nonNegativeFields : list string :=
  ["assists"; "savesPerThree"; "penaltySaves"; "bonus"].
Definition nonPositiveFields : list string :=
  ["penaltyMisses"; "yellowCards"; "redCards"; "ownGoals"].

Definition expectedKeys : list string :=
  ["version"; "appearance"; "goals"; "assists"; "cleanSheets"; "goalsConcededPerTwo";
   "savesPerThree"; "penaltySaves"; "penaltyMisses"; "yellowCards"; "redCards";
   "ownGoals"; "bonus"].

(** [flatWeights.field]. *)
Definition weight_of (weights : list (string * Z)) (field : string) : Z :=
  default 0 (map_get field weights).

Definition is_one (value : json) : bool :=
  match value with JNum (Fin q) => Qeq_bool q 1 | _ => false end.

Definition parseLeagueScoringConfig (input : json) : result ConfigError LeagueScoringConfig :=
  let* fields := or_throw (isRecord input) NotAnObject in
  throw_if (negb (hasExactly fields expectedKeys)) MissingOrUnknownFields ;;;
  throw_if (negb (is_one (property fields "version"))) BadVersion ;;;
  let* appearance := or_throw (isRecord (property fields "appearance")) BadAppearance in
  throw_if (negb (hasExactly appearance ["underSixtyMinutes"; "sixtyOrMoreMinutes"]))
    AppearanceFields ;;;
  let* flat1 := readFlatWeights fields nonNegativeFields 0 100 in
  let* flat2 := readFlatWeights fields nonPositiveFields (-100) 0 in
  let flatWeights := flat1 ++ flat2 in
  let* under := readInteger (property appearance "underSixtyMinutes")
                  "appearance.underSixtyMinutes" 0 100 in
  let* over := readInteger (property appearance "sixtyOrMoreMinutes")
                 "appearance.sixtyOrMoreMinutes" 0 100 in
  let* goals := readPositionWeights (property fields "goals") "goals" 0 100 in
  let* cleanSheets := readPositionWeights (property fields "cleanSheets") "cleanSheets" 0 100 in
  let* conceded := readPositionWeights (property fields "goalsConcededPerTwo")
                     "goalsConcededPerTwo" (-100) 0 in
  Ok {| underSixtyMinutes := under;
        sixtyOrMoreMinutes := over;
        goals := goals;
        assists := weight_of flatWeights "assists";
        cleanSheets := cleanSheets;
        goalsConcededPerTwo := conceded;
        savesPerThree := weight_of flatWeights "savesPerThree";
        penaltySaves := weight_of flatWeights "penaltySaves";
        penaltyMisses := weight_of flatWeights "penaltyMisses";
        yellowCards := weight_of flatWeights "yellowCards";
        redCards := weight_of flatWeights "redCards";
        ownGoals := weight_of flatWeights "ownGoals";
        bonus := weight_of flatWeights "bonus" |}.

(** ** Serialization *)

Definition jint (z : Z) : json := JNum (int z).

Definition positionWeights (w : ByPosition Z) : json :=
  JObj ((λ p, (position_name p, jint (at_position w p))) <$> positions).

Definition scoringConfigToJson (config : LeagueScoringConfig) : json :=
  JObj [("version", jint 1);
        ("appearance", JObj [("underSixtyMinutes", jint (underSixtyMinutes config));
                             ("sixtyOrMoreMinutes", jint (sixtyOrMoreMinutes config))]);
        ("goals", positionWeights (goals config));
        ("assists", jint (assists config));
        ("cleanSheets", positionWeights (cleanSheets config));
        ("goalsConcededPerTwo", positionWeights (goalsConcededPerTwo config));
        ("savesPerThree", jint (savesPerThree config));
        ("penaltySaves", jint (penaltySaves config));
        ("penaltyMisses", jint (penaltyMisses config));
        ("yellowCards", jint (yellowCards config));
        ("redCards", jint (redCards config));
        ("ownGoals", jint (ownGoals config));
        ("bonus", jint (bonus config))].

(** [resolveLeagueScoringConfig]; [JUndefined] is an absent option. *)
Definition resolveLeagueScoringConfig (scoringConfig scoringPreset : json) :
    result ConfigError (option LeagueScoringConfig) :=
  match scoringConfig, scoringPreset with
  | JUndefined, JUndefined => Ok None
  | JUndefined, JStr name =>
      let* preset := or_throw (map_get name LEAGUE_SCORING_PRESETS) UnknownScoringPreset in
      rmap Some (parseLeagueScoringConfig (scoringConfigToJson preset))
  | JUndefined, _ => Err UnknownScoringPreset
  | _, JUndefined => rmap Some (parseLeagueScoringConfig scoringConfig)
  | _, _ => Err BothConfigAndPreset
  end.

(** ** Well-formed configurations *)

Definition within (lo hi z : Z) : Prop := lo ≤ z ≤ hi.
Definition weights_within (lo hi : Z) (w : ByPosition Z) : Prop :=
  ∀ p, within lo hi (at_position w p).

(** Rewards are 0..100, penalties -100..0. *)
Record config_wf (c : LeagueScoringConfig) : Prop := {
  wf_under : within 0 100 (underSixtyMinutes c);
  wf_over : within 0 100 (sixtyOrMoreMinutes c);
  wf_goals : weights_within 0 100 (goals c);
  wf_assists : within 0 100 (assists c);
  wf_cleanSheets : weights_within 0 100 (cleanSheets c);
  wf_conceded : weights_within (-100) 0 (goalsConcededPerTwo c);
  wf_saves : within 0 100 (savesPerThree c);
  wf_penaltySaves : within 0 100 (penaltySaves c);
  wf_penaltyMisses : within (-100) 0 (penaltyMisses c);
  wf_yellow : within (-100) 0 (yellowCards c);
  wf_red : within (-100) 0 (redCards c);
  wf_own : within (-100) 0 (ownGoals c);
  wf_bonus : within 0 100 (bonus c)
}.

(** ** Lemmas *)

Lemma readInteger_ok value path lo hi z :
  readInteger value path lo hi = Ok z → within lo hi z.
Proof.
  unfold readInteger, within. destruct value; try done. destruct (as_integer n); [|done].
  destruct (_ || _) eqn:E; [done|]. intros ?. inv_ok. bool_to_prop. lia.
Qed.

Lemma readInteger_jint z path lo hi :
  within lo hi z → readInteger (jint z) path lo hi = Ok z.
Proof.
  unfold within. intros. unfold readInteger, jint. rewrite as_integer_int.
  rewrite (proj2 (Z.ltb_ge _ _)), (proj2 (Z.ltb_ge _ _)) by lia. done.
Qed.

Lemma readPositionWeights_ok value path lo hi w :
  readPositionWeights value path lo hi = Ok w → weights_within lo hi w.
Proof.
  unfold readPositionWeights. intros H. inv_ok. subst w.
  intros []; cbn; eauto using readInteger_ok.
Qed.

Lemma readPositionWeights_json w path lo hi :
  weights_within lo hi w → readPositionWeights (positionWeights w) path lo hi = Ok w.
Proof.
  intros Hw. unfold readPositionWeights. cbn [isRecord or_throw rbind positionWeights].
  assert (hasExactly ((λ p, (position_name p, jint (at_position w p))) <$> positions)
    (position_name <$> positions) = true) as -> by done.
  cbn [negb throw_if rbind]. 
  do 4 (match goal with |- context [readInteger (property ?f (position_name ?p)) _ _ _] =>
    change (property f (position_name p)) with (jint (at_position w p)) end;
    rewrite readInteger_jint by apply Hw; cbn [rbind]).
  by destruct w.
Qed.

Lemma readFlatWeights_ok input fields lo hi ws field :
  readFlatWeights input fields lo hi = Ok ws → field ∈ fields →
  ∃ z, map_get field ws = Some z ∧ within lo hi z.
Proof.
  unfold readFlatWeights. rewrite mmapM_ok. intros H. induction H as [|f [f' z] fs ws Hz H IH].
  - set_solver.
  - destruct (readInteger _ _ _ _) as [z'|] eqn:E; [|done]. cbn in Hz. simplify_eq.
    intros Hf. cbn. case_decide as Hd; [eauto using readInteger_ok|].
    apply IH. set_solver.
Qed.

Lemma readFlatWeights_keys input fields lo hi ws :
  readFlatWeights input fields lo hi = Ok ws → ws.*1 = fields.
Proof.
  unfold readFlatWeights. rewrite mmapM_ok. induction 1 as [|f [f' z] fs ws Hz H IH]; [done|].
  cbn. rewrite IH. destruct (readInteger _ _ _ _); [|done]. cbn in Hz. by simplify_eq.
Qed.

Lemma weight_of_app ws1 ws2 field :
  weight_of (ws1 ++ ws2) field
  = if decide (field ∈ ws1.*1) then weight_of ws1 field else weight_of ws2 field.
Proof.
  unfold weight_of. induction ws1 as [|[k z] ws1 IH]; [done|]. cbn.
  destruct (decide (field = k)) as [->|Hk]; [rewrite decide_True; [done|set_solver]|].
  rewrite IH. do 2 case_decide; set_solver.
Qed.

(** The weights read from a well-formed object, whatever produced them. *)
Lemma readFlatWeights_exact input fields lo hi (value : string → Z) :
  (∀ f, f ∈ fields → property input f = jint (value f) ∧ within lo hi (value f)) →
  readFlatWeights input fields lo hi = Ok ((λ f, (f, value f)) <$> fields).
Proof.
  intros H. unfold readFlatWeights. apply mmapM_ok.
  induction fields as [|f fields IH]; constructor.
  - destruct (H f) as [-> Hr]; [by left|]. by rewrite readInteger_jint.
  - apply IH. intros g Hg. apply H. by right.
Qed.

(** The value of a flat field of a configuration, by name. *)
Definition flat_field (c : LeagueScoringConfig) (f : string) : Z :=
  default 0 (map_get f
    [("assists", assists c); ("savesPerThree", savesPerThree c); ("penaltySaves", penaltySaves c);
     ("bonus", bonus c); ("penaltyMisses", penaltyMisses c); ("yellowCards", yellowCards c);
     ("redCards", redCards c); ("ownGoals", ownGoals c)]).

Arguments readFlatWeights : simpl never.
Arguments readPositionWeights : simpl never.

Lemma parse_wf input c : parseLeagueScoringConfig input = Ok c → config_wf c.
Proof.
  unfold parseLeagueScoringConfig. intros H. inv_ok. subst c.
  repeat match goal with
  | H : readInteger _ _ _ _ = Ok _ |- _ => apply readInteger_ok in H
  | H : readPositionWeights _ _ _ _ = Ok _ |- _ => apply readPositionWeights_ok in H
  end.
  match goal with H1 : readFlatWeights _ nonNegativeFields _ _ = Ok ?w1,
    H2 : readFlatWeights _ nonPositiveFields _ _ = Ok ?w2 |- _ =>
    pose proof (readFlatWeights_keys _ _ _ _ _ H1) as K1;
    assert (∀ f, f ∈ nonNegativeFields → within 0 100 (weight_of (w1 ++ w2) f)) as W1;
    [intros f Hf; rewrite weight_of_app, K1, decide_True by done;
     destruct (readFlatWeights_ok _ _ _ _ _ f H1 Hf) as (z & Hz & Hr);
     unfold weight_of; by rewrite Hz|];
    assert (∀ f, f ∉ nonNegativeFields → f ∈ nonPositiveFields →
      within (-100) 0 (weight_of (w1 ++ w2) f)) as W2;
    [intros f Hn Hf; rewrite weight_of_app, K1, decide_False by done;
     destruct (readFlatWeights_ok _ _ _ _ _ f H2 Hf) as (z & Hz & Hr);
     unfold weight_of; by rewrite Hz|]
  end.
  constructor; cbn [underSixtyMinutes sixtyOrMoreMinutes goals assists cleanSheets
    goalsConcededPerTwo savesPerThree penaltySaves penaltyMisses yellowCards redCards ownGoals
    bonus]; try assumption;
    first [apply W1; by apply (bool_decide_unpack _) | apply W2; by apply (bool_decide_unpack _)].
Qed.

Lemma parse_toJson c : config_wf c → parseLeagueScoringConfig (scoringConfigToJson c) = Ok c.
Proof.
  intros W. unfold parseLeagueScoringConfig.
  cbn [isRecord or_throw rbind scoringConfigToJson].
  set (fields := [("version", jint 1); _; _; _; _; _; _; _; _; _; _; _; _]).
  assert (hasExactly fields expectedKeys = true) as -> by done.
  assert (is_one (property fields "version") = true) as -> by done.
  change (property fields "appearance") with
    (JObj [("underSixtyMinutes", jint (underSixtyMinutes c));
           ("sixtyOrMoreMinutes", jint (sixtyOrMoreMinutes c))]).
  change (property fields "goals") with (positionWeights (goals c)).
  change (property fields "cleanSheets") with (positionWeights (cleanSheets c)).
  change (property fields "goalsConcededPerTwo") with (positionWeights (goalsConcededPerTwo c)).
  cbn [negb throw_if rbind isRecord or_throw].
  set (app := [("underSixtyMinutes", _); _]).
  assert (hasExactly app ["underSixtyMinutes"; "sixtyOrMoreMinutes"] = true) as -> by done.
  change (property app "underSixtyMinutes") with (jint (underSixtyMinutes c)).
  change (property app "sixtyOrMoreMinutes") with (jint (sixtyOrMoreMinutes c)).
  cbn [negb throw_if rbind].
  rewrite (readFlatWeights_exact fields nonNegativeFields 0 100 (flat_field c)),
          (readFlatWeights_exact fields nonPositiveFields (-100) 0 (flat_field c)).
  2,3: intros f Hf; repeat (apply elem_of_cons in Hf as [->|Hf]); try set_solver;
       (split; [done|]); cbn; apply W.
  cbn [rbind].
  rewrite !readInteger_jint, !readPositionWeights_json by apply W. cbn [rbind].
  destruct c. done.
Qed.

(** ** Properties *)

(** Parsing is a canonicalisation: whatever JSON is accepted, the
    configuration obeys the documented sign and range of every weight, and its
    serialization is accepted again and gives the same configuration; conversely
    every configuration in range is the result of parsing some input. *)
Theorem parse_canonical :
  (∀ input c, parseLeagueScoringConfig input = Ok c →
     config_wf c ∧ parseLeagueScoringConfig (scoringConfigToJson c) = Ok c) ∧
  (∀ c, config_wf c → ∃ input, parseLeagueScoringConfig input = Ok c).
Proof.
  split.
  - intros input c H%parse_wf. eauto using parse_toJson.
  - intros c H%parse_toJson. eauto.
Qed.

Lemma preset_wf name c : map_get name LEAGUE_SCORING_PRESETS = Some c → config_wf c.
Proof.
  intros H%map_get_elem. repeat (apply elem_of_cons in H as [?|H]; [simplify_eq|]); [..|set_solver];
    (constructor; try (intros []); cbn; unfold within; lia).
Qed.

Lemma decide_undef (j : json) : j = JUndefined ∨ j ≠ JUndefined.
Proof. destruct j; auto. Qed.

Lemma resolve_custom input c :
  input ≠ JUndefined → resolveLeagueScoringConfig input JUndefined = Ok c →
  ∃ c', c = Some c' ∧ parseLeagueScoringConfig input = Ok c'.
Proof.
  intros Hi. destruct input; try done; cbn [resolveLeagueScoringConfig];
    (destruct (parseLeagueScoringConfig _) as [c'|] eqn:E; cbn; [|done]; intros; inv_ok; eauto).
Qed.

Lemma parse_canonical_witness :
  parseLeagueScoringConfig (scoringConfigToJson ALL_ATTACK) = Ok ALL_ATTACK ∧ config_wf ALL_ATTACK.
Proof.
  split; [reflexivity|].
  exact (proj1 (proj1 parse_canonical (scoringConfigToJson ALL_ATTACK) ALL_ATTACK eq_refl)).
Defined.

(** Resolution of the league options on every branch: neither option gives
    the default scoring, a preset name gives exactly that preset, any other
    preset value is an error, a custom configuration is what the parser makes
    of it, both at once is an error; and what is returned is always in range. *)
Theorem resolve_scoring_config :
  resolveLeagueScoringConfig JUndefined JUndefined = Ok None ∧
  (∀ name c, map_get name LEAGUE_SCORING_PRESETS = Some c →
     resolveLeagueScoringConfig JUndefined (JStr name) = Ok (Some c)) ∧
  (∀ preset, preset ≠ JUndefined →
     (∀ name, preset = JStr name → map_get name LEAGUE_SCORING_PRESETS = None) →
     resolveLeagueScoringConfig JUndefined preset = Err UnknownScoringPreset) ∧
  (∀ config, config ≠ JUndefined →
     resolveLeagueScoringConfig config JUndefined = rmap Some (parseLeagueScoringConfig config)) ∧
  (∀ config preset, config ≠ JUndefined → preset ≠ JUndefined →
     resolveLeagueScoringConfig config preset = Err BothConfigAndPreset) ∧
  (∀ config preset c, resolveLeagueScoringConfig config preset = Ok (Some c) → config_wf c).
Proof.
  split; [done|]. split.
  { intros name c H. cbn [resolveLeagueScoringConfig]. rewrite H. cbn [or_throw rbind].
    by rewrite parse_toJson by eauto using preset_wf. }
  split.
  { intros [] ? H; try done. cbn [resolveLeagueScoringConfig]. by rewrite (H s eq_refl). }
  split; [by intros []|]. split; [by intros [] []|].
  intros config preset c H. destruct (decide_undef config) as [->|Hc].
  - destruct preset; try done. cbn [resolveLeagueScoringConfig] in H.
    destruct (map_get _ _); [|done]. cbn [or_throw rbind] in H.
    destruct (parseLeagueScoringConfig _) eqn:E; [|done]. cbn in H. inv_ok. simplify_eq.
    by eapply parse_wf.
  - destruct (decide_undef preset) as [->|Hp]; [|by destruct config, preset].
    destruct (resolve_custom _ _ Hc H) as (c' & [= <-] & E). by eapply parse_wf.
Qed.

Lemma resolve_scoring_config_witness :
  resolveLeagueScoringConfig JUndefined (JStr "ALL_ATTACK") = Ok (Some ALL_ATTACK) ∧
  resolveLeagueScoringConfig (JStr "x") JNull = Err BothConfigAndPreset.
Proof.
  destruct resolve_scoring_config as (_ & Hp & _ & _ & Hb & _). split.
  - apply Hp. reflexivity.
  - apply Hb; discriminate.
Defined.
