(* ===== verification/Scoring.v ===== *)
(** * Gameweek scoring

    [backend/src/services/scoring/scoringService.ts]: automatic substitutions,
    captaincy, chips, custom scoring rules with their cache of compiled scorers,
    and the persistence of squad and league scores.

    The player details are objects that the code mutates while two arrays hold
    them ([starterDetails] or [benchDetails], and [currentStarters]); here they
    live in a store and [currentStarters] is a list of references. *)

From S2P Require Import Prelude Rules ScoringConfig.

(** ** Player details and the formation counts *)

Record PlayerScoreDetail : Type := {
  playerId : Z;
  position : Position;
  isStarter : bool;
  isCaptain : bool;
  isViceCaptain : bool;
  positionOrder : Z;
  minutesPlayed : Z;
  rawPoints : Z;
  multiplier : Z;
  effectivePoints : Z;
  subbedIn : bool;
  subbedOut : bool
}.

Definition set_subbedIn (d : PlayerScoreDetail) : PlayerScoreDetail :=
  {| playerId := playerId d; position := position d; isStarter := isStarter d;
     isCaptain := isCaptain d; isViceCaptain := isViceCaptain d;
     positionOrder := positionOrder d; minutesPlayed := minutesPlayed d;
     rawPoints := rawPoints d; multiplier := multiplier d;
     effectivePoints := effectivePoints d; subbedIn := true; subbedOut := subbedOut d |}.

Definition set_subbedOut (d : PlayerScoreDetail) : PlayerScoreDetail :=
  {| playerId := playerId d; position := position d; isStarter := isStarter d;
     isCaptain := isCaptain d; isViceCaptain := isViceCaptain d;
     positionOrder := positionOrder d; minutesPlayed := minutesPlayed d;
     rawPoints := rawPoints d; multiplier := multiplier d;
     effectivePoints := effectivePoints d; subbedIn := subbedIn d; subbedOut := true |}.

(** [activeCaptain.multiplier = m; activeCaptain.effectivePoints = raw * m]. *)
Definition set_multiplier (m : Z) (d : PlayerScoreDetail) : PlayerScoreDetail :=
  {| playerId := playerId d; position := position d; isStarter := isStarter d;
     isCaptain := isCaptain d; isViceCaptain := isViceCaptain d;
     positionOrder := positionOrder d; minutesPlayed := minutesPlayed d;
     rawPoints := rawPoints d; multiplier := m;
     effectivePoints := rawPoints d * m; subbedIn := subbedIn d; subbedOut := subbedOut d |}.

(** [FormationCounts]: the counters [gkp], [def], [mid], [fwd]. *)
Definition FormationCounts : Type := ByPosition Z.

Definition countFormation (players : list PlayerScoreDetail) : FormationCounts :=
  Build_ByPosition (count_position position GKP players) (count_position position DEF players)
    (count_position position MID players) (count_position position FWD players).

Definition if_position (d : PlayerScoreDetail) (p : Position) : Z :=
  if decide (position d = p) then 1 else 0.

(** The counter of [p] after [candidate] replaces [starter]. *)
Definition next_count (starter candidate : PlayerScoreDetail) (counts : FormationCounts)
    (p : Position) : Z :=
  at_position counts p - if_position starter p + if_position candidate p.

Definition swapKeepsFormationValid (starter candidate : PlayerScoreDetail)
    (counts : FormationCounts) : bool :=
  forallb (λ p, at_position MIN_STARTERS p <=? next_count starter candidate counts p) positions.

(** ** The store of shared detail objects *)

Inductive ref : Type :=
| Starter (i : nat)
| Bench (j : nat).

Global Instance ref_eq_dec : EqDecision ref.
Proof. solve_decision. Defined.

Record store : Type := { starterDetails : list PlayerScoreDetail;
                         benchDetails : list PlayerScoreDetail }.

Definition deref (h : store) (r : ref) : option PlayerScoreDetail :=
  match r with Starter i => starterDetails h !! i | Bench j => benchDetails h !! j end.

Definition update (f : PlayerScoreDetail → PlayerScoreDetail) (r : ref) (h : store) : store :=
  match r with
  | Starter i => {| starterDetails := alter f i (starterDetails h); benchDetails := benchDetails h |}
  | Bench j => {| starterDetails := starterDetails h; benchDetails := alter f j (benchDetails h) |}
  end.

Definition derefs (h : store) (cur : list ref) : list PlayerScoreDetail := omap (deref h) cur.

(** ** [AutoSubstitutionEngine.resolveAutoSubstitutions] *)

Definition eligible_gkp (b : PlayerScoreDetail) : bool :=
  bool_decide (position b = GKP) && negb (subbedIn b) && (0 <? minutesPlayed b).

Definition eligible_outfield (starter : PlayerScoreDetail) (counts : FormationCounts)
    (candidate : PlayerScoreDetail) : bool :=
  negb (bool_decide (position candidate = GKP) || subbedIn candidate
        || (minutesPlayed candidate =? 0))
  && swapKeepsFormationValid starter candidate counts.

(** The bench player the loop body picks for [starter], if any. *)
Definition pick_substitute (h : store) (cur : list ref) (starter : PlayerScoreDetail) :
    option nat :=
  if decide (position starter = GKP) then find_index eligible_gkp (benchDetails h)
  else find_index (eligible_outfield starter (countFormation (derefs h cur))) (benchDetails h).

(** One iteration of [for (let i = 0; ...)]. *)
Definition substitute_at (st : store * list ref) (i : nat) : store * list ref :=
  let '(h, cur) := st in
  match cur !! i with
  | None => st
  | Some r =>
      match deref h r with
      | None => st
      | Some starter =>
          if 0 <? minutesPlayed starter then st
          else match pick_substitute h cur starter with
               | Some j => (update set_subbedIn (Bench j) (update set_subbedOut r h),
                            <[i := Bench j]> cur)
               | None => st
               end
      end
  end.

Definition initial_refs (h : store) : list ref := Starter <$> seq 0 (length (starterDetails h)).

Definition resolveAutoSubstitutions (h : store) : store * list ref :=
  foldl substitute_at (h, initial_refs h) (seq 0 (length (starterDetails h))).

(** ** Compiled scorers and their cache *)

(** [PlayerGameweekScoringStats]; an absent optional field is [None]. *)
Record PlayerGameweekScoringStats : Type := {
  minutes : Z;
  totalPoints : Z;
  st_goals : option Z;
  st_assists : option Z;
  st_cleanSheet : bool;
  st_goalsConceded : option Z;
  st_saves : option Z;
  st_penaltiesSaved : option Z;
  st_penaltiesMissed : option Z;
  st_yellowCards : option Z;
  st_redCards : option Z;
  st_ownGoals : option Z;
  st_bonus : option Z
}.

(** A stats object with only [minutes] and [totalPoints]. *)
Definition plain_stats (mins points : Z) : PlayerGameweekScoringStats :=
  {| minutes := mins; totalPoints := points; st_goals := None; st_assists := None;
     st_cleanSheet := false; st_goalsConceded := None; st_saves := None;
     st_penaltiesSaved := None; st_penaltiesMissed := None; st_yellowCards := None;
     st_redCards := None; st_ownGoals := None; st_bonus := None |}.

(** [x ?? 0]. *)
Definition or0 (o : option Z) : Z := default 0 o.

Definition Scorer : Type := Position → PlayerGameweekScoringStats → Z.

Definition scorer (canonical : LeagueScoringConfig) : Scorer := λ pos stats,
  (if 0 <? minutes stats
   then if 60 <=? minutes stats then sixtyOrMoreMinutes canonical
        else underSixtyMinutes canonical
   else 0)
  + or0 (st_goals stats) * at_position (goals canonical) pos
  + or0 (st_assists stats) * assists canonical
  + (if st_cleanSheet stats then at_position (cleanSheets canonical) pos else 0)
  + or0 (st_goalsConceded stats) / 2 * at_position (goalsConcededPerTwo canonical) pos
  + or0 (st_saves stats) / 3 * savesPerThree canonical
  + or0 (st_penaltiesSaved stats) * penaltySaves canonical
  + or0 (st_penaltiesMissed stats) * penaltyMisses canonical
  + or0 (st_yellowCards stats) * yellowCards canonical
  + or0 (st_redCards stats) * redCards canonical
  + or0 (st_ownGoals stats) * ownGoals canonical
  + or0 (st_bonus stats) * bonus canonical.

(** [compiledScorers]: the key [JSON.stringify(canonical)] determines the
    canonical configuration (fixed field order, integer values), which stands
    for it. *)
Definition Cache : Type := list (LeagueScoringConfig * Scorer).

Definition MAX_COMPILED_SCORERS : Z := 256.

Definition refreshCompiledScorer (key : LeagueScoringConfig) (s : Scorer) (cache : Cache) :
    Scorer * Cache :=
  (s, map_set key s (map_delete key cache)).

Definition getCompiledScorer (config : json) (cache : Cache) :
    result ConfigError (Scorer * Cache) :=
  let* canonical := parseLeagueScoringConfig config in
  match map_get canonical cache with
  | Some cached => Ok (refreshCompiledScorer canonical cached cache)
  | None =>
      let cache :=
        if MAX_COMPILED_SCORERS <=? Z.of_nat (length cache)
        then match map_keys cache with
             | oldestKey :: _ => map_delete oldestKey cache
             | [] => cache
             end
        else cache in
      Ok (scorer canonical, map_set canonical (scorer canonical) cache)
  end.

(** ** [ScoringService.calculateLineupScore] *)

Record LineupPlayer : Type := {
  lp_playerId : Z;
  lp_position : Position;
  lp_isStarter : bool;
  lp_isCaptain : bool;
  lp_isViceCaptain : bool;
  lp_positionOrder : Z
}.

Definition StatsMap : Type := list (Z * PlayerGameweekScoringStats).

Record LineupScore : Type := {
  startingPoints : Z;
  benchPoints : Z;
  captainPoints : Z;
  transferCost : Z;
  total : Z;
  details : list PlayerScoreDetail
}.

Definition stats_of (statsMap : StatsMap) (id : Z) : PlayerGameweekScoringStats :=
  default (plain_stats 0 0) (map_get id statsMap).

Definition detail_of (statsMap : StatsMap) (p : LineupPlayer) : PlayerScoreDetail :=
  let stats := stats_of statsMap (lp_playerId p) in
  {| playerId := lp_playerId p; position := lp_position p; isStarter := lp_isStarter p;
     isCaptain := lp_isCaptain p; isViceCaptain := lp_isViceCaptain p;
     positionOrder := lp_positionOrder p; minutesPlayed := minutes stats;
     rawPoints := totalPoints stats; multiplier := 1; effectivePoints := totalPoints stats;
     subbedIn := false; subbedOut := false |}.

Definition by_order : PlayerScoreDetail → PlayerScoreDetail → Z := asc positionOrder.

(** Steps 1: the two arrays, each sorted by [positionOrder]. *)
Definition initial_store (players : list LineupPlayer) (statsMap : StatsMap) : store :=
  let all := detail_of statsMap <$> players in
  {| starterDetails := sort_by by_order (List.filter isStarter all);
     benchDetails := sort_by by_order (List.filter (λ d, negb (isStarter d)) all) |}.

(** Step 3: the index of the active captain among the starters. *)
Definition active_captain (starters : list PlayerScoreDetail) : option nat :=
  let played (i : nat) := match starters !! i with
                          | Some d => 0 <? minutesPlayed d
                          | None => false
                          end in
  let designatedCaptain := find_index isCaptain starters in
  let designatedVice := find_index isViceCaptain starters in
  match designatedCaptain with
  | Some c =>
      if played c then Some c
      else match designatedVice with
           | Some v => if played v then Some v else Some c
           | None => Some c
           end
  | None =>
      match designatedVice with
      | Some v => if played v then Some v else None
      | None => None
      end
  end.

Definition captain_multiplier (chip : option ChipType) : Z :=
  if decide (chip = Some TRIPLE_CAPTAIN) then 3 else 2.

Definition apply_captain (chip : option ChipType) (h : store) : store :=
  match active_captain (starterDetails h) with
  | Some c => update (set_multiplier (captain_multiplier chip)) (Starter c) h
  | None => h
  end.

(** The loop of step 4: [captainBonusPoints] is overwritten, not accumulated. *)
Definition sum_points (currentStarters : list PlayerScoreDetail) : Z * Z :=
  foldl (λ '(sp, cb) p,
    (sp + effectivePoints p,
     if 1 <? multiplier p then rawPoints p * (multiplier p - 1) else cb)) (0, 0) currentStarters.

Definition bench_points (bench : list PlayerScoreDetail) : Z :=
  foldl (λ acc b, if subbedIn b then acc else acc + rawPoints b) 0 bench.

(** The store and lineup after substitutions and captaincy. *)
Definition final_lineup (players : list LineupPlayer) (statsMap : StatsMap)
    (chip : option ChipType) : store * list ref :=
  let h := initial_store players statsMap in
  let '(h, cur) := if decide (chip = Some BENCH_BOOST) then (h, initial_refs h)
                   else resolveAutoSubstitutions h in
  (apply_captain chip h, cur).

(** The body of [calculateLineupScore] when no scoring config is given. *)
Definition score_lineup (players : list LineupPlayer) (statsMap : StatsMap)
    (chip : option ChipType) (cost : option Z) : LineupScore :=
  let isBenchBoost := bool_decide (chip = Some BENCH_BOOST) in
  let '(h, cur) := final_lineup players statsMap chip in
  let '(sp, cb) := sum_points (derefs h cur) in
  let bp := bench_points (benchDetails h) in
  let allDetails := sort_by by_order (starterDetails h ++ benchDetails h) in
  let transferCost :=
    if bool_decide (chip = Some WILDCARD) || bool_decide (chip = Some FREE_HIT) then 0
    else or0 cost in
  {| startingPoints := sp; benchPoints := bp; captainPoints := cb; transferCost := transferCost;
     total := sp + (if isBenchBoost then bp else 0) - transferCost; details := allDetails |}.

Record LineupScoreOptions : Type := {
  opt_chip : option ChipType;
  opt_transferCost : option Z;
  opt_scoringConfig : option json
}.

(** The [calculatedStats] built when a scoring config is given. *)
Definition calculated_stats (s : Scorer) (players : list LineupPlayer) (statsMap : StatsMap) :
    StatsMap :=
  foldl (λ acc p,
    let stats := stats_of statsMap (lp_playerId p) in
    map_set (lp_playerId p) (plain_stats (minutes stats) (s (lp_position p) stats)) acc)
    [] players.

Definition calculateLineupScore (players : list LineupPlayer) (statsMap : StatsMap)
    (options : LineupScoreOptions) (cache : Cache) : result ConfigError (LineupScore * Cache) :=
  match opt_scoringConfig options with
  | Some config =>
      let* '(s, cache) := getCompiledScorer config cache in
      Ok (score_lineup players (calculated_stats s players statsMap)
            (opt_chip options) (opt_transferCost options), cache)
  | None => Ok (score_lineup players statsMap (opt_chip options) (opt_transferCost options), cache)
  end.

(** [resolveHeadToHead]. *)
Definition resolveHeadToHead (homeScore awayScore : Z) : Z * Z :=
  if awayScore <? homeScore then (3, 0)
  else if homeScore <? awayScore then (0, 3) else (1, 1).

(** ** Persistence *)

(** A squad row with its players joined to their position. *)
Record SquadRow : Type := { sq_players : list LineupPlayer; sq_totalPoints : Z }.

(** A row of [player_gameweek_stats]; there is one per fixture, so a double
    gameweek has several for the same player. *)
Record StatsRow : Type := {
  sr_playerId : Z;
  sr_gameweekId : Z;
  sr_stats : PlayerGameweekScoringStats
}.

Record ChipUsageRow : Type := { cu_chipType : ChipType; cu_cancelledAt : option Z }.

(** [SquadGameweekScore] without its [calculatedAt] timestamp. *)
Record GameweekScore : Type := {
  gs_points : Z;
  gs_benchPoints : Z;
  gs_captainPoints : Z;
  gs_transferCost : Z
}.

Record ScoringDb : Type := {
  squads : list (string * SquadRow);
  playerGameweekStats : list StatsRow;
  squadChipUsage : list ((string * Z) * ChipUsageRow);
  squadGameweekScore : list ((string * Z) * GameweekScore);
  leagueGameweekScore : list ((string * string * Z) * Z)
}.

Inductive ScoringError : Type :=
| SquadNotFound (squadId : string)
| InvalidConfig (e : ConfigError).

Definition squad_players (squad : SquadRow) : list LineupPlayer :=
  sort_by (asc lp_positionOrder) (sq_players squad).

(** [findMany({ where: { gameweekId, playerId: { in: playerIds } } })]. *)
Definition find_stats (db : ScoringDb) (gameweekId : Z) (playerIds : list Z) : list StatsRow :=
  List.filter (λ r, (sr_gameweekId r =? gameweekId) && bool_decide (sr_playerId r ∈ playerIds))
    (playerGameweekStats db).

(** The squad score adds up the rows of a player. *)
Definition merge_stats (statsList : list StatsRow) : StatsMap :=
  foldl (λ m st, match map_get (sr_playerId st) m with
    | Some existing =>
        map_set (sr_playerId st) (plain_stats (minutes existing + minutes (sr_stats st))
          (totalPoints existing + totalPoints (sr_stats st))) m
    | None =>
        map_set (sr_playerId st) (plain_stats (minutes (sr_stats st))
          (totalPoints (sr_stats st))) m
    end) [] statsList.

(** The league score keeps the last row of a player. *)
Definition last_stats (statsList : list StatsRow) : StatsMap :=
  foldl (λ m st, map_set (sr_playerId st) (sr_stats st) m) [] statsList.

Definition scores_of (squadId : string) (table : list ((string * Z) * GameweekScore)) :
    list GameweekScore :=
  (List.filter (λ r, bool_decide (r.1.1 = squadId)) table).*2.

Definition stored_cost (db : ScoringDb) (squadId : string) (gameweekId : Z) : Z :=
  match map_get (squadId, gameweekId) (squadGameweekScore db) with
  | Some existingScore => gs_transferCost existingScore
  | None => 0
  end.

Definition active_chip (db : ScoringDb) (squadId : string) (gameweekId : Z) : option ChipType :=
  match map_get (squadId, gameweekId) (squadChipUsage db) with
  | Some chipUsage => match cu_cancelledAt chipUsage with
                      | None => Some (cu_chipType chipUsage)
                      | Some _ => None
                      end
  | None => None
  end.

Definition gameweek_score (r : LineupScore) : GameweekScore :=
  {| gs_points := total r; gs_benchPoints := benchPoints r;
     gs_captainPoints := captainPoints r; gs_transferCost := transferCost r |}.

Definition calculateAndPersistSquadScore (squadId : string) (gameweekId : Z) (db : ScoringDb) :
    result ScoringError (LineupScore * ScoringDb) :=
  let* squad := or_throw (map_get squadId (squads db)) (SquadNotFound squadId) in
  let players := squad_players squad in
  let statsMap := merge_stats (find_stats db gameweekId (lp_playerId <$> players)) in
  let r := score_lineup players statsMap (active_chip db squadId gameweekId)
             (Some (stored_cost db squadId gameweekId)) in
  let table := map_set (squadId, gameweekId) (gameweek_score r) (squadGameweekScore db) in
  let newTotalPoints := foldl (λ sum s, sum + gs_points s) 0 (scores_of squadId table) in
  Ok (r, {| squads := map_set squadId {| sq_players := sq_players squad;
                                         sq_totalPoints := newTotalPoints |} (squads db);
            playerGameweekStats := playerGameweekStats db;
            squadChipUsage := squadChipUsage db;
            squadGameweekScore := table;
            leagueGameweekScore := leagueGameweekScore db |}).

Definition calculateAndPersistLeagueScore (leagueId squadId : string) (gameweekId : Z)
    (scoringConfig : json) (db : ScoringDb) (cache : Cache) :
    result ScoringError (Z * ScoringDb * Cache) :=
  let* squad := or_throw (map_get squadId (squads db)) (SquadNotFound squadId) in
  let players := squad_players squad in
  let statsMap := last_stats (find_stats db gameweekId (lp_playerId <$> players)) in
  let chip := cu_chipType <$> map_get (squadId, gameweekId) (squadChipUsage db) in
  match calculateLineupScore players statsMap
          {| opt_chip := chip; opt_transferCost := Some (stored_cost db squadId gameweekId);
             opt_scoringConfig := Some scoringConfig |} cache with
  | Err e => Err (InvalidConfig e)
  | Ok (r, cache) =>
      Ok (total r,
          {| squads := squads db; playerGameweekStats := playerGameweekStats db;
             squadChipUsage := squadChipUsage db;
             squadGameweekScore := squadGameweekScore db;
             leagueGameweekScore :=
               map_set (leagueId, squadId, gameweekId) (total r) (leagueGameweekScore db) |},
          cache)
  end.

Definition in_range (lo hi : option Z) (z : Z) : bool :=
  match lo with Some l => l <=? z | None => true end
  && match hi with Some h => z <=? h | None => true end.

Definition getSquadScoreAcrossGameweeks (squadId : string) (startGameweekId endGameweekId : option Z)
    (db : ScoringDb) : Z :=
  foldl (λ sum s, sum + gs_points s) 0
    (List.filter (λ r, bool_decide (r.1.1 = squadId) &&
       in_range startGameweekId endGameweekId r.1.2) (squadGameweekScore db)).*2.

(** ** Lemmas: the auto-substitution invariant *)

Section substitutions.
Context (Ss Bs : list PlayerScoreDetail).

(** The position of a referenced player, which no mutation changes. *)
Definition ref_pos (r : ref) : Position :=
  default GKP (position <$> deref {| starterDetails := Ss; benchDetails := Bs |} r).

(** What may stand in slot [i] of the lineup: its own starter, or the bench
    player who legally replaced him. *)
Definition slot_ok (i : nat) (r : ref) : Prop :=
  r = Starter i ∨
  ∃ j s b, r = Bench j ∧ Ss !! i = Some s ∧ Bs !! j = Some b ∧
    minutesPlayed s ≤ 0 ∧ minutesPlayed b ≠ 0 ∧ (position s = GKP ↔ position b = GKP).

Definition formation_ok (cur : list ref) : Prop :=
  ∀ p, at_position MIN_STARTERS p ≤ count_position ref_pos p cur.

Definition init_cur : list ref := Starter <$> seq 0 (length Ss).

(** May [b] come on for [s], given the lineup of that moment? *)
Definition could_replace (s b : PlayerScoreDetail) (lineup : list ref) : Prop :=
  if decide (position s = GKP) then position b = GKP ∧ 0 < minutesPlayed b
  else position b ≠ GKP ∧ minutesPlayed b ≠ 0 ∧
       ∀ p, at_position MIN_STARTERS p ≤
         count_position ref_pos p lineup - if_position s p + if_position b p.

(** Slots are visited in order: when slot [i] is, the earlier ones are final
    and the later ones still hold their starters. *)
Definition lineup_at (i : nat) (cur : list ref) : list ref := take i cur ++ drop i init_cur.

(** Bench priority: for a starter who did not play, everybody on the bench who
    comes before the player chosen (the whole bench when nobody is) was already
    on the pitch or could not come on. *)
Definition priority_ok (i : nat) (cur : list ref) : Prop :=
  ∀ s j' b', Ss !! i = Some s → minutesPlayed s ≤ 0 →
    Bs !! j' = Some b' → subbedIn b' = false →
    (∀ j, cur !! i = Some (Bench j) → (j' < j)%nat) →
    Bench j' ∈ take i cur ∨ ¬ could_replace s b' (lineup_at i cur).

Record subst_inv (k : nat) (st : store * list ref) : Prop := {
  si_starters : starterDetails st.1
    = imap (λ i s, if decide (st.2 !! i = Some (Starter i)) then s else set_subbedOut s) Ss;
  si_bench : benchDetails st.1
    = imap (λ j b, if decide (Bench j ∈ st.2) then set_subbedIn b else b) Bs;
  si_length : length st.2 = length Ss;
  si_slots : ∀ i r, st.2 !! i = Some r → slot_ok i r;
  si_nodup : NoDup st.2;
  si_todo : ∀ i, (k ≤ i < length Ss)%nat → st.2 !! i = Some (Starter i);
  si_gkp : count_position ref_pos GKP st.2 = count_position ref_pos GKP init_cur;
  si_formation : formation_ok init_cur → formation_ok st.2;
  si_priority : ∀ i, (i < k)%nat → priority_ok i st.2
}.

Lemma inv_init : subst_inv 0 ({| starterDetails := Ss; benchDetails := Bs |}, init_cur).
Proof.
  assert (∀ i r, init_cur !! i = Some r → r = Starter i ∧ (i < length Ss)%nat) as Hi.
  { intros i r. unfold init_cur. rewrite list_lookup_fmap, fmap_Some.
    intros (x & [-> ?]%lookup_seq & ->). split; [done|lia]. }
  assert (∀ i, (i < length Ss)%nat → init_cur !! i = Some (Starter i)) as Hi'.
  { intros i Hlt. unfold init_cur. rewrite list_lookup_fmap, lookup_seq_lt by done. done. }
  constructor; cbn [fst snd starterDetails benchDetails]; try done.
  - apply list_eq. intros i. rewrite list_lookup_imap.
    destruct (Ss !! i) as [s|] eqn:E; [|done]. cbn.
    rewrite decide_True; [done|]. apply Hi'. by eapply lookup_lt_Some.
  - apply list_eq. intros j. rewrite list_lookup_imap. destruct (Bs !! j); [|done]. cbn.
    rewrite decide_False; [done|]. intros [i H]%list_elem_of_lookup. by apply Hi in H as [? _].
  - unfold init_cur. by rewrite length_fmap, length_seq.
  - intros i r H%Hi. left. tauto.
  - unfold init_cur. apply NoDup_fmap_2; [by intros ?? [=]|]. apply NoDup_seq.
  - intros i [_ ?]. by apply Hi'.
  - lia.
Qed.

Lemma inv_deref k h cur r i :
  subst_inv k (h, cur) → cur !! i = Some r →
  ∃ d, deref h r = Some d ∧ position d = ref_pos r.
Proof.
  intros I Hr. destruct (si_slots _ _ I _ _ Hr) as [->|(j & s & b & -> & Hs & Hb & _)]; cbn in *.
  - pose proof (si_starters _ _ I) as E. cbn in E. rewrite E. rewrite list_lookup_imap.
    assert (is_Some (Ss !! i)) as [s Hs].
    { apply lookup_lt_is_Some. rewrite <- (si_length _ _ I). by eapply lookup_lt_Some. }
    unfold ref_pos. cbn. rewrite Hs. cbn. eexists. split; [done|]. by case_decide.
  - pose proof (si_bench _ _ I) as E. cbn in E. rewrite E. rewrite list_lookup_imap, Hb. unfold ref_pos. cbn.
    rewrite ?Hb. cbn. eexists. split; [done|]. by case_decide.
Qed.

(** Dereferencing the lineup gives the referenced positions. *)
Lemma inv_positions k h cur : subst_inv k (h, cur) → position <$> derefs h cur = ref_pos <$> cur.
Proof.
  intros I. unfold derefs.
  assert (∀ r, r ∈ cur → ∃ d, deref h r = Some d ∧ position d = ref_pos r) as Hd.
  { intros r [i Hi]%list_elem_of_lookup. by eapply inv_deref. }
  clear I. induction cur as [|r cur IH]; [done|].
  destruct (Hd r) as (d & Hr & Hp); [by left|]. cbn. rewrite Hr. cbn. rewrite Hp. f_equal.
  apply IH. intros r' ?. apply Hd. by right.
Qed.

Lemma inv_counts k h cur p :
  subst_inv k (h, cur) → count_position position p (derefs h cur) = count_position ref_pos p cur.
Proof.
  intros I. rewrite <- (count_position_fmap position id position p (derefs h cur)) by done.
  rewrite (inv_positions _ _ _ I). by apply count_position_fmap.
Qed.

Lemma at_countFormation l p : at_position (countFormation l) p = count_position position p l.
Proof. by destruct p. Qed.

(** What the choice of a substitute guarantees. *)
Lemma pick_substitute_ok k h cur s j :
  subst_inv k (h, cur) → pick_substitute h cur s = Some j →
  ∃ b, benchDetails h !! j = Some b ∧ subbedIn b = false ∧ minutesPlayed b ≠ 0 ∧
    (position s = GKP ↔ position b = GKP) ∧
    (position s = GKP ∨ ∀ p, at_position MIN_STARTERS p ≤
       count_position ref_pos p cur - if_position s p + if_position b p).
Proof.
  intros I. unfold pick_substitute.
  destruct (decide (position s = GKP)) as [Hg|Hg]; intros (b & Hb & Hp)%find_index_Some;
    exists b; (split; [done|]).
  - unfold eligible_gkp in Hp. bool_to_prop. split; [done|]. split; [lia|]. by split; [|left].
  - unfold eligible_outfield in Hp. bool_to_prop.
    split; [done|]. split; [done|]. split; [done|]. right. intros p.
    match goal with H : swapKeepsFormationValid _ _ _ = true |- _ => rename H into Hv end.
    unfold swapKeepsFormationValid in Hv. rewrite forallb_forall in Hv.
    assert (In p positions) as Hin by (destruct p; cbn; tauto).
    specialize (Hv _ Hin). bool_to_prop. unfold next_count in Hv.
    rewrite at_countFormation, (inv_counts _ _ _ _ I) in Hv. lia.
Qed.

Lemma imap_alter {A B} (f : nat → A → B) (g : B → B) (f' : nat → A → B) i (l : list A) :
  (∀ k x, l !! k = Some x → f' k x = if decide (k = i) then g (f k x) else f k x) →
  alter g i (imap f l) = imap f' l.
Proof.
  intros H. apply list_eq. intros k. destruct (decide (k = i)) as [->|Hk].
  - rewrite list_lookup_alter, !list_lookup_imap. rewrite decide_True by done. destruct (l !! i) as [x|] eqn:E; cbn; [|done].
    cbn. by rewrite (H _ _ E), decide_True.
  - rewrite list_lookup_alter_ne, !list_lookup_imap by done.
    destruct (l !! k) as [x|] eqn:E; [|done]. cbn. by rewrite (H _ _ E), decide_False.
Qed.

Lemma inv_weaken k st : subst_inv k st → priority_ok k st.2 → subst_inv (S k) st.
Proof.
  intros [] Hk. constructor; auto; intros.
  - apply si_todo0. lia.
  - destruct (decide (i = k)) as [->|]; [done|]. apply si_priority0. lia.
Qed.

Lemma lookup_init_cur i r : init_cur !! i = Some r ↔ r = Starter i ∧ (i < length Ss)%nat.
Proof.
  unfold init_cur. rewrite list_lookup_fmap, fmap_Some. setoid_rewrite lookup_seq. split.
  - intros (x & [-> ?] & ->). split; [done|lia].
  - intros [-> ?]. exists i. split; [|done]. split; lia.
Qed.

Lemma inv_lineup_at k h cur : subst_inv k (h, cur) → (k ≤ length Ss)%nat → lineup_at k cur = cur.
Proof.
  intros I Hk. unfold lineup_at. rewrite <- (take_drop k cur) at 2. f_equal.
  apply list_eq. intros i. rewrite !lookup_drop. apply option_eq. intros r.
  rewrite lookup_init_cur. split.
  - intros [-> ?]. apply (si_todo _ _ I). lia.
  - intros H. assert (k + i < length Ss)%nat.
    { rewrite <- (si_length _ _ I). by eapply lookup_lt_Some. }
    pose proof (si_todo _ _ I (k + i)%nat ltac:(lia)) as H'. cbn in H'. by simplify_eq.
Qed.

Lemma could_replace_eligible k h cur s b :
  subst_inv k (h, cur) → subbedIn b = false → could_replace s b cur →
  (if decide (position s = GKP) then eligible_gkp b
   else eligible_outfield s (countFormation (derefs h cur)) b) = true.
Proof.
  intros I Hin. unfold could_replace. case_decide.
  - intros [Hp Hm]. unfold eligible_gkp. rewrite bool_decide_true, Hin by done. cbn.
    by apply Z.ltb_lt.
  - intros (Hp & Hm & Hf). unfold eligible_outfield.
    rewrite bool_decide_false, Hin, (proj2 (Z.eqb_neq _ _)) by done. cbn [orb negb andb].
    apply forallb_forall. intros p _. apply Z.leb_le. unfold next_count.
    rewrite at_countFormation, (inv_counts _ _ _ _ I). apply Hf.
Qed.

(** Nobody before the chosen substitute could have come on. *)
Lemma pick_ignores k h cur s j' b' :
  subst_inv k (h, cur) → (k < length Ss)%nat → Bs !! j' = Some b' → subbedIn b' = false →
  (∀ j, pick_substitute h cur s = Some j → (j' < j)%nat) →
  Bench j' ∈ take k cur ∨ ¬ could_replace s b' cur.
Proof.
  intros I Hk Hb Hin Hj. destruct (decide (Bench j' ∈ cur)) as [Hc|Hc]; [left|right].
  - apply list_elem_of_lookup in Hc as [i Hi]. destruct (decide (i < k)%nat) as [Hik|Hik].
    + apply list_elem_of_lookup. exists i. by rewrite lookup_take_lt.
    + assert (i < length Ss)%nat by (rewrite <- (si_length _ _ I); by eapply lookup_lt_Some).
      pose proof (si_todo _ _ I i ltac:(lia)) as H'. cbn in H'. by simplify_eq.
  - intros Hr%(could_replace_eligible _ _ _ _ _ I); [|done].
    assert (benchDetails h !! j' = Some b') as Hb'.
    { pose proof (si_bench _ _ I) as E. cbn in E. rewrite E, list_lookup_imap, Hb. cbn.
      by rewrite decide_False. }
    unfold pick_substitute in Hj. case_decide;
      (pose proof (find_index_first _ _ _ _ Hj Hb') as Hf; by rewrite Hr in Hf).
Qed.

(** The bench player found in the mutated bench is an unused, original one. *)
Lemma inv_unused k h cur j b :
  subst_inv k (h, cur) → benchDetails h !! j = Some b → subbedIn b = false →
  Bs !! j = Some b ∧ Bench j ∉ cur.
Proof.
  intros I Hb Hin. pose proof (si_bench _ _ I) as E. cbn in E. rewrite E in Hb.
  rewrite list_lookup_imap in Hb. destruct (Bs !! j) as [b'|]; [|done]. cbn in Hb.
  injection Hb as Hb. case_decide; [by subst b|]. by subst.
Qed.

Lemma inv_starter k h cur :
  subst_inv k (h, cur) → (k < length Ss)%nat →
  ∃ s, Ss !! k = Some s ∧ cur !! k = Some (Starter k) ∧ deref h (Starter k) = Some s.
Proof.
  intros I Hk. destruct (lookup_lt_is_Some_2 Ss k Hk) as [s Hs]. exists s.
  assert (cur !! k = Some (Starter k)) as Hc by (apply (si_todo _ _ I); lia).
  split_and!; [done|done|]. cbn. pose proof (si_starters _ _ I) as E. cbn in E. rewrite E.
  rewrite list_lookup_imap, Hs. cbn. by rewrite decide_True.
Qed.

Lemma NoDup_insert_fresh {A} (l : list A) i x : NoDup l → x ∉ l → NoDup (<[i:=x]> l).
Proof.
  intros Hl Hx. apply NoDup_alt. intros a b y Ha Hb.
  destruct (decide (a = i)) as [->|Hai], (decide (b = i)) as [->|Hbi]; [done|..].
  - apply list_lookup_insert_Some in Ha as [(_ & <- & _)|[? _]]; [|done].
    rewrite list_lookup_insert_ne in Hb by done. by apply list_elem_of_lookup_2 in Hb.
  - apply list_lookup_insert_Some in Hb as [(_ & <- & _)|[? _]]; [|done].
    rewrite list_lookup_insert_ne in Ha by done. by apply list_elem_of_lookup_2 in Ha.
  - rewrite list_lookup_insert_ne in Ha, Hb by done. by eapply NoDup_lookup.
Qed.

Lemma inv_swap k h cur s b j :
  subst_inv k (h, cur) → (k < length Ss)%nat → Ss !! k = Some s → cur !! k = Some (Starter k) →
  minutesPlayed s ≤ 0 → Bs !! j = Some b → Bench j ∉ cur → minutesPlayed b ≠ 0 →
  (position s = GKP ↔ position b = GKP) →
  (position s = GKP ∨ ∀ p, at_position MIN_STARTERS p ≤
     count_position ref_pos p cur - if_position s p + if_position b p) →
  priority_ok k (<[k:=Bench j]> cur) →
  subst_inv (S k) (update set_subbedIn (Bench j) (update set_subbedOut (Starter k) h),
                   <[k:=Bench j]> cur).
Proof.
  intros I Hk Hs Hc Hm Hb Hnew Hmb Hg Hf Hpr.
  assert (ref_pos (Starter k) = position s) as Hps by (unfold ref_pos; cbn; by rewrite Hs).
  assert (ref_pos (Bench j) = position b) as Hpb by (unfold ref_pos; cbn; by rewrite Hb).
  assert (∀ p, count_position ref_pos p (<[k:=Bench j]> cur)
    = count_position ref_pos p cur - if_position s p + if_position b p) as Hcount.
  { intros p. rewrite (count_position_insert _ _ _ _ _ _ Hc), Hps, Hpb. done. }
  assert (k < length cur)%nat as Hkc by (by eapply lookup_lt_Some).
  constructor; cbn [fst snd update starterDetails benchDetails].
  - pose proof (si_starters _ _ I) as E. cbn in E. rewrite E. apply imap_alter.
    intros i s' Hs'. destruct (decide (i = k)) as [->|Hi].
    + rewrite list_lookup_insert_eq by done. rewrite decide_False by done. by rewrite decide_True.
    + by rewrite list_lookup_insert_ne by done.
  - pose proof (si_bench _ _ I) as E. cbn in E. rewrite E. apply imap_alter.
    intros i b' Hb'. destruct (decide (i = j)) as [->|Hi].
    + rewrite decide_True by (by apply list_elem_of_insert). by rewrite decide_False.
    + destruct (decide (Bench i ∈ cur)) as [Hin|Hin].
      * rewrite decide_True; [done|]. apply list_elem_of_lookup in Hin as [x Hx].
        apply list_elem_of_lookup. exists x. rewrite list_lookup_insert_ne; [done|].
        intros <-. by simplify_eq.
      * rewrite decide_False; [done|].
        intros [x [(-> & [=] & _)|[_ Hx]]%list_lookup_insert_Some]%list_elem_of_lookup; [done|].
        apply Hin. by eapply list_elem_of_lookup_2.
  - rewrite length_insert. apply (si_length _ _ I).
  - intros i r [(<- & <- & _)|[_ Hr]]%list_lookup_insert_Some; [|by apply (si_slots _ _ I)].
    right. by exists j, s, b.
  - apply NoDup_insert_fresh; [apply (si_nodup _ _ I)|done].
  - intros i Hi. rewrite list_lookup_insert_ne by lia. apply (si_todo _ _ I). lia.
  - rewrite Hcount. pose proof (si_gkp _ _ I) as E. cbn [snd] in E. unfold if_position.
    destruct (decide (position s = GKP)), (decide (position b = GKP)); tauto || lia.
  - intros H0%(si_formation _ _ I) p. rewrite Hcount.
    destruct Hf as [Hgk|Hf]; [|apply Hf]. specialize (H0 p). cbn in H0.
    unfold if_position. rewrite Hgk, (proj1 Hg Hgk). lia.
  - intros i Hi. destruct (decide (i = k)) as [->|]; [done|].
    pose proof (si_priority _ _ I i ltac:(lia)) as Hp. cbn in Hp. unfold priority_ok, lineup_at in *.
    rewrite list_lookup_insert_ne, take_insert_ge by lia. exact Hp.
Qed.

Lemma inv_step k st : subst_inv k st → (k < length Ss)%nat → subst_inv (S k) (substitute_at st k).
Proof.
  destruct st as [h cur]. intros I Hk.
  destruct (inv_starter _ _ _ I Hk) as (s & Hs & Hc & Hd). unfold substitute_at.
  rewrite Hc, Hd. destruct (0 <? minutesPlayed s) eqn:Em; bool_to_prop.
  { apply inv_weaken; [done|]. intros s' j' b' Hs'. simplify_eq. lia. }
  destruct (pick_substitute h cur s) as [j|] eqn:Ej.
  - destruct (pick_substitute_ok _ _ _ _ _ I Ej) as (b & Hb & Hin & Hmb & Hg & Hf).
    destruct (inv_unused _ _ _ _ _ I Hb Hin) as [HB Hnew]. eapply inv_swap; eauto.
    intros s' j' b' Hs' _ Hb' Hin' Hlt. simplify_eq. unfold lineup_at.
    rewrite take_insert_ge by lia. fold (lineup_at k cur).
    rewrite (inv_lineup_at _ _ _ I) by lia. eapply pick_ignores; eauto.
    intros j0 Hj0. simplify_eq. apply Hlt. rewrite list_lookup_insert_eq; [done|].
    by eapply lookup_lt_Some.
  - apply inv_weaken; [done|]. intros s' j' b' Hs' _ Hb' Hin' _. cbn [snd]. simplify_eq.
    rewrite (inv_lineup_at _ _ _ I) by lia. eapply pick_ignores; eauto. by rewrite Ej.
Qed.

Lemma resolve_inv :
  subst_inv (length Ss) (resolveAutoSubstitutions {| starterDetails := Ss; benchDetails := Bs |}).
Proof.
  unfold resolveAutoSubstitutions, initial_refs. cbn [starterDetails]. fold init_cur.
  assert (∀ n k st, (k + n ≤ length Ss)%nat → subst_inv k st →
    subst_inv (k + n) (foldl substitute_at st (seq k n))) as H.
  { intros n. induction n as [|n IH]; intros k st Hle I; cbn; [by rewrite Nat.add_0_r|].
    replace (k + S n)%nat with (S k + n)%nat by lia. apply IH; [lia|]. apply inv_step; [done|lia]. }
  apply (H (length Ss) O); [done|apply inv_init].
Qed.

End substitutions.

Lemma init_counts Ss Bs p :
  count_position (ref_pos Ss Bs) p (init_cur Ss) = count_position position p Ss.
Proof.
  rewrite <- (count_position_fmap (ref_pos Ss Bs) id (ref_pos Ss Bs) p (init_cur Ss)) by done.
  rewrite <- (count_position_fmap position id position p Ss) by done. f_equal.
  apply list_eq. intros i. rewrite !list_lookup_fmap. apply option_eq. intros q.
  rewrite !fmap_Some. setoid_rewrite lookup_init_cur. split.
  - intros (r & (-> & Hlt) & ->). destruct (lookup_lt_is_Some_2 Ss i Hlt) as [s Hs].
    exists s. split; [done|]. unfold ref_pos. cbn. by rewrite Hs.
  - intros (s & Hs & ->). exists (Starter i). split; [split; [done|by eapply lookup_lt_Some]|].
    unfold ref_pos. cbn. by rewrite Hs.
Qed.

(** ** The contract of the auto-substitution engine *)

Definition valid_formation (players : list PlayerScoreDetail) : Prop :=
  ∀ p, at_position MIN_STARTERS p ≤ count_position position p players.

(** [h] before and [h'] after the call, which returned [cur]. *)
Record auto_sub_spec (h h' : store) (cur : list ref) : Prop := {
  as_length : length cur = length (starterDetails h);
  as_nodup : NoDup cur;
  as_slots : ∀ i r, cur !! i = Some r → slot_ok (starterDetails h) (benchDetails h) i r;
  as_priority : ∀ i, (i < length (starterDetails h))%nat →
    priority_ok (starterDetails h) (benchDetails h) i cur;
  as_goalkeepers : count_position position GKP (derefs h' cur)
    = count_position position GKP (starterDetails h);
  as_formation : valid_formation (starterDetails h) → valid_formation (derefs h' cur);
  as_subbedOut : starterDetails h' = imap (λ i s,
    if decide (cur !! i = Some (Starter i)) then s else set_subbedOut s) (starterDetails h);
  as_subbedIn : benchDetails h' = imap (λ j b,
    if decide (Bench j ∈ cur) then set_subbedIn b else b) (benchDetails h)
}.

Lemma resolve_spec h :
  auto_sub_spec h (resolveAutoSubstitutions h).1 (resolveAutoSubstitutions h).2.
Proof.
  destruct h as [Ss Bs]. pose proof (resolve_inv Ss Bs) as I.
  destruct (resolveAutoSubstitutions _) as [h' cur] eqn:E. cbn [fst snd starterDetails benchDetails].
  constructor; cbn [starterDetails benchDetails]; try apply I.
  - rewrite (inv_counts _ _ _ _ _ _ I), <- init_counts with (Bs := Bs). apply I.
  - intros Hv p. rewrite (inv_counts _ _ _ _ _ _ I). apply (si_formation _ _ _ _ I).
    intros q. rewrite init_counts. apply Hv.
Qed.

(** ** Lemmas: who counts in the final lineup *)

Definition counted (d : PlayerScoreDetail) : bool :=
  (isStarter d && negb (subbedOut d)) || subbedIn d.

(** The flags on the details agree with the lineup. *)
Record lineup_rel (h : store) (cur : list ref) : Prop := {
  lr_valid : ∀ r, r ∈ cur → is_Some (deref h r);
  lr_nodup : NoDup cur;
  lr_counted : ∀ r d, deref h r = Some d → counted d = true ↔ r ∈ cur;
  lr_starters : ∀ d, d ∈ starterDetails h → isStarter d = true;
  lr_bench : ∀ d, d ∈ benchDetails h → isStarter d = false;
  lr_not_in : ∀ d, d ∈ starterDetails h → subbedIn d = false
}.

Definition all_refs (h : store) : list ref :=
  (Starter <$> seq 0 (length (starterDetails h))) ++ (Bench <$> seq 0 (length (benchDetails h))).

Lemma derefs_all h : derefs h (all_refs h) = starterDetails h ++ benchDetails h.
Proof.
  unfold derefs, all_refs. rewrite omap_app. f_equal; by apply omap_fmap_seq.
Qed.

(** The lineup is the set of counted details. *)
Lemma lineup_counted h cur :
  lineup_rel h cur →
  derefs h cur ≡ₚ List.filter counted (starterDetails h ++ benchDetails h).
Proof.
  intros R. rewrite <- derefs_all.
  set (q r := bool_decide (r ∈ cur)).
  assert (cur ≡ₚ List.filter q (all_refs h)) as ->%(omap_perm (deref h)).
  { apply NoDup_Permutation; [apply R| |].
    - apply NoDup_lfilter.
      unfold all_refs. apply list.NoDup_app. split_and!.
      + apply NoDup_fmap_2; [by intros ?? [=]|apply NoDup_seq].
      + intros r (i & -> & _)%list_elem_of_fmap (j & [=] & _)%list_elem_of_fmap.
      + apply NoDup_fmap_2; [by intros ?? [=]|apply NoDup_seq].
    - intros r. rewrite elem_of_lfilter. unfold q.
      rewrite bool_decide_eq_true. split; [|tauto]. intros Hr. split; [|done].
      destruct (lr_valid _ _ R _ Hr) as [d Hd]. unfold all_refs. apply elem_of_app.
      destruct r as [i|j]; [left|right]; apply list_elem_of_fmap; eexists; (split; [done|]);
        apply elem_of_seq; apply lookup_lt_Some in Hd; lia. }
  apply reflexive_eq, omap_filter. intros r d _ Hd. unfold q.
  apply eq_bool_prop_intro. rewrite !Is_true_true, bool_decide_eq_true.
  by apply (lr_counted _ _ R).
Qed.

(** A store whose details carry no substitution flag yet. *)
Record fresh_store (h : store) : Prop := {
  fs_starters : ∀ d, d ∈ starterDetails h → isStarter d = true ∧ subbedIn d = false ∧ subbedOut d = false;
  fs_bench : ∀ d, d ∈ benchDetails h → isStarter d = false ∧ subbedIn d = false
}.

Lemma initial_store_fresh players statsMap : fresh_store (initial_store players statsMap).
Proof.
  constructor; intros d; cbn; rewrite elem_of_sort_by, elem_of_lfilter, list_elem_of_fmap;
    intros [(p & -> & _) Hs]; cbn in *; [done|]. by destruct (lp_isStarter p).
Qed.

Lemma initial_lineup_rel h : fresh_store h → lineup_rel h (initial_refs h).
Proof.
  intros [Hs Hb]. constructor.
  - intros r [i Hi]%list_elem_of_lookup. apply (lookup_init_cur (starterDetails h)) in Hi as [-> Hi].
    by apply lookup_lt_is_Some_2.
  - apply NoDup_fmap_2; [by intros ?? [=]|apply NoDup_seq].
  - intros [i|j] d Hd; cbn in Hd.
    + destruct (Hs d) as (H1 & H2 & H3); [by eapply list_elem_of_lookup_2|].
      unfold counted. rewrite H1, H2, H3. cbn. split; [|done]. intros _.
      apply list_elem_of_lookup. exists i. apply (lookup_init_cur (starterDetails h)).
      split; [done|by eapply lookup_lt_Some].
    + destruct (Hb d) as (H1 & H2); [by eapply list_elem_of_lookup_2|].
      unfold counted. rewrite H1, H2. cbn. split; [done|].
      intros (i & ? & _)%list_elem_of_fmap. done.
  - intros d Hd. by apply Hs.
  - intros d Hd. by apply Hb.
  - intros d Hd. by apply Hs.
Qed.

Lemma elem_of_imap_flag {A} (f : nat → A → A) (P : A → Prop) l d :
  (∀ i a, P a → P (f i a)) → (∀ a, a ∈ l → P a) → d ∈ imap f l → P d.
Proof.
  intros Hf Hl [i Hi]%list_elem_of_lookup. rewrite list_lookup_imap in Hi.
  apply fmap_Some in Hi as (a & Ha & ->). apply Hf, Hl. by eapply list_elem_of_lookup_2.
Qed.

Lemma substituted_lineup_rel h h' cur :
  fresh_store h → auto_sub_spec h h' cur → lineup_rel h' cur.
Proof.
  intros [Hs Hb] A. constructor.
  - intros r [i Hi]%list_elem_of_lookup.
    pose proof (lookup_lt_Some _ _ _ Hi) as Hlt. rewrite (as_length _ _ _ A) in Hlt.
    destruct (as_slots _ _ _ A _ _ Hi) as [->|(j & s & b & -> & _ & Hbj & _)]; cbn.
    + rewrite (as_subbedOut _ _ _ A). apply lookup_lt_is_Some. by rewrite length_imap.
    + rewrite (as_subbedIn _ _ _ A), list_lookup_imap, Hbj. by eexists.
  - apply A.
  - intros [i|j] d Hd; cbn in Hd.
    + rewrite (as_subbedOut _ _ _ A), list_lookup_imap in Hd.
      apply fmap_Some in Hd as (s & Hsi & ->).
      destruct (Hs s) as (H1 & H2 & H3); [by eapply list_elem_of_lookup_2|].
      case_decide as Hc; unfold counted; cbn; rewrite H1, H2, ?H3; cbn; split; try done.
      * intros _. by eapply list_elem_of_lookup_2.
      * intros [k Hk]%list_elem_of_lookup. exfalso. apply Hc.
        destruct (as_slots _ _ _ A _ _ Hk) as [[= ->]|(? & ? & ? & [=] & _)]. done.
    + rewrite (as_subbedIn _ _ _ A), list_lookup_imap in Hd.
      apply fmap_Some in Hd as (b & Hbj & ->).
      destruct (Hb b) as (H1 & H2); [by eapply list_elem_of_lookup_2|].
      case_decide as Hc; unfold counted; cbn; rewrite H1, ?H2; cbn; by split.
  - intros d. rewrite (as_subbedOut _ _ _ A). apply (elem_of_imap_flag _ (λ d, isStarter d = true)); [|intros a Ha; by apply Hs].
    intros i a Ha. by case_decide.
  - intros d. rewrite (as_subbedIn _ _ _ A). apply (elem_of_imap_flag _ (λ d, isStarter d = false)); [|intros a Ha; by apply Hb].
    intros i a Ha. by case_decide.
  - intros d. rewrite (as_subbedOut _ _ _ A). apply (elem_of_imap_flag _ (λ d, subbedIn d = false));
      [|intros a Ha; by apply Hs]. intros i a Ha. by case_decide.
Qed.

Lemma lookup_alter_inv {A} (f : A → A) i (l : list A) k d :
  alter f i l !! k = Some d → ∃ d0, l !! k = Some d0 ∧ d = if decide (i = k) then f d0 else d0.
Proof.
  rewrite list_lookup_alter. destruct (decide (i = k)) as [->|].
  - intros (d0 & ? & ->)%fmap_Some. by exists d0.
  - intros ?. by exists d.
Qed.

Lemma captain_lineup_rel chip h cur : lineup_rel h cur → lineup_rel (apply_captain chip h) cur.
Proof.
  intros [H1 H2 H3 H4 H5 H6]. unfold apply_captain. destruct (active_captain _) as [c|]; [|done].
  constructor; cbn [update starterDetails benchDetails]; try done.
  - intros [i|j] Hr; cbn; [|by apply (H1 (Bench j))].
    apply lookup_lt_is_Some. rewrite length_alter. apply lookup_lt_is_Some. by apply (H1 (Starter i)).
  - intros [i|j] d Hd; cbn in Hd; [|by apply H3].
    apply lookup_alter_inv in Hd as (d0 & Hd & ->). rewrite <- (H3 (Starter i) d0) by done.
    by case_decide.
  - intros d [k Hk]%list_elem_of_lookup. apply lookup_alter_inv in Hk as (d0 & Hd & ->).
    apply list_elem_of_lookup_2, H4 in Hd. by case_decide.
  - intros d [k Hk]%list_elem_of_lookup. apply lookup_alter_inv in Hk as (d0 & Hd & ->).
    apply list_elem_of_lookup_2, H6 in Hd. by case_decide.
Qed.

(** What [final_lineup] computes, before captaincy. *)
Lemma final_lineup_rel players statsMap chip :
  lineup_rel (final_lineup players statsMap chip).1 (final_lineup players statsMap chip).2.
Proof.
  unfold final_lineup. set (h := initial_store players statsMap).
  pose proof (initial_store_fresh players statsMap) as Hf. fold h in Hf. case_decide.
  - cbn. by apply captain_lineup_rel, initial_lineup_rel.
  - pose proof (resolve_spec h) as A. destruct (resolveAutoSubstitutions h) as [h' cur].
    cbn in *. apply captain_lineup_rel. by eapply substituted_lineup_rel.
Qed.

(** ** Lemmas: the score *)

Definition player_of (d : PlayerScoreDetail) : LineupPlayer :=
  {| lp_playerId := playerId d; lp_position := position d; lp_isStarter := isStarter d;
     lp_isCaptain := isCaptain d; lp_isViceCaptain := isViceCaptain d;
     lp_positionOrder := positionOrder d |}.

(** What the calculation may not change in a detail. *)
Definition core (d : PlayerScoreDetail) : LineupPlayer * Z * Z :=
  (player_of d, minutesPlayed d, rawPoints d).

Definition player_core (statsMap : StatsMap) (p : LineupPlayer) : LineupPlayer * Z * Z :=
  (p, minutes (stats_of statsMap (lp_playerId p)), totalPoints (stats_of statsMap (lp_playerId p))).

Lemma core_detail_of statsMap p : core (detail_of statsMap p) = player_core statsMap p.
Proof. by destruct p. Qed.

Lemma core_imap (f : nat → PlayerScoreDetail → PlayerScoreDetail) l :
  (∀ i d, core (f i d) = core d) → core <$> imap f l = core <$> l.
Proof.
  intros H. apply list_eq. intros i. rewrite !list_lookup_fmap, list_lookup_imap.
  destruct (l !! i); cbn; [by rewrite H|done].
Qed.

Lemma core_alter (f : PlayerScoreDetail → PlayerScoreDetail) (i : nat) (l : list PlayerScoreDetail) :
  (∀ d, core (f d) = core d) → core <$> alter f i l = core <$> l.
Proof.
  intros H. apply list_eq. intros k. rewrite !list_lookup_fmap, list_lookup_alter.
  destruct (decide (i = k)) as [->|]; [|done]. destruct (l !! k); cbn; [by rewrite H|done].
Qed.

(** The multiplier of [d] is the default one. *)
Definition plain (d : PlayerScoreDetail) : Prop :=
  multiplier d = 1 ∧ effectivePoints d = rawPoints d.

Record substituted (h0 h : store) : Prop := {
  sb_starters : core <$> starterDetails h = core <$> starterDetails h0;
  sb_bench : core <$> benchDetails h = core <$> benchDetails h0;
  sb_plain : (∀ d, d ∈ starterDetails h0 ++ benchDetails h0 → plain d) →
    ∀ d, d ∈ starterDetails h ++ benchDetails h → plain d
}.

Lemma auto_sub_substituted h h' cur : auto_sub_spec h h' cur → substituted h h'.
Proof.
  intros A. constructor.
  - rewrite (as_subbedOut _ _ _ A). apply core_imap. intros i d. by case_decide.
  - rewrite (as_subbedIn _ _ _ A). apply core_imap. intros i d. by case_decide.
  - intros H d. rewrite (as_subbedOut _ _ _ A), (as_subbedIn _ _ _ A), elem_of_app.
    intros [Hd|Hd]; revert Hd; apply (elem_of_imap_flag _ plain).
    1,3: intros i a Ha; by case_decide.
    1,2: intros a Ha; apply H, elem_of_app; auto.
Qed.

Lemma initial_plain players statsMap d :
  d ∈ starterDetails (initial_store players statsMap) ++ benchDetails (initial_store players statsMap) →
  plain d.
Proof.
  rewrite elem_of_app. cbn. rewrite !elem_of_sort_by, !elem_of_lfilter, list_elem_of_fmap.
  by intros [[(p & -> & _) _]|[(p & -> & _) _]].
Qed.

(** The lineup before captaincy, whatever the chip. *)
Definition substituted_lineup (players : list LineupPlayer) (statsMap : StatsMap)
    (chip : option ChipType) : store * list ref :=
  let h := initial_store players statsMap in
  if decide (chip = Some BENCH_BOOST) then (h, initial_refs h) else resolveAutoSubstitutions h.

Lemma final_lineup_eq players statsMap chip :
  final_lineup players statsMap chip
  = (apply_captain chip (substituted_lineup players statsMap chip).1,
     (substituted_lineup players statsMap chip).2).
Proof.
  unfold final_lineup, substituted_lineup. case_decide; [done|].
  by destruct (resolveAutoSubstitutions _).
Qed.

Lemma substituted_lineup_ok players statsMap chip :
  substituted (initial_store players statsMap) (substituted_lineup players statsMap chip).1.
Proof.
  unfold substituted_lineup. case_decide; [by constructor|].
  eapply auto_sub_substituted, resolve_spec.
Qed.

Lemma effective_points players statsMap chip d :
  let h := (final_lineup players statsMap chip).1 in
  d ∈ starterDetails h ++ benchDetails h →
  effectivePoints d = rawPoints d * multiplier d ∧ 1 ≤ multiplier d.
Proof.
  cbn. rewrite final_lineup_eq. cbn [fst].
  pose proof (sb_plain _ _ (substituted_lineup_ok players statsMap chip)
    (initial_plain players statsMap)) as Hp.
  assert (∀ d, d ∈ starterDetails (substituted_lineup players statsMap chip).1 ++
    benchDetails (substituted_lineup players statsMap chip).1 →
    effectivePoints d = rawPoints d * multiplier d ∧ 1 ≤ multiplier d) as Hp'.
  { intros d0 [E1 E2]%Hp. rewrite E1, E2. lia. }
  unfold apply_captain. destruct (active_captain _) as [c|]; [|by apply Hp']. cbn.
  rewrite elem_of_app. intros [[k Hk]%list_elem_of_lookup|Hd]; [|apply Hp', elem_of_app; auto].
  apply lookup_alter_inv in Hk as (d0 & Hd & ->). case_decide.
  - cbn. split; [done|]. unfold captain_multiplier. case_decide; lia.
  - apply Hp', elem_of_app. left. by eapply list_elem_of_lookup_2.
Qed.

Definition boosted (d : PlayerScoreDetail) : bool := 1 <? multiplier d.

Lemma one_boosted players statsMap chip :
  let h := (final_lineup players statsMap chip).1 in
  countb boosted (starterDetails h ++ benchDetails h) ≤ 1.
Proof.
  cbn. rewrite final_lineup_eq. cbn [fst].
  pose proof (sb_plain _ _ (substituted_lineup_ok players statsMap chip)
    (initial_plain players statsMap)) as Hp.
  set (h := (substituted_lineup players statsMap chip).1) in *.
  assert (countb boosted (starterDetails h ++ benchDetails h) = 0) as H0.
  { apply countb_zero. intros d [Hd _]%Hp. unfold boosted. by rewrite Hd. }
  rewrite countb_app in H0. unfold apply_captain. destruct (active_captain _) as [c|];
    rewrite countb_app; cbn [update starterDetails benchDetails]; [|lia].
  pose proof (countb_alter boosted (set_multiplier (captain_multiplier chip)) c (starterDetails h)).
  lia.
Qed.

(** The accumulation loop: everything is counted once, and the captaincy bonus
    is found whatever its place in the list. *)
Lemma sum_points_spec l :
  (∀ d, d ∈ l → effectivePoints d = rawPoints d * multiplier d ∧ 1 ≤ multiplier d) →
  countb boosted l ≤ 1 →
  sum_points l = (sum_of effectivePoints l, sum_of (λ d, rawPoints d * (multiplier d - 1)) l).
Proof.
  unfold sum_points. intros He Hc.
  assert (∀ l sp cb, (∀ d, d ∈ l → effectivePoints d = rawPoints d * multiplier d ∧ 1 ≤ multiplier d) →
    countb boosted l ≤ 1 →
    foldl (λ '(sp, cb) p, (sp + effectivePoints p,
       if 1 <? multiplier p then rawPoints p * (multiplier p - 1) else cb)) (sp, cb) l
    = (sp + sum_of effectivePoints l,
       if countb boosted l =? 0 then cb else sum_of (λ d, rawPoints d * (multiplier d - 1)) l)
    ∧ (countb boosted l = 0 → sum_of (λ d, rawPoints d * (multiplier d - 1)) l = 0)) as H.
  { clear. intros l. induction l as [|d l IH]; intros sp cb He Hc.
    - cbn. unfold sum_of. cbn. split; [f_equal; lia|done].
    - cbn [foldl]. rewrite countb_cons in *. rewrite !sum_of_cons.
      destruct (He d) as [_ Hm]; [by left|].
      pose proof (countb_nonneg boosted l).
      edestruct (IH (sp + effectivePoints d)) as [-> Hz];
        [intros; apply He; by right|destruct (boosted d); lia|].
      change (1 <? multiplier d) with (boosted d). destruct (boosted d) eqn:Eb.
      + assert (countb boosted l = 0) as E0 by lia. rewrite E0, Hz by done.
        change (0 =? 0) with true. change (1 + 0 =? 0) with false. cbv iota.
        split; [f_equal|]; lia.
      + unfold boosted in Eb. bool_to_prop. assert (multiplier d = 1) as -> by lia.
        replace (0 + countb boosted l) with (countb boosted l) by lia.
        split; [f_equal; [lia|destruct (_ =? _); lia]|lia]. }
  destruct (H l 0 0 He Hc) as [-> Hz]. f_equal. destruct (_ =? 0) eqn:E; bool_to_prop; [|done].
  symmetry. by apply Hz.
Qed.

Lemma bench_points_sum bench :
  bench_points bench = sum_of rawPoints (List.filter (λ b, negb (subbedIn b)) bench).
Proof.
  unfold bench_points.
  assert (∀ l acc, foldl (λ acc b, if subbedIn b then acc else acc + rawPoints b) acc l
    = acc + sum_of rawPoints (List.filter (λ b, negb (subbedIn b)) l)) as H.
  { intros l. induction l as [|b l IH]; intros acc; cbn; [unfold sum_of; cbn; lia|].
    rewrite IH. destruct (subbedIn b); cbn; rewrite ?sum_of_cons; lia. }
  by rewrite H.
Qed.

(** The players left on the bench, and those taken off. *)
Definition unused (d : PlayerScoreDetail) : bool := negb (isStarter d) && negb (subbedIn d).
Definition taken_off (d : PlayerScoreDetail) : bool := isStarter d && subbedOut d.

Section lineup.
Context (players : list LineupPlayer) (statsMap : StatsMap) (chip : option ChipType).

Let st := final_lineup players statsMap chip.
Let all := starterDetails st.1 ++ benchDetails st.1.

Lemma lineup_is_counted : derefs st.1 st.2 ≡ₚ List.filter counted all.
Proof. apply lineup_counted, final_lineup_rel. Qed.

Lemma sum_points_lineup :
  sum_points (derefs st.1 st.2)
  = (sum_of effectivePoints (List.filter counted all),
     sum_of (λ d, rawPoints d * (multiplier d - 1)) (List.filter counted all)).
Proof.
  pose proof lineup_is_counted as Hp. rewrite sum_points_spec.
  - f_equal; by apply sum_of_perm.
  - intros d. rewrite Hp, elem_of_lfilter. intros [Hd _].
    by apply (effective_points players statsMap chip).
  - rewrite (countb_perm _ _ _ Hp). etrans; [apply countb_lfilter|].
    apply (one_boosted players statsMap chip).
Qed.

Lemma counted_effective :
  sum_of effectivePoints (List.filter counted all)
  = sum_of rawPoints (List.filter counted all)
    + sum_of (λ d, rawPoints d * (multiplier d - 1)) (List.filter counted all).
Proof.
  rewrite <- sum_of_add. apply sum_of_ext. intros d [Hd _]%elem_of_lfilter.
  destruct (effective_points players statsMap chip d Hd) as [-> _]. lia.
Qed.

Lemma unused_bench :
  List.filter unused all = List.filter (λ b, negb (subbedIn b)) (benchDetails st.1).
Proof.
  pose proof (final_lineup_rel players statsMap chip) as R. fold st in R.
  unfold all. rewrite List.filter_app.
  replace (List.filter unused (starterDetails st.1)) with (@nil PlayerScoreDetail).
  - cbn. apply lfilter_ext. intros d Hd. unfold unused. by rewrite (lr_bench _ _ R _ Hd).
  - symmetry. apply lfilter_nil. intros d Hd. unfold unused. by rewrite (lr_starters _ _ R _ Hd).
Qed.

Lemma final_core : core <$> all ≡ₚ player_core statsMap <$> players.
Proof.
  unfold all, st. rewrite final_lineup_eq. cbn [fst].
  pose proof (substituted_lineup_ok players statsMap chip) as [H1 H2 _].
  rewrite fmap_app. unfold apply_captain.
  assert (∀ c m, core <$> starterDetails (update (set_multiplier m) (Starter c)
    (substituted_lineup players statsMap chip).1)
    = core <$> starterDetails (substituted_lineup players statsMap chip).1) as Hc.
  { intros c m. cbn. by apply core_alter. }
  destruct (active_captain _) as [c|]; rewrite ?Hc; cbn [update benchDetails]; rewrite H1, H2;
    rewrite <- fmap_app; cbn [initial_store starterDetails benchDetails];
    rewrite !sort_by_perm, lfilter_split, <- list_fmap_compose;
    apply reflexive_eq, list_fmap_ext; intros i p _; apply core_detail_of.
Qed.

Lemma lineup_size : length (List.filter counted all) = length (List.filter lp_isStarter players).
Proof.
  rewrite <- lineup_is_counted.
  pose proof (final_lineup_rel players statsMap chip) as R. fold st in R.
  transitivity (length st.2).
  { unfold derefs. pose proof (lr_valid _ _ R) as Hv. revert Hv. generalize st.2.
    intros l. induction l as [|r l IH]; intros Hv; [done|].
    destruct (Hv r) as [d Hd]; [by left|]. cbn. rewrite Hd. cbn. f_equal. apply IH.
    intros r' ?. apply Hv. by right. }
  unfold st. rewrite final_lineup_eq. cbn [snd]. unfold substituted_lineup.
  transitivity (length (starterDetails (initial_store players statsMap))).
  { case_decide; cbn [snd]; [unfold initial_refs; by rewrite length_fmap, length_seq|].
    apply (as_length _ _ _ (resolve_spec _)). }
  cbn. rewrite length_sort_by, (lfilter_fmap _ _ lp_isStarter) by done. by rewrite length_fmap.
Qed.

Lemma bench_boost_none_off : chip = Some BENCH_BOOST → List.filter taken_off all = [].
Proof.
  intros Hc. pose proof (final_lineup_rel players statsMap chip) as R. fold st in R.
  apply lfilter_nil. intros d [Hd|Hd]%elem_of_app; unfold taken_off; [|by rewrite (lr_bench _ _ R _ Hd)].
  rewrite (lr_starters _ _ R _ Hd). cbn. pose proof (lr_not_in _ _ R _ Hd) as Hn.
  apply list_elem_of_lookup in Hd as [i Hi].
  assert (Starter i ∈ st.2) as Hin%(lr_counted _ _ R (Starter i) d Hi).
  { unfold st. rewrite final_lineup_eq. cbn [snd]. unfold substituted_lineup.
    rewrite decide_True by done. cbn [snd]. apply list_elem_of_lookup. exists i.
    apply (lookup_init_cur (starterDetails _)). split; [done|].
    apply lookup_lt_Some in Hi. unfold st in Hi. rewrite final_lineup_eq in Hi. cbn [fst] in Hi.
    unfold substituted_lineup in Hi. rewrite decide_True in Hi by done. cbn [fst] in Hi.
    unfold apply_captain in Hi. destruct (active_captain _); [|done].
    cbn [update starterDetails] in Hi. by rewrite length_alter in Hi. }
  unfold counted in Hin. rewrite Hn in Hin. destruct (subbedOut d); [|done].
  by rewrite andb_false_r in Hin.
Qed.

End lineup.

(** ** Lemmas: captaincy *)

Section captaincy.
Context (players : list LineupPlayer) (statsMap : StatsMap) (chip : option ChipType).

Let h := (substituted_lineup players statsMap chip).1.

(** A starter singled out by a flag is found, with his statistics. *)
Lemma designated (flag : PlayerScoreDetail → bool) (lp_flag : LineupPlayer → bool) p :
  (∀ d, flag d = lp_flag (player_of d)) →
  List.filter lp_flag (List.filter lp_isStarter players) = [p] →
  ∃ i d, find_index flag (starterDetails h) = Some i ∧ starterDetails h !! i = Some d ∧
    minutesPlayed d = minutes (stats_of statsMap (lp_playerId p)) ∧
    ∀ j y, starterDetails h !! j = Some y → flag y = true → j = i.
Proof.
  intros Hflag Hp.
  assert (core <$> List.filter flag (starterDetails h) ≡ₚ [player_core statsMap p]) as Hc.
  { transitivity (List.filter (λ c, lp_flag c.1.1) (core <$> starterDetails h)).
    { apply reflexive_eq. symmetry. by apply lfilter_fmap. }
    unfold h. rewrite (sb_starters _ _ (substituted_lineup_ok players statsMap chip)).
    cbn [initial_store starterDetails]. etrans; [apply lfilter_perm, fmap_Permutation, sort_by_perm|].
    rewrite (lfilter_fmap _ _ lp_isStarter), <- list_fmap_compose by done.
    rewrite (lfilter_fmap _ _ lp_flag) by (by intros []).
    rewrite Hp. cbn. by rewrite core_detail_of. }
  symmetry in Hc. apply Permutation_singleton_l in Hc.
  destruct (List.filter flag (starterDetails h)) as [|d [|]] eqn:E; [done| |done].
  destruct (find_index_unique _ _ _ E) as (i & Hi & Hd & Hu). exists i, d. split_and!; try done.
  by injection Hc.
Qed.

End captaincy.

(** ** Lemmas: the scorer cache *)

Record cache_ok (cache : Cache) : Prop := {
  ck_nodup : NoDup cache.*1;
  ck_bound : Z.of_nat (length cache) ≤ MAX_COMPILED_SCORERS;
  ck_scorers : ∀ e, e ∈ cache → e.2 = scorer e.1
}.

Lemma cache_evict cache :
  cache_ok cache →
  let cache' := if MAX_COMPILED_SCORERS <=? Z.of_nat (length cache)
                then match map_keys cache with
                     | oldestKey :: _ => map_delete oldestKey cache
                     | [] => cache
                     end
                else cache in
  cache_ok cache' ∧ Z.of_nat (length cache') < MAX_COMPILED_SCORERS ∧ cache' `sublist_of` cache.
Proof.
  intros [H1 H2 H3]. cbn zeta. destruct (_ <=? _) eqn:E; bool_to_prop; [|by split_and!].
  destruct cache as [|[k s] cache]; [done|]. cbn [map_keys fmap list_fmap fst].
  pose proof (map_delete_sublist k ((k, s) :: cache)) as Hsub.
  assert (length (map_delete k ((k, s) :: cache)) = length cache) as Hl.
  { rewrite length_map_delete, decide_True by (cbn; by left). done. }
  cbn [length] in *. split_and!; [constructor|lia|done].
  - by apply map_delete_NoDup.
  - lia.
  - intros e He. apply H3. by eapply elem_of_sublist.
Qed.

Lemma cache_insert c cache :
  cache_ok cache → Z.of_nat (length cache) < MAX_COMPILED_SCORERS →
  cache_ok (map_set c (scorer c) cache).
Proof.
  intros [H1 H2 H3] Hl. constructor.
  - by apply map_set_NoDup.
  - rewrite length_map_set. case_decide; lia.
  - intros e [->|He]%elem_of_map_set; [done|by apply H3].
Qed.

Lemma getCompiledScorer_ok config cache :
  cache_ok cache →
  match getCompiledScorer config cache with
  | Ok (s, cache') => ∃ c, parseLeagueScoringConfig config = Ok c ∧ s = scorer c ∧ cache_ok cache'
  | Err e => parseLeagueScoringConfig config = Err e
  end.
Proof.
  intros H. unfold getCompiledScorer. destruct (parseLeagueScoringConfig config) as [c|e]; [|done].
  cbn [rbind]. destruct (map_get c cache) as [s|] eqn:E.
  - unfold refreshCompiledScorer. exists c. split; [done|].
    assert (s = scorer c) as -> by apply (ck_scorers _ H _ (map_get_elem _ _ _ E)).
    split; [done|]. destruct H as [H1 H2 H3].
    pose proof (map_delete_sublist c cache) as Hsub.
    assert (c ∈ cache.*1) as Hc.
    { apply map_get_elem in E. apply list_elem_of_fmap. by exists (c, scorer c). }
    apply cache_insert; [constructor|].
    + by apply map_delete_NoDup.
    + apply sublist_length in Hsub. lia.
    + intros e He. apply H3. by eapply elem_of_sublist.
    + rewrite length_map_delete, decide_True by done. unfold MAX_COMPILED_SCORERS in *.
      destruct cache; [by apply elem_of_nil in Hc|cbn in *; lia].
  - destruct (cache_evict cache H) as (H1 & H2 & _). exists c. split_and!; [done|done|].
    by apply cache_insert.
Qed.

(** ** Properties *)

(** C37. Automatic substitutions: the call meets its contract. The lineup keeps
    its size and no bench player stands in two slots; each slot holds its own
    starter, or a bench player who played and came on for a starter who did not,
    goalkeepers only for goalkeepers; a valid formation stays valid and the
    number of goalkeepers is kept; the flags record exactly what happened; and
    bench priority is respected in every slot, so a starter who did not play
    stays only when nobody on the bench could legally come on at that point. *)
Theorem auto_substitution_refines (h : store) :
  auto_sub_spec h (resolveAutoSubstitutions h).1 (resolveAutoSubstitutions h).2.
Proof. apply resolve_spec. Qed.

(** Points are accounted for exactly. With the flags of the returned details
    naming who counts, starting points are the raw points of the eleven that
    count plus the captaincy bonus, bench points are those of the unused bench,
    the total adds the bench under Bench Boost only and subtracts the transfer
    cost, which Wildcard and Free Hit waive; the lineup has as many players as
    there are starters, the details are the given players with their statistics,
    and every raw point belongs to the lineup, the bench or a player taken off.
    Under Bench Boost nobody is taken off, so all players score. *)
Theorem lineup_score_decomposition (players : list LineupPlayer) (statsMap : StatsMap)
    (chip : option ChipType) (cost : option Z) :
  let r := score_lineup players statsMap chip cost in
  let lineup := List.filter counted (details r) in
  startingPoints r = sum_of rawPoints lineup + captainPoints r ∧
  captainPoints r = sum_of (λ d, rawPoints d * (multiplier d - 1)) lineup ∧
  benchPoints r = sum_of rawPoints (List.filter unused (details r)) ∧
  total r = startingPoints r + (if decide (chip = Some BENCH_BOOST) then benchPoints r else 0)
            - transferCost r ∧
  transferCost r = (if decide (chip = Some WILDCARD ∨ chip = Some FREE_HIT) then 0 else or0 cost) ∧
  length lineup = length (List.filter lp_isStarter players) ∧
  core <$> details r ≡ₚ player_core statsMap <$> players ∧
  sum_of (λ p, totalPoints (stats_of statsMap (lp_playerId p))) players
    = sum_of rawPoints lineup + benchPoints r
      + sum_of rawPoints (List.filter taken_off (details r)) ∧
  (chip = Some BENCH_BOOST → List.filter taken_off (details r) = []).
Proof.
  pose proof (sum_points_lineup players statsMap chip) as Hs.
  pose proof (counted_effective players statsMap chip) as He.
  pose proof (unused_bench players statsMap chip) as Hu.
  pose proof (final_core players statsMap chip) as Hc.
  pose proof (lineup_size players statsMap chip) as Hl.
  pose proof (bench_boost_none_off players statsMap chip) as Hb.
  pose proof (final_lineup_rel players statsMap chip) as R.
  cbn zeta. unfold score_lineup.
  destruct (final_lineup players statsMap chip) as [h cur]. cbn [fst snd] in *. rewrite Hs.
  cbn [startingPoints benchPoints captainPoints total transferCost details].
  pose proof (sort_by_perm by_order (starterDetails h ++ benchDetails h)) as Hp.
  set (D := sort_by by_order _) in *. set (all := starterDetails h ++ benchDetails h) in *.
  rewrite !(sum_of_perm _ _ _ (lfilter_perm counted _ _ Hp)).
  rewrite !(sum_of_perm _ _ _ (lfilter_perm unused _ _ Hp)).
  rewrite !(sum_of_perm _ _ _ (lfilter_perm taken_off _ _ Hp)).
  rewrite (lfilter_perm counted _ _ Hp), bench_points_sum, Hu.
  split_and!; try done.
  - f_equal. f_equal. by repeat case_bool_decide; repeat case_decide.
  - repeat case_bool_decide; repeat case_decide; cbn; tauto || done.
  - by rewrite Hp.
  - rewrite <- Hu, !sum_of_lfilter, <- !sum_of_add.
    transitivity (sum_of snd (player_core statsMap <$> players)); [by rewrite sum_of_fmap|].
    rewrite <- (sum_of_perm _ _ _ Hc), sum_of_fmap. apply sum_of_ext. intros d Hd.
    unfold counted, unused, taken_off. cbn [core snd].
    apply elem_of_app in Hd as [Hd|Hd].
    + rewrite (lr_starters _ _ R _ Hd), (lr_not_in _ _ R _ Hd). destruct (subbedOut d); cbn; lia.
    + rewrite (lr_bench _ _ R _ Hd). destruct (subbedIn d); cbn; lia.
  - intros E. apply Permutation_nil_r. rewrite (lfilter_perm taken_off _ _ Hp). by rewrite (Hb E).
Qed.

Definition p_sub (id : Z) (pos : Position) (starter capt vice : bool) (order : Z) : LineupPlayer :=
  {| lp_playerId := id; lp_position := pos; lp_isStarter := starter; lp_isCaptain := capt;
     lp_isViceCaptain := vice; lp_positionOrder := order |}.

(** Captaincy: with one captain and one vice-captain among the starters,
    the captain carries the multiplier (3 with Triple Captain, else 2) when he
    played, the vice-captain when he played and the captain did not, the captain
    again when neither played; nobody else is multiplied. *)
Theorem captaincy (players : list LineupPlayer) (statsMap : StatsMap) (chip : option ChipType)
    (cost : option Z) (cap vc : LineupPlayer) :
  List.filter lp_isCaptain (List.filter lp_isStarter players) = [cap] →
  List.filter lp_isViceCaptain (List.filter lp_isStarter players) = [vc] →
  let played p := 0 <? minutes (stats_of statsMap (lp_playerId p)) in
  let captain_leads := played cap || negb (played vc) in
  ∀ d, d ∈ details (score_lineup players statsMap chip cost) →
    multiplier d = (if isStarter d && (if captain_leads then isCaptain d else isViceCaptain d)
                    then if decide (chip = Some TRIPLE_CAPTAIN) then 3 else 2 else 1) ∧
    effectivePoints d = rawPoints d * multiplier d.
Proof.
  intros Hc Hv played leads d. unfold score_lineup.
  pose proof (effective_points players statsMap chip d) as He. cbn in He.
  pose proof (final_lineup_rel players statsMap chip) as R.
  destruct (designated players statsMap chip isCaptain lp_isCaptain cap) as (ci & cd & Hci & Hcd & Hcm & Hcu);
    [done|done|].
  destruct (designated players statsMap chip isViceCaptain lp_isViceCaptain vc)
    as (vi & vd & Hvi & Hvd & Hvm & Hvu); [done|done|].
  pose proof (sb_plain _ _ (substituted_lineup_ok players statsMap chip)
    (initial_plain players statsMap)) as Hp.
  rewrite final_lineup_eq in *. cbn [fst snd] in *.
  set (h := (substituted_lineup players statsMap chip).1) in *.
  destruct (sum_points _) as [sp cb]. cbn [details]. rewrite elem_of_sort_by. intros Hd.
  split; [|by apply He]. clear He.
  set (a := if leads then ci else vi).
  assert (active_captain (starterDetails h) = Some a) as Ha.
  { unfold active_captain. rewrite Hci, Hvi, Hcd, Hvd, Hcm, Hvm. unfold a, leads.
    fold (played cap). fold (played vc). by destruct (played cap), (played vc). }
  unfold apply_captain in Hd, R. rewrite Ha in Hd, R. cbn [update starterDetails benchDetails] in *.
  apply elem_of_app in Hd as [Hd|Hd].
  - rewrite (lr_starters _ _ R _ Hd). cbn [andb].
    apply list_elem_of_lookup in Hd as [i Hi]. apply lookup_alter_inv in Hi as (d0 & Hi & ->).
    assert ((if leads then isCaptain d0 else isViceCaptain d0) = bool_decide (a = i)) as Hflag.
    { unfold a. apply find_index_Some in Hci as (? & ? & ?), Hvi as (? & ? & ?).
      destruct leads; case_bool_decide as E; subst; simplify_eq; try done;
        apply not_true_is_false; intros ?; apply E; symmetry; [by eapply Hcu|by eapply Hvu]. }
    destruct (decide (a = i)) as [->|Hai].
    + rewrite bool_decide_true in Hflag by done. cbn [multiplier set_multiplier].
      destruct leads; cbn; rewrite Hflag; done.
    + rewrite bool_decide_false in Hflag by done. rewrite Hflag. apply Hp, elem_of_app. left.
      by eapply list_elem_of_lookup_2.
  - rewrite (lr_bench _ _ R _ Hd). cbn. apply Hp, elem_of_app. by right.
Qed.

Lemma captaincy_witness :
  multiplier <$> details (score_lineup
    [p_sub 1 GKP true true false 1; p_sub 2 DEF true false true 2; p_sub 3 GKP false false false 12]
    [(2, plain_stats 90 6); (3, plain_stats 90 2)] (Some TRIPLE_CAPTAIN) None) = [1; 3; 1] ∧
  ∀ d, d ∈ details (score_lineup [p_sub 1 GKP true true false 1; p_sub 2 DEF true false true 2]
    [(2, plain_stats 90 6)] None None) → isCaptain d = true → multiplier d = 1.
Proof.
  split; [reflexivity|]. intros d Hd Hc.
  destruct (captaincy [p_sub 1 GKP true true false 1; p_sub 2 DEF true false true 2]
    [(2, plain_stats 90 6)] None None (p_sub 1 GKP true true false 1)
    (p_sub 2 DEF true false true 2) eq_refl eq_refl d Hd) as [H _].
  vm_compute in Hd. apply list_elem_of_In in Hd. cbn in Hd.
  destruct Hd as [<-|[<-|[]]]; [reflexivity|discriminate].
Defined.

(** The cache of compiled scorers is invisible: from any cache the service
    can be in, the score is the one computed without a cache, that is the given
    players scored with the statistics recomputed by the validated rules; the
    cache never holds more than 256 scorers and stays correct. *)
Theorem scorer_cache_transparent (players : list LineupPlayer) (statsMap : StatsMap)
    (chip : option ChipType) (cost : option Z) (config : json) (cache : Cache) :
  cache_ok cache →
  let options := {| opt_chip := chip; opt_transferCost := cost; opt_scoringConfig := Some config |} in
  rmap fst (calculateLineupScore players statsMap options cache)
    = rmap (λ c, score_lineup players (calculated_stats (scorer c) players statsMap) chip cost)
        (parseLeagueScoringConfig config) ∧
  ∀ r cache', calculateLineupScore players statsMap options cache = Ok (r, cache') →
    cache_ok cache' ∧ Z.of_nat (length cache') ≤ 256.
Proof.
  intros H. cbn zeta. unfold calculateLineupScore. cbn [opt_scoringConfig opt_chip opt_transferCost].
  pose proof (getCompiledScorer_ok config cache H) as Hs.
  destruct (getCompiledScorer config cache) as [[s cache1]|e]; cbn [rbind rmap].
  - destruct Hs as (c & -> & -> & Hk). split; [done|]. intros r cache' [= _ <-].
    split; [done|apply Hk].
  - rewrite Hs. by split.
Qed.

Lemma scorer_cache_transparent_witness :
  cache_ok [(CLASSIC_FPL, scorer CLASSIC_FPL)] ∧
  is_ok (calculateLineupScore [p_sub 1 MID true true false 1] [(1, plain_stats 90 0)]
    {| opt_chip := None; opt_transferCost := None;
       opt_scoringConfig := Some (scoringConfigToJson ALL_ATTACK) |}
    [(CLASSIC_FPL, scorer CLASSIC_FPL)]) = true.
Proof.
  assert (cache_ok [(CLASSIC_FPL, scorer CLASSIC_FPL)]) as H.
  { constructor; [apply NoDup_singleton|unfold MAX_COMPILED_SCORERS; cbn; lia|].
    intros e He. apply list_elem_of_singleton in He as ->. reflexivity. }
  split; [exact H|].
  pose proof (proj1 (scorer_cache_transparent [p_sub 1 MID true true false 1] [(1, plain_stats 90 0)]
    None None (scoringConfigToJson ALL_ATTACK) _ H)) as E.
  destruct (calculateLineupScore _ _ _ _); [reflexivity|]. cbn in E. discriminate E.
Defined.

(** Persisting a squad score: it fails only for an unknown squad; otherwise
    the gameweek row holds the computed score, the squad total is the sum of all
    its gameweek rows (what [getSquadScoreAcrossGameweeks] reports), nothing of
    another squad or gameweek changes, and running it again changes nothing. *)
Theorem persist_squad_score (squadId : string) (gameweekId : Z) (db : ScoringDb) :
  match calculateAndPersistSquadScore squadId gameweekId db with
  | Err e => e = SquadNotFound squadId ∧ map_get squadId (squads db) = None
  | Ok (r, db') =>
      map_get (squadId, gameweekId) (squadGameweekScore db') = Some (gameweek_score r) ∧
      (∀ k, k ≠ (squadId, gameweekId) →
         map_get k (squadGameweekScore db') = map_get k (squadGameweekScore db)) ∧
      (∀ s, s ≠ squadId → map_get s (squads db') = map_get s (squads db)) ∧
      sq_totalPoints <$> map_get squadId (squads db')
        = Some (getSquadScoreAcrossGameweeks squadId None None db') ∧
      sq_players <$> map_get squadId (squads db') = sq_players <$> map_get squadId (squads db) ∧
      leagueGameweekScore db' = leagueGameweekScore db ∧
      calculateAndPersistSquadScore squadId gameweekId db' = Ok (r, db')
  end.
Proof.
  unfold calculateAndPersistSquadScore. destruct (map_get squadId (squads db)) as [squad|] eqn:Es;
    [|by cbn]. cbn [or_throw rbind].
  set (players := squad_players squad).
  set (sm := merge_stats _).
  set (cost := stored_cost db squadId gameweekId). set (chip := active_chip db squadId gameweekId).
  set (r := score_lineup players sm chip (Some cost)).
  cbn [squads playerGameweekStats squadChipUsage squadGameweekScore leagueGameweekScore].
  split_and!.
  - apply map_get_set_eq.
  - intros k Hk. by rewrite map_get_set_ne.
  - intros s Hs. by rewrite map_get_set_ne.
  - rewrite map_get_set_eq. cbn [fmap option_fmap option_map sq_totalPoints]. f_equal.
    unfold getSquadScoreAcrossGameweeks, scores_of, in_range. cbn [squadGameweekScore].
    f_equal. f_equal. apply lfilter_ext. intros x _. by rewrite andb_true_r.
  - by rewrite map_get_set_eq.
  - done.
  - rewrite map_get_set_eq. cbn [or_throw rbind sq_players].
    assert (∀ d1 d2 : ScoringDb, playerGameweekStats d1 = playerGameweekStats d2 →
      find_stats d1 gameweekId (lp_playerId <$> players)
      = find_stats d2 gameweekId (lp_playerId <$> players)) as Hf.
    { intros d1 d2 E. unfold find_stats. by rewrite E. }
    unfold squad_players. cbn [sq_players]. fold (squad_players squad). fold players.
    rewrite (Hf _ db) by done. fold sm.
    match goal with |- context [stored_cost ?d squadId gameweekId] =>
      assert (stored_cost d squadId gameweekId = transferCost r) as ->
        by (unfold stored_cost; cbn [squadGameweekScore]; by rewrite map_get_set_eq);
      change (active_chip d squadId gameweekId) with chip end.
    assert (score_lineup players sm chip (Some (transferCost r)) = r) as ->.
    { unfold r, score_lineup. destruct (final_lineup _ _ _) as [h cur]. destruct (sum_points _).
      cbn [transferCost or0 default]. by destruct (_ || _). }
    rewrite !map_set_set. done.
Qed.

(** ** Where the league score departs from the squad score *)

(** A double gameweek has two rows per player: the squad score adds them, the
    league score keeps the last one. *)
Example league_score_keeps_last_fixture :
  let row points := {| sr_playerId := 1; sr_gameweekId := 5; sr_stats := plain_stats 90 points |} in
  (totalPoints (stats_of (merge_stats [row 6; row 2]) 1),
   totalPoints (stats_of (last_stats [row 6; row 2]) 1)) = (8, 2).
Proof. reflexivity. Qed.

(** A cancelled Wildcard no longer waives the transfer cost in the squad score,
    but the league score still applies it. *)
Example league_score_ignores_cancellation :
  let db := {| squads := [("s", {| sq_players := []; sq_totalPoints := 0 |})];
               playerGameweekStats := [];
               squadChipUsage :=
                 [(("s", 5), {| cu_chipType := WILDCARD; cu_cancelledAt := Some 1 |})];
               squadGameweekScore :=
                 [(("s", 5), {| gs_points := 0; gs_benchPoints := 0; gs_captainPoints := 0;
                                gs_transferCost := 8 |})];
               leagueGameweekScore := [] |} in
  rmap (λ x, total x.1) (calculateAndPersistSquadScore "s" 5 db) = Ok (-8) ∧
  rmap (λ x, x.1.1) (calculateAndPersistLeagueScore "l" "s" 5
    (scoringConfigToJson CLASSIC_FPL) db []) = Ok 0.
Proof. split; vm_compute; reflexivity. Qed.
