(* ===== verification/SquadValidator.v ===== *)
(** * Squad validation and deadlines

    [backend/src/services/squad/squadValidator.ts] and the deadline test of
    [deadlineGuard.ts].  Prices and budgets are tenths of a million, the unit in
    which the code rounds them; an error is a constructor that stands for its
    message and carries the values the message shows. *)

From S2P Require Import Prelude Rules.

Record SquadPlayerSelection : Type := {
  sel_playerId : Z;
  sel_isStarter : bool;
  sel_isCaptain : bool;
  sel_isViceCaptain : bool;
  sel_positionOrder : Z
}.

Record PlayerForValidation : Type := {
  pv_id : Z;
  pv_teamId : Z;
  pv_position : Position;
  pv_price : Z
}.

Record ValidatedSquadResult : Type := {
  vs_totalCost : Z;
  vs_formation : Z * Z * Z;
  vs_starterIds : list Z;
  vs_benchIds : list Z;
  vs_captainId : Z;
  vs_viceCaptainId : Z
}.

Inductive SquadError : Type :=
| WrongPlayerCount (received : nat)
| DuplicatePlayers
| PlayerNotFound (id : Z)
| WrongStarterCount (found : nat)
| WrongBenchCount (found : nat)
| NotOneCaptain
| NotOneViceCaptain
| CaptainIsViceCaptain
| CaptainOnBench
| ViceCaptainOnBench
| WrongPositionCount (p : Position) (found : Z)
| BudgetExceeded (totalCost maxBudget : Z)
| TooManyFromTeam (teamId count : Z)
| NotOneStartingGoalkeeper (found : Z)
| TooFewStarting (p : Position) (found : Z)
| NameTooShort.

(** ** Squad names: a string is its list of code points *)

Definition between (lo hi c : Z) : bool := (lo <=? c) && (c <=? hi).

(** The class [\s] (also what [trim] removes). *)
Definition is_space (c : Z) : bool :=
  between 9 13 c || (c =? 32) || (c =? 160) || (c =? 5760) || between 8192 8202 c
  || between 8232 8233 c || (c =? 8239) || (c =? 8287) || (c =? 12288) || (c =? 65279).

(** The Unicode categories Cc and Cf. *)
Definition is_control (c : Z) : bool :=
  between 0 31 c || between 127 159 c || (c =? 173) || between 1536 1541 c || (c =? 1564)
  || (c =? 1757) || (c =? 1807) || between 2192 2193 c || (c =? 2274) || (c =? 6158)
  || between 8203 8207 c || between 8234 8238 c || between 8288 8292 c || between 8294 8303 c
  || (c =? 65279) || between 65529 65531 c || (c =? 69821) || (c =? 69837)
  || between 78896 78911 c || between 113824 113827 c || between 119155 119162 c
  || (c =? 917505) || between 917536 917631 c.

(** [.replace(/[\p{Cc}\p{Cf}]/gu, c => /\s/.test(c) ? " " : "")]. *)
Fixpoint replace_controls (name : list Z) : list Z :=
  match name with
  | [] => []
  | c :: name =>
      if is_control c then if is_space c then 32 :: replace_controls name
                           else replace_controls name
      else c :: replace_controls name
  end.

(** [.replace(/\s+/g, " ")]; [in_run] is set inside a run already replaced. *)
Fixpoint collapse (in_run : bool) (name : list Z) : list Z :=
  match name with
  | [] => []
  | c :: name =>
      if is_space c then if in_run then collapse true name else 32 :: collapse true name
      else c :: collapse false name
  end.

Fixpoint trim_start (name : list Z) : list Z :=
  match name with
  | c :: name' => if is_space c then trim_start name' else name
  | [] => []
  end.

Definition trim (name : list Z) : list Z := reverse (trim_start (reverse (trim_start name))).

(** [String.prototype.length] counts UTF-16 code units. *)
Definition utf16_length (name : list Z) : Z := sum_of (λ c, if 65535 <? c then 2 else 1) name.

Definition MIN_SQUAD_NAME_LENGTH : Z := 3.

(** [sanitizeSquadName]; [None] is a value that is not a string. *)
Definition sanitizeSquadName (name : option (list Z)) : result SquadError (list Z) :=
  let sanitized := trim (collapse false (replace_controls (default [] name))) in
  throw_if (utf16_length sanitized <? MIN_SQUAD_NAME_LENGTH) NameTooShort ;;; Ok sanitized.

(** ** Deadlines *)

Definition isPastDeadline (deadline now : Z) : bool := deadline <=? now.

(** [validateDeadline]: the error carries the deadline. *)
Definition validateDeadline (deadline now : Z) : result Z unit :=
  throw_if (deadline <=? now) deadline.

(** ** [SquadValidator.validateSquad] *)

(** [if (b) errors.push(e)]. *)
Definition push (b : bool) (e : SquadError) : list SquadError := if b then [e] else [].

Definition player_map (players : list PlayerForValidation) : list (Z * PlayerForValidation) :=
  foldl (λ m p, map_set (pv_id p) p m) [] players.

(** The selected players, looked up one selection at a time. *)
Definition lookup_all (playerMap : list (Z * PlayerForValidation))
    (selections : list SquadPlayerSelection) : list PlayerForValidation :=
  omap (λ sel, map_get (sel_playerId sel) playerMap) selections.

Definition team_counts (picked : list PlayerForValidation) : list (Z * Z) :=
  tally pv_teamId picked.

Definition position_counts (picked : list PlayerForValidation) : ByPosition Z :=
  Build_ByPosition (count_position pv_position GKP picked) (count_position pv_position DEF picked)
    (count_position pv_position MID picked) (count_position pv_position FWD picked).

Definition lookup_errors (selections : list SquadPlayerSelection)
    (playerMap : list (Z * PlayerForValidation)) : list SquadError :=
  let playerIds := sel_playerId <$> selections in
  push (negb (Z.of_nat (length selections) =? TOTAL_PLAYERS)) (WrongPlayerCount (length selections))
  ++ push (negb (length (remove_dups playerIds) =? length playerIds)%nat) DuplicatePlayers
  ++ concat ((λ id, push (negb (map_has id playerMap)) (PlayerNotFound id)) <$> playerIds).

Definition captain_errors (captains viceCaptains : list SquadPlayerSelection) : list SquadError :=
  push (negb (length captains =? 1)%nat) NotOneCaptain
  ++ push (negb (length viceCaptains =? 1)%nat) NotOneViceCaptain
  ++ match captains, viceCaptains with
     | [c], [v] =>
         push (sel_playerId c =? sel_playerId v) CaptainIsViceCaptain
         ++ push (negb (sel_isStarter c)) CaptainOnBench
         ++ push (negb (sel_isStarter v)) ViceCaptainOnBench
     | _, _ => []
     end.

Definition rule_errors (selections : list SquadPlayerSelection)
    (playerMap : list (Z * PlayerForValidation)) (maxBudget : Z) : list SquadError :=
  let starters := List.filter sel_isStarter selections in
  let bench := List.filter (λ s, negb (sel_isStarter s)) selections in
  let picked := lookup_all playerMap selections in
  let positionCounts := position_counts picked in
  let totalCost := sum_of pv_price picked in
  let starterPositions := position_counts (lookup_all playerMap starters) in
  push (negb (Z.of_nat (length starters) =? STARTERS)) (WrongStarterCount (length starters))
  ++ push (negb (Z.of_nat (length bench) =? BENCH)) (WrongBenchCount (length bench))
  ++ captain_errors (List.filter sel_isCaptain selections) (List.filter sel_isViceCaptain selections)
  ++ concat ((λ p, push (negb (at_position positionCounts p =? at_position POSITION_COUNTS p))
       (WrongPositionCount p (at_position positionCounts p))) <$> positions)
  ++ push (maxBudget <? totalCost) (BudgetExceeded totalCost maxBudget)
  ++ concat ((λ tc, push (MAX_PER_TEAM <? tc.2) (TooManyFromTeam tc.1 tc.2)) <$> team_counts picked)
  ++ push (negb (at_GKP starterPositions =? 1)) (NotOneStartingGoalkeeper (at_GKP starterPositions))
  ++ concat ((λ p, push (at_position starterPositions p <? at_position MIN_STARTERS p)
       (TooFewStarting p (at_position starterPositions p))) <$> [DEF; MID; FWD]).

Definition validateSquad (selections : list SquadPlayerSelection)
    (players : list PlayerForValidation) (maxBudget : Z) :
    result (list SquadError) ValidatedSquadResult :=
  let playerMap := player_map players in
  let errors := lookup_errors selections playerMap in
  throw_if (negb (bool_decide (length errors = O))) errors ;;;
  let errors := rule_errors selections playerMap maxBudget in
  throw_if (negb (bool_decide (length errors = O))) errors ;;;
  let starters := List.filter sel_isStarter selections in
  let starterPositions := position_counts (lookup_all playerMap starters) in
  match List.filter sel_isCaptain selections, List.filter sel_isViceCaptain selections with
  | captain :: _, viceCaptain :: _ =>
      Ok {| vs_totalCost := sum_of pv_price (lookup_all playerMap selections);
            vs_formation := (at_DEF starterPositions, at_MID starterPositions, at_FWD starterPositions);
            vs_starterIds := sel_playerId <$> starters;
            vs_benchIds := sel_playerId <$> List.filter (λ s, negb (sel_isStarter s)) selections;
            vs_captainId := sel_playerId captain;
            vs_viceCaptainId := sel_playerId viceCaptain |}
  | _, _ => Err []
  end.

(** ** The rules, declaratively *)

(** Starting eleven of fifteen, one captain and another vice-captain among
    them, two goalkeepers, five defenders, five midfielders and three forwards,
    at most three from a club, within budget, in a legal formation. *)
Record squad_ok (selections : list SquadPlayerSelection)
    (playerMap : list (Z * PlayerForValidation)) (maxBudget : Z) : Prop := {
  so_size : length selections = 15%nat;
  so_nodup : NoDup (sel_playerId <$> selections);
  so_known : ∀ s, s ∈ selections → is_Some (map_get (sel_playerId s) playerMap);
  so_starters : length (List.filter sel_isStarter selections) = 11%nat;
  so_captaincy : ∃ c v, List.filter sel_isCaptain selections = [c] ∧
    List.filter sel_isViceCaptain selections = [v] ∧
    sel_isStarter c = true ∧ sel_isStarter v = true ∧ sel_playerId c ≠ sel_playerId v;
  so_positions : ∀ p, count_position pv_position p (lookup_all playerMap selections)
    = at_position POSITION_COUNTS p;
  so_budget : sum_of pv_price (lookup_all playerMap selections) ≤ maxBudget;
  so_teams : ∀ t, countb (λ p, bool_decide (pv_teamId p = t)) (lookup_all playerMap selections) ≤ 3;
  so_goalkeeper : count_position pv_position GKP
    (lookup_all playerMap (List.filter sel_isStarter selections)) = 1;
  so_formation : ∀ p, at_position MIN_STARTERS p ≤ count_position pv_position p
    (lookup_all playerMap (List.filter sel_isStarter selections))
}.

(** ** Lemmas *)

Lemma push_nil b e : push b e = [] ↔ b = false.
Proof. by destruct b. Qed.

Lemma concat_push_nil {A} (b : A → bool) (e : A → SquadError) l :
  concat ((λ x, push (b x) (e x)) <$> l) = [] ↔ ∀ x, x ∈ l → b x = false.
Proof.
  induction l as [|a l IH]; cbn; [split; [intros _ ? ?%elem_of_nil; done|done]|].
  rewrite app_nil, push_nil, IH. setoid_rewrite elem_of_cons. naive_solver.
Qed.

Lemma at_position_counts l p : at_position (position_counts l) p = count_position pv_position p l.
Proof. by destruct p. Qed.

Lemma lookup_errors_nil selections playerMap :
  lookup_errors selections playerMap = [] ↔
  length selections = 15%nat ∧ NoDup (sel_playerId <$> selections) ∧
  ∀ s, s ∈ selections → is_Some (map_get (sel_playerId s) playerMap).
Proof.
  unfold lookup_errors, TOTAL_PLAYERS. rewrite !app_nil, !push_nil, concat_push_nil.
  rewrite !negb_false_iff, Z.eqb_eq, Nat.eqb_eq, length_remove_dups_eq.
  apply ZifyClasses.and_morph; [lia|]. apply ZifyClasses.and_morph; [done|].
  setoid_rewrite negb_false_iff. unfold map_has. setoid_rewrite bool_decide_eq_true. split.
  - intros H s Hs. apply H. apply list_elem_of_fmap. by exists s.
  - intros H id (s & -> & Hs)%list_elem_of_fmap. by apply H.
Qed.

Lemma captain_errors_nil selections :
  captain_errors (List.filter sel_isCaptain selections) (List.filter sel_isViceCaptain selections) = []
  ↔ ∃ c v, List.filter sel_isCaptain selections = [c] ∧
      List.filter sel_isViceCaptain selections = [v] ∧
      sel_isStarter c = true ∧ sel_isStarter v = true ∧ sel_playerId c ≠ sel_playerId v.
Proof.
  unfold captain_errors. rewrite !app_nil, !push_nil, !negb_false_iff, !Nat.eqb_eq.
  destruct (List.filter sel_isCaptain selections) as [|c [|]];
    destruct (List.filter sel_isViceCaptain selections) as [|v [|]]; cbn [length];
    try (split; [intros (? & ? & _); done|by intros (? & ? & ? & ? & _)]).
  rewrite !app_nil, !push_nil, !negb_false_iff, Z.eqb_neq. split.
  - intros (_ & _ & ? & ? & ?). by exists c, v.
  - intros (? & ? & [= <-] & [= <-] & ? & ? & ?). by split_and!.
Qed.

Lemma filter_split_length {A} (p : A → bool) l :
  (length (List.filter p l) + length (List.filter (λ x, negb (p x)) l) = length l)%nat.
Proof. rewrite <- length_app. by rewrite lfilter_split. Qed.

Lemma validate_ok_iff selections players maxBudget :
  is_ok (validateSquad selections players maxBudget) = true ↔
  squad_ok selections (player_map players) maxBudget.
Proof.
  unfold validateSquad. set (m := player_map players).
  assert (∀ l : list SquadError, negb (bool_decide (length l = O)) = false ↔ l = []) as Hnil.
  { intros [|]; cbn; [done|by split]. }
  destruct (negb (bool_decide (length (lookup_errors selections m) = O))) eqn:E1.
  { cbn. split; [done|]. intros H. exfalso. apply not_false_iff_true in E1. apply E1, Hnil.
    apply lookup_errors_nil. split_and!; apply H. }
  apply Hnil, lookup_errors_nil in E1 as (H1 & H2 & H3). cbn [throw_if rbind].
  assert (rule_errors selections m maxBudget = [] ↔ squad_ok selections m maxBudget) as Hr.
  { unfold rule_errors. rewrite !app_nil, captain_errors_nil, !concat_push_nil, !push_nil.
    rewrite !negb_false_iff, !Z.eqb_eq, Z.ltb_ge.
    setoid_rewrite negb_false_iff. setoid_rewrite Z.eqb_eq. setoid_rewrite Z.ltb_ge.
    unfold team_counts, MAX_PER_TEAM. rewrite (tally_bound pv_teamId) by done.
    setoid_rewrite at_position_counts. unfold STARTERS, BENCH.
    pose proof (filter_split_length sel_isStarter selections) as Hsp. split.
    - intros (S1 & S2 & Hc & Hp & Hb & Ht & Hg & Hf). constructor; try done; [lia|..].
      + intros p. apply Hp. destruct p; set_solver.
      + intros p. destruct p; [cbn in Hg |- *; lia|apply Hf; set_solver..].
    - intros []. split_and!; try done; [lia|lia]. }
  destruct (negb (bool_decide (length (rule_errors selections m maxBudget) = O))) eqn:E2.
  { cbn. split; [done|]. intros H%Hr. rewrite H in E2. done. }
  apply Hnil, Hr in E2. cbn [throw_if rbind].
  destruct (so_captaincy _ _ _ E2) as (c & v & -> & -> & _). done.
Qed.

(** ** Lemmas: names *)

(** A normalized name. *)
Definition no_double_space (l : list Z) : Prop :=
  ∀ i, l !! i = Some 32 → l !! S i = Some 32 → False.

Definition plain_char (c : Z) : Prop := is_control c = false ∧ (is_space c = true → c = 32).

Record clean_name (l : list Z) : Prop := {
  cn_chars : Forall plain_char l;
  cn_double : no_double_space l;
  cn_head : ∀ c, head l = Some c → is_space c = false;
  cn_last : ∀ c, last l = Some c → is_space c = false
}.

Lemma replace_controls_plain name : Forall (λ c, is_control c = false) (replace_controls name).
Proof.
  induction name as [|c name IH]; cbn; [constructor|].
  destruct (is_control c) eqn:E; [destruct (is_space c); [by constructor|done]|by constructor].
Qed.

Lemma collapse_plain b name :
  Forall (λ c, is_control c = false) name → Forall plain_char (collapse b name).
Proof.
  revert b. induction name as [|c name IH]; intros b; cbn; [constructor|].
  intros [Hc Hn]%Forall_cons. destruct (is_space c) eqn:E.
  - destruct b; [by apply IH|]. constructor; [by split|by apply IH].
  - constructor; [split; [done|by rewrite E]|by apply IH].
Qed.

Lemma collapse_double b name :
  no_double_space (collapse b name) ∧ (b = true → head (collapse b name) ≠ Some 32).
Proof.
  revert b. induction name as [|c name IH]; intros b; cbn; [by split|].
  destruct (is_space c) eqn:E.
  - destruct b; [apply IH|]. split; [|done]. destruct (IH true) as [H1 H2].
    intros [|i]; cbn; [|apply H1]. intros _ Hh. apply H2; [done|]. by rewrite head_lookup.
  - destruct (IH false) as [H1 _]. split.
    + intros [|i]; cbn; [|apply H1]. intros [= ->]. done.
    + cbn. by intros _ [= ->].
Qed.

Lemma trim_start_drop l : ∃ k, trim_start l = drop k l.
Proof.
  induction l as [|c l [k IH]]; cbn; [by exists O|]. destruct (is_space c); [by exists (S k)|by exists O].
Qed.

Lemma trim_start_head l c : head (trim_start l) = Some c → is_space c = false.
Proof. induction l as [|d l IH]; cbn; [done|]. destruct (is_space d) eqn:E; [done|]. by intros [= <-]. Qed.

Lemma trim_start_last l : trim_start l ≠ [] → last (trim_start l) = last l.
Proof.
  induction l as [|d l IH]; cbn [trim_start]; [done|]. destruct (is_space d); [|done].
  intros H. rewrite IH by done. destruct l; [done|done].
Qed.

Lemma no_double_drop k l : no_double_space l → no_double_space (drop k l).
Proof.
  intros H i. rewrite !lookup_drop. replace (k + S i)%nat with (S (k + i)) by lia. apply H.
Qed.

Lemma no_double_reverse l : no_double_space l → no_double_space (reverse l).
Proof.
  intros H i H1 H2. pose proof (lookup_lt_Some _ _ _ H2) as Hlt. rewrite length_reverse in Hlt.
  rewrite reverse_lookup in H1, H2 by lia.
  replace (length l - S i)%nat with (S (length l - S (S i))) in H1 by lia. by eapply H.
Qed.

Lemma trim_clean l : Forall plain_char l → no_double_space l → clean_name (trim l).
Proof.
  intros H1 H2. unfold trim. destruct (trim_start_drop l) as [k Hk].
  destruct (trim_start_drop (reverse (trim_start l))) as [k' Hk']. constructor.
  - rewrite Hk', Hk. apply Forall_reverse, Forall_drop, Forall_reverse, Forall_drop, H1.
  - rewrite Hk', Hk. by apply no_double_reverse, no_double_drop, no_double_reverse, no_double_drop.
  - intros c Hc. set (t := trim_start (reverse (trim_start l))) in *.
    rewrite head_reverse in Hc.
    assert (t ≠ []) as Ht by (by intros E; rewrite E in Hc).
    unfold t in Hc, Ht. rewrite trim_start_last in Hc by done.
    rewrite last_reverse in Hc. by apply trim_start_head in Hc.
  - intros c. rewrite last_reverse. apply trim_start_head.
Qed.

Lemma trim_id l : clean_name l → trim l = l.
Proof.
  intros [_ _ Hh Hl]. unfold trim.
  assert (∀ k, (∀ c, head k = Some c → is_space c = false) → trim_start k = k) as Ht.
  { intros [|c k] H; [done|]. cbn. by rewrite (H c). }
  rewrite (Ht l Hh), (Ht (reverse l)); [by rewrite reverse_involutive|].
  intros c. rewrite head_reverse. apply Hl.
Qed.

Lemma replace_controls_id l : Forall plain_char l → replace_controls l = l.
Proof. induction 1 as [|c l [Hc _] Hl IH]; cbn; [done|]. by rewrite Hc, IH. Qed.

Lemma collapse_id b l :
  Forall plain_char l → no_double_space l → (b = true → head l ≠ Some 32) → collapse b l = l.
Proof.
  intros Hl. revert b. induction Hl as [|c l [Hc Hs] Hl IH]; intros b Hd Hb; cbn; [done|].
  assert (no_double_space l) as Hd' by (intros i; apply (Hd (S i))).
  destruct (is_space c) eqn:E.
  - rewrite (Hs eq_refl) in *. destruct b; [by destruct Hb|]. f_equal. apply IH; [done|].
    intros _ Hh. rewrite head_lookup in Hh. by apply (Hd O).
  - f_equal. apply IH; done.
Qed.

(** How many starters play at [p]. *)
Definition starters_at (selections : list SquadPlayerSelection) (playerMap : list (Z * PlayerForValidation))
    (p : Position) : Z :=
  countb (λ s, sel_isStarter s && bool_decide (pv_position <$> map_get (sel_playerId s) playerMap = Some p)) selections.

Lemma count_starters selections playerMap p :
  count_position pv_position p (lookup_all playerMap (List.filter sel_isStarter selections))
    = starters_at selections playerMap p.
Proof.
  unfold count_position, starters_at, lookup_all. induction selections as [|s l IH]; [done|].
  rewrite countb_cons. cbn [List.filter]. destruct (sel_isStarter s); cbn [omap list_omap andb]; [|by rewrite IH].
  destruct (map_get (sel_playerId s) playerMap) as [v|]; cbn [fmap option_fmap option_map].
  - rewrite countb_cons, IH. f_equal. by destruct (decide (pv_position v = p)) as [->|Hn];
      [rewrite !bool_decide_eq_true_2|rewrite !bool_decide_eq_false_2 by congruence].
  - by rewrite IH.
Qed.

(** The only selection a test picks is the one with its id. *)
Lemma picked_by_id f selections c :
  List.filter f selections = [c] → NoDup (sel_playerId <$> selections) →
  c ∈ selections ∧ ∀ s, s ∈ selections → f s = true ↔ sel_playerId s = sel_playerId c.
Proof.
  intros Hf Hn. assert (c ∈ selections ∧ f c = true) as [Hc Hfc].
  { apply elem_of_lfilter. rewrite Hf. by left. }
  split; [done|]. intros s Hs. split.
  - intros Ht. assert (s ∈ [c]) as ->%list_elem_of_singleton; [|done]. rewrite <- Hf. by apply elem_of_lfilter.
  - intros E. by rewrite (fmap_unique sel_playerId selections s c).
Qed.

(** ** Properties *)

(** C38. Squad validation is sound and complete: a squad is accepted exactly
    when it obeys the rules of the game, and its result describes it: the cost
    of its players, its starters and its bench in the order they were sent, its
    captain, its vice-captain, and its formation, the numbers of defenders,
    midfielders and forwards that start. *)
Theorem validate_squad_correct (selections : list SquadPlayerSelection)
    (players : list PlayerForValidation) (maxBudget : Z) :
  let playerMap := player_map players in
  (is_ok (validateSquad selections players maxBudget) = true ↔
     squad_ok selections playerMap maxBudget) ∧
  (∀ v, validateSquad selections players maxBudget = Ok v →
     vs_totalCost v = sum_of pv_price (lookup_all playerMap selections) ∧ vs_totalCost v ≤ maxBudget ∧
     vs_starterIds v = sel_playerId <$> List.filter sel_isStarter selections ∧
     vs_benchIds v = sel_playerId <$> List.filter (λ s, negb (sel_isStarter s)) selections ∧
     length (vs_starterIds v) = 11%nat ∧ NoDup (vs_starterIds v ++ vs_benchIds v) ∧
     (∀ s, s ∈ selections → sel_isCaptain s = true ↔ sel_playerId s = vs_captainId v) ∧
     (∀ s, s ∈ selections → sel_isViceCaptain s = true ↔ sel_playerId s = vs_viceCaptainId v) ∧
     vs_captainId v ∈ vs_starterIds v ∧ vs_viceCaptainId v ∈ vs_starterIds v ∧
     vs_captainId v ≠ vs_viceCaptainId v ∧
     vs_formation v = (starters_at selections playerMap DEF, starters_at selections playerMap MID,
                       starters_at selections playerMap FWD)).
Proof.
  split; [apply validate_ok_iff|]. intros v Hv.
  assert (squad_ok selections (player_map players) maxBudget) as S.
  { apply validate_ok_iff. by rewrite Hv. }
  destruct S. destruct so_captaincy0 as (c & w & Hc & Hw & Sc & Sw & Hcw).
  unfold validateSquad in Hv. inv_ok. rewrite Hc, Hw in Hv. inv_ok. subst v.
  cbn [vs_totalCost vs_starterIds vs_benchIds vs_captainId vs_viceCaptainId vs_formation].
  destruct (picked_by_id _ _ _ Hc so_nodup0) as [Hc1 Hc2], (picked_by_id _ _ _ Hw so_nodup0) as [Hw1 Hw2].
  assert (∀ s, s ∈ selections → sel_isStarter s = true →
    sel_playerId s ∈ sel_playerId <$> List.filter sel_isStarter selections) as Hin.
  { intros s H1 H2. apply list_elem_of_fmap. exists s. split; [done|]. by apply elem_of_lfilter. }
  split_and!; try done; auto.
  - by rewrite length_fmap.
  - by rewrite <- fmap_app, lfilter_split.
  - unfold position_counts. cbn [at_DEF at_MID at_FWD]. by rewrite !count_starters.
Qed.

(** Squad names: an accepted name has no control or format character, only
    single plain spaces, none at its ends, and at least three code units; and
    sanitizing it again gives it back unchanged. *)
Theorem sanitize_squad_name_normal (name : option (list Z)) (s : list Z) :
  sanitizeSquadName name = Ok s →
  clean_name s ∧ 3 ≤ utf16_length s ∧ sanitizeSquadName (Some s) = Ok s.
Proof.
  unfold sanitizeSquadName, MIN_SQUAD_NAME_LENGTH. intros H. inv_ok. bool_to_prop.
  set (r := replace_controls _) in H.
  assert (clean_name s) as Hs.
  { rewrite <- H. apply trim_clean; [apply collapse_plain, replace_controls_plain|].
    apply collapse_double. }
  split; [done|]. rewrite <- H. split; [done|]. rewrite H. cbn [default].
  rewrite replace_controls_id by apply Hs. rewrite collapse_id by (apply Hs || done).
  rewrite trim_id by done. rewrite (proj2 (Z.ltb_ge _ _)); [done|]. by rewrite <- H.
Qed.

Lemma sanitize_squad_name_normal_witness :
  sanitizeSquadName (Some [32; 65; 9; 0; 10; 8203; 66; 160]) = Ok [65; 32; 66] ∧
  sanitizeSquadName (Some [65; 32; 66]) = Ok [65; 32; 66].
Proof.
  split; [reflexivity|].
  exact (proj2 (proj2 (sanitize_squad_name_normal (Some [32; 65; 9; 0; 10; 8203; 66; 160])
    [65; 32; 66] eq_refl))).
Defined.

(** A sample squad: ids 1 to 15, five clubs, a 4-4-2. *)
Definition sample_position (id : Z) : Position :=
  if id <=? 2 then GKP else if id <=? 7 then DEF else if id <=? 12 then MID else FWD.

Definition sample_ids : list Z := Z.of_nat <$> seq 1 15.

Definition sample_players : list PlayerForValidation :=
  (λ id, {| pv_id := id; pv_teamId := id mod 5; pv_position := sample_position id;
            pv_price := 50 + id |}) <$> sample_ids.

Definition sample_selections : list SquadPlayerSelection :=
  (λ id, {| sel_playerId := id;
            sel_isStarter := negb (bool_decide (id ∈ [2; 7; 12; 15]));
            sel_isCaptain := id =? 14; sel_isViceCaptain := id =? 8;
            sel_positionOrder := id |}) <$> sample_ids.

Lemma validate_squad_correct_witness :
  match validateSquad sample_selections sample_players 1000 with
  | Ok v => vs_captainId v = 14 ∧ vs_viceCaptainId v = 8 ∧ vs_formation v = (4, 4, 2) ∧ vs_totalCost v = 870
  | Err _ => False
  end ∧
  squad_ok sample_selections (player_map sample_players) 1000 ∧
  validateSquad sample_selections sample_players 800 = Err [BudgetExceeded 870 800].
Proof.
  pose proof (validate_squad_correct sample_selections sample_players 1000) as [Hiff Hv].
  split; [|split; [apply Hiff; vm_compute; reflexivity|vm_compute; reflexivity]].
  destruct (validateSquad sample_selections sample_players 1000) as [v|e] eqn:E; [|vm_compute in E; discriminate E].
  destruct (Hv v eq_refl) as (Hcost & _ & _ & _ & _ & _ & Hc & Hw & _ & _ & _ & Hf).
  split_and!.
  - symmetry. apply (Hc {| sel_playerId := 14; sel_isStarter := true; sel_isCaptain := true;
      sel_isViceCaptain := false; sel_positionOrder := 14 |}); [|reflexivity].
    apply list_elem_of_fmap. exists 14. split; [reflexivity|]. apply (bool_decide_unpack _). vm_compute. exact I.
  - symmetry. apply (Hw {| sel_playerId := 8; sel_isStarter := true; sel_isCaptain := false;
      sel_isViceCaptain := true; sel_positionOrder := 8 |}); [|reflexivity].
    apply list_elem_of_fmap. exists 8. split; [reflexivity|]. apply (bool_decide_unpack _). vm_compute. exact I.
  - rewrite Hf. vm_compute. reflexivity.
  - rewrite Hcost. vm_compute. reflexivity.
Defined.
