(* ===== verification/SquadService.v ===== *)
(** * Squads, transfers and chips

    [backend/src/services/squad/squadService.ts] with [assertGameweeksOpen] of
    [deadlineGuard.ts].  The database is a record of tables; a transaction maps
    the database read under the squad lock to the one it commits, and an error
    rolls it back.  Prices are tenths of a million.  The gameweek table and the
    clock can move between the request, the locks and the commit, so each check
    takes the ones it reads. *)

From S2P Require Import Prelude Rules SquadValidator.

(** ** Tables *)

Record Player : Type := {
  pl_id : Z;
  pl_teamId : Z;
  pl_position : Position;
  pl_price : Z
}.

Record SquadPlayer : Type := {
  sp_playerId : Z;
  sp_isCaptain : bool;
  sp_isViceCaptain : bool;
  sp_isStarter : bool;
  sp_positionOrder : Z;
  sp_purchasePrice : Z
}.

Record Squad : Type := {
  sq_userId : string;
  sq_name : list Z;
  sq_budgetRemaining : Z;
  sq_freeTransfers : Z;
  sq_freeTransfersGameweekId : option Z;
  sq_updatedAt : Z;
  sq_players : list SquadPlayer
}.

Record Gameweek : Type := {
  gw_id : Z;
  gw_fplId : Z;
  gw_season : string;
  gw_deadline : Z;
  gw_isCurrent : bool;
  gw_isFinished : bool;
  gw_isLocked : bool;
  gw_settledAt : option Z
}.

Record SquadTransfer : Type := {
  tr_squadId : string;
  tr_gameweekId : Z;
  tr_playerInId : Z;
  tr_playerOutId : Z;
  tr_inPrice : Z;
  tr_outPrice : Z;
  tr_pointsCost : Z
}.

(** The lineup stored when Free Hit or Wildcard is played. *)
Record FreeHitSnapshot : Type := {
  fh_budgetRemaining : Z;
  fh_freeTransfers : Z;
  fh_freeTransfersGameweekId : option Z;
  fh_transferCost : option Z;
  fh_players : list SquadPlayer
}.

Record ChipUsage : Type := {
  cu_chipType : ChipType;
  cu_season : string;
  cu_previousLineup : option FreeHitSnapshot;
  cu_revertedAt : option Z;
  cu_cancelledAt : option Z
}.

(** [transferCost] is the only column of [squadGameweekScore] used here. *)
Record SquadDb : Type := {
  users : list string;
  players : list Player;
  gameweeks : list Gameweek;
  squads : list (string * Squad);
  squadTransfer : list SquadTransfer;
  squadChipUsage : list ((string * Z) * ChipUsage);
  scoreTransferCost : list ((string * Z) * Z);
  squadChipCancellation : list (string * Z * ChipType)
}.

Inductive SquadServiceError : Type :=
| ValidationFailed (errors : list SquadError)
| UserNotFound
| SquadNotFound
| GameweekNotFound
| PlayersNotAnArray
| BadTimestamp
| NoReplacementFor (playerId : Z)
| TransfersClosed
| SquadForbidden
| SquadLocked (deadline : Z)
| SquadRevisionConflict (currentRevision : Z)
| ChipUnavailable
| ChipCancellationLocked
| RecordNotFound.

Definition lift_validation {A} (r : result (list SquadError) A) : result SquadServiceError A :=
  match r with Ok a => Ok a | Err es => Err (ValidationFailed es) end.

Definition lift_name {A} (r : result SquadError A) : result SquadServiceError A :=
  match r with Ok a => Ok a | Err e => Err (ValidationFailed [e]) end.

(** [validateDeadline] as the service sees it. *)
Definition check_deadline (gw : option Gameweek) (now : Z) : result SquadServiceError unit :=
  match gw with
  | Some gw => match validateDeadline (gw_deadline gw) now with
               | Ok _ => Ok tt
               | Err d => Err (SquadLocked d)
               end
  | None => Ok tt
  end.

(** ** Pure helpers *)

Definition calculateSellingPrice (purchase current : Z) : Z :=
  if purchase <? current then purchase + (current - purchase) / 2 else current.

Definition rollFreeTransfers (saved gameweeksElapsed : Z) : Z :=
  Z.min MAX_FREE_TRANSFERS (saved + Z.max 0 gameweeksElapsed * FREE_TRANSFERS_PER_GAMEWEEK).

Definition calculateTransferCosts (transferCount : nat) (freeTransfers : Z) : list Z :=
  (λ i, if Z.of_nat i <? freeTransfers then 0 else TRANSFER_POINTS_COST) <$> seq 0 transferCount.

(** [findIndex] then [splice]: the first element satisfying [p] and the rest. *)
Fixpoint take_first {A} (p : A → bool) (l : list A) : option (A * list A) :=
  match l with
  | [] => None
  | a :: l => if p a then Some (a, l)
              else match take_first p l with
                   | Some (b, rest) => Some (b, a :: rest)
                   | None => None
                   end
  end.

Fixpoint pairTransfers (outgoing incoming : list (Z * Position)) :
    result SquadServiceError (list (Z * Z)) :=
  match outgoing with
  | [] => Ok []
  | out :: outgoing =>
      let* '(found, remainingIn) :=
        or_throw (take_first (λ p, bool_decide (p.2 = out.2)) incoming) (NoReplacementFor out.1) in
      let* pairs := pairTransfers outgoing remainingIn in
      Ok ((out.1, found.1) :: pairs)
  end.

Definition calculateTeamValue (budgetRemaining : Z) (players : list (Z * Z)) : Z :=
  budgetRemaining
  + foldl (λ sum p, sum + calculateSellingPrice p.1 p.2) 0 players.

(** ** Queries *)

Definition find_player (db : SquadDb) (id : Z) : option Player :=
  List.find (λ p, pl_id p =? id) (players db).

(** [include: { players: { include: { player: true } } }]. *)
Definition with_player (db : SquadDb) (rows : list SquadPlayer) : list (SquadPlayer * Player) :=
  omap (λ sp, (λ p, (sp, p)) <$> find_player db (sp_playerId sp)) rows.

Definition find_players (db : SquadDb) (ids : list Z) : list Player :=
  List.filter (λ p, bool_decide (pl_id p ∈ ids)) (players db).

Definition next_unfinished (gws : list Gameweek) : option Gameweek :=
  head (sort_by (asc gw_deadline) (List.filter (λ g, negb (gw_isFinished g)) gws)).

Definition current_gameweek (gws : list Gameweek) : option Gameweek :=
  List.find gw_isCurrent gws.

Definition locked_gameweek (gws : list Gameweek) : option Gameweek :=
  List.find (λ g, gw_isLocked g && negb (bool_decide (is_Some (gw_settledAt g)))) gws.

(** [assertGameweeksOpen]: [gws] and [now] are read while the rows are locked. *)
Definition assertGameweeksOpen (gws : list Gameweek) (now : Z) (ids : list Z) :
    result SquadServiceError unit :=
  mfoldl (λ _ gw,
    throw_if (gw_isLocked gw || isPastDeadline (gw_deadline gw) now) (SquadLocked (gw_deadline gw)))
    tt (List.filter (λ g, bool_decide (gw_id g ∈ ids)) gws).

(** ** [createSquad] *)

Record CreateSquadInput : Type := {
  ci_name : option (list Z);
  ci_userId : string;
  ci_players : list SquadPlayerSelection
}.

Definition new_row (db : SquadDb) (sel : SquadPlayerSelection) : SquadPlayer :=
  {| sp_playerId := sel_playerId sel; sp_isCaptain := sel_isCaptain sel;
     sp_isViceCaptain := sel_isViceCaptain sel; sp_isStarter := sel_isStarter sel;
     sp_positionOrder := sel_positionOrder sel;
     sp_purchasePrice := default 0 (pl_price <$> find_player db (sel_playerId sel)) |}.

Definition for_validation (p : Player) (price : Z) : PlayerForValidation :=
  {| pv_id := pl_id p; pv_teamId := pl_teamId p; pv_position := pl_position p; pv_price := price |}.

Definition set_squads (db : SquadDb) (s : list (string * Squad)) : SquadDb :=
  {| users := users db; players := players db; gameweeks := gameweeks db; squads := s;
     squadTransfer := squadTransfer db; squadChipUsage := squadChipUsage db;
     scoreTransferCost := scoreTransferCost db; squadChipCancellation := squadChipCancellation db |}.

(** [id] is the generated identifier, [now] the row's timestamp. *)
Definition createSquad (id : string) (now : Z) (input : CreateSquadInput) (db : SquadDb) :
    result SquadServiceError SquadDb :=
  let* name := lift_name (sanitizeSquadName (ci_name input)) in
  throw_if (negb (bool_decide (ci_userId input ∈ users db))) UserNotFound ;;;
  let dbPlayers := find_players db (sel_playerId <$> ci_players input) in
  let* validated := lift_validation (validateSquad (ci_players input)
    ((λ p, for_validation p (pl_price p)) <$> dbPlayers) STARTING_BUDGET) in
  let budgetRemaining := STARTING_BUDGET - vs_totalCost validated in
  Ok (set_squads db (map_set id
    {| sq_userId := ci_userId input; sq_name := name; sq_budgetRemaining := budgetRemaining;
       sq_freeTransfers := 1; sq_freeTransfersGameweekId := None; sq_updatedAt := now;
       sq_players := new_row db <$> ci_players input |} (squads db))).

(** ** [updateSquad] *)

(** [players] is [None] when the request body holds something else than an
    array; [expectedUpdatedAt] is [Some None] when it is not a timestamp. *)
Record UpdateSquadInput : Type := {
  ui_name : option (option (list Z));
  ui_players : option (list SquadPlayerSelection);
  ui_expectedUpdatedAt : option (option Z)
}.

(** The checks made before the transaction: the new name if one was given, the
    selections, and the gameweek that was current. *)
Definition update_precheck (squadId : string) (input : UpdateSquadInput)
    (requestingUserId : option string) (db : SquadDb) (now : Z) :
    result SquadServiceError (option (list Z) * list SquadPlayerSelection * option Gameweek) :=
  let* existing := or_throw (map_get squadId (squads db)) SquadNotFound in
  let* name := match ui_name input with
               | Some n => rmap Some (lift_name (sanitizeSquadName n))
               | None => Ok None
               end in
  throw_if (match requestingUserId with
            | Some u => negb (bool_decide (u = "")) && negb (bool_decide (sq_userId existing = u))
            | None => false
            end) SquadForbidden ;;;
  let currentGameweek := current_gameweek (gameweeks db) in
  check_deadline currentGameweek now ;;;
  match locked_gameweek (gameweeks db) with
  | Some gw => Err (SquadLocked (gw_deadline gw))
  | None => Ok tt
  end ;;;
  check_deadline (next_unfinished (gameweeks db)) now ;;;
  let* selections := or_throw (ui_players input) PlayersNotAnArray in
  Ok (name, selections, currentGameweek).

Definition check_revision (expected : option (option Z)) (updatedAt : Z) :
    result SquadServiceError unit :=
  match expected with
  | None => Ok tt
  | Some None => Err BadTimestamp
  | Some (Some t) => throw_if (negb (updatedAt =? t)) (SquadRevisionConflict updatedAt)
  end.

(** Selling price of every player currently owned. *)
Definition sell_prices (joined : list (SquadPlayer * Player)) : list (Z * Z) :=
  foldl (λ m x, map_set (sp_playerId x.1)
    (calculateSellingPrice (sp_purchasePrice x.1) (pl_price x.2)) m) [] joined.

Definition is_owned (rows : list SquadPlayer) (id : Z) : bool :=
  bool_decide (id ∈ sp_playerId <$> rows).

(** Kept players at their selling price, signings at their current price. *)
Definition price_for_validation (rows : list SquadPlayer) (sellPrices : list (Z * Z)) (p : Player) :
    PlayerForValidation :=
  for_validation p (if is_owned rows (pl_id p) then default 0 (map_get (pl_id p) sellPrices)
                    else pl_price p).

Definition available_funds (squad : Squad) (sellPrices : list (Z * Z)) : Z :=
  sq_budgetRemaining squad + foldl Z.add 0 (map_values sellPrices).

Definition outgoing_players (joined : list (SquadPlayer * Player)) (newIds : list Z) :
    list (Z * Position) :=
  (λ x, (sp_playerId x.1, pl_position x.2)) <$>
    List.filter (λ x, negb (bool_decide (sp_playerId x.1 ∈ newIds))) joined.

Definition incoming_players (rows : list SquadPlayer) (dbPlayers : list Player) :
    list (Z * Position) :=
  (λ p, (pl_id p, pl_position p)) <$> List.filter (λ p, negb (is_owned rows (pl_id p))) dbPlayers.

(** Free transfers available for [target]. *)
Definition available_transfers (squad : Squad) (gws : list Gameweek) (target : Gameweek) : Z :=
  match sq_freeTransfersGameweekId squad with
  | Some saved =>
      if saved =? gw_id target then sq_freeTransfers squad
      else let elapsed := match List.find (λ g, gw_id g =? saved) gws with
                          | Some savedGameweek => gw_fplId target - gw_fplId savedGameweek
                          | None => 1
                          end in
           rollFreeTransfers (sq_freeTransfers squad) elapsed
  | None => sq_freeTransfers squad
  end.

(** [squadPlayer.update] with the selection's flags. *)
Definition apply_selection (sel : SquadPlayerSelection) (sp : SquadPlayer) : SquadPlayer :=
  if sp_playerId sp =? sel_playerId sel
  then {| sp_playerId := sp_playerId sp; sp_isCaptain := sel_isCaptain sel;
          sp_isViceCaptain := sel_isViceCaptain sel; sp_isStarter := sel_isStarter sel;
          sp_positionOrder := sel_positionOrder sel; sp_purchasePrice := sp_purchasePrice sp |}
  else sp.

(** Steps 3 to 5: delete the sold players, update the kept ones in place, append
    the signings. *)
Definition update_rows (db : SquadDb) (rows : list SquadPlayer) (outgoing : list (Z * Position))
    (selections : list SquadPlayerSelection) : list SquadPlayer :=
  let remaining := List.filter (λ sp, negb (bool_decide (sp_playerId sp ∈ outgoing.*1))) rows in
  let kept := foldl (λ rs sel, apply_selection sel <$> rs) remaining
                (List.filter (λ sel, is_owned rows (sel_playerId sel)) selections) in
  kept ++ (new_row db <$>
    List.filter (λ sel, negb (is_owned rows (sel_playerId sel))) selections).

(** The gameweek the transfers count for, the cost of each and the free
    transfers left. *)
Definition charge_transfers (squad : Squad) (gws : list Gameweek) (governing : option Gameweek)
    (transferCount : nat) : result SquadServiceError (option (Z * list Z * Z)) :=
  if (transferCount =? 0)%nat then Ok None
  else let* target := or_throw governing TransfersClosed in
       let available := available_transfers squad gws target in
       Ok (Some (gw_id target, calculateTransferCosts transferCount available,
                 Z.max 0 (available - Z.of_nat transferCount))).

Definition transfer_rows (db : SquadDb) (squadId : string) (gameweekId : Z)
    (sellPrices : list (Z * Z)) (transfers : list (Z * Z)) (costs : list Z) : list SquadTransfer :=
  zip_with (λ t cost,
    {| tr_squadId := squadId; tr_gameweekId := gameweekId; tr_playerInId := t.2;
       tr_playerOutId := t.1; tr_inPrice := default 0 (pl_price <$> find_player db t.2);
       tr_outPrice := default 0 (map_get t.1 sellPrices); tr_pointsCost := cost |})
    transfers costs.

(** The transaction: [db] is read under the squad lock and [now1] is the first
    clock reading; [gws_end] and [now2] are what the last checks read. *)
Definition update_transaction (squadId : string) (input : UpdateSquadInput) (name : option (list Z))
    (selections : list SquadPlayerSelection) (currentGameweek : option Gameweek)
    (db : SquadDb) (now1 : Z) (gws_end : list Gameweek) (now2 : Z) :
    result SquadServiceError SquadDb :=
  let* squad := or_throw (map_get squadId (squads db)) SquadNotFound in
  check_revision (ui_expectedUpdatedAt input) (sq_updatedAt squad) ;;;
  let governing := next_unfinished (gameweeks db) in
  match governing with
  | Some gw => assertGameweeksOpen (gameweeks db) now1 [gw_id gw]
  | None => Ok tt
  end ;;;
  let playerIds := sel_playerId <$> selections in
  let dbPlayers := find_players db playerIds in
  let joined := with_player db (sq_players squad) in
  let sellPrices := sell_prices joined in
  let availableFunds := available_funds squad sellPrices in
  let* validated := lift_validation (validateSquad selections
    (price_for_validation (sq_players squad) sellPrices <$> dbPlayers) availableFunds) in
  let budgetRemaining := availableFunds - vs_totalCost validated in
  let outgoing := outgoing_players joined playerIds in
  let incoming := incoming_players (sq_players squad) dbPlayers in
  let* transfers := pairTransfers outgoing incoming in
  let* charge := charge_transfers squad (gameweeks db) governing (length transfers) in
  let squad' :=
    {| sq_userId := sq_userId squad; sq_name := default (sq_name squad) name;
       sq_budgetRemaining := budgetRemaining;
       sq_freeTransfers := match charge with Some (_, _, rest) => rest
                           | None => sq_freeTransfers squad end;
       sq_freeTransfersGameweekId := match charge with Some (gw, _, _) => Some gw
                                     | None => sq_freeTransfersGameweekId squad end;
       sq_updatedAt := now2;
       sq_players := update_rows db (sq_players squad) outgoing selections |} in
  let audit := match charge with
               | Some (gw, costs, _) => transfer_rows db squadId gw sellPrices transfers costs
               | None => []
               end in
  match locked_gameweek gws_end with
  | Some gw => Err (SquadLocked (gw_deadline gw))
  | None => Ok tt
  end ;;;
  assertGameweeksOpen gws_end now2
    (omap (fmap gw_id) [currentGameweek; governing]) ;;;
  Ok {| users := users db; players := players db; gameweeks := gws_end;
        squads := map_set squadId squad' (squads db);
        squadTransfer := squadTransfer db ++ audit;
        squadChipUsage := squadChipUsage db; scoreTransferCost := scoreTransferCost db;
        squadChipCancellation := squadChipCancellation db |}.

Definition updateSquad (squadId : string) (input : UpdateSquadInput)
    (requestingUserId : option string) (db0 : SquadDb) (now0 : Z)
    (db : SquadDb) (now1 : Z) (gws_end : list Gameweek) (now2 : Z) :
    result SquadServiceError SquadDb :=
  let* '(name, selections, currentGameweek) :=
    update_precheck squadId input requestingUserId db0 now0 in
  update_transaction squadId input name selections currentGameweek db now1 gws_end now2.

(** ** Chips *)

Definition set_chips (db : SquadDb) (chips : list ((string * Z) * ChipUsage)) : SquadDb :=
  {| users := users db; players := players db; gameweeks := gameweeks db; squads := squads db;
     squadTransfer := squadTransfer db; squadChipUsage := chips;
     scoreTransferCost := scoreTransferCost db; squadChipCancellation := squadChipCancellation db |}.

Definition is_active (usage : option ChipUsage) : bool :=
  match usage with
  | Some u => negb (bool_decide (is_Some (cu_cancelledAt u)))
  | None => false
  end.

Definition same_season_chip (squadId season : string) (chip : ChipType)
    (row : (string * Z) * ChipUsage) : bool :=
  bool_decide (row.1.1 = squadId) && bool_decide (cu_season row.2 = season)
  && bool_decide (cu_chipType row.2 = chip).

(** [findUnique({ where: { squadId_season_chipType } })]. *)
Definition used_this_season (squadId season : string) (chip : ChipType) (db : SquadDb) :
    option ChipUsage :=
  snd <$> List.find (same_season_chip squadId season chip) (squadChipUsage db).

Definition snapshot_of (squad : Squad) (transferCost : option Z) : FreeHitSnapshot :=
  {| fh_budgetRemaining := sq_budgetRemaining squad;
     fh_freeTransfers := sq_freeTransfers squad;
     fh_freeTransfersGameweekId := sq_freeTransfersGameweekId squad;
     fh_transferCost := transferCost;
     fh_players := sq_players squad |}.

Definition restores_lineup (chip : ChipType) : bool :=
  match chip with FREE_HIT | WILDCARD => true | _ => false end.

(** The upsert is keyed by squad and gameweek (an update leaves the stored
    lineup alone when there is no new one); the other unique constraint, on
    squad, season and chip, is checked against the remaining rows. *)
Definition activateChip (squadId : string) (chipType : ChipType) (gameweekId : Z)
    (requestingUserId : string) (db : SquadDb) (now1 : Z) (now2 : Z) :
    result SquadServiceError SquadDb :=
  let* squad := or_throw (map_get squadId (squads db)) SquadNotFound in
  throw_if (negb (bool_decide (sq_userId squad = requestingUserId))) SquadForbidden ;;;
  let* gameweek := or_throw (List.find (λ g, gw_id g =? gameweekId) (gameweeks db))
                     GameweekNotFound in
  throw_if (gw_isLocked gameweek) (SquadLocked (gw_deadline gameweek)) ;;;
  check_deadline (Some gameweek) now1 ;;;
  throw_if (is_active (map_get (squadId, gameweekId) (squadChipUsage db))) ChipUnavailable ;;;
  throw_if (is_active (used_this_season squadId (gw_season gameweek) chipType db))
    ChipUnavailable ;;;
  let previousLineup :=
    if restores_lineup chipType
    then Some (snapshot_of squad (map_get (squadId, gameweekId) (scoreTransferCost db)))
    else None in
  let stored := match map_get (squadId, gameweekId) (squadChipUsage db), previousLineup with
                | Some row, None => cu_previousLineup row
                | _, _ => previousLineup
                end in
  let others := List.filter (λ r, negb (bool_decide (r.1 = (squadId, gameweekId))))
                  (squadChipUsage db) in
  throw_if (existsb (same_season_chip squadId (gw_season gameweek) chipType) others)
    ChipUnavailable ;;;
  assertGameweeksOpen (gameweeks db) now2 [gameweekId] ;;;
  Ok (set_chips db (map_set (squadId, gameweekId)
    {| cu_chipType := chipType; cu_season := gw_season gameweek;
       cu_previousLineup := stored; cu_revertedAt := None; cu_cancelledAt := None |}
    (squadChipUsage db))).

Definition cancelChip (squadId : string) (gameweekId : Z) (requestingUserId : string)
    (db : SquadDb) (now : Z) : result SquadServiceError SquadDb :=
  let* squad := or_throw (map_get squadId (squads db)) SquadNotFound in
  throw_if (negb (bool_decide (sq_userId squad = requestingUserId))) SquadForbidden ;;;
  let* usage := or_throw (map_get (squadId, gameweekId) (squadChipUsage db)) ChipUnavailable in
  throw_if (negb (is_active (Some usage)) || negb (restores_lineup (cu_chipType usage)))
    ChipUnavailable ;;;
  let* snapshot := or_throw (cu_previousLineup usage) ChipUnavailable in
  match assertGameweeksOpen (gameweeks db) now [gameweekId] with
  | Err (SquadLocked _) => Err ChipCancellationLocked
  | Err e => Err e
  | Ok _ => Ok tt
  end ;;;
  let squad' :=
    {| sq_userId := sq_userId squad; sq_name := sq_name squad;
       sq_budgetRemaining := fh_budgetRemaining snapshot;
       sq_freeTransfers := fh_freeTransfers snapshot;
       sq_freeTransfersGameweekId := fh_freeTransfersGameweekId snapshot;
       sq_updatedAt := now; sq_players := fh_players snapshot |} in
  let* costs := match fh_transferCost snapshot with
                | Some cost =>
                    match map_get (squadId, gameweekId) (scoreTransferCost db) with
                    | Some _ => Ok (map_set (squadId, gameweekId) cost (scoreTransferCost db))
                    | None => Err RecordNotFound
                    end
                | None => Ok (scoreTransferCost db)
                end in
  Ok {| users := users db; players := players db; gameweeks := gameweeks db;
        squads := map_set squadId squad' (squads db);
        squadTransfer := squadTransfer db;
        squadChipUsage := map_set (squadId, gameweekId)
          {| cu_chipType := cu_chipType usage; cu_season := cu_season usage;
             cu_previousLineup := cu_previousLineup usage;
             cu_revertedAt := cu_revertedAt usage; cu_cancelledAt := Some now |}
          (squadChipUsage db);
        scoreTransferCost := costs;
        squadChipCancellation :=
          squadChipCancellation db ++ [(squadId, gameweekId, cu_chipType usage)] |}.

Definition revertFreeHit (squadId : string) (gameweekId : Z) (db : SquadDb) (now : Z) :
    bool * SquadDb :=
  match map_get (squadId, gameweekId) (squadChipUsage db) with
  | Some usage =>
      match cu_chipType usage, cu_cancelledAt usage, cu_revertedAt usage, cu_previousLineup usage,
            map_get squadId (squads db) with
      | FREE_HIT, None, None, Some snapshot, Some squad =>
          (true, set_chips (set_squads db (map_set squadId
             {| sq_userId := sq_userId squad; sq_name := sq_name squad;
                sq_budgetRemaining := fh_budgetRemaining snapshot;
                sq_freeTransfers := sq_freeTransfers squad;
                sq_freeTransfersGameweekId := sq_freeTransfersGameweekId squad;
                sq_updatedAt := now; sq_players := fh_players snapshot |} (squads db)))
             (map_set (squadId, gameweekId)
               {| cu_chipType := cu_chipType usage; cu_season := cu_season usage;
                  cu_previousLineup := cu_previousLineup usage;
                  cu_revertedAt := Some now; cu_cancelledAt := cu_cancelledAt usage |}
               (squadChipUsage db)))
      | _, _, _, _, _ => (false, db)
      end
  | None => (false, db)
  end.

(** ** Valuation *)

(** [getSquadValuation]: bank, squad value, team value. *)
Definition getSquadValuation (squadId : string) (db : SquadDb) :
    result SquadServiceError (Z * Z * Z) :=
  let* squad := or_throw (map_get squadId (squads db)) SquadNotFound in
  let bank := sq_budgetRemaining squad in
  let players := (λ x, (sp_purchasePrice x.1, pl_price x.2)) <$> with_player db (sq_players squad) in
  let teamValue := calculateTeamValue bank players in
  Ok (bank, teamValue - bank, teamValue).

(** ** Lemmas: selling prices and pairing *)

Lemma selling_price_bounds purchase current :
  Z.min purchase current ≤ calculateSellingPrice purchase current ≤ current.
Proof.
  unfold calculateSellingPrice. destruct (purchase <? current) eqn:E; bool_to_prop; [|lia].
  pose proof (Z.div_pos (current - purchase) 2).
  pose proof (Z.div_le_upper_bound (current - purchase) 2 (current - purchase)). lia.
Qed.

Lemma selling_price_same price : calculateSellingPrice price price = price.
Proof. unfold calculateSellingPrice. by rewrite Z.ltb_irrefl. Qed.

Lemma take_first_Some {A} (p : A → bool) l a rest :
  take_first p l = Some (a, rest) → p a = true ∧ l ≡ₚ a :: rest.
Proof.
  revert rest. induction l as [|b l IH]; intros rest; cbn; [done|]. destruct (p b) eqn:E.
  - by intros [= -> ->].
  - destruct (take_first p l) as [[c r]|]; [|done]. intros [= -> <-].
    destruct (IH r eq_refl) as [Ha Hl]. split; [done|]. rewrite Hl. constructor.
Qed.

Lemma take_first_None {A} (p : A → bool) l : take_first p l = None → ∀ a, a ∈ l → p a = false.
Proof.
  induction l as [|b l IH]; cbn; [by intros _ ? ?%elem_of_nil|]. destruct (p b) eqn:E; [done|].
  destruct (take_first p l) as [[c r]|]; [done|]. intros _ a [->|Ha]%elem_of_cons; auto.
Qed.

Definition posn (x : Z * Position) : Position := x.2.

(** The matched signings are distinct elements of [incoming], in position. *)
Lemma pairTransfers_Ok outgoing incoming pairs :
  pairTransfers outgoing incoming = Ok pairs →
  ∃ matched rest, incoming ≡ₚ matched ++ rest ∧ pairs = zip (outgoing.*1) (matched.*1) ∧
    posn <$> matched = posn <$> outgoing.
Proof.
  revert incoming pairs. induction outgoing as [|out outgoing IH]; intros incoming pairs; cbn.
  - intros [= <-]. by exists [], incoming.
  - destruct (take_first _ incoming) as [[found rest]|] eqn:E; cbn; [|done].
    destruct (pairTransfers outgoing rest) as [pairs'|] eqn:E'; cbn; [|done]. intros [= <-].
    apply take_first_Some in E as [Hp Hl]. apply bool_decide_eq_true in Hp.
    destruct (IH _ _ E') as (matched & r & Hr & -> & Hm). exists (found :: matched), r.
    split_and!; [by rewrite Hl, Hr|done|]. cbn. unfold posn at 1 3. by rewrite Hp, Hm.
Qed.

Lemma pairTransfers_total outgoing incoming :
  (∀ p, count_position posn p outgoing ≤ count_position posn p incoming) →
  ∃ pairs, pairTransfers outgoing incoming = Ok pairs.
Proof.
  revert incoming. induction outgoing as [|out outgoing IH]; intros incoming H; cbn; [by eexists|].
  destruct (take_first _ incoming) as [[found rest]|] eqn:E; cbn.
  - apply take_first_Some in E as [Hp Hl]. apply bool_decide_eq_true in Hp.
    destruct (IH rest) as [pairs ->]; [|by eexists]. intros p. specialize (H p).
    rewrite (count_position_perm _ _ _ _ Hl), !count_position_cons in H.
    assert (posn found = posn out) as Hpos by exact Hp. rewrite Hpos in H. lia.
  - exfalso. pose proof (take_first_None _ _ E) as Hn. specialize (H (out.2)).
    rewrite count_position_cons in H. unfold posn in H at 1. rewrite decide_True in H by done.
    pose proof (count_position_nonneg posn (out.2) outgoing).
    assert (count_position posn (out.2) incoming = 0); [|lia].
    apply countb_zero. exact Hn.
Qed.

Lemma count_zero_nil l : (∀ p, count_position posn p l = 0) → l = [].
Proof.
  destruct l as [|x l]; [done|]. intros H. specialize (H (x.2)). rewrite count_position_cons in H.
  unfold posn in H at 1. rewrite decide_True in H by done.
  pose proof (count_position_nonneg posn (x.2) l). lia.
Qed.

(** With equal numbers per position everybody is paired. *)
Lemma pairTransfers_bijective outgoing incoming :
  (∀ p, count_position posn p outgoing = count_position posn p incoming) →
  ∃ matched, incoming ≡ₚ matched ∧ length matched = length outgoing ∧
    pairTransfers outgoing incoming = Ok (zip (outgoing.*1) (matched.*1)) ∧
    posn <$> matched = posn <$> outgoing.
Proof.
  intros H. destruct (pairTransfers_total outgoing incoming) as [pairs Hp]; [intros p; by rewrite H|].
  destruct (pairTransfers_Ok _ _ _ Hp) as (matched & rest & Hr & -> & Hm).
  assert (rest = []) as ->.
  { apply count_zero_nil. intros p. pose proof (H p) as Hc.
    rewrite (count_position_perm _ _ _ _ Hr), count_position_app in Hc.
    assert (count_position posn p matched = count_position posn p outgoing) as E; [|lia].
    rewrite <- (count_position_fmap posn id posn p matched) by done.
    rewrite <- (count_position_fmap posn id posn p outgoing) by done. by rewrite Hm. }
  rewrite app_nil_r in Hr. exists matched. split_and!; try done.
  rewrite <- (length_fmap posn matched), Hm. apply length_fmap.
Qed.

Lemma transfer_costs_total n available :
  sumZ (calculateTransferCosts n available)
  = TRANSFER_POINTS_COST * Z.max 0 (Z.of_nat n - Z.max 0 available).
Proof.
  unfold calculateTransferCosts. induction n as [|n IH]; [cbn; lia|].
  rewrite seq_S, fmap_app, sumZ_app, IH. cbn [fmap list_fmap sumZ].
  replace (0 + n)%nat with n by lia. unfold TRANSFER_POINTS_COST.
  destruct (_ <? _) eqn:E; bool_to_prop; lia.
Qed.

Lemma roll_free_transfers_bounds saved elapsed :
  0 ≤ saved ≤ MAX_FREE_TRANSFERS →
  saved ≤ rollFreeTransfers saved elapsed ≤ MAX_FREE_TRANSFERS.
Proof. unfold rollFreeTransfers, MAX_FREE_TRANSFERS, FREE_TRANSFERS_PER_GAMEWEEK. lia. Qed.

(** ** The database invariant *)

Definition positions_complete (db : SquadDb) (rows : list SquadPlayer) : Prop :=
  ∀ p, count_position (λ x, pl_position x.2) p (with_player db rows) = at_position POSITION_COUNTS p.

Record squad_row_ok (db : SquadDb) (sq : Squad) : Prop := {
  sr_nodup : NoDup (sp_playerId <$> sq_players sq);
  sr_known : ∀ sp, sp ∈ sq_players sq → is_Some (find_player db (sp_playerId sp));
  sr_positions : positions_complete db (sq_players sq)
}.

Record db_ok (db : SquadDb) : Prop := {
  ok_players : NoDup (pl_id <$> players db);
  ok_squads : ∀ id sq, map_get id (squads db) = Some sq → squad_row_ok db sq
}.

(** ** Lemmas: the queries *)

Lemma list_find_Some {A} (p : A → bool) l a : List.find p l = Some a → a ∈ l ∧ p a = true.
Proof. intros H. apply List.find_some in H as [H1 H2]. split; [by apply list_elem_of_In|done]. Qed.

Lemma find_player_Some db id p : find_player db id = Some p → p ∈ players db ∧ pl_id p = id.
Proof. intros [H1 H2]%list_find_Some. bool_to_prop. done. Qed.

Lemma find_player_elem db p :
  NoDup (pl_id <$> players db) → p ∈ players db → find_player db (pl_id p) = Some p.
Proof.
  unfold find_player. generalize (players db). intros l. induction l as [|q l IH]; cbn.
  - by intros _ ?%elem_of_nil.
  - intros [Hq Hl]%list.NoDup_cons [->|Hp]%elem_of_cons; [by rewrite Z.eqb_refl|].
    rewrite (proj2 (Z.eqb_neq _ _)); [by apply IH|]. intros E. apply Hq. rewrite E.
    apply list_elem_of_fmap. by exists p.
Qed.

Lemma with_player_fst db rows :
  (∀ sp, sp ∈ rows → is_Some (find_player db (sp_playerId sp))) → (with_player db rows).*1 = rows.
Proof.
  unfold with_player. induction rows as [|sp rows IH]; intros H; [done|]. cbn.
  destruct (H sp) as [p Hp]; [by left|]. rewrite Hp. cbn. f_equal. apply IH.
  intros. apply H. by right.
Qed.

Lemma elem_of_with_player db rows x :
  x ∈ with_player db rows ↔ x.1 ∈ rows ∧ find_player db (sp_playerId x.1) = Some x.2.
Proof.
  unfold with_player. rewrite list_elem_of_omap. split.
  - intros (sp & Hsp & (p & Hp & ->)%fmap_Some). done.
  - intros [H1 H2]. exists (x.1). split; [done|]. rewrite H2. by destruct x.
Qed.

(** ** Lemmas: valuation *)

Definition row_value (x : SquadPlayer * Player) : Z :=
  calculateSellingPrice (sp_purchasePrice x.1) (pl_price x.2).

(** What the owned players would sell for. *)
Definition own_value (db : SquadDb) (rows : list SquadPlayer) : Z :=
  sum_of row_value (with_player db rows).

Lemma foldl_sum {A} (f : A → Z) acc l : foldl (λ s x, s + f x) acc l = acc + sum_of f l.
Proof.
  revert acc. induction l as [|x l IH]; intros acc; cbn; [unfold sum_of; cbn; lia|].
  rewrite IH, sum_of_cons. lia.
Qed.

Lemma team_value_own db bank rows :
  calculateTeamValue bank
    ((λ x, (sp_purchasePrice x.1, pl_price x.2)) <$> with_player db rows)
  = bank + own_value db rows.
Proof.
  unfold calculateTeamValue. rewrite foldl_sum, sum_of_fmap, Z.add_0_l. done.
Qed.

Section update.
Context (db : SquadDb) (sq : Squad).
Context (Hplayers : NoDup (pl_id <$> players db)) (Hsq : squad_row_ok db sq).

Let rows := sq_players sq.
Let joined := with_player db rows.
Let sellPrices := sell_prices joined.

Lemma joined_ids : sp_playerId ∘ fst <$> joined = sp_playerId <$> rows.
Proof.
  unfold joined. rewrite list_fmap_compose. by rewrite with_player_fst by apply Hsq.
Qed.

Lemma sell_prices_entries : sellPrices = (λ x, (sp_playerId x.1, row_value x)) <$> joined.
Proof.
  unfold sellPrices, sell_prices. rewrite (map_of_entries (sp_playerId ∘ fst) row_value); [done|].
  cbn [fmap list_fmap app]. rewrite joined_ids. apply Hsq.
Qed.

Lemma sell_prices_get x : x ∈ joined → map_get (sp_playerId x.1) sellPrices = Some (row_value x).
Proof.
  intros Hx. apply map_get_NoDup.
  - rewrite sell_prices_entries, <- list_fmap_compose.
    change (fst ∘ (λ x, (sp_playerId x.1, row_value x))) with (sp_playerId ∘ @fst SquadPlayer Player).
    rewrite joined_ids. apply Hsq.
  - rewrite sell_prices_entries. apply list_elem_of_fmap. by exists x.
Qed.

Lemma available_funds_eq : available_funds sq sellPrices = sq_budgetRemaining sq + own_value db rows.
Proof.
  unfold available_funds. f_equal.
  etrans; [exact (foldl_sum id 0 (map_values sellPrices))|]. rewrite Z.add_0_l, sell_prices_entries.
  unfold map_values. rewrite <- list_fmap_compose, sum_of_fmap. unfold own_value. done.
Qed.

(** The value at which the validator counts a player. *)
Definition value_of (id : Z) : Z :=
  default 0 ((λ p, pv_price (price_for_validation rows sellPrices p)) <$> find_player db id).

Lemma value_of_owned x : x ∈ joined → value_of (sp_playerId x.1) = row_value x.
Proof.
  intros Hx. pose proof Hx as [Hr Hf]%elem_of_with_player. unfold value_of. rewrite Hf.
  cbn. unfold is_owned. apply find_player_Some in Hf as [_ Hid]. rewrite Hid.
  rewrite bool_decide_true by (apply list_elem_of_fmap; by exists (x.1)).
  by rewrite sell_prices_get.
Qed.

Lemma value_of_new id p :
  find_player db id = Some p → id ∉ sp_playerId <$> rows → value_of id = pl_price p.
Proof.
  intros Hf Hn. unfold value_of. rewrite Hf. cbn. unfold is_owned.
  apply find_player_Some in Hf as [_ Hid]. rewrite Hid. by rewrite bool_decide_false.
Qed.

(** The player map of the validator is the player table restricted to the
    selection. *)
Lemma validation_map_get ids id :
  map_get id (player_map (price_for_validation rows sellPrices <$> find_players db ids))
  = if bool_decide (id ∈ ids) then price_for_validation rows sellPrices <$> find_player db id
    else None.
Proof.
  assert (NoDup (pv_id <$> (price_for_validation rows sellPrices <$> find_players db ids))) as Hn.
  { rewrite <- list_fmap_compose. by apply (NoDup_fmap_lfilter pl_id). }
  unfold player_map. rewrite (map_of_entries pv_id (λ p, p)) by done. cbn [app].
  case_bool_decide as Hid.
  - destruct (find_player db id) as [p|] eqn:E; cbn.
    + pose proof (find_player_Some _ _ _ E) as [Hp Hpid]. apply map_get_NoDup.
      * by rewrite <- list_fmap_compose.
      * apply list_elem_of_fmap. exists (price_for_validation rows sellPrices p).
        split; [by rewrite <- Hpid|]. apply list_elem_of_fmap. exists p. split; [done|].
        apply elem_of_lfilter. split; [done|]. apply bool_decide_eq_true. by rewrite Hpid.
    + apply map_get_None. intros (q & Hq & Hin)%list_elem_of_fmap.
      apply list_elem_of_fmap in Hin as (v & -> & (p & -> & [Hp _]%elem_of_lfilter)%list_elem_of_fmap).
      cbn in Hq. subst id. by rewrite find_player_elem in E.
  - apply map_get_None. intros (q & Hq & Hin)%list_elem_of_fmap.
    apply list_elem_of_fmap in Hin as (v & -> & (p & -> & [_ Hp]%elem_of_lfilter)%list_elem_of_fmap).
    cbn in Hq. subst id. by apply bool_decide_eq_true in Hp.
Qed.

Lemma lookup_all_value sels :
  (∀ s, s ∈ sels → is_Some (map_get (sel_playerId s)
    (player_map (price_for_validation rows sellPrices <$> find_players db (sel_playerId <$> sels))))) →
  sum_of pv_price (lookup_all (player_map (price_for_validation rows sellPrices <$>
    find_players db (sel_playerId <$> sels))) sels)
  = sum_of value_of (sel_playerId <$> sels) ∧
  (∀ s, s ∈ sels → is_Some (find_player db (sel_playerId s))) ∧
  ∀ p, count_position pv_position p (lookup_all (player_map (price_for_validation rows sellPrices <$>
    find_players db (sel_playerId <$> sels))) sels)
  = count_position pl_position p (omap (find_player db) (sel_playerId <$> sels)).
Proof.
  generalize (sel_playerId <$> sels) at 1 2 4 as ids. intros ids. setoid_rewrite validation_map_get.
  set (m := player_map _).
  assert (∀ id, map_get id m = if bool_decide (id ∈ ids) then
    price_for_validation rows sellPrices <$> find_player db id else None) as Hm
    by apply validation_map_get.
  induction sels as [|s sels IH]; intros Hk; [split_and!; [done|by intros ? ?%elem_of_nil|done]|].
  destruct IH as (IH1 & IH2 & IH3); [intros; apply Hk; by right|].
  destruct (Hk s) as [v Hv]; [by left|]. unfold lookup_all. cbn [omap list_omap].
  rewrite Hm, Hv. fold (lookup_all m sels).
  destruct (bool_decide (sel_playerId s ∈ ids)); [|done].
  destruct (find_player db (sel_playerId s)) as [p|] eqn:Ep; [|done]. cbn in Hv.
  injection Hv as <-. split_and!.
  - cbn [fmap list_fmap]. rewrite !sum_of_cons, IH1. f_equal. unfold value_of. by rewrite Ep.
  - intros s' [->|Hs']%elem_of_cons; [by rewrite Ep|by apply IH2].
  - intros q. cbn [fmap list_fmap omap list_omap]. rewrite Ep. rewrite !count_position_cons, IH3.
    done.
Qed.

(** The lookups of a list of ids, and what they are worth. *)
Definition ids_count (p : Position) (ids : list Z) : Z :=
  count_position pl_position p (omap (find_player db) ids).

Lemma ids_count_app p l1 l2 : ids_count p (l1 ++ l2) = ids_count p l1 + ids_count p l2.
Proof. unfold ids_count. by rewrite omap_app, count_position_app. Qed.

Lemma ids_count_perm p l1 l2 : l1 ≡ₚ l2 → ids_count p l1 = ids_count p l2.
Proof. intros H. by apply count_position_perm, omap_perm. Qed.

Lemma with_player_count p rs :
  count_position (λ x, pl_position x.2) p (with_player db rs) = ids_count p (sp_playerId <$> rs).
Proof.
  unfold ids_count, with_player. induction rs as [|sp rs IH]; [done|]. cbn [fmap list_fmap omap list_omap].
  destruct (find_player db (sp_playerId sp)) as [q|]; cbn [fmap option_fmap option_map];
    [rewrite !count_position_cons; by rewrite IH|done].
Qed.

Lemma own_value_ids rs :
  (∀ sp, sp ∈ rs → ∃ p, find_player db (sp_playerId sp) = Some p ∧
    row_value (sp, p) = value_of (sp_playerId sp)) →
  own_value db rs = sum_of value_of (sp_playerId <$> rs).
Proof.
  unfold own_value, with_player. induction rs as [|sp rs IH]; intros H; [done|].
  destruct (H sp) as (p & Hp & Hv); [by left|]. cbn [fmap list_fmap omap list_omap].
  rewrite Hp. cbn [fmap option_fmap option_map]. rewrite !sum_of_cons, Hv. f_equal.
  apply IH. intros. apply H. by right.
Qed.

Lemma own_value_rows : own_value db rows = sum_of value_of (sp_playerId <$> rows).
Proof.
  apply own_value_ids. intros sp Hsp. destruct (sr_known _ _ Hsq sp Hsp) as [p Hp].
  exists p. split; [done|]. rewrite <- (value_of_owned (sp, p)); [done|].
  by apply elem_of_with_player.
Qed.

(** ** Lemmas: the rows written *)

Definition row_selection (sp : SquadPlayer) : SquadPlayerSelection :=
  {| sel_playerId := sp_playerId sp; sel_isStarter := sp_isStarter sp;
     sel_isCaptain := sp_isCaptain sp; sel_isViceCaptain := sp_isViceCaptain sp;
     sel_positionOrder := sp_positionOrder sp |}.

Definition apply_all (sels : list SquadPlayerSelection) (sp : SquadPlayer) : SquadPlayer :=
  foldl (λ sp sel, apply_selection sel sp) sp sels.

Lemma foldl_apply (rs : list SquadPlayer) sels :
  foldl (λ rs sel, apply_selection sel <$> rs) rs sels = apply_all sels <$> rs.
Proof.
  revert rs. induction sels as [|s sels IH]; intros rs; cbn; [by rewrite list_fmap_id|].
  rewrite IH, <- list_fmap_compose. done.
Qed.

Lemma apply_all_id sels sp :
  sp_playerId (apply_all sels sp) = sp_playerId sp ∧
  sp_purchasePrice (apply_all sels sp) = sp_purchasePrice sp.
Proof.
  revert sp. induction sels as [|s sels IH]; intros sp; [done|].
  change (apply_all (s :: sels) sp) with (apply_all sels (apply_selection s sp)).
  destruct (IH (apply_selection s sp)) as [-> ->]. unfold apply_selection. by destruct (_ =? _).
Qed.

Lemma apply_all_notin sels sp :
  sp_playerId sp ∉ sel_playerId <$> sels → apply_all sels sp = sp.
Proof.
  revert sp. induction sels as [|s sels IH]; intros sp; [done|].
  intros [H1 H2]%not_elem_of_cons. change (apply_all (s :: sels) sp) with (apply_all sels (apply_selection s sp)).
  assert (apply_selection s sp = sp) as ->; [|by apply IH].
  unfold apply_selection. by rewrite (proj2 (Z.eqb_neq _ _)).
Qed.

Lemma apply_all_in sels sp sel :
  NoDup (sel_playerId <$> sels) → sel ∈ sels → sp_playerId sp = sel_playerId sel →
  row_selection (apply_all sels sp) = sel.
Proof.
  revert sp. induction sels as [|s sels IH]; intros sp; [by intros _ ?%elem_of_nil|].
  intros [H1 H2]%list.NoDup_cons [->|Hs]%elem_of_cons Hid;
    change (apply_all (s :: sels) sp) with (apply_all sels (apply_selection s sp)).
  - unfold apply_selection. rewrite Hid, Z.eqb_refl. rewrite apply_all_notin; [|done].
    destruct s; cbn in *. by rewrite <- Hid.
  - apply IH; [done|done|]. unfold apply_selection. rewrite <- Hid. by destruct (_ =? _).
Qed.

Lemma row_selection_new (sels : list SquadPlayerSelection) : row_selection <$> (new_row db <$> sels) = sels.
Proof. induction sels as [|[] sels IH]; [done|]. cbn. by f_equal. Qed.

Section rows.
Context (sels : list SquadPlayerSelection) (outgoing : list (Z * Position)).
Context (Hsels : NoDup (sel_playerId <$> sels)).
Context (Hout : ∀ sp, sp ∈ rows → sp_playerId sp ∈ outgoing.*1 ↔ sp_playerId sp ∉ sel_playerId <$> sels).

Let remaining := List.filter (λ sp, negb (bool_decide (sp_playerId sp ∈ outgoing.*1))) rows.
Let owned_sels := List.filter (λ sel, is_owned rows (sel_playerId sel)) sels.

Lemma elem_of_remaining sp :
  sp ∈ remaining ↔ sp ∈ rows ∧ sp_playerId sp ∈ sel_playerId <$> sels.
Proof.
  unfold remaining. rewrite elem_of_lfilter, negb_true_iff, bool_decide_eq_false.
  split; intros [H1 H2]; (split; [done|]); rewrite Hout in * by done; [|tauto].
  by destruct (decide (sp_playerId sp ∈ sel_playerId <$> sels)).
Qed.

Lemma elem_of_owned_sels sel :
  sel ∈ owned_sels ↔ sel ∈ sels ∧ sel_playerId sel ∈ sp_playerId <$> rows.
Proof. unfold owned_sels, is_owned. by rewrite elem_of_lfilter, bool_decide_eq_true. Qed.

Lemma kept_selection : row_selection <$> (apply_all owned_sels <$> remaining) ≡ₚ owned_sels.
Proof.
  assert (NoDup (sel_playerId <$> owned_sels)) as Hn by by apply NoDup_fmap_lfilter.
  assert (∀ sp sel, sp ∈ rows → sel ∈ sels → sp_playerId sp = sel_playerId sel →
    sel ∈ owned_sels ∧ row_selection (apply_all owned_sels sp) = sel) as Ha.
  { intros sp sel Hsp Hsel Hid. assert (sel ∈ owned_sels) as Hin.
    { apply elem_of_owned_sels. split; [done|]. rewrite <- Hid. apply list_elem_of_fmap.
      by exists sp. }
    split; [done|]. by apply apply_all_in. }
  apply NoDup_Permutation.
  - apply (NoDup_fmap_1 sel_playerId). rewrite <- !list_fmap_compose.
    erewrite list_fmap_ext; [apply (NoDup_fmap_lfilter sp_playerId), Hsq|].
    intros i sp _. cbn. apply apply_all_id.
  - by apply NoDup_fmap_1 in Hn.
  - intros sel. rewrite <- list_fmap_compose, list_elem_of_fmap. split.
    + intros (sp & -> & [Hsp (s & Hid & Hs)%list_elem_of_fmap]%elem_of_remaining).
      destruct (Ha sp s Hsp Hs Hid) as [? E]. cbn. by rewrite E.
    + intros [Hs (sp & Hid & Hsp)%list_elem_of_fmap]%elem_of_owned_sels. exists sp.
      destruct (Ha sp sel Hsp Hs) as [_ E]; [done|]. split; [by cbn|].
      apply elem_of_remaining. split; [done|]. rewrite <- Hid. apply list_elem_of_fmap. by exists sel.
Qed.

Lemma update_rows_selection : row_selection <$> update_rows db rows outgoing sels ≡ₚ sels.
Proof.
  unfold update_rows. fold remaining. fold owned_sels. rewrite fmap_app, foldl_apply.
  rewrite kept_selection, row_selection_new. apply lfilter_split.
Qed.

Lemma update_rows_ids : sp_playerId <$> update_rows db rows outgoing sels ≡ₚ sel_playerId <$> sels.
Proof.
  pose proof (fmap_Permutation sel_playerId _ _ update_rows_selection) as H.
  by rewrite <- list_fmap_compose in H.
Qed.

(** Kept rows keep their purchase price, new ones have the current price. *)
Lemma update_rows_price sp' :
  sp' ∈ update_rows db rows outgoing sels →
  (∃ sp, sp ∈ rows ∧ sp_playerId sp' = sp_playerId sp ∧ sp_purchasePrice sp' = sp_purchasePrice sp) ∨
  (sp_playerId sp' ∉ sp_playerId <$> rows ∧
     sp_purchasePrice sp' = default 0 (pl_price <$> find_player db (sp_playerId sp'))).
Proof.
  unfold update_rows. fold remaining. fold owned_sels. rewrite foldl_apply.
  rewrite elem_of_app, !list_elem_of_fmap. intros [(sp & -> & [Hsp _]%elem_of_remaining)|(s & -> & Hs)].
  - left. exists sp. split; [done|]. apply apply_all_id.
  - right. apply elem_of_lfilter in Hs as [_ Hs]. apply negb_true_iff, bool_decide_eq_false in Hs.
    rewrite list_elem_of_fmap in Hs. by split.
Qed.

End rows.

End update.

(** ** Lemmas: the transaction *)

Lemma outgoing_ids db rows newIds :
  (∀ sp, sp ∈ rows → is_Some (find_player db (sp_playerId sp))) →
  (outgoing_players (with_player db rows) newIds).*1
  = List.filter (λ id, negb (bool_decide (id ∈ newIds))) (sp_playerId <$> rows).
Proof.
  intros H. unfold outgoing_players. rewrite <- list_fmap_compose.
  rewrite (lfilter_fmap sp_playerId _ (λ sp, negb (bool_decide (sp_playerId sp ∈ newIds)))) by done.
  rewrite <- (with_player_fst db rows H) at 2.
  rewrite (lfilter_fmap fst _ (λ x, negb (bool_decide (sp_playerId x.1 ∈ newIds)))) by done.
  by rewrite <- list_fmap_compose.
Qed.

Section transfers.
Context (db : SquadDb) (sq : Squad) (sels : list SquadPlayerSelection).
Context (Hplayers : NoDup (pl_id <$> players db)) (Hsq : squad_row_ok db sq).
Context (Hsels : NoDup (sel_playerId <$> sels)).
Context (Hknown : ∀ s, s ∈ sels → is_Some (find_player db (sel_playerId s))).

Let rows := sq_players sq.
Let newIds := sel_playerId <$> sels.
Let ownedIds := sp_playerId <$> rows.
Let outgoing := outgoing_players (with_player db rows) newIds.
Let incoming := incoming_players rows (find_players db newIds).

Definition outgoingIds : list Z := List.filter (λ id, negb (bool_decide (id ∈ newIds))) ownedIds.
Definition incomingIds : list Z := List.filter (λ id, negb (bool_decide (id ∈ ownedIds))) newIds.
Definition keptIds : list Z := List.filter (λ id, bool_decide (id ∈ newIds)) ownedIds.

Lemma owned_split : ownedIds ≡ₚ keptIds ++ outgoingIds.
Proof. symmetry. apply lfilter_split. Qed.

Lemma new_split : newIds ≡ₚ keptIds ++ incomingIds.
Proof.
  assert (keptIds ≡ₚ List.filter (λ id, bool_decide (id ∈ ownedIds)) newIds) as ->.
  { apply NoDup_Permutation; [apply NoDup_lfilter, Hsq|by apply NoDup_lfilter|].
    intros id. unfold keptIds. rewrite !elem_of_lfilter, !bool_decide_eq_true. tauto. }
  symmetry. apply lfilter_split.
Qed.

Lemma known_new id : id ∈ newIds → is_Some (find_player db id).
Proof. intros (s & -> & Hs)%list_elem_of_fmap. by apply Hknown. Qed.

Lemma outgoing_fst : outgoing.*1 = outgoingIds.
Proof. apply outgoing_ids. apply Hsq. Qed.

Lemma outgoing_count p : count_position posn p outgoing = ids_count db p outgoingIds.
Proof.
  unfold outgoing, outgoing_players.
  rewrite (count_position_fmap _ posn (λ x, pl_position x.2)) by done.
  set (rs := List.filter (λ sp, negb (bool_decide (sp_playerId sp ∈ newIds))) rows).
  assert (outgoingIds = sp_playerId <$> rs) as ->.
  { unfold outgoingIds, rs, ownedIds. by rewrite (lfilter_fmap sp_playerId _
      (λ sp, negb (bool_decide (sp_playerId sp ∈ newIds)))). }
  rewrite <- with_player_count. f_equal. symmetry. unfold with_player.
  apply omap_filter. intros sp x _ (q & _ & ->)%fmap_Some. done.
Qed.

Lemma incoming_ids : incoming.*1 ≡ₚ incomingIds.
Proof.
  unfold incoming, incoming_players, is_owned. rewrite <- list_fmap_compose.
  change (fst ∘ (λ p, (pl_id p, pl_position p))) with pl_id.
  apply NoDup_Permutation.
  - by apply (NoDup_fmap_lfilter pl_id), (NoDup_fmap_lfilter pl_id).
  - by apply NoDup_lfilter.
  - intros id. rewrite list_elem_of_fmap. unfold incomingIds. rewrite elem_of_lfilter.
    setoid_rewrite elem_of_lfilter. unfold find_players. setoid_rewrite elem_of_lfilter. split.
    + intros (p & -> & [Hp Hin%bool_decide_eq_true] & Ho). done.
    + intros [Hid Ho]. destruct (known_new id Hid) as [p Hp].
      apply find_player_Some in Hp as [Hp <-]. exists p. split_and!; try done.
      by apply bool_decide_eq_true.
Qed.

Lemma incoming_count p : count_position posn p incoming = ids_count db p incomingIds.
Proof.
  rewrite <- (ids_count_perm _ _ _ _ incoming_ids). unfold ids_count.
  assert (omap (find_player db) incoming.*1
    = List.filter (λ p, negb (is_owned rows (pl_id p))) (find_players db newIds)) as ->.
  { unfold incoming, incoming_players. rewrite <- list_fmap_compose.
    change (fst ∘ (λ p, (pl_id p, pl_position p))) with pl_id.
    set (l := List.filter _ _).
    assert (∀ q, q ∈ l → q ∈ players db) as Hl.
    { intros q [[Hq _]%elem_of_lfilter _]%elem_of_lfilter. done. }
    clearbody l. induction l as [|q l IH]; [done|]. cbn [fmap list_fmap omap list_omap].
    rewrite find_player_elem by (done || apply Hl; by left). f_equal. apply IH.
    intros. apply Hl. by right. }
  apply (count_position_fmap (λ p, (pl_id p, pl_position p)) posn pl_position). done.
Qed.

(** A legal squad turned into a legal squad sells and buys equally per position. *)
Lemma transfers_balanced :
  (∀ p, ids_count db p newIds = at_position POSITION_COUNTS p) →
  ∀ p, count_position posn p outgoing = count_position posn p incoming.
Proof.
  intros Hnew p. rewrite outgoing_count, incoming_count.
  pose proof (sr_positions _ _ Hsq p) as Hold. rewrite with_player_count in Hold.
  specialize (Hnew p). rewrite (ids_count_perm _ _ _ _ new_split), ids_count_app in Hnew.
  fold rows ownedIds in Hold. rewrite (ids_count_perm _ _ _ _ owned_split), ids_count_app in Hold.
  lia.
Qed.

End transfers.

(** Everything an accepted update did. *)
Record update_effect (db db' : SquadDb) (squadId : string) (sels : list SquadPlayerSelection)
    (sq sq' : Squad) (outgoing : list (Z * Position)) (pairs : list (Z * Z))
    (charge : option (Z * list Z * Z)) : Prop := {
  ue_old : map_get squadId (squads db) = Some sq;
  ue_new : squads db' = map_set squadId sq' (squads db);
  ue_players : players db' = players db;
  ue_outgoing : outgoing
    = outgoing_players (with_player db (sq_players sq)) (sel_playerId <$> sels);
  ue_pairs : pairTransfers outgoing
    (incoming_players (sq_players sq) (find_players db (sel_playerId <$> sels))) = Ok pairs;
  ue_charge : charge_transfers sq (gameweeks db) (next_unfinished (gameweeks db)) (length pairs)
    = Ok charge;
  ue_rows : sq_players sq' = update_rows db (sq_players sq) outgoing sels;
  ue_valid : squad_ok sels (player_map (price_for_validation (sq_players sq)
      (sell_prices (with_player db (sq_players sq))) <$> find_players db (sel_playerId <$> sels)))
    (available_funds sq (sell_prices (with_player db (sq_players sq))));
  ue_budget : sq_budgetRemaining sq'
    = available_funds sq (sell_prices (with_player db (sq_players sq)))
      - sum_of pv_price (lookup_all (player_map (price_for_validation (sq_players sq)
          (sell_prices (with_player db (sq_players sq)))
          <$> find_players db (sel_playerId <$> sels))) sels);
  ue_audit : squadTransfer db' = squadTransfer db ++ match charge with
    | Some (gw, costs, _) => transfer_rows db squadId gw
        (sell_prices (with_player db (sq_players sq))) pairs costs
    | None => [] end;
  ue_free : (sq_freeTransfers sq', sq_freeTransfersGameweekId sq') = match charge with
    | Some (gw, _, rest) => (rest, Some gw)
    | None => (sq_freeTransfers sq, sq_freeTransfersGameweekId sq) end
}.

Lemma lift_validation_ok {A} (r : result (list SquadError) A) a :
  lift_validation r = Ok a → r = Ok a.
Proof. by destruct r; [intros [= ->]|]. Qed.

Lemma update_effects squadId input name sels current db now1 gws_end now2 db' :
  update_transaction squadId input name sels current db now1 gws_end now2 = Ok db' →
  ∃ sq sq' outgoing pairs charge,
    update_effect db db' squadId sels sq sq' outgoing pairs charge ∧
    locked_gameweek gws_end = None ∧
    assertGameweeksOpen gws_end now2
      (omap (fmap gw_id) [current; next_unfinished (gameweeks db)]) = Ok tt.
Proof.
  unfold update_transaction. intros H.
  destruct (map_get squadId (squads db)) as [sq|] eqn:Esq; [|done]. cbn [or_throw rbind] in H.
  destruct (check_revision _ _); [|done]. cbn [rbind] in H.
  set (governing := next_unfinished (gameweeks db)) in *.
  destruct (match governing with Some gw => _ | None => _ end); [|done]. cbn [rbind] in H.
  destruct (lift_validation _) as [v|] eqn:Ev; [|done]. apply lift_validation_ok in Ev.
  cbn [rbind] in H.
  destruct (pairTransfers _ _) as [pairs|] eqn:Ep; [|done]. cbn [rbind] in H.
  destruct (charge_transfers _ _ _ _) as [charge|] eqn:Ec; [|done]. cbn [rbind] in H.
  destruct (locked_gameweek gws_end) eqn:El; [done|]. cbn [rbind] in H.
  destruct (assertGameweeksOpen _ _ _) as [[]|] eqn:Ea; [|done]. cbn [rbind] in H.
  injection H as <-. eexists sq, _, _, pairs, charge. split; [|done].
  econstructor; cbn [squads players squadTransfer]; try done.
  - apply validate_ok_iff. by rewrite Ev.
  - cbn [sq_budgetRemaining]. f_equal.
    unfold validateSquad in Ev. inv_ok.
    destruct (List.filter sel_isCaptain sels), (List.filter sel_isViceCaptain sels); try done.
    inv_ok. by subst v.
  - cbn [sq_freeTransfers sq_freeTransfersGameweekId]. by destruct charge as [[[??]?]|].
Qed.

Section effects.
Context (db db' : SquadDb) (squadId : string) (sels : list SquadPlayerSelection) (sq sq' : Squad).
Context (outgoing : list (Z * Position)) (pairs : list (Z * Z)) (charge : option (Z * list Z * Z)).
Context (Hdb : db_ok db) (E : update_effect db db' squadId sels sq sq' outgoing pairs charge).

Let rows := sq_players sq.
Let newIds := sel_playerId <$> sels.

Lemma effect_squad : squad_row_ok db sq.
Proof. eapply ok_squads; [done|apply E]. Qed.

Lemma effect_nodup : NoDup newIds.
Proof. apply (ue_valid _ _ _ _ _ _ _ _ _ E). Qed.

Lemma effect_lookups :
  sum_of pv_price (lookup_all (player_map (price_for_validation rows
    (sell_prices (with_player db rows)) <$> find_players db newIds)) sels)
  = sum_of (value_of db sq) newIds ∧
  (∀ s, s ∈ sels → is_Some (find_player db (sel_playerId s))) ∧
  ∀ p, ids_count db p newIds = at_position POSITION_COUNTS p.
Proof.
  pose proof (ue_valid _ _ _ _ _ _ _ _ _ E) as V.
  destruct (lookup_all_value db sq (ok_players _ Hdb) sels (so_known _ _ _ V)) as (H1 & H2 & H3).
  split_and!; [exact H1|exact H2|]. intros p. rewrite <- (so_positions _ _ _ V p). symmetry. apply H3.
Qed.

Lemma effect_outgoing sp :
  sp ∈ rows → sp_playerId sp ∈ outgoing.*1 ↔ sp_playerId sp ∉ newIds.
Proof.
  intros Hsp. rewrite (ue_outgoing _ _ _ _ _ _ _ _ _ E), outgoing_ids by apply effect_squad.
  rewrite elem_of_lfilter, negb_true_iff, bool_decide_eq_false. split; [tauto|].
  intros Hn. split; [|done]. apply list_elem_of_fmap. by exists sp.
Qed.

Lemma effect_lineup : row_selection <$> sq_players sq' ≡ₚ sels.
Proof.
  rewrite (ue_rows _ _ _ _ _ _ _ _ _ E).
  apply update_rows_selection; [apply effect_squad|apply effect_nodup|apply effect_outgoing].
Qed.

Lemma effect_ids : sp_playerId <$> sq_players sq' ≡ₚ newIds.
Proof.
  rewrite (ue_rows _ _ _ _ _ _ _ _ _ E).
  apply update_rows_ids; [apply effect_squad|apply effect_nodup|apply effect_outgoing].
Qed.

Lemma effect_prices sp' :
  sp' ∈ sq_players sq' →
  (∃ sp, sp ∈ rows ∧ sp_playerId sp' = sp_playerId sp ∧ sp_purchasePrice sp' = sp_purchasePrice sp) ∨
  (sp_playerId sp' ∉ sp_playerId <$> rows ∧
     sp_purchasePrice sp' = default 0 (pl_price <$> find_player db (sp_playerId sp'))).
Proof.
  rewrite (ue_rows _ _ _ _ _ _ _ _ _ E). apply update_rows_price, effect_outgoing.
Qed.

Lemma effect_known sp' : sp' ∈ sq_players sq' → is_Some (find_player db (sp_playerId sp')).
Proof.
  intros H. assert (sp_playerId sp' ∈ newIds) as (s & -> & Hs)%list_elem_of_fmap.
  { rewrite <- effect_ids. apply list_elem_of_fmap. by exists sp'. }
  by apply effect_lookups.
Qed.

Lemma effect_own_value : own_value db (sq_players sq') = sum_of (value_of db sq) newIds.
Proof.
  rewrite <- (sum_of_perm _ _ _ effect_ids). apply own_value_ids. intros sp' Hsp'.
  destruct (effect_known _ Hsp') as [p Hp]. exists p. split; [done|].
  destruct (effect_prices _ Hsp') as [(sp & Hsp & Hid & Hprice)|[Hn Hprice]]; unfold row_value; cbn.
  - pose proof (value_of_owned db sq effect_squad (sp, p)) as Ho. unfold row_value in Ho. cbn in Ho.
    rewrite Hid, Ho; [by rewrite Hprice|]. apply elem_of_with_player. cbn. by rewrite <- Hid.
  - rewrite Hprice, Hp. cbn. by rewrite selling_price_same, (value_of_new db sq _ p).
Qed.

Lemma effect_squad' : squad_row_ok db' sq'.
Proof.
  assert (∀ id, find_player db' id = find_player db id) as Hf.
  { intros id. unfold find_player. by rewrite (ue_players _ _ _ _ _ _ _ _ _ E). }
  constructor.
  - rewrite effect_ids. apply effect_nodup.
  - intros sp. rewrite Hf. apply effect_known.
  - intros p. rewrite with_player_count. unfold ids_count.
    rewrite <- (proj2 (proj2 effect_lookups) p). rewrite <- (ids_count_perm _ _ _ _ effect_ids).
    unfold ids_count. f_equal. apply list_omap_ext, Forall_Forall2_diag, Forall_true. intros. apply Hf.
Qed.

Lemma effect_db : db_ok db'.
Proof.
  constructor.
  - rewrite (ue_players _ _ _ _ _ _ _ _ _ E). apply Hdb.
  - intros id s. rewrite (ue_new _ _ _ _ _ _ _ _ _ E), map_get_set. case_decide.
    + intros [= <-]. apply effect_squad'.
    + intros H'%(ok_squads _ Hdb). destruct H'.
      assert (∀ id, find_player db' id = find_player db id) as Hf.
      { intros i. unfold find_player. by rewrite (ue_players _ _ _ _ _ _ _ _ _ E). }
      constructor; [done|intros; rewrite Hf; auto|]. intros p. rewrite with_player_count.
      rewrite <- sr_positions0, with_player_count. unfold ids_count. f_equal.
      apply list_omap_ext, Forall_Forall2_diag, Forall_true. intros. apply Hf.
Qed.

End effects.

(** ** Lemmas: the audit rows *)

Section audit.
Context (db : SquadDb) (squadId : string) (gw : Z) (sellPrices : list (Z * Z)).
Context (outs ins : list Z) (costs : list Z).
Context (Hlen : length outs = length ins) (Hcosts : length costs = length outs).

Let audit := transfer_rows db squadId gw sellPrices (zip outs ins) costs.

Lemma audit_zip : audit = (λ tc, {| tr_squadId := squadId; tr_gameweekId := gw;
    tr_playerInId := tc.1.2; tr_playerOutId := tc.1.1;
    tr_inPrice := default 0 (pl_price <$> find_player db tc.1.2);
    tr_outPrice := default 0 (map_get tc.1.1 sellPrices); tr_pointsCost := tc.2 |})
  <$> zip (zip outs ins) costs.
Proof. unfold audit, transfer_rows. rewrite zip_with_zip. apply list_fmap_ext. by intros ? [[??]?] _. Qed.

Lemma length_pairs : length (zip outs ins) = length costs.
Proof. rewrite length_zip_with. lia. Qed.

Lemma audit_outs : tr_playerOutId <$> audit = outs.
Proof.
  rewrite audit_zip, <- list_fmap_compose.
  transitivity ((zip (zip outs ins) costs).*1.*1); [rewrite <- list_fmap_compose; reflexivity|].
  rewrite fst_zip by (rewrite length_pairs; lia). apply fst_zip. lia.
Qed.

Lemma audit_ins : tr_playerInId <$> audit = ins.
Proof.
  rewrite audit_zip, <- list_fmap_compose.
  transitivity ((zip (zip outs ins) costs).*1.*2); [rewrite <- list_fmap_compose; reflexivity|].
  rewrite fst_zip by (rewrite length_pairs; lia). apply snd_zip. lia.
Qed.

Lemma audit_out_price : sum_of tr_outPrice audit = sum_of (λ id, default 0 (map_get id sellPrices)) outs.
Proof.
  rewrite <- audit_outs at 1. rewrite sum_of_fmap. apply sum_of_ext. intros r.
  rewrite audit_zip. by intros ([[??]?] & -> & _)%list_elem_of_fmap.
Qed.

Lemma audit_in_price :
  sum_of tr_inPrice audit = sum_of (λ id, default 0 (pl_price <$> find_player db id)) ins.
Proof.
  rewrite <- audit_ins at 1. rewrite sum_of_fmap. apply sum_of_ext. intros r.
  rewrite audit_zip. by intros ([[??]?] & -> & _)%list_elem_of_fmap.
Qed.

Lemma audit_cost : sum_of tr_pointsCost audit = sumZ costs.
Proof.
  rewrite audit_zip, sum_of_fmap. cbn [tr_pointsCost].
  rewrite (sum_of_zip_snd (λ c, c)) by apply length_pairs. unfold sum_of. by rewrite list_fmap_id.
Qed.

Lemma audit_length : length audit = length outs.
Proof. rewrite <- audit_outs at 1. by rewrite length_fmap. Qed.

End audit.

Section cash.
Context (db db' : SquadDb) (squadId : string) (sels : list SquadPlayerSelection) (sq sq' : Squad).
Context (outgoing : list (Z * Position)) (pairs : list (Z * Z)) (charge : option (Z * list Z * Z)).
Context (Hdb : db_ok db) (E : update_effect db db' squadId sels sq sq' outgoing pairs charge).

Lemma effect_pairs : ∃ ins,
  pairs = zip (outgoingIds sq sels) ins ∧ length (outgoingIds sq sels) = length ins ∧
  ins ≡ₚ incomingIds sq sels.
Proof.
  pose proof (effect_lookups _ _ _ _ _ _ _ _ _ Hdb E) as (_ & Hk & Hc).
  pose proof (effect_nodup _ _ _ _ _ _ _ _ _ E) as Hn.
  pose proof (effect_squad _ _ _ _ _ _ _ _ _ Hdb E) as Hs.
  pose proof (transfers_balanced db sq sels (ok_players _ Hdb) Hs Hn Hk Hc) as Hb.
  pose proof (ue_pairs _ _ _ _ _ _ _ _ _ E) as Hp. rewrite (ue_outgoing _ _ _ _ _ _ _ _ _ E) in Hp.
  destruct (pairTransfers_bijective _ _ Hb) as (matched & Hm & Hl & Hp' & _).
  rewrite Hp' in Hp. injection Hp as <-. exists (matched.*1).
  rewrite (outgoing_fst db sq sels Hs). split_and!; [done| |].
  - rewrite <- (outgoing_fst db sq sels Hs). rewrite !length_fmap. by rewrite Hl.
  - etrans; [apply fmap_Permutation; symmetry; exact Hm|]. apply incoming_ids; [apply Hdb|done|done].
Qed.

Lemma cash_flow :
  sq_budgetRemaining sq' = sq_budgetRemaining sq
    + sum_of (λ id, default 0 (map_get id (sell_prices (with_player db (sq_players sq)))))
        (outgoingIds sq sels)
    - sum_of (λ id, default 0 (pl_price <$> find_player db id)) (incomingIds sq sels).
Proof.
  pose proof (effect_lookups _ _ _ _ _ _ _ _ _ Hdb E) as (Hv & Hk & Hc).
  pose proof (effect_squad _ _ _ _ _ _ _ _ _ Hdb E) as Hs.
  pose proof (effect_nodup _ _ _ _ _ _ _ _ _ E) as Hn.
  rewrite (ue_budget _ _ _ _ _ _ _ _ _ E), available_funds_eq by done.
  rewrite Hv, own_value_rows by done.
  rewrite (sum_of_perm _ _ _ (owned_split sq sels)), (sum_of_perm _ _ _ (new_split db sq sels Hs Hn)).
  rewrite !sum_of_app.
  rewrite (sum_of_ext (value_of db sq) (λ id, default 0 (map_get id
    (sell_prices (with_player db (sq_players sq))))) (outgoingIds sq sels)).
  2:{ intros id [(sp & -> & Hsp)%list_elem_of_fmap _]%elem_of_lfilter.
      destruct (sr_known _ _ Hs sp Hsp) as [p Hp].
      assert ((sp, p) ∈ with_player db (sq_players sq)) as Hj by by apply elem_of_with_player.
      pose proof (value_of_owned db sq Hs _ Hj) as Hvo.
      pose proof (sell_prices_get db sq Hs _ Hj) as Hso. cbn [fst] in *. by rewrite Hvo, Hso. }
  rewrite (sum_of_ext (value_of db sq) (λ id, default 0 (pl_price <$> find_player db id))
    (incomingIds sq sels)); [lia|].
  intros id [Hid Ho%negb_true_iff%bool_decide_eq_false]%elem_of_lfilter.
  destruct (known_new db sels Hk id Hid) as [p Hp]. by rewrite (value_of_new db sq id p), Hp.
Qed.

End cash.

Lemma assert_open_err gws now ids e :
  assertGameweeksOpen gws now ids = Err e → ∃ d, e = SquadLocked d.
Proof.
  unfold assertGameweeksOpen. generalize tt. induction (List.filter _ gws) as [|x l IH]; intros []; cbn.
  - done.
  - destruct (gw_isLocked x || _); cbn; [|apply IH]. intros [= <-]. by eexists.
Qed.

Lemma assert_open_ok gws now ids :
  assertGameweeksOpen gws now ids = Ok tt ↔
  ∀ g, g ∈ gws → gw_id g ∈ ids → gw_isLocked g = false ∧ now < gw_deadline g.
Proof.
  unfold assertGameweeksOpen.
  transitivity (∀ g, g ∈ List.filter (λ g, bool_decide (gw_id g ∈ ids)) gws →
    gw_isLocked g = false ∧ now < gw_deadline g).
  2:{ setoid_rewrite elem_of_lfilter. setoid_rewrite bool_decide_eq_true. naive_solver. }
  generalize tt. induction (List.filter _ gws) as [|x l IH]; intros []; cbn.
  - split; [by intros _ ? ?%elem_of_nil|done].
  - unfold isPastDeadline. destruct (gw_isLocked x || (gw_deadline x <=? now)) eqn:Ex; cbn.
    + split; [done|]. intros H. destruct (H x) as [H1 H2]; [by left|].
      rewrite H1 in Ex. cbn in Ex. bool_to_prop. lia.
    + rewrite IH. bool_to_prop. setoid_rewrite elem_of_cons. naive_solver.
Qed.

Lemma pairing_never_fails squadId input name sels current db now1 gws_end now2 id :
  db_ok db →
  update_transaction squadId input name sels current db now1 gws_end now2
  ≠ Err (NoReplacementFor id).
Proof.
  intros Hdb. unfold update_transaction.
  destruct (map_get squadId (squads db)) as [sq|] eqn:Esq; [|done]. cbn [or_throw rbind].
  destruct (check_revision _ _) as [|e] eqn:Er; cbn [rbind];
    [|intros [= ->]; unfold check_revision in Er; destruct (ui_expectedUpdatedAt _) as [[]|];
      try done; by destruct (negb _)].
  set (governing := next_unfinished (gameweeks db)).
  destruct (match governing with Some gw => _ | None => _ end) as [|e] eqn:Eg; cbn [rbind].
  2:{ intros [= ->]. destruct governing; [|done]. by apply assert_open_err in Eg as [? ?]. }
  destruct (validateSquad _ _ _) as [v|] eqn:Ev; cbn [lift_validation rbind]; [|done].
  assert (is_ok (validateSquad sels (price_for_validation (sq_players sq)
    (sell_prices (with_player db (sq_players sq))) <$> find_players db (sel_playerId <$> sels))
    (available_funds sq (sell_prices (with_player db (sq_players sq))))) = true) as V%validate_ok_iff
    by by rewrite Ev.
  pose proof (ok_squads _ Hdb _ _ Esq) as Hs.
  destruct (lookup_all_value db sq (ok_players _ Hdb) sels (so_known _ _ _ V)) as (_ & Hk & Hc).
  destruct (pairTransfers_bijective (outgoing_players (with_player db (sq_players sq)) (sel_playerId <$> sels))
    (incoming_players (sq_players sq) (find_players db (sel_playerId <$> sels)))) as (m & _ & _ & -> & _).
  { apply transfers_balanced; try done; [apply Hdb|apply V|]. intros p.
    rewrite <- (so_positions _ _ _ V p). symmetry. apply Hc. }
  cbn [rbind]. unfold charge_transfers. destruct (_ =? 0)%nat; cbn [rbind].
  - destruct (locked_gameweek gws_end); cbn [rbind]; [done|].
    destruct (assertGameweeksOpen gws_end _ _) as [|e] eqn:Ea; cbn [rbind]; [done|].
    intros [= ->]. by apply assert_open_err in Ea as [? ?].
  - destruct (or_throw governing TransfersClosed) as [g|e] eqn:Et; cbn [rbind];
      [|destruct governing; [done|by cbn in Et; simplify_eq]].
    destruct (locked_gameweek gws_end); cbn [rbind]; [done|].
    destruct (assertGameweeksOpen gws_end _ _) as [|e] eqn:Ea; cbn [rbind]; [done|].
    intros [= ->]. by apply assert_open_err in Ea as [? ?].
Qed.

(** ** Runs of the service *)

(** One operation of the service that neither cancels nor reverts the chip
    recorded under [k]. *)
Inductive service_step (k : string * Z) : SquadDb → SquadDb → Prop :=
| step_create id now input db db' :
    createSquad id now input db = Ok db' → service_step k db db'
| step_update squadId input user db0 now0 db now1 gws_end now2 db' :
    updateSquad squadId input user db0 now0 db now1 gws_end now2 = Ok db' → service_step k db db'
| step_activate squadId chip gw user db now1 now2 db' :
    activateChip squadId chip gw user db now1 now2 = Ok db' → service_step k db db'
| step_cancel squadId gw user db now db' :
    (squadId, gw) ≠ k → cancelChip squadId gw user db now = Ok db' → service_step k db db'
| step_revert squadId gw db now :
    (squadId, gw) ≠ k → service_step k db (revertFreeHit squadId gw db now).2.

Definition any_step (db db' : SquadDb) : Prop := ∃ k, service_step k db db'.

Definition chip_key (r : (string * Z) * ChipUsage) : string * string * ChipType :=
  (r.1.1, cu_season r.2, cu_chipType r.2).

(** The two unique constraints of the table. *)
Record chips_unique (db : SquadDb) : Prop := {
  cq_gameweek : NoDup (squadChipUsage db).*1;
  cq_season : NoDup (chip_key <$> squadChipUsage db)
}.

Lemma update_chips squadId input user db0 now0 db now1 gws_end now2 db' :
  updateSquad squadId input user db0 now0 db now1 gws_end now2 = Ok db' →
  squadChipUsage db' = squadChipUsage db.
Proof.
  unfold updateSquad. destruct (update_precheck _ _ _ _ _) as [[[??]?]|]; [|done]. cbn [rbind].
  unfold update_transaction. intros H.
  repeat match type of H with rbind ?m _ = Ok _ => destruct m; [cbn [rbind] in H|done] end.
  by injection H as <-.
Qed.

(** What an accepted activation checked and wrote. *)
Lemma activate_ok squadId chip gw user db now1 now2 db' :
  activateChip squadId chip gw user db now1 now2 = Ok db' →
  ∃ sq season stored, map_get squadId (squads db) = Some sq ∧
    is_active (map_get (squadId, gw) (squadChipUsage db)) = false ∧
    existsb (same_season_chip squadId season chip)
      (List.filter (λ r, negb (bool_decide (r.1 = (squadId, gw)))) (squadChipUsage db)) = false ∧
    (restores_lineup chip = true →
       stored = Some (snapshot_of sq (map_get (squadId, gw) (scoreTransferCost db)))) ∧
    db' = set_chips db (map_set (squadId, gw)
      {| cu_chipType := chip; cu_season := season; cu_previousLineup := stored;
         cu_revertedAt := None; cu_cancelledAt := None |} (squadChipUsage db)).
Proof.
  unfold activateChip. intros H. destruct (map_get squadId (squads db)) as [sq|]; [|done].
  cbn [or_throw rbind] in H. destruct (throw_if _ SquadForbidden); [|done]. cbn [rbind] in H.
  destruct (List.find _ _) as [g|]; [|done]. cbn [or_throw rbind] in H.
  destruct (throw_if _ (SquadLocked _)); [|done]. cbn [rbind] in H.
  destruct (check_deadline _ _); [|done]. cbn [rbind] in H.
  destruct (is_active (map_get _ _)) eqn:Ea; [done|]. cbn [throw_if rbind] in H.
  destruct (is_active (used_this_season _ _ _ _)); [done|]. cbn [throw_if rbind] in H.
  destruct (existsb _ _) eqn:Ee; [done|]. cbn [throw_if rbind] in H.
  destruct (assertGameweeksOpen _ _ _); [|done]. cbn [rbind] in H. injection H as <-.
  eexists sq, (gw_season g), _. split_and!; [done|done|done| |reflexivity].
  intros ->. by destruct (map_get _ (squadChipUsage db)).
Qed.

Lemma cancel_ok squadId gw user db now db' :
  cancelChip squadId gw user db now = Ok db' →
  ∃ sq usage snapshot, map_get squadId (squads db) = Some sq ∧
    map_get (squadId, gw) (squadChipUsage db) = Some usage ∧ is_active (Some usage) = true ∧
    cu_previousLineup usage = Some snapshot ∧
    assertGameweeksOpen (gameweeks db) now [gw] = Ok tt ∧
    squads db' = map_set squadId {| sq_userId := sq_userId sq; sq_name := sq_name sq;
       sq_budgetRemaining := fh_budgetRemaining snapshot;
       sq_freeTransfers := fh_freeTransfers snapshot;
       sq_freeTransfersGameweekId := fh_freeTransfersGameweekId snapshot;
       sq_updatedAt := now; sq_players := fh_players snapshot |} (squads db) ∧
    squadChipUsage db' = map_set (squadId, gw)
      {| cu_chipType := cu_chipType usage; cu_season := cu_season usage;
         cu_previousLineup := cu_previousLineup usage; cu_revertedAt := cu_revertedAt usage;
         cu_cancelledAt := Some now |} (squadChipUsage db) ∧
    (∀ cost, fh_transferCost snapshot = Some cost →
       map_get (squadId, gw) (scoreTransferCost db') = Some cost).
Proof.
  unfold cancelChip. intros H. destruct (map_get squadId (squads db)) as [sq|]; [|done].
  cbn [or_throw rbind] in H. destruct (throw_if _ SquadForbidden); [|done]. cbn [rbind] in H.
  destruct (map_get (squadId, gw) (squadChipUsage db)) as [usage|]; [|done]. cbn [or_throw rbind] in H.
  destruct (_ || _) eqn:Eg; [done|]. cbn [throw_if rbind] in H.
  destruct (cu_previousLineup usage) as [snapshot|] eqn:Es; [|done]. cbn [or_throw rbind] in H.
  destruct (assertGameweeksOpen _ _ _) as [[]|e] eqn:Ea; [|by destruct e]. cbn [rbind] in H.
  apply orb_false_iff in Eg as [Eg _]. apply negb_false_iff in Eg.
  exists sq, usage, snapshot. rewrite Es. destruct (fh_transferCost snapshot) as [cost|] eqn:Ec.
  - destruct (map_get (squadId, gw) (scoreTransferCost db)); [|done]. cbn [rbind] in H.
    injection H as <-. repeat (split; [done|]). intros c [= <-]. apply map_get_set_eq.
  - cbn [rbind] in H. injection H as <-. by split_and!.
Qed.

Lemma revert_chips squadId gw db now :
  squadChipUsage (revertFreeHit squadId gw db now).2 = squadChipUsage db ∨
  ∃ u u', map_get (squadId, gw) (squadChipUsage db) = Some u ∧ cu_chipType u' = cu_chipType u ∧
    cu_season u' = cu_season u ∧
    squadChipUsage (revertFreeHit squadId gw db now).2 = map_set (squadId, gw) u' (squadChipUsage db).
Proof.
  unfold revertFreeHit. destruct (map_get (squadId, gw) _) as [u|]; [|by left].
  destruct (cu_chipType u) eqn:Et, (cu_cancelledAt u) eqn:E1, (cu_revertedAt u) eqn:E2,
    (cu_previousLineup u) eqn:E3, (map_get squadId (squads db)) eqn:E4; try by left.
  right. eexists u, _. split; [done|]. cbn [snd]. split; [|split; [|reflexivity]]; cbn; congruence.
Qed.

Lemma step_keeps_chip k db db' usage :
  service_step k db db' → map_get k (squadChipUsage db) = Some usage →
  is_active (Some usage) = true → map_get k (squadChipUsage db') = Some usage.
Proof.
  intros H Hk Ha. destruct H as [id now input db db' H|squadId input user db0 now0 db now1 gws_end now2 db' H
    |squadId chip gw user db now1 now2 db' H|squadId gw user db now db' Hne H|squadId gw db now Hne].
  - unfold createSquad in H. inv_ok. by subst db'.
  - by rewrite (update_chips _ _ _ _ _ _ _ _ _ _ H).
  - apply activate_ok in H as (sq & season & stored & _ & Hn & _ & _ & ->). cbn [squadChipUsage set_chips].
    rewrite map_get_set_ne; [done|]. intros ->. rewrite Hk in Hn. congruence.
  - apply cancel_ok in H as (sq & u & sn & _ & _ & _ & _ & _ & _ & -> & _).
    by rewrite map_get_set_ne by congruence.
  - destruct (revert_chips squadId gw db now) as [->|(u & u' & _ & _ & _ & ->)]; [done|].
    by rewrite map_get_set_ne by congruence.
Qed.

Lemma run_keeps_chip k db db' usage :
  rtc (service_step k) db db' → map_get k (squadChipUsage db) = Some usage →
  is_active (Some usage) = true → map_get k (squadChipUsage db') = Some usage.
Proof. induction 1 as [|x y z Hxy Hyz IH]; [done|]. intros Hk Ha. apply IH; [|done].
  by eapply step_keeps_chip.
Qed.

Lemma elem_of_map_set_ne `{EqDecision K} {V} (k : K) (v : V) m r : r ∈ map_set k v m → r = (k, v) ∨ r ∈ m ∧ (NoDup m.*1 → r.1 ≠ k).
Proof.
  induction m as [|[k' v'] m IH]; cbn.
  - intros ->%list_elem_of_singleton. by left.
  - destruct (decide (k = k')) as [->|Hk].
    + intros [->|Hr]%elem_of_cons; [by left|]. right. split; [by right|].
      intros [H1 _]%list.NoDup_cons E. apply H1. rewrite <- E. apply list_elem_of_fmap. by exists r.
    + intros [->|Hr]%elem_of_cons; [right; split; [by left|done]|].
      destruct (IH Hr) as [->|[Hm Hne]]; [by left|]. right. split; [by right|].
      intros [_ H2]%list.NoDup_cons. by apply Hne.
Qed.

(** A new key in the row set keeps the rows distinct. *)
Lemma chip_key_set k v m :
  NoDup m.*1 → NoDup (chip_key <$> m) →
  (∀ r, r ∈ m → r.1 ≠ k → chip_key r ≠ chip_key (k, v)) → NoDup (chip_key <$> map_set k v m).
Proof.
  induction m as [|[k' v'] m IH]; cbn; [intros _ _ _; apply NoDup_singleton|].
  intros [K1 K2]%list.NoDup_cons [H1 H2]%list.NoDup_cons Hn.
  destruct (decide (k = k')) as [->|Hk]; cbn; apply list.NoDup_cons; (split; [|done || apply IH]).
  - intros (r & Hr & Hin)%list_elem_of_fmap. apply (Hn r); [by right| |done].
    intros E. apply K1. rewrite <- E. apply list_elem_of_fmap. by exists r.
  - intros (r & Hr & Hin)%list_elem_of_fmap.
    apply elem_of_map_set_ne in Hin as [->|[Hin _]].
    + by apply (Hn (k', v')); [left| |].
    + apply H1. rewrite Hr. apply list_elem_of_fmap. by exists r.
  - done.
  - done.
  - intros r Hr. apply Hn. by right.
Qed.

(** Rewriting a row without touching its chip and season. *)
Lemma chip_key_set_same k v v' m :
  map_get k m = Some v' → cu_season v = cu_season v' → cu_chipType v = cu_chipType v' →
  chip_key <$> map_set k v m = chip_key <$> m.
Proof.
  induction m as [|[k' v0] m IH]; cbn; [done|]. destruct (decide (k = k')) as [->|Hk].
  - intros [= ->] E1 E2. cbn. f_equal. unfold chip_key. cbn. by rewrite E1, E2.
  - intros. cbn. f_equal. by apply IH.
Qed.

Lemma step_chips_unique k db db' : service_step k db db' → chips_unique db → chips_unique db'.
Proof.
  intros H [U1 U2]. destruct H as [id now input db db' H
    |squadId input user db0 now0 db now1 gws_end now2 db' H
    |squadId chip gw user db now1 now2 db' H|squadId gw user db now db' Hne H|squadId gw db now Hne].
  - unfold createSquad in H. inv_ok. by subst db'.
  - pose proof (update_chips _ _ _ _ _ _ _ _ _ _ H) as E. by constructor; rewrite E.
  - apply activate_ok in H as (sq & season & stored & _ & _ & He & _ & ->).
    constructor; cbn [squadChipUsage set_chips]; [by apply map_set_NoDup|].
    apply chip_key_set; [done|done|]. intros r Hr Hrk Heq.
    apply not_true_iff_false in He. apply He, existsb_exists. exists r. split.
    + apply list_elem_of_In, elem_of_lfilter. split; [done|].
      by apply negb_true_iff, bool_decide_eq_false.
    + unfold chip_key in Heq. cbn in Heq. injection Heq as E1 E2 E3.
      unfold same_season_chip. by rewrite !bool_decide_true.
  - apply cancel_ok in H as (sq & u & sn & _ & Hu & _ & _ & _ & _ & E & _).
    constructor; rewrite E; [by apply map_set_NoDup|]. by erewrite chip_key_set_same.
  - destruct (revert_chips squadId gw db now) as [E|(u & u' & Hu & H1 & H2 & E)];
      constructor; rewrite E; try done; [by apply map_set_NoDup|]. by erewrite chip_key_set_same.
Qed.

(** ** Properties *)

(** Changing a squad never creates or destroys money: whatever transfers it
    makes, the bank plus the selling value of the players (the team value the
    service reports) is the same before and after, the bank never goes negative,
    kept players keep their purchase price while signings are bought at their
    current price, the lineup stored is exactly the validated selection, other
    squads are untouched and the database stays well formed. *)
Theorem update_keeps_team_value (squadId : string) (input : UpdateSquadInput)
    (name : option (list Z)) (sels : list SquadPlayerSelection) (current : option Gameweek)
    (db db' : SquadDb) (now1 now2 : Z) (gws_end : list Gameweek) :
  db_ok db →
  update_transaction squadId input name sels current db now1 gws_end now2 = Ok db' →
  ∃ sq sq', map_get squadId (squads db) = Some sq ∧ map_get squadId (squads db') = Some sq' ∧
    rmap snd (getSquadValuation squadId db') = rmap snd (getSquadValuation squadId db) ∧
    0 ≤ sq_budgetRemaining sq' ∧
    row_selection <$> sq_players sq' ≡ₚ sels ∧
    (∀ sp', sp' ∈ sq_players sq' →
      (∃ sp, sp ∈ sq_players sq ∧ sp_playerId sp' = sp_playerId sp ∧
             sp_purchasePrice sp' = sp_purchasePrice sp) ∨
      (sp_playerId sp' ∉ sp_playerId <$> sq_players sq ∧
         sp_purchasePrice sp' = default 0 (pl_price <$> find_player db (sp_playerId sp')))) ∧
    (∀ id, id ≠ squadId → map_get id (squads db') = map_get id (squads db)) ∧
    db_ok db'.
Proof.
  intros Hdb H. destruct (update_effects _ _ _ _ _ _ _ _ _ _ H)
    as (sq & sq' & outgoing & pairs & charge & E & _ & _).
  exists sq, sq'. pose proof (effect_lookups _ _ _ _ _ _ _ _ _ Hdb E) as (Hv & _ & _).
  pose proof (effect_own_value _ _ _ _ _ _ _ _ _ Hdb E) as Hown.
  pose proof (ue_budget _ _ _ _ _ _ _ _ _ E) as Hb. rewrite Hv in Hb.
  pose proof (so_budget _ _ _ (ue_valid _ _ _ _ _ _ _ _ _ E)) as Hmax. rewrite Hv in Hmax.
  rewrite available_funds_eq in Hb, Hmax by (eapply effect_squad; done).
  assert (map_get squadId (squads db') = Some sq') as Hnew.
  { rewrite (ue_new _ _ _ _ _ _ _ _ _ E). apply map_get_set_eq. }
  split; [apply E|]. split; [done|]. split; [|split; [lia|]].
  - unfold getSquadValuation. rewrite Hnew, (ue_old _ _ _ _ _ _ _ _ _ E). cbn [or_throw rbind rmap snd].
    rewrite !team_value_own. f_equal.
    assert (own_value db' (sq_players sq') = own_value db (sq_players sq')) as ->; [|lia].
    unfold own_value, with_player, find_player. by rewrite (ue_players _ _ _ _ _ _ _ _ _ E).
  - split_and!.
    + by eapply effect_lineup.
    + intros sp'. by eapply effect_prices.
    + intros id Hid. rewrite (ue_new _ _ _ _ _ _ _ _ _ E). by rewrite map_get_set_ne.
    + by eapply effect_db.
Qed.

(** Transfers are booked in double entry: the audit rows appended list
    every player sold and every player bought exactly once, in position for
    position pairs that always exist, the bank moves by the sales minus the
    purchases they record, and the points charged are 4 for each transfer beyond
    the free ones available, which are used up first. *)
Theorem transfer_audit_balances (squadId : string) (input : UpdateSquadInput)
    (name : option (list Z)) (sels : list SquadPlayerSelection) (current : option Gameweek)
    (db : SquadDb) (now1 now2 : Z) (gws_end : list Gameweek) :
  db_ok db →
  (∀ id, update_transaction squadId input name sels current db now1 gws_end now2
     ≠ Err (NoReplacementFor id)) ∧
  ∀ db', update_transaction squadId input name sels current db now1 gws_end now2 = Ok db' →
  ∃ sq sq' audit, map_get squadId (squads db) = Some sq ∧ map_get squadId (squads db') = Some sq' ∧
    squadTransfer db' = squadTransfer db ++ audit ∧
    tr_playerOutId <$> audit = outgoingIds sq sels ∧
    tr_playerInId <$> audit ≡ₚ incomingIds sq sels ∧
    sq_budgetRemaining sq'
      = sq_budgetRemaining sq + sum_of tr_outPrice audit - sum_of tr_inPrice audit ∧
    match next_unfinished (gameweeks db) with
    | Some target =>
        let n := Z.of_nat (length audit) in
        let available := available_transfers sq (gameweeks db) target in
        sum_of tr_pointsCost audit = 4 * Z.max 0 (n - Z.max 0 available) ∧
        (n ≠ 0 → sq_freeTransfers sq' = Z.max 0 (available - n))
    | None => audit = []
    end ∧
    (audit = [] → sq_freeTransfers sq' = sq_freeTransfers sq).
Proof.
  intros Hdb. split; [intros id; by apply pairing_never_fails|]. intros db' H.
  destruct (update_effects _ _ _ _ _ _ _ _ _ _ H) as (sq & sq' & outgoing & pairs & charge & E & _ & _).
  destruct (effect_pairs _ _ _ _ _ _ _ _ _ Hdb E) as (ins & Hp & Hlen & Hins).
  pose proof (cash_flow _ _ _ _ _ _ _ _ _ Hdb E) as Hcash.
  pose proof (ue_charge _ _ _ _ _ _ _ _ _ E) as Hc. pose proof (ue_audit _ _ _ _ _ _ _ _ _ E) as Ha.
  pose proof (ue_free _ _ _ _ _ _ _ _ _ E) as Hf.
  assert (map_get squadId (squads db') = Some sq') as Hnew.
  { rewrite (ue_new _ _ _ _ _ _ _ _ _ E). apply map_get_set_eq. }
  exists sq, sq'. subst pairs. unfold charge_transfers in Hc.
  rewrite length_zip_with, <- Hlen, Nat.min_id in Hc.
  destruct (length (outgoingIds sq sels) =? 0)%nat eqn:En.
  - injection Hc as <-. exists []. apply Nat.eqb_eq in En. rewrite En in Hlen.
    apply length_zero_iff_nil in En. symmetry in Hlen. apply length_zero_iff_nil in Hlen. subst ins.
    apply Permutation_nil in Hins. rewrite En, Hins in Hcash. injection Hf as Hf _.
    rewrite En, Hins. split_and!; try done; [apply E|].
    destruct (next_unfinished _); [|done]. split; [unfold sum_of; cbn; lia|done].
  - destruct (next_unfinished (gameweeks db)) as [target|]; [|done]. cbn [or_throw rbind] in Hc.
    injection Hc as <-. injection Hf as Hf _.
    set (costs := calculateTransferCosts _ _) in Ha.
    assert (length costs = length (outgoingIds sq sels)) as Hcl
      by (unfold costs, calculateTransferCosts; by rewrite length_fmap, length_seq).
    eexists. split; [apply E|]. split; [done|]. split; [exact Ha|].
    rewrite audit_outs, audit_ins, audit_out_price, audit_in_price, audit_cost, audit_length by done.
    split_and!; try done.
    + by rewrite <- (sum_of_perm _ _ _ Hins) in Hcash.
    + unfold costs. by rewrite transfer_costs_total.
    + intros He. apply Nat.eqb_neq in En. rewrite <- (audit_outs db squadId (gw_id target)
        (sell_prices (with_player db (sq_players sq))) _ ins costs Hlen Hcl) in En.
      fold costs in He. by rewrite He in En.
Qed.

(** Deadlines are race-free: whatever happened between the request and the
    commit, an update that commits does so before the deadline of the gameweek
    that governs it and of the current one, neither of them locked, and with no
    locked gameweek awaiting settlement, according to the state and clock read
    last. *)
Theorem update_commits_before_deadline (squadId : string) (input : UpdateSquadInput)
    (requestingUserId : option string) (db0 db db' : SquadDb) (now0 now1 now2 : Z)
    (gws_end : list Gameweek) :
  updateSquad squadId input requestingUserId db0 now0 db now1 gws_end now2 = Ok db' →
  locked_gameweek gws_end = None ∧
  (∀ g governing, next_unfinished (gameweeks db) = Some governing → g ∈ gws_end →
     gw_id g = gw_id governing → gw_isLocked g = false ∧ now2 < gw_deadline g) ∧
  (∀ g current, current_gameweek (gameweeks db0) = Some current → g ∈ gws_end →
     gw_id g = gw_id current → gw_isLocked g = false ∧ now2 < gw_deadline g ∧
     now0 < gw_deadline current).
Proof.
  unfold updateSquad. destruct (update_precheck _ _ _ _ _) as [[[name sels] cur]|] eqn:Ep; [|done].
  cbn [rbind]. intros H.
  destruct (update_effects _ _ _ _ _ _ _ _ _ _ H) as (_ & _ & _ & _ & _ & _ & Hl & Ha).
  rewrite assert_open_ok in Ha. split; [done|]. split.
  - intros g governing Hg Hin Hid. apply Ha; [done|]. rewrite Hg, Hid.
    destruct cur; cbn; set_solver.
  - intros g current Hcur Hin Hid. unfold update_precheck in Ep.
    destruct (map_get _ _); [|done]. cbn [or_throw rbind] in Ep.
    destruct (match ui_name input with Some _ => _ | None => _ end); [|done]. cbn [rbind] in Ep.
    destruct (throw_if _ _); [|done]. cbn [rbind] in Ep. rewrite Hcur in Ep.
    destruct (check_deadline (Some current) now0) eqn:Ec; [|done]. cbn [rbind] in Ep.
    destruct (locked_gameweek (gameweeks db0)); [done|]. cbn [rbind] in Ep.
    destruct (check_deadline (next_unfinished (gameweeks db0)) now0); [|done]. cbn [rbind] in Ep.
    destruct (ui_players input); [|done]. cbn in Ep. injection Ep as <- <- <-.
    destruct (Ha g Hin) as [H1 H2]; [rewrite Hid; by left|]. split_and!; [done|done|].
    unfold check_deadline, validateDeadline in Ec. destruct (_ <=? _) eqn:El; [done|].
    by bool_to_prop.
Qed.

(** Cancelling Free Hit or Wildcard undoes it: after any run of creations,
    edits, chips of other gameweeks and their cancellations, the squad's players,
    bank and free transfers, and the transfer cost recorded for the gameweek, are
    again those of the moment the chip was played, and the chip is cancelled; the
    cancellation happens before the deadline. *)
Theorem chip_cancellation_restores (squadId : string) (chip : ChipType) (gw : Z)
    (user user' : string) (db db1 db2 db3 : SquadDb) (now1 now2 now : Z) :
  activateChip squadId chip gw user db now1 now2 = Ok db1 → restores_lineup chip = true →
  rtc (service_step (squadId, gw)) db1 db2 → cancelChip squadId gw user' db2 now = Ok db3 →
  ∃ sq sq', map_get squadId (squads db) = Some sq ∧ map_get squadId (squads db3) = Some sq' ∧
    sq_players sq' = sq_players sq ∧ sq_budgetRemaining sq' = sq_budgetRemaining sq ∧
    sq_freeTransfers sq' = sq_freeTransfers sq ∧
    sq_freeTransfersGameweekId sq' = sq_freeTransfersGameweekId sq ∧
    (∀ cost, map_get (squadId, gw) (scoreTransferCost db) = Some cost →
       map_get (squadId, gw) (scoreTransferCost db3) = Some cost) ∧
    is_active (map_get (squadId, gw) (squadChipUsage db3)) = false ∧
    (∀ g, g ∈ gameweeks db2 → gw_id g = gw → now < gw_deadline g).
Proof.
  intros Ha Hr Hrun Hc.
  apply activate_ok in Ha as (sq & season & stored & Hsq & _ & _ & Hst & ->).
  rewrite (Hst Hr) in Hrun.
  pose proof (run_keeps_chip _ _ _ _ Hrun (map_get_set_eq _ _ _) eq_refl) as Hk.
  apply cancel_ok in Hc as (sq2 & u & sn & _ & Hu & _ & Hp & Ho & Hs & Hch & Hcost).
  rewrite Hk in Hu. injection Hu as <-. cbn in Hp. injection Hp as <-.
  eexists sq, _. split; [done|]. rewrite Hs, map_get_set_eq. split; [done|].
  split_and!; try done.
  - by rewrite Hch, map_get_set_eq.
  - rewrite assert_open_ok in Ho. intros g Hg Hid. apply Ho; [done|]. rewrite Hid. by left.
Qed.

(** One chip per gameweek and one of each kind per season: in every state
    the service can reach there is at most one usage row per squad and gameweek
    and at most one per squad, season and chip, whatever is activated,
    cancelled or reverted in between. *)
Theorem chips_once (db db' : SquadDb) :
  chips_unique db → rtc any_step db db' →
  chips_unique db' ∧
  ∀ squadId season chip, countb (same_season_chip squadId season chip) (squadChipUsage db') ≤ 1.
Proof.
  intros H Hrun. assert (chips_unique db') as H'.
  { induction Hrun as [|x y z [k Hxy] _ IH]; [done|]. by eapply IH, step_chips_unique. }
  split; [done|]. intros squadId season chip. destruct H' as [_ H'].
  induction (squadChipUsage db') as [|r m IH]; [done|].
  apply list.NoDup_cons in H' as [H1 H2]. rewrite countb_cons.
  destruct (same_season_chip squadId season chip r) eqn:E; [|by apply IH in H2; lia].
  rewrite countb_zero; [lia|]. intros r' Hr'. apply not_true_iff_false. intros E'. apply H1.
  apply list_elem_of_fmap. exists r'. split; [|done]. unfold same_season_chip in *.
  bool_to_prop. unfold chip_key. congruence.
Qed.

(** ** A sample database, for the witnesses *)

Definition sample_db : SquadDb :=
  {| users := ["u"];
     players := (λ id, {| pl_id := id; pl_teamId := id mod 6; pl_position := sample_position id;
                          pl_price := 50 + id |}) <$> (Z.of_nat <$> seq 1 16);
     gameweeks := [{| gw_id := 1; gw_fplId := 1; gw_season := "25"; gw_deadline := 1000;
                      gw_isCurrent := false; gw_isFinished := false; gw_isLocked := false;
                      gw_settledAt := None |};
                   {| gw_id := 2; gw_fplId := 2; gw_season := "25"; gw_deadline := 2000;
                      gw_isCurrent := false; gw_isFinished := false; gw_isLocked := false;
                      gw_settledAt := None |}];
     squads := [("s", {| sq_userId := "u"; sq_name := [65; 66; 67]; sq_budgetRemaining := 20;
                         sq_freeTransfers := 0; sq_freeTransfersGameweekId := None;
                         sq_updatedAt := 5;
                         sq_players := (λ sel, {| sp_playerId := sel_playerId sel;
                           sp_isCaptain := sel_isCaptain sel;
                           sp_isViceCaptain := sel_isViceCaptain sel;
                           sp_isStarter := sel_isStarter sel;
                           sp_positionOrder := sel_positionOrder sel;
                           sp_purchasePrice := 40 |}) <$> sample_selections |})];
     squadTransfer := []; squadChipUsage := []; scoreTransferCost := [(("s", 1), 0)];
     squadChipCancellation := [] |}.

(** Forward 15 is replaced by forward 16. *)
Definition sample_update : list SquadPlayerSelection :=
  (λ s, if sel_playerId s =? 15
        then {| sel_playerId := 16; sel_isStarter := sel_isStarter s;
                sel_isCaptain := sel_isCaptain s; sel_isViceCaptain := sel_isViceCaptain s;
                sel_positionOrder := sel_positionOrder s |} else s) <$> sample_selections.

Definition sample_input : UpdateSquadInput :=
  {| ui_name := None; ui_players := Some sample_update; ui_expectedUpdatedAt := Some (Some 5) |}.

Definition sample_updated : result SquadServiceError SquadDb :=
  update_transaction "s" sample_input None sample_update None sample_db 10 (gameweeks sample_db) 20.

Definition result_db (r : result SquadServiceError SquadDb) : SquadDb :=
  match r with Ok db => db | Err _ => sample_db end.

Lemma sample_db_ok : db_ok sample_db.
Proof.
  constructor; [apply (bool_decide_unpack _); vm_compute; exact I|].
  intros id sq H. cbn in H. case_decide; [|done]. injection H as <-. constructor.
  - apply (bool_decide_unpack _). vm_compute. exact I.
  - intros sp Hsp.
    assert (forallb (λ sp, match find_player sample_db (sp_playerId sp) with
      Some _ => true | None => false end) (default [] (sq_players <$> map_get "s" (squads sample_db)))
      = true) as Hall by (vm_compute; reflexivity).
    rewrite forallb_forall in Hall. specialize (Hall sp (proj1 (list_elem_of_In _ _) Hsp)).
    by destruct (find_player sample_db (sp_playerId sp)).
  - intros []; vm_compute; reflexivity.
Qed.

Lemma update_keeps_team_value_witness :
  rmap snd (getSquadValuation "s" (result_db sample_updated)) = rmap snd (getSquadValuation "s" sample_db) ∧
  db_ok (result_db sample_updated).
Proof.
  assert (sample_updated = Ok (result_db sample_updated)) as H by (vm_compute; reflexivity).
  destruct (update_keeps_team_value "s" sample_input None sample_update None sample_db
    (result_db sample_updated) 10 20 (gameweeks sample_db) sample_db_ok H)
    as (sq & sq' & _ & _ & Hv & _ & _ & _ & _ & Hok).
  split; [exact Hv|exact Hok].
Defined.

Lemma transfer_audit_balances_witness :
  tr_pointsCost <$> squadTransfer (result_db sample_updated) = [4] ∧
  ∀ id, sample_updated ≠ Err (NoReplacementFor id).
Proof.
  split; [vm_compute; reflexivity|].
  exact (proj1 (transfer_audit_balances "s" sample_input None sample_update None sample_db 10 20
    (gameweeks sample_db) sample_db_ok)).
Defined.

Lemma update_commits_before_deadline_witness :
  is_ok (updateSquad "s" sample_input (Some "u") sample_db 5 sample_db 10 (gameweeks sample_db) 20)
    = true ∧
  ∀ g governing, next_unfinished (gameweeks sample_db) = Some governing →
    g ∈ gameweeks sample_db → gw_id g = gw_id governing →
    gw_isLocked g = false ∧ 20 < gw_deadline g.
Proof.
  split; [vm_compute; reflexivity|].
  destruct (updateSquad "s" sample_input (Some "u") sample_db 5 sample_db 10 (gameweeks sample_db) 20)
    as [db'|] eqn:E; [|vm_compute in E; discriminate E].
  exact (proj1 (proj2 (update_commits_before_deadline _ _ _ _ _ _ _ _ _ _ E))).
Defined.

(** Play Wildcard, make a transfer, cancel it. *)
Definition sample_wildcard : SquadDb :=
  result_db (activateChip "s" WILDCARD 1 "u" sample_db 6 7).
Definition sample_wildcard_used : SquadDb :=
  result_db (updateSquad "s" sample_input None sample_wildcard 8 sample_wildcard 9
    (gameweeks sample_db) 10).
Definition sample_cancelled : result SquadServiceError SquadDb :=
  cancelChip "s" 1 "u" sample_wildcard_used 11.

Lemma chip_cancellation_restores_witness :
  sq_players <$> map_get "s" (squads sample_wildcard_used) ≠ sq_players <$> map_get "s" (squads sample_db) ∧
  sq_players <$> map_get "s" (squads (result_db sample_cancelled))
    = sq_players <$> map_get "s" (squads sample_db).
Proof.
  split; [vm_compute; discriminate|].
  assert (activateChip "s" WILDCARD 1 "u" sample_db 6 7 = Ok sample_wildcard) as H1
    by (vm_compute; reflexivity).
  assert (updateSquad "s" sample_input None sample_wildcard 8 sample_wildcard 9
    (gameweeks sample_db) 10 = Ok sample_wildcard_used) as H2 by (vm_compute; reflexivity).
  assert (cancelChip "s" 1 "u" sample_wildcard_used 11 = Ok (result_db sample_cancelled)) as H3
    by (vm_compute; reflexivity).
  destruct (chip_cancellation_restores "s" WILDCARD 1 "u" "u" sample_db sample_wildcard
    sample_wildcard_used (result_db sample_cancelled) 6 7 11 H1 eq_refl
    (rtc_once _ _ (step_update ("s", 1) _ _ _ _ _ _ _ _ _ _ H2)) H3)
    as (sq & sq' & E & E' & Hp & _).
  rewrite E, E'. cbn [fmap option_fmap option_map]. rewrite Hp. reflexivity.
Defined.

Lemma chips_once_witness :
  chips_unique sample_wildcard ∧
  countb (same_season_chip "s" "25" WILDCARD) (squadChipUsage sample_wildcard) = 1.
Proof.
  assert (activateChip "s" WILDCARD 1 "u" sample_db 6 7 = Ok sample_wildcard) as H1
    by (vm_compute; reflexivity).
  split; [|vm_compute; reflexivity].
  refine (proj1 (chips_once sample_db sample_wildcard _ (rtc_once _ _ _))).
  - constructor; constructor.
  - exists ("s", 1). exact (step_activate _ _ _ _ _ _ _ _ _ H1).
Defined.

(** ** Where the code falls short *)

(** A chip cancelled in one gameweek cannot be played in a later one, although
    the checks before the transaction let it through: its row keeps the season
    and the unique constraint rejects a second one. *)
Example cancelled_chip_cannot_be_replayed :
  is_active (used_this_season "s" "25" WILDCARD (result_db sample_cancelled)) = false ∧
  activateChip "s" WILDCARD 2 "u" (result_db sample_cancelled) 20 21 = Err ChipUnavailable ∧
  is_ok (activateChip "s" WILDCARD 1 "u" (result_db sample_cancelled) 20 21) = true.
Proof. repeat split; vm_compute; reflexivity. Qed.

(** Transfers made under Free Hit use up free transfers, and reverting the chip
    after the gameweek, unlike cancelling it, does not give them back although
    the snapshot holds them. *)
Example revert_keeps_free_transfers_spent :
  let played := result_db (activateChip "s" FREE_HIT 1 "u" (set_squads sample_db
    ((λ r, (r.1, {| sq_userId := sq_userId r.2; sq_name := sq_name r.2;
                    sq_budgetRemaining := sq_budgetRemaining r.2; sq_freeTransfers := 3;
                    sq_freeTransfersGameweekId := Some 1; sq_updatedAt := 5;
                    sq_players := sq_players r.2 |})) <$> squads sample_db)) 6 7) in
  let used := result_db (updateSquad "s" sample_input None played 8 played 9 (gameweeks sample_db) 10) in
  let reverted := (revertFreeHit "s" 1 used 3000).2 in
  let cancelled := result_db (cancelChip "s" 1 "u" used 11) in
  (sq_freeTransfers <$> map_get "s" (squads played), sq_freeTransfers <$> map_get "s" (squads reverted),
   sq_freeTransfers <$> map_get "s" (squads cancelled)) = (Some 3, Some 2, Some 3).
Proof. vm_compute. reflexivity. Qed.
