(* ===== verification/Tournament.v ===== *)
(** * Round-robin schedules and knockout cups

    [backend/src/services/league/tournamentService.ts]: the circle method with
    its checker, seeded knockout brackets, the tie-breaks, and the service that
    stores, settles and advances a cup. *)

From Stdlib Require Import String Ascii Znumtheory.
From stdpp Require Import pretty.
From S2P Require Import Prelude.

Inductive TournamentError : Type :=
| ParticipantsNotUnique
| BadLegs
| TooFewParticipants
| TooManyParticipants
| UnsupportedBracketSize
| OddNumberOfWinners
| LeagueNotFound
| NotActiveMembers (ids : list string)
| CupDoesNotFit
| CupExists.

(** ** Round-robin *)

(** [away = None] is a bye. *)
Record RoundRobinMatch : Type := { rr_home : string; rr_away : option string }.

(** [[rotation[0], rotation[n - 1], ...rotation.slice(1, n - 1)]]. *)
Definition rotate {A} (rotation : list A) : list A :=
  match rotation with
  | fixed :: rest =>
      match last rest with
      | Some y => fixed :: y :: removelast rest
      | None => rotation
      end
  | [] => []
  end.

(** One match of round [r]; a missing home side is replaced by the away one. *)
Definition circle_match (r i : nat) (a b : option string) : RoundRobinMatch :=
  let '(home, away) := if (i =? 0)%nat && (r mod 2 =? 1)%nat then (b, a) else (a, b) in
  match home with
  | Some h => {| rr_home := h; rr_away := away |}
  | None => {| rr_home := default "" away; rr_away := None |}
  end.

Definition slot_at (rotation : list (option string)) (i : nat) : option string :=
  default None (rotation !! i).

Definition circle_round (r : nat) (rotation : list (option string)) : list RoundRobinMatch :=
  let n := length rotation in
  (λ i, circle_match r i (slot_at rotation i) (slot_at rotation (n - 1 - i))) <$> seq 0 (n / 2)%nat.

(** The first leg: [count] rounds from round [r] on. *)
Fixpoint circle_rounds (count r : nat) (rotation : list (option string)) :
    list (list RoundRobinMatch) :=
  match count with
  | O => []
  | S count => circle_round r rotation :: circle_rounds count (S r) (rotate rotation)
  end.

Definition swap_sides (m : RoundRobinMatch) : RoundRobinMatch :=
  match rr_away m with
  | None => m
  | Some away => {| rr_home := away; rr_away := Some (rr_home m) |}
  end.

Definition circle_slots (participants : list string) : list (option string) :=
  (Some <$> participants) ++ (if (length participants mod 2 =? 1)%nat then [None] else []).

Definition leg_rounds (firstLeg : list (list RoundRobinMatch)) (leg : nat) :
    list (list RoundRobinMatch) :=
  if (leg mod 2 =? 0)%nat then firstLeg else (λ round : list RoundRobinMatch, swap_sides <$> round) <$> firstLeg.

(** [legs] is [None] when it is not an integer. *)
Definition generateRoundRobin (participants : list string) (legs : option Z) :
    result TournamentError (list (list RoundRobinMatch)) :=
  throw_if (negb (length (remove_dups participants) =? length participants)%nat)
    ParticipantsNotUnique ;;;
  if (length participants <? 2)%nat then Ok []
  else
    let* legs := or_throw legs BadLegs in
    throw_if (legs <? 1) BadLegs ;;;
    let slots := circle_slots participants in
    let firstLeg := circle_rounds (length slots - 1) 0 slots in
    Ok (concat (leg_rounds firstLeg <$> seq 0 (Z.to_nat legs))).

(** ** The checker *)

Inductive RoundRobinProblem : Type :=
| PlaysTwice (round : nat) (id : string)
| WrongMeetings (key : string) (count : Z).

(** [[a, b].sort().join("|")]. *)
Definition pair_key (a b : string) : string :=
  if String.leb a b then a +:+ "|" +:+ b else b +:+ "|" +:+ a.

(** The ids of a match that are not null. *)
Definition match_ids (m : RoundRobinMatch) : list string :=
  rr_home m :: match rr_away m with Some a => [a] | None => [] end.

(** The [seen] set over the ids of a round. *)
Fixpoint duplicates (r : nat) (seen : list string) (ids : list string) : list RoundRobinProblem :=
  match ids with
  | [] => []
  | id :: ids => (if decide (id ∈ seen) then [PlaysTwice r id] else [])
                 ++ duplicates r (id :: seen) ids
  end.

Definition meeting_keys (round : list RoundRobinMatch) : list string :=
  omap (λ m, pair_key (rr_home m) <$> rr_away m) round.

Fixpoint pair_problems (meetings : list (string * Z)) (legs : Z) (participants : list string) :
    list RoundRobinProblem :=
  match participants with
  | [] => []
  | p :: rest =>
      concat ((λ q, let key := pair_key p q in
                    let count := default 0 (map_get key meetings) in
                    if count =? legs then [] else [WrongMeetings key count]) <$> rest)
      ++ pair_problems meetings legs rest
  end.

Definition validateRoundRobin (participants : list string) (rounds : list (list RoundRobinMatch))
    (legs : Z) : list RoundRobinProblem :=
  concat (imap (λ r round, duplicates (r + 1) [] (concat (match_ids <$> round))) rounds)
  ++ pair_problems (tally id (concat (meeting_keys <$> rounds))) legs participants.

(** ** Knockout brackets *)

Definition KNOCKOUT_BRACKET_SIZES : list Z := [2; 4; 8; 16; 32; 64].
Definition MAX_KNOCKOUT_PARTICIPANTS : Z := 64.

Definition knockoutBracketSize (count : Z) : result TournamentError Z :=
  throw_if (count <? 2) TooFewParticipants ;;;
  throw_if (MAX_KNOCKOUT_PARTICIPANTS <? count) TooManyParticipants ;;;
  or_throw (List.find (λ size, count <=? size) KNOCKOUT_BRACKET_SIZES) TooManyParticipants.

Definition double_order (order : list Z) : list Z :=
  let total := Z.of_nat (length order) * 2 + 1 in
  concat ((λ seed, [seed; total - seed]) <$> order).

(** [while (order.length < size)]; six doublings reach 64. *)
Fixpoint seed_loop (fuel : nat) (size : Z) (order : list Z) : list Z :=
  match fuel with
  | O => order
  | S fuel => if Z.of_nat (length order) <? size then seed_loop fuel size (double_order order)
              else order
  end.

Definition standardSeedOrder (size : Z) : result TournamentError (list Z) :=
  throw_if (negb (bool_decide (size ∈ KNOCKOUT_BRACKET_SIZES))) UnsupportedBracketSize ;;;
  Ok (seed_loop 6 size [1; 2]).

Record KnockoutPairing : Type := {
  kp_slot : Z;
  kp_home : string;
  kp_away : option string;
  kp_homeSeed : Z;
  kp_awaySeed : option Z
}.

(** [seededParticipants[seed - 1]]. *)
Definition seeded (participants : list string) (seed : Z) : option string :=
  participants !! Z.to_nat (seed - 1).

Definition first_round_pairing (participants : list string) (slot : nat) (a b : Z) :
    KnockoutPairing :=
  let '(better, worse) := if a <? b then (a, b) else (b, a) in
  let away := seeded participants worse in
  {| kp_slot := Z.of_nat slot; kp_home := default "" (seeded participants better);
     kp_away := away; kp_homeSeed := better;
     kp_awaySeed := match away with None => None | Some _ => Some worse end |}.

(** Adjacent seeds of the order, two by two. *)
Fixpoint adjacent_pairs {A} (l : list A) : list (A * A) :=
  match l with
  | a :: b :: l => (a, b) :: adjacent_pairs l
  | _ => []
  end.

Definition generateKnockoutFirstRound (seededParticipants : list string) :
    result TournamentError (list KnockoutPairing) :=
  throw_if (negb (length (remove_dups seededParticipants) =? length seededParticipants)%nat)
    ParticipantsNotUnique ;;;
  let* size := knockoutBracketSize (Z.of_nat (length seededParticipants)) in
  let* order := standardSeedOrder size in
  Ok (imap (λ slot p, first_round_pairing seededParticipants slot p.1 p.2) (adjacent_pairs order)).

(** [Math.log2] on the supported sizes. *)
Definition knockoutRoundCount (size : Z) : Z := Z.log2 size.

Inductive RoundName : Type := Final | SemiFinal | QuarterFinal | RoundOf (n : Z).

Definition knockoutRoundName (round totalRounds : Z) : RoundName :=
  let remaining := totalRounds - round in
  if remaining =? 0 then Final
  else if remaining =? 1 then SemiFinal
  else if remaining =? 2 then QuarterFinal
  else RoundOf (2 ^ (remaining + 1)).

(** ** Tie-breaks *)

Record TieBreakStats : Type := { goalsScored : Z; goalsConceded : Z }.

Inductive TieBreakReason : Type := ByScore | ByGoalsScored | ByGoalsConceded | ByCoinToss | ByBye.

Record MatchResolution : Type := {
  mr_winner : string;
  mr_loser : option string;
  mr_reason : TieBreakReason
}.

Section tiebreaks.
(** The first byte of the SHA-256 digest of a string (node:crypto). *)
Context (sha256_byte0 : string → Z).

(** [seed] carries the league and the gameweek. *)
Definition virtualCoinToss (seed a b : string) : string :=
  let '(first, second) := if String.leb a b then (a, b) else (b, a) in
  if sha256_byte0 (seed +:+ ":" +:+ first +:+ ":" +:+ second) mod 2 =? 0 then first else second.

Definition no_stats : TieBreakStats := {| goalsScored := 0; goalsConceded := 0 |}.

Definition resolveKnockoutMatch (home : string) (away : option string) (homeScore awayScore : Z)
    (homeStats awayStats : option TieBreakStats) (coinTossSeed : string) : MatchResolution :=
  match away with
  | None => {| mr_winner := home; mr_loser := None; mr_reason := ByBye |}
  | Some away =>
      let home_wins reason := {| mr_winner := home; mr_loser := Some away; mr_reason := reason |} in
      let away_wins reason := {| mr_winner := away; mr_loser := Some home; mr_reason := reason |} in
      if negb (homeScore =? awayScore)
      then if awayScore <? homeScore then home_wins ByScore else away_wins ByScore
      else
        let hs := default no_stats homeStats in
        let as_ := default no_stats awayStats in
        if negb (goalsScored hs =? goalsScored as_)
        then if goalsScored as_ <? goalsScored hs then home_wins ByGoalsScored
             else away_wins ByGoalsScored
        else if negb (goalsConceded hs =? goalsConceded as_)
        then if goalsConceded hs <? goalsConceded as_ then home_wins ByGoalsConceded
             else away_wins ByGoalsConceded
        else let winner := virtualCoinToss coinTossSeed home away in
             {| mr_winner := winner;
                mr_loser := Some (if decide (winner = home) then away else home);
                mr_reason := ByCoinToss |}
  end.

End tiebreaks.

Definition nextRoundPairings (winnersBySlot : list string) :
    result TournamentError (list (Z * string * string)) :=
  throw_if ((length winnersBySlot <? 2)%nat || negb (length winnersBySlot mod 2 =? 0)%nat)
    OddNumberOfWinners ;;;
  Ok (imap (λ slot p, (Z.of_nat slot, p.1, p.2)) (adjacent_pairs winnersBySlot)).

(** ** The cup service *)

Record CupFixture : Type := {
  fx_leagueId : string;
  fx_gameweekId : Z;
  fx_homeMemberId : string;
  fx_awayMemberId : option string;
  fx_isCup : bool;
  fx_playoffRound : option Z;
  fx_playoffSlot : option Z;
  fx_homeScore : option Z;
  fx_awayScore : option Z;
  fx_isFinished : bool;
  fx_winnerMemberId : option string;
  fx_tiebreakReason : option TieBreakReason
}.

Record CupMember : Type := {
  cm_id : string;
  cm_leagueId : string;
  cm_isActive : bool;
  cm_squadId : string;
  cm_h2hPoints : Z;
  cm_totalPoints : Z;
  cm_pointsFor : Z;
  cm_joinedAt : Z
}.

Record CupDb : Type := {
  leagues : list (string * (Z * Z));
  leagueMember : list CupMember;
  leagueFixture : list CupFixture;
  squadGameweekScore : list (Z * string * Z);
  leagueGameweekScore : list (string * Z * string * Z);
  squadStarters : list (string * Z);
  playerGameweekStats : list (Z * Z * TieBreakStats)
}.

Definition with_fixtures (db : CupDb) (fs : list CupFixture) : CupDb :=
  {| leagues := leagues db; leagueMember := leagueMember db; leagueFixture := fs;
     squadGameweekScore := squadGameweekScore db; leagueGameweekScore := leagueGameweekScore db;
     squadStarters := squadStarters db; playerGameweekStats := playerGameweekStats db |}.

Definition add_stats (a b : TieBreakStats) : TieBreakStats :=
  {| goalsScored := goalsScored a + goalsScored b;
     goalsConceded := goalsConceded a + goalsConceded b |}.

(** [defaultTieBreakStats]. *)
Definition defaultTieBreakStats (db : CupDb) (squadIds : list string) (gameweekId : Z) :
    list (string * TieBreakStats) :=
  let starters := List.filter (λ s, bool_decide (s.1 ∈ squadIds)) (squadStarters db) in
  let stats := List.filter (λ st, (st.1.2 =? gameweekId) && bool_decide (st.1.1 ∈ starters.*2))
                 (playerGameweekStats db) in
  let byPlayer := foldl (λ m st,
    map_set (st.1.1) (add_stats (default no_stats (map_get (st.1.1) m)) st.2) m) [] stats in
  let bySquad := foldl (λ m id, map_set id no_stats m) [] squadIds in
  foldl (λ m s, match map_get s.2 byPlayer with
                | Some player =>
                    map_set s.1 (add_stats (default no_stats (map_get s.1 m)) player) m
                | None => m
                end) bySquad starters.

(** [members.orderBy]. *)
Definition by_rank : CupMember → CupMember → Z :=
  then_by (desc cm_h2hPoints) (then_by (desc cm_totalPoints)
    (then_by (desc cm_pointsFor) (asc cm_joinedAt))).

Definition new_fixture (leagueId : string) (gameweekId round slot : Z) (home : string)
    (away : option string) : CupFixture :=
  {| fx_leagueId := leagueId; fx_gameweekId := gameweekId; fx_homeMemberId := home;
     fx_awayMemberId := away; fx_isCup := true; fx_playoffRound := Some round;
     fx_playoffSlot := Some slot; fx_homeScore := None; fx_awayScore := None;
     fx_isFinished := false; fx_winnerMemberId := None; fx_tiebreakReason := None |}.

Definition is_cup (leagueId : string) (f : CupFixture) : bool :=
  bool_decide (fx_leagueId f = leagueId) && fx_isCup f.

Definition is_round (leagueId : string) (gameweekId : Z) (f : CupFixture) : bool :=
  is_cup leagueId f && (fx_gameweekId f =? gameweekId).

(** Bracket size, rounds, final gameweek, pairings. *)
Definition createKnockoutCup (leagueId : string) (startGameweekId : Z)
    (seededMemberIds : option (list string)) (db : CupDb) :
    result TournamentError ((Z * Z * Z * list KnockoutPairing) * CupDb) :=
  let* league := or_throw (map_get leagueId (leagues db)) LeagueNotFound in
  let memberIds := cm_id <$> sort_by by_rank
    (List.filter (λ m, bool_decide (cm_leagueId m = leagueId) && cm_isActive m) (leagueMember db)) in
  let* seeds := match seededMemberIds with
    | Some ids =>
        let unknown := List.filter (λ id, negb (bool_decide (id ∈ memberIds))) ids in
        throw_if (negb (bool_decide (length unknown = O))) (NotActiveMembers unknown) ;;; Ok ids
    | None => Ok (take (Z.to_nat MAX_KNOCKOUT_PARTICIPANTS) memberIds)
    end in
  let* pairings := generateKnockoutFirstRound seeds in
  let* bracketSize := knockoutBracketSize (Z.of_nat (length seeds)) in
  let rounds := knockoutRoundCount bracketSize in
  let finalGameweekId := startGameweekId + rounds - 1 in
  throw_if ((startGameweekId <? league.1) || (league.2 <? finalGameweekId)) CupDoesNotFit ;;;
  throw_if (existsb (is_cup leagueId) (leagueFixture db)) CupExists ;;;
  Ok ((bracketSize, rounds, finalGameweekId, pairings),
      with_fixtures db (leagueFixture db ++
        ((λ p, new_fixture leagueId startGameweekId 1 (kp_slot p) (kp_home p) (kp_away p))
         <$> pairings))).

Record KnockoutSettlementResult : Type := {
  ks_settled : nat;
  ks_nextRound : option (Z * Z * list (Z * string * string));
  ks_champion : option string
}.

Section settlement.
Context (sha256_byte0 : string → Z).

(** A non-null, non-empty id. *)
Definition truthy (id : option string) : option string :=
  match id with Some s => if decide (s = "") then None else Some s | None => None end.

Definition score_lookup (squadByMember : list (string * string)) (points : list (string * Z))
    (memberId : string) : Z :=
  default 0 (map_get (default "" (map_get memberId squadByMember)) points).

Definition settle_fixture (seed : string) (scoreOf : string → Z)
    (statsOf : string → option TieBreakStats) (f : CupFixture) : CupFixture :=
  let homeScore := scoreOf (fx_homeMemberId f) in
  let awayScore := scoreOf <$> truthy (fx_awayMemberId f) in
  let resolution := resolveKnockoutMatch sha256_byte0 (fx_homeMemberId f) (fx_awayMemberId f)
    homeScore (default 0 awayScore) (statsOf (fx_homeMemberId f))
    (match truthy (fx_awayMemberId f) with Some a => statsOf a | None => None end) seed in
  {| fx_leagueId := fx_leagueId f; fx_gameweekId := fx_gameweekId f;
     fx_homeMemberId := fx_homeMemberId f; fx_awayMemberId := fx_awayMemberId f;
     fx_isCup := fx_isCup f; fx_playoffRound := fx_playoffRound f;
     fx_playoffSlot := fx_playoffSlot f; fx_homeScore := Some homeScore;
     fx_awayScore := awayScore; fx_isFinished := true;
     fx_winnerMemberId := Some (mr_winner resolution);
     fx_tiebreakReason := Some (mr_reason resolution) |}.

(** [advanceKnockoutRound]. *)
Definition advanceKnockoutRound (leagueId : string) (gameweekId : Z) (db : CupDb) :
    result TournamentError
      ((option (Z * Z * list (Z * string * string)) * option string) * CupDb) :=
  let round := List.filter (is_round leagueId gameweekId) (leagueFixture db) in
  if bool_decide (length round = O) || existsb (λ f, negb (fx_isFinished f)) round
  then Ok ((None, None), db)
  else
    let bySlot := sort_by (asc (λ f, default 0 (fx_playoffSlot f))) round in
    let winners := (λ f, default (fx_homeMemberId f) (fx_winnerMemberId f)) <$> bySlot in
    match winners with
    | [champion] => Ok ((None, Some champion), db)
    | _ =>
        let nextRound := default 1 (head bySlot ≫= fx_playoffRound) + 1 in
        let nextGameweekId := gameweekId + 1 in
        if existsb (is_round leagueId nextGameweekId) (leagueFixture db)
        then Ok ((None, None), db)
        else
          let* pairings := nextRoundPairings winners in
          Ok ((Some (nextRound, nextGameweekId, pairings), None),
              with_fixtures db (leagueFixture db ++
                ((λ p, new_fixture leagueId nextGameweekId nextRound p.1.1 p.1.2 (Some p.2))
                 <$> pairings)))
    end.

Definition settleKnockoutGameweek (leagueId : string) (gameweekId : Z) (useLeagueScoring : bool)
    (db : CupDb) : result TournamentError (KnockoutSettlementResult * CupDb) :=
  let pending f := is_round leagueId gameweekId f && negb (fx_isFinished f) in
  let fixtures := List.filter pending (leagueFixture db) in
  if bool_decide (length fixtures = O)
  then Ok ({| ks_settled := O; ks_nextRound := None; ks_champion := None |}, db)
  else
    let memberIds := remove_dups (concat ((λ f, omap truthy [Some (fx_homeMemberId f);
                                                             fx_awayMemberId f]) <$> fixtures)) in
    let squadByMember := foldl (λ m r, map_set (cm_id r) (cm_squadId r) m) []
      (List.filter (λ r, bool_decide (cm_id r ∈ memberIds)) (leagueMember db)) in
    let squadIds := map_values squadByMember in
    let scores :=
      if useLeagueScoring
      then (λ s, (s.1.2, s.2)) <$> List.filter (λ s, bool_decide (s.1.1.1 = leagueId)
             && (s.1.1.2 =? gameweekId) && bool_decide (s.1.2 ∈ squadIds)) (leagueGameweekScore db)
      else (λ s, (s.1.2, s.2)) <$> List.filter (λ s, (s.1.1 =? gameweekId)
             && bool_decide (s.1.2 ∈ squadIds)) (squadGameweekScore db) in
    let pointsBySquad := foldl (λ m s, map_set s.1 s.2 m) [] scores in
    let scoreOf := score_lookup squadByMember pointsBySquad in
    let tied := existsb (λ f, match truthy (fx_awayMemberId f) with
                              | Some a => scoreOf (fx_homeMemberId f) =? scoreOf a
                              | None => false
                              end) fixtures in
    let tieStats := if tied then defaultTieBreakStats db squadIds gameweekId else [] in
    let seed := leagueId +:+ ":" +:+ pretty gameweekId in
    let statsOf memberId := map_get (default "" (map_get memberId squadByMember)) tieStats in
    let db := with_fixtures db ((λ f, if pending f then settle_fixture seed scoreOf statsOf f else f)
                <$> leagueFixture db) in
    let* '((next, champion), db) := advanceKnockoutRound leagueId gameweekId db in
    Ok ({| ks_settled := length fixtures; ks_nextRound := next; ks_champion := champion |}, db).

End settlement.

(** ** Lemmas: the rotation *)

Lemma rotate_perm {A} (l : list A) : rotate l ≡ₚ l.
Proof.
  destruct l as [|x l]; [done|]. cbn. destruct (last l) as [y|] eqn:E; [|done]. constructor.
  destruct (exists_last (l := l)) as (k & z & ->); [by intros ->|].
  rewrite last_snoc in E. injection E as ->. rewrite removelast_last.
  rewrite Permutation_app_comm. done.
Qed.

(** Where the rotation moves position [p], with [m] moving positions. *)
Definition next_position (m p : nat) : nat :=
  match p with O => O | S q => S ((q + 1) mod m) end.

Lemma rotate_lookup {A} (l : list A) m p :
  length l = S m → (p < S m)%nat → rotate l !! next_position m p = l !! p.
Proof.
  destruct l as [|x l]; [done|]. cbn [length]. intros [= Hm] Hp. cbn [rotate].
  destruct (last l) as [y|] eqn:E.
  2:{ apply last_None in E as ->. cbn in Hm. subst m. destruct p; [done|lia]. }
  destruct (exists_last (l := l)) as (k & z & ->); [by intros ->|].
  rewrite last_snoc in E. injection E as ->. rewrite removelast_last.
  rewrite length_app in Hm. cbn in Hm. destruct p as [|q]; [done|]. cbn [next_position].
  change ((x :: k ++ [y]) !! S q) with ((k ++ [y]) !! q).
  destruct (decide (S q = m)) as [Hq|Hq].
  - replace (q + 1)%nat with m by lia. rewrite Nat.Div0.mod_same.
    rewrite lookup_app_r by lia. replace (q - length k)%nat with O by lia. done.
  - rewrite Nat.mod_small by lia. replace (q + 1)%nat with (S q) by lia.
    rewrite lookup_app_l by lia. done.
Qed.

(** The position of slot [j] after [r] rotations. *)
Definition position (m r j : nat) : nat :=
  match j with O => O | S k => S ((k + r) mod m) end.

Lemma position_next m r j : position m (S r) j = next_position m (position m r j).
Proof.
  destruct j as [|k]; [done|]. cbn. f_equal.
  rewrite Nat.Div0.add_mod_idemp_l. f_equal. lia.
Qed.

Lemma position_lt m r j : (0 < m)%nat → (position m r j < S m)%nat.
Proof. destruct j; cbn; [lia|]. intros. pose proof (Nat.mod_upper_bound (j + r) m). lia. Qed.

Lemma length_iter_rotate {A} (l : list A) r : length (Nat.iter r rotate l) = length l.
Proof. induction r as [|r IH]; [done|]. cbn. by rewrite rotate_perm. Qed.

Lemma iter_rotate_perm {A} (l : list A) r : Nat.iter r rotate l ≡ₚ l.
Proof. induction r as [|r IH]; [done|]. cbn. by rewrite rotate_perm. Qed.

Lemma iter_rotate_lookup {A} (l : list A) m r j :
  length l = S m → (0 < m)%nat → (j < S m)%nat →
  Nat.iter r rotate l !! position m r j = l !! j.
Proof.
  intros Hl Hm Hj. induction r as [|r IH].
  - destruct j as [|k]; [done|]. cbn. rewrite Nat.add_0_r, Nat.mod_small by lia. done.
  - rewrite position_next. change (Nat.iter (S r) rotate l) with (rotate (Nat.iter r rotate l)).
    rewrite (rotate_lookup _ m); [done| |].
    + by rewrite length_iter_rotate.
    + by apply position_lt.
Qed.

Lemma circle_rounds_eq count r rotation :
  circle_rounds count r rotation
  = (λ k, circle_round (r + k) (Nat.iter k rotate rotation)) <$> seq 0 count.
Proof.
  revert r rotation. induction count as [|count IH]; intros r rotation; [done|].
  cbn [circle_rounds seq fmap list_fmap]. rewrite Nat.add_0_r. f_equal.
  rewrite IH, <- fmap_S_seq, <- list_fmap_compose. apply list_fmap_ext. intros _ k _. unfold compose.
  replace (r + S k)%nat with (S r + k)%nat by lia. by rewrite Nat.iter_succ_r.
Qed.

(** ** Lemmas: arithmetic of the meetings *)

Lemma unique_double_root m c :
  0 < m → m mod 2 = 1 → ∃ r, 0 ≤ r < m ∧ ∀ k, 0 ≤ k < m → (m | c + 2 * k) ↔ k = r.
Proof.
  intros Hm Hodd. set (h := (m + 1) / 2). assert (2 * h = m + 1) as Hh.
  { unfold h. pose proof (Z.div_mod (m + 1) 2). pose proof (Z.mod_pos_bound (m + 1) 2).
    rewrite Z.add_mod, Hodd in * by lia. change ((1 + 1 mod 2) mod 2) with 0 in *. lia. }
  exists ((- c * h) mod m). pose proof (Z.mod_pos_bound (- c * h) m Hm) as Hb. split; [done|].
  set (r := (- c * h) mod m) in *.
  assert (m | c + 2 * r) as Hr.
  { pose proof (Z.div_mod (- c * h) m) as Hd. fold r in Hd. set (q := - c * h / m) in Hd.
    exists (- c - 2 * q). nia. }
  intros k Hk. split; [|by intros ->]. intros Hk'.
  assert (m | 2 * (k - r)) as Hdiv.
  { replace (2 * (k - r)) with ((c + 2 * k) - (c + 2 * r)) by lia. by apply Z.divide_sub_r. }
  apply Z.gauss in Hdiv.
  - destruct Hdiv as [q Hq]. assert (q = 0) by nia. lia.
  - apply Zgcd_1_rel_prime. apply rel_prime_sym, prime_rel_prime; [apply prime_2|].
    intros [q Hq]. rewrite Hq, Z_mod_mult in Hodd. done.
Qed.

Lemma unique_root m c :
  0 < m → ∃ r, 0 ≤ r < m ∧ ∀ k, 0 ≤ k < m → (m | c + k) ↔ k = r.
Proof.
  intros Hm. exists ((- c) mod m). pose proof (Z.mod_pos_bound (- c) m Hm) as Hb. split; [done|].
  assert (m | c + (- c) mod m) as Hr.
  { pose proof (Z.div_mod (- c) m) as Hd. exists (- (- c / m)). lia. }
  intros k Hk. split; [|by intros ->]. intros Hk'.
  assert (m | k - (- c) mod m) as [q Hq].
  { replace (k - (- c) mod m) with ((c + k) - (c + (- c) mod m)) by lia. by apply Z.divide_sub_r. }
  assert (q = 0) by nia. lia.
Qed.

(** Two slots meet in the rounds where their positions add up to [m]. *)
Lemma positions_meet m r u v :
  0 < m → 0 ≤ u < m → 0 ≤ v < m → u ≠ v →
  ((u + r) mod m + (v + r) mod m + 2 = m ↔ (m | (u + v + 2) + 2 * r)).
Proof.
  intros Hm Hu Hv Huv. pose proof (Z.div_mod (u + r) m) as H1. pose proof (Z.div_mod (v + r) m) as H2.
  pose proof (Z.mod_pos_bound (u + r) m Hm). pose proof (Z.mod_pos_bound (v + r) m Hm).
  set (a := (u + r) mod m) in *. set (b := (v + r) mod m) in *.
  set (q1 := (u + r) / m) in *. set (q2 := (v + r) / m) in *. split.
  - intros. exists (q1 + q2 + 1). lia.
  - intros [q Hq]. assert (a + b + 2 = m * (q - q1 - q2)) as E by lia.
    assert (q - q1 - q2 = 1 ∨ q - q1 - q2 = 2) as [Eq|Eq] by nia; [nia|].
    rewrite Eq in E. assert (a = m - 1 ∧ b = m - 1) as [-> ->] by lia.
    assert (q1 = q2) by nia. nia.
Qed.

Lemma fixed_meets m r v :
  0 < m → 0 ≤ v < m → ((v + r) mod m + 1 = m ↔ (m | (v + 1) + r)).
Proof.
  intros Hm Hv. pose proof (Z.div_mod (v + r) m) as H1. pose proof (Z.mod_pos_bound (v + r) m Hm).
  set (b := (v + r) mod m) in *. set (q := (v + r) / m) in *. split.
  - intros. exists (q + 1). lia.
  - intros [q' Hq]. assert (b + 1 = m * (q' - q)) by lia. assert (q' - q = 1) by nia. lia.
Qed.

(** Each two slots meet in exactly one of the [m] rounds. *)
Lemma unique_meeting m u v :
  (0 < m)%nat → (m mod 2 = 1)%nat → (u < S m)%nat → (v < S m)%nat → u ≠ v →
  ∃ r, r ∈ seq 0 m ∧
    ∀ k, k ∈ seq 0 m → (position m k u + position m k v =? m)%nat = true ↔ k = r.
Proof.
  intros Hm Hodd Hu Hv Huv.
  assert (Z.of_nat m mod 2 = 1) as Hodd' by (change 2 with (Z.of_nat 2); rewrite <- Nat2Z.inj_mod; by rewrite Hodd).
  assert (∀ v, (v < m)%nat → ∃ r, r ∈ seq 0 m ∧ ∀ k, k ∈ seq 0 m →
    (position m k 0 + position m k (S v) =? m)%nat = true ↔ k = r) as H0.
  { intros w Hw. destruct (unique_root (Z.of_nat m) (Z.of_nat w + 1)) as (r & Hr & Hu'); [lia|].
    exists (Z.to_nat r). split; [apply elem_of_seq; lia|]. intros k Hk%elem_of_seq.
    rewrite Nat.eqb_eq. cbn [position].
    rewrite <- (Nat2Z.inj_iff (0 + _)), Nat2Z.inj_add, Nat2Z.inj_succ, Nat2Z.inj_mod, Nat2Z.inj_add.
    transitivity (Z.of_nat k = r); [|lia]. rewrite <- Hu' by lia.
    rewrite <- fixed_meets by lia. lia. }
  destruct u as [|u], v as [|v]; [done|apply H0; lia| |].
  - destruct (H0 u) as (r & Hr & H); [lia|]. exists r. split; [done|]. intros k Hk.
    rewrite Nat.add_comm. by apply H.
  - destruct (unique_double_root (Z.of_nat m) (Z.of_nat u + Z.of_nat v + 2)) as (r & Hr & Hu');
      [lia|done|].
    exists (Z.to_nat r). split; [apply elem_of_seq; lia|]. intros k Hk%elem_of_seq.
    rewrite Nat.eqb_eq. cbn [position].
    rewrite <- (Nat2Z.inj_iff (S _ + _)), Nat2Z.inj_add, !Nat2Z.inj_succ, !Nat2Z.inj_mod, !Nat2Z.inj_add.
    transitivity (Z.of_nat k = r); [|lia]. rewrite <- Hu' by lia.
    rewrite <- positions_meet by lia. lia.
Qed.

(** ** Lemmas: one round *)

(** Do [a] and [b] play each other in [m]? *)
Definition meets (a b : string) (m : RoundRobinMatch) : bool :=
  bool_decide ((rr_home m = a ∧ rr_away m = Some b) ∨ (rr_home m = b ∧ rr_away m = Some a)).

Lemma circle_match_meets r i x y a b :
  meets a b (circle_match r i x y)
  = bool_decide ((x = Some a ∧ y = Some b) ∨ (x = Some b ∧ y = Some a)).
Proof.
  unfold meets, circle_match. apply bool_decide_ext.
  destruct (_ && _), x as [x|], y as [y|]; cbn; naive_solver.
Qed.

Lemma swap_sides_meets a b m : meets a b (swap_sides m) = meets a b m.
Proof.
  unfold meets, swap_sides. apply bool_decide_ext. destruct m as [h [w|]]; cbn; naive_solver.
Qed.

Section round.
Context (rotation : list (option string)) (m : nat).
Context (Hlen : length rotation = S m) (Hodd : (m mod 2 = 1)%nat) (Hnodup : NoDup rotation).

Lemma half_round : (S m / 2 * 2 = S m)%nat.
Proof.
  pose proof (Nat.div_mod m 2) as H. rewrite Hodd in H.
  assert (S m / 2 = m / 2 + 1)%nat as ->; [|lia].
  symmetry. apply (Nat.div_unique _ _ _ 0); lia.
Qed.

Lemma slot_at_lookup i x : (i < S m)%nat → slot_at rotation i = Some x ↔ rotation !! i = Some (Some x).
Proof.
  intros Hi. unfold slot_at. destruct (lookup_lt_is_Some_2 rotation i) as [y Hy]; [lia|].
  rewrite Hy. cbn. unfold id. naive_solver.
Qed.

Lemma lookup_unique i j x : rotation !! i = Some x → rotation !! j = Some x → i = j.
Proof. intros. by eapply NoDup_lookup. Qed.

(** Two managers at positions [p] and [q] meet at most once in a round, and do
    when their positions are opposite. *)
Lemma round_meets r p q a b :
  rotation !! p = Some (Some a) → rotation !! q = Some (Some b) → p ≠ q →
  countb (meets a b) (circle_round r rotation) = if (p + q =? m)%nat then 1 else 0.
Proof.
  intros Hp Hq Hpq. unfold circle_round. rewrite Hlen, countb_fmap.
  pose proof half_round as Hh.
  assert (∀ i, i ∈ seq 0 (S m / 2) →
    meets a b (circle_match r i (slot_at rotation i) (slot_at rotation (S m - 1 - i))) = true ↔
    (i = p ∧ (m - i)%nat = q) ∨ (i = q ∧ (m - i)%nat = p)) as Hm.
  { intros i Hi%elem_of_seq. rewrite circle_match_meets, bool_decide_eq_true.
    replace (S m - 1 - i)%nat with (m - i)%nat by lia.
    rewrite !slot_at_lookup by lia. split.
    - intros [[H1 H2]|[H1 H2]]; [left|right]; split; eauto using lookup_unique.
    - intros [[-> <-]|[-> <-]]; auto. }
  pose proof (lookup_lt_Some _ _ _ Hp). pose proof (lookup_lt_Some _ _ _ Hq).
  destruct (p + q =? m)%nat eqn:E.
  - apply Nat.eqb_eq in E. apply (countb_unique _ _ (Nat.min p q)).
    + apply NoDup_seq.
    + apply elem_of_seq. lia.
    + intros i Hi. rewrite (Hm i Hi). apply elem_of_seq in Hi. lia.
  - apply Nat.eqb_neq in E. apply countb_zero. intros i Hi. apply not_true_iff_false.
    rewrite (Hm i Hi). apply elem_of_seq in Hi. lia.
Qed.

(** The sides of the matches of a round. *)
Definition match_slots (mt : RoundRobinMatch) : list (option string) := [Some (rr_home mt); rr_away mt].

Lemma circle_match_slots r i x y :
  x ≠ None ∨ y ≠ None → match_slots (circle_match r i x y) ≡ₚ [x; y].
Proof.
  unfold match_slots, circle_match. intros H.
  destruct (_ && _), x as [x|], y as [y|]; cbn; try (apply Permutation_swap || done); tauto.
Qed.

Lemma opposite_positions : concat ((λ i, [i; (m - i)%nat]) <$> seq 0 (S m / 2)) ≡ₚ seq 0 (S m).
Proof.
  pose proof half_round as Hh.
  assert (∀ k, (k <= S m / 2)%nat →
    concat ((λ i, [i; (m - i)%nat]) <$> seq 0 k) ≡ₚ seq 0 k ++ seq (S m - k) k) as H.
  { intros k. induction k as [|k IH]; intros Hk; [done|].
    rewrite (seq_S k 0), fmap_app, concat_app, IH by lia. cbn [fmap list_fmap concat app].
    replace (S m - k)%nat with (S (S m - S k)) by lia.
    cbn [seq]. replace (m - (0 + k))%nat with (S m - S k)%nat by lia.
    rewrite <- !app_assoc. apply Permutation_app_head. cbn [app].
    rewrite Permutation_app_comm. cbn [app]. done. }
  rewrite H by lia. replace (S m - S m / 2)%nat with (0 + S m / 2)%nat by lia.
  rewrite <- seq_app. apply reflexive_eq. f_equal. lia.
Qed.

Lemma round_slots r : concat (match_slots <$> circle_round r rotation) ≡ₚ rotation.
Proof.
  pose proof half_round as Hh. unfold circle_round. rewrite Hlen, <- list_fmap_compose.
  transitivity (slot_at rotation <$> concat ((λ i, [i; (m - i)%nat]) <$> seq 0 (S m / 2))).
  - rewrite fmap_concat, <- list_fmap_compose.
    assert (∀ l, (∀ i, i ∈ l → (i < S m / 2)%nat) →
      concat ((match_slots ∘ (λ i, circle_match r i (slot_at rotation i) (slot_at rotation (S m - 1 - i)))) <$> l)
      ≡ₚ concat (((λ l : list nat, slot_at rotation <$> l) ∘ (λ i, [i; (m - i)%nat])) <$> l)) as H.
    { intros l. induction l as [|i l IH]; intros Hl; [done|]. cbn [fmap list_fmap concat].
      apply Permutation_app; [|apply IH; intros; apply Hl; by right].
      unfold compose. replace (S m - 1 - i)%nat with (m - i)%nat by lia.
      apply circle_match_slots. specialize (Hl i ltac:(by left)).
      destruct (slot_at rotation i) as [x|] eqn:E1; [by left|].
      destruct (slot_at rotation (m - i)) as [y|] eqn:E2; [by right|]. exfalso.
      unfold slot_at in E1, E2.
      destruct (lookup_lt_is_Some_2 rotation i) as [x Hx]; [lia|].
      destruct (lookup_lt_is_Some_2 rotation (m - i)) as [y Hy]; [lia|].
      rewrite Hx in E1. rewrite Hy in E2. cbn in E1, E2. unfold id in *. subst x y.
      pose proof (lookup_unique _ _ _ Hx Hy). lia. }
    apply H. intros i Hi%elem_of_seq. lia.
  - rewrite opposite_positions. apply reflexive_eq. apply list_eq. intros i.
    rewrite list_lookup_fmap. destruct (decide (i < S m)%nat) as [Hi|Hi].
    + rewrite lookup_seq_lt by done. cbn. unfold slot_at.
      destruct (lookup_lt_is_Some_2 rotation i) as [x Hx]; [lia|]. by rewrite Hx.
    + rewrite lookup_seq_ge by lia. cbn. symmetry. apply lookup_ge_None. lia.
Qed.

End round.

(** ** Lemmas: the whole schedule *)

Lemma circle_slots_facts participants :
  NoDup participants → (2 <= length participants)%nat →
  ∃ m, length (circle_slots participants) = S m ∧ (m mod 2 = 1)%nat ∧ (0 < m)%nat ∧
    NoDup (circle_slots participants) ∧ omap id (circle_slots participants) = participants.
Proof.
  intros Hn Hl. unfold circle_slots.
  assert (omap id (Some <$> participants) = participants) as Hid.
  { clear. induction participants as [|p l IH]; [done|]. cbn in *. by rewrite IH. }
  pose proof (Nat.div_mod (length participants) 2) as Hd.
  pose proof (Nat.mod_upper_bound (length participants) 2) as Hb.
  destruct (length participants mod 2 =? 1)%nat eqn:E.
  - apply Nat.eqb_eq in E. exists (length participants). rewrite length_app, length_fmap.
    cbn [length]. split_and!; [lia|done|lia| |].
    + apply list.NoDup_app. split_and!; [apply NoDup_fmap_2; [by intros ?? [=]|done]|set_solver|apply NoDup_singleton].
    + rewrite omap_app, Hid. cbn. by rewrite app_nil_r.
  - apply Nat.eqb_neq in E. rewrite app_nil_r, length_fmap. exists (length participants - 1)%nat.
    split_and!; [lia| |lia|apply NoDup_fmap_2; [by intros ?? [=]|done]|done].
    symmetry. apply (Nat.mod_unique _ _ (length participants / 2 - 1)); lia.
Qed.

Lemma circle_slots_lookup participants u a :
  participants !! u = Some a → circle_slots participants !! u = Some (Some a).
Proof.
  intros H. unfold circle_slots. rewrite lookup_app_l, list_lookup_fmap, H; [done|].
  rewrite length_fmap. by eapply lookup_lt_Some.
Qed.

Lemma match_ids_slots mt : match_ids mt = omap id (match_slots mt).
Proof. by destruct mt as [h [a|]]. Qed.

Lemma round_ids round : concat (match_ids <$> round) = omap id (concat (match_slots <$> round)).
Proof.
  induction round as [|mt round IH]; [done|]. cbn [fmap list_fmap concat].
  by rewrite omap_app, <- IH, match_ids_slots.
Qed.

Lemma swap_round_ids round :
  concat (match_ids <$> (swap_sides <$> round)) ≡ₚ concat (match_ids <$> round).
Proof.
  induction round as [|mt round IH]; [done|]. cbn [fmap list_fmap concat].
  apply Permutation_app; [|exact IH]. destruct mt as [h [a|]]; [|done]. cbn. constructor.
Qed.

Section first_leg.
Context (participants : list string) (m : nat).
Let slots := circle_slots participants.
Context (Hlen : length slots = S m) (Hodd : (m mod 2 = 1)%nat) (Hm : (0 < m)%nat).
Context (Hnodup : NoDup slots) (Hids : omap id slots = participants).

Let firstLeg := circle_rounds m 0 slots.

Lemma iter_nodup k : NoDup (Nat.iter k rotate slots).
Proof. by rewrite iter_rotate_perm. Qed.

Lemma first_leg_ids round : round ∈ firstLeg → concat (match_ids <$> round) ≡ₚ participants.
Proof.
  unfold firstLeg. rewrite circle_rounds_eq. intros (k & -> & _)%list_elem_of_fmap.
  rewrite round_ids, <- Hids at 1. apply omap_perm. etrans; [|apply (iter_rotate_perm slots k)].
  apply (round_slots _ m); [by rewrite length_iter_rotate|done|apply iter_nodup].
Qed.

Lemma first_leg_meets a b :
  a ∈ participants → b ∈ participants → a ≠ b → countb (meets a b) (concat firstLeg) = 1.
Proof.
  intros [u Hu]%list_elem_of_lookup [v Hv]%list_elem_of_lookup Hab.
  assert (u ≠ v) as Huv by (intros ->; congruence).
  apply circle_slots_lookup in Hu, Hv. fold slots in Hu, Hv.
  pose proof (lookup_lt_Some _ _ _ Hu) as Hul. pose proof (lookup_lt_Some _ _ _ Hv) as Hvl.
  rewrite Hlen in Hul, Hvl. unfold firstLeg.
  rewrite circle_rounds_eq, countb_concat, <- list_fmap_compose.
  transitivity (countb (λ k, position m k u + position m k v =? m)%nat (seq 0 m)).
  - generalize (seq 0 m). intros l. induction l as [|k l IH]; [done|]. rewrite countb_cons, <- IH.
    cbn [fmap list_fmap sumZ]. f_equal. unfold compose.
    apply (round_meets _ m); [by rewrite length_iter_rotate|done|apply iter_nodup| | |].
    + by rewrite (iter_rotate_lookup _ m).
    + by rewrite (iter_rotate_lookup _ m).
    + intros E. apply Huv.
      pose proof (iter_rotate_lookup slots m k u Hlen Hm Hul) as H1.
      pose proof (iter_rotate_lookup slots m k v Hlen Hm Hvl) as H2.
      rewrite E, H2 in H1. rewrite Hu, Hv in H1. congruence.
  - destruct (unique_meeting m u v Hm Hodd Hul Hvl Huv) as (r & Hr & H).
    by apply (countb_unique _ _ r); [apply NoDup_seq| |].
Qed.

Lemma leg_ids leg round :
  round ∈ leg_rounds firstLeg leg → concat (match_ids <$> round) ≡ₚ participants.
Proof.
  unfold leg_rounds. destruct (_ =? _)%nat; [apply first_leg_ids|].
  intros (rd & -> & Hr)%list_elem_of_fmap. rewrite swap_round_ids. by apply first_leg_ids.
Qed.

Lemma leg_meets leg a b :
  a ∈ participants → b ∈ participants → a ≠ b →
  countb (meets a b) (concat (leg_rounds firstLeg leg)) = 1.
Proof.
  intros Ha Hb Hab. rewrite <- (first_leg_meets a b) by done. unfold leg_rounds.
  destruct (_ =? _)%nat; [done|]. rewrite !countb_concat, <- list_fmap_compose. f_equal.
  apply list_fmap_ext. intros _ round _. unfold compose. rewrite countb_fmap.
  apply countb_ext. intros mt _. apply swap_sides_meets.
Qed.

Lemma legs_meets legs a b :
  a ∈ participants → b ∈ participants → a ≠ b →
  countb (meets a b) (concat (concat (leg_rounds firstLeg <$> seq 0 legs))) = Z.of_nat legs.
Proof.
  intros Ha Hb Hab. induction legs as [|legs IH]; [done|].
  rewrite seq_S, fmap_app, !concat_app, countb_app, IH. cbn [fmap list_fmap concat].
  rewrite app_nil_r, leg_meets by done. lia.
Qed.

Lemma legs_length legs : length (concat (leg_rounds firstLeg <$> seq 0 legs)) = (legs * m)%nat.
Proof.
  induction legs as [|legs IH]; [done|]. rewrite seq_S, fmap_app, concat_app, length_app, IH.
  cbn [fmap list_fmap concat]. rewrite app_nil_r.
  assert (length (leg_rounds firstLeg (0 + legs)) = m) as ->; [|lia].
  unfold leg_rounds, firstLeg. rewrite circle_rounds_eq.
  destruct (_ =? _)%nat; rewrite ?length_fmap; apply length_seq.
Qed.

End first_leg.

(** ** Lemmas: the checker *)

Fixpoint no_bar (s : string) : bool :=
  match s with
  | EmptyString => true
  | String c s => negb (Ascii.eqb c "|"%char) && no_bar s
  end.

Lemma join_inj a b c d :
  no_bar a = true → no_bar c = true → a +:+ "|" +:+ b = c +:+ "|" +:+ d → a = c ∧ b = d.
Proof.
  revert c. induction a as [|x a IH]; intros [|y c] Ha Hc H;
    cbn [String.append no_bar] in *; injection H; clear H.
  - intros H. change (b = d) in H. by subst.
  - intros _ <-. rewrite Ascii.eqb_refl in Hc. done.
  - intros _ ->. rewrite Ascii.eqb_refl in Ha. done.
  - intros H' ->. apply andb_true_iff in Ha as [_ Ha], Hc as [_ Hc].
    by destruct (IH c Ha Hc H') as [-> ->].
Qed.

Lemma pair_key_sym a b : pair_key a b = pair_key b a.
Proof.
  unfold pair_key. pose proof (String.leb_antisym a b). pose proof (String.leb_total a b).
  destruct (String.leb a b) eqn:E1, (String.leb b a) eqn:E2; try done; [|naive_solver].
  by rewrite H.
Qed.

Lemma pair_key_inj a b c d :
  no_bar a = true → no_bar b = true → no_bar c = true → no_bar d = true →
  pair_key a b = pair_key c d ↔ (a = c ∧ b = d) ∨ (a = d ∧ b = c).
Proof.
  intros Ha Hb Hc Hd. split.
  - unfold pair_key. repeat destruct (String.leb _ _); intros [-> ->]%join_inj; auto.
  - intros [[-> ->]|[-> ->]]; [done|apply pair_key_sym].
Qed.

Lemma duplicates_nil r seen ids :
  duplicates r seen ids = [] ↔ NoDup ids ∧ ∀ id, id ∈ ids → id ∉ seen.
Proof.
  revert seen. induction ids as [|id ids IH]; intros seen; cbn.
  - split; [by split; [constructor|intros ? ?%elem_of_nil]|done].
  - rewrite app_nil, IH, list.NoDup_cons. setoid_rewrite elem_of_cons.
    case_decide as Hid; [split; [by intros [? _]|naive_solver]|]. naive_solver.
Qed.

Lemma meeting_count rounds a b :
  no_bar a = true → no_bar b = true →
  (∀ round mt id, round ∈ rounds → mt ∈ round → id ∈ match_ids mt → no_bar id = true) →
  default 0 (map_get (pair_key a b) (tally id (concat (meeting_keys <$> rounds))))
  = countb (meets a b) (concat rounds).
Proof.
  intros Ha Hb Hr. rewrite tally_get.
  induction rounds as [|round rounds IH]; [done|]. cbn [fmap list_fmap concat].
  rewrite !countb_app, IH by (intros; eapply Hr; [by right| |]; done). f_equal.
  assert (∀ mt id, mt ∈ round → id ∈ match_ids mt → no_bar id = true) as H
    by (intros; eapply Hr; [by left| |]; done).
  clear -H Ha Hb. unfold meeting_keys. induction round as [|[h [w|]] round IH]; [done| |].
  - cbn [omap list_omap fmap option_fmap option_map rr_away rr_home]. rewrite !countb_cons, IH
      by (intros; eapply H; [by right|done]). f_equal.
    assert (no_bar h = true) by (apply (H {| rr_home := h; rr_away := Some w |}); [by left|by left]).
    assert (no_bar w = true) by (apply (H {| rr_home := h; rr_away := Some w |}); [by left|by right; left]).
    unfold meets, id. cbn [rr_home rr_away].
    rewrite (bool_decide_ext (pair_key h w = pair_key a b)
      (h = a ∧ Some w = Some b ∨ h = b ∧ Some w = Some a)); [done|].
    rewrite pair_key_inj by done. naive_solver.
  - cbn [omap list_omap fmap option_fmap option_map rr_away]. rewrite countb_cons.
    assert (meets a b {| rr_home := h; rr_away := None |} = false) as ->.
    { apply bool_decide_eq_false. cbn. naive_solver. }
    rewrite Z.add_0_l. apply IH. intros; eapply H; [by right|done].
Qed.

Lemma pair_problems_nil meetings legs participants :
  pair_problems meetings legs participants = [] ↔
  ∀ i j a b, (i < j)%nat → participants !! i = Some a → participants !! j = Some b →
    default 0 (map_get (pair_key a b) meetings) = legs.
Proof.
  induction participants as [|p l IH]; cbn; [done|]. rewrite app_nil, IH.
  assert (concat ((λ q, if default 0 (map_get (pair_key p q) meetings) =? legs then []
    else [WrongMeetings (pair_key p q) (default 0 (map_get (pair_key p q) meetings))]) <$> l) = []
    ↔ ∀ q, q ∈ l → default 0 (map_get (pair_key p q) meetings) = legs) as ->.
  { clear IH. induction l as [|q l IH]; cbn; [split; [by intros _ ? ?%elem_of_nil|done]|].
    rewrite app_nil, IH. setoid_rewrite elem_of_cons.
    destruct (_ =? legs) eqn:E; bool_to_prop; split; naive_solver. }
  split.
  - intros [H1 H2] [|i] [|j] a b Hij Ha Hb; try lia.
    + injection Ha as <-. apply H1. by eapply list_elem_of_lookup_2.
    + apply (H2 i j); [lia|done|done].
  - intros H. split.
    + intros q [j Hj]%list_elem_of_lookup. apply (H O (S j)); [lia|done|done].
    + intros i j a b Hij Ha Hb. apply (H (S i) (S j)); [lia|done|done].
Qed.

Lemma rounds_problems_nil rounds :
  concat (imap (λ r round, duplicates (r + 1) [] (concat (match_ids <$> round))) rounds) = [] ↔
  ∀ round, round ∈ rounds → NoDup (concat (match_ids <$> round)).
Proof.
  generalize 1%nat. intros n. revert n. induction rounds as [|round rounds IH]; intros n; cbn.
  - split; [by intros _ ? ?%elem_of_nil|done].
  - rewrite app_nil, duplicates_nil.
    rewrite <- (imap_ext (λ r round, duplicates (r + S n) [] (concat (match_ids <$> round)))).
    2:{ intros i x _. cbn. f_equal. lia. }
    rewrite IH. setoid_rewrite elem_of_cons. split; [naive_solver|].
    intros H. split; [|naive_solver]. split; [naive_solver|]. intros ? _ ?%elem_of_nil. done.
Qed.

Lemma generate_ok participants legs rounds :
  generateRoundRobin participants (Some legs) = Ok rounds → (2 <= length participants)%nat →
  NoDup participants ∧ 1 ≤ legs ∧
  ∃ m, length (circle_slots participants) = S m ∧ (m mod 2 = 1)%nat ∧ (0 < m)%nat ∧
    NoDup (circle_slots participants) ∧ omap id (circle_slots participants) = participants ∧
    rounds = concat (leg_rounds (circle_rounds m 0 (circle_slots participants)) <$> seq 0 (Z.to_nat legs)).
Proof.
  unfold generateRoundRobin. intros H Hl.
  destruct (negb _) eqn:Hguard; [done|]. apply negb_false_iff, Nat.eqb_eq in Hguard.
  rewrite length_remove_dups_eq in Hguard. cbn [throw_if rbind] in H.
  rewrite (proj2 (Nat.ltb_ge _ _)) in H by done. cbn [or_throw rbind] in H.
  destruct (legs <? 1) eqn:Hlegs; [done|]. cbn [throw_if rbind] in H. apply Ok_inj in H. bool_to_prop.
  destruct (circle_slots_facts participants Hguard Hl) as (m & Hm & Hodd & Hpos & Hn & Hid).
  split; [done|]. split; [lia|]. exists m. split_and!; try done.
  rewrite <- H, Hm. by replace (S m - 1)%nat with m by lia.
Qed.

(** ** Properties: round-robin *)

(** The circle method is a round-robin for every number of managers and of
    legs: it always succeeds on distinct managers, in every round each manager
    appears exactly once (a bye included), any two managers meet exactly [legs]
    times, and there are [legs] times (managers, rounded up to even, minus one)
    rounds. *)
Theorem round_robin_complete (participants : list string) (legs : Z) :
  (2 <= length participants)%nat →
  (is_ok (generateRoundRobin participants (Some legs)) = true ↔ NoDup participants ∧ 1 ≤ legs) ∧
  ∀ rounds, generateRoundRobin participants (Some legs) = Ok rounds →
    length rounds = (Z.to_nat legs * (length (circle_slots participants) - 1))%nat ∧
    (∀ round, round ∈ rounds → concat (match_ids <$> round) ≡ₚ participants) ∧
    (∀ a b, a ∈ participants → b ∈ participants → a ≠ b →
       countb (meets a b) (concat rounds) = legs).
Proof.
  intros Hl. split.
  - split.
    + destruct (generateRoundRobin _ _) eqn:E; [|done]. intros _.
      destruct (generate_ok _ _ _ E Hl) as (? & ? & _). done.
    + intros [Hn Hlegs]. unfold generateRoundRobin. apply length_remove_dups_eq in Hn.
      rewrite Hn, Nat.eqb_refl. cbn [negb throw_if rbind].
      rewrite (proj2 (Nat.ltb_ge _ _)) by done. cbn [or_throw rbind].
      by rewrite (proj2 (Z.ltb_ge _ _)).
  - intros rounds H. destruct (generate_ok _ _ _ H Hl) as (Hn & Hlegs & m & Hm & Hodd & Hpos & Hs & Hid & ->).
    split_and!.
    + rewrite (legs_length participants m) by done. rewrite Hm. f_equal. lia.
    + intros round (l & Hr & Hin)%list_elem_of_In%in_concat. revert Hr Hin.
      rewrite <- !list_elem_of_In. intros (leg & -> & _)%list_elem_of_fmap Hin.
      by eapply leg_ids.
    + intros a b Ha Hb Hab. rewrite (legs_meets participants m) by done. lia.
Qed.

Lemma round_robin_complete_witness :
  ∃ rounds, generateRoundRobin ["a"; "b"; "c"; "d"; "e"] (Some 2) = Ok rounds ∧
    length rounds = 10%nat ∧ countb (meets "b" "e") (concat rounds) = 2.
Proof.
  destruct (generateRoundRobin ["a"; "b"; "c"; "d"; "e"] (Some 2)) as [rounds|] eqn:E;
    [|vm_compute in E; discriminate E].
  exists rounds. split; [reflexivity|].
  destruct (proj2 (round_robin_complete ["a"; "b"; "c"; "d"; "e"] 2 ltac:(cbn; lia)) rounds E)
    as (Hl & _ & Hm).
  split; [exact Hl|]. apply Hm; [apply list_elem_of_In; cbn; tauto|apply list_elem_of_In; cbn; tauto|
    discriminate].
Defined.

(** The schedule checker is sound and complete, as long as no id contains
    the separator of its keys: it finds nothing exactly when nobody plays twice
    in a round and any two participants meet [legs] times; so it accepts every
    generated schedule. *)
Theorem schedule_checker_correct (participants : list string) (rounds : list (list RoundRobinMatch))
    (legs : Z) :
  (∀ p, p ∈ participants → no_bar p = true) →
  (∀ round mt id, round ∈ rounds → mt ∈ round → id ∈ match_ids mt → no_bar id = true) →
  (validateRoundRobin participants rounds legs = [] ↔
   (∀ round, round ∈ rounds → NoDup (concat (match_ids <$> round))) ∧
   ∀ i j a b, (i < j)%nat → participants !! i = Some a → participants !! j = Some b →
     countb (meets a b) (concat rounds) = legs) ∧
  ((2 <= length participants)%nat →
   generateRoundRobin participants (Some legs) = Ok rounds →
   validateRoundRobin participants rounds legs = []).
Proof.
  intros Hp Hr.
  assert (validateRoundRobin participants rounds legs = [] ↔
   (∀ round, round ∈ rounds → NoDup (concat (match_ids <$> round))) ∧
   ∀ i j a b, (i < j)%nat → participants !! i = Some a → participants !! j = Some b →
     countb (meets a b) (concat rounds) = legs) as Hv.
  { unfold validateRoundRobin. rewrite app_nil, rounds_problems_nil, pair_problems_nil.
    apply ZifyClasses.and_morph; [done|].
    split; intros H i j a b Hij Ha Hb; specialize (H i j a b Hij Ha Hb);
      rewrite meeting_count in * by (eauto using list_elem_of_lookup_2); done. }
  split; [exact Hv|]. intros Hl H. apply Hv.
  destruct (generate_ok _ _ _ H Hl) as (Hn & Hlegs & m & Hm & Hodd & Hpos & Hs & Hid & ->). split.
  - intros round (l & Hrd & Hin)%list_elem_of_In%in_concat. revert Hrd Hin.
    rewrite <- !list_elem_of_In. intros (leg & -> & _)%list_elem_of_fmap Hin.
    by rewrite (leg_ids participants m).
  - intros i j a b Hij Ha Hb. rewrite (legs_meets participants m); try done.
    + lia.
    + by eapply list_elem_of_lookup_2.
    + by eapply list_elem_of_lookup_2.
    + intros ->. pose proof (NoDup_lookup _ _ _ _ Hn Ha Hb). lia.
Qed.

Lemma schedule_checker_correct_witness :
  validateRoundRobin ["a"; "b"] [[{| rr_home := "a"; rr_away := Some "b" |}]] 1 = [] ∧
  validateRoundRobin ["a"; "b"] [] 1 = [WrongMeetings "a|b" 0].
Proof.
  split; [|reflexivity].
  refine (proj2 (proj1 (schedule_checker_correct ["a"; "b"]
    [[{| rr_home := "a"; rr_away := Some "b" |}]] 1 _ _)) _).
  - intros p Hp. apply list_elem_of_In in Hp. destruct Hp as [<-|[<-|[]]]; reflexivity.
  - intros round mt id H1 H2 H3. apply list_elem_of_In in H1. destruct H1 as [<-|[]].
    apply list_elem_of_In in H2. destruct H2 as [<-|[]]. apply list_elem_of_In in H3.
    destruct H3 as [<-|[<-|[]]]; reflexivity.
  - split.
    + intros round H1. apply list_elem_of_In in H1. destruct H1 as [<-|[]].
      apply (bool_decide_unpack _). vm_compute. exact I.
    + intros [|[|i]] [|[|j]] a b Hij Ha Hb; try (exfalso; lia); try discriminate.
      injection Ha as <-. injection Hb as <-. reflexivity.
Defined.

(** ** Lemmas: brackets *)

Definition seq1 (size : Z) : list Z := (λ i, Z.of_nat i + 1) <$> seq 0 (Z.to_nat size).

(** Everything that must hold of a seed order, decided by computation. *)
Definition order_check (size : Z) : bool :=
  let order := seed_loop 6 size [1; 2] in
  bool_decide (sort_by (asc id) order = seq1 size)
  && forallb (λ p, (p.1 + p.2 =? size + 1) && (1 <=? Z.min p.1 p.2) && (2 * Z.min p.1 p.2 <=? size))
       (adjacent_pairs order)
  && bool_decide (concat ((λ p, [p.1; p.2]) <$> adjacent_pairs order) = order).

Lemma orders_checked : forallb order_check KNOCKOUT_BRACKET_SIZES = true.
Proof. vm_compute. reflexivity. Qed.

Lemma order_checked size : size ∈ KNOCKOUT_BRACKET_SIZES → order_check size = true.
Proof.
  intros H. pose proof orders_checked as Hc. rewrite forallb_forall in Hc.
  by apply Hc, list_elem_of_In.
Qed.

Lemma bracket_size_ok n size :
  knockoutBracketSize n = Ok size →
  2 ≤ n ≤ 64 ∧ n ≤ size < 2 * n ∧ size ∈ KNOCKOUT_BRACKET_SIZES ∧ size = 2 ^ Z.log2 size ∧
  1 ≤ Z.log2 size.
Proof.
  unfold knockoutBracketSize, MAX_KNOCKOUT_PARTICIPANTS. intros H.
  destruct (n <? 2) eqn:E1; [done|]. destruct (64 <? n) eqn:E2; [done|]. bool_to_prop.
  cbn [throw_if rbind] in H. split; [lia|].
  assert (forallb (λ n, match List.find (λ size, n <=? size) KNOCKOUT_BRACKET_SIZES with
    | Some size => (n <=? size) && (size <? 2 * n) && bool_decide (size ∈ KNOCKOUT_BRACKET_SIZES)
                   && (size =? 2 ^ Z.log2 size) && (1 <=? Z.log2 size)
    | None => false end) ((λ i, Z.of_nat i + 2) <$> seq 0 63) = true) as Hc by (vm_compute; reflexivity).
  rewrite forallb_forall in Hc. specialize (Hc n).
  destruct (List.find _ _) as [s|]; [|done]. injection H as <-.
  assert (((n <=? s) && (s <? 2 * n) && bool_decide (s ∈ KNOCKOUT_BRACKET_SIZES)
    && (s =? 2 ^ Z.log2 s) && (1 <=? Z.log2 s)) = true) as Hs.
  { apply Hc, list_elem_of_In, list_elem_of_fmap. exists (Z.to_nat (n - 2)). split; [lia|].
    apply elem_of_seq. lia. }
  bool_to_prop. split_and!; done || lia.
Qed.

Lemma seed_order_ok size order :
  standardSeedOrder size = Ok order → size ∈ KNOCKOUT_BRACKET_SIZES →
  order ≡ₚ seq1 size ∧
  (∀ a b, (a, b) ∈ adjacent_pairs order → a + b = size + 1 ∧ 1 ≤ Z.min a b ∧ 2 * Z.min a b ≤ size) ∧
  concat ((λ p, [p.1; p.2]) <$> adjacent_pairs order) = order.
Proof.
  unfold standardSeedOrder. intros H Hs. rewrite bool_decide_true in H by done.
  cbn [negb throw_if rbind] in H. injection H as <-.
  pose proof (order_checked _ Hs) as Hc. unfold order_check in Hc.
  apply andb_true_iff in Hc as [Hc H3].
  apply andb_true_iff in Hc as [H1 H2]. apply bool_decide_eq_true in H1, H3.
  split; [by rewrite <- H1, sort_by_perm|]. split; [|done].
  rewrite forallb_forall in H2. intros a b Hab%list_elem_of_In. apply H2 in Hab. cbn in Hab.
  bool_to_prop. lia.
Qed.

Definition pairing_players (p : KnockoutPairing) : list string :=
  kp_home p :: match kp_away p with Some a => [a] | None => [] end.

Lemma seeded_seq participants size :
  Z.of_nat (length participants) ≤ size → omap (seeded participants) (seq1 size) = participants.
Proof.
  intros H. unfold seq1, seeded.
  replace (Z.to_nat size) with (length participants + (Z.to_nat size - length participants))%nat by lia.
  rewrite seq_app, fmap_app, omap_app.
  assert (∀ k n, omap (λ seed, participants !! Z.to_nat (seed - 1))
    ((λ i, Z.of_nat i + 1) <$> seq (length participants + k) n) = []) as Hnil.
  { intros k n. revert k. induction n as [|n IH]; intros k; [done|].
    cbn [seq fmap list_fmap omap list_omap]. rewrite (lookup_ge_None_2 participants) by lia.
    replace (S (length participants + k)) with (length participants + S k)%nat by lia. apply IH. }
  replace (0 + length participants)%nat with (length participants + 0)%nat by lia.
  rewrite Hnil, app_nil_r. apply (omap_fmap_seq (λ seed, participants !! Z.to_nat (seed - 1))).
  intros i. f_equal. lia.
Qed.

(** The first round holds every entrant exactly once. *)
Lemma first_round_players participants pairings :
  generateKnockoutFirstRound participants = Ok pairings →
  NoDup participants ∧ concat (pairing_players <$> pairings) ≡ₚ participants ∧
  ∃ size, knockoutBracketSize (Z.of_nat (length participants)) = Ok size ∧
    Z.of_nat (length pairings) * 2 = size ∧
    ∀ p, p ∈ pairings → 1 ≤ kp_homeSeed p ∧ 2 * kp_homeSeed p ≤ size ∧
      seeded participants (kp_homeSeed p) = Some (kp_home p) ∧
      kp_away p = seeded participants (size + 1 - kp_homeSeed p).
Proof.
  unfold generateKnockoutFirstRound. intros H. destruct (negb _) eqn:Eu; [done|].
  apply negb_false_iff, Nat.eqb_eq in Eu. rewrite length_remove_dups_eq in Eu.
  cbn [throw_if rbind] in H. destruct (knockoutBracketSize _) as [size|] eqn:Es; [|done].
  cbn [rbind] in H. destruct (standardSeedOrder size) as [order|] eqn:Eo; [|done].
  cbn [rbind] in H. injection H as <-. split; [done|].
  destruct (bracket_size_ok _ _ Es) as (Hn & Hsize & Hin & _).
  destruct (seed_order_ok _ _ Eo Hin) as (Hperm & Hpairs & Hflat).
  assert (∀ slot a b, (a, b) ∈ adjacent_pairs order →
    let p := first_round_pairing participants slot a b in
    1 ≤ kp_homeSeed p ∧ 2 * kp_homeSeed p ≤ size ∧
    seeded participants (kp_homeSeed p) = Some (kp_home p) ∧
    kp_away p = seeded participants (size + 1 - kp_homeSeed p) ∧
    pairing_players p ≡ₚ omap (seeded participants) [a; b]) as Hp.
  { intros slot a b Hab. destruct (Hpairs a b Hab) as (Hsum & H1 & H2).
    assert (∀ better worse, better + worse = size + 1 → 1 ≤ better → 2 * better ≤ size →
      seeded participants better = Some (default "" (seeded participants better))) as Hd.
    { intros better worse ???. unfold seeded.
      destruct (lookup_lt_is_Some_2 participants (Z.to_nat (better - 1))) as [x ->]; [lia|done]. }
    unfold first_round_pairing. destruct (a <? b) eqn:Eab; bool_to_prop;
      cbn [kp_homeSeed kp_home kp_away pairing_players]; rewrite <- Hd with (worse := size + 1 - Z.min a b) by lia.
    - split_and!; [lia|lia|done|f_equal; lia|]. cbn [omap list_omap].
      rewrite (Hd a b) by lia. cbn. by destruct (seeded participants b).
    - split_and!; [lia|lia|done|f_equal; lia|]. cbn [omap list_omap].
      rewrite (Hd b a) by lia. cbn. destruct (seeded participants a); [constructor|done]. }
  split; [|exists size; split; [done|split]].
  - etrans; [|apply reflexive_eq, (seeded_seq participants size); lia].
    etrans; [|apply (omap_perm _ _ _ Hperm)]. rewrite <- Hflat at 2.
    assert (∀ l n, (∀ a b, (a, b) ∈ l → (a, b) ∈ adjacent_pairs order) →
      concat (pairing_players <$> imap (λ slot p, first_round_pairing participants (n + slot) p.1 p.2) l)
      ≡ₚ omap (seeded participants) (concat ((λ p, [p.1; p.2]) <$> l))) as Hl.
    { intros l. induction l as [|[a b] l IH]; intros n Hl; [done|].
      rewrite imap_cons. cbn [fmap list_fmap concat]. rewrite omap_app.
      apply Permutation_app; [by apply Hp, Hl; left|].
      etrans; [|apply (IH (S n)); intros; apply Hl; by right].
      apply reflexive_eq. f_equal. f_equal. apply imap_ext. intros i x _. cbn. f_equal. lia. }
    by apply (Hl _ O).
  - rewrite length_imap.
    assert (length order = Z.to_nat size) as Hol.
    { rewrite Hperm. unfold seq1. by rewrite length_fmap, length_seq. }
    assert (∀ l : list (Z * Z), length (concat ((λ p, [p.1; p.2]) <$> l)) = (2 * length l)%nat) as Hl2.
    { intros l. induction l as [|x l IH]; [done|]. cbn in *. lia. }
    pose proof (Hl2 (adjacent_pairs order)) as Hl. rewrite Hflat, Hol in Hl. lia.
  - intros p [i Hi]%list_elem_of_lookup. rewrite list_lookup_imap in Hi.
    apply fmap_Some in Hi as ([a b] & Hab & ->). apply list_elem_of_lookup_2 in Hab.
    destruct (Hp i a b Hab) as (?&?&?&?&_). done.
Qed.

(** Seeded apart: in every section of the bracket, one of the [2 ^ j] best. *)
Definition sections_check (size : Z) : bool :=
  let seeds := (λ p, Z.min p.1 p.2) <$> adjacent_pairs (seed_loop 6 size [1; 2]) in
  forallb (λ j, forallb (λ b,
       countb (λ s, s <=? 2 ^ Z.of_nat j)
         (take (2 ^ (Z.to_nat (Z.log2 size) - 1 - j))
            (drop (b * 2 ^ (Z.to_nat (Z.log2 size) - 1 - j)) seeds)) =? 1)
       (seq 0 (2 ^ j))) (seq 0 (Z.to_nat (Z.log2 size))).

Lemma sections_checked : forallb sections_check KNOCKOUT_BRACKET_SIZES = true.
Proof. vm_compute. reflexivity. Qed.

Lemma home_seeds participants pairings size :
  knockoutBracketSize (Z.of_nat (length participants)) = Ok size →
  generateKnockoutFirstRound participants = Ok pairings →
  kp_homeSeed <$> pairings = (λ p, Z.min p.1 p.2) <$> adjacent_pairs (seed_loop 6 size [1; 2]).
Proof.
  unfold generateKnockoutFirstRound. intros Es H. destruct (negb _); [done|].
  cbn [throw_if rbind] in H. rewrite Es in H. cbn [rbind] in H. unfold standardSeedOrder in H.
  destruct (negb _); [done|]. cbn [throw_if rbind] in H. revert H.
  generalize (seed_loop 6 size [1; 2]). intros order H. injection H as <-.
  generalize (adjacent_pairs order). intros l.
  rewrite fmap_imap. apply list_eq. intros i. rewrite list_lookup_imap, list_lookup_fmap.
  destruct (l !! i) as [[a b]|]; [|done]. cbn. unfold first_round_pairing.
  destruct (a <? b) eqn:E; bool_to_prop; cbn; f_equal; lia.
Qed.

(** The first round of a knockout cup is a fair bracket: it holds every
    entrant exactly once, the sides of a match are seeds [s] and
    [size + 1 - s], exactly the top [size - n] seeds have a bye, and for every
    [j] the [2 ^ j] best seeds sit in the [2 ^ j] different sections of the
    bracket, so they cannot meet before the round of [2 ^ j]. *)
Theorem knockout_first_round_fair (participants : list string) (pairings : list KnockoutPairing) :
  generateKnockoutFirstRound participants = Ok pairings →
  let n := Z.of_nat (length participants) in
  ∃ size, knockoutBracketSize n = Ok size ∧ n ≤ size < 2 * n ∧
    size = 2 ^ knockoutRoundCount size ∧
    Z.of_nat (length pairings) * 2 = size ∧
    NoDup participants ∧ concat (pairing_players <$> pairings) ≡ₚ participants ∧
    (∀ p, p ∈ pairings →
       seeded participants (kp_homeSeed p) = Some (kp_home p) ∧
       kp_away p = seeded participants (size + 1 - kp_homeSeed p) ∧
       (kp_away p = None ↔ kp_homeSeed p ≤ size - n)) ∧
    (∀ j b, (j < Z.to_nat (knockoutRoundCount size))%nat → (b < 2 ^ j)%nat →
       let section := (2 ^ (Z.to_nat (knockoutRoundCount size) - 1 - j))%nat in
       countb (λ p, kp_homeSeed p <=? 2 ^ Z.of_nat j)
         (take section (drop (b * section) pairings)) = 1).
Proof.
  intros H n. destruct (first_round_players _ _ H) as (Hnd & Hp & size & Hs & Hlen & Hall).
  destruct (bracket_size_ok _ _ Hs) as (Hn & Hsize & Hin & Hpow & Hlog).
  exists size. unfold knockoutRoundCount. split_and!; try done; try (unfold n; lia).
  - intros p Hin'. destruct (Hall p Hin') as (H1 & H2 & H3 & H4). split_and!; [done..|].
    rewrite H4. unfold seeded. rewrite lookup_ge_None. unfold n in *. lia.
  - intros j b Hj Hb. cbn zeta. pose proof sections_checked as Hc.
    rewrite forallb_forall in Hc. apply list_elem_of_In, Hc in Hin. unfold sections_check in Hin.
    rewrite <- (home_seeds _ _ _ Hs H) in Hin. rewrite forallb_forall in Hin.
    specialize (Hin j). rewrite forallb_forall in Hin.
    assert (In j (seq 0 (Z.to_nat (Z.log2 size)))) as Hj' by (apply list_elem_of_In, elem_of_seq; lia).
    specialize (Hin Hj' b). rewrite Z.eqb_eq, <- list_elem_of_In, elem_of_seq in Hin.
    rewrite <- fmap_drop, <- fmap_take, countb_fmap in Hin. apply Hin. lia.
Qed.

Lemma knockout_first_round_fair_witness :
  let pairings := match generateKnockoutFirstRound ["a"; "b"; "c"; "d"; "e"] with
                  | Ok l => l | Err _ => [] end in
  concat (pairing_players <$> pairings) ≡ₚ ["a"; "b"; "c"; "d"; "e"].
Proof.
  destruct (knockout_first_round_fair ["a"; "b"; "c"; "d"; "e"]
    (match generateKnockoutFirstRound ["a"; "b"; "c"; "d"; "e"] with Ok l => l | Err _ => [] end)
    ltac:(vm_compute; reflexivity)) as (size & _ & _ & _ & _ & _ & H & _). exact H.
Defined.

(** ** Lemmas: advancing a cup *)

Lemma adjacent_pairs_even {A} (l : list A) k :
  length l = (2 * k)%nat →
  concat ((λ p, [p.1; p.2]) <$> adjacent_pairs l) = l ∧ length (adjacent_pairs l) = k.
Proof.
  revert l. induction k as [|k IH]; intros [|a [|b l]] H; cbn in H; try lia; [done|].
  destruct (IH l) as [H1 H2]; [lia|]. cbn [adjacent_pairs fmap list_fmap concat app length].
  cbn [fst snd]. by rewrite H1, H2.
Qed.

Definition fixture_players (f : CupFixture) : list string :=
  fx_homeMemberId f :: match fx_awayMemberId f with Some a => [a] | None => [] end.

(** Round [k] rounds before the final: [2 ^ k] open matches among distinct
    managers of [P], and nothing of the cup scheduled later. *)
Record round_ready (db : CupDb) (leagueId : string) (gw : Z) (k : nat) (P : list string) : Prop := {
  rd_length : length (List.filter (is_round leagueId gw) (leagueFixture db)) = (2 ^ k)%nat;
  rd_open : ∀ f, f ∈ leagueFixture db → is_round leagueId gw f = true → fx_isFinished f = false;
  rd_distinct : NoDup (concat (fixture_players <$>
    List.filter (is_round leagueId gw) (leagueFixture db)));
  rd_entrants : concat (fixture_players <$> List.filter (is_round leagueId gw) (leagueFixture db)) ⊆ P;
  rd_last : ∀ f, f ∈ leagueFixture db → is_cup leagueId f = true → fx_gameweekId f ≤ gw
}.

Lemma is_round_cup leagueId gw f :
  is_round leagueId gw f = true ↔ is_cup leagueId f = true ∧ fx_gameweekId f = gw.
Proof. unfold is_round. by rewrite andb_true_iff, Z.eqb_eq. Qed.

Lemma is_round_new leagueId gw gw' round slot home away :
  is_round leagueId gw (new_fixture leagueId gw' round slot home away) = (gw' =? gw).
Proof. unfold is_round, is_cup. cbn. by rewrite bool_decide_true. Qed.

Section cup.
Context (sha256_byte0 : string → Z).

Lemma resolve_winner home away hs as_ hst ast seed :
  mr_winner (resolveKnockoutMatch sha256_byte0 home away hs as_ hst ast seed)
  ∈ home :: match away with Some a => [a] | None => [] end.
Proof.
  unfold resolveKnockoutMatch, virtualCoinToss. destruct away as [a|]; [|cbn; by left].
  repeat match goal with |- context [if ?b then _ else _] => destruct b end; cbn;
    first [by left|by right; left].
Qed.

Lemma settle_fixture_round seed scoreOf statsOf leagueId gw f :
  is_round leagueId gw (settle_fixture sha256_byte0 seed scoreOf statsOf f) = is_round leagueId gw f.
Proof. done. Qed.

Lemma filter_fmap_same (p : CupFixture → bool) (g : CupFixture → CupFixture) l :
  (∀ f, p (g f) = p f) → List.filter p (g <$> l) = g <$> List.filter p l.
Proof. apply lfilter_fmap. Qed.

Lemma winners_distinct (fs : list CupFixture) (w : CupFixture → string) :
  NoDup (concat (fixture_players <$> fs)) → (∀ f, f ∈ fs → w f ∈ fixture_players f) →
  NoDup (w <$> fs) ∧ w <$> fs ⊆ concat (fixture_players <$> fs).
Proof.
  induction fs as [|f fs IH]; cbn [fmap list_fmap concat]; [by split; [constructor|]|].
  intros (H1 & H2 & H3)%list.NoDup_app Hw.
  destruct IH as [IH1 IH2]; [done|intros; apply Hw; by right|].
  assert (w f ∈ fixture_players f) as Hf by (apply Hw; by left). split.
  - apply list.NoDup_cons. split; [|done]. intros Hin. by apply (H2 _ Hf), IH2.
  - intros x [->|Hx]%elem_of_cons; apply elem_of_app; auto.
Qed.

(** What [advanceKnockoutRound] does with a round that is complete. *)
Lemma advance_complete leagueId gw db (ws : list string) k P :
  let round := List.filter (is_round leagueId gw) (leagueFixture db) in
  (∀ f, f ∈ round → fx_isFinished f = true) →
  ws = (λ f, default (fx_homeMemberId f) (fx_winnerMemberId f))
         <$> sort_by (asc (λ f, default 0 (fx_playoffSlot f))) round →
  length ws = (2 ^ k)%nat → NoDup ws → ws ⊆ P →
  (∀ f, f ∈ leagueFixture db → is_cup leagueId f = true → fx_gameweekId f ≤ gw) →
  ∃ next champion db', advanceKnockoutRound leagueId gw db = Ok ((next, champion), db') ∧
    match k with
    | O => ∃ c, champion = Some c ∧ c ∈ P
    | S k' => champion = None ∧ round_ready db' leagueId (gw + 1) k' P
    end.
Proof.
  cbn zeta. intros Hfin Hws Hlen Hnd HP Hlast. unfold advanceKnockoutRound.
  set (round := List.filter (is_round leagueId gw) (leagueFixture db)) in *.
  assert (length round = (2 ^ k)%nat) as Hround.
  { rewrite <- Hlen, Hws, length_fmap. by rewrite length_sort_by. }
  pose proof (Nat.pow_nonzero 2 k ltac:(done)) as Hpos.
  rewrite bool_decide_false by lia.
  assert (existsb (λ f, negb (fx_isFinished f)) round = false) as ->.
  { apply not_true_iff_false. rewrite existsb_exists. intros (f & Hf & Hn).
    apply list_elem_of_In, Hfin in Hf. by rewrite Hf in Hn. }
  cbn [orb]. rewrite <- Hws. destruct k as [|k].
  - destruct ws as [|c [|]]; try done. eexists _, _, _. split; [done|]. exists c.
    split; [done|]. apply HP. by left.
  - assert (length ws = (2 * 2 ^ k)%nat) as Hl2 by (rewrite Hlen; cbn; lia).
    assert (existsb (is_round leagueId (gw + 1)) (leagueFixture db) = false) as Hno.
    { apply not_true_iff_false. rewrite existsb_exists. intros (f & Hf%list_elem_of_In & Hr).
      apply is_round_cup in Hr as [Hcup Hgw]. apply (Hlast f Hf) in Hcup. lia. }
    destruct ws as [|w1 [|w2 ws']] eqn:Ews; [done|cbn in Hl2; lia|]. rewrite <- Ews in *.
    rewrite Hno. unfold nextRoundPairings.
    rewrite (proj2 (Nat.ltb_ge _ _)) by (rewrite Hl2; pose proof (Nat.pow_nonzero 2 k ltac:(done)); lia).
    rewrite Hl2, Nat.mul_comm, Nat.Div0.mod_mul. cbn [orb negb Nat.eqb throw_if rbind].
    eexists _, _, _. split; [reflexivity|]. split; [done|].
    destruct (adjacent_pairs_even ws (2 ^ k) Hl2) as [Hflat Hpl].
    set (rnd := default 1 _ + 1).
    set (new := (λ p : Z * string * string, new_fixture leagueId (gw + 1) rnd p.1.1 p.1.2 (Some p.2))
      <$> imap (λ slot p, (Z.of_nat slot, p.1, p.2)) (adjacent_pairs ws)).
    assert (∀ f, f ∈ new → fx_isFinished f = false ∧ fx_gameweekId f = gw + 1) as Hnew.
    { intros f ([[slot h] a] & -> & _)%list_elem_of_fmap. done. }
    assert (List.filter (is_round leagueId (gw + 1)) (leagueFixture db ++ new) = new) as Hfilter.
    { rewrite List.filter_app, lfilter_nil; cbn [app].
      - unfold new. rewrite (lfilter_fmap _ _ (λ _, true)).
        + f_equal. generalize (imap (λ slot p, (Z.of_nat slot, p.1, p.2)) (adjacent_pairs ws)).
          intros l. induction l as [|x l IH]; cbn; [done|]. by rewrite IH.
        + intros p. rewrite is_round_new. apply Z.eqb_refl.
      - intros f Hf. apply not_true_iff_false. intros Hr.
        rewrite <- not_true_iff_false, existsb_exists in Hno. apply Hno. exists f.
        by rewrite <- list_elem_of_In. }
    assert (concat (fixture_players <$> new) = ws) as Hplayers.
    { etrans; [|exact Hflat]. unfold new. rewrite <- list_fmap_compose.
      generalize (adjacent_pairs ws). intros l.
      assert (∀ g : nat → Z, concat (fixture_players ∘ (λ p : Z * string * string,
          new_fixture leagueId (gw + 1) rnd p.1.1 p.1.2 (Some p.2)) <$>
          imap (λ slot (p : string * string), (g slot, p.1, p.2)) l) =
        concat ((λ p, [p.1; p.2]) <$> l)) as Hg.
      { induction l as [|[h a] l IH]; intros g; [done|].
        rewrite imap_cons. cbn [fmap list_fmap concat]. f_equal. apply (IH (λ i, g (S i))). }
      apply Hg. }
    constructor; cbn [leagueFixture with_fixtures]; rewrite ?Hfilter, ?Hplayers; try done.
    + unfold new. by rewrite length_fmap, length_imap.
    + intros f [Hf|Hf]%elem_of_app Hr; [|by apply Hnew].
      apply is_round_cup in Hr as [Hcup Hgw]. apply (Hlast f Hf) in Hcup. lia.
    + intros f [Hf|Hf]%elem_of_app Hc; [apply (Hlast f Hf) in Hc; lia|].
      apply Hnew in Hf as [_ ->]. lia.
Qed.

(** Settling a ready round. *)
Lemma settle_ready leagueId gw useLeague db k P :
  round_ready db leagueId gw k P →
  ∃ r db', settleKnockoutGameweek sha256_byte0 leagueId gw useLeague db = Ok (r, db') ∧
    ks_settled r = (2 ^ k)%nat ∧
    match k with
    | O => ∃ c, ks_champion r = Some c ∧ c ∈ P
    | S k' => ks_champion r = None ∧ round_ready db' leagueId (gw + 1) k' P
    end.
Proof.
  intros [H1 H2 H3 H4 H5]. unfold settleKnockoutGameweek.
  set (round := List.filter (is_round leagueId gw) (leagueFixture db)) in *.
  set (pending f := is_round leagueId gw f && negb (fx_isFinished f)).
  assert (List.filter pending (leagueFixture db) = round) as Hp.
  { apply lfilter_ext. intros f Hf. unfold pending. destruct (is_round leagueId gw f) eqn:E; [|done].
    by rewrite (H2 f Hf E). }
  rewrite Hp, H1. pose proof (Nat.pow_nonzero 2 k ltac:(done)) as Hpos.
  rewrite bool_decide_false by lia.
  match goal with |- context [settle_fixture sha256_byte0 ?seed ?sc ?st] =>
    set (settle := settle_fixture sha256_byte0 seed sc st) end.
  set (db1 := with_fixtures db ((λ f, if pending f then settle f else f) <$> leagueFixture db)).
  assert (List.filter (is_round leagueId gw) (leagueFixture db1) = settle <$> round) as Hround1.
  { unfold db1. cbn [leagueFixture with_fixtures]. rewrite filter_fmap_same.
    - fold round. apply list_fmap_ext. intros i f Hf. apply list_elem_of_lookup_2 in Hf.
      assert (pending f = true) as ->; [|done]. rewrite <- Hp in Hf. by apply elem_of_lfilter in Hf as [_ ?].
    - intros f. by destruct (pending f). }
  set (w f := default (fx_homeMemberId f) (fx_winnerMemberId f)).
  assert (∀ f, w (settle f) ∈ fixture_players f) as Hw.
  { intros f. unfold w, settle. cbn. apply resolve_winner. }
  destruct (winners_distinct round (w ∘ settle) H3 (λ f _, Hw f)) as [Hnd Hsub].
  set (ws := w <$> sort_by (asc (λ f, default 0 (fx_playoffSlot f))) (settle <$> round)).
  assert (ws ≡ₚ w ∘ settle <$> round) as Hws.
  { unfold ws. rewrite sort_by_perm, <- list_fmap_compose. done. }
  destruct (advance_complete leagueId gw db1 ws k P) as (next & champion & db' & Ha & Hk).
  - rewrite Hround1. intros f (f0 & -> & _)%list_elem_of_fmap. done.
  - by rewrite Hround1.
  - by rewrite Hws, length_fmap.
  - by rewrite Hws.
  - intros x Hx. apply H4, Hsub. by rewrite <- Hws.
  - unfold db1. cbn [leagueFixture with_fixtures].
    intros f (f0 & -> & Hf0)%list_elem_of_fmap Hc. destruct (pending f0); exact (H5 f0 Hf0 Hc).
  - match goal with |- context [advanceKnockoutRound leagueId gw ?d] => change d with db1 end.
    rewrite Ha. cbn [rbind]. eexists _, _. split; [reflexivity|]. cbn [ks_settled ks_champion].
    split; [done|]. destruct k; [done|]. destruct Hk as [-> Hk]. done.
Qed.

(** A cup played to the end: each gameweek the world outside the fixtures moves
    on by some update, then the gameweek is settled. *)
Fixpoint play_cup (leagueId : string) (gw : Z) (useLeague : bool) (updates : list (CupDb → CupDb))
    (db : CupDb) : result TournamentError (option string * CupDb) :=
  match updates with
  | [] => Ok (None, db)
  | update :: updates =>
      let* '(r, db) := settleKnockoutGameweek sha256_byte0 leagueId gw useLeague (update db) in
      match ks_champion r with
      | Some c => Ok (Some c, db)
      | None => play_cup leagueId (gw + 1) useLeague updates db
      end
  end.

Lemma play_ready leagueId useLeague updates k : ∀ gw db P,
  round_ready db leagueId gw k P → length updates = S k →
  (∀ u d, u ∈ updates → leagueFixture (u d) = leagueFixture d) →
  ∃ c db', play_cup leagueId gw useLeague updates db = Ok (Some c, db') ∧ c ∈ P.
Proof.
  revert updates. induction k as [|k IH]; intros [|u updates] gw db P Hr Hl Hu; try done;
    cbn [play_cup];
    assert (round_ready (u db) leagueId gw _ P) as Hr' by
      (destruct Hr; constructor; rewrite (Hu u db) by (by left); done);
    destruct (settle_ready _ _ useLeague _ _ _ Hr') as (r & db' & -> & _ & Hk); cbn [rbind].
  - destruct Hk as (c & -> & Hc). by exists c, db'.
  - destruct Hk as [-> Hk]. apply (IH updates (gw + 1) db' P Hk); [by injection Hl|].
    intros v d Hv. apply Hu. by right.
Qed.

(** Before its last round a cup has no champion. *)
Lemma play_short leagueId useLeague updates : ∀ k gw db P,
  round_ready db leagueId gw k P → (length updates <= k)%nat →
  (∀ u d, u ∈ updates → leagueFixture (u d) = leagueFixture d) →
  ∃ db', play_cup leagueId gw useLeague updates db = Ok (None, db').
Proof.
  induction updates as [|u updates IH]; intros k gw db P Hr Hl Hu; [by exists db|].
  destruct k as [|k]; cbn [length] in Hl; [lia|]. cbn [play_cup].
  assert (round_ready (u db) leagueId gw (S k) P) as Hr' by
    (destruct Hr; constructor; rewrite (Hu u db) by (by left); done).
  destruct (settle_ready _ _ useLeague _ _ _ Hr') as (r & db' & -> & _ & Hn & Hk). cbn [rbind].
  rewrite Hn. apply (IH k (gw + 1) db' P Hk); [lia|]. intros v d Hv. apply Hu. by right.
Qed.

End cup.

(** Who plays a cup: the given seeds, or the best 64 active members in the order
    of the standings. *)
Definition cup_entrants (leagueId : string) (seeds : option (list string)) (db : CupDb) : list string :=
  default (take 64 (cm_id <$> sort_by by_rank
    (List.filter (λ m, bool_decide (cm_leagueId m = leagueId) && cm_isActive m) (leagueMember db)))) seeds.

(** A created cup is ready for its first round. *)
Lemma create_ready leagueId start seeds db size rounds final pairings db' :
  createKnockoutCup leagueId start seeds db = Ok ((size, rounds, final, pairings), db') →
  let entrants := cup_entrants leagueId seeds db in
  (∃ first last, map_get leagueId (leagues db) = Some (first, last) ∧ first ≤ start ∧ final ≤ last) ∧
  (∀ f, f ∈ leagueFixture db → is_cup leagueId f = false) ∧
  (∀ id, id ∈ entrants → ∃ m, m ∈ leagueMember db ∧ cm_id m = id ∧ cm_leagueId m = leagueId ∧ cm_isActive m = true) ∧
  NoDup entrants ∧ 2 ≤ Z.of_nat (length entrants) ≤ 64 ∧
  rounds = Z.log2_up (Z.of_nat (length entrants)) ∧ final = start + rounds - 1 ∧
  ∃ k, rounds = Z.of_nat (S k) ∧ round_ready db' leagueId start k entrants.
Proof.
  unfold createKnockoutCup, cup_entrants. intros H.
  destruct (map_get leagueId (leagues db)) as [[lo hi]|]; [|done]. cbn [or_throw rbind] in H.
  set (memberIds := cm_id <$> sort_by _ _) in *.
  assert (∀ id, id ∈ memberIds → ∃ m, m ∈ leagueMember db ∧ cm_id m = id ∧ cm_leagueId m = leagueId ∧ cm_isActive m = true) as Hm.
  { intros id (m & -> & Hin)%list_elem_of_fmap. exists m.
    apply elem_of_sort_by, elem_of_lfilter in Hin as [Hin Hf]. bool_to_prop. done. }
  destruct (match seeds with Some ids => _ | None => _ end) as [entrants|] eqn:Es; [|done].
  assert (entrants ⊆ memberIds ∧ default (take 64 memberIds) seeds = entrants) as [He ->].
  { destruct seeds as [ids|].
    - destruct (bool_decide _) eqn:Eb; cbn in Es; [|done]. injection Es as <-.
      apply bool_decide_eq_true, length_zero_iff_nil in Eb. split; [|done].
      intros id Hid. destruct (decide (id ∈ memberIds)) as [|Hn]; [done|]. exfalso.
      assert (id ∈ List.filter (λ id, negb (bool_decide (id ∈ memberIds))) ids) as Hf.
      { apply elem_of_lfilter. split; [done|]. by apply negb_true_iff, bool_decide_eq_false. }
      rewrite Eb in Hf. by apply elem_of_nil in Hf.
    - injection Es as <-. split; [|done]. intros id Hid. by eapply elem_of_sublist, sublist_take. }
  cbn [rbind] in H. destruct (generateKnockoutFirstRound entrants) as [ps|] eqn:Ep; [|done].
  cbn [rbind] in H.
  destruct (first_round_players _ _ Ep) as (Hnd & Hpl & size' & Hs' & Hlen & _).
  rewrite Hs' in H. cbn [rbind] in H. destruct (bracket_size_ok _ _ Hs') as (Hcount & Hsize & _ & Hpow & Hlog).
  destruct (_ || _) eqn:Efit; [done|]. apply orb_false_iff in Efit as [Efit1 Efit2]. cbn [throw_if rbind] in H.
  destruct (existsb (is_cup leagueId) (leagueFixture db)) eqn:Ex; [done|]. cbn [throw_if rbind] in H.
  injection H as -> <- <- -> <-.
  set (new := (λ p : KnockoutPairing, new_fixture leagueId start 1 (kp_slot p) (kp_home p) (kp_away p))
    <$> pairings).
  assert (∀ f, f ∈ leagueFixture db → is_cup leagueId f = false) as Hno.
  { intros f Hf. apply not_true_iff_false. intros Hc. rewrite <- not_true_iff_false, existsb_exists in Ex.
    apply Ex. exists f. by rewrite <- list_elem_of_In. }
  cbn zeta. split; [exists lo, hi; cbn [fst snd] in *; bool_to_prop; split_and!; [done|lia|lia]|].
  split; [exact Hno|]. split; [auto|]. split; [done|]. split; [lia|]. unfold knockoutRoundCount in *.
  split; [symmetry; apply Z.log2_up_unique; [lia|]; rewrite <- Hpow;
    replace size with (2 * 2 ^ Z.pred (Z.log2 size)) in Hsize at 2
      by (rewrite <- Z.pow_succ_r, Z.succ_pred by lia; done); lia|].
  split; [done|]. exists (Z.to_nat (Z.log2 size) - 1)%nat. split; [lia|].
  assert (List.filter (is_round leagueId start) (leagueFixture db ++ new) = new) as Hf.
  { rewrite List.filter_app, lfilter_nil; cbn [app].
    - unfold new. rewrite (lfilter_fmap _ _ (λ _, true)).
      + f_equal. clear. induction pairings as [|x l IH]; cbn; [done|]. by rewrite IH.
      + intros p. rewrite is_round_new. apply Z.eqb_refl.
    - intros f Hf. unfold is_round. by rewrite (Hno f Hf). }
  assert (fixture_players <$> new = pairing_players <$> pairings) as Hfp.
  { unfold new. rewrite <- list_fmap_compose. done. }
  constructor; cbn [leagueFixture with_fixtures]; rewrite ?Hf, ?Hfp.
  - unfold new. rewrite length_fmap. apply Nat2Z.inj. rewrite Nat2Z.inj_pow.
    apply (Z.mul_reg_r _ _ 2); [done|]. rewrite Hlen, Hpow at 1.
    replace (Z.log2 size) with (Z.of_nat (Z.to_nat (Z.log2 size) - 1) + 1) at 1 by lia.
    rewrite Z.pow_add_r by lia. done.
  - intros f [Hin|Hin]%elem_of_app Hr.
    + apply is_round_cup in Hr as [Hr _]. by rewrite (Hno f Hin) in Hr.
    + by apply list_elem_of_fmap in Hin as (p & -> & _).
  - by rewrite Hpl.
  - by rewrite Hpl.
  - intros f [Hin|Hin]%elem_of_app Hc; [by rewrite (Hno f Hin) in Hc|].
    by apply list_elem_of_fmap in Hin as (p & -> & _).
Qed.

(** C40. A cup that is created fits the league and reaches its final: no cup
    was there before; its entrants are the given seeds or else the best 64 active
    members in the order of the standings, all of them active members of the
    league, each once; its gameweeks, from the start to the announced final, are
    the league's; and settling one gameweek after the other crowns one of the
    entrants after exactly the announced number of rounds, the binary logarithm
    of their number rounded up, and nobody before, whatever scores, members and
    statistics the other services write meanwhile. *)
Theorem knockout_cup_crowns_champion (sha256_byte0 : string → Z) (leagueId : string) (start : Z)
    (seeds : option (list string)) (db db' : CupDb) (size rounds final : Z)
    (pairings : list KnockoutPairing) (useLeagueScoring : bool) (updates : list (CupDb → CupDb)) :
  createKnockoutCup leagueId start seeds db = Ok ((size, rounds, final, pairings), db') →
  (∀ u d, u ∈ updates → leagueFixture (u d) = leagueFixture d) →
  let entrants := cup_entrants leagueId seeds db in
  let play := play_cup sha256_byte0 leagueId start useLeagueScoring updates db' in
  (∃ first last, map_get leagueId (leagues db) = Some (first, last) ∧ first ≤ start ∧ final ≤ last) ∧
  (∀ f, f ∈ leagueFixture db → is_cup leagueId f = false) ∧
  (∀ id, id ∈ entrants → ∃ m, m ∈ leagueMember db ∧ cm_id m = id ∧ cm_leagueId m = leagueId ∧ cm_isActive m = true) ∧
  NoDup entrants ∧ 2 ≤ Z.of_nat (length entrants) ≤ 64 ∧
  rounds = Z.log2_up (Z.of_nat (length entrants)) ∧ final = start + rounds - 1 ∧
  (Z.of_nat (length updates) < rounds → ∃ db'', play = Ok (None, db'')) ∧
  (Z.of_nat (length updates) = rounds → ∃ champion db'', play = Ok (Some champion, db'') ∧ champion ∈ entrants).
Proof.
  intros H Hu. destruct (create_ready _ _ _ _ _ _ _ _ _ H) as (H1 & H2 & H3 & H4 & H5 & H6 & H7 & k & Hr & Hready).
  split_and!; try done; try lia; intros Hl.
  - apply (play_short _ _ _ _ k _ _ _ Hready); [lia|done].
  - destruct (play_ready sha256_byte0 leagueId useLeagueScoring updates k start db' _ Hready)
      as (c & db'' & Hc & Hin); [lia|done|]. by exists c, db''.
Qed.

Definition sample_member (id : string) (points : Z) : CupMember :=
  {| cm_id := id; cm_leagueId := "L"; cm_isActive := true; cm_squadId := id; cm_h2hPoints := 0;
     cm_totalPoints := points; cm_pointsFor := 0; cm_joinedAt := 0 |}.

Definition sample_cup_db : CupDb :=
  {| leagues := [("L", (1, 10))];
     leagueMember := [sample_member "a" 5; sample_member "b" 7; sample_member "c" 3];
     leagueFixture := []; squadGameweekScore := [(1, "a", 50); (1, "c", 60); (2, "b", 40)];
     leagueGameweekScore := []; squadStarters := []; playerGameweekStats := [] |}.

Definition sample_hash (s : string) : Z := Z.of_nat (String.length s).

Lemma knockout_cup_crowns_champion_witness :
  match createKnockoutCup "L" 1 None sample_cup_db with
  | Ok ((_, rounds, final, _), db) => rounds = 2 ∧ final = 2 ∧ cup_entrants "L" None sample_cup_db = ["b"; "a"; "c"] ∧
      ∃ c d, play_cup sample_hash "L" 1 false [λ d, d; λ d, d] db = Ok (Some c, d) ∧ c ∈ ["b"; "a"; "c"]
  | Err _ => False
  end ∧
  createKnockoutCup "L" 10 None sample_cup_db = Err CupDoesNotFit.
Proof.
  split; [|vm_compute; reflexivity].
  destruct (createKnockoutCup "L" 1 None sample_cup_db) as [[[[[size rounds] final] ps] db]|e] eqn:E;
    [|vm_compute in E; discriminate E].
  assert (cup_entrants "L" None sample_cup_db = ["b"; "a"; "c"]) as He by (vm_compute; reflexivity).
  destruct (knockout_cup_crowns_champion sample_hash "L" 1 None sample_cup_db db size rounds final ps false
    [λ d, d; λ d, d] E) as (_ & _ & _ & _ & _ & Hr & Hf & _ & Hc).
  { intros u d [->|[->|[]%elem_of_nil]%elem_of_cons]%elem_of_cons; reflexivity. }
  rewrite He in *. assert (rounds = 2) as Hr2 by (rewrite Hr; reflexivity).
  destruct Hc as (c & d & Hp & Hc); [rewrite Hr2; reflexivity|].
  split_and!; [exact Hr2|rewrite Hf, Hr2; reflexivity|reflexivity|]. exists c, d. split; [exact Hp|exact Hc].
Defined.

(** ** Lemmas: tie-breaks *)

Lemma leb_total a b : String.leb a b = false → String.leb b a = true.
Proof. destruct (String.leb_total a b) as [H|H]; rewrite H; done. Qed.

Lemma virtualCoinToss_sym sha256_byte0 seed a b :
  virtualCoinToss sha256_byte0 seed a b = virtualCoinToss sha256_byte0 seed b a.
Proof.
  unfold virtualCoinToss. destruct (String.leb a b) eqn:E1, (String.leb b a) eqn:E2; try done.
  - by rewrite (String.leb_antisym a b E1 E2).
  - by rewrite leb_total in E2.
Qed.

(** The criteria of a match in their order: points, then goals scored, then
    fewest goals conceded. *)
Definition criteria (score : Z) (stats : option TieBreakStats) : list Z :=
  let s := default no_stats stats in [score; goalsScored s; - goalsConceded s].

Fixpoint lex_compare (a b : list Z) : comparison :=
  match a, b with
  | x :: a, y :: b => match x ?= y with Eq => lex_compare a b | c => c end
  | _, _ => Eq
  end.

(** A knockout match between two managers is decided by the first
    criterion that separates them and otherwise by the coin toss, its winner
    and loser are its two sides, and the outcome does not depend on who is
    named home. *)
Theorem knockout_match_order_independent (sha256_byte0 : string → Z) (seed a b : string)
    (sa sb : Z) (ta tb : option TieBreakStats) :
  a ≠ b →
  let m := resolveKnockoutMatch sha256_byte0 a (Some b) sa sb ta tb seed in
  m = resolveKnockoutMatch sha256_byte0 b (Some a) sb sa tb ta seed ∧
  (mr_winner m = a ∧ mr_loser m = Some b ∨ mr_winner m = b ∧ mr_loser m = Some a) ∧
  mr_winner m = match lex_compare (criteria sa ta) (criteria sb tb) with
                | Gt => a
                | Lt => b
                | Eq => virtualCoinToss sha256_byte0 seed a b
                end.
Proof.
  intros Hab. cbn zeta. unfold resolveKnockoutMatch, criteria.
  rewrite (virtualCoinToss_sym _ seed b a).
  assert (virtualCoinToss sha256_byte0 seed a b = a ∨ virtualCoinToss sha256_byte0 seed a b = b) as Hv.
  { unfold virtualCoinToss. destruct (String.leb a b), (_ =? 0); auto. }
  rewrite (Z.eqb_sym sb sa).
  rewrite (Z.eqb_sym (goalsScored (default no_stats tb))).
  rewrite (Z.eqb_sym (goalsConceded (default no_stats tb))).
  cbn [lex_compare].
  generalize (goalsScored (default no_stats ta)), (goalsScored (default no_stats tb)),
    (goalsConceded (default no_stats ta)), (goalsConceded (default no_stats tb)).
  intros gsa gsb gca gcb.
  destruct (Z.compare_spec sa sb), (Z.compare_spec gsa gsb), (Z.compare_spec (- gca) (- gcb));
    repeat (match goal with
      | |- context [?x =? ?y] => destruct (Z.eqb_spec x y); try lia
      | |- context [?x <? ?y] => destruct (Z.ltb_spec x y); try lia
      end; cbn [negb]);
    cbn; auto.
  destruct Hv as [-> | ->]; repeat case_decide; try done; auto.
Qed.

Lemma knockout_match_order_independent_witness :
  mr_winner (resolveKnockoutMatch sample_hash "a" (Some "b") 50 50 None
    (Some {| goalsScored := 1; goalsConceded := 0 |}) "L:1") = "b".
Proof.
  rewrite (proj2 (proj2 (knockout_match_order_independent sample_hash "L:1" "a" "b" 50 50 None
    (Some {| goalsScored := 1; goalsConceded := 0 |}) ltac:(discriminate)))). reflexivity.
Defined.
