(* ===== verification/LeagueDb.v ===== *)
(** * The tables of the league service

    The rows of [backend/prisma/schema.prisma] that [leagueService.ts] reads
    and writes, with the columns it uses, the updates it sends, and what the
    database promises: updates of a missing row fail, unique keys stay unique. *)

From Stdlib Require Import QArith.
From S2P Require Import Prelude Prize ScoringConfig.

#[local] Open Scope Z_scope.

Inductive LeagueStatus : Type := UPCOMING | ACTIVE | COMPLETED | CANCELLED.

Inductive MembershipStatus : Type := Member_PENDING | Member_ACTIVE | Member_CANCELLED | Member_REFUNDED.

Inductive PaymentStatus : Type :=
| Pay_PENDING
| PAYMENT_INITIATED
| PAYMENT_SUBMITTED
| PAYMENT_CONFIRMED
| PAYMENT_FAILED
| REFUND_PENDING
| Pay_REFUNDED.

Inductive ScoringType : Type := CLASSIC | HEAD_TO_HEAD.

#[export] Instance LeagueStatus_eq_dec : EqDecision LeagueStatus.
Proof. solve_decision. Defined.
#[export] Instance MembershipStatus_eq_dec : EqDecision MembershipStatus.
Proof. solve_decision. Defined.
#[export] Instance PaymentStatus_eq_dec : EqDecision PaymentStatus.
Proof. solve_decision. Defined.
#[export] Instance ScoringType_eq_dec : EqDecision ScoringType.
Proof. solve_decision. Defined.

(** Amounts of money are integer cents ([Decimal(10, 2)]), instants are
    milliseconds, names are lists of code points. *)
Record LeagueRow : Type := {
  lg_name : list Z;
  lg_creatorId : string;
  lg_inviteCode : option string;
  lg_maxMembers : Z;
  lg_minMembers : Z;
  lg_currentMembers : Z;
  lg_entryFee : Z;
  lg_prizePool : Z;
  lg_status : LeagueStatus;
  lg_scoringType : ScoringType;
  lg_scoringConfig : option LeagueScoringConfig;
  lg_payoutPreset : PrizePreset;
  lg_payoutSplitsBps : list Z;
  lg_isPrivate : bool;
  lg_buyIn : option (Q * Q);
  lg_startGameweekId : Z;
  lg_endGameweekId : Z
}.

Record LeagueMember : Type := {
  mb_id : string;
  mb_leagueId : string;
  mb_userId : string;
  mb_squadId : string;
  mb_status : MembershipStatus;
  mb_paymentStatus : PaymentStatus;
  mb_hasPaid : bool;
  mb_joinedAt : Z;
  mb_rank : option Z;
  mb_totalPoints : Z;
  mb_matchesWon : Z;
  mb_matchesDrawn : Z;
  mb_matchesLost : Z;
  mb_pointsFor : Z;
  mb_pointsAgainst : Z;
  mb_h2hPoints : Z
}.

Record LeagueFixture : Type := {
  lf_leagueId : string;
  lf_gameweekId : Z;
  lf_homeMemberId : string;
  lf_awayMemberId : option string;
  lf_homeScore : option Z;
  lf_awayScore : option Z;
  lf_isFinished : bool;
  lf_isPlayoff : bool;
  lf_playoffRound : option Z;
  lf_playoffSlot : option Z;
  lf_isCup : bool
}.

Record LeagueInvitation : Type := {
  inv_id : string;
  inv_leagueId : string;
  inv_tokenHash : string;
  inv_createdById : string;
  inv_expiresAt : Z;
  inv_maxUses : Z;
  inv_usesCount : Z;
  inv_usedAt : option Z;
  inv_usedById : option string;
  inv_revokedAt : option Z
}.

(** [gw_firstKickoff] is the earliest known kick-off of its fixtures. *)
Record GameweekRow : Type := {
  gw_id : Z;
  gw_fplId : Z;
  gw_deadline : Z;
  gw_firstKickoff : option Z;
  gw_isFinished : bool
}.

(** [squadGameweekScore]: gameweek, squad, points; [leagueGameweekScore] has
    the league in front. *)
Record LeagueDb : Type := {
  db_leagues : list (string * LeagueRow);
  db_members : list LeagueMember;
  db_fixtures : list LeagueFixture;
  db_invitations : list LeagueInvitation;
  db_squadScores : list (Z * string * Z);
  db_leagueScores : list (string * Z * string * Z);
  db_gameweeks : list GameweekRow;
  db_squads : list (string * string)
}.

Definition with_leagues (db : LeagueDb) (l : list (string * LeagueRow)) : LeagueDb :=
  {| db_leagues := l; db_members := db_members db; db_fixtures := db_fixtures db;
     db_invitations := db_invitations db; db_squadScores := db_squadScores db;
     db_leagueScores := db_leagueScores db; db_gameweeks := db_gameweeks db;
     db_squads := db_squads db |}.

Definition with_members (db : LeagueDb) (l : list LeagueMember) : LeagueDb :=
  {| db_leagues := db_leagues db; db_members := l; db_fixtures := db_fixtures db;
     db_invitations := db_invitations db; db_squadScores := db_squadScores db;
     db_leagueScores := db_leagueScores db; db_gameweeks := db_gameweeks db;
     db_squads := db_squads db |}.

Definition with_fixtures (db : LeagueDb) (l : list LeagueFixture) : LeagueDb :=
  {| db_leagues := db_leagues db; db_members := db_members db; db_fixtures := l;
     db_invitations := db_invitations db; db_squadScores := db_squadScores db;
     db_leagueScores := db_leagueScores db; db_gameweeks := db_gameweeks db;
     db_squads := db_squads db |}.

Definition with_invitations (db : LeagueDb) (l : list LeagueInvitation) : LeagueDb :=
  {| db_leagues := db_leagues db; db_members := db_members db; db_fixtures := db_fixtures db;
     db_invitations := l; db_squadScores := db_squadScores db;
     db_leagueScores := db_leagueScores db; db_gameweeks := db_gameweeks db;
     db_squads := db_squads db |}.

Definition member_status (db : LeagueDb) (leagueId : string) (s : MembershipStatus) : list LeagueMember :=
  List.filter (λ m, bool_decide (mb_leagueId m = leagueId) && bool_decide (mb_status m = s))
    (db_members db).

(** [where: { leagueId, status: ACTIVE }]. *)
Definition active_members (db : LeagueDb) (leagueId : string) : list LeagueMember :=
  member_status db leagueId Member_ACTIVE.

(** [leagueMember.update({ where: { id } })]: [None] when there is no such row. *)
Definition update_member (id : string) (f : LeagueMember → LeagueMember) (ms : list LeagueMember) :
    option (list LeagueMember) :=
  if existsb (λ m, bool_decide (mb_id m = id)) ms
  then Some ((λ m, if bool_decide (mb_id m = id) then f m else m) <$> ms)
  else None.

Definition set_status (s : MembershipStatus) (m : LeagueMember) : LeagueMember :=
  {| mb_id := mb_id m; mb_leagueId := mb_leagueId m; mb_userId := mb_userId m;
     mb_squadId := mb_squadId m; mb_status := s; mb_paymentStatus := mb_paymentStatus m;
     mb_hasPaid := mb_hasPaid m; mb_joinedAt := mb_joinedAt m; mb_rank := mb_rank m;
     mb_totalPoints := mb_totalPoints m; mb_matchesWon := mb_matchesWon m;
     mb_matchesDrawn := mb_matchesDrawn m; mb_matchesLost := mb_matchesLost m;
     mb_pointsFor := mb_pointsFor m; mb_pointsAgainst := mb_pointsAgainst m;
     mb_h2hPoints := mb_h2hPoints m |}.

Definition set_payment (s : PaymentStatus) (m : LeagueMember) : LeagueMember :=
  {| mb_id := mb_id m; mb_leagueId := mb_leagueId m; mb_userId := mb_userId m;
     mb_squadId := mb_squadId m; mb_status := mb_status m; mb_paymentStatus := s;
     mb_hasPaid := mb_hasPaid m; mb_joinedAt := mb_joinedAt m; mb_rank := mb_rank m;
     mb_totalPoints := mb_totalPoints m; mb_matchesWon := mb_matchesWon m;
     mb_matchesDrawn := mb_matchesDrawn m; mb_matchesLost := mb_matchesLost m;
     mb_pointsFor := mb_pointsFor m; mb_pointsAgainst := mb_pointsAgainst m;
     mb_h2hPoints := mb_h2hPoints m |}.

Definition set_rank (rank : Z) (m : LeagueMember) : LeagueMember :=
  {| mb_id := mb_id m; mb_leagueId := mb_leagueId m; mb_userId := mb_userId m;
     mb_squadId := mb_squadId m; mb_status := mb_status m; mb_paymentStatus := mb_paymentStatus m;
     mb_hasPaid := mb_hasPaid m; mb_joinedAt := mb_joinedAt m; mb_rank := Some rank;
     mb_totalPoints := mb_totalPoints m; mb_matchesWon := mb_matchesWon m;
     mb_matchesDrawn := mb_matchesDrawn m; mb_matchesLost := mb_matchesLost m;
     mb_pointsFor := mb_pointsFor m; mb_pointsAgainst := mb_pointsAgainst m;
     mb_h2hPoints := mb_h2hPoints m |}.

Definition set_totals (totalPoints rank : Z) (m : LeagueMember) : LeagueMember :=
  {| mb_id := mb_id m; mb_leagueId := mb_leagueId m; mb_userId := mb_userId m;
     mb_squadId := mb_squadId m; mb_status := mb_status m; mb_paymentStatus := mb_paymentStatus m;
     mb_hasPaid := mb_hasPaid m; mb_joinedAt := mb_joinedAt m; mb_rank := Some rank;
     mb_totalPoints := totalPoints; mb_matchesWon := mb_matchesWon m;
     mb_matchesDrawn := mb_matchesDrawn m; mb_matchesLost := mb_matchesLost m;
     mb_pointsFor := mb_pointsFor m; mb_pointsAgainst := mb_pointsAgainst m;
     mb_h2hPoints := mb_h2hPoints m |}.

(** [@@unique([leagueId, gameweekId, homeMemberId, isCup])]. *)
Definition fixture_key (f : LeagueFixture) : string * Z * string * bool :=
  (lf_leagueId f, lf_gameweekId f, lf_homeMemberId f, lf_isCup f).

(** [leagueFixture.createMany]: [None] on a violation of the unique key. *)
Definition insert_fixtures (new old : list LeagueFixture) : option (list LeagueFixture) :=
  if bool_decide (NoDup (fixture_key <$> (old ++ new))) then Some (old ++ new) else None.

(** [leagueFixture.deleteMany] of the open league fixtures of a gameweek. *)
Definition delete_open (leagueId : string) (gameweekId : Z) (l : list LeagueFixture) :
    list LeagueFixture :=
  List.filter (λ f, negb (bool_decide (lf_leagueId f = leagueId) && (lf_gameweekId f =? gameweekId)
                          && negb (lf_isFinished f) && negb (lf_isCup f))) l.
