(* ===== verification/HeadToHead.v ===== *)
(** * Head-to-head leagues: the schedule, the table and the playoffs of
    [backend/src/services/league/leagueService.ts]

    The schedule is the circle method of [Tournament], with other sides; the
    table is a set of counters on the member rows that [settleH2HGameweek]
    increments, and the invariant is that they are always what the finished
    fixtures say. *)

From S2P Require Import Prelude Scoring Tournament LeagueDb.

Inductive H2HError : Type :=
| H2HLeagueNotFound
| NotHeadToHead
| TooFewActiveMembers
| NoPlayoffFixtures
| PlayoffRoundOpen
| RecordNotFound
| UniqueViolation.

(** ** The schedule *)

Record H2HPairing : Type := {
  gameweekId : Z;
  homeMemberId : string;
  awayMemberId : option string
}.

(** The pairs [rotation[i]], [rotation[n - 1 - i]]; home advantage alternates. *)
Definition h2h_round (r : nat) (rotation : list (option string)) :
    list (option string * option string) :=
  let n := length rotation in
  (λ i, let a := slot_at rotation i in
        let b := slot_at rotation (n - 1 - i) in
        if (r mod 2 =? 0)%nat then (a, b) else (b, a)) <$> seq 0 (n / 2).

Fixpoint h2h_rounds (count r : nat) (rotation : list (option string)) :
    list (list (option string * option string)) :=
  match count with
  | O => []
  | S count => h2h_round r rotation :: h2h_rounds count (S r) (rotate rotation)
  end.

Definition schedule_pairing (gw : Z) (reversed : bool) (p : option string * option string) :
    H2HPairing :=
  let '(home, away) := if reversed then (p.2, p.1) else (p.1, p.2) in
  let '(home, away) := match home with None => (away, home) | Some _ => (home, away) end in
  {| gameweekId := gw; homeMemberId := default "" home; awayMemberId := away |}.

Definition generateRoundRobinSchedule (memberIds : list string) (gameweekIds : list Z) :
    list H2HPairing :=
  if (length memberIds <? 2)%nat then []
  else
    let teams := circle_slots memberIds in
    let rounds := h2h_rounds (length teams - 1) 0 teams in
    concat (imap (λ idx gw,
      let reversed := ((idx / length rounds) mod 2 =? 1)%nat in
      schedule_pairing gw reversed <$> default [] (rounds !! (idx mod length rounds)%nat)) gameweekIds).

(** The row [createMany] writes on activation: [{ leagueId, ...p }]. *)
Definition schedule_fixture (leagueId : string) (p : H2HPairing) : LeagueFixture :=
  {| lf_leagueId := leagueId; lf_gameweekId := gameweekId p; lf_homeMemberId := homeMemberId p;
     lf_awayMemberId := awayMemberId p; lf_homeScore := None; lf_awayScore := None;
     lf_isFinished := false; lf_isPlayoff := false; lf_playoffRound := None;
     lf_playoffSlot := None; lf_isCup := false |}.

(** ** The table *)

(** [Omit<H2HStandingsEntry, "rank" | "pointsDifference">]. *)
Record H2HEntry : Type := {
  he_memberId : string;
  he_userId : string;
  he_matchesWon : Z;
  he_matchesDrawn : Z;
  he_matchesLost : Z;
  he_pointsFor : Z;
  he_pointsAgainst : Z;
  he_h2hPoints : Z
}.

Record H2HStandingsEntry : Type := {
  hs_rank : Z;
  hs_entry : H2HEntry;
  hs_pointsDifference : Z
}.

Definition table_order : H2HEntry * Z → H2HEntry * Z → Z :=
  then_by (desc (λ e, he_h2hPoints e.1))
    (then_by (desc (λ e, he_pointsFor e.1)) (desc snd)).

Definition sortH2HStandings (entries : list H2HEntry) : list H2HStandingsEntry :=
  imap (λ idx e, {| hs_rank := Z.of_nat idx + 1; hs_entry := e.1; hs_pointsDifference := e.2 |})
    (sort_by table_order ((λ e, (e, he_pointsFor e - he_pointsAgainst e)) <$> entries)).

Definition entry_of (m : LeagueMember) : H2HEntry :=
  {| he_memberId := mb_id m; he_userId := mb_userId m; he_matchesWon := mb_matchesWon m;
     he_matchesDrawn := mb_matchesDrawn m; he_matchesLost := mb_matchesLost m;
     he_pointsFor := mb_pointsFor m; he_pointsAgainst := mb_pointsAgainst m;
     he_h2hPoints := mb_h2hPoints m |}.

Definition getH2HStandings (leagueId : string) (db : LeagueDb) :
    result H2HError (list H2HStandingsEntry) :=
  let* league := or_throw (map_get leagueId (db_leagues db)) H2HLeagueNotFound in
  throw_if (bool_decide (lg_scoringType league ≠ HEAD_TO_HEAD)) NotHeadToHead ;;;
  Ok (sortH2HStandings (entry_of <$> active_members db leagueId)).

(** ** Settlement of a gameweek *)

(** The increments of [outcomeData]. *)
Definition outcomeData (points scored conceded : Z) (m : LeagueMember) : LeagueMember :=
  {| mb_id := mb_id m; mb_leagueId := mb_leagueId m; mb_userId := mb_userId m;
     mb_squadId := mb_squadId m; mb_status := mb_status m; mb_paymentStatus := mb_paymentStatus m;
     mb_hasPaid := mb_hasPaid m; mb_joinedAt := mb_joinedAt m; mb_rank := mb_rank m;
     mb_totalPoints := mb_totalPoints m;
     mb_matchesWon := mb_matchesWon m + (if points =? 3 then 1 else 0);
     mb_matchesDrawn := mb_matchesDrawn m + (if points =? 1 then 1 else 0);
     mb_matchesLost := mb_matchesLost m + (if points =? 0 then 1 else 0);
     mb_pointsFor := mb_pointsFor m + scored;
     mb_pointsAgainst := mb_pointsAgainst m + conceded;
     mb_h2hPoints := mb_h2hPoints m + points |}.

(** [where: { leagueId, gameweekId, isFinished: false, isCup: false }]. *)
Definition is_open (leagueId : string) (gw : Z) (f : LeagueFixture) : bool :=
  bool_decide (lf_leagueId f = leagueId) && (lf_gameweekId f =? gw)
  && negb (lf_isFinished f) && negb (lf_isCup f).

(** The points rows of the members' squads, from one table or the other. *)
Definition gameweek_scores (leagueId : string) (gw : Z) (useLeagueScoring : bool)
    (squadIds : list string) (db : LeagueDb) : list (string * Z) :=
  if useLeagueScoring
  then (λ s, (s.1.2, s.2)) <$> List.filter (λ s, bool_decide (s.1.1.1 = leagueId)
         && (s.1.1.2 =? gw) && bool_decide (s.1.2 ∈ squadIds)) (db_leagueScores db)
  else (λ s, (s.1.2, s.2)) <$> List.filter (λ s, (s.1.1 =? gw)
         && bool_decide (s.1.2 ∈ squadIds)) (db_squadScores db).

Definition points_by_member (members : list LeagueMember) (scores : list (string * Z)) :
    list (string * Z) :=
  let pointsBySquad := foldl (λ m s, map_set s.1 s.2 m) [] scores in
  foldl (λ m mb, map_set (mb_id mb) (default 0 (map_get (mb_squadId mb) pointsBySquad)) m) [] members.

(** The 'Average' team: the mean of the members, rounded. *)
Definition average_score (pointsByMember : list (string * Z)) : Z :=
  let memberPoints := map_values pointsByMember in
  if (0 <? length memberPoints)%nat
  then round_div (sumZ memberPoints) (Z.of_nat (length memberPoints)) else 0.

Definition home_score (pbm : list (string * Z)) (f : LeagueFixture) : Z :=
  default 0 (map_get (lf_homeMemberId f) pbm).

Definition away_score (pbm : list (string * Z)) (f : LeagueFixture) : Z :=
  match truthy (lf_awayMemberId f) with
  | Some a => default 0 (map_get a pbm)
  | None => average_score pbm
  end.

Definition finish (pbm : list (string * Z)) (f : LeagueFixture) : LeagueFixture :=
  {| lf_leagueId := lf_leagueId f; lf_gameweekId := lf_gameweekId f;
     lf_homeMemberId := lf_homeMemberId f; lf_awayMemberId := lf_awayMemberId f;
     lf_homeScore := Some (home_score pbm f); lf_awayScore := Some (away_score pbm f);
     lf_isFinished := true; lf_isPlayoff := lf_isPlayoff f;
     lf_playoffRound := lf_playoffRound f; lf_playoffSlot := lf_playoffSlot f;
     lf_isCup := lf_isCup f |}.

(** The member updates of one match. *)
Definition settle_members (pbm : list (string * Z)) (ms : list LeagueMember) (f : LeagueFixture) :
    result H2HError (list LeagueMember) :=
  let hs := home_score pbm f in
  let as_ := away_score pbm f in
  let points := resolveHeadToHead hs as_ in
  let* ms := or_throw (update_member (lf_homeMemberId f) (outcomeData points.1 hs as_) ms)
               RecordNotFound in
  match truthy (lf_awayMemberId f) with
  | Some a => or_throw (update_member a (outcomeData points.2 as_ hs) ms) RecordNotFound
  | None => Ok ms
  end.

Definition update_rank (ms : list LeagueMember) (row : H2HStandingsEntry) :
    result H2HError (list LeagueMember) :=
  or_throw (update_member (he_memberId (hs_entry row)) (set_rank (hs_rank row)) ms) RecordNotFound.

(** The whole handler; an [Err] rolls the transaction back. *)
Definition settleH2HGameweek (leagueId : string) (gw : Z) (useLeagueScoring : bool) (db : LeagueDb) :
    result H2HError (nat * LeagueDb) :=
  let fixtures := List.filter (is_open leagueId gw) (db_fixtures db) in
  if bool_decide (length fixtures = O) then Ok (O, db)
  else
    let members := active_members db leagueId in
    let scores := gameweek_scores leagueId gw useLeagueScoring (mb_squadId <$> members) db in
    let pbm := points_by_member members scores in
    let* ms := mfoldl (settle_members pbm) (db_members db) fixtures in
    let db := with_members (with_fixtures db
      ((λ f, if is_open leagueId gw f then finish pbm f else f) <$> db_fixtures db)) ms in
    let table := sortH2HStandings (entry_of <$> active_members db leagueId) in
    let* ms := mfoldl update_rank (db_members db) table in
    Ok (length fixtures, with_members db ms).

(** ** Playoffs *)

(** [while (size > memberCount) size = size / 2] from 8; a size below 2 is 0
    in the end, so the fractions of the code never matter. *)
Fixpoint shrink (fuel : nat) (size memberCount : Z) : Z :=
  match fuel with
  | O => size
  | S fuel => if memberCount <? size then shrink fuel (size / 2) memberCount else size
  end.

Definition computeBracketSize (memberCount : Z) : Z :=
  let size := shrink 4 8 memberCount in
  if 2 <=? size then size else 0.

Definition seedPlayoffPairings (orderedMemberIds : list string) : list (string * string) :=
  let n := length orderedMemberIds in
  (λ i, (default "" (orderedMemberIds !! i), default "" (orderedMemberIds !! (n - 1 - i)%nat)))
    <$> seq 0 ((n + 1) / 2).

(** The regular-season metrics, in the order they are compared. *)
Definition playoff_metrics (m : LeagueMember) : list Z :=
  [mb_h2hPoints m; mb_pointsFor m; mb_pointsFor m - mb_pointsAgainst m; mb_matchesWon m].

Fixpoint first_difference (home away : list Z) : option bool :=
  match home, away with
  | h :: home, a :: away => if h =? a then first_difference home away else Some (a <? h)
  | _, _ => None
  end.

Definition resolvePlayoffWinner (f : LeagueFixture) (members : list (string * LeagueMember)) : string :=
  let home := lf_homeMemberId f in
  let away := default "" (lf_awayMemberId f) in
  let homeScore := default 0 (lf_homeScore f) in
  let awayScore := default 0 (lf_awayScore f) in
  if negb (homeScore =? awayScore) then (if awayScore <? homeScore then home else away)
  else
    match map_get home members, map_get away members with
    | Some h, Some a =>
        match first_difference (playoff_metrics h) (playoff_metrics a) with
        | Some true => home
        | Some false => away
        | None => home
        end
    | _, _ => home
    end.

Definition playoff_fixture (leagueId : string) (gw round : Z) (slot : nat) (p : string * string) :
    LeagueFixture :=
  {| lf_leagueId := leagueId; lf_gameweekId := gw; lf_homeMemberId := p.1;
     lf_awayMemberId := Some p.2; lf_homeScore := None; lf_awayScore := None;
     lf_isFinished := false; lf_isPlayoff := true; lf_playoffRound := Some round;
     lf_playoffSlot := Some (Z.of_nat slot); lf_isCup := false |}.

(** The transaction both operations end with: the open fixtures of the
    gameweek make room for the round. *)
Definition replace_round (leagueId : string) (gw round : Z) (pairings : list (string * string))
    (db : LeagueDb) : result H2HError LeagueDb :=
  let* fs := or_throw (insert_fixtures (imap (playoff_fixture leagueId gw round) pairings)
                         (delete_open leagueId gw (db_fixtures db))) UniqueViolation in
  Ok (with_fixtures db fs).

Definition generatePlayoffBracket (leagueId : string) (db : LeagueDb) :
    result H2HError ((Z * Z * list (string * string)) * LeagueDb) :=
  let* league := or_throw (map_get leagueId (db_leagues db)) H2HLeagueNotFound in
  throw_if (bool_decide (lg_scoringType league ≠ HEAD_TO_HEAD)) NotHeadToHead ;;;
  let* standings := getH2HStandings leagueId db in
  let bracketSize := computeBracketSize (Z.of_nat (length standings)) in
  throw_if (bracketSize <? 2) TooFewActiveMembers ;;;
  let rounds := Z.log2 bracketSize in
  let gw := lg_endGameweekId league - rounds + 1 in
  let seeds := (λ s, he_memberId (hs_entry s)) <$> take (Z.to_nat bracketSize) standings in
  let pairings := seedPlayoffPairings seeds in
  let* db := replace_round leagueId gw 1 pairings db in
  Ok ((gw, bracketSize, pairings), db).

Definition is_playoff (leagueId : string) (gw : Z) (f : LeagueFixture) : bool :=
  bool_decide (lf_leagueId f = leagueId) && (lf_gameweekId f =? gw) && lf_isPlayoff f.

(** The champion, or the next round: gameweek, round and pairings. *)
Definition advancePlayoffRound (leagueId : string) (completedGameweekId : Z) (db : LeagueDb) :
    result H2HError ((string + Z * Z * list (string * string)) * LeagueDb) :=
  let fixtures := List.filter (is_playoff leagueId completedGameweekId) (db_fixtures db) in
  throw_if (bool_decide (length fixtures = O)) NoPlayoffFixtures ;;;
  throw_if (existsb (λ f, negb (lf_isFinished f)) fixtures) PlayoffRoundOpen ;;;
  let bySlot := sort_by (asc (λ f, default 0 (lf_playoffSlot f))) fixtures in
  let tied := List.filter (λ f, default 0 (lf_homeScore f) =? default 0 (lf_awayScore f)) bySlot in
  let tiedMemberIds := remove_dups (concat ((λ f, [lf_homeMemberId f; default "" (lf_awayMemberId f)])
                                              <$> tied)) in
  let membersById := foldl (λ m mb, map_set (mb_id mb) mb m) []
    (List.filter (λ m, bool_decide (mb_id m ∈ tiedMemberIds)) (db_members db)) in
  let winners := (λ f, resolvePlayoffWinner f membersById) <$> bySlot in
  match winners with
  | [champion] => Ok (inl champion, db)
  | _ =>
      let round := default 1 (head fixtures ≫= lf_playoffRound) + 1 in
      let gw := completedGameweekId + 1 in
      let pairings := seedPlayoffPairings winners in
      let* db := replace_round leagueId gw round pairings db in
      Ok (inr (gw, round, pairings), db)
  end.

(** ** Lemmas: the schedule *)

Definition as_match (p : H2HPairing) : RoundRobinMatch :=
  {| rr_home := homeMemberId p; rr_away := awayMemberId p |}.

(** The same two sides, whoever is at home. *)
Definition same_match (m1 m2 : RoundRobinMatch) : Prop := m1 = m2 ∨ m1 = swap_sides m2.

Lemma same_match_meets a b m1 m2 : same_match m1 m2 → meets a b m1 = meets a b m2.
Proof. intros [->| ->]; [done|apply swap_sides_meets]. Qed.

Lemma same_match_ids m1 m2 : same_match m1 m2 → match_ids m1 ≡ₚ match_ids m2.
Proof. intros [->| ->]; [done|]. destruct m2 as [h [a|]]; [|done]. cbn. constructor. Qed.

Lemma same_round l1 l2 :
  Forall2 same_match l1 l2 →
  (∀ a b, countb (meets a b) l1 = countb (meets a b) l2) ∧
  concat (match_ids <$> l1) ≡ₚ concat (match_ids <$> l2).
Proof.
  induction 1 as [|m1 m2 l1 l2 Hm _ [IH1 IH2]]; [done|]. split.
  - intros a b. by rewrite !countb_cons, IH1, (same_match_meets a b m1 m2).
  - cbn [fmap list_fmap concat]. by rewrite IH2, (same_match_ids m1 m2).
Qed.

Lemma schedule_pairing_match gw reversed r i a b :
  same_match (as_match (schedule_pairing gw reversed (if (r mod 2 =? 0)%nat then (a, b) else (b, a))))
    (circle_match r i a b).
Proof.
  unfold same_match, schedule_pairing, as_match, circle_match, swap_sides.
  destruct (r mod 2 =? 0)%nat, ((i =? 0)%nat && (r mod 2 =? 1)%nat), reversed, a, b; cbn; auto.
Qed.

Lemma schedule_round gw reversed r rotation :
  Forall2 same_match (as_match <$> (schedule_pairing gw reversed <$> h2h_round r rotation))
    (circle_round r rotation).
Proof.
  unfold h2h_round, circle_round. rewrite <- !list_fmap_compose.
  apply Forall2_fmap, Forall_Forall2_diag, Forall_true. intros i. apply schedule_pairing_match.
Qed.

Lemma h2h_rounds_lookup count r rotation k :
  (k < count)%nat →
  h2h_rounds count r rotation !! k = Some (h2h_round (r + k) (Nat.iter k rotate rotation)).
Proof.
  revert r rotation k. induction count as [|count IH]; intros r rotation k Hk; [lia|].
  destruct k as [|k]; [by rewrite Nat.add_0_r|]. cbn [h2h_rounds].
  change ((h2h_round r rotation :: h2h_rounds count (S r) (rotate rotation)) !! S k)
    with (h2h_rounds count (S r) (rotate rotation) !! k).
  rewrite IH by lia. rewrite Nat.iter_succ_r. do 2 f_equal. lia.
Qed.

Lemma length_h2h_rounds count r rotation : length (h2h_rounds count r rotation) = count.
Proof. revert r rotation. induction count as [|count IH]; intros; cbn; [done|]. by rewrite IH. Qed.

(** The block of one gameweek. *)
Lemma gameweek_block (F : nat → Z → list H2HPairing) gws i g :
  (∀ j h p, p ∈ F j h → gameweekId p = h) → NoDup gws → gws !! i = Some g →
  List.filter (λ p, gameweekId p =? g) (concat (imap F gws)) = F i g.
Proof.
  intros HF Hnd Hi. revert F i HF Hi. induction Hnd as [|h gws Hh Hnd IH]; intros F i HF Hi; [done|].
  rewrite imap_cons. cbn [concat]. rewrite List.filter_app.
  assert (∀ G : nat → Z → list H2HPairing, (∀ j k p, p ∈ G j k → gameweekId p = k) → ∀ x, x ∉ gws →
    List.filter (λ p, gameweekId p =? x) (concat (imap G gws)) = []) as Hnil.
  { intros G HG x Hx. apply lfilter_nil. intros p Hp. apply Z.eqb_neq. intros <-.
    apply list_elem_of_In, in_concat in Hp as (l & Hl & Hp). apply list_elem_of_In in Hl, Hp.
    apply list_elem_of_lookup in Hl as [j Hj]. rewrite list_lookup_imap in Hj.
    apply fmap_Some in Hj as (k & Hk & ->). apply HG in Hp. subst k.
    by apply Hx, list_elem_of_lookup_2 with j. }
  destruct i as [|i].
  - injection Hi as ->. rewrite Hnil, app_nil_r; [|by intros j k p; apply HF|done].
    rewrite (lfilter_ext _ (λ _, true)).
    + generalize (F O g). intros l. induction l as [|x l IHl]; cbn; [done|]. by rewrite IHl.
    + intros p Hp. apply Z.eqb_eq. by eapply HF.
  - cbn in Hi. rewrite lfilter_nil; cbn [app].
      apply (IH (λ j, F (S j))); [intros j k p; apply HF|done].
    + intros p Hp. apply Z.eqb_neq. rewrite (HF _ _ _ Hp). intros ->.
      by apply Hh, list_elem_of_lookup_2 with i.
Qed.

(** The pairings a schedule has in a gameweek. *)
Definition gameweek_pairings (memberIds : list string) (gws : list Z) (g : Z) : list H2HPairing :=
  List.filter (λ p, gameweekId p =? g) (generateRoundRobinSchedule memberIds gws).

Lemma gameweek_pairings_round memberIds gws i g m :
  (2 <= length memberIds)%nat → length (circle_slots memberIds) = S m → (0 < m)%nat →
  NoDup gws → gws !! i = Some g →
  gameweek_pairings memberIds gws g
  = schedule_pairing g ((i / m) mod 2 =? 1)%nat
      <$> h2h_round (i mod m) (Nat.iter (i mod m) rotate (circle_slots memberIds)).
Proof.
  intros Hl Hm Hpos Hnd Hi. unfold gameweek_pairings, generateRoundRobinSchedule.
  rewrite (proj2 (Nat.ltb_ge _ _)) by done.
  rewrite (gameweek_block _ _ i g); [|by intros j h p (x & -> & _)%list_elem_of_fmap;
    unfold schedule_pairing; repeat case_match; simplify_eq|done|done].
  rewrite Hm, length_h2h_rounds. replace (S m - 1)%nat with m by lia.
  rewrite h2h_rounds_lookup by (apply Nat.mod_upper_bound; lia). done.
Qed.

Lemma schedule_reversed gw gw' reversed r rotation :
  as_match <$> (schedule_pairing gw' (negb reversed) <$> h2h_round r rotation)
  = swap_sides <$> (as_match <$> (schedule_pairing gw reversed <$> h2h_round r rotation)).
Proof.
  rewrite <- !list_fmap_compose. apply list_fmap_ext. intros _ [a b] _.
  unfold compose, schedule_pairing, as_match, swap_sides. by destruct reversed, a, b.
Qed.

(** ** Properties: the schedule *)

(** The schedule of a head-to-head league, for every number of members and
    gameweeks: in every gameweek each member plays exactly once (an odd one out
    against the Average team), in every full cycle of rounds any two members
    meet exactly once, and each cycle repeats the one before it with home and
    away reversed. *)
Theorem h2h_schedule_balanced (memberIds : list string) (gws : list Z) :
  NoDup memberIds → (2 <= length memberIds)%nat → NoDup gws →
  let cycle := (length (circle_slots memberIds) - 1)%nat in
  let round g := as_match <$> gameweek_pairings memberIds gws g in
  (∀ g, g ∈ gws → concat (match_ids <$> round g) ≡ₚ memberIds) ∧
  (∀ c a b, (c * cycle + cycle <= length gws)%nat → a ∈ memberIds → b ∈ memberIds → a ≠ b →
     sum_of (λ g, countb (meets a b) (round g)) (take cycle (drop (c * cycle) gws)) = 1) ∧
  (∀ i g g', gws !! i = Some g → gws !! (i + cycle)%nat = Some g' →
     round g' = swap_sides <$> round g).
Proof.
  intros Hn Hl Hnd. cbn zeta.
  destruct (circle_slots_facts memberIds Hn Hl) as (m & Hm & Hodd & Hpos & Hns & Hids).
  rewrite Hm. replace (S m - 1)%nat with m by lia.
  assert (∀ i g, gws !! i = Some g → Forall2 same_match (as_match <$> gameweek_pairings memberIds gws g)
    (circle_round (i mod m) (Nat.iter (i mod m) rotate (circle_slots memberIds)))) as Hround.
  { intros i g Hi. rewrite (gameweek_pairings_round _ _ i g m) by done. apply schedule_round. }
  split_and!.
  - intros g [i Hi]%list_elem_of_lookup. rewrite (proj2 (same_round _ _ (Hround i g Hi))).
    apply (first_leg_ids memberIds m); try done. rewrite circle_rounds_eq.
    apply list_elem_of_fmap. exists (i mod m)%nat. split; [done|]. apply elem_of_seq.
    pose proof (Nat.mod_upper_bound i m). lia.
  - intros c a b Hc Ha Hb Hab.
    rewrite <- (first_leg_meets memberIds m Hm Hodd Hpos Hns a b) by done.
    rewrite circle_rounds_eq, countb_concat, <- list_fmap_compose. unfold sum_of. f_equal.
    apply list_eq. intros k. rewrite !list_lookup_fmap.
    destruct (decide (k < m)%nat) as [Hk|Hk].
    + rewrite lookup_seq_lt by done. cbn [fmap option_fmap option_map].
      rewrite lookup_take, lookup_drop, decide_True by done.
      destruct (lookup_lt_is_Some_2 gws (c * m + k)) as [g Hg]; [lia|]. rewrite Hg. cbn. f_equal.
      rewrite (proj1 (same_round _ _ (Hround _ g Hg))).
      rewrite (Nat.add_comm (c * m)), Nat.Div0.mod_add, Nat.mod_small by done. done.
    + rewrite (lookup_ge_None_2 (seq 0 m)) by (rewrite length_seq; lia).
      rewrite lookup_ge_None_2; [done|]. rewrite length_take. lia.
  - intros i g g' Hi Hi'. rewrite (gameweek_pairings_round _ _ i g m) by done.
    rewrite (gameweek_pairings_round _ _ (i + m) g' m) by done.
    replace ((i + m) mod m)%nat with (i mod m)%nat
      by (pose proof (Nat.Div0.mod_add i 1 m) as E; rewrite Nat.mul_1_l in E; congruence).
    replace ((i + m) / m)%nat with (S (i / m))
      by (pose proof (Nat.div_add i 1 m ltac:(lia)) as E; rewrite Nat.mul_1_l in E; lia).
    rewrite <- schedule_reversed with (gw' := g'). do 3 f_equal.
    pose proof (Nat.div_mod (i / m) 2). pose proof (Nat.mod_upper_bound (i / m) 2).
    destruct ((i / m) mod 2 =? 1)%nat eqn:E; cbn [negb].
    + apply Nat.eqb_eq in E. apply Nat.eqb_neq. intros E'.
      pose proof (Nat.div_mod (S (i / m)) 2). lia.
    + apply Nat.eqb_neq in E. apply Nat.eqb_eq. symmetry.
      apply (Nat.mod_unique _ _ (i / m / 2)); lia.
Qed.

Lemma h2h_schedule_balanced_witness :
  sum_of (λ g, countb (meets "a" "c") (as_match <$> gameweek_pairings ["a"; "b"; "c"] [4; 5; 6; 7; 8; 9] g))
    [7; 8; 9] = 1.
Proof.
  apply (proj1 (proj2 (h2h_schedule_balanced ["a"; "b"; "c"] [4; 5; 6; 7; 8; 9]
    ltac:(apply (bool_decide_unpack _); vm_compute; exact I) ltac:(cbn; lia)
    ltac:(apply (bool_decide_unpack _); vm_compute; exact I))) 1%nat "a" "c").
  - cbn. lia.
  - left.
  - right; right; left.
  - discriminate.
Defined.

(** ** The invariant of the table *)

Definition counted (f : LeagueFixture) : bool := lf_isFinished f && negb (lf_isCup f).

(** What a fixture contributes to a member: points scored and conceded. *)
Definition results_in (id : string) (f : LeagueFixture) : list (Z * Z) :=
  let hs := default 0 (lf_homeScore f) in
  let as_ := default 0 (lf_awayScore f) in
  if counted f
  then (if decide (lf_homeMemberId f = id) then [(hs, as_)] else [])
       ++ (if decide (truthy (lf_awayMemberId f) = Some id) then [(as_, hs)] else [])
  else [].

Definition results (id : string) (fs : list LeagueFixture) : list (Z * Z) :=
  concat (results_in id <$> fs).

(** The counters of a member row are those of a list of results. *)
Record tallies (m : LeagueMember) (r : list (Z * Z)) : Prop := {
  ta_won : mb_matchesWon m = countb (λ p, p.2 <? p.1) r;
  ta_drawn : mb_matchesDrawn m = countb (λ p, p.1 =? p.2) r;
  ta_lost : mb_matchesLost m = countb (λ p, p.1 <? p.2) r;
  ta_for : mb_pointsFor m = sum_of fst r;
  ta_against : mb_pointsAgainst m = sum_of snd r;
  ta_points : mb_h2hPoints m = 3 * mb_matchesWon m + mb_matchesDrawn m
}.

Definition table_consistent (db : LeagueDb) : Prop :=
  ∀ m, m ∈ db_members db → tallies m (results (mb_id m) (db_fixtures db)).

(** ** Lemmas: the invariant *)

Lemma results_app id l1 l2 : results id (l1 ++ l2) = results id l1 ++ results id l2.
Proof. unfold results. by rewrite fmap_app, concat_app. Qed.

Lemma results_uncounted id fs : (∀ f, f ∈ fs → counted f = false) → results id fs = [].
Proof.
  induction fs as [|f fs IH]; intros H; [done|]. unfold results. cbn [fmap list_fmap concat].
  change (concat (results_in id <$> fs)) with (results id fs).
  rewrite IH by (intros; apply H; by right). unfold results_in. by rewrite (H f) by (by left).
Qed.

Lemma results_delete_open id leagueId gw fs :
  results id (delete_open leagueId gw fs) = results id fs.
Proof.
  induction fs as [|f fs IH]; [done|]. unfold delete_open. cbn [List.filter].
  change (results id (f :: fs)) with (results_in id f ++ results id fs).
  destruct (negb _) eqn:E.
  - change (results id (f :: ?l)) with (results_in id f ++ results id l). by rewrite <- IH.
  - unfold delete_open in IH. rewrite IH. unfold results_in, counted. bool_to_prop.
    by replace (lf_isFinished f) with false.
Qed.

Lemma tallies_perm m r r' : r ≡ₚ r' → tallies m r → tallies m r'.
Proof.
  intros Hp []. constructor; try done; first [by rewrite <- (countb_perm _ r r' Hp)
    |by rewrite <- (sum_of_perm _ r r' Hp)].
Qed.

#[export] Instance tallies_proper m : Proper ((≡ₚ) ==> iff) (tallies m).
Proof. intros r r' Hp. split; by apply tallies_perm. Qed.

Definition apply_result (m : LeagueMember) (p : Z * Z) : LeagueMember :=
  outcomeData (resolveHeadToHead p.1 p.2).1 p.1 p.2 m.

Lemma resolve_swap a b : (resolveHeadToHead a b).2 = (resolveHeadToHead b a).1.
Proof.
  unfold resolveHeadToHead. destruct (b <? a) eqn:E1, (a <? b) eqn:E2; bool_to_prop; try done; lia.
Qed.

Lemma tallies_apply m p r : tallies m r → tallies (apply_result m p) (r ++ [p]).
Proof.
  intros []. unfold apply_result, resolveHeadToHead.
  constructor; rewrite ?countb_app, ?sum_of_app, ?countb_cons, ?sum_of_cons; cbn;
    change (sum_of fst []) with 0; change (sum_of snd []) with 0;
    change (countb (λ p : Z * Z, p.2 <? p.1) []) with 0;
    change (countb (λ p : Z * Z, p.1 =? p.2) []) with 0;
    change (countb (λ p : Z * Z, p.1 <? p.2) []) with 0;
    destruct (Z.ltb_spec p.2 p.1), (Z.ltb_spec p.1 p.2), (Z.eqb_spec p.1 p.2); cbn; lia.
Qed.

Lemma tallies_fold l m r : tallies m r → tallies (foldl apply_result m l) (r ++ l).
Proof.
  revert m r. induction l as [|p l IH]; intros m r H; [by rewrite app_nil_r|].
  cbn [foldl]. replace (r ++ p :: l) with ((r ++ [p]) ++ l) by (by rewrite <- app_assoc).
  by apply IH, tallies_apply.
Qed.

Lemma fold_apply_id l m : mb_id (foldl apply_result m l) = mb_id m.
Proof. revert m. induction l as [|p l IH]; intros m; [done|]. cbn. by rewrite IH. Qed.

(** What stays of a member row whatever matches are settled and ranks given. *)
Definition identity_of (m : LeagueMember) : string * string * string * MembershipStatus :=
  (mb_id m, mb_leagueId m, mb_squadId m, mb_status m).

Lemma fold_apply_identity l m : identity_of (foldl apply_result m l) = identity_of m.
Proof. revert m. induction l as [|p l IH]; intros m; [done|]. cbn. by rewrite IH. Qed.

Lemma update_member_ok id f ms :
  (∃ ms', update_member id f ms = Some ms') ↔ id ∈ mb_id <$> ms.
Proof.
  unfold update_member. destruct (existsb _ ms) eqn:E.
  - rewrite existsb_exists in E. destruct E as (m & Hm & E). bool_to_prop. subst id.
    split; [|eauto]. intros _. apply list_elem_of_fmap. exists m. by rewrite list_elem_of_In.
  - split; [by intros [? ?]|]. intros (m & -> & Hm)%list_elem_of_fmap.
    apply not_true_iff_false in E. exfalso. apply E, existsb_exists. exists m.
    rewrite <- list_elem_of_In, bool_decide_eq_true. done.
Qed.

Lemma update_member_eq id f ms ms' :
  update_member id f ms = Some ms' → ms' = (λ m, if decide (mb_id m = id) then f m else m) <$> ms.
Proof.
  unfold update_member. destruct (existsb _ _); [|done]. intros [= <-].
  apply list_fmap_ext. intros _ m _. by destruct (decide _), (bool_decide_reflect (mb_id m = id)).
Qed.

(** One settled match is its contribution to every member. *)
Lemma settle_members_eq pbm ms f ms' :
  lf_isCup f = false → settle_members pbm ms f = Ok ms' →
  ms' = (λ m, foldl apply_result m (results_in (mb_id m) (finish pbm f))) <$> ms.
Proof.
  unfold settle_members. intros Hcup H.
  destruct (update_member (lf_homeMemberId f) _ ms) as [ms1|] eqn:E1; [|done]. cbn [or_throw rbind] in H.
  apply update_member_eq in E1. unfold results_in, counted. cbn. rewrite Hcup. cbn.
  destruct (truthy (lf_awayMemberId f)) as [a|] eqn:Ea.
  - destruct (update_member a _ ms1) as [ms2|] eqn:E2; [|done]. injection H as <-.
    apply update_member_eq in E2. subst ms1 ms2. rewrite <- list_fmap_compose.
    apply list_fmap_ext. intros _ m _. unfold compose. rewrite resolve_swap.
    destruct (decide (lf_homeMemberId f = mb_id m)) as [He|He].
    + rewrite (decide_True _ _ (eq_sym He)). cbn [mb_id outcomeData].
      destruct (decide (mb_id m = a)) as [->|Hn].
      * rewrite decide_True by done. done.
      * rewrite decide_False by congruence. done.
    + rewrite (decide_False (P := mb_id m = lf_homeMemberId f)) by congruence.
      destruct (decide (mb_id m = a)) as [->|Hn].
      * rewrite decide_True by done. done.
      * rewrite decide_False by congruence. done.
  - injection H as <-. subst ms1. apply list_fmap_ext. intros _ m _.
    rewrite (decide_False (P := None = Some (mb_id m))), app_nil_r by done.
    destruct (decide (lf_homeMemberId f = mb_id m)) as [He|He].
    + by rewrite (decide_True _ _ (eq_sym He)).
    + rewrite (decide_False (P := mb_id m = lf_homeMemberId f)) by congruence. done.
Qed.

Lemma settle_all_eq pbm fs : ∀ ms ms',
  (∀ f, f ∈ fs → lf_isCup f = false) → mfoldl (settle_members pbm) ms fs = Ok ms' →
  ms' = (λ m, foldl apply_result m (results (mb_id m) (finish pbm <$> fs))) <$> ms.
Proof.
  induction fs as [|f fs IH]; intros ms ms' Hcup H; cbn [mfoldl] in H.
  - injection H as <-. induction ms as [|m ms IHm]; [done|]. cbn in *. by rewrite <- IHm.
  - destruct (settle_members pbm ms f) as [ms1|] eqn:E; [|done]. cbn [rbind] in H.
    apply settle_members_eq in E; [|apply Hcup; by left].
    apply IH in H; [|intros; apply Hcup; by right]. subst ms1 ms'. rewrite <- list_fmap_compose.
    apply list_fmap_ext. intros _ m _. unfold compose. rewrite fold_apply_id.
    cbn [fmap list_fmap]. change (results (mb_id m) (?x :: ?l)) with (results_in (mb_id m) x ++ results (mb_id m) l).
    by rewrite foldl_app.
Qed.

Lemma settle_all_ok pbm fs : ∀ ms,
  (∀ f, f ∈ fs → lf_homeMemberId f ∈ mb_id <$> ms ∧
     ∀ a, truthy (lf_awayMemberId f) = Some a → a ∈ mb_id <$> ms) →
  ∃ ms', mfoldl (settle_members pbm) ms fs = Ok ms'.
Proof.
  induction fs as [|f fs IH]; intros ms H; [by eexists|]. cbn [mfoldl].
  assert (∃ ms1, settle_members pbm ms f = Ok ms1 ∧ mb_id <$> ms1 = mb_id <$> ms) as (ms1 & -> & Hids).
  { unfold settle_members. destruct (H f ltac:(by left)) as [Hh Ha].
    set (upd := outcomeData _ _ _). apply (update_member_ok _ upd) in Hh as [ms1 Hms1].
    rewrite Hms1. cbn [or_throw rbind]. pose proof (update_member_eq _ _ _ _ Hms1) as E1.
    assert (mb_id <$> ms1 = mb_id <$> ms) as Hids1.
    { subst ms1. rewrite <- list_fmap_compose. apply list_fmap_ext. intros _ m _. unfold compose.
      by case_decide. }
    destruct (truthy (lf_awayMemberId f)) as [a|]; [|by exists ms1].
    specialize (Ha a eq_refl). rewrite <- Hids1 in Ha.
    set (upd2 := outcomeData _ _ _). apply (update_member_ok _ upd2) in Ha as [ms2 Hms2].
    rewrite Hms2. cbn [or_throw]. exists ms2. split; [done|]. rewrite <- Hids1.
    apply update_member_eq in Hms2. subst ms2. rewrite <- list_fmap_compose.
    apply list_fmap_ext. intros _ m _. unfold compose. by case_decide. }
  cbn [rbind]. apply IH. intros f' Hf'. rewrite Hids. apply H. by right.
Qed.

Lemma results_settle id pbm (p : LeagueFixture → bool) fs :
  (∀ f, p f = true → lf_isFinished f = false) →
  results id ((λ f, if p f then finish pbm f else f) <$> fs)
  ≡ₚ results id fs ++ results id (finish pbm <$> List.filter p fs).
Proof.
  intros Hp. induction fs as [|f fs IH]; [done|]. cbn [fmap list_fmap List.filter].
  change (results id (?x :: ?l)) with (results_in id x ++ results id l). rewrite IH.
  destruct (p f) eqn:E; [|by rewrite app_assoc].
  assert (results_in id f = []) as -> by (unfold results_in, counted; by rewrite (Hp f E)).
  cbn [app fmap list_fmap]. change (results id (?x :: ?l)) with (results_in id x ++ results id l).
  rewrite !app_assoc. apply Permutation_app_tail, Permutation_app_comm.
Qed.

Lemma is_open_facts leagueId gw f :
  is_open leagueId gw f = true ↔
  lf_leagueId f = leagueId ∧ lf_gameweekId f = gw ∧ lf_isFinished f = false ∧ lf_isCup f = false.
Proof.
  unfold is_open. rewrite !andb_true_iff, !negb_true_iff, bool_decide_eq_true, Z.eqb_eq. tauto.
Qed.

(** ** Lemmas: ranks *)

Definition assign (rows : list H2HStandingsEntry) (m : LeagueMember) : LeagueMember :=
  foldl (λ m row, if decide (mb_id m = he_memberId (hs_entry row)) then set_rank (hs_rank row) m else m)
    m rows.

Definition row_id (row : H2HStandingsEntry) : string := he_memberId (hs_entry row).

Lemma assign_other rows m : mb_id m ∉ row_id <$> rows → assign rows m = m.
Proof.
  unfold assign. induction rows as [|row rows IH]; [done|]. cbn [foldl fmap list_fmap]. intros H.
  rewrite decide_False by set_solver. apply IH. set_solver.
Qed.

Lemma assign_ranked rows m i row :
  NoDup (row_id <$> rows) → rows !! i = Some row → row_id row = mb_id m →
  assign rows m = set_rank (hs_rank row) m.
Proof.
  revert i. induction rows as [|row' rows IH]; intros i; [done|].
  cbn [fmap list_fmap]. intros [H1 H2]%list.NoDup_cons Hi Hid. unfold assign. cbn [foldl].
  destruct i as [|i].
  - injection Hi as ->. rewrite decide_True by (by rewrite <- Hid).
    apply assign_other. cbn. by rewrite <- Hid.
  - rewrite decide_False.
    + by apply (IH i).
    + intros E. apply H1. change (he_memberId (hs_entry row')) with (row_id row') in E.
      rewrite <- E, <- Hid. apply list_elem_of_fmap. exists row. split; [done|].
      by eapply (list_elem_of_lookup_2 rows i).
Qed.

Lemma assign_facts rows m :
  identity_of (assign rows m) = identity_of m ∧ entry_of (assign rows m) = entry_of m.
Proof.
  unfold assign. revert m. induction rows as [|row rows IH]; intros m; [done|]. cbn [foldl].
  destruct (decide _); rewrite (proj1 (IH _)), (proj2 (IH _)); done.
Qed.

Lemma tallies_assign rows m r : tallies (assign rows m) r ↔ tallies m r.
Proof.
  pose proof (f_equal he_matchesWon (proj2 (assign_facts rows m))) as H1.
  pose proof (f_equal he_matchesDrawn (proj2 (assign_facts rows m))) as H2.
  pose proof (f_equal he_matchesLost (proj2 (assign_facts rows m))) as H3.
  pose proof (f_equal he_pointsFor (proj2 (assign_facts rows m))) as H4.
  pose proof (f_equal he_pointsAgainst (proj2 (assign_facts rows m))) as H5.
  pose proof (f_equal he_h2hPoints (proj2 (assign_facts rows m))) as H6.
  cbn in H1, H2, H3, H4, H5, H6.
  split; intros []; constructor; congruence.
Qed.

Lemma assign_id rows m : mb_id (assign rows m) = mb_id m.
Proof. exact (f_equal he_memberId (proj2 (assign_facts rows m))). Qed.

Lemma rank_all_eq rows : ∀ ms ms', mfoldl update_rank ms rows = Ok ms' → ms' = assign rows <$> ms.
Proof.
  induction rows as [|row rows IH]; intros ms ms' H; cbn [mfoldl] in H.
  - injection H as <-. induction ms as [|m ms IHm]; [done|]. cbn. by rewrite <- IHm.
  - unfold update_rank at 1 in H.
    destruct (update_member _ _ ms) as [ms1|] eqn:E; [|done]. cbn [or_throw rbind] in H.
    apply update_member_eq in E. apply IH in H. subst ms1 ms'. by rewrite <- list_fmap_compose.
Qed.

Lemma rank_all_ok rows : ∀ ms,
  (∀ row, row ∈ rows → row_id row ∈ mb_id <$> ms) → ∃ ms', mfoldl update_rank ms rows = Ok ms'.
Proof.
  induction rows as [|row rows IH]; intros ms H; [by eexists|]. cbn [mfoldl].
  unfold update_rank at 1. destruct (proj2 (update_member_ok (row_id row) (set_rank (hs_rank row)) ms)
    (H row ltac:(by left))) as [ms1 Hms1]. unfold row_id in Hms1. rewrite Hms1. cbn [or_throw rbind].
  apply IH. intros row' Hr. apply update_member_eq in Hms1. subst ms1. rewrite <- list_fmap_compose.
  specialize (H row' ltac:(by right)). apply list_elem_of_fmap in H as (m & Hm1 & Hm2).
  apply list_elem_of_fmap. exists m. split; [|done]. rewrite Hm1. unfold compose. by case_decide.
Qed.

(** The table order on member rows. *)
Definition member_order : LeagueMember → LeagueMember → Z :=
  then_by (desc mb_h2hPoints)
    (then_by (desc mb_pointsFor) (desc (λ m, mb_pointsFor m - mb_pointsAgainst m))).

Lemma table_of_members ms :
  sortH2HStandings (entry_of <$> ms)
  = imap (λ i m, {| hs_rank := Z.of_nat i + 1; hs_entry := entry_of m;
                    hs_pointsDifference := mb_pointsFor m - mb_pointsAgainst m |})
      (sort_by member_order ms).
Proof.
  unfold sortH2HStandings. rewrite <- list_fmap_compose, sort_by_fmap.
  change (sort_by (λ a b, table_order _ _) ms) with (sort_by member_order ms).
  apply list_eq. intros i. rewrite !list_lookup_imap, list_lookup_fmap.
  by destruct (sort_by member_order ms !! i).
Qed.

Lemma table_row_ids ms : row_id <$> sortH2HStandings (entry_of <$> ms) ≡ₚ mb_id <$> ms.
Proof.
  rewrite table_of_members. rewrite <- (sort_by_perm member_order ms) at 2.
  generalize (sort_by member_order ms). intros l. apply reflexive_eq, list_eq. intros i.
  rewrite !list_lookup_fmap, list_lookup_imap. by destruct (l !! i).
Qed.

(** Ranking the active members of a league by the table. *)
Lemma ranks_assigned (ms : list LeagueMember) (p : LeagueMember → bool) rows :
  (∀ m m', identity_of m = identity_of m' → p m = p m') → NoDup (mb_id <$> ms) →
  rows = sortH2HStandings (entry_of <$> List.filter p ms) →
  ∃ table, table ≡ₚ List.filter p (assign rows <$> ms) ∧
    StronglySorted (λ a b, member_order a b ≤ 0) table ∧
    mb_rank <$> table = (λ i, Some (Z.of_nat i + 1)) <$> seq 0 (length table).
Proof.
  intros Hp Hn Hrows. set (act := List.filter p ms) in *.
  exists (assign rows <$> sort_by member_order act). split_and!.
  - rewrite sort_by_perm. unfold act. apply reflexive_eq. symmetry. apply lfilter_fmap.
    intros m. apply Hp, assign_facts.
  - assert (StronglySorted (λ a b, member_order a b ≤ 0) (sort_by member_order act)) as Hs
      by (apply sort_by_sorted, _).
    revert Hs. generalize (sort_by member_order act). intros l.
    induction 1 as [|m l Hl IH Hm]; cbn [fmap list_fmap]; constructor; [done|].
    rewrite Forall_fmap. eapply Forall_impl; [exact Hm|]. intros m' Hm'. unfold compose.
    change (member_order (assign rows m) (assign rows m')) with
      (table_order (entry_of (assign rows m), he_pointsFor (entry_of (assign rows m)) - he_pointsAgainst (entry_of (assign rows m)))
                   (entry_of (assign rows m'), he_pointsFor (entry_of (assign rows m')) - he_pointsAgainst (entry_of (assign rows m')))).
    rewrite !(proj2 (assign_facts rows _)). exact Hm'.
  - rewrite length_fmap. apply list_eq. intros i. rewrite !list_lookup_fmap.
    destruct (sort_by member_order act !! i) as [m|] eqn:E; cbn [fmap option_fmap option_map].
    + pose proof (lookup_lt_Some _ _ _ E). rewrite lookup_seq_lt by done. cbn. f_equal.
      assert (rows !! i = Some {| hs_rank := Z.of_nat i + 1; hs_entry := entry_of m;
          hs_pointsDifference := mb_pointsFor m - mb_pointsAgainst m |}) as Hi.
      { rewrite Hrows, table_of_members, list_lookup_imap, E. done. }
      rewrite (assign_ranked rows m i _) by
        (done || rewrite Hrows, table_row_ids; by apply NoDup_fmap_lfilter). done.
    + apply lookup_ge_None in E. rewrite lookup_ge_None_2; [done|]. rewrite length_seq. lia.
Qed.

(** ** Properties: settlement *)

(** What a run that settled something did. *)
Lemma settle_split leagueId gw useLeague db n db' :
  settleH2HGameweek leagueId gw useLeague db = Ok (n, db') →
  n = length (List.filter (is_open leagueId gw) (db_fixtures db)) ∧
  ((n = O ∧ db' = db) ∨ (n ≠ O ∧ ∃ pbm rows,
    let ms := (λ m, foldl apply_result m (results (mb_id m)
      (finish pbm <$> List.filter (is_open leagueId gw) (db_fixtures db)))) <$> db_members db in
    rows = sortH2HStandings (entry_of <$> List.filter (λ m, bool_decide (mb_leagueId m = leagueId)
             && bool_decide (mb_status m = Member_ACTIVE)) ms) ∧
    pbm = points_by_member (active_members db leagueId)
      (gameweek_scores leagueId gw useLeague (mb_squadId <$> active_members db leagueId) db) ∧
    db' = with_members (with_fixtures db
      ((λ f, if is_open leagueId gw f then finish pbm f else f) <$> db_fixtures db))
      (assign rows <$> ms))).
Proof.
  unfold settleH2HGameweek. intros H. set (open := List.filter _ (db_fixtures db)) in *.
  destruct (bool_decide_reflect (length open = O)) as [Hz|Hz]; [injection H as <- <-; auto|].
  set (pbm := points_by_member _ _) in H.
  destruct (mfoldl (settle_members pbm) _ _) as [ms|] eqn:E1; [|done]. cbn [rbind] in H.
  apply settle_all_eq in E1.
  2:{ intros f Hf. apply elem_of_lfilter in Hf as [_ Hf]. by apply is_open_facts in Hf as (_ & _ & _ & ?). }
  destruct (mfoldl update_rank _ _) as [ms2|] eqn:E2; [|done]. cbn [rbind] in H.
  injection H as <- <-. split; [done|]. right. split; [done|].
  eexists pbm, _. cbn zeta. split; [reflexivity|]. split; [done|].
  apply rank_all_eq in E2. subst ms2. cbn [db_members with_members]. rewrite E1. done.
Qed.

(** The sides of the open fixtures of a gameweek are member rows. *)
Definition sides_exist (leagueId : string) (gw : Z) (db : LeagueDb) : Prop :=
  ∀ f, f ∈ db_fixtures db → is_open leagueId gw f = true →
    lf_homeMemberId f ∈ mb_id <$> db_members db ∧
    ∀ a, truthy (lf_awayMemberId f) = Some a → a ∈ mb_id <$> db_members db.

Lemma settle_ok leagueId gw useLeagueScoring db :
  sides_exist leagueId gw db →
  is_ok (settleH2HGameweek leagueId gw useLeagueScoring db) = true.
Proof.
  intros Hfk. unfold settleH2HGameweek. set (open := List.filter _ (db_fixtures db)).
  destruct (bool_decide _); [done|]. set (pbm := points_by_member _ _).
  destruct (settle_all_ok pbm open (db_members db)) as [ms Hms].
  { intros f Hf. apply elem_of_lfilter in Hf as [Hin Hf]. by apply Hfk. }
  rewrite Hms. cbn [rbind]. cbn [db_members with_members].
  match goal with |- context [mfoldl update_rank ms ?rows] =>
    destruct (rank_all_ok rows ms) as [ms' ->]; [|done] end.
  intros row Hrow. apply (list_elem_of_fmap_2 row_id) in Hrow. rewrite table_row_ids in Hrow.
  apply list_elem_of_fmap in Hrow as (m & -> & Hm). apply list_elem_of_fmap. exists m.
  split; [done|]. by apply elem_of_lfilter in Hm as [? _].
Qed.

(** Settlement of a gameweek of a head-to-head league: it succeeds
    whenever the sides of the open fixtures are member rows; it finishes every
    open fixture of the gameweek with the members' points and changes no other
    fixture and no member's identity; a second run, with either kind of scoring,
    finds nothing and changes nothing; and the ranks it leaves number the active
    members from 1 in the order points, points for, difference. *)
Theorem settle_gameweek_correct (leagueId : string) (gw : Z) (useLeagueScoring : bool) (db : LeagueDb) :
  NoDup (mb_id <$> db_members db) →
  (sides_exist leagueId gw db →
   is_ok (settleH2HGameweek leagueId gw useLeagueScoring db) = true) ∧
  ∀ n db', settleH2HGameweek leagueId gw useLeagueScoring db = Ok (n, db') →
    let pbm := points_by_member (active_members db leagueId)
      (gameweek_scores leagueId gw useLeagueScoring (mb_squadId <$> active_members db leagueId) db) in
    db_fixtures db' = (λ f, if is_open leagueId gw f then finish pbm f else f) <$> db_fixtures db ∧
    identity_of <$> db_members db' = identity_of <$> db_members db ∧
    (∀ again, settleH2HGameweek leagueId gw again db' = Ok (O, db')) ∧
    (n ≠ O → ∃ table, table ≡ₚ active_members db' leagueId ∧
       StronglySorted (λ a b, member_order a b ≤ 0) table ∧
       mb_rank <$> table = (λ i, Some (Z.of_nat i + 1)) <$> seq 0 (length table)).
Proof.
  intros Hn. split.
  - apply settle_ok.
  - intros n db' H pbm0. destruct (settle_split _ _ _ _ _ _ H) as [Hcount Hs].
    assert (∀ again d, List.filter (is_open leagueId gw) (db_fixtures d) = [] →
      settleH2HGameweek leagueId gw again d = Ok (O, d)) as Hagain.
    { intros again d Hd. unfold settleH2HGameweek. by rewrite Hd. }
    destruct Hs as [[-> ->]|(Hz & pbm & rows & Hrows & Hpbm & ->)].
    + symmetry in Hcount. apply length_zero_iff_nil in Hcount. split_and!; [|done|auto|done].
      rewrite <- (list_fmap_id (db_fixtures db)) at 1. apply list_fmap_ext. intros i f Hf. cbn.
      destruct (is_open leagueId gw f) eqn:E; [|done]. exfalso.
      assert (f ∈ List.filter (is_open leagueId gw) (db_fixtures db)) as Hin.
      { apply elem_of_lfilter. split; [by eapply list_elem_of_lookup_2|done]. }
      rewrite Hcount in Hin. by apply elem_of_nil in Hin.
    + fold pbm0 in Hpbm. subst pbm. cbn [db_fixtures db_members with_members with_fixtures]. split_and!.
      * done.
      * rewrite <- !list_fmap_compose. apply list_fmap_ext. intros _ m _. unfold compose.
        rewrite (proj1 (assign_facts _ _)). apply fold_apply_identity.
      * intros again. apply Hagain. cbn [db_fixtures with_members with_fixtures].
        apply lfilter_nil. intros f (f0 & -> & _)%list_elem_of_fmap.
        destruct (is_open leagueId gw f0) eqn:E; [|done]. unfold is_open. cbn.
        by rewrite andb_false_r.
      * intros _. unfold active_members, member_status. cbn [db_members with_members].
        eapply ranks_assigned; [| |exact Hrows].
        -- intros m m' E. pose proof (f_equal (λ x, x.1.1.2) E) as E1. pose proof (f_equal snd E) as E2.
           cbn in E1, E2. by rewrite E1, E2.
        -- rewrite <- list_fmap_compose.
           assert (∀ g : string → list (Z * Z),
             mb_id ∘ (λ m, foldl apply_result m (g (mb_id m))) <$> db_members db = mb_id <$> db_members db) as Hg.
           { intros g. apply list_fmap_ext. intros _ m _. apply fold_apply_id. }
           by rewrite (Hg (λ id, results id (finish pbm0 <$> List.filter (is_open leagueId gw) (db_fixtures db)))).
Qed.

(** One operation of the service on a head-to-head league, with everything the
    rest of the system may do in between. *)
Inductive h2h_step : LeagueDb → LeagueDb → Prop :=
| step_schedule leagueId ids gws db fs :
    insert_fixtures (schedule_fixture leagueId <$> generateRoundRobinSchedule ids gws)
      (db_fixtures db) = Some fs →
    h2h_step db (with_fixtures db fs)
| step_settle leagueId gw useLeagueScoring db n db' :
    settleH2HGameweek leagueId gw useLeagueScoring db = Ok (n, db') → h2h_step db db'
| step_generate leagueId db r db' :
    generatePlayoffBracket leagueId db = Ok (r, db') → h2h_step db db'
| step_advance leagueId gw db r db' :
    advancePlayoffRound leagueId gw db = Ok (r, db') → h2h_step db db'
| step_join m db :
    tallies m [] → results (mb_id m) (db_fixtures db) = [] →
    h2h_step db (with_members db (db_members db ++ [m]))
| step_members f db :
    (∀ m, mb_id (f m) = mb_id m ∧ entry_of (f m) = entry_of m) →
    h2h_step db (with_members db (f <$> db_members db))
| step_other db db' :
    db_members db' = db_members db → db_fixtures db' = db_fixtures db → h2h_step db db'.

Lemma replace_round_results leagueId gw round ps db db' id :
  replace_round leagueId gw round ps db = Ok db' →
  db_members db' = db_members db ∧ results id (db_fixtures db') = results id (db_fixtures db).
Proof.
  unfold replace_round, insert_fixtures. destruct (bool_decide _); [|done]. cbn [or_throw rbind].
  intros [= <-]. split; [done|]. cbn [db_fixtures with_fixtures].
  rewrite results_app, results_delete_open, (results_uncounted _ (imap _ _)), app_nil_r; [done|].
  intros f [i Hi]%list_elem_of_lookup. rewrite list_lookup_imap in Hi.
  by apply fmap_Some in Hi as (p & _ & ->).
Qed.

Lemma consistent_same db db' :
  db_members db' = db_members db →
  (∀ id, results id (db_fixtures db') = results id (db_fixtures db)) →
  table_consistent db → table_consistent db'.
Proof. intros Hm Hr H m Hin. rewrite Hr. apply H. by rewrite <- Hm. Qed.

Lemma h2h_step_consistent db db' : h2h_step db db' → table_consistent db → table_consistent db'.
Proof.
  intros Hstep Hc. destruct Hstep as [leagueId ids gws db fs H|leagueId gw u db n db' H
    |leagueId db r db' H|leagueId gw db r db' H|m db Hm Hr|f db Hf|db db' Hm Hf].
  - apply consistent_same with db; [done| |done]. intros id. cbn [db_fixtures with_fixtures].
    unfold insert_fixtures in H. destruct (bool_decide _); [|done]. injection H as <-.
    rewrite results_app, (results_uncounted _ (_ <$> _)), app_nil_r; [done|].
    by intros f (p & -> & _)%list_elem_of_fmap.
  - destruct (settle_split _ _ _ _ _ _ H) as (_ & [[_ ->]|(_ & pbm & rows & _ & _ & ->)]); [done|].
    intros m Hm. cbn [db_members with_members db_fixtures with_fixtures] in *.
    apply list_elem_of_fmap in Hm as (m1 & -> & Hm). apply list_elem_of_fmap in Hm as (m0 & -> & Hm).
    rewrite assign_id, fold_apply_id, tallies_assign, results_settle.
    + by apply tallies_fold, Hc.
    + by intros f (_ & _ & ? & _)%is_open_facts.
  - unfold generatePlayoffBracket in H. destruct (map_get _ _); [|done]. cbn [or_throw rbind] in H.
    destruct (bool_decide _); [done|]. cbn [throw_if rbind] in H.
    destruct (getH2HStandings _ _); [|done]. cbn [rbind] in H. destruct (_ <? _); [done|].
    cbn [throw_if rbind] in H. destruct (replace_round _ _ _ _ _) as [db1|] eqn:E; [|done].
    injection H as _ <-.
    eapply consistent_same; [apply (replace_round_results _ _ _ _ _ _ "" E)|intros id;
      apply (replace_round_results _ _ _ _ _ _ id E)|done].
  - unfold advancePlayoffRound in H. destruct (bool_decide _); [done|]. cbn [throw_if rbind] in H.
    destruct (existsb _ _); [done|]. cbn [throw_if rbind] in H.
    destruct (_ <$> sort_by _ _) as [|w [|w2 ws]]; [|by injection H as _ <-|];
      (destruct (replace_round _ _ _ _ _) as [db1|] eqn:E; [|done]; injection H as _ <-;
       eapply consistent_same; [apply (replace_round_results _ _ _ _ _ _ "" E)|intros id;
         apply (replace_round_results _ _ _ _ _ _ id E)|done]).
  - intros m' Hm'. cbn [db_members with_members db_fixtures] in *.
    apply elem_of_app in Hm' as [?|Hm']; [by apply Hc|]. apply list_elem_of_singleton in Hm' as ->.
    change (db_fixtures (with_members db _)) with (db_fixtures db). by rewrite Hr.
  - intros m' Hm'. cbn [db_members with_members] in Hm'.
    apply list_elem_of_fmap in Hm' as (m & -> & Hm). destruct (Hf m) as [Hid He].
    change (db_fixtures (with_members db _)) with (db_fixtures db). rewrite Hid.
    destruct (Hc m Hm). unfold entry_of in He. injection He as ???????. constructor; congruence.
  - apply consistent_same with db; [done| |done]. intros id. by rewrite Hf.
Qed.

(** The head-to-head table is always right: from a state without results,
    after any sequence of schedules, settlements, playoff rounds, joining
    members and other services' work, every member's won, drawn and lost
    matches, points for and against are those of the finished league fixtures
    (the cup stays out), and the table points are three a win and one a draw. *)
Theorem h2h_table_invariant (db0 db : LeagueDb) :
  (∀ m, m ∈ db_members db0 → tallies m []) → (∀ f, f ∈ db_fixtures db0 → counted f = false) →
  rtc h2h_step db0 db → table_consistent db.
Proof.
  intros Hm Hf Hsteps. assert (table_consistent db0) as H0.
  { intros m Hin. rewrite results_uncounted by done. by apply Hm. }
  clear Hm Hf. induction Hsteps as [|db0 db1 db2 Hstep _ IH]; [done|].
  apply IH. by eapply h2h_step_consistent.
Qed.

Definition sample_h2h_member (id : string) (joined : Z) : LeagueMember :=
  {| mb_id := id; mb_leagueId := "H"; mb_userId := id; mb_squadId := id; mb_status := Member_ACTIVE;
     mb_paymentStatus := PAYMENT_CONFIRMED; mb_hasPaid := true; mb_joinedAt := joined;
     mb_rank := None; mb_totalPoints := 0; mb_matchesWon := 0; mb_matchesDrawn := 0;
     mb_matchesLost := 0; mb_pointsFor := 0; mb_pointsAgainst := 0; mb_h2hPoints := 0 |}.

(** Three members, three gameweeks, scores for the first. *)
Definition sample_h2h_db : LeagueDb :=
  {| db_leagues := [("H", {| lg_name := []; lg_creatorId := "a"; lg_inviteCode := Some "C0DE00"; lg_maxMembers := 20; lg_minMembers := 2;
       lg_currentMembers := 3; lg_entryFee := 0; lg_prizePool := 0; lg_status := ACTIVE;
       lg_scoringType := HEAD_TO_HEAD; lg_scoringConfig := None;
       lg_payoutPreset := Prize.Standard; lg_payoutSplitsBps := []; lg_isPrivate := false; lg_buyIn := None;
       lg_startGameweekId := 1; lg_endGameweekId := 3 |})];
     db_members := [sample_h2h_member "a" 1; sample_h2h_member "b" 2; sample_h2h_member "c" 3];
     db_fixtures := schedule_fixture "H" <$> generateRoundRobinSchedule ["a"; "b"; "c"] [1; 2; 3];
     db_invitations := []; db_squadScores := [(1, "a", 50); (1, "b", 61); (1, "c", 44)];
     db_leagueScores := []; db_gameweeks := []; db_squads := [] |}.

Definition settled (leagueId : string) (gw : Z) (db : LeagueDb) : LeagueDb :=
  match settleH2HGameweek leagueId gw false db with Ok (_, db) => db | Err _ => db end.

Lemma settle_gameweek_correct_witness :
  match settleH2HGameweek "H" 1 false sample_h2h_db with
  | Ok (n, db) => n = 2%nat ∧ settleH2HGameweek "H" 1 true db = Ok (O, db) ∧
      ((λ m, (mb_id m, mb_h2hPoints m)) <$> db_members db) = [("a", 0); ("b", 3); ("c", 0)]
  | Err _ => False
  end.
Proof.
  destruct (settleH2HGameweek "H" 1 false sample_h2h_db) as [[n db]|e] eqn:E;
    [|vm_compute in E; discriminate E].
  assert (NoDup (mb_id <$> db_members sample_h2h_db)) as Hn
    by (apply (bool_decide_unpack _); vm_compute; exact I).
  destruct (proj2 (settle_gameweek_correct "H" 1 false sample_h2h_db Hn) n db E)
    as (_ & _ & Hagain & _).
  split; [vm_compute in E; by injection E|]. split; [exact (Hagain true)|].
  vm_compute in E. injection E as _ <-. reflexivity.
Defined.

Lemma h2h_table_invariant_witness :
  table_consistent (settled "H" 1 sample_h2h_db).
Proof.
  apply (h2h_table_invariant sample_h2h_db).
  - intros m Hm. apply list_elem_of_In in Hm. destruct Hm as [<-|[<-|[<-|[]]]]; constructor; reflexivity.
  - intros f Hf. apply list_elem_of_In in Hf. vm_compute in Hf.
    repeat (destruct Hf as [<-|Hf]; [reflexivity|]). destruct Hf.
  - apply rtc_once. unfold settled.
    destruct (settleH2HGameweek "H" 1 false sample_h2h_db) as [[n db]|e] eqn:E;
      [|vm_compute in E; discriminate E].
    exact (step_settle "H" 1 false sample_h2h_db n db E).
Defined.

(** ** Lemmas: playoffs *)

Definition pair_players (ps : list (string * string)) : list string := concat ((λ p, [p.1; p.2]) <$> ps).

Lemma seed_pairings_even ws k :
  length ws = (2 * k)%nat → (0 < k)%nat →
  length (seedPlayoffPairings ws) = k ∧ pair_players (seedPlayoffPairings ws) ≡ₚ ws ∧
  ∀ i, (i < k)%nat → seedPlayoffPairings ws !! i
    = Some (default "" (ws !! i), default "" (ws !! (2 * k - 1 - i)%nat)).
Proof.
  intros Hl Hk. unfold seedPlayoffPairings. rewrite Hl.
  assert ((2 * k + 1) / 2 = k)%nat as -> by (symmetry; apply (Nat.div_unique _ _ _ 1); lia).
  rewrite length_fmap, length_seq. split; [done|]. split.
  - unfold pair_players. rewrite <- list_fmap_compose.
    assert (2 * k = S (2 * k - 1))%nat as Hm by lia.
    assert ((2 * k - 1) mod 2 = 1)%nat as Hodd
      by (symmetry; apply (Nat.mod_unique _ _ (k - 1)); lia).
    pose proof (opposite_positions (replicate (2 * k) None) (2 * k - 1)%nat
      ltac:(rewrite length_replicate; lia) Hodd) as Hop. rewrite <- Hm in Hop.
    replace (2 * k / 2)%nat with k in Hop by (apply (Nat.div_unique _ _ _ 0); lia).
    apply (fmap_Permutation (λ i, default "" (ws !! i))) in Hop.
    transitivity ((λ i, default "" (ws !! i)) <$> seq 0 (2 * k)).
    + rewrite <- Hop, fmap_concat, <- list_fmap_compose. done.
    + apply reflexive_eq, list_eq. intros i. rewrite list_lookup_fmap.
      destruct (decide (i < 2 * k)%nat) as [Hi|Hi].
      * rewrite lookup_seq_lt by done. cbn [fmap option_fmap option_map].
        destruct (lookup_lt_is_Some_2 ws i) as [x Hx]; [lia|]. by rewrite Nat.add_0_l, Hx.
      * rewrite (lookup_ge_None_2 (seq 0 _)) by (rewrite length_seq; lia). symmetry. apply lookup_ge_None. lia.
  - intros i Hi. rewrite list_lookup_fmap, lookup_seq_lt by done. done.
Qed.

Lemma bracket_size n :
  0 ≤ n → let size := computeBracketSize n in
  (n < 2 → size = 0) ∧
  (2 ≤ n → 2 ≤ size ≤ n ∧ size ≤ 8 ∧ size = 2 ^ Z.log2 size ∧ (size = 8 ∨ n < 2 * size)).
Proof.
  intros Hn. cbn zeta. unfold computeBracketSize. cbn [shrink].
  change (8 / 2) with 4. change (4 / 2) with 2. change (2 / 2) with 1. change (1 / 2) with 0.
  destruct (Z.ltb_spec n 8), (Z.ltb_spec n 4), (Z.ltb_spec n 2), (Z.ltb_spec n 1); try lia;
    cbn; (split; intros; split_and?; try lia; try done; auto).
Qed.

(** A playoff round ready to be played: [2 ^ k] matches between distinct
    members of [P], alone in its gameweek among the league's fixtures. *)
Record playoff_ready (db : LeagueDb) (leagueId : string) (gw : Z) (k : nat) (P : list string) : Prop := {
  pr_round : ∃ rest round ps,
    db_fixtures db = rest ++ imap (playoff_fixture leagueId gw round) ps ∧
    length ps = (2 ^ k)%nat ∧ NoDup (pair_players ps) ∧ pair_players ps ⊆ P ∧
    (∀ f, f ∈ rest → lf_leagueId f = leagueId → lf_isCup f = false → lf_gameweekId f ≠ gw) ∧
    (∀ f, f ∈ rest → lf_leagueId f = leagueId → lf_isCup f = false → gw < lf_gameweekId f →
       lf_isFinished f = false) ∧
    (∀ f, f ∈ rest → lf_isCup f = true → lf_isPlayoff f = false);
  pr_keys : NoDup (fixture_key <$> db_fixtures db);
  pr_members : P ⊆ mb_id <$> db_members db
}.

Lemma playoff_fixture_elem leagueId gw round ps f :
  f ∈ imap (playoff_fixture leagueId gw round) ps →
  lf_leagueId f = leagueId ∧ lf_gameweekId f = gw ∧ lf_isFinished f = false ∧
  lf_isPlayoff f = true ∧ lf_isCup f = false ∧
  ∃ a, lf_awayMemberId f = Some a ∧ (lf_homeMemberId f, a) ∈ ps.
Proof.
  intros [i Hi]%list_elem_of_lookup. rewrite list_lookup_imap in Hi.
  apply fmap_Some in Hi as ([h a] & Hp & ->). apply list_elem_of_lookup_2 in Hp. split_and!; try done.
  by exists a.
Qed.

Lemma pair_players_elem ps h a : (h, a) ∈ ps → h ∈ pair_players ps ∧ a ∈ pair_players ps.
Proof.
  intros H. unfold pair_players. split; apply list_elem_of_In, in_concat; exists [h; a];
    (split; [apply list_elem_of_In, list_elem_of_fmap; by exists (h, a)|cbn; auto]).
Qed.

Lemma pair_homes ps : NoDup (pair_players ps) → NoDup ps.*1.
Proof.
  induction ps as [|[h a] ps IH]; [constructor|].
  change (pair_players ((h, a) :: ps)) with (h :: a :: pair_players ps). cbn [fmap list_fmap fst].
  intros [H1 [H2 H3]%list.NoDup_cons]%list.NoDup_cons. apply list.NoDup_cons. split; [|by apply IH].
  intros ([h' a'] & -> & Hin)%list_elem_of_fmap. apply H1. right. cbn.
  by apply (pair_players_elem ps h' a').
Qed.

(** Both operations that write a round leave it ready. *)
Lemma replace_round_ready leagueId gw round ps k P db :
  length ps = (2 ^ k)%nat → NoDup (pair_players ps) → pair_players ps ⊆ P →
  NoDup (fixture_key <$> db_fixtures db) → P ⊆ mb_id <$> db_members db →
  (∀ f, f ∈ db_fixtures db → lf_leagueId f = leagueId → lf_isCup f = false → gw ≤ lf_gameweekId f →
     lf_isFinished f = false) →
  (∀ f, f ∈ db_fixtures db → lf_isCup f = true → lf_isPlayoff f = false) →
  ∃ db', replace_round leagueId gw round ps db = Ok db' ∧ playoff_ready db' leagueId gw k P.
Proof.
  intros Hl Hnd HP Hkeys Hm Hopen Hcup. unfold replace_round, insert_fixtures.
  set (rest := delete_open leagueId gw (db_fixtures db)).
  assert (∀ f, f ∈ rest → f ∈ db_fixtures db ∧ is_open leagueId gw f = false) as Hrest.
  { intros f [Hf Hn]%elem_of_lfilter. split; [done|]. by apply negb_true_iff in Hn. }
  assert (∀ f, f ∈ rest → lf_leagueId f = leagueId → lf_isCup f = false → lf_gameweekId f ≠ gw) as Hgw.
  { intros f [Hf Hn]%Hrest HL Hc Hg. apply not_true_iff_false in Hn. apply Hn, is_open_facts.
    split_and!; try done. apply Hopen; try done. lia. }
  assert (NoDup (fixture_key <$> (rest ++ imap (playoff_fixture leagueId gw round) ps))) as Hk.
  { rewrite fmap_app. apply list.NoDup_app. split_and!.
    - by apply NoDup_fmap_lfilter.
    - intros key (f & -> & Hf)%list_elem_of_fmap (f' & Hk & Hf')%list_elem_of_fmap.
      apply playoff_fixture_elem in Hf' as (H1 & H2 & _ & _ & H3 & _).
      unfold fixture_key in Hk. rewrite H1, H2, H3 in Hk. injection Hk as HL HG _ HC.
      by apply (Hgw f Hf).
    - assert (fixture_key <$> imap (playoff_fixture leagueId gw round) ps
        = (λ h, (leagueId, gw, h, false)) <$> ps.*1) as ->.
      { apply list_eq. intros i. rewrite !list_lookup_fmap, list_lookup_imap. by destruct (ps !! i). }
      apply NoDup_fmap_2; [by intros ?? [=]|by apply pair_homes]. }
  rewrite bool_decide_true by done. cbn [or_throw rbind]. eexists. split; [reflexivity|].
  constructor; [|done|done]. exists rest, round, ps. split_and!; try done.
  - intros f [Hf _]%Hrest ???. apply Hopen; try done. lia.
  - intros f [Hf _]%Hrest ?. by apply Hcup.
Qed.

Lemma resolve_playoff_side f members :
  resolvePlayoffWinner f members ∈ [lf_homeMemberId f; default "" (lf_awayMemberId f)].
Proof.
  unfold resolvePlayoffWinner.
  repeat match goal with |- context [match ?x with _ => _ end] => destruct x end;
    first [by left|by right; left].
Qed.

Lemma ready_sides db leagueId gw k P : playoff_ready db leagueId gw k P → sides_exist leagueId gw db.
Proof.
  intros [(rest & round & ps & Hf & _ & _ & HP & Hgw & _) _ Hm] f Hin (HL & HG & _ & HC)%is_open_facts.
  rewrite Hf in Hin. apply elem_of_app in Hin as [Hin|Hin]; [by apply (Hgw f) in Hin|].
  apply playoff_fixture_elem in Hin as (_ & _ & _ & _ & _ & a & Ha & Hp).
  apply pair_players_elem in Hp as [Hh Ha']. split; [by apply Hm, HP|].
  intros a' Ht. apply Hm, HP. rewrite Ha in Ht. unfold truthy in Ht. case_decide; [done|].
  injection Ht as <-. done.
Qed.

(** Settling and advancing a ready round. *)
Lemma playoff_round leagueId gw useLeague db k P :
  playoff_ready db leagueId gw k P →
  ∃ n db1 r db2, settleH2HGameweek leagueId gw useLeague db = Ok (n, db1) ∧
    advancePlayoffRound leagueId gw db1 = Ok (r, db2) ∧
    match k with
    | O => ∃ c, r = inl c ∧ c ∈ P
    | S k' => (∃ x, r = inr x) ∧ playoff_ready db2 leagueId (gw + 1) k' P
    end.
Proof.
  intros Hready. pose proof (settle_ok leagueId gw useLeague db (ready_sides _ _ _ _ _ Hready)) as Hok.
  destruct (settleH2HGameweek _ _ _ db) as [[n db1]|] eqn:Es; [|done].
  destruct Hready as [(rest & round & ps & Hf & Hl & Hnd & HP & Hgw & Hopen & Hcup) Hkeys Hm].
  pose proof (Nat.pow_nonzero 2 k ltac:(done)) as Hpos.
  destruct (settle_split _ _ _ _ _ _ Es) as [Hn Hs].
  set (new := imap (playoff_fixture leagueId gw round) ps) in *.
  assert (List.filter (is_open leagueId gw) (db_fixtures db) = new) as Hfilter.
  { rewrite Hf, List.filter_app, lfilter_nil; cbn [app].
    - rewrite (lfilter_ext _ (λ _, true)).
      + generalize new. intros l. induction l as [|x l IH]; cbn; [done|]. by rewrite IH.
      + intros f Hin. apply is_open_facts. apply playoff_fixture_elem in Hin. tauto.
    - intros f Hin. apply not_true_iff_false. intros (HL & HG & _ & HC)%is_open_facts. by apply (Hgw f). }
  assert (length new = (2 ^ k)%nat) as Hlen by (unfold new; by rewrite length_imap).
  destruct Hs as [[-> _]|(_ & pbm & rows & _ & _ & Hdb1)]; [rewrite Hfilter in Hn; lia|].
  assert (db_fixtures db1 = rest ++ (finish pbm <$> new)) as Hf1.
  { rewrite Hdb1. cbn [db_fixtures with_members with_fixtures]. rewrite Hf, fmap_app. f_equal.
    - rewrite <- (list_fmap_id rest) at 2. apply list_fmap_ext. intros i f Hi%list_elem_of_lookup_2. cbn.
      destruct (is_open leagueId gw f) eqn:E; [|done]. apply is_open_facts in E as (HL & HG & _ & HC).
      by destruct (Hgw f Hi).
    - apply list_fmap_ext. intros i f Hi%list_elem_of_lookup_2.
      rewrite (proj2 (is_open_facts leagueId gw f)); [done|]. apply playoff_fixture_elem in Hi. tauto. }
  assert (P ⊆ mb_id <$> db_members db1) as Hm1.
  { rewrite Hdb1. cbn [db_members with_members]. rewrite <- !list_fmap_compose. intros x Hx%Hm.
    apply list_elem_of_fmap in Hx as (m & -> & Hx). apply list_elem_of_fmap. exists m. split; [|done].
    unfold compose. by rewrite assign_id, fold_apply_id. }
  assert (NoDup (fixture_key <$> db_fixtures db1)) as Hkeys1.
  { rewrite Hf1, fmap_app, <- list_fmap_compose. rewrite Hf, fmap_app in Hkeys. exact Hkeys. }
  exists n, db1. unfold advancePlayoffRound.
  assert (List.filter (is_playoff leagueId gw) (db_fixtures db1) = finish pbm <$> new) as Hpf.
  { rewrite Hf1, List.filter_app, lfilter_nil; cbn [app].
    - rewrite (lfilter_ext _ (λ _, true)).
      + generalize (finish pbm <$> new). intros l. induction l as [|x l IH]; cbn; [done|]. by rewrite IH.
      + intros f (f0 & -> & Hin)%list_elem_of_fmap. apply playoff_fixture_elem in Hin.
        unfold is_playoff. cbn. rewrite !andb_true_iff, bool_decide_eq_true, Z.eqb_eq. tauto.
    - intros f Hin. apply not_true_iff_false. unfold is_playoff.
      rewrite !andb_true_iff, bool_decide_eq_true, Z.eqb_eq. intros [[HL HG] Hp].
      destruct (lf_isCup f) eqn:HC; [by rewrite (Hcup f Hin HC) in Hp|by apply (Hgw f)]. }
  rewrite Hpf. rewrite bool_decide_false by (rewrite length_fmap; lia). cbn [throw_if rbind].
  assert (existsb (λ f, negb (lf_isFinished f)) (finish pbm <$> new) = false) as ->.
  { apply not_true_iff_false. rewrite existsb_exists. intros (f & Hin%list_elem_of_In & Hx).
    by apply list_elem_of_fmap in Hin as (f0 & -> & _). }
  cbn [throw_if rbind].
  match goal with |- context [resolvePlayoffWinner _ ?mm] => set (members := mm) end.
  set (w f := resolvePlayoffWinner f members).
  set (ws := w <$> sort_by (asc (λ f, default 0 (lf_playoffSlot f))) (finish pbm <$> new)).
  assert (ws ≡ₚ w ∘ finish pbm <$> new) as Hws by (unfold ws; by rewrite sort_by_perm, <- list_fmap_compose).
  assert (∀ l g, (∀ i p, w (finish pbm (playoff_fixture leagueId gw round (g i) p)) ∈ [p.1; p.2]) →
    NoDup (pair_players l) →
    NoDup (w ∘ finish pbm <$> imap (λ i, playoff_fixture leagueId gw round (g i)) l) ∧
    w ∘ finish pbm <$> imap (λ i, playoff_fixture leagueId gw round (g i)) l ⊆ pair_players l) as Hw.
  { intros l. induction l as [|[h a] l IH]; intros g Hg; [split; [constructor|done]|].
    change (pair_players ((h, a) :: l)) with (h :: a :: pair_players l).
    intros [H1 [H2 H3]%list.NoDup_cons]%list.NoDup_cons. rewrite imap_cons. cbn [fmap list_fmap].
    destruct (IH (λ i, g (S i)) (λ i, Hg (S i)) H3) as [IH1 IH2].
    change (imap (_ ∘ S) l) with (imap (λ i, playoff_fixture leagueId gw round (g (S i))) l).
    specialize (Hg O (h, a)). cbn [fst snd] in Hg.
    assert (∀ x, x ∈ [h; a] → x ∉ pair_players l) as Hout.
    { intros x [->|[->|?%elem_of_nil]%elem_of_cons]%elem_of_cons; [set_solver|done|done]. }
    split.
    - apply list.NoDup_cons. split; [|done]. intros Hin%IH2. by apply (Hout _ Hg).
    - intros x [->|Hx]%elem_of_cons; [|right; right; by apply IH2]. unfold compose.
      apply elem_of_cons in Hg as [->|Hg]; [by left|]. apply list_elem_of_singleton in Hg as ->. by right; left. }
  destruct (Hw ps id) as [Hw1 Hw2]; [intros i p; apply resolve_playoff_side|done|].
  change (imap _ ps) with new in Hw1, Hw2.
  assert (length ws = (2 ^ k)%nat) as Hwl by (by rewrite Hws, length_fmap).
  assert (NoDup ws) as Hwn by (by rewrite Hws).
  assert (ws ⊆ P) as HwP by (intros x Hx; apply HP, Hw2; by rewrite <- Hws).
  destruct k as [|k].
  - destruct ws as [|c [|]]; try done. exists (inl c), db1. split_and!; try done. exists c.
    split; [done|]. apply HwP. by left.
  - assert (length ws = (2 * 2 ^ k)%nat) as Hwl2 by (rewrite Hwl; cbn; lia).
    pose proof (Nat.pow_nonzero 2 k ltac:(done)) as Hpk.
    destruct (seed_pairings_even ws (2 ^ k) Hwl2 ltac:(lia)) as (Hpl & Hpp & _).
    set (rnd := default 1 _ + 1).
    destruct (replace_round_ready leagueId (gw + 1) rnd (seedPlayoffPairings ws) k P db1)
      as (db2 & Hdb2 & Hr2); try done.
    + by rewrite Hpp.
    + intros x Hx. apply HwP. by rewrite <- Hpp.
    + intros f Hin HL HC HG. rewrite Hf1 in Hin. apply elem_of_app in Hin as [Hin|Hin].
      * apply Hopen; try done. lia.
      * apply list_elem_of_fmap in Hin as (f0 & -> & Hin). apply playoff_fixture_elem in Hin. cbn in HG. lia.
    + intros f Hin HC. rewrite Hf1 in Hin. apply elem_of_app in Hin as [Hin|Hin]; [by apply Hcup|].
      apply list_elem_of_fmap in Hin as (f0 & -> & Hin). apply playoff_fixture_elem in Hin.
      cbn in HC. destruct Hin as (_ & _ & _ & _ & Hc & _). congruence.
    + destruct ws as [|w1 [|w2 ws']] eqn:Ews; [done|cbn in Hwl2; lia|]. rewrite <- Ews in *.
      eexists _, db2. split; [done|]. rewrite Hdb2. cbn [rbind]. split; [done|].
      split; [by eexists|done].
Qed.

(** The playoffs played to the end: each gameweek the rest of the system moves
    on, the gameweek is settled and the bracket advanced. *)
Fixpoint play_playoffs (leagueId : string) (gw : Z) (useLeague : bool)
    (updates : list (LeagueDb → LeagueDb)) (db : LeagueDb) :
    result H2HError (option string * LeagueDb) :=
  match updates with
  | [] => Ok (None, db)
  | update :: updates =>
      let* '(_, db) := settleH2HGameweek leagueId gw useLeague (update db) in
      let* '(r, db) := advancePlayoffRound leagueId gw db in
      match r with
      | inl c => Ok (Some c, db)
      | inr _ => play_playoffs leagueId (gw + 1) useLeague updates db
      end
  end.

(** Work of the other services: no fixture is touched and no member removed. *)
Definition keeps_rounds (u : LeagueDb → LeagueDb) : Prop :=
  ∀ d, db_fixtures (u d) = db_fixtures d ∧ mb_id <$> db_members d ⊆ mb_id <$> db_members (u d).

Lemma play_playoffs_ready leagueId useLeague P k : ∀ updates gw db,
  playoff_ready db leagueId gw k P → length updates = S k →
  (∀ u, u ∈ updates → keeps_rounds u) →
  ∃ c db', play_playoffs leagueId gw useLeague updates db = Ok (Some c, db') ∧ c ∈ P.
Proof.
  induction k as [|k IH]; intros [|u updates] gw db Hr Hl Hu; try done; cbn [play_playoffs];
    assert (playoff_ready (u db) leagueId gw _ P) as Hr' by
      (destruct (Hu u ltac:(by left) db) as [Huf Hum]; destruct Hr as [Hr1 Hr2 Hr3]; constructor;
       rewrite ?Huf; [exact Hr1|exact Hr2|by etrans]);
    destruct (playoff_round _ _ useLeague _ _ _ Hr') as (n & db1 & r & db2 & -> & H2 & Hk);
    cbn [rbind]; rewrite H2; cbn [rbind].
  - destruct Hk as (c & -> & Hc). by exists c, db2.
  - destruct Hk as [[x ->] Hk]. apply (IH updates (gw + 1) db2 Hk); [by injection Hl|].
    intros v Hv. apply Hu. by right.
Qed.

(** The playoffs of a head-to-head league: the bracket holds the top 2, 4
    or 8 of the table, the most that its active members fill, seed [i] meets
    seed [size + 1 - i], and with no league match played yet from the first
    playoff gameweek on, settling and advancing one gameweek after the other
    crowns one of the seeds in the league's last gameweek, whatever scores the
    other services write meanwhile. *)
Theorem playoffs_crown_champion (leagueId : string) (db db1 : LeagueDb) (league : LeagueRow)
    (gw size : Z) (pairings : list (string * string)) (useLeagueScoring : bool)
    (updates : list (LeagueDb → LeagueDb)) :
  NoDup (mb_id <$> db_members db) → NoDup (fixture_key <$> db_fixtures db) →
  (∀ f, f ∈ db_fixtures db → lf_isCup f = true → lf_isPlayoff f = false) →
  map_get leagueId (db_leagues db) = Some league →
  generatePlayoffBracket leagueId db = Ok ((gw, size, pairings), db1) →
  (∀ f, f ∈ db_fixtures db → lf_leagueId f = leagueId → lf_isCup f = false →
     gw ≤ lf_gameweekId f → lf_isFinished f = false) →
  Z.of_nat (length updates) = Z.log2 size → (∀ u, u ∈ updates → keeps_rounds u) →
  let active := active_members db leagueId in
  let seeds := mb_id <$> take (Z.to_nat size) (sort_by member_order active) in
  (2 ≤ size ≤ Z.of_nat (length active) ∧ (size = 8 ∨ Z.of_nat (length active) < 2 * size)) ∧
  gw + Z.of_nat (length updates) - 1 = lg_endGameweekId league ∧
  (∀ i, (2 * i < Z.to_nat size)%nat → pairings !! i
     = Some (default "" (seeds !! i), default "" (seeds !! (Z.to_nat size - 1 - i)%nat))) ∧
  ∃ champion db', play_playoffs leagueId gw useLeagueScoring updates db1 = Ok (Some champion, db') ∧
    champion ∈ seeds.
Proof.
  intros Hn Hkeys Hcup Hleague H Hopen Hup Hu. cbn zeta. unfold generatePlayoffBracket in H.
  unfold getH2HStandings in H. rewrite Hleague in H. cbn [or_throw rbind] in H.
  destruct (bool_decide _); [done|]. cbn [throw_if rbind] in H.
  set (active := active_members db leagueId) in *. rewrite table_of_members in H.
  rewrite length_imap, length_sort_by in H.
  set (sorted := sort_by member_order active) in *.
  destruct (bracket_size (Z.of_nat (length active)) ltac:(lia)) as [B1 B2].
  destruct (Z.ltb_spec (computeBracketSize (Z.of_nat (length active))) 2) as [|Hs]; [done|].
  cbn [throw_if rbind] in H.
  destruct B2 as (Hb1 & Hb2 & Hb3 & Hb4).
  { destruct (Z.lt_ge_cases (Z.of_nat (length active)) 2) as [Hlt|]; [|done]. rewrite B1 in Hs; lia. }
  set (bs := computeBracketSize (Z.of_nat (length active))) in *.
  assert ((λ s, he_memberId (hs_entry s)) <$> take (Z.to_nat bs)
    (imap (λ i m, {| hs_rank := Z.of_nat i + 1; hs_entry := entry_of m;
       hs_pointsDifference := mb_pointsFor m - mb_pointsAgainst m |}) sorted)
    = mb_id <$> take (Z.to_nat bs) sorted) as Hseeds.
  { rewrite !fmap_take. f_equal. apply list_eq. intros i.
    rewrite !list_lookup_fmap, list_lookup_imap. by destruct (sorted !! i). }
  rewrite Hseeds in H. set (seeds := mb_id <$> take (Z.to_nat bs) sorted) in *.
  assert (1 ≤ Z.log2 bs) as Hlog by (apply (Z.log2_le_mono 2); lia).
  set (k := (Z.to_nat (Z.log2 bs) - 1)%nat).
  assert (Z.to_nat bs = 2 * 2 ^ k)%nat as Hbs.
  { apply Nat2Z.inj. rewrite Z2Nat.id, Nat2Z.inj_mul, Nat2Z.inj_pow by lia. rewrite Hb3 at 1.
    replace (Z.log2 bs) with (Z.of_nat k + 1) by lia. rewrite Z.pow_add_r by lia. lia. }
  assert (length seeds = 2 * 2 ^ k)%nat as Hsl.
  { unfold seeds, sorted. rewrite length_fmap, length_take, length_sort_by. lia. }
  assert (seeds ⊆ mb_id <$> db_members db) as Hsub.
  { intros x (m & -> & Hm)%list_elem_of_fmap. apply list_elem_of_fmap. exists m. split; [done|].
    apply (elem_of_sublist _ sorted) in Hm; [|apply sublist_take].
    apply elem_of_sort_by, elem_of_lfilter in Hm as [? _]. done. }
  assert (NoDup seeds) as Hsn.
  { unfold seeds. rewrite fmap_take. eapply sublist_NoDup; [|apply sublist_take].
    unfold sorted. rewrite sort_by_perm. by apply NoDup_fmap_lfilter. }
  pose proof (Nat.pow_nonzero 2 k ltac:(done)) as Hpk.
  destruct (seed_pairings_even seeds (2 ^ k) Hsl ltac:(lia)) as (Hpl & Hpp & Hpi).
  destruct (replace_round_ready leagueId (lg_endGameweekId league - Z.log2 bs + 1) 1
    (seedPlayoffPairings seeds) k seeds db) as (db2 & Hdb2 & Hready); try done.
  { by rewrite Hpp. }
  { intros x Hx. by rewrite <- Hpp. }
  { destruct (replace_round _ _ _ _ _); [|done]. injection H as <- _ _ _. done. }
  rewrite Hdb2 in H. cbn [rbind] in H. injection H as <- <- <- <-. split_and!; [lia..|lia| |].
  - intros i Hi. rewrite Hpi by lia. by replace (Z.to_nat bs - 1 - i)%nat with (2 * 2 ^ k - 1 - i)%nat by lia.
  - apply (play_playoffs_ready _ _ _ k); [done|lia|done].
Qed.

Lemma playoffs_crown_champion_witness :
  match generatePlayoffBracket "H" (settled "H" 1 sample_h2h_db) with
  | Ok ((gw, size, _), db) => gw = 3 ∧ size = 2 ∧
      ∃ c db', play_playoffs "H" 3 false [id] db = Ok (Some c, db') ∧ c ∈ ["b"; "a"]
  | Err _ => False
  end.
Proof.
  destruct (generatePlayoffBracket "H" (settled "H" 1 sample_h2h_db)) as [[[[gw size] ps] db1]|e] eqn:E;
    [|vm_compute in E; discriminate E].
  assert (gw = 3 ∧ size = 2) as [-> ->] by (vm_compute in E; injection E; auto).
  split; [reflexivity|]. split; [reflexivity|].
  destruct (map_get "H" (db_leagues (settled "H" 1 sample_h2h_db))) as [league|] eqn:El;
    [|vm_compute in El; discriminate El].
  destruct (playoffs_crown_champion "H" (settled "H" 1 sample_h2h_db) db1 league 3 2 ps false [id])
    as (_ & _ & _ & c & db' & Hp & Hc); try exact E; try exact El.
  - apply (bool_decide_unpack _). vm_compute. exact I.
  - apply (bool_decide_unpack _). vm_compute. exact I.
  - intros f Hf Hc. apply list_elem_of_In, (proj1 (forallb_forall (λ f, negb (lf_isCup f)) _)) in Hf;
      [|vm_compute; reflexivity]. rewrite Hc in Hf. discriminate Hf.
  - intros f Hf _ _ Hg. apply list_elem_of_In, (proj1 (forallb_forall
      (λ f, negb (lf_isFinished f) || (lf_gameweekId f <? 3)) _)) in Hf; [|vm_compute; reflexivity].
    rewrite (proj2 (Z.ltb_ge _ _) Hg), orb_false_r in Hf. by apply negb_true_iff in Hf.
  - reflexivity.
  - intros u Hu. apply list_elem_of_singleton in Hu. subst u. intros d. split; [reflexivity|].
    intros x Hx. exact Hx.
  - exists c, db'. split; [exact Hp|].
    assert (mb_id <$> take (Z.to_nat 2) (sort_by member_order
      (active_members (settled "H" 1 sample_h2h_db) "H")) = ["b"; "a"]) as Hs by (vm_compute; reflexivity).
    rewrite Hs in Hc. exact Hc.
Defined.
