(* ===== verification/League.v ===== *)
(** * The life of a league: [backend/src/services/league/leagueService.ts]

    Creation, membership and invitations, the lifecycle state machine, and the
    classic standings.  [joinLeague] reads outside its transaction, so it is two
    operations, [join_checks] and [join_commit], that other requests may
    interleave with; the handler is their composition.  Times are milliseconds
    and every handler takes the clock it reads. *)

From Stdlib Require Import QArith.
From S2P Require Import Prelude Prize ScoringConfig SquadValidator LeagueDb HeadToHead.

#[local] Open Scope Z_scope.

Inductive LeagueError : Type :=
| LeagueNotFound
| Forbidden
| InvitationInvalid
| InvitationUsed
| InvitationRevoked
| InvitationExpired
| InvitationNotRevocable
| NotUpcoming (s : LeagueStatus)
| DeadlinePassed
| LeagueFull
| AlreadyMember
| BadSquad
| BadExpiry
| BadMaxUses
| NotPrivate
| TerminalState (s : LeagueStatus)
| BadTransition (s : LeagueStatus)
| MinimumNotMet
| BadName
| BadDescription
| BadEntryFee
| BadScoringType
| BadScoringConfig (e : ConfigError)
| BadIsPrivate
| BuyInNeedsPrivate
| BadBuyIn
| BadPayoutPreset
| BadPrizeSplits (e : PrizeError)
| BadMaxMembers
| BadMinMembers
| UserNotFound
| GameweekMissing
| GameweeksReversed
| GameweekNotCompleted
| PrizeFailure (e : PrizeError)
| DbUniqueViolation
| DbRecordNotFound.

Definition MAX_LEAGUE_MEMBERS : Z := 100000.
Definition LEAGUE_NAME_MAX_LENGTH : Z := 50.
Definition LEAGUE_DESCRIPTION_MAX_LENGTH : Z := 200.
Definition INVITATION_MAX_TTL_HOURS : Z := 24 * 30.

(** ** Money *)

Definition default_options : PrizeOptions := {| preset := None; customSplitsBps := None |}.

(** The [prizePool] column written for [count] members: cents. *)
Definition pool_for (count : Z) (fee : jsnum) : result LeagueError Z :=
  match calculatePrizeDistribution (int count) fee default_options with
  | Ok r => Ok (math_round (prizePool r * 100))
  | Err e => Err (PrizeFailure e)
  end.

Definition fee_of (league : LeagueRow) : jsnum := Fin (lg_entryFee league # 100).

(** ** Rows *)

Definition set_league_status (s : LeagueStatus) (l : LeagueRow) : LeagueRow :=
  {| lg_name := lg_name l; lg_creatorId := lg_creatorId l; lg_inviteCode := lg_inviteCode l;
     lg_maxMembers := lg_maxMembers l; lg_minMembers := lg_minMembers l;
     lg_currentMembers := lg_currentMembers l; lg_entryFee := lg_entryFee l;
     lg_prizePool := lg_prizePool l; lg_status := s; lg_scoringType := lg_scoringType l;
     lg_scoringConfig := lg_scoringConfig l; lg_payoutPreset := lg_payoutPreset l;
     lg_payoutSplitsBps := lg_payoutSplitsBps l; lg_isPrivate := lg_isPrivate l;
     lg_buyIn := lg_buyIn l; lg_startGameweekId := lg_startGameweekId l;
     lg_endGameweekId := lg_endGameweekId l |}.

Definition set_league_members (currentMembers pool : Z) (l : LeagueRow) : LeagueRow :=
  {| lg_name := lg_name l; lg_creatorId := lg_creatorId l; lg_inviteCode := lg_inviteCode l;
     lg_maxMembers := lg_maxMembers l; lg_minMembers := lg_minMembers l;
     lg_currentMembers := currentMembers; lg_entryFee := lg_entryFee l;
     lg_prizePool := pool; lg_status := lg_status l; lg_scoringType := lg_scoringType l;
     lg_scoringConfig := lg_scoringConfig l; lg_payoutPreset := lg_payoutPreset l;
     lg_payoutSplitsBps := lg_payoutSplitsBps l; lg_isPrivate := lg_isPrivate l;
     lg_buyIn := lg_buyIn l; lg_startGameweekId := lg_startGameweekId l;
     lg_endGameweekId := lg_endGameweekId l |}.

(** [leagueMember.create] of a joining manager. *)
Definition new_member (id leagueId userId squadId : string) (free : bool) (now : Z) : LeagueMember :=
  {| mb_id := id; mb_leagueId := leagueId; mb_userId := userId; mb_squadId := squadId;
     mb_status := if free then Member_ACTIVE else Member_PENDING;
     mb_paymentStatus := Pay_PENDING; mb_hasPaid := free; mb_joinedAt := now; mb_rank := None;
     mb_totalPoints := 0; mb_matchesWon := 0; mb_matchesDrawn := 0; mb_matchesLost := 0;
     mb_pointsFor := 0; mb_pointsAgainst := 0; mb_h2hPoints := 0 |}.

Definition is_member (leagueId userId : string) (m : LeagueMember) : bool :=
  bool_decide (mb_leagueId m = leagueId) && bool_decide (mb_userId m = userId).

(** [@@unique([leagueId, userId])] and the primary key. *)
Definition insert_member (m : LeagueMember) (ms : list LeagueMember) :
    result LeagueError (list LeagueMember) :=
  throw_if (existsb (is_member (mb_leagueId m) (mb_userId m)) ms
            || existsb (λ m', bool_decide (mb_id m' = mb_id m)) ms) DbUniqueViolation ;;;
  Ok (ms ++ [m]).

Definition find_gameweek (db : LeagueDb) (id : Z) : option GameweekRow :=
  List.find (λ g, gw_id g =? id) (db_gameweeks db).

(** ** Invitations *)

Inductive InvitationState : Type := InvACTIVE | InvUSED | InvREVOKED | InvEXPIRED.

Definition invitationState (inv : LeagueInvitation) (now : Z) : InvitationState :=
  if (inv_maxUses inv <=? inv_usesCount inv)
     || (bool_decide (is_Some (inv_usedAt inv)) && (inv_usesCount inv =? 0)) then InvUSED
  else if bool_decide (is_Some (inv_revokedAt inv)) then InvREVOKED
  else if inv_expiresAt inv <=? now then InvEXPIRED
  else InvACTIVE.

Definition requireOwnedLeague (leagueId requesterUserId : string) (db : LeagueDb) :
    result LeagueError LeagueRow :=
  let* league := or_throw (map_get leagueId (db_leagues db)) LeagueNotFound in
  throw_if (negb (bool_decide (lg_creatorId league = requesterUserId))) Forbidden ;;;
  Ok league.

(** A number between two bounds; what is not finite is not between them. *)
Definition number_within (lo hi : Z) (n : jsnum) : bool :=
  match n with
  | Fin q => Qle_bool (inject_Z lo) q && Qle_bool q (inject_Z hi)
  | NonFinite => false
  end.

Section invitations.
(** SHA-256 of a token as hex (node:crypto). *)
Context (hashInvitationToken : string → string).

Definition findUsableInvitation (token : string) (now : Z) (db : LeagueDb) :
    result LeagueError LeagueInvitation :=
  let len := Z.of_nat (String.length token) in
  throw_if ((len <? 16) || (128 <? len)) InvitationInvalid ;;;
  let* invitation := or_throw
    (List.find (λ i, bool_decide (inv_tokenHash i = hashInvitationToken token)) (db_invitations db))
    InvitationInvalid in
  match invitationState invitation now with
  | InvUSED => Err InvitationUsed
  | InvREVOKED => Err InvitationRevoked
  | InvEXPIRED => Err InvitationExpired
  | InvACTIVE => Ok invitation
  end.

(** [id] and [token] are the generated ones. *)
Definition createInvitation (id token leagueId requesterUserId : string) (expiresInHours maxUses : jsnum)
    (now : Z) (db : LeagueDb) : result LeagueError LeagueDb :=
  throw_if (negb (number_within 1 INVITATION_MAX_TTL_HOURS expiresInHours)) BadExpiry ;;;
  let* uses := or_throw (if number_within 1 2147483647 maxUses then as_integer maxUses else None)
                 BadMaxUses in
  let* league := requireOwnedLeague leagueId requesterUserId db in
  throw_if (negb (lg_isPrivate league)) NotPrivate ;;;
  throw_if (bool_decide (lg_status league ≠ UPCOMING)) (NotUpcoming (lg_status league)) ;;;
  let tokenHash := hashInvitationToken token in
  throw_if (existsb (λ i, bool_decide (inv_tokenHash i = tokenHash) || bool_decide (inv_id i = id))
              (db_invitations db)) DbUniqueViolation ;;;
  let ttl := match expiresInHours with Fin h => math_round (h * 3600000) | NonFinite => 0 end in
  Ok (with_invitations db (db_invitations db ++
        [{| inv_id := id; inv_leagueId := leagueId; inv_tokenHash := tokenHash;
            inv_createdById := requesterUserId; inv_expiresAt := now + ttl; inv_maxUses := uses;
            inv_usesCount := 0; inv_usedAt := None; inv_usedById := None; inv_revokedAt := None |}])).

Definition revoke (now : Z) (i : LeagueInvitation) : LeagueInvitation :=
  {| inv_id := inv_id i; inv_leagueId := inv_leagueId i; inv_tokenHash := inv_tokenHash i;
     inv_createdById := inv_createdById i; inv_expiresAt := inv_expiresAt i;
     inv_maxUses := inv_maxUses i; inv_usesCount := inv_usesCount i; inv_usedAt := inv_usedAt i;
     inv_usedById := inv_usedById i; inv_revokedAt := Some now |}.

Definition revokeInvitation (leagueId invitationId requesterUserId : string) (now : Z) (db : LeagueDb) :
    result LeagueError LeagueDb :=
  let* _ := requireOwnedLeague leagueId requesterUserId db in
  let* invitation := or_throw
    (List.find (λ i, bool_decide (inv_id i = invitationId)) (db_invitations db)) InvitationNotRevocable in
  throw_if (negb (bool_decide (inv_leagueId invitation = leagueId))
            || match invitationState invitation now with InvACTIVE => false | _ => true end)
    InvitationNotRevocable ;;;
  let target i := bool_decide (inv_id i = invitationId) && bool_decide (inv_leagueId i = leagueId)
    && bool_decide (inv_revokedAt i = None) && (now <? inv_expiresAt i)
    && (inv_usesCount i <? inv_maxUses invitation) in
  throw_if (negb (length (List.filter target (db_invitations db)) =? 1)%nat) InvitationNotRevocable ;;;
  Ok (with_invitations db ((λ i, if target i then revoke now i else i) <$> db_invitations db)).

(** ** Joining *)

(** What [joinLeague] has read when its transaction starts. *)
Record JoinPlan : Type := {
  jp_leagueId : string;
  jp_userId : string;
  jp_squadId : string;
  jp_invitation : option LeagueInvitation;
  jp_newMemberCount : Z;
  jp_prizePool : Z;
  jp_free : bool
}.

Definition join_checks (leagueId userId squadId : string) (invitationToken : option string)
    (now : Z) (db : LeagueDb) : result LeagueError JoinPlan :=
  let* league := or_throw (map_get leagueId (db_leagues db)) LeagueNotFound in
  let* gw := or_throw (find_gameweek db (lg_startGameweekId league)) DbRecordNotFound in
  let* invitation :=
    if lg_isPrivate league
    then
      let* token := or_throw (Tournament.truthy invitationToken) Forbidden in
      let* invitation := findUsableInvitation token now db in
      throw_if (negb (bool_decide (inv_leagueId invitation = leagueId))) InvitationInvalid ;;;
      Ok (Some invitation)
    else Ok None in
  throw_if (bool_decide (lg_status league ≠ UPCOMING)) (NotUpcoming (lg_status league)) ;;;
  throw_if (gw_deadline gw <=? now) DeadlinePassed ;;;
  throw_if (lg_maxMembers league <=? lg_currentMembers league) LeagueFull ;;;
  throw_if (existsb (is_member leagueId userId) (db_members db)) AlreadyMember ;;;
  throw_if (negb (bool_decide ((squadId, userId) ∈ db_squads db))) BadSquad ;;;
  let newMemberCount := lg_currentMembers league + 1 in
  let* pool := pool_for newMemberCount (fee_of league) in
  Ok {| jp_leagueId := leagueId; jp_userId := userId; jp_squadId := squadId;
        jp_invitation := invitation; jp_newMemberCount := newMemberCount; jp_prizePool := pool;
        jp_free := lg_entryFee league =? 0 |}.

Definition consume (now : Z) (userId : string) (last : bool) (i : LeagueInvitation) : LeagueInvitation :=
  {| inv_id := inv_id i; inv_leagueId := inv_leagueId i; inv_tokenHash := inv_tokenHash i;
     inv_createdById := inv_createdById i; inv_expiresAt := inv_expiresAt i;
     inv_maxUses := inv_maxUses i; inv_usesCount := inv_usesCount i + 1;
     inv_usedAt := if last then Some now else inv_usedAt i;
     inv_usedById := if last then Some userId else inv_usedById i;
     inv_revokedAt := inv_revokedAt i |}.

(** The conditional [updateMany] on the invitation that was read. *)
Definition consume_invitation (now : Z) (userId : string) (read : LeagueInvitation)
    (invs : list LeagueInvitation) : result LeagueError (list LeagueInvitation) :=
  let target i := bool_decide (inv_id i = inv_id read) && bool_decide (inv_revokedAt i = None)
    && (now <? inv_expiresAt i) && (inv_usesCount i <? inv_maxUses read) in
  if (length (List.filter target invs) =? 1)%nat
  then
    let last := inv_maxUses read <=? inv_usesCount read + 1 in
    Ok ((λ i, if target i then consume now userId last i else i) <$> invs)
  else
    match List.find (λ i, bool_decide (inv_id i = inv_id read)) invs with
    | Some current =>
        if bool_decide (is_Some (inv_revokedAt current)) then Err InvitationRevoked
        else if inv_expiresAt current <=? now then Err InvitationExpired
        else Err InvitationUsed
    | None => Err InvitationUsed
    end.

(** The transaction; an [Err] rolls it back. *)
Definition join_commit (memberId : string) (now : Z) (plan : JoinPlan) (db : LeagueDb) :
    result LeagueError LeagueDb :=
  let* invs := match jp_invitation plan with
    | Some read => consume_invitation now (jp_userId plan) read (db_invitations db)
    | None => Ok (db_invitations db)
    end in
  let* ms := insert_member (new_member memberId (jp_leagueId plan) (jp_userId plan) (jp_squadId plan)
                              (jp_free plan) now) (db_members db) in
  let* league := or_throw (map_get (jp_leagueId plan) (db_leagues db)) DbRecordNotFound in
  Ok (with_leagues (with_members (with_invitations db invs) ms)
        (map_set (jp_leagueId plan) (set_league_members (jp_newMemberCount plan) (jp_prizePool plan) league)
           (db_leagues db))).

Definition joinLeague (memberId leagueId userId squadId : string) (invitationToken : option string)
    (now : Z) (db : LeagueDb) : result LeagueError LeagueDb :=
  let* plan := join_checks leagueId userId squadId invitationToken now db in
  join_commit memberId now plan db.

Definition acceptInvitation (memberId token userId squadId : string) (now : Z) (db : LeagueDb) :
    result LeagueError LeagueDb :=
  let* invitation := findUsableInvitation token now db in
  joinLeague memberId (inv_leagueId invitation) userId squadId (Some token) now db.

End invitations.

(** ** Creation *)

(** The request body; an option is [undefined], an inner option a value of the
    wrong type. *)
Record CreateLeagueInput : Type := {
  ci_name : option (list Z);
  ci_description : option (option (list Z));
  ci_entryFee : jsnum;
  ci_maxMembers : option Z;
  ci_minMembers : option Z;
  ci_startGameweekId : Z;
  ci_endGameweekId : Z;
  ci_squadId : string;
  ci_scoringType : option (option ScoringType);
  ci_scoringConfig : json;
  ci_scoringPreset : json;
  ci_isPrivate : json;
  ci_minBuyIn : option jsnum;
  ci_maxBuyIn : option jsnum;
  ci_payoutPreset : option PrizePreset;
  ci_customPrizeSplitsBps : option (list jsnum)
}.

(** Does the number compare below zero?  NaN does not. *)
Definition negative (n : jsnum) : bool := match n with Fin q => negb (Qle_bool 0 q) | NonFinite => false end.

Definition buy_in_range (minBuyIn maxBuyIn : option jsnum) : option (Q * Q) :=
  match minBuyIn, maxBuyIn with
  | Some (Fin lo), Some (Fin hi) =>
      if negb (Qle_bool lo 0) && Qle_bool lo hi then Some (lo, hi) else None
  | _, _ => None
  end.

(** The checks before the first query, and what they compute: the trimmed name,
    the scoring type and configuration, privacy, buy-in, payouts and limits. *)
Record LeagueDraft : Type := {
  dr_name : list Z;
  dr_scoringType : ScoringType;
  dr_scoringConfig : option LeagueScoringConfig;
  dr_isPrivate : bool;
  dr_buyIn : option (Q * Q);
  dr_payoutPreset : PrizePreset;
  dr_payoutSplits : list Z;
  dr_maxMembers : Z;
  dr_minMembers : Z
}.

Definition validate_create (input : CreateLeagueInput) : result LeagueError LeagueDraft :=
  let* name := or_throw (ci_name input) BadName in
  throw_if (utf16_length (trim name) =? 0) BadName ;;;
  throw_if (LEAGUE_NAME_MAX_LENGTH <? utf16_length (trim name)) BadName ;;;
  throw_if (match ci_description input with
            | None => false
            | Some None => true
            | Some (Some d) => LEAGUE_DESCRIPTION_MAX_LENGTH <? utf16_length (trim d)
            end) BadDescription ;;;
  throw_if (negative (ci_entryFee input)) BadEntryFee ;;;
  let* scoringType := or_throw (default (Some CLASSIC) (ci_scoringType input)) BadScoringType in
  let* config := match resolveLeagueScoringConfig (ci_scoringConfig input) (ci_scoringPreset input) with
                 | Ok c => Ok c | Err e => Err (BadScoringConfig e) end in
  let* isPrivate := match ci_isPrivate input with
                    | JUndefined => Ok false | JBool b => Ok b | _ => Err BadIsPrivate end in
  let* buyIn :=
    if bool_decide (is_Some (ci_minBuyIn input)) || bool_decide (is_Some (ci_maxBuyIn input))
    then throw_if (negb isPrivate) BuyInNeedsPrivate ;;;
         rmap Some (or_throw (buy_in_range (ci_minBuyIn input) (ci_maxBuyIn input)) BadBuyIn)
    else Ok None in
  let payoutPreset := default Standard (ci_payoutPreset input) in
  throw_if (match payoutPreset with OtherPreset _ => true | _ => false end) BadPayoutPreset ;;;
  let* splits :=
    match payoutPreset with
    | Custom => match validateSplits (default [] (ci_customPrizeSplitsBps input)) with
                | Ok zs => Ok zs | Err e => Err (BadPrizeSplits e) end
    | _ => Ok []
    end in
  let maxMembers := default 20 (ci_maxMembers input) in
  let minMembers := default 2 (ci_minMembers input) in
  throw_if ((maxMembers <? 2) || (MAX_LEAGUE_MEMBERS <? maxMembers)) BadMaxMembers ;;;
  throw_if ((minMembers <? 2) || (maxMembers <? minMembers)) BadMinMembers ;;;
  Ok {| dr_name := trim name; dr_scoringType := scoringType; dr_scoringConfig := config;
        dr_isPrivate := isPrivate; dr_buyIn := buyIn; dr_payoutPreset := payoutPreset;
        dr_payoutSplits := splits; dr_maxMembers := maxMembers; dr_minMembers := minMembers |}.

(** The invite code: a fresh one is drawn while the last one is taken, five
    times at most. *)
Fixpoint pick_code (attempts : nat) (codes : nat → string) (k : nat) (leagues : list (string * LeagueRow)) :
    string :=
  match attempts with
  | O => codes k
  | S attempts =>
      if existsb (λ l, bool_decide (lg_inviteCode l.2 = Some (codes k))) leagues
      then pick_code attempts codes (S k) leagues else codes k
  end.

(** [users] are the known users; the ids and [codes] are the generated ones. *)
Definition createLeague (leagueId memberId : string) (codes : nat → string) (users : list string)
    (userId : string)
    (input : CreateLeagueInput) (now : Z) (db : LeagueDb) : result LeagueError LeagueDb :=
  let* draft := validate_create input in
  throw_if (negb (bool_decide (userId ∈ users))) UserNotFound ;;;
  throw_if (negb (bool_decide ((ci_squadId input, userId) ∈ db_squads db))) BadSquad ;;;
  let* startGw := or_throw (find_gameweek db (ci_startGameweekId input)) GameweekMissing in
  let* endGw := or_throw (find_gameweek db (ci_endGameweekId input)) GameweekMissing in
  throw_if (gw_fplId endGw <? gw_fplId startGw) GameweeksReversed ;;;
  throw_if (gw_deadline startGw <=? now) DeadlinePassed ;;;
  let inviteCode := pick_code 5 codes 0 (db_leagues db) in
  let* pool := pool_for 1 (ci_entryFee input) in
  throw_if (existsb (λ l, bool_decide (lg_inviteCode l.2 = Some inviteCode)) (db_leagues db)
            || map_has leagueId (db_leagues db)) DbUniqueViolation ;;;
  let fee := match ci_entryFee input with Fin q => math_round (q * 100) | NonFinite => 0 end in
  let free := match ci_entryFee input with Fin q => Qeq_bool q 0 | NonFinite => false end in
  let league := {|
    lg_name := dr_name draft; lg_creatorId := userId; lg_inviteCode := Some inviteCode;
    lg_maxMembers := dr_maxMembers draft; lg_minMembers := dr_minMembers draft;
    lg_currentMembers := 1; lg_entryFee := fee; lg_prizePool := pool; lg_status := UPCOMING;
    lg_scoringType := dr_scoringType draft; lg_scoringConfig := dr_scoringConfig draft;
    lg_payoutPreset := dr_payoutPreset draft; lg_payoutSplitsBps := dr_payoutSplits draft;
    lg_isPrivate := dr_isPrivate draft; lg_buyIn := dr_buyIn draft;
    lg_startGameweekId := gw_id startGw; lg_endGameweekId := gw_id endGw |} in
  let* ms := insert_member (new_member memberId leagueId userId (ci_squadId input) free now)
               (db_members db) in
  Ok (with_leagues (with_members db ms) (map_set leagueId league (db_leagues db))).

(** ** Lifecycle *)

Definition lift_h2h {A} (r : option A) : result LeagueError A := or_throw r DbUniqueViolation.

Definition transitionStatus (leagueId : string) (target : LeagueStatus) (db : LeagueDb) :
    result LeagueError LeagueDb :=
  let* league := or_throw (map_get leagueId (db_leagues db)) LeagueNotFound in
  let current := lg_status league in
  if bool_decide (current = target) then Ok db
  else
    throw_if (bool_decide (current = COMPLETED) || bool_decide (current = CANCELLED))
      (TerminalState current) ;;;
    throw_if (bool_decide (target = ACTIVE) && bool_decide (current ≠ UPCOMING)) (BadTransition current) ;;;
    throw_if (bool_decide (target = ACTIVE) && (lg_currentMembers league <? lg_minMembers league))
      MinimumNotMet ;;;
    throw_if (bool_decide (target = COMPLETED) && bool_decide (current ≠ ACTIVE))
      (BadTransition current) ;;;
    let db := with_leagues db (map_set leagueId (set_league_status target league) (db_leagues db)) in
    let db :=
      if bool_decide (target = CANCELLED)
      then with_members db
        ((λ m, if bool_decide (mb_leagueId m = leagueId)
               then (if bool_decide (mb_paymentStatus m = PAYMENT_CONFIRMED)
                     then set_payment REFUND_PENDING (set_status Member_REFUNDED m)
                     else set_status Member_REFUNDED m)
               else m) <$> db_members db)
      else db in
    if bool_decide (target = ACTIVE) && bool_decide (lg_scoringType league = HEAD_TO_HEAD)
    then
      let ids := mb_id <$> sort_by (asc mb_joinedAt) (active_members db leagueId) in
      let gws := sort_by (asc id) (gw_id <$> List.filter (λ g,
        (lg_startGameweekId league <=? gw_id g) && (gw_id g <=? lg_endGameweekId league)) (db_gameweeks db)) in
      let* fs := lift_h2h (insert_fixtures
        (schedule_fixture leagueId <$> generateRoundRobinSchedule ids gws) (db_fixtures db)) in
      Ok (LeagueDb.with_fixtures db fs)
    else Ok db.

Definition isUnderfilledAfterKickoff (league : LeagueRow) (gw : GameweekRow) (now : Z) : bool :=
  let kickoff := default (gw_deadline gw) (gw_firstKickoff gw) in
  (lg_currentMembers league <? lg_minMembers league) && (kickoff <=? now).

(** One league of the sweep; [db] is what was read first. *)
Definition cancel_one (now : Z) (db : LeagueDb) (s : list string * LeagueDb) (l : string * LeagueRow) :
    result LeagueError (list string * LeagueDb) :=
  let* gw := or_throw (find_gameweek db (lg_startGameweekId l.2)) DbRecordNotFound in
  if isUnderfilledAfterKickoff l.2 gw now
  then let* db' := transitionStatus l.1 CANCELLED s.2 in Ok (s.1 ++ [l.1], db')
  else Ok s.

(** The leagues read first, then one transition after the other. *)
Definition cancelUnderfilledLeagues (now : Z) (db : LeagueDb) : result LeagueError (list string * LeagueDb) :=
  let leagues := List.filter (λ l, bool_decide (lg_status l.2 = UPCOMING)) (db_leagues db) in
  mfoldl (cancel_one now db) ([], db) leagues.

Definition cancelLeague (leagueId requesterUserId : string) (db : LeagueDb) : result LeagueError LeagueDb :=
  let* league := or_throw (map_get leagueId (db_leagues db)) LeagueNotFound in
  throw_if (negb (bool_decide (lg_creatorId league = requesterUserId))) Forbidden ;;;
  throw_if (bool_decide (lg_status league ≠ UPCOMING)) (NotUpcoming (lg_status league)) ;;;
  transitionStatus leagueId CANCELLED db.

Definition redactForViewer (league : LeagueRow) (viewerId : option string) : LeagueRow :=
  if lg_isPrivate league && negb (bool_decide (Some (lg_creatorId league) = viewerId))
  then {| lg_name := lg_name league; lg_creatorId := lg_creatorId league; lg_inviteCode := None;
          lg_maxMembers := lg_maxMembers league; lg_minMembers := lg_minMembers league;
          lg_currentMembers := lg_currentMembers league; lg_entryFee := lg_entryFee league;
          lg_prizePool := lg_prizePool league; lg_status := lg_status league;
          lg_scoringType := lg_scoringType league; lg_scoringConfig := lg_scoringConfig league;
          lg_payoutPreset := lg_payoutPreset league; lg_payoutSplitsBps := lg_payoutSplitsBps league;
          lg_isPrivate := lg_isPrivate league; lg_buyIn := lg_buyIn league;
          lg_startGameweekId := lg_startGameweekId league; lg_endGameweekId := lg_endGameweekId league |}
  else league.

(** ** Classic standings *)

(** [groupBy squadId _sum points] over the gameweeks so far. *)
Definition total_of (db : LeagueDb) (gameweekId : Z) (squadId : string) : Z :=
  sum_of snd (List.filter (λ s, (s.1.1 <=? gameweekId) && bool_decide (s.1.2 = squadId)) (db_squadScores db)).

Definition classic_order (total : string → Z) : LeagueMember → LeagueMember → Z :=
  then_by (desc (λ m, total (mb_squadId m))) (asc mb_joinedAt).

(** Active members of active classic leagues. *)
Definition is_classic (db : LeagueDb) (m : LeagueMember) : bool :=
  bool_decide (mb_status m = Member_ACTIVE)
  && match map_get (mb_leagueId m) (db_leagues db) with
     | Some l => bool_decide (lg_scoringType l = CLASSIC) && bool_decide (lg_status l = ACTIVE)
     | None => false
     end.

(** The rows of the bulk [UPDATE]: id, total points, rank. *)
Definition standing_rows (total : string → Z) (members : list LeagueMember) : list (string * (Z * Z)) :=
  let byLeague := foldl (λ m mb,
    map_set (mb_leagueId mb) (default [] (map_get (mb_leagueId mb) m) ++ [mb]) m) [] members in
  concat ((λ ms, imap (λ idx m, (mb_id m, (total (mb_squadId m), Z.of_nat idx + 1)))
             (sort_by (classic_order total) ms)) <$> map_values byLeague).

Definition recalculateClassicStandings (gameweekId : Z) (db : LeagueDb) : nat * LeagueDb :=
  let members := List.filter (is_classic db) (db_members db) in
  let rows := standing_rows (total_of db gameweekId) members in
  (length rows, with_members db
    ((λ m, match map_get (mb_id m) rows with
           | Some (total, rank) => set_totals total rank m
           | None => m
           end) <$> db_members db)).

(** ** The standings page *)

Record StandingsEntry : Type := {
  st_userId : string;
  st_squadId : string;
  st_status : MembershipStatus;
  st_totalPoints : Z;
  st_bestGameweekPoints : Z;
  st_gameweekScores : list (Z * Z);
  st_joinedAt : Z
}.

(** An entry, its rank and its rank change. *)
Record LeagueStandingsEntry : Type := {
  ls_rank : Z;
  ls_entry : StandingsEntry;
  ls_rankChange : option Z
}.

(** [Math.max(...points)], 0 without scores. *)
Definition best_of (points : list Z) : Z :=
  match points with [] => 0 | p :: points => foldl Z.max p points end.

Definition standings_entry (scores : list (Z * string * Z)) (through : option Z) (m : LeagueMember) :
    StandingsEntry :=
  let own := (λ s, (s.1.1, s.2)) <$> List.filter (λ s, bool_decide (s.1.2 = mb_squadId m)
    && match through with Some g => s.1.1 <=? g | None => true end) scores in
  {| st_userId := mb_userId m; st_squadId := mb_squadId m; st_status := mb_status m;
     st_totalPoints := sum_of snd own; st_bestGameweekPoints := best_of own.*2;
     st_gameweekScores := sort_by (asc fst) own; st_joinedAt := mb_joinedAt m |}.

Definition standings_order : StandingsEntry → StandingsEntry → Z :=
  then_by (desc st_totalPoints) (then_by (desc st_bestGameweekPoints) (asc st_joinedAt)).

Definition rankAt (members : list LeagueMember) (scores : list (Z * string * Z)) (through : option Z) :
    list (Z * StandingsEntry) :=
  imap (λ index e, (Z.of_nat index + 1, e))
    (sort_by standings_order (standings_entry scores through <$> members)).

(** The scores of the window, from the league's own table when it has custom
    scoring. *)
Definition window_scores (leagueId : string) (league : LeagueRow) (squadIds : list string)
    (through : option Z) (db : LeagueDb) : list (Z * string * Z) :=
  let inside g s := bool_decide (s ∈ squadIds) && (lg_startGameweekId league <=? g)
    && (g <=? default (lg_endGameweekId league) through) in
  match lg_scoringConfig league with
  | Some _ => (λ s, (s.1.1.2, s.1.2, s.2)) <$>
      List.filter (λ s, bool_decide (s.1.1.1 = leagueId) && inside s.1.1.2 s.1.2) (db_leagueScores db)
  | None => List.filter (λ s, inside s.1.1 s.1.2) (db_squadScores db)
  end.

Definition completed_gameweeks (league : LeagueRow) (db : LeagueDb) : list Z :=
  sort_by (asc id) (gw_id <$> List.filter (λ g, (lg_startGameweekId league <=? gw_id g)
    && (gw_id g <=? lg_endGameweekId league) && gw_isFinished g) (db_gameweeks db)).

(** The standings of the response and the completed gameweeks. *)
Definition getLeagueStandings (leagueId : string) (gameweekId : option Z) (db : LeagueDb) :
    result LeagueError (list LeagueStandingsEntry * list Z) :=
  let* league := or_throw (map_get leagueId (db_leagues db)) LeagueNotFound in
  let members := List.filter (λ m, bool_decide (mb_leagueId m = leagueId)) (db_members db) in
  let completed := completed_gameweeks league db in
  throw_if (match gameweekId with Some g => negb (bool_decide (g ∈ completed)) | None => false end)
    GameweekNotCompleted ;;;
  let previous := g ← gameweekId; last (List.filter (λ c, c <? g) completed) in
  let scores := window_scores leagueId league (mb_squadId <$> members) gameweekId db in
  let previousRanks := match previous with
    | None => []
    | Some p => foldl (λ m e, map_set (st_userId e.2) e.1 m) [] (rankAt members scores (Some p))
    end in
  Ok ((λ e, {| ls_rank := e.1; ls_entry := e.2;
               ls_rankChange := (λ r, r - e.1) <$> map_get (st_userId e.2) previousRanks |})
        <$> rankAt members scores None, completed).

(** ** The invariants of membership *)

(** What of a member row identifies it. *)
Definition mkey (m : LeagueMember) : string * string * string := (mb_id m, mb_leagueId m, mb_userId m).

(** What of a league row membership depends on. *)
Definition lkey (l : LeagueRow) : Z * Z * Z * Z * Z :=
  (lg_currentMembers l, lg_maxMembers l, lg_minMembers l, lg_entryFee l, lg_prizePool l).

Definition invkey (i : LeagueInvitation) : string * Z := (inv_id i, inv_maxUses i).

(** What the database and the conditional updates keep true under any
    interleaving: identities are unique, nobody is twice in a league, and no
    invitation is used more often than allowed. *)
Record wf_safe (db : LeagueDb) : Prop := {
  wf_leagues : NoDup (db_leagues db).*1;
  wf_ids : NoDup (mb_id <$> db_members db);
  wf_once : NoDup ((λ m, (mb_leagueId m, mb_userId m)) <$> db_members db);
  wf_inv_ids : NoDup (inv_id <$> db_invitations db);
  wf_uses : ∀ i, i ∈ db_invitations db → 0 ≤ inv_usesCount i ≤ inv_maxUses i
}.

Definition in_league (id : string) (k : string * string * string) : bool := bool_decide (k.1.2 = id).

(** What other services do to the league tables: the league of every membership
    the payment endpoint created, and the leagues whose prize pool a settlement
    wrote. *)
Record Elsewhere : Type := { el_paid : list string; el_settled : list string }.

Definition nothing_elsewhere : Elsewhere := {| el_paid := []; el_settled := [] |}.

(** How many of the [paid] rows, named by their league, are in league [id]: the
    rows the payment endpoint created, which no counter counts. *)
Definition uncounted (paid : list string) (id : string) : Z := countb (λ x, bool_decide (x = id)) paid.

(** The counters of one league row, among the members' keys. *)
Record counts_ok (e : Elsewhere) (keys : list (string * string * string)) (id : string) (l : LeagueRow) : Prop := {
  co_current : countb (in_league id) keys = lg_currentMembers l + uncounted (el_paid e) id;
  co_capacity : 1 ≤ lg_currentMembers l ≤ lg_maxMembers l;
  co_limits : 2 ≤ lg_minMembers l ≤ lg_maxMembers l ∧ lg_maxMembers l ≤ MAX_LEAGUE_MEMBERS;
  co_fee : 0 ≤ lg_entryFee l;
  co_pool : id ∉ el_settled e → pool_for (lg_currentMembers l) (fee_of l) = Ok (lg_prizePool l)
}.

(** What handlers keep true when they do not overlap. *)
Record wf_counts (e : Elsewhere) (db : LeagueDb) : Prop := {
  wc_leagues : ∀ id l, map_get id (db_leagues db) = Some l → counts_ok e (mkey <$> db_members db) id l;
  wc_members : ∀ m, m ∈ db_members db → is_Some (map_get (mb_leagueId m) (db_leagues db));
  wc_paid : ∀ id, id ∈ el_paid e → is_Some (map_get id (db_leagues db))
}.

Lemma uncounted_none paid id : id ∉ paid → uncounted paid id = 0.
Proof. intros H. apply countb_zero. intros x Hx. apply bool_decide_eq_false. by intros ->. Qed.

(** ** Lemmas: steps that keep the keys *)

Lemma mkey_ids (ms ms' : list LeagueMember) : mkey <$> ms' = mkey <$> ms →
  mb_id <$> ms' = mb_id <$> ms ∧
  (λ m, (mb_leagueId m, mb_userId m)) <$> ms' = (λ m, (mb_leagueId m, mb_userId m)) <$> ms ∧
  mb_leagueId <$> ms' = mb_leagueId <$> ms.
Proof.
  intros H. split_and!.
  - apply (f_equal (fmap (λ k : string * string * string, k.1.1))) in H.
    by rewrite <- !list_fmap_compose in H.
  - apply (f_equal (fmap (λ k : string * string * string, (k.1.2, k.2)))) in H.
    by rewrite <- !list_fmap_compose in H.
  - apply (f_equal (fmap (λ k : string * string * string, k.1.2))) in H.
    by rewrite <- !list_fmap_compose in H.
Qed.

Definition league_keys (L : list (string * LeagueRow)) : list (string * (Z * Z * Z * Z * Z)) :=
  (λ p, (p.1, lkey p.2)) <$> L.

(** A change of rows that keeps every key: of members, of the league rows (the
    same ids with the same [lkey]) and of the invitations. *)
Record same_keys (db db' : LeagueDb) : Prop := {
  sk_members : mkey <$> db_members db' = mkey <$> db_members db;
  sk_leagues : league_keys (db_leagues db') = league_keys (db_leagues db);
  sk_invitations : db_invitations db' = db_invitations db
}.

#[export] Instance same_keys_refl : Reflexive same_keys.
Proof. by constructor. Qed.
#[export] Instance same_keys_trans : Transitive same_keys.
Proof. intros db1 db2 db3 [] []. constructor; congruence. Qed.

Lemma keys_get (L L' : list (string * LeagueRow)) id :
  league_keys L' = league_keys L → lkey <$> map_get id L' = lkey <$> map_get id L.
Proof.
  revert L. induction L' as [|[k' l'] L' IH]; intros [|[k l] L] H; try done.
  unfold league_keys in H. cbn [fmap list_fmap fst snd] in H.
  injection H as -> H1 H2 H3 H4 H5 HL. cbn [map_get]. case_decide; [|by apply IH].
  cbn. f_equal. unfold lkey. congruence.
Qed.

Lemma set_league_keys id (l l' : LeagueRow) L :
  map_get id L = Some l → lkey l' = lkey l → league_keys (map_set id l' L) = league_keys L.
Proof.
  intros Hl Hk. induction L as [|[k x] L IH]; [done|]. cbn [map_get map_set] in *.
  case_decide as E; cbn [league_keys fmap list_fmap fst snd].
  - injection Hl as ->. by rewrite Hk.
  - f_equal. by apply IH.
Qed.

Lemma counts_ok_lkey e keys id l l' : lkey l' = lkey l → counts_ok e keys id l → counts_ok e keys id l'.
Proof.
  unfold lkey. intros H [H1 H2 H3 H4 H5]. injection H as E1 E2 E3 E4 E5.
  unfold fee_of in H5. constructor; unfold fee_of; rewrite ?E1, ?E2, ?E3, ?E4, ?E5; done.
Qed.

Lemma same_keys_safe db db' : same_keys db db' → wf_safe db → wf_safe db'.
Proof.
  intros [Hm Hl Hi] []. destruct (mkey_ids _ _ Hm) as (E1 & E2 & _).
  constructor; rewrite ?E1, ?E2, ?Hi; try done.
  apply (f_equal (fmap fst)) in Hl. unfold league_keys in Hl. rewrite <- !list_fmap_compose in Hl.
  change (NoDup ((λ p : string * LeagueRow, p.1) <$> db_leagues db')).
  change (NoDup ((λ p : string * LeagueRow, p.1) <$> db_leagues db)) in wf_leagues0.
  unfold compose in Hl. cbn [fst] in Hl. by rewrite Hl.
Qed.

Lemma same_keys_counts e db db' : same_keys db db' → wf_counts e db → wf_counts e db'.
Proof.
  intros [Hm Hl Hi] [H1 H2 H3]. split.
  - intros id l' Hl'. pose proof (keys_get _ _ id Hl) as Hk. rewrite Hl' in Hk.
    destruct (map_get id (db_leagues db)) as [l|] eqn:E; [|done]. injection Hk as ?????.
    rewrite Hm. eapply counts_ok_lkey; [|by apply (H1 id l)]. unfold lkey. congruence.
  - intros m Hin. assert (mb_leagueId m ∈ mb_leagueId <$> db_members db) as Hml.
    { destruct (mkey_ids _ _ Hm) as (_ & _ & <-). by apply list_elem_of_fmap_2. }
    apply list_elem_of_fmap in Hml as (m0 & E & Hm0). rewrite E. apply H2 in Hm0 as [l Hl0].
    pose proof (keys_get _ _ (mb_leagueId m0) Hl) as Hk. rewrite Hl0 in Hk.
    destruct (map_get (mb_leagueId m0) (db_leagues db')); done.
  - intros id [l Hl0]%H3. pose proof (keys_get _ _ id Hl) as Hk. rewrite Hl0 in Hk.
    destruct (map_get id (db_leagues db')); done.
Qed.

(** Members updated row by row, leaving the keys. *)
Lemma fmap_keys (f : LeagueMember → LeagueMember) (ms : list LeagueMember) :
  (∀ m, mkey (f m) = mkey m) → mkey <$> (f <$> ms) = mkey <$> ms.
Proof. intros H. rewrite <- list_fmap_compose. apply list_fmap_ext. intros _ m _. apply H. Qed.

Lemma transition_ok leagueId target db db' :
  transitionStatus leagueId target db = Ok db' →
  ∃ l, map_get leagueId (db_leagues db) = Some l ∧
    ((lg_status l = target ∧ db' = db) ∨
     (lg_status l ≠ target ∧ db_leagues db' = map_set leagueId (set_league_status target l) (db_leagues db) ∧
      db_members db' = (if bool_decide (target = CANCELLED)
        then (λ m, if bool_decide (mb_leagueId m = leagueId)
               then (if bool_decide (mb_paymentStatus m = PAYMENT_CONFIRMED)
                     then set_payment REFUND_PENDING (set_status Member_REFUNDED m)
                     else set_status Member_REFUNDED m)
               else m) <$> db_members db
        else db_members db) ∧
      db_invitations db' = db_invitations db)).
Proof.
  unfold transitionStatus. intros H. destruct (map_get leagueId (db_leagues db)) as [l|]; [|done].
  cbn [or_throw rbind] in H. exists l. split; [done|].
  destruct (bool_decide_reflect (lg_status l = target)) as [E|E]; [left; by injection H as <-|right].
  split; [done|].
  destruct (_ || _); [done|]. cbn [throw_if rbind] in H.
  destruct (_ && _); [done|]. cbn [throw_if rbind] in H.
  destruct (_ && _); [done|]. cbn [throw_if rbind] in H.
  destruct (_ && _); [done|]. cbn [throw_if rbind] in H.
  destruct (bool_decide (target = ACTIVE) && _).
  - destruct (insert_fixtures _ _) as [fs|]; [|done]. cbn in H. injection H as <-.
    cbn. by destruct (bool_decide (target = CANCELLED)).
  - injection H as <-. by destruct (bool_decide (target = CANCELLED)).
Qed.

Lemma transition_keys leagueId target db db' :
  transitionStatus leagueId target db = Ok db' → same_keys db db'.
Proof.
  intros H. destruct (transition_ok _ _ _ _ H) as (l & Hl & [[_ ->]|(_ & HL & Hm & Hi)]); [done|].
  constructor; [|by rewrite HL; apply (set_league_keys _ l)|done].
  rewrite Hm. destruct (bool_decide _); [|done]. apply fmap_keys. intros m.
  destruct (bool_decide _); [|done]. by destruct (bool_decide _).
Qed.

Lemma recalculate_keys gameweekId db : same_keys db (recalculateClassicStandings gameweekId db).2.
Proof.
  constructor; [|done|done]. cbn [recalculateClassicStandings snd db_members with_members].
  apply fmap_keys. intros m. by destruct (map_get _ _) as [[total rank]|].
Qed.

Lemma underfilled_keys now db r db' : cancelUnderfilledLeagues now db = Ok (r, db') → same_keys db db'.
Proof.
  unfold cancelUnderfilledLeagues. intros H.
  apply (mfoldl_inv (λ s : list string * LeagueDb, same_keys db s.2)) in H; [exact H| |done].
  intros s s' l Hl Hs Hstep. unfold cancel_one in Hstep. destruct (or_throw _ _) as [gw|]; [|done]. cbn [rbind] in Hstep.
  destruct (isUnderfilledAfterKickoff _ _ _); [|by injection Hstep as <-].
  destruct (transitionStatus _ _ _) as [db1|] eqn:E; [|done]. cbn [rbind] in Hstep.
  injection Hstep as <-. etrans; [exact Hs|]. by eapply transition_keys.
Qed.

Lemma cancel_keys leagueId user db db' : cancelLeague leagueId user db = Ok db' → same_keys db db'.
Proof.
  unfold cancelLeague. intros H. destruct (map_get _ _) as [l|]; [|done]. cbn [or_throw rbind] in H.
  destruct (negb _); [done|]. cbn [throw_if rbind] in H. destruct (bool_decide _); [done|].
  cbn [throw_if rbind] in H. by eapply transition_keys.
Qed.

(** ** Lemmas: steps that add rows *)

Lemma insert_member_ok m ms ms' :
  insert_member m ms = Ok ms' →
  ms' = ms ++ [m] ∧ mb_id m ∉ mb_id <$> ms ∧
  (mb_leagueId m, mb_userId m) ∉ (λ m, (mb_leagueId m, mb_userId m)) <$> ms.
Proof.
  unfold insert_member. intros H. destruct (_ || _) eqn:E; [done|]. injection H as <-.
  apply orb_false_iff in E as [E1 E2]. split; [done|]. split.
  - intros (m' & Hid & Hin)%list_elem_of_fmap. apply not_true_iff_false in E2. apply E2, existsb_exists.
    exists m'. rewrite <- list_elem_of_In, bool_decide_eq_true. done.
  - intros (m' & [= H1 H2] & Hin)%list_elem_of_fmap. apply not_true_iff_false in E1.
    apply E1, existsb_exists. exists m'. rewrite <- list_elem_of_In. unfold is_member.
    by rewrite H1, H2, !bool_decide_true.
Qed.

(** Adding a member and writing its league row keeps the identities unique. *)
Lemma safe_insert m ms' id l invs db :
  insert_member m (db_members db) = Ok ms' →
  NoDup (inv_id <$> invs) → (∀ i, i ∈ invs → 0 ≤ inv_usesCount i ≤ inv_maxUses i) →
  wf_safe db →
  wf_safe (with_leagues (with_members (with_invitations db invs) ms') (map_set id l (db_leagues db))).
Proof.
  intros (-> & Hid & Hpair)%insert_member_ok Hi1 Hi2 [].
  constructor; cbn [db_leagues db_members db_invitations with_leagues with_members with_invitations];
    rewrite ?fmap_app; try done; try (by apply NoDup_snoc). by apply map_set_NoDup.
Qed.

Lemma consume_ok now user read invs invs' :
  consume_invitation now user read invs = Ok invs' →
  (∀ i, i ∈ invs → inv_id i = inv_id read → inv_maxUses i = inv_maxUses read) →
  invkey <$> invs' = invkey <$> invs ∧
  ((∀ i, i ∈ invs → 0 ≤ inv_usesCount i ≤ inv_maxUses i) →
   ∀ i, i ∈ invs' → 0 ≤ inv_usesCount i ≤ inv_maxUses i).
Proof.
  unfold consume_invitation. intros H Hread. destruct (_ =? _)%nat.
  2:{ destruct (List.find _ _); [|done]. destruct (bool_decide _); [done|]. by destruct (_ <=? _). }
  injection H as <-. split.
  - rewrite <- list_fmap_compose. apply list_fmap_ext. intros _ i _. unfold compose. by destruct (_ && _).
  - intros Huses i (i0 & -> & Hin)%list_elem_of_fmap. specialize (Huses i0 Hin).
    destruct (bool_decide (inv_id i0 = inv_id read) && _ && _ && _) eqn:E; [|done].
    bool_to_prop. cbn. rewrite (Hread i0) in * by done. lia.
Qed.

Lemma invkey_ids (invs invs' : list LeagueInvitation) :
  invkey <$> invs' = invkey <$> invs → inv_id <$> invs' = inv_id <$> invs.
Proof.
  intros H. apply (f_equal (fmap (fst (A := string) (B := Z)))) in H.
  by rewrite <- !list_fmap_compose in H.
Qed.

(** A plan knows the cap of the invitation it read. *)
Definition plan_current (db : LeagueDb) (plan : JoinPlan) : Prop :=
  ∀ read, jp_invitation plan = Some read → invkey read ∈ invkey <$> db_invitations db.

Lemma plan_cap db read i :
  NoDup (inv_id <$> db_invitations db) → invkey read ∈ invkey <$> db_invitations db →
  i ∈ db_invitations db → inv_id i = inv_id read → inv_maxUses i = inv_maxUses read.
Proof.
  intros Hn (i' & Hk & Hi')%list_elem_of_fmap Hi Hid. injection Hk as H1 H2. rewrite H2. f_equal.
  apply list_elem_of_lookup in Hi as [a Ha]. apply list_elem_of_lookup in Hi' as [b Hb].
  assert (a = b) as ->; [|congruence].
  apply (NoDup_lookup (inv_id <$> db_invitations db) a b (inv_id i)); [done| |];
    rewrite list_lookup_fmap; [by rewrite Ha|rewrite Hb; cbn; congruence].
Qed.

Lemma commit_safe memberId now plan db db' :
  join_commit memberId now plan db = Ok db' → plan_current db plan → wf_safe db →
  wf_safe db' ∧ invkey <$> db_invitations db' = invkey <$> db_invitations db.
Proof.
  unfold join_commit. intros H Hplan Hsafe.
  assert (∃ invs, match jp_invitation plan with
      | Some read => consume_invitation now (jp_userId plan) read (db_invitations db)
      | None => Ok (db_invitations db) end = Ok invs ∧ invkey <$> invs = invkey <$> db_invitations db ∧
      ∀ i, i ∈ invs → 0 ≤ inv_usesCount i ≤ inv_maxUses i) as (invs & E & Hk & Hu).
  { destruct (match jp_invitation plan with Some _ => _ | None => _ end) as [invs|] eqn:E; [|done].
    exists invs. split; [done|]. destruct (jp_invitation plan) as [read|] eqn:Er.
    - destruct (consume_ok _ _ _ _ _ E) as [Hk Hu]; [|split; [done|apply Hu, Hsafe]].
      intros i Hi Hid. eapply plan_cap; [apply Hsafe|by apply Hplan|done|done].
    - injection E as <-. split; [done|apply Hsafe]. }
  rewrite E in H. cbn [rbind] in H. destruct (insert_member _ _) as [ms|] eqn:Em; [|done].
  cbn [rbind] in H. destruct (map_get _ _) as [l|]; [|done]. cbn [or_throw rbind] in H.
  injection H as <-. split; [|done]. eapply safe_insert; try done.
  rewrite (invkey_ids _ _ Hk). apply Hsafe.
Qed.

Lemma pool_for_cents count q pool :
  pool_for count (Fin q) = Ok pool →
  0 ≤ math_round (q * 100) ∧ pool_for count (Fin (math_round (q * 100) # 100)) = Ok pool.
Proof.
  unfold pool_for, calculatePrizeDistribution, int. intros H.
  destruct (negb (Qle_bool 0 (inject_Z count)) || negb (Qle_bool 0 q)) eqn:E; [done|].
  apply orb_false_iff in E as [E1 E2]. pose proof E2 as E3. apply negb_false_iff, Qle_bool_iff in E3.
  assert (0 ≤ math_round (q * 100)) as Hr.
  { apply math_round_nonneg. apply Qmult_le_0_compat; [done|discriminate]. }
  split; [done|]. rewrite math_round_cents.
  assert (Qle_bool 0 (math_round (q * 100) # 100) = true) as ->.
  { apply Qle_bool_iff. unfold Qle. cbn [Qnum Qden]. lia. }
  rewrite E1. exact H.
Qed.

Lemma join_checks_ok hash leagueId userId squadId token now db plan :
  join_checks hash leagueId userId squadId token now db = Ok plan →
  ∃ l, map_get leagueId (db_leagues db) = Some l ∧ jp_leagueId plan = leagueId ∧
    lg_currentMembers l < lg_maxMembers l ∧ jp_newMemberCount plan = lg_currentMembers l + 1 ∧
    pool_for (lg_currentMembers l + 1) (fee_of l) = Ok (jp_prizePool plan) ∧
    (∀ read, jp_invitation plan = Some read → read ∈ db_invitations db).
Proof.
  unfold join_checks. intros H. destruct (map_get leagueId (db_leagues db)) as [l|]; [|done].
  cbn [or_throw rbind] in H. exists l. split; [done|].
  destruct (find_gameweek _ _) as [gw|]; [|done]. cbn [or_throw rbind] in H.
  destruct (if lg_isPrivate l then _ else _) as [invitation|] eqn:Ei; [|done]. cbn [rbind] in H.
  destruct (bool_decide _); [done|]. cbn [throw_if rbind] in H.
  destruct (_ <=? now); [done|]. cbn [throw_if rbind] in H.
  destruct (lg_maxMembers l <=? _) eqn:Ecap; [done|]. cbn [throw_if rbind] in H.
  destruct (existsb _ _); [done|]. cbn [throw_if rbind] in H.
  destruct (negb _); [done|]. cbn [throw_if rbind] in H.
  destruct (pool_for _ _) as [pool|]; [|done]. cbn [rbind] in H. injection H as <-. bool_to_prop.
  split_and!; try done. cbn. intros read ->. destruct (lg_isPrivate l); [|done].
  destruct (Tournament.truthy token) as [tk|]; [|done]. cbn [or_throw rbind] in Ei.
  unfold findUsableInvitation in Ei. destruct (_ || _); [done|]. cbn [throw_if rbind] in Ei.
  destruct (List.find _ _) as [i|] eqn:Ef; [|done]. cbn [or_throw rbind] in Ei.
  destruct (invitationState i now); try done. cbn [rbind] in Ei.
  destruct (negb _); [done|]. injection Ei as <-. apply find_some in Ef as [Hin _].
  by apply list_elem_of_In.
Qed.

Lemma create_ok leagueId memberId codes users userId input now db db' :
  createLeague leagueId memberId codes users userId input now db = Ok db' →
  ∃ l ms m, map_get leagueId (db_leagues db) = None ∧
    mb_leagueId m = leagueId ∧ insert_member m (db_members db) = Ok ms ∧
    db' = with_leagues (with_members db ms) (map_set leagueId l (db_leagues db)) ∧
    lg_currentMembers l = 1 ∧
    2 ≤ lg_minMembers l ≤ lg_maxMembers l ∧ lg_maxMembers l ≤ MAX_LEAGUE_MEMBERS ∧
    0 ≤ lg_entryFee l ∧ pool_for 1 (fee_of l) = Ok (lg_prizePool l).
Proof.
  unfold createLeague. intros H. destruct (validate_create input) as [draft|] eqn:Ed; [|done].
  cbn [rbind] in H. destruct (negb _); [done|]. cbn [throw_if rbind] in H.
  destruct (negb _); [done|]. cbn [throw_if rbind] in H.
  destruct (find_gameweek db (ci_startGameweekId input)) as [sg|]; [|done]. cbn [or_throw rbind] in H.
  destruct (find_gameweek db (ci_endGameweekId input)) as [eg|]; [|done]. cbn [or_throw rbind] in H.
  destruct (_ <? _); [done|]. cbn [throw_if rbind] in H.
  destruct (_ <=? now); [done|]. cbn [throw_if rbind] in H.
  destruct (pool_for 1 _) as [pool|] eqn:Ep; [|done]. cbn [rbind] in H.
  destruct (existsb _ _ || map_has leagueId (db_leagues db)) eqn:Ex; [done|]. cbn [throw_if rbind] in H.
  apply orb_false_iff in Ex as [_ Ex]. unfold map_has in Ex. apply bool_decide_eq_false in Ex.
  destruct (insert_member _ _) as [ms|] eqn:Em; [|done]. cbn [rbind] in H. injection H as <-.
  eexists _, ms, _. split; [by apply eq_None_not_Some|]. split; [|split; [exact Em|split; [reflexivity|]]]; [done|].
  cbn. assert (2 ≤ dr_minMembers draft ≤ dr_maxMembers draft ∧ dr_maxMembers draft ≤ MAX_LEAGUE_MEMBERS) as [Hl1 Hl2].
  { unfold validate_create in Ed.
    repeat match type of Ed with
    | rbind (throw_if ?b _) _ = _ => destruct b eqn:?; [done|]; cbn [throw_if rbind] in Ed
    | rbind ?m _ = _ => destruct m; [|done]; cbn [rbind] in Ed
    end.
    injection Ed as <-. cbn. bool_to_prop. lia. }
  split_and!; try done; try lia.
  - destruct (ci_entryFee input) as [q|]; [|done]. by apply pool_for_cents in Ep as [? ?].
  - unfold fee_of. cbn. destruct (ci_entryFee input) as [q|]; [|done]. by apply pool_for_cents in Ep as [? ?].
Qed.

(** ** Runs of the service *)

(** A handler that runs without overlapping another. *)
Inductive league_step (hash : string → string) : LeagueDb → LeagueDb → Prop :=
| do_create leagueId memberId codes users userId input now db db' :
    createLeague leagueId memberId codes users userId input now db = Ok db' → league_step hash db db'
| do_join memberId leagueId userId squadId token now db db' :
    joinLeague hash memberId leagueId userId squadId token now db = Ok db' → league_step hash db db'
| do_invite id token leagueId userId hours uses now db db' :
    createInvitation hash id token leagueId userId hours uses now db = Ok db' → league_step hash db db'
| do_revoke leagueId id userId now db db' :
    revokeInvitation leagueId id userId now db = Ok db' → league_step hash db db'
| do_transition leagueId target db db' :
    transitionStatus leagueId target db = Ok db' → league_step hash db db'
| do_cancel leagueId userId db db' : cancelLeague leagueId userId db = Ok db' → league_step hash db db'
| do_underfilled now db r db' :
    cancelUnderfilledLeagues now db = Ok (r, db') → league_step hash db db'
| do_standings gw db : league_step hash db (recalculateClassicStandings gw db).2
| do_other db db' : same_keys db db' → league_step hash db db'.

Lemma invite_ok hash id token leagueId userId hours uses now db db' :
  createInvitation hash id token leagueId userId hours uses now db = Ok db' →
  ∃ i, db' = with_invitations db (db_invitations db ++ [i]) ∧ inv_id i ∉ inv_id <$> db_invitations db ∧
    0 ≤ inv_usesCount i ≤ inv_maxUses i.
Proof.
  unfold createInvitation. intros H. destruct (negb _); [done|]. cbn [throw_if rbind] in H.
  destruct (number_within _ _ uses) eqn:Eu; [|done].
  destruct uses as [q|]; [|done]. destruct (as_integer (Fin q)) as [n|] eqn:En; [|done].
  cbn [or_throw rbind] in H. destruct (requireOwnedLeague _ _ _); [|done]. cbn [rbind] in H.
  destruct (negb _); [done|]. cbn [throw_if rbind] in H.
  destruct (bool_decide _); [done|]. cbn [throw_if rbind] in H.
  destruct (existsb _ _) eqn:Ex; [done|]. cbn [throw_if rbind] in H. injection H as <-.
  eexists. split; [reflexivity|]. cbn. split.
  - intros (i & Hid & Hi)%list_elem_of_fmap. apply not_true_iff_false in Ex. apply Ex, existsb_exists.
    exists i. rewrite <- list_elem_of_In, orb_true_iff, !bool_decide_eq_true. auto.
  - cbn [number_within] in Eu. apply andb_true_iff in Eu as [Eu _]. apply Qle_bool_iff in Eu.
    cbn [as_integer] in En. destruct (_ =? 0); [|done]. injection En as <-.
    split; [done|]. apply Z.div_pos; [|done]. unfold Qle in Eu. cbn in Eu. lia.
Qed.

Lemma revoke_ok leagueId id userId now db db' :
  revokeInvitation leagueId id userId now db = Ok db' →
  ∃ f, db' = with_invitations db (f <$> db_invitations db) ∧
    ∀ i, invkey (f i) = invkey i ∧ inv_usesCount (f i) = inv_usesCount i.
Proof.
  unfold revokeInvitation. intros H. destruct (requireOwnedLeague _ _ _); [|done]. cbn [rbind] in H.
  destruct (List.find _ _); [|done]. cbn [or_throw rbind] in H.
  destruct (_ || _); [done|]. cbn [throw_if rbind] in H. destruct (negb _); [done|].
  cbn [throw_if rbind] in H. injection H as <-. eexists. split; [reflexivity|].
  intros i. cbn beta. by case_match.
Qed.

(** Every step keeps the safe invariants and never forgets an invitation. *)
Lemma step_safe hash db db' :
  league_step hash db db' → wf_safe db →
  wf_safe db' ∧ ∃ new, invkey <$> db_invitations db' = (invkey <$> db_invitations db) ++ new.
Proof.
  assert (∀ db db', same_keys db db' → wf_safe db →
    wf_safe db' ∧ ∃ new, invkey <$> db_invitations db' = (invkey <$> db_invitations db) ++ new) as Hsame.
  { intros d d' Hk Hs. split; [by eapply same_keys_safe|]. exists [].
    rewrite app_nil_r. by rewrite (sk_invitations _ _ Hk). }
  intros Hstep Hs. destruct Hstep as [leagueId memberId codes users userId input now db db' H
    |memberId leagueId userId squadId token now db db' H|id token leagueId userId hours uses now db db' H
    |leagueId id userId now db db' H|leagueId target db db' H|leagueId userId db db' H|now db r db' H
    |gw db|db db' H].
  - apply create_ok in H as (l & ms & m & _ & _ & Hm & -> & _). split.
    + apply (safe_insert m ms leagueId l (db_invitations db) db) in Hm; try apply Hs; try done.
    + exists []. by rewrite app_nil_r.
  - unfold joinLeague in H. destruct (join_checks _ _ _ _ _ _ _) as [plan|] eqn:E; [|done].
    cbn [rbind] in H. apply join_checks_ok in E as (l & _ & _ & _ & _ & _ & Hread).
    destruct (commit_safe _ _ _ _ _ H) as [H1 H2]; [|done|].
    + intros read Hr. by apply list_elem_of_fmap_2, Hread.
    + split; [done|]. exists []. by rewrite app_nil_r.
  - apply invite_ok in H as (i & -> & Hid & Hu). cbn [db_invitations with_invitations].
    rewrite fmap_app. split; [|by eexists].
    destruct Hs. constructor; cbn [db_leagues db_members db_invitations with_invitations]; try done.
    + rewrite fmap_app. by apply NoDup_snoc.
    + intros i' [?|Hi]%elem_of_app; [auto|]. apply list_elem_of_singleton in Hi as ->. done.
  - apply revoke_ok in H as (f & -> & Hf). cbn [db_invitations with_invitations].
    assert (invkey <$> (f <$> db_invitations db) = invkey <$> db_invitations db) as Hk.
    { rewrite <- list_fmap_compose. apply list_fmap_ext. intros _ i _. apply Hf. }
    split; [|exists []; by rewrite app_nil_r].
    destruct Hs. constructor; cbn [db_leagues db_members db_invitations with_invitations]; try done.
    + by rewrite (invkey_ids _ _ Hk).
    + intros i (i0 & -> & Hin)%list_elem_of_fmap. destruct (Hf i0) as [Hk0 ->].
      injection Hk0 as _ ->. by apply wf_uses0.
  - by apply Hsame; [eapply transition_keys|].
  - by apply Hsame; [eapply cancel_keys|].
  - by apply Hsame; [eapply underfilled_keys|].
  - apply Hsame; [apply recalculate_keys|done].
  - by apply Hsame.
Qed.

Lemma countb_in_league_snoc keys k id :
  countb (in_league id) (keys ++ [k]) = countb (in_league id) keys + (if in_league id k then 1 else 0).
Proof. rewrite countb_app, countb_cons. change (countb _ []) with 0. lia. Qed.

(** A member added and its league row written with the new count. *)
Lemma counts_insert e m ms' id l db :
  insert_member m (db_members db) = Ok ms' → mb_leagueId m = id →
  wf_counts e db → counts_ok e (mkey <$> ms') id l → ∀ invs,
  wf_counts e (with_leagues (with_members (with_invitations db invs) ms') (map_set id l (db_leagues db))).
Proof.
  intros (-> & _ & _)%insert_member_ok Hm [H1 H2 H3] Hl invs.
  split; cbn [db_leagues db_members with_leagues with_members].
  - intros id' l' Hl'. rewrite map_get_set in Hl'. case_decide as E.
    + injection Hl' as <-. by subst id'.
    + destruct (H1 id' l' Hl') as [C1 C2 C3 C4 C5]. constructor; try done.
      rewrite fmap_app. cbn [fmap list_fmap]. rewrite countb_in_league_snoc.
      assert (in_league id' (mkey m) = false) as ->; [|lia].
      apply bool_decide_eq_false. cbn. congruence.
  - intros m' [Hin|Hin]%elem_of_app; [|apply list_elem_of_singleton in Hin as ->];
      rewrite map_get_set; case_decide; try done.
    + by apply H2.
  - intros id' Hid'. rewrite map_get_set. case_decide; [done|]. by apply H3.
Qed.

(** Without overlap, every step keeps the counters too. *)
Lemma step_counts hash e db db' :
  league_step hash db db' → wf_counts e db → wf_counts e db'.
Proof.
  intros Hstep Hc. destruct Hstep as [leagueId memberId codes users userId input now db db' H
    |memberId leagueId userId squadId token now db db' H|id token leagueId userId hours uses now db db' H
    |leagueId id userId now db db' H|leagueId target db db' H|leagueId userId db db' H|now db r db' H
    |gw db|db db' H].
  - apply create_ok in H as (l & ms & m & Hnone & Hm & Hins & -> & Hcur & Hlim & Hmax & Hfee & Hpool).
    assert (uncounted (el_paid e) leagueId = 0) as Hu.
    { apply uncounted_none. intros [? Hp]%Hc. congruence. }
    assert (counts_ok e (mkey <$> ms) leagueId l) as Hl.
    { constructor; try lia.
      - apply insert_member_ok in Hins as (-> & _). rewrite fmap_app. cbn [fmap list_fmap].
        rewrite countb_in_league_snoc, Hcur, Hu. rewrite countb_zero.
        + unfold in_league. by rewrite bool_decide_true by (by cbn).
        + intros k (m' & -> & Hin)%list_elem_of_fmap. apply bool_decide_eq_false. cbn. intros E.
          destruct Hc as [_ Hc _]. apply Hc in Hin. rewrite E, Hnone in Hin. by destruct Hin.
      - by rewrite Hcur. }
    destruct (counts_insert e m ms leagueId l db Hins Hm Hc Hl (db_invitations db)) as [W1 W2 W3]. by split.
  - unfold joinLeague in H. destruct (join_checks _ _ _ _ _ _ _) as [plan|] eqn:E; [|done].
    cbn [rbind] in H. apply join_checks_ok in E as (l & Hl & Hid & Hcap & Hnew & Hpool & _).
    unfold join_commit in H. destruct (match jp_invitation plan with Some _ => _ | None => _ end) as [invs|]; [|done].
    cbn [rbind] in H. destruct (insert_member _ _) as [ms|] eqn:Em; [|done]. cbn [rbind] in H.
    rewrite Hid, Hl in H. cbn [or_throw rbind] in H. injection H as <-.
    eapply counts_insert; [exact Em|done|done|]. destruct Hc as [Hc _ _]. destruct (Hc _ _ Hl) as [C1 C2 C3 C4 C5].
    apply insert_member_ok in Em as (-> & _).
    constructor; cbn [lg_currentMembers lg_maxMembers lg_minMembers lg_entryFee lg_prizePool set_league_members];
      try done; rewrite ?Hnew; try done; try lia.
    rewrite fmap_app. cbn [fmap list_fmap]. rewrite countb_in_league_snoc, C1.
    unfold in_league. rewrite bool_decide_true by (by cbn). lia.
  - apply invite_ok in H as (i & -> & _). destruct Hc as [W1 W2 W3]. by split.
  - apply revoke_ok in H as (f & -> & _). destruct Hc as [W1 W2 W3]. by split.
  - eapply same_keys_counts; [by eapply transition_keys|done].
  - eapply same_keys_counts; [by eapply cancel_keys|done].
  - eapply same_keys_counts; [by eapply underfilled_keys|done].
  - eapply same_keys_counts; [apply recalculate_keys|done].
  - by eapply same_keys_counts.
Qed.

(** ** Properties: membership *)

(** Requests that overlap: a join reads, other steps happen, it commits. *)
Inductive race_step (hash : string → string) : LeagueDb * list JoinPlan → LeagueDb * list JoinPlan → Prop :=
| race_read leagueId userId squadId token now db plan plans :
    join_checks hash leagueId userId squadId token now db = Ok plan →
    race_step hash (db, plans) (db, plan :: plans)
| race_commit memberId now plan db db' plans :
    plan ∈ plans → join_commit memberId now plan db = Ok db' → race_step hash (db, plans) (db', plans)
| race_other db db' plans : league_step hash db db' → race_step hash (db, plans) (db', plans).

(** Under any interleaving of joins with each other and with everything
    else, no manager ever joins a league twice and no invitation link is
    redeemed more often than its cap: the unique key and the conditional update
    decide at commit time. *)
Theorem join_race_safe (hash : string → string) (db0 db : LeagueDb) (plans : list JoinPlan) :
  wf_safe db0 → rtc (race_step hash) (db0, []) (db, plans) →
  NoDup ((λ m, (mb_leagueId m, mb_userId m)) <$> db_members db) ∧
  ∀ i, i ∈ db_invitations db → inv_usesCount i ≤ inv_maxUses i.
Proof.
  intros Hs0 Hsteps.
  assert (∀ s s', rtc (race_step hash) s s' → wf_safe s.1 → (∀ p, p ∈ s.2 → plan_current s.1 p) →
    wf_safe s'.1) as Hrun.
  { intros s s' Hrtc. induction Hrtc as [s|s1 s2 s3 Hstep _ IH]; intros Hs Hp; [done|].
    destruct Hstep as [leagueId userId squadId token now d plan ps H|memberId now plan d d' ps Hin H
      |d d' ps H]; cbn [fst snd] in *.
    - apply IH; [done|]. intros p [->|Hin]%elem_of_cons; [|by apply Hp].
      apply join_checks_ok in H as (l & _ & _ & _ & _ & _ & Hread).
      intros read Hr. by apply list_elem_of_fmap_2, Hread.
    - destruct (commit_safe _ _ _ _ _ H) as [H1 H2]; [by apply Hp|done|]. apply IH; [done|].
      intros p Hp' read Hr. rewrite H2. by apply (Hp p Hp').
    - destruct (step_safe _ _ _ H Hs) as (H1 & new & H2). apply IH; [done|].
      intros p Hp' read Hr. rewrite H2. apply elem_of_app. left. by apply (Hp p Hp'). }
  specialize (Hrun _ _ Hsteps Hs0). cbn [fst snd] in Hrun.
  destruct Hrun as [_ _ H1 _ H2]; [by intros p ?%elem_of_nil|]. split; [done|]. intros i Hi.
  by apply H2.
Qed.

Definition sample_input (name : list Z) (maxMembers : Z) (private : bool) : CreateLeagueInput :=
  {| ci_name := Some name; ci_description := None; ci_entryFee := Fin 10; ci_maxMembers := Some maxMembers;
     ci_minMembers := None; ci_startGameweekId := 1; ci_endGameweekId := 3; ci_squadId := "sa";
     ci_scoringType := None; ci_scoringConfig := JUndefined; ci_scoringPreset := JUndefined;
     ci_isPrivate := JBool private; ci_minBuyIn := None; ci_maxBuyIn := None;
     ci_payoutPreset := None; ci_customPrizeSplitsBps := None |}.

Definition sample_empty_db : LeagueDb :=
  {| db_leagues := []; db_members := []; db_fixtures := []; db_invitations := []; db_squadScores := [];
     db_leagueScores := [];
     db_gameweeks := [{| gw_id := 1; gw_fplId := 1; gw_deadline := 100; gw_firstKickoff := None;
                         gw_isFinished := false |};
                      {| gw_id := 3; gw_fplId := 3; gw_deadline := 300; gw_firstKickoff := None;
                         gw_isFinished := false |}];
     db_squads := [("sa", "a"); ("sb", "b"); ("sc", "c")] |}.

(** A league for two, created by [a]. *)
Definition sample_league_db : result LeagueError LeagueDb :=
  createLeague "L" "m1" (λ _, "AB12CD") ["a"] "a" (sample_input [76; 49] 2 false) 10 sample_empty_db.

(** [b] and [c] join it at the same time. *)
Definition sample_race : result LeagueError (LeagueDb * list JoinPlan * LeagueDb * LeagueDb) :=
  let* db := sample_league_db in
  let* p1 := join_checks id "L" "b" "sb" None 20 db in
  let* p2 := join_checks id "L" "c" "sc" None 20 db in
  let* db1 := join_commit "m2" 21 p1 db in
  let* db2 := join_commit "m3" 22 p2 db1 in
  Ok (db, [p2; p1], db1, db2).

Lemma wf_safe_empty : wf_safe sample_empty_db.
Proof. constructor; cbn; try (by constructor). intros i Hi. by apply elem_of_nil in Hi. Qed.

Lemma wf_counts_empty : wf_counts nothing_elsewhere sample_empty_db.
Proof. split; [done| |]; intros m Hm; by apply elem_of_nil in Hm. Qed.

(** Joins that overlap can overfill a league: the capacity check reads the
    counter outside the transaction, so two managers who both see the last place
    both get in, and the counter, written from the stale value, then misses one
    of them. *)
Theorem join_race_overfills :
  ∃ (db0 db : LeagueDb) (plans : list JoinPlan) (l : LeagueRow),
    wf_safe db0 ∧ wf_counts nothing_elsewhere db0 ∧ rtc (race_step id) (db0, []) (db, plans) ∧
    map_get "L" (db_leagues db) = Some l ∧
    lg_currentMembers l = lg_maxMembers l ∧
    countb (in_league "L") (mkey <$> db_members db) = lg_maxMembers l + 1.
Proof.
  destruct sample_race as [[[[db ps] db1] db2]|e] eqn:E; [|by vm_compute in E].
  unfold sample_race in E.
  destruct sample_league_db as [d|] eqn:E0; [|done]. cbn [rbind] in E.
  destruct (join_checks id "L" "b" "sb" None 20 d) as [p1|] eqn:E1; [|done]. cbn [rbind] in E.
  destruct (join_checks id "L" "c" "sc" None 20 d) as [p2|] eqn:E2; [|done]. cbn [rbind] in E.
  destruct (join_commit "m2" 21 p1 d) as [d1|] eqn:E3; [|done]. cbn [rbind] in E.
  destruct (join_commit "m3" 22 p2 d1) as [d2|] eqn:E4; [|done]. cbn [rbind] in E.
  injection E as -> <- -> ->.
  assert (league_step id sample_empty_db db) as Hstep by (eapply do_create; exact E0).
  destruct (map_get "L" (db_leagues db2)) as [l|] eqn:El.
  2:{ vm_compute in E0. injection E0 as <-. vm_compute in E1. injection E1 as <-. vm_compute in E2.
      injection E2 as <-. vm_compute in E3. injection E3 as <-. vm_compute in E4. injection E4 as <-.
      vm_compute in El. done. }
  exists db, db2, [p2; p1], l. split_and!.
  - eapply step_safe; [exact Hstep|apply wf_safe_empty].
  - eapply step_counts; [exact Hstep|apply wf_counts_empty].
  - eapply rtc_l; [eapply race_read; exact E1|]. eapply rtc_l; [eapply race_read; exact E2|].
    eapply rtc_l; [eapply race_commit; [|exact E3]; right; left|].
    eapply rtc_l; [eapply race_commit; [|exact E4]; left|]. apply rtc_refl.
  - done.
  - vm_compute in E0. injection E0 as <-. vm_compute in E1. injection E1 as <-. vm_compute in E2.
    injection E2 as <-. vm_compute in E3. injection E3 as <-. vm_compute in E4. injection E4 as <-.
    vm_compute in El. injection El as <-. reflexivity.
  - vm_compute in E0. injection E0 as <-. vm_compute in E1. injection E1 as <-. vm_compute in E2.
    injection E2 as <-. vm_compute in E3. injection E3 as <-. vm_compute in E4. injection E4 as <-.
    vm_compute in El. injection El as <-. reflexivity.
Qed.

(** A private league and one invitation for one manager. *)
Definition sample_private : result LeagueError LeagueDb :=
  let* db := createLeague "L" "m1" (λ _, "AB12CD") ["a"] "a" (sample_input [76; 49] 5 true) 10 sample_empty_db in
  createInvitation id "i1" "0123456789abcdef" "L" "a" (int 48) (int 1) 12 db.

Lemma join_race_safe_witness :
  match sample_private with
  | Ok db =>
      match joinLeague id "m2" "L" "b" "sb" (Some "0123456789abcdef") 20 db with
      | Ok db => (∀ i, i ∈ db_invitations db → inv_usesCount i ≤ inv_maxUses i) ∧
          joinLeague id "m3" "L" "c" "sc" (Some "0123456789abcdef") 21 db = Err InvitationUsed
      | Err _ => False
      end
  | Err _ => False
  end.
Proof.
  destruct sample_private as [db|e] eqn:E; [|vm_compute in E; discriminate E].
  destruct (joinLeague id "m2" "L" "b" "sb" (Some "0123456789abcdef") 20 db) as [db'|e] eqn:E';
    [|vm_compute in E; injection E as <-; vm_compute in E'; discriminate E'].
  split.
  - destruct (createLeague "L" "m1" (λ _, "AB12CD") ["a"] "a" (sample_input [76; 49] 5 true) 10 sample_empty_db)
      as [db0|e] eqn:E0; [|vm_compute in E0; discriminate E0].
    unfold sample_private in E. rewrite E0 in E. cbn [rbind] in E.
    refine (proj2 (join_race_safe id sample_empty_db db' [] wf_safe_empty _)).
    eapply rtc_l; [eapply race_other, do_create; exact E0|].
    eapply rtc_l; [eapply race_other, do_invite; exact E|].
    apply rtc_once. eapply race_other, do_join. exact E'.
  - vm_compute in E. injection E as <-. vm_compute in E'. injection E' as <-. vm_compute. reflexivity.
Defined.

(** ** Properties: the lifecycle *)

(** The transitions the state machine lets through. *)
Definition allowed (l : LeagueRow) (target : LeagueStatus) : Prop :=
  match lg_status l, target with
  | UPCOMING, ACTIVE => lg_minMembers l ≤ lg_currentMembers l
  | UPCOMING, CANCELLED | ACTIVE, COMPLETED | ACTIVE, CANCELLED => True
  | ACTIVE, UPCOMING => True
  | s, t => s = t
  end.

(** The lifecycle of a league on every pair of states: what is refused is
    exactly what [allowed] excludes (for head-to-head activation, also a clash
    with existing fixtures); a transition sets that league's status and no
    other's; cancelling refunds every member and queues exactly the confirmed
    deposits for refund; activating a head-to-head league schedules its active
    members, by joining time, over its gameweeks. *)
Theorem lifecycle_transitions (leagueId : string) (target : LeagueStatus) (db : LeagueDb) (l : LeagueRow) :
  map_get leagueId (db_leagues db) = Some l →
  let h2h := bool_decide (target = ACTIVE) && bool_decide (lg_status l = UPCOMING)
             && bool_decide (lg_scoringType l = HEAD_TO_HEAD) in
  (is_ok (transitionStatus leagueId target db) = true → allowed l target) ∧
  (allowed l target → h2h = false → is_ok (transitionStatus leagueId target db) = true) ∧
  ∀ db', transitionStatus leagueId target db = Ok db' →
    (∀ id, lg_status <$> map_get id (db_leagues db')
           = if decide (id = leagueId) then Some target else lg_status <$> map_get id (db_leagues db)) ∧
    (lg_status l ≠ CANCELLED → target = CANCELLED → ∀ i m, db_members db !! i = Some m →
       ∃ m', db_members db' !! i = Some m' ∧
         (mb_leagueId m ≠ leagueId → m' = m) ∧
         (mb_leagueId m = leagueId → mb_status m' = Member_REFUNDED ∧
            mb_paymentStatus m' = if decide (mb_paymentStatus m = PAYMENT_CONFIRMED) then REFUND_PENDING
                                  else mb_paymentStatus m)) ∧
    (h2h = true → ∃ ids gws, ids ≡ₚ mb_id <$> active_members db leagueId ∧
       (∀ g, g ∈ gws ↔ ∃ row, row ∈ db_gameweeks db ∧ gw_id row = g ∧
          lg_startGameweekId l ≤ g ≤ lg_endGameweekId l) ∧
       db_fixtures db' = db_fixtures db ++ (schedule_fixture leagueId <$> generateRoundRobinSchedule ids gws)).
Proof.
  intros Hl h2h. split_and!.
  - unfold transitionStatus, allowed. rewrite Hl. cbn [or_throw rbind].
    destruct (lg_status l), target; try done. cbn -[map_set Z.ltb].
    destruct (Z.ltb_spec (lg_currentMembers l) (lg_minMembers l)); [done|by intros _].
  - unfold transitionStatus, allowed, h2h. rewrite Hl. cbn [or_throw rbind].
    destruct (lg_status l) eqn:Es, target; try done; cbn -[map_set Z.ltb].
    intros Hmin. rewrite (proj2 (Z.ltb_ge _ _) Hmin). cbn -[map_set].
    by destruct (bool_decide (lg_scoringType l = HEAD_TO_HEAD)).
  - intros db' H. destruct (transition_ok _ _ _ _ H) as (l' & Hl' & Hcase).
    rewrite Hl in Hl'. injection Hl' as <-. split_and!.
    + intros id'. destruct Hcase as [[Hs ->]|(_ & -> & _)].
      * case_decide; [|done]. subst id'. rewrite Hl. cbn. by rewrite Hs.
      * rewrite map_get_set. case_decide; [by subst|done].
    + intros Hc -> i m Hi. destruct Hcase as [[Hs _]|(_ & _ & -> & _)]; [done|].
      rewrite bool_decide_true, list_lookup_fmap, Hi by done. eexists. split; [reflexivity|].
      destruct (bool_decide_reflect (mb_leagueId m = leagueId)) as [E|E]; [|done].
      split; [done|]. intros _.
      destruct (bool_decide_reflect (mb_paymentStatus m = PAYMENT_CONFIRMED)) as [E'|E'];
        [by rewrite decide_True|by rewrite decide_False].
    + intros Hh. unfold h2h in Hh. apply andb_true_iff in Hh as [Hh H3].
      apply andb_true_iff in Hh as [H1 H2]. apply bool_decide_eq_true in H1, H2, H3. subst target.
      unfold transitionStatus in H. rewrite Hl in H. cbn [or_throw rbind] in H. rewrite H2, H3 in H.
      cbn -[map_set Z.ltb insert_fixtures generateRoundRobinSchedule sort_by active_members] in H.
      destruct (_ <? _); [done|]. cbn [throw_if rbind] in H.
      change (bool_decide (ACTIVE = CANCELLED)) with false in H. cbv iota in H.
      destruct (insert_fixtures _ _) as [fs|] eqn:Ei; [|done]. cbn in H. injection H as <-.
      eexists _, _. split; [|split].
      3:{ unfold insert_fixtures in Ei. destruct (bool_decide (NoDup _)); [|discriminate Ei]. injection Ei as <-. reflexivity. }
      * by rewrite sort_by_perm.
      * intros g. rewrite elem_of_sort_by, list_elem_of_fmap. split.
        -- intros (row & -> & [Hr Hin]%elem_of_lfilter). bool_to_prop. exists row. split_and!; done || lia.
        -- intros (row & Hr & Hg & Hb). exists row. split; [done|]. apply elem_of_lfilter. split; [done|].
           apply andb_true_iff. rewrite !Z.leb_le. lia.
Qed.

Lemma lifecycle_transitions_witness :
  match sample_league_db with
  | Ok db =>
      match transitionStatus "L" CANCELLED db with
      | Ok db' => lg_status <$> map_get "L" (db_leagues db') = Some CANCELLED ∧
          transitionStatus "L" ACTIVE db' = Err (TerminalState CANCELLED)
      | Err _ => False
      end
  | Err _ => False
  end.
Proof.
  destruct sample_league_db as [db|e] eqn:E; [|vm_compute in E; discriminate E].
  destruct (map_get "L" (db_leagues db)) as [l|] eqn:El;
    [|vm_compute in E; injection E as <-; vm_compute in El; discriminate El].
  destruct (transitionStatus "L" CANCELLED db) as [db'|e] eqn:Et;
    [|vm_compute in E; injection E as <-; vm_compute in Et; discriminate Et].
  split.
  - exact (proj1 (proj2 (proj2 (lifecycle_transitions "L" CANCELLED db l El)) db' Et) "L").
  - vm_compute in E. injection E as <-. vm_compute in Et. injection Et as <-. reflexivity.
Defined.

(** ** Properties: cancelling leagues that did not fill *)

Lemma cancel_upcoming leagueId l db :
  map_get leagueId (db_leagues db) = Some l → lg_status l = UPCOMING →
  ∃ db', transitionStatus leagueId CANCELLED db = Ok db' ∧
    db_leagues db' = map_set leagueId (set_league_status CANCELLED l) (db_leagues db).
Proof.
  intros Hl Hs. destruct (transitionStatus leagueId CANCELLED db) as [db'|e] eqn:E.
  - exists db'. split; [done|]. destruct (transition_ok _ _ _ _ E) as (l' & Hl' & [[Hs' _]|(_ & HL & _)]).
    + rewrite Hl in Hl'. injection Hl' as <-. congruence.
    + rewrite Hl in Hl'. by injection Hl' as <-.
  - exfalso. unfold transitionStatus in E. rewrite Hl in E. cbn [or_throw rbind] in E. rewrite Hs in E.
    cbn -[map_set] in E. done.
Qed.

(** An upcoming league that is short of members at its kick-off. *)
Definition doomed (db : LeagueDb) (now : Z) (l : LeagueRow) : bool :=
  bool_decide (lg_status l = UPCOMING)
  && match find_gameweek db (lg_startGameweekId l) with
     | Some gw => isUnderfilledAfterKickoff l gw now
     | None => false
     end.

(** The sweep over what is left to do: [swept] are the leagues done. *)
Lemma sweep_loop now db : NoDup (db_leagues db).*1 →
  (∀ id l, (id, l) ∈ db_leagues db → is_Some (find_gameweek db (lg_startGameweekId l))) →
  ∀ (todo : list (string * LeagueRow)) swept ids d,
  NoDup todo.*1 → (∀ p, p ∈ todo → p ∈ db_leagues db ∧ lg_status p.2 = UPCOMING) →
  (∀ p, p ∈ todo → map_get p.1 (db_leagues d) = Some p.2) →
  (∀ id l, map_get id (db_leagues db) = Some l → lg_status <$> map_get id (db_leagues d)
     = Some (if bool_decide (id ∈ swept) && doomed db now l then CANCELLED else lg_status l)) →
  ∃ d', mfoldl (cancel_one now db) (ids, d) todo
        = Ok (ids ++ (List.filter (λ l, doomed db now l.2) todo).*1, d') ∧
    ∀ id l, map_get id (db_leagues db) = Some l → lg_status <$> map_get id (db_leagues d')
       = Some (if bool_decide (id ∈ swept ++ todo.*1) && doomed db now l then CANCELLED else lg_status l).
Proof.
  intros Hn Hgw todo. induction todo as [|[id l] todo IH]; intros swept ids d Hnd Hin Hcur Hst.
  { exists d. cbn. rewrite !app_nil_r. done. }
  cbn [mfoldl]. destruct (Hin (id, l)) as [Hmem Hup]; [by left|]. cbn in Hup.
  destruct (Hgw id l Hmem) as [gw Hfind]. unfold cancel_one at 1. cbn [fst snd].
  rewrite Hfind. cbn [or_throw rbind]. change (((id, l) :: todo).*1) with (id :: todo.*1) in *.
  apply list.NoDup_cons in Hnd as [Hid Hnd].
  assert (doomed db now l = isUnderfilledAfterKickoff l gw now) as Hd.
  { unfold doomed. by rewrite bool_decide_true, Hfind. }
  pose proof (map_get_NoDup id l _ Hn Hmem) as Hget.
  pose proof (Hcur (id, l) ltac:(by left)) as Hcurl. cbn in Hcurl.
  assert (∀ p, p ∈ todo → p ∈ db_leagues db ∧ lg_status p.2 = UPCOMING) as Hin' by
    (intros; apply Hin; by right).
  replace (swept ++ id :: todo.*1) with ((swept ++ [id]) ++ todo.*1) by (by rewrite <- app_assoc).
  cbn [List.filter snd]. rewrite Hd. destruct (isUnderfilledAfterKickoff l gw now) eqn:Eu.
  - destruct (cancel_upcoming id l d Hcurl Hup) as (d1 & -> & Hd1). cbn [rbind].
    destruct (IH (swept ++ [id]) (ids ++ [id]) d1) as (d' & Hrun & Hfin); [done|done| | |].
    + intros p Hp. rewrite Hd1, map_get_set_ne; [apply Hcur; by right|].
      intros E. apply Hid. rewrite <- E. by apply list_elem_of_fmap_2.
    + intros id' l' Hl'. rewrite Hd1, map_get_set. case_decide as E.
      * subst id'. rewrite Hget in Hl'. injection Hl' as <-. cbn.
        rewrite bool_decide_true by set_solver. by rewrite Hd.
      * rewrite (Hst id' l' Hl'). by rewrite (bool_decide_ext (id' ∈ swept ++ [id]) (id' ∈ swept)) by set_solver.
    + exists d'. split; [|exact Hfin]. rewrite Hrun, <- app_assoc. done.
  - apply (IH (swept ++ [id]) ids d); [done|done|intros; apply Hcur; by right|].
    intros id' l' Hl'. rewrite (Hst id' l' Hl'). destruct (decide (id' = id)) as [->|E].
    + rewrite Hget in Hl'. injection Hl' as <-. by rewrite Hd, !andb_false_r.
    + by rewrite (bool_decide_ext (id' ∈ swept ++ [id]) (id' ∈ swept)) by set_solver.
Qed.

(** The sweep after a kick-off cancels exactly the upcoming leagues that
    are short of members at their start gameweek's kick-off (or deadline, when
    no kick-off is known), whatever their order, and no other league changes
    its status. *)
Theorem underfilled_leagues_cancelled (now : Z) (db : LeagueDb) :
  NoDup (db_leagues db).*1 →
  (∀ id l, (id, l) ∈ db_leagues db → is_Some (find_gameweek db (lg_startGameweekId l))) →
  ∃ ids db', cancelUnderfilledLeagues now db = Ok (ids, db') ∧
    ids = (List.filter (λ l, doomed db now l.2) (db_leagues db)).*1 ∧
    ∀ id l, map_get id (db_leagues db) = Some l →
      lg_status <$> map_get id (db_leagues db')
      = Some (if doomed db now l then CANCELLED else lg_status l).
Proof.
  intros Hn Hgw. unfold cancelUnderfilledLeagues.
  set (todo := List.filter (λ l, bool_decide (lg_status l.2 = UPCOMING)) (db_leagues db)).
  destruct (sweep_loop now db Hn Hgw todo [] [] db) as (d' & Hrun & Hfin).
  - by apply NoDup_fmap_lfilter.
  - intros p [Hp Hs]%elem_of_lfilter. bool_to_prop. done.
  - intros [id l] [Hp _]%elem_of_lfilter. by apply map_get_NoDup.
  - intros id l ->. cbn. by rewrite bool_decide_false by set_solver.
  - eexists _, d'. split; [exact Hrun|]. cbn [app]. split.
    + unfold todo. f_equal. clear. generalize (db_leagues db). intros L.
      induction L as [|p L IH]; [done|]. cbn [List.filter].
      destruct (bool_decide (lg_status p.2 = UPCOMING)) eqn:E; cbn [List.filter]; rewrite <- IH; [done|].
      unfold doomed at 2. by rewrite E.
    + intros id l Hl. rewrite (Hfin id l Hl). destruct (doomed db now l) eqn:Ed; [|by rewrite andb_false_r].
      rewrite bool_decide_true; [done|]. cbn [app]. apply list_elem_of_fmap. exists (id, l).
      split; [done|]. apply elem_of_lfilter. split; [by apply map_get_elem|].
      unfold doomed in Ed. by apply andb_true_iff in Ed as [? _].
Qed.

Lemma underfilled_leagues_cancelled_witness :
  match sample_league_db with
  | Ok db => ∃ ids db', cancelUnderfilledLeagues 100 db = Ok (ids, db') ∧ ids = ["L"] ∧
      lg_status <$> map_get "L" (db_leagues db') = Some CANCELLED
  | Err _ => False
  end.
Proof.
  destruct sample_league_db as [db|e] eqn:E; [|vm_compute in E; discriminate E].
  vm_compute in E. injection E as <-.
  match goal with |- context [cancelUnderfilledLeagues 100 ?db] =>
    destruct (underfilled_leagues_cancelled 100 db) as (ids & db' & H1 & H2 & H3) end.
  - apply (bool_decide_unpack _). vm_compute. exact I.
  - intros id l Hl. apply list_elem_of_singleton in Hl. injection Hl as -> ->.
    vm_compute. by eexists.
  - exists ids, db'. split; [exact H1|]. split; [exact H2|]. by rewrite (H3 "L" _ eq_refl).
Defined.

(** ** Lemmas: grouping *)

Section grouping.
Context {A : Type} (key : A → string).

(** [byLeague]: a Map from keys to the elements that have them, in order. *)
Definition group (l : list A) : list (string * list A) :=
  foldl (λ m x, map_set (key x) (default [] (map_get (key x) m) ++ [x]) m) [] l.

Lemma group_snoc l x :
  group (l ++ [x]) = map_set (key x) (default [] (map_get (key x) (group l)) ++ [x]) (group l).
Proof. unfold group. by rewrite foldl_app. Qed.

Lemma group_NoDup l : NoDup (group l).*1.
Proof.
  induction l as [|x l IH] using rev_ind; [constructor|]. rewrite group_snoc. by apply map_set_NoDup.
Qed.

Lemma group_get l k :
  default [] (map_get k (group l)) = List.filter (λ x, bool_decide (key x = k)) l.
Proof.
  induction l as [|x l IH] using rev_ind; [done|].
  rewrite group_snoc, map_get_set, List.filter_app, <- IH. cbn [List.filter].
  case_decide as E.
  - subst k. rewrite bool_decide_true by done. cbn. done.
  - rewrite bool_decide_false by congruence. by rewrite app_nil_r.
Qed.

Lemma map_set_values (k : string) (v old : list A) (m : list (string * list A)) :
  NoDup m.*1 → old = default [] (map_get k m) →
  concat (map_set k (old ++ v) m).*2 ≡ₚ concat m.*2 ++ v.
Proof.
  intros Hn ->. induction m as [|[k' w] m IH]; cbn [map_get map_set].
  - cbn. by rewrite app_nil_r.
  - change (((k', w) :: m).*1) with (k' :: m.*1) in Hn. apply list.NoDup_cons in Hn as [Hk Hn].
    case_decide as E; cbn [fmap list_fmap snd concat default].
    + rewrite <- !app_assoc. apply Permutation_app_head, Permutation_app_comm.
    + rewrite IH by done. by rewrite app_assoc.
Qed.

Lemma group_values l : concat (group l).*2 ≡ₚ l.
Proof.
  induction l as [|x l IH] using rev_ind; [done|].
  rewrite group_snoc, (map_set_values _ [x]); [|apply group_NoDup|done]. by rewrite IH.
Qed.

End grouping.

Section standings.
Context (total : string → Z) (members : list LeagueMember).
Context (Hids : NoDup (mb_id <$> members)).

Let rows := standing_rows total members.
Let table (leagueId : string) : list LeagueMember :=
  sort_by (classic_order total) (List.filter (λ m, bool_decide (mb_leagueId m = leagueId)) members).

Definition ranked (ms : list LeagueMember) : list (string * (Z * Z)) :=
  imap (λ idx m, (mb_id m, (total (mb_squadId m), Z.of_nat idx + 1))) (sort_by (classic_order total) ms).

Lemma ranked_ids ms : (ranked ms).*1 ≡ₚ mb_id <$> ms.
Proof.
  unfold ranked. rewrite <- (sort_by_perm (classic_order total) ms) at 2.
  generalize (sort_by (classic_order total) ms). intros l. apply reflexive_eq, list_eq. intros i.
  rewrite !list_lookup_fmap, list_lookup_imap. by destruct (l !! i).
Qed.

Lemma rows_ids : rows.*1 ≡ₚ mb_id <$> members.
Proof.
  unfold rows, standing_rows. change (foldl _ [] members) with (group mb_leagueId members).
  rewrite <- (group_values mb_leagueId members) at 2.
  change (map_values _) with ((group mb_leagueId members).*2).
  generalize ((group mb_leagueId members).*2). intros gs.
  induction gs as [|g gs IH]; [done|]. cbn [fmap list_fmap concat]. rewrite fmap_app, IH, fmap_app.
  apply Permutation_app_tail. apply (ranked_ids g).
Qed.

Lemma rows_get leagueId i m :
  table leagueId !! i = Some m →
  map_get (mb_id m) rows = Some (total (mb_squadId m), Z.of_nat i + 1).
Proof.
  intros Hi. apply map_get_NoDup; [by rewrite rows_ids|].
  unfold rows, standing_rows. change (foldl _ [] members) with (group mb_leagueId members).
  apply list_elem_of_In, in_concat. exists (ranked (List.filter (λ m, bool_decide (mb_leagueId m = leagueId)) members)).
  rewrite <- !list_elem_of_In. split.
  - apply list_elem_of_fmap. eexists. split; [reflexivity|].
    rewrite <- (group_get mb_leagueId members leagueId).
    destruct (map_get leagueId (group mb_leagueId members)) as [g|] eqn:E.
    + apply list_elem_of_fmap. exists (leagueId, g). split; [done|]. by apply map_get_elem.
    + exfalso. pose proof (group_get mb_leagueId members leagueId) as Hg. rewrite E in Hg. cbn in Hg.
      unfold table in Hi. by rewrite <- Hg in Hi.
  - unfold ranked. apply list_elem_of_lookup. exists i. rewrite list_lookup_imap.
    change (sort_by _ _) with (table leagueId). by rewrite Hi.
Qed.

End standings.

(** Members outside the classic standings keep their rows. *)
Lemma recalculate_other gameweekId db i m :
  NoDup (mb_id <$> db_members db) → db_members db !! i = Some m → is_classic db m = false →
  db_members (recalculateClassicStandings gameweekId db).2 !! i = Some m.
Proof.
  intros Hn Hi Hc. unfold recalculateClassicStandings. cbn [fst snd db_members with_members].
  rewrite list_lookup_fmap, Hi. cbn. f_equal.
  assert (map_get (mb_id m) (standing_rows (total_of db gameweekId)
    (List.filter (is_classic db) (db_members db))) = None) as ->; [|done].
  apply map_get_None. rewrite rows_ids. intros (m' & Hid & Hin)%list_elem_of_fmap.
  apply elem_of_lfilter in Hin as [Hin Hc']. assert (m' = m) as ->; [|congruence].
  apply list_elem_of_lookup in Hin as [j Hj].
  assert (i = j) as ->; [|congruence].
  apply (NoDup_lookup (mb_id <$> db_members db) i j (mb_id m)); [done| |];
    rewrite list_lookup_fmap; [by rewrite Hi|rewrite Hj; cbn; congruence].
Qed.

(** ** Properties: classic standings *)

(** Recalculating the classic standings: the active members of every
    active classic league get their squad's points over all gameweeks so far
    and the ranks 1 .. n of that league, most points first and the earlier
    joiner first among equals; no other row changes. *)
Theorem classic_standings_ranked (gameweekId : Z) (db : LeagueDb) :
  NoDup (mb_id <$> db_members db) →
  let r := recalculateClassicStandings gameweekId db in
  r.1 = length (List.filter (is_classic db) (db_members db)) ∧
  (∀ i m, db_members db !! i = Some m → is_classic db m = false → db_members r.2 !! i = Some m) ∧
  ∀ leagueId, ∃ table,
    table ≡ₚ List.filter (λ m, is_classic db m && bool_decide (mb_leagueId m = leagueId)) (db_members r.2) ∧
    StronglySorted (λ a b, then_by (desc mb_totalPoints) (asc mb_joinedAt) a b ≤ 0) table ∧
    mb_rank <$> table = (λ i, Some (Z.of_nat i + 1)) <$> seq 0 (length table) ∧
    ∀ m, m ∈ table → mb_totalPoints m = total_of db gameweekId (mb_squadId m).
Proof.
  intros Hn. cbn zeta. set (members := List.filter (is_classic db) (db_members db)).
  set (total := total_of db gameweekId). set (rows := standing_rows total members).
  assert (NoDup (mb_id <$> members)) as Hids by (by apply NoDup_fmap_lfilter).
  pose proof (rows_ids total members) as Hrows. fold rows in Hrows.
  unfold recalculateClassicStandings. cbn [fst snd db_members with_members]. fold total members rows.
  set (upd m := match map_get (mb_id m) rows with Some (t, k) => set_totals t k m | None => m end).
  split_and!.
  - rewrite <- (length_fmap fst), Hrows. by rewrite length_fmap.
  - intros i m Hi Hc. exact (recalculate_other gameweekId db i m Hn Hi Hc).
  - intros leagueId. set (sorted := sort_by (classic_order total)
      (List.filter (λ m, bool_decide (mb_leagueId m = leagueId)) members)).
    assert (∀ i m, sorted !! i = Some m → upd m = set_totals (total (mb_squadId m)) (Z.of_nat i + 1) m) as Hupd.
    { intros i m Hi. unfold upd, rows. by rewrite (rows_get total members Hids leagueId i m Hi). }
    exists (upd <$> sorted). split_and!.
    + unfold sorted. rewrite sort_by_perm. apply reflexive_eq. symmetry.
      rewrite (lfilter_fmap upd _ (λ m, is_classic db m && bool_decide (mb_leagueId m = leagueId))).
      * f_equal. unfold members. clear. induction (db_members db) as [|m ms IH]; [done|].
        cbn [List.filter]. destruct (is_classic db m); cbn [List.filter andb]; by rewrite IH.
      * intros m. unfold upd. by destruct (map_get _ _) as [[t k]|].
    + assert (StronglySorted (λ a b, classic_order total a b ≤ 0) sorted) as Hs.
      { assert (Comparator (classic_order total)) by (unfold classic_order; apply _). by apply sort_by_sorted. }
      assert (∀ m, m ∈ sorted → mb_totalPoints (upd m) = total (mb_squadId m) ∧ mb_joinedAt (upd m) = mb_joinedAt m) as Hf.
      { intros m [i Hi]%list_elem_of_lookup. by rewrite (Hupd i m Hi). }
      clear Hupd. revert Hs Hf. generalize sorted. intros l.
      induction 1 as [|m l Hl IH Hm]; intros Hf; cbn [fmap list_fmap]; constructor.
      * apply IH. intros m' Hm'. apply Hf. by right.
      * rewrite Forall_fmap. rewrite Forall_forall in *. intros m' Hm'. unfold compose.
        specialize (Hm m' Hm'). destruct (Hf m ltac:(by left)) as [A1 A2].
        destruct (Hf m' ltac:(by right)) as [B1 B2]. revert Hm. unfold classic_order, then_by, desc, asc.
        by rewrite A1, A2, B1, B2.
    + rewrite length_fmap. apply list_eq. intros i. rewrite !list_lookup_fmap.
      destruct (sorted !! i) as [m|] eqn:E; cbn [fmap option_fmap option_map].
      * pose proof (lookup_lt_Some _ _ _ E). rewrite lookup_seq_lt by done. cbn [fmap option_fmap option_map].
        by rewrite (Hupd i m E).
      * apply lookup_ge_None in E. rewrite lookup_ge_None_2; [done|]. rewrite length_seq. lia.
    + intros m (m0 & -> & [i Hi]%list_elem_of_lookup)%list_elem_of_fmap. by rewrite (Hupd i m0 Hi).
Qed.

Lemma classic_standings_ranked_witness :
  match sample_league_db with
  | Ok db => ∃ table, table ≡ₚ List.filter (λ m, is_classic db m && bool_decide (mb_leagueId m = "L"))
                (db_members (recalculateClassicStandings 1 db).2) ∧
      mb_rank <$> table = (λ i, Some (Z.of_nat i + 1)) <$> seq 0 (length table)
  | Err _ => False
  end.
Proof.
  destruct sample_league_db as [db|e] eqn:E; [|vm_compute in E; discriminate E].
  destruct (proj2 (proj2 (classic_standings_ranked 1 db
    (wf_ids _ (proj1 (step_safe id _ _ (do_create id _ _ _ _ _ _ _ _ _ E) wf_safe_empty))))) "L")
    as (table & H1 & _ & H3 & _).
  exists table. split; [exact H1|exact H3].
Defined.

(** ** Properties: the standings page *)

Lemma rankAt_facts members scores through :
  (rankAt members scores through).*1 = (λ i, Z.of_nat i + 1) <$> seq 0 (length members) ∧
  (rankAt members scores through).*2
  = sort_by standings_order (standings_entry scores through <$> members).
Proof.
  unfold rankAt. set (l := sort_by _ _).
  assert (length l = length members) as Hl by (unfold l; by rewrite length_sort_by, length_fmap).
  split; apply list_eq; intros i; rewrite !list_lookup_fmap, list_lookup_imap.
  - destruct (l !! i) as [e|] eqn:E; cbn [fmap option_fmap option_map].
    + pose proof (lookup_lt_Some _ _ _ E). rewrite lookup_seq_lt by lia. done.
    + apply lookup_ge_None in E. rewrite lookup_ge_None_2; [done|]. rewrite length_seq. lia.
  - by destruct (l !! i).
Qed.

(** The sum of what a permutation of keys looks up in a map is the sum of the
    map's values. *)
Lemma sum_lookups {A} (key : A → string) (m : list (string * Z)) (l : list A) :
  NoDup m.*1 → key <$> l ≡ₚ m.*1 →
  sum_of (λ x, default 0 (map_get (key x) m)) l = sum_of snd m.
Proof.
  intros Hn Hp. transitivity (sum_of (λ k, default 0 (map_get k m)) (key <$> l)); [by rewrite sum_of_fmap|].
  rewrite (sum_of_perm _ _ _ Hp), sum_of_fmap. apply sum_of_ext. intros [k v] Hin.
  cbn. by rewrite (map_get_NoDup k v m).
Qed.

(** The standings page of a league: one entry per member, ranked 1 .. n by
    total points in the league's window, then best gameweek, then joining time;
    and when a week is selected that has a completed one before it, every entry
    has a rank change and the changes cancel out. *)
Theorem league_standings_page (leagueId : string) (gameweekId : option Z) (db : LeagueDb)
    (entries : list LeagueStandingsEntry) (completed : list Z) :
  let members := List.filter (λ m, bool_decide (mb_leagueId m = leagueId)) (db_members db) in
  NoDup (mb_userId <$> members) →
  getLeagueStandings leagueId gameweekId db = Ok (entries, completed) →
  ls_rank <$> entries = (λ i, Z.of_nat i + 1) <$> seq 0 (length members) ∧
  (∃ l, map_get leagueId (db_leagues db) = Some l ∧
     let scores := window_scores leagueId l (mb_squadId <$> members) gameweekId db in
     ls_entry <$> entries ≡ₚ standings_entry scores None <$> members) ∧
  StronglySorted (λ a b, standings_order a b ≤ 0) (ls_entry <$> entries) ∧
  ((∀ e, e ∈ entries → ls_rankChange e = None) ∨
   (∀ e, e ∈ entries → is_Some (ls_rankChange e)) ∧
   sum_of (λ e, default 0 (ls_rankChange e)) entries = 0) ∧
  (∀ g p, gameweekId = Some g → p ∈ completed → p < g → ∀ e, e ∈ entries → is_Some (ls_rankChange e)).
Proof.
  cbn zeta. set (members := List.filter _ (db_members db)). intros Hn H.
  unfold getLeagueStandings in H. destruct (map_get leagueId (db_leagues db)) as [l|] eqn:El; [|done].
  cbn [or_throw rbind] in H. fold members in H.
  set (compl := completed_gameweeks l db) in *. destruct (match gameweekId with Some _ => _ | None => _ end); [done|].
  cbn [throw_if rbind] in H. set (scores := window_scores _ _ _ _ _) in H.
  set (previous := g ← gameweekId; last (List.filter (λ c, c <? g) compl)) in H.
  set (prev := match previous with None => [] | Some _ => _ end) in H.
  injection H as <- <-.
  destruct (rankAt_facts members scores None) as [F1 F2].
  assert (∀ through, st_userId <$> (rankAt members scores through).*2 ≡ₚ mb_userId <$> members) as Husers.
  { intros through. rewrite (proj2 (rankAt_facts members scores through)), sort_by_perm.
    by rewrite <- list_fmap_compose. }
  rewrite <- !list_fmap_compose. change (_ <$> rankAt members scores None) with ((rankAt members scores None).*1) at 1.
  change (ls_entry ∘ _ <$> rankAt members scores None) with ((rankAt members scores None).*2).
  assert (previous ≠ None → prev.*1 ≡ₚ mb_userId <$> members ∧ NoDup prev.*1 ∧
    sum_of snd prev = sum_of fst (rankAt members scores None)) as Hprev.
  { unfold prev. destruct previous as [p|]; [|done]. intros _.
    assert (NoDup ((λ e : Z * StandingsEntry, st_userId e.2) <$> rankAt members scores (Some p))) as Hnp.
    { change (λ e : Z * StandingsEntry, st_userId e.2) with (st_userId ∘ snd (A := Z)).
      rewrite list_fmap_compose. by rewrite Husers. }
    rewrite (map_of_entries (λ e : Z * StandingsEntry, st_userId e.2) fst) by done.
    cbn [app]. rewrite <- list_fmap_compose. unfold compose. cbn [fst]. split_and!.
    - rewrite <- (Husers (Some p)), <- list_fmap_compose. done.
    - done.
    - rewrite sum_of_fmap. change (sum_of fst (rankAt members scores (Some p)) = sum_of fst (rankAt members scores None)).
      unfold sum_of.
      by rewrite F1, (proj1 (rankAt_facts members scores (Some p))). }
  assert (previous ≠ None → ∀ e, e ∈ rankAt members scores None → is_Some (map_get (st_userId e.2) prev)) as Hsome.
  { intros Hp e He. destruct (Hprev Hp) as (P1 & _ & _).
    destruct (map_get (st_userId e.2) prev) eqn:E; [done|]. apply map_get_None in E. exfalso. apply E.
    rewrite P1, <- (Husers None). by apply list_elem_of_fmap_2, list_elem_of_fmap_2. }
  split_and!.
  - exact F1.
  - exists l. split; [done|]. cbn zeta. fold scores. rewrite F2. by rewrite sort_by_perm.
  - rewrite F2. assert (Comparator standings_order) by (unfold standings_order; apply _). by apply sort_by_sorted.
  - destruct previous as [p|] eqn:Ep.
    + right. destruct (Hprev ltac:(done)) as (P1 & P2 & P3). split.
      * intros e (e0 & -> & He)%list_elem_of_fmap. cbn. destruct (Hsome ltac:(done) e0 He) as [r ->]. done.
      * rewrite sum_of_fmap. cbn [ls_rankChange].
        assert (sum_of (λ e : Z * StandingsEntry, default 0 (map_get (st_userId e.2) prev)) (rankAt members scores None)
          = sum_of fst (rankAt members scores None)) as E.
        { rewrite <- P3. apply sum_lookups; [done|]. rewrite P1, <- (Husers None), <- list_fmap_compose. done. }
        assert (sum_of (λ e : Z * StandingsEntry, default 0 ((λ r, r - e.1) <$> map_get (st_userId e.2) prev))
            (rankAt members scores None) + sum_of fst (rankAt members scores None)
          = sum_of (λ e : Z * StandingsEntry, default 0 (map_get (st_userId e.2) prev)) (rankAt members scores None)) as E2.
        { rewrite <- sum_of_add. apply sum_of_ext. intros e He.
          destruct (Hsome ltac:(done) e He) as [r ->]. cbn. lia. }
        lia.
    + left. intros e (e0 & -> & _)%list_elem_of_fmap. done.
  - intros g p -> Hp Hlt e (e0 & -> & He)%list_elem_of_fmap. cbn.
    assert (previous ≠ None) as Hne.
    { unfold previous. cbn. intros Hnone. apply last_None in Hnone.
      assert (p ∈ List.filter (λ c, c <? g) compl) as Hin by (apply elem_of_lfilter; split; [done|lia]).
      rewrite Hnone in Hin. by apply elem_of_nil in Hin. }
    destruct (Hsome Hne e0 He) as [r ->]. done.
Qed.

(** Two members with scores of three completed gameweeks. *)
Definition sample_standings_db : LeagueDb :=
  {| db_leagues := db_leagues sample_h2h_db; db_members := db_members sample_h2h_db;
     db_fixtures := []; db_invitations := [];
     db_squadScores := [(1, "a", 50); (1, "b", 61); (2, "a", 40); (2, "b", 20); (2, "c", 70)];
     db_leagueScores := [];
     db_gameweeks := (λ g, {| gw_id := g; gw_fplId := g; gw_deadline := 0; gw_firstKickoff := None;
                              gw_isFinished := true |}) <$> [1; 2; 3];
     db_squads := [] |}.

Lemma league_standings_page_witness :
  match getLeagueStandings "H" (Some 2) sample_standings_db with
  | Ok (entries, completed) => completed = [1; 2; 3] ∧
      (λ e, (ls_rank e, st_userId (ls_entry e), ls_rankChange e)) <$> entries
        = [(1, "a", Some 1); (2, "b", Some (-1)); (3, "c", Some 0)] ∧
      ∀ e, e ∈ entries → is_Some (ls_rankChange e)
  | Err _ => False
  end.
Proof.
  destruct (getLeagueStandings "H" (Some 2) sample_standings_db) as [[entries completed]|e] eqn:E;
    [|vm_compute in E; discriminate E].
  assert (completed = [1; 2; 3]) as -> by (vm_compute in E; by injection E).
  split; [reflexivity|]. split; [vm_compute in E; by injection E as <-|].
  refine (proj2 (proj2 (proj2 (proj2 (league_standings_page "H" (Some 2) sample_standings_db entries [1; 2; 3]
    _ E)))) 2 1 eq_refl _ _).
  - apply (bool_decide_unpack _). vm_compute. exact I.
  - left.
  - reflexivity.
Defined.
