(* ===== verification/Settlement.v ===== *)
(** * Settling a gameweek: [backend/src/jobs/gameweekSettlement.ts],
      [backend/src/services/events/{eventBus,gameweekEventHandlers}.ts]

    The job composes the other components: it publishes one event, whose
    subscribers score the squads, revert the Free Hits and settle the leagues,
    then it goes over the active leagues itself.  The state is one store per
    component; a table that two of them share is owned by one and copied into
    the other by a view before each call.  Effects stay when a step throws, as
    in the code: an [Action] returns the state it leaves and the error, if any. *)

From S2P Require Import Prelude Rules ScoringConfig Scoring SquadService Tournament LeagueDb HeadToHead League.

(** ** The event bus *)

Section bus.
Context {St E : Type}.

Record Subscription : Type := { sub_name : string; sub_handler : St → St * option E }.

Record SubscriberFailure : Type := { sf_handlerName : string; sf_error : E; sf_attempts : Z }.

Record PublishSummary : Type := { ps_delivered : nat; ps_failed : list SubscriberFailure }.

(** Up to [tries] attempts: the state, the error of the last one, the calls made. *)
Fixpoint attempt (tries : nat) (handler : St → St * option E) (s : St) (last : option E) : St * option E * nat :=
  match tries with
  | O => (s, last, O)
  | S tries =>
      match handler s with
      | (s, None) => (s, None, 1%nat)
      | (s, Some e) => let '(s, r, calls) := attempt tries handler s (Some e) in (s, r, S calls)
      end
  end.

Definition publish (maxAttemptsPerSubscriber : option Z) (subscriptions : list Subscription) (s : St) :
    St * PublishSummary :=
  let maxAttempts := Z.max 1 (default 1 maxAttemptsPerSubscriber) in
  foldl (λ (acc : St * PublishSummary) sub,
    match attempt (Z.to_nat maxAttempts) (sub_handler sub) acc.1 None with
    | (s, None, _) => (s, {| ps_delivered := S (ps_delivered acc.2); ps_failed := ps_failed acc.2 |})
    | (s, Some e, _) =>
        (s, {| ps_delivered := ps_delivered acc.2;
               ps_failed := ps_failed acc.2 ++
                 [{| sf_handlerName := sub_name sub; sf_error := e; sf_attempts := maxAttempts |}] |})
    end) (s, {| ps_delivered := O; ps_failed := [] |}) subscriptions.

End bus.
Arguments Subscription : clear implicits.
Arguments SubscriberFailure : clear implicits.
Arguments PublishSummary : clear implicits.

(** ** The state and its actions *)

Record World : Type := {
  w_squads : SquadDb;
  w_scoring : ScoringDb;
  w_cache : Cache;
  w_league : LeagueDb;
  w_cup : CupDb
}.

Inductive SettlementError : Type :=
| ScoringFailed (e : ScoringError)
| HeadToHeadFailed (e : H2HError)
| LeagueFailed (e : LeagueError)
| CupFailed (e : TournamentError)
| DeliveryFailed (failed : list string).

Definition Action : Type := World → World * option SettlementError.

Definition and_then (a b : Action) : Action := λ w,
  match a w with (w, None) => b w | (w, Some e) => (w, Some e) end.

Fixpoint for_each {A} (f : A → Action) (l : list A) : Action := λ w,
  match l with [] => (w, None) | x :: l => and_then (f x) (for_each f l) w end.

(** [try { ... } catch (err) { console.error(...) }]. *)
Definition try_log (a : Action) : Action := λ w, ((a w).1, None).

Definition skip : Action := λ w, (w, None).

(** The squads as the scorer reads them: rows joined with the position. *)
Definition lineup_player (db : SquadDb) (sp : SquadPlayer) : LineupPlayer :=
  {| lp_playerId := sp_playerId sp;
     lp_position := default GKP (pl_position <$> find_player db (sp_playerId sp));
     lp_isStarter := sp_isStarter sp; lp_isCaptain := sp_isCaptain sp;
     lp_isViceCaptain := sp_isViceCaptain sp; lp_positionOrder := sp_positionOrder sp |}.

Definition scoring_view (w : World) : ScoringDb :=
  {| Scoring.squads := (λ s, (s.1, {|
       Scoring.sq_players := lineup_player (w_squads w) <$> SquadService.sq_players s.2;
       Scoring.sq_totalPoints := match map_get s.1 (Scoring.squads (w_scoring w)) with
                                 | Some row => Scoring.sq_totalPoints row | None => 0 end |}))
       <$> SquadService.squads (w_squads w);
     Scoring.playerGameweekStats := Scoring.playerGameweekStats (w_scoring w);
     Scoring.squadChipUsage := (λ u, (u.1, {| Scoring.cu_chipType := SquadService.cu_chipType u.2;
       Scoring.cu_cancelledAt := SquadService.cu_cancelledAt u.2 |}))
       <$> SquadService.squadChipUsage (w_squads w);
     Scoring.squadGameweekScore := Scoring.squadGameweekScore (w_scoring w);
     Scoring.leagueGameweekScore := Scoring.leagueGameweekScore (w_scoring w) |}.

Definition league_view (w : World) : LeagueDb :=
  let db := w_league w in
  {| db_leagues := db_leagues db; db_members := db_members db; db_fixtures := db_fixtures db;
     db_invitations := db_invitations db;
     db_squadScores := (λ s, (s.1.2, s.1.1, gs_points s.2)) <$> Scoring.squadGameweekScore (w_scoring w);
     db_leagueScores := (λ s, (s.1.1.1, s.1.2, s.1.1.2, s.2)) <$> Scoring.leagueGameweekScore (w_scoring w);
     db_gameweeks := db_gameweeks db; db_squads := db_squads db |}.

Definition cup_view (w : World) : CupDb :=
  let db := league_view w in
  {| leagues := (λ l, (l.1, (lg_startGameweekId l.2, lg_endGameweekId l.2))) <$> db_leagues db;
     leagueMember := (λ m, {| cm_id := mb_id m; cm_leagueId := mb_leagueId m;
       cm_isActive := bool_decide (mb_status m = Member_ACTIVE); cm_squadId := mb_squadId m;
       cm_h2hPoints := mb_h2hPoints m; cm_totalPoints := mb_totalPoints m;
       cm_pointsFor := mb_pointsFor m; cm_joinedAt := mb_joinedAt m |}) <$> db_members db;
     leagueFixture := leagueFixture (w_cup w);
     Tournament.squadGameweekScore := db_squadScores db;
     Tournament.leagueGameweekScore := db_leagueScores db;
     squadStarters := squadStarters (w_cup w);
     Tournament.playerGameweekStats := Tournament.playerGameweekStats (w_cup w) |}.

(** The transfer costs are a column of the scorer's table. *)
Definition squads_view (w : World) : SquadDb :=
  let db := w_squads w in
  {| users := users db; players := players db; SquadService.gameweeks := SquadService.gameweeks db;
     SquadService.squads := SquadService.squads db; squadTransfer := squadTransfer db;
     SquadService.squadChipUsage := SquadService.squadChipUsage db;
     scoreTransferCost := (λ s, (s.1, gs_transferCost s.2)) <$> Scoring.squadGameweekScore (w_scoring w);
     squadChipCancellation := squadChipCancellation db |}.

Definition set_league (w : World) (db : LeagueDb) : World :=
  {| w_squads := w_squads w; w_scoring := w_scoring w; w_cache := w_cache w; w_league := db; w_cup := w_cup w |}.

Definition set_scoring (w : World) (db : ScoringDb) (cache : Cache) : World :=
  {| w_squads := w_squads w; w_scoring := db; w_cache := cache; w_league := w_league w; w_cup := w_cup w |}.

Definition set_squads_of (w : World) (db : SquadDb) : World :=
  {| w_squads := db; w_scoring := w_scoring w; w_cache := w_cache w; w_league := w_league w; w_cup := w_cup w |}.

Definition set_cup (w : World) (db : CupDb) : World :=
  {| w_squads := w_squads w; w_scoring := w_scoring w; w_cache := w_cache w; w_league := w_league w; w_cup := db |}.

(** A call of the league service. *)
Definition on_league {E A} (inj : E → SettlementError) (f : LeagueDb → result E (A * LeagueDb)) : Action := λ w,
  match f (league_view w) with
  | Ok (_, db) => (set_league w db, None)
  | Err e => (w, Some (inj e))
  end.

Definition no_value {E A} (r : result E A) : result E (unit * A) := rmap (λ a, (tt, a)) r.

(** ** The subscribers *)

Definition handleScoreSquads (gameweekId : Z) : Action := λ w,
  for_each (λ squadId w,
    match calculateAndPersistSquadScore squadId gameweekId (scoring_view w) with
    | Ok (_, db) => (set_scoring w db (w_cache w), None)
    | Err e => (w, Some (ScoringFailed e))
    end) (Scoring.squads (scoring_view w)).*1 w.

Definition handleRevertFreeHits (gameweekId now : Z) : Action := λ w,
  let usages := List.filter (λ u : (string * Z) * ChipUsage, (u.1.2 =? gameweekId)
    && bool_decide (SquadService.cu_chipType u.2 = FREE_HIT)
    && bool_decide (SquadService.cu_revertedAt u.2 = None)) (SquadService.squadChipUsage (w_squads w)) in
  for_each (λ squadId w, (set_squads_of w (revertFreeHit squadId gameweekId (squads_view w) now).2, None))
    ((λ u : (string * Z) * ChipUsage, u.1.1) <$> usages) w.

(** [where: { status: ACTIVE, startGameweekId: { lte }, endGameweekId: { gte } }]. *)
Definition running_leagues (gameweekId : Z) (db : LeagueDb) : list (string * LeagueRow) :=
  List.filter (λ l, bool_decide (lg_status l.2 = ACTIVE) && (lg_startGameweekId l.2 <=? gameweekId)
    && (gameweekId <=? lg_endGameweekId l.2)) (db_leagues db).

Definition complete_league (gameweekId : Z) (l : string * LeagueRow) : Action :=
  if lg_endGameweekId l.2 =? gameweekId
  then on_league LeagueFailed (λ db, no_value (transitionStatus l.1 COMPLETED db)) else skip.

Definition handle_league (gameweekId : Z) (l : string * LeagueRow) : Action :=
  and_then
    (if bool_decide (lg_scoringType l.2 = HEAD_TO_HEAD)
     then on_league HeadToHeadFailed (settleH2HGameweek l.1 gameweekId false) else skip)
    (complete_league gameweekId l).

Definition handleSettleLeagues (gameweekId : Z) : Action := λ w,
  for_each (handle_league gameweekId) (running_leagues gameweekId (w_league w)) w.

Definition gameweek_subscribers (gameweekId now : Z) : list (Subscription World SettlementError) :=
  [{| sub_name := "scoringService.scoreSquads"; sub_handler := handleScoreSquads gameweekId |};
   {| sub_name := "squadService.revertFreeHits"; sub_handler := handleRevertFreeHits gameweekId now |};
   {| sub_name := "leagueService.settleLeagues"; sub_handler := handleSettleLeagues gameweekId |}].

(** [publishOrThrow(eventBus, GAMEWEEK_UPDATED_EVENT, ...)]. *)
Definition publish_gameweek (gameweekId now : Z) : Action := λ w,
  let '(w, summary) := publish None (gameweek_subscribers gameweekId now) w in
  match ps_failed summary with
  | [] => (w, None)
  | failed => (w, Some (DeliveryFailed (sf_handlerName <$> failed)))
  end.

(** ** The job *)

Inductive PlayoffAction : Type := NoPlayoff | GeneratePlayoff | AdvancePlayoff.

Definition resolvePlayoffAction (endGameweekId activeMemberCount gameweekId : Z) : PlayoffAction :=
  let bracketSize := computeBracketSize activeMemberCount in
  if bracketSize <? 2 then NoPlayoff
  else
    let rounds := Z.log2 bracketSize in
    let firstPlayoffGameweek := endGameweekId - rounds + 1 in
    if gameweekId =? firstPlayoffGameweek - 1 then GeneratePlayoff
    else if (firstPlayoffGameweek <=? gameweekId) && (gameweekId <=? endGameweekId) then AdvancePlayoff
    else NoPlayoff.

Definition isGameweekReadyForSettlement (finished : list bool) : bool :=
  negb (bool_decide (finished = [])) && forallb id finished.

(** Leagues with custom scoring keep their own scores. *)
Definition score_custom_league (gameweekId : Z) (l : string * LeagueRow) : Action := λ w,
  match lg_scoringConfig l.2 with
  | None => (w, None)
  | Some config =>
      for_each (λ m w,
        match calculateAndPersistLeagueScore l.1 (mb_squadId m) gameweekId
                (ScoringConfig.scoringConfigToJson config) (scoring_view w) (w_cache w) with
        | Ok (_, db, cache) => (set_scoring w db cache, None)
        | Err e => (w, Some (ScoringFailed e))
        end) (active_members (w_league w) l.1) w
  end.

(** The body of the league loop; [custom] is [league.scoringConfig !== null]. *)
Definition settle_league (sha256_byte0 : string → Z) (gameweekId : Z) (custom : bool)
    (l : string * LeagueRow) : Action :=
  and_then
    (if bool_decide (lg_scoringType l.2 = HEAD_TO_HEAD)
     then λ w,
       let action := resolvePlayoffAction (lg_endGameweekId l.2)
         (Z.of_nat (length (active_members (w_league w) l.1))) gameweekId in
       and_then
         (match action with
          | GeneratePlayoff => try_log (on_league HeadToHeadFailed (generatePlayoffBracket l.1))
          | _ => skip
          end)
         (and_then (on_league HeadToHeadFailed (settleH2HGameweek l.1 gameweekId custom))
            (match action with
             | AdvancePlayoff => try_log (on_league HeadToHeadFailed (advancePlayoffRound l.1 gameweekId))
             | _ => skip
             end)) w
     else skip)
    (and_then
      (λ w, match settleKnockoutGameweek sha256_byte0 l.1 gameweekId custom (cup_view w) with
            | Ok (_, db) => (set_cup w db, None)
            | Err e => (w, Some (CupFailed e))
            end)
      (complete_league gameweekId l)).

Definition recalculate_standings (gameweekId : Z) : Action := λ w,
  (set_league w (recalculateClassicStandings gameweekId (league_view w)).2, None).

(** [gameweek.update({ data: { isFinished: true, settledAt: new Date() } })]. *)
Definition mark_finished (gameweekId now : Z) : Action := λ w,
  let db := w_league w in
  let sdb := w_squads w in
  (set_squads_of (set_league w
    {| db_leagues := db_leagues db; db_members := db_members db; db_fixtures := db_fixtures db;
       db_invitations := db_invitations db; db_squadScores := db_squadScores db;
       db_leagueScores := db_leagueScores db;
       db_gameweeks := (λ g, if LeagueDb.gw_id g =? gameweekId
         then {| LeagueDb.gw_id := LeagueDb.gw_id g; LeagueDb.gw_fplId := LeagueDb.gw_fplId g;
                 LeagueDb.gw_deadline := LeagueDb.gw_deadline g; gw_firstKickoff := gw_firstKickoff g;
                 LeagueDb.gw_isFinished := true |} else g) <$> db_gameweeks db;
       db_squads := db_squads db |})
    {| users := users sdb; players := players sdb;
       SquadService.gameweeks := (λ g, if SquadService.gw_id g =? gameweekId
         then {| SquadService.gw_id := SquadService.gw_id g; SquadService.gw_fplId := SquadService.gw_fplId g;
                 gw_season := gw_season g; SquadService.gw_deadline := SquadService.gw_deadline g;
                 gw_isCurrent := gw_isCurrent g; SquadService.gw_isFinished := true;
                 gw_isLocked := gw_isLocked g; gw_settledAt := Some now |} else g) <$> SquadService.gameweeks sdb;
       SquadService.squads := SquadService.squads sdb; squadTransfer := squadTransfer sdb;
       SquadService.squadChipUsage := SquadService.squadChipUsage sdb;
       scoreTransferCost := scoreTransferCost sdb; squadChipCancellation := squadChipCancellation sdb |}, None).

(** The job after the statistics have been synced; match ratings and the oracle
    publication, which read these tables and write others, are left out. *)
Definition settleGameweek (sha256_byte0 : string → Z) (gameweekId now : Z) : Action := λ w,
  let leagues := running_leagues gameweekId (w_league w) in
  and_then (for_each (score_custom_league gameweekId) leagues)
    (and_then (publish_gameweek gameweekId now)
      (and_then (for_each (λ l, settle_league sha256_byte0 gameweekId
                   (bool_decide (is_Some (lg_scoringConfig l.2))) l) leagues)
        (and_then (recalculate_standings gameweekId) (mark_finished gameweekId now)))) w.

(** [where: { isLocked: true, settledAt: null }, orderBy: { id: "asc" }]; the
    fixtures' [finished] flags come from the synced fixture list. *)
Definition settleCompletedGameweeks (sha256_byte0 : string → Z) (now : Z) (fixtures : Z → list bool) : Action := λ w,
  let gameweeks := sort_by (asc SquadService.gw_id)
    (List.filter (λ g, gw_isLocked g && bool_decide (gw_settledAt g = None)) (SquadService.gameweeks (w_squads w))) in
  for_each (λ gw, if isGameweekReadyForSettlement (fixtures (SquadService.gw_id gw))
                  then settleGameweek sha256_byte0 (SquadService.gw_id gw) now else skip) gameweeks w.

(** ** Lemmas: the bus *)

Section bus_lemmas.
Context {St E : Type}.

Lemma attempt_calls tries (handler : St → St * option E) s last s' r calls :
  attempt tries handler s last = (s', r, calls) →
  (calls <= tries)%nat ∧ ((0 < tries)%nat → (0 < calls)%nat) ∧
  (r = None → last ≠ None ∨ (0 < tries)%nat → ∃ s0, handler s0 = (s', None)) ∧
  ((0 < tries)%nat → r ≠ None → calls = tries).
Proof.
  revert s last s' r calls. induction tries as [|tries IH]; intros s last s' r calls H; cbn [attempt] in H.
  - injection H as -> -> <-. split_and!; try lia; try done. intros -> [?|?]; [done|lia].
  - destruct (handler s) as [s1 [e|]] eqn:Eh.
    + destruct (attempt tries handler s1 (Some e)) as [[s2 r2] c2] eqn:Ea. injection H as <- <- <-.
      apply IH in Ea as (H1 & H2 & H3 & H4). split_and!; try lia.
      * intros Hr _. apply H3; [done|by left].
      * intros _ Hr. destruct tries as [|tries]; [lia|]. rewrite H4 by (lia || done). done.
    + injection H as <- <- <-. split_and!; try lia; try done. intros _ _. by exists s.
Qed.

Lemma publish_app max (subs1 subs2 : list (Subscription St E)) s :
  publish max (subs1 ++ subs2) s =
  (let '(s1, sum1) := publish max subs1 s in
   let '(s2, sum2) := publish max subs2 s1 in
   (s2, {| ps_delivered := ps_delivered sum1 + ps_delivered sum2;
           ps_failed := ps_failed sum1 ++ ps_failed sum2 |})).
Proof.
  unfold publish. rewrite foldl_app. destruct (foldl _ (s, _) subs1) as [s1 sum1].
  set (step := λ (acc : St * PublishSummary E) sub, _).
  assert (∀ l acc, foldl step acc l =
    (let '(s2, sum2) := foldl step (acc.1, {| ps_delivered := O; ps_failed := [] |}) l in
     (s2, {| ps_delivered := ps_delivered acc.2 + ps_delivered sum2;
             ps_failed := ps_failed acc.2 ++ ps_failed sum2 |}))) as Hl; [|apply (Hl subs2 (s1, sum1))].
  intros l. induction l as [|sub l IH] using rev_ind; intros [s0 [d f]].
  - cbn. by rewrite Nat.add_0_r, app_nil_r.
  - rewrite !foldl_app, IH. cbn [foldl fst snd].
    destruct (foldl step (s0, {| ps_delivered := 0; ps_failed := [] |}) l) as [s2 [d2 f2]].
    unfold step. cbn [fst snd ps_delivered ps_failed].
    destruct (attempt _ _ s2 None) as [[s3 [e|]] c]; cbn [ps_delivered ps_failed].
    + by rewrite app_assoc.
    + by rewrite Nat.add_succ_r.
Qed.

End bus_lemmas.

(** ** Properties: the bus *)

(** Publishing an event calls every subscriber in subscription order: what
    one does, or that it fails, never keeps the next one from running; each is
    called at most [max(1, maxAttempts)] times and is counted once, as delivered
    or as failed, and one that fails has used all its attempts. *)
Theorem publish_isolates_subscribers {St E : Type} (max : option Z) (sub : Subscription St E)
    (subs : list (Subscription St E)) (s s' : St) (summary : PublishSummary E) :
  publish max (sub :: subs) s = (s', summary) →
  let tries := Z.to_nat (Z.max 1 (default 1 max)) in
  (ps_delivered summary + length (ps_failed summary) = S (length subs))%nat ∧
  (sf_handlerName <$> ps_failed summary) `sublist_of` (sub_name <$> (sub :: subs)) ∧
  ∃ s1 r calls rest, attempt tries (sub_handler sub) s None = (s1, r, calls) ∧
    (0 < calls <= tries)%nat ∧ (r ≠ None → calls = tries) ∧
    publish max subs s1 = (s', rest) ∧
    ps_delivered summary = (ps_delivered rest + match r with None => 1 | Some _ => 0 end)%nat ∧
    sf_handlerName <$> ps_failed summary
      = match r with None => [] | Some _ => [sub_name sub] end ++ (sf_handlerName <$> ps_failed rest).
Proof.
  intros H tries.
  assert (∀ (l : list (Subscription St E)) s s' sm, publish max l s = (s', sm) →
    (ps_delivered sm + length (ps_failed sm) = length l)%nat ∧
    (sf_handlerName <$> ps_failed sm) `sublist_of` (sub_name <$> l)) as Hcount.
  { intros l. induction l as [|x l IH] using rev_ind; intros s0 s0' sm Hp.
    - injection Hp as _ <-. done.
    - rewrite publish_app in Hp. destruct (publish max l s0) as [s1 sum1] eqn:E1.
      apply IH in E1 as [H1 H2]. unfold publish in Hp. cbn [foldl fst snd] in Hp.
      destruct (attempt _ _ s1 None) as [[s2 [e|]] c]; injection Hp as _ <-;
        cbn [ps_delivered ps_failed]; rewrite ?length_app, ?fmap_app, ?app_nil_r; cbn [length app];
        (split; [lia|]); [by apply sublist_app|]. by apply sublist_inserts_r. }
  split_and!; [by apply Hcount in H as [? _]|by apply Hcount in H as [_ ?]|].
  change (sub :: subs) with ([sub] ++ subs) in H. rewrite publish_app in H.
  destruct (publish max [sub] s) as [s1 sum1] eqn:E1.
  destruct (publish max subs s1) as [s2 sum2] eqn:E2. injection H as <- <-.
  unfold publish in E1. cbn [foldl fst snd] in E1. fold tries in E1.
  destruct (attempt tries (sub_handler sub) s None) as [[s3 r] c] eqn:Ea.
  pose proof (attempt_calls _ _ _ _ _ _ _ Ea) as (A1 & A2 & _ & A4).
  assert (0 < tries)%nat as Ht by (unfold tries; lia).
  exists s3, r, c, sum2. destruct r as [e|]; injection E1 as <- <-; cbn [ps_delivered ps_failed];
    split_and!; try done; try lia; auto.
Qed.

Lemma publish_isolates_subscribers_witness :
  publish (Some 2) [{| sub_name := "bad"; sub_handler := λ n : Z, (n + 1, Some tt) |};
                    {| sub_name := "good"; sub_handler := λ n, (n + 10, None) |}] 0
    = (12, {| ps_delivered := 1; ps_failed := [{| sf_handlerName := "bad"; sf_error := tt; sf_attempts := 2 |}] |}) ∧
  ∃ rest, publish (Some 2) [{| sub_name := "good"; sub_handler := λ n : Z, (n + 10, @None unit) |}] 2
    = (12, rest).
Proof.
  split; [reflexivity|].
  destruct (publish_isolates_subscribers (Some 2) {| sub_name := "bad"; sub_handler := λ n : Z, (n + 1, Some tt) |}
    [{| sub_name := "good"; sub_handler := λ n, (n + 10, None) |}] 0 12 _ eq_refl)
    as (_ & _ & s1 & r & calls & rest & Ha & _ & _ & Hp & _).
  exists rest. injection Ha as <- _ _. exact Hp.
Defined.

(** ** Lemmas: actions *)

Lemma and_then_ok a b w w' : and_then a b w = (w', None) → ∃ w1, a w = (w1, None) ∧ b w1 = (w', None).
Proof. unfold and_then. destruct (a w) as [w1 [e|]]; [done|]. by exists w1. Qed.

Lemma for_each_inv {A} (P : World → Prop) (f : A → Action) l w w' :
  (∀ x w w', x ∈ l → P w → f x w = (w', None) → P w') → P w → for_each f l w = (w', None) → P w'.
Proof.
  revert w. induction l as [|x l IH]; intros w Hf Hw H; [by injection H as <-|].
  cbn [for_each] in H. apply and_then_ok in H as (w1 & H1 & H2).
  apply (IH w1); [intros; eapply Hf; [by right|done|done]| |done].
  eapply Hf; [by left|done|done].
Qed.

Lemma on_league_ok {E A} (inj : E → SettlementError) (f : LeagueDb → result E (A * LeagueDb)) w w' :
  on_league inj f w = (w', None) →
  ∃ a db, f (league_view w) = Ok (a, db) ∧ w' = set_league w db.
Proof. unfold on_league. destruct (f (league_view w)) as [[a db]|]; [|done]. intros [= <-]. eauto. Qed.

Lemma publish_gameweek_ok gw now w w' :
  publish_gameweek gw now w = (w', None) →
  ∃ w1 w2, handleScoreSquads gw w = (w1, None) ∧ handleRevertFreeHits gw now w1 = (w2, None) ∧
    handleSettleLeagues gw w2 = (w', None).
Proof.
  unfold publish_gameweek, publish, gameweek_subscribers. cbn [foldl fst snd].
  change (Z.to_nat (Z.max 1 (default 1 None))) with 1%nat. cbn [attempt sub_handler].
  destruct (handleScoreSquads gw w) as [w1 [e|]]; cbn [fst snd ps_delivered ps_failed].
  - destruct (handleRevertFreeHits gw now w1) as [w2 [e2|]]; cbn [fst snd ps_delivered ps_failed];
      destruct (handleSettleLeagues gw w2) as [w3 [e3|]]; done.
  - destruct (handleRevertFreeHits gw now w1) as [w2 [e2|]] eqn:E2; cbn [fst snd ps_delivered ps_failed];
      destruct (handleSettleLeagues gw w2) as [w3 [e3|]] eqn:E3; try done.
    cbn. intros [= <-]. by exists w1, w2.
Qed.

(** The first two subscribers leave the league tables and the cup alone. *)
Lemma score_squads_league gw w w' :
  handleScoreSquads gw w = (w', None) → w_league w' = w_league w ∧ w_cup w' = w_cup w.
Proof.
  unfold handleScoreSquads. intros H.
  apply (for_each_inv (λ v, w_league v = w_league w ∧ w_cup v = w_cup w)) in H; [exact H| |done].
  intros x v v' _ Hv Hx. cbn beta in Hx. destruct (calculateAndPersistSquadScore _ _ _) as [[r db]|]; [|done].
  by injection Hx as <-.
Qed.

Lemma revert_league gw now w w' :
  handleRevertFreeHits gw now w = (w', None) →
  w_league w' = w_league w ∧ w_scoring w' = w_scoring w ∧ w_cup w' = w_cup w.
Proof.
  unfold handleRevertFreeHits. intros H.
  apply (for_each_inv (λ v, w_league v = w_league w ∧ w_scoring v = w_scoring w ∧ w_cup v = w_cup w)) in H;
    [exact H| |done].
  intros x v v' _ Hv Hx. by injection Hx as <-.
Qed.

(** What of a member row the league service keeps, with its score columns. *)
Definition standing_of (m : LeagueMember) : string * string * string * MembershipStatus * Z :=
  (identity_of m, mb_totalPoints m).

Lemma fold_apply_standing l m : standing_of (foldl apply_result m l) = standing_of m ∧
  mb_rank (foldl apply_result m l) = mb_rank m.
Proof.
  revert m. induction l as [|p l IH]; intros m; [done|]. cbn [foldl].
  by rewrite (proj1 (IH _)), (proj2 (IH _)).
Qed.

Lemma assign_standing rows m : standing_of (assign rows m) = standing_of m.
Proof.
  unfold assign. revert m. induction rows as [|row rows IH]; intros m; [done|]. cbn [foldl].
  rewrite IH. by case_decide.
Qed.

(** Settling a league keeps every standing, and the ranks outside the league. *)
Lemma settle_standing leagueId gw u db n db' i m :
  settleH2HGameweek leagueId gw u db = Ok (n, db') → NoDup (mb_id <$> db_members db) →
  db_members db !! i = Some m →
  ∃ m', db_members db' !! i = Some m' ∧ standing_of m' = standing_of m ∧
    (mb_leagueId m ≠ leagueId → mb_rank m' = mb_rank m).
Proof.
  intros H Hn Hi. destruct (settle_split _ _ _ _ _ _ H) as (_ & [[_ ->]|(_ & pbm & rows & Hrows & _ & ->)]);
    [by exists m|].
  cbn [db_members with_members]. rewrite !list_lookup_fmap, Hi. cbn [fmap option_fmap option_map].
  eexists. split; [reflexivity|]. split.
  - rewrite assign_standing. apply fold_apply_standing.
  - intros Hl. rewrite assign_other; [apply fold_apply_standing|].
    rewrite fold_apply_id, Hrows, table_row_ids.
    intros (m' & Hid & Hm')%list_elem_of_fmap. apply elem_of_lfilter in Hm' as [Hm' Ha].
    apply list_elem_of_fmap in Hm' as (m0 & -> & Hm0). apply andb_true_iff in Ha as [Ha _].
    apply bool_decide_eq_true in Ha. rewrite fold_apply_id in Hid.
    apply list_elem_of_lookup in Hm0 as [j Hj].
    assert (i = j) as ->.
    { apply (NoDup_lookup (mb_id <$> db_members db) i j (mb_id m)); [done| |];
        rewrite list_lookup_fmap; [by rewrite Hi|by rewrite Hj, Hid]. }
    assert (m0 = m) as -> by congruence.
    pose proof (f_equal (λ x, x.1.1.1.2) (proj1 (fold_apply_standing
      (results (mb_id m) (finish pbm <$> List.filter (is_open leagueId gw) (db_fixtures db))) m))) as E1.
    cbn in E1. congruence.
Qed.

Lemma settle_other_tables leagueId gw u db n db' :
  settleH2HGameweek leagueId gw u db = Ok (n, db') →
  db_leagues db' = db_leagues db ∧ identity_of <$> db_members db' = identity_of <$> db_members db ∧
  db_squadScores db' = db_squadScores db.
Proof.
  intros H. destruct (settle_split _ _ _ _ _ _ H) as (_ & [[_ ->]|(_ & pbm & rows & _ & _ & ->)]); [done|].
  split_and!; try done. cbn [db_members with_members]. rewrite <- !list_fmap_compose.
  apply list_fmap_ext. intros _ m _. unfold compose. rewrite (proj1 (assign_facts _ _)). apply fold_apply_identity.
Qed.

Lemma complete_ok gw l w w' :
  complete_league gw l w = (w', None) →
  w' = w ∨ (lg_endGameweekId l.2 = gw ∧
    ∃ db, transitionStatus l.1 COMPLETED (league_view w) = Ok db ∧ w' = set_league w db).
Proof.
  unfold complete_league. destruct (Z.eqb_spec (lg_endGameweekId l.2) gw); [|by intros [= <-]; left].
  intros H. right. split; [done|]. apply on_league_ok in H as ([] & db & H & ->). unfold no_value in H.
  destruct (transitionStatus _ _ _) as [db'|]; [|done]. injection H as <-. by exists db'.
Qed.

Lemma complete_tables id db db' :
  transitionStatus id COMPLETED db = Ok db' →
  db_members db' = db_members db ∧ db_fixtures db' = db_fixtures db ∧
  (∀ k, lg_status <$> map_get k (db_leagues db')
        = if decide (k = id) then Some COMPLETED else lg_status <$> map_get k (db_leagues db)).
Proof.
  intros H. destruct (transition_ok _ _ _ _ H) as (l & Hl & [[Hs ->]|(_ & HL & Hm & _)]).
  - split_and!; try done. intros k. case_decide; [|done]. subst k. rewrite Hl. cbn. by rewrite Hs.
  - split_and!; [done| |].
    + unfold transitionStatus in H. rewrite Hl in H. cbn [or_throw rbind] in H.
      destruct (bool_decide (lg_status l = COMPLETED)); [by injection H as <-|].
      destruct (_ || _); [done|]. cbn [throw_if rbind] in H.
      change (bool_decide (COMPLETED = ACTIVE)) with false in H. cbn [andb throw_if rbind] in H.
      destruct (_ && _); [done|]. cbn [throw_if rbind] in H.
      change (bool_decide (COMPLETED = CANCELLED)) with false in H. by injection H as <-.
    + intros k. rewrite HL, map_get_set. repeat case_decide; by subst.
Qed.

Lemma advance_tables leagueId gw db r db' :
  advancePlayoffRound leagueId gw db = Ok (r, db') →
  db_members db' = db_members db ∧ db_leagues db' = db_leagues db.
Proof.
  unfold advancePlayoffRound. intros H. destruct (bool_decide _); [done|]. cbn [throw_if rbind] in H.
  destruct (existsb _ _); [done|]. cbn [throw_if rbind] in H.
  destruct (_ <$> sort_by _ _) as [|w1 [|w2 ws]]; [|by injection H as _ <-|];
    unfold replace_round in H; (destruct (insert_fixtures _ _); [|done]); by injection H as _ <-.
Qed.

Lemma generate_tables leagueId db r db' :
  generatePlayoffBracket leagueId db = Ok (r, db') →
  db_members db' = db_members db ∧ db_leagues db' = db_leagues db.
Proof.
  unfold generatePlayoffBracket. intros H. destruct (map_get _ _); [|done]. cbn [or_throw rbind] in H.
  destruct (bool_decide _); [done|]. cbn [throw_if rbind] in H.
  destruct (getH2HStandings _ _); [|done]. cbn [rbind] in H. destruct (_ <? _); [done|].
  cbn [throw_if rbind] in H. unfold replace_round in H. destruct (insert_fixtures _ _); [|done].
  by injection H as _ <-.
Qed.

(** An invariant of the league loop's body, step by step. *)
Lemma settle_league_inv (P : World → Prop) sha gw custom l w w' :
  (∀ v v', db_members (w_league v') = db_members (w_league v) →
    db_leagues (w_league v') = db_leagues (w_league v) → P v → P v') →
  (lg_scoringType l.2 = HEAD_TO_HEAD → ∀ v v',
    on_league HeadToHeadFailed (settleH2HGameweek l.1 gw custom) v = (v', None) → P v → P v') →
  (∀ v v', complete_league gw l v = (v', None) → P v → P v') →
  settle_league sha gw custom l w = (w', None) → P w → P w'.
Proof.
  intros Psame Psettle Pcomplete H Hk. unfold settle_league in H. apply and_then_ok in H as (w1 & H1 & H2).
  apply and_then_ok in H2 as (w2 & H2 & H3). apply (Pcomplete _ _ H3).
  destruct (settleKnockoutGameweek _ _ _ _ _) as [[r db]|]; [|done]. injection H2 as <-.
  apply (Psame w1); [done|done|].
  destruct (bool_decide_reflect (lg_scoringType l.2 = HEAD_TO_HEAD)) as [E|E]; [|by injection H1 as <-].
  apply and_then_ok in H1 as (v1 & G1 & G2). apply and_then_ok in G2 as (v2 & G2 & G3).
  assert (P v1) as K1.
  { destruct (resolvePlayoffAction _ _ _); try (by injection G1 as <-).
    unfold try_log, on_league in G1. injection G1 as <-.
    destruct (generatePlayoffBracket l.1 (league_view w)) as [[r' db']|] eqn:Eg; [|done]. cbn [fst].
    destruct (generate_tables _ _ _ _ Eg) as [T1 T2]. apply (Psame w); [exact T1|exact T2|exact Hk]. }
  pose proof (Psettle E _ _ G2 K1) as K2.
  destruct (resolvePlayoffAction _ _ _); try (by injection G3 as <-).
  unfold try_log, on_league in G3. injection G3 as <-.
  destruct (advancePlayoffRound l.1 gw (league_view v2)) as [[r' db']|] eqn:Eg; [|done]. cbn [fst].
  destruct (advance_tables _ _ _ _ _ Eg) as [T1 T2]. apply (Psame v2); [exact T1|exact T2|exact K2].
Qed.

(** ** Lemmas: one member through the job *)

Section member.
Context (i : nat) (m : LeagueMember) (league : LeagueRow) (gw : Z).

(** The row is as it was, and its league is the classic one. *)
Record kept (w : World) : Prop := {
  kp_ids : NoDup (mb_id <$> db_members (w_league w));
  kp_row : ∃ m', db_members (w_league w) !! i = Some m' ∧ standing_of m' = standing_of m ∧
    mb_rank m' = mb_rank m;
  kp_status : lg_status <$> map_get (mb_leagueId m) (db_leagues (w_league w)) ∈
    [Some ACTIVE; Some COMPLETED]
}.

Lemma kept_same w w' :
  db_members (w_league w') = db_members (w_league w) →
  db_leagues (w_league w') = db_leagues (w_league w) → kept w → kept w'.
Proof. intros Hm Hl []. constructor; by rewrite ?Hm, ?Hl. Qed.

Lemma kept_settle l u w w' :
  l ≠ mb_leagueId m →
  on_league HeadToHeadFailed (settleH2HGameweek l gw u) w = (w', None) → kept w → kept w'.
Proof.
  intros Hl (n & db & H & ->)%on_league_ok [Hn (m' & Hi & Hs & Hr) Hst].
  destruct (settle_other_tables _ _ _ _ _ _ H) as (HL & Hids & _).
  destruct (settle_standing _ _ _ _ _ _ i m' H Hn Hi) as (m2 & Hi2 & Hs2 & Hr2).
  constructor; cbn [w_league set_league].
  - apply (f_equal (fmap (λ x : string * string * string * MembershipStatus, x.1.1.1))) in Hids.
    rewrite <- !list_fmap_compose in Hids. change (mb_id <$> db_members db = mb_id <$> db_members (w_league w)) in Hids.
    by rewrite Hids.
  - exists m2. split_and!; [done|congruence|]. rewrite Hr2; [done|].
    pose proof (f_equal (λ x, x.1.1.1.2) Hs) as E. cbn in E. congruence.
  - by rewrite HL.
Qed.

Lemma kept_complete l w w' : complete_league gw l w = (w', None) → kept w → kept w'.
Proof.
  intros [->|(_ & db & H & ->)]%complete_ok; [done|]. intros [Hn Hr Hst].
  destruct (complete_tables _ _ _ H) as (Hm & _ & HL). constructor; cbn [w_league set_league].
  - by rewrite Hm.
  - by rewrite Hm.
  - rewrite HL. case_decide; [by right; left|done].
Qed.

(** A league of the snapshot that is settled head to head is not the member's. *)
Definition classic_snapshot (ls : list (string * LeagueRow)) : Prop :=
  ∀ l, l ∈ ls → lg_scoringType l.2 = HEAD_TO_HEAD → l.1 ≠ mb_leagueId m.

Lemma kept_handler ls w w' :
  classic_snapshot ls → for_each (handle_league gw) ls w = (w', None) → kept w → kept w'.
Proof.
  intros Hls H Hk. revert H. apply for_each_inv; [|done]. intros l v v' Hin Hv H.
  unfold handle_league in H. apply and_then_ok in H as (v1 & H1 & H2).
  eapply kept_complete; [exact H2|].
  destruct (bool_decide_reflect (lg_scoringType l.2 = HEAD_TO_HEAD)) as [E|E]; [|by injection H1 as <-].
  eapply kept_settle; [|exact H1|done]. by apply Hls.
Qed.

Lemma kept_league sha custom l w w' :
  (lg_scoringType l.2 = HEAD_TO_HEAD → l.1 ≠ mb_leagueId m) →
  settle_league sha gw custom l w = (w', None) → kept w → kept w'.
Proof.
  intros Hl. apply settle_league_inv.
  - intros v v'. apply kept_same.
  - intros E v v'. apply kept_settle. by apply Hl.
  - intros v v'. apply kept_complete.
Qed.

End member.

Lemma for_each_app {A} (f : A → Action) l1 l2 w w' :
  for_each f (l1 ++ l2) w = (w', None) ↔
  ∃ w1, for_each f l1 w = (w1, None) ∧ for_each f l2 w1 = (w', None).
Proof.
  revert w. induction l1 as [|x l1 IH]; intros w; cbn [app for_each].
  - split; [by exists w|]. by intros (w1 & [= <-] & H).
  - unfold and_then. destruct (f x w) as [w2 [e|]]; [|apply IH].
    split; [done|]. by intros (w1 & H & _).
Qed.

Lemma for_each_pres {A} (P : World → Prop) (f : A → Action) l w w' :
  for_each f l w = (w', None) → P w →
  (∀ x v v', x ∈ l → P v → f x v = (v', None) → P v') → P w'.
Proof. intros H Hw Hf. by apply (for_each_inv P f l w). Qed.

Definition completed (id : string) (w : World) : Prop :=
  lg_status <$> map_get id (db_leagues (w_league w)) = Some COMPLETED.

Lemma completed_complete id gw l w w' : complete_league gw l w = (w', None) → completed id w → completed id w'.
Proof.
  intros [->|(_ & db & H & ->)]%complete_ok Hc; [done|].
  destruct (complete_tables _ _ _ H) as (_ & _ & HL). unfold completed. cbn [w_league set_league].
  rewrite HL. by case_decide.
Qed.

Lemma completed_settle id l gw u w w' :
  on_league HeadToHeadFailed (settleH2HGameweek l gw u) w = (w', None) → completed id w → completed id w'.
Proof.
  intros (n & db & H & ->)%on_league_ok Hc. unfold completed. cbn [w_league set_league].
  by rewrite (proj1 (settle_other_tables _ _ _ _ _ _ H)).
Qed.

Lemma completed_league id sha gw custom l w w' :
  settle_league sha gw custom l w = (w', None) → completed id w → completed id w'.
Proof.
  apply settle_league_inv.
  - intros v v' _ HL. unfold completed. by rewrite HL.
  - intros _ v v'. apply completed_settle.
  - intros v v'. apply completed_complete.
Qed.

(** The league of a processed entry that ends now is completed. *)
Lemma handled_completed gw ls w w' id l :
  for_each (handle_league gw) ls w = (w', None) → (id, l) ∈ ls → lg_endGameweekId l = gw → completed id w'.
Proof.
  intros H Hin Hend. apply list_elem_of_split in Hin as (l1 & l2 & ->).
  apply for_each_app in H as (w1 & _ & H). cbn [for_each] in H.
  apply and_then_ok in H as (w2 & H & H2). unfold handle_league in H.
  apply and_then_ok in H as (v & _ & H). apply (for_each_pres _ _ _ _ _ H2).
  - unfold complete_league in H. cbn [fst snd] in H. rewrite Hend, Z.eqb_refl in H.
    apply on_league_ok in H as ([] & db & H & ->). unfold no_value in H.
    destruct (transitionStatus _ _ _) as [db'|] eqn:E; [|done]. injection H as <-.
    destruct (complete_tables _ _ _ E) as (_ & _ & HL). unfold completed. cbn [w_league set_league].
    rewrite HL. by case_decide.
  - intros x u u' _ Hu Hx. unfold handle_league in Hx. apply and_then_ok in Hx as (u1 & G1 & G2).
    apply (completed_complete _ _ _ _ _ G2).
    destruct (bool_decide _); [|by injection G1 as <-]. exact (completed_settle _ _ _ _ _ _ G1 Hu).
Qed.

Lemma custom_league gw ls w w' :
  for_each (score_custom_league gw) ls w = (w', None) → w_league w' = w_league w.
Proof.
  intros H. apply (for_each_pres (λ v, w_league v = w_league w) _ _ _ _ H); [done|].
  intros x v v' _ Hv Hx. unfold score_custom_league in Hx.
  destruct (lg_scoringConfig x.2) as [config|]; [|by injection Hx as <-].
  apply (for_each_pres (λ v, w_league v = w_league w) _ _ _ _ Hx); [done|].
  intros y u u' _ Hu Hy. cbn beta in Hy.
  destruct (calculateAndPersistLeagueScore _ _ _ _ _ _) as [[[r db] c]|]; [|done]. by injection Hy as <-.
Qed.

Lemma settle_ok_parts sha gw now w w' :
  settleGameweek sha gw now w = (w', None) →
  ∃ w1 w2 w3 w4 w5 w6,
    for_each (score_custom_league gw) (running_leagues gw (w_league w)) w = (w1, None) ∧
    handleScoreSquads gw w1 = (w2, None) ∧ handleRevertFreeHits gw now w2 = (w3, None) ∧
    handleSettleLeagues gw w3 = (w4, None) ∧
    for_each (λ l, settle_league sha gw (bool_decide (is_Some (lg_scoringConfig l.2))) l)
      (running_leagues gw (w_league w)) w4 = (w5, None) ∧
    recalculate_standings gw w5 = (w6, None) ∧ mark_finished gw now w6 = (w', None) ∧
    w_league w3 = w_league w.
Proof.
  intros (w1 & H1 & (w4 & H2 & (w5 & H5 & (w6 & H6 & H7)%and_then_ok)%and_then_ok)%and_then_ok)%and_then_ok.
  apply publish_gameweek_ok in H2 as (w2 & w3 & H2 & H3 & H4).
  exists w1, w2, w3, w4, w5, w6. split_and!; try done.
  rewrite (proj1 (revert_league _ _ _ _ H3)), (proj1 (score_squads_league _ _ _ H2)). exact (custom_league _ _ _ _ H1).
Qed.

(** The running leagues are classic where the member's league is. *)
Lemma running_classic gw db m l :
  NoDup (db_leagues db).*1 → map_get (mb_leagueId m) (db_leagues db) = Some l →
  lg_scoringType l = CLASSIC → classic_snapshot m (running_leagues gw db).
Proof.
  intros Hn Hl Hc [k x] Hin Hx Hk. apply elem_of_lfilter in Hin as [Hin _]. cbn [fst snd] in *. subst k.
  rewrite (map_get_NoDup _ _ _ Hn Hin) in Hl. congruence.
Qed.

(** ** Lemmas: one league through the subscribers *)

Definition fixtures_of (leagueId : string) (db : LeagueDb) : list LeagueFixture :=
  List.filter (λ f, bool_decide (lf_leagueId f = leagueId)) (db_fixtures db).

Definition settle_open (leagueId : string) (gw : Z) (pbm : list (string * Z)) (f : LeagueFixture) : LeagueFixture :=
  if is_open leagueId gw f then finish pbm f else f.

(** The points the subscriber settles with: the squads' global scores. *)
Definition global_points (leagueId : string) (gw : Z) (w : World) : list (string * Z) :=
  points_by_member (active_members (w_league w) leagueId)
    (gameweek_scores leagueId gw false (mb_squadId <$> active_members (w_league w) leagueId) (league_view w)).

Lemma is_open_settled leagueId gw pbm f : is_open leagueId gw (settle_open leagueId gw pbm f) = false.
Proof.
  unfold settle_open. destruct (is_open leagueId gw f) eqn:E; [|done].
  apply not_true_iff_false. by intros (_ & _ & ? & _)%is_open_facts.
Qed.

Lemma settle_open_none leagueId gw pbm l :
  List.filter (is_open leagueId gw) l = [] → settle_open leagueId gw pbm <$> l = l.
Proof.
  induction l as [|f l IH]; [done|]. cbn [List.filter fmap list_fmap]. unfold settle_open at 1.
  destruct (is_open leagueId gw f); [done|]. intros H. f_equal. by apply IH.
Qed.

Lemma is_open_of leagueId gw db :
  List.filter (is_open leagueId gw) (fixtures_of leagueId db) = List.filter (is_open leagueId gw) (db_fixtures db).
Proof.
  unfold fixtures_of. induction (db_fixtures db) as [|f l IH]; [done|]. cbn [List.filter].
  destruct (bool_decide_reflect (lf_leagueId f = leagueId)) as [E|E]; cbn [List.filter]; rewrite IH; [done|].
  destruct (is_open leagueId gw f) eqn:Ef; [|done]. by apply is_open_facts in Ef as [? _].
Qed.

Lemma active_identity leagueId db :
  identity_of <$> active_members db leagueId =
  List.filter (λ x : string * string * string * MembershipStatus,
    bool_decide (x.1.1.2 = leagueId) && bool_decide (x.2 = Member_ACTIVE)) (identity_of <$> db_members db).
Proof. unfold active_members, member_status. symmetry. by apply lfilter_fmap. Qed.

Lemma points_identity (ms : list LeagueMember) scores :
  points_by_member ms scores =
  let pointsBySquad := foldl (λ m s, map_set s.1 s.2 m) [] scores in
  foldl (λ m (x : string * string * string * MembershipStatus),
    map_set x.1.1.1 (default 0 (map_get x.1.2 pointsBySquad)) m) [] (identity_of <$> ms).
Proof.
  unfold points_by_member. cbn zeta. generalize (foldl (λ m s, map_set s.1 s.2 m) [] scores) as sc. intros sc.
  generalize (@nil (string * Z)) as acc. induction ms as [|m ms IH]; intros acc; [done|]. apply IH.
Qed.

(** It depends on who the members are and on the score table only. *)
Lemma global_points_eq leagueId gw w w' :
  identity_of <$> db_members (w_league w') = identity_of <$> db_members (w_league w) →
  w_scoring w' = w_scoring w → global_points leagueId gw w' = global_points leagueId gw w.
Proof.
  intros Hm Hs. assert (identity_of <$> active_members (w_league w') leagueId
    = identity_of <$> active_members (w_league w) leagueId) as Ha by (by rewrite !active_identity, Hm).
  unfold global_points. rewrite !points_identity, Ha. unfold gameweek_scores, league_view. rewrite Hs.
  pose proof (f_equal (fmap (λ x : string * string * string * MembershipStatus, x.1.2)) Ha) as Hq.
  rewrite <- !list_fmap_compose in Hq.
  change (mb_squadId <$> active_members (w_league w') leagueId
    = mb_squadId <$> active_members (w_league w) leagueId) in Hq. by rewrite Hq.
Qed.

Section one_league.
Context (leagueId : string) (gw : Z) (w0 : World).

Let settled_fixtures := settle_open leagueId gw (global_points leagueId gw w0) <$> fixtures_of leagueId (w_league w0).

(** The league is untouched, or settled on the global points. *)
Record on_global (done_ : bool) (w : World) : Prop := {
  og_members : identity_of <$> db_members (w_league w) = identity_of <$> db_members (w_league w0);
  og_scoring : w_scoring w = w_scoring w0;
  og_fixtures : fixtures_of leagueId (w_league w) = settled_fixtures
    ∨ (done_ = false ∧ fixtures_of leagueId (w_league w) = fixtures_of leagueId (w_league w0))
}.

Lemma on_global_same b w w' :
  db_members (w_league w') = db_members (w_league w) → db_fixtures (w_league w') = db_fixtures (w_league w) →
  w_scoring w' = w_scoring w → on_global b w → on_global b w'.
Proof.
  intros Hm Hf Hs []. constructor; unfold fixtures_of in *; by rewrite ?Hm, ?Hf, ?Hs.
Qed.

Lemma settled_none w :
  fixtures_of leagueId (w_league w) = settled_fixtures →
  List.filter (is_open leagueId gw) (db_fixtures (w_league w)) = [].
Proof.
  intros H. rewrite <- is_open_of, H. unfold settled_fixtures. clear.
  generalize (fixtures_of leagueId (w_league w0)) as l. intros l. induction l as [|f l IH]; [done|]. cbn [fmap list_fmap List.filter].
  by rewrite is_open_settled.
Qed.

Lemma settle_fixtures_of k w n db :
  settleH2HGameweek k gw false (league_view w) = Ok (n, db) →
  fixtures_of leagueId db = (if decide (k = leagueId)
    then settle_open leagueId gw (global_points leagueId gw w) <$> fixtures_of leagueId (w_league w)
    else fixtures_of leagueId (w_league w)).
Proof.
  intros H. destruct (settle_split _ _ _ _ _ _ H) as (Hn & [[-> ->]|(_ & pbm & rows & _ & Hp & ->)]).
  - case_decide; [|done]. subst k. symmetry. apply settle_open_none. rewrite is_open_of.
    symmetry in Hn. by apply length_zero_iff_nil in Hn.
  - unfold fixtures_of. cbn [db_fixtures with_members LeagueDb.with_fixtures league_view].
    rewrite (lfilter_fmap _ _ (λ f, bool_decide (lf_leagueId f = leagueId))) by (intros f; by destruct (is_open k gw f)).
    case_decide; [by subst k pbm|].
    rewrite <- (list_fmap_id (List.filter _ _)) at 2. apply list_fmap_ext. intros j f Hf.
    apply list_elem_of_lookup_2, elem_of_lfilter in Hf as [_ Hf]. apply bool_decide_eq_true in Hf.
    destruct (is_open k gw f) eqn:E; [|done]. apply is_open_facts in E as [E _]. congruence.
Qed.

Lemma on_global_handle b l w w' :
  handle_league gw l w = (w', None) → on_global b w →
  on_global (b || bool_decide (l.1 = leagueId ∧ lg_scoringType l.2 = HEAD_TO_HEAD)) w'.
Proof.
  intros (w1 & H1 & H2)%and_then_ok Hw.
  assert (on_global (b || bool_decide (l.1 = leagueId ∧ lg_scoringType l.2 = HEAD_TO_HEAD)) w1) as H.
  { destruct (bool_decide_reflect (lg_scoringType l.2 = HEAD_TO_HEAD)) as [E|E].
    2:{ injection H1 as <-. rewrite bool_decide_eq_false_2 by tauto. by rewrite orb_false_r. }
    apply on_league_ok in H1 as (n & db & H & ->). destruct Hw as [Hm Hs Hf].
    destruct (settle_other_tables _ _ _ _ _ _ H) as (_ & Hids & _).
    constructor; cbn [w_league w_scoring set_league]; [by rewrite Hids|done|].
    pose proof (settle_fixtures_of _ _ _ _ H) as Hd. case_decide as Hk.
    - left. rewrite Hd, (global_points_eq leagueId gw w0 w Hm Hs). destruct Hf as [Hf|[_ Hf]]; [|by rewrite Hf].
      rewrite Hf. apply settle_open_none. rewrite <- Hf, is_open_of. by apply settled_none.
    - rewrite bool_decide_eq_false_2 by tauto. rewrite orb_false_r, Hd. exact Hf. }
  apply complete_ok in H2 as [->|(_ & db & H2 & ->)]; [done|].
  destruct (complete_tables _ _ _ H2) as (T1 & T2 & _). by apply (on_global_same _ w1).
Qed.

Lemma on_global_all ls w' l :
  for_each (handle_league gw) ls w0 = (w', None) → (leagueId, l) ∈ ls → lg_scoringType l = HEAD_TO_HEAD →
  on_global true w'.
Proof.
  intros H Hin Hl. apply list_elem_of_split in Hin as (l1 & l2 & ->).
  apply for_each_app in H as (w1 & H1 & (w2 & H2 & H3)%and_then_ok).
  assert (on_global false w0) as G0 by (constructor; auto).
  assert (on_global false w1) as G1.
  { apply (for_each_pres (on_global false) _ _ _ _ H1 G0). intros x v v' _ Hv Hx.
    destruct (on_global_handle _ _ _ _ Hx Hv) as [A B [C|[_ C]]]; constructor; auto. }
  pose proof (on_global_handle _ _ _ _ H2 G1) as G2. rewrite bool_decide_eq_true_2 in G2 by done.
  apply (for_each_pres (on_global true) _ _ _ _ H3 G2). intros x v v' _ Hv Hx.
  exact (on_global_handle _ _ _ _ Hx Hv).
Qed.

End one_league.

(** ** Properties: the job *)

(** The final week of a classic league is not counted in the standings it
    is left with: the event subscriber completes the league before the job
    recalculates the standings of the active classic leagues, so a member's
    stored total and rank come out of a successful settlement as they went in,
    whatever the squad scored in that gameweek. *)
Theorem classic_final_week_not_counted (sha256_byte0 : string → Z) (gw now : Z) (w w' : World)
    (i : nat) (m : LeagueMember) (l : LeagueRow) :
  settleGameweek sha256_byte0 gw now w = (w', None) →
  NoDup (db_leagues (w_league w)).*1 → NoDup (mb_id <$> db_members (w_league w)) →
  db_members (w_league w) !! i = Some m → map_get (mb_leagueId m) (db_leagues (w_league w)) = Some l →
  lg_scoringType l = CLASSIC → lg_status l = ACTIVE →
  lg_startGameweekId l ≤ gw → lg_endGameweekId l = gw →
  lg_status <$> map_get (mb_leagueId m) (db_leagues (w_league w')) = Some COMPLETED ∧
  ∃ m', db_members (w_league w') !! i = Some m' ∧ mb_id m' = mb_id m ∧
    mb_totalPoints m' = mb_totalPoints m ∧ mb_rank m' = mb_rank m.
Proof.
  intros H Hnl Hnm Hi Hl Hc Hs Hstart Hend.
  destruct (settle_ok_parts _ _ _ _ _ H) as (w1 & w2 & w3 & w4 & w5 & w6 & _ & _ & _ & H4 & H5 & H6 & H7 & E3).
  pose proof (running_classic gw _ _ _ Hnl Hl Hc) as Hsnap.
  assert (kept i m w3) as K3.
  { constructor; rewrite E3; [done|by exists m|]. rewrite Hl. cbn. rewrite Hs. by left. }
  unfold handleSettleLeagues in H4. rewrite E3 in H4.
  assert (kept i m w4) as K4 by (by eapply kept_handler).
  assert (completed (mb_leagueId m) w4) as C4.
  { apply (handled_completed _ _ _ _ _ l H4); [|done]. apply elem_of_lfilter. split; [by apply map_get_elem|].
    cbn [snd]. rewrite Hs, bool_decide_eq_true_2 by done. cbn [andb]. apply andb_true_iff. lia. }
  assert (kept i m w5 ∧ completed (mb_leagueId m) w5) as [K5 C5].
  { apply (for_each_pres (λ v, kept i m v ∧ completed (mb_leagueId m) v) _ _ _ _ H5); [done|].
    intros x v v' Hx [Kv Cv] Hv. split; [|by eapply completed_league].
    eapply kept_league; [|exact Hv|exact Kv]. intros Ex. by apply Hsnap. }
  injection H6 as <-. injection H7 as <-. cbn [w_league set_squads_of set_league db_leagues db_members].
  split; [exact C5|]. destruct K5 as [Kn (m' & Hi' & Hst & Hr) _].
  exists m'. split_and!; [|by injection Hst|by injection Hst|done].
  apply (recalculate_other gw (league_view w5) i m' Kn Hi').
  unfold is_classic. change (db_leagues (league_view w5)) with (db_leagues (w_league w5)).
  replace (mb_leagueId m') with (mb_leagueId m) by (by injection Hst). unfold completed in C5.
  destruct (map_get (mb_leagueId m) (db_leagues (w_league w5))) as [l5|]; [|by rewrite andb_false_r]. cbn in C5.
  rewrite (bool_decide_eq_false_2 (lg_status l5 = ACTIVE)); [by rewrite !andb_false_r|]. congruence.
Qed.

(** A head to head league with custom scoring is settled on the global
    scores all the same: once the event has been delivered, every match of the
    gameweek is finished with the members' global points and the job's own
    settlement, the one that asks for the league's scores, finds no open match
    and changes nothing. *)
Theorem h2h_custom_scoring_ignored (gw now : Z) (w w' : World) (leagueId : string) (l : LeagueRow) :
  publish_gameweek gw now w = (w', None) →
  (leagueId, l) ∈ running_leagues gw (w_league w) → lg_scoringType l = HEAD_TO_HEAD →
  let pbm := points_by_member (active_members (w_league w') leagueId)
    (gameweek_scores leagueId gw false (mb_squadId <$> active_members (w_league w') leagueId) (league_view w')) in
  List.filter (λ f, bool_decide (lf_leagueId f = leagueId)) (db_fixtures (w_league w'))
    = (λ f, if is_open leagueId gw f then finish pbm f else f) <$>
      List.filter (λ f, bool_decide (lf_leagueId f = leagueId)) (db_fixtures (w_league w)) ∧
  ∀ useLeagueScoring, settleH2HGameweek leagueId gw useLeagueScoring (league_view w') = Ok (O, league_view w').
Proof.
  intros (w1 & w2 & H1 & H2 & H3)%publish_gameweek_ok Hin Hl pbm.
  assert (w_league w2 = w_league w) as E2.
  { rewrite (proj1 (revert_league _ _ _ _ H2)). exact (proj1 (score_squads_league _ _ _ H1)). }
  unfold handleSettleLeagues in H3. rewrite E2 in H3.
  destruct (on_global_all leagueId gw w2 _ _ _ H3 Hin Hl) as [Hm Hs [Hf|[? _]]]; [|done].
  split.
  - change pbm with (global_points leagueId gw w'). rewrite (global_points_eq leagueId gw w2 w' Hm Hs).
    rewrite <- E2. exact Hf.
  - intros u. unfold settleH2HGameweek. change (db_fixtures (league_view w')) with (db_fixtures (w_league w')).
    by rewrite (settled_none leagueId gw w2 w' Hf).
Qed.

(** ** A sample world, for the witnesses *)

(** Three squads of one forward, 5, 3 and 8 points in gameweek 1; a head to head
    league with custom scoring, gameweeks 1 to 3, and a classic league that ends
    in gameweek 1. *)
Definition sample_squad (id : Z) : Squad :=
  {| sq_userId := "u"; sq_name := [65; 66; 67]; sq_budgetRemaining := 20; sq_freeTransfers := 1;
     sq_freeTransfersGameweekId := None; sq_updatedAt := 0;
     SquadService.sq_players := [{| sp_playerId := id; sp_isCaptain := false; sp_isViceCaptain := false;
       sp_isStarter := true; sp_positionOrder := 1; sp_purchasePrice := 50 |}] |}.

Definition sample_league (scoring : ScoringType) (config : option LeagueScoringConfig) (last : Z) : LeagueRow :=
  {| lg_name := []; lg_creatorId := "a"; lg_inviteCode := None; lg_maxMembers := 20; lg_minMembers := 2;
     lg_currentMembers := 3; lg_entryFee := 0; lg_prizePool := 0; lg_status := ACTIVE;
     lg_scoringType := scoring; lg_scoringConfig := config; lg_payoutPreset := Prize.Standard;
     lg_payoutSplitsBps := []; lg_isPrivate := false; lg_buyIn := None;
     lg_startGameweekId := 1; lg_endGameweekId := last |}.

Definition sample_classic_member : LeagueMember :=
  {| mb_id := "x"; mb_leagueId := "C"; mb_userId := "a"; mb_squadId := "a"; mb_status := Member_ACTIVE;
     mb_paymentStatus := PAYMENT_CONFIRMED; mb_hasPaid := true; mb_joinedAt := 1; mb_rank := None;
     mb_totalPoints := 0; mb_matchesWon := 0; mb_matchesDrawn := 0; mb_matchesLost := 0;
     mb_pointsFor := 0; mb_pointsAgainst := 0; mb_h2hPoints := 0 |}.

Definition sample_world : World :=
  {| w_squads := {| users := ["u"];
       players := (λ id, {| pl_id := id; pl_teamId := id; pl_position := FWD; pl_price := 50 |}) <$> [1; 2; 3];
       SquadService.gameweeks := []; SquadService.squads := [("a", sample_squad 1); ("b", sample_squad 2); ("c", sample_squad 3)];
       squadTransfer := []; SquadService.squadChipUsage := []; scoreTransferCost := []; squadChipCancellation := [] |};
     w_scoring := {| Scoring.squads := [];
       Scoring.playerGameweekStats := (λ s : Z * Z, {| sr_playerId := s.1; sr_gameweekId := 1;
         sr_stats := plain_stats 90 s.2 |}) <$> [(1, 5); (2, 3); (3, 8)];
       Scoring.squadChipUsage := []; Scoring.squadGameweekScore := []; Scoring.leagueGameweekScore := [] |};
     w_cache := [];
     w_league := {| db_leagues := [("H", sample_league HEAD_TO_HEAD (Some ALL_ATTACK) 3); ("C", sample_league CLASSIC None 1)];
       db_members := sample_classic_member :: db_members sample_h2h_db; db_fixtures := db_fixtures sample_h2h_db;
       db_invitations := []; db_squadScores := []; db_leagueScores := []; db_gameweeks := []; db_squads := [] |};
     w_cup := {| leagues := []; leagueMember := []; leagueFixture := []; Tournament.squadGameweekScore := [];
       Tournament.leagueGameweekScore := []; squadStarters := []; Tournament.playerGameweekStats := [] |} |}.

(** The squad scored 5 points in the league's only week; its standing is 0. *)
Lemma classic_final_week_not_counted_witness :
  let '(w', r) := settleGameweek (λ _, 0) 1 99 sample_world in
  r = None ∧ gs_points <$> map_get ("a", 1) (Scoring.squadGameweekScore (w_scoring w')) = Some 5 ∧
  ∃ m', db_members (w_league w') !! 0%nat = Some m' ∧ mb_id m' = "x" ∧ mb_totalPoints m' = 0 ∧ mb_rank m' = None.
Proof.
  assert ((settleGameweek (λ _, 0) 1 99 sample_world).2 = None) as Hr by (vm_compute; reflexivity).
  assert (gs_points <$> map_get ("a", 1) (Scoring.squadGameweekScore (w_scoring
    (settleGameweek (λ _, 0) 1 99 sample_world).1)) = Some 5) as Hs by (vm_compute; reflexivity).
  destruct (settleGameweek (λ _, 0) 1 99 sample_world) as [w' r] eqn:E.
  cbn [fst snd] in Hr, Hs. subst r. split; [reflexivity|]. split; [exact Hs|].
  refine (proj2 (classic_final_week_not_counted (λ _, 0) 1 99 sample_world w' 0 sample_classic_member
    (sample_league CLASSIC None 1) E _ _ eq_refl eq_refl eq_refl eq_refl _ eq_refl));
    [apply (bool_decide_unpack _); vm_compute; exact I|apply (bool_decide_unpack _); vm_compute; exact I|].
  apply Z.leb_le. reflexivity.
Defined.

Lemma h2h_custom_scoring_ignored_witness :
  let '(w', r) := publish_gameweek 1 99 sample_world in
  r = None ∧ settleH2HGameweek "H" 1 true (league_view w') = Ok (O, league_view w') ∧
  (λ m, (mb_id m, mb_pointsFor m)) <$> active_members (w_league w') "H" = [("a", 5); ("b", 3); ("c", 8)].
Proof.
  assert ((publish_gameweek 1 99 sample_world).2 = None) as Hr by (vm_compute; reflexivity).
  assert ((λ m, (mb_id m, mb_pointsFor m)) <$> active_members (w_league (publish_gameweek 1 99 sample_world).1) "H"
    = [("a", 5); ("b", 3); ("c", 8)]) as Hs by (vm_compute; reflexivity).
  destruct (publish_gameweek 1 99 sample_world) as [w' r] eqn:E.
  cbn [fst snd] in Hr, Hs. subst r. split; [reflexivity|]. split; [|exact Hs].
  apply (h2h_custom_scoring_ignored 1 99 sample_world w' "H" (sample_league HEAD_TO_HEAD (Some ALL_ATTACK) 3) E);
    [|reflexivity].
  vm_compute. left.
Defined.
