(* ===== verification/TxCoordinator.v ===== *)
(** * Watching submitted transactions:
      [backend/src/services/financial/transactionCoordinatorService.ts]

    The table [coordinated_transactions] and the poller that moves each row
    from PENDING to its final status.  Rows are never deleted, so a row is
    named by its position.  What [getTransaction] answers is an argument of a
    poll.  The instance whose conditional update made a row final announces the
    change afterwards - to the notification hub, the webhooks, the event bus and
    the per-kind hooks, as one entry of a log - unless its process dies first. *)

From Stdlib Require Import Ascii String.
From S2P Require Import Prelude Text.

Inductive CoordinatedTransactionStatus : Type := Tx_PENDING | Tx_SUCCESS | Tx_FAILED | Tx_DROPPED.

#[export] Instance CoordinatedTransactionStatus_eq_dec : EqDecision CoordinatedTransactionStatus.
Proof. solve_decision. Defined.

(** ** Transaction hashes *)

(** [txHash.trim().toLowerCase()], on ASCII text. *)
Definition normalize_hash (h : string) : list ascii :=
  lower_char <$> trim_text (String.list_ascii_of_string h).

(** [/^[a-f0-9]{64}$/]. *)
Definition TX_HASH_PATTERN (h : list ascii) : bool :=
  (length h =? 64)%nat && forallb is_hex_lower h.

(** [StellarService.isValidTransactionHash]. *)
Definition isValidTransactionHash (h : string) : bool :=
  (String.length h =? 64)%nat && forallb is_hex (String.list_ascii_of_string h).

Section coordinator.
(** The metadata column, and what the fee-bump service makes of it for a row
    that is stuck (unchanged when there is nothing to bump). *)
Context {Meta : Type}.

Record CoordinatedTransaction : Type := {
  ct_settlementKey : option string;
  ct_txHash : list ascii;
  ct_kind : string;
  ct_status : CoordinatedTransactionStatus;
  ct_userId : option string;
  ct_leagueId : option string;
  ct_transactionId : option nat;
  ct_attempts : Z;
  ct_ledgerSeq : option Z;
  ct_lastError : option string;
  ct_metadata : option Meta;
  ct_submittedAt : Z;
  ct_nextPollAt : Z;
  ct_lastPolledAt : option Z;
  ct_finalizedAt : option Z
}.

Record TrackTransactionInput : Type := {
  ti_txHash : string;
  ti_kind : string;
  ti_userId : option string;
  ti_leagueId : option string;
  ti_transactionId : option nat;
  ti_metadata : option Meta;
  ti_submittedAt : option Z
}.

Inductive CoordinatorError : Type := BadTransactionHash | KindRequired.

Definition pending_row (input : TrackTransactionInput) (hash : list ascii) (submittedAt : Z) : CoordinatedTransaction :=
  {| ct_settlementKey := None; ct_txHash := hash; ct_kind := ti_kind input; ct_status := Tx_PENDING;
     ct_userId := ti_userId input; ct_leagueId := ti_leagueId input;
     ct_transactionId := ti_transactionId input; ct_attempts := 0; ct_ledgerSeq := None;
     ct_lastError := None; ct_metadata := ti_metadata input; ct_submittedAt := submittedAt;
     ct_nextPollAt := submittedAt; ct_lastPolledAt := None; ct_finalizedAt := None |}.

(** [upsert] on the unique hash with an empty update. *)
Definition track (input : TrackTransactionInput) (now : Z) (rows : list CoordinatedTransaction) :
    result CoordinatorError (list CoordinatedTransaction) :=
  let txHash := normalize_hash (ti_txHash input) in
  throw_if (negb (TX_HASH_PATTERN txHash)) BadTransactionHash ;;;
  throw_if (bool_decide (ti_kind input = "")) KindRequired ;;;
  let submittedAt := default now (ti_submittedAt input) in
  Ok (if existsb (λ r, bool_decide (ct_txHash r = txHash)) rows then rows
      else rows ++ [pending_row input txHash submittedAt]).

(** ** Polling *)

(** [calculateBackoffDelay] of [webhookDispatcher.ts] without jitter. *)
Definition calculateBackoffDelay (attempt initialDelayMs maxDelayMs : Z) : Z :=
  let baseDelay := initialDelayMs * 2 ^ Z.max 0 (attempt - 1) in
  Z.min baseDelay maxDelayMs.

Record CoordinatorOptions : Type := {
  co_initialDelayMs : Z;
  co_maxDelayMs : Z;
  co_maxPendingMs : Z;
  co_batchSize : nat;
  co_bump : CoordinatedTransaction → Z → option Meta
}.

(** The answer of [getTransaction], or the error it threw. *)
Inductive RpcAnswer : Type :=
| RpcSuccess (ledger : option Z)
| RpcFailed (ledger : option Z) (detail : string)
| RpcNotFound
| RpcError (message : string).

Record TransactionStatusChange : Type := {
  sc_txHash : list ascii;
  sc_kind : string;
  sc_status : CoordinatedTransactionStatus;
  sc_previousStatus : CoordinatedTransactionStatus;
  sc_userId : option string;
  sc_leagueId : option string;
  sc_transactionId : option nat;
  sc_ledgerSeq : option Z;
  sc_attempts : Z;
  sc_error : option string;
  sc_finalizedAt : Z
}.

Definition is_pending (r : CoordinatedTransaction) : bool := bool_decide (ct_status r = Tx_PENDING).

(** [updateMany({ where: { id, status: PENDING }, data })]: the count and the rows. *)
Definition update_pending (id : nat) (f : CoordinatedTransaction → CoordinatedTransaction)
    (rows : list CoordinatedTransaction) : nat * list CoordinatedTransaction :=
  match rows !! id with
  | Some r => if is_pending r then (1%nat, <[id := f r]> rows) else (O, rows)
  | None => (O, rows)
  end.

Definition finalized (status : CoordinatedTransactionStatus) (ledgerSeq : option Z) (error : option string)
    (attempts now : Z) (r : CoordinatedTransaction) : CoordinatedTransaction :=
  {| ct_settlementKey := ct_settlementKey r; ct_txHash := ct_txHash r; ct_kind := ct_kind r;
     ct_status := status; ct_userId := ct_userId r; ct_leagueId := ct_leagueId r;
     ct_transactionId := ct_transactionId r; ct_attempts := attempts; ct_ledgerSeq := ledgerSeq;
     ct_lastError := error; ct_metadata := ct_metadata r; ct_submittedAt := ct_submittedAt r;
     ct_nextPollAt := ct_nextPollAt r; ct_lastPolledAt := Some now; ct_finalizedAt := Some now |}.

Definition change_of (record : CoordinatedTransaction) (status : CoordinatedTransactionStatus)
    (ledgerSeq : option Z) (error : option string) (attempts now : Z) : TransactionStatusChange :=
  {| sc_txHash := ct_txHash record; sc_kind := ct_kind record; sc_status := status;
     sc_previousStatus := ct_status record; sc_userId := ct_userId record;
     sc_leagueId := ct_leagueId record; sc_transactionId := ct_transactionId record;
     sc_ledgerSeq := ledgerSeq; sc_attempts := attempts; sc_error := error; sc_finalizedAt := now |}.

(** What the database part of a poll leaves: the status it answers, the change to
    be announced if this poll made the row final, and the rows. *)
Record Polled : Type := {
  po_status : CoordinatedTransactionStatus;
  po_change : option TransactionStatusChange;
  po_rows : list CoordinatedTransaction
}.

(** [record] is the copy the poll read, [id] its row, which may have moved on.
    [emit] comes after the update: see [runPoll] and the steps below. *)
Definition finalize (id : nat) (record : CoordinatedTransaction) (now : Z)
    (status : CoordinatedTransactionStatus) (ledgerSeq : option Z) (error : option string)
    (rows : list CoordinatedTransaction) : Polled :=
  let attempts := ct_attempts record + 1 in
  match update_pending id (finalized status ledgerSeq error attempts now) rows with
  | (O, rows) => {| po_status := default status (ct_status <$> rows !! id); po_change := None; po_rows := rows |}
  | (S _, rows) => {| po_status := status; po_change := Some (change_of record status ledgerSeq error attempts now);
                      po_rows := rows |}
  end.

Definition polled_again (attempts now : Z) (error : option string) (metadata : option Meta) (nextPollAt : Z)
    (r : CoordinatedTransaction) : CoordinatedTransaction :=
  {| ct_settlementKey := ct_settlementKey r; ct_txHash := ct_txHash r; ct_kind := ct_kind r;
     ct_status := ct_status r; ct_userId := ct_userId r; ct_leagueId := ct_leagueId r;
     ct_transactionId := ct_transactionId r; ct_attempts := attempts; ct_ledgerSeq := ct_ledgerSeq r;
     ct_lastError := error; ct_metadata := metadata; ct_submittedAt := ct_submittedAt r;
     ct_nextPollAt := nextPollAt; ct_lastPolledAt := Some now; ct_finalizedAt := ct_finalizedAt r |}.

Definition handleStillPending (opts : CoordinatorOptions) (id : nat) (record : CoordinatedTransaction) (now : Z)
    (error : option string) (rows : list CoordinatedTransaction) : Polled :=
  let pendingForMs := now - ct_submittedAt record in
  if (co_maxPendingMs opts <=? pendingForMs) && bool_decide (error = None)
  then finalize id record now Tx_DROPPED None (Some "Transaction not found on the network") rows
  else
    let attempts := ct_attempts record + 1 in
    let delay := calculateBackoffDelay attempts (co_initialDelayMs opts) (co_maxDelayMs opts) in
    let meta := co_bump opts record pendingForMs in
    {| po_status := Tx_PENDING; po_change := None;
       po_rows := (update_pending id (polled_again attempts now error meta (now + delay)) rows).2 |}.

Definition pollOne (opts : CoordinatorOptions) (id : nat) (record : CoordinatedTransaction) (now : Z)
    (response : RpcAnswer) (rows : list CoordinatedTransaction) : Polled :=
  match response with
  | RpcError message => handleStillPending opts id record now (Some message) rows
  | RpcSuccess ledger => finalize id record now Tx_SUCCESS ledger None rows
  | RpcFailed ledger detail => finalize id record now Tx_FAILED ledger (Some detail) rows
  | RpcNotFound => handleStillPending opts id record now None rows
  end.

Record PollSummary : Type := {
  pm_checked : nat;
  pm_succeeded : nat;
  pm_failed : nat;
  pm_dropped : nat;
  pm_stillPending : nat
}.

Definition count_status (status : CoordinatedTransactionStatus) (s : PollSummary) : PollSummary :=
  {| pm_checked := S (pm_checked s);
     pm_succeeded := pm_succeeded s + (if decide (status = Tx_SUCCESS) then 1 else 0);
     pm_failed := pm_failed s + (if decide (status = Tx_FAILED) then 1 else 0);
     pm_dropped := pm_dropped s + (if decide (status = Tx_DROPPED) then 1 else 0);
     pm_stillPending := pm_stillPending s + (if decide (status = Tx_PENDING) then 1 else 0) |}.

(** [where: { status: PENDING, nextPollAt: { lte: now } }, orderBy: { nextPollAt: "asc" }, take]. *)
Definition due (opts : CoordinatorOptions) (now : Z) (rows : list CoordinatedTransaction) :
    list (nat * CoordinatedTransaction) :=
  take (co_batchSize opts) (sort_by (asc (λ x, ct_nextPollAt x.2))
    (List.filter (λ x, is_pending x.2 && (ct_nextPollAt x.2 <=? now)) (imap pair rows))).

(** One tick that nothing interrupts: the summary, the rows and the changes
    announced, each before the next poll; [answers] and [clock] give the reply and
    the time of each poll. *)
Definition runPoll (opts : CoordinatorOptions) (now : Z) (clock : nat → Z) (answers : list ascii → RpcAnswer)
    (rows : list CoordinatedTransaction) :
    PollSummary * list CoordinatedTransaction * list (nat * TransactionStatusChange) :=
  foldl (λ '(summary, rows, emitted) x,
    let polled := pollOne opts x.1 x.2 (clock x.1) (answers (ct_txHash x.2)) rows in
    (count_status (po_status polled) summary, po_rows polled,
     emitted ++ match po_change polled with Some change => [(x.1, change)] | None => [] end))
    ({| pm_checked := 0; pm_succeeded := 0; pm_failed := 0; pm_dropped := 0; pm_stillPending := 0 |}, rows, [])
    (due opts now rows).

(** ** Several instances at work *)

(** The rows; the changes an instance has decided and not announced yet; those
    announced; and those whose instance died before it could. *)
Record CoordinatorState : Type := {
  cs_rows : list CoordinatedTransaction;
  cs_deciding : list (nat * TransactionStatusChange);
  cs_emitted : list (nat * TransactionStatusChange);
  cs_lost : list (nat * TransactionStatusChange)
}.

(** What never changes in a row. *)
Definition row_identity (r : CoordinatedTransaction) : option string * list ascii * string * option string * option string :=
  (ct_settlementKey r, ct_txHash r, ct_kind r, ct_userId r, ct_leagueId r).

(** An instance polls with a copy [record] of its row that it read at some earlier
    moment, so nothing but its identity is assumed of it; steps of different
    instances interleave freely, and an instance may die between the update and
    the announcement.  A settlement ([FinancialService]) adds rows under its own
    key and sets them to SUCCESS when it is booked, whatever they were, without
    announcing it. *)
Inductive coordinator_step (opts : CoordinatorOptions) : CoordinatorState → CoordinatorState → Prop :=
| step_track input now rows st :
    track input now (cs_rows st) = Ok rows →
    coordinator_step opts st
      {| cs_rows := rows; cs_deciding := cs_deciding st; cs_emitted := cs_emitted st; cs_lost := cs_lost st |}
| step_poll id record r now response st :
    cs_rows st !! id = Some r → row_identity record = row_identity r →
    let polled := pollOne opts id record now response (cs_rows st) in
    coordinator_step opts st
      {| cs_rows := po_rows polled;
         cs_deciding := cs_deciding st ++ match po_change polled with Some change => [(id, change)] | None => [] end;
         cs_emitted := cs_emitted st; cs_lost := cs_lost st |}
| step_emit before change after st :
    cs_deciding st = before ++ change :: after →
    coordinator_step opts st
      {| cs_rows := cs_rows st; cs_deciding := before ++ after;
         cs_emitted := cs_emitted st ++ [change]; cs_lost := cs_lost st |}
| step_crash before change after st :
    cs_deciding st = before ++ change :: after →
    coordinator_step opts st
      {| cs_rows := cs_rows st; cs_deciding := before ++ after;
         cs_emitted := cs_emitted st; cs_lost := cs_lost st ++ [change] |}
| step_journal r st :
    ct_status r = Tx_PENDING → is_Some (ct_settlementKey r) → ct_txHash r ∉ ct_txHash <$> cs_rows st →
    coordinator_step opts st
      {| cs_rows := cs_rows st ++ [r]; cs_deciding := cs_deciding st; cs_emitted := cs_emitted st; cs_lost := cs_lost st |}
| step_booked id r r' st :
    cs_rows st !! id = Some r → is_Some (ct_settlementKey r) → row_identity r' = row_identity r → ct_status r' = Tx_SUCCESS →
    coordinator_step opts st
      {| cs_rows := <[id := r']> (cs_rows st); cs_deciding := cs_deciding st; cs_emitted := cs_emitted st;
         cs_lost := cs_lost st |}.

(** ** Lemmas *)

Lemma update_pending_cases id f rows n rows' :
  update_pending id f rows = (n, rows') →
  (n = O ∧ rows' = rows ∧ ∀ r, rows !! id = Some r → is_pending r = false) ∨
  (n = 1%nat ∧ ∃ r, rows !! id = Some r ∧ ct_status r = Tx_PENDING ∧ rows' = <[id := f r]> rows).
Proof.
  unfold update_pending. destruct (rows !! id) as [r|] eqn:E.
  - destruct (is_pending r) eqn:Ep; intros [= <- <-]; [right|left].
    + split; [done|]. exists r. by apply bool_decide_eq_true in Ep.
    + split_and!; [done|done|]. by intros r' [= <-].
  - intros [= <- <-]. by left.
Qed.

(** Everything an instance has decided. *)
Definition decided (st : CoordinatorState) : list (nat * TransactionStatusChange) :=
  cs_deciding st ++ cs_emitted st ++ cs_lost st.

(** A change describes the decision on a row. *)
Definition describes (change : TransactionStatusChange) (r : CoordinatedTransaction) : Prop :=
  sc_txHash change = ct_txHash r ∧ sc_kind change = ct_kind r ∧ sc_userId change = ct_userId r ∧
  sc_leagueId change = ct_leagueId r ∧ sc_status change ≠ Tx_PENDING ∧
  (sc_status change = ct_status r ∨ is_Some (ct_settlementKey r) ∧ ct_status r = Tx_SUCCESS).

(** What holds of the decisions and the rows. *)
Record decisions_ok (st : CoordinatorState) : Prop := {
  do_hashes : NoDup (ct_txHash <$> cs_rows st);
  do_once : NoDup (decided st).*1;
  do_describes : ∀ id change, (id, change) ∈ decided st → ∃ r, cs_rows st !! id = Some r ∧ describes change r;
  do_final : ∀ id r, cs_rows st !! id = Some r → ct_status r ≠ Tx_PENDING →
    id ∈ (decided st).*1 ∨ is_Some (ct_settlementKey r) ∧ ct_status r = Tx_SUCCESS
}.

Lemma update_hashes id (r r' : CoordinatedTransaction) (rows : list CoordinatedTransaction) :
  rows !! id = Some r → row_identity r' = row_identity r → ct_txHash <$> <[id := r']> rows = ct_txHash <$> rows.
Proof.
  intros Hr [= _ Hf _ _ _]. rewrite list_fmap_insert, Hf. apply list_insert_id. by rewrite list_lookup_fmap, Hr.
Qed.

(** A poll leaves the rows, moves a pending row on, or makes it final and says so. *)
Lemma poll_cases opts id record now response rows :
  let polled := pollOne opts id record now response rows in
  (po_rows polled = rows ∧ po_change polled = None) ∨
  ∃ r r', rows !! id = Some r ∧ ct_status r = Tx_PENDING ∧ po_rows polled = <[id := r']> rows ∧ row_identity r' = row_identity r ∧
    ((ct_status r' = Tx_PENDING ∧ po_change polled = None) ∨
     (ct_status r' ≠ Tx_PENDING ∧ ∃ change, po_change polled = Some change ∧ sc_status change = ct_status r' ∧
        sc_txHash change = ct_txHash record ∧ sc_kind change = ct_kind record ∧
        sc_userId change = ct_userId record ∧ sc_leagueId change = ct_leagueId record)).
Proof.
  assert (∀ status ledger error, status ≠ Tx_PENDING →
    let polled := finalize id record now status ledger error rows in
    (po_rows polled = rows ∧ po_change polled = None) ∨
    ∃ r r', rows !! id = Some r ∧ ct_status r = Tx_PENDING ∧ po_rows polled = <[id := r']> rows ∧ row_identity r' = row_identity r ∧
      ((ct_status r' = Tx_PENDING ∧ po_change polled = None) ∨
       (ct_status r' ≠ Tx_PENDING ∧ ∃ change, po_change polled = Some change ∧ sc_status change = ct_status r' ∧
          sc_txHash change = ct_txHash record ∧ sc_kind change = ct_kind record ∧
          sc_userId change = ct_userId record ∧ sc_leagueId change = ct_leagueId record))) as Hfin.
  { intros status ledger error Hs. unfold finalize. destruct (update_pending _ _ _) as [n rows'] eqn:E.
    apply update_pending_cases in E as [(-> & -> & _)|(-> & r & Hr & Hp & ->)]; [by left|right].
    exists r. eexists. split_and!; [done|done|reflexivity|done|]. right. split; [done|]. by eexists. }
  assert (∀ error, let polled := handleStillPending opts id record now error rows in
    (po_rows polled = rows ∧ po_change polled = None) ∨
    ∃ r r', rows !! id = Some r ∧ ct_status r = Tx_PENDING ∧ po_rows polled = <[id := r']> rows ∧ row_identity r' = row_identity r ∧
      ((ct_status r' = Tx_PENDING ∧ po_change polled = None) ∨
       (ct_status r' ≠ Tx_PENDING ∧ ∃ change, po_change polled = Some change ∧ sc_status change = ct_status r' ∧
          sc_txHash change = ct_txHash record ∧ sc_kind change = ct_kind record ∧
          sc_userId change = ct_userId record ∧ sc_leagueId change = ct_leagueId record))) as Hstill.
  { intros error. unfold handleStillPending. destruct (_ && _); [by apply Hfin|]. cbn [po_rows po_change].
    destruct (update_pending _ _ _) as [n rows'] eqn:E.
    apply update_pending_cases in E as [(-> & -> & _)|(-> & r & Hr & Hp & ->)]; [by left|right].
    exists r. eexists. split_and!; [done|done|reflexivity|done|]. by left. }
  destruct response; cbn [pollOne]; first [by apply Hfin|apply Hstill].
Qed.

(** One row replaced by a version of itself. *)
Lemma replaced_ok st id r r' new deciding' emitted' lost' :
  decisions_ok st → cs_rows st !! id = Some r → row_identity r' = row_identity r →
  let st' := {| cs_rows := <[id := r']> (cs_rows st); cs_deciding := deciding'; cs_emitted := emitted'; cs_lost := lost' |} in
  decided st' ≡ₚ decided st ++ new →
  (∀ change, (id, change) ∈ decided st → describes change r') →
  (new = [] ∧ (ct_status r' = Tx_PENDING ∨ is_Some (ct_settlementKey r') ∧ ct_status r' = Tx_SUCCESS) ∨
   id ∉ (decided st).*1 ∧ ∃ change, new = [(id, change)] ∧ describes change r') →
  decisions_ok st'.
Proof.
  intros [H1 H2 H3 H4] Hr Hi st' Hd Hold Hnew.
  assert (length (cs_rows st) = length (cs_rows st')) as Hlen by (cbn; by rewrite length_insert).
  constructor.
  - cbn [cs_rows st']. by rewrite (update_hashes _ r r').
  - rewrite Hd, fmap_app. destruct Hnew as [[-> _]|(Hn & change & -> & _)]; [by rewrite app_nil_r|]. by apply NoDup_snoc.
  - intros i change. rewrite Hd, elem_of_app. intros Hin.
    assert ((i, change) ∈ decided st ∨ i = id ∧ describes change r') as [Hin'|[-> Hdesc]].
    { destruct Hin as [?|Hin]; [by left|right]. destruct Hnew as [[-> _]|(_ & ch & -> & Hc)]; [by apply elem_of_nil in Hin|].
      apply list_elem_of_singleton in Hin as [= -> ->]. done. }
    + destruct (decide (i = id)) as [->|Hne].
      * exists r'. split; [by apply list_lookup_insert_eq; eapply lookup_lt_Some|by apply Hold].
      * cbn [cs_rows st']. rewrite list_lookup_insert_ne by done. by apply H3.
    + exists r'. split; [by apply list_lookup_insert_eq; eapply lookup_lt_Some|done].
  - intros i ri Hi' Hs. rewrite Hd, fmap_app, elem_of_app. cbn [cs_rows st'] in Hi'. destruct (decide (i = id)) as [->|Hne].
    + rewrite list_lookup_insert_eq in Hi' by (by eapply lookup_lt_Some). injection Hi' as <-.
      destruct Hnew as [[_ [?|?]]|(_ & ch & -> & _)]; [done|by right|]. left. right. by apply list_elem_of_singleton.
    + rewrite list_lookup_insert_ne in Hi' by done. destruct (H4 _ _ Hi' Hs) as [?|?]; [left; by left|by right].
Qed.

Lemma appended_ok st r :
  decisions_ok st → ct_status r = Tx_PENDING → ct_txHash r ∉ ct_txHash <$> cs_rows st →
  decisions_ok {| cs_rows := cs_rows st ++ [r]; cs_deciding := cs_deciding st; cs_emitted := cs_emitted st; cs_lost := cs_lost st |}.
Proof.
  intros [H1 H2 H3 H4] Hp Hn. constructor; cbn [cs_rows]; try done.
  - rewrite fmap_app. by apply NoDup_snoc.
  - intros id change (r0 & Hr0 & Hd)%H3. exists r0. split; [by apply lookup_app_l_Some|done].
  - intros id r0 Hr0 Hs. destruct (decide (id < length (cs_rows st))%nat) as [Hlt|Hge].
    + rewrite lookup_app_l in Hr0 by done. by apply H4.
    + rewrite lookup_app_r in Hr0 by lia. destruct (id - length (cs_rows st))%nat; [|done]. by injection Hr0 as <-.
Qed.

(** Decisions that only change hands. *)
Lemma handed_ok st deciding' emitted' lost' :
  let st' := {| cs_rows := cs_rows st; cs_deciding := deciding'; cs_emitted := emitted'; cs_lost := lost' |} in
  decided st' ≡ₚ decided st → decisions_ok st → decisions_ok st'.
Proof.
  intros st' Hd [H1 H2 H3 H4]. constructor; [done|by rewrite Hd| |]; cbn [cs_rows st'].
  - intros id change. rewrite Hd. apply H3.
  - intros id r. rewrite Hd. apply H4.
Qed.

Lemma step_ok opts st st' : coordinator_step opts st st' → decisions_ok st → decisions_ok st'.
Proof.
  intros Hstep H. destruct Hstep as [input now rows st Ht|id record r now response st Hr Hi polled
    |before change after st Hd|before change after st Hd|r st Hp Hk Hn|id r r' st Hr Hk Hi Hs].
  - unfold track in Ht. destruct (negb _); [done|]. cbn [throw_if rbind] in Ht.
    destruct (bool_decide _); [done|]. cbn [throw_if rbind] in Ht.
    destruct (existsb _ _) eqn:Ee; injection Ht as <-; [by destruct st|]. apply appended_ok; [done|done|].
    cbn [pending_row ct_txHash]. intros (r & E & Hr)%list_elem_of_fmap. apply not_true_iff_false in Ee. apply Ee.
    apply existsb_exists. exists r. split; [by apply list_elem_of_In|by apply bool_decide_eq_true].
  - pose proof (poll_cases opts id record now response (cs_rows st)) as Hc. cbn zeta in Hc. fold polled in Hc.
    destruct Hc as [[-> ->]|(r0 & r' & Hr0 & Hp & -> & Hi' & Hc)]; [rewrite app_nil_r; by destruct st|].
    assert (r0 = r) as -> by congruence. assert (∀ change, (id, change) ∉ decided st) as Hno.
    { intros change (r1 & Hr1 & D)%(do_describes _ H). destruct D as (_ & _ & _ & _ & D1 & [D2|[_ D2]]); congruence. }
    destruct Hc as [[Hp' ->]|(Hs & change & -> & C1 & C2 & C3 & C4 & C5)].
    + eapply (replaced_ok st id r r' []); [done|done|done| |by intros ? ?%Hno|left; by split; [|left]].
      unfold decided. cbn [cs_deciding cs_emitted cs_lost]. by rewrite !app_nil_r.
    + eapply (replaced_ok st id r r' [(id, change)]); [done|done|done| |by intros ? ?%Hno|right; split].
      * unfold decided. cbn [cs_deciding cs_emitted cs_lost]. rewrite <- !app_assoc.
        apply Permutation_app_head. by rewrite (Permutation_app_comm [(id, change)]), <- !app_assoc.
      * intros ([i ch] & E & Hin)%list_elem_of_fmap. cbn in E. subst i. by apply (Hno ch).
      * exists change. split; [done|]. injection Hi as _ E1 E2 E3 E4. injection Hi' as _ E5 E6 E7 E8.
        unfold describes. split_and!; [congruence..|by left].
  - apply handed_ok; [|done]. unfold decided. cbn [cs_deciding cs_emitted cs_lost]. rewrite Hd, <- !app_assoc.
    apply Permutation_app_head. cbn [app]. by rewrite <- Permutation_middle, !app_assoc, <- Permutation_middle, <- !app_assoc.
  - apply handed_ok; [|done]. unfold decided. cbn [cs_deciding cs_emitted cs_lost]. rewrite Hd, <- !app_assoc.
    apply Permutation_app_head. cbn [app]. rewrite !app_assoc, (Permutation_app_comm _ [change]). done.
  - by apply appended_ok.
  - eapply (replaced_ok st id r r' []); [done|done|done|by rewrite app_nil_r| |left; split; [done|right]].
    + intros change (r1 & Hr1 & D1 & D2 & D3 & D4 & D5 & _)%(do_describes _ H). rewrite Hr in Hr1. injection Hr1 as <-.
      injection Hi as E0 E1 E2 E3 E4. unfold describes. rewrite E0, E1, E2, E3, E4. split_and!; try done. by right.
    + injection Hi as E0 _ _ _ _. by rewrite E0.
Qed.

(** A final status is kept by every step, save that a settlement may book its own row. *)
Lemma step_final opts st st' id r :
  coordinator_step opts st st' → cs_rows st !! id = Some r → ct_status r ≠ Tx_PENDING → ct_settlementKey r = None →
  cs_rows st' !! id = Some r.
Proof.
  intros Hstep Hr Hs Hk. destruct Hstep as [input now rows st Ht|i record r1 now response st Hr1 Hi polled
    |before change after st Hd|before change after st Hd|r1 st Hp Hk1 Hn|i r1 r' st Hr1 Hk1 Hi Hs1]; cbn [cs_rows]; try done.
  - unfold track in Ht. destruct (negb _); [done|]. cbn [throw_if rbind] in Ht.
    destruct (bool_decide _); [done|]. cbn [throw_if rbind] in Ht.
    destruct (existsb _ _); injection Ht as <-; [done|by apply lookup_app_l_Some].
  - pose proof (poll_cases opts i record now response (cs_rows st)) as Hc. cbn zeta in Hc. fold polled in Hc.
    destruct Hc as [[-> _]|(r0 & r' & Hr0 & Hp & -> & _)]; [done|].
    destruct (decide (i = id)) as [->|Hne]; [congruence|]. by rewrite list_lookup_insert_ne.
  - by apply lookup_app_l_Some.
  - destruct (decide (i = id)) as [->|Hne]; [|by rewrite list_lookup_insert_ne].
    rewrite Hr in Hr1. injection Hr1 as <-. rewrite Hk in Hk1. by destruct Hk1.
Qed.

Lemma steps_final opts st st' id r :
  rtc (coordinator_step opts) st st' → cs_rows st !! id = Some r → ct_status r ≠ Tx_PENDING → ct_settlementKey r = None →
  cs_rows st' !! id = Some r.
Proof. induction 1 as [|a b c Hab _ IH]; [done|]. intros Hr Hs Hk. apply IH; [by eapply step_final|done|done]. Qed.

Lemma steps_ok opts st st' : rtc (coordinator_step opts) st st' → decisions_ok st → decisions_ok st'.
Proof. induction 1 as [|a b c Hab _ IH]; [done|]. intros H. apply IH. by eapply step_ok. Qed.

(** The delay doubles from [initial] and is capped. *)
Lemma backoff_bounds attempt initial max :
  0 < initial ≤ max → initial ≤ calculateBackoffDelay attempt initial max ≤ max.
Proof.
  intros H. unfold calculateBackoffDelay.
  assert (1 ≤ 2 ^ Z.max 0 (attempt - 1)) by (pose proof (Z.pow_pos_nonneg 2 (Z.max 0 (attempt - 1))); lia).
  nia.
Qed.

Lemma finalize_current id (r : CoordinatedTransaction) now status ledgerSeq error rows :
  rows !! id = Some r → ct_status r = Tx_PENDING →
  let polled := finalize id r now status ledgerSeq error rows in
  po_status polled = status ∧
  po_rows polled !! id = Some (finalized status ledgerSeq error (ct_attempts r + 1) now r) ∧
  po_change polled = Some (change_of r status ledgerSeq error (ct_attempts r + 1) now).
Proof.
  intros Hr Hp. unfold finalize, update_pending. rewrite Hr. unfold is_pending.
  rewrite bool_decide_eq_true_2 by done. cbn. split_and!; try done.
  apply list_lookup_insert_eq. by eapply lookup_lt_Some.
Qed.

End coordinator.
Arguments CoordinatedTransaction : clear implicits.
Arguments CoordinatorState : clear implicits.
Arguments Polled : clear implicits.
Arguments CoordinatorOptions : clear implicits.
Arguments TrackTransactionInput : clear implicits.

(** ** Properties *)

(** C31. However many instances poll, with copies as old as they may be, and
    whatever settlements journal and book meanwhile: every transaction hash is
    tracked once; at most one change of it is decided, so at most one is ever
    announced, and only once its row is final, with the status decided (a booked
    settlement may since have turned its own row into a success) and the hash,
    kind, user and league of the row; a final row nobody announced is one whose
    announcement is still due, was lost with its process, or a settlement booked;
    and apart from that booking a final row is never written again. *)
Theorem finalized_exactly_once {Meta : Type} (opts : CoordinatorOptions Meta) (st0 st : CoordinatorState Meta) :
  rtc (coordinator_step opts) st0 st →
  cs_deciding st0 = [] → cs_emitted st0 = [] → cs_lost st0 = [] →
  Forall (λ r, ct_status r = Tx_PENDING) (cs_rows st0) → NoDup (ct_txHash <$> cs_rows st0) →
  NoDup (ct_txHash <$> cs_rows st) ∧
  NoDup (cs_deciding st ++ cs_emitted st ++ cs_lost st).*1 ∧
  (∀ id change, (id, change) ∈ cs_emitted st → ∃ r, cs_rows st !! id = Some r ∧ ct_status r ≠ Tx_PENDING ∧
    sc_txHash change = ct_txHash r ∧ sc_kind change = ct_kind r ∧ sc_userId change = ct_userId r ∧
    sc_leagueId change = ct_leagueId r ∧
    (sc_status change = ct_status r ∨ is_Some (ct_settlementKey r) ∧ ct_status r = Tx_SUCCESS)) ∧
  (∀ id r, cs_rows st !! id = Some r → ct_status r ≠ Tx_PENDING →
    id ∈ (cs_emitted st).*1 ∨ id ∈ (cs_deciding st).*1 ∨ id ∈ (cs_lost st).*1 ∨
    is_Some (ct_settlementKey r) ∧ ct_status r = Tx_SUCCESS) ∧
  (∀ id r st', cs_rows st !! id = Some r → ct_status r ≠ Tx_PENDING → ct_settlementKey r = None →
    rtc (coordinator_step opts) st st' → cs_rows st' !! id = Some r).
Proof.
  intros Hsteps Hd He Hl Hp Hn. assert (decisions_ok st0) as H0.
  { constructor; unfold decided; rewrite ?Hd, ?He, ?Hl; [done|constructor|by intros ?? ?%elem_of_nil|].
    intros id r Hr []. by apply (Forall_lookup_1 _ _ _ _ Hp Hr). }
  destruct (steps_ok opts st0 st Hsteps H0) as [H1 H2 H3 H4]. split_and!; [done|done| | |].
  - intros id change Hin. destruct (H3 id change) as (r & Hr & D1 & D2 & D3 & D4 & D5 & D6).
    { unfold decided. rewrite !elem_of_app. auto. }
    exists r. split_and!; try done. by destruct D6 as [<-|[_ ->]].
  - intros id r Hr Hs. destruct (H4 id r Hr Hs) as [Hin|?]; [|tauto].
    unfold decided in Hin. rewrite !fmap_app, !elem_of_app in Hin. tauto.
  - intros id r st' Hr Hs Hk Hst'. by apply (steps_final opts st st').
Qed.

(** Every transaction is decided: while the network cannot be reached a
    poll keeps it pending, however old it is; as soon as a poll gets an answer
    the row takes the final status it says, and an unknown hash older than
    [maxPendingMs] is dropped; a poll that decides nothing comes back within
    [maxDelayMs]. *)
Theorem poll_decides {Meta : Type} (opts : CoordinatorOptions Meta) (rows : list (CoordinatedTransaction Meta))
    (id : nat) (r : CoordinatedTransaction Meta) (now : Z) :
  rows !! id = Some r → ct_status r = Tx_PENDING →
  0 < co_initialDelayMs opts ≤ co_maxDelayMs opts →
  ∀ answer, let polled := pollOne opts id r now answer rows in
  ∃ r', po_rows polled !! id = Some r' ∧ ct_status r' = po_status polled ∧ ct_attempts r' = ct_attempts r + 1 ∧
    ct_lastPolledAt r' = Some now ∧
    po_status polled = match answer with
             | RpcSuccess _ => Tx_SUCCESS
             | RpcFailed _ _ => Tx_FAILED
             | RpcNotFound => if co_maxPendingMs opts <=? now - ct_submittedAt r then Tx_DROPPED else Tx_PENDING
             | RpcError _ => Tx_PENDING
             end ∧
    (po_status polled = Tx_PENDING → po_change polled = None ∧
      now + co_initialDelayMs opts ≤ ct_nextPollAt r' ≤ now + co_maxDelayMs opts) ∧
    (po_status polled ≠ Tx_PENDING → ∃ ch, po_change polled = Some ch ∧ sc_status ch = po_status polled).
Proof.
  intros Hr Hp Hd answer.
  assert (∀ s ledger error, s ≠ Tx_PENDING → let polled := finalize id r now s ledger error rows in
    ∃ r', po_rows polled !! id = Some r' ∧ ct_status r' = po_status polled ∧ ct_attempts r' = ct_attempts r + 1 ∧
      ct_lastPolledAt r' = Some now ∧ po_status polled = s ∧
      (po_status polled = Tx_PENDING → po_change polled = None ∧
        now + co_initialDelayMs opts ≤ ct_nextPollAt r' ≤ now + co_maxDelayMs opts) ∧
      (po_status polled ≠ Tx_PENDING → ∃ ch, po_change polled = Some ch ∧ sc_status ch = po_status polled)) as Hfin.
  { intros s ledger error Hs. destruct (finalize_current id r now s ledger error rows Hr Hp) as (F1 & F2 & F3).
    cbn zeta. rewrite F1, F2, F3. eexists. split; [reflexivity|]. split_and!; try done. intros _. by eexists. }
  assert (∀ error, (co_maxPendingMs opts <=? now - ct_submittedAt r) && bool_decide (error = None) = false →
    let polled := handleStillPending opts id r now error rows in
    ∃ r', po_rows polled !! id = Some r' ∧ ct_status r' = po_status polled ∧ ct_attempts r' = ct_attempts r + 1 ∧
      ct_lastPolledAt r' = Some now ∧ po_status polled = Tx_PENDING ∧
      (po_status polled = Tx_PENDING → po_change polled = None ∧
        now + co_initialDelayMs opts ≤ ct_nextPollAt r' ≤ now + co_maxDelayMs opts) ∧
      (po_status polled ≠ Tx_PENDING → ∃ ch, po_change polled = Some ch ∧ sc_status ch = po_status polled)) as Hstill.
  { intros error Hc. unfold handleStillPending. rewrite Hc. cbn [po_rows po_status po_change].
    unfold update_pending. rewrite Hr. unfold is_pending. rewrite bool_decide_eq_true_2 by done. cbn.
    eexists. split; [apply list_lookup_insert_eq; by eapply lookup_lt_Some|]. cbn.
    pose proof (backoff_bounds (ct_attempts r + 1) _ _ Hd). split_and!; try done; intros; try done. split; [done|lia]. }
  destruct answer as [ledger|ledger detail| |message]; cbn [pollOne].
  - by apply Hfin.
  - by apply Hfin.
  - destruct (co_maxPendingMs opts <=? now - ct_submittedAt r) eqn:Ec; [|by apply Hstill; rewrite ?Ec].
    unfold handleStillPending. rewrite Ec. by apply Hfin.
  - apply Hstill. by rewrite andb_false_r.
Qed.

(** ** Samples *)

Definition sample_options : CoordinatorOptions unit :=
  {| co_initialDelayMs := 2000; co_maxDelayMs := 60000; co_maxPendingMs := 900000; co_batchSize := 50;
     co_bump := λ r _, ct_metadata r |}.

Definition sample_hash : string :=
  "00112233445566778899AABBCCDDEEFF00112233445566778899aabbccddeeff".

Definition sample_track : TrackTransactionInput unit :=
  {| ti_txHash := sample_hash; ti_kind := "DEPOSIT"; ti_userId := None; ti_leagueId := None;
     ti_transactionId := None; ti_metadata := None; ti_submittedAt := None |}.

Definition sample_rows : list (CoordinatedTransaction unit) :=
  match track sample_track 0 [] with Ok rows => rows | Err _ => [] end.

Definition idle (rows : list (CoordinatedTransaction unit)) : CoordinatorState unit :=
  {| cs_rows := rows; cs_deciding := []; cs_emitted := []; cs_lost := [] |}.

(** Two instances poll the same row with the same copy; the second is late, and
    polls while the first has not announced its decision yet. *)
Definition sample_polled (r : CoordinatedTransaction unit) : Polled unit := pollOne sample_options 0 r 5000 (RpcSuccess (Some 7)) [r].

Definition sample_late (r : CoordinatedTransaction unit) : Polled unit :=
  pollOne sample_options 0 r 5001 RpcNotFound (po_rows (sample_polled r)).

Lemma finalized_exactly_once_witness :
  match sample_rows with
  | [r] => match po_change (sample_polled r), po_change (sample_late r) with
           | Some change, None => sc_status change = Tx_SUCCESS ∧
               ∃ r', po_rows (sample_late r) !! 0%nat = Some r' ∧ ct_status r' = Tx_SUCCESS ∧ sc_txHash change = ct_txHash r'
           | _, _ => False
           end
  | _ => False
  end.
Proof.
  destruct sample_rows as [|r [|]] eqn:Er; [vm_compute in Er; discriminate Er| |vm_compute in Er; discriminate Er].
  assert (ct_status r = Tx_PENDING) as Hp by (vm_compute in Er; injection Er as <-; reflexivity).
  destruct (po_change (sample_polled r)) as [change|] eqn:E1;
    [|vm_compute in Er; injection Er as <-; vm_compute in E1; discriminate E1].
  destruct (po_change (sample_late r)) as [late|] eqn:E2;
    [vm_compute in Er; injection Er as <-; vm_compute in E2; discriminate E2|].
  destruct (po_rows (sample_polled r) !! 0%nat) as [r1|] eqn:H1;
    [|vm_compute in Er; injection Er as <-; vm_compute in H1; discriminate H1].
  assert (row_identity r = row_identity r1) as Hi
    by (vm_compute in Er; injection Er as <-; vm_compute in H1; injection H1 as <-; reflexivity).
  assert (ct_status <$> po_rows (sample_late r) !! 0%nat = Some Tx_SUCCESS) as H2
    by (vm_compute in Er; injection Er as <-; vm_compute; reflexivity).
  assert (sc_status change = Tx_SUCCESS) as Hc
    by (vm_compute in Er; injection Er as <-; vm_compute in E1; injection E1 as <-; reflexivity).
  split; [exact Hc|].
  destruct (finalized_exactly_once sample_options (idle [r])
    {| cs_rows := po_rows (sample_late r); cs_deciding := []; cs_emitted := [(0%nat, change)]; cs_lost := [] |})
    as (_ & _ & H & _); try reflexivity; [|by apply Forall_singleton|apply NoDup_singleton|].
  - eapply rtc_l; [exact (step_poll sample_options 0 r r 5000 (RpcSuccess (Some 7)) (idle [r]) eq_refl eq_refl)|].
    fold (sample_polled r). change (cs_rows (idle [r])) with [r]. fold (sample_polled r). rewrite E1. cbn [idle cs_deciding app cs_emitted cs_lost].
    eapply rtc_l; [refine (step_poll sample_options 0 r r1 5001 RpcNotFound _ _ Hi); exact H1|].
    cbn [cs_rows cs_deciding cs_emitted cs_lost]. fold (sample_late r). rewrite E2. cbn [app].
    apply rtc_once. exact (step_emit sample_options [] (0%nat, change) []
      {| cs_rows := po_rows (sample_late r); cs_deciding := [(0%nat, change)]; cs_emitted := []; cs_lost := [] |} eq_refl).
  - destruct (H 0%nat change) as (r' & Hr' & _ & Hh & _); [by left|]. exists r'. split; [exact Hr'|]. split; [|exact Hh].
    cbn [cs_rows] in Hr'. rewrite Hr' in H2. by injection H2.
Defined.

Lemma poll_decides_witness :
  match sample_rows with
  | [r] => po_status (pollOne sample_options 0 r 900000 RpcNotFound [r]) = Tx_DROPPED ∧
           po_status (pollOne sample_options 0 r 900000 (RpcError "down") [r]) = Tx_PENDING
  | _ => False
  end.
Proof.
  destruct sample_rows as [|r [|]] eqn:E; [vm_compute in E; discriminate E| |vm_compute in E; discriminate E].
  assert (ct_status r = Tx_PENDING ∧ ct_submittedAt r = 0) as [Hp Hs]
    by (vm_compute in E; injection E as <-; split; reflexivity).
  assert (0 < co_initialDelayMs sample_options ≤ co_maxDelayMs sample_options) as Hd by (cbn; lia).
  split.
  - destruct (poll_decides sample_options [r] 0 r 900000 eq_refl Hp Hd RpcNotFound) as (_ & _ & _ & _ & _ & -> & _).
    rewrite Hs. reflexivity.
  - by destruct (poll_decides sample_options [r] 0 r 900000 eq_refl Hp Hd (RpcError "down")) as (_ & _ & _ & _ & _ & -> & _).
Defined.
