(* ===== verification/Financial.v ===== *)
(** * Entry fees and prize settlement: [backend/src/services/financial/financialService.ts]

    Payments of the entry fee, the settlement plan, its dispatch to the escrow
    contract and its bookkeeping.  A handler runs in a small state and error
    monad: what it has written stays when it throws later, as in the code; only
    the calls inside [$transaction] are taken back.  What the Stellar network
    answers is an argument of each handler, and so is the reading of the
    [Decimal] columns: Prisma returns objects, the unit tests plain numbers. *)

From Stdlib Require Import QArith Qround Ascii String.
From stdpp Require Import pretty.
From S2P Require Import Prelude Text Prize ScoringConfig Tournament LeagueDb HeadToHead League Settlement TxCoordinator.

#[local] Open Scope Z_scope.

(** ** Tables *)

Inductive TransactionType : Type := ENTRY_FEE | PLATFORM_FEE | PRIZE_PAYOUT | REFUND.
Inductive TransactionStatus : Type := TS_PENDING | TS_SUBMITTED | TS_CONFIRMED | TS_FAILED.

#[export] Instance TransactionType_eq_dec : EqDecision TransactionType.
Proof. solve_decision. Defined.
#[export] Instance TransactionStatus_eq_dec : EqDecision TransactionStatus.
Proof. solve_decision. Defined.

(** Rows are never deleted; a row is named by its position.  Amounts are cents. *)
Record TransactionRow : Type := {
  tx_userId : string;
  tx_leagueId : option string;
  tx_memberId : option string;
  tx_type : TransactionType;
  tx_amount : Z;
  tx_stellarTxHash : option string;
  tx_ledgerSeq : option Z;
  tx_memo : option (list ascii);
  tx_status : TransactionStatus;
  tx_confirmedAt : option Z
}.

Record SettlementWinner : Type := {
  sw_rank : Z;
  sw_userId : string;
  sw_stellarAddress : string;
  sw_totalPoints : Z;
  sw_prizeCents : Z
}.

Record SettlementPlan : Type := {
  pl_status : LeagueStatus;
  pl_totalParticipants : Z;
  pl_grossPool : Q;
  pl_platformFee : Q;
  pl_netPrizePool : Q;
  pl_winners : list SettlementWinner;
  pl_distributionBps : option (list Z);
  pl_canSettle : bool
}.

(** [metadata] of a journaled settlement. *)
Record SettlementMetadata : Type := { sm_plan : SettlementPlan; sm_adminUserId : string; sm_envelope : string }.

(** [fd_addresses] is the column [stellar_address] of the members, by member id;
    [fd_squadPoints] is [total_points] of the squads. *)
Record FinancialDb : Type := {
  fd_league : LeagueDb;
  fd_addresses : list (string * string);
  fd_squadPoints : list (string * Z);
  fd_transactions : list TransactionRow;
  fd_coordinated : list (CoordinatedTransaction SettlementMetadata);
  fd_admins : list string
}.

Definition set_members (db : FinancialDb) (ms : list LeagueMember) : FinancialDb :=
  {| fd_league := LeagueDb.with_members (fd_league db) ms; fd_addresses := fd_addresses db;
     fd_squadPoints := fd_squadPoints db; fd_transactions := fd_transactions db;
     fd_coordinated := fd_coordinated db; fd_admins := fd_admins db |}.

Definition set_leagues (db : FinancialDb) (ls : list (string * LeagueRow)) : FinancialDb :=
  {| fd_league := with_leagues (fd_league db) ls; fd_addresses := fd_addresses db;
     fd_squadPoints := fd_squadPoints db; fd_transactions := fd_transactions db;
     fd_coordinated := fd_coordinated db; fd_admins := fd_admins db |}.

Definition set_addresses (db : FinancialDb) (a : list (string * string)) : FinancialDb :=
  {| fd_league := fd_league db; fd_addresses := a; fd_squadPoints := fd_squadPoints db;
     fd_transactions := fd_transactions db; fd_coordinated := fd_coordinated db; fd_admins := fd_admins db |}.

Definition set_transactions (db : FinancialDb) (t : list TransactionRow) : FinancialDb :=
  {| fd_league := fd_league db; fd_addresses := fd_addresses db; fd_squadPoints := fd_squadPoints db;
     fd_transactions := t; fd_coordinated := fd_coordinated db; fd_admins := fd_admins db |}.

Definition set_coordinated (db : FinancialDb) (c : list (CoordinatedTransaction SettlementMetadata)) : FinancialDb :=
  {| fd_league := fd_league db; fd_addresses := fd_addresses db; fd_squadPoints := fd_squadPoints db;
     fd_transactions := fd_transactions db; fd_coordinated := c; fd_admins := fd_admins db |}.

(** ** The monad of the handlers *)

Inductive FinancialError : Type :=
| FinancialValidationError
| FinancialNotFoundError
| FinancialForbiddenError
| FinancialConflictError
| PrizeFailed (e : PrizeError)
| DatabaseError.

Definition M : Type → Type := state_error FinancialDb FinancialError.

#[local] Open Scope state_error_scope.

(** ** Writes *)

(** [leagueMember.update({ where: { id } })]. *)
Definition update_one_member (id : string) (f : LeagueMember → LeagueMember) : M () :=
  mwrite (λ db, match update_member id f (db_members (fd_league db)) with
                | Some ms => Ok (set_members db ms)
                | None => Err DatabaseError
                end).

(** [@@unique([stellarTxHash, memberId])], where NULLs differ. *)
Definition same_tx_key (a b : TransactionRow) : bool :=
  match tx_stellarTxHash a, tx_memberId a, tx_stellarTxHash b, tx_memberId b with
  | Some h, Some m, Some h', Some m' => bool_decide (h = h') && bool_decide (m = m')
  | _, _, _, _ => false
  end.

(** [transaction.create]; the column [user_id] has no default, so a create
    without a user is refused. *)
Definition create_transaction (userId : option string) (row : string → TransactionRow) : M nat :=
  let! n := mread (λ db, length (fd_transactions db)) in
  mwrite (λ db, match userId with
                | None => Err DatabaseError
                | Some u => if existsb (same_tx_key (row u)) (fd_transactions db) then Err DatabaseError
                            else Ok (set_transactions db (fd_transactions db ++ [row u]))
                end) ;!
  mok n.

Definition with_tx_status (s : TransactionStatus) (ledgerSeq : option Z) (confirmedAt : option Z)
    (t : TransactionRow) : TransactionRow :=
  {| tx_userId := tx_userId t; tx_leagueId := tx_leagueId t; tx_memberId := tx_memberId t;
     tx_type := tx_type t; tx_amount := tx_amount t; tx_stellarTxHash := tx_stellarTxHash t;
     tx_ledgerSeq := ledgerSeq; tx_memo := tx_memo t; tx_status := s; tx_confirmedAt := confirmedAt |}.

Definition with_tx_member (memberId : string) (t : TransactionRow) : TransactionRow :=
  {| tx_userId := tx_userId t; tx_leagueId := tx_leagueId t; tx_memberId := Some memberId;
     tx_type := tx_type t; tx_amount := tx_amount t; tx_stellarTxHash := tx_stellarTxHash t;
     tx_ledgerSeq := tx_ledgerSeq t; tx_memo := tx_memo t; tx_status := TS_SUBMITTED;
     tx_confirmedAt := tx_confirmedAt t |}.

(** [transaction.updateMany({ where: { stellarTxHash } })]. *)
Definition update_by_hash (hash : string) (f : TransactionRow → TransactionRow) : M () :=
  mwrite (λ db, Ok (set_transactions db
    ((λ t, if bool_decide (tx_stellarTxHash t = Some hash) then f t else t) <$> fd_transactions db))).

(** [transaction.findFirst] and an update of the row found. *)
Definition find_tx (p : TransactionRow → bool) (db : FinancialDb) : option (nat * TransactionRow) :=
  match find_index p (fd_transactions db) with
  | Some i => (λ t, (i, t)) <$> fd_transactions db !! i
  | None => None
  end.

Definition update_tx (i : nat) (f : TransactionRow → TransactionRow) : M () :=
  mwrite (λ db, Ok (set_transactions db (alter f i (fd_transactions db)))).

Definition set_payment_state (status : option MembershipStatus) (p : PaymentStatus) (hasPaid : option bool)
    (squadId : option string) (m : LeagueMember) : LeagueMember :=
  {| mb_id := mb_id m; mb_leagueId := mb_leagueId m; mb_userId := mb_userId m;
     mb_squadId := default (mb_squadId m) squadId; mb_status := default (mb_status m) status;
     mb_paymentStatus := p; mb_hasPaid := default (mb_hasPaid m) hasPaid; mb_joinedAt := mb_joinedAt m;
     mb_rank := mb_rank m; mb_totalPoints := mb_totalPoints m; mb_matchesWon := mb_matchesWon m;
     mb_matchesDrawn := mb_matchesDrawn m; mb_matchesLost := mb_matchesLost m;
     mb_pointsFor := mb_pointsFor m; mb_pointsAgainst := mb_pointsAgainst m; mb_h2hPoints := mb_h2hPoints m |}.

Definition find_league (leagueId : string) (db : FinancialDb) : option LeagueRow :=
  map_get leagueId (db_leagues (fd_league db)).

(** [findUnique({ where: { leagueId_userId } })]. *)
Definition find_member (leagueId userId : string) (db : FinancialDb) : option LeagueMember :=
  List.find (is_member leagueId userId) (db_members (fd_league db)).

(** ** Memos and contract ids *)

Definition is_alnum (c : ascii) : bool :=
  let n := Z.of_N (N_of_ascii c) in
  ((48 <=? n) && (n <=? 57)) || ((65 <=? n) && (n <=? 90)) || ((97 <=? n) && (n <=? 122)).

Definition upper_char (c : ascii) : ascii :=
  let n := N_of_ascii c in if (97 <=? Z.of_N n) && (Z.of_N n <=? 122) then ascii_of_N (n - 32) else c.

Definition memo_part (id : string) : list ascii :=
  upper_char <$> take 8 (List.filter is_alnum (list_ascii_of_string id)).

Definition formatPaymentMemo (leagueId userId : string) : list ascii :=
  list_ascii_of_string "FXI:" ++ memo_part leagueId ++ list_ascii_of_string ":" ++ memo_part userId.

(** [toContractLeagueId]: the first 16 hex digits, as a [u64]. *)
Definition toContractLeagueId (leagueId : string) : result FinancialError Z :=
  let hex := take 16 (List.filter (λ c, negb (Ascii.eqb c "-")) (list_ascii_of_string leagueId)) in
  if negb ((length hex =? 16)%nat && forallb is_hex hex) then Err FinancialValidationError
  else Ok (foldl (λ acc c, 16 * acc + hex_digit c) 0 hex).

(** [chunk]: batches of at most [size]. *)
Fixpoint chunk_fuel {A} (fuel size : nat) (items : list A) : list (list A) :=
  match fuel, items with
  | S fuel, _ :: _ => take size items :: chunk_fuel fuel size (drop size items)
  | _, _ => []
  end.

Definition chunk {A} (items : list A) (size : nat) : list (list A) := chunk_fuel (length items) size items.

(** ** Entry fee payments *)

Section payments.
(** Do the [Decimal] columns arrive as objects, as Prisma returns them? *)
Context (decimal_columns : bool).
(** [StrKey] of the Stellar SDK. *)
Context (isValidStellarAddress isValidEd25519PublicKey : string → bool).

(** [league.entryFee === 0]: an object is never [=== 0]. *)
Definition is_free (entryFee : Z) : bool := negb decimal_columns && (entryFee =? 0).

Record PaymentRequirement : Type := {
  pq_entryFee : Z;
  pq_memo : list ascii;
  pq_paymentStatus : PaymentStatus
}.

(** The row [leagueMember.create] writes here. *)
Definition paying_member (id leagueId userId squadId : string) (free : bool) (now : Z) : LeagueMember :=
  {| mb_id := id; mb_leagueId := leagueId; mb_userId := userId; mb_squadId := squadId;
     mb_status := if free then Member_ACTIVE else Member_PENDING;
     mb_paymentStatus := if free then PAYMENT_CONFIRMED else PAYMENT_INITIATED; mb_hasPaid := free;
     mb_joinedAt := now; mb_rank := None; mb_totalPoints := 0; mb_matchesWon := 0; mb_matchesDrawn := 0;
     mb_matchesLost := 0; mb_pointsFor := 0; mb_pointsAgainst := 0; mb_h2hPoints := 0 |}.

Definition create_member (m : LeagueMember) : M () :=
  mwrite (λ db, match insert_member m (db_members (fd_league db)) with
                | Ok ms => Ok (set_members db ms)
                | Err _ => Err DatabaseError
                end).

(** [member.paymentStatus === PENDING || PAYMENT_FAILED]. *)
Definition can_initiate (p : PaymentStatus) : bool :=
  bool_decide (p = Pay_PENDING) || bool_decide (p = PAYMENT_FAILED).

Definition createPaymentRequirement (userId leagueId squadId newId : string) (now : Z) : M PaymentRequirement :=
  let! league := mread (find_league leagueId) in
  let! league := found league FinancialNotFoundError in
  guard_throw (negb (bool_decide (lg_status league = UPCOMING))) FinancialValidationError ;!
  let! owned := mread (λ db, bool_decide ((squadId, userId) ∈ db_squads (fd_league db))) in
  guard_throw (negb owned) FinancialValidationError ;!
  let isFree := is_free (lg_entryFee league) in
  let! member := mread (find_member leagueId userId) in
  guard_throw (lg_isPrivate league && bool_decide (member = None)) FinancialForbiddenError ;!
  let! paymentStatus :=
    match member with
    | None =>
        create_member (paying_member newId leagueId userId squadId isFree now) ;!
        mok (if isFree then PAYMENT_CONFIRMED else PAYMENT_INITIATED)
    | Some member =>
        if isFree
        then if negb (bool_decide (mb_status member = Member_ACTIVE))
             then update_one_member (mb_id member)
                    (set_payment_state (Some Member_ACTIVE) PAYMENT_CONFIRMED (Some true) (Some squadId)) ;!
                  mok PAYMENT_CONFIRMED
             else mok (mb_paymentStatus member)
        else if can_initiate (mb_paymentStatus member)
             then update_one_member (mb_id member)
                    (set_payment_state None PAYMENT_INITIATED None (Some squadId)) ;!
                  mok PAYMENT_INITIATED
             else mok (mb_paymentStatus member)
    end in
  mok {| pq_entryFee := lg_entryFee league; pq_memo := formatPaymentMemo leagueId userId;
         pq_paymentStatus := paymentStatus |}.

(** Handing a hash to the coordinator never fails the payment. *)
Definition trackTransaction (tracker : bool) (input : TrackTransactionInput SettlementMetadata) (now : Z) : M () :=
  if tracker
  then λ db, match track input now (fd_coordinated db) with
             | Ok rows => (set_coordinated db rows, Ok tt)
             | Err _ => (db, Ok tt)
             end
  else mok tt.

Definition entry_fee_row (league : LeagueRow) (leagueId userId memberId : string) (hash : option string)
    (status : TransactionStatus) (confirmedAt : option Z) (u : string) : TransactionRow :=
  {| tx_userId := u; tx_leagueId := Some leagueId; tx_memberId := Some memberId; tx_type := ENTRY_FEE;
     tx_amount := lg_entryFee league; tx_stellarTxHash := hash; tx_ledgerSeq := None;
     tx_memo := Some (formatPaymentMemo leagueId userId); tx_status := status; tx_confirmedAt := confirmedAt |}.

Definition is_entry_fee_with (hash : string) (t : TransactionRow) : bool :=
  bool_decide (tx_stellarTxHash t = Some hash) && bool_decide (tx_type t = ENTRY_FEE).

(** [existingTx && existingTx.memberId && existingTx.memberId !== member.id]. *)
Definition taken_by_other (memberId : string) (existing : option (nat * TransactionRow)) : bool :=
  match existing with
  | Some (_, t) => match tx_memberId t with
                   | Some m => negb (bool_decide (m = "")) && negb (bool_decide (m = memberId))
                   | None => false
                   end
  | None => false
  end.

Definition submitPayment (tracker : bool) (userId leagueId stellarTxHash stellarAddress : string) (now : Z) :
    M (option nat) :=
  guard_throw (negb (isValidTransactionHash stellarTxHash)) FinancialValidationError ;!
  guard_throw (negb (isValidStellarAddress stellarAddress)) FinancialValidationError ;!
  let! member := mread (find_member leagueId userId) in
  let! member := found member FinancialNotFoundError in
  let! league := mread (find_league leagueId) in
  let! league := found league DatabaseError in
  if bool_decide (mb_paymentStatus member = PAYMENT_CONFIRMED) then mok None else
  let! existingTx := mread (find_tx (is_entry_fee_with stellarTxHash)) in
  guard_throw (taken_by_other (mb_id member) existingTx) FinancialConflictError ;!
  update_one_member (mb_id member) (set_payment_state None PAYMENT_SUBMITTED None None) ;!
  mwrite (λ db, Ok (set_addresses db (map_set (mb_id member) stellarAddress (fd_addresses db)))) ;!
  let! transaction :=
    match existingTx with
    | Some (i, _) => update_tx i (with_tx_member (mb_id member)) ;! mok i
    | None => create_transaction None
                (entry_fee_row league leagueId userId (mb_id member) (Some stellarTxHash) TS_SUBMITTED None)
    end in
  trackTransaction tracker {| ti_txHash := stellarTxHash; ti_kind := "DEPOSIT"; ti_userId := Some userId;
    ti_leagueId := Some leagueId; ti_transactionId := Some transaction; ti_metadata := None;
    ti_submittedAt := None |} now ;!
  mok (Some transaction).

(** What [StellarService.verifyPaymentTransaction] answers. *)
Record PaymentVerification : Type := {
  pv_success : bool;
  pv_retryable : bool;
  pv_ledgerSeq : option Z;
  pv_confirmedAt : option Z
}.

Definition is_settled_member (m : LeagueMember) : bool :=
  bool_decide (mb_paymentStatus m = PAYMENT_CONFIRMED) && bool_decide (mb_status m = Member_ACTIVE).

Definition verifyAndConfirmPayment (userId leagueId stellarTxHash : string)
    (verification : PaymentVerification) (now : Z) : M bool :=
  let! member := mread (find_member leagueId userId) in
  let! member := found member FinancialNotFoundError in
  if is_settled_member member then mok true else
  if negb (pv_success verification)
  then if pv_retryable verification then mok false
       else mtransaction
              (update_one_member (mb_id member) (set_payment_state None PAYMENT_FAILED None None) ;!
               update_by_hash stellarTxHash (λ t, with_tx_status TS_FAILED (tx_ledgerSeq t) (tx_confirmedAt t) t)) ;!
            mok false
  else
    mtransaction
      (update_one_member (mb_id member)
         (set_payment_state (Some Member_ACTIVE) PAYMENT_CONFIRMED (Some true) None) ;!
       update_by_hash stellarTxHash
         (with_tx_status TS_CONFIRMED (pv_ledgerSeq verification) (Some (default now (pv_confirmedAt verification))))) ;!
    mok true.

(** [depositedUsdc + 0.0001 < entryFee], in stroops. *)
Definition deposit_missing (onChainStroops entryFeeCents : Z) : bool :=
  onChainStroops + 1000 <? entryFeeCents * 100000.

(** [getContractDeposit] answers [None] when it throws. *)
Definition reconcileDeposit (userId leagueId : string) (getContractDeposit : Z → string → option Z) (now : Z) : M bool :=
  let! member := mread (find_member leagueId userId) in
  let! member := found member FinancialNotFoundError in
  let! league := mread (find_league leagueId) in
  let! league := found league DatabaseError in
  if is_settled_member member then mok true else
  let! address := mread (λ db, map_get (mb_id member) (fd_addresses db)) in
  match truthy address with
  | None => mok false
  | Some address =>
      guard_throw (negb (isValidEd25519PublicKey address)) FinancialValidationError ;!
      match toContractLeagueId leagueId with
      | Err _ => mok false
      | Ok contractLeagueId =>
          match getContractDeposit contractLeagueId address with
          | None => mok false
          | Some onChainStroops =>
              if deposit_missing onChainStroops (lg_entryFee league) then mok false else
              let! current := mread (λ db, List.find (λ m, bool_decide (mb_id m = mb_id member)
                && negb (bool_decide (mb_paymentStatus m = PAYMENT_CONFIRMED))) (db_members (fd_league db))) in
              match current with
              | None => mok true
              | Some _ =>
                  update_one_member (mb_id member)
                    (set_payment_state (Some Member_ACTIVE) PAYMENT_CONFIRMED (Some true) None) ;!
                  let! existingTx := mread (find_tx (λ t, bool_decide (tx_memberId t = Some (mb_id member))
                    && bool_decide (tx_type t = ENTRY_FEE))) in
                  match existingTx with
                  | Some (i, _) => update_tx i (λ t, with_tx_status TS_CONFIRMED (tx_ledgerSeq t) (Some now) t)
                  | None => create_transaction None (entry_fee_row league leagueId userId (mb_id member) None
                              TS_CONFIRMED (Some now)) ;! mok tt
                  end ;!
                  mok true
              end
          end
      end
  end.

End payments.

(** ** The settlement plan *)

(** [squad?.totalPoints || 0]. *)
Definition squad_points (db : FinancialDb) (m : LeagueMember) : Z :=
  default 0 (map_get (mb_squadId m) (fd_squadPoints db)).

(** The [while] that looks for the end of a group of equal points. *)
Fixpoint run_length {A} (p : A → bool) (l : list A) : nat :=
  match l with a :: l => if p a then S (run_length p l) else O | [] => O end.

(** [Math.round(value * 100)]; a NaN payout stays NaN. *)
Definition payout_cents (value : option Q) : jsint := (λ v, math_round (v * 100)) <$> value.

Definition group_winners (points : LeagueMember → Z) (addresses : list (string * string)) (rankOffset : nat)
    (group : list LeagueMember) (pooledCents : jsint) : list SettlementWinner :=
  let size := Some (Z.of_nat (length group)) in
  let eachCents := jfloor_div pooledCents size in
  let remainder := jsub pooledCents (jmul eachCents size) in
  concat (imap (λ offset member,
    match eachCents, remainder with
    | Some each, Some rem =>
        let prizeCents := each + (if 0 <? rem - Z.of_nat offset then 1 else 0) in
        if 0 <? prizeCents
        then [{| sw_rank := Z.of_nat rankOffset + 1; sw_userId := mb_userId member;
                 sw_stellarAddress := default "PENDING_WALLET_LINK"
                   (truthy (map_get (mb_id member) addresses));
                 sw_totalPoints := points member; sw_prizeCents := prizeCents |}]
        else []
    | _, _ => []
    end) group).

(** The ranking loop; [fuel] bounds the number of groups. *)
Fixpoint award_prizes (fuel : nat) (points : LeagueMember → Z) (addresses : list (string * string))
    (payouts : list jsint) (rankOffset : nat) (sorted : list LeagueMember) : list SettlementWinner :=
  match fuel, sorted, payouts with
  | S fuel, first :: rest, _ :: _ =>
      let size := S (run_length (λ m, points m =? points first) rest) in
      group_winners points addresses rankOffset (take size sorted) (jsum (take size payouts))
      ++ award_prizes fuel points addresses (drop size payouts) (rankOffset + size) (drop size sorted)
  | _, _, _ => []
  end.

Definition paid_member (decimal_columns : bool) (league : LeagueRow) (leagueId : string) (m : LeagueMember) : bool :=
  bool_decide (mb_leagueId m = leagueId) && bool_decide (mb_status m = Member_ACTIVE)
  && (is_free decimal_columns (lg_entryFee league) || bool_decide (mb_paymentStatus m = PAYMENT_CONFIRMED)).

Definition settlement_order (points : LeagueMember → Z) : LeagueMember → LeagueMember → Z :=
  then_by (desc points) (asc mb_joinedAt).

Definition unsettled_plan (league : LeagueRow) : SettlementPlan :=
  {| pl_status := lg_status league; pl_totalParticipants := 0; pl_grossPool := 0; pl_platformFee := 0;
     pl_netPrizePool := 0; pl_winners := []; pl_distributionBps := None; pl_canSettle := false |}.

Definition prize_options (league : LeagueRow) : PrizeOptions :=
  {| preset := Some (lg_payoutPreset league); customSplitsBps := Some (int <$> lg_payoutSplitsBps league) |}.

Definition lift_prize {A} (r : result PrizeError A) : result FinancialError A :=
  match r with Ok a => Ok a | Err e => Err (PrizeFailed e) end.

(** The entry fee as [calculatePrizeDistribution] receives it: to
    [Number.isFinite] a [Decimal] object is no finite number. *)
Definition fee_argument (decimal_columns : bool) (league : LeagueRow) : jsnum :=
  if decimal_columns then NonFinite else fee_of league.

(** [prepareSettlement], without the hash of the plan. *)
Definition prepareSettlement (decimal_columns : bool) (leagueId : string) (requesterUserId : option string)
    (db : FinancialDb) : result FinancialError SettlementPlan :=
  let* league := or_throw (find_league leagueId db) FinancialNotFoundError in
  throw_if (match truthy requesterUserId with
            | Some u => negb (bool_decide (lg_creatorId league = u)) | None => false end)
    FinancialForbiddenError ;;;
  if bool_decide (lg_status league = CANCELLED) then Ok (unsettled_plan league) else
  let paidMembers := List.filter (paid_member decimal_columns league leagueId) (db_members (fd_league db)) in
  if bool_decide (paidMembers = []) then Ok (unsettled_plan league) else
  let* distribution := lift_prize (calculatePrizeDistribution (int (Z.of_nat (length paidMembers)))
                         (fee_argument decimal_columns league) (prize_options league)) in
  let sortedMembers := sort_by (settlement_order (squad_points db)) paidMembers in
  let winners := award_prizes (length sortedMembers) (squad_points db) (fd_addresses db)
                   (payout_cents <$> payouts distribution) O sortedMembers in
  let* distributionBps :=
    if negb (bool_decide (lg_payoutPreset league = Standard)) && negb (Qle_bool (prizePool distribution) 0)
       && negb (bool_decide (winners = []))
    then rmap Some (lift_prize (encodeSorobanPayoutAmounts ((λ w, amount (sw_prizeCents w)) <$> winners)
                      (prizePool distribution)))
    else Ok None in
  Ok {| pl_status := lg_status league; pl_totalParticipants := Z.of_nat (length paidMembers);
        pl_grossPool := grossTotal distribution; pl_platformFee := platformFee distribution;
        pl_netPrizePool := prizePool distribution; pl_winners := winners;
        pl_distributionBps := distributionBps; pl_canSettle := true |}.

(** ** Dispatch *)

(** [InvocationResult] of the contract client. *)
Record InvocationResult : Type := {
  ir_success : bool;
  ir_txHash : option string;
  ir_ledgerSeq : option Z
}.

(** What a call of [settleLeague] meets: the transaction it signs ([None] when
    it throws or fails before that), then its result, once journaled. *)
Record Dispatch : Type := {
  dp_signed : option (string * string);
  dp_unsigned_result : option InvocationResult;
  dp_result : option InvocationResult
}.

Definition set_prize_pool (cents : Z) (l : LeagueRow) : LeagueRow :=
  {| lg_name := lg_name l; lg_creatorId := lg_creatorId l; lg_inviteCode := lg_inviteCode l;
     lg_maxMembers := lg_maxMembers l; lg_minMembers := lg_minMembers l;
     lg_currentMembers := lg_currentMembers l; lg_entryFee := lg_entryFee l; lg_prizePool := cents;
     lg_status := COMPLETED; lg_scoringType := lg_scoringType l; lg_scoringConfig := lg_scoringConfig l;
     lg_payoutPreset := lg_payoutPreset l; lg_payoutSplitsBps := lg_payoutSplitsBps l;
     lg_isPrivate := lg_isPrivate l; lg_buyIn := lg_buyIn l;
     lg_startGameweekId := lg_startGameweekId l; lg_endGameweekId := lg_endGameweekId l |}.

(** Rows keep the hash as the code stores it; [ct_txHash] is its text. *)
Definition has_key (leagueId : string) (c : CoordinatedTransaction SettlementMetadata) : bool :=
  bool_decide (ct_settlementKey c = Some leagueId).

Definition journal_row (leagueId adminUserId txHash : string) (plan : SettlementPlan) (envelope : string) (now : Z) :
    CoordinatedTransaction SettlementMetadata :=
  {| ct_settlementKey := Some leagueId; ct_txHash := list_ascii_of_string txHash; ct_kind := "SETTLEMENT";
     ct_status := Tx_PENDING; ct_userId := Some adminUserId; ct_leagueId := Some leagueId;
     ct_transactionId := None; ct_attempts := 0; ct_ledgerSeq := None; ct_lastError := None;
     ct_metadata := Some {| sm_plan := plan; sm_adminUserId := adminUserId; sm_envelope := envelope |};
     ct_submittedAt := now; ct_nextPollAt := now; ct_lastPolledAt := None; ct_finalizedAt := None |}.

(** [beforeSubmit]: one journaled hash per league. *)
Definition journal_settlement (leagueId adminUserId txHash envelope : string) (plan : SettlementPlan) (now : Z) : M () :=
  let! rows := mread fd_coordinated in
  match List.find (has_key leagueId) rows with
  | Some attempt =>
      guard_throw (negb (bool_decide (ct_txHash attempt = list_ascii_of_string txHash))) FinancialConflictError
  | None =>
      guard_throw (existsb (λ c, bool_decide (ct_txHash c = list_ascii_of_string txHash)) rows) DatabaseError ;!
      mwrite (λ db, Ok (set_coordinated db (fd_coordinated db ++
        [journal_row leagueId adminUserId txHash plan envelope now])))
  end.

Definition cents_of (q : Q) : Z := math_round (q * 100).

Definition ledger_row (leagueId : string) (type : TransactionType) (cents : Z) (memo txHash : string)
    (ledgerSeq : option Z) (now : Z) (user : string) : TransactionRow :=
  {| tx_userId := user; tx_leagueId := Some leagueId; tx_memberId := None; tx_type := type;
     tx_amount := cents; tx_stellarTxHash := Some txHash; tx_ledgerSeq := ledgerSeq;
     tx_memo := Some (list_ascii_of_string memo); tx_status := TS_CONFIRMED; tx_confirmedAt := Some now |}.

Fixpoint create_all (rows : list (string * (string → TransactionRow))) : M () :=
  match rows with
  | [] => mok tt
  | (u, row) :: rows => create_transaction (Some u) row ;! create_all rows
  end.

Definition payout_rows (leagueId adminUserId : string) (plan : SettlementPlan) (txHash : string)
    (ledgerSeq : option Z) (now : Z) : list (string * (string → TransactionRow)) :=
  ((λ w, (sw_userId w, ledger_row leagueId PRIZE_PAYOUT (sw_prizeCents w)
             ("PRIZE_PAYOUT:" +:+ leagueId +:+ ":" +:+ pretty (sw_rank w)) txHash ledgerSeq now))
     <$> pl_winners plan)
  ++ [(adminUserId, ledger_row leagueId PLATFORM_FEE (cents_of (pl_platformFee plan))
         ("PLATFORM_FEE:" +:+ leagueId) txHash ledgerSeq now)].

Definition settle_journal (leagueId : string) (ledgerSeq : option Z) (now : Z) (first : nat)
    (c : CoordinatedTransaction SettlementMetadata) : CoordinatedTransaction SettlementMetadata :=
  if has_key leagueId c
  then {| ct_settlementKey := ct_settlementKey c; ct_txHash := ct_txHash c; ct_kind := ct_kind c;
          ct_status := Tx_SUCCESS; ct_userId := ct_userId c; ct_leagueId := ct_leagueId c;
          ct_transactionId := Some first; ct_attempts := ct_attempts c; ct_ledgerSeq := ledgerSeq;
          ct_lastError := ct_lastError c; ct_metadata := ct_metadata c; ct_submittedAt := ct_submittedAt c;
          ct_nextPollAt := ct_nextPollAt c; ct_lastPolledAt := ct_lastPolledAt c; ct_finalizedAt := Some now |}
  else c.

Record SettlementDispatchReport : Type := {
  sr_stellarTxHash : string;
  sr_ledgerSeq : option Z;
  sr_winnerTransactionCount : nat;
  sr_platformFee : Q
}.

(** [updateMany({ where: { id, status: { not: COMPLETED } } })] decides who writes the ledger. *)
Definition commitSettlement (leagueId adminUserId : string) (plan : SettlementPlan) (txHash : string)
    (ledgerSeq : option Z) (now : Z) : M SettlementDispatchReport :=
  mtransaction
    (let! league := mread (find_league leagueId) in
     match league with
     | Some league =>
         if bool_decide (lg_status league = COMPLETED) then mok tt else
         mwrite (λ db, Ok (set_leagues db (map_set leagueId
           (set_prize_pool (cents_of (pl_netPrizePool plan)) league) (db_leagues (fd_league db))))) ;!
         let! first := mread (λ db, length (fd_transactions db)) in
         create_all (payout_rows leagueId adminUserId plan txHash ledgerSeq now) ;!
         mwrite (λ db, Ok (set_coordinated db (settle_journal leagueId ledgerSeq now first <$> fd_coordinated db)))
     | None => mok tt
     end) ;!
  mlift (rmap (λ _, tt) (toContractLeagueId leagueId)) ;!
  mok {| sr_stellarTxHash := txHash; sr_ledgerSeq := ledgerSeq;
         sr_winnerTransactionCount := length (pl_winners plan); sr_platformFee := pl_platformFee plan |}.

(** The network's view of a journaled hash. *)
Inductive SettlementStatus : Type := St_SUCCESS (ledger : option Z) | St_FAILED | St_NOT_FOUND | St_ERROR.

(** The same signed hash again; [replay] is the result of resubmitting the envelope. *)
Definition recoverSettlement (attempt : CoordinatedTransaction SettlementMetadata)
    (status : list ascii → SettlementStatus) (replay : string → option InvocationResult) (now : Z) :
    M SettlementDispatchReport :=
  match ct_metadata attempt, ct_leagueId attempt with
  | Some meta, Some leagueId =>
      let! result :=
        match status (ct_txHash attempt) with
        | St_NOT_FOUND =>
            match truthy (Some (sm_envelope meta)) with
            | Some envelope => match replay envelope with
                               | Some r => mok (if ir_success r then St_SUCCESS (ir_ledgerSeq r) else St_NOT_FOUND)
                               | None => mthrow FinancialConflictError
                               end
            | None => mok St_NOT_FOUND
            end
        | s => mok s
        end in
      match result with
      | St_SUCCESS ledger =>
          commitSettlement leagueId (sm_adminUserId meta) (sm_plan meta)
            (string_of_list_ascii (ct_txHash attempt)) ledger now
      | _ => mthrow FinancialConflictError
      end
  | _, _ => mthrow FinancialConflictError
  end.

(** The call of the contract client inside [try]: its result, and the journal
    written before anything is submitted. *)
Definition dispatch_settlement (leagueId adminUserId : string) (plan : SettlementPlan) (d : Dispatch) (now : Z) :
    M InvocationResult :=
  match dp_signed d with
  | None => found (dp_unsigned_result d) FinancialConflictError
  | Some (txHash, envelope) => λ db,
      match journal_settlement leagueId adminUserId txHash envelope plan now db with
      | (db, Ok _) => found (dp_result d) FinancialConflictError db
      | (db, Err _) => (db, Err FinancialConflictError)
      end
  end.

(** [meanwhile] is what other processes write while the transaction is being
    confirmed; it is the identity when nothing else runs. *)
Definition executeSettlement (decimal_columns : bool) (isValidStellarAddress : string → bool) (tracker : bool)
    (leagueId adminUserId : string) (dispatch : SettlementPlan → Dispatch)
    (meanwhile : FinancialDb → FinancialDb) (status : list ascii → SettlementStatus)
    (replay : string → option InvocationResult) (now : Z) : M SettlementDispatchReport :=
  let! league := mread (find_league leagueId) in
  let! league := found league FinancialNotFoundError in
  guard_throw (bool_decide (lg_status league = COMPLETED)) FinancialConflictError ;!
  guard_throw (bool_decide (lg_status league = CANCELLED)) FinancialValidationError ;!
  let! endGameweek := mread (λ db, find_gameweek (fd_league db) (lg_endGameweekId league)) in
  guard_throw (negb (match endGameweek with Some g => gw_isFinished g | None => false end))
    FinancialValidationError ;!
  let! admin := mread (λ db, bool_decide (adminUserId ∈ fd_admins db)) in
  guard_throw (negb admin) FinancialForbiddenError ;!
  let! previous := mread (λ db, List.find (has_key leagueId) (fd_coordinated db)) in
  match previous with
  | Some previous => recoverSettlement previous status replay now
  | None =>
      let! plan := mread (prepareSettlement decimal_columns leagueId (Some (lg_creatorId league))) in
      let! plan := mlift plan in
      guard_throw (negb (pl_canSettle plan) || bool_decide (pl_winners plan = [])) FinancialValidationError ;!
      guard_throw (existsb (λ w, negb (isValidStellarAddress (sw_stellarAddress w))) (pl_winners plan))
        FinancialValidationError ;!
      let! contractLeagueId := mlift (toContractLeagueId leagueId) in
      let! result := dispatch_settlement leagueId adminUserId plan (dispatch plan) now in
      (λ db, (meanwhile db, Ok tt)) ;!
      match ir_success result, truthy (ir_txHash result) with
      | true, Some txHash => commitSettlement leagueId adminUserId plan txHash (ir_ledgerSeq result) now
      | _, Some txHash =>
          trackTransaction tracker {| ti_txHash := txHash; ti_kind := "SETTLEMENT"; ti_userId := Some adminUserId;
            ti_leagueId := Some leagueId; ti_transactionId := None; ti_metadata := None; ti_submittedAt := None |} now ;!
          mthrow FinancialConflictError
      | _, None => mthrow FinancialConflictError
      end
  end.

(** [recoverPendingSettlements]: how many were recovered. *)
Definition recoverable_attempt (c : CoordinatedTransaction SettlementMetadata) : bool :=
  bool_decide (ct_kind c = "SETTLEMENT") && bool_decide (is_Some (ct_settlementKey c))
  && bool_decide (ct_transactionId c = None) && negb (bool_decide (ct_status c = Tx_FAILED)).

Definition recover_one (status : list ascii → SettlementStatus) (replay : string → option InvocationResult)
    (now : Z) (db : FinancialDb) (attempt : CoordinatedTransaction SettlementMetadata) : FinancialDb * nat :=
  let league := match ct_leagueId attempt with Some id => find_league id db | None => None end in
  if match league with Some l => bool_decide (lg_status l = COMPLETED) | None => false end then (db, O)
  else match recoverSettlement attempt status replay now db with
       | (db, Ok _) => (db, 1%nat)
       | (db, Err _) => (db, O)
       end.

Definition recoverPendingSettlements (status : list ascii → SettlementStatus)
    (replay : string → option InvocationResult) (now : Z) (db : FinancialDb) : FinancialDb * nat :=
  foldl (λ (acc : FinancialDb * nat) attempt,
    let '(db, n) := recover_one status replay now acc.1 attempt in (db, (acc.2 + n)%nat)) (db, O)
    (take 50 (sort_by (asc ct_nextPollAt) (List.filter recoverable_attempt (fd_coordinated db)))).

(** ** Lemmas: sharing the prizes of tied places *)

Section award.
Context (points : LeagueMember → Z) (addresses : list (string * string)).



















End award.



(** ** Properties: the settlement plan *)



(** ** Lemmas: the ledger *)

Definition booked (x : string * (string → TransactionRow)) : TransactionRow := x.2 x.1.

Lemma create_all_ok (rows : list (string * (string → TransactionRow))) db :
  (∀ x, x ∈ rows → tx_memberId (booked x) = None) →
  create_all rows db = (set_transactions db (fd_transactions db ++ (booked <$> rows)), Ok tt).
Proof.
  revert db. induction rows as [|[u row] rows IH]; intros db Hm.
  - cbn. rewrite app_nil_r. by destruct db.
  - cbn [create_all]. unfold mbind', create_transaction, mread, mwrite, mbind', mok.
    assert (tx_memberId (row u) = None) as Hu by (apply (Hm (u, row)); by left).
    destruct (existsb _ _) eqn:E.
    { apply existsb_exists in E as (t & _ & Ht). unfold same_tx_key in Ht. rewrite Hu in Ht.
      destruct (tx_stellarTxHash (row u)); done. }
    rewrite IH; [|intros x Hx; apply Hm; by right]. cbn [set_transactions fd_transactions fmap list_fmap booked fst snd].
    by rewrite <- app_assoc.
Qed.

Definition commit_db (leagueId adminUserId : string) (plan : SettlementPlan) (txHash : string)
    (ledgerSeq : option Z) (now : Z) (league : LeagueRow) (db : FinancialDb) : FinancialDb :=
  set_coordinated
    (set_transactions
      (set_leagues db (map_set leagueId (set_prize_pool (cents_of (pl_netPrizePool plan)) league)
        (db_leagues (fd_league db))))
      (fd_transactions db ++ (booked <$> payout_rows leagueId adminUserId plan txHash ledgerSeq now)))
    (settle_journal leagueId ledgerSeq now (length (fd_transactions db)) <$> fd_coordinated db).

Lemma payout_rows_member leagueId adminUserId plan txHash ledgerSeq now x :
  x ∈ payout_rows leagueId adminUserId plan txHash ledgerSeq now → tx_memberId (booked x) = None.
Proof.
  unfold payout_rows. intros [Hx|Hx]%elem_of_app.
  - by apply list_elem_of_fmap in Hx as (w & -> & _).
  - by apply list_elem_of_singleton in Hx as ->.
Qed.

(** A commit writes everything, or finds the league completed and writes nothing. *)
Lemma commit_eq leagueId adminUserId plan txHash ledgerSeq now db :
  commitSettlement leagueId adminUserId plan txHash ledgerSeq now db =
  (match find_league leagueId db with
   | Some league => if bool_decide (lg_status league = COMPLETED) then db
                    else commit_db leagueId adminUserId plan txHash ledgerSeq now league db
   | None => db
   end,
   rmap (λ _, {| sr_stellarTxHash := txHash; sr_ledgerSeq := ledgerSeq;
                 sr_winnerTransactionCount := length (pl_winners plan); sr_platformFee := pl_platformFee plan |})
     (toContractLeagueId leagueId)).
Proof.
  unfold commitSettlement, mbind', mtransaction, mlift, mread, mok.
  destruct (find_league leagueId db) as [league|]; [|by destruct (toContractLeagueId leagueId)].
  destruct (bool_decide (lg_status league = COMPLETED)); [by destruct (toContractLeagueId leagueId)|].
  unfold mwrite. cbn [set_leagues fd_transactions].
  rewrite create_all_ok by (intros x; apply payout_rows_member).
  unfold commit_db. cbn [set_transactions set_leagues fd_transactions fd_coordinated].
  by destruct (toContractLeagueId leagueId).
Qed.






Lemma track_tables tracker input now db db' r :
  trackTransaction tracker input now db = (db', r) →
  r = Ok tt ∧ fd_league db' = fd_league db ∧ fd_transactions db' = fd_transactions db.
Proof.
  unfold trackTransaction, mok. destruct tracker; [|by intros [= <- <-]].
  destruct (track _ _ _); by intros [= <- <-].
Qed.



Lemma execute_completed dc valid tracker leagueId admin dispatch meanwhile status replay now db league :
  find_league leagueId db = Some league → lg_status league = COMPLETED →
  executeSettlement dc valid tracker leagueId admin dispatch meanwhile status replay now db
    = (db, Err FinancialConflictError).
Proof.
  intros Hl Hs. unfold executeSettlement, mbind', mread, found, guard_throw, mok, mthrow. rewrite Hl.
  by rewrite bool_decide_eq_true_2.
Qed.




(** ** Properties: executing a settlement *)


(** The gameweek job makes the settlement of every league that ends
    impossible: after it has settled a league's last gameweek, which is when
    the gameweek is marked finished, [executeSettlement] refuses the league
    whoever asks and whatever the network says; and a settlement that was in
    flight and is confirmed afterwards is reported as done with nothing booked. *)
Theorem ended_league_never_settled (sha256_byte0 : string → Z) (gw now : Z) (w w' : World) (leagueId : string)
    (l : LeagueRow) (db : FinancialDb) :
  settleGameweek sha256_byte0 gw now w = (w', None) →
  (leagueId, l) ∈ running_leagues gw (w_league w) → lg_endGameweekId l = gw →
  fd_league db = w_league w' →
  (∀ dc valid tracker admin dispatch meanwhile status replay now2,
    executeSettlement dc valid tracker leagueId admin dispatch meanwhile status replay now2 db
      = (db, Err FinancialConflictError)) ∧
  (∀ admin plan txHash ledgerSeq now2, (commitSettlement leagueId admin plan txHash ledgerSeq now2 db).1 = db) ∧
  (∀ admin plan txHash ledgerSeq now2, is_ok (toContractLeagueId leagueId) = true →
    is_ok (commitSettlement leagueId admin plan txHash ledgerSeq now2 db).2 = true).
Proof.
  intros H Hin Hend Hdb.
  destruct (settle_ok_parts _ _ _ _ _ H) as (w1 & w2 & w3 & w4 & w5 & w6 & _ & _ & _ & H4 & H5 & H6 & H7 & E3).
  unfold handleSettleLeagues in H4. rewrite E3 in H4.
  pose proof (handled_completed _ _ _ _ _ l H4 Hin Hend) as C4.
  assert (completed leagueId w5) as C5.
  { apply (for_each_pres (completed leagueId) _ _ _ _ H5 C4). intros x v v' _ Cv Hv. by eapply completed_league. }
  injection H6 as <-. injection H7 as <-. unfold completed in C5.
  assert (∃ league, find_league leagueId db = Some league ∧ lg_status league = COMPLETED) as (league & Hl & Hs).
  { unfold find_league. rewrite Hdb. cbn [w_league set_squads_of set_league db_leagues].
    change (db_leagues (recalculateClassicStandings gw (league_view w5)).2) with (db_leagues (w_league w5)).
    destruct (map_get leagueId (db_leagues (w_league w5))) as [league|]; [|done]. injection C5 as C5. by exists league. }
  split_and!.
  - intros. by eapply execute_completed.
  - intros. rewrite commit_eq, Hl, bool_decide_eq_true_2 by done. done.
  - intros admin plan txHash ledgerSeq now2 Hok. rewrite commit_eq. cbn [snd].
    by destruct (toContractLeagueId leagueId).
Qed.

(** ** Payment calls *)

Inductive PaymentCall : Type :=
| CallCreate (userId leagueId squadId newId : string) (now : Z)
| CallSubmit (tracker : bool) (userId leagueId stellarTxHash stellarAddress : string) (now : Z)
| CallVerify (userId leagueId stellarTxHash : string) (verification : PaymentVerification) (now : Z)
| CallReconcile (userId leagueId : string) (getContractDeposit : Z → string → option Z) (now : Z).

Definition caller (c : PaymentCall) : string * string :=
  match c with
  | CallCreate u l _ _ _ | CallSubmit _ u l _ _ _ | CallVerify u l _ _ _ | CallReconcile u l _ _ => (l, u)
  end.

(** The state a call leaves. *)
Definition run_call (dc : bool) (validAddress validKey : string → bool) (c : PaymentCall) (db : FinancialDb) : FinancialDb :=
  match c with
  | CallCreate u l s n now => (createPaymentRequirement dc u l s n now db).1
  | CallSubmit t u l h a now => (submitPayment validAddress t u l h a now db).1
  | CallVerify u l h v now => (verifyAndConfirmPayment u l h v now db).1
  | CallReconcile u l d now => (reconcileDeposit validKey u l d now db).1
  end.

(** What must be the case for a call to confirm the payment of [m]. *)
Definition payment_evidence (dc : bool) (c : PaymentCall) (db : FinancialDb) (m : LeagueMember) : Prop :=
  match c with
  | CallCreate _ l _ _ _ => ∃ league, find_league l db = Some league ∧ is_free dc (lg_entryFee league) = true
  | CallSubmit _ _ _ _ _ _ => False
  | CallVerify _ _ _ v _ => pv_success v = true
  | CallReconcile _ l deposit _ => ∃ league address contractId stroops,
      find_league l db = Some league ∧ map_get (mb_id m) (fd_addresses db) = Some address ∧
      toContractLeagueId l = Ok contractId ∧ deposit contractId address = Some stroops ∧
      lg_entryFee league * 100000 ≤ stroops + 1000
  end.

(** What a call may do to the member table: nothing, one new row, or one update
    of the caller's row, never of a confirmed one. *)
Record allowed_update (ev : LeagueMember → Prop) (m0 : LeagueMember) (f : LeagueMember → LeagueMember) : Prop := {
  au_open : is_settled_member m0 = false;
  au_keys : ∀ m, mkey (f m) = mkey m;
  au_paid : ∀ m, mb_paymentStatus (f m) = PAYMENT_CONFIRMED → ev m0
}.

Inductive member_effect (key : string * string) (ev : LeagueMember → Prop) (db : FinancialDb) :
    list LeagueMember → Prop :=
| effect_none : member_effect key ev db (db_members (fd_league db))
| effect_new m : is_member key.1 key.2 m = true → (mb_paymentStatus m = PAYMENT_CONFIRMED → ev m) →
    member_effect key ev db (db_members (fd_league db) ++ [m])
| effect_update m0 f :
    find_member key.1 key.2 db = Some m0 → allowed_update ev m0 f →
    member_effect key ev db ((λ m, if bool_decide (mb_id m = mb_id m0) then f m else m) <$> db_members (fd_league db)).

Lemma update_one_cases id f db db' r :
  update_one_member id f db = (db', r) →
  (db' = db ∧ r = Err DatabaseError) ∨
  (r = Ok tt ∧ db' = set_members db ((λ m, if bool_decide (mb_id m = id) then f m else m) <$> db_members (fd_league db))).
Proof.
  unfold update_one_member, mwrite, update_member. destruct (existsb _ _); intros [= <- <-]; [by right|by left].
Qed.

Lemma mkey_payment status p paid squad m : mkey (set_payment_state status p paid squad m) = mkey m.
Proof. done. Qed.

Lemma create_effect dc u l s n now db ev :
  (∀ m league, find_league l db = Some league → is_free dc (lg_entryFee league) = true → ev m) →
  member_effect (l, u) ev db (db_members (fd_league (createPaymentRequirement dc u l s n now db).1)).
Proof.
  intros Hev. unfold createPaymentRequirement, mbind', mread, found, guard_throw, mok, mthrow.
  destruct (find_league l db) as [league|] eqn:El; [|constructor].
  destruct (negb _); [constructor|]. destruct (negb _); [constructor|].
  destruct (_ && _); [constructor|]. destruct (find_member l u db) as [m0|] eqn:Em.
  - destruct (is_free dc (lg_entryFee league)) eqn:Ef.
    + destruct (bool_decide_reflect (mb_status m0 = Member_ACTIVE)) as [Ea|Ea]; cbn [negb]; [constructor|].
      destruct (update_one_member _ _ db) as [db1 r1] eqn:Eu.
      apply update_one_cases in Eu as [[-> ->]|[-> ->]]; [constructor|]. cbn. apply effect_update; [done|].
      constructor; [|done|by eauto]. unfold is_settled_member. rewrite andb_comm. by rewrite bool_decide_eq_false_2.
    + destruct (can_initiate (mb_paymentStatus m0)) eqn:Ec; [|constructor].
      destruct (update_one_member _ _ db) as [db1 r1] eqn:Eu.
      apply update_one_cases in Eu as [[-> ->]|[-> ->]]; [constructor|]. cbn. apply effect_update; [done|].
      constructor; [|done|done]. unfold is_settled_member, can_initiate in *.
      by destruct (mb_paymentStatus m0).
  - unfold create_member, mwrite. destruct (insert_member _ _) as [ms|] eqn:Ei; [|constructor].
    cbn. apply insert_member_ok in Ei as (-> & _). constructor.
    + unfold is_member. cbn. by rewrite !bool_decide_eq_true_2.
    + cbn. destruct (is_free dc (lg_entryFee league)) eqn:Ef; [|done]. intros _. by eapply Hev.
Qed.

Lemma submit_effect valid t u l h a now db ev :
  member_effect (l, u) ev db (db_members (fd_league (submitPayment valid t u l h a now db).1)).
Proof.
  unfold submitPayment, mbind', mread, found, guard_throw, mok, mthrow.
  destruct (negb _); [constructor|]. destruct (negb _); [constructor|].
  destruct (find_member l u db) as [m0|] eqn:Em; [|constructor].
  destruct (find_league l db) as [league|]; [|constructor].
  destruct (bool_decide_reflect (mb_paymentStatus m0 = PAYMENT_CONFIRMED)) as [Ep|Ep]; [constructor|].
  destruct (taken_by_other _ _); [constructor|].
  destruct (update_one_member _ _ db) as [db1 r1] eqn:Eu.
  apply update_one_cases in Eu as [[-> ->]|[-> ->]]; [constructor|].
  assert (∀ db2 : FinancialDb, fd_league db2 = fd_league (set_members db ((λ m, if bool_decide (mb_id m = mb_id m0)
     then set_payment_state None PAYMENT_SUBMITTED None None m else m) <$> db_members (fd_league db))) →
    member_effect (l, u) ev db (db_members (fd_league db2))) as Hup.
  { intros db2 ->. cbn. apply effect_update; [done|]. constructor; [|done|done].
    unfold is_settled_member. by rewrite bool_decide_eq_false_2. }
  unfold mwrite. destruct (find_tx _ _) as [[i tx]|].
  - unfold update_tx, mwrite. destruct (trackTransaction _ _ _ _) as [db2 r2] eqn:E2.
    destruct (track_tables _ _ _ _ _ _ E2) as (-> & T1 & _). cbn [fst]. apply (Hup db2). by rewrite T1.
  - by apply Hup.
Qed.

Lemma verify_effect u l h v now db ev :
  (∀ m, pv_success v = true → ev m) →
  member_effect (l, u) ev db (db_members (fd_league (verifyAndConfirmPayment u l h v now db).1)).
Proof.
  intros Hev. unfold verifyAndConfirmPayment, mtransaction, mbind', mread, found, mok, mthrow.
  destruct (find_member l u db) as [m0|] eqn:Em; [|constructor].
  destruct (is_settled_member m0) eqn:Es; [constructor|].
  destruct (pv_success v) eqn:Ev; cbn [negb].
  - destruct (update_one_member _ _ db) as [db1 r1] eqn:Eu.
    apply update_one_cases in Eu as [[-> ->]|[-> ->]]; [constructor|]. cbn. apply effect_update; [done|].
    constructor; [done|done|]. intros _ _. by apply Hev.
  - destruct (pv_retryable v); [constructor|]. destruct (update_one_member _ _ db) as [db1 r1] eqn:Eu.
    apply update_one_cases in Eu as [[-> ->]|[-> ->]]; [constructor|]. cbn. by apply effect_update.
Qed.

Lemma reconcile_effect valid u l d now db :
  member_effect (l, u) (payment_evidence false (CallReconcile u l d now) db) db
    (db_members (fd_league (reconcileDeposit valid u l d now db).1)).
Proof.
  unfold reconcileDeposit, mbind', mread, found, guard_throw, mok, mthrow.
  destruct (find_member l u db) as [m0|] eqn:Em; [|constructor].
  destruct (find_league l db) as [league|] eqn:El; [|constructor].
  destruct (is_settled_member m0) eqn:Es; [constructor|].
  destruct (map_get (mb_id m0) (fd_addresses db)) as [address|] eqn:Ea; [|constructor].
  cbn [truthy]. destruct (decide (address = "")); [constructor|].
  destruct (negb _); [constructor|]. destruct (toContractLeagueId l) as [cid|] eqn:Ec; [|constructor].
  destruct (d cid address) as [stroops|] eqn:Ed; [|constructor].
  destruct (deposit_missing _ _) eqn:Emiss; [constructor|].
  destruct (List.find _ _); [|constructor]. destruct (update_one_member _ _ db) as [db1 r1] eqn:Eu.
  apply update_one_cases in Eu as [[-> ->]|[-> ->]]; [constructor|].
  assert (∀ db2 : FinancialDb, fd_league db2 = fd_league (set_members db ((λ m, if bool_decide (mb_id m = mb_id m0)
     then set_payment_state (Some Member_ACTIVE) PAYMENT_CONFIRMED (Some true) None m else m) <$> db_members (fd_league db))) →
    member_effect (l, u) (payment_evidence false (CallReconcile u l d now) db) db (db_members (fd_league db2))) as Hup.
  { intros db2 ->. cbn [set_members fd_league db_members LeagueDb.with_members]. apply effect_update; [done|].
    constructor; [done|done|]. intros _ _. exists league, address, cid, stroops. split_and!; try done.
    unfold deposit_missing in Emiss. apply Z.ltb_ge in Emiss. lia. }
  destruct (find_tx _ _) as [[i tx]|]; by apply Hup.
Qed.

(** ** Properties: payments *)

(** The payment endpoint is a way around the capacity of a league: into a
    public league that is full, where [joinLeague] lets nobody in, a manager
    with a squad gets a membership by asking for the payment instructions; the
    member counter stays, so the league ends up over its limit and its counters
    wrong. *)
Theorem payment_bypasses_capacity (dc : bool) (userId leagueId squadId newId : string) (now : Z)
    (db : FinancialDb) (league : LeagueRow) :
  wf_counts nothing_elsewhere (fd_league db) → find_league leagueId db = Some league →
  lg_status league = UPCOMING → lg_isPrivate league = false →
  lg_maxMembers league = lg_currentMembers league →
  (squadId, userId) ∈ db_squads (fd_league db) → find_member leagueId userId db = None →
  newId ∉ mb_id <$> db_members (fd_league db) →
  (∀ hash token memberId at_, is_ok (joinLeague hash memberId leagueId userId squadId token at_ (fd_league db)) = false) ∧
  let '(db', r) := createPaymentRequirement dc userId leagueId squadId newId now db in
  is_ok r = true ∧
  db_members (fd_league db') = db_members (fd_league db)
    ++ [paying_member newId leagueId userId squadId (is_free dc (lg_entryFee league)) now] ∧
  db_leagues (fd_league db') = db_leagues (fd_league db) ∧
  lg_maxMembers league < countb (in_league leagueId) (mkey <$> db_members (fd_league db')) ∧
  ¬ wf_counts nothing_elsewhere (fd_league db').
Proof.
  intros [Hw1 _ _] Hl Hs Hp Hfull Hsq Hm Hid. split.
  - intros hash token memberId at_. unfold joinLeague, join_checks. unfold find_league in Hl. rewrite Hl.
    cbn [or_throw rbind]. destruct (find_gameweek _ _) as [g|]; [|done]. cbn [or_throw rbind]. rewrite Hp.
    cbn [rbind]. rewrite bool_decide_eq_false_2 by (by intros ?). cbn [throw_if rbind].
    destruct (gw_deadline g <=? at_); [done|]. cbn [throw_if rbind].
    by rewrite (proj2 (Z.leb_le _ _)) by lia.
  - unfold createPaymentRequirement, mbind', mread, found, guard_throw, mok, mthrow. rewrite Hl.
    rewrite (bool_decide_eq_true_2 (lg_status league = UPCOMING)) by done. cbn [negb].
    rewrite (bool_decide_eq_true_2 ((squadId, userId) ∈ _)) by done. cbn [negb].
    rewrite Hp, Hm. cbn [andb]. unfold create_member, mwrite.
    set (m := paying_member newId leagueId userId squadId (is_free dc (lg_entryFee league)) now).
    assert (insert_member m (db_members (fd_league db)) = Ok (db_members (fd_league db) ++ [m])) as ->.
    { unfold insert_member. replace (_ || _) with false; [done|]. symmetry. apply orb_false_iff. split.
      - apply not_true_iff_false. intros (x & Hx & Hmem)%existsb_exists.
        pose proof (List.find_none _ _ Hm x Hx) as Hno. cbn [m paying_member mb_leagueId mb_userId] in Hmem. congruence.
      - apply not_true_iff_false. intros (x & Hx%list_elem_of_In & E%bool_decide_eq_true)%existsb_exists.
        apply Hid. replace newId with (mb_id x). by apply list_elem_of_fmap_2. }
    cbn [fst snd is_ok set_members fd_league db_members LeagueDb.with_members db_leagues].
    assert (countb (in_league leagueId) (mkey <$> (db_members (fd_league db) ++ [m])) = lg_maxMembers league + 1) as Hc.
    { rewrite fmap_app. cbn [fmap list_fmap]. rewrite countb_in_league_snoc.
      destruct (Hw1 leagueId league Hl) as [C1 _ _ _ _]. rewrite C1, Hfull. change (uncounted (el_paid nothing_elsewhere) leagueId) with 0.
      unfold in_league. rewrite bool_decide_eq_true_2 by done. lia. }
    split_and!; [done|done|done|rewrite Hc; lia|]. intros [Hw _ _].
    destruct (Hw leagueId league Hl) as [C1 _ _ _ _]. unfold set_members in C1.
    cbn [fd_league db_members LeagueDb.with_members] in C1. rewrite Hc in C1. change (uncounted (el_paid nothing_elsewhere) leagueId) with 0 in C1. lia.
Qed.

(** What an effect means for the row at [i]. *)
Lemma effect_row key ev db ms i m :
  NoDup (mb_id <$> db_members (fd_league db)) → db_members (fd_league db) !! i = Some m → member_effect key ev db ms →
  ∃ m', ms !! i = Some m' ∧ mkey m' = mkey m ∧ (m' ≠ m → is_member key.1 key.2 m = true ∧ is_settled_member m = false) ∧
    (mb_paymentStatus m' = PAYMENT_CONFIRMED → mb_paymentStatus m ≠ PAYMENT_CONFIRMED → ev m ∧ find_member key.1 key.2 db = Some m).
Proof.
  intros Hn Hi He. inversion He as [Hms|m0 _ _ Hms|m0 f Hfind [A1 A2 A3] Hms].
  - exists m. by split_and!.
  - exists m. split_and!; [by apply lookup_app_l_Some|done|done|done].
  - pose proof Hfind as Hfound. apply List.find_some in Hfind as [Hin%list_elem_of_In Hmem].
    rewrite list_lookup_fmap, Hi. cbn [fmap option_fmap option_map]. eexists. split; [reflexivity|].
    destruct (bool_decide_reflect (mb_id m = mb_id m0)) as [Eid|Eid]; [|by split_and!].
    assert (m0 = m) as ->.
    { apply list_elem_of_lookup in Hin as [j Hj]. assert (i = j) as ->; [|congruence].
      apply (NoDup_lookup (mb_id <$> db_members (fd_league db)) i j (mb_id m)); [done| |];
        rewrite list_lookup_fmap; [by rewrite Hi|by rewrite Hj, Eid]. }
    split_and!; [apply A2|by intros _|]. intros Hp _. split; [by eapply A3|done].
Qed.

(** A row beyond the old ones. *)
Lemma effect_new_row key ev db ms i m : (length (db_members (fd_league db)) <= i)%nat → ms !! i = Some m →
  member_effect key ev db ms → is_member key.1 key.2 m = true ∧ (mb_paymentStatus m = PAYMENT_CONFIRMED → ev m).
Proof.
  intros Hi Hm He. revert Hm. destruct He as [|m0 H1 H2|m0 f _ _]; intros Hm.
  - apply lookup_lt_Some in Hm. lia.
  - rewrite lookup_app_r in Hm by done.
    destruct (i - length (db_members (fd_league db)))%nat; [by injection Hm as <-|done].
  - apply lookup_lt_Some in Hm. rewrite length_fmap in Hm. lia.
Qed.

(** C16. A payment is confirmed only against evidence: a call on behalf of a
    manager touches nobody else's membership and never one that is confirmed
    and active, and the only row it can add is the caller's own; it confirms a
    membership, old or new, only if the league is free, the network verified the
    transaction, or the escrow holds the entry fee for the wallet on record;
    submitting a hash is never enough. *)
Theorem payment_confirmed_on_evidence (dc : bool) (validAddress validKey : string → bool) (c : PaymentCall) (db : FinancialDb) :
  NoDup (mb_id <$> db_members (fd_league db)) →
  let rows' := db_members (fd_league (run_call dc validAddress validKey c db)) in
  (∀ i m, db_members (fd_league db) !! i = Some m →
    ∃ m', rows' !! i = Some m' ∧ mkey m' = mkey m ∧
      (m' ≠ m → is_member (caller c).1 (caller c).2 m = true ∧ is_settled_member m = false) ∧
      (mb_paymentStatus m' = PAYMENT_CONFIRMED → mb_paymentStatus m ≠ PAYMENT_CONFIRMED → payment_evidence dc c db m)) ∧
  (∀ i m', (length (db_members (fd_league db)) <= i)%nat → rows' !! i = Some m' →
    is_member (caller c).1 (caller c).2 m' = true ∧
    (mb_paymentStatus m' = PAYMENT_CONFIRMED → payment_evidence dc c db m')).
Proof.
  intros Hn rows'.
  assert (member_effect (caller c) (payment_evidence dc c db) db rows') as He.
  { destruct c; cbn [caller run_call].
    - apply create_effect. intros m0 league Hl Hf. by exists league.
    - apply submit_effect.
    - apply verify_effect. by intros m0 Hv.
    - apply reconcile_effect. }
  split; [|intros i m' Hi Hm'; by eapply effect_new_row].
  intros i m Hi. destruct (effect_row _ _ _ _ _ _ Hn Hi He) as (m' & H1 & H2 & H3 & H4). exists m'. split_and!; [done..|].
  intros Hp Hm. by apply H4.
Qed.

(** ** Samples and witnesses *)

Definition sample_id : string := "00000000-0000-00ab-0000-000000000001".

Definition sample_member (id : string) (status : MembershipStatus) (payment : PaymentStatus) (joined : Z) : LeagueMember :=
  {| mb_id := id; mb_leagueId := sample_id; mb_userId := id; mb_squadId := id; mb_status := status;
     mb_paymentStatus := payment; mb_hasPaid := true; mb_joinedAt := joined; mb_rank := None;
     mb_totalPoints := 0; mb_matchesWon := 0; mb_matchesDrawn := 0; mb_matchesLost := 0;
     mb_pointsFor := 0; mb_pointsAgainst := 0; mb_h2hPoints := 0 |}.

(** Three paid members at 10 USDC, two of them level at the top; the winner takes all. *)
Definition sample_paid_db (status : LeagueStatus) (p : PaymentStatus) : FinancialDb :=
  {| fd_league := {|
       db_leagues := [(sample_id, {| lg_name := []; lg_creatorId := "a"; lg_inviteCode := None; lg_maxMembers := 3;
         lg_minMembers := 2; lg_currentMembers := 3; lg_entryFee := 1000; lg_prizePool := 0; lg_status := status;
         lg_scoringType := CLASSIC; lg_scoringConfig := None; lg_payoutPreset := WinnerTakesAll;
         lg_payoutSplitsBps := []; lg_isPrivate := false; lg_buyIn := None;
         lg_startGameweekId := 1; lg_endGameweekId := 3 |})];
       db_members := [sample_member "a" Member_ACTIVE p 1; sample_member "b" Member_ACTIVE p 2; sample_member "c" Member_ACTIVE p 3];
       db_fixtures := []; db_invitations := []; db_squadScores := []; db_leagueScores := [];
       db_gameweeks := [{| gw_id := 3; gw_fplId := 3; gw_deadline := 0; gw_firstKickoff := None; gw_isFinished := true |}];
       db_squads := [] |};
     fd_addresses := [("a", "GA"); ("b", "GB"); ("c", "GC")];
     fd_squadPoints := [("a", 50); ("b", 50); ("c", 40)];
     fd_transactions := []; fd_coordinated := []; fd_admins := ["admin"] |}.


Definition sample_dispatch (_ : SettlementPlan) : Dispatch :=
  let result := Some {| ir_success := true; ir_txHash := Some "abc"; ir_ledgerSeq := Some 9 |} in
  {| dp_signed := Some ("abc", "envelope"); dp_unsigned_result := None; dp_result := result |}.




(** The classic league of the sample world ends in gameweek 1. *)
Lemma ended_league_never_settled_witness :
  let w' := (settleGameweek (λ _, 0) 1 99 sample_world).1 in
  let db := {| fd_league := w_league w'; fd_addresses := []; fd_squadPoints := []; fd_transactions := [];
               fd_coordinated := []; fd_admins := ["admin"] |} in
  (settleGameweek (λ _, 0) 1 99 sample_world).2 = None ∧
  executeSettlement true (λ _, true) false "C" "admin" sample_dispatch id (λ _, St_ERROR) (λ _, None) 100 db
    = (db, Err FinancialConflictError).
Proof.
  assert ((settleGameweek (λ _, 0) 1 99 sample_world).2 = None) as Hr by (vm_compute; reflexivity).
  intros w' db. split; [exact Hr|].
  assert (settleGameweek (λ _, 0) 1 99 sample_world = (w', None)) as Hw by (rewrite <- Hr; apply surjective_pairing).
  assert (("C", sample_league CLASSIC None 1) ∈ running_leagues 1 (w_league sample_world)) as Hin
    by (vm_compute; right; left).
  assert (fd_league db = w_league w') as Hdb by reflexivity.
  clearbody db. clearbody w'.
  exact (proj1 (ended_league_never_settled (λ _, 0) 1 99 sample_world w' "C" (sample_league CLASSIC None 1) db
    Hw Hin eq_refl Hdb) true (λ _, true) false "admin" sample_dispatch id (λ _, St_ERROR) (λ _, None) 100).
Defined.

(** The league for two of the samples, full. *)
Definition sample_full : result LeagueError LeagueDb :=
  let* db := sample_league_db in joinLeague id "m2" "L" "b" "sb" None 20 db.

Lemma payment_bypasses_capacity_witness :
  match sample_full with
  | Ok ldb =>
      let db := {| fd_league := ldb; fd_addresses := []; fd_squadPoints := []; fd_transactions := [];
                   fd_coordinated := []; fd_admins := [] |} in
      let '(db', r) := createPaymentRequirement true "c" "L" "sc" "m3" 30 db in
      is_ok r = true ∧ ¬ wf_counts nothing_elsewhere (fd_league db')
  | Err _ => False
  end.
Proof.
  destruct sample_full as [ldb|e] eqn:E; [|vm_compute in E; discriminate E].
  assert (wf_counts nothing_elsewhere ldb) as Hw.
  { unfold sample_full in E. destruct sample_league_db as [d|] eqn:E0; [|discriminate E]. cbn [rbind] in E.
    eapply step_counts; [exact (do_join id "m2" "L" "b" "sb" None 20 d ldb E)|].
    eapply step_counts; [exact (do_create id "L" "m1" _ _ _ _ _ _ _ E0)|apply wf_counts_empty]. }
  set (db := {| fd_league := ldb; fd_addresses := []; fd_squadPoints := []; fd_transactions := [];
                fd_coordinated := []; fd_admins := [] |}).
  destruct (find_league "L" db) as [league|] eqn:El; [|vm_compute in E; injection E as <-; discriminate El].
  pose proof (payment_bypasses_capacity true "c" "L" "sc" "m3" 30 db league Hw El) as H.
  vm_compute in E. injection E as <-. vm_compute in El. injection El as <-.
  destruct H as [_ H]; try reflexivity; [apply (bool_decide_unpack _); vm_compute; exact I
    |apply (bool_decide_unpack _); vm_compute; exact I|].
  intros db0. change db0 with db.
  destruct (createPaymentRequirement true "c" "L" "sc" "m3" 30 db) as [db' r].
  destruct H as (H1 & _ & _ & _ & H5). split; [exact H1|exact H5].
Defined.

(** A refunded member of a cancelled league verifies the old hash again, and is
    a paid, active member once more. *)
Lemma payment_confirmed_on_evidence_witness :
  let c := CallVerify "b" sample_id "abc" {| pv_success := true; pv_retryable := false; pv_ledgerSeq := None; pv_confirmedAt := None |} 50 in
  let db := sample_paid_db CANCELLED Pay_REFUNDED in
  (λ m, (mb_paymentStatus m, mb_status m)) <$> db_members (fd_league (run_call true (λ _, true) (λ _, true) c db)) !! 1%nat
    = Some (PAYMENT_CONFIRMED, Member_ACTIVE) ∧
  payment_evidence true c db (sample_member "b" Member_ACTIVE Pay_REFUNDED 2).
Proof.
  intros c db. split; [vm_compute; reflexivity|].
  destruct (payment_confirmed_on_evidence true (λ _, true) (λ _, true) c db) as [H _];
    [apply (bool_decide_unpack _); vm_compute; exact I|].
  destruct (H 1%nat (sample_member "b" Member_ACTIVE Pay_REFUNDED 2) eq_refl) as (m' & Hm' & _ & _ & He).
  apply He; [|discriminate]. vm_compute in Hm'. injection Hm' as <-. reflexivity.
Defined.

(** A hash that is not in the ledger yet is never recorded: the member is
    marked, then the create without a user is refused. *)
Lemma submit_fails_after_marking valid tracker userId leagueId hash address now db m league :
  isValidTransactionHash hash = true → valid address = true →
  find_member leagueId userId db = Some m → find_league leagueId db = Some league →
  mb_paymentStatus m ≠ PAYMENT_CONFIRMED → find_tx (is_entry_fee_with hash) db = None →
  let '(db', r) := submitPayment valid tracker userId leagueId hash address now db in
  r = Err DatabaseError ∧ fd_transactions db' = fd_transactions db ∧
  map_get (mb_id m) (fd_addresses db') = Some address.
Proof.
  intros Hh Ha Hm Hl Hp Hf. unfold submitPayment, mbind', mread, guard_throw, found, mok, mthrow.
  rewrite Hh, Ha. cbn [negb]. rewrite Hm, Hl, bool_decide_eq_false_2, Hf by done. cbn [taken_by_other].
  unfold update_one_member, update_member, mwrite.
  assert (existsb (λ x, bool_decide (mb_id x = mb_id m)) (db_members (fd_league db)) = true) as ->.
  { apply List.find_some in Hm as [Hin _]. apply existsb_exists. exists m. split; [done|]. by apply bool_decide_eq_true. }
  cbn. split_and!; [done|done|apply map_get_set_eq].
Qed.

(** Three winners level in a winner-takes-all league with a pool of 1000 USDC:
    33 333.. cents are no whole number of basis points, so there is no plan. *)
Lemma tied_plan_refused :
  encodeSorobanPayoutAmounts (amount <$> [33334; 33333; 33333]) (amount 100000) = Err NotRepresentable.
Proof. vm_compute. reflexivity. Qed.
