(* ===== verification/Membership.v ===== *)
(** * The membership of a league, across the services that write it

    Members come in through [LeagueService] and through the payment endpoint of
    [FinancialService], which counts nobody; a settlement writes the prize pool.
    The steps below are those of both services, and the property says what of
    the league's books survives all of them. *)

From Stdlib Require Import QArith.
From S2P Require Import Prelude Prize ScoringConfig Tournament LeagueDb HeadToHead League Settlement TxCoordinator Financial.

#[local] Open Scope Z_scope.

(** ** Runs *)

Definition with_league (db : FinancialDb) (league : LeagueDb) : FinancialDb :=
  {| fd_league := league; fd_addresses := fd_addresses db; fd_squadPoints := fd_squadPoints db;
     fd_transactions := fd_transactions db; fd_coordinated := fd_coordinated db; fd_admins := fd_admins db |}.

(** The league of a call that added a row. *)
Definition added (leagueId : string) (db db' : FinancialDb) : list string :=
  if (length (db_members (fd_league db)) <? length (db_members (fd_league db')))%nat then [leagueId] else [].

(** Handlers that run without overlapping another, and what has been written
    elsewhere so far. *)
Inductive membership_step (dc : bool) (validAddress validKey : string → bool) (hash : string → string) :
    FinancialDb * Elsewhere → FinancialDb * Elsewhere → Prop :=
| ms_league db e league' :
    league_step hash (fd_league db) league' →
    membership_step dc validAddress validKey hash (db, e) (with_league db league', e)
| ms_payment db e c db' :
    run_call dc validAddress validKey c db = db' →
    membership_step dc validAddress validKey hash (db, e)
      (db', {| el_paid := el_paid e ++ added (caller c).1 db db'; el_settled := el_settled e |})
| ms_settlement db e leagueId admin plan txHash ledgerSeq now db' r :
    commitSettlement leagueId admin plan txHash ledgerSeq now db = (db', r) →
    membership_step dc validAddress validKey hash (db, e)
      (db', {| el_paid := el_paid e; el_settled := leagueId :: el_settled e |})
| ms_other db e db' :
    fd_league db' = fd_league db → membership_step dc validAddress validKey hash (db, e) (db', e).

(** The books of a league: its counter and the members the payment endpoint
    added are its member rows; the counter is between 1 and the maximum, of at
    most 100 000; the minimum is at least 2; and the prize pool is the one
    [calculatePrizeDistribution] gives for the counter, until a settlement. *)
Record books_right (e : Elsewhere) (db : LeagueDb) (leagueId : string) (l : LeagueRow) : Prop := {
  br_rows : countb (λ m, bool_decide (mb_leagueId m = leagueId)) (db_members db)
    = lg_currentMembers l + countb (λ x, bool_decide (x = leagueId)) (el_paid e);
  br_counter : 1 ≤ lg_currentMembers l ≤ lg_maxMembers l;
  br_limits : 2 ≤ lg_minMembers l ≤ lg_maxMembers l ∧ lg_maxMembers l ≤ 100000;
  br_pool : leagueId ∉ el_settled e → ∃ report,
    calculatePrizeDistribution (int (lg_currentMembers l)) (Fin (lg_entryFee l # 100)) default_options = Ok report ∧
    math_round (prizePool report * 100) = lg_prizePool l
}.

(** ** Lemmas *)

(** What a payment call does to the league tables. *)
Inductive call_effect (leagueId : string) (d : LeagueDb) : LeagueDb → Prop :=
| ce_same d' : same_keys d d' → length (db_members d') = length (db_members d) → call_effect leagueId d d'
| ce_new m ms : mb_leagueId m = leagueId → is_Some (map_get leagueId (db_leagues d)) →
    insert_member m (db_members d) = Ok ms → call_effect leagueId d (LeagueDb.with_members d ms).

Lemma ce_refl leagueId d : call_effect leagueId d d.
Proof. by apply ce_same. Qed.

(** One row updated, its keys kept. *)
Lemma ce_update leagueId f id (db : FinancialDb) :
  (∀ m, mkey (f m) = mkey m) →
  call_effect leagueId (fd_league db)
    (fd_league (set_members db ((λ m, if bool_decide (mb_id m = id) then f m else m) <$> db_members (fd_league db)))).
Proof.
  intros Hf. apply ce_same; cbn; [|by rewrite length_fmap]. constructor; [|done|done].
  apply fmap_keys. intros m. by destruct (bool_decide _).
Qed.

Lemma create_call dc u l s n now db :
  call_effect l (fd_league db) (fd_league (createPaymentRequirement dc u l s n now db).1).
Proof.
  unfold createPaymentRequirement, mbind', mread, found, guard_throw, mok, mthrow.
  destruct (find_league l db) as [league|] eqn:El; [|apply ce_refl].
  destruct (negb _); [apply ce_refl|]. destruct (negb _); [apply ce_refl|].
  destruct (_ && _); [apply ce_refl|]. destruct (find_member l u db) as [m0|].
  - destruct (is_free _ _); [destruct (negb _); [|apply ce_refl]|destruct (can_initiate _); [|apply ce_refl]];
      destruct (update_one_member _ _ db) as [db1 r1] eqn:Eu;
      (apply update_one_cases in Eu as [[-> ->]|[-> ->]]; [apply ce_refl|by apply ce_update]).
  - unfold create_member, mwrite. destruct (insert_member _ _) as [ms|] eqn:Ei; [|apply ce_refl].
    cbn. eapply ce_new; [|by exists league|exact Ei]. done.
Qed.

Lemma submit_call valid t u l h a now db :
  call_effect l (fd_league db) (fd_league (submitPayment valid t u l h a now db).1).
Proof.
  unfold submitPayment, mbind', mread, found, guard_throw, mok, mthrow.
  destruct (negb _); [apply ce_refl|]. destruct (negb _); [apply ce_refl|].
  destruct (find_member l u db) as [m0|]; [|apply ce_refl].
  destruct (find_league l db) as [league|]; [|apply ce_refl].
  destruct (bool_decide _); [apply ce_refl|]. destruct (taken_by_other _ _); [apply ce_refl|].
  destruct (update_one_member _ _ db) as [db1 r1] eqn:Eu.
  apply update_one_cases in Eu as [[-> ->]|[-> ->]]; [apply ce_refl|].
  unfold mwrite. destruct (find_tx _ _) as [[i tx]|].
  - unfold update_tx, mwrite. destruct (trackTransaction _ _ _ _) as [db2 r2] eqn:E2.
    destruct (track_tables _ _ _ _ _ _ E2) as (-> & T1 & _). cbn [fst]. rewrite T1. by apply ce_update.
  - unfold create_transaction. cbn. by apply ce_update.
Qed.

Lemma verify_call u l h v now db :
  call_effect l (fd_league db) (fd_league (verifyAndConfirmPayment u l h v now db).1).
Proof.
  unfold verifyAndConfirmPayment, mtransaction, mbind', mread, found, mok, mthrow.
  destruct (find_member l u db) as [m0|]; [|apply ce_refl].
  destruct (is_settled_member m0); [apply ce_refl|].
  destruct (negb (pv_success v)); [destruct (pv_retryable v); [apply ce_refl|]|];
    destruct (update_one_member _ _ db) as [db1 r1] eqn:Eu;
    (apply update_one_cases in Eu as [[-> ->]|[-> ->]]; [apply ce_refl|by apply ce_update]).
Qed.

Lemma reconcile_call valid u l d now db :
  call_effect l (fd_league db) (fd_league (reconcileDeposit valid u l d now db).1).
Proof.
  unfold reconcileDeposit, mbind', mread, found, guard_throw, mok, mthrow.
  destruct (find_member l u db) as [m0|]; [|apply ce_refl].
  destruct (find_league l db) as [league|]; [|apply ce_refl].
  destruct (is_settled_member m0); [apply ce_refl|].
  destruct (map_get (mb_id m0) (fd_addresses db)) as [address|]; [|apply ce_refl].
  cbn [truthy]. destruct (decide (address = "")); [apply ce_refl|].
  destruct (negb _); [apply ce_refl|]. destruct (toContractLeagueId l); [|apply ce_refl].
  destruct (d _ address); [|apply ce_refl]. destruct (deposit_missing _ _); [apply ce_refl|].
  destruct (List.find _ _); [|apply ce_refl]. destruct (update_one_member _ _ db) as [db1 r1] eqn:Eu.
  apply update_one_cases in Eu as [[-> ->]|[-> ->]]; [apply ce_refl|].
  destruct (find_tx _ _) as [[i tx]|]; by apply ce_update.
Qed.

Lemma payment_call dc validAddress validKey c db :
  call_effect (caller c).1 (fd_league db) (fd_league (run_call dc validAddress validKey c db)).
Proof.
  destruct c; [apply create_call|apply submit_call|apply verify_call|apply reconcile_call].
Qed.

(** A settlement writes one league row: completed, with the pool it paid. *)
Lemma settlement_league leagueId admin plan txHash ledgerSeq now db :
  let db' := (commitSettlement leagueId admin plan txHash ledgerSeq now db).1 in
  fd_league db' = fd_league db ∨ ∃ l pool, map_get leagueId (db_leagues (fd_league db)) = Some l ∧
    fd_league db' = with_leagues (fd_league db) (map_set leagueId (set_prize_pool pool l) (db_leagues (fd_league db))).
Proof.
  rewrite commit_eq. cbn [fst]. unfold find_league.
  destruct (map_get leagueId (db_leagues (fd_league db))) as [l|]; [|by left].
  destruct (bool_decide _); [by left|]. right. by exists l, (cents_of (pl_netPrizePool plan)).
Qed.

Lemma uncounted_snoc paid x id :
  uncounted (paid ++ [x]) id = uncounted paid id + (if bool_decide (x = id) then 1 else 0).
Proof. unfold uncounted. rewrite countb_app, countb_cons. change (countb _ []) with 0. lia. Qed.

(** A member added beside the counter. *)
Lemma counts_uncounted e m ms d :
  insert_member m (db_members d) = Ok ms → is_Some (map_get (mb_leagueId m) (db_leagues d)) → wf_counts e d →
  wf_counts {| el_paid := el_paid e ++ [mb_leagueId m]; el_settled := el_settled e |} (LeagueDb.with_members d ms).
Proof.
  intros (-> & _ & _)%insert_member_ok Hl [H1 H2 H3].
  constructor; cbn [LeagueDb.with_members db_leagues db_members el_paid el_settled].
  - intros id l [C1 C2 C3 C4 C5]%H1. constructor; try done. cbn [el_paid].
    rewrite fmap_app. cbn [fmap list_fmap]. rewrite countb_in_league_snoc, C1, uncounted_snoc.
    unfold in_league, mkey. cbn [fst snd]. lia.
  - intros m' [Hin|Hin]%elem_of_app; [by apply H2|]. by apply list_elem_of_singleton in Hin as ->.
  - intros id [Hin|Hin]%elem_of_app; [by apply H3|]. by apply list_elem_of_singleton in Hin as ->.
Qed.

(** A league settled: everything else stays. *)
Lemma counts_settled e leagueId l pool d :
  map_get leagueId (db_leagues d) = Some l → wf_counts e d →
  wf_counts {| el_paid := el_paid e; el_settled := leagueId :: el_settled e |}
    (with_leagues d (map_set leagueId (set_prize_pool pool l) (db_leagues d))).
Proof.
  intros Hl [H1 H2 H3]. constructor; cbn [with_leagues db_leagues db_members el_paid el_settled].
  - intros id l' Hl'. rewrite map_get_set in Hl'. case_decide as E.
    + injection Hl' as <-. subst id. destruct (H1 _ _ Hl) as [C1 C2 C3 C4 C5]. constructor; try done.
      intros []. by left.
    + destruct (H1 _ _ Hl') as [C1 C2 C3 C4 C5]. constructor; try done. intros Hn. apply C5. cbn [el_settled] in Hn.
      intros Hin. apply Hn. by right.
  - intros m Hm%H2. rewrite map_get_set. by case_decide.
  - intros id Hid%H3. rewrite map_get_set. by case_decide.
Qed.

(** What a settlement elsewhere takes from the books only makes them weaker. *)
Lemma counts_forget e leagueId d :
  wf_counts e d → wf_counts {| el_paid := el_paid e; el_settled := leagueId :: el_settled e |} d.
Proof.
  intros [H1 H2 H3]. constructor; try done. intros id l [C1 C2 C3 C4 C5]%H1. constructor; try done.
  intros Hn. apply C5. intros Hin. apply Hn. by right.
Qed.

Lemma membership_step_wf dc vA vK hash s s' :
  membership_step dc vA vK hash s s' →
  wf_safe (fd_league s.1) → wf_counts s.2 (fd_league s.1) →
  wf_safe (fd_league s'.1) ∧ wf_counts s'.2 (fd_league s'.1).
Proof.
  intros Hstep Hs Hc. destruct Hstep as [db e league' H|db e c db' H|db e leagueId admin plan h seq now db' r H|db e db' H];
    cbn [fst snd] in *.
  - split; [by eapply step_safe|by eapply step_counts].
  - subst db'. pose proof (payment_call dc vA vK c db) as He. unfold added. revert He.
    generalize (fd_league (run_call dc vA vK c db)). intros d' He. destruct He as [d' Hk Hlen|m ms Hm Hl Hi].
    + rewrite Hlen, Nat.ltb_irrefl, app_nil_r. destruct e. split; [by eapply same_keys_safe|by eapply same_keys_counts].
    + pose proof Hi as (E & Hid & Hpair)%insert_member_ok. rewrite <- Hm in *. split.
      * destruct Hs as [S1 S2 S3 S4 S5]. subst ms.
        constructor; cbn [LeagueDb.with_members db_leagues db_members db_invitations]; rewrite ?fmap_app; try done;
          by apply NoDup_snoc.
      * replace (_ <? _)%nat with true; [by eapply counts_uncounted|]. symmetry. apply Nat.ltb_lt.
        subst ms. cbn. rewrite length_app. cbn. lia.
  - pose proof (settlement_league leagueId admin plan h seq now db) as Hl. rewrite H in Hl. cbn [fst] in Hl.
    destruct Hl as [->|(l & pool & Hl & ->)]; [split; [done|by apply counts_forget]|].
    split; [|by apply counts_settled]. destruct Hs as [S1 S2 S3 S4 S5].
    constructor; cbn [with_leagues db_leagues db_members db_invitations]; try done. by apply map_set_NoDup.
  - by rewrite H.
Qed.

Lemma pool_for_ok count l pool : pool_for count (fee_of l) = Ok pool →
  ∃ report, calculatePrizeDistribution (int count) (Fin (lg_entryFee l # 100)) default_options = Ok report ∧
    math_round (prizePool report * 100) = pool.
Proof.
  unfold pool_for, fee_of. destruct (calculatePrizeDistribution _ _ _) as [report|]; [|done].
  intros [= <-]. by exists report.
Qed.

Lemma books_of_counts e d id l :
  wf_counts e d → map_get id (db_leagues d) = Some l → books_right e d id l.
Proof.
  intros [H1 _ _] Hl. destruct (H1 _ _ Hl) as [C1 C2 C3 C4 C5]. constructor; try done.
  - unfold uncounted in C1. by rewrite <- C1, countb_fmap.
  - intros Hn. by apply pool_for_ok, C5.
Qed.

(** ** Properties *)

(** C39. The books of a league, as long as handlers do not overlap: after any
    sequence of creations, joins, invitations, revocations, transitions,
    cancellations, payment calls and settlements, starting from no leagues, every
    league's member rows are its counter and exactly the rows the payment
    endpoint added, which no counter counts; the counter is between 1 and a
    maximum of at most 100 000, and the prize pool is the one computed for the
    counter until a settlement writes what it paid.  No manager is in a league
    twice, and no invitation is used more often than it allows. *)
Theorem league_membership_invariant (dc : bool) (validAddress validKey : string → bool) (hash : string → string)
    (db0 db : FinancialDb) (e : Elsewhere) :
  db_leagues (fd_league db0) = [] → db_members (fd_league db0) = [] → db_invitations (fd_league db0) = [] →
  rtc (membership_step dc validAddress validKey hash) (db0, {| el_paid := []; el_settled := [] |}) (db, e) →
  (∀ leagueId l, map_get leagueId (db_leagues (fd_league db)) = Some l → books_right e (fd_league db) leagueId l) ∧
  NoDup ((λ m, (mb_leagueId m, mb_userId m)) <$> db_members (fd_league db)) ∧
  ∀ i, i ∈ db_invitations (fd_league db) → 0 ≤ inv_usesCount i ≤ inv_maxUses i.
Proof.
  intros E1 E2 E3 Hsteps.
  assert (∀ s s', rtc (membership_step dc validAddress validKey hash) s s' →
    wf_safe (fd_league s.1) → wf_counts s.2 (fd_league s.1) →
    wf_safe (fd_league s'.1) ∧ wf_counts s'.2 (fd_league s'.1)) as Hrun.
  { intros s s' Hrtc. induction Hrtc as [|s1 s2 s3 Hstep _ IH]; [done|]. intros Hs Hc.
    destruct (membership_step_wf _ _ _ _ _ _ Hstep Hs Hc). by apply IH. }
  apply Hrun in Hsteps as [Hs Hc]; cbn [fst snd] in *.
  - split_and!; [intros; by eapply books_of_counts|apply Hs|apply Hs].
  - constructor; rewrite ?E1, ?E2, ?E3; try apply NoDup_nil_2. by intros i ?%elem_of_nil.
  - constructor; rewrite ?E1, ?E2; [done|..]; by intros i ?%elem_of_nil.
Qed.

(** ** Witness *)

Definition sample_nothing : FinancialDb :=
  {| fd_league := sample_empty_db; fd_addresses := []; fd_squadPoints := []; fd_transactions := [];
     fd_coordinated := []; fd_admins := [] |}.

(** [a] creates a league for two, [b] takes its last place, and [c] asks for the
    payment instructions: three rows, a counter of two, one row nobody counted. *)
Lemma league_membership_invariant_witness :
  match sample_league_db, sample_full with
  | Ok d1, Ok d2 =>
      let db := run_call true (λ _, true) (λ _, true) (CallCreate "c" "L" "sc" "m3" 30) (with_league sample_nothing d2) in
      length (db_members (fd_league db)) = 3%nat ∧ ∃ l, map_get "L" (db_leagues (fd_league db)) = Some l ∧
      lg_currentMembers l = 2 ∧ books_right {| el_paid := ["L"]; el_settled := [] |} (fd_league db) "L" l
  | _, _ => False
  end.
Proof.
  destruct sample_league_db as [d1|] eqn:E1; [|vm_compute in E1; discriminate E1].
  destruct sample_full as [d2|] eqn:E2; [|vm_compute in E2; discriminate E2]. cbn zeta.
  set (c := CallCreate "c" "L" "sc" "m3" 30). set (db2 := with_league sample_nothing d2).
  pose (db := run_call true (λ _, true) (λ _, true) c db2). fold db.
  assert (E : length (db_members (fd_league db)) = 3%nat ∧ added "L" db2 db = ["L"] ∧
    lg_currentMembers <$> map_get "L" (db_leagues (fd_league db)) = Some 2).
  { subst db db2. unfold sample_full in E2. rewrite E1 in E2. vm_compute in E1. injection E1 as <-.
    vm_compute in E2. injection E2 as <-. vm_compute. split_and!; reflexivity. }
  destruct E as (Hlen & Hadded & Hcur). split; [exact Hlen|].
  destruct (map_get "L" (db_leagues (fd_league db))) as [l|] eqn:El; [|discriminate Hcur].
  injection Hcur as Hcur. exists l. split; [reflexivity|]. split; [exact Hcur|].
  apply (league_membership_invariant true (λ _, true) (λ _, true) id sample_nothing db); try reflexivity; [|exact El].
  eapply rtc_l; [apply (ms_league _ _ _ _ sample_nothing _ d1 (do_create id "L" "m1" _ _ _ _ _ _ _ E1))|].
  eapply rtc_l; [apply (ms_league _ _ _ _ (with_league sample_nothing d1) _ d2)|].
  - unfold sample_full in E2. rewrite E1 in E2. exact (do_join id "m2" "L" "b" "sb" None 20 d1 d2 E2).
  - apply rtc_once. pose proof (ms_payment true (λ _, true) (λ _, true) id db2 nothing_elsewhere c db eq_refl) as H.
    change ((caller c).1) with "L" in H. rewrite Hadded in H. exact H.
Defined.
