(* ===== verification/Refunds.v ===== *)
(** * Refunds and the payout dead-letter queue

    [processLeagueRefunds] and its retries in
    [backend/src/services/financial/financialService.ts], the queue itself in
    [payoutDeadLetterService.ts], its worker in [payoutDeadLetterWorker.ts] and
    the job in [backend/src/jobs/leagueRefunds.ts].  The escrow contract's
    answer to each invocation is an argument, and every invocation is logged in
    the state; one run has one time.  Rows of [failed_payouts] are never
    deleted, so an entry is named by its position. *)

From Stdlib Require Import QArith Qround Ascii String.
From S2P Require Import Prelude Text ScoringConfig Tournament LeagueDb HeadToHead League TxCoordinator Financial.

#[local] Open Scope Z_scope.
#[local] Open Scope state_error_scope.

(** ** Patterns over error messages *)

(** The constructs the regular expressions of the service use. *)
Inductive pattern_item : Type :=
| Ch (c : ascii)
| Opt (c : ascii)
| OptAny
| Blanks
| Digits
| Boundary.

Definition lit (s : string) : list pattern_item := Ch <$> list_ascii_of_string s.

Definition is_word (c : option ascii) : bool :=
  match c with Some c => is_alnum c || bool_decide (c = "_"%char) | None => false end.

Fixpoint take_digits (l : list ascii) : list ascii :=
  match l with c :: l' => if is_digit c then c :: take_digits l' else [] | [] => [] end.

(** The digits of the last [Digits] of a match that starts here. *)
Fixpoint match_here (ci : bool) (p : list pattern_item) (prev : option ascii) (l : list ascii) :
    option (list ascii) :=
  let same a b := if ci then bool_decide (lower_char a = lower_char b) else bool_decide (a = b) in
  match p with
  | [] => Some []
  | Ch c :: p' => match l with x :: l' => if same c x then match_here ci p' (Some x) l' else None | [] => None end
  | Opt c :: p' =>
      match l with
      | x :: l' => if same c x then
                     match match_here ci p' (Some x) l' with Some d => Some d | None => match_here ci p' prev l end
                   else match_here ci p' prev l
      | [] => match_here ci p' prev l
      end
  | OptAny :: p' =>
      match l with
      | x :: l' => match match_here ci p' (Some x) l' with Some d => Some d | None => match_here ci p' prev l end
      | [] => match_here ci p' prev l
      end
  | Blanks :: p' => match_here ci p' prev (drop_blank l)
  | Digits :: p' =>
      match take_digits l with
      | [] => None
      | d => match match_here ci p' (last d) (drop (length d) l) with Some _ => Some d | None => None end
      end
  | Boundary :: p' => if bool_decide (is_word prev = is_word (head l)) then None else match_here ci p' prev l
  end.

Fixpoint search_from (ci : bool) (p : list pattern_item) (prev : option ascii) (l : list ascii) : option (list ascii) :=
  match match_here ci p prev l with
  | Some d => Some d
  | None => match l with x :: l' => search_from ci p (Some x) l' | [] => None end
  end.

Definition search (ci : bool) (p : list pattern_item) (l : list ascii) : option (list ascii) := search_from ci p None l.
Definition found_in (l : list ascii) (x : bool * list pattern_item) : bool := bool_decide (is_Some (search x.1 x.2 l)).

Definition any_case (s : string) : bool * list pattern_item := (true, lit s).

Definition RECOVERABLE_ERROR_PATTERNS : list (bool * list pattern_item) :=
  [any_case "not confirmed in time"; any_case "TRY_AGAIN_LATER";
   (true, lit "time" ++ [Opt "d"%char; Opt " "%char] ++ lit "out"); any_case "ETIMEDOUT"; any_case "ESOCKETTIMEDOUT";
   any_case "ECONNRESET"; any_case "ECONNREFUSED"; any_case "ENOTFOUND"; any_case "EAI_AGAIN"; any_case "socket hang up";
   any_case "network error"; any_case "fetch failed";
   (true, Boundary :: lit "429" ++ [Boundary]); (true, Boundary :: lit "502" ++ [Boundary]);
   (true, Boundary :: lit "503" ++ [Boundary]); (true, Boundary :: lit "504" ++ [Boundary]);
   (true, lit "rate" ++ [OptAny] ++ lit "limit"); any_case "too many requests"; any_case "service unavailable";
   any_case "bad gateway";
   (true, lit "tx" ++ [Opt "_"%char] ++ lit "bad" ++ [Opt "_"%char] ++ lit "seq"); any_case "txBadSeq";
   (true, lit "tx" ++ [Opt "_"%char] ++ lit "insufficient" ++ [Opt "_"%char] ++ lit "fee"); any_case "txInsufficientFee"].

Definition CONTRACT_ERROR : list pattern_item := lit "Error(Contract," ++ [Blanks; Ch "#"%char; Digits; Ch ")"%char].

Definition NON_RECOVERABLE_ERROR_PATTERNS : list (bool * list pattern_item) :=
  [(false, CONTRACT_ERROR); (false, lit "MISSING_WALLET");
   any_case "is required"; any_case "not configured"; any_case "not provided";
   any_case "invalid"; any_case "malformed"; any_case "underfunded"; (true, lit "no" ++ [OptAny] ++ lit "trust")].

Definition parse_decimal (l : list ascii) : Z :=
  fold_left (λ n c, 10 * n + (Z.of_nat (nat_of_ascii c) - 48)) l 0.

(** [(recoverable, errorCode)] *)
Definition classifyError (message : list ascii) (errorCode : option Z) : bool * option Z :=
  let contractCode := parse_decimal <$> search false CONTRACT_ERROR message in
  let code := match errorCode with Some c => Some c | None => contractCode end in
  if bool_decide (is_Some code) || existsb (found_in message) NON_RECOVERABLE_ERROR_PATTERNS
  then (false, code)
  else (existsb (found_in message) RECOVERABLE_ERROR_PATTERNS, None).

Example classify_samples :
  (λ s, classifyError (list_ascii_of_string s) None) <$>
    ["Request timed out"; "HTTP 503 from RPC"; "code 15031"; "HostError: Error(Contract, #12)"; "Rate-Limit exceeded";
     "tx_bad_seq"; "no_trust"; "boom"]
  = [(true, None); (true, None); (false, None); (false, Some 12); (true, None); (true, None); (false, None); (false, None)].
Proof. vm_compute. reflexivity. Qed.

(** ** The queue *)

Inductive FailedPayoutStatus : Type := Fp_PENDING | Fp_RETRYING | Fp_RESOLVED | Fp_DISCARDED.

#[export] Instance FailedPayoutStatus_eq_dec : EqDecision FailedPayoutStatus.
Proof. solve_decision. Defined.

(** [createdAt] is the position; amounts are cents. *)
Record FailedPayout : Type := {
  fp_type : TransactionType;
  fp_leagueId : string;
  fp_memberIds : list string;
  fp_recipients : list string;
  fp_amountPerRecipient : Z;
  fp_status : FailedPayoutStatus;
  fp_recoverable : bool;
  fp_errorMessage : list ascii;
  fp_errorCode : option Z;
  fp_attempts : Z;
  fp_lastAttemptAt : Z;
  fp_nextRetryAt : option Z;
  fp_resolvedAt : option Z;
  fp_resolvedById : option string;
  fp_resolutionNote : option (list ascii);
  fp_retryTxHash : option string
}.

(** What the columns a write touches become. *)
Definition set_attempt (status : FailedPayoutStatus) (attempts lastAttemptAt : Z) (recoverable : bool)
    (message : list ascii) (code : option Z) (e : FailedPayout) : FailedPayout :=
  {| fp_type := fp_type e; fp_leagueId := fp_leagueId e; fp_memberIds := fp_memberIds e;
     fp_recipients := fp_recipients e; fp_amountPerRecipient := fp_amountPerRecipient e;
     fp_status := status; fp_recoverable := recoverable; fp_errorMessage := message; fp_errorCode := code;
     fp_attempts := attempts; fp_lastAttemptAt := lastAttemptAt; fp_nextRetryAt := fp_nextRetryAt e;
     fp_resolvedAt := fp_resolvedAt e; fp_resolvedById := fp_resolvedById e;
     fp_resolutionNote := fp_resolutionNote e; fp_retryTxHash := fp_retryTxHash e |}.

Definition set_resolution (status : FailedPayoutStatus) (at_ : Z) (by_ : string) (note : option (list ascii))
    (txHash : option string) (e : FailedPayout) : FailedPayout :=
  {| fp_type := fp_type e; fp_leagueId := fp_leagueId e; fp_memberIds := fp_memberIds e;
     fp_recipients := fp_recipients e; fp_amountPerRecipient := fp_amountPerRecipient e;
     fp_status := status; fp_recoverable := fp_recoverable e; fp_errorMessage := fp_errorMessage e;
     fp_errorCode := fp_errorCode e; fp_attempts := fp_attempts e; fp_lastAttemptAt := fp_lastAttemptAt e;
     fp_nextRetryAt := fp_nextRetryAt e; fp_resolvedAt := Some at_; fp_resolvedById := Some by_;
     fp_resolutionNote := note; fp_retryTxHash := txHash |}.

Definition set_nextRetryAt (t : Z) (e : FailedPayout) : FailedPayout :=
  {| fp_type := fp_type e; fp_leagueId := fp_leagueId e; fp_memberIds := fp_memberIds e;
     fp_recipients := fp_recipients e; fp_amountPerRecipient := fp_amountPerRecipient e;
     fp_status := fp_status e; fp_recoverable := fp_recoverable e; fp_errorMessage := fp_errorMessage e;
     fp_errorCode := fp_errorCode e; fp_attempts := fp_attempts e; fp_lastAttemptAt := fp_lastAttemptAt e;
     fp_nextRetryAt := Some t; fp_resolvedAt := fp_resolvedAt e; fp_resolvedById := fp_resolvedById e;
     fp_resolutionNote := fp_resolutionNote e; fp_retryTxHash := fp_retryTxHash e |}.

(** The tables, and the invocations of the contract's [refund]. *)
Record RefundDb : Type := {
  rf_fin : FinancialDb;
  rf_payouts : list FailedPayout;
  rf_dispatched : list (Z * list string)
}.

Definition set_fin (db : RefundDb) (f : FinancialDb) : RefundDb :=
  {| rf_fin := f; rf_payouts := rf_payouts db; rf_dispatched := rf_dispatched db |}.
Definition set_payouts (db : RefundDb) (p : list FailedPayout) : RefundDb :=
  {| rf_fin := rf_fin db; rf_payouts := p; rf_dispatched := rf_dispatched db |}.

(** The errors of the two services; [Financial] carries what the others throw. *)
Inductive RefundError : Type :=
| RefundNotFound (text : list ascii)
| RefundValidation (text : list ascii)
| DeadLetterNotFoundError (id : nat)
| DeadLetterConflictError (text : list ascii)
| ReasonRequired
| DatabaseFailure.

Definition R : Type → Type := state_error RefundDb RefundError.

(** [try ... catch (error)] *)
Definition mcatch {A} (m : R A) (handler : RefundError → R A) : R A := λ db,
  match m db with (db', Ok a) => (db', Ok a) | (db', Err e) => handler e db' end.

Definition MAX_AUTOMATIC_ATTEMPTS : Z := 3.
Definition BACKOFF_BASE_MS : Z := 1000.
Definition BACKOFF_MAX_MS : Z := 30 * 60 * 1000.
Definition STALE_RETRY_MS : Z := 15 * 60 * 1000.
Definition MISSING_WALLET_ERROR : list ascii :=
  list_ascii_of_string "MISSING_WALLET: member has no linked Stellar address".

Definition ISOLATING_DEAD_LETTER_STATUSES : list FailedPayoutStatus := [Fp_PENDING; Fp_RETRYING; Fp_DISCARDED].

(** [calculateBackoffState]: the delay before jitter and the time of the next
    try; a [Date] drops the fraction of its milliseconds. *)
Definition calculateBackoffState (attempts now baseDelay maxDelay : Z) (random : Q) : Z * Z :=
  let baseDelayMs := Z.min (baseDelay * 2 ^ attempts) maxDelay in
  (baseDelayMs, now + Qfloor (random * inject_Z baseDelayMs)).

Section queue.
Context (now : Z).

Definition deadLetter (type : TransactionType) (leagueId : string) (memberIds recipients : list string)
    (amountPerRecipient : Z) (error : list ascii) (errorCode : option Z) (recoverable : option bool) : R nat :=
  let classification := classifyError error errorCode in
  let! id := mread (λ db, length (rf_payouts db)) in
  mwrite (λ db, Ok (set_payouts db (rf_payouts db ++
    [{| fp_type := type; fp_leagueId := leagueId; fp_memberIds := memberIds; fp_recipients := recipients;
        fp_amountPerRecipient := amountPerRecipient; fp_status := Fp_PENDING;
        fp_recoverable := default classification.1 recoverable; fp_errorMessage := error;
        fp_errorCode := classification.2; fp_attempts := 1; fp_lastAttemptAt := now; fp_nextRetryAt := None;
        fp_resolvedAt := None; fp_resolvedById := None; fp_resolutionNote := None; fp_retryTxHash := None |}]))) ;!
  mok id.

Definition same_payout (leagueId : string) (type : TransactionType) (e : FailedPayout) : bool :=
  bool_decide (fp_leagueId e = leagueId) && bool_decide (fp_type e = type).

Definition isolating (leagueId : string) (type : TransactionType) (e : FailedPayout) : bool :=
  same_payout leagueId type e && bool_decide (fp_status e ∈ ISOLATING_DEAD_LETTER_STATUSES).

Definition getIsolatedMemberIds (leagueId : string) (type : TransactionType) (db : RefundDb) : list string :=
  mjoin (fp_memberIds <$> List.filter (isolating leagueId type) (rf_payouts db)).

Definition auto_retryable (leagueId : string) (type : TransactionType) (e : FailedPayout) : bool :=
  same_payout leagueId type e && bool_decide (fp_status e = Fp_PENDING) && fp_recoverable e
  && (fp_attempts e <? MAX_AUTOMATIC_ATTEMPTS).

(** Entries with their ids, in creation order. *)
Definition getAutoRetryable (leagueId : string) (type : TransactionType) (db : RefundDb) : list (nat * FailedPayout) :=
  List.filter (λ x, auto_retryable leagueId type x.2) (imap pair (rf_payouts db)).

Definition get (id : nat) : R FailedPayout :=
  let! entry := mread (λ db, rf_payouts db !! id) in found entry (DeadLetterNotFoundError id).

Definition update_payout (id : nat) (f : FailedPayout → FailedPayout) : R () :=
  mwrite (λ db, match rf_payouts db !! id with
                | Some e => Ok (set_payouts db (<[id := f e]> (rf_payouts db)))
                | None => Err DatabaseFailure
                end).

Definition claimable (e : FailedPayout) : bool :=
  bool_decide (fp_status e = Fp_PENDING) ||
  (bool_decide (fp_status e = Fp_RETRYING) && (fp_lastAttemptAt e <? now - STALE_RETRY_MS)).

Definition claimed (e : FailedPayout) : FailedPayout :=
  set_attempt Fp_RETRYING (fp_attempts e) now (fp_recoverable e) (fp_errorMessage e) (fp_errorCode e) e.

Definition status_text (s : FailedPayoutStatus) : string :=
  match s with Fp_PENDING => "PENDING" | Fp_RETRYING => "RETRYING" | Fp_RESOLVED => "RESOLVED" | Fp_DISCARDED => "DISCARDED" end.

(** The text leaves out the entry's id. *)
Definition conflict (verb : string) (e : FailedPayout) : RefundError :=
  DeadLetterConflictError (list_ascii_of_string ("cannot be " ++ verb ++ " while in status " ++ status_text (fp_status e))).

Definition claimForRetry (id : nat) : R FailedPayout :=
  let! entry := mread (λ db, rf_payouts db !! id) in
  match entry with
  | Some e => if claimable e then update_payout id claimed ;! get id else mthrow (conflict "retried" e)
  | None => mthrow (DeadLetterNotFoundError id)
  end.

Definition markResolved (id : nat) (actorId : string) (txHash : option string) (note : option (list ascii)) : R () :=
  update_payout id (set_resolution Fp_RESOLVED now actorId note txHash).

(** [entry] is the row as it was when claimed. *)
Definition markRetryFailed (id : nat) (entry : FailedPayout) (error : list ascii) (errorCode : option Z) : R () :=
  let classification := classifyError error errorCode in
  update_payout id (set_attempt Fp_PENDING (fp_attempts entry + 1) now classification.1 error classification.2).

Definition discard (id : nat) (actorId : string) (reason : list ascii) : R FailedPayout :=
  let trimmed := trim_text reason in
  guard_throw (bool_decide (trimmed = [])) ReasonRequired ;!
  let! entry := mread (λ db, rf_payouts db !! id) in
  match entry with
  | Some e =>
      if bool_decide (fp_status e = Fp_PENDING)
      then update_payout id (set_resolution Fp_DISCARDED now actorId (Some trimmed) (fp_retryTxHash e)) ;! get id
      else mthrow (conflict "discarded" e)
  | None => mthrow (DeadLetterNotFoundError id)
  end.

Definition scheduleRetryWithBackoff (id : nat) (random : Q) : R Z :=
  let! entry := get id in
  let backoff := calculateBackoffState (fp_attempts entry) now BACKOFF_BASE_MS BACKOFF_MAX_MS random in
  update_payout id (set_nextRetryAt backoff.2) ;!
  mok backoff.1.

(** The raw query; outside a transaction its row locks end with the statement. *)
Definition claimRetryBatchLockFree (batchSize : nat) (leagueId : string) (type : TransactionType) (db : RefundDb) :
    list (nat * FailedPayout) :=
  take batchSize (sort_by (asc (λ x, fp_lastAttemptAt x.2))
    (List.filter (λ x, auto_retryable leagueId type x.2 &&
        match fp_nextRetryAt x.2 with None => true | Some t => t <=? now end)
      (imap pair (rf_payouts db)))).
End queue.

(** ** Refunds *)

Definition REFUND_BATCH_SIZE : nat := 10.
Definition SYSTEM_ACTOR : string := "system".

(** The escrow contract's answer to one invocation; an exception is an answer
    that is not a success. *)
Record RefundInvocationOutcome : Type := {
  ro_success : bool;
  ro_txHash : option string;
  ro_error : option (list ascii);
  ro_contractErrorCode : option Z
}.

Record DeadLetterRetryResult : Type := {
  rr_success : bool;
  rr_status : FailedPayoutStatus;
  rr_txHash : option string;
  rr_paidMemberIds : list string
}.

Record RefundDispatchReport : Type := {
  rp_batches : nat;
  rp_refundedMemberIds : list string;
  rp_failedBatches : list (list string * list ascii);
  rp_skippedMemberIds : list string;
  rp_deadLetteredIds : list nat;
  rp_isolatedMemberIds : list string;
  rp_autoRetried : list (nat * bool)
}.

Definition isRefundOwed (m : LeagueMember) : bool :=
  bool_decide (mb_paymentStatus m = REFUND_PENDING) || bool_decide (mb_paymentStatus m = PAYMENT_CONFIRMED).

(** [member.stellarAddress], when truthy. *)
Definition address_of (db : FinancialDb) (m : LeagueMember) : option string :=
  match map_get (mb_id m) (fd_addresses db) with
  | Some a => if bool_decide (a = "") then None else Some a
  | None => None
  end.

Definition league_members (leagueId : string) (db : FinancialDb) : list LeagueMember :=
  List.filter (λ m, bool_decide (mb_leagueId m = leagueId)) (db_members (fd_league db)).

Definition INVOCATION_FAILED : list ascii := list_ascii_of_string "Refund invocation failed".

Definition outcome_error (o : RefundInvocationOutcome) : list ascii :=
  match ro_error o with Some (c :: e) => c :: e | _ => INVOCATION_FAILED end.

Definition contract_league_id (leagueId : string) : R Z :=
  match toContractLeagueId leagueId with
  | Ok n => mok n
  | Err _ => mthrow (RefundValidation (list_ascii_of_string ("League ID " ++ leagueId ++ " is not a valid UUID")))
  end.

Definition find_refund_league (leagueId : string) : R LeagueRow :=
  let! league := mread (λ db, find_league leagueId (rf_fin db)) in
  found league (RefundNotFound (list_ascii_of_string ("League " ++ leagueId ++ " not found"))).

(** An operation of [financialService.ts] on its own tables. *)
Definition on_fin {A} (m : M A) : R A := λ db,
  let '(f, r) := m (rf_fin db) in
  (set_fin db f, match r with Ok a => Ok a | Err _ => Err DatabaseFailure end).

Definition refund_row (league : LeagueRow) (leagueId : string) (m : LeagueMember) (txHash : option string) (now : Z)
    (userId : string) : TransactionRow :=
  {| tx_userId := userId; tx_leagueId := Some leagueId; tx_memberId := Some (mb_id m); tx_type := REFUND;
     tx_amount := lg_entryFee league; tx_stellarTxHash := txHash; tx_ledgerSeq := None; tx_memo := None;
     tx_status := TS_CONFIRMED; tx_confirmedAt := Some now |}.

Fixpoint mark_refunded (batch : list LeagueMember) : M () :=
  match batch with
  | [] => mok tt
  | m :: batch' => update_one_member (mb_id m) (set_payment_state None Pay_REFUNDED None None) ;! mark_refunded batch'
  end.

Fixpoint create_refund_rows (league : LeagueRow) (leagueId : string) (batch : list LeagueMember)
    (txHash : option string) (now : Z) : M () :=
  match batch with
  | [] => mok tt
  | m :: batch' =>
      create_transaction (Some (mb_userId m)) (refund_row league leagueId m txHash now) ;!
      create_refund_rows league leagueId batch' txHash now
  end.

Definition commitRefundBatch (league : LeagueRow) (leagueId : string) (batch : list LeagueMember)
    (txHash : option string) (now : Z) : R () :=
  on_fin (mtransaction (mark_refunded batch ;! create_refund_rows league leagueId batch txHash now)).

Section refunds.
(** [net n] answers the [n]th invocation; [database_message] is the text of an
    error of the database. *)
Context (net : nat → Z → list string → RefundInvocationOutcome) (database_message : list ascii) (now : Z).

Definition error_text (e : RefundError) : list ascii :=
  match e with
  | RefundNotFound t | RefundValidation t | DeadLetterConflictError t => t
  | DeadLetterNotFoundError _ => list_ascii_of_string "Dead-lettered payout was not found"
  | ReasonRequired => list_ascii_of_string "A reason is required to discard a failed payout"
  | DatabaseFailure => database_message
  end.

Definition dispatchRefund (contractLeagueId : Z) (recipients : list string) : R RefundInvocationOutcome := λ db,
  ({| rf_fin := rf_fin db; rf_payouts := rf_payouts db;
      rf_dispatched := rf_dispatched db ++ [(contractLeagueId, recipients)] |},
   Ok (net (length (rf_dispatched db)) contractLeagueId recipients)).

(** The [try] block of [redispatchRefundEntry]. *)
Definition redispatch_claimed (failedPayoutId : nat) (entry : FailedPayout) (actorId : string)
    (note : option (list ascii)) : R DeadLetterRetryResult :=
  let leagueId := fp_leagueId entry in
  let! league := find_refund_league leagueId in
  let! members := mread (λ db, league_members leagueId (rf_fin db)) in
  let owed := List.filter (λ m, bool_decide (mb_id m ∈ fp_memberIds entry) && isRefundOwed m) members in
  if bool_decide (owed = []) then
    markResolved now failedPayoutId actorId None
      (Some (default (list_ascii_of_string "No outstanding refunds remained for this entry") note)) ;!
    mok {| rr_success := true; rr_status := Fp_RESOLVED; rr_txHash := None; rr_paidMemberIds := [] |}
  else
  let! addresses := mread (λ db, address_of (rf_fin db) <$> owed) in
  let! outcome :=
    if bool_decide (None ∈ addresses)
    then mok {| ro_success := false; ro_txHash := None; ro_error := Some MISSING_WALLET_ERROR; ro_contractErrorCode := None |}
    else let! contractLeagueId := contract_league_id leagueId in dispatchRefund contractLeagueId (omap id addresses) in
  if negb (ro_success outcome) then
    markRetryFailed now failedPayoutId entry (outcome_error outcome) (ro_contractErrorCode outcome) ;!
    mok {| rr_success := false; rr_status := Fp_PENDING; rr_txHash := ro_txHash outcome; rr_paidMemberIds := [] |}
  else
  commitRefundBatch league leagueId owed (ro_txHash outcome) now ;!
  markResolved now failedPayoutId actorId (ro_txHash outcome) note ;!
  mok {| rr_success := true; rr_status := Fp_RESOLVED; rr_txHash := ro_txHash outcome; rr_paidMemberIds := mb_id <$> owed |}.

Definition redispatchRefundEntry (failedPayoutId : nat) (actorId : string) (note : option (list ascii)) :
    R DeadLetterRetryResult :=
  let! entry := claimForRetry now failedPayoutId in
  mcatch (redispatch_claimed failedPayoutId entry actorId note)
    (λ error, mcatch (markRetryFailed now failedPayoutId entry (error_text error) None) (λ _, mok tt) ;! mthrow error).

Definition retryDeadLetteredPayout (failedPayoutId : nat) (actorId : string) (note : option (list ascii)) :
    R DeadLetterRetryResult :=
  let! entry := get failedPayoutId in
  guard_throw (negb (bool_decide (fp_type entry = REFUND)))
    (RefundValidation (list_ascii_of_string "Manual retry is not supported")) ;!
  redispatchRefundEntry failedPayoutId actorId note.

(** The first loop of [processLeagueRefunds]. *)
Fixpoint auto_retry (entries : list (nat * FailedPayout)) (retried : list (nat * bool)) (refunded : list string) :
    R (list (nat * bool) * list string) :=
  match entries with
  | [] => mok (retried, refunded)
  | (entryId, _) :: entries' =>
      let! retry := mcatch (let! r := redispatchRefundEntry entryId SYSTEM_ACTOR None in mok (Some r))
        (λ error, match error with DeadLetterConflictError _ => mok None | _ => mthrow error end) in
      match retry with
      | Some r => auto_retry entries' (retried ++ [(entryId, rr_success r)]) (refunded ++ rr_paidMemberIds r)
      | None => auto_retry entries' retried refunded
      end
  end.

(** ... and its loop over the batches: what is refunded, what failed, and the new entries. *)
Fixpoint dispatch_batches (league : LeagueRow) (leagueId : string) (contractLeagueId : Z)
    (batches : list (list (LeagueMember * string))) (refunded : list string) (failed : list (list string * list ascii))
    (entries : list nat) : R (list string * list (list string * list ascii) * list nat) :=
  match batches with
  | [] => mok (refunded, failed, entries)
  | batch :: batches' =>
      let memberIds := mb_id <$> batch.*1 in
      let! outcome := dispatchRefund contractLeagueId batch.*2 in
      if negb (ro_success outcome) then
        let! entry := deadLetter now REFUND leagueId memberIds batch.*2 (lg_entryFee league)
          (outcome_error outcome) (ro_contractErrorCode outcome) None in
        dispatch_batches league leagueId contractLeagueId batches' refunded
          (failed ++ [(memberIds, outcome_error outcome)]) (entries ++ [entry])
      else
        commitRefundBatch league leagueId batch.*1 (ro_txHash outcome) now ;!
        dispatch_batches league leagueId contractLeagueId batches' (refunded ++ memberIds) failed entries
  end.

(** Everything after the league and its members, [snapshot], were read. *)
Definition process_refunds (league : LeagueRow) (leagueId : string) (contractLeagueId : Z)
    (snapshot : list (LeagueMember * option string)) : R RefundDispatchReport :=
  let! retryable := mread (getAutoRetryable leagueId REFUND) in
  let! retries := auto_retry retryable [] [] in
  let '(autoRetried, refunded) := retries in
  let! isolated := mread (getIsolatedMemberIds leagueId REFUND) in
  let pending := List.filter (λ x, isRefundOwed x.1 && negb (bool_decide (mb_id x.1 ∈ refunded))) snapshot in
  let dispatchable := List.filter (λ x, negb (bool_decide (mb_id x.1 ∈ isolated))) pending in
  let refundable := omap (λ x, pair x.1 <$> x.2) dispatchable in
  let missingWallet := (λ x, mb_id x.1) <$> List.filter (λ x, bool_decide (x.2 = None)) dispatchable in
  let! walletEntry :=
    if bool_decide (missingWallet = []) then mok []
    else let! entry := deadLetter now REFUND leagueId missingWallet [] (lg_entryFee league) MISSING_WALLET_ERROR
                         None (Some false) in mok [entry] in
  let batches := chunk refundable REFUND_BATCH_SIZE in
  let! dispatched := dispatch_batches league leagueId contractLeagueId batches refunded [] walletEntry in
  let '(refunded, failed, entries) := dispatched in
  mok {| rp_batches := length batches; rp_refundedMemberIds := refunded; rp_failedBatches := failed;
         rp_skippedMemberIds := missingWallet; rp_deadLetteredIds := entries;
         rp_isolatedMemberIds :=
           (λ x, mb_id x.1) <$> List.filter (λ x, bool_decide (mb_id x.1 ∈ isolated)) pending;
         rp_autoRetried := autoRetried |}.

Definition members_with_address (leagueId : string) (db : RefundDb) : list (LeagueMember * option string) :=
  (λ m, (m, address_of (rf_fin db) m)) <$> league_members leagueId (rf_fin db).

Definition processLeagueRefunds (leagueId : string) : R RefundDispatchReport :=
  let! league := find_refund_league leagueId in
  guard_throw (negb (bool_decide (lg_status league = CANCELLED)))
    (RefundValidation (list_ascii_of_string "Refunds can only be processed for CANCELLED leagues")) ;!
  let! snapshot := mread (members_with_address leagueId) in
  let! contractLeagueId := contract_league_id leagueId in
  process_refunds league leagueId contractLeagueId snapshot.

(** [verifyRefundReconciliation]: the escrow left, and who is still owed. *)
Definition verifyRefundReconciliation (leagueId : string) (getContractDeposit : Z → string → Z) :
    R (Z * list string * bool) :=
  let! league := find_refund_league leagueId in
  let! contractLeagueId := contract_league_id leagueId in
  let! members := mread (members_with_address leagueId) in
  let remaining := sum_of (λ x, match x.2 with Some a => getContractDeposit contractLeagueId a | None => 0 end) members in
  let outstanding := mb_id <$> List.filter isRefundOwed members.*1 in
  mok (remaining, outstanding, (remaining =? 0) && bool_decide (outstanding = [])).

(** *** The dead-letter worker *)

Record PayoutWorkerResult : Type := {
  pw_processed : nat;
  pw_succeeded : nat;
  pw_failed : nat;
  pw_maxAttemptsExceeded : nat;
  pw_errors : list (nat * list ascii)
}.

Definition swallow (m : R ()) : R () := mcatch m (λ _, mok tt).

Fixpoint worker_loop (randoms : nat → Q) (batch : list (nat * FailedPayout)) (w : PayoutWorkerResult) :
    R PayoutWorkerResult :=
  match batch with
  | [] => mok w
  | (id, entry) :: batch' =>
      if MAX_AUTOMATIC_ATTEMPTS <=? fp_attempts entry then
        worker_loop randoms batch' {| pw_processed := pw_processed w; pw_succeeded := pw_succeeded w;
          pw_failed := pw_failed w; pw_maxAttemptsExceeded := S (pw_maxAttemptsExceeded w); pw_errors := pw_errors w |}
      else
        let! outcome := mcatch
          (let! r := retryDeadLetteredPayout id "payout-worker" None in
           if rr_success r then mok (true, []) else
           scheduleRetryWithBackoff now id (randoms id) ;! mok (false, []))
          (λ error, swallow (scheduleRetryWithBackoff now id (randoms id) ;! mok tt) ;!
                    mok (false, [(id, error_text error)])) in
        let '(success, errors) := outcome in
        worker_loop randoms batch' {| pw_processed := pw_processed w;
          pw_succeeded := if (success : bool) then S (pw_succeeded w) else pw_succeeded w;
          pw_failed := if (success : bool) then pw_failed w else S (pw_failed w);
          pw_maxAttemptsExceeded := pw_maxAttemptsExceeded w; pw_errors := pw_errors w ++ errors |}
  end.

Definition processPendingPayouts (randoms : nat → Q) (batchSize : nat) (leagueId : string) (type : TransactionType) :
    R PayoutWorkerResult :=
  let! batch := mread (claimRetryBatchLockFree now batchSize leagueId type) in
  worker_loop randoms batch {| pw_processed := length batch; pw_succeeded := 0; pw_failed := 0;
    pw_maxAttemptsExceeded := 0; pw_errors := [] |}.

(** ** The job *)

Definition with_league (db : RefundDb) (l : LeagueDb) : RefundDb :=
  let f := rf_fin db in
  set_fin db {| fd_league := l; fd_addresses := fd_addresses f; fd_squadPoints := fd_squadPoints f;
                fd_transactions := fd_transactions f; fd_coordinated := fd_coordinated f; fd_admins := fd_admins f |}.

Definition cancel_underfilled : R (list string) := λ db,
  match cancelUnderfilledLeagues now (fd_league (rf_fin db)) with
  | Ok (ids, l) => (with_league db l, Ok ids)
  | Err _ => (db, Err DatabaseFailure)
  end.

Definition leagues_to_refund (db : RefundDb) : list string :=
  (List.filter (λ l, bool_decide (lg_status l.2 = CANCELLED) && existsb isRefundOwed (league_members l.1 (rf_fin db)))
    (db_leagues (fd_league (rf_fin db)))).*1.

Definition outstanding (report : RefundDispatchReport) : bool :=
  negb (bool_decide (rp_deadLetteredIds report = [])) || negb (bool_decide (rp_isolatedMemberIds report = []))
  || existsb (λ x, negb x.2) (rp_autoRetried report).

Fixpoint refund_leagues (getContractDeposit : Z → string → Z) (ids : list string) : R () :=
  match ids with
  | [] => mok tt
  | leagueId :: ids' =>
      let! report := processLeagueRefunds leagueId in
      (if outstanding report then mok tt
       else let! _ := verifyRefundReconciliation leagueId getContractDeposit in mok tt) ;!
      refund_leagues getContractDeposit ids'
  end.

(** [processLeagueRefunds] of the jobs. *)
Definition refund_job (getContractDeposit : Z → string → Z) : R () :=
  let! cancelled := cancel_underfilled in
  let! ids := mread leagues_to_refund in
  refund_leagues getContractDeposit ids.

End refunds.

(** ** What a run does to the ledger *)

Definition mark (ids : list string) (m : LeagueMember) : LeagueMember :=
  if bool_decide (mb_id m ∈ ids) then set_payment_state None Pay_REFUNDED None None m else m.

(** The members [ids] are refunded, with one row each, and nothing else changes. *)
Record refunded (ids : list string) (f f' : FinancialDb) : Prop := {
  rd_members : db_members (fd_league f') = mark ids <$> db_members (fd_league f);
  rd_rows : ∃ rows, fd_transactions f' = fd_transactions f ++ rows ∧
    (tx_memberId <$> rows) = Some <$> ids ∧ ∀ t, t ∈ rows → tx_type t = REFUND;
  rd_addresses : fd_addresses f' = fd_addresses f;
  rd_leagues : db_leagues (fd_league f') = db_leagues (fd_league f)
}.

Lemma mark_id ids m : mb_id (mark ids m) = mb_id m.
Proof. unfold mark. by case_bool_decide. Qed.

Lemma mark_league ids m : mb_leagueId (mark ids m) = mb_leagueId m.
Proof. unfold mark. by case_bool_decide. Qed.

Lemma mark_mark ids1 ids2 m : mark ids2 (mark ids1 m) = mark (ids1 ++ ids2) m.
Proof.
  unfold mark at 1. rewrite mark_id. unfold mark. repeat case_bool_decide; set_solver.
Qed.

Lemma refunded_nil f : refunded [] f f.
Proof.
  constructor; [|exists []; rewrite app_nil_r; split_and!; [done|done|intros t Ht; by apply not_elem_of_nil in Ht]|done|done].
  rewrite <- list_fmap_id at 1. apply list_fmap_ext. intros _ m _. unfold mark. by case_bool_decide; [set_solver|].
Qed.

Lemma refunded_app ids1 ids2 f f1 f2 : refunded ids1 f f1 → refunded ids2 f1 f2 → refunded (ids1 ++ ids2) f f2.
Proof.
  intros [M1 (rows1 & T1 & I1 & K1) A1 L1] [M2 (rows2 & T2 & I2 & K2) A2 L2]. constructor; [| |congruence|congruence].
  - rewrite M2, M1, <- list_fmap_compose. apply list_fmap_ext. intros _ m _. apply mark_mark.
  - exists (rows1 ++ rows2). split_and!.
    + by rewrite T2, T1, (assoc (++)).
    + by rewrite !fmap_app, I1, I2.
    + intros t [Ht|Ht]%elem_of_app; auto.
Qed.

Lemma mark_refunded_ok batch f f' : mark_refunded batch f = (f', Ok tt) →
  db_members (fd_league f') = mark (mb_id <$> batch) <$> db_members (fd_league f) ∧
  fd_transactions f' = fd_transactions f ∧ fd_addresses f' = fd_addresses f ∧
  db_leagues (fd_league f') = db_leagues (fd_league f).
Proof.
  revert f. induction batch as [|m batch IH]; intros f H.
  { injection H as <-. split_and!; try done. apply refunded_nil. }
  cbn [mark_refunded] in H. apply mbind_cases in H as [(f1 & [] & E & H)|(e & _ & ?)]; [|done].
  apply update_one_cases in E as [[_ ?]|[_ ->]]; [done|]. destruct (IH _ H) as (M1 & T1 & A1 & L1).
  split_and!; [|done..]. rewrite M1. cbn. rewrite <- list_fmap_compose. apply list_fmap_ext. intros _ x _.
  unfold compose. change (mb_id m :: (mb_id <$> batch)) with ([mb_id m] ++ (mb_id <$> batch)).
  rewrite <- mark_mark. f_equal. unfold mark. repeat case_bool_decide; set_solver.
Qed.

Lemma create_refund_rows_ok league leagueId batch txHash now f f' :
  create_refund_rows league leagueId batch txHash now f = (f', Ok tt) →
  f' = set_transactions f (fd_transactions f
         ++ ((λ m, refund_row league leagueId m txHash now (mb_userId m)) <$> batch)).
Proof.
  revert f. induction batch as [|m batch IH]; intros f H.
  { injection H as <-. rewrite app_nil_r. by destruct f. }
  cbn [create_refund_rows] in H. apply mbind_cases in H as [(f1 & n & E & H)|(e & _ & ?)]; [|done].
  unfold create_transaction in E. apply mbind_cases in E as [(f2 & n' & E2 & E)|(e & _ & ?)]; [|done].
  injection E2 as <- <-. apply mbind_cases in E as [(f3 & [] & E3 & E)|(e & _ & ?)]; [|done].
  injection E as <- <-. unfold mwrite in E3. destruct (existsb _ _); [done|]. injection E3 as <-.
  rewrite (IH _ H). cbn. by rewrite <- (assoc (++)).
Qed.

Lemma commit_cases league leagueId batch txHash now db db' r :
  commitRefundBatch league leagueId batch txHash now db = (db', r) →
  rf_payouts db' = rf_payouts db ∧ rf_dispatched db' = rf_dispatched db ∧
  ((r = Ok tt ∧ refunded (mb_id <$> batch) (rf_fin db) (rf_fin db')) ∨ (r = Err DatabaseFailure ∧ db' = db)).
Proof.
  unfold commitRefundBatch, on_fin, mtransaction.
  destruct (mbind' _ _ (rf_fin db)) as [f [[]|e]] eqn:E; intros [= <- <-]; [|split_and!; try done; right; by destruct db].
  split_and!; [done..|]. left. split; [done|]. cbn.
  apply mbind_cases in E as [(f1 & [] & E1 & E2)|(e & _ & ?)]; [|done].
  apply mark_refunded_ok in E1 as (M1 & T1 & A1 & L1). apply create_refund_rows_ok in E2 as ->.
  constructor; cbn; [done| |done|done]. eexists. split; [by rewrite T1|]. rewrite <- !list_fmap_compose. split; [done|].
  by intros t (m & -> & _)%list_elem_of_fmap.
Qed.

(** ** Who is owed *)

Definition owed_ids (leagueId : string) (f : FinancialDb) : list string :=
  mb_id <$> List.filter isRefundOwed (league_members leagueId f).

Lemma elem_of_owed leagueId f x : x ∈ owed_ids leagueId f ↔
  ∃ m, m ∈ db_members (fd_league f) ∧ mb_id m = x ∧ mb_leagueId m = leagueId ∧ isRefundOwed m = true.
Proof.
  unfold owed_ids, league_members. rewrite list_elem_of_fmap. split.
  - intros (m & -> & [[Hm Hl]%elem_of_lfilter Ho]%elem_of_lfilter). bool_to_prop. eauto.
  - intros (m & Hm & <- & Hl & Ho). exists m. split; [done|]. rewrite !elem_of_lfilter, bool_decide_eq_true. done.
Qed.

Lemma owed_mark ids m : isRefundOwed (mark ids m) = isRefundOwed m && negb (bool_decide (mb_id m ∈ ids)).
Proof. unfold mark. case_bool_decide; [by rewrite andb_false_r|by rewrite andb_true_r]. Qed.

Lemma owed_after ids f f' leagueId x : NoDup (mb_id <$> db_members (fd_league f)) → refunded ids f f' →
  x ∈ owed_ids leagueId f' ↔ x ∈ owed_ids leagueId f ∧ x ∉ ids.
Proof.
  intros _ [M _ _ _]. rewrite !elem_of_owed, M. split.
  - intros (m & (m0 & -> & Hm0)%list_elem_of_fmap & <- & Hl & Ho). rewrite owed_mark in Ho.
    apply andb_true_iff in Ho as [Ho Hn%negb_true_iff%bool_decide_eq_false].
    rewrite mark_id, mark_league in *. split; [by exists m0|done].
  - intros [(m & Hm & <- & Hl & Ho) Hx]. exists (mark ids m). rewrite mark_id, mark_league, owed_mark.
    rewrite bool_decide_eq_false_2, Ho by done. split_and!; try done. apply list_elem_of_fmap. by exists m.
Qed.

Lemma refunded_ids ids f f' : refunded ids f f' →
  mb_id <$> db_members (fd_league f') = mb_id <$> db_members (fd_league f).
Proof.
  intros [M _ _ _]. rewrite M, <- list_fmap_compose. apply list_fmap_ext. intros _ m _. apply mark_id.
Qed.

Lemma NoDup_owed leagueId f : NoDup (mb_id <$> db_members (fd_league f)) → NoDup (owed_ids leagueId f).
Proof. intros H. unfold owed_ids, league_members. by do 2 apply NoDup_fmap_lfilter. Qed.

(** Entries other than [entry] are left alone, and [entry] keeps who it is for. *)
Definition same_target (e e' : FailedPayout) : Prop :=
  fp_memberIds e' = fp_memberIds e ∧ fp_leagueId e' = fp_leagueId e ∧ fp_type e' = fp_type e.

Definition only_entry (id : nat) (db db' : RefundDb) : Prop :=
  length (rf_payouts db') = length (rf_payouts db) ∧
  (∀ j, j ≠ id → rf_payouts db' !! j = rf_payouts db !! j) ∧
  (∀ e, rf_payouts db !! id = Some e → ∃ e', rf_payouts db' !! id = Some e' ∧ same_target e e').

#[local] Instance only_entry_refl id : Reflexive (only_entry id).
Proof. intros db. split_and!; [done|done|]. intros e He. by exists e. Qed.

#[local] Instance only_entry_trans id : Transitive (only_entry id).
Proof.
  intros db1 db2 db3 (A1 & A2 & A3) (B1 & B2 & B3). split_and!; [congruence|intros j Hj; by rewrite B2, A2|].
  intros e He. destruct (A3 e He) as (e' & He' & S1 & S2 & S3). destruct (B3 e' He') as (e'' & He'' & T1 & T2 & T3).
  exists e''. split; [done|]. unfold same_target. by rewrite T1, T2, T3.
Qed.

Lemma update_payout_cases id g db db' r : (∀ e, same_target e (g e)) →
  update_payout id g db = (db', r) →
  rf_fin db' = rf_fin db ∧ only_entry id db db' ∧
  match r with
  | Ok _ => ∃ e, rf_payouts db !! id = Some e ∧ rf_payouts db' = <[id:=g e]> (rf_payouts db)
  | Err e => e = DatabaseFailure ∧ rf_payouts db !! id = None ∧ db' = db
  end.
Proof.
  intros Hg. unfold update_payout, mwrite. destruct (rf_payouts db !! id) as [e|] eqn:E; intros [= <- <-].
  - unfold only_entry. cbn [rf_payouts set_payouts].
    split_and!; [done|by rewrite length_insert|intros j Hj; by rewrite list_lookup_insert_ne| |by exists e].
    intros e' He'. exists (g e). rewrite list_lookup_insert_eq by (by eapply lookup_lt_Some).
    split; [done|]. replace e' with e by congruence. apply Hg.
  - by split_and!.
Qed.

Lemma claim_cases now id db db' r : claimForRetry now id db = (db', r) →
  rf_fin db' = rf_fin db ∧ only_entry id db db' ∧
  match r with
  | Ok entry => ∃ e, rf_payouts db !! id = Some e ∧ claimable now e = true ∧ entry = claimed now e ∧
      rf_payouts db' !! id = Some entry
  | Err e => db' = db
  end.
Proof.
  unfold claimForRetry, get. intros H. apply mbind_cases in H as [(db1 & x & Hr & H)|(e & He & ->)]; [|done].
  injection Hr as <- <-. destruct (rf_payouts db !! id) as [e|] eqn:E; [|by injection H as <- <-].
  destruct (claimable now e) eqn:Ec; [|by injection H as <- <-].
  apply mbind_cases in H as [(db1 & [] & H1 & H2)|(e' & H1 & ->)].
  - apply update_payout_cases in H1 as (F1 & O1 & e' & He' & Hp); [|done]. replace e' with e in * by congruence.
    unfold mbind', mread, found in H2. assert (rf_payouts db1 !! id = Some (claimed now e)) as Hl.
    { rewrite Hp. apply list_lookup_insert_eq. by eapply lookup_lt_Some. }
    rewrite Hl in H2. injection H2 as <- <-. split_and!; try done. by exists e.
  - apply update_payout_cases in H1 as (F1 & O1 & _ & Hn & _); [|done]. congruence.
Qed.

Lemma only_entry_same id db db' : rf_payouts db' = rf_payouts db → only_entry id db db'.
Proof. intros E. unfold only_entry. rewrite E. split_and!; [done|done|]. intros e He. by exists e. Qed.

Lemma dispatch_cases net contract recipients db db' r : dispatchRefund net contract recipients db = (db', r) →
  rf_fin db' = rf_fin db ∧ rf_payouts db' = rf_payouts db ∧
  r = Ok (net (length (rf_dispatched db)) contract recipients).
Proof. unfold dispatchRefund. by intros [= <- <-]. Qed.

Definition is_conflict (e : RefundError) : bool := match e with DeadLetterConflictError _ => true | _ => false end.

Lemma find_refund_league_cases leagueId db db' r : find_refund_league leagueId db = (db', r) →
  db' = db ∧ match r with Ok league => find_league leagueId (rf_fin db) = Some league | Err e => is_conflict e = false end.
Proof.
  unfold find_refund_league, mbind', mread, found, mok, mthrow.
  destruct (find_league _ _); by intros [= <- <-].
Qed.

Lemma contract_cases leagueId db db' r : contract_league_id leagueId db = (db', r) →
  db' = db ∧ match r with Ok _ => True | Err e => is_conflict e = false end.
Proof. unfold contract_league_id, mok, mthrow. destruct (toContractLeagueId _); by intros [= <- <-]. Qed.

(** *** What a run tells the contract *)

(** The wallets that the successful ones of the invocations [ds] pay, the first
    of which is the [n]th. *)
Fixpoint paid_out (net : nat → Z → list string → RefundInvocationOutcome) (n : nat) (ds : list (Z * list string)) : list string :=
  match ds with
  | [] => []
  | (c, recipients) :: ds => (if ro_success (net n c recipients) then recipients else []) ++ paid_out net (S n) ds
  end.

(** The wallet of a member. *)
Definition wallet_of (f : FinancialDb) (id : string) : option string := truthy (map_get id (fd_addresses f)).

(** A run invokes the contract for its league only, and what it pays goes to the
    wallets of the members [ids] it books; only the last invocation of a run that
    does not end well can be paid and not booked. *)
Definition chain_effect (net : nat → Z → list string → RefundInvocationOutcome) (leagueId : string) (db db' : RefundDb)
    (ids : list string) (ok : bool) : Prop :=
  ∃ ds lost, rf_dispatched db' = rf_dispatched db ++ ds ∧
    (∀ d, d ∈ ds → toContractLeagueId leagueId = Ok d.1) ∧
    Some <$> paid_out net (length (rf_dispatched db)) ds = (wallet_of (rf_fin db) <$> ids) ++ (Some <$> lost) ∧
    (lost = [] ∨ ok = false ∧ ∃ d, last ds = Some d ∧ lost = d.2).

Lemma paid_out_app net n ds1 ds2 : paid_out net n (ds1 ++ ds2) = paid_out net n ds1 ++ paid_out net (n + length ds1) ds2.
Proof.
  revert n. induction ds1 as [|[c rs] ds1 IH]; intros n; cbn; [by rewrite Nat.add_0_r|].
  by rewrite IH, (assoc (++)), Nat.add_succ_r.
Qed.

Lemma chain_none net leagueId db db' ok : rf_dispatched db' = rf_dispatched db → chain_effect net leagueId db db' [] ok.
Proof.
  intros E. exists [], []. rewrite app_nil_r. split_and!; [done| |done|by left]. by intros d ?%elem_of_nil.
Qed.

Lemma chain_same_end net leagueId db db1 db2 ids ok : rf_dispatched db2 = rf_dispatched db1 →
  chain_effect net leagueId db db1 ids ok → chain_effect net leagueId db db2 ids ok.
Proof. intros E (ds & lost & H). exists ds, lost. by rewrite E. Qed.

Lemma chain_same_start net leagueId db db1 db2 ids ok : rf_dispatched db1 = rf_dispatched db → rf_fin db1 = rf_fin db →
  chain_effect net leagueId db1 db2 ids ok → chain_effect net leagueId db db2 ids ok.
Proof. intros E F (ds & lost & H). exists ds, lost. by rewrite <- E, <- F. Qed.

Lemma chain_app net leagueId db db1 db2 ids1 ids2 ok : chain_effect net leagueId db db1 ids1 true →
  fd_addresses (rf_fin db1) = fd_addresses (rf_fin db) →
  chain_effect net leagueId db1 db2 ids2 ok → chain_effect net leagueId db db2 (ids1 ++ ids2) ok.
Proof.
  intros (ds1 & lost1 & D1 & C1 & P1 & [->|[? _]]) E (ds2 & lost2 & D2 & C2 & P2 & L2); [|done].
  exists (ds1 ++ ds2), lost2. rewrite app_nil_r in P1. split_and!.
  - by rewrite D2, D1, (assoc (++)).
  - intros d [Hd|Hd]%elem_of_app; auto.
  - rewrite paid_out_app, fmap_app, P1. rewrite D1, length_app in P2. rewrite P2, fmap_app, (assoc (++)).
    do 2 f_equal. apply list_fmap_ext. intros _ x _. unfold wallet_of. by rewrite E.
  - destruct L2 as [?|[? (d & Hl & ?)]]; [by left|right]. split; [done|]. exists d. split; [|done].
    destruct ds2 as [|d2 ds2] using rev_ind; [done|]. rewrite (assoc (++)), last_snoc. by rewrite last_snoc in Hl.
Qed.

(** One invocation: booked, failed, or paid and not booked. *)
Lemma chain_one net leagueId contract recipients db db1 ids ok : toContractLeagueId leagueId = Ok contract →
  rf_dispatched db1 = rf_dispatched db ++ [(contract, recipients)] →
  (if ro_success (net (length (rf_dispatched db)) contract recipients)
   then wallet_of (rf_fin db) <$> ids = Some <$> recipients ∨ ids = [] ∧ ok = false else ids = []) →
  chain_effect net leagueId db db1 ids ok.
Proof.
  intros Hc Hd H. exists [(contract, recipients)]. cbn [paid_out]. destruct (ro_success _).
  - destruct H as [H|[-> ->]].
    + exists []. rewrite !app_nil_r. split_and!; [done|by intros d ->%list_elem_of_singleton|done|by left].
    + exists recipients. rewrite app_nil_r. split_and!; [done|by intros d ->%list_elem_of_singleton|done|right].
      split; [done|]. by eexists.
  - subst ids. exists []. split_and!; [done|by intros d ->%list_elem_of_singleton|done|by left].
Qed.

(** The operations that invoke nothing. *)
Definition quiet {A} (m : R A) : Prop := ∀ db, rf_dispatched (m db).1 = rf_dispatched db.

Lemma quiet_run {A} (m : R A) db db' r : quiet m → m db = (db', r) → rf_dispatched db' = rf_dispatched db.
Proof. intros Hq E. specialize (Hq db). by rewrite E in Hq. Qed.

Lemma quiet_bind {A B} (m : R A) (k : A → R B) : quiet m → (∀ a, quiet (k a)) → quiet (mbind' m k).
Proof.
  intros Hm Hk db. unfold mbind'. specialize (Hm db). destruct (m db) as [db1 [a|e]]; [|done].
  cbn in *. by rewrite Hk.
Qed.

Lemma quiet_update id f : quiet (update_payout id f).
Proof. intros db. unfold update_payout, mwrite. by destruct (rf_payouts db !! id). Qed.

Lemma quiet_get id : quiet (get id).
Proof. intros db. unfold get, mbind', mread, found, mok, mthrow. by destruct (rf_payouts db !! id). Qed.

Lemma quiet_claim now id : quiet (claimForRetry now id).
Proof.
  apply quiet_bind; [done|]. intros [e|]; [|done]. destruct (claimable now e); [|done].
  apply quiet_bind; [apply quiet_update|]. intros _. apply quiet_get.
Qed.

Lemma quiet_failed now id entry error code : quiet (markRetryFailed now id entry error code).
Proof. apply quiet_update. Qed.

Lemma quiet_resolved now id actor hash note : quiet (markResolved now id actor hash note).
Proof. apply quiet_update. Qed.

Lemma quiet_deadLetter now type leagueId ids recipients amount error code rec :
  quiet (deadLetter now type leagueId ids recipients amount error code rec).
Proof. by intros db. Qed.

#[local] Hint Resolve quiet_claim quiet_failed quiet_resolved quiet_deadLetter : core.

(** *** One retry *)

Lemma contract_value leagueId db db' n : contract_league_id leagueId db = (db', Ok n) → toContractLeagueId leagueId = Ok n.
Proof. unfold contract_league_id, mok, mthrow. destruct (toContractLeagueId _); by intros [= _ <-]. Qed.

(** [db'] has refunded [ids], members of [entry] who were owed. *)
Record retried (id : nat) (entry : FailedPayout) (db db' : RefundDb) (ids : list string) : Prop := {
  rt_refunded : refunded ids (rf_fin db) (rf_fin db');
  rt_nodup : NoDup ids;
  rt_owed : ∀ x, x ∈ ids → x ∈ fp_memberIds entry ∧ x ∈ owed_ids (fp_leagueId entry) (rf_fin db);
  rt_only : only_entry id db db'
}.

Lemma retried_none id entry db db' : rf_fin db' = rf_fin db → only_entry id db db' → retried id entry db db' [].
Proof.
  intros Hf Ho. constructor; [rewrite Hf; apply refunded_nil|constructor| |done].
  intros x Hx. by apply not_elem_of_nil in Hx.
Qed.

Lemma retried_then id entry db db1 db2 ids : retried id entry db db1 ids → rf_fin db2 = rf_fin db1 →
  only_entry id db1 db2 → retried id entry db db2 ids.
Proof. intros [H1 H2 H3 H4] Hf Ho. constructor; [by rewrite Hf|done|done|by etrans]. Qed.

Lemma retried_after id entry db db1 db2 ids : rf_fin db1 = rf_fin db → only_entry id db db1 →
  retried id entry db1 db2 ids → retried id entry db db2 ids.
Proof. intros Hf Ho [H1 H2 H3 H4]. constructor; [by rewrite <- Hf|done|by rewrite <- Hf|by etrans]. Qed.

Lemma failed_cases now id entry error code db db' r : markRetryFailed now id entry error code db = (db', r) →
  rf_fin db' = rf_fin db ∧ only_entry id db db' ∧ match r with Ok _ => True | Err e => is_conflict e = false end.
Proof.
  unfold markRetryFailed. intros (F & O & H)%update_payout_cases; [|done]. split_and!; [done..|].
  destruct r; [done|]. by destruct H as [-> _].
Qed.

Lemma resolved_cases now id actor hash note db db' r : markResolved now id actor hash note db = (db', r) →
  rf_fin db' = rf_fin db ∧ only_entry id db db' ∧ match r with Ok _ => True | Err e => is_conflict e = false end.
Proof.
  unfold markResolved. intros (F & O & H)%update_payout_cases; [|done]. split_and!; [done..|].
  destruct r; [done|]. by destruct H as [-> _].
Qed.

(** The committed part of a retry. *)
Lemma pay_cases now id entry actor note hash league owed db db' r :
  NoDup (mb_id <$> db_members (fd_league (rf_fin db))) →
  owed = List.filter (λ m, bool_decide (mb_id m ∈ fp_memberIds entry) && isRefundOwed m)
    (league_members (fp_leagueId entry) (rf_fin db)) →
  (commitRefundBatch league (fp_leagueId entry) owed hash now ;!
   markResolved now id actor hash note ;!
   mok {| rr_success := true; rr_status := Fp_RESOLVED; rr_txHash := hash; rr_paidMemberIds := mb_id <$> owed |}) db
    = (db', r) →
  ∃ ids, retried id entry db db' ids ∧ rf_dispatched db' = rf_dispatched db ∧
    (ids = mb_id <$> owed ∨ ids = [] ∧ is_ok r = false) ∧
    match r with Ok rr => rr_paidMemberIds rr = ids | Err e => is_conflict e = false end.
Proof.
  intros Hnd Hw H. apply mbind_cases in H as [(db1 & [] & H1 & H)|(e & H1 & ->)].
  2: { apply commit_cases in H1 as (_ & D1 & [[? _]|[[= ->] ->]]); [done|]. exists []. split_and!; [by apply retried_none|done|by right|done]. }
  apply commit_cases in H1 as (P1 & D1 & [[_ Href]|[? _]]); [|done].
  assert (retried id entry db db1 (mb_id <$> owed)) as Hr.
  { constructor; [done| | |].
    - subst owed. by do 2 apply NoDup_fmap_lfilter.
    - intros x (m & -> & Hm)%list_elem_of_fmap. subst owed. apply elem_of_lfilter in Hm as [Hm [Hi Ho]%andb_true_iff].
      apply bool_decide_eq_true in Hi. split; [done|]. unfold owed_ids. apply list_elem_of_fmap. exists m.
      split; [done|]. by apply elem_of_lfilter.
    - by apply only_entry_same. }
  apply mbind_cases in H as [(db2 & [] & H2 & H)|(e & H2 & ->)];
    pose proof (quiet_run _ _ _ _ (quiet_resolved _ _ _ _ _) H2) as D2; apply resolved_cases in H2 as (F2 & O2 & H2).
  - injection H as <- <-. exists (mb_id <$> owed). split_and!; [by eapply retried_then|congruence|by left|done].
  - exists (mb_id <$> owed). split_and!; [by eapply retried_then|congruence|by left|done].
Qed.

Lemma wallet_address f m : wallet_of f (mb_id m) = address_of f m.
Proof. unfold wallet_of, address_of, truthy. destruct (map_get _ _) as [a|]; [|done]. by case_bool_decide; case_decide. Qed.

Lemma wallets_found f (ms : list LeagueMember) : None ∉ address_of f <$> ms →
  wallet_of f <$> (mb_id <$> ms) = Some <$> omap id (address_of f <$> ms).
Proof.
  induction ms as [|m ms IH]; [done|]. rewrite !fmap_cons. intros [H1 H2]%not_elem_of_cons.
  rewrite wallet_address. destruct (address_of f m) as [a|]; [|done]. cbn. f_equal. by apply IH.
Qed.

Lemma body_cases net now id entry actor note db db' r :
  NoDup (mb_id <$> db_members (fd_league (rf_fin db))) →
  redispatch_claimed net now id entry actor note db = (db', r) →
  ∃ ids, retried id entry db db' ids ∧ chain_effect net (fp_leagueId entry) db db' ids (is_ok r) ∧
    match r with Ok rr => rr_paidMemberIds rr = ids | Err e => is_conflict e = false end.
Proof.
  intros Hnd H. unfold redispatch_claimed in H. cbv zeta in H.
  apply mbind_cases in H as [(db1 & league & H1 & H)|(e & H1 & ->)]; apply find_refund_league_cases in H1 as [-> Hl];
    [|exists []; split_and!; [by apply retried_none|by apply chain_none|done]].
  apply mbind_cases in H as [(db1 & members & [= <- <-] & H)|(e & ? & _)]; [|done].
  set (owed := List.filter _ (league_members (fp_leagueId entry) (rf_fin db))) in H.
  case_bool_decide as Hn.
  { apply mbind_cases in H as [(db1 & [] & H2 & H)|(e & H2 & ->)];
      pose proof (quiet_run _ _ _ _ (quiet_resolved _ _ _ _ _) H2) as D2; apply resolved_cases in H2 as (F2 & O2 & H2).
    - injection H as <- <-. exists []. split_and!; [by apply retried_none|by apply chain_none|done].
    - exists []. split_and!; [by apply retried_none|by apply chain_none|done]. }
  apply mbind_cases in H as [(db1 & addresses & [= <- <-] & H)|(e & ? & _)]; [|done].
  apply mbind_cases in H as [(db1 & outcome & H2 & H)|(e & H2 & ->)].
  - assert (rf_fin db1 = rf_fin db ∧ only_entry id db db1 ∧
      (rf_dispatched db1 = rf_dispatched db ∧ ro_success outcome = false ∨
       ∃ n, toContractLeagueId (fp_leagueId entry) = Ok n ∧ None ∉ address_of (rf_fin db) <$> owed ∧
         rf_dispatched db1 = rf_dispatched db ++ [(n, omap Datatypes.id (address_of (rf_fin db) <$> owed))] ∧
         outcome = net (length (rf_dispatched db)) n (omap Datatypes.id (address_of (rf_fin db) <$> owed)))) as (F1 & O1 & D1).
    { case_bool_decide; [injection H2 as <- <-; split_and!; [done|done|by left]|].
      apply mbind_cases in H2 as [(db2 & n & H3 & H2)|(e & ? & ?)]; [|done].
      pose proof (contract_value _ _ _ _ H3) as Hn'. apply contract_cases in H3 as [-> _].
      unfold dispatchRefund in H2. injection H2 as <- <-. split_and!; [done|by apply only_entry_same|right].
      exists n. by split_and!. }
    destruct (negb (ro_success outcome)) eqn:Es.
    + apply negb_true_iff in Es. assert (∀ ok, chain_effect net (fp_leagueId entry) db db1 [] ok) as C1.
      { intros ok. destruct D1 as [[D1 _]|(n & En & _ & D1 & ->)]; [by apply chain_none|].
        eapply chain_one; [done|done|]. by rewrite Es. }
      apply mbind_cases in H as [(db2 & [] & H3 & H)|(e & H3 & ->)];
        pose proof (quiet_run _ _ _ _ (quiet_failed _ _ _ _ _) H3) as D3; apply failed_cases in H3 as (F3 & O3 & H3).
      * injection H as <- <-. exists []. split_and!; [apply retried_none; [congruence|by etrans]| |done].
        by eapply chain_same_end.
      * exists []. split_and!; [apply retried_none; [congruence|by etrans]| |done]. by eapply chain_same_end.
    + apply negb_false_iff in Es. destruct D1 as [[_ ?]|(n & En & Hw & D1 & Eo)]; [congruence|].
      destruct (pay_cases now id entry actor note (ro_txHash outcome) league owed db1 db' r) as (ids & Hr & D2 & Hi & Hm);
        [by rewrite F1|by rewrite F1|done|]. exists ids. split_and!; [by eapply retried_after| |done].
      eapply chain_same_end; [exact D2|]. eapply chain_one; [done|done|]. rewrite <- Eo, Es.
      destruct Hi as [->|Hi]; [left; by apply wallets_found|by right].
  - exists []. case_bool_decide; [done|].
    apply mbind_cases in H2 as [(db2 & n & H3 & H2)|(e' & H3 & [= ->])]; [done|].
    apply contract_cases in H3 as [-> He]. split_and!; [by apply retried_none|by apply chain_none|done].
Qed.

Lemma redispatch_cases net msg now id actor note db db' r :
  NoDup (mb_id <$> db_members (fd_league (rf_fin db))) →
  redispatchRefundEntry net msg now id actor note db = (db', r) →
  (∃ e, rf_payouts db !! id = Some e ∧ ∃ ids, retried id e db db' ids ∧ chain_effect net (fp_leagueId e) db db' ids (is_ok r) ∧
    match r with Ok rr => rr_paidMemberIds rr = ids | Err e => is_conflict e = false end) ∨
  (db' = db ∧ ∃ e, r = Err e).
Proof.
  intros Hnd H. unfold redispatchRefundEntry in H.
  apply mbind_cases in H as [(db1 & entry & H1 & H)|(e & H1 & ->)];
    pose proof (quiet_run _ _ _ _ (quiet_claim _ _) H1) as D1; apply claim_cases in H1 as (F1 & O1 & H1);
    [left|right; by eauto].
  destruct H1 as (e & He & _ & -> & _). exists e. split; [done|].
  unfold mcatch at 1 in H. destruct (redispatch_claimed _ _ _ _ _ _ db1) as [db2 r2] eqn:Eb.
  apply body_cases in Eb as (ids & Hr & Hch & Hm); [|by rewrite F1].
  eapply chain_same_start in Hch; [|exact D1|exact F1]. change (fp_leagueId (claimed now e)) with (fp_leagueId e) in Hch.
  assert (retried id e db db2 ids) as Hr'.
  { apply (retried_after _ _ _ db1); [done..|]. destruct Hr as [A B C D]. by constructor. }
  exists ids. destruct r2 as [rr|err].
  - injection H as <- <-. by split_and!.
  - apply mbind_cases in H as [(db3 & [] & H2 & H)|(e' & H2 & ->)].
    + injection H as <- <-. unfold mcatch in H2.
      destruct (markRetryFailed _ _ _ _ _ db2) as [db4 [[]|e4]] eqn:E4;
        pose proof (quiet_run _ _ _ _ (quiet_failed _ _ _ _ _) E4) as D4; apply failed_cases in E4 as (F4 & O4 & _);
        injection H2 as <-; (split_and!; [by eapply retried_then|by eapply chain_same_end|done]).
    + exfalso. unfold mcatch in H2. by destruct (markRetryFailed _ _ _ _ _ db2) as [db4 [[]|e4]].
Qed.

(** The whole first phase. *)
Record retried_all (leagueId : string) (entries : list (nat * FailedPayout)) (db db' : RefundDb) (ids : list string) : Prop := {
  ra_refunded : refunded ids (rf_fin db) (rf_fin db');
  ra_nodup : NoDup ids;
  ra_owed : ∀ x, x ∈ ids → x ∈ owed_ids leagueId (rf_fin db) ∧
    ∃ i e, (i, e) ∈ entries ∧ x ∈ fp_memberIds e;
  ra_others : ∀ j, j ∉ entries.*1 → rf_payouts db' !! j = rf_payouts db !! j
}.

(** The entries, as listed, are still what the table holds. *)
Definition listed (leagueId : string) (entries : list (nat * FailedPayout)) (db : RefundDb) : Prop :=
  ∀ i e, (i, e) ∈ entries → fp_leagueId e = leagueId ∧ ∃ e', rf_payouts db !! i = Some e' ∧ same_target e e'.

Lemma listed_after leagueId entries id db db' : only_entry id db db' → listed leagueId entries db → listed leagueId entries db'.
Proof.
  intros (_ & Oj & Oe) H i e Hin. destruct (H i e Hin) as (Hl & e' & He' & S1 & S2 & S3). split; [done|].
  destruct (decide (i = id)) as [->|Hne]; [|exists e'; rewrite Oj; done].
  destruct (Oe e' He') as (e'' & He'' & T1 & T2 & T3). exists e''. split; [done|]. unfold same_target.
  by rewrite T1, T2, T3.
Qed.

Lemma retried_all_cons leagueId id e0 e entries db db1 db2 ids1 ids2 :
  NoDup (mb_id <$> db_members (fd_league (rf_fin db))) →
  same_target e0 e → fp_leagueId e0 = leagueId →
  retried id e db db1 ids1 → retried_all leagueId entries db1 db2 ids2 →
  retried_all leagueId ((id, e0) :: entries) db db2 (ids1 ++ ids2).
Proof.
  intros Hnd (S1 & S2 & S3) Hl [A1 A2 A3 (A4 & A5 & A6)] [B1 B2 B3 B4]. rewrite S1, S2, Hl in *. constructor.
  - by eapply refunded_app.
  - apply NoDup_app. split_and!; [done| |done]. intros x Hx1 Hx2. destruct (B3 x Hx2) as [Ho _].
    apply (owed_after _ _ _ _ _ Hnd A1) in Ho. by apply Ho.
  - intros x [Hx|Hx]%elem_of_app.
    + destruct (A3 x Hx) as [Hm Ho]. split; [done|]. exists id, e0. split; [by left|done].
    + destruct (B3 x Hx) as [Ho (i & e' & Hin & Hm)]. split; [by apply (owed_after _ _ _ _ _ Hnd A1) in Ho as [Ho _]|].
      exists i, e'. split; [by right|done].
  - intros j Hj. rewrite B4, A5; [done| |]; intros E; apply Hj; [subst; by left|by right].
Qed.

Lemma retried_all_more leagueId entries db : retried_all leagueId entries db db [].
Proof. constructor; [apply refunded_nil|constructor| |done]. intros x Hx. by apply not_elem_of_nil in Hx. Qed.

Lemma auto_retry_cases net msg now leagueId entries done_ refunded0 db db' r :
  NoDup (mb_id <$> db_members (fd_league (rf_fin db))) → listed leagueId entries db →
  auto_retry net msg now entries done_ refunded0 db = (db', r) →
  ∃ ids, retried_all leagueId entries db db' ids ∧ chain_effect net leagueId db db' ids (is_ok r) ∧
    match r with Ok x => x.2 = refunded0 ++ ids | Err _ => True end.
Proof.
  revert done_ refunded0 db. induction entries as [|[id e0] entries IH]; intros done_ refunded0 db Hnd Hls H.
  { injection H as <- <-. exists []. split_and!; [apply retried_all_more|by apply chain_none|by rewrite app_nil_r]. }
  destruct (Hls id e0) as (Hl & e & He & Hs); [by left|].
  assert (∀ db1, only_entry id db db1 → listed leagueId entries db1) as Hls'.
  { intros db1 Ho. eapply listed_after; [done|]. intros i e' Hin. apply Hls. by right. }
  cbn [auto_retry] in H.
  destruct (redispatchRefundEntry net msg now id SYSTEM_ACTOR None db) as [db1 r1] eqn:E.
  assert (∀ f, (mcatch (let! r := redispatchRefundEntry net msg now id SYSTEM_ACTOR None in mok (Some r)) f) db
    = match r1 with Ok a => (db1, Ok (Some a)) | Err err => f err db1 end) as Hc.
  { intros f. unfold mcatch, mbind'. rewrite E. by destruct r1. }
  unfold mbind' at 1 in H. rewrite Hc in H. clear Hc.
  apply redispatch_cases in E as [(e' & He' & ids1 & Hr & Hch & Hm)|[-> [err ->]]]; [| |done].
  - replace e' with e in * by congruence. destruct Hs as (S1 & S2 & S3). rewrite S2, Hl in Hch.
    assert (∀ db2 ids2, retried_all leagueId entries db1 db2 ids2 →
      retried_all leagueId ((id, e0) :: entries) db db2 (ids1 ++ ids2)) as Hcons
      by (intros; by eapply (retried_all_cons leagueId id e0 e); [..|done|done]).
    destruct r1 as [rr|err].
    + destruct (IH _ _ _ (eq_ind_r (λ l, NoDup l) Hnd (refunded_ids _ _ _ (rt_refunded _ _ _ _ _ Hr)))
        (Hls' _ (rt_only _ _ _ _ _ Hr)) H) as (ids2 & Hr2 & Hch2 & Hm2).
      exists (ids1 ++ ids2). split_and!; [by apply Hcons| |].
      { by eapply chain_app; [|apply (rd_addresses _ _ _ (rt_refunded _ _ _ _ _ Hr))|]. }
      destruct r; [|done]. by rewrite Hm2, Hm, (assoc (++)).
    + exists (ids1 ++ []). assert (db' = db1 ∧ ∃ e, r = Err e) as [-> [e1 ->]]
        by (destruct err; try done; injection H as <- <-; eauto).
      split_and!; [by apply Hcons, retried_all_more|by rewrite app_nil_r|done].
  - assert (∀ db2 ids2, retried_all leagueId entries db db2 ids2 →
      retried_all leagueId ((id, e0) :: entries) db db2 ids2) as Hcons.
    { intros db2 ids2. apply (retried_all_cons leagueId id e0 e entries db db db2 []); [done..|by apply retried_none]. }
    destruct (is_conflict err) eqn:Ec.
    + destruct err; try done. destruct (IH _ _ _ Hnd (Hls' _ (reflexivity _)) H) as (ids & Hr & Hch & Hm).
      exists ids. split_and!; [by apply Hcons|done|done].
    + exists []. assert (db' = db ∧ ∃ e, r = Err e) as [-> [e1 ->]]
        by (destruct err; try done; injection H as <- <-; eauto).
      split_and!; [by apply Hcons, retried_all_more|by apply chain_none|done].
Qed.

(** ** The batches *)

Lemma chunk_fuel_concat {A} fuel size (l : list A) : (0 < size)%nat → (length l ≤ fuel)%nat →
  mjoin (chunk_fuel fuel size l) = l.
Proof.
  intros Hs. revert l. induction fuel as [|fuel IH]; intros l Hf.
  - by destruct l; [|cbn in Hf; lia].
  - destruct l as [|x l]; [done|]. cbn [chunk_fuel]. cbn [mjoin list_join]. rewrite IH; [apply take_drop|].
    rewrite length_drop. cbn [length] in *. lia.
Qed.

Lemma chunk_concat {A} (l : list A) : mjoin (chunk l REFUND_BATCH_SIZE) = l.
Proof. apply chunk_fuel_concat; unfold REFUND_BATCH_SIZE; lia. Qed.

(** [x] sits in an entry that keeps it from being paid. *)
Definition isolated_in (leagueId : string) (entries : list FailedPayout) (x : string) : Prop :=
  ∃ e, e ∈ entries ∧ isolating leagueId REFUND e = true ∧ x ∈ fp_memberIds e.

Lemma elem_of_isolated leagueId db x :
  x ∈ getIsolatedMemberIds leagueId REFUND db ↔ isolated_in leagueId (rf_payouts db) x.
Proof.
  unfold getIsolatedMemberIds, isolated_in. rewrite list_elem_of_join. split.
  - intros (l & Hx & (e & -> & [He Hi]%elem_of_lfilter)%list_elem_of_fmap). eauto.
  - intros (e & He & Hi & Hx). exists (fp_memberIds e). split; [done|]. apply list_elem_of_fmap. exists e.
    by rewrite elem_of_lfilter.
Qed.

Lemma isolated_more leagueId l1 l2 x : isolated_in leagueId l1 x → isolated_in leagueId (l1 ++ l2) x.
Proof. intros (e & He & H). exists e. split; [|done]. apply elem_of_app. by left. Qed.

Lemma deadLetter_cases now leagueId ids recipients amount error code rec db db' r :
  deadLetter now REFUND leagueId ids recipients amount error code rec db = (db', r) →
  rf_fin db' = rf_fin db ∧ r = Ok (length (rf_payouts db)) ∧
  ∃ e, rf_payouts db' = rf_payouts db ++ [e] ∧ isolating leagueId REFUND e = true ∧ fp_memberIds e = ids.
Proof.
  unfold deadLetter, mbind', mread, mwrite, mok. intros [= <- <-]. cbn. split_and!; [done|done|].
  eexists. split; [done|]. split; [|done]. unfold isolating, same_payout. cbn.
  by rewrite !bool_decide_eq_true_2 by (done || set_solver).
Qed.

Definition batch_ids (batches : list (list (LeagueMember * string))) : list string := mb_id <$> (mjoin batches).*1.

Lemma batch_ids_cons batch batches : batch_ids (batch :: batches) = (mb_id <$> batch.*1) ++ batch_ids batches.
Proof. unfold batch_ids. cbn. by rewrite !fmap_app. Qed.

Lemma dispatch_batches_cases net now league leagueId contract batches ref0 failed0 entries0 db db' r :
  dispatch_batches net now league leagueId contract batches ref0 failed0 entries0 db = (db', r) →
  toContractLeagueId leagueId = Ok contract →
  (∀ y, y ∈ mjoin batches → wallet_of (rf_fin db) (mb_id y.1) = Some y.2) →
  ∃ ids new, refunded ids (rf_fin db) (rf_fin db') ∧ chain_effect net leagueId db db' ids (is_ok r) ∧
    ids `sublist_of` batch_ids batches ∧
    rf_payouts db' = rf_payouts db ++ new ∧
    match r with
    | Ok x => x.1.1 = ref0 ++ ids ∧ ∀ x, x ∈ batch_ids batches → x ∈ ids ∨ isolated_in leagueId new x
    | Err _ => True
    end.
Proof.
  intros H Hcl. revert ref0 failed0 entries0 db H. induction batches as [|batch batches IH]; intros ref0 failed0 entries0 db H Hw.
  { injection H as <- <-. exists [], [].
    split_and!; [apply refunded_nil|by apply chain_none|done|by rewrite app_nil_r|by rewrite app_nil_r|].
    intros x Hx. by apply not_elem_of_nil in Hx. }
  cbn [dispatch_batches] in H. rewrite batch_ids_cons.
  apply mbind_cases in H as [(db1 & outcome & H1 & H)|(e & H1 & _)]; [|done].
  unfold dispatchRefund in H1. injection H1 as H1 Eo.
  assert (rf_dispatched db1 = rf_dispatched db ++ [(contract, batch.*2)]) as D1 by by rewrite <- H1.
  assert (rf_fin db1 = rf_fin db) as F1 by by rewrite <- H1.
  assert (rf_payouts db1 = rf_payouts db) as P1 by by rewrite <- H1. clear H1.
  assert (∀ f, fd_addresses f = fd_addresses (rf_fin db) →
    ∀ y, y ∈ mjoin batches → wallet_of f (mb_id y.1) = Some y.2) as Hw'.
  { intros f Ef y Hy. unfold wallet_of. rewrite Ef. apply Hw. cbn. apply elem_of_app. by right. }
  destruct (negb (ro_success outcome)) eqn:Es.
  - apply negb_true_iff in Es. apply mbind_cases in H as [(db2 & n & H2 & H)|(e & H2 & _)];
      pose proof (quiet_run _ _ _ _ (quiet_deadLetter _ _ _ _ _ _ _ _ _) H2) as D2;
      apply deadLetter_cases in H2 as (F2 & Hr2 & e2 & P2 & I2 & M2); [|done].
    destruct (IH _ _ _ _ H) as (ids & new & R & Ch & S & P & C); [apply Hw'; congruence|].
    exists ids, (e2 :: new). split_and!.
    + by rewrite <- F1, <- F2.
    + apply (chain_app _ _ _ db2 _ []); [|congruence|done].
      eapply chain_same_end; [exact D2|]. eapply chain_one; [done|done|]. by rewrite Eo, Es.
    + by apply sublist_inserts_l.
    + rewrite P, P2, P1, <- (assoc (++)). done.
    + destruct r; [|done]. destruct C as [C1 C2]. split; [done|]. intros x [Hx|Hx]%elem_of_app.
      * right. exists e2. split_and!; [by left|done|by rewrite M2].
      * destruct (C2 x Hx) as [?|(e & He & ?)]; [by left|right]. exists e. split; [by right|done].
  - apply negb_false_iff in Es.
    apply mbind_cases in H as [(db2 & [] & H2 & H)|(e & H2 & ->)]; apply commit_cases in H2 as (P2 & D2 & H2).
    + destruct H2 as [[_ Href]|[? _]]; [|done].
      destruct (IH _ _ _ _ H) as (ids & new & R & Ch & S & P & C); [apply Hw'; rewrite (rd_addresses _ _ _ Href); congruence|].
      exists ((mb_id <$> batch.*1) ++ ids), new. split_and!.
      * eapply refunded_app; [|done]. by rewrite <- F1.
      * apply (chain_app _ _ _ db2); [|rewrite (rd_addresses _ _ _ Href); congruence|done].
        eapply chain_same_end; [exact D2|]. eapply chain_one; [done|done|]. rewrite Eo, Es. left.
        rewrite <- !list_fmap_compose. apply Forall_fmap_ext_1, Forall_forall. intros y Hy. apply Hw. cbn. apply elem_of_app. by left.
      * by apply sublist_app.
      * by rewrite P, P2, P1.
      * destruct r; [|done]. destruct C as [C1 C2]. split; [by rewrite C1, (assoc (++))|].
        intros x [Hx|Hx]%elem_of_app; [left; apply elem_of_app; by left|].
        destruct (C2 x Hx) as [?|?]; [left; apply elem_of_app; by right|by right].
    + destruct H2 as [[? _]|[_ ->]]; [done|]. exists [], [].
      split_and!; [rewrite F1; apply refunded_nil| | |by rewrite P1, app_nil_r|done].
      * eapply chain_one; [done|done|]. rewrite Eo, Es. by right.
      * apply sublist_nil_l.
Qed.

Lemma with_wallet_sublist (l : list (LeagueMember * option string)) :
  (mb_id <$> (omap (λ x, pair x.1 <$> x.2) l).*1) `sublist_of` ((λ x, mb_id x.1) <$> l).
Proof.
  induction l as [|[m [a|]] l IH]; [done| |]; cbn; [by apply sublist_skip|by apply sublist_cons].
Qed.

Lemma with_wallet_elem (l : list (LeagueMember * option string)) y :
  y ∈ l → is_Some y.2 → mb_id y.1 ∈ mb_id <$> (omap (λ x, pair x.1 <$> x.2) l).*1.
Proof.
  intros Hy [a Ha]. apply list_elem_of_fmap. exists y.1. split; [done|]. apply list_elem_of_fmap. exists (y.1, a).
  split; [done|]. apply list_elem_of_omap. exists y. by rewrite Ha.
Qed.

Lemma retryable_elem leagueId db i e :
  (i, e) ∈ getAutoRetryable leagueId REFUND db ↔ rf_payouts db !! i = Some e ∧ auto_retryable leagueId REFUND e = true.
Proof.
  unfold getAutoRetryable. rewrite elem_of_lfilter, elem_of_lookup_imap. split.
  - intros [(i' & e' & [= -> ->] & Hi) Ha]. done.
  - intros [Hi Ha]. split; [|done]. by exists i, e.
Qed.

Lemma retryable_listed leagueId db : listed leagueId (getAutoRetryable leagueId REFUND db) db.
Proof.
  intros i e [Hi Ha]%retryable_elem. unfold auto_retryable, same_payout in Ha. bool_to_prop.
  split; [tauto|]. by exists e.
Qed.

(** Being kept apart by an entry that is not retried lasts. *)
Lemma isolation_lasts leagueId db db1 ids x :
  retried_all leagueId (getAutoRetryable leagueId REFUND db) db db1 ids → isolated_in leagueId (rf_payouts db) x →
  (∃ i e, (i, e) ∈ getAutoRetryable leagueId REFUND db ∧ x ∈ fp_memberIds e) ∨ isolated_in leagueId (rf_payouts db1) x.
Proof.
  intros Hr (e & He & Hi & Hx). apply list_elem_of_lookup in He as [j Hj].
  destruct (decide (j ∈ (getAutoRetryable leagueId REFUND db).*1)) as [Hin|Hin].
  - left. apply list_elem_of_fmap in Hin as ([j' e'] & -> & Hin). exists j', e'. split; [done|].
    apply retryable_elem in Hin as [Hj' _]. cbn in *. congruence.
  - right. exists e. split; [|done]. apply list_elem_of_lookup. exists j.
    by rewrite (ra_others _ _ _ _ _ Hr j Hin).
Qed.

(** A phase that ends with an error has refunded what it says. *)
Record run_effect (leagueId : string) (db db' : RefundDb) (ids : list string) : Prop := {
  re_refunded : refunded ids (rf_fin db) (rf_fin db');
  re_nodup : NoDup ids;
  re_owed : ∀ x, x ∈ ids → x ∈ owed_ids leagueId (rf_fin db);
  re_isolated : ∀ x, x ∈ ids → isolated_in leagueId (rf_payouts db) x →
    ∃ i e, (i, e) ∈ getAutoRetryable leagueId REFUND db ∧ x ∈ fp_memberIds e
}.

Lemma phase_one leagueId db db1 ids :
  retried_all leagueId (getAutoRetryable leagueId REFUND db) db db1 ids → run_effect leagueId db db1 ids.
Proof.
  intros [A1 A2 A3 _]. constructor; [done|done|by apply A3|]. intros x Hx _. by apply A3.
Qed.

Lemma phase_two leagueId db db1 db2 ids1 ids2 :
  NoDup (mb_id <$> db_members (fd_league (rf_fin db))) →
  retried_all leagueId (getAutoRetryable leagueId REFUND db) db db1 ids1 →
  refunded ids2 (rf_fin db1) (rf_fin db2) → NoDup ids2 →
  (∀ x, x ∈ ids2 → x ∈ owed_ids leagueId (rf_fin db) ∧ x ∉ ids1 ∧ ¬ isolated_in leagueId (rf_payouts db1) x) →
  run_effect leagueId db db2 (ids1 ++ ids2).
Proof.
  intros Hnd Hr Href Hn2 H. pose proof (phase_one _ _ _ _ Hr) as [A1 A2 A3 A4]. constructor.
  - by eapply refunded_app.
  - apply NoDup_app. split_and!; [done| |done]. intros x Hx1 Hx2. by destruct (H x Hx2) as (_ & Hx & _).
  - intros x [Hx|Hx]%elem_of_app; [by apply A3|by apply H].
  - intros x [Hx|Hx]%elem_of_app Hi; [by apply A4|]. destruct (isolation_lasts _ _ _ _ x Hr Hi) as [?|Hi1]; [done|].
    by apply H in Hx as (_ & _ & Hx).
Qed.

Definition ids_of (l : list (LeagueMember * option string)) : list string := (λ x, mb_id x.1) <$> l.

Lemma ids_of_filter p l : ids_of (List.filter p l) `sublist_of` ids_of l.
Proof.
  unfold ids_of. induction l as [|x l IH]; [done|]. cbn. destruct (p x); cbn; [by apply sublist_skip|by apply sublist_cons].
Qed.

Lemma snapshot_owed leagueId db x m :
  (m, x) ∈ members_with_address leagueId db → isRefundOwed m = true → mb_id m ∈ owed_ids leagueId (rf_fin db).
Proof.
  unfold members_with_address. intros (m' & [= -> ->] & Hm)%list_elem_of_fmap Ho. unfold owed_ids.
  apply list_elem_of_fmap. exists m'. split; [done|]. by apply elem_of_lfilter.
Qed.

Lemma owed_snapshot leagueId db x : x ∈ owed_ids leagueId (rf_fin db) →
  ∃ y, y ∈ members_with_address leagueId db ∧ mb_id y.1 = x ∧ isRefundOwed y.1 = true.
Proof.
  unfold owed_ids. intros (m & -> & [Hm Ho]%elem_of_lfilter)%list_elem_of_fmap.
  exists (m, address_of (rf_fin db) m). split_and!; [|done|done]. apply list_elem_of_fmap. by exists m.
Qed.

(** The members of the second phase, and the entry for those without a wallet. *)
Lemma second_phase net now league leagueId contract db db1 ids1 refunded0 failed0 pending dispatchable missing :
  NoDup (mb_id <$> db_members (fd_league (rf_fin db))) →
  retried_all leagueId (getAutoRetryable leagueId REFUND db) db db1 ids1 →
  pending = List.filter (λ x, isRefundOwed x.1 && negb (bool_decide (mb_id x.1 ∈ ids1))) (members_with_address leagueId db) →
  dispatchable = List.filter (λ x, negb (bool_decide (mb_id x.1 ∈ getIsolatedMemberIds leagueId REFUND db1))) pending →
  missing = ids_of (List.filter (λ x, bool_decide (x.2 = None)) dispatchable) →
  ∀ db2 entries db' r,
    (missing = [] ∧ db2 = db1 ∨ rf_fin db2 = rf_fin db1 ∧
      ∃ e, rf_payouts db2 = rf_payouts db1 ++ [e] ∧ isolating leagueId REFUND e = true ∧ fp_memberIds e = missing) →
    dispatch_batches net now league leagueId contract
      (chunk (omap (λ x, pair x.1 <$> x.2) dispatchable) REFUND_BATCH_SIZE) refunded0 failed0 entries db2 = (db', r) →
    toContractLeagueId leagueId = Ok contract → rf_dispatched db2 = rf_dispatched db1 → chain_effect net leagueId db db1 ids1 true →
    ∃ ids2, run_effect leagueId db db' (ids1 ++ ids2) ∧ chain_effect net leagueId db db' (ids1 ++ ids2) (is_ok r) ∧
      match r with
      | Ok x => x.1.1 = refunded0 ++ ids2 ∧ ∀ y, y ∈ owed_ids leagueId (rf_fin db) →
          y ∈ ids1 ++ ids2 ∨ y ∈ getIsolatedMemberIds leagueId REFUND db'
      | Err _ => True
      end.
Proof.
  intros Hnd Hr Hp Hd Hm db2 entries db' r Hw H Hcl D2 Hch1.
  assert (rf_fin db2 = rf_fin db1) as F2 by (by destruct Hw as [[_ ->]|[? _]]).
  assert (fd_addresses (rf_fin db2) = fd_addresses (rf_fin db)) as A2.
  { rewrite F2. apply (rd_addresses _ _ _ (ra_refunded _ _ _ _ _ Hr)). }
  apply dispatch_batches_cases in H as (ids2 & new & R & Hch & S & P & C); [|done|].
  2: { rewrite chunk_concat. intros y (z & Hz & Hy)%list_elem_of_omap. subst dispatchable pending.
    apply elem_of_lfilter in Hz as [[Hz _]%elem_of_lfilter _]. apply list_elem_of_fmap in Hz as (m & -> & _).
    apply fmap_Some in Hy as (a & Ha & ->). cbn in *. rewrite <- Ha, <- wallet_address. unfold wallet_of. by rewrite A2. }
  unfold batch_ids in S, C. rewrite chunk_concat in S, C.
  assert (∀ x, isolated_in leagueId (rf_payouts db1) x → isolated_in leagueId (rf_payouts db') x) as Hlast.
  { intros x Hx. rewrite P. apply isolated_more. destruct Hw as [[_ ->]|(_ & e & -> & _)]; [done|by apply isolated_more]. }
  assert (∀ y, y ∈ dispatchable → mb_id y.1 ∈ owed_ids leagueId (rf_fin db) ∧ mb_id y.1 ∉ ids1 ∧
    ¬ isolated_in leagueId (rf_payouts db1) (mb_id y.1)) as Hdis.
  { intros [m a] Hy. subst dispatchable pending. apply elem_of_lfilter in Hy as [Hy Hi%negb_true_iff%bool_decide_eq_false].
    apply elem_of_lfilter in Hy as [Hy [Ho Hn%negb_true_iff%bool_decide_eq_false]%andb_true_iff].
    split_and!; [by eapply snapshot_owed|done|by rewrite <- elem_of_isolated]. }
  assert (ids2 `sublist_of` ids_of dispatchable) as Hsub by (etrans; [done|apply with_wallet_sublist]).
  exists ids2. split_and!.
  - eapply phase_two; [done|done|by rewrite <- F2| |].
    + eapply sublist_NoDup; [|exact Hsub]. subst dispatchable pending.
      eapply sublist_NoDup; [|apply ids_of_filter]. eapply sublist_NoDup; [|apply ids_of_filter].
      unfold ids_of, members_with_address. rewrite <- list_fmap_compose. by apply NoDup_fmap_lfilter.
    + intros x Hx. assert (x ∈ ids_of dispatchable) as (y & -> & Hy)%list_elem_of_fmap
        by (by eapply elem_of_sublist). by apply Hdis.
  - eapply chain_app; [exact Hch1| |by eapply chain_same_start; [exact D2|exact F2|]].
    apply (rd_addresses _ _ _ (ra_refunded _ _ _ _ _ Hr)).
  - destruct r as [x|]; [|done]. destruct C as [C1 C2]. split; [done|]. intros y Hy.
    destruct (decide (y ∈ ids1)) as [?|Hn]; [left; apply elem_of_app; by left|].
    rewrite elem_of_isolated. destruct (decide (y ∈ getIsolatedMemberIds leagueId REFUND db1)) as [Hi|Hi].
    { right. apply Hlast. by apply elem_of_isolated. }
    destruct (owed_snapshot _ _ _ Hy) as (z & Hz & <- & Ho).
    assert (z ∈ dispatchable) as Hzd.
    { subst dispatchable pending. apply elem_of_lfilter. split; [apply elem_of_lfilter; split; [done|]|].
      - by rewrite Ho, bool_decide_eq_false_2.
      - by rewrite bool_decide_eq_false_2. }
    destruct (z.2) as [a|] eqn:Ea.
    + destruct (C2 (mb_id z.1)) as [?|Hnew]; [apply with_wallet_elem; [done|by rewrite Ea]|left; apply elem_of_app; by right|right].
      destruct Hnew as (e & He & ?). exists e. split; [|done]. rewrite P. apply elem_of_app. by right.
    + assert (mb_id z.1 ∈ missing) as Hmis.
      { subst missing. apply list_elem_of_fmap. exists z. split; [done|]. apply elem_of_lfilter.
        by rewrite Ea, bool_decide_eq_true_2. }
      right. destruct Hw as [[-> _]|(_ & e & He & Hi2 & Hm2)]; [by apply not_elem_of_nil in Hmis|].
      exists e. rewrite P, He, Hm2. split; [|done]. apply elem_of_app. left. apply elem_of_app. right. by left.
Qed.

(** ** The ledger *)

Definition refund_rows (f : FinancialDb) (id : string) : Z :=
  countb (λ t, bool_decide (tx_type t = REFUND) && bool_decide (tx_memberId t = Some id)) (fd_transactions f).

(** Every member has one refund booked if it is refunded, and none otherwise. *)
Definition ledger_balanced (f : FinancialDb) : Prop :=
  ∀ m, m ∈ db_members (fd_league f) →
    refund_rows f (mb_id m) = if bool_decide (mb_paymentStatus m = Pay_REFUNDED) then 1 else 0.

Lemma count_ids (ids : list string) id : NoDup ids →
  countb (λ x, bool_decide (x = id)) ids = if bool_decide (id ∈ ids) then 1 else 0.
Proof.
  induction 1 as [|x ids Hx Hnd IH]; [done|]. rewrite countb_cons, IH.
  repeat case_bool_decide; subst; try done; set_solver.
Qed.

Lemma rows_counted (rows : list TransactionRow) ids id : (tx_memberId <$> rows) = Some <$> ids →
  (∀ t, t ∈ rows → tx_type t = REFUND) →
  countb (λ t, bool_decide (tx_type t = REFUND) && bool_decide (tx_memberId t = Some id)) rows
  = countb (λ x, bool_decide (x = id)) ids.
Proof.
  revert ids. induction rows as [|t rows IH]; intros [|x ids] He Ht; try done.
  injection He as Hx He. rewrite !countb_cons, Hx, (IH ids) by (done || (intros; apply Ht; by right)).
  rewrite Ht by (by left). rewrite (bool_decide_eq_true_2 (REFUND = REFUND)) by done.
  by rewrite (bool_decide_ext (Some x = Some id) (x = id)) by naive_solver.
Qed.

Lemma balanced_after leagueId db db' ids : NoDup (mb_id <$> db_members (fd_league (rf_fin db))) →
  run_effect leagueId db db' ids → ledger_balanced (rf_fin db) → ledger_balanced (rf_fin db').
Proof.
  intros Hnd [[M (rows & T & I & K) _ _] Hn Ho _] Hb m' Hm'. rewrite M in Hm'.
  apply list_elem_of_fmap in Hm' as (m & -> & Hm). rewrite mark_id. unfold refund_rows. rewrite T, countb_app.
  rewrite (rows_counted rows ids), count_ids by done. fold (refund_rows (rf_fin db) (mb_id m)). rewrite (Hb m Hm).
  unfold mark. destruct (bool_decide_reflect (mb_id m ∈ ids)) as [Hi|Hi]; [|lia]. cbn.
  apply Ho, elem_of_owed in Hi as (m2 & Hm2 & Hid & _ & Hw).
  assert (m2 = m) as ->.
  { apply list_elem_of_lookup in Hm as [i Hi], Hm2 as [j Hj]. assert (i = j) as ->; [|congruence].
    apply (NoDup_lookup (mb_id <$> db_members (fd_league (rf_fin db))) i j (mb_id m)); [done| |];
      rewrite list_lookup_fmap; [by rewrite Hi|by rewrite Hj, <- Hid]. }
  unfold isRefundOwed in Hw. repeat case_bool_decide; done || congruence.
Qed.

Lemma process_refunds_cases net msg now league leagueId contract db db' r :
  NoDup (mb_id <$> db_members (fd_league (rf_fin db))) →
  process_refunds net msg now league leagueId contract (members_with_address leagueId db) db = (db', r) →
  toContractLeagueId leagueId = Ok contract →
  ∃ ids, run_effect leagueId db db' ids ∧ chain_effect net leagueId db db' ids (is_ok r) ∧
    match r with
    | Ok report => rp_refundedMemberIds report = ids ∧ ∀ x, x ∈ owed_ids leagueId (rf_fin db) →
        x ∈ ids ∨ x ∈ getIsolatedMemberIds leagueId REFUND db'
    | Err _ => True
    end.
Proof.
  intros Hnd H Hcl. unfold process_refunds in H.
  apply mbind_cases in H as [(db0 & l & [= <- <-] & H)|(e & ? & _)]; [|done].
  apply mbind_cases in H as [(db1 & [done_ ref] & H1 & H)|(e & H1 & ->)];
    apply (auto_retry_cases _ _ _ leagueId) in H1 as (ids1 & Hr & Hch & Href); [|done|apply retryable_listed| |done|apply retryable_listed].
  2: { exists ids1. split_and!; [by apply phase_one|done|done]. }
  cbn in Href. subst ref.
  apply mbind_cases in H as [(db0 & isolated & [= <- <-] & H)|(e & ? & _)]; [|done]. cbv zeta in H.
  set (pending := List.filter _ (members_with_address leagueId db)) in H.
  set (dispatchable := List.filter _ pending) in H at 1 2.
  apply mbind_cases in H as [(db2 & entries & H2 & H)|(e & H2 & ->)].
  - assert (ids_of (List.filter (λ x, bool_decide (x.2 = None)) dispatchable) = [] ∧ db2 = db1 ∨
      rf_fin db2 = rf_fin db1 ∧ ∃ e, rf_payouts db2 = rf_payouts db1 ++ [e] ∧ isolating leagueId REFUND e = true ∧
        fp_memberIds e = ids_of (List.filter (λ x, bool_decide (x.2 = None)) dispatchable)) as Hw.
    { clear H. case_bool_decide as Hm; [left; by injection H2 as <- <-|right].
      apply mbind_cases in H2 as [(db3 & n & H3 & H2)|(e & ? & ?)]; [|done].
      apply deadLetter_cases in H3 as (F3 & _ & e & P3 & I3 & M3). injection H2 as <- <-. split; [done|]. by exists e. }
    assert (rf_dispatched db2 = rf_dispatched db1) as D2.
    { clear H. case_bool_decide; [by injection H2 as <- <-|].
      apply mbind_cases in H2 as [(db3 & n & H3 & H2)|(e & ? & ?)]; [|done].
      injection H2 as <- <-. by eapply quiet_run in H3; [|apply quiet_deadLetter]. }
    apply mbind_cases in H as [(db3 & [[ref failed] entries'] & H3 & H)|(e & H3 & ->)];
      destruct (second_phase net now league leagueId contract db db1 ids1 ids1 [] pending dispatchable _ Hnd Hr
        eq_refl eq_refl eq_refl db2 entries _ _ Hw H3 Hcl D2 Hch) as (ids2 & He & Hch2 & Hc); exists (ids1 ++ ids2); [|by split_and!].
    injection H as <- <-. split; [done|]. split; [exact Hch2|]. cbn. exact Hc.
  - exfalso. case_bool_decide; [done|]. apply mbind_cases in H2 as [(db3 & n & H3 & ?)|(e' & H3 & ?)]; [done|].
    by apply deadLetter_cases in H3 as (_ & ? & _).
Qed.

(** C14. Whatever the escrow contract answers and wherever a run stops: the
    members it books as refunded, with one row each, were owed, and once each;
    the ledger stays balanced.  It invokes the contract for its own league only,
    and what the invocations that succeed pay goes, in order, to exactly the
    wallets of the members it books; only the last invocation of a run that ends
    with an error can be paid and not booked.  A member that the dead-letter queue
    keeps apart is paid only through an entry that names it and may be retried.
    And a run that reports reports exactly the members booked, and leaves every
    other owed member in the queue. *)
Theorem refunds_paid_once (net : nat → Z → list string → RefundInvocationOutcome) (msg : list ascii) (now : Z)
    (leagueId : string) (db : RefundDb) :
  NoDup (mb_id <$> db_members (fd_league (rf_fin db))) → ledger_balanced (rf_fin db) →
  let '(db', r) := processLeagueRefunds net msg now leagueId db in
  ∃ ids, refunded ids (rf_fin db) (rf_fin db') ∧ NoDup ids ∧ ledger_balanced (rf_fin db') ∧
    chain_effect net leagueId db db' ids (is_ok r) ∧
    (∀ x, x ∈ ids → x ∈ owed_ids leagueId (rf_fin db) ∧
      (x ∈ getIsolatedMemberIds leagueId REFUND db →
       ∃ i e, (i, e) ∈ getAutoRetryable leagueId REFUND db ∧ x ∈ fp_memberIds e)) ∧
    match r with
    | Ok report => rp_refundedMemberIds report = ids ∧
        ∀ x, x ∈ owed_ids leagueId (rf_fin db) → x ∈ ids ∨ x ∈ getIsolatedMemberIds leagueId REFUND db'
    | Err _ => True
    end.
Proof.
  intros Hnd Hb. destruct (processLeagueRefunds net msg now leagueId db) as [db' r] eqn:H.
  assert (∃ ids, run_effect leagueId db db' ids ∧ chain_effect net leagueId db db' ids (is_ok r) ∧
    match r with
    | Ok report => rp_refundedMemberIds report = ids ∧ ∀ x, x ∈ owed_ids leagueId (rf_fin db) →
        x ∈ ids ∨ x ∈ getIsolatedMemberIds leagueId REFUND db'
    | Err _ => True
    end) as (ids & Hr & Hch & Hm).
  { assert (run_effect leagueId db db []) as Hnone.
    { constructor; [apply refunded_nil|constructor|..]; intros x Hx; by apply not_elem_of_nil in Hx. }
    assert (∀ ok, chain_effect net leagueId db db [] ok) as Hquiet by (intros; by apply chain_none).
    unfold processLeagueRefunds in H.
    apply mbind_cases in H as [(db1 & league & H1 & H)|(e & H1 & ->)]; apply find_refund_league_cases in H1 as [-> _];
      [|by exists []].
    apply mbind_cases in H as [(db1 & [] & H1 & H)|(e & H1 & ->)]; unfold guard_throw in H1;
      destruct (negb _); injection H1 as <-; try done; [|by exists []].
    apply mbind_cases in H as [(db1 & snapshot & [= <- <-] & H)|(e & ? & _)]; [|done].
    apply mbind_cases in H as [(db1 & contract & H1 & H)|(e & H1 & ->)];
      [pose proof (contract_value _ _ _ _ H1) as Hcl|]; apply contract_cases in H1 as [-> _]; [|by exists []].
    by eapply process_refunds_cases. }
  pose proof Hr as [A1 A2 A3 A4]. exists ids. split_and!; [done|done|by eapply balanced_after|done| |done].
  intros x Hx. split; [by apply A3|]. intros Hi%elem_of_isolated. by apply A4.
Qed.

(** ** Claims *)

(** The queue with the retries in progress: the entry and when it was claimed. *)
Record RetryWorld : Type := { rq_now : Z; rq_db : RefundDb; rq_running : list (nat * Z) }.

Definition with_queue (db : RefundDb) (running : list (nat * Z)) (w : RetryWorld) : RetryWorld :=
  {| rq_now := rq_now w; rq_db := db; rq_running := running |}.

(** Whatever callers do with the queue, as long as no retry is still in progress
    when more than the stale period has passed.  A retry can also be lost. *)
Inductive queue_step : RetryWorld → RetryWorld → Prop :=
| queue_tick w t : rq_now w ≤ t → (∀ x, x ∈ rq_running w → t ≤ x.2 + STALE_RETRY_MS) →
    queue_step w {| rq_now := t; rq_db := rq_db w; rq_running := rq_running w |}
| queue_claim w id db e : claimForRetry (rq_now w) id (rq_db w) = (db, Ok e) →
    queue_step w (with_queue db (rq_running w ++ [(id, rq_now w)]) w)
| queue_claim_refused w id db err : claimForRetry (rq_now w) id (rq_db w) = (db, Err err) →
    queue_step w (with_queue db (rq_running w) w)
| queue_resolved w i x actor hash note db r : rq_running w !! i = Some x →
    markResolved (rq_now w) x.1 actor hash note (rq_db w) = (db, r) → queue_step w (with_queue db (delete i (rq_running w)) w)
| queue_failed w i x entry error code db r : rq_running w !! i = Some x →
    markRetryFailed (rq_now w) x.1 entry error code (rq_db w) = (db, r) → queue_step w (with_queue db (delete i (rq_running w)) w)
| queue_lost w i : queue_step w (with_queue (rq_db w) (delete i (rq_running w)) w)
| queue_discard w id actor reason db r : discard (rq_now w) id actor reason (rq_db w) = (db, r) →
    queue_step w (with_queue db (rq_running w) w)
| queue_schedule w id random db r : scheduleRetryWithBackoff (rq_now w) id random (rq_db w) = (db, r) →
    queue_step w (with_queue db (rq_running w) w)
| queue_dead_letter w type leagueId ids recipients amount error code rec db r :
    deadLetter (rq_now w) type leagueId ids recipients amount error code rec (rq_db w) = (db, r) →
    queue_step w (with_queue db (rq_running w) w)
| queue_other w db : rf_payouts db = rf_payouts (rq_db w) → queue_step w (with_queue db (rq_running w) w).

Definition nobody_retries (now : Z) (db : RefundDb) : RetryWorld := {| rq_now := now; rq_db := db; rq_running := [] |}.

(** [id] was claimed at [t], and nobody has finished with it. *)
Definition held_since (id : nat) (t : Z) (db : RefundDb) : Prop :=
  ∃ e, rf_payouts db !! id = Some e ∧ fp_status e = Fp_RETRYING ∧ fp_lastAttemptAt e = t.

Lemma held_same id t db db' : rf_payouts db' !! id = rf_payouts db !! id → held_since id t db → held_since id t db'.
Proof. intros E (e & He & H). exists e. by rewrite E. Qed.

Lemma discard_cases now id actor reason db db' r : discard now id actor reason db = (db', r) →
  (∃ e, rf_payouts db !! id = Some e ∧ fp_status e = Fp_PENDING ∧ only_entry id db db') ∨ (db' = db ∧ ∃ e, r = Err e).
Proof.
  unfold discard. cbv zeta. intros H.
  apply mbind_cases in H as [(db1 & [] & H1 & H)|(e & H1 & ->)]; unfold guard_throw in H1;
    case_bool_decide; injection H1 as <-; try done; [|right; by eauto].
  apply mbind_cases in H as [(db1 & x & [= <- <-] & H)|(e & ? & _)]; [|done].
  destruct (rf_payouts db !! id) as [e|] eqn:E; [|right; injection H as <- <-; by eauto].
  case_bool_decide as Hs; [left|right; injection H as <- <-; by eauto]. exists e. split_and!; [done|done|].
  apply mbind_cases in H as [(db1 & [] & H1 & H)|(e' & H1 & ->)]; apply update_payout_cases in H1 as (_ & O1 & _); try done.
  unfold get, mbind', mread, found in H. destruct (rf_payouts db1 !! id); by injection H as <- <-.
Qed.

Lemma schedule_cases now id random db db' r : scheduleRetryWithBackoff now id random db = (db', r) →
  ∃ l, rf_payouts db' = l ∧ (l = rf_payouts db ∨ ∃ e t, rf_payouts db !! id = Some e ∧ l = <[id:=set_nextRetryAt t e]> (rf_payouts db)).
Proof.
  unfold scheduleRetryWithBackoff, get. intros H. eexists. split; [done|].
  unfold mbind', mread, found, update_payout, mwrite, mok, mthrow in H.
  destruct (rf_payouts db !! id) as [e|] eqn:E; [|injection H as <- <-; by left].
  rewrite E in H. injection H as <- <-. right. exists e. eexists. split; [done|]. done.
Qed.

Lemma held_other id j t db db' : only_entry j db db' → j ≠ id → held_since id t db → held_since id t db'.
Proof. intros (_ & O & _) Hj. apply held_same. by apply O. Qed.

Record running_ok (w : RetryWorld) : Prop := {
  ro_once : NoDup (rq_running w).*1;
  ro_held : ∀ id t, (id, t) ∈ rq_running w → held_since id t (rq_db w) ∧ t ≤ rq_now w ≤ t + STALE_RETRY_MS
}.

(** A held entry cannot be claimed in time. *)
Lemma held_unclaimable now id t db e : held_since id t db → now ≤ t + STALE_RETRY_MS → rf_payouts db !! id = Some e → claimable now e = false.
Proof.
  intros (e' & He' & Hs & Hl) Ht He. replace e with e' by congruence. unfold claimable.
  rewrite Hs, bool_decide_eq_false_2, bool_decide_eq_true_2 by done. apply Z.ltb_ge. lia.
Qed.

Lemma running_elsewhere w db j : running_ok w → only_entry j (rq_db w) db → j ∉ (rq_running w).*1 →
  running_ok (with_queue db (rq_running w) w).
Proof.
  intros [R1 R2] Ho Hj. constructor; [done|]. intros id t Hin. destruct (R2 id t Hin) as [Hh Ht]. split; [|done].
  eapply held_other; [done| |done]. intros ->. apply Hj. by apply (list_elem_of_fmap_2 fst _ (id, t)).
Qed.

Lemma running_same w db : running_ok w → (∀ id, id ∈ (rq_running w).*1 → rf_payouts db !! id = rf_payouts (rq_db w) !! id) →
  running_ok (with_queue db (rq_running w) w).
Proof.
  intros [R1 R2] E. constructor; [done|]. intros id t Hin. destruct (R2 id t Hin). split; [|done].
  eapply held_same; [apply E|done]. by apply (list_elem_of_fmap_2 fst _ (id, t)).
Qed.

(** The end of a retry. *)
Lemma running_end w db i x : running_ok w → rq_running w !! i = Some x → only_entry x.1 (rq_db w) db →
  running_ok (with_queue db (delete i (rq_running w)) w).
Proof.
  intros Hw Hx Ho. assert (running_ok (with_queue (rq_db w) (delete i (rq_running w)) w) ∧ x.1 ∉ (delete i (rq_running w)).*1) as [Hd Hn].
  { destruct Hw as [R1 R2]. rewrite (delete_Permutation _ _ _ Hx) in R1. cbn in R1. apply NoDup_cons in R1 as [Hn R1].
    split; [|done]. constructor; [done|]. intros id t Hin. apply R2. rewrite (delete_Permutation _ _ _ Hx). by right. }
  by eapply (running_elsewhere (with_queue (rq_db w) (delete i (rq_running w)) w)).
Qed.

Lemma delete_id_none {A} (l : list A) i : l !! i = None → delete i l = l.
Proof. revert i. induction l as [|x l IH]; intros [|i] H; try done. cbn. f_equal. by apply IH. Qed.

Lemma running_step w w' : queue_step w w' → running_ok w → running_ok w'.
Proof.
  intros Hs Hw. assert (∀ j e, rf_payouts (rq_db w) !! j = Some e → fp_status e ≠ Fp_RETRYING → j ∉ (rq_running w).*1) as Hfree.
  { intros j e He Hst ([j' t] & -> & Hin)%list_elem_of_fmap. destruct (ro_held w Hw _ _ Hin) as [(e' & He' & Hs' & _) _].
    cbn in He. congruence. }
  destruct Hs as [w t Ht Hin|w id db e H|w id db err H|w i x actor hash note db r Hx H|w i x entry error code db r Hx H|w i
    |w id actor reason db r H|w id random db r H|w type leagueId ids recipients amount error code rec db r H|w db H].
  - destruct Hw as [R1 R2]. constructor; [done|]. intros id s Hs. destruct (R2 id s Hs). split; [done|].
    specialize (Hin _ Hs). cbn in *. lia.
  - apply claim_cases in H as (_ & Ho & e0 & He0 & Hc & -> & He). assert (id ∉ (rq_running w).*1) as Hn.
    { intros ([j' t] & -> & Hin)%list_elem_of_fmap. destruct (ro_held w Hw _ _ Hin) as [Hh Ht]. cbn in *.
      by rewrite (held_unclaimable _ _ _ _ _ Hh (proj2 Ht) He0) in Hc. }
    destruct (running_elsewhere w db id Hw Ho Hn) as [R1 R2]. constructor; cbn.
    + rewrite fmap_app. cbn. by apply NoDup_snoc.
    + intros j t [Hin|Hin]%elem_of_app; [by apply R2|]. apply list_elem_of_singleton in Hin as [= -> ->].
      split; [by exists (claimed (rq_now w) e0)|]. unfold STALE_RETRY_MS. lia.
  - apply claim_cases in H as (_ & _ & ->). by destruct Hw.
  - apply resolved_cases in H as (_ & Ho & _). by eapply running_end.
  - apply failed_cases in H as (_ & Ho & _). by eapply running_end.
  - destruct (rq_running w !! i) as [x|] eqn:Hx; [by eapply running_end|].
    assert (delete i (rq_running w) = rq_running w) as -> by (apply delete_id_none; exact Hx). by destruct Hw.
  - apply discard_cases in H as [(e' & He' & Hp & Ho)|[-> _]]; [|by destruct Hw].
    eapply running_elsewhere; [done|done|]. eapply Hfree; [done|congruence].
  - apply schedule_cases in H as (l & E & [->|(e' & t' & He' & ->)]); [by apply running_same; [|intros; rewrite E]|].
    destruct Hw as [R1 R2]. constructor; [done|]. intros j t Hin. destruct (R2 j t Hin) as [(e & He & Hs & Hl) Ht]. split; [|done].
    destruct (decide (j = id)) as [->|Hj].
    + unfold held_since; cbn. exists (set_nextRetryAt t' e'). rewrite E, list_lookup_insert_eq by (by eapply lookup_lt_Some).
      replace e' with e by congruence. done.
    + unfold held_since; cbn. exists e. by rewrite E, list_lookup_insert_ne.
  - unfold deadLetter, mbind', mread, mwrite, mok in H. injection H as <- <-. apply running_same; [done|].
    intros j ([j' t] & -> & Hin)%list_elem_of_fmap. cbn. destruct (ro_held w Hw _ _ Hin) as [(e & He & _) _].
    rewrite lookup_app_l; [done|]. by eapply lookup_lt_Some.
  - by apply running_same; [|intros; rewrite H].
Qed.

(** C15. A claim is exclusive: as long as no retry outlasts the stale period,
    whatever callers do with the queue, and also when they crash, no two retries
    of an entry are ever in progress together, and an entry whose retry is in
    progress can be neither claimed nor discarded. *)
Theorem claims_exclusive (now : Z) (db : RefundDb) (w : RetryWorld) :
  rtc queue_step (nobody_retries now db) w →
  NoDup (rq_running w).*1 ∧
  ∀ id t, (id, t) ∈ rq_running w →
    is_ok (claimForRetry (rq_now w) id (rq_db w)).2 = false ∧
    ∀ actor reason, is_ok (discard (rq_now w) id actor reason (rq_db w)).2 = false.
Proof.
  intros Hr. assert (running_ok w) as [R1 R2].
  { assert (running_ok (nobody_retries now db)) as H0 by (constructor; [constructor|by intros ? ? ?%elem_of_nil]).
    revert H0. induction Hr as [|x y z Hxy _ IH]; [done|]. intros Hx. by eapply IH, running_step. }
  split; [done|]. intros id t Hin. destruct (R2 id t Hin) as [Hh Ht]. split.
  - destruct (claimForRetry _ _ _) as [db' r] eqn:Ec. apply claim_cases in Ec as (_ & _ & Ec). destruct r as [e|]; [|done].
    destruct Ec as (e' & He' & Hc & _). by rewrite (held_unclaimable _ _ _ _ _ Hh (proj2 Ht) He') in Hc.
  - intros actor reason. destruct (discard _ _ _ _ _) as [db' r'] eqn:Ed. cbn.
    destruct Hh as (e & He & Hs & _). apply discard_cases in Ed as [(e' & He' & Hp & _)|[_ [x ->]]]; [congruence|done].
Qed.

(** ** Samples and witnesses *)

(** A cancelled league of three paid members, one without a wallet. *)
Definition sample_cancelled : RefundDb :=
  let f := sample_paid_db CANCELLED PAYMENT_CONFIRMED in
  {| rf_fin := {| fd_league := fd_league f; fd_addresses := [("a", "GA"); ("b", "GB")];
                  fd_squadPoints := fd_squadPoints f; fd_transactions := []; fd_coordinated := []; fd_admins := [] |};
     rf_payouts := []; rf_dispatched := [] |}.

Definition hash_of (n : nat) : string := String (ascii_of_nat (48 + n)) EmptyString.

(** Every invocation succeeds, each with its own hash; or times out. *)
Definition net_ok (n : nat) (_ : Z) (_ : list string) : RefundInvocationOutcome :=
  {| ro_success := true; ro_txHash := Some (hash_of n); ro_error := None; ro_contractErrorCode := None |}.
Definition net_timeout (_ : nat) (_ : Z) (_ : list string) : RefundInvocationOutcome :=
  {| ro_success := false; ro_txHash := None; ro_error := Some (list_ascii_of_string "request timed out");
     ro_contractErrorCode := None |}.

Definition refund_run (net : nat → Z → list string → RefundInvocationOutcome) (now : Z) (db : RefundDb) :=
  processLeagueRefunds net [] now sample_id db.

Lemma refunds_paid_once_witness :
  let '(db1, r1) := refund_run net_timeout 0 sample_cancelled in
  let '(db2, r2) := refund_run net_ok 300000 db1 in
  owed_ids sample_id (rf_fin db2) = ["c"] ∧ ledger_balanced (rf_fin db2) ∧
  match r2 with Ok report => rp_refundedMemberIds report = ["a"; "b"] | Err _ => False end.
Proof.
  pose proof (refunds_paid_once net_timeout [] 0 sample_id sample_cancelled) as H1.
  fold (refund_run net_timeout 0 sample_cancelled) in H1.
  assert (owed_ids sample_id (rf_fin (refund_run net_ok 300000 (refund_run net_timeout 0 sample_cancelled).1).1) = ["c"])
    as Ho by (vm_compute; reflexivity).
  assert (match (refund_run net_ok 300000 (refund_run net_timeout 0 sample_cancelled).1).2 with
          | Ok report => rp_refundedMemberIds report = ["a"; "b"] | Err _ => False end) as Hr by (vm_compute; reflexivity).
  assert (NoDup (mb_id <$> db_members (fd_league (rf_fin (refund_run net_timeout 0 sample_cancelled).1)))) as Hn
    by (apply (bool_decide_unpack _); vm_compute; exact I).
  destruct (refund_run net_timeout 0 sample_cancelled) as [db1 r1] eqn:E1. cbn [fst snd] in *.
  destruct H1 as (ids1 & _ & _ & Hb1 & _ & _).
  - apply (bool_decide_unpack _). vm_compute. exact I.
  - intros m Hm. apply list_elem_of_In in Hm. cbn in Hm. by destruct Hm as [<-|[<-|[<-|[]]]].
  - pose proof (refunds_paid_once net_ok [] 300000 sample_id db1 Hn Hb1) as H2.
    fold (refund_run net_ok 300000 db1) in H2.
    destruct (refund_run net_ok 300000 db1) as [db2 r2] eqn:E2. cbn [fst snd] in *.
    destruct H2 as (ids2 & _ & _ & Hb2 & _). split; [exact Ho|]. split; [exact Hb2|exact Hr].
Defined.

Definition sample_queued : RefundDb := (refund_run net_timeout 0 sample_cancelled).1.

(** Claimed at 1000, entry 1 is still held when the stale period ends, and can
    be claimed a millisecond later. *)
Lemma claims_exclusive_witness :
  let db1 := (claimForRetry 1000 1 sample_queued).1 in
  is_ok (claimForRetry 901000 1 db1).2 = false ∧ is_ok (discard 901000 1 "admin" [] db1).2 = false ∧
  is_ok (claimForRetry 901001 1 db1).2 = true.
Proof.
  assert (is_ok (claimForRetry 1000 1 sample_queued).2 = true) as H1 by (vm_compute; reflexivity).
  assert (is_ok (claimForRetry 901001 1 (claimForRetry 1000 1 sample_queued).1).2 = true) as H3 by (vm_compute; reflexivity).
  destruct (claimForRetry 1000 1 sample_queued) as [db1 [e|err]] eqn:E1; cbn [fst snd] in *; [|discriminate H1].
  set (w1 := with_queue db1 [(1%nat, 1000)] (nobody_retries 1000 sample_queued)).
  set (w2 := {| rq_now := 901000; rq_db := db1; rq_running := [(1%nat, 1000)] |}).
  assert (rtc queue_step (nobody_retries 1000 sample_queued) w2) as Hr.
  { apply (rtc_l _ _ w1); [exact (queue_claim (nobody_retries 1000 sample_queued) 1 db1 e E1)|].
    apply rtc_once. apply (queue_tick w1 901000); [discriminate|].
    intros x ->%list_elem_of_singleton. discriminate. }
  destruct (proj2 (claims_exclusive 1000 sample_queued w2 Hr) 1%nat 1000 (list_elem_of_here _ _)) as [Hc Hd].
  split; [exact Hc|]. split; [apply Hd|exact H3].
Defined.

(** Two runs that overlap, both with the members as read before the first
    refund: each books its own refund of the same member. *)
Lemma overlapping_runs_refund_twice :
  let snapshot := members_with_address sample_id sample_cancelled in
  let run db :=
    match find_league sample_id (rf_fin db) with
    | Some league => (process_refunds net_ok [] 0 league sample_id 171 snapshot db).1
    | None => db
    end in
  refund_rows (rf_fin (run (run sample_cancelled))) "a" = 2.
Proof. vm_compute. reflexivity. Qed.

(** The end of a stale retry reopens an entry that another retry has resolved. *)
Lemma late_failure_reopens now id entry error db e :
  rf_payouts db !! id = Some e → fp_status e = Fp_RESOLVED →
  fp_status <$> rf_payouts (markRetryFailed now id entry error None db).1 !! id = Some Fp_PENDING.
Proof.
  intros He _. unfold markRetryFailed, update_payout, mwrite. rewrite He. cbn.
  by rewrite list_lookup_insert_eq by (by eapply lookup_lt_Some).
Qed.
