(* ===== verification/DepositVerification.v ===== *)
(** * Verification of payments on the chain: [backend/src/services/financial/stellarService.ts]
    ([verifyPaymentTransaction]) and [depositVerificationService.ts]

    The records of Horizon and the decoded envelope are arguments; amounts are
    stroops, where the code compares the numbers they read as.  A league given as
    text that is no UUID is read by [parseInt], exact below 2^53.  Then
    [verifyAndConfirmPayment] of [Financial] runs on what the check answers. *)

From Stdlib Require Import Ascii String.
From S2P Require Import Prelude Text ScVal Rules LeagueDb League TxCoordinator Financial.

#[local] Open Scope Z_scope.

(** What a call of Horizon, or a conversion, may throw. *)
Inductive HorizonError : Type := HorizonNotFound | HorizonOther.

(** The first [invokeHostFunction] of an envelope. *)
Inductive HostOperation : Type :=
| OtherHostFunction
| InvokeContract (contractAddress functionName : string) (args : list native).

(** A transaction record; [hz_hostOp] is [None] when its envelope is missing,
    cannot be decoded or invokes nothing. *)
Record ChainTransaction : Type := {
  hz_hash : string;
  hz_successful : bool;
  hz_ledger : Z;
  hz_source_account : string;
  hz_memo : string;
  hz_created_at : Z;
  hz_hostOp : option HostOperation
}.

Record ChainOperation : Type := {
  op_type : string;
  op_from : string;
  op_to : string;
  op_native : bool;
  op_asset_code : string;
  op_asset_issuer : string;
  op_amount : Z
}.

Record Horizon : Type := {
  hz_transaction : string → result HorizonError ChainTransaction;
  hz_operations : string → result HorizonError (list ChainOperation)
}.

Record StellarConfig : Type := {
  sc_usdcAssetCode : string;
  sc_usdcIssuer : string;
  sc_escrowContractId : string;
  sc_treasuryAddress : string
}.

(** [a || b] of texts. *)
Definition or_text (a b : string) : string := if bool_decide (a = ""%string) then b else a.

(** An option that is given and not empty. *)
Definition given_text (o : option string) : option string :=
  match o with Some s => if bool_decide (s = ""%string) then None else Some s | None => None end.

(** ** The league of an invocation *)

Inductive LeagueReference : Type := LeagueText (s : string) | LeagueNumber (z : Z).

Fixpoint take_digits (l : list ascii) : list ascii :=
  match l with c :: l' => if is_digit c then c :: take_digits l' else [] | [] => [] end.

(** [parseInt(s, 10)]; [None] is [NaN]. *)
Definition parse_int (s : string) : option Z :=
  let l := drop_blank (list_ascii_of_string s) in
  let '(sign, l) := match l with
                    | c :: l' => if Ascii.eqb c "-" then (-1, l') else if Ascii.eqb c "+" then (1, l') else (1, l)
                    | [] => (1, l)
                    end in
  match take_digits l with [] => None | ds => (λ z, sign * z) <$> parse_digits 10 ds end.

(** [/^[0-9a-fA-F]{8}-/]. *)
Definition uuid_like (s : string) : bool :=
  let l := list_ascii_of_string s in
  (8 <? Z.of_nat (length l)) && forallb is_hex (take 8 l) && bool_decide (l !! 8%nat = Some "-"%char).

(** The contract id to compare with; [None] when there is nothing to compare. *)
Definition expected_contract_id (r : LeagueReference) : result HorizonError (option Z) :=
  match r with
  | LeagueNumber z => Ok (Some z)
  | LeagueText s =>
      if uuid_like s then match toContractLeagueId s with Ok z => Ok (Some z) | Err _ => Err HorizonOther end
      else Ok (parse_int s)
  end.

(** Does the invocation name another league? *)
Definition league_mismatch (expected : option LeagueReference) (invocationLeagueId : native) : result HorizonError bool :=
  match expected with
  | None => Ok false
  | Some r =>
      let* id := expected_contract_id r in
      match id with
      | None => Ok false
      | Some id => let* actual := or_throw (native_BigInt invocationLeagueId) HorizonOther in Ok (negb (id =? actual))
      end
  end.

(** ** [DepositVerificationService] *)

Inductive DepositVerificationErrorCode : Type :=
| INVALID_HASH_FORMAT | TRANSACTION_NOT_FOUND | TRANSACTION_FAILED_ON_CHAIN | SENDER_MISMATCH | DESTINATION_MISMATCH
| AMOUNT_MISMATCH | ASSET_MISMATCH | MEMO_MISMATCH | LEAGUE_MISMATCH | UNSUPPORTED_OPERATION | INSUFFICIENT_ARGUMENTS
| NETWORK_ERROR.

#[export] Instance DepositVerificationErrorCode_eq_dec : EqDecision DepositVerificationErrorCode.
Proof. solve_decision. Defined.

Inductive DepositType : Type := Soroban_escrow_deposit | Classic_payment.

Record VerifiedDeposit : Type := {
  vd_txHash : string;
  vd_ledgerSeq : Z;
  vd_amount : Z;
  vd_assetCode : string;
  vd_sender : string;
  vd_destination : string;
  vd_confirmedAt : Z;
  vd_type : DepositType
}.

(** A success, or the code of a failure with the ledger when it is known. *)
Definition verification : Type := result (DepositVerificationErrorCode * option Z) VerifiedDeposit.

(** [toleranceEpsilon] in stroops; both services use 0.00001 unless told. *)
Definition default_tolerance : Z := 100.

Record VerifyDepositParams : Type := {
  vp_txHash : string;
  vp_expectedDestination : string;
  vp_expectedAmount : Z;
  vp_expectedSender : option string;
  vp_expectedAssetCode : option string;
  vp_expectedAssetIssuer : option string;
  vp_expectedMemo : option string;
  vp_expectedLeagueId : option LeagueReference;
  vp_toleranceEpsilon : Z
}.

(** Neither the account named nor the source of the transaction is the sender. *)
Definition other_sender (expectedSender : option string) (account source : string) : bool :=
  match given_text expectedSender with
  | Some e => negb (bool_decide (account = e)) && negb (bool_decide (source = e))
  | None => false
  end.

Section services.
Context (config : StellarConfig).

(** A conversion that throws leaves the function: the outer [result]. *)
Definition verifySorobanDepositInvocation (tx : ChainTransaction) (op : HostOperation)
    (expectedDestination : string) (expectedAmount : Z) (expectedSender : option string) (expectedAssetCode : string)
    (expectedLeagueId : option LeagueReference) : result HorizonError verification :=
  let fail code := Ok (Err (code, Some (hz_ledger tx))) in
  match op with
  | OtherHostFunction => fail UNSUPPORTED_OPERATION
  | InvokeContract target functionName args =>
      let expectedEscrowId := or_text (sc_escrowContractId config) expectedDestination in
      if negb (bool_decide (target = expectedEscrowId)) && negb (bool_decide (target = expectedDestination))
      then fail DESTINATION_MISMATCH
      else if negb (bool_decide (functionName = "deposit"%string)) then fail UNSUPPORTED_OPERATION
      else match args with
      | participant :: league :: _ =>
          let participantAddress := native_text participant in
          if other_sender expectedSender participantAddress (hz_source_account tx) then fail SENDER_MISMATCH
          else
            let* mismatch := league_mismatch expectedLeagueId league in
            if mismatch then fail LEAGUE_MISMATCH
            else Ok (Ok {| vd_txHash := hz_hash tx; vd_ledgerSeq := hz_ledger tx; vd_amount := expectedAmount;
                           vd_assetCode := expectedAssetCode;
                           vd_sender := or_text participantAddress (hz_source_account tx); vd_destination := target;
                           vd_confirmedAt := hz_created_at tx; vd_type := Soroban_escrow_deposit |})
      | _ => fail INSUFFICIENT_ARGUMENTS
      end
  end.

Definition is_payment (op : ChainOperation) : bool :=
  bool_decide (op_type op ∈ ["payment"; "path_payment_strict_receive"; "path_payment_strict_send"]%string).

Definition asset_matches (code : string) (issuer : option string) (op : ChainOperation) : bool :=
  if bool_decide (code = "XLM"%string) then op_native op
  else bool_decide (op_asset_code op = code) &&
       match given_text issuer with Some i => bool_decide (op_asset_issuer op = i) | None => true end.

Definition amount_matches (expected tolerance : Z) (op : ChainOperation) : bool := Z.abs (op_amount op - expected) <=? tolerance.

Definition verified_payment (tx : ChainTransaction) (op : ChainOperation) : VerifiedDeposit :=
  {| vd_txHash := hz_hash tx; vd_ledgerSeq := hz_ledger tx; vd_amount := op_amount op;
     vd_assetCode := or_text (op_asset_code op) "XLM"; vd_sender := or_text (op_from op) (hz_source_account tx);
     vd_destination := op_to op; vd_confirmedAt := hz_created_at tx; vd_type := Classic_payment |}.

Definition trimmed (s : string) : list ascii := trim_text (list_ascii_of_string s).

Definition verifyClassicPayment (horizon : Horizon) (tx : ChainTransaction) (cleanHash : string)
    (expectedAssetCode : string) (p : VerifyDepositParams) : result HorizonError verification :=
  let fail code := Ok (Err (code, Some (hz_ledger tx))) in
  let memo_ok := match vp_expectedMemo p with
                 | Some memo => bool_decide (trimmed (hz_memo tx) = trimmed memo)
                 | None => true
                 end in
  if negb memo_ok then fail MEMO_MISMATCH
  else
    let* operations := hz_operations horizon cleanHash in
    let paymentOps := List.filter is_payment operations in
    if bool_decide (paymentOps = []) then fail UNSUPPORTED_OPERATION
    else
      let destMatchOps := List.filter (λ op, bool_decide (op_to op = vp_expectedDestination p)) paymentOps in
      if bool_decide (destMatchOps = []) then fail DESTINATION_MISMATCH
      else
        let assetMatchOps := List.filter (asset_matches expectedAssetCode (vp_expectedAssetIssuer p)) destMatchOps in
        if bool_decide (assetMatchOps = []) then fail ASSET_MISMATCH
        else
          let amountMatchOps := List.filter (amount_matches (vp_expectedAmount p) (vp_toleranceEpsilon p)) assetMatchOps in
          if bool_decide (amountMatchOps = []) then fail AMOUNT_MISMATCH
          else match List.find (λ op, negb (other_sender (vp_expectedSender p) (op_from op) (hz_source_account tx))) amountMatchOps with
               | None => fail SENDER_MISMATCH
               | Some matchingOp => Ok (Ok (verified_payment tx matchingOp))
               end.

(** The [catch] around the checks: a 404 is a transaction not found. *)
Definition caught_deposit (r : result HorizonError verification) : verification :=
  match r with
  | Ok v => v
  | Err HorizonNotFound => Err (TRANSACTION_NOT_FOUND, None)
  | Err HorizonOther => Err (NETWORK_ERROR, None)
  end.

Definition verifyDeposit (horizon : Horizon) (p : VerifyDepositParams) : verification :=
  let cleanHash := string_of_list_ascii (trimmed (vp_txHash p)) in
  let expectedAssetCode := default (or_text (sc_usdcAssetCode config) "USDC") (vp_expectedAssetCode p) in
  if negb (isValidTransactionHash cleanHash) then Err (INVALID_HASH_FORMAT, None)
  else caught_deposit (
    let* tx := hz_transaction horizon cleanHash in
    if negb (hz_successful tx) then Ok (Err (TRANSACTION_FAILED_ON_CHAIN, Some (hz_ledger tx)))
    else match hz_hostOp tx with
    | Some op =>
        verifySorobanDepositInvocation tx op (vp_expectedDestination p) (vp_expectedAmount p) (vp_expectedSender p)
          expectedAssetCode (vp_expectedLeagueId p)
    | None => verifyClassicPayment horizon tx cleanHash expectedAssetCode p
    end).

(** [confirmDepositOrThrow] and [batchVerify]. *)
Definition confirmDepositOrThrow (horizon : Horizon) (p : VerifyDepositParams) : result DepositVerificationErrorCode VerifiedDeposit :=
  match verifyDeposit horizon p with Ok d => Ok d | Err (code, _) => Err code end.

Definition batchVerify (horizon : Horizon) (l : list VerifyDepositParams) : list verification := verifyDeposit horizon <$> l.

(** ** [StellarService.verifyPaymentTransaction] *)

Record VerifyPaymentParams : Type := {
  pp_txHash : string;
  pp_expectedDestination : string;
  pp_expectedAmount : Z;
  pp_expectedAssetCode : option string;
  pp_expectedAssetIssuer : option string;
  pp_expectedMemo : option string;
  pp_expectedSender : option string;
  pp_expectedLeagueId : option LeagueReference
}.

(** A refusal: whether to try again, whether the transaction is not found, its
    ledger when it is known.  The error texts are left out. *)
Record PaymentRefusal : Type := { pr_retryable : bool; pr_notFound : bool; pr_ledgerSeq : option Z }.

(** [PaymentVerificationResult]. *)
Definition payment_result : Type := result PaymentRefusal VerifiedDeposit.

Definition refused (ledger : option Z) : PaymentRefusal := {| pr_retryable := false; pr_notFound := false; pr_ledgerSeq := ledger |}.

(** The deposit the contract recorded is positive and differs from the fee by more
    than 0.0001; a query that throws is ignored.  [client] is the cached client of
    the contract, if one was made. *)
Definition recorded_otherwise (client : option (native → string → option Z)) (league : native) (participant : string) (expectedAmount : Z) : bool :=
  match client with
  | None => false
  | Some getDeposit =>
      match getDeposit league participant with
      | Some onChainDeposit => (0 <? onChainDeposit) && (1000 <? Z.abs (onChainDeposit - expectedAmount))
      | None => false
      end
  end.

(** The check of the league, as this service has it. *)
Definition invocation_names_other_league (expectedLeagueId : option LeagueReference) (invocationLeagueId : native) :
    result HorizonError bool :=
  match expectedLeagueId with
  | None => Ok false
  | Some expectedLeagueId =>
      let* expectedContractId :=
        match expectedLeagueId with
        | LeagueText s =>
            if uuid_like s then match toContractLeagueId s with Ok id => Ok (Some id) | Err _ => Err HorizonOther end
            else Ok (parse_int s)
        | LeagueNumber n => Ok (Some n)
        end in
      match expectedContractId with
      | Some expected =>
          let* actual := or_throw (native_BigInt invocationLeagueId) HorizonOther in
          Ok (negb (expected =? actual))
      | None => Ok false
      end
  end.

(** The checks of a contract invocation. *)
Definition check_invocation (client : option (native → string → option Z)) (p : VerifyPaymentParams) (assetCode : string)
    (tx : ChainTransaction) (sorobanOp : HostOperation) : result HorizonError payment_result :=
  let fail := Ok (Err (refused (Some (hz_ledger tx)))) in
  match sorobanOp with
  | OtherHostFunction => fail
  | InvokeContract targetContractId functionName args =>
      let expectedEscrowId := or_text (sc_escrowContractId config) (pp_expectedDestination p) in
      if negb (bool_decide (targetContractId ∈ [expectedEscrowId; pp_expectedDestination p])) then fail
      else if negb (bool_decide (functionName = "deposit"%string)) then fail
      else match args with
      | arg0 :: invocationLeagueId :: _ =>
          let participantAddress := native_text arg0 in
          let wrong_participant :=
            match given_text (pp_expectedSender p) with
            | Some expectedSender => negb (bool_decide (expectedSender ∈ [participantAddress; hz_source_account tx]))
            | None => false
            end in
          if wrong_participant then fail
          else
            let* other := invocation_names_other_league (pp_expectedLeagueId p) invocationLeagueId in
            if other then fail
            else if recorded_otherwise client invocationLeagueId participantAddress (pp_expectedAmount p) then fail
            else Ok (Ok {| vd_txHash := hz_hash tx; vd_ledgerSeq := hz_ledger tx; vd_amount := pp_expectedAmount p;
                           vd_assetCode := assetCode;
                           vd_sender := or_text participantAddress (hz_source_account tx);
                           vd_destination := targetContractId; vd_confirmedAt := hz_created_at tx;
                           vd_type := Soroban_escrow_deposit |})
      | _ => fail
      end
  end.

Definition DEPOSIT_PAYMENT_OPERATION_TYPES : list string :=
  ["payment"; "path_payment_strict_receive"; "path_payment_strict_send"]%string.

(** Is this the payment looked for?  One early return after the other. *)
Definition matches_payment (tx : ChainTransaction) (expectedAssetCode : string) (expectedAssetIssuer : option string)
    (p : VerifyPaymentParams) (op : ChainOperation) : bool :=
  if negb (bool_decide (op_type op ∈ DEPOSIT_PAYMENT_OPERATION_TYPES)) then false
  else if negb (bool_decide (op_to op = pp_expectedDestination p)) then false
  else
    let wrong_asset :=
      if bool_decide (expectedAssetCode = "XLM"%string) then negb (op_native op)
      else if negb (bool_decide (op_asset_code op = expectedAssetCode)) then true
      else match given_text expectedAssetIssuer with
           | Some issuer => negb (bool_decide (op_asset_issuer op = issuer))
           | None => false
           end in
    if wrong_asset then false
    else if 100 <? Z.abs (op_amount op - pp_expectedAmount p) then false
    else match given_text (pp_expectedSender p) with
         | Some sender => bool_decide (op_from op = sender) || bool_decide (hz_source_account tx = sender)
         | None => true
         end.

(** The checks of a classic payment. *)
Definition check_payment (horizon : Horizon) (p : VerifyPaymentParams) (assetCode : string) (assetIssuer : option string)
    (tx : ChainTransaction) : result HorizonError payment_result :=
  let fail := Ok (Err (refused (Some (hz_ledger tx)))) in
  let wrong_memo :=
    match given_text (pp_expectedMemo p) with
    | Some memo => bool_decide (hz_memo tx = ""%string) || negb (bool_decide (trimmed (hz_memo tx) = trimmed memo))
    | None => false
    end in
  if wrong_memo then fail
  else
    let* operations := hz_operations horizon (pp_txHash p) in
    match List.find (matches_payment tx assetCode assetIssuer p) operations with
    | None => fail
    | Some matchingOp =>
        Ok (Ok {| vd_txHash := hz_hash tx; vd_ledgerSeq := hz_ledger tx; vd_amount := op_amount matchingOp;
                  vd_assetCode := or_text (op_asset_code matchingOp) "XLM";
                  vd_sender := or_text (op_from matchingOp) (hz_source_account tx);
                  vd_destination := op_to matchingOp; vd_confirmedAt := hz_created_at tx; vd_type := Classic_payment |})
    end.

Definition verify_transaction (client : option (native → string → option Z)) (horizon : Horizon) (p : VerifyPaymentParams)
    (tx : ChainTransaction) : result HorizonError payment_result :=
  let code := default (sc_usdcAssetCode config) (pp_expectedAssetCode p) in
  let issuer := default (sc_usdcIssuer config) (pp_expectedAssetIssuer p) in
  if negb (hz_successful tx) then Ok (Err (refused (Some (hz_ledger tx))))
  else match hz_hostOp tx with
  | Some op => check_invocation client p code tx op
  | None => check_payment horizon p code (Some issuer) tx
  end.

Definition verifyPaymentTransaction (client : option (native → string → option Z)) (horizon : Horizon) (p : VerifyPaymentParams) : payment_result :=
  if negb (isValidTransactionHash (pp_txHash p)) then Err (refused None)
  else match (let* tx := hz_transaction horizon (pp_txHash p) in verify_transaction client horizon p tx) with
  | Ok r => r
  | Err HorizonNotFound => Err {| pr_retryable := true; pr_notFound := true; pr_ledgerSeq := None |}
  | Err HorizonOther => Err {| pr_retryable := true; pr_notFound := false; pr_ledgerSeq := None |}
  end.

(** ** [FinancialService.verifyAndConfirmPayment] with its check *)

Definition fee_stroops (cents : Z) : Z := cents * 100000.

(** The parameters of the check, from the member and its league. *)
Definition payment_params (member : LeagueMember) (league : LeagueRow) (address : option string) (leagueId userId stellarTxHash : string) : VerifyPaymentParams :=
  {| pp_txHash := stellarTxHash;
     pp_expectedDestination := or_text (sc_escrowContractId config) (sc_treasuryAddress config);
     pp_expectedAmount := fee_stroops (lg_entryFee league);
     pp_expectedAssetCode := None; pp_expectedAssetIssuer := None;
     pp_expectedMemo := Some (string_of_list_ascii (formatPaymentMemo leagueId userId));
     pp_expectedSender := given_text address;
     pp_expectedLeagueId := Some (LeagueText leagueId) |}.

Definition to_verification (r : payment_result) : PaymentVerification :=
  match r with
  | Ok d => {| pv_success := true; pv_retryable := false; pv_ledgerSeq := Some (vd_ledgerSeq d); pv_confirmedAt := Some (vd_confirmedAt d) |}
  | Err e => {| pv_success := false; pv_retryable := pr_retryable e; pv_ledgerSeq := pr_ledgerSeq e; pv_confirmedAt := None |}
  end.

Definition confirm_payment (client : option (native → string → option Z)) (horizon : Horizon) (userId leagueId stellarTxHash : string) (now : Z)
    (db : FinancialDb) : FinancialDb * result FinancialError bool :=
  match find_member leagueId userId db, find_league leagueId db with
  | Some member, None => (db, Err DatabaseError)
  | Some member, Some league =>
      let verification := to_verification (verifyPaymentTransaction client horizon
        (payment_params member league (map_get (mb_id member) (fd_addresses db)) leagueId userId stellarTxHash)) in
      verifyAndConfirmPayment userId leagueId stellarTxHash verification now db
  | None, _ => (db, Err FinancialNotFoundError)
  end.
End services.

(** ** The checks of [StellarService] are those of [DepositVerificationService] *)

Lemma league_same expected league : invocation_names_other_league expected league = league_mismatch expected league.
Proof.
  unfold invocation_names_other_league, league_mismatch, expected_contract_id. destruct expected as [[s|z]|]; [|done..].
  destruct (uuid_like s); [|done]. by destruct (toContractLeagueId s).
Qed.

Lemma sender_same expected account source :
  match given_text expected with
  | Some e => negb (bool_decide (e ∈ [account; source]))
  | None => false
  end = other_sender expected account source.
Proof.
  unfold other_sender. destruct (given_text expected) as [e|]; [|done]. rewrite <- negb_orb. f_equal.
  destruct (decide (account = e)) as [->|H1]; [rewrite !bool_decide_eq_true_2 by set_solver; done|].
  rewrite (bool_decide_eq_false_2 (account = e)) by done. cbn [orb]. apply bool_decide_ext. set_solver.
Qed.

(** The participant and the league of an invocation. *)
Definition invocation_arguments (op : HostOperation) : option (native * native) :=
  match op with InvokeContract _ _ (participant :: league :: _) => Some (participant, league) | _ => None end.

Lemma check_invocation_eq config client p code tx op :
  check_invocation config client p code tx op =
  let fail := Ok (Err (refused (Some (hz_ledger tx)))) in
  let* checked := verifySorobanDepositInvocation config tx op (pp_expectedDestination p) (pp_expectedAmount p)
                    (pp_expectedSender p) code (pp_expectedLeagueId p) in
  match checked, invocation_arguments op with
  | Ok deposit, Some (participant, league) =>
      if recorded_otherwise client league (native_text participant) (pp_expectedAmount p) then fail else Ok (Ok deposit)
  | _, _ => fail
  end.
Proof.
  unfold check_invocation, verifySorobanDepositInvocation. cbv zeta. destruct op as [|target fn args]; [done|].
  set (escrow := or_text _ _). set (dest := pp_expectedDestination p).
  assert (negb (bool_decide (target ∈ [escrow; dest])) = negb (bool_decide (target = escrow)) && negb (bool_decide (target = dest))) as ->.
  { rewrite <- negb_orb. f_equal. destruct (decide (target = escrow)) as [->|H1]; [rewrite !bool_decide_eq_true_2 by set_solver; done|].
    rewrite (bool_decide_eq_false_2 (target = escrow)) by done. cbn [orb]. apply bool_decide_ext. set_solver. }
  destruct (_ && _); [done|]. destruct (negb _); [done|]. destruct args as [|a [|lg rest]]; try done.
  rewrite sender_same, league_same. destruct (other_sender _ _ _); [done|].
  destruct (league_mismatch _ _) as [[]|]; done.
Qed.

Lemma matches_payment_eq tx code issuer p op :
  matches_payment tx code issuer p op =
  is_payment op && bool_decide (op_to op = pp_expectedDestination p) && asset_matches code issuer op &&
  amount_matches (pp_expectedAmount p) default_tolerance op &&
  negb (other_sender (pp_expectedSender p) (op_from op) (hz_source_account tx)).
Proof.
  unfold matches_payment, is_payment, asset_matches, amount_matches, other_sender, default_tolerance.
  change DEPOSIT_PAYMENT_OPERATION_TYPES with ["payment"; "path_payment_strict_receive"; "path_payment_strict_send"]%string.
  destruct (bool_decide (op_type op ∈ _)); [|done]. destruct (bool_decide (op_to op = _)); [|done]. cbn [negb andb].
  rewrite Z.leb_antisym. destruct (given_text (pp_expectedSender p)), (given_text issuer),
    (bool_decide (code = _)), (op_native op), (100 <? _); repeat case_bool_decide; done.
Qed.

Lemma check_payment_eq horizon p code issuer tx :
  check_payment horizon p code issuer tx =
  let fail := Ok (Err (refused (Some (hz_ledger tx)))) in
  let memo_ok := match given_text (pp_expectedMemo p) with
                 | Some memo => negb (bool_decide (hz_memo tx = ""%string)) && bool_decide (trimmed (hz_memo tx) = trimmed memo)
                 | None => true
                 end in
  if negb memo_ok then fail
  else
    let* operations := hz_operations horizon (pp_txHash p) in
    match List.find (matches_payment tx code issuer p) operations with
    | None => fail
    | Some matchingOp => Ok (Ok (verified_payment tx matchingOp))
    end.
Proof.
  unfold check_payment. cbv zeta. destruct (given_text (pp_expectedMemo p)) as [memo|]; [|done].
  by rewrite negb_andb, negb_involutive.
Qed.

(** ** What an accepted payment is *)

Section evidence.
Context (config : StellarConfig) (client : option (native → string → option Z)) (horizon : Horizon).

Definition sender_accepted (expected : option string) (account source : string) : Prop :=
  ∀ e, given_text expected = Some e → account = e ∨ source = e.

Definition league_accepted (expected : option LeagueReference) (league : native) : Prop :=
  ∀ r, expected = Some r → ∃ id, expected_contract_id r = Ok id ∧ ∀ z, id = Some z → native_BigInt league = Some z.

(** A deposit call of the escrow contract by the participant or from the sender's
    account, for the league; or a payment of the asset and the amount to the
    destination under the memo. *)
Inductive deposit_on_chain (p : VerifyPaymentParams) (tx : ChainTransaction) : VerifiedDeposit → Prop :=
| by_invocation target participant league rest :
    hz_hostOp tx = Some (InvokeContract target "deposit" (participant :: league :: rest)) →
    target = or_text (sc_escrowContractId config) (pp_expectedDestination p) ∨ target = pp_expectedDestination p →
    sender_accepted (pp_expectedSender p) (native_text participant) (hz_source_account tx) →
    league_accepted (pp_expectedLeagueId p) league →
    recorded_otherwise client league (native_text participant) (pp_expectedAmount p) = false →
    deposit_on_chain p tx
      {| vd_txHash := hz_hash tx; vd_ledgerSeq := hz_ledger tx; vd_amount := pp_expectedAmount p;
         vd_assetCode := default (sc_usdcAssetCode config) (pp_expectedAssetCode p);
         vd_sender := or_text (native_text participant) (hz_source_account tx); vd_destination := target;
         vd_confirmedAt := hz_created_at tx; vd_type := Soroban_escrow_deposit |}
| by_payment operations op :
    hz_hostOp tx = None →
    (∀ memo, given_text (pp_expectedMemo p) = Some memo → hz_memo tx ≠ ""%string ∧ trimmed (hz_memo tx) = trimmed memo) →
    hz_operations horizon (pp_txHash p) = Ok operations → op ∈ operations → is_payment op = true →
    op_to op = pp_expectedDestination p →
    asset_matches (default (sc_usdcAssetCode config) (pp_expectedAssetCode p))
      (Some (default (sc_usdcIssuer config) (pp_expectedAssetIssuer p))) op = true →
    Z.abs (op_amount op - pp_expectedAmount p) ≤ default_tolerance →
    sender_accepted (pp_expectedSender p) (op_from op) (hz_source_account tx) →
    deposit_on_chain p tx (verified_payment tx op).

(** A successful transaction of this hash pays what is expected. *)
Definition payment_on_chain (p : VerifyPaymentParams) (d : VerifiedDeposit) : Prop :=
  isValidTransactionHash (pp_txHash p) = true ∧
  ∃ tx, hz_transaction horizon (pp_txHash p) = Ok tx ∧ hz_successful tx = true ∧ deposit_on_chain p tx d.

Lemma other_sender_spec expected account source : other_sender expected account source = false ↔ sender_accepted expected account source.
Proof.
  unfold other_sender, sender_accepted. destruct (given_text expected) as [e|]; [|by split].
  rewrite andb_false_iff, !negb_false_iff, !bool_decide_eq_true. split; [by intros Ho ? [= <-]|intros Ho; by apply Ho].
Qed.

Lemma league_mismatch_spec expected league : league_mismatch expected league = Ok false ↔ league_accepted expected league.
Proof.
  unfold league_mismatch, league_accepted. destruct expected as [r|]; [|by split].
  assert ((∀ r', Some r = Some r' → ∃ id, expected_contract_id r' = Ok id ∧ ∀ z, id = Some z → native_BigInt league = Some z) ↔
    ∃ id, expected_contract_id r = Ok id ∧ ∀ z, id = Some z → native_BigInt league = Some z) as ->
    by (split; [intros Hr; by apply Hr|by intros Hr r' [= <-]]).
  destruct (expected_contract_id r) as [[id|]|e]; cbn.
  - destruct (native_BigInt league) as [z|]; cbn.
    + split; [intros [= E%negb_false_iff%Z.eqb_eq]; exists (Some id); split; [done|]; by intros ? [= <-]; rewrite E|].
      intros (id' & [= <-] & Hz). specialize (Hz id eq_refl). injection Hz as ->. by rewrite Z.eqb_refl.
    + split; [done|]. intros (id' & [= <-] & Hz). by specialize (Hz id eq_refl).
  - split; [|done]. intros _. by exists None.
  - split; [done|]. by intros (id' & ? & _).
Qed.

(** The first operation that matches, when one does. *)
Lemma matches_payment_spec tx code issuer p op : matches_payment tx code issuer p op = true ↔
  is_payment op = true ∧ op_to op = pp_expectedDestination p ∧ asset_matches code issuer op = true ∧
  Z.abs (op_amount op - pp_expectedAmount p) ≤ default_tolerance ∧
  sender_accepted (pp_expectedSender p) (op_from op) (hz_source_account tx).
Proof.
  rewrite matches_payment_eq. unfold amount_matches.
  rewrite !andb_true_iff, bool_decide_eq_true, Z.leb_le, negb_true_iff, other_sender_spec. tauto.
Qed.

Lemma invocation_ok tx op dest amount sender code league d :
  verifySorobanDepositInvocation config tx op dest amount sender code league = Ok (Ok d) ↔
  ∃ target participant lg rest, op = InvokeContract target "deposit" (participant :: lg :: rest) ∧
    (target = or_text (sc_escrowContractId config) dest ∨ target = dest) ∧
    sender_accepted sender (native_text participant) (hz_source_account tx) ∧ league_accepted league lg ∧
    d = {| vd_txHash := hz_hash tx; vd_ledgerSeq := hz_ledger tx; vd_amount := amount; vd_assetCode := code;
           vd_sender := or_text (native_text participant) (hz_source_account tx); vd_destination := target;
           vd_confirmedAt := hz_created_at tx; vd_type := Soroban_escrow_deposit |}.
Proof.
  unfold verifySorobanDepositInvocation. cbv zeta. destruct op as [|target fn args].
  { split; [done|]. by intros (? & ? & ? & ? & [=] & _). }
  destruct (negb (bool_decide (target = _)) && _) eqn:Ht.
  { split; [done|]. intros (t & a & lg & rest & [= <- -> ->] & Hd & _). exfalso.
    apply andb_true_iff in Ht as [H1%negb_true_iff%bool_decide_eq_false_1 H2%negb_true_iff%bool_decide_eq_false_1]. by destruct Hd. }
  assert (target = or_text (sc_escrowContractId config) dest ∨ target = dest) as Hd.
  { apply andb_false_iff in Ht as [H1|H1]; apply negb_false_iff, bool_decide_eq_true in H1; auto. }
  destruct (bool_decide_reflect (fn = "deposit"%string)) as [->|Hf]; cbn [negb];
    [|split; [intros [=]|by intros (t & a & lg & rest & [= _ Ef _] & _)]].
  destruct args as [|a [|lg rest]]; try by (split; [|intros (t & a' & lg & rest & ? & _)]).
  destruct (other_sender _ _ _) eqn:Hs.
  { split; [done|]. intros (t & a' & lg' & rest' & [= <- <- <- <-] & _ & Hs' & _). apply other_sender_spec in Hs'. congruence. }
  destruct (league_mismatch league lg) as [[]|e] eqn:Hl; cbn.
  - split; [done|]. intros (t & a' & lg' & rest' & [= <- <- <- <-] & _ & _ & Hl' & _). apply league_mismatch_spec in Hl'. congruence.
  - split.
    + intros [= <-]. exists target, a, lg, rest. split_and!; try done; [by apply other_sender_spec|by apply league_mismatch_spec].
    + by intros (t & a' & lg' & rest' & [= <- <- <- <-] & _ & _ & _ & ->).
  - split; [done|]. intros (t & a' & lg' & rest' & [= <- <- <- <-] & _ & _ & Hl' & _). apply league_mismatch_spec in Hl'. congruence.
Qed.

Lemma memo_accepted tx memo :
  match given_text memo with
  | Some m => negb (bool_decide (hz_memo tx = ""%string)) && bool_decide (trimmed (hz_memo tx) = trimmed m)
  | None => true
  end = true ↔ ∀ m, given_text memo = Some m → hz_memo tx ≠ ""%string ∧ trimmed (hz_memo tx) = trimmed m.
Proof.
  destruct (given_text memo) as [m|]; [|by split].
  rewrite andb_true_iff, negb_true_iff, bool_decide_eq_false, bool_decide_eq_true.
  split; [by intros ? ? [= <-]|intros Hm; by apply Hm].
Qed.

Lemma verify_transaction_spec p tx : hz_successful tx = true →
  (∀ d, verify_transaction config client horizon p tx = Ok (Ok d) → deposit_on_chain p tx d) ∧
  ((∃ d, deposit_on_chain p tx d) → ∃ d, verify_transaction config client horizon p tx = Ok (Ok d)).
Proof.
  intros Hs. unfold verify_transaction. cbv zeta. rewrite Hs. cbn [negb]. destruct (hz_hostOp tx) as [op|] eqn:Hop.
  - rewrite check_invocation_eq. cbv zeta. set (r := verifySorobanDepositInvocation _ _ _ _ _ _ _ _). split.
    + intros d. destruct r as [[d'|e]|e] eqn:Hr; try done. cbn. pose proof Hr as Hd. apply invocation_ok in Hd as (t & a & lg & rest & -> & Ht & Hsend & Hl & ->).
      cbn. destruct (recorded_otherwise _ _ _ _) eqn:Hrec; [done|]. intros [= <-]. by eapply by_invocation.
    + intros (d & Hd). inversion Hd as [t a lg rest Hop' Ht Hsend Hl Hrec|]; [|congruence]. rewrite Hop in Hop'. injection Hop' as ->.
      match type of Hd with deposit_on_chain _ _ ?d => assert (r = Ok (Ok d)) as -> end.
      { apply invocation_ok. exists t, a, lg, rest. by split_and!. }
      cbn. rewrite Hrec. by eexists.
  - rewrite check_payment_eq. cbv zeta. match goal with |- context [negb ?b] => destruct b eqn:Hmemo end; cbn [negb].
    + rewrite memo_accepted in Hmemo. split.
      * intros d. destruct (hz_operations horizon _) as [ops|e] eqn:Hops; [|done]. cbn.
        destruct (List.find _ ops) as [op|] eqn:Hf; [|done]. intros [= <-]. apply find_elem in Hf as [Hin Hm].
        apply matches_payment_spec in Hm as (H1 & H2 & H3 & H4 & H5). by eapply by_payment.
      * intros (d & Hd). inversion Hd as [|ops op _ _ Hops Hin H1 H2 H3 H4 H5]; [congruence|]. rewrite Hops. cbn.
        destruct (proj2 (find_iff (matches_payment tx (default (sc_usdcAssetCode config) (pp_expectedAssetCode p))
          (Some (default (sc_usdcIssuer config) (pp_expectedAssetIssuer p))) p) ops)) as (op' & ->); [|by eexists].
        exists op. split; [done|]. by apply matches_payment_spec.
    + split; [done|]. intros (d & Hd). inversion Hd as [|ops op _ Hm]; [congruence|].
      apply memo_accepted in Hm. congruence.
Qed.

Lemma payment_accepted_spec (p : VerifyPaymentParams) :
  (∀ d, verifyPaymentTransaction config client horizon p = Ok d → payment_on_chain p d) ∧
  ((∃ d, payment_on_chain p d) → ∃ d, verifyPaymentTransaction config client horizon p = Ok d).
Proof.
  unfold verifyPaymentTransaction, payment_on_chain. destruct (isValidTransactionHash (pp_txHash p)); cbn [negb].
  - destruct (hz_transaction horizon (pp_txHash p)) as [tx|[]] eqn:Htx; cbn.
    + destruct (hz_successful tx) eqn:Hs.
      * destruct (verify_transaction_spec p tx Hs) as [H1 H2]. split.
        -- intros d. destruct (verify_transaction _ _ _ _ _) as [[d'|e]|[]] eqn:Hv; try done. intros [= <-].
           split; [done|]. exists tx. split_and!; [done..|]. by apply H1.
        -- intros (d & _ & tx' & [= <-] & _ & Hd). destruct H2 as (d' & ->); [by exists d|]. by exists d'.
      * split.
        -- intros d. unfold verify_transaction. by rewrite Hs.
        -- intros (d & _ & tx' & [= <-] & Hs' & _). congruence.
    + split; [done|]. by intros (d & _ & tx' & ? & _).
    + split; [done|]. by intros (d & _ & tx' & ? & _).
  - split; [done|]. by intros (d & ? & _).
Qed.

(** C18. A payment is accepted exactly when a successful transaction of its hash
    pays it on the chain, and the answer describes that payment: a deposit call of
    the escrow contract for the league, or a payment of the expected asset and
    amount to the expected account under the memo, from the expected sender. *)
Theorem payment_accepted_iff_on_chain (p : VerifyPaymentParams) :
  (∀ d, verifyPaymentTransaction config client horizon p = Ok d → payment_on_chain p d) ∧
  ((∃ d, payment_on_chain p d) → ∃ d, verifyPaymentTransaction config client horizon p = Ok d).
Proof. apply payment_accepted_spec. Qed.

(** C17. A check on behalf of a member confirms at most that member's own open
    membership, and only when the chain holds the payment its league asks for. *)
Theorem confirmed_member_paid_on_chain (userId leagueId hash : string) (now : Z) (db : FinancialDb) (i : nat) (m : LeagueMember) :
  NoDup (mb_id <$> db_members (fd_league db)) → db_members (fd_league db) !! i = Some m →
  ∃ m', db_members (fd_league (confirm_payment config client horizon userId leagueId hash now db).1) !! i = Some m' ∧ mkey m' = mkey m ∧
    (m' ≠ m → is_member leagueId userId m = true ∧ is_settled_member m = false) ∧
    (mb_paymentStatus m' = PAYMENT_CONFIRMED → mb_paymentStatus m ≠ PAYMENT_CONFIRMED →
      ∃ league d, find_league leagueId db = Some league ∧
        payment_on_chain (payment_params config m league (map_get (mb_id m) (fd_addresses db)) leagueId userId hash) d).
Proof.
  intros Hn Hi. unfold confirm_payment. destruct (find_member leagueId userId db) as [m0|] eqn:Hm0; [|by exists m].
  destruct (find_league leagueId db) as [league|] eqn:Hl; [|by exists m].
  set (v := to_verification _).
  destruct (effect_row _ _ _ _ _ _ Hn Hi (verify_effect userId leagueId hash v now db (λ _, pv_success v = true) (λ _ Hv, Hv)))
    as (m' & H1 & H2 & H3 & H4).
  exists m'. split_and!; [done..|]. intros Hp Hnp. destruct (H4 Hp Hnp) as [Hv Hf]. cbn in Hf. rewrite Hm0 in Hf. injection Hf as ->.
  unfold v in Hv. destruct (verifyPaymentTransaction _ _ _ _) as [d|e] eqn:Hd; [|done]. exists league, d. split; [done|].
  by apply (proj1 (payment_accepted_spec _)).
Qed.
End evidence.

(** ** The two services *)

(** The same expectations for [DepositVerificationService]. *)
Definition deposit_params (config : StellarConfig) (p : VerifyPaymentParams) : VerifyDepositParams :=
  {| vp_txHash := pp_txHash p; vp_expectedDestination := pp_expectedDestination p; vp_expectedAmount := pp_expectedAmount p;
     vp_expectedSender := pp_expectedSender p;
     vp_expectedAssetCode := Some (default (sc_usdcAssetCode config) (pp_expectedAssetCode p));
     vp_expectedAssetIssuer := Some (default (sc_usdcIssuer config) (pp_expectedAssetIssuer p));
     vp_expectedMemo := pp_expectedMemo p; vp_expectedLeagueId := pp_expectedLeagueId p;
     vp_toleranceEpsilon := default_tolerance |}.

Lemma hex_not_blank c : is_hex c = true → is_blank c = false.
Proof. unfold is_hex, is_hex_lower, is_blank. cbv zeta. destruct (Z.of_N (N_of_ascii c)) as [|n|n]; lia. Qed.

Lemma valid_hash_trimmed h : isValidTransactionHash h = true → string_of_list_ascii (trimmed h) = h.
Proof.
  unfold isValidTransactionHash, trimmed. intros [_ Hh]%andb_true_iff. rewrite forallb_forall in Hh.
  rewrite trim_text_id; [apply string_of_list_ascii_of_string|..]; intros c Hc; apply hex_not_blank, Hh, list_elem_of_In.
  - rewrite head_lookup in Hc. by eapply list_elem_of_lookup_2.
  - rewrite last_lookup in Hc. by eapply list_elem_of_lookup_2.
Qed.

Lemma classic_agrees config horizon p tx d : (∀ memo, pp_expectedMemo p = Some memo → trimmed memo ≠ []) →
  hz_hostOp tx = None → hz_successful tx = true →
  verifyClassicPayment horizon tx (pp_txHash p) (default (sc_usdcAssetCode config) (pp_expectedAssetCode p)) (deposit_params config p) = Ok (Ok d) ↔
  verify_transaction config None horizon p tx = Ok (Ok d).
Proof.
  intros Hmemo Hop Hs. unfold verifyClassicPayment, verify_transaction. cbv zeta. rewrite Hop, Hs, check_payment_eq. cbv zeta. cbn [negb deposit_params
    vp_expectedMemo vp_expectedDestination vp_expectedAssetIssuer vp_expectedAmount vp_toleranceEpsilon vp_expectedSender].
  assert (match pp_expectedMemo p with Some memo => bool_decide (trimmed (hz_memo tx) = trimmed memo) | None => true end =
    match given_text (pp_expectedMemo p) with
    | Some memo => negb (bool_decide (hz_memo tx = ""%string)) && bool_decide (trimmed (hz_memo tx) = trimmed memo)
    | None => true end) as <-.
  { destruct (pp_expectedMemo p) as [memo|]; [|done]. specialize (Hmemo memo eq_refl). cbn [given_text].
    destruct (bool_decide_reflect (memo = ""%string)) as [->|]; [by destruct Hmemo|].
    destruct (bool_decide_reflect (hz_memo tx = ""%string)) as [->|]; [|done]. apply bool_decide_eq_false. intros E. apply Hmemo. by rewrite <- E. }
  destruct (negb _); [done|]. destruct (hz_operations horizon (pp_txHash p)) as [ops|e]; [|done]. cbn [rbind].
  set (f := λ op, negb (other_sender (pp_expectedSender p) (op_from op) (hz_source_account tx))).
  assert (List.find f (List.filter (amount_matches (pp_expectedAmount p) default_tolerance)
    (List.filter (asset_matches (default (sc_usdcAssetCode config) (pp_expectedAssetCode p)) (Some (default (sc_usdcIssuer config) (pp_expectedAssetIssuer p))))
      (List.filter (λ op, bool_decide (op_to op = pp_expectedDestination p)) (List.filter is_payment ops)))) =
    List.find (matches_payment tx (default (sc_usdcAssetCode config) (pp_expectedAssetCode p)) (Some (default (sc_usdcIssuer config) (pp_expectedAssetIssuer p))) p) ops) as <-.
  { rewrite !find_lfilter. apply find_ext. intros op. rewrite matches_payment_eq. unfold f. by rewrite !andb_assoc. }
  destruct (List.find f _) as [op|] eqn:Hf.
  - do 4 (case_bool_decide as E; [rewrite E in Hf; discriminate Hf|clear E]).
    split; by intros [= <-].
  - by do 4 (case_bool_decide; [by split|]).
Qed.

Lemma invocation_agrees config horizon p tx op d : hz_hostOp tx = Some op → hz_successful tx = true →
  verifySorobanDepositInvocation config tx op (pp_expectedDestination p) (pp_expectedAmount p) (pp_expectedSender p)
    (default (sc_usdcAssetCode config) (pp_expectedAssetCode p)) (pp_expectedLeagueId p) = Ok (Ok d) ↔
  verify_transaction config None horizon p tx = Ok (Ok d).
Proof.
  intros Hop Hs. unfold verify_transaction. cbv zeta. rewrite Hop, Hs, check_invocation_eq. cbv zeta. cbn [negb].
  set (r := verifySorobanDepositInvocation _ _ _ _ _ _ _ _). destruct r as [[d'|e]|e] eqn:Hr; cbn; [|by split|by split].
  apply invocation_ok in Hr as (t & a & lg & rest & -> & _). split; by intros [= <-].
Qed.

(** C19. The two services, each with its own copy of the checks, accept the same
    payments and describe them alike, given the same expectations: a hash of 64
    hexadecimal digits without blanks, a memo that is not blank if one is
    expected, the asset and issuer this service takes by default, and no client
    that asks the contract for the amount. *)
Theorem verification_services_agree (config : StellarConfig) (horizon : Horizon) (p : VerifyPaymentParams) (d : VerifiedDeposit) :
  isValidTransactionHash (pp_txHash p) = true → (∀ memo, pp_expectedMemo p = Some memo → trimmed memo ≠ []) →
  verifyDeposit config horizon (deposit_params config p) = Ok d ↔ verifyPaymentTransaction config None horizon p = Ok d.
Proof.
  intros Hh Hmemo. unfold verifyDeposit, verifyPaymentTransaction. cbv zeta. cbn [vp_txHash deposit_params].
  rewrite (valid_hash_trimmed _ Hh), Hh. cbn [negb]. destruct (hz_transaction horizon (pp_txHash p)) as [tx|[]]; [|done|done]. cbn [rbind].
  destruct (hz_successful tx) eqn:Hs; [|unfold verify_transaction; by rewrite Hs]. cbn [negb].
  assert (∀ (a : result HorizonError verification) (b : result HorizonError payment_result), (a = Ok (Ok d) ↔ b = Ok (Ok d)) →
    (caught_deposit a = Ok d ↔ match b with
                               | Ok r => r
                               | Err HorizonNotFound => Err {| pr_retryable := true; pr_notFound := true; pr_ledgerSeq := None |}
                               | Err HorizonOther => Err {| pr_retryable := true; pr_notFound := false; pr_ledgerSeq := None |}
                               end = Ok d)) as Hlift.
  { intros a b Hab. trans (a = Ok (Ok d)); [|rewrite Hab].
    - destruct a as [v|[]]; cbn; [|done|done]. split; [by intros ->|by intros [= ->]].
    - destruct b as [v|[]]; [|done|done]. split; [by intros [= ->]|by intros ->]. }
  apply Hlift. destruct (hz_hostOp tx) as [op|] eqn:Hop; [by apply invocation_agrees|by apply classic_agrees].
Qed.

(** ** Runs *)

Definition sample_stellar : StellarConfig :=
  {| sc_usdcAssetCode := "USDC"; sc_usdcIssuer := "GISSUER"; sc_escrowContractId := "CESCROW"; sc_treasuryAddress := "GTREASURY" |}.

Definition sample_hash : string := string_of_list_ascii (replicate 64 "a"%char).

(** The deposit call of "GA" for league [sample_id] of [Financial], whose contract id is 171. *)
Definition sample_deposit_tx : ChainTransaction :=
  {| hz_hash := sample_hash; hz_successful := true; hz_ledger := 9; hz_source_account := "GA"; hz_memo := ""; hz_created_at := 40;
     hz_hostOp := Some (InvokeContract "CESCROW" "deposit" [NText "GA"; NBig 171]) |}.

(** A payment of 10 of an asset with the code USDC from another issuer. *)
Definition sample_payment_tx : ChainTransaction :=
  {| hz_hash := sample_hash; hz_successful := true; hz_ledger := 9; hz_source_account := "GA"; hz_memo := "FXI"; hz_created_at := 40;
     hz_hostOp := None |}.

Definition sample_operation (issuer : string) : ChainOperation :=
  {| op_type := "payment"; op_from := "GA"; op_to := "GTREASURY"; op_native := false; op_asset_code := "USDC";
     op_asset_issuer := issuer; op_amount := 100000000 |}.

Definition sample_horizon (tx : ChainTransaction) (ops : list ChainOperation) : Horizon :=
  {| hz_transaction := λ h, if bool_decide (h = sample_hash) then Ok tx else Err HorizonNotFound;
     hz_operations := λ _, Ok ops |}.

(** Members who have not paid; [addresses] are those on record. *)
Definition sample_open_db (addresses : list (string * string)) (transactions : list TransactionRow) : FinancialDb :=
  let db := sample_paid_db UPCOMING PAYMENT_SUBMITTED in
  {| fd_league := fd_league db; fd_addresses := addresses; fd_squadPoints := []; fd_transactions := transactions;
     fd_coordinated := []; fd_admins := [] |}.

Definition confirm_with (client : option (native → string → option Z)) (user : string) (db : FinancialDb) : FinancialDb :=
  (confirm_payment sample_stellar client (sample_horizon sample_deposit_tx []) user sample_id sample_hash 50 db).1.

Definition payment_states (db : FinancialDb) : list PaymentStatus := mb_paymentStatus <$> db_members (fd_league db).

(** One deposit confirms its sender, and a member with no address on record. *)
Example one_deposit_two_members :
  payment_states (confirm_with None "b" (confirm_with None "a" (sample_open_db [("a", "GA")] [])))
  = [PAYMENT_CONFIRMED; PAYMENT_CONFIRMED; PAYMENT_SUBMITTED].
Proof. vm_compute. reflexivity. Qed.

Definition sample_fee_row : TransactionRow :=
  {| tx_userId := "a"; tx_leagueId := Some sample_id; tx_memberId := Some "a"; tx_type := ENTRY_FEE; tx_amount := 1000;
     tx_stellarTxHash := Some sample_hash; tx_ledgerSeq := None; tx_memo := None; tx_status := TS_SUBMITTED; tx_confirmedAt := None |}.

(** A member who names the hash of another is refused, and the confirmed
    transaction of the other fails. *)
Example foreign_hash_fails_transaction :
  let db1 := confirm_with None "a" (sample_open_db [("a", "GA"); ("b", "GB")] [sample_fee_row]) in
  let db2 := confirm_with None "b" db1 in
  (tx_status <$> fd_transactions db1) = [TS_CONFIRMED] ∧ (tx_status <$> fd_transactions db2) = [TS_FAILED] ∧
  payment_states db2 = [PAYMENT_CONFIRMED; PAYMENT_FAILED; PAYMENT_SUBMITTED].
Proof. vm_compute. repeat split; reflexivity. Qed.

(** The amount a contract call deposited is compared only when a client of the
    contract happens to exist. *)
Example unchecked_amount_accepted :
  let client := Some (λ (_ : native) (_ : string), Some 1) in
  payment_states (confirm_with None "a" (sample_open_db [("a", "GA")] [])) = [PAYMENT_CONFIRMED; PAYMENT_SUBMITTED; PAYMENT_SUBMITTED] ∧
  payment_states (confirm_with client "a" (sample_open_db [("a", "GA")] [])) = [PAYMENT_FAILED; PAYMENT_SUBMITTED; PAYMENT_SUBMITTED].
Proof. vm_compute. repeat split; reflexivity. Qed.

Definition sample_expectation (issuer : option string) : VerifyDepositParams :=
  {| vp_txHash := sample_hash; vp_expectedDestination := "GTREASURY"; vp_expectedAmount := 100000000; vp_expectedSender := Some "GA";
     vp_expectedAssetCode := None; vp_expectedAssetIssuer := issuer; vp_expectedMemo := None; vp_expectedLeagueId := None;
     vp_toleranceEpsilon := default_tolerance |}.

(** The issuer has no default: an asset of the same code from anyone is accepted. *)
Example rogue_asset_verified :
  is_ok (verifyDeposit sample_stellar (sample_horizon sample_payment_tx [sample_operation "GROGUE"]) (sample_expectation None)) = true ∧
  verifyDeposit sample_stellar (sample_horizon sample_payment_tx [sample_operation "GROGUE"]) (sample_expectation (Some "GISSUER"))
    = Err (ASSET_MISMATCH, Some 9).
Proof. vm_compute. split; reflexivity. Qed.

Definition sample_params (issuer : option string) : VerifyPaymentParams :=
  {| pp_txHash := sample_hash; pp_expectedDestination := "GTREASURY"; pp_expectedAmount := 100000000; pp_expectedAssetCode := None;
     pp_expectedAssetIssuer := issuer; pp_expectedMemo := Some "FXI"; pp_expectedSender := Some "GA"; pp_expectedLeagueId := None |}.

Lemma payment_accepted_iff_on_chain_witness :
  let horizon := sample_horizon sample_payment_tx [sample_operation "GISSUER"] in
  payment_on_chain sample_stellar None horizon (sample_params None) (verified_payment sample_payment_tx (sample_operation "GISSUER")).
Proof.
  intros horizon. apply (proj1 (payment_accepted_iff_on_chain sample_stellar None horizon (sample_params None))).
  vm_compute. reflexivity.
Defined.

Lemma confirmed_member_paid_on_chain_witness :
  let db := sample_open_db [("a", "GA")] [] in
  ∃ league d, find_league sample_id db = Some league ∧
    payment_on_chain sample_stellar None (sample_horizon sample_deposit_tx [])
      (payment_params sample_stellar (sample_member "a" Member_ACTIVE PAYMENT_SUBMITTED 1) league (Some "GA") sample_id "a" sample_hash) d.
Proof.
  intros db.
  destruct (confirmed_member_paid_on_chain sample_stellar None (sample_horizon sample_deposit_tx []) "a" sample_id sample_hash 50 db 0
    (sample_member "a" Member_ACTIVE PAYMENT_SUBMITTED 1)) as (m' & Hm' & _ & _ & Hc);
    [apply (bool_decide_unpack _); vm_compute; exact I|reflexivity|].
  assert (mb_paymentStatus m' = PAYMENT_CONFIRMED) as Hp by (vm_compute in Hm'; injection Hm' as <-; reflexivity).
  apply (Hc Hp). discriminate.
Defined.

Lemma verification_services_agree_witness :
  let horizon := sample_horizon sample_payment_tx [sample_operation "GISSUER"] in
  verifyDeposit sample_stellar horizon (deposit_params sample_stellar (sample_params None)) =
    Ok (verified_payment sample_payment_tx (sample_operation "GISSUER")).
Proof.
  intros horizon. apply (verification_services_agree sample_stellar horizon (sample_params None)).
  - vm_compute. reflexivity.
  - intros memo [= <-]. vm_compute. discriminate.
  - vm_compute. reflexivity.
Defined.
