(* ===== verification/Retroactive.v ===== *)
(** * Stat corrections after a gameweek: [backend/src/services/scoring/retroactiveBpsAdjustmentService.ts]

    Detection against the official feed ([normalizePlayerStats] of
    [fpl/fplNormalizer.ts]), the differential scores of the squads that own a
    corrected player, and the one transaction that applies them to scores, squad
    totals, league totals, ranks and the log.  Scores are computed on what was read
    before the transaction, so reading and applying take two states.  The lock of
    a run decides nothing, since a run that does not get it goes on.

    Theorems: the scores a run leaves are those of a new calculation
    ([Scoring.calculateAndPersistSquadScore] on [scoring_view]); leagues that have
    ended or been paid are untouched and the others ranked again; a score that
    changed since it was read stops the run; a second detection finds nothing. *)

From Stdlib Require Import Ascii String.
From S2P Require Import Prelude Text ScVal Rules Prize ScoringConfig Scoring LeagueDb Financial.

#[local] Open Scope string_scope.
#[local] Open Scope list_scope.
#[local] Open Scope Z_scope.

(** ** Stat lines *)

Record PlayerStatSnapshot : Type := {
  ps_minutes : Z;
  ps_goals : Z;
  ps_assists : Z;
  ps_cleanSheet : bool;
  ps_yellowCards : Z;
  ps_redCards : Z;
  ps_saves : Z;
  ps_bonus : Z;
  ps_totalPoints : Z
}.

#[export] Instance PlayerStatSnapshot_eq_dec : EqDecision PlayerStatSnapshot.
Proof. solve_decision. Defined.

Definition empty_snapshot : PlayerStatSnapshot :=
  {| ps_minutes := 0; ps_goals := 0; ps_assists := 0; ps_cleanSheet := false; ps_yellowCards := 0; ps_redCards := 0;
     ps_saves := 0; ps_bonus := 0; ps_totalPoints := 0 |}.

(** The columns of a line that corrections do not touch. *)
Record OtherStats : Type := {
  os_goalsConceded : Z;
  os_ownGoals : Z;
  os_penaltiesSaved : Z;
  os_penaltiesMissed : Z;
  os_bps : Z
}.

Definition no_other_stats : OtherStats :=
  {| os_goalsConceded := 0; os_ownGoals := 0; os_penaltiesSaved := 0; os_penaltiesMissed := 0; os_bps := 0 |}.

(** A row of [player_gameweek_stats]. *)
Record StatLine : Type := {
  sl_playerId : Z;
  sl_gameweekId : Z;
  sl_fixtureId : Z;
  sl_stats : PlayerStatSnapshot;
  sl_other : OtherStats
}.

Inductive StatField : Type := F_minutes | F_goals | F_assists | F_cleanSheet | F_yellowCards | F_redCards | F_saves | F_bonus | F_totalPoints.

Definition STAT_FIELDS : list StatField :=
  [F_minutes; F_goals; F_assists; F_cleanSheet; F_yellowCards; F_redCards; F_saves; F_bonus; F_totalPoints].

(** The value of a field, a boolean as 0 or 1. *)
Definition stat_value (s : PlayerStatSnapshot) (f : StatField) : Z :=
  match f with
  | F_minutes => ps_minutes s | F_goals => ps_goals s | F_assists => ps_assists s
  | F_cleanSheet => if ps_cleanSheet s then 1 else 0
  | F_yellowCards => ps_yellowCards s | F_redCards => ps_redCards s | F_saves => ps_saves s
  | F_bonus => ps_bonus s | F_totalPoints => ps_totalPoints s
  end.

Definition diffStats (previous : option PlayerStatSnapshot) (next : PlayerStatSnapshot) : list StatField :=
  List.filter (λ f, negb (stat_value (default empty_snapshot previous) f =? stat_value next f)) STAT_FIELDS.

Record StatCorrection : Type := {
  co_playerId : Z;
  co_fixtureId : Z;
  co_previous : option PlayerStatSnapshot;
  co_next : PlayerStatSnapshot;
  co_changedFields : list StatField
}.

(** ** The official feed *)

Record ExplainStat : Type := { ex_identifier : string; ex_points : Z; ex_value : Z }.

(** [explain] is empty or missing for a player without fixtures. *)
Record LiveElement : Type := {
  le_id : Z;
  le_totals : PlayerStatSnapshot;
  le_other : OtherStats;
  le_explain : list (Z * list ExplainStat)
}.

Record NormalizedLine : Type := {
  nl_fixtureFplId : option Z;
  nl_stats : PlayerStatSnapshot;
  nl_other : OtherStats
}.

Definition add_points (p : Z) (s : PlayerStatSnapshot) : PlayerStatSnapshot :=
  {| ps_minutes := ps_minutes s; ps_goals := ps_goals s; ps_assists := ps_assists s; ps_cleanSheet := ps_cleanSheet s;
     ps_yellowCards := ps_yellowCards s; ps_redCards := ps_redCards s; ps_saves := ps_saves s; ps_bonus := ps_bonus s;
     ps_totalPoints := ps_totalPoints s + p |}.

(** The [switch] of the loop over the stats of a fixture. *)
Definition read_stat (acc : PlayerStatSnapshot * OtherStats) (e : ExplainStat) : PlayerStatSnapshot * OtherStats :=
  let '(s, o) := acc in
  let s := add_points (ex_points e) s in
  let v := ex_value e in
  let named name := bool_decide (ex_identifier e = name) in
  let set minutes goals assists clean yellow red saves bonus :=
    ({| ps_minutes := minutes; ps_goals := goals; ps_assists := assists; ps_cleanSheet := clean; ps_yellowCards := yellow;
        ps_redCards := red; ps_saves := saves; ps_bonus := bonus; ps_totalPoints := ps_totalPoints s |}, o) in
  let set_other conceded own saved missed bps :=
    (s, {| os_goalsConceded := conceded; os_ownGoals := own; os_penaltiesSaved := saved; os_penaltiesMissed := missed; os_bps := bps |}) in
  let m := ps_minutes s in let g := ps_goals s in let a := ps_assists s in let c := ps_cleanSheet s in
  let y := ps_yellowCards s in let r := ps_redCards s in let sv := ps_saves s in let b := ps_bonus s in
  let gc := os_goalsConceded o in let og := os_ownGoals o in let psv := os_penaltiesSaved o in
  let pm := os_penaltiesMissed o in let bp := os_bps o in
  if named "minutes" then set v g a c y r sv b
  else if named "goals_scored" then set m v a c y r sv b
  else if named "assists" then set m g v c y r sv b
  else if named "clean_sheets" then set m g a (0 <? v) y r sv b
  else if named "yellow_cards" then set m g a c v r sv b
  else if named "red_cards" then set m g a c y v sv b
  else if named "saves" then set m g a c y r v b
  else if named "goals_conceded" then set_other v og psv pm bp
  else if named "own_goals" then set_other gc v psv pm bp
  else if named "penalties_saved" then set_other gc og v pm bp
  else if named "penalties_missed" then set_other gc og psv v bp
  else if named "bonus" then set m g a c y r sv v
  else if named "bps" then set_other gc og psv pm v
  else (s, o).

(** With a single fixture the totals of the gameweek are the defaults. *)
Definition normalizePlayerStats (raw : LiveElement) : list NormalizedLine :=
  match le_explain raw with
  | [] => [{| nl_fixtureFplId := None; nl_stats := le_totals raw; nl_other := le_other raw |}]
  | fixtures =>
      let initial := if bool_decide (length fixtures = 1%nat) then le_other raw
                     else {| os_goalsConceded := 0; os_ownGoals := 0; os_penaltiesSaved := 0; os_penaltiesMissed := 0;
                             os_bps := os_bps (le_other raw) |} in
      (λ '(fixture, stats),
        let '(s, o) := foldl read_stat (empty_snapshot, initial) stats in
        {| nl_fixtureFplId := Some fixture; nl_stats := s; nl_other := o |}) <$> fixtures
  end.

(** ** Tables *)

Record RetroSquad : Type := { rq_userId : string; rq_players : list LineupPlayer; rq_totalPoints : Z }.

(** A row of [score_adjustment_logs]; the [details] column is left out. *)
Inductive LoggedEntity : Type := PLAYER_STAT | SQUAD_SCORE | LEAGUE_MEMBER.

Record AdjustmentLog : Type := {
  al_gameweekId : Z;
  al_entityType : LoggedEntity;
  al_entityId : string;
  al_previousPoints : Z;
  al_delta : Z;
  al_newPoints : Z
}.

Record RetroDb : Type := {
  rd_gameweeks : list (Z * Z);
  rd_players : list (Z * Z);
  rd_fixtures : list (Z * Z * Z);
  rd_stats : list StatLine;
  rd_squads : list (string * RetroSquad);
  rd_scores : list ((string * Z) * GameweekScore);
  rd_chips : list ((string * Z) * ChipUsageRow);
  rd_leagues : list (string * LeagueRow);
  rd_members : list LeagueMember;
  rd_transactions : list TransactionRow;
  rd_log : list AdjustmentLog
}.

Inductive RetroError : Type := ScoreAdjustmentNotFound | ScoreAdjustmentConflict | RowNotFound.

Definition map_of {K V} `{EqDecision K} (l : list (K * V)) : list (K * V) := foldl (λ m '(k, v), map_set k v m) [] l.

Definition of_gameweek (gameweekId : Z) (l : StatLine) : bool := sl_gameweekId l =? gameweekId.

(** [statKey]. *)
Definition stat_key (l : StatLine) : Z * Z := (sl_playerId l, sl_fixtureId l).

(** ** [detectStatCorrections] *)

(** The lines of the feed that belong to a known player and fixture. *)
Definition official_lines (db : RetroDb) (gameweekId : Z) (live : list LiveElement) : list ((Z * Z) * PlayerStatSnapshot) :=
  let playerByFplId := map_of ((λ '(id, fplId), (fplId, id)) <$> rd_players db) in
  let fixtureByFplId := map_of ((λ '(id, fplId, _), (fplId, id)) <$> List.filter (λ f, f.2 =? gameweekId) (rd_fixtures db)) in
  flat_map (λ element,
    match map_get (le_id element) playerByFplId with
    | None => []
    | Some playerId =>
        if playerId =? 0 then [] else
        flat_map (λ line,
          match nl_fixtureFplId line ≫= λ f, map_get f fixtureByFplId with
          | None => []
          | Some fixtureId => if fixtureId =? 0 then [] else [((playerId, fixtureId), nl_stats line)]
          end) (normalizePlayerStats element)
    end) live.

Definition stored_lines (db : RetroDb) (gameweekId : Z) : list ((Z * Z) * PlayerStatSnapshot) :=
  map_of ((λ l, (stat_key l, sl_stats l)) <$> List.filter (of_gameweek gameweekId) (rd_stats db)).

Definition correction_of (stored : list ((Z * Z) * PlayerStatSnapshot)) (line : (Z * Z) * PlayerStatSnapshot) : list StatCorrection :=
  let previous := map_get line.1 stored in
  let changedFields := diffStats previous line.2 in
  match changedFields with
  | [] => []
  | _ => [{| co_playerId := line.1.1; co_fixtureId := line.1.2; co_previous := previous; co_next := line.2; co_changedFields := changedFields |}]
  end.

Definition detectStatCorrections (gameweekId : Z) (feed : Z → list LiveElement) (db : RetroDb) : result RetroError (list StatCorrection) :=
  let* fplId := or_throw (map_get gameweekId (rd_gameweeks db)) ScoreAdjustmentNotFound in
  Ok (flat_map (correction_of (stored_lines db gameweekId)) (official_lines db gameweekId (feed fplId))).

(** ** [computeSquadAdjustments] *)

Record PlayerPointsChange : Type := { pc_playerId : Z; pc_previousPoints : Z; pc_newPoints : Z; pc_multiplier : Z }.

Record SquadAdjustment : Type := {
  sa_squadId : string;
  sa_userId : string;
  sa_previousPoints : Z;
  sa_newPoints : Z;
  sa_delta : Z;
  sa_captainPoints : Z;
  sa_benchPoints : Z;
  sa_players : list PlayerPointsChange
}.

(** A line with what the score reads of it: player, minutes, points. *)
Definition ScoredLine : Type := (Z * Z * Z).

Definition aggregate (lines : list ((Z * Z) * ScoredLine)) : StatsMap :=
  foldl (λ m '(playerId, mins, points),
    let current := default (plain_stats 0 0) (map_get playerId m) in
    map_set playerId (plain_stats (minutes current + mins) (totalPoints current + points)) m) [] (map_values lines).

Definition scored (l : StatLine) : (Z * Z) * ScoredLine :=
  (stat_key l, (sl_playerId l, ps_minutes (sl_stats l), ps_totalPoints (sl_stats l))).

Definition corrected_line (c : StatCorrection) : (Z * Z) * ScoredLine :=
  ((co_playerId c, co_fixtureId c), (co_playerId c, ps_minutes (co_next c), ps_totalPoints (co_next c))).

(** The stored lines of the players of some squads, and the lines once corrected. *)
Definition old_lines (db : RetroDb) (gameweekId : Z) (playerIds : list Z) : list ((Z * Z) * ScoredLine) :=
  map_of (scored <$> List.filter (λ l, of_gameweek gameweekId l && bool_decide (sl_playerId l ∈ playerIds)) (rd_stats db)).

Definition new_lines (old : list ((Z * Z) * ScoredLine)) (corrections : list StatCorrection) : list ((Z * Z) * ScoredLine) :=
  foldl (λ m c, map_set (corrected_line c).1 (corrected_line c).2 m) old corrections.

(** The squads that own a corrected player today and have a score. *)
Definition affected_squads (db : RetroDb) (gameweekId : Z) (corrections : list StatCorrection) : list (string * RetroSquad) :=
  let correctedPlayerIds := co_playerId <$> corrections in
  List.filter (λ '(id, squad), existsb (λ p, bool_decide (lp_playerId p ∈ correctedPlayerIds)) (rq_players squad) &&
    map_has (id, gameweekId) (rd_scores db)) (rd_squads db).

Definition chip_of (db : RetroDb) (squadId : string) (gameweekId : Z) : option ChipType :=
  match map_get (squadId, gameweekId) (rd_chips db) with
  | Some usage => match cu_cancelledAt usage with None => Some (cu_chipType usage) | Some _ => None end
  | None => None
  end.

Definition squad_adjustment (db : RetroDb) (gameweekId : Z) (corrected : list Z) (oldStats newStats : StatsMap)
    (entry : string * RetroSquad) : list SquadAdjustment :=
  let '(squadId, squad) := entry in
  match map_get (squadId, gameweekId) (rd_scores db) with
  | None => []
  | Some stored =>
      let score stats := score_lineup (rq_players squad) stats (chip_of db squadId gameweekId) (Some (gs_transferCost stored)) in
      let before := score oldStats in
      let after := score newStats in
      let delta := total after - total before in
      if delta =? 0 then []
      else [{| sa_squadId := squadId; sa_userId := rq_userId squad; sa_previousPoints := gs_points stored;
               sa_newPoints := gs_points stored + delta; sa_delta := delta; sa_captainPoints := captainPoints after;
               sa_benchPoints := benchPoints after;
               sa_players := (λ d, {| pc_playerId := playerId d;
                   pc_previousPoints := match List.find (λ b, playerId b =? playerId d) (details before) with Some b => effectivePoints b | None => 0 end;
                   pc_newPoints := effectivePoints d; pc_multiplier := multiplier d |}) <$>
                 List.filter (λ d, bool_decide (playerId d ∈ corrected)) (details after) |}]
  end.

Definition computeSquadAdjustments (gameweekId : Z) (corrections : list StatCorrection) (db : RetroDb) : list SquadAdjustment :=
  let squads := affected_squads db gameweekId corrections in
  let playerIds := lp_playerId <$> flat_map (λ s, rq_players s.2) squads in
  let oldLines := old_lines db gameweekId playerIds in
  let newLines := new_lines oldLines corrections in
  flat_map (squad_adjustment db gameweekId (co_playerId <$> corrections) (aggregate oldLines) (aggregate newLines)) squads.

(** ** [adjustLeagues] *)

Record LeagueMemberAdjustment : Type := {
  lma_leagueId : string;
  lma_memberId : string;
  lma_userId : string;
  lma_squadId : string;
  lma_previousTotal : Z;
  lma_newTotal : Z;
  lma_previousRank : option Z;
  lma_newRank : Z
}.

Inductive ProtectionReason : Type := LEAGUE_COMPLETED | PRIZES_PAID_ON_CHAIN.

Definition ProtectedLeague : Type := (string * ProtectionReason).

Definition with_points (f : Z → Z) (m : LeagueMember) : LeagueMember :=
  {| mb_id := mb_id m; mb_leagueId := mb_leagueId m; mb_userId := mb_userId m; mb_squadId := mb_squadId m;
     mb_status := mb_status m; mb_paymentStatus := mb_paymentStatus m; mb_hasPaid := mb_hasPaid m;
     mb_joinedAt := mb_joinedAt m; mb_rank := mb_rank m; mb_totalPoints := f (mb_totalPoints m);
     mb_matchesWon := mb_matchesWon m; mb_matchesDrawn := mb_matchesDrawn m; mb_matchesLost := mb_matchesLost m;
     mb_pointsFor := mb_pointsFor m; mb_pointsAgainst := mb_pointsAgainst m; mb_h2hPoints := mb_h2hPoints m |}.

Definition with_new_rank (rank : Z) (m : LeagueMember) : LeagueMember := set_totals (mb_totalPoints m) rank m.

Definition update_members (id : string) (f : LeagueMember → LeagueMember) (ms : list LeagueMember) : list LeagueMember :=
  (λ m, if bool_decide (mb_id m = id) then f m else m) <$> ms.

Definition paid_leagues (db : RetroDb) : list string :=
  omap tx_leagueId (List.filter (λ t, bool_decide (tx_type t = PRIZE_PAYOUT) && bool_decide (tx_status t = TS_CONFIRMED)) (rd_transactions db)).

(** Settled, or being settled. *)
Definition protection (paid : list string) (leagueId : string) (league : LeagueRow) : option ProtectionReason :=
  if bool_decide (lg_status league = COMPLETED) then Some LEAGUE_COMPLETED
  else if bool_decide (leagueId ∈ paid) then Some PRIZES_PAID_ON_CHAIN else None.

(** The leagues whose totals count this gameweek. *)
Definition counts_gameweek (gameweekId : Z) (league : LeagueRow) : bool :=
  bool_decide (lg_status league = ACTIVE) && bool_decide (lg_scoringType league = CLASSIC) &&
  (lg_startGameweekId league <=? gameweekId) && (gameweekId <=? lg_endGameweekId league).

(** The state of the loop over the memberships. *)
Record LeagueLoop : Type := {
  ll_members : list LeagueMember;
  ll_previous : list (string * (Z * option Z));
  ll_touched : list string;
  ll_protected : list ProtectedLeague
}.

Definition add_new {A} `{EqDecision A} (x : A) (l : list A) : list A := if decide (x ∈ l) then l else l ++ [x].

Definition adjust_member (gameweekId : Z) (leagues : list (string * LeagueRow)) (paid : list string) (deltaBySquad : list (string * Z))
    (st : LeagueLoop) (member : LeagueMember) : LeagueLoop :=
  match map_get (mb_leagueId member) leagues, map_get (mb_squadId member) deltaBySquad with
  | Some league, Some delta =>
      match protection paid (mb_leagueId member) league with
      | Some reason =>
          {| ll_members := ll_members st; ll_previous := ll_previous st; ll_touched := ll_touched st;
             ll_protected := if decide (mb_leagueId member ∈ (ll_protected st).*1) then ll_protected st
                             else ll_protected st ++ [(mb_leagueId member, reason)] |}
      | None =>
          if negb (counts_gameweek gameweekId league) then st
          else {| ll_members := update_members (mb_id member) (with_points (λ p, p + delta)) (ll_members st);
                  ll_previous := map_set (mb_id member) (mb_totalPoints member, mb_rank member) (ll_previous st);
                  ll_touched := add_new (mb_leagueId member) (ll_touched st); ll_protected := ll_protected st |}
      end
  | _, _ => st
  end.

Definition league_order : LeagueMember → LeagueMember → Z := then_by (desc mb_totalPoints) (asc mb_joinedAt).

Definition active_of (leagueId : string) (ms : list LeagueMember) : list LeagueMember :=
  List.filter (λ m, bool_decide (mb_leagueId m = leagueId) && bool_decide (mb_status m = Member_ACTIVE)) ms.

(** One place of the re-ranked table of a league. *)
Definition rank_member (leagueId : string) (previousByMember : list (string * (Z * option Z)))
    (st : list LeagueMember * list LeagueMemberAdjustment) (place : Z * LeagueMember) :
    list LeagueMember * list LeagueMemberAdjustment :=
  let '(newRank, member) := place in
  let moved := negb (bool_decide (mb_rank member = Some newRank)) in
  let previous := map_get (mb_id member) previousByMember in
  (if moved then update_members (mb_id member) (with_new_rank newRank) st.1 else st.1,
   match previous, moved with
   | None, false => st.2
   | _, _ => st.2 ++ [{| lma_leagueId := leagueId; lma_memberId := mb_id member; lma_userId := mb_userId member;
       lma_squadId := mb_squadId member; lma_previousTotal := default (mb_totalPoints member) (fst <$> previous);
       lma_newTotal := mb_totalPoints member;
       lma_previousRank := match previous ≫= snd with Some r => Some r | None => mb_rank member end; lma_newRank := newRank |}]
   end).

Definition rank_league (previousByMember : list (string * (Z * option Z)))
    (st : list LeagueMember * list LeagueMemberAdjustment) (leagueId : string) : list LeagueMember * list LeagueMemberAdjustment :=
  let ranked := sort_by league_order (active_of leagueId st.1) in
  foldl (rank_member leagueId previousByMember) st (imap (λ i m, (Z.of_nat i + 1, m)) ranked).

Definition adjustLeagues (gameweekId : Z) (squadAdjustments : list SquadAdjustment) (db : RetroDb) :
    list LeagueMember * list LeagueMemberAdjustment * list ProtectedLeague :=
  let deltaBySquad := map_of ((λ a, (sa_squadId a, sa_delta a)) <$> squadAdjustments) in
  let memberships := List.filter (λ m, map_has (mb_squadId m) deltaBySquad && bool_decide (mb_status m = Member_ACTIVE)) (rd_members db) in
  let st := foldl (adjust_member gameweekId (rd_leagues db) (paid_leagues db) deltaBySquad)
              {| ll_members := rd_members db; ll_previous := []; ll_touched := []; ll_protected := [] |} memberships in
  let '(members, adjustments) := foldl (rank_league (ll_previous st)) (ll_members st, []) (ll_touched st) in
  (members, adjustments, ll_protected st).

(** ** [applyCorrections] *)

Record AdjustmentReport : Type := {
  ar_applied : bool;
  ar_corrections : list StatCorrection;
  ar_squadAdjustments : list SquadAdjustment;
  ar_leagueAdjustments : list LeagueMemberAdjustment;
  ar_protectedLeagues : list ProtectedLeague
}.

(** [playerGameweekStats.upsert]. *)
Definition upsert_stat (gameweekId : Z) (lines : list StatLine) (c : StatCorrection) : list StatLine :=
  let same l := (sl_playerId l =? co_playerId c) && (sl_gameweekId l =? gameweekId) && (sl_fixtureId l =? co_fixtureId c) in
  if existsb same lines then
    (λ l, if same l then {| sl_playerId := sl_playerId l; sl_gameweekId := sl_gameweekId l; sl_fixtureId := sl_fixtureId l;
                          sl_stats := co_next c; sl_other := sl_other l |} else l) <$> lines
  else lines ++ [{| sl_playerId := co_playerId c; sl_gameweekId := gameweekId; sl_fixtureId := co_fixtureId c;
                    sl_stats := co_next c; sl_other := no_other_stats |}].

(** The conditional update of the stored score, then the total of the squad. *)
Definition apply_squad (gameweekId : Z) (st : list ((string * Z) * GameweekScore) * list (string * RetroSquad)) (a : SquadAdjustment) :
    result RetroError (list ((string * Z) * GameweekScore) * list (string * RetroSquad)) :=
  let '(scores, squads) := st in
  match map_get (sa_squadId a, gameweekId) scores with
  | Some stored =>
      if negb (gs_points stored =? sa_previousPoints a) then Err ScoreAdjustmentConflict
      else match map_get (sa_squadId a) squads with
      | None => Err RowNotFound
      | Some squad =>
          Ok (map_set (sa_squadId a, gameweekId) {| gs_points := sa_newPoints a; gs_benchPoints := sa_benchPoints a;
                gs_captainPoints := sa_captainPoints a; gs_transferCost := gs_transferCost stored |} scores,
              map_set (sa_squadId a) {| rq_userId := rq_userId squad; rq_players := rq_players squad;
                rq_totalPoints := rq_totalPoints squad + sa_delta a |} squads)
      end
  | None => Err ScoreAdjustmentConflict
  end.

Definition auditRows (gameweekId : Z) (r : AdjustmentReport) : list AdjustmentLog :=
  let row entity id previous delta new :=
    {| al_gameweekId := gameweekId; al_entityType := entity; al_entityId := id; al_previousPoints := previous; al_delta := delta; al_newPoints := new |} in
  ((λ c, let previousPoints := match co_previous c with Some p => ps_totalPoints p | None => 0 end in
     row PLAYER_STAT (integer_text (co_playerId c) +:+ ":" +:+ integer_text (co_fixtureId c)) previousPoints
       (ps_totalPoints (co_next c) - previousPoints) (ps_totalPoints (co_next c))) <$> ar_corrections r) ++
  ((λ a, row SQUAD_SCORE (sa_squadId a) (sa_previousPoints a) (sa_delta a) (sa_newPoints a)) <$> ar_squadAdjustments r) ++
  ((λ m, row LEAGUE_MEMBER (lma_memberId m) (lma_previousTotal m) (lma_newTotal m - lma_previousTotal m) (lma_newTotal m)) <$> ar_leagueAdjustments r) ++
  ((λ l, row LEAGUE_MEMBER l.1 0 0 0) <$> ar_protectedLeagues r).

(** The transaction, on the adjustments computed before it. *)
Definition apply_transaction (gameweekId : Z) (corrections : list StatCorrection) (adjustments : list SquadAdjustment) (db : RetroDb) :
    result RetroError (AdjustmentReport * RetroDb) :=
  let stats := foldl (upsert_stat gameweekId) (rd_stats db) corrections in
  let* '(scores, squads) := mfoldl (apply_squad gameweekId) (rd_scores db, rd_squads db) adjustments in
  let '(members, leagueAdjustments, protectedLeagues) := adjustLeagues gameweekId adjustments db in
  let report := {| ar_applied := true; ar_corrections := corrections; ar_squadAdjustments := adjustments;
                   ar_leagueAdjustments := leagueAdjustments; ar_protectedLeagues := protectedLeagues |} in
  Ok (report, {| rd_gameweeks := rd_gameweeks db; rd_players := rd_players db; rd_fixtures := rd_fixtures db; rd_stats := stats;
                 rd_squads := squads; rd_scores := scores; rd_chips := rd_chips db; rd_leagues := rd_leagues db;
                 rd_members := members; rd_transactions := rd_transactions db;
                 rd_log := rd_log db ++ auditRows gameweekId report |}).

(** The state of the calculation is [read]; the transaction runs on [db]. *)
Definition applyCorrections (gameweekId : Z) (corrections : list StatCorrection) (read db : RetroDb) : result RetroError (AdjustmentReport * RetroDb) :=
  match corrections with
  | [] => Ok ({| ar_applied := false; ar_corrections := []; ar_squadAdjustments := []; ar_leagueAdjustments := []; ar_protectedLeagues := [] |}, db)
  | _ => apply_transaction gameweekId corrections (computeSquadAdjustments gameweekId corrections read) db
  end.

(** [detectAndApply] undisturbed. *)
Definition detectAndApply (gameweekId : Z) (feed : Z → list LiveElement) (db : RetroDb) : result RetroError (AdjustmentReport * RetroDb) :=
  let* corrections := detectStatCorrections gameweekId feed db in
  applyCorrections gameweekId corrections db db.

(** [notify]: one message to the owner of each adjusted squad, with its leagues. *)
Definition notify (r : AdjustmentReport) : list (string * SquadAdjustment * list LeagueMemberAdjustment) :=
  (λ a, (sa_userId a, a, List.filter (λ m, bool_decide (lma_userId m = sa_userId a) && bool_decide (lma_squadId m = sa_squadId a))
                           (ar_leagueAdjustments r))) <$> ar_squadAdjustments r.

(** ** Lemmas: what detection reads *)

Lemma lfilter_both {A} (p q : A → bool) l : List.filter p (List.filter q l) = List.filter (λ x, q x && p x) l.
Proof. induction l as [|x l IH]; [done|]. cbn. destruct (q x); cbn; by rewrite IH. Qed.

(** The last entry with a key wins. *)
Lemma map_of_get {K V} `{EqDecision K} (k : K) (l : list (K * V)) :
  map_get k (map_of l) = snd <$> last (List.filter (λ e, bool_decide (e.1 = k)) l).
Proof.
  induction l as [|[k' v] l IH] using rev_ind; [done|].
  unfold map_of. rewrite foldl_app. cbn [foldl]. fold (map_of l). rewrite map_get_set, IH, List.filter_app.
  cbn [List.filter fst]. destruct (decide (k = k')) as [->|Hk].
  - rewrite bool_decide_eq_true_2 by done. by rewrite last_snoc.
  - rewrite bool_decide_eq_false_2 by congruence. by rewrite app_nil_r.
Qed.

Definition co_key (c : StatCorrection) : Z * Z := (co_playerId c, co_fixtureId c).

Definition same_line (gameweekId : Z) (c : StatCorrection) (l : StatLine) : bool :=
  (sl_playerId l =? co_playerId c) && (sl_gameweekId l =? gameweekId) && (sl_fixtureId l =? co_fixtureId c).

Definition set_line (gameweekId : Z) (c : StatCorrection) (l : StatLine) : StatLine :=
  if same_line gameweekId c l then {| sl_playerId := sl_playerId l; sl_gameweekId := sl_gameweekId l;
    sl_fixtureId := sl_fixtureId l; sl_stats := co_next c; sl_other := sl_other l |} else l.

Definition new_line (gameweekId : Z) (c : StatCorrection) : StatLine :=
  {| sl_playerId := co_playerId c; sl_gameweekId := gameweekId; sl_fixtureId := co_fixtureId c;
     sl_stats := co_next c; sl_other := no_other_stats |}.

Lemma upsert_eq gameweekId ls c :
  upsert_stat gameweekId ls c =
  if existsb (same_line gameweekId c) ls then set_line gameweekId c <$> ls else ls ++ [new_line gameweekId c].
Proof. done. Qed.

Lemma same_line_iff gameweekId c l :
  same_line gameweekId c l = true ↔ of_gameweek gameweekId l = true ∧ stat_key l = co_key c.
Proof.
  unfold same_line, of_gameweek, stat_key, co_key. rewrite !andb_true_iff, !Z.eqb_eq. split.
  - by intros ((-> & ->) & ->).
  - by intros (-> & [= -> ->]).
Qed.

Lemma set_line_key gameweekId c l :
  stat_key (set_line gameweekId c l) = stat_key l ∧ of_gameweek gameweekId (set_line gameweekId c l) = of_gameweek gameweekId l.
Proof. unfold set_line. by destruct (same_line _ _ _). Qed.

Definition has_key (gameweekId : Z) (k : Z * Z) (l : StatLine) : bool := of_gameweek gameweekId l && bool_decide (stat_key l = k).

Lemma has_key_co gameweekId c l : has_key gameweekId (co_key c) l = same_line gameweekId c l.
Proof. apply eq_true_iff_eq. by rewrite same_line_iff, <- (bool_decide_eq_true (stat_key l = _)), <- andb_true_iff. Qed.

(** What is stored of a player and a fixture. *)
Definition stored_stats (gameweekId : Z) (ls : list StatLine) (k : Z * Z) : option PlayerStatSnapshot :=
  sl_stats <$> last (List.filter (has_key gameweekId k) ls).

Lemma stored_lines_get db gameweekId k : map_get k (stored_lines db gameweekId) = stored_stats gameweekId (rd_stats db) k.
Proof.
  unfold stored_lines, stored_stats. rewrite map_of_get, (lfilter_fmap _ _ (λ l, bool_decide (stat_key l = k))) by done.
  by rewrite lfilter_both, fmap_last, <- option_fmap_compose.
Qed.

Lemma stored_upsert gameweekId ls c k :
  stored_stats gameweekId (upsert_stat gameweekId ls c) k =
  if decide (k = co_key c) then Some (co_next c) else stored_stats gameweekId ls k.
Proof.
  unfold stored_stats. rewrite upsert_eq. destruct (existsb _ ls) eqn:X.
  - rewrite (lfilter_fmap _ _ (has_key gameweekId k)) by (intros l; unfold has_key; by destruct (set_line_key gameweekId c l) as [-> ->]).
    rewrite fmap_last, <- option_fmap_compose. destruct (decide (k = co_key c)) as [->|Hk].
    + rewrite (lfilter_ext _ (same_line gameweekId c)) by (intros; apply has_key_co).
      destruct (last _) as [l|] eqn:L; cbn.
      * apply last_Some_elem_of, elem_of_lfilter in L as [_ L]. unfold set_line. by rewrite L.
      * apply last_None in L. apply existsb_exists in X as (l & Hl & X).
        assert (l ∈ List.filter (same_line gameweekId c) ls) as Hin by (apply elem_of_lfilter; by rewrite list_elem_of_In).
        rewrite L in Hin. by apply elem_of_nil in Hin.
    + destruct (last _) as [l|] eqn:L; cbn; [|done].
      apply last_Some_elem_of, elem_of_lfilter in L as [_ (_ & L%bool_decide_eq_true_1)%andb_true_iff].
      unfold set_line. destruct (same_line _ _ _) eqn:S; [|done]. apply same_line_iff in S as [_ S]. congruence.
  - rewrite List.filter_app. cbn [List.filter]. unfold has_key at 2, of_gameweek, stat_key, co_key. cbn. rewrite Z.eqb_refl. cbn.
    destruct (decide (k = _)) as [->|Hk].
    + by rewrite bool_decide_eq_true_2, last_snoc by done.
    + by rewrite bool_decide_eq_false_2, app_nil_r by congruence.
Qed.

Lemma stored_upserts gameweekId cs k : ∀ ls,
  stored_stats gameweekId (foldl (upsert_stat gameweekId) ls cs) k =
  foldl (λ o c, if decide (k = co_key c) then Some (co_next c) else o) (stored_stats gameweekId ls k) cs.
Proof. induction cs as [|c cs IH]; intros ls; [done|]. cbn [foldl]. by rewrite IH, stored_upsert. Qed.

Lemma diffStats_same s : diffStats (Some s) s = [].
Proof. apply lfilter_nil. intros f _. cbn. by rewrite Z.eqb_refl. Qed.

Lemma correction_of_key stored x c : c ∈ correction_of stored x → co_key c = x.1.
Proof.
  unfold correction_of. destruct (diffStats _ _); [by intros ?%elem_of_nil|]. intros ->%list_elem_of_singleton. by destruct x as [[? ?] ?].
Qed.

Lemma correction_keys stored off c : c ∈ flat_map (correction_of stored) off → co_key c ∈ off.*1.
Proof.
  intros (x & Hx & Hc)%list_elem_of_In%in_flat_map. apply list_elem_of_fmap. exists x.
  split; [|by apply list_elem_of_In]. by eapply correction_of_key, list_elem_of_In.
Qed.

(** What the corrections of a feed leave of one of its lines. *)
Lemma upserts_of_feed stored k next off o :
  NoDup off.*1 → (k, next) ∈ off →
  foldl (λ o c, if decide (k = co_key c) then Some (co_next c) else o) o (flat_map (correction_of stored) off) =
  match diffStats (map_get k stored) next with [] => o | _ => Some next end.
Proof.
  assert (∀ o cs, k ∉ co_key <$> cs → foldl (λ o c, if decide (k = co_key c) then Some (co_next c) else o) o cs = o) as Hout.
  { clear. intros o cs. induction cs as [|c cs IH]; cbn; [done|]. intros [H1 H2]%not_elem_of_cons.
    rewrite decide_False by done. by apply IH. }
  revert o. induction off as [|[k' next'] off IH]; intros o Hn Hin; [by apply elem_of_nil in Hin|].
  cbn in Hn. apply NoDup_cons in Hn as [Hk' Hn]. cbn [flat_map]. rewrite foldl_app. apply elem_of_cons in Hin as [[= <- <-]|Hin].
  - rewrite Hout.
    + unfold correction_of. cbn [fst snd]. destruct (diffStats _ _); cbn; [done|].
      rewrite decide_True; [done|]. unfold co_key. cbn. by destruct k.
    + intros (c & -> & Hc)%list_elem_of_fmap. by apply correction_keys in Hc.
  - rewrite (Hout o (correction_of stored (k', next'))); [by apply IH|]. intros (c & -> & Hc)%list_elem_of_fmap. apply Hk'.
    apply correction_of_key in Hc. cbn in Hc. rewrite <- Hc. apply list_elem_of_fmap. by exists (co_key c, next).
Qed.

(** ** Lemmas: what a score reads *)

Definition same_stats (s1 s2 : StatsMap) (id : Z) : Prop :=
  minutes (stats_of s1 id) = minutes (stats_of s2 id) ∧ totalPoints (stats_of s1 id) = totalPoints (stats_of s2 id).

Lemma score_lineup_ext players s1 s2 chip cost :
  (∀ p, p ∈ players → same_stats s1 s2 (lp_playerId p)) → score_lineup players s1 chip cost = score_lineup players s2 chip cost.
Proof.
  intros H. assert (initial_store players s1 = initial_store players s2) as E.
  { unfold initial_store. assert (detail_of s1 <$> players = detail_of s2 <$> players) as ->; [|done].
    apply list_fmap_ext. intros i p Hp%list_elem_of_lookup_2. destruct (H p Hp) as [Hm Ht]. unfold detail_of. by rewrite Hm, Ht. }
  unfold score_lineup, final_lineup. by rewrite E.
Qed.

(** A lineup scores the same in whatever order its rows are read. *)
Lemma score_lineup_sorted players stats chip cost :
  score_lineup (sort_by (asc lp_positionOrder) players) stats chip cost = score_lineup players stats chip cost.
Proof.
  assert (initial_store (sort_by (asc lp_positionOrder) players) stats = initial_store players stats) as E.
  { unfold initial_store. assert (detail_of stats <$> sort_by (asc lp_positionOrder) players = sort_by by_order (detail_of stats <$> players)) as ->
      by (by rewrite sort_by_fmap).
    assert (Comparator by_order) by apply asc_comparator.
    rewrite !lfilter_sort_by by done. f_equal; apply sort_by_id, sort_by_sorted; done. }
  unfold score_lineup, final_lineup. by rewrite E.
Qed.

(** Adding up triples of player, minutes and points. *)
Definition tally_lines (lines : list ScoredLine) : StatsMap :=
  foldl (λ m '(playerId, mins, points),
    let current := default (plain_stats 0 0) (map_get playerId m) in
    map_set playerId (plain_stats (minutes current + mins) (totalPoints current + points)) m) [] lines.

Definition mins_of (e : ScoredLine) : Z := e.1.2.
Definition points_of (e : ScoredLine) : Z := e.2.
Definition lines_of (id : Z) (lines : list ScoredLine) : list ScoredLine := List.filter (λ e, e.1.1 =? id) lines.

Lemma tally_lines_snoc lines p m pts :
  let now := stats_of (tally_lines lines) p in
  tally_lines (lines ++ [(p, m, pts)]) = map_set p (plain_stats (minutes now + m) (totalPoints now + pts)) (tally_lines lines).
Proof. unfold tally_lines at 2. by rewrite foldl_app. Qed.

Lemma lines_of_snoc id lines e : lines_of id (lines ++ [e]) = lines_of id lines ++ (if e.1.1 =? id then [e] else []).
Proof. unfold lines_of. rewrite List.filter_app. done. Qed.

Lemma tally_lines_get id lines :
  minutes (stats_of (tally_lines lines) id) = sum_of mins_of (lines_of id lines) ∧
  totalPoints (stats_of (tally_lines lines) id) = sum_of points_of (lines_of id lines).
Proof.
  induction lines as [|[[p m] pts] lines [IH1 IH2]] using rev_ind; [done|].
  rewrite tally_lines_snoc, lines_of_snoc, !sum_of_app. cbn zeta. unfold stats_of at 1 4. rewrite map_get_set. cbn [fst].
  destruct (decide (id = p)) as [->|Hp].
  - rewrite Z.eqb_refl, !sum_of_cons. cbn [default from_option Datatypes.id minutes totalPoints plain_stats].
    change (mins_of (p, m, pts)) with m. change (points_of (p, m, pts)) with pts.
    rewrite IH1, IH2. cbn. change (sum_of mins_of []) with 0. change (sum_of points_of []) with 0. lia.
  - rewrite (proj2 (Z.eqb_neq p id)) by done. fold (stats_of (tally_lines lines) id). rewrite IH1, IH2. change (sum_of mins_of []) with 0. change (sum_of points_of []) with 0. lia.
Qed.

(** Two lists that agree on the lines of a player give it the same statistics. *)
Lemma tally_lines_same l1 l2 id : lines_of id l1 = lines_of id l2 → same_stats (tally_lines l1) (tally_lines l2) id.
Proof.
  intros E. unfold same_stats. destruct (tally_lines_get id l1) as [-> ->], (tally_lines_get id l2) as [-> ->]. by rewrite E.
Qed.

Lemma merge_is_tally rows :
  merge_stats rows = tally_lines ((λ r, (sr_playerId r, minutes (sr_stats r), totalPoints (sr_stats r))) <$> rows).
Proof.
  unfold merge_stats, tally_lines. generalize ([] : StatsMap). induction rows as [|r rows IH]; intros m; [done|].
  cbn [fmap list_fmap foldl]. rewrite <- IH. f_equal. by destruct (map_get _ m).
Qed.

(** ** Lemmas: the lines before and after a correction *)

(** [@@unique([playerId, gameweekId, fixtureId])]. *)
Definition line_key (l : StatLine) : Z * Z * Z := (sl_playerId l, sl_gameweekId l, sl_fixtureId l).

Definition of_player (gameweekId id : Z) (l : StatLine) : bool := of_gameweek gameweekId l && (sl_playerId l =? id).

Definition player_rows (gameweekId id : Z) (ls : list StatLine) : list ((Z * Z) * ScoredLine) :=
  scored <$> List.filter (of_player gameweekId id) ls.

Lemma upsert_keys gameweekId c ls : NoDup (line_key <$> ls) → NoDup (line_key <$> upsert_stat gameweekId ls c).
Proof.
  intros H. rewrite upsert_eq. destruct (existsb _ ls) eqn:X.
  - rewrite <- list_fmap_compose, (list_fmap_ext _ line_key ls); [done|]. intros i l _. cbn. unfold set_line. by destruct (same_line _ _ _).
  - rewrite fmap_app. apply NoDup_snoc; [done|]. intros (l & E & Hl)%list_elem_of_fmap.
    assert (existsb (same_line gameweekId c) ls = true); [|congruence]. apply existsb_exists. exists l.
    split; [by apply list_elem_of_In|]. apply same_line_iff. unfold line_key in E. cbn in E. injection E as E1 E2 E3.
    unfold of_gameweek, stat_key, co_key. rewrite E1, E2, E3, Z.eqb_refl. done.
Qed.

Lemma player_rows_keys gameweekId id ls : NoDup (line_key <$> ls) → NoDup (stat_key <$> List.filter (of_player gameweekId id) ls).
Proof.
  intros H. apply (NoDup_fmap_lfilter _ (of_player gameweekId id)) in H. revert H.
  assert (∀ l, l ∈ List.filter (of_player gameweekId id) ls → sl_gameweekId l = gameweekId) as Hg.
  { intros l (_ & (H%Z.eqb_eq & _)%andb_true_iff)%elem_of_lfilter. done. }
  revert Hg. generalize (List.filter (of_player gameweekId id) ls) as F. intros F Hg H.
  apply (NoDup_fmap_1 (λ k : Z * Z, (k.1, gameweekId, k.2))). rewrite <- list_fmap_compose.
  rewrite (list_fmap_ext _ line_key F); [done|]. intros i l Hl. cbn. unfold line_key. by rewrite (Hg l) by by eapply list_elem_of_lookup_2.
Qed.

Lemma set_rows gameweekId c F :
  NoDup (stat_key <$> F) → (∀ l, l ∈ F → of_gameweek gameweekId l = true) → co_key c ∈ stat_key <$> F →
  scored <$> (set_line gameweekId c <$> F) = map_set (corrected_line c).1 (corrected_line c).2 (scored <$> F).
Proof.
  induction F as [|l F IH]; intros Hn Hg Hin; [by apply elem_of_nil in Hin|]. cbn [fmap list_fmap] in *.
  apply NoDup_cons in Hn as [Hl Hn]. cbn [map_set]. unfold corrected_line at 1. cbn [fst]. fold (co_key c).
  assert (set_line gameweekId c l = l ∨ stat_key l = co_key c) as Hset.
  { unfold set_line. destruct (same_line _ c l) eqn:S; [|by left]. right. by apply same_line_iff in S as []. }
  unfold scored at 1 3. cbn [fst]. destruct (set_line_key gameweekId c l) as [-> _]. case_decide as E.
  - f_equal.
    + rewrite <- E. f_equal. unfold set_line. rewrite (proj2 (same_line_iff gameweekId c l)) by (split; [apply Hg; by left|done]).
      unfold corrected_line. cbn. unfold stat_key, co_key in E. by injection E as -> _.
    + f_equal. rewrite <- (list_fmap_id F) at 2. apply list_fmap_ext. intros i l' Hl'. cbn. unfold set_line.
      destruct (same_line gameweekId c l') eqn:S; [|done]. apply same_line_iff in S as [_ S]. exfalso. apply Hl.
      rewrite <- E, <- S. apply list_elem_of_fmap_2. by eapply list_elem_of_lookup_2.
  - destruct Hset as [->|?]; [|congruence]. f_equal. apply elem_of_cons in Hin as [?|Hin]; [congruence|].
    apply IH; [done| |done]. intros l' Hl'. apply Hg. by right.
Qed.

Lemma player_rows_upsert gameweekId id c ls :
  NoDup (line_key <$> ls) →
  player_rows gameweekId id (upsert_stat gameweekId ls c) =
  if co_playerId c =? id then map_set (corrected_line c).1 (corrected_line c).2 (player_rows gameweekId id ls) else player_rows gameweekId id ls.
Proof.
  intros Hn. unfold player_rows. rewrite upsert_eq. destruct (existsb _ ls) eqn:X.
  - rewrite (lfilter_fmap _ _ (of_player gameweekId id)) by (intros l; unfold set_line; by destruct (same_line _ _ _)).
    destruct (Z.eqb_spec (co_playerId c) id) as [Hid|Hid].
    + apply set_rows; [by apply player_rows_keys| |].
      * intros l (_ & (H & _)%andb_true_iff)%elem_of_lfilter. done.
      * apply existsb_exists in X as (l & Hl%list_elem_of_In & S). apply same_line_iff in S as [S1 S2]. rewrite <- S2.
        apply list_elem_of_fmap_2, elem_of_lfilter. split; [done|]. unfold of_player. rewrite S1. unfold stat_key, co_key in S2.
        injection S2 as -> _. by apply Z.eqb_eq.
    + f_equal. rewrite <- list_fmap_id. apply list_fmap_ext. intros i l Hl%list_elem_of_lookup_2. cbn. unfold set_line.
      destruct (same_line gameweekId c l) eqn:S; [|done]. apply same_line_iff in S as [_ S]. unfold stat_key, co_key in S. injection S as S _.
      apply elem_of_lfilter in Hl as (_ & (_ & H%Z.eqb_eq)%andb_true_iff). congruence.
  - rewrite List.filter_app, fmap_app. cbn [List.filter]. unfold of_player at 2, of_gameweek. cbn [new_line sl_playerId sl_gameweekId].
    rewrite Z.eqb_refl. cbn [andb]. destruct (co_playerId c =? id); [|apply app_nil_r].
    rewrite map_set_absent; [done|]. rewrite <- list_fmap_compose. intros (l & E & Hl)%list_elem_of_fmap.
    apply elem_of_lfilter in Hl as (Hl & (H & _)%andb_true_iff).
    assert (existsb (same_line gameweekId c) ls = true); [|congruence]. apply existsb_exists. exists l.
    split; [by apply list_elem_of_In|]. apply same_line_iff. split; [done|]. symmetry. exact E.
Qed.

Lemma lfilter_map_set {K V} `{EqDecision K} (P : K → bool) k (v : V) m :
  List.filter (λ e, P e.1) (map_set k v m) =
  if P k then map_set k v (List.filter (λ e, P e.1) m) else List.filter (λ e, P e.1) m.
Proof.
  induction m as [|[k' v'] m IH]; cbn; [by destruct (P k)|]. case_decide as E.
  - subst k'. cbn. destruct (P k); cbn; [by rewrite decide_True|done].
  - cbn. rewrite IH. destruct (P k'), (P k); cbn; by rewrite ?decide_False by done.
Qed.

Definition keyed (id : Z) (m : list ((Z * Z) * ScoredLine)) : list ((Z * Z) * ScoredLine) := List.filter (λ e, e.1.1 =? id) m.

(** Entries are kept under the player they are about. *)
Definition own_entries (m : list ((Z * Z) * ScoredLine)) : Prop := ∀ e, e ∈ m → e.1.1 = e.2.1.1.

Lemma keyed_lines id m : own_entries m → lines_of id (map_values m) = (keyed id m).*2.
Proof.
  intros H. unfold lines_of, map_values, keyed.
  etrans; [by apply (lfilter_fmap (A := (Z * Z) * ScoredLine) snd _ (λ e, e.2.1.1 =? id))|].
  f_equal. apply lfilter_ext. intros e He. specialize (H e He). destruct e as [[p f] [[p' m'] t']]. cbn in *. by rewrite H.
Qed.

Lemma keyed_new_lines gameweekId id cs : ∀ m ls,
  NoDup (line_key <$> ls) → keyed id m = player_rows gameweekId id ls →
  keyed id (new_lines m cs) = player_rows gameweekId id (foldl (upsert_stat gameweekId) ls cs).
Proof.
  induction cs as [|c cs IH]; intros m ls Hn E; [done|]. unfold new_lines. cbn [foldl]. apply IH; [by apply upsert_keys|].
  unfold keyed. rewrite (lfilter_map_set (λ k : Z * Z, k.1 =? id)), player_rows_upsert by done. fold (keyed id m). by rewrite E.
Qed.

Lemma own_new_lines cs : ∀ m, own_entries m → own_entries (new_lines m cs).
Proof.
  induction cs as [|c cs IH]; intros m H; [done|]. unfold new_lines. cbn [foldl]. apply IH.
  intros e [->|He]%elem_of_map_set; [done|by apply H].
Qed.

Section old_lines.
Context (db : RetroDb) (gameweekId : Z) (ids : list Z) (Hn : NoDup (line_key <$> rd_stats db)).

Lemma old_lines_eq :
  old_lines db gameweekId ids = scored <$> List.filter (λ l, of_gameweek gameweekId l && bool_decide (sl_playerId l ∈ ids)) (rd_stats db).
Proof.
  unfold old_lines, map_of. set (F := List.filter _ (rd_stats db)).
  assert (NoDup (stat_key <$> F)) as Hk.
  { apply (NoDup_fmap_1 (λ k : Z * Z, (k.1, gameweekId, k.2))). rewrite <- list_fmap_compose.
    rewrite (list_fmap_ext _ line_key F); [by apply NoDup_fmap_lfilter|]. intros i l Hl%list_elem_of_lookup_2. cbn.
    apply elem_of_lfilter in Hl as (_ & (H%Z.eqb_eq & _)%andb_true_iff). unfold line_key. by rewrite H. }
  rewrite foldl_fmap. exact (map_of_entries stat_key (λ l, (scored l).2) F [] Hk).
Qed.

Lemma own_old_lines : own_entries (old_lines db gameweekId ids).
Proof. rewrite old_lines_eq. by intros e (l & -> & _)%list_elem_of_fmap. Qed.

Lemma keyed_old_lines id : id ∈ ids → keyed id (old_lines db gameweekId ids) = player_rows gameweekId id (rd_stats db).
Proof.
  intros Hid. rewrite old_lines_eq. unfold keyed, player_rows.
  rewrite (lfilter_fmap scored _ (λ l, sl_playerId l =? id)), lfilter_both by done. f_equal.
  apply lfilter_ext. intros l _. unfold of_player. destruct (Z.eqb_spec (sl_playerId l) id) as [->|]; [|by rewrite !andb_false_r].
  by rewrite bool_decide_eq_true_2, andb_true_r.
Qed.
End old_lines.

(** The tables as [scoringService.ts] reads them. *)
Definition scoring_row (l : StatLine) : StatsRow :=
  {| sr_playerId := sl_playerId l; sr_gameweekId := sl_gameweekId l;
     sr_stats := {| minutes := ps_minutes (sl_stats l); totalPoints := ps_totalPoints (sl_stats l);
       st_goals := Some (ps_goals (sl_stats l)); st_assists := Some (ps_assists (sl_stats l));
       st_cleanSheet := ps_cleanSheet (sl_stats l); st_goalsConceded := Some (os_goalsConceded (sl_other l));
       st_saves := Some (ps_saves (sl_stats l)); st_penaltiesSaved := Some (os_penaltiesSaved (sl_other l));
       st_penaltiesMissed := Some (os_penaltiesMissed (sl_other l)); st_yellowCards := Some (ps_yellowCards (sl_stats l));
       st_redCards := Some (ps_redCards (sl_stats l)); st_ownGoals := Some (os_ownGoals (sl_other l));
       st_bonus := Some (ps_bonus (sl_stats l)) |} |}.

Definition scoring_view (db : RetroDb) : ScoringDb :=
  {| squads := (λ '(id, q), (id, {| sq_players := rq_players q; sq_totalPoints := rq_totalPoints q |})) <$> rd_squads db;
     playerGameweekStats := scoring_row <$> rd_stats db; squadChipUsage := rd_chips db;
     squadGameweekScore := rd_scores db; leagueGameweekScore := [] |}.

Lemma lines_of_found db gameweekId ids id : id ∈ ids →
  lines_of id ((λ r, (sr_playerId r, minutes (sr_stats r), totalPoints (sr_stats r))) <$> find_stats (scoring_view db) gameweekId ids)
  = (player_rows gameweekId id (rd_stats db)).*2.
Proof.
  intros Hid. unfold lines_of, find_stats, player_rows. cbn [playerGameweekStats scoring_view].
  rewrite (lfilter_fmap _ _ (λ r, sr_playerId r =? id)) by done. rewrite lfilter_both.
  rewrite (lfilter_fmap scoring_row _ (of_player gameweekId id)); [by rewrite <- !list_fmap_compose|].
  intros l. cbn. unfold of_player, of_gameweek. destruct (Z.eqb_spec (sl_playerId l) id) as [->|]; [|by rewrite !andb_false_r].
  by rewrite bool_decide_eq_true_2, andb_true_r.
Qed.

(** The statistics of the service and those of a new calculation. *)
Lemma old_stats_same db gameweekId ids ids' id :
  NoDup (line_key <$> rd_stats db) → id ∈ ids → id ∈ ids' →
  same_stats (aggregate (old_lines db gameweekId ids)) (merge_stats (find_stats (scoring_view db) gameweekId ids')) id.
Proof.
  intros Hn H1 H2. rewrite merge_is_tally. apply tally_lines_same.
  by rewrite lines_of_found, keyed_lines, keyed_old_lines by (done || by apply own_old_lines).
Qed.

Lemma new_stats_same db db' gameweekId cs ids ids' id :
  NoDup (line_key <$> rd_stats db) → rd_stats db' = foldl (upsert_stat gameweekId) (rd_stats db) cs → id ∈ ids → id ∈ ids' →
  same_stats (aggregate (new_lines (old_lines db gameweekId ids) cs)) (merge_stats (find_stats (scoring_view db') gameweekId ids')) id.
Proof.
  intros Hn E H1 H2. rewrite merge_is_tally. apply tally_lines_same.
  rewrite lines_of_found, keyed_lines by (done || by apply own_new_lines, own_old_lines). f_equal. rewrite E.
  apply keyed_new_lines; [done|]. by apply keyed_old_lines.
Qed.

Lemma uncorrected_same db db' gameweekId cs ids id :
  NoDup (line_key <$> rd_stats db) → rd_stats db' = foldl (upsert_stat gameweekId) (rd_stats db) cs →
  id ∈ ids → id ∉ co_playerId <$> cs →
  same_stats (merge_stats (find_stats (scoring_view db) gameweekId ids)) (merge_stats (find_stats (scoring_view db') gameweekId ids)) id.
Proof.
  intros Hn E H1 H2. rewrite !merge_is_tally. apply tally_lines_same. rewrite !lines_of_found by done. f_equal. rewrite E. clear E.
  revert Hn H2. generalize (rd_stats db). induction cs as [|c cs IH]; intros ls Hn H2; [done|].
  cbn in H2. apply not_elem_of_cons in H2 as [Hc H2]. cbn [foldl]. rewrite <- IH by (done || by apply upsert_keys).
  rewrite player_rows_upsert by done. by rewrite (proj2 (Z.eqb_neq _ _)) by congruence.
Qed.

(** ** Lemmas: the adjustments of the squads *)

Lemma flat_map_sublist {A B K} (g : B → K) (f : K * A → list B) l :
  (∀ x, g <$> f x = [] ∨ g <$> f x = [x.1]) → (g <$> flat_map f l) `sublist_of` l.*1.
Proof.
  intros H. induction l as [|x l IH]; [done|]. cbn. rewrite fmap_app. destruct (H x) as [-> | ->]; cbn; by constructor.
Qed.

Section adjustments.
Context (gameweekId : Z) (cs : list StatCorrection) (db : RetroDb).

Definition affected_players : list Z := lp_playerId <$> flat_map (λ s, rq_players s.2) (affected_squads db gameweekId cs).
Definition stats_before : StatsMap := aggregate (old_lines db gameweekId affected_players).
Definition stats_after : StatsMap := aggregate (new_lines (old_lines db gameweekId affected_players) cs).

Definition score_with (stats : StatsMap) (id : string) (q : RetroSquad) (stored : GameweekScore) : LineupScore :=
  score_lineup (rq_players q) stats (chip_of db id gameweekId) (Some (gs_transferCost stored)).

Definition owns_corrected (q : RetroSquad) : bool :=
  existsb (λ p, bool_decide (lp_playerId p ∈ co_playerId <$> cs)) (rq_players q).

Lemma affected_elem id q :
  (id, q) ∈ affected_squads db gameweekId cs ↔
  (id, q) ∈ rd_squads db ∧ owns_corrected q = true ∧ is_Some (map_get (id, gameweekId) (rd_scores db)).
Proof. unfold affected_squads. rewrite elem_of_lfilter, andb_true_iff. unfold map_has. by rewrite bool_decide_eq_true. Qed.

Definition adjusts (a : SquadAdjustment) (id : string) (q : RetroSquad) (stored : GameweekScore) : Prop :=
  sa_squadId a = id ∧ sa_userId a = rq_userId q ∧ sa_previousPoints a = gs_points stored ∧
  sa_delta a = total (score_with stats_after id q stored) - total (score_with stats_before id q stored) ∧
  sa_newPoints a = gs_points stored + sa_delta a ∧
  sa_captainPoints a = captainPoints (score_with stats_after id q stored) ∧
  sa_benchPoints a = benchPoints (score_with stats_after id q stored).

Lemma adjustment_elem a : a ∈ computeSquadAdjustments gameweekId cs db →
  ∃ q stored, (sa_squadId a, q) ∈ rd_squads db ∧ owns_corrected q = true ∧
    map_get (sa_squadId a, gameweekId) (rd_scores db) = Some stored ∧ adjusts a (sa_squadId a) q stored ∧ sa_delta a ≠ 0.
Proof.
  unfold computeSquadAdjustments. fold affected_players. fold stats_before stats_after.
  intros ([id q] & Hq & Ha)%list_elem_of_In%in_flat_map. apply list_elem_of_In, affected_elem in Hq as (Hq & Ho & stored & Hs).
  unfold squad_adjustment in Ha. rewrite Hs in Ha. cbn zeta in Ha. destruct (_ =? 0) eqn:E in Ha; [done|]. apply Z.eqb_neq in E.
  destruct Ha as [<-|[]]. cbn. by exists q, stored.
Qed.

Lemma adjustment_made id q stored :
  (id, q) ∈ rd_squads db → owns_corrected q = true → map_get (id, gameweekId) (rd_scores db) = Some stored →
  total (score_with stats_after id q stored) ≠ total (score_with stats_before id q stored) →
  id ∈ sa_squadId <$> computeSquadAdjustments gameweekId cs db.
Proof.
  intros Hq Ho Hs Hd. unfold computeSquadAdjustments. fold affected_players. fold stats_before stats_after.
  assert (∃ a, sa_squadId a = id ∧ a ∈ squad_adjustment db gameweekId (co_playerId <$> cs) stats_before stats_after (id, q)) as (a & <- & Ha).
  { unfold squad_adjustment. rewrite Hs. rewrite (proj2 (Z.eqb_neq _ 0)); [|unfold score_with in Hd; lia]. eexists. split; [|by left]. done. }
  apply list_elem_of_fmap_2, list_elem_of_In, in_flat_map. exists (sa_squadId a, q). split; [|by apply list_elem_of_In].
  apply list_elem_of_In, affected_elem. eauto.
Qed.

Lemma adjustment_ids : NoDup (rd_squads db).*1 → NoDup (sa_squadId <$> computeSquadAdjustments gameweekId cs db).
Proof.
  intros Hn. assert (NoDup (affected_squads db gameweekId cs).*1) as Ha by by apply NoDup_fmap_lfilter.
  refine (sublist_NoDup _ _ Ha _). apply flat_map_sublist.
  intros [id q]. unfold squad_adjustment. destruct (map_get _ _); [|by left]. cbn zeta. destruct (_ =? 0); [by left|by right].
Qed.
End adjustments.

(** The conditional updates of a run. *)
Definition scores_hold (gameweekId : Z) (scores : list ((string * Z) * GameweekScore)) (sq : list (string * RetroSquad)) (a : SquadAdjustment) : Prop :=
  ∃ stored q, map_get (sa_squadId a, gameweekId) scores = Some stored ∧ gs_points stored = sa_previousPoints a ∧
    map_get (sa_squadId a) sq = Some q.

Definition adjusted_score (a : SquadAdjustment) (stored : GameweekScore) : GameweekScore :=
  {| gs_points := sa_newPoints a; gs_benchPoints := sa_benchPoints a; gs_captainPoints := sa_captainPoints a;
     gs_transferCost := gs_transferCost stored |}.

Definition adjusted_squad (a : SquadAdjustment) (q : RetroSquad) : RetroSquad :=
  {| rq_userId := rq_userId q; rq_players := rq_players q; rq_totalPoints := rq_totalPoints q + sa_delta a |}.

(** The adjustment of a squad, if any. *)
Definition adjustment_for (id : string) (adjustments : list SquadAdjustment) : option SquadAdjustment :=
  List.find (λ a, bool_decide (sa_squadId a = id)) adjustments.

Lemma apply_squad_ok gameweekId scores sq a :
  scores_hold gameweekId scores sq a →
  ∃ stored q, map_get (sa_squadId a, gameweekId) scores = Some stored ∧ map_get (sa_squadId a) sq = Some q ∧
    apply_squad gameweekId (scores, sq) a =
    Ok (map_set (sa_squadId a, gameweekId) (adjusted_score a stored) scores, map_set (sa_squadId a) (adjusted_squad a q) sq).
Proof.
  intros (stored & q & Hs & Hp & Hq). exists stored, q. split_and!; [done..|]. unfold apply_squad. rewrite Hs, Hp, Z.eqb_refl, Hq. done.
Qed.

Lemma apply_squad_fails gameweekId scores sq a :
  ¬ scores_hold gameweekId scores sq a → ∃ e, apply_squad gameweekId (scores, sq) a = Err e.
Proof.
  intros H. unfold apply_squad. destruct (map_get _ scores) as [stored|] eqn:Hs; [|by eexists].
  destruct (Z.eqb_spec (gs_points stored) (sa_previousPoints a)) as [Hp|]; [|by eexists].
  destruct (map_get _ sq) as [q|] eqn:Hq; [|by eexists]. destruct H. by exists stored, q.
Qed.

Lemma map_keys_set {V} (k : string) (v : V) m : is_Some (map_get k m) → (map_set k v m).*1 = m.*1.
Proof.
  intros [v' Hv]. rewrite map_set_keys. rewrite decide_True; [done|]. apply map_get_elem in Hv. apply list_elem_of_fmap. by exists (k, v').
Qed.

Lemma scores_hold_set gameweekId scores sq a a' stored q :
  sa_squadId a' ≠ sa_squadId a →
  scores_hold gameweekId (map_set (sa_squadId a, gameweekId) stored scores) (map_set (sa_squadId a) q sq) a' ↔ scores_hold gameweekId scores sq a'.
Proof. intros H. unfold scores_hold. by rewrite !map_get_set_ne by congruence. Qed.

Lemma apply_squads_total gameweekId adjustments : ∀ scores sq,
  NoDup (sa_squadId <$> adjustments) →
  (is_ok (mfoldl (apply_squad gameweekId) (scores, sq) adjustments) = true ↔ ∀ a, a ∈ adjustments → scores_hold gameweekId scores sq a).
Proof.
  induction adjustments as [|a adjustments IH]; intros scores sq Hn; [split; [intros _ a ?%elem_of_nil|]; done|].
  cbn in Hn. apply NoDup_cons in Hn as [Ha Hn]. cbn [mfoldl].
  assert (scores_hold gameweekId scores sq a ∨ ¬ scores_hold gameweekId scores sq a) as [H|H].
  { unfold scores_hold. destruct (map_get _ scores) as [stored|]; [|right; naive_solver].
    destruct (decide (gs_points stored = sa_previousPoints a)); [|right; naive_solver].
    destruct (map_get _ sq); [left|right]; naive_solver. }
  - destruct (apply_squad_ok _ _ _ _ H) as (stored & q & _ & _ & ->). cbn [rbind]. rewrite IH by done. split.
    + intros Hall a' [->|Ha']%elem_of_cons; [done|]. eapply scores_hold_set; [|by apply Hall].
      intros E. apply Ha. rewrite <- E. by apply list_elem_of_fmap_2.
    + intros Hall a' Ha'. apply scores_hold_set; [|apply Hall; by right]. intros E. apply Ha. rewrite <- E. by apply list_elem_of_fmap_2.
  - destruct (apply_squad_fails _ _ _ _ H) as (e & ->). cbn. split; [done|]. intros Hall. destruct H. apply Hall. by left.
Qed.

Lemma adjustment_for_cons a adjustments id :
  adjustment_for id (a :: adjustments) = if decide (sa_squadId a = id) then Some a else adjustment_for id adjustments.
Proof. unfold adjustment_for. cbn. by case_decide; case_bool_decide. Qed.

Lemma adjustment_for_absent adjustments id : id ∉ sa_squadId <$> adjustments → adjustment_for id adjustments = None.
Proof.
  intros H. destruct (adjustment_for id adjustments) as [a|] eqn:E; [|done]. apply find_elem in E as [Ha <-%bool_decide_eq_true_1].
  destruct H. by apply list_elem_of_fmap_2.
Qed.

Lemma apply_squads_result gameweekId adjustments : ∀ scores sq scores' sq',
  NoDup (sa_squadId <$> adjustments) →
  mfoldl (apply_squad gameweekId) (scores, sq) adjustments = Ok (scores', sq') →
  sq'.*1 = sq.*1 ∧
  (∀ id gw, map_get (id, gw) scores' =
     match adjustment_for id adjustments with
     | Some a => if decide (gw = gameweekId) then adjusted_score a <$> map_get (id, gw) scores else map_get (id, gw) scores
     | None => map_get (id, gw) scores
     end) ∧
  (∀ id, map_get id sq' =
     match adjustment_for id adjustments with Some a => adjusted_squad a <$> map_get id sq | None => map_get id sq end).
Proof.
  induction adjustments as [|a adjustments IH]; intros scores sq scores' sq' Hn E; [by injection E as <- <-|].
  cbn in Hn. apply NoDup_cons in Hn as [Ha Hn]. cbn [mfoldl] in E. apply bind_ok in E as ([scores1 sq1] & E1 & E2).
  assert (∃ stored q, map_get (sa_squadId a, gameweekId) scores = Some stored ∧ map_get (sa_squadId a) sq = Some q ∧
    scores1 = map_set (sa_squadId a, gameweekId) (adjusted_score a stored) scores ∧ sq1 = map_set (sa_squadId a) (adjusted_squad a q) sq)
    as (stored & q & Hs & Hq & -> & ->).
  { unfold apply_squad in E1. destruct (map_get _ scores) as [stored|]; [|done]. destruct (negb _); [done|].
    destruct (map_get _ sq) as [q|]; [|done]. injection E1 as <- <-. by exists stored, q. }
  apply IH in E2 as (H1 & H2 & H3); [|done]. split_and!.
  - rewrite H1. by apply map_keys_set; rewrite Hq.
  - intros id gw. rewrite H2, adjustment_for_cons. destruct (decide (sa_squadId a = id)) as [D|D].
    + subst id. rewrite adjustment_for_absent by done. rewrite map_get_set. case_decide as D2.
      * injection D2 as ->. by rewrite decide_True, Hs.
      * by rewrite decide_False by congruence.
    + by rewrite !map_get_set_ne by congruence.
  - intros id. rewrite H3, adjustment_for_cons. destruct (decide (sa_squadId a = id)) as [D|D].
    + subst id. by rewrite adjustment_for_absent, map_get_set_eq, Hq by done.
    + by rewrite !map_get_set_ne by congruence.
Qed.

(** What a committed run leaves. *)
Record committed (gameweekId : Z) (cs : list StatCorrection) (adjustments : list SquadAdjustment) (db : RetroDb)
    (report : AdjustmentReport) (db' : RetroDb) : Prop := {
  cm_scores : mfoldl (apply_squad gameweekId) (rd_scores db, rd_squads db) adjustments = Ok (rd_scores db', rd_squads db');
  cm_stats : rd_stats db' = foldl (upsert_stat gameweekId) (rd_stats db) cs;
  cm_leagues : adjustLeagues gameweekId adjustments db = (rd_members db', ar_leagueAdjustments report, ar_protectedLeagues report);
  cm_squadAdjustments : ar_squadAdjustments report = adjustments;
  cm_gameweeks : rd_gameweeks db' = rd_gameweeks db;
  cm_players : rd_players db' = rd_players db;
  cm_fixtures : rd_fixtures db' = rd_fixtures db;
  cm_chips : rd_chips db' = rd_chips db;
  cm_league_rows : rd_leagues db' = rd_leagues db ∧ rd_transactions db' = rd_transactions db
}.

Lemma transaction_committed gameweekId cs adjustments db report db' :
  apply_transaction gameweekId cs adjustments db = Ok (report, db') → committed gameweekId cs adjustments db report db'.
Proof.
  unfold apply_transaction. intros ([scores sq] & E & H)%bind_ok.
  destruct (adjustLeagues gameweekId adjustments db) as [[members la] pl] eqn:L. injection H as <- <-.
  by constructor; cbn; rewrite ?E, ?L.
Qed.

Lemma apply_committed gameweekId cs read db report db' :
  applyCorrections gameweekId cs read db = Ok (report, db') →
  (cs = [] ∧ db' = db ∧ ar_squadAdjustments report = [] ∧ ar_leagueAdjustments report = [] ∧ ar_protectedLeagues report = []) ∨
  committed gameweekId cs (computeSquadAdjustments gameweekId cs read) db report db'.
Proof.
  destruct cs as [|c cs]; [intros [= <- <-]; by left|]. intros H. right. by apply transaction_committed.
Qed.

(** ** Lemmas: stored scores are those of a new calculation *)

(** What [calculateAndPersistSquadScore] would store. *)
Definition recalculated (gameweekId : Z) (db : RetroDb) (id : string) : option Z :=
  match calculateAndPersistSquadScore id gameweekId (scoring_view db) with Ok (r, _) => Some (total r) | Err _ => None end.

Lemma map_get_fmap {K V W} `{EqDecision K} (f : V → W) (k : K) m :
  map_get k ((λ '(k, v), (k, f v)) <$> m) = f <$> map_get k m.
Proof. induction m as [|[k' v] m IH]; cbn; [done|]. by destruct (decide (k = k')). Qed.

Lemma recalculated_eq gameweekId db id q stored :
  map_get id (rd_squads db) = Some q → map_get (id, gameweekId) (rd_scores db) = Some stored →
  recalculated gameweekId db id =
  Some (total (score_with gameweekId db (merge_stats (find_stats (scoring_view db) gameweekId (lp_playerId <$> sort_by (asc lp_positionOrder) (rq_players q)))) id q stored)).
Proof.
  intros Hq Hs. unfold recalculated, calculateAndPersistSquadScore. cbn [squads scoring_view].
  rewrite (map_get_fmap (λ q, {| sq_players := rq_players q; sq_totalPoints := rq_totalPoints q |})), Hq. cbn [fmap option_fmap option_map or_throw rbind].
  unfold squad_players. cbn [sq_players]. rewrite score_lineup_sorted. unfold score_with, stored_cost. cbn [squadGameweekScore scoring_view].
  rewrite Hs. done.
Qed.

(** The statistics lines have their unique key, and the squads theirs. *)
Record well_keyed (db : RetroDb) : Prop := {
  wk_lines : NoDup (line_key <$> rd_stats db);
  wk_squads : NoDup (rd_squads db).*1
}.

Lemma upserts_keys gameweekId cs : ∀ ls, NoDup (line_key <$> ls) → NoDup (line_key <$> foldl (upsert_stat gameweekId) ls cs).
Proof. induction cs as [|c cs IH]; intros ls H; [done|]. cbn. by apply IH, upsert_keys. Qed.

Lemma score_with_ext gameweekId db s1 s2 id q stored :
  (∀ p, p ∈ rq_players q → same_stats s1 s2 (lp_playerId p)) → score_with gameweekId db s1 id q stored = score_with gameweekId db s2 id q stored.
Proof. intros H. by apply score_lineup_ext. Qed.

Lemma sorted_player p q : p ∈ rq_players q → lp_playerId p ∈ lp_playerId <$> sort_by (asc lp_positionOrder) (rq_players q).
Proof. intros H. apply list_elem_of_fmap_2. by rewrite elem_of_sort_by. Qed.

Lemma affected_player gameweekId cs db id q p :
  (id, q) ∈ affected_squads db gameweekId cs → p ∈ rq_players q → lp_playerId p ∈ affected_players gameweekId cs db.
Proof.
  intros Hq Hp. unfold affected_players. apply list_elem_of_fmap_2, list_elem_of_In, in_flat_map. exists (id, q).
  split; by apply list_elem_of_In.
Qed.

(** What a new calculation gives for the lineup [q] of a squad. *)
Definition calculated (gameweekId : Z) (db : RetroDb) (id : string) (q : RetroSquad) (stored : GameweekScore) : Z :=
  total (score_with gameweekId db (merge_stats (find_stats (scoring_view db) gameweekId
    (lp_playerId <$> sort_by (asc lp_positionOrder) (rq_players q)))) id q stored).

(** A squad is adjusted by what the corrections change in a new calculation. *)
Lemma adjusted_points gameweekId cs db db' id q stored :
  well_keyed db → rd_stats db' = foldl (upsert_stat gameweekId) (rd_stats db) cs → rd_chips db' = rd_chips db →
  map_get id (rd_squads db) = Some q → map_get (id, gameweekId) (rd_scores db) = Some stored →
  calculated gameweekId db' id q stored = calculated gameweekId db id q stored +
  match adjustment_for id (computeSquadAdjustments gameweekId cs db) with Some a => sa_delta a | None => 0 end.
Proof.
  intros [Hl Hsq] E Ec Hq Hs. unfold calculated.
  assert (∀ s, score_with gameweekId db' s id q stored = score_with gameweekId db s id q stored) as Echip
    by (intros s; unfold score_with, chip_of; by rewrite Ec). rewrite Echip.
  assert ((id, q) ∈ rd_squads db) as Hin by by apply map_get_elem.
  destruct (owns_corrected cs q) eqn:Ho.
  - assert ((id, q) ∈ affected_squads db gameweekId cs) as Ha by (apply affected_elem; eauto).
    assert (score_with gameweekId db (stats_before gameweekId cs db) id q stored = score_with gameweekId db
      (merge_stats (find_stats (scoring_view db) gameweekId (lp_playerId <$> sort_by (asc lp_positionOrder) (rq_players q)))) id q stored) as Eb.
    { apply score_with_ext. intros p Hp. apply old_stats_same; [done|by eapply affected_player|by apply sorted_player]. }
    assert (score_with gameweekId db (stats_after gameweekId cs db) id q stored = score_with gameweekId db
      (merge_stats (find_stats (scoring_view db') gameweekId (lp_playerId <$> sort_by (asc lp_positionOrder) (rq_players q)))) id q stored) as <-.
    { apply score_with_ext. intros p Hp. apply new_stats_same; [done|done|by eapply affected_player|by apply sorted_player]. }
    destruct (adjustment_for _ _) as [a|] eqn:Ea.
    + apply find_elem in Ea as [Ha' Eid%bool_decide_eq_true_1].
      apply adjustment_elem in Ha' as (q' & stored' & Hq' & _ & Hs' & (_ & _ & _ & Hd & Hnew & _) & _). rewrite Eid in Hq', Hs', Hd.
      assert (q' = q) as -> by (apply (map_get_NoDup _ _ _ Hsq) in Hq'; congruence). assert (stored' = stored) as -> by congruence.
      rewrite Hd, Eb. lia.
    + destruct (decide (total (score_with gameweekId db (stats_after gameweekId cs db) id q stored)
        = total (score_with gameweekId db (stats_before gameweekId cs db) id q stored))) as [Eq|Ne]; [rewrite Eq, Eb; lia|].
      destruct (list_elem_of_fmap_1 _ _ _ (adjustment_made gameweekId cs db id q stored Hin Ho Hs Ne)) as (a & Eid & Ha').
      pose proof (find_absent _ _ _ Ea Ha') as Hf. rewrite Eid in Hf. by apply bool_decide_eq_false_1 in Hf.
  - assert (adjustment_for id (computeSquadAdjustments gameweekId cs db) = None) as ->.
    { apply adjustment_for_absent. intros (a & -> & Ha)%list_elem_of_fmap.
      apply adjustment_elem in Ha as (q' & stored' & Hq' & Ho' & _). apply (map_get_NoDup _ _ _ Hsq) in Hq'. congruence. }
    rewrite Z.add_0_r. f_equal. symmetry. apply score_with_ext. intros p Hp. eapply uncorrected_same; [done|done|by apply sorted_player|].
    intros Hc. unfold owns_corrected in Ho. assert (existsb (λ p, bool_decide (lp_playerId p ∈ co_playerId <$> cs)) (rq_players q) = true); [|congruence].
    apply existsb_exists. exists p. split; [by apply list_elem_of_In|]. by apply bool_decide_eq_true_2.
Qed.

(** ** Lemmas: the totals of the leagues *)

Lemma update_members_ids id f ms : (∀ m, mb_id (f m) = mb_id m) → mb_id <$> update_members id f ms = mb_id <$> ms.
Proof.
  intros H. unfold update_members. rewrite <- list_fmap_compose. apply list_fmap_ext. intros i m _. cbn. by case_bool_decide.
Qed.

(** A league whose totals a run moves. *)
Definition adjustable (gameweekId : Z) (db : RetroDb) (leagueId : string) : bool :=
  match map_get leagueId (rd_leagues db) with
  | Some league => bool_decide (protection (paid_leagues db) leagueId league = None) && counts_gameweek gameweekId league
  | None => false
  end.

(** What a member is owed by the adjustments of the squads. *)
Definition owed (gameweekId : Z) (db : RetroDb) (deltas : list (string * Z)) (m : LeagueMember) : Z :=
  if bool_decide (mb_status m = Member_ACTIVE) && adjustable gameweekId db (mb_leagueId m) then default 0 (map_get (mb_squadId m) deltas) else 0.

#[export] Instance ProtectionReason_eq_dec : EqDecision ProtectionReason.
Proof. solve_decision. Defined.

Section totals.
Context (gameweekId : Z) (db : RetroDb) (deltas : list (string * Z)) (Hids : NoDup (mb_id <$> rd_members db)).

Definition member_due (m : LeagueMember) : bool := map_has (mb_squadId m) deltas && bool_decide (mb_status m = Member_ACTIVE).

Definition initial_loop : LeagueLoop := {| ll_members := rd_members db; ll_previous := []; ll_touched := []; ll_protected := [] |}.

Definition loop_over (ms : list LeagueMember) : LeagueLoop :=
  foldl (adjust_member gameweekId (rd_leagues db) (paid_leagues db) deltas) initial_loop ms.

(** The state of the loop once the members [seen] are done. *)
Record loop_state (seen : list LeagueMember) (st : LeagueLoop) : Prop := {
  ls_members : ll_members st = (λ m, if decide (mb_id m ∈ mb_id <$> seen) then with_points (λ p, p + owed gameweekId db deltas m) m else m) <$> rd_members db;
  ls_touched : ∀ l, l ∈ ll_touched st ↔ adjustable gameweekId db l = true ∧ l ∈ mb_leagueId <$> seen;
  ls_unique : NoDup (ll_touched st);
  ls_protected : ∀ l reason, (l, reason) ∈ ll_protected st ↔
    l ∈ mb_leagueId <$> seen ∧ ∃ league, map_get l (rd_leagues db) = Some league ∧ protection (paid_leagues db) l league = Some reason;
  ls_protected_unique : NoDup (ll_protected st).*1;
  ls_previous : ∀ m, m ∈ rd_members db → map_get (mb_id m) (ll_previous st) =
    if decide (mb_id m ∈ mb_id <$> seen ∧ adjustable gameweekId db (mb_leagueId m) = true) then Some (mb_totalPoints m, mb_rank m) else None
}.

Lemma with_points_add0 m : with_points (λ p, p + 0) m = m.
Proof. destruct m. unfold with_points. cbn. f_equal. lia. Qed.

Lemma member_same m m' : m ∈ rd_members db → m' ∈ rd_members db → mb_id m = mb_id m' → m = m'.
Proof. by apply (fmap_unique mb_id). Qed.

Lemma seen_snoc (f : LeagueMember → string) seen x k : k ∈ f <$> (seen ++ [x]) ↔ k ∈ f <$> seen ∨ k = f x.
Proof. rewrite fmap_app, elem_of_app. change (f <$> [x]) with [f x]. by rewrite list_elem_of_singleton. Qed.

(** A member that moves nothing. *)
Lemma members_skip seen x ms :
  x ∈ rd_members db → mb_id x ∉ mb_id <$> seen → owed gameweekId db deltas x = 0 →
  ms = (λ m, if decide (mb_id m ∈ mb_id <$> seen) then with_points (λ p, p + owed gameweekId db deltas m) m else m) <$> rd_members db →
  ms = (λ m, if decide (mb_id m ∈ mb_id <$> (seen ++ [x])) then with_points (λ p, p + owed gameweekId db deltas m) m else m) <$> rd_members db.
Proof.
  intros Hx Hnew Ho ->. apply list_fmap_ext. intros i m Hm%list_elem_of_lookup_2.
  destruct (decide (mb_id m ∈ mb_id <$> seen)) as [H|H].
  - rewrite decide_True; [done|]. apply seen_snoc. by left.
  - case_decide as D; [|done]. apply seen_snoc in D as [D|D]; [done|]. rewrite (member_same m x Hm Hx D), Ho. by rewrite with_points_add0.
Qed.

Lemma members_move seen x ms :
  x ∈ rd_members db → mb_id x ∉ mb_id <$> seen →
  ms = (λ m, if decide (mb_id m ∈ mb_id <$> seen) then with_points (λ p, p + owed gameweekId db deltas m) m else m) <$> rd_members db →
  update_members (mb_id x) (with_points (λ p, p + owed gameweekId db deltas x)) ms =
  (λ m, if decide (mb_id m ∈ mb_id <$> (seen ++ [x])) then with_points (λ p, p + owed gameweekId db deltas m) m else m) <$> rd_members db.
Proof.
  intros Hx Hnew ->. unfold update_members. rewrite <- list_fmap_compose. apply list_fmap_ext. intros i m Hm%list_elem_of_lookup_2. cbn.
  destruct (decide (mb_id m ∈ mb_id <$> seen)) as [H|H].
  - rewrite (decide_True (P := mb_id m ∈ mb_id <$> (seen ++ [x]))) by (apply seen_snoc; by left). cbn.
    rewrite bool_decide_eq_false_2; [done|congruence].
  - destruct (bool_decide_reflect (mb_id m = mb_id x)) as [D|D].
    + rewrite decide_True by (apply seen_snoc; by right). by rewrite (member_same m x Hm Hx D).
    + rewrite decide_False; [done|]. intros [?|?]%seen_snoc; done.
Qed.

Lemma loop_initial : loop_state [] initial_loop.
Proof.
  constructor; cbn.
  - symmetry. rewrite <- list_fmap_id. apply list_fmap_ext. intros i m _. by rewrite decide_False by apply not_elem_of_nil.
  - intros l. split; [by intros ?%elem_of_nil|by intros [_ ?%elem_of_nil]].
  - constructor.
  - intros l r. split; [by intros ?%elem_of_nil|by intros [?%elem_of_nil _]].
  - constructor.
  - intros m _. rewrite decide_False; [done|]. by intros [?%elem_of_nil _].
Qed.

Lemma previous_skip seen x (prev : list (string * (Z * option Z))) :
  x ∈ rd_members db → adjustable gameweekId db (mb_leagueId x) = false →
  (∀ m, m ∈ rd_members db → map_get (mb_id m) prev =
    if decide (mb_id m ∈ mb_id <$> seen ∧ adjustable gameweekId db (mb_leagueId m) = true) then Some (mb_totalPoints m, mb_rank m) else None) →
  ∀ m, m ∈ rd_members db → map_get (mb_id m) prev =
    if decide (mb_id m ∈ mb_id <$> (seen ++ [x]) ∧ adjustable gameweekId db (mb_leagueId m) = true) then Some (mb_totalPoints m, mb_rank m) else None.
Proof.
  intros Hx Ha H m Hm. rewrite H by done. apply decide_ext. rewrite seen_snoc. split; [tauto|].
  intros [[?|E] Hb]; [tauto|]. rewrite (member_same m x Hm Hx E) in Hb. congruence.
Qed.

(** A member of a league that is not adjusted, protected or not. *)
Lemma loop_skip seen x st pl :
  x ∈ rd_members db → mb_id x ∉ mb_id <$> seen → adjustable gameweekId db (mb_leagueId x) = false → loop_state seen st →
  (∀ l reason, (l, reason) ∈ pl ↔
    l ∈ mb_leagueId <$> (seen ++ [x]) ∧ ∃ league, map_get l (rd_leagues db) = Some league ∧ protection (paid_leagues db) l league = Some reason) →
  NoDup pl.*1 →
  loop_state (seen ++ [x]) {| ll_members := ll_members st; ll_previous := ll_previous st; ll_touched := ll_touched st; ll_protected := pl |}.
Proof.
  intros Hx Hnew Ha [S1 S2 S3 S4 S5 S6] Hpl Hn. constructor; cbn; [|intros l|done|done|done|].
  - apply members_skip; [done..| |done]. unfold owed. by rewrite Ha, andb_false_r.
  - rewrite S2, seen_snoc. split; [tauto|]. intros [H [?|E]]; [tauto|]. congruence.
  - by apply previous_skip.
Qed.

Lemma loop_skip_plain seen x st :
  x ∈ rd_members db → mb_id x ∉ mb_id <$> seen → adjustable gameweekId db (mb_leagueId x) = false → loop_state seen st →
  (∀ league, map_get (mb_leagueId x) (rd_leagues db) = Some league → protection (paid_leagues db) (mb_leagueId x) league = None) →
  loop_state (seen ++ [x]) st.
Proof.
  intros Hx Hnew Ha Hst Hp. apply (loop_skip seen x st (ll_protected st)) in Hst as Hst'; [by destruct st|done..| |by destruct Hst].
  intros l r. etrans; [apply (ls_protected _ _ Hst)|]. rewrite seen_snoc. split; [tauto|].
  intros [[?| ->] (lg & H1 & H2)]; [split; eauto|]. rewrite (Hp _ H1) in H2. done.
Qed.

Lemma loop_step seen x st :
  x ∈ rd_members db → mb_id x ∉ mb_id <$> seen → member_due x = true →
  loop_state seen st → loop_state (seen ++ [x]) (adjust_member gameweekId (rd_leagues db) (paid_leagues db) deltas st x).
Proof.
  intros Hx Hnew Hd Hst. unfold member_due, map_has in Hd.
  apply andb_true_iff in Hd as [[delta Hdelta]%bool_decide_eq_true_1 Hact]. unfold adjust_member. rewrite Hdelta.
  pose proof Hst as [S1 S2 S3 S4 S5 S6]. destruct (map_get (mb_leagueId x) (rd_leagues db)) as [league|] eqn:Hl; [|by apply loop_skip_plain; unfold adjustable; rewrite ?Hl].
  assert (adjustable gameweekId db (mb_leagueId x) = bool_decide (protection (paid_leagues db) (mb_leagueId x) league = None) && counts_gameweek gameweekId league) as Ha
    by (unfold adjustable; by rewrite Hl).
  destruct (protection _ _ league) as [reason|] eqn:Hp.
  - apply loop_skip; [done..| |].
    + intros l r. rewrite seen_snoc. destruct (decide (mb_leagueId x ∈ (ll_protected st).*1)) as [D|D].
      * etrans; [apply S4|]. split; [tauto|]. intros [[?|E] Hr]; [tauto|]. split; [|done]. rewrite E.
        apply list_elem_of_fmap in D as ([l' r'] & E' & [D _]%S4). cbn in E'. by rewrite E'.
      * rewrite elem_of_app, list_elem_of_singleton. rewrite (S4 l r : (l, r) ∈ ll_protected st ↔ _). split.
        -- intros [[? ?]|[= -> ->]]; [tauto|]. split; [by right|]. by exists league.
        -- intros [[?|E] (lg & H1 & H2)]; [left; eauto|]. right. subst l. rewrite Hl in H1. injection H1 as <-. congruence.
    + destruct (decide (mb_leagueId x ∈ (ll_protected st).*1)) as [D|D]; [done|]. rewrite fmap_app. by apply NoDup_snoc.
  - rewrite bool_decide_eq_true_2 in Ha by done. cbn in Ha. destruct (counts_gameweek gameweekId league) eqn:Hc; cbn [negb].
    + constructor; cbn.
      * assert (owed gameweekId db deltas x = delta) as <- by (unfold owed; by rewrite Hact, Ha, Hdelta).
        by apply members_move.
      * intros l. unfold add_new. rewrite seen_snoc. destruct (decide (mb_leagueId x ∈ ll_touched st)) as [D|D].
        -- rewrite S2. split; [tauto|]. intros [H [?| ->]]; [tauto|]. by apply S2.
        -- rewrite elem_of_app, list_elem_of_singleton, S2. split; [intros [[? ?]| ->]; auto|]. intros [H [?| ->]]; auto.
      * unfold add_new. destruct (decide (mb_leagueId x ∈ ll_touched st)) as [D|D]; [done|]. by apply NoDup_snoc.
      * intros l r. etrans; [apply S4|]. rewrite seen_snoc. split; [tauto|]. intros [[?| ->] (lg & H1 & H2)]; [split; eauto|].
        rewrite Hl in H1. injection H1 as <-. congruence.
      * done.
      * intros m Hm. rewrite map_get_set. destruct (decide (mb_id m = mb_id x)) as [D|D].
        -- rewrite (member_same m x Hm Hx D). rewrite decide_True; [done|]. split; [|done]. apply seen_snoc. by right.
        -- rewrite S6 by done. apply decide_ext. rewrite seen_snoc. tauto.
    + apply loop_skip_plain; [done..|]. intros lg [= <-]%(eq_trans (eq_sym Hl)). done.
Qed.

Lemma loop_done ms : NoDup (mb_id <$> ms) → (∀ m, m ∈ ms → m ∈ rd_members db ∧ member_due m = true) → loop_state ms (loop_over ms).
Proof.
  induction ms as [|x ms IH] using rev_ind; intros Hn H; [apply loop_initial|].
  rewrite fmap_app in Hn. apply list.NoDup_app in Hn as (Hn & Hx & _). unfold loop_over. rewrite foldl_app. cbn [foldl]. fold (loop_over ms).
  destruct (H x) as [H1 H2]; [apply elem_of_app; right; by left|]. apply loop_step; [done| |done|].
  - intros Hin. apply (Hx _ Hin). by left.
  - apply IH; [done|]. intros m Hm. apply H, elem_of_app. by left.
Qed.

Lemma loop_totals : let st := loop_over (List.filter member_due (rd_members db)) in
  loop_state (List.filter member_due (rd_members db)) st ∧
  ll_members st = (λ m, with_points (λ p, p + owed gameweekId db deltas m) m) <$> rd_members db.
Proof.
  cbn zeta. assert (loop_state (List.filter member_due (rd_members db)) (loop_over (List.filter member_due (rd_members db)))) as H.
  { apply loop_done; [by apply NoDup_fmap_lfilter|]. by intros m []%elem_of_lfilter. }
  split; [done|]. rewrite (ls_members _ _ H). apply list_fmap_ext. intros i m Hm%list_elem_of_lookup_2. case_decide as D; [done|].
  assert (owed gameweekId db deltas m = 0) as ->; [|by rewrite with_points_add0].
  unfold owed. destruct (bool_decide_reflect (mb_status m = Member_ACTIVE)) as [Ea|]; [|done]. destruct (adjustable _ _ _); [|done].
  destruct (map_get (mb_squadId m) deltas) eqn:E; [|done]. destruct D. apply list_elem_of_fmap_2, elem_of_lfilter.
  split; [done|]. unfold member_due, map_has. by rewrite E, !bool_decide_eq_true_2 by done.
Qed.
End totals.

(** ** Lemmas: the ranks of the leagues *)

(** The members of a league by place, the places counted from 1. *)
Definition places (leagueId : string) (ms : list LeagueMember) : list (Z * LeagueMember) :=
  imap (λ i m, (Z.of_nat i + 1, m)) (sort_by league_order (active_of leagueId ms)).

Definition placed (ps : list (Z * LeagueMember)) (m : LeagueMember) : LeagueMember :=
  match List.find (λ p, bool_decide (mb_id p.2 = mb_id m)) ps with Some p => with_new_rank p.1 m | None => m end.

(** Only the rank differs. *)
Definition upto_rank (m m' : LeagueMember) : Prop := ∃ rank, m' = m ∨ m' = with_new_rank rank m.

Lemma placed_upto ps m : upto_rank m (placed ps m).
Proof. unfold placed. destruct (List.find _ _) as [p|]; [exists p.1; by right|exists 0; by left]. Qed.

Lemma placed_id ps m : mb_id (placed ps m) = mb_id m.
Proof. by destruct (placed_upto ps m) as (r & [-> | ->]). Qed.

Lemma rank_same r m : mb_rank m = Some r → with_new_rank r m = m.
Proof. destruct m. cbn. by intros ->. Qed.

Lemma rank_members leagueId prev ps : ∀ ms acc,
  NoDup (mb_id <$> ms) → NoDup ((mb_id ∘ snd) <$> ps) → (∀ p, p ∈ ps → p.2 ∈ ms) →
  (foldl (rank_member leagueId prev) (ms, acc) ps).1 = placed ps <$> ms.
Proof.
  induction ps as [|[r x] ps IH]; intros ms acc Hn Hp Hin.
  - cbn. rewrite <- (list_fmap_id ms) at 1. done.
  - cbn [fmap list_fmap] in Hp. apply NoDup_cons in Hp as [Hx Hp]. cbn [foldl].
    assert (x ∈ ms) as Hxin by (apply (Hin (r, x)); by left).
    assert (∃ acc', rank_member leagueId prev (ms, acc) (r, x) = ((λ m, if bool_decide (mb_id m = mb_id x) then with_new_rank r m else m) <$> ms, acc'))
      as (acc' & ->).
    { unfold rank_member. cbn [fst snd]. destruct (bool_decide_reflect (mb_rank x = Some r)) as [E|E]; cbn [negb]; [|by eexists].
      eexists. f_equal. set (f := λ m, _). rewrite <- (list_fmap_id ms) at 1. apply (list_fmap_ext id f). intros i m Hm%list_elem_of_lookup_2. unfold f. cbn. case_bool_decide as D; [|done].
      rewrite (fmap_unique mb_id ms m x Hn Hm Hxin D). by rewrite rank_same. }
    rewrite IH.
    + rewrite <- list_fmap_compose. apply list_fmap_ext. intros i m _. unfold placed. cbn [compose List.find snd fst].
      destruct (bool_decide_reflect (mb_id m = mb_id x)) as [D|D].
      * rewrite (bool_decide_eq_true_2 (mb_id x = mb_id m)) by congruence. cbn [fst].
        destruct (List.find _ ps) as [p|] eqn:F; [|done]. apply find_elem in F as [Fp F%bool_decide_eq_true_1]. cbn in F.
        destruct Hx. cbn. rewrite <- D, <- F. apply (list_elem_of_fmap_2 (mb_id ∘ snd)). done.
      * by rewrite (bool_decide_eq_false_2 (mb_id x = mb_id m)) by congruence.
    + rewrite <- list_fmap_compose, (list_fmap_ext _ mb_id ms); [done|]. intros i m _. cbn. by case_bool_decide.
    + done.
    + intros p Hpin. apply list_elem_of_fmap. exists p.2. split; [|apply Hin; by right].
      rewrite bool_decide_eq_false_2; [done|]. intros E. apply Hx. cbn. rewrite <- E. by apply (list_elem_of_fmap_2 (mb_id ∘ snd)).
Qed.

#[export] Instance league_comparator : Comparator league_order.
Proof. unfold league_order. apply _. Qed.

Lemma places_members leagueId ms : snd <$> places leagueId ms = sort_by league_order (active_of leagueId ms).
Proof. unfold places. rewrite fmap_imap. apply list_eq. intros i. rewrite list_lookup_imap. by destruct (_ !! i). Qed.

Lemma places_elem leagueId ms p : p ∈ places leagueId ms → p.2 ∈ ms ∧ mb_leagueId p.2 = leagueId ∧ mb_status p.2 = Member_ACTIVE.
Proof.
  intros Hp. assert (p.2 ∈ snd <$> places leagueId ms) as H by by apply list_elem_of_fmap_2.
  rewrite places_members, elem_of_sort_by in H. unfold active_of in H.
  apply elem_of_lfilter in H as (H1 & (H2%bool_decide_eq_true_1 & H3%bool_decide_eq_true_1)%andb_true_iff). done.
Qed.

Lemma places_ids leagueId ms : NoDup (mb_id <$> ms) → NoDup ((mb_id ∘ snd) <$> places leagueId ms).
Proof.
  intros H. rewrite list_fmap_compose, places_members, (sort_by_perm league_order). unfold active_of. by apply NoDup_fmap_lfilter.
Qed.

Lemma rank_league_members leagueId prev ms acc :
  NoDup (mb_id <$> ms) → (rank_league prev (ms, acc) leagueId).1 = placed (places leagueId ms) <$> ms.
Proof.
  intros H. unfold rank_league. cbn [fst]. apply rank_members; [done|by apply places_ids|]. intros p Hp. by apply places_elem in Hp as [].
Qed.

(** A league's active members as a table: sorted, ranked from 1. *)
Definition ranked_table (leagueId : string) (ms : list LeagueMember) : Prop :=
  ∃ table, table ≡ₚ active_of leagueId ms ∧ StronglySorted (λ a b, league_order a b ≤ 0) table ∧
    mb_rank <$> table = (λ i, Some (Z.of_nat i + 1)) <$> seq 0 (length table).

Lemma placed_at leagueId ms i m : NoDup (mb_id <$> ms) →
  sort_by league_order (active_of leagueId ms) !! i = Some m → placed (places leagueId ms) m = with_new_rank (Z.of_nat i + 1) m.
Proof.
  intros Hn Hi. assert ((Z.of_nat i + 1, m) ∈ places leagueId ms) as Hp.
  { apply list_elem_of_lookup. exists i. unfold places. by rewrite list_lookup_imap, Hi. }
  unfold placed. destruct (List.find _ _) as [p|] eqn:F.
  - apply find_elem in F as [Fp F%bool_decide_eq_true_1].
    assert (p = (Z.of_nat i + 1, m)) as ->; [|done].
    exact (fmap_unique (mb_id ∘ snd) _ _ _ (places_ids leagueId ms Hn) Fp Hp F).
  - apply (find_absent _ _ _ F) in Hp. cbn in Hp. by apply bool_decide_eq_false_1 in Hp.
Qed.

Lemma placed_other leagueId ms m : mb_leagueId m ≠ leagueId ∨ mb_status m ≠ Member_ACTIVE → NoDup (mb_id <$> ms) → m ∈ ms →
  placed (places leagueId ms) m = m.
Proof.
  intros Ho Hn Hm. unfold placed. destruct (List.find _ _) as [p|] eqn:F; [|done]. apply find_elem in F as [Fp F%bool_decide_eq_true_1].
  apply places_elem in Fp as (H1 & H2 & H3). rewrite (fmap_unique mb_id ms p.2 m Hn H1 Hm F) in H2, H3. by destruct Ho.
Qed.

Lemma active_placed ps leagueId ms : active_of leagueId (placed ps <$> ms) = placed ps <$> active_of leagueId ms.
Proof.
  unfold active_of. apply lfilter_fmap. intros m. by destruct (placed_upto ps m) as (r & [-> | ->]).
Qed.

Lemma rank_league_table leagueId ms : NoDup (mb_id <$> ms) → ranked_table leagueId (placed (places leagueId ms) <$> ms).
Proof.
  intros Hn. set (sorted := sort_by league_order (active_of leagueId ms)).
  assert (placed (places leagueId ms) <$> sorted = imap (λ i m, with_new_rank (Z.of_nat i + 1) m) sorted) as E.
  { apply list_eq. intros i. rewrite list_lookup_fmap, list_lookup_imap. destruct (sorted !! i) as [m|] eqn:Hi; [|done].
    cbn. f_equal. by apply placed_at. }
  exists (placed (places leagueId ms) <$> sorted). split_and!.
  - rewrite active_placed. unfold sorted. by rewrite (sort_by_perm league_order).
  - assert (StronglySorted (λ a b, league_order a b ≤ 0) sorted) as Hs by exact (sort_by_sorted league_order _).
    clear E. induction Hs as [|m l _ IH Hm]; cbn; constructor; [done|]. apply Forall_fmap. eapply Forall_impl; [exact Hm|].
    intros m' H. cbn. by destruct (placed_upto (places leagueId ms) m) as (r & [-> | ->]), (placed_upto (places leagueId ms) m') as (r' & [-> | ->]).
  - rewrite E, length_imap. apply list_eq. intros i. rewrite !list_lookup_fmap, list_lookup_imap.
    destruct (sorted !! i) as [m|] eqn:Hi.
    + rewrite lookup_seq_lt by (by eapply lookup_lt_Some). done.
    + rewrite lookup_seq_ge by by apply lookup_ge_None. done.
Qed.

Lemma active_of_fixed leagueId f ms :
  (∀ m, upto_rank m (f m)) → (∀ m, m ∈ ms → mb_leagueId m = leagueId → f m = m) → active_of leagueId (f <$> ms) = active_of leagueId ms.
Proof.
  intros Hu Hf. unfold active_of. rewrite (lfilter_fmap f _ (λ m, bool_decide (mb_leagueId m = leagueId) && bool_decide (mb_status m = Member_ACTIVE))).
  - rewrite <- list_fmap_id. apply list_fmap_ext. intros i m Hm%list_elem_of_lookup_2.
    apply elem_of_lfilter in Hm as (Hm & (E%bool_decide_eq_true_1 & _)%andb_true_iff). by apply Hf.
  - intros m. by destruct (Hu m) as (r & [-> | ->]).
Qed.

Lemma upto_rank_trans m1 m2 m3 : upto_rank m1 m2 → upto_rank m2 m3 → upto_rank m1 m3.
Proof. intros (r & [-> | ->]) (r' & [-> | ->]); [exists r; by left|exists r'; by right|exists r; by right|exists r'; by right]. Qed.

Lemma upto_ids f (ms : list LeagueMember) : (∀ m, upto_rank m (f m)) → mb_id <$> (f <$> ms) = mb_id <$> ms.
Proof.
  intros H. rewrite <- list_fmap_compose. apply list_fmap_ext. intros i m _. cbn. by destruct (H m) as (r & [-> | ->]).
Qed.

Lemma rank_all prev ls : ∀ ms acc, NoDup (mb_id <$> ms) → NoDup ls → ∃ f,
  (foldl (rank_league prev) (ms, acc) ls).1 = f <$> ms ∧ (∀ m, upto_rank m (f m)) ∧
  (∀ m, m ∈ ms → mb_leagueId m ∉ ls ∨ mb_status m ≠ Member_ACTIVE → f m = m) ∧
  ∀ l, l ∈ ls → ranked_table l (f <$> ms).
Proof.
  induction ls as [|l ls IH]; intros ms acc Hn Hls.
  - exists id. cbn. rewrite list_fmap_id. split_and!; [done|intros m; exists 0; by left|done|by intros l ?%elem_of_nil].
  - apply NoDup_cons in Hls as [Hl Hls]. cbn [foldl]. pose proof (rank_league_members l prev ms acc Hn) as E.
    destruct (rank_league prev (ms, acc) l) as [ms1 acc1]. cbn [fst] in E. subst ms1.
    set (g := placed (places l ms)). assert (∀ m, upto_rank m (g m)) as Hg by (intros m; apply placed_upto).
    destruct (IH (g <$> ms) acc1) as (f & -> & Hf & Hfix & Ht); [by rewrite upto_ids|done|].
    exists (f ∘ g). rewrite list_fmap_compose. split_and!; [done|intros m; by eapply upto_rank_trans| |].
    + intros m Hm Ho. cbn. assert (g m = m) as Egm.
      { apply placed_other; [|done|done]. destruct Ho as [Ho|Ho]; [left|by right]. intros E. apply Ho. rewrite E. by left. }
      rewrite Egm. apply Hfix; [rewrite <- Egm; by apply list_elem_of_fmap_2|]. destruct Ho as [Ho|Ho]; [left|by right].
      intros Hin. apply Ho. by right.
    + intros l' [->|Hl']%elem_of_cons; [|by apply Ht]. destruct (rank_league_table l ms Hn) as (table & T1 & T2 & T3). exists table.
      split; [|done]. rewrite active_of_fixed; [done|done|]. intros m Hm E. apply Hfix; [done|left; by rewrite E].
Qed.

Definition deltas_of (adjustments : list SquadAdjustment) : list (string * Z) := map_of ((λ a, (sa_squadId a, sa_delta a)) <$> adjustments).

Lemma adjustLeagues_spec gameweekId adjustments db members la pl :
  NoDup (mb_id <$> rd_members db) → adjustLeagues gameweekId adjustments db = (members, la, pl) →
  (∃ f, members = (λ m, f (with_points (λ p, p + owed gameweekId db (deltas_of adjustments) m) m)) <$> rd_members db ∧ (∀ m, upto_rank m (f m)) ∧
    ∀ m, m ∈ rd_members db → adjustable gameweekId db (mb_leagueId m) = false ∨ mb_status m ≠ Member_ACTIVE →
      f (with_points (λ p, p + owed gameweekId db (deltas_of adjustments) m) m) = m) ∧
  (∀ m, m ∈ rd_members db → member_due (deltas_of adjustments) m = true → adjustable gameweekId db (mb_leagueId m) = true →
    ranked_table (mb_leagueId m) members) ∧
  (∀ l reason, (l, reason) ∈ pl ↔ (∃ m, m ∈ rd_members db ∧ member_due (deltas_of adjustments) m = true ∧ mb_leagueId m = l) ∧
    ∃ league, map_get l (rd_leagues db) = Some league ∧ protection (paid_leagues db) l league = Some reason) ∧
  NoDup pl.*1.
Proof.
  intros Hn. unfold adjustLeagues. fold (deltas_of adjustments).
  pose proof (loop_totals gameweekId db (deltas_of adjustments) Hn) as [S Em]. unfold loop_over, initial_loop, member_due in S, Em.
  set (st := foldl _ _ _) in *. destruct S as [_ S2 S3 S4 S5 _].
  assert (NoDup (mb_id <$> ll_members st)) as Hn'.
  { rewrite Em, <- list_fmap_compose. by rewrite (list_fmap_ext _ mb_id (rd_members db)). }
  destruct (rank_all (ll_previous st) (ll_touched st) (ll_members st) [] Hn' S3) as (f & Ef & Hu & Hfix & Ht).
  destruct (foldl (rank_league _) _ _) as [ms adj]. cbn [fst] in Ef. intros [= <- <- <-]. rewrite Ef.
  assert (∀ m l, m ∈ rd_members db → member_due (deltas_of adjustments) m = true → l = mb_leagueId m →
    l ∈ mb_leagueId <$> List.filter (member_due (deltas_of adjustments)) (rd_members db)) as Hdue.
  { intros m l Hm Hd ->. by apply list_elem_of_fmap_2, elem_of_lfilter. }
  split_and!.
  - exists f. split_and!; [by rewrite Em, <- list_fmap_compose|done|]. intros m Hm Ho.
    assert (owed gameweekId db (deltas_of adjustments) m = 0) as E0.
    { unfold owed. destruct Ho as [Ho|Ho]; [by rewrite Ho, andb_false_r|by rewrite bool_decide_eq_false_2]. }
    rewrite Hfix; [by rewrite E0, with_points_add0| |].
    + rewrite Em. by apply (list_elem_of_fmap_2 (λ m, with_points (λ p, p + owed gameweekId db (deltas_of adjustments) m) m)).
    + destruct Ho as [Ho|Ho]; [left|by right]. intros [Ha _]%S2. cbn in Ha. congruence.
  - intros m Hm Hd Ha. apply Ht, S2. split; [done|]. by apply (Hdue m).
  - intros l reason. etrans; [apply S4|]. f_equiv. split; [|intros (m & Hm & Hd & <-); by apply (Hdue m)].
    intros (m & -> & [Hm Hd]%elem_of_lfilter)%list_elem_of_fmap. by exists m.
  - done.
Qed.

(** ** A gameweek with one correction *)

Definition sample_stats (points bonus : Z) : PlayerStatSnapshot :=
  {| ps_minutes := 90; ps_goals := 1; ps_assists := 0; ps_cleanSheet := false; ps_yellowCards := 0; ps_redCards := 0;
     ps_saves := 0; ps_bonus := bonus; ps_totalPoints := points |}.

Definition sample_line (player : Z) (s : PlayerStatSnapshot) : StatLine :=
  {| sl_playerId := player; sl_gameweekId := 5; sl_fixtureId := 7; sl_stats := s; sl_other := no_other_stats |}.

Definition lineup_player (id order : Z) (captain : bool) : LineupPlayer :=
  {| lp_playerId := id; lp_position := MID; lp_isStarter := true; lp_isCaptain := captain; lp_isViceCaptain := false; lp_positionOrder := order |}.

Definition sample_league (status : LeagueStatus) : LeagueRow :=
  {| lg_name := []; lg_creatorId := "ann"; lg_inviteCode := None; lg_maxMembers := 10; lg_minMembers := 2; lg_currentMembers := 2;
     lg_entryFee := 0; lg_prizePool := 0; lg_status := status; lg_scoringType := CLASSIC; lg_scoringConfig := None;
     lg_payoutPreset := Standard; lg_payoutSplitsBps := []; lg_isPrivate := false; lg_buyIn := None;
     lg_startGameweekId := 1; lg_endGameweekId := 10 |}.

Definition sample_member (id league user squad : string) (total rank joined : Z) : LeagueMember :=
  {| mb_id := id; mb_leagueId := league; mb_userId := user; mb_squadId := squad; mb_status := Member_ACTIVE;
     mb_paymentStatus := PAYMENT_CONFIRMED; mb_hasPaid := true; mb_joinedAt := joined; mb_rank := Some rank; mb_totalPoints := total;
     mb_matchesWon := 0; mb_matchesDrawn := 0; mb_matchesLost := 0; mb_pointsFor := 0; mb_pointsAgainst := 0; mb_h2hPoints := 0 |}.

(** Ann owns and captains the corrected player, Bob does not own him. *)
Definition sample_db : RetroDb :=
  {| rd_gameweeks := [(5, 105)]; rd_players := [(1, 11); (2, 12)]; rd_fixtures := [(7, 70, 5)];
     rd_stats := [sample_line 1 (sample_stats 6 0); sample_line 2 (sample_stats 2 0)];
     rd_squads := [("s1", {| rq_userId := "ann"; rq_players := [lineup_player 2 2 false; lineup_player 1 1 true]; rq_totalPoints := 14 |});
                   ("s2", {| rq_userId := "bob"; rq_players := [lineup_player 2 1 true]; rq_totalPoints := 4 |})]%string;
     rd_scores := [(("s1", 5), {| gs_points := 14; gs_benchPoints := 0; gs_captainPoints := 6; gs_transferCost := 0 |});
                   (("s2", 5), {| gs_points := 4; gs_benchPoints := 0; gs_captainPoints := 2; gs_transferCost := 0 |})]%string;
     rd_chips := []; rd_leagues := [("open", sample_league ACTIVE); ("ended", sample_league COMPLETED)]%string;
     rd_members := [sample_member "m1" "open" "ann" "s1" 14 2 1; sample_member "m2" "open" "bob" "s2" 17 1 2;
                    sample_member "m3" "ended" "ann" "s1" 14 1 3];
     rd_transactions := []; rd_log := [] |}.

(** The feed reports three bonus points more. *)
Definition sample_feed (fplId : Z) : list LiveElement :=
  if fplId =? 105 then
    [{| le_id := 11; le_totals := sample_stats 9 3; le_other := no_other_stats;
        le_explain := [(70, [{| ex_identifier := "minutes"; ex_points := 2; ex_value := 90 |};
                             {| ex_identifier := "goals_scored"; ex_points := 4; ex_value := 1 |};
                             {| ex_identifier := "bonus"; ex_points := 3; ex_value := 3 |}])]%string |}]
  else [].

Definition sample_run : result RetroError (AdjustmentReport * RetroDb) := detectAndApply 5 sample_feed sample_db.

Definition of_run {A} (f : AdjustmentReport * RetroDb → A) (default : A) : A := match sample_run with Ok r => f r | Err _ => default end.

(** Ann's captain brings six points more and she overtakes Bob; the league that
    has ended keeps its table. *)
Example sample_run_result :
  of_run (λ r, ((λ a, (sa_squadId a, sa_delta a)) <$> ar_squadAdjustments r.1, gs_points <$> (rd_scores r.2).*2,
    (λ m, (mb_id m, mb_totalPoints m, mb_rank m)) <$> rd_members r.2, ar_protectedLeagues r.1)) ([], [], [], [])
  = ([("s1", 6)], [20; 4], [("m1", 20, Some 1); ("m2", 17, Some 2); ("m3", 14, Some 1)], [("ended", LEAGUE_COMPLETED)])%string.
Proof. vm_compute. reflexivity. Qed.

(** The lineup read is the one of today: a player bought after the gameweek
    brings its correction to the buyer, and the squad that fielded it keeps the
    old score. *)
Example correction_follows_transfer :
  let moved := {| rd_gameweeks := rd_gameweeks sample_db; rd_players := rd_players sample_db; rd_fixtures := rd_fixtures sample_db;
      rd_stats := rd_stats sample_db;
      rd_squads := [("s1", {| rq_userId := "ann"; rq_players := [lineup_player 2 1 true]; rq_totalPoints := 14 |});
                    ("s2", {| rq_userId := "bob"; rq_players := [lineup_player 1 1 true]; rq_totalPoints := 4 |})];
      rd_scores := rd_scores sample_db; rd_chips := []; rd_leagues := []; rd_members := []; rd_transactions := []; rd_log := [] |} in
  match detectAndApply 5 sample_feed moved with
  | Ok (r, db') => (λ a, (sa_squadId a, sa_delta a)) <$> ar_squadAdjustments r = [("s2", 6)] ∧ gs_points <$> (rd_scores db').*2 = [14; 10]
  | Err _ => False
  end.
Proof. vm_compute. done. Qed.

(** Only the nine listed columns are compared: four goals conceded that the store
    does not know are no correction. *)
Example unlisted_columns_stay :
  let feed (_ : Z) := [{| le_id := 11; le_totals := sample_stats 6 0;
      le_other := {| os_goalsConceded := 4; os_ownGoals := 0; os_penaltiesSaved := 0; os_penaltiesMissed := 0; os_bps := 20 |};
      le_explain := [(70, [{| ex_identifier := "minutes"; ex_points := 2; ex_value := 90 |};
                           {| ex_identifier := "goals_scored"; ex_points := 4; ex_value := 1 |}])] |}] in
  detectStatCorrections 5 feed sample_db = Ok []
  ∧ (os_goalsConceded ∘ nl_other) <$> flat_map normalizePlayerStats (feed 105) = [4].
Proof. vm_compute. done. Qed.

(** Corrections that leave a total as it was leave its captain's points stale. *)
Example captain_points_left :
  let corrections := [{| co_playerId := 1; co_fixtureId := 7; co_previous := None; co_next := sample_stats 5 0; co_changedFields := [] |};
                      {| co_playerId := 2; co_fixtureId := 7; co_previous := None; co_next := sample_stats 4 0; co_changedFields := [] |}] in
  match applyCorrections 5 corrections sample_db sample_db with
  | Ok (r, db') => sa_squadId <$> ar_squadAdjustments r = ["s2"] ∧
      (gs_captainPoints <$> map_get ("s1", 5) (rd_scores db') = Some 6) ∧
      match calculateAndPersistSquadScore "s1" 5 (scoring_view db') with Ok (s, _) => captainPoints s = 5 | Err _ => False end
  | Err _ => False
  end.
Proof. vm_compute. done. Qed.

(** ** Properties *)

Lemma new_points gameweekId cs db id a stored :
  adjustment_for id (computeSquadAdjustments gameweekId cs db) = Some a →
  map_get (id, gameweekId) (rd_scores db) = Some stored → sa_newPoints a = gs_points stored + sa_delta a.
Proof.
  intros [Ha Eid%bool_decide_eq_true_1]%find_elem Hs.
  apply adjustment_elem in Ha as (q & stored' & _ & _ & Hs' & (_ & _ & _ & _ & -> & _) & _). rewrite Eid in Hs'. congruence.
Qed.

(** A run moves the points of a stored score by exactly what the corrections
    change in a new calculation: for every squad with a score for the gameweek,
    whether it owns a corrected player or not, the stored points and the squad's
    total grow by what [calculateAndPersistSquadScore] gives on today's lineup
    with the corrected lines less what it gave with the lines before.  So points
    that agreed with a calculation still do, and points that did not are as far
    off as they were.  Lineups stay, no score appears or goes, and nothing of
    another gameweek changes. *)
Theorem corrected_scores_match_recalculation (gameweekId : Z) (corrections : list StatCorrection) (db db' : RetroDb) (report : AdjustmentReport) :
  NoDup (line_key <$> rd_stats db) → NoDup (rd_squads db).*1 →
  applyCorrections gameweekId corrections db db = Ok (report, db') →
  (∀ id q stored, map_get id (rd_squads db) = Some q → map_get (id, gameweekId) (rd_scores db) = Some stored →
    ∃ before after q' stored', recalculated gameweekId db id = Some before ∧ recalculated gameweekId db' id = Some after ∧
      map_get (id, gameweekId) (rd_scores db') = Some stored' ∧ gs_points stored' = gs_points stored + (after - before) ∧
      map_get id (rd_squads db') = Some q' ∧ rq_totalPoints q' = rq_totalPoints q + (after - before)) ∧
  (∀ id, rq_players <$> map_get id (rd_squads db') = rq_players <$> map_get id (rd_squads db)) ∧
  (∀ id, is_Some (map_get (id, gameweekId) (rd_scores db')) ↔ is_Some (map_get (id, gameweekId) (rd_scores db))) ∧
  (∀ id gw, gw ≠ gameweekId → map_get (id, gw) (rd_scores db') = map_get (id, gw) (rd_scores db)).
Proof.
  intros Hl Hq H. pose proof (Build_well_keyed _ Hl Hq) as Hk. apply apply_committed in H as [(_ & -> & _)|C].
  { split_and!; try done. intros id q stored E1 E2. eexists _, _, q, stored.
    rewrite !(recalculated_eq _ _ _ _ _ E1 E2). split_and!; [done..|lia|done|lia]. }
  set (adjustments := computeSquadAdjustments gameweekId corrections db) in *.
  assert (NoDup (sa_squadId <$> adjustments)) as Hn by by apply adjustment_ids.
  destruct (apply_squads_result _ _ _ _ _ _ Hn (cm_scores _ _ _ _ _ _ C)) as (K & Hsc & Hsq). split_and!.
  - intros id q stored E1 E2.
    pose proof (adjusted_points gameweekId corrections db db' id q stored Hk (cm_stats _ _ _ _ _ _ C) (cm_chips _ _ _ _ _ _ C) E1 E2) as A.
    pose proof (λ a Ha, new_points gameweekId corrections db id a stored Ha E2) as P. fold adjustments in A, P.
    specialize (Hsq id). specialize (Hsc id gameweekId). rewrite E1 in Hsq. rewrite E2 in Hsc.
    destruct (adjustment_for id adjustments) as [a|]; [rewrite decide_True in Hsc by done|]; cbn [fmap option_fmap option_map] in *;
      eexists _, _, _, _; rewrite (recalculated_eq _ _ _ _ _ E1 E2), (recalculated_eq _ _ _ _ _ Hsq Hsc); fold (calculated gameweekId db id q stored).
    + change (total (score_with gameweekId db' _ id (adjusted_squad a q) (adjusted_score a stored))) with (calculated gameweekId db' id q stored).
      split_and!; [done|done|exact Hsc| |exact Hsq|]; cbn [adjusted_score adjusted_squad gs_points rq_totalPoints]; rewrite ?(P a) by done; lia.
    + fold (calculated gameweekId db' id q stored). split_and!; [done|done|exact Hsc|lia|exact Hsq|lia].
  - intros id. rewrite Hsq. destruct (adjustment_for id adjustments); [|done]. by destruct (map_get id (rd_squads db)).
  - intros id. rewrite Hsc. destruct (adjustment_for id adjustments); [|done]. rewrite decide_True by done. by rewrite fmap_is_Some.
  - intros id gw Hgw. rewrite Hsc. destruct (adjustment_for id adjustments); [|done]. by rewrite decide_False.
Qed.

(** The score of [s1], 14 points as a calculation gives them, becomes 20, what a
    calculation gives now. *)
Lemma corrected_scores_match_recalculation_witness :
  recalculated 5 sample_db "s1" = Some 14 ∧
  match detectAndApply 5 sample_feed sample_db with
  | Ok (report, db') => recalculated 5 db' "s1" = Some 20 ∧ gs_points <$> map_get ("s1", 5) (rd_scores db') = Some 20
  | Err _ => False
  end.
Proof.
  split; [vm_compute; reflexivity|].
  destruct (detectStatCorrections 5 sample_feed sample_db) as [cs|e] eqn:E; [|vm_compute in E; discriminate E].
  unfold detectAndApply. rewrite E. cbn [rbind].
  destruct (applyCorrections 5 cs sample_db sample_db) as [[report db']|e] eqn:H.
  - destruct (corrected_scores_match_recalculation 5 cs sample_db db' report) as [R _];
      [by apply (bool_decide_unpack _)|by apply (bool_decide_unpack _)|exact H|].
    destruct (map_get "s1"%string (rd_squads sample_db)) as [q|] eqn:Eq; [|discriminate Eq].
    destruct (map_get ("s1"%string, 5) (rd_scores sample_db)) as [stored|] eqn:Es; [|discriminate Es].
    destruct (R "s1"%string q stored Eq Es) as (before & after & q' & stored' & Hb & Ha & Hs & Hp & _).
    assert (before = 14) as -> by (vm_compute in Hb; injection Hb as <-; reflexivity).
    assert (recalculated 5 db' "s1" = Some 20) as H20.
    { vm_compute in E. injection E as <-. vm_compute in H. injection H as <- <-. vm_compute. reflexivity. }
    split; [exact H20|]. rewrite Hs. cbn. f_equal. rewrite Hp. rewrite H20 in Ha. injection Ha as <-.
    vm_compute in Es. injection Es as <-. reflexivity.
  - vm_compute in E. injection E as <-. vm_compute in H. discriminate H.
Defined.

(** No field differs exactly when all nine do agree. *)
Lemma diffStats_none previous next : diffStats previous next = [] → default empty_snapshot previous = next.
Proof.
  unfold diffStats. set (old := default empty_snapshot previous). intros H.
  assert (∀ f, stat_value old f = stat_value next f) as E.
  { intros f. destruct (stat_value old f =? stat_value next f) eqn:Ef; [by apply Z.eqb_eq|]. exfalso.
    apply (not_elem_of_nil f). rewrite <- H. apply elem_of_lfilter. rewrite Ef. split; [|done].
    apply list_elem_of_In. destruct f; cbn; tauto. }
  pose proof (E F_minutes) as E1. pose proof (E F_goals) as E2. pose proof (E F_assists) as E3.
  pose proof (E F_cleanSheet) as E4. pose proof (E F_yellowCards) as E5. pose proof (E F_redCards) as E6.
  pose proof (E F_saves) as E7. pose proof (E F_bonus) as E8. pose proof (E F_totalPoints) as E9. clear E.
  destruct old as [???[]], next as [???[]]; cbn in *; congruence.
Qed.

Lemma upserts_other gameweekId cs : ∀ ls i l, ls !! i = Some l →
  ∃ l', foldl (upsert_stat gameweekId) ls cs !! i = Some l' ∧ line_key l' = line_key l ∧ sl_other l' = sl_other l.
Proof.
  induction cs as [|c cs IH]; intros ls i l Hl; [by exists l|]. cbn [foldl].
  assert (∃ l1, upsert_stat gameweekId ls c !! i = Some l1 ∧ line_key l1 = line_key l ∧ sl_other l1 = sl_other l)
    as (l1 & H1 & H2 & H3).
  { unfold upsert_stat. case_match; [|exists l; by rewrite lookup_app_l_Some with (x := l)].
    rewrite list_lookup_fmap, Hl. cbn. eexists. split; [reflexivity|]. by case_match. }
  destruct (IH _ _ _ H1) as (l' & H4 & H5 & H6). exists l'. split_and!; [done|congruence|congruence].
Qed.

(** Detection settles: after a run that detected and applied the corrections
    of a feed with one line per player and fixture, the nine columns that are
    compared - minutes, goals, assists, clean sheet, yellow cards, red cards,
    saves, bonus and total points - of every line of the feed are those of the
    feed, where a line the store lacks counts as all zeros; the other columns of
    every stored line are what they were, whatever the feed says of them; and the
    next detection finds nothing to correct. *)
Theorem detection_settles (gameweekId fplId : Z) (feed : Z → list LiveElement) (db db' : RetroDb) (report : AdjustmentReport) :
  map_get gameweekId (rd_gameweeks db) = Some fplId →
  NoDup (official_lines db gameweekId (feed fplId)).*1 →
  detectAndApply gameweekId feed db = Ok (report, db') →
  (∀ k next, (k, next) ∈ official_lines db gameweekId (feed fplId) →
    let line := default empty_snapshot (map_get k (stored_lines db' gameweekId)) in
    ps_minutes line = ps_minutes next ∧ ps_goals line = ps_goals next ∧ ps_assists line = ps_assists next ∧
    ps_cleanSheet line = ps_cleanSheet next ∧ ps_yellowCards line = ps_yellowCards next ∧
    ps_redCards line = ps_redCards next ∧ ps_saves line = ps_saves next ∧ ps_bonus line = ps_bonus next ∧
    ps_totalPoints line = ps_totalPoints next) ∧
  (∀ i l, rd_stats db !! i = Some l →
    ∃ l', rd_stats db' !! i = Some l' ∧ line_key l' = line_key l ∧ sl_other l' = sl_other l) ∧
  detectStatCorrections gameweekId feed db' = Ok [].
Proof.
  intros Hgw Hn H. unfold detectAndApply, detectStatCorrections in H. rewrite Hgw in H. cbn [or_throw rbind] in H.
  set (off := official_lines db gameweekId (feed fplId)) in *. set (cs := flat_map _ off) in H.
  assert (rd_gameweeks db' = rd_gameweeks db ∧ official_lines db' gameweekId (feed fplId) = off ∧
    rd_stats db' = foldl (upsert_stat gameweekId) (rd_stats db) cs) as (E1 & E2 & E3).
  { apply apply_committed in H as [(-> & -> & _)|C]; [done|]. split_and!; [apply C| |apply C].
    unfold off, official_lines. by rewrite (cm_players _ _ _ _ _ _ C), (cm_fixtures _ _ _ _ _ _ C). }
  assert (∀ k next, (k, next) ∈ off → diffStats (map_get k (stored_lines db' gameweekId)) next = []) as Hd.
  { intros k next Hin. rewrite stored_lines_get, E3, stored_upserts.
    rewrite (upserts_of_feed (stored_lines db gameweekId) k next off) by done.
    destruct (diffStats (map_get k (stored_lines db gameweekId)) next) eqn:D; [by rewrite <- (stored_lines_get db)|]. apply diffStats_same. }
  split; [intros k next Hin; cbn zeta; by rewrite (diffStats_none _ _ (Hd k next Hin))|].
  split; [intros i l Hl; rewrite E3; by apply upserts_other|].
  unfold detectStatCorrections. rewrite E1, Hgw. cbn [or_throw rbind]. f_equal. rewrite E2. revert Hd. clear.
  induction off as [|[k next] off IH]; intros Hd; [done|]. cbn [flat_map]. rewrite IH by (intros; apply Hd; by right).
  unfold correction_of. cbn [fst snd]. rewrite Hd by (by left). done.
Qed.

Lemma detection_settles_witness :
  match detectAndApply 5 sample_feed sample_db with Ok (_, db') => detectStatCorrections 5 sample_feed db' = Ok [] | Err _ => False end.
Proof.
  destruct (detectAndApply 5 sample_feed sample_db) as [[report db']|e] eqn:H; [|vm_compute in H; discriminate H].
  refine (proj2 (proj2 (detection_settles 5 105 sample_feed sample_db db' report eq_refl _ H))). apply (bool_decide_unpack _). vm_compute. exact I.
Defined.

(** C35. The leagues of a run.  A member's row keeps its place and everything but
    total and rank; it changes not at all in a league that has ended, has a
    confirmed payout or does not count the gameweek, and for a member who is not
    active; otherwise the total grows by exactly what the member's squad was
    adjusted by.  A league in which a member was due an adjustment has its active
    members sorted and ranked from 1; the report names, once each, exactly the
    protected leagues in which one was. *)
Theorem settled_leagues_untouched (gameweekId : Z) (corrections : list StatCorrection) (read db db' : RetroDb) (report : AdjustmentReport) :
  NoDup (mb_id <$> rd_members db) →
  applyCorrections gameweekId corrections read db = Ok (report, db') →
  let deltas := deltas_of (ar_squadAdjustments report) in
  (∀ i m, rd_members db !! i = Some m → adjustable gameweekId db (mb_leagueId m) = false ∨ mb_status m ≠ Member_ACTIVE →
    rd_members db' !! i = Some m) ∧
  (∀ i m, rd_members db !! i = Some m → ∃ m', rd_members db' !! i = Some m' ∧
    upto_rank (with_points (λ p, p + owed gameweekId db deltas m) m) m') ∧
  (∀ m, m ∈ rd_members db → member_due deltas m = true → adjustable gameweekId db (mb_leagueId m) = true →
    ranked_table (mb_leagueId m) (rd_members db')) ∧
  (∀ l reason, (l, reason) ∈ ar_protectedLeagues report ↔
    (∃ m, m ∈ rd_members db ∧ member_due deltas m = true ∧ mb_leagueId m = l) ∧
    ∃ league, map_get l (rd_leagues db) = Some league ∧ protection (paid_leagues db) l league = Some reason) ∧
  NoDup (ar_protectedLeagues report).*1.
Proof.
  intros Hn H. cbn zeta. apply apply_committed in H as [(-> & -> & -> & _ & ->)|C].
  - split_and!.
    + done.
    + intros i m Hm. exists m. split; [done|]. exists 0. left. unfold owed. cbn. by destruct (_ && _); rewrite with_points_add0.
    + by intros m _ Hd.
    + intros l r. split; [by intros ?%elem_of_nil|by intros [(m & _ & Hd & _) _]].
    + constructor.
  - rewrite (cm_squadAdjustments _ _ _ _ _ _ C).
    destruct (adjustLeagues_spec _ _ _ _ _ _ Hn (cm_leagues _ _ _ _ _ _ C)) as ((f & -> & Hu & Hfix) & Ht & Hp & Hpn).
    split_and!; [| |exact Ht|exact Hp|exact Hpn].
    + intros i m Hm Ho. rewrite list_lookup_fmap, Hm. cbn. f_equal. apply Hfix; [by eapply list_elem_of_lookup_2|done].
    + intros i m Hm. rewrite list_lookup_fmap, Hm. cbn. eexists. split; [done|apply Hu].
Qed.

Lemma settled_leagues_untouched_witness :
  match detectAndApply 5 sample_feed sample_db with
  | Ok (report, db') => rd_members db' !! 2%nat = rd_members sample_db !! 2%nat ∧ ranked_table "open" (rd_members db') ∧
      ("ended", LEAGUE_COMPLETED) ∈ ar_protectedLeagues report
  | Err _ => False
  end.
Proof.
  destruct (detectStatCorrections 5 sample_feed sample_db) as [cs|e] eqn:E; [|vm_compute in E; discriminate E].
  unfold detectAndApply. rewrite E. cbn [rbind]. vm_compute in E. injection E as <-.
  match goal with |- context [applyCorrections 5 ?l sample_db sample_db] => set (cs := l) end.
  destruct (applyCorrections 5 cs sample_db sample_db) as [[report db']|e] eqn:H; [|vm_compute in H; discriminate H].
  destruct (settled_leagues_untouched 5 cs sample_db sample_db db' report) as (R1 & _ & R3 & R4 & _);
    [by apply (bool_decide_unpack _)|exact H|].
  assert (deltas_of (ar_squadAdjustments report) = [("s1", 6)]) as D by (vm_compute in H; injection H as <- _; reflexivity).
  rewrite D in R3, R4. split_and!.
  - apply R1; [reflexivity|]. left. reflexivity.
  - apply (R3 (sample_member "m1" "open" "ann" "s1" 14 2 1)); [by left|reflexivity|reflexivity].
  - apply R4. split; [|by eexists]. exists (sample_member "m3" "ended" "ann" "s1" 14 1 3). split_and!; [|reflexivity|reflexivity].
    by right; right; left.
Defined.

(** C36. A run reads the scores before its transaction.  It commits exactly when every
    score it is about to adjust still holds the points that were read and its
    squad exists; then points and squad totals have grown by the adjustment from
    whatever the transaction found, those of other squads and gameweeks are as
    they were, and no update in between is lost. *)
Theorem concurrent_recalculation_detected (gameweekId : Z) (corrections : list StatCorrection) (read db : RetroDb) :
  NoDup (rd_squads read).*1 → corrections ≠ [] →
  let adjustments := computeSquadAdjustments gameweekId corrections read in
  let delta id := default 0 (sa_delta <$> adjustment_for id adjustments) in
  (is_ok (applyCorrections gameweekId corrections read db) = true ↔
    ∀ a, a ∈ adjustments → scores_hold gameweekId (rd_scores db) (rd_squads db) a) ∧
  ∀ report db', applyCorrections gameweekId corrections read db = Ok (report, db') →
    (∀ id, gs_points <$> map_get (id, gameweekId) (rd_scores db') =
      (λ s, gs_points s + delta id) <$> map_get (id, gameweekId) (rd_scores db)) ∧
    (∀ id gw, gw ≠ gameweekId → map_get (id, gw) (rd_scores db') = map_get (id, gw) (rd_scores db)) ∧
    (∀ id, rq_totalPoints <$> map_get id (rd_squads db') = (λ q, rq_totalPoints q + delta id) <$> map_get id (rd_squads db)).
Proof.
  intros Hn Hc. cbn zeta. set (adjustments := computeSquadAdjustments gameweekId corrections read).
  assert (NoDup (sa_squadId <$> adjustments)) as Hids by by apply adjustment_ids.
  pose proof (apply_squads_total gameweekId adjustments (rd_scores db) (rd_squads db) Hids) as T. split.
  - rewrite <- T. destruct corrections as [|c cs]; [done|]. unfold applyCorrections, apply_transaction. fold adjustments.
    destruct (mfoldl _ _ adjustments) as [[scores sq]|e]; [|done]. cbn [rbind]. by destruct (adjustLeagues _ _ _) as [[? ?] ?].
  - intros report db' H. apply apply_committed in H as [(? & _)|C]; [done|]. fold adjustments in C.
    pose proof (cm_scores _ _ _ _ _ _ C) as E. rewrite E in T.
    destruct (apply_squads_result _ _ _ _ _ _ Hids E) as (_ & Hs & Hq). split_and!.
    + intros id. rewrite Hs. destruct (adjustment_for id adjustments) as [a|] eqn:Ea; cbn [fmap option_fmap option_map default].
      * rewrite decide_True by done. apply find_elem in Ea as [Ha Hid%bool_decide_eq_true_1].
        destruct (proj1 T eq_refl a Ha) as (stored & q & Hst & Hp & _). rewrite Hid in Hst. rewrite Hst. cbn. f_equal.
        apply adjustment_elem in Ha as (q' & st & _ & _ & _ & (_ & _ & Hp' & _ & Hnew & _) & _). rewrite Hnew, Hp, Hp'. done.
      * destruct (map_get _ _); [|done]. cbn. f_equal. lia.
    + intros id gw Hgw. rewrite Hs. destruct (adjustment_for id adjustments); [|done]. by rewrite decide_False.
    + intros id. rewrite Hq. destruct (adjustment_for id adjustments); destruct (map_get id (rd_squads db)); cbn; try done. f_equal. lia.
Qed.

(** The tables after another calculation changed Ann's score. *)
Definition recalculated_db : RetroDb :=
  {| rd_gameweeks := rd_gameweeks sample_db; rd_players := rd_players sample_db; rd_fixtures := rd_fixtures sample_db;
     rd_stats := rd_stats sample_db; rd_squads := rd_squads sample_db;
     rd_scores := [(("s1", 5), {| gs_points := 20; gs_benchPoints := 0; gs_captainPoints := 9; gs_transferCost := 0 |})];
     rd_chips := []; rd_leagues := rd_leagues sample_db; rd_members := rd_members sample_db; rd_transactions := []; rd_log := [] |}.

Lemma concurrent_recalculation_detected_witness :
  match detectStatCorrections 5 sample_feed sample_db with
  | Ok cs => is_ok (applyCorrections 5 cs sample_db sample_db) = true ∧ is_ok (applyCorrections 5 cs sample_db recalculated_db) = false
  | Err _ => False
  end.
Proof.
  destruct (detectStatCorrections 5 sample_feed sample_db) as [cs|e] eqn:E; [|vm_compute in E; discriminate E].
  vm_compute in E. injection E as <-. match goal with |- context [applyCorrections 5 ?l sample_db sample_db] => set (cs := l) end.
  assert (NoDup (rd_squads sample_db).*1) as Hn by by apply (bool_decide_unpack _).
  split; [reflexivity|].
  destruct (concurrent_recalculation_detected 5 cs sample_db recalculated_db Hn ltac:(discriminate)) as [[R _] _].
  destruct (is_ok _) eqn:O; [|reflexivity]. exfalso. specialize (R eq_refl).
  assert (∃ a, a ∈ computeSquadAdjustments 5 cs sample_db ∧ sa_squadId a = "s1" ∧ sa_previousPoints a = 14) as (a & Ha & Es & Ep).
  { vm_compute. eexists. split; [by left|done]. }
  destruct (R a Ha) as (stored & q & Hs & Hp & _). rewrite Es in Hs. vm_compute in Hs. injection Hs as <-. rewrite Ep in Hp. discriminate Hp.
Defined.
