(* ===== verification/CircuitBreaker.v ===== *)
(** * The circuit breaker in front of the FPL API:
      [backend/src/services/fpl/circuitBreaker.ts]

    The breaker's fields, its methods and, because its calls overlap, a step
    relation over the breaker, the clock, the calls in flight and the probe
    timer.  [Date.now()] is read once per synchronous block and
    [Math.random()] is an argument; failure rates are exact rationals.  The
    calls of [onStateChange] are a log. *)

From Stdlib Require Import QArith Qround.
From S2P Require Import Prelude.

#[local] Open Scope Z_scope.

Inductive CircuitState : Type := CLOSED | OPEN | HALF_OPEN.

#[export] Instance CircuitState_eq_dec : EqDecision CircuitState.
Proof. solve_decision. Defined.

(** [probe] is only looked at for being there; its calls are calls like any other. *)
Record CircuitBreakerOptions : Type := {
  o_failureThreshold : option Z;
  o_cooldownPeriodMs : option Z;
  o_successThreshold : option Z;
  o_baseBackoffMs : option Z;
  o_maxBackoffMs : option Z;
  o_failureRateThreshold : option Q;
  o_rollingWindowMs : option Z;
  o_minimumSamples : option Z;
  o_maxCooldownMs : option Z;
  o_probe : bool
}.

(** The read-only fields the constructor computes. *)
Record BreakerConfig : Type := {
  failureThreshold : Z;
  cooldownPeriodMs : Z;
  successThreshold : Z;
  baseBackoffMs : Z;
  maxBackoffMs : Z;
  failureRateThreshold : option Q;
  rollingWindowMs : Z;
  minimumSamples : Z;
  maxCooldownMs : Z;
  probe : bool
}.

Definition configure (o : CircuitBreakerOptions) : BreakerConfig :=
  let cooldown := default 30000 (o_cooldownPeriodMs o) in
  {| failureThreshold := default 5 (o_failureThreshold o);
     cooldownPeriodMs := cooldown;
     successThreshold := default 1 (o_successThreshold o);
     baseBackoffMs := default 1000 (o_baseBackoffMs o);
     maxBackoffMs := default 30000 (o_maxBackoffMs o);
     failureRateThreshold := o_failureRateThreshold o;
     rollingWindowMs := default 30000 (o_rollingWindowMs o);
     minimumSamples := default 4 (o_minimumSamples o);
     maxCooldownMs := Z.max (default (5 * 60000) (o_maxCooldownMs o)) cooldown;
     probe := o_probe o |}.

Record Outcome : Type := { oc_at : Z; oc_failed : bool }.

(** [cb_probeTimer] is the time the armed timer is due at. *)
Record CircuitBreaker : Type := {
  cb_state : CircuitState;
  cb_consecutiveFailures : Z;
  cb_halfOpenSuccesses : Z;
  cb_nextAttemptTime : Z;
  cb_lastFailureTime : option Z;
  cb_outcomes : list Outcome;
  cb_currentCooldownMs : Z;
  cb_probeInFlight : bool;
  cb_probeTimer : option Z;
  cb_lastStateChangeAt : option Z;
  cb_successes : Z;
  cb_failures : Z;
  cb_shortCircuited : Z;
  cb_changes : list (CircuitState * CircuitState)
}.

Definition new_breaker (cfg : BreakerConfig) : CircuitBreaker :=
  {| cb_state := CLOSED; cb_consecutiveFailures := 0; cb_halfOpenSuccesses := 0; cb_nextAttemptTime := 0;
     cb_lastFailureTime := None; cb_outcomes := []; cb_currentCooldownMs := cooldownPeriodMs cfg;
     cb_probeInFlight := false; cb_probeTimer := None; cb_lastStateChangeAt := None;
     cb_successes := 0; cb_failures := 0; cb_shortCircuited := 0; cb_changes := [] |}.

(** ** Field updates *)

Definition set_timer (t : option Z) (b : CircuitBreaker) : CircuitBreaker :=
  {| cb_state := cb_state b; cb_consecutiveFailures := cb_consecutiveFailures b;
     cb_halfOpenSuccesses := cb_halfOpenSuccesses b; cb_nextAttemptTime := cb_nextAttemptTime b;
     cb_lastFailureTime := cb_lastFailureTime b; cb_outcomes := cb_outcomes b;
     cb_currentCooldownMs := cb_currentCooldownMs b; cb_probeInFlight := cb_probeInFlight b;
     cb_probeTimer := t; cb_lastStateChangeAt := cb_lastStateChangeAt b;
     cb_successes := cb_successes b; cb_failures := cb_failures b;
     cb_shortCircuited := cb_shortCircuited b; cb_changes := cb_changes b |}.

Definition set_outcomes (l : list Outcome) (b : CircuitBreaker) : CircuitBreaker :=
  {| cb_state := cb_state b; cb_consecutiveFailures := cb_consecutiveFailures b;
     cb_halfOpenSuccesses := cb_halfOpenSuccesses b; cb_nextAttemptTime := cb_nextAttemptTime b;
     cb_lastFailureTime := cb_lastFailureTime b; cb_outcomes := l;
     cb_currentCooldownMs := cb_currentCooldownMs b; cb_probeInFlight := cb_probeInFlight b;
     cb_probeTimer := cb_probeTimer b; cb_lastStateChangeAt := cb_lastStateChangeAt b;
     cb_successes := cb_successes b; cb_failures := cb_failures b;
     cb_shortCircuited := cb_shortCircuited b; cb_changes := cb_changes b |}.

Definition set_counters (failures halfOpen : Z) (b : CircuitBreaker) : CircuitBreaker :=
  {| cb_state := cb_state b; cb_consecutiveFailures := failures; cb_halfOpenSuccesses := halfOpen;
     cb_nextAttemptTime := cb_nextAttemptTime b;
     cb_lastFailureTime := cb_lastFailureTime b; cb_outcomes := cb_outcomes b;
     cb_currentCooldownMs := cb_currentCooldownMs b; cb_probeInFlight := cb_probeInFlight b;
     cb_probeTimer := cb_probeTimer b; cb_lastStateChangeAt := cb_lastStateChangeAt b;
     cb_successes := cb_successes b; cb_failures := cb_failures b;
     cb_shortCircuited := cb_shortCircuited b; cb_changes := cb_changes b |}.

Definition set_flag (f : bool) (b : CircuitBreaker) : CircuitBreaker :=
  {| cb_state := cb_state b; cb_consecutiveFailures := cb_consecutiveFailures b;
     cb_halfOpenSuccesses := cb_halfOpenSuccesses b; cb_nextAttemptTime := cb_nextAttemptTime b;
     cb_lastFailureTime := cb_lastFailureTime b; cb_outcomes := cb_outcomes b;
     cb_currentCooldownMs := cb_currentCooldownMs b; cb_probeInFlight := f;
     cb_probeTimer := cb_probeTimer b; cb_lastStateChangeAt := cb_lastStateChangeAt b;
     cb_successes := cb_successes b; cb_failures := cb_failures b;
     cb_shortCircuited := cb_shortCircuited b; cb_changes := cb_changes b |}.

(** [totals.x++], with the time of the last failure. *)
Definition add_totals (ok ko short : Z) (lastFailure : option Z) (b : CircuitBreaker) : CircuitBreaker :=
  {| cb_state := cb_state b; cb_consecutiveFailures := cb_consecutiveFailures b;
     cb_halfOpenSuccesses := cb_halfOpenSuccesses b; cb_nextAttemptTime := cb_nextAttemptTime b;
     cb_lastFailureTime := lastFailure; cb_outcomes := cb_outcomes b;
     cb_currentCooldownMs := cb_currentCooldownMs b; cb_probeInFlight := cb_probeInFlight b;
     cb_probeTimer := cb_probeTimer b; cb_lastStateChangeAt := cb_lastStateChangeAt b;
     cb_successes := cb_successes b + ok; cb_failures := cb_failures b + ko;
     cb_shortCircuited := cb_shortCircuited b + short; cb_changes := cb_changes b |}.

(** ** Methods *)

Definition calculateDecorrelatedJitter (currentBackoff baseBackoffMs maxBackoffMs : Z) (random : Q) : Z :=
  let minDelay := baseBackoffMs in
  let maxRange := Z.max minDelay (currentBackoff * 3) in
  let nextDelay := Qfloor (inject_Z minDelay + random * inject_Z (maxRange - minDelay + 1)) in
  Z.min maxBackoffMs nextDelay.

Section methods.
Context (cfg : BreakerConfig).

Definition armProbe (delayMs now : Z) (b : CircuitBreaker) : CircuitBreaker :=
  if negb (probe cfg) then b else set_timer (Some (now + delayMs)) b.

Definition clearProbeTimer (b : CircuitBreaker) : CircuitBreaker := set_timer None b.

(** The assignments made before the branches of [transitionTo], and the log. *)
Definition enter_state (newState : CircuitState) (now : Z) (b : CircuitBreaker) : CircuitBreaker :=
  {| cb_state := newState; cb_consecutiveFailures := cb_consecutiveFailures b;
     cb_halfOpenSuccesses := cb_halfOpenSuccesses b; cb_nextAttemptTime := cb_nextAttemptTime b;
     cb_lastFailureTime := cb_lastFailureTime b; cb_outcomes := cb_outcomes b;
     cb_currentCooldownMs := cb_currentCooldownMs b; cb_probeInFlight := cb_probeInFlight b;
     cb_probeTimer := cb_probeTimer b; cb_lastStateChangeAt := Some now;
     cb_successes := cb_successes b; cb_failures := cb_failures b;
     cb_shortCircuited := cb_shortCircuited b; cb_changes := cb_changes b ++ [(cb_state b, newState)] |}.

Definition set_cooldown (cooldown nextAttempt : Z) (b : CircuitBreaker) : CircuitBreaker :=
  {| cb_state := cb_state b; cb_consecutiveFailures := cb_consecutiveFailures b;
     cb_halfOpenSuccesses := cb_halfOpenSuccesses b; cb_nextAttemptTime := nextAttempt;
     cb_lastFailureTime := cb_lastFailureTime b; cb_outcomes := cb_outcomes b;
     cb_currentCooldownMs := cooldown; cb_probeInFlight := cb_probeInFlight b;
     cb_probeTimer := cb_probeTimer b; cb_lastStateChangeAt := cb_lastStateChangeAt b;
     cb_successes := cb_successes b; cb_failures := cb_failures b;
     cb_shortCircuited := cb_shortCircuited b; cb_changes := cb_changes b |}.

Definition transitionTo (newState : CircuitState) (now : Z) (random : Q) (b : CircuitBreaker) : CircuitBreaker :=
  if bool_decide (cb_state b = newState) then b else
  let oldState := cb_state b in
  let b := enter_state newState now b in
  match newState with
  | CLOSED => clearProbeTimer (set_cooldown (cooldownPeriodMs cfg) 0 (set_outcomes [] (set_counters 0 0 b)))
  | HALF_OPEN => set_counters (cb_consecutiveFailures b) 0 b
  | OPEN =>
      let cooldown :=
        if bool_decide (oldState = HALF_OPEN)
        then calculateDecorrelatedJitter (cb_currentCooldownMs b) (cooldownPeriodMs cfg) (maxCooldownMs cfg) random
        else cooldownPeriodMs cfg in
      armProbe cooldown now (set_cooldown cooldown (now + cooldown) b)
  end.

Definition getState (now : Z) (b : CircuitBreaker) : CircuitBreaker :=
  if bool_decide (cb_state b = OPEN) && (cb_nextAttemptTime b <=? now)
  then transitionTo HALF_OPEN now 0 b else b.

Definition getRemainingCooldownMs (now : Z) (b : CircuitBreaker) : Z :=
  if bool_decide (cb_state b = OPEN) then Z.max 0 (cb_nextAttemptTime b - now) else 0.

Fixpoint drop_old (limit : Z) (l : list Outcome) : list Outcome :=
  match l with
  | [] => []
  | o :: l' => if oc_at o <=? limit then drop_old limit l' else l
  end.

Definition pruneOutcomes (now : Z) (b : CircuitBreaker) : CircuitBreaker :=
  set_outcomes (drop_old (now - rollingWindowMs cfg) (cb_outcomes b)) b.

Definition recordOutcome (failed : bool) (now : Z) (b : CircuitBreaker) : CircuitBreaker :=
  pruneOutcomes now (set_outcomes (cb_outcomes b ++ [{| oc_at := now; oc_failed := failed |}]) b).

Definition failed_outcomes (l : list Outcome) : Z := countb oc_failed l.

(** [failures / length > threshold] *)
Definition rate_above (l : list Outcome) (threshold : Q) : bool :=
  negb (Qle_bool (inject_Z (failed_outcomes l) / inject_Z (Z.of_nat (length l))) threshold).

(** The decision; the pruning it does is [recordOutcome]'s of the same instant. *)
Definition shouldOpen (now : Z) (b : CircuitBreaker) : bool :=
  match failureRateThreshold cfg with
  | None => failureThreshold cfg <=? cb_consecutiveFailures b
  | Some threshold =>
      let outcomes := cb_outcomes (pruneOutcomes now b) in
      negb (Z.of_nat (length outcomes) <? minimumSamples cfg) && rate_above outcomes threshold
  end.

Definition recordSuccess (now : Z) (b : CircuitBreaker) : CircuitBreaker :=
  let b := recordOutcome false now (add_totals 1 0 0 (cb_lastFailureTime b) b) in
  match cb_state b with
  | HALF_OPEN =>
      let b := set_counters (cb_consecutiveFailures b) (cb_halfOpenSuccesses b + 1) b in
      if successThreshold cfg <=? cb_halfOpenSuccesses b then transitionTo CLOSED now 0 b else b
  | CLOSED => set_counters 0 (cb_halfOpenSuccesses b) b
  | OPEN => b
  end.

Definition recordFailure (now : Z) (random : Q) (b : CircuitBreaker) : CircuitBreaker :=
  let b := add_totals 0 1 0 (Some now) b in
  let b := recordOutcome true now (set_counters (cb_consecutiveFailures b + 1) (cb_halfOpenSuccesses b) b) in
  match cb_state b with
  | HALF_OPEN => transitionTo OPEN now random b
  | CLOSED => if shouldOpen now b then transitionTo OPEN now random b else b
  | OPEN => b
  end.

Definition trip (now : Z) (random : Q) (b : CircuitBreaker) : CircuitBreaker :=
  transitionTo OPEN now random (set_counters (failureThreshold cfg) (cb_halfOpenSuccesses b) b).

Definition reset (now : Z) (b : CircuitBreaker) : CircuitBreaker := transitionTo CLOSED now 0 b.

(** *** [execute], up to the [await] of the action *)

Inductive Admission : Type :=
| ShortCircuited (remaining : Z)
| LetThrough (isProbe : bool).

Definition execute (now : Z) (b : CircuitBreaker) : Admission * CircuitBreaker :=
  let b := getState now b in
  let isProbe := bool_decide (cb_state b = HALF_OPEN) in
  if bool_decide (cb_state b = OPEN) || (isProbe && cb_probeInFlight b)
  then (ShortCircuited (getRemainingCooldownMs now b), add_totals 0 0 1 (cb_lastFailureTime b) b)
  else (LetThrough isProbe, if isProbe then set_flag true b else b).

(** ... once the action is settled ... *)
Definition action_settled (ok : bool) (now : Z) (random : Q) (b : CircuitBreaker) : CircuitBreaker :=
  if ok then recordSuccess now b else recordFailure now random b.

(** ... and its [finally]. *)
Definition release (isProbe : bool) (b : CircuitBreaker) : CircuitBreaker :=
  if isProbe then set_flag false b else b.

(** ** Calls in flight *)

(** A failed call with a fallback is released once the fallback is done; the
    [then] of a scheduled probe runs after [execute] has returned. *)
Inductive Phase : Type := Running | InFallback | Returned.

#[export] Instance Phase_eq_dec : EqDecision Phase.
Proof. solve_decision. Defined.

Record Call : Type := { c_isProbe : bool; c_scheduled : bool; c_fallback : bool; c_phase : Phase }.

Definition with_phase (p : Phase) (c : Call) : Call :=
  {| c_isProbe := c_isProbe c; c_scheduled := c_scheduled c; c_fallback := c_fallback c; c_phase := p |}.

Record World : Type := { w_now : Z; w_breaker : CircuitBreaker; w_calls : list Call }.

Definition with_breaker (w : World) (b : CircuitBreaker) : World :=
  {| w_now := w_now w; w_breaker := b; w_calls := w_calls w |}.

Definition start_call (scheduled fallback : bool) (w : World) : World :=
  let '(admission, b) := execute (w_now w) (w_breaker w) in
  match admission with
  | ShortCircuited _ => with_breaker w b
  | LetThrough isProbe =>
      {| w_now := w_now w; w_breaker := b;
         w_calls := w_calls w ++ [{| c_isProbe := isProbe; c_scheduled := scheduled;
                                     c_fallback := fallback; c_phase := Running |}] |}
  end.

(** The call at [i] is settled: it goes on with its fallback, or is released. *)
Definition settle_call (i : nat) (c : Call) (ok : bool) (random : Q) (w : World) : World :=
  let b := action_settled ok (w_now w) random (w_breaker w) in
  if negb ok && c_fallback c
  then {| w_now := w_now w; w_breaker := b; w_calls := <[i := with_phase InFallback c]> (w_calls w) |}
  else {| w_now := w_now w; w_breaker := release (c_isProbe c) b;
          w_calls := if c_scheduled c && ok then <[i := with_phase Returned c]> (w_calls w)
                     else delete i (w_calls w) |}.

Definition fallback_done (i : nat) (c : Call) (w : World) : World :=
  {| w_now := w_now w; w_breaker := release (c_isProbe c) (w_breaker w); w_calls := delete i (w_calls w) |}.

(** The [then] of a scheduled probe that succeeded. *)
Definition probe_then (i : nat) (w : World) : World :=
  let b := w_breaker w in
  {| w_now := w_now w;
     w_breaker := if bool_decide (cb_state b = HALF_OPEN) then armProbe (baseBackoffMs cfg) (w_now w) b else b;
     w_calls := delete i (w_calls w) |}.

Definition runScheduledProbe (w : World) : World :=
  let b := getState (w_now w) (set_timer None (w_breaker w)) in
  match cb_state b with
  | OPEN => with_breaker w (armProbe (getRemainingCooldownMs (w_now w) b) (w_now w) b)
  | CLOSED => with_breaker w b
  | HALF_OPEN => if cb_probeInFlight b then with_breaker w b else start_call true false (with_breaker w b)
  end.

(** A timer may fire a millisecond before [Date.now()] says so. *)
Inductive breaker_step : World → World → Prop :=
| step_tick w d : 0 ≤ d →
    breaker_step w {| w_now := w_now w + d; w_breaker := w_breaker w; w_calls := w_calls w |}
| step_call w fallback : breaker_step w (start_call false fallback w)
| step_settle w i c ok random : w_calls w !! i = Some c → c_phase c = Running → (0 <= random < 1)%Q →
    breaker_step w (settle_call i c ok random w)
| step_fallback w i c : w_calls w !! i = Some c → c_phase c = InFallback → breaker_step w (fallback_done i c w)
| step_then w i c : w_calls w !! i = Some c → c_phase c = Returned → breaker_step w (probe_then i w)
| step_timer w due : cb_probeTimer (w_breaker w) = Some due → due ≤ w_now w + 1 →
    breaker_step w (runScheduledProbe w)
| step_observe w : breaker_step w (with_breaker w (getState (w_now w) (w_breaker w)))
| step_stats w : breaker_step w (with_breaker w (getState (w_now w) (pruneOutcomes (w_now w) (w_breaker w))))
| step_trip w random : (0 <= random < 1)%Q → breaker_step w (with_breaker w (trip (w_now w) random (w_breaker w)))
| step_reset w : breaker_step w (with_breaker w (reset (w_now w) (w_breaker w))).

Definition initial_world (now : Z) : World :=
  {| w_now := now; w_breaker := new_breaker cfg; w_calls := [] |}.

(** ** The invariant *)

Definition sorted_outcomes (l : list Outcome) : Prop := StronglySorted (λ a b, oc_at a ≤ oc_at b) l.

Record breaker_wf (now : Z) (b : CircuitBreaker) : Prop := {
  wf_cooldown : cooldownPeriodMs cfg ≤ cb_currentCooldownMs b ≤ maxCooldownMs cfg;
  wf_open : cb_state b = OPEN → ∃ t, cb_lastStateChangeAt b = Some t ∧ t ≤ now ∧
    cb_nextAttemptTime b = t + cb_currentCooldownMs b ∧
    cb_probeTimer b = (if probe cfg then Some (cb_nextAttemptTime b) else None);
  wf_closed : cb_state b = CLOSED → cb_nextAttemptTime b = 0 ∧ cb_halfOpenSuccesses b = 0 ∧
    cb_currentCooldownMs b = cooldownPeriodMs cfg ∧ cb_probeTimer b = None ∧
    (failureRateThreshold cfg = None → cb_consecutiveFailures b < failureThreshold cfg);
  wf_half : cb_state b = HALF_OPEN → 0 ≤ cb_halfOpenSuccesses b < successThreshold cfg;
  wf_no_probe : probe cfg = false → cb_probeTimer b = None;
  wf_timer : ∀ due, cb_probeTimer b = Some due → due ≤ now + Z.max (maxCooldownMs cfg) (baseBackoffMs cfg);
  wf_outcomes : sorted_outcomes (cb_outcomes b) ∧ ∀ o, o ∈ cb_outcomes b → oc_at o ≤ now
}.

(** What the constructor is expected to be given. *)
Record sane_config : Prop := {
  sane_cooldown : 0 ≤ cooldownPeriodMs cfg ≤ maxCooldownMs cfg;
  sane_failures : 0 < failureThreshold cfg;
  sane_successes : 0 < successThreshold cfg;
  sane_backoff : 0 ≤ baseBackoffMs cfg
}.

(** A probe holds the flag until its [finally]. *)
Definition holds_flag (c : Call) : bool := c_isProbe c && negb (bool_decide (c_phase c = Returned)).

Record world_ok (w : World) : Prop := {
  ok_breaker : breaker_wf (w_now w) (w_breaker w);
  ok_flag : countb holds_flag (w_calls w) = if cb_probeInFlight (w_breaker w) then 1 else 0
}.

Hypothesis sane : sane_config.

Lemma jitter_bounds current random : (0 <= random)%Q →
  cooldownPeriodMs cfg ≤
    calculateDecorrelatedJitter current (cooldownPeriodMs cfg) (maxCooldownMs cfg) random ≤ maxCooldownMs cfg.
Proof.
  intros Hr. unfold calculateDecorrelatedJitter. destruct sane as [[_ Hc] _ _ _]. split; [|lia].
  apply Z.min_glb; [done|]. rewrite <- (Qfloor_Z (cooldownPeriodMs cfg)) at 1. apply Qfloor_resp_le.
  rewrite <- (Qplus_0_r (inject_Z _)) at 1. apply Qplus_le_compat; [apply Qle_refl|].
  apply Qmult_le_0_compat; [done|]. unfold Qle; cbn. lia.
Qed.

Lemma drop_old_suffix limit l : ∃ l1, l = l1 ++ drop_old limit l.
Proof.
  induction l as [|o l [l1 IH]]; [by exists []|]. cbn [drop_old].
  destruct (oc_at o <=? limit); [exists (o :: l1); cbn; by f_equal|by exists []].
Qed.

Lemma drop_old_filter limit l : sorted_outcomes l → drop_old limit l = List.filter (λ o, limit <? oc_at o) l.
Proof.
  induction l as [|o l IH]; intros Hs; [done|]. cbn. destruct (Z.leb_spec (oc_at o) limit) as [Ho|Ho].
  - destruct (Z.ltb_spec limit (oc_at o)); [lia|]. apply IH. by inversion Hs.
  - destruct (Z.ltb_spec limit (oc_at o)); [|lia]. rewrite lfilter_id; [done|].
    intros x Hx. apply Z.ltb_lt. apply (sorted_elem _ _ _ _ Hs) in Hx. lia.
Qed.

Lemma pruned_outcomes limit now l : sorted_outcomes l ∧ (∀ o, o ∈ l → oc_at o ≤ now) →
  sorted_outcomes (drop_old limit l) ∧ (∀ o, o ∈ drop_old limit l → oc_at o ≤ now).
Proof.
  intros [Hs Hn]. destruct (drop_old_suffix limit l) as [l1 E]. split.
  - apply (sorted_suffix _ l1). unfold sorted_outcomes in Hs. by rewrite E in Hs.
  - intros o Ho. apply Hn. rewrite E. apply elem_of_app. by right.
Qed.

Lemma recorded_outcomes failed now b : sorted_outcomes (cb_outcomes b) ∧ (∀ o, o ∈ cb_outcomes b → oc_at o ≤ now) →
  sorted_outcomes (cb_outcomes (recordOutcome failed now b)) ∧
  (∀ o, o ∈ cb_outcomes (recordOutcome failed now b) → oc_at o ≤ now).
Proof.
  intros [Hs Hn]. apply pruned_outcomes. cbn. split; [by apply sorted_snoc|].
  intros o [Ho| ->%list_elem_of_singleton]%elem_of_app; [by apply Hn|cbn; lia].
Qed.

(** Changing the fields the invariant does not look at. *)
Lemma wf_later now now' b : breaker_wf now b → now ≤ now' → breaker_wf now' b.
Proof.
  intros [H1 H2 H3 H4 H5 H6 [H7 H8]] Hle. constructor; try done.
  - intros Ho. destruct (H2 Ho) as (t & ? & ? & ?). exists t. split_and!; [done|lia|tauto..].
  - intros due Hd. apply H6 in Hd. lia.
  - split; [done|]. intros o Ho. apply H8 in Ho. lia.
Qed.

Lemma wf_totals now x y z t b : breaker_wf now b → breaker_wf now (add_totals x y z t b).
Proof. by intros [H1 H2 H3 H4 H5 H6 H7]; constructor. Qed.

Lemma wf_flag now f b : breaker_wf now b → breaker_wf now (set_flag f b).
Proof. by intros [H1 H2 H3 H4 H5 H6 H7]; constructor. Qed.

Lemma wf_to_closed now random b : cb_state b ≠ CLOSED → breaker_wf now (transitionTo CLOSED now random b).
Proof.
  intros Hs. unfold transitionTo. rewrite bool_decide_eq_false_2 by done. destruct sane as [Hc Hf Hh Hb].
  constructor; cbn; try done.
  - split; [apply Z.le_refl|apply Hc].
  - split; [constructor|]. intros o Ho. by apply not_elem_of_nil in Ho.
Qed.

Lemma wf_to_half now random b : breaker_wf now b → cb_state b = OPEN →
  breaker_wf now (transitionTo HALF_OPEN now random b).
Proof.
  intros [H1 H2 H3 H4 H5 H6 H7] Hs. unfold transitionTo. rewrite Hs. cbn.
  constructor; cbn; try done. intros _. split; [done|]. apply sane.
Qed.

(** From anywhere but OPEN; the counters may be anything. *)
Lemma wf_to_open now random b : (0 <= random)%Q → cb_state b ≠ OPEN →
  sorted_outcomes (cb_outcomes b) ∧ (∀ o, o ∈ cb_outcomes b → oc_at o ≤ now) →
  (probe cfg = false → cb_probeTimer b = None) →
  breaker_wf now (transitionTo OPEN now random b).
Proof.
  intros Hr Hs Ho Hp. unfold transitionTo. rewrite bool_decide_eq_false_2 by done. cbv zeta.
  set (c := if bool_decide (cb_state b = HALF_OPEN) then _ else _).
  assert (cooldownPeriodMs cfg ≤ c ≤ maxCooldownMs cfg) as Hc.
  { unfold c. case_bool_decide; [by apply jitter_bounds|]. destruct sane as [? _ _ _]. lia. }
  clearbody c. unfold armProbe. constructor; destruct (probe cfg) eqn:E; cbn; try done.
  - intros _. exists now. by split_and!.
  - intros _. exists now. split_and!; try done. by apply Hp.
  - intros due [= <-]. lia.
  - rewrite Hp by done. discriminate.
Qed.

Lemma wf_getState now b : breaker_wf now b → breaker_wf now (getState now b).
Proof.
  intros H. unfold getState. destruct (bool_decide _) eqn:E; [|done]. apply bool_decide_eq_true in E.
  destruct (_ <=? _); [|done]. by apply wf_to_half.
Qed.

Lemma wf_prune now b : breaker_wf now b → breaker_wf now (pruneOutcomes now b).
Proof. intros [H1 H2 H3 H4 H5 H6 H7]. constructor; try done. cbn. by apply pruned_outcomes. Qed.

Lemma wf_success now b : breaker_wf now b → breaker_wf now (recordSuccess now b).
Proof.
  intros [H1 H2 H3 H4 H5 H6 H7]. unfold recordSuccess. cbv zeta.
  set (b1 := recordOutcome false now (add_totals 1 0 0 (cb_lastFailureTime b) b)).
  assert (cb_state b1 = cb_state b) as Es by done.
  assert (sorted_outcomes (cb_outcomes b1) ∧ (∀ o, o ∈ cb_outcomes b1 → oc_at o ≤ now)) as H8
    by (by apply recorded_outcomes).
  destruct (cb_state b1) eqn:E1.
  - constructor; try done; cbn; intros _. destruct H3 as (? & ? & ? & ? & ?); [by rewrite <- Es|].
    split_and!; try done. intros _. apply sane.
  - constructor; try done.
  - set (b2 := set_counters (cb_consecutiveFailures b1) (cb_halfOpenSuccesses b1 + 1) b1).
    destruct (Z.leb_spec (successThreshold cfg) (cb_halfOpenSuccesses b2)) as [Hle|Hle].
    + apply wf_to_closed. cbn. by rewrite <- Es.
    + constructor; try done; cbn; try congruence.
      intros _. change (cb_halfOpenSuccesses b2) with (cb_halfOpenSuccesses b + 1) in Hle.
      specialize (H4 (eq_sym Es)). lia.
Qed.

Lemma wf_failure now random b : (0 <= random)%Q → breaker_wf now b → breaker_wf now (recordFailure now random b).
Proof.
  intros Hr [H1 H2 H3 H4 H5 H6 H7]. unfold recordFailure. cbv zeta.
  set (b1 := recordOutcome true now _).
  assert (cb_state b1 = cb_state b) as Es by done.
  assert (sorted_outcomes (cb_outcomes b1) ∧ (∀ o, o ∈ cb_outcomes b1 → oc_at o ≤ now)) as H8
    by (by apply recorded_outcomes).
  destruct (cb_state b1) eqn:E1.
  - destruct (shouldOpen now b1) eqn:Eo.
    + apply wf_to_open; [done|by rewrite E1|done..].
    + constructor; try done; cbn; intros _. destruct H3 as (? & ? & ? & ? & ?); [by rewrite <- Es|].
      split_and!; try done. intros Hn. unfold shouldOpen in Eo. rewrite Hn in Eo. by apply Z.leb_gt in Eo.
  - constructor; try done. intros E. rewrite E in E1. discriminate.
  - apply wf_to_open; [done|by rewrite E1|done..].
Qed.

Lemma wf_trip now random b : (0 <= random)%Q → breaker_wf now b → breaker_wf now (trip now random b).
Proof.
  intros Hr H. unfold trip. destruct (decide (cb_state b = OPEN)) as [E|E].
  - unfold transitionTo. rewrite bool_decide_eq_true_2 by done. destruct H as [H1 H2 H3 H4 H5 H6 H7].
    constructor; cbn; try done. intros. congruence.
  - apply wf_to_open; [done|done|apply H|apply H].
Qed.

Lemma wf_reset now b : breaker_wf now b → breaker_wf now (reset now b).
Proof.
  intros H. unfold reset. destruct (decide (cb_state b = CLOSED)) as [E|E]; [|by apply wf_to_closed].
  unfold transitionTo. by rewrite bool_decide_eq_true_2 by done.
Qed.

(** ** The flag *)

Lemma flag_transition s now random b : cb_probeInFlight (transitionTo s now random b) = cb_probeInFlight b.
Proof.
  unfold transitionTo. case_bool_decide; [done|]. destruct s; [done| |done]. unfold armProbe. by destruct (probe cfg).
Qed.

Lemma flag_getState now b : cb_probeInFlight (getState now b) = cb_probeInFlight b.
Proof. unfold getState. destruct (_ && _); [apply flag_transition|done]. Qed.

Lemma flag_settled ok now random b : cb_probeInFlight (action_settled ok now random b) = cb_probeInFlight b.
Proof.
  unfold action_settled, recordSuccess, recordFailure. destruct ok; cbv zeta.
  - set (b1 := recordOutcome _ _ _). change (cb_probeInFlight b) with (cb_probeInFlight b1).
    destruct (cb_state b1); try done. set (b2 := set_counters _ _ _).
    destruct (_ <=? _); [|done]. apply (flag_transition _ _ _ b2).
  - set (b1 := recordOutcome _ _ _). change (cb_probeInFlight b) with (cb_probeInFlight b1).
    destruct (cb_state b1); try done; [|apply flag_transition].
    destruct (shouldOpen _ _); [|done]. apply flag_transition.
Qed.

Lemma wf_settled ok now random b : (0 <= random)%Q → breaker_wf now b → breaker_wf now (action_settled ok now random b).
Proof. destruct ok; [intros _; apply wf_success|apply wf_failure]. Qed.

Lemma wf_release p now b : breaker_wf now b → breaker_wf now (release p b).
Proof. destruct p; [apply wf_flag|done]. Qed.

Lemma wf_half_timer now t b : breaker_wf now b → cb_state b = HALF_OPEN →
  (∀ due, t = Some due → probe cfg = true ∧ due ≤ now + Z.max (maxCooldownMs cfg) (baseBackoffMs cfg)) →
  breaker_wf now (set_timer t b).
Proof.
  intros [H1 H2 H3 H4 H5 H6 H7] Hs Ht. constructor; cbn; try done; try congruence.
  - intros Hp. destruct t as [due|]; [|done]. destruct (Ht due eq_refl). congruence.
  - intros due Hd. by apply Ht.
Qed.

Lemma set_timer_id b : set_timer (cb_probeTimer b) b = b.
Proof. by destruct b. Qed.

(** The three ways a timer finds the breaker. *)
Lemma timer_cases now b : breaker_wf now b → is_Some (cb_probeTimer b) →
  let b' := getState now (set_timer None b) in
  (cb_state b' = OPEN ∧ armProbe (getRemainingCooldownMs now b') now b' = b) ∨
  (cb_state b' = HALF_OPEN ∧ b' = set_timer None (getState now b) ∧ cb_state (getState now b) = HALF_OPEN).
Proof.
  intros H [due Hdue] b'. subst b'. unfold getState at 1 2 3 4. cbn [cb_state set_timer cb_nextAttemptTime].
  destruct (cb_state b) eqn:Es.
  - destruct (wf_closed _ _ H Es) as (_ & _ & _ & ? & _). congruence.
  - destruct (wf_open _ _ H Es) as (t & _ & _ & _ & Ht). rewrite bool_decide_eq_true_2 by done.
    destruct (Z.leb_spec (cb_nextAttemptTime b) now) as [Hle|Hle]; cbn [andb].
    + right. unfold getState, transitionTo. cbn [cb_state set_timer]. rewrite Es.
      rewrite (bool_decide_eq_true_2 (OPEN = OPEN)), (bool_decide_eq_false_2 (OPEN = HALF_OPEN)) by done.
      cbn [cb_nextAttemptTime set_timer]. rewrite (proj2 (Z.leb_le _ _) Hle). done.
    + left. split; [done|]. unfold getRemainingCooldownMs, armProbe. cbn [cb_state set_timer cb_nextAttemptTime].
      rewrite bool_decide_eq_true_2 by done. destruct (probe cfg) eqn:E; [|congruence]. cbn [negb].
      replace (now + Z.max 0 (cb_nextAttemptTime b - now)) with (cb_nextAttemptTime b) by lia.
      rewrite <- Ht. by destruct b.
  - right. unfold getState. rewrite Es. cbn. by rewrite Es.
Qed.

(** ** Every step keeps the world in order *)

Lemma execute_ok now b : breaker_wf now b →
  let '(admission, b') := execute now b in
  breaker_wf now b' ∧
  match admission with
  | ShortCircuited _ => cb_probeInFlight b' = cb_probeInFlight b ∧
      (cb_state b' = OPEN ∨ cb_state b' = HALF_OPEN ∧ cb_probeInFlight b' = true)
  | LetThrough true => cb_state b' = HALF_OPEN ∧ cb_probeInFlight b = false ∧ cb_probeInFlight b' = true
  | LetThrough false => cb_state b' = CLOSED ∧ cb_probeInFlight b' = cb_probeInFlight b
  end.
Proof.
  intros H. unfold execute. cbv zeta. pose proof (wf_getState _ _ H) as Hg. pose proof (flag_getState now b) as Hf.
  set (b1 := getState now b) in *. destruct (cb_state b1) eqn:E.
  - by split_and!.
  - cbn. split_and!; [by apply wf_totals|done|by left].
  - rewrite (bool_decide_eq_true_2 (HALF_OPEN = HALF_OPEN)), (bool_decide_eq_false_2 (HALF_OPEN = OPEN)) by done.
    cbn. destruct (cb_probeInFlight b1) eqn:Ef.
    + split_and!; [by apply wf_totals|by rewrite <- Hf|right; by split].
    + split_and!; [by apply wf_flag|done|congruence|done].
Qed.

Lemma start_call_ok scheduled fallback w : world_ok w → world_ok (start_call scheduled fallback w).
Proof.
  intros [H1 H2]. unfold start_call. pose proof (execute_ok _ _ H1) as He.
  destruct (execute (w_now w) (w_breaker w)) as [[remaining|[]] b']; destruct He as [Hb He].
  - constructor; [done|]. cbn. destruct He as [-> _]. done.
  - destruct He as (_ & Hf & Hf'). constructor; [done|]. cbn [w_calls w_breaker].
    rewrite countb_app, H2, Hf, Hf'. done.
  - destruct He as [_ Hf]. constructor; [done|]. cbn [w_calls w_breaker].
    rewrite countb_app, H2, Hf. cbn. unfold countb. cbn. lia.
Qed.

(** The flag after a call gives it up. *)
Lemma released (p : bool) (b : CircuitBreaker) (n : Z) :
  (if cb_probeInFlight b then 1 else 0) = (if p then 1 else 0) + n → 0 ≤ n →
  n = if cb_probeInFlight (release p b) then 1 else 0.
Proof. unfold release. destruct p; cbn; destruct (cb_probeInFlight b); lia. Qed.

Lemma settle_call_ok i c ok random w : (0 <= random)%Q → w_calls w !! i = Some c → c_phase c = Running →
  world_ok w → world_ok (settle_call i c ok random w).
Proof.
  intros Hr Hi Hp [H1 H2]. unfold settle_call. cbv zeta.
  pose proof (wf_settled ok _ random _ Hr H1) as Hb. pose proof (flag_settled ok (w_now w) random (w_breaker w)) as Hf.
  set (b := action_settled ok (w_now w) random (w_breaker w)) in *. rewrite <- Hf in H2.
  assert (holds_flag c = c_isProbe c) as Hc by (unfold holds_flag; rewrite Hp; by destruct (c_isProbe c)).
  destruct (negb ok && c_fallback c).
  - constructor; [done|]. cbn [w_calls w_breaker].
    pose proof (countb_insert holds_flag _ _ _ (with_phase InFallback c) Hi) as Hcount.
    assert (holds_flag (with_phase InFallback c) = c_isProbe c) as Hc' by (apply andb_true_r).
    rewrite Hc, Hc' in Hcount. lia.
  - constructor; cbn [w_calls w_breaker]; [by apply wf_release|]. apply released; [|apply countb_nonneg].
    rewrite <- H2. destruct (c_scheduled c && ok).
    + pose proof (countb_insert holds_flag _ _ _ (with_phase Returned c) Hi) as Hcount.
      assert (holds_flag (with_phase Returned c) = false) as Hc' by (apply andb_false_r).
      rewrite Hc, Hc' in Hcount. lia.
    + by rewrite (countb_delete _ _ _ _ Hi), Hc.
Qed.

Lemma fallback_done_ok i c w : w_calls w !! i = Some c → c_phase c = InFallback →
  world_ok w → world_ok (fallback_done i c w).
Proof.
  intros Hi Hp [H1 H2]. constructor; cbn; [by apply wf_release|]. apply released; [|apply countb_nonneg].
  rewrite <- H2, (countb_delete _ _ _ _ Hi). unfold holds_flag at 1. rewrite Hp. by destruct (c_isProbe c).
Qed.

Lemma probe_then_ok i c w : w_calls w !! i = Some c → c_phase c = Returned →
  world_ok w → world_ok (probe_then i w).
Proof.
  intros Hi Hp [H1 H2]. rewrite (countb_delete _ _ _ _ Hi) in H2. unfold holds_flag at 1 in H2.
  rewrite Hp, andb_false_r in H2. unfold probe_then. cbv zeta. case_bool_decide as E; [|by constructor].
  unfold armProbe. destruct (probe cfg) eqn:Ep; [|by constructor]. constructor; [|done].
  apply wf_half_timer; [done..|]. intros due [= <-]. split; [done|]. cbn [w_now]. lia.
Qed.

Lemma runScheduledProbe_ok due w : cb_probeTimer (w_breaker w) = Some due →
  world_ok w → world_ok (runScheduledProbe w).
Proof.
  intros Hd [H1 H2]. unfold runScheduledProbe. cbv zeta.
  destruct (timer_cases _ _ H1 (mk_is_Some _ _ Hd)) as [[E ->]|(E & -> & E')].
  - rewrite E. by constructor.
  - assert (world_ok (with_breaker w (set_timer None (getState (w_now w) (w_breaker w))))) as Hw.
    { constructor; cbn; [apply wf_half_timer; [by apply wf_getState|exact E'|discriminate]|]. by rewrite flag_getState. }
    cbn [cb_state set_timer]. rewrite E'. 
    match goal with |- context [if ?f then _ else _] => destruct f end; [done|by apply start_call_ok].
Qed.

Lemma world_step_ok w w' : breaker_step w w' → world_ok w → world_ok w'.
Proof.
  intros Hstep. destruct Hstep as [w d Hd|w fb|w i c ok r Hi Hp Hr|w i c Hi Hp|w i c Hi Hp|w due Hd _|w|w|w r Hr|w];
    intros [H1 H2].
  - constructor; [|done]. cbn. eapply wf_later; [done|lia].
  - by apply start_call_ok.
  - apply settle_call_ok; [apply Hr|done..].
  - by apply fallback_done_ok.
  - by eapply probe_then_ok.
  - by eapply runScheduledProbe_ok.
  - constructor; cbn; [by apply wf_getState|by rewrite flag_getState].
  - constructor; cbn; [apply wf_getState; by apply wf_prune|by rewrite flag_getState].
  - constructor; cbn; [apply wf_trip; [apply Hr|done]|]. unfold trip. by rewrite flag_transition.
  - constructor; cbn; [by apply wf_reset|]. unfold reset. by rewrite flag_transition.
Qed.

Lemma initial_ok now : world_ok (initial_world now).
Proof.
  constructor; [|done]. destruct sane as [Hc Hf Hh Hb]. constructor; cbn; try done.
  - split; [apply Z.le_refl|apply Hc].
  - split; [constructor|]. intros o Ho. by apply not_elem_of_nil in Ho.
Qed.

Lemma reachable_ok now w : rtc breaker_step (initial_world now) w → world_ok w.
Proof.
  intros H. pose proof (initial_ok now) as H0. revert H0. induction H; [done|]. intros Hx. by eapply IHrtc, world_step_ok.
Qed.

(** ** While the circuit is open *)

Lemma transition_log s now random b : cb_state b ≠ s →
  cb_changes (transitionTo s now random b) = cb_changes b ++ [(cb_state b, s)] ∧
  cb_state (transitionTo s now random b) = s.
Proof.
  intros H. unfold transitionTo. rewrite bool_decide_eq_false_2 by done.
  destruct s; [done| |done]. unfold armProbe. by destruct (probe cfg).
Qed.

Definition call_id (c : Call) : bool * bool * bool := (c_isProbe c, c_scheduled c, c_fallback c).

(** Nothing has happened to the circuit, and nothing was let through. *)
Definition still_open (w w' : World) : Prop :=
  cb_state (w_breaker w') = OPEN ∧ cb_nextAttemptTime (w_breaker w') = cb_nextAttemptTime (w_breaker w) ∧
  cb_changes (w_breaker w') = cb_changes (w_breaker w) ∧
  (call_id <$> w_calls w') `sublist_of` (call_id <$> w_calls w).

Lemma getState_open now b : cb_state b = OPEN → now < cb_nextAttemptTime b → getState now b = b.
Proof.
  intros Hs Hn. unfold getState. rewrite bool_decide_eq_true_2 by done.
  destruct (Z.leb_spec (cb_nextAttemptTime b) now); [lia|done].
Qed.

Lemma settled_open ok now random b : cb_state b = OPEN →
  let b' := action_settled ok now random b in
  cb_state b' = OPEN ∧ cb_nextAttemptTime b' = cb_nextAttemptTime b ∧ cb_changes b' = cb_changes b.
Proof. intros H. destruct ok; cbn; unfold recordSuccess, recordFailure; cbn; by rewrite H. Qed.

Lemma call_id_insert p i c (l : list Call) : l !! i = Some c →
  (call_id <$> <[i:=with_phase p c]> l) = call_id <$> l.
Proof.
  intros H. rewrite list_fmap_insert. apply list_insert_id. by rewrite list_lookup_fmap, H.
Qed.

Lemma call_id_delete i (l : list Call) : (call_id <$> delete i l) `sublist_of` (call_id <$> l).
Proof. apply fmap_sublist, sublist_delete. Qed.

Lemma start_call_now scheduled fallback w : w_now (start_call scheduled fallback w) = w_now w.
Proof. unfold start_call. by destruct (execute _ _) as [[] ?]. Qed.

Lemma runScheduledProbe_now w : w_now (runScheduledProbe w) = w_now w.
Proof.
  unfold runScheduledProbe. cbv zeta. destruct (cb_state _); [done..|].
  match goal with |- context [if ?f then _ else _] => destruct f end; [done|by rewrite start_call_now].
Qed.

Lemma settle_call_now i c ok random w : w_now (settle_call i c ok random w) = w_now w.
Proof. unfold settle_call. cbv zeta. by destruct (negb ok && c_fallback c). Qed.

Lemma step_now w w' : breaker_step w w' → w_now w ≤ w_now w'.
Proof.
  destruct 1; rewrite ?start_call_now, ?settle_call_now, ?runScheduledProbe_now; cbn; lia.
Qed.

Lemma start_call_open scheduled fallback w : cb_state (w_breaker w) = OPEN →
  w_now w < cb_nextAttemptTime (w_breaker w) →
  start_call scheduled fallback w
  = with_breaker w (add_totals 0 0 1 (cb_lastFailureTime (w_breaker w)) (w_breaker w)).
Proof.
  intros Ho Hn. unfold start_call, execute. cbv zeta. by rewrite getState_open, Ho by done.
Qed.

Lemma settle_call_open i c ok random w : cb_state (w_breaker w) = OPEN → w_calls w !! i = Some c →
  still_open w (settle_call i c ok random w).
Proof.
  intros Ho Hi. destruct (settled_open ok (w_now w) random _ Ho) as (S1 & S2 & S3).
  unfold settle_call. cbv zeta. destruct (negb ok && c_fallback c).
  - split_and!; [done..|]. cbn. by rewrite call_id_insert.
  - unfold still_open. cbn. split_and!; [by destruct (c_isProbe c)..|].
    destruct (c_scheduled c && ok); [by rewrite call_id_insert|apply call_id_delete].
Qed.

(** One step of an open circuit before its time: only [reset] matters. *)
Lemma open_step w w' : world_ok w → breaker_step w w' → cb_state (w_breaker w) = OPEN →
  w_now w' < cb_nextAttemptTime (w_breaker w) →
  still_open w w' ∨ cb_changes (w_breaker w') = cb_changes (w_breaker w) ++ [(OPEN, CLOSED)].
Proof.
  intros [Hb _] Hstep Ho Hn'. pose proof (step_now _ _ Hstep) as Hle.
  assert (w_now w < cb_nextAttemptTime (w_breaker w)) as Hn by lia. clear Hle Hn'.
  destruct Hstep as [w d Hd|w fb|w i c ok r Hi Hp Hr|w i c Hi Hp|w i c Hi Hp|w due Hd _|w|w|w r Hr|w];
    try (left; unfold still_open; by split_and!).
  - left. by rewrite start_call_open.
  - left. by apply settle_call_open.
  - left. unfold still_open, fallback_done, release. cbn.
    split_and!; [by destruct (c_isProbe c)..|]. apply call_id_delete.
  - left. unfold still_open, probe_then. rewrite Ho. cbn. split_and!; try done. apply call_id_delete.
  - left. unfold runScheduledProbe. cbv zeta.
    destruct (timer_cases _ _ Hb (mk_is_Some _ _ Hd)) as [[E ->]|(E & _ & E')].
    + rewrite E. by split_and!.
    + rewrite getState_open in E' by done. congruence.
  - left. rewrite getState_open by done. by split_and!.
  - left. rewrite getState_open by done. by split_and!.
  - left. unfold trip, transitionTo. cbn [cb_state set_counters]. rewrite Ho. by split_and!.
  - right. cbn. unfold reset. destruct (transition_log CLOSED (w_now w) 0 (w_breaker w)) as [-> _]; congruence.
Qed.

(** *** The log only grows *)

Definition log_grows (b b' : CircuitBreaker) : Prop := ∃ log, cb_changes b' = cb_changes b ++ log.

#[local] Instance log_grows_trans : Transitive log_grows.
Proof. intros b1 b2 b3 [l1 H1] [l2 H2]. exists (l1 ++ l2). by rewrite H2, H1, (assoc (++)). Qed.

Lemma log_same b b' : cb_changes b' = cb_changes b → log_grows b b'.
Proof. intros H. exists []. by rewrite app_nil_r. Qed.

Lemma log_transition s now random b : log_grows b (transitionTo s now random b).
Proof.
  destruct (decide (cb_state b = s)) as [E|E]; [|eexists; by apply transition_log].
  apply log_same. unfold transitionTo. by rewrite bool_decide_eq_true_2.
Qed.

Lemma log_getState now b : log_grows b (getState now b).
Proof. unfold getState. destruct (_ && _); [apply log_transition|by apply log_same]. Qed.

Lemma log_settled ok now random b : log_grows b (action_settled ok now random b).
Proof.
  unfold action_settled, recordSuccess, recordFailure. destruct ok; cbv zeta.
  - set (b1 := recordOutcome _ _ _). trans b1; [by apply log_same|].
    destruct (cb_state b1); [by apply log_same..|]. set (b2 := set_counters _ _ _). trans b2; [by apply log_same|].
    destruct (_ <=? _); [apply log_transition|by apply log_same].
  - set (b1 := recordOutcome _ _ _). trans b1; [by apply log_same|].
    destruct (cb_state b1); [|by apply log_same|apply log_transition].
    destruct (shouldOpen _ _); [apply log_transition|by apply log_same].
Qed.

Lemma log_execute now b : log_grows b (execute now b).2.
Proof.
  unfold execute. cbv zeta. trans (getState now b); [apply log_getState|].
  destruct (bool_decide _ || _); cbn; [by apply log_same|]. case_bool_decide; by apply log_same.
Qed.

Lemma log_start scheduled fallback w : log_grows (w_breaker w) (w_breaker (start_call scheduled fallback w)).
Proof.
  unfold start_call. pose proof (log_execute (w_now w) (w_breaker w)) as H.
  by destruct (execute _ _) as [[] ?].
Qed.

Lemma step_log w w' : breaker_step w w' → log_grows (w_breaker w) (w_breaker w').
Proof.
  destruct 1 as [w d Hd|w fb|w i c ok r Hi Hp Hr|w i c Hi Hp|w i c Hi Hp|w due Hd _|w|w|w r Hr|w].
  - by apply log_same.
  - apply log_start.
  - unfold settle_call. cbv zeta. trans (action_settled ok (w_now w) r (w_breaker w)); [apply log_settled|].
    destruct (negb ok && c_fallback c); apply log_same; [done|]. cbn. by destruct (c_isProbe c).
  - apply log_same. cbn. by destruct (c_isProbe c).
  - apply log_same. cbn. case_bool_decide; [|done]. unfold armProbe. by destruct (probe cfg).
  - unfold runScheduledProbe. cbv zeta. set (b1 := getState _ _).
    assert (log_grows (w_breaker w) b1) as Hg.
    { trans (set_timer None (w_breaker w)); [by apply log_same|apply log_getState]. }
    destruct (cb_state b1); [done| |].
    + trans b1; [done|]. apply log_same. cbn. unfold armProbe. by destruct (probe cfg).
    + destruct (cb_probeInFlight b1); [done|]. trans b1; [done|]. apply (log_start _ _ (with_breaker w b1)).
  - apply log_getState.
  - cbn. trans (pruneOutcomes (w_now w) (w_breaker w)); [by apply log_same|apply log_getState].
  - cbn. unfold trip. set (b1 := set_counters _ _ _). trans b1; [by apply log_same|apply log_transition].
  - apply log_transition.
Qed.

Lemma rtc_log w w' : rtc breaker_step w w' → log_grows (w_breaker w) (w_breaker w').
Proof. induction 1 as [|w1 w2 w3 H _ IH]; [by apply log_same|]. etrans; [by apply step_log|done]. Qed.

Lemma rtc_now w w' : rtc breaker_step w w' → w_now w ≤ w_now w'.
Proof. induction 1 as [|w1 w2 w3 H _ IH]; [lia|]. apply step_now in H. lia. Qed.

Lemma open_steps w w' : rtc breaker_step w w' → world_ok w → cb_state (w_breaker w) = OPEN →
  w_now w' < cb_nextAttemptTime (w_breaker w) →
  still_open w w' ∨ ∃ log, (OPEN, CLOSED) ∈ log ∧ cb_changes (w_breaker w') = cb_changes (w_breaker w) ++ log.
Proof.
  induction 1 as [w|w1 w2 w3 Hstep Hrest IH]; intros Hok Ho Hn; [left; by split_and!|].
  destruct (open_step _ _ Hok Hstep Ho) as [(S1 & S2 & S3 & S4)|Hc].
  - apply rtc_now in Hrest. lia.
  - destruct IH as [(R1 & R2 & R3 & R4)|(log & L1 & L2)]; [by eapply world_step_ok|done|by rewrite S2| |].
    + left. split_and!; [done|congruence|congruence|by etrans].
    + right. exists log. split; [done|]. by rewrite L2, S3.
  - right. destruct (rtc_log _ _ Hrest) as [log Hl]. exists ((OPEN, CLOSED) :: log).
    split; [by left|]. by rewrite Hl, Hc, <- (assoc (++)).
Qed.

(** ** Recovery without traffic *)

(** A world whose callers pass no fallback. *)
Definition no_fallback (w : World) : Prop := ∀ c, c ∈ w_calls w → c_fallback c = false.

Definition plain_step (w w' : World) : Prop := breaker_step w w' ∧ no_fallback w'.

(** Somebody will move the half-open circuit on. *)
Record attended (w : World) : Prop := {
  at_half : cb_state (w_breaker w) = HALF_OPEN →
    is_Some (cb_probeTimer (w_breaker w)) ∨ cb_probeInFlight (w_breaker w) = true;
  at_calls : ∀ c, c ∈ w_calls w → c_fallback c = false ∧ c_phase c ≠ InFallback
}.

(** What happens with no request from outside: time passes, the timer fires,
    and calls already made succeed. *)
Inductive quiet_step : World → World → Prop :=
| quiet_tick w d : 0 ≤ d →
    quiet_step w {| w_now := w_now w + d; w_breaker := w_breaker w; w_calls := w_calls w |}
| quiet_timer w due : cb_probeTimer (w_breaker w) = Some due → due ≤ w_now w + 1 →
    quiet_step w (runScheduledProbe w)
| quiet_success w i c : w_calls w !! i = Some c → c_phase c = Running → quiet_step w (settle_call i c true 0 w).

Hypothesis has_probe : probe cfg = true.
Hypothesis one_success : successThreshold cfg = 1.

Lemma half_getState now b : breaker_wf now b → cb_state (getState now b) = HALF_OPEN →
  cb_state b = HALF_OPEN ∧ getState now b = b ∨ is_Some (cb_probeTimer (getState now b)).
Proof.
  intros H Hs. unfold getState in *. destruct (cb_state b) eqn:E.
  - rewrite (bool_decide_eq_false_2 (CLOSED = OPEN)) in Hs by done. cbn in Hs. congruence.
  - right. destruct (wf_open _ _ H E) as (t & _ & _ & _ & Ht). rewrite has_probe in Ht.
    rewrite bool_decide_eq_true_2 in * by done. destruct (_ <=? _); [|cbn in Hs; congruence].
    cbn [andb] in *. unfold transitionTo.
    rewrite E, (bool_decide_eq_false_2 (OPEN = HALF_OPEN)) by done. cbn. by rewrite Ht.
  - left. split; [done|]. by rewrite bool_decide_eq_false_2.
Qed.

Lemma settled_not_half ok now random b : breaker_wf now b → cb_state (action_settled ok now random b) ≠ HALF_OPEN.
Proof.
  intros H. unfold action_settled, recordSuccess, recordFailure. destruct ok; cbv zeta.
  - set (b1 := recordOutcome _ _ _). assert (cb_state b1 = cb_state b) as Es by done.
    destruct (cb_state b1) eqn:E1; [change (cb_state b1 ≠ HALF_OPEN); congruence|congruence|].
    pose proof (wf_half _ _ H (eq_sym Es)) as Hh. rewrite one_success in *.
    set (b2 := set_counters _ _ _). change (cb_halfOpenSuccesses b2) with (cb_halfOpenSuccesses b + 1).
    destruct (Z.leb_spec 1 (cb_halfOpenSuccesses b + 1)); [|lia].
    destruct (transition_log CLOSED now 0 b2) as [_ ->]; [|done]. change (cb_state b1 ≠ CLOSED). congruence.
  - set (b1 := recordOutcome _ _ _). destruct (cb_state b1) eqn:E1; [|congruence|].
    + destruct (shouldOpen now b1); [|congruence].
      destruct (transition_log OPEN now random b1) as [_ ->]; congruence.
    + destruct (transition_log OPEN now random b1) as [_ ->]; congruence.
Qed.

Lemma start_call_attended scheduled w : world_ok w →
  (∀ c, c ∈ w_calls w → c_fallback c = false ∧ c_phase c ≠ InFallback) →
  attended (start_call scheduled false w).
Proof.
  intros [Hb _] A2. unfold start_call. pose proof (execute_ok _ _ Hb) as He.
  destruct (execute (w_now w) (w_breaker w)) as [[r|p] b'] eqn:E; destruct He as [Hb' He].
  - split; [|done]. cbn. intros Hs. destruct He as [_ [?|[_ ?]]]; [congruence|by right].
  - split; cbn.
    + intros Hs. destruct p; [right; apply He|]. destruct He; congruence.
    + intros c [Hc| ->%list_elem_of_singleton]%elem_of_app; [by apply A2|done].
Qed.

Lemma attended_getState now b (calls : list Call) : breaker_wf now b →
  attended {| w_now := now; w_breaker := b; w_calls := calls |} →
  attended {| w_now := now; w_breaker := getState now b; w_calls := calls |}.
Proof.
  intros Hb [A1 A2]. split; [|done]. cbn in *. intros Hs.
  destruct (half_getState _ _ Hb Hs) as [[H1 ->]|H2]; [by apply A1|by left].
Qed.

Lemma elem_of_insert_phase p i c c' (l : list Call) :
  l !! i = Some c → c' ∈ <[i:=with_phase p c]> l → c' ∈ l ∨ c' = with_phase p c.
Proof.
  intros Hi [j Hj]%list_elem_of_lookup. destruct (decide (i = j)) as [->|Hne].
  - rewrite list_lookup_insert_eq in Hj by (by eapply lookup_lt_Some). injection Hj as <-. by right.
  - rewrite list_lookup_insert_ne in Hj by done. left. by eapply list_elem_of_lookup_2.
Qed.

Lemma attended_step w w' : world_ok w → plain_step w w' → attended w → attended w'.
Proof.
  intros [Hb Hf] [Hstep Hnf] Ha. pose proof Ha as [A1 A2].
  destruct Hstep as [w d Hd|w fb|w i c ok r Hi Hp Hr|w i c Hi Hp|w i c Hi Hp|w due Hd _|w|w|w r Hr|w].
  - by split.
  - destruct fb; [|by apply start_call_attended]. destruct (start_call_attended false w) as [B1 B2]; [done..|].
    unfold start_call in *. destruct (execute _ _) as [[r|p] b'] eqn:E; [by split|].
    cbn in Hnf. assert (true = false) as ?; [|done].
    apply (Hnf {| c_isProbe := p; c_scheduled := false; c_fallback := true; c_phase := Running |}).
    apply elem_of_app. right. by left.
  - pose proof (list_elem_of_lookup_2 _ _ _ Hi) as Hin. destruct (A2 _ Hin) as [Hc _].
    unfold settle_call in *. cbv zeta in *. rewrite Hc, andb_false_r in *. split; cbn.
    + intros Hs. exfalso. apply (settled_not_half ok (w_now w) r _ Hb). by destruct (c_isProbe c).
    + intros c' Hc'. destruct (c_scheduled c && ok).
      * destruct (elem_of_insert_phase _ _ _ _ _ Hi Hc') as [?| ->]; [by apply A2|done].
      * apply list_elem_of_delete_inv in Hc'. by apply A2.
  - destruct (A2 c) as [_ ?]; [by eapply list_elem_of_lookup_2|done].
  - split; cbn; [|intros c' Hc'%list_elem_of_delete_inv; by apply A2].
    case_bool_decide as E; [|done]. intros _. left. unfold armProbe. by rewrite has_probe.
  - unfold runScheduledProbe. cbv zeta.
    destruct (timer_cases _ _ Hb (mk_is_Some _ _ Hd)) as [[E ->]|(E & Eb & E')].
    + rewrite E. by split.
    + rewrite E. set (b1 := getState (w_now w) (set_timer None (w_breaker w))) in *.
      destruct (cb_probeInFlight b1) eqn:E1.
      * split; [|done]. cbn. by right.
      * assert (world_ok (with_breaker w b1)) as Hw.
        { constructor; cbn; [rewrite Eb; apply wf_half_timer; [by apply wf_getState|exact E'|discriminate]|].
          unfold b1. by rewrite flag_getState. }
        by apply start_call_attended.
  - by apply attended_getState.
  - apply attended_getState; [by apply wf_prune|]. by split.
  - split; [|done]. cbn. unfold trip. intros Hs. exfalso.
    destruct (decide (cb_state (w_breaker w) = OPEN)) as [E|E].
    + unfold transitionTo in Hs. rewrite bool_decide_eq_true_2 in Hs by done. cbn in Hs. congruence.
    + destruct (transition_log OPEN (w_now w) r (set_counters (failureThreshold cfg)
        (cb_halfOpenSuccesses (w_breaker w)) (w_breaker w))) as [_ Ht]; [done|]. congruence.
  - split; [|done]. cbn. unfold reset. intros Hs. exfalso.
    destruct (decide (cb_state (w_breaker w) = CLOSED)) as [E|E].
    + unfold transitionTo in Hs. rewrite bool_decide_eq_true_2 in Hs by done. congruence.
    + destruct (transition_log CLOSED (w_now w) 0 (w_breaker w)) as [_ Ht]; [done|]. congruence.
Qed.

Lemma attended_reachable now w : rtc plain_step (initial_world now) w → world_ok w ∧ attended w.
Proof.
  intros H. assert (world_ok (initial_world now) ∧ attended (initial_world now)) as H0.
  { split; [apply initial_ok|]. split; cbn; [done|]. intros c Hc. by apply not_elem_of_nil in Hc. }
  revert H0. induction H as [|w1 w2 w3 Hs _ IH]; [done|]. intros [Hok Hat]. apply IH.
  split; [by eapply world_step_ok; [apply Hs|]|by eapply attended_step].
Qed.

Lemma attended_no_fallback w : attended w → no_fallback w.
Proof. intros [_ A] c Hc. by apply A. Qed.

Lemma run_no_fallback w : no_fallback w → no_fallback (runScheduledProbe w).
Proof.
  intros H. unfold runScheduledProbe. cbv zeta. destruct (cb_state _); [done..|].
  match goal with |- context [if ?f then _ else _] => destruct f end; [done|].
  unfold start_call. destruct (execute _ _) as [[r|p] b']; [done|].
  intros c [Hc| ->%list_elem_of_singleton]%elem_of_app; [by apply H|done].
Qed.

(** The probe in flight succeeds. *)
Lemma probe_closes w : world_ok w → attended w → cb_state (w_breaker w) = HALF_OPEN →
  cb_probeInFlight (w_breaker w) = true →
  ∃ w', quiet_step w w' ∧ cb_state (w_breaker w') = CLOSED ∧ w_now w' = w_now w.
Proof.
  intros [Hb Hf] [_ A2] Hs Hfl. rewrite Hfl in Hf.
  assert (∃ i c, w_calls w !! i = Some c ∧ holds_flag c = true) as (i & c & Hi & Hc).
  { destruct (existsb holds_flag (w_calls w)) eqn:E.
    - apply existsb_exists in E as (c & Hin & Hc). apply list_elem_of_In, list_elem_of_lookup in Hin as [i Hi].
      by exists i, c.
    - rewrite countb_zero in Hf; [lia|]. intros c Hc. destruct (holds_flag c) eqn:E'; [|done].
      rewrite <- E. symmetry. apply existsb_exists. exists c. by rewrite <- list_elem_of_In. }
  assert (c_phase c = Running) as Hp.
  { destruct (A2 c) as [_ Hn]; [by eapply list_elem_of_lookup_2|]. unfold holds_flag in Hc.
    apply andb_true_iff in Hc as [_ Hc]. destruct (c_phase c); [done..|discriminate Hc]. }
  exists (settle_call i c true 0 w). split; [by econstructor|]. split; [|apply settle_call_now].
  unfold settle_call. cbn [negb andb]. cbv zeta. cbn [w_breaker].
  assert (cb_state (action_settled true (w_now w) 0 (w_breaker w)) = CLOSED) as Hcl.
  { pose proof (settled_not_half true (w_now w) 0 _ Hb) as Hn. unfold action_settled, recordSuccess in *.
    cbv zeta in *. set (b1 := recordOutcome _ _ _) in *. change (cb_state b1) with (cb_state (w_breaker w)) in *.
    rewrite Hs in *. set (b2 := set_counters _ _ _) in *. destruct (_ <=? _).
    - apply transition_log. change (cb_state (w_breaker w) ≠ CLOSED). by rewrite Hs.
    - exfalso. apply Hn. exact Hs. }
  by destruct (c_isProbe c).
Qed.

(** The timer finds a circuit ready to be probed. *)
Lemma timer_probes w due : world_ok w → cb_probeTimer (w_breaker w) = Some due →
  cb_state (w_breaker w) = HALF_OPEN ∨ cb_state (w_breaker w) = OPEN ∧ cb_nextAttemptTime (w_breaker w) ≤ w_now w →
  let w' := runScheduledProbe w in
  cb_state (w_breaker w') = HALF_OPEN ∧ cb_probeInFlight (w_breaker w') = true.
Proof.
  intros Hok Hd Hs w'. pose proof (runScheduledProbe_ok _ _ Hd Hok) as [Hb' _]. destruct Hok as [Hb _].
  subst w'. revert Hb'. unfold runScheduledProbe. cbv zeta.
  destruct (timer_cases _ _ Hb (mk_is_Some _ _ Hd)) as [[E E1]|(E & _ & _)].
  { exfalso. unfold getState in E. cbn [cb_state set_timer cb_nextAttemptTime] in E. destruct Hs as [Hs|[Hs Hn]].
    - rewrite Hs in E. rewrite bool_decide_eq_false_2 in E by done. cbn in E. congruence.
    - rewrite Hs in E. rewrite bool_decide_eq_true_2 in E by done.
      rewrite (proj2 (Z.leb_le _ _) Hn) in E. cbn [andb] in E.
      destruct (transition_log HALF_OPEN (w_now w) 0 (set_timer None (w_breaker w))) as [_ ?]; [cbn|]; congruence. }
  rewrite E. set (b1 := getState _ _) in *. destruct (cb_probeInFlight b1) eqn:Ef; [done|]. intros _.
  unfold start_call, execute. cbv zeta. cbn [w_breaker with_breaker w_now].
  assert (getState (w_now w) b1 = b1) as -> by (unfold getState; by rewrite bool_decide_eq_false_2 by congruence).
  rewrite E, Ef. done.
Qed.

Lemma fire_and_close w due : world_ok w → attended w → cb_probeTimer (w_breaker w) = Some due → due ≤ w_now w →
  cb_state (w_breaker w) = HALF_OPEN ∨ cb_state (w_breaker w) = OPEN ∧ cb_nextAttemptTime (w_breaker w) ≤ w_now w →
  ∃ w', rtc quiet_step w w' ∧ cb_state (w_breaker w') = CLOSED ∧ w_now w' = w_now w.
Proof.
  intros Hok Hat Hd Hdue Hs. destruct (timer_probes _ _ Hok Hd Hs) as [Hh Hf].
  assert (breaker_step w (runScheduledProbe w)) as Hstep by (apply (step_timer w due); [done|lia]).
  assert (plain_step w (runScheduledProbe w)) as Hplain
    by (split; [done|]; by apply run_no_fallback, attended_no_fallback).
  destruct (probe_closes (runScheduledProbe w)) as (w' & Hq & Hc & Hn);
    [by eapply world_step_ok|by eapply attended_step|done..|].
  exists w'. split_and!; [|done|by rewrite Hn, runScheduledProbe_now].
  eapply rtc_l; [eapply (quiet_timer w due); [done|lia]|]. by apply rtc_once.
Qed.

Lemma recovers w : world_ok w → attended w →
  ∃ w', rtc quiet_step w w' ∧ cb_state (w_breaker w') = CLOSED ∧
    w_now w' ≤ w_now w + Z.max (maxCooldownMs cfg) (baseBackoffMs cfg).
Proof.
  intros Hok Hat. destruct sane as [Hc0 _ _ _].
  assert (∀ due, cb_probeTimer (w_breaker w) = Some due →
    cb_state (w_breaker w) = HALF_OPEN ∨ cb_state (w_breaker w) = OPEN ∧ cb_nextAttemptTime (w_breaker w) = due →
    ∃ w', rtc quiet_step w w' ∧ cb_state (w_breaker w') = CLOSED ∧
      w_now w' ≤ w_now w + Z.max (maxCooldownMs cfg) (baseBackoffMs cfg)) as Hfire.
  { intros due Hd Hs. pose proof (wf_timer _ _ (ok_breaker _ Hok) _ Hd) as Hdue.
    set (d := Z.max 0 (due - w_now w)).
    set (w1 := {| w_now := w_now w + d; w_breaker := w_breaker w; w_calls := w_calls w |}).
    assert (breaker_step w w1) as Hstep by (apply step_tick; lia).
    destruct (fire_and_close w1 due) as (w' & Hr & Hcl & Hn).
    - by eapply world_step_ok.
    - apply (attended_step w); [done| |done]. split; [done|]. exact (attended_no_fallback w Hat).
    - done.
    - cbn. lia.
    - cbn. destruct Hs as [Hs|[Hs Hn]]; [by left|right]. split; [done|]. rewrite Hn. lia.
    - exists w'. split_and!; [eapply rtc_l; [apply (quiet_tick w d); lia|done]|done|].
      rewrite Hn. change (w_now w1) with (w_now w + d). unfold d. lia. }
  destruct (cb_state (w_breaker w)) eqn:E.
  - exists w. split_and!; [done..|]. lia.
  - destruct (wf_open _ _ (ok_breaker _ Hok) E) as (t & _ & _ & _ & Ht). rewrite has_probe in Ht.
    apply (Hfire _ Ht). by right.
  - destruct (at_half _ Hat E) as [[due Hd]|Hf]; [apply (Hfire _ Hd); by left|].
    destruct (probe_closes w) as (w' & Hq & Hcl & Hn); [done..|]. exists w'.
    split_and!; [by apply rtc_once|done|lia].
Qed.

(** ** When a closed circuit opens *)

Definition record (o : Outcome) (b : CircuitBreaker) : CircuitBreaker :=
  action_settled (negb (oc_failed o)) (oc_at o) 0 b.

Definition record_all (h : list Outcome) : CircuitBreaker := fold_left (λ b o, record o b) h (new_breaker cfg).

(** The reference: what a history of outcomes, oldest first, says. *)
Fixpoint leading_failures (l : list Outcome) : Z :=
  match l with
  | [] => 0
  | o :: l' => if oc_failed o then 1 + leading_failures l' else 0
  end.

Definition failures_in_a_row (h : list Outcome) : Z := leading_failures (rev h).

Definition window (now : Z) (h : list Outcome) : list Outcome :=
  List.filter (λ o, now - rollingWindowMs cfg <? oc_at o) h.

Definition too_many_failures (now : Z) (h : list Outcome) : bool :=
  match failureRateThreshold cfg with
  | None => failureThreshold cfg <=? failures_in_a_row h
  | Some threshold =>
      (minimumSamples cfg <=? Z.of_nat (length (window now h))) && rate_above (window now h) threshold
  end.

(** Some failure of the history was one too many. *)
Definition tripped (h : list Outcome) : Prop :=
  ∃ p o, p ++ [o] `prefix_of` h ∧ oc_failed o = true ∧ too_many_failures (oc_at o) (p ++ [o]) = true.

Record closed_after (h : list Outcome) (b : CircuitBreaker) : Prop := {
  ca_state : cb_state b = CLOSED;
  ca_row : cb_consecutiveFailures b = failures_in_a_row h;
  ca_outcomes : cb_outcomes b = match last h with Some o => window (oc_at o) h | None => [] end
}.

Lemma prefix_snoc {A} (p h : list A) (x : A) : p `prefix_of` h ++ [x] → p = h ++ [x] ∨ p `prefix_of` h.
Proof.
  intros [k Hk]. destruct k as [|y k' _] using rev_ind; [left; by rewrite app_nil_r in Hk|].
  right. rewrite (assoc (++)) in Hk. apply app_inj_tail in Hk as [-> _]. by eexists.
Qed.

Lemma tripped_snoc h o : tripped (h ++ [o]) ↔
  tripped h ∨ oc_failed o = true ∧ too_many_failures (oc_at o) (h ++ [o]) = true.
Proof.
  split.
  - intros (p & o' & Hp & Hf & Ht). destruct (prefix_snoc _ _ _ Hp) as [E|Hp'].
    + apply app_inj_tail in E as [-> ->]. by right.
    + left. by exists p, o'.
  - intros [(p & o' & Hp & Hf & Ht)|[Hf Ht]]; [exists p, o'|by exists h, o].
    split_and!; [|done..]. etrans; [exact Hp|]. by eexists.
Qed.

Lemma window_sorted now h : sorted_outcomes h → sorted_outcomes (window now h).
Proof.
  unfold window. induction h as [|y h IH]; intros Hs; [constructor|]. cbn.
  assert (sorted_outcomes h) as Hs' by (by inversion Hs).
  destruct (_ <? _); [|by apply IH]. constructor; [by apply IH|]. apply List.Forall_forall.
  intros x [Hx _]%filter_In. apply list_elem_of_In in Hx. exact (sorted_elem _ _ _ _ Hs Hx).
Qed.

Lemma sorted_last h o : sorted_outcomes (h ++ [o]) → sorted_outcomes h ∧ ∀ x, x ∈ h → oc_at x ≤ oc_at o.
Proof.
  induction h as [|y h IH]; intros Hs; [split; [constructor|]; intros x Hx; by apply not_elem_of_nil in Hx|].
  destruct IH as [I1 I2]; [by inversion Hs|]. split.
  - constructor; [done|]. apply List.Forall_forall. intros x Hx%list_elem_of_In.
    apply (sorted_elem _ _ _ _ Hs). apply elem_of_app. by left.
  - intros x [->|Hx]%elem_of_cons; [|by apply I2]. apply (sorted_elem _ _ _ o Hs). apply elem_of_app. right. by left.
Qed.

Lemma window_snoc h o b : sorted_outcomes (h ++ [o]) → closed_after h b →
  drop_old (oc_at o - rollingWindowMs cfg) (cb_outcomes b ++ [o]) = window (oc_at o) (h ++ [o]).
Proof.
  intros Hs [_ _ ->]. destruct h as [|o' h' _] using rev_ind.
  { unfold window. cbn. destruct (Z.leb_spec (oc_at o) (oc_at o - rollingWindowMs cfg)),
      (Z.ltb_spec (oc_at o - rollingWindowMs cfg) (oc_at o)); done || lia. }
  rewrite last_snoc. set (h := h' ++ [o']) in *. destruct (sorted_last _ _ Hs) as [Hsh Hlast].
  rewrite drop_old_filter.
  - unfold window. rewrite !List.filter_app. f_equal. apply lfilter_lfilter. intros x.
    rewrite !Z.ltb_lt. assert (oc_at o' ≤ oc_at o); [|lia]. apply Hlast. apply elem_of_app. right. by left.
  - apply sorted_snoc; [by apply window_sorted|]. intros x [Hx _]%elem_of_lfilter. by apply Hlast.
Qed.

Lemma failures_snoc h o :
  failures_in_a_row (h ++ [o]) = if oc_failed o then 1 + failures_in_a_row h else 0.
Proof. unfold failures_in_a_row. by rewrite rev_app_distr. Qed.

Lemma window_again now h : window now (window now h) = window now h.
Proof. apply lfilter_id. by intros x [_ Hx]%elem_of_lfilter. Qed.

Lemma should_open_spec h o b : sorted_outcomes (h ++ [o]) → closed_after h b → oc_failed o = true →
  shouldOpen (oc_at o) (recordOutcome true (oc_at o)
    (set_counters (cb_consecutiveFailures b + 1) (cb_halfOpenSuccesses b) (add_totals 0 1 0 (Some (oc_at o)) b)))
  = too_many_failures (oc_at o) (h ++ [o]).
Proof.
  intros Hs Hb Hf. unfold shouldOpen, too_many_failures. destruct (failureRateThreshold cfg) as [q|].
  - cbn [cb_outcomes recordOutcome pruneOutcomes set_outcomes set_counters add_totals].
    replace {| oc_at := oc_at o; oc_failed := true |} with o by (destruct o as [t f]; cbn in *; by subst f).
    rewrite (window_snoc h) by done. rewrite drop_old_filter.
    + change (List.filter _ (window (oc_at o) (h ++ [o]))) with (window (oc_at o) (window (oc_at o) (h ++ [o]))).
      rewrite window_again, <- Z.leb_antisym. done.
    + by apply window_sorted.
  - cbn. by rewrite failures_snoc, Hf, (ca_row _ _ Hb), Z.add_comm.
Qed.

Lemma record_spec h : sorted_outcomes h →
  (¬ tripped h ∧ closed_after h (record_all h)) ∨ (tripped h ∧ cb_state (record_all h) = OPEN).
Proof.
  induction h as [|o h IH] using rev_ind; intros Hs.
  { left. split; [|done]. intros (p & o & Hp & _). apply prefix_nil_inv in Hp. by destruct p. }
  destruct (sorted_last _ _ Hs) as [Hsh _]. unfold record_all. rewrite fold_left_app.
  cbn [fold_left]. fold (record_all h). rewrite tripped_snoc.
  destruct IH as [[Hn Hb]|[Ht Hst]]; [done| |right; split; [by left|by apply settled_open]].
  unfold record, action_settled. destruct (oc_failed o) eqn:Hf; cbn [negb].
  - unfold recordFailure. cbv zeta.
    set (b1 := recordOutcome _ _ _). assert (cb_state b1 = CLOSED) as E1 by apply Hb. rewrite E1.
    assert (shouldOpen (oc_at o) b1 = too_many_failures (oc_at o) (h ++ [o])) as ->
      by exact (should_open_spec _ _ _ Hs Hb Hf).
    destruct (too_many_failures (oc_at o) (h ++ [o])) eqn:Et.
    + right. split; [by right|]. apply transition_log. congruence.
    + left. split; [intros [?|[_ ?]]; done|]. constructor; [done| |].
      * rewrite failures_snoc, Hf, <- (ca_row _ _ Hb). cbn. lia.
      * rewrite last_snoc, <- (window_snoc h o _ Hs Hb). cbn. repeat f_equal. by destruct o; cbn in *; subst.
  - left. split; [intros [?|[? _]]; done|]. unfold recordSuccess. cbv zeta.
    set (b1 := recordOutcome _ _ _). assert (cb_state b1 = CLOSED) as E1 by apply Hb. rewrite E1.
    constructor; [done|by rewrite failures_snoc, Hf|].
    rewrite last_snoc, <- (window_snoc h o _ Hs Hb). cbn. repeat f_equal. by destruct o; cbn in *; subst.
Qed.

End methods.

(** ** Properties *)

(** However calls overlap with each other, with the timer and with manual
    trips and resets, at most one probe is in flight, and [probeInFlight] says
    so; the cooldown stays between its base and its maximum; an open circuit has
    its probe timer armed for the end of the cooldown it entered with; and a
    closed circuit that counts failures has counted fewer than the threshold. *)
Theorem breaker_invariant (cfg : BreakerConfig) (now : Z) (w : World) :
  sane_config cfg → rtc (breaker_step cfg) (initial_world cfg now) w →
  let b := w_breaker w in
  countb holds_flag (w_calls w) = (if cb_probeInFlight b then 1 else 0) ∧
  cooldownPeriodMs cfg ≤ cb_currentCooldownMs b ≤ maxCooldownMs cfg ∧
  match cb_state b with
  | OPEN => ∃ t, cb_lastStateChangeAt b = Some t ∧ t ≤ w_now w ∧
      cb_nextAttemptTime b = t + cb_currentCooldownMs b ∧
      (probe cfg = true → cb_probeTimer b = Some (cb_nextAttemptTime b))
  | CLOSED => cb_nextAttemptTime b = 0 ∧ cb_currentCooldownMs b = cooldownPeriodMs cfg ∧ cb_probeTimer b = None ∧
      (failureRateThreshold cfg = None → cb_consecutiveFailures b < failureThreshold cfg)
  | HALF_OPEN => 0 ≤ cb_halfOpenSuccesses b < successThreshold cfg
  end.
Proof.
  intros Hs Hr b. destruct (reachable_ok cfg Hs now w Hr) as [Hb Hf]. split_and!; [done|apply Hb|apply Hb|].
  fold b in Hb. destruct (cb_state b) eqn:E.
  - destruct (wf_closed _ _ _ Hb E) as (? & _ & ?). tauto.
  - destruct (wf_open _ _ _ Hb E) as (t & ? & ? & ? & Ht). exists t. split_and!; try done.
    intros Hp. by rewrite Ht, Hp.
  - by apply (wf_half _ _ _ Hb).
Qed.

(** From the moment the circuit is open until its cooldown has passed no
    call reaches the upstream: whatever calls arrive, end or fail meanwhile, the
    calls in flight are among those that were, and the circuit neither closes
    nor moves its deadline, unless somebody resets it. *)
Theorem open_circuit_admits_nothing (cfg : BreakerConfig) (now : Z) (w w' : World) :
  sane_config cfg → rtc (breaker_step cfg) (initial_world cfg now) w →
  cb_state (w_breaker w) = OPEN → rtc (breaker_step cfg) w w' →
  w_now w' < cb_nextAttemptTime (w_breaker w) →
  (cb_state (w_breaker w') = OPEN ∧ cb_nextAttemptTime (w_breaker w') = cb_nextAttemptTime (w_breaker w) ∧
   (call_id <$> w_calls w') `sublist_of` (call_id <$> w_calls w)) ∨
  ∃ log, (OPEN, CLOSED) ∈ log ∧ cb_changes (w_breaker w') = cb_changes (w_breaker w) ++ log.
Proof.
  intros Hs Hr Ho Hsteps Hn.
  destruct (open_steps cfg Hs w w' Hsteps (reachable_ok cfg Hs now w Hr) Ho Hn) as [(? & ? & _ & ?)|Hl]; [left|by right].
  by split_and!.
Qed.

(** With a probe, a success threshold of one (the default) and callers
    that pass no fallback, the circuit can always close again without a single
    request from outside: time passes, the timer runs the probe, and the probe
    succeeds, all within the maximal cooldown. *)
Theorem breaker_recovers (cfg : BreakerConfig) (now : Z) (w : World) :
  sane_config cfg → probe cfg = true → successThreshold cfg = 1 →
  rtc (plain_step cfg) (initial_world cfg now) w →
  ∃ w', rtc (quiet_step cfg) w w' ∧ cb_state (w_breaker w') = CLOSED ∧
    w_now w' ≤ w_now w + Z.max (maxCooldownMs cfg) (baseBackoffMs cfg).
Proof.
  intros Hs Hp H1 Hr. destruct (attended_reachable cfg Hs Hp H1 now w Hr) as [Hok Hat].
  by apply recovers.
Qed.

(** A closed circuit opens exactly when the history of outcomes says so:
    with a threshold of failures, when that many came in a row; with a failure
    rate, when a failure leaves at least the minimum of samples in the rolling
    window, and more than that share of them failed. *)
Theorem breaker_opens_on_history (cfg : BreakerConfig) (h : list Outcome) :
  sane_config cfg → sorted_outcomes h →
  (cb_state (record_all cfg h) = OPEN ↔ tripped cfg h) ∧
  (cb_state (record_all cfg h) = CLOSED ↔ ¬ tripped cfg h).
Proof.
  intros Hs Hh. destruct (record_spec cfg h Hh) as [[Hn Hc]|[Ht Ho]].
  - rewrite (ca_state _ _ _ Hc). by split.
  - rewrite Ho. by split.
Qed.

(** ** Samples and witnesses *)

Definition sample_options (failures successes : Z) : CircuitBreakerOptions :=
  {| o_failureThreshold := Some failures; o_cooldownPeriodMs := None; o_successThreshold := Some successes;
     o_baseBackoffMs := None; o_maxBackoffMs := None; o_failureRateThreshold := None;
     o_rollingWindowMs := None; o_minimumSamples := None; o_maxCooldownMs := None; o_probe := true |}.

Definition sample_cfg : BreakerConfig := configure (sample_options 1 1).

Lemma sample_sane : sane_config sample_cfg.
Proof. by constructor. Qed.

Definition tick (d : Z) (w : World) : World :=
  {| w_now := w_now w + d; w_breaker := w_breaker w; w_calls := w_calls w |}.

Definition running (isProbe fallback : bool) : Call :=
  {| c_isProbe := isProbe; c_scheduled := false; c_fallback := fallback; c_phase := Running |}.

(** Two calls at time 0, one of them fails. *)
Definition sample_open (cfg : BreakerConfig) : World :=
  settle_call cfg 0 (running false false) false 0
    (start_call cfg false false (start_call cfg false false (initial_world cfg 0))).

Lemma plain cfg w w' :
  breaker_step cfg w w' → forallb (λ c, negb (c_fallback c)) (w_calls w') = true → plain_step cfg w w'.
Proof.
  intros Hs Hf. split; [done|]. intros c Hc%list_elem_of_In.
  apply negb_true_iff. revert c Hc. by apply forallb_forall.
Qed.

Lemma sample_open_plain : rtc (plain_step sample_cfg) (initial_world sample_cfg 0) (sample_open sample_cfg).
Proof.
  eapply rtc_l; [apply plain; [apply (step_call _ _ false)|by vm_compute]|].
  eapply rtc_l; [apply plain; [apply (step_call _ _ false)|by vm_compute]|].
  eapply rtc_l; [apply plain; [apply (step_settle _ _ 0 (running false false) false 0)|by vm_compute]|apply rtc_refl];
    by vm_compute.
Qed.

Lemma sample_open_reachable : rtc (breaker_step sample_cfg) (initial_world sample_cfg 0) (sample_open sample_cfg).
Proof. eapply (rtc_subrel); [|apply sample_open_plain]. by intros w w' [H _]. Qed.

Lemma breaker_invariant_witness :
  let w := sample_open sample_cfg in
  cb_state (w_breaker w) = OPEN ∧ length (w_calls w) = 1%nat ∧ cb_probeTimer (w_breaker w) = Some 30000.
Proof.
  split; [by vm_compute|]. split; [by vm_compute|].
  destruct (breaker_invariant sample_cfg 0 (sample_open sample_cfg) sample_sane sample_open_reachable) as (_ & _ & H).
  assert (cb_state (w_breaker (sample_open sample_cfg)) = OPEN) as E by (vm_compute; reflexivity).
  rewrite E in H. destruct H as (t & _ & _ & _ & H). rewrite (H eq_refl). vm_compute. reflexivity.
Defined.

(** A call, and the late success of the other one, during the cooldown. *)
Lemma open_circuit_admits_nothing_witness :
  let w' := settle_call sample_cfg 0 (running false false) true 0
    (start_call sample_cfg false true (tick 29999 (sample_open sample_cfg))) in
  cb_shortCircuited (w_breaker w') = 1 ∧ cb_state (w_breaker w') = OPEN ∧ (call_id <$> w_calls w') `sublist_of` [(false, false, false)].
Proof.
  intros w'. split; [by vm_compute|].
  destruct (open_circuit_admits_nothing sample_cfg 0 (sample_open sample_cfg) w' sample_sane sample_open_reachable)
    as [(H1 & _ & H3)|(log & Hin & Hl)].
  - by vm_compute.
  - eapply rtc_l; [apply (step_tick _ _ 29999); lia|]. eapply rtc_l; [apply (step_call _ _ true)|].
    eapply rtc_l; [apply (step_settle _ _ 0 (running false false) true 0)|apply rtc_refl]; by vm_compute.
  - by vm_compute.
  - split; [exact H1|]. exact H3.
  - exfalso. apply (f_equal length) in Hl. rewrite length_app in Hl. destruct log; [by apply not_elem_of_nil in Hin|].
    vm_compute in Hl. discriminate Hl.
Defined.

Lemma breaker_recovers_witness :
  cb_state (w_breaker (sample_open sample_cfg)) = OPEN ∧
  ∃ w', rtc (quiet_step sample_cfg) (sample_open sample_cfg) w' ∧ cb_state (w_breaker w') = CLOSED ∧ w_now w' ≤ 300000.
Proof.
  split; [by vm_compute|].
  exact (breaker_recovers sample_cfg 0 (sample_open sample_cfg) sample_sane eq_refl eq_refl sample_open_plain).
Defined.

(** Two failures in a row open it; the success in between matters. *)
Lemma breaker_opens_on_history_witness :
  let cfg := configure (sample_options 2 1) in
  let o t f := {| oc_at := t; oc_failed := f |} in
  ¬ tripped cfg [o 1 true; o 2 false; o 3 true] ∧ tripped cfg [o 1 true; o 2 false; o 3 true; o 4 true].
Proof.
  intros cfg o. assert (sane_config cfg) as Hs by by constructor. split.
  - apply (breaker_opens_on_history cfg _ Hs); [repeat constructor; cbn; lia|by vm_compute].
  - apply (breaker_opens_on_history cfg _ Hs); [repeat constructor; cbn; lia|by vm_compute].
Defined.

(** *** Where nobody is left to probe *)

Definition stuck (w : World) : Prop :=
  cb_state (w_breaker w) = HALF_OPEN ∧ cb_probeTimer (w_breaker w) = None ∧ w_calls w = [].

Lemma stuck_stays cfg w w' : stuck w → rtc (quiet_step cfg) w w' → stuck w'.
Proof.
  intros Hs H. revert Hs. induction H as [|w1 w2 w3 Hq _ IH]; [done|]. intros (S1 & S2 & S3). apply IH.
  destruct Hq as [w d Hd|w due Hd|w i c Hi]; [done|congruence|by rewrite S3 in Hi].
Qed.

(** With a success threshold of two, a request that happens to be the probe when
    the timer fires leaves the circuit half-open with no probe to come. *)
Lemma unattended_after_request_probe :
  let cfg := configure (sample_options 1 2) in
  ∃ w, rtc (plain_step cfg) (initial_world cfg 0) w ∧ stuck w.
Proof.
  intros cfg. eexists. split.
  - eapply rtc_l; [apply plain; [apply (step_call _ _ false)|by vm_compute]|].
    eapply rtc_l; [apply plain; [apply (step_settle _ _ 0 (running false false) false 0); by vm_compute|by vm_compute]|].
    eapply rtc_l; [apply plain; [apply (step_tick _ _ 30000); lia|by vm_compute]|].
    eapply rtc_l; [apply plain; [apply (step_call _ _ false)|by vm_compute]|].
    eapply rtc_l; [apply plain; [apply (step_timer _ _ 30000); by vm_compute|by vm_compute]|].
    eapply rtc_l; [apply plain; [apply (step_settle _ _ 0 (running true false) true 0); by vm_compute|by vm_compute]|].
    apply rtc_refl.
  - by vm_compute.
Qed.

(** A fallback that outlasts the cooldown keeps [probeInFlight] set while the
    timer fires, with the default threshold of one. *)
Lemma unattended_after_slow_fallback :
  ∃ w, rtc (breaker_step sample_cfg) (initial_world sample_cfg 0) w ∧ stuck w.
Proof.
  eexists. split.
  - eapply rtc_l; [apply (step_call _ _ false)|].
    eapply rtc_l; [apply (step_settle _ _ 0 (running false false) false 0); by vm_compute|].
    eapply rtc_l; [apply (step_tick _ _ 30000); lia|].
    eapply rtc_l; [apply (step_call _ _ true)|].
    eapply rtc_l; [apply (step_settle _ _ 0 (running true true) false 0); by vm_compute|].
    eapply rtc_l; [apply (step_tick _ _ 30000); lia|].
    eapply rtc_l; [apply (step_timer _ _ 60000); by vm_compute|].
    eapply rtc_l; [apply (step_fallback _ _ 0 (with_phase InFallback (running true true))); by vm_compute|].
    apply rtc_refl.
  - by vm_compute.
Qed.
