(* ===== verification/Swiss.v ===== *)
(** * Swiss-system tournaments:
      [backend/src/services/league/swissTournamentEngine.ts] and
      [swissTournamentService.ts]

    The engine's state and its operations: creation, the standings with their
    tie-breaks, the pairing of a round, and the submission of its results.
    Participants are an object keyed by id, with JavaScript's order of
    enumeration; scores are rationals, names and match labels are left out, and
    ids hold no NUL character, so that the key of a pair is the sorted pair, and
    none is [__proto__]. [Math.log2] is exact where the ceiling depends on it. *)

From Stdlib Require Import QArith Ascii String.
From S2P Require Import Prelude Text.

#[local] Open Scope Z_scope.

(** ** Data *)

Inductive MatchResult : Type := WIN | DRAW | LOSS | BYE.

#[export] Instance MatchResult_eq_dec : EqDecision MatchResult.
Proof. solve_decision. Defined.

Record MatchEntry : Type := {
  me_round : Z;
  me_opponentId : option string;
  me_result : MatchResult;
  me_score : Q;
  me_opponentScore : Q
}.

Record SwissParticipant : Type := {
  sp_id : string;
  sp_seed : Z;
  sp_matchPoints : Z;
  sp_wins : Z;
  sp_draws : Z;
  sp_losses : Z;
  sp_byes : Z;
  sp_pointsFor : Q;
  sp_pointsAgainst : Q;
  sp_opponentsFaced : list string;
  sp_matchHistory : list MatchEntry;
  sp_buchholzScore : Z;
  sp_sonnebornBergerScore : Q;
  sp_rank : Z
}.

Record SwissMatchup : Type := {
  sm_round : Z;
  sm_home : string;
  sm_away : option string;
  sm_homeScore : option Q;
  sm_awayScore : option Q;
  sm_isFinished : bool;
  sm_winnerId : option string
}.

Inductive SwissTournamentStatus : Type := CREATED | ROUND_ACTIVE | ROUND_COMPLETED | TOURNAMENT_COMPLETED.

#[export] Instance SwissTournamentStatus_eq_dec : EqDecision SwissTournamentStatus.
Proof. solve_decision. Defined.

Record SwissRound : Type := {
  sr_roundNumber : Z;
  sr_gameweekId : Z;
  sr_isFinished : bool;
  sr_matchups : list SwissMatchup
}.

Record SwissTournamentState : Type := {
  st_totalRounds : Z;
  st_currentRound : Z;
  st_status : SwissTournamentStatus;
  st_participants : list (string * SwissParticipant);
  st_rounds : list SwissRound
}.

Inductive SwissError : Type :=
| TooFewParticipants
| BadParticipantIds
| BadRounds
| TournamentOver
| UnfinishedRound
| NoMoreRounds
| NotActive
| WrongRound
| RoundNotFound
| ByeSubmitted
| BadScores
| UnknownMatchup
| SubmittedTwice
| MissingResults
| NoTournament.

(** ** Objects as maps

    Keys that are array indices come first, by value; the others in the order
    they were added. *)

Definition is_decimal (c : ascii) : bool := let n := nat_of_ascii c in (48 <=? n)%nat && (n <=? 57)%nat.

Definition array_index (k : string) : option Z :=
  let l := list_ascii_of_string k in
  let n := fold_left (λ n c, 10 * n + (Z.of_nat (nat_of_ascii c) - 48)) l 0 in
  match l with
  | [] => None
  | [c] => if is_decimal c then Some n else None
  | c :: _ => if negb (bool_decide (c = "0"%char)) && forallb is_decimal l && (n <? 2 ^ 32 - 1) then Some n else None
  end.

Definition is_index {V} (x : string * V) : bool := bool_decide (is_Some (array_index x.1)).

(** [Object.values] *)
Definition object_values {V} (m : list (string * V)) : list V :=
  (sort_by (asc (λ x, default 0 (array_index x.1))) (List.filter is_index m)
   ++ List.filter (λ x, negb (is_index x)) m).*2.

(** ** Updates of a participant *)

Definition set_standing (buchholz : Z) (sonneborn : Q) (rank : Z) (p : SwissParticipant) : SwissParticipant :=
  {| sp_id := sp_id p; sp_seed := sp_seed p; sp_matchPoints := sp_matchPoints p; sp_wins := sp_wins p;
     sp_draws := sp_draws p; sp_losses := sp_losses p; sp_byes := sp_byes p; sp_pointsFor := sp_pointsFor p;
     sp_pointsAgainst := sp_pointsAgainst p; sp_opponentsFaced := sp_opponentsFaced p;
     sp_matchHistory := sp_matchHistory p; sp_buchholzScore := buchholz; sp_sonnebornBergerScore := sonneborn;
     sp_rank := rank |}.

Definition points_for (r : MatchResult) : Z := match r with WIN | BYE => 3 | DRAW => 1 | LOSS => 0 end.
Definition one_if (b : bool) : Z := if b then 1 else 0.

(** The assignments made to one side of a match, or to the player with the bye. *)
Definition record_entry (e : MatchEntry) (p : SwissParticipant) : SwissParticipant :=
  let r := me_result e in
  {| sp_id := sp_id p; sp_seed := sp_seed p; sp_matchPoints := sp_matchPoints p + points_for r;
     sp_wins := sp_wins p + one_if (bool_decide (r = WIN) || bool_decide (r = BYE));
     sp_draws := sp_draws p + one_if (bool_decide (r = DRAW));
     sp_losses := sp_losses p + one_if (bool_decide (r = LOSS));
     sp_byes := sp_byes p + one_if (bool_decide (r = BYE));
     sp_pointsFor := if bool_decide (r = BYE) then sp_pointsFor p else (sp_pointsFor p + me_score e)%Q;
     sp_pointsAgainst := if bool_decide (r = BYE) then sp_pointsAgainst p else (sp_pointsAgainst p + me_opponentScore e)%Q;
     sp_opponentsFaced := sp_opponentsFaced p ++ match me_opponentId e with Some o => [o] | None => [] end;
     sp_matchHistory := sp_matchHistory p ++ [e];
     sp_buchholzScore := sp_buchholzScore p; sp_sonnebornBergerScore := sp_sonnebornBergerScore p;
     sp_rank := sp_rank p |}.

Definition set_participants (st : SwissTournamentState) (ps : list (string * SwissParticipant)) : SwissTournamentState :=
  {| st_totalRounds := st_totalRounds st; st_currentRound := st_currentRound st; st_status := st_status st;
     st_participants := ps; st_rounds := st_rounds st |}.

(** An object of the map is changed in place. *)
Definition update_participant (id : string) (f : SwissParticipant → SwissParticipant)
    (ps : list (string * SwissParticipant)) : list (string * SwissParticipant) :=
  match map_get id ps with Some p => map_set id (f p) ps | None => ps end.

(** ** The constructor *)

Definition new_participant (idx : nat) (p : string * option Z) : SwissParticipant :=
  {| sp_id := p.1; sp_seed := default (Z.of_nat idx + 1) p.2; sp_matchPoints := 0; sp_wins := 0; sp_draws := 0;
     sp_losses := 0; sp_byes := 0; sp_pointsFor := 0; sp_pointsAgainst := 0; sp_opponentsFaced := [];
     sp_matchHistory := []; sp_buchholzScore := 0; sp_sonnebornBergerScore := 0; sp_rank := Z.of_nat idx + 1 |}.

Definition blank (s : string) : bool := bool_decide (drop_blank (list_ascii_of_string s) = []).

Definition new_engine (participants : list (string * option Z)) (totalRounds : option jsnum) :
    result SwissError SwissTournamentState :=
  let totalCount := Z.of_nat (length participants) in
  throw_if (totalCount <? 2) TooFewParticipants ;;;
  throw_if (negb (Z.of_nat (length (remove_dups participants.*1)) =? totalCount) || existsb blank participants.*1)
    BadParticipantIds ;;;
  let calculatedRounds := if 1 <? totalCount then Z.max 3 (Z.log2_up totalCount) else 1 in
  let* rounds := or_throw (as_integer (default (int calculatedRounds) totalRounds)) BadRounds in
  throw_if (rounds <? 1) BadRounds ;;;
  Ok {| st_totalRounds := rounds; st_currentRound := 0; st_status := CREATED;
        st_participants := imap (λ i p, (p.1, new_participant i p)) participants; st_rounds := [] |}.

Section engine.
(** [String.prototype.localeCompare] *)
Context (localeCompare : string → string → Z).

(** ** Standings *)

(** Every sum over [opponentsFaced], with the first match against the opponent. *)
Definition tie_breaks (ps : list (string * SwissParticipant)) (p : SwissParticipant) : Z * Q :=
  fold_left (λ acc oppId,
    match map_get oppId ps with
    | None => acc
    | Some opp =>
        let buchholz := acc.1 + sp_matchPoints opp in
        match List.find (λ m, bool_decide (me_opponentId m = Some oppId)) (sp_matchHistory p) with
        | Some m =>
            match me_result m with
            | WIN => (buchholz, acc.2 + inject_Z (sp_matchPoints opp))%Q
            | DRAW => (buchholz, acc.2 + inject_Z (sp_matchPoints opp) * (1 # 2))%Q
            | _ => (buchholz, acc.2)
            end
        | None => (buchholz, acc.2)
        end
    end) (sp_opponentsFaced p) (0, 0%Q).

Definition descQ (f : SwissParticipant → Q) (a b : SwissParticipant) : Z :=
  match (f b ?= f a)%Q with Lt => -1 | Eq => 0 | Gt => 1 end.

Definition standing_order : SwissParticipant → SwissParticipant → Z :=
  then_by (desc sp_matchPoints) (then_by (desc sp_buchholzScore) (then_by (descQ sp_sonnebornBergerScore)
    (then_by (descQ (λ p, sp_pointsFor p - sp_pointsAgainst p)%Q) (then_by (descQ sp_pointsFor)
      (then_by (asc sp_seed) (λ a b, localeCompare (sp_id a) (sp_id b))))))).

Definition recomputeStandingsAndTieBreakers (st : SwissTournamentState) : SwissTournamentState :=
  let ps := st_participants st in
  let scored := (λ p, let t := tie_breaks ps p in set_standing t.1 t.2 (sp_rank p) p) <$> object_values ps in
  let ranked := imap (λ i p, set_standing (sp_buchholzScore p) (sp_sonnebornBergerScore p) (Z.of_nat i + 1) p)
    (sort_by standing_order scored) in
  set_participants st (fold_left (λ m p, map_set (sp_id p) p m) ranked ps).

Definition getStandings (st : SwissTournamentState) : list SwissParticipant * SwissTournamentState :=
  let st := recomputeStandingsAndTieBreakers st in
  (sort_by (asc sp_rank) (object_values (st_participants st)), st).

Definition getCurrentRound (st : SwissTournamentState) : option SwissRound :=
  if (st_currentRound st <=? 0) || bool_decide (st_rounds st = []) then None
  else st_rounds st !! Z.to_nat (st_currentRound st - 1).

(** ** Pairing *)

Definition open_match (round : Z) (home away : SwissParticipant) : SwissMatchup :=
  {| sm_round := round; sm_home := sp_id home; sm_away := Some (sp_id away); sm_homeScore := None;
     sm_awayScore := None; sm_isFinished := false; sm_winnerId := None |}.

Definition bye_match (round : Z) (p : SwissParticipant) : SwissMatchup :=
  {| sm_round := round; sm_home := sp_id p; sm_away := None; sm_homeScore := Some 0%Q; sm_awayScore := Some 0%Q;
     sm_isFinished := true; sm_winnerId := Some (sp_id p) |}.

Definition bye_entry (round : Z) : MatchEntry :=
  {| me_round := round; me_opponentId := None; me_result := BYE; me_score := 0; me_opponentScore := 0 |}.

Definition faced (p q : SwissParticipant) : bool := bool_decide (sp_id q ∈ sp_opponentsFaced p).

Definition is_odd {A} (l : list A) : bool := Nat.odd (length l).

(** The loop over the candidates for [first]; [rec] solves what remains. *)
Fixpoint try_candidates (rec : list SwissParticipant → option (list (SwissParticipant * SwissParticipant)))
    (first : SwissParticipant) (before after : list SwissParticipant) :
    option (list (SwissParticipant * SwissParticipant)) :=
  match after with
  | [] => None
  | candidate :: after =>
      if faced first candidate then try_candidates rec first (before ++ [candidate]) after else
      match rec (before ++ after) with
      | Some subResult => Some ((first, candidate) :: subResult)
      | None => try_candidates rec first (before ++ [candidate]) after
      end
  end.

(** The recursion goes down by two players: their number is fuel enough. *)
Fixpoint solve_fuel (fuel : nat) (players : list SwissParticipant) : option (list (SwissParticipant * SwissParticipant)) :=
  match players, fuel with
  | [], _ => Some []
  | first :: rest, S fuel =>
      if is_odd players then None else try_candidates (solve_fuel fuel) first [] rest
  | _, O => None
  end.

Definition solveBacktrackPairings (players : list SwissParticipant) : option (list (SwissParticipant * SwissParticipant)) :=
  solve_fuel (length players) players.

(** The opponent met least often, the first of them. *)
Definition repeats (p q : SwissParticipant) : nat :=
  length (List.filter (λ id, bool_decide (id = sp_id q)) (sp_opponentsFaced p)).

Fixpoint best_opponent (p : SwissParticipant) (i : nat) (l : list SwissParticipant) (best : nat * option nat) : nat :=
  match l with
  | [] => best.1
  | q :: l =>
      let r := repeats p q in
      let better := match best.2 with Some m => (r <? m)%nat | None => true end in
      if better then if (r =? 0)%nat then i else best_opponent p (S i) l (i, Some r)
      else best_opponent p (S i) l best
  end.

Fixpoint greedy_fuel (fuel : nat) (remaining : list SwissParticipant) : list (SwissParticipant * SwissParticipant) :=
  match fuel, remaining with
  | S fuel, p1 :: (_ :: _) as rest =>
      let bestIdx := best_opponent p1 0 rest (O, None) in
      match rest !! bestIdx with
      | Some p2 => (p1, p2) :: greedy_fuel fuel (delete bestIdx rest)
      | None => []
      end
  | _, _ => []
  end.

Definition greedyPairingFallback (players : list SwissParticipant) : list (SwissParticipant * SwissParticipant) :=
  greedy_fuel (length players) players.

Definition pairByScoreBrackets (players : list SwissParticipant) : list (SwissParticipant * SwissParticipant) :=
  match solveBacktrackPairings players with
  | Some pairs => pairs
  | None => greedyPairingFallback players
  end.

(** The lowest-ranked player without a bye, else the last. *)
Definition bye_index (players : list SwissParticipant) : nat :=
  match find_index (λ p, sp_byes p =? 0) (rev players) with
  | Some i => length players - 1 - i
  | None => length players - 1
  end.

(** The top half of the standings against the bottom half. *)
Definition first_round_pairs (players : list SwissParticipant) : list (SwissParticipant * SwissParticipant) :=
  let half := Nat.div2 (length players) in
  zip (take half players) (drop half players).

Definition computePairings (round : Z) (st : SwissTournamentState) : list SwissMatchup * SwissTournamentState :=
  let '(participants, st) := getStandings st in
  let '(available, byes, st) :=
    if is_odd participants then
      match participants !! bye_index participants with
      | Some p => (delete (bye_index participants) participants, [bye_match round p],
                   set_participants st (update_participant (sp_id p) (record_entry (bye_entry round)) (st_participants st)))
      | None => (participants, [], st)
      end
    else (participants, [], st) in
  let pairs := if round =? 1 then first_round_pairs available else pairByScoreBrackets available in
  (byes ++ ((λ x, open_match round x.1 x.2) <$> pairs), st).

Definition generateNextRound (gameweekId : Z) (st : SwissTournamentState) :
    SwissTournamentState * result SwissError SwissRound :=
  if bool_decide (st_status st = TOURNAMENT_COMPLETED) then (st, Err TournamentOver) else
  if bool_decide (st_status st = ROUND_ACTIVE)
     && match getCurrentRound st with Some r => negb (sr_isFinished r) | None => false end
  then (st, Err UnfinishedRound) else
  let nextRoundNumber := st_currentRound st + 1 in
  if st_totalRounds st <? nextRoundNumber then
    ({| st_totalRounds := st_totalRounds st; st_currentRound := st_currentRound st; st_status := TOURNAMENT_COMPLETED;
        st_participants := st_participants st; st_rounds := st_rounds st |}, Err NoMoreRounds)
  else
  let st := recomputeStandingsAndTieBreakers st in
  let '(matchups, st) := computePairings nextRoundNumber st in
  let round := {| sr_roundNumber := nextRoundNumber; sr_gameweekId := gameweekId; sr_isFinished := false;
                  sr_matchups := matchups |} in
  ({| st_totalRounds := st_totalRounds st; st_currentRound := nextRoundNumber; st_status := ROUND_ACTIVE;
      st_participants := st_participants st; st_rounds := st_rounds st ++ [round] |}, Ok round).

(** ** Results *)

Record SubmittedResult : Type := {
  rs_home : string;
  rs_away : option string;
  rs_homeScore : jsnum;
  rs_awayScore : jsnum
}.

(** The two ids in order. *)
Definition pair_ids (a b : string) : string * string := if String.ltb b a then (b, a) else (a, b).

Definition expected_keys (round : SwissRound) : list (string * string) :=
  omap (λ m, pair_ids (sm_home m) <$> sm_away m) (sr_matchups round).

Definition valid_score (n : jsnum) : bool := match n with Fin q => Qle_bool 0 q | NonFinite => false end.
Definition score_of (n : jsnum) : Q := match n with Fin q => q | NonFinite => 0 end.

(** The check of one result against the keys seen before. *)
Definition check_result (expected : list (string * string)) (submitted : list (string * string)) (r : SubmittedResult) :
    result SwissError (list (string * string)) :=
  let* away := or_throw (rs_away r) ByeSubmitted in
  throw_if (negb (valid_score (rs_homeScore r) && valid_score (rs_awayScore r))) BadScores ;;;
  let key := pair_ids (rs_home r) away in
  throw_if (negb (bool_decide (key ∈ expected))) UnknownMatchup ;;;
  throw_if (bool_decide (key ∈ submitted)) SubmittedTwice ;;;
  Ok (submitted ++ [key]).

Definition is_match (home : string) (away : option string) (m : SwissMatchup) : bool :=
  bool_decide (sm_home m = home) && bool_decide (sm_away m = away).

(** The matchup of a result, and whether the sides are swapped. *)
Definition find_matchup (r : SubmittedResult) (ms : list SwissMatchup) : option (nat * bool) :=
  match find_index (is_match (rs_home r) (rs_away r)) ms with
  | Some i => Some (i, false)
  | None => (λ i, (i, true)) <$> match rs_away r with
                                 | Some away => find_index (is_match away (Some (rs_home r))) ms
                                 | None => None
                                 end
  end.

Definition finish_match (homeScore awayScore : Q) (m : SwissMatchup) : SwissMatchup :=
  {| sm_round := sm_round m; sm_home := sm_home m; sm_away := sm_away m; sm_homeScore := Some homeScore;
     sm_awayScore := Some awayScore; sm_isFinished := true;
     sm_winnerId := match (homeScore ?= awayScore)%Q with
                    | Gt => Some (sm_home m) | Lt => sm_away m | Eq => None end |}.

Definition outcome (own other : Q) : MatchResult :=
  match (own ?= other)%Q with Gt => WIN | Eq => DRAW | Lt => LOSS end.

Definition match_entry (round : Z) (opponent : string) (own other : Q) : MatchEntry :=
  {| me_round := round; me_opponentId := Some opponent; me_result := outcome own other; me_score := own;
     me_opponentScore := other |}.

(** Both sides of a finished match are recorded. *)
Definition record_match (round : Z) (home away : string) (homeScore awayScore : Q)
    (ps : list (string * SwissParticipant)) : list (string * SwissParticipant) :=
  update_participant away (record_entry (match_entry round home awayScore homeScore))
    (update_participant home (record_entry (match_entry round away homeScore awayScore)) ps).

(** One turn of the loop over the results. *)
Definition apply_submitted (roundNumber : Z) (acc : list SwissMatchup * list (string * SwissParticipant)) (r : SubmittedResult) :
    list SwissMatchup * list (string * SwissParticipant) :=
  let '(ms, ps) := acc in
  match find_matchup r ms with
  | None => (ms, ps)
  | Some (i, isReversed) =>
      match ms !! i with
      | None => (ms, ps)
      | Some m =>
          let homeScore := score_of (if isReversed : bool then rs_awayScore r else rs_homeScore r) in
          let awayScore := score_of (if isReversed : bool then rs_homeScore r else rs_awayScore r) in
          let ms := <[i := finish_match homeScore awayScore m]> ms in
          match sm_away m with
          | Some away => (ms, record_match roundNumber (sm_home m) away homeScore awayScore ps)
          | None => (ms, ps)
          end
      end
  end.

Definition submitRoundResults (roundNumber : Z) (results : list SubmittedResult) (st : SwissTournamentState) :
    result SwissError SwissTournamentState :=
  throw_if (negb (bool_decide (st_status st = ROUND_ACTIVE))) NotActive ;;;
  throw_if (negb (st_currentRound st =? roundNumber)) WrongRound ;;;
  let* round := or_throw (getCurrentRound st) RoundNotFound in
  let expected := expected_keys round in
  let* submitted := mfoldl (check_result expected) [] results in
  throw_if (negb (length submitted =? length (remove_dups expected))%nat) MissingResults ;;;
  let '(ms, ps) := fold_left (apply_submitted roundNumber) results (sr_matchups round, st_participants st) in
  let round := {| sr_roundNumber := sr_roundNumber round; sr_gameweekId := sr_gameweekId round; sr_isFinished := true;
                  sr_matchups := ms |} in
  let st := {| st_totalRounds := st_totalRounds st; st_currentRound := st_currentRound st; st_status := st_status st;
               st_participants := ps; st_rounds := <[Z.to_nat (st_currentRound st - 1) := round]> (st_rounds st) |} in
  let st := recomputeStandingsAndTieBreakers st in
  Ok {| st_totalRounds := st_totalRounds st; st_currentRound := st_currentRound st;
        st_status := if st_totalRounds st <=? st_currentRound st then TOURNAMENT_COMPLETED else ROUND_COMPLETED;
        st_participants := st_participants st; st_rounds := st_rounds st |}.

(** ** The registry of [swissTournamentService.ts] *)

Definition createTournament (leagueId : string) (participants : list (string * option Z)) (totalRounds : option jsnum)
    (store : list (string * SwissTournamentState)) : result SwissError (list (string * SwissTournamentState)) :=
  throw_if (Z.of_nat (length participants) <? 2) TooFewParticipants ;;;
  let* engine := new_engine participants totalRounds in
  Ok (map_set leagueId engine store).

Definition getEngine (leagueId : string) (store : list (string * SwissTournamentState)) : result SwissError SwissTournamentState :=
  or_throw (map_get leagueId store) NoTournament.

(** The engine is an object: what an operation did to it stays even when it throws. *)
Definition league_standings (leagueId : string) (store : list (string * SwissTournamentState)) :
    list (string * SwissTournamentState) * result SwissError (list SwissParticipant) :=
  match getEngine leagueId store with
  | Ok engine => let '(l, engine) := getStandings engine in (map_set leagueId engine store, Ok l)
  | Err e => (store, Err e)
  end.

Definition league_current_round (leagueId : string) (store : list (string * SwissTournamentState)) :
    result SwissError (option SwissRound) :=
  let* engine := getEngine leagueId store in Ok (getCurrentRound engine).

Definition startOrAdvanceRound (leagueId : string) (gameweekId : Z) (store : list (string * SwissTournamentState)) :
    list (string * SwissTournamentState) * result SwissError SwissRound :=
  match getEngine leagueId store with
  | Ok engine => let '(engine, r) := generateNextRound gameweekId engine in (map_set leagueId engine store, r)
  | Err e => (store, Err e)
  end.

Definition league_submit (leagueId : string) (roundNumber : Z) (results : list SubmittedResult)
    (store : list (string * SwissTournamentState)) : result SwissError (list (string * SwissTournamentState)) :=
  let* engine := getEngine leagueId store in
  let* engine := submitRoundResults roundNumber results engine in
  Ok (map_set leagueId engine store).

(** ** What the engine can reach *)

Inductive swiss_step : SwissTournamentState → SwissTournamentState → Prop :=
| swiss_generate st gameweekId : swiss_step st (generateNextRound gameweekId st).1
| swiss_submit st st' n results : submitRoundResults n results st = Ok st' → swiss_step st st'
| swiss_standings st : swiss_step st (getStandings st).2.

(** ** The pairing solver *)

Definition flat (pairs : list (SwissParticipant * SwissParticipant)) : list SwissParticipant :=
  mjoin ((λ x, [x.1; x.2]) <$> pairs).

(** Everybody plays once, and nobody meets a former opponent. *)
Definition fresh_pairing (players : list SwissParticipant) (pairs : list (SwissParticipant * SwissParticipant)) : Prop :=
  flat pairs ≡ₚ players ∧ ∀ x, x ∈ pairs → faced x.1 x.2 = false ∧ faced x.2 x.1 = false.

Lemma try_sound rec first before after pairs :
  try_candidates rec first before after = Some pairs →
  ∃ l1 c l2 sub, after = l1 ++ c :: l2 ∧ faced first c = false ∧ rec (before ++ l1 ++ l2) = Some sub ∧ pairs = (first, c) :: sub.
Proof.
  revert before. induction after as [|c after IH]; intros before H; [done|]. cbn in H.
  assert (try_candidates rec first (before ++ [c]) after = Some pairs →
    ∃ l1 c0 l2 sub, c :: after = l1 ++ c0 :: l2 ∧ faced first c0 = false ∧
      rec (before ++ l1 ++ l2) = Some sub ∧ pairs = (first, c0) :: sub) as Hnext.
  { intros (l1 & c0 & l2 & sub & -> & Hf & Hr & ->)%IH. exists (c :: l1), c0, l2, sub. split_and!; try done.
    by rewrite <- (assoc (++)) in Hr. }
  destruct (faced first c) eqn:Ef; [by apply Hnext|].
  destruct (rec (before ++ after)) as [sub|] eqn:Er; [|by apply Hnext].
  injection H as <-. by exists [], c, after, sub.
Qed.

Lemma try_none rec first before after : try_candidates rec first before after = None →
  ∀ l1 c l2, after = l1 ++ c :: l2 → faced first c = true ∨ rec (before ++ l1 ++ l2) = None.
Proof.
  revert before. induction after as [|a after IH]; intros before H l1 c l2 E; [by destruct l1|]. cbn in H.
  assert (try_candidates rec first (before ++ [a]) after = None) as Hn
    by (destruct (faced first a); [done|]; by destruct (rec (before ++ after))).
  destruct l1 as [|b l1]; injection E as -> E.
  - subst after. destruct (faced first c); [by left|right]. cbn. by destruct (rec (before ++ l2)).
  - destruct (IH _ Hn l1 c l2 E) as [?|Hr]; [by left|right]. by rewrite <- (assoc (++)) in Hr.
Qed.

Lemma solve_sound fuel players pairs : solve_fuel fuel players = Some pairs →
  flat pairs ≡ₚ players ∧ ∀ x, x ∈ pairs → faced x.1 x.2 = false.
Proof.
  revert players pairs. induction fuel as [|fuel IH]; intros players pairs H.
  { destruct players; [|done]. injection H as <-. split; [done|]. intros x Hx. by apply not_elem_of_nil in Hx. }
  destruct players as [|first rest]; cbn in H.
  { injection H as <-. split; [done|]. intros x Hx. by apply not_elem_of_nil in Hx. }
  destruct (is_odd _); [done|]. apply try_sound in H as (l1 & c & l2 & sub & -> & Hf & Hr & ->).
  destruct (IH _ _ Hr) as [Hp Hx]. cbn in Hp. split.
  - cbn. constructor. rewrite Hp. apply Permutation_middle.
  - intros x [->|Hin]%elem_of_cons; [done|by apply Hx].
Qed.

Lemma length_flat pairs : length (flat pairs) = (2 * length pairs)%nat.
Proof.
  induction pairs as [|x pairs IH]; [done|]. change (flat (x :: pairs)) with (x.1 :: x.2 :: flat pairs). cbn. lia.
Qed.

(** Somebody is paired with [first]. *)
Lemma first_partner first rest pairs : fresh_pairing (first :: rest) pairs →
  ∃ l1 c l2 sub, rest = l1 ++ c :: l2 ∧ faced first c = false ∧ fresh_pairing (l1 ++ l2) sub.
Proof.
  intros [Hp Hx]. assert (first ∈ flat pairs) as Hin by (rewrite Hp; by left).
  unfold flat in Hin. apply list_elem_of_join in Hin as (l & Hl & ([a b] & -> & Hab)%list_elem_of_fmap).
  apply list_elem_of_split in Hab as (p1 & p2 & ->).
  assert (∃ c, faced first c = false ∧ flat (p1 ++ (a, b) :: p2) ≡ₚ first :: c :: flat (p1 ++ p2)) as (c & Hc & Hperm).
  { assert (flat (p1 ++ (a, b) :: p2) ≡ₚ a :: b :: flat (p1 ++ p2)) as Hf.
    { unfold flat. rewrite !fmap_app, !join_app. cbn. by rewrite <- !Permutation_middle. }
    destruct (Hx (a, b)) as [H1 H2]; [apply elem_of_app; right; by left|]. cbn in *.
    apply elem_of_cons in Hl as [->|Hl]; [by exists b|]. apply list_elem_of_singleton in Hl as ->.
    exists a. split; [done|]. rewrite Hf. constructor. }
  rewrite Hperm in Hp. apply Permutation.Permutation_cons_inv in Hp.
  assert (c ∈ rest) as (l1 & l2 & ->)%list_elem_of_split by (rewrite <- Hp; by left).
  exists l1, c, l2, (p1 ++ p2). split_and!; [done|done|]. split.
  - rewrite <- Permutation_middle in Hp. by apply Permutation.Permutation_cons_inv in Hp.
  - intros x Hin. apply Hx. apply elem_of_app in Hin as [?|?]; apply elem_of_app; [by left|right; by right].
Qed.

Lemma solve_complete fuel players : (length players ≤ fuel)%nat →
  (∃ pairs, fresh_pairing players pairs) → is_Some (solve_fuel fuel players).
Proof.
  revert players. induction fuel as [|fuel IH]; intros players Hl [pairs Hf].
  { destruct players; [|cbn in Hl; lia]. by eexists. }
  destruct players as [|first rest]; [by eexists|]. cbn [solve_fuel].
  assert (is_odd (first :: rest) = false) as ->.
  { unfold is_odd. rewrite <- (Permutation_length (proj1 Hf)), length_flat.
    apply not_true_iff_false. rewrite Nat.odd_spec. intros [k Hk]. lia. }
  destruct (first_partner _ _ _ Hf) as (l1 & c & l2 & sub & -> & Hc & Hs).
  destruct (try_candidates _ _ _ _) as [p|] eqn:E; [by eexists|]. exfalso.
  destruct (try_none _ _ _ _ E l1 c l2 eq_refl) as [?|Hn]; [congruence|].
  destruct (IH (l1 ++ l2)) as [p Hp]; [|by exists sub|cbn in Hn; congruence].
  cbn in Hl. rewrite length_app in *. cbn in Hl. lia.
Qed.

Lemma best_opponent_bound p1 l i best : (best.1 < i + length l)%nat → (best_opponent p1 i l best < i + length l)%nat.
Proof.
  revert i best. induction l as [|x l IH]; intros i best H; cbn in *; [lia|].
  destruct (match best.2 with Some m => _ | None => true end); [destruct (_ =? _)%nat; [lia|]|];
    (eapply Nat.lt_le_trans; [apply IH; cbn; lia|lia]).
Qed.

Lemma greedy_perm fuel players : (length players ≤ fuel)%nat → is_odd players = false →
  flat (greedy_fuel fuel players) ≡ₚ players.
Proof.
  revert players. induction fuel as [|fuel IH]; intros players Hl Ho; [by destruct players; [|cbn in Hl; lia]|].
  destruct players as [|p1 [|q rest]]; [done|done|]. cbn [greedy_fuel].
  assert (best_opponent p1 0 (q :: rest) (0%nat, None) < length (q :: rest))%nat as Hb
    by (apply (best_opponent_bound p1 (q :: rest) 0); cbn; lia).
  apply lookup_lt_is_Some in Hb as [p2 E]. rewrite E. revert E. generalize dependent (best_opponent p1 0 (q :: rest) (0%nat, None)). intros bi E.
 
  change (p1 :: p2 :: flat (greedy_fuel fuel (delete bi (q :: rest))) ≡ₚ p1 :: q :: rest).
  constructor. etrans; [|symmetry; by apply (delete_Permutation _ bi)]. constructor.
  pose proof (length_delete (q :: rest) bi (mk_is_Some _ _ E)) as Hd. cbn in Hd, Hl, Ho.
  apply IH; [lia|]. unfold is_odd in *. rewrite Hd. cbn in Ho. by rewrite Nat.sub_0_r.
Qed.

Lemma pairs_perm players : is_odd players = false → flat (pairByScoreBrackets players) ≡ₚ players.
Proof.
  intros Ho. unfold pairByScoreBrackets, solveBacktrackPairings.
  destruct (solve_fuel _ _) as [pairs|] eqn:E; [by apply solve_sound in E as [? _]|]. by apply greedy_perm.
Qed.

Lemma first_round_perm players : is_odd players = false → flat (first_round_pairs players) ≡ₚ players.
Proof.
  intros Ho. unfold first_round_pairs. set (h := Nat.div2 (length players)).
  assert (length players = 2 * h)%nat as Hl.
  { subst h. rewrite (Nat.div2_odd (length players)) at 1. unfold is_odd in Ho. rewrite Ho. cbn. lia. }
  rewrite <- (take_drop h players) at 3.
  assert (∀ l k : list SwissParticipant, length l = length k → flat (zip l k) ≡ₚ l ++ k) as Hz.
  { induction l as [|a l IH]; intros [|b k] Hk; try done. change (a :: b :: flat (zip l k) ≡ₚ a :: l ++ b :: k).
    constructor. rewrite IH by (by injection Hk). apply Permutation_middle. }
  apply Hz. rewrite length_take, length_drop. lia.
Qed.

(** ** The record of play *)

(** What a participant shows is the tally of its matches. *)
Record tallied (p : SwissParticipant) : Prop := {
  tally_wins : sp_wins p = countb (λ m, bool_decide (me_result m = WIN)) (sp_matchHistory p) + sp_byes p;
  tally_draws : sp_draws p = countb (λ m, bool_decide (me_result m = DRAW)) (sp_matchHistory p);
  tally_losses : sp_losses p = countb (λ m, bool_decide (me_result m = LOSS)) (sp_matchHistory p);
  tally_byes : sp_byes p = countb (λ m, bool_decide (me_result m = BYE)) (sp_matchHistory p);
  tally_points : sp_matchPoints p = 3 * sp_wins p + sp_draws p;
  tally_opponents : sp_opponentsFaced p = omap me_opponentId (sp_matchHistory p)
}.

Lemma record_entry_tallied e p : tallied p → tallied (record_entry e p).
Proof.
  intros [H1 H2 H3 H4 H5 H6].
  constructor; cbn; rewrite ?countb_app, ?countb_cons, ?omap_app, ?H6; try change (countb _ []) with 0.
  1-5: destruct (me_result e); cbn [points_for];
    repeat case_bool_decide; try discriminate; cbn [one_if orb]; try lia; congruence.
  f_equal.
Qed.

(** The participants' table: their ids are the keys, having met is mutual, and nobody has a second bye while
    another is still without one. *)
Record book (ps : list (string * SwissParticipant)) : Prop := {
  book_keys : NoDup ps.*1;
  book_ids : ∀ k p, map_get k ps = Some p → sp_id p = k;
  book_tally : ∀ k p, map_get k ps = Some p → tallied p;
  book_sym : ∀ a b p q, map_get a ps = Some p → map_get b ps = Some q →
    b ∈ sp_opponentsFaced p → a ∈ sp_opponentsFaced q;
  book_byes : ∀ a b p q, map_get a ps = Some p → map_get b ps = Some q → 2 ≤ sp_byes p → 1 ≤ sp_byes q
}.

Definition rounds_of (id : string) (ps : list (string * SwissParticipant)) : list Z :=
  match map_get id ps with Some p => me_round <$> sp_matchHistory p | None => [] end.

(** Two tables with the same record of play, whatever the standings. *)
Definition same_record (p q : SwissParticipant) : Prop :=
  q = set_standing (sp_buchholzScore q) (sp_sonnebornBergerScore q) (sp_rank q) p.

Definition same_play (ps m : list (string * SwissParticipant)) : Prop :=
  m.*1 = ps.*1 ∧ ∀ k p, map_get k ps = Some p → ∃ q, map_get k m = Some q ∧ same_record p q.

Lemma same_record_fields p q : same_record p q →
  sp_id q = sp_id p ∧ sp_matchHistory q = sp_matchHistory p ∧ sp_opponentsFaced q = sp_opponentsFaced p ∧
  sp_byes q = sp_byes p ∧ (tallied p → tallied q).
Proof. intros ->. split_and!; try done. intros [H1 H2 H3 H4 H5 H6]. by constructor. Qed.

Lemma map_get_keys (k : string) (ps : list (string * SwissParticipant)) : k ∈ ps.*1 ↔ is_Some (map_get k ps).
Proof.
  destruct (map_get k ps) as [p|] eqn:E.
  - split; [by eexists|]. intros _. apply map_get_elem in E. by apply (list_elem_of_fmap_2 fst) in E.
  - apply map_get_None in E. split; [done|by intros []].
Qed.

Lemma same_play_back ps m k q : same_play ps m → map_get k m = Some q →
  ∃ p, map_get k ps = Some p ∧ same_record p q.
Proof.
  intros [Hk Hg] Hq. assert (is_Some (map_get k ps)) as [p Hp].
  { apply map_get_keys. rewrite <- Hk. apply map_get_keys. by eexists. }
  destruct (Hg k p Hp) as (q' & Hq' & Hs). exists p. split; [done|]. by simplify_eq.
Qed.

Lemma same_play_book ps m : same_play ps m → book ps → book m.
Proof.
  intros Hs [H1 H2 H3 H4 H5]. constructor.
  - by rewrite (proj1 Hs).
  - intros k q (p & Hp & Hr)%(same_play_back ps); [|done]. rewrite (proj1 (same_record_fields _ _ Hr)). by apply H2.
  - intros k q (p & Hp & Hr)%(same_play_back ps); [|done]. apply (same_record_fields _ _ Hr). by apply (H3 k).
  - intros a b p q (p' & Hp & Hr)%(same_play_back ps) (q' & Hq & Hr')%(same_play_back ps); [|done|done].
    rewrite (proj1 (proj2 (proj2 (same_record_fields _ _ Hr)))), (proj1 (proj2 (proj2 (same_record_fields _ _ Hr')))).
    by apply H4.
  - intros a b p q (p' & Hp & (_ & _ & _ & E & _)%same_record_fields)%(same_play_back ps)
      (q' & Hq & (_ & _ & _ & E' & _)%same_record_fields)%(same_play_back ps); [|done|done].
    rewrite E, E'. by apply (H5 a b).
Qed.

Lemma same_play_rounds ps m k : same_play ps m → rounds_of k m = rounds_of k ps.
Proof.
  intros Hs. unfold rounds_of. destruct (map_get k m) as [q|] eqn:E.
  - destruct (same_play_back _ _ _ _ Hs E) as (p & -> & Hr). by rewrite (proj1 (proj2 (same_record_fields _ _ Hr))).
  - destruct (map_get k ps) as [p|] eqn:E'; [|done]. destruct (proj2 Hs k p E') as (q & ? & _). congruence.
Qed.

(** *** The standings leave the record of play alone *)

Lemma object_values_perm {V} (m : list (string * V)) : object_values m ≡ₚ m.*2.
Proof.
  unfold object_values. apply fmap_Permutation. rewrite sort_by_perm.
  induction m as [|x m IH]; [done|]. cbn. destruct (is_index x); cbn; [by constructor|].
  rewrite <- Permutation_middle. by constructor.
Qed.

Lemma object_values_elem {V} (m : list (string * V)) v : v ∈ object_values m → ∃ k, (k, v) ∈ m.
Proof. rewrite object_values_perm. intros ([k v'] & -> & H)%list_elem_of_fmap. by exists k. Qed.

Lemma same_play_set ps m k q : same_play ps m → (∃ p, map_get k ps = Some p ∧ same_record p q) → same_play ps (map_set k q m).
Proof.
  intros [Hk Hg] (p & Hp & Hr). split.
  - rewrite map_set_keys, decide_True; [done|]. rewrite Hk. apply map_get_keys. by eexists.
  - intros k' p' Hp'. rewrite map_get_set. case_decide; [subst; simplify_eq; by exists q|]. by apply Hg.
Qed.

Lemma same_play_refl ps : same_play ps ps.
Proof. split; [done|]. intros k p Hp. exists p. split; [done|]. by destruct p. Qed.

Lemma recompute_same st : book (st_participants st) →
  same_play (st_participants st) (st_participants (recomputeStandingsAndTieBreakers st)).
Proof.
  intros Hb. unfold recomputeStandingsAndTieBreakers. cbn.
  set (scored := fmap _ (object_values _)). set (ranked := imap _ (sort_by _ scored)).
  assert (∀ q, q ∈ ranked → ∃ p, map_get (sp_id q) (st_participants st) = Some p ∧ same_record p q) as Hr.
  { intros q (i & x & -> & Hx%list_elem_of_lookup_2)%elem_of_lookup_imap.
    rewrite elem_of_sort_by in Hx. apply list_elem_of_fmap in Hx as (p & -> & (k & Hp)%object_values_elem).
    cbn. exists p. apply map_get_NoDup in Hp; [|apply Hb]. by rewrite (book_ids _ Hb _ _ Hp). }
  clearbody ranked. assert (∀ m, same_play (st_participants st) m →
    same_play (st_participants st) (fold_left (λ m p, map_set (sp_id p) p m) ranked m)) as H.
  { induction ranked as [|q l IH]; intros m Hm; [done|]. cbn. apply IH.
    - intros q' Hq'. apply Hr. by right.
    - apply same_play_set; [done|]. apply Hr. by left. }
  apply H, same_play_refl.
Qed.

(** *** Updates of the table *)

Lemma update_get k k' f ps :
  map_get k (update_participant k' f ps) = if decide (k = k') then f <$> map_get k ps else map_get k ps.
Proof.
  unfold update_participant. destruct (map_get k' ps) as [p|] eqn:E.
  - rewrite map_get_set. case_decide; [subst; by rewrite E|done].
  - case_decide; [subst; by rewrite E|done].
Qed.

Lemma update_keys k f ps : (update_participant k f ps).*1 = ps.*1.
Proof.
  unfold update_participant. destruct (map_get k ps) as [p|] eqn:E; [|done].
  rewrite map_set_keys, decide_True; [done|]. apply map_get_keys. by eexists.
Qed.

Lemma rounds_of_update k k' e ps : k ∈ ps.*1 →
  rounds_of k (update_participant k' (record_entry e) ps) = rounds_of k ps ++ (if decide (k = k') then [me_round e] else []).
Proof.
  intros [p Hp]%map_get_keys. unfold rounds_of. rewrite update_get, Hp. case_decide; cbn; [by rewrite fmap_app|].
  by rewrite app_nil_r.
Qed.

Lemma byes_nonneg ps k p : book ps → map_get k ps = Some p → 0 ≤ sp_byes p.
Proof. intros Hb Hp. rewrite (tally_byes p (book_tally _ Hb _ _ Hp)). apply countb_nonneg. Qed.

Lemma bye_book id p ps round : book ps → map_get id ps = Some p →
  (sp_byes p = 0 ∨ ∀ k q, map_get k ps = Some q → sp_byes q ≠ 0) →
  book (update_participant id (record_entry (bye_entry round)) ps).
Proof.
  intros Hb Hp Hbye. constructor.
  - rewrite update_keys. apply Hb.
  - intros k q. rewrite update_get. case_decide; [|apply Hb]. intros (q' & Hq & ->)%fmap_Some. cbn. by apply Hb.
  - intros k q. rewrite update_get. case_decide; [|apply Hb]. intros (q' & Hq & ->)%fmap_Some.
    apply record_entry_tallied. by apply (book_tally _ Hb k).
  - assert (∀ k q, map_get k (update_participant id (record_entry (bye_entry round)) ps) = Some q →
      ∃ q', map_get k ps = Some q' ∧ sp_opponentsFaced q = sp_opponentsFaced q') as Ho.
    { intros k q. rewrite update_get. case_decide; [|by exists q]. intros (q' & Hq & ->)%fmap_Some. exists q'.
      split; [done|]. cbn. by rewrite app_nil_r. }
    intros a b q r (q' & Hq & ->)%Ho (r' & Hr & ->)%Ho. by apply (book_sym _ Hb a b).
  - assert (∀ k q, map_get k (update_participant id (record_entry (bye_entry round)) ps) = Some q →
      ∃ q', map_get k ps = Some q' ∧ sp_byes q' ≤ sp_byes q ∧ (k = id → sp_byes q = sp_byes p + 1) ∧
        (k ≠ id → sp_byes q = sp_byes q')) as Ho.
    { intros k q. rewrite update_get. case_decide; [|by exists q]. intros (q' & Hq & ->)%fmap_Some. exists q'.
      subst k. simplify_eq. cbn. rewrite bool_decide_eq_true_2 by done. cbn. split_and!; [done|lia|done|done]. }
    intros a b q r (q' & Hq & H1 & H2 & H3)%Ho (r' & Hr & H4 & _)%Ho Hge.
    pose proof (byes_nonneg _ _ _ Hb Hr). destruct Hbye as [H0|Hall].
    + destruct (decide (a = id)) as [->|Hne]; [rewrite H2 in Hge by done; lia|]. rewrite H3 in Hge by done.
      pose proof (book_byes _ Hb a id q' p Hq Hp Hge). lia.
    + pose proof (Hall _ _ Hr). lia.
Qed.

Lemma outcome_not_bye own other : outcome own other ≠ BYE.
Proof. unfold outcome. by destruct (_ ?= _)%Q. Qed.

Lemma match_book round home away hs aws ps : book ps → home ∈ ps.*1 → away ∈ ps.*1 → home ≠ away →
  book (record_match round home away hs aws ps).
Proof.
  intros Hb Hh Ha Hne. unfold record_match.
  assert (∀ k q, map_get k (record_match round home away hs aws ps) = Some q → ∃ q', map_get k ps = Some q' ∧
    sp_id q = sp_id q' ∧ (tallied q' → tallied q) ∧ sp_byes q = sp_byes q' ∧
    ∀ b, b ∈ sp_opponentsFaced q ↔ b ∈ sp_opponentsFaced q' ∨ (k = home ∧ b = away) ∨ (k = away ∧ b = home)) as Hq.
  { intros k q. unfold record_match. rewrite !update_get.
    assert (∀ o e q', me_result e ≠ BYE → me_opponentId e = Some o → sp_byes (record_entry e q') = sp_byes q' ∧
      ∀ b, b ∈ sp_opponentsFaced (record_entry e q') ↔ b ∈ sp_opponentsFaced q' ∨ b = o) as Hr.
    { intros o e q' Hn Ho. cbn. rewrite bool_decide_eq_false_2, Ho by done. cbn. split; [lia|]. intros b.
      by rewrite elem_of_app, list_elem_of_singleton. }
    case_decide as E1; case_decide as E2; subst; try done; intros Hget.
    - apply fmap_Some in Hget as (q' & Hq & ->). exists q'. split; [done|].
      destruct (Hr home (match_entry round home aws hs) q') as [Hr1 Hr2]; [apply outcome_not_bye|done|].
      split_and!; [done|apply record_entry_tallied|done|]. intros b. rewrite Hr2. naive_solver.
    - apply fmap_Some in Hget as (q' & Hq & ->). exists q'. split; [done|].
      destruct (Hr away (match_entry round away hs aws) q') as [Hr1 Hr2]; [apply outcome_not_bye|done|].
      split_and!; [done|apply record_entry_tallied|done|]. intros b. rewrite Hr2. naive_solver.
    - exists q. split_and!; try done. naive_solver. }
  constructor.
  - rewrite !update_keys. apply Hb.
  - intros k q (q' & Hg & -> & _)%Hq. by apply Hb.
  - intros k q (q' & Hg & _ & Ht & _)%Hq. apply Ht. by apply (book_tally _ Hb k).
  - intros a b q r (q' & Hg & _ & _ & _ & Hf)%Hq (r' & Hg' & _ & _ & _ & Hf')%Hq. rewrite Hf, Hf'.
    intros [H|H]; [left; by apply (book_sym _ Hb a b q' r')|naive_solver].
  - intros a b q r (q' & Hg & _ & _ & -> & _)%Hq (r' & Hg' & _ & _ & -> & _)%Hq. by apply (book_byes _ Hb a b).
Qed.

(** *** A round pairs everybody once *)

Definition players_of (m : SwissMatchup) : list string :=
  sm_home m :: match sm_away m with Some away => [away] | None => [] end.

Definition players_in (ms : list SwissMatchup) : list string := mjoin (players_of <$> ms).

Definition bye_players (ms : list SwissMatchup) : list string :=
  omap (λ m, match sm_away m with None => Some (sm_home m) | Some _ => None end) ms.

Lemma standing_ids ps : book ps → sp_id <$> object_values ps ≡ₚ ps.*1.
Proof.
  intros Hb. rewrite object_values_perm, <- list_fmap_compose. apply reflexive_eq.
  apply list_fmap_ext. intros i [k p] Hi. cbn. apply (book_ids _ Hb), map_get_NoDup; [apply Hb|].
  by eapply list_elem_of_lookup_2.
Qed.

Lemma players_in_open round pairs :
  players_in ((λ x, open_match round x.1 x.2) <$> pairs) = sp_id <$> flat pairs.
Proof.
  induction pairs as [|x pairs IH]; [done|]. change (flat (x :: pairs)) with (x.1 :: x.2 :: flat pairs).
  cbn [fmap list_fmap]. by rewrite <- IH.
Qed.

Lemma bye_players_open round pairs : bye_players ((λ x, open_match round x.1 x.2) <$> pairs) = [].
Proof. by induction pairs. Qed.

(** The rows of the standings are the participants, in some order. *)
Lemma standings_rows st l st' : book (st_participants st) → getStandings st = (l, st') →
  same_play (st_participants st) (st_participants st') ∧ book (st_participants st') ∧
  sp_id <$> l ≡ₚ (st_participants st).*1 ∧ (∀ p, p ∈ l ↔ map_get (sp_id p) (st_participants st') = Some p) ∧
  st_currentRound st' = st_currentRound st ∧ st_totalRounds st' = st_totalRounds st ∧ st_status st' = st_status st ∧
  st_rounds st' = st_rounds st.
Proof.
  intros Hb [= <- <-]. pose proof (recompute_same st Hb) as Hs. pose proof (same_play_book _ _ Hs Hb) as Hb'.
  split_and!; try done.
  - rewrite sort_by_perm, <- (proj1 Hs). by apply standing_ids.
  - intros p. rewrite elem_of_sort_by. split.
    + intros (k & Hk)%object_values_elem. apply map_get_NoDup in Hk; [|apply Hb'].
      by rewrite (book_ids _ Hb' _ _ Hk).
    + intros Hg%map_get_elem. rewrite object_values_perm. by apply (list_elem_of_fmap_2 snd) in Hg.
Qed.

(** Who has the bye: the last of the standings without one, if there is one. *)
Lemma bye_index_spec l : l ≠ [] → ∃ p, l !! bye_index l = Some p ∧
  (sp_byes p = 0 ∨ ∀ q, q ∈ l → sp_byes q ≠ 0).
Proof.
  intros Hl. assert (0 < length l)%nat as Hlen by (destruct l; cbn; [done|lia]). unfold bye_index.
  destruct (find_index _ (rev l)) as [i|] eqn:E.
  - apply find_index_Some in E as (p & Hp & Hz). rewrite rev_alt in Hp.
    apply reverse_lookup_Some in Hp as [Hp Hi]. exists p.
    replace (length l - 1 - i)%nat with (length l - S i)%nat by lia. split; [done|]. left. by apply Z.eqb_eq.
  - destruct (lookup_lt_is_Some_2 l (length l - 1)) as [p Hp]; [lia|]. exists p. split; [done|]. right.
    intros q Hq. rewrite find_index_None in E. apply Z.eqb_neq, E. rewrite rev_alt. by apply elem_of_reverse.
Qed.

(** The pairings of a round put every participant in one match, or give it the bye, which is recorded. *)
Lemma compute_pairings_spec round st ms st' : book (st_participants st) → (st_participants st) ≠ [] →
  computePairings round st = (ms, st') →
  book (st_participants st') ∧ (st_participants st').*1 = (st_participants st).*1 ∧
  players_in ms ≡ₚ (st_participants st).*1 ∧
  (∀ k, k ∈ (st_participants st).*1 → rounds_of k (st_participants st') =
     rounds_of k (st_participants st) ++ if decide (k ∈ bye_players ms) then [round] else []) ∧
  st_currentRound st' = st_currentRound st ∧ st_totalRounds st' = st_totalRounds st ∧ st_status st' = st_status st ∧
  st_rounds st' = st_rounds st.
Proof.
  intros Hb Hne H. unfold computePairings in H. destruct (getStandings st) as [l st1] eqn:Es.
  apply standings_rows in Es as (Hs & Hb1 & Hids & Hrows & E1 & E2 & E3 & E4); [|done].
  assert (∀ av : list SwissParticipant, is_odd av = false →
    flat (if round =? 1 then first_round_pairs av else pairByScoreBrackets av) ≡ₚ av) as Hpairs.
  { intros av Hav. destruct (round =? 1); [by apply first_round_perm|by apply pairs_perm]. }
  destruct (is_odd l) eqn:Ho.
  - destruct (bye_index_spec l) as (p & Hp & Hbye); [by intros ->|].
    rewrite Hp in H. injection H as <- <-. pose proof (list_elem_of_lookup_2 _ _ _ Hp) as Hin.
    pose proof (proj1 (Hrows p) Hin) as Hget. cbn [st_participants set_participants st_currentRound st_totalRounds st_status st_rounds].
    assert (is_odd (delete (bye_index l) l) = false) as Hev.
    { unfold is_odd in *. rewrite length_delete by by eexists. pose proof (lookup_lt_Some _ _ _ Hp).
      replace (length l) with (S (length l - 1)) in Ho by lia. rewrite Nat.odd_succ in Ho.
      by rewrite <- Nat.negb_even, Ho. }
    assert (bye_players ([bye_match round p] ++ ((λ x, open_match round x.1 x.2) <$>
      (if round =? 1 then first_round_pairs (delete (bye_index l) l) else pairByScoreBrackets (delete (bye_index l) l))))
      = [sp_id p]) as Hbp.
    { unfold bye_players. rewrite omap_app. by rewrite (bye_players_open round). }
    split_and!; try done.
    + apply (bye_book _ p); [done|done|]. destruct Hbye as [?|Hall]; [by left|right]. intros k q Hq.
      apply Hall, Hrows. by rewrite (book_ids _ Hb1 _ _ Hq).
    + rewrite update_keys. apply Hs.
    + change (sp_id p :: players_in ((λ x, open_match round x.1 x.2) <$>
        (if round =? 1 then first_round_pairs (delete (bye_index l) l) else pairByScoreBrackets (delete (bye_index l) l)))
        ≡ₚ (st_participants st).*1).
      rewrite players_in_open, Hpairs by done. etrans; [|exact Hids]. symmetry.
      change (sp_id <$> l ≡ₚ sp_id <$> p :: delete (bye_index l) l). apply fmap_Permutation. by apply delete_Permutation.
    + intros k Hk. replace (bye_players _) with [sp_id p] by (symmetry; exact Hbp). rewrite rounds_of_update by (by rewrite (proj1 Hs)). rewrite (same_play_rounds _ _ _ Hs). f_equal.
      do 2 case_decide; try done; rewrite list_elem_of_singleton in *; congruence.
  - injection H as <- <-. split_and!; try done; [apply Hs| |].
    + rewrite players_in_open, Hpairs by done. done.
    + intros k Hk. rewrite (same_play_rounds _ _ _ Hs), bye_players_open.
      rewrite decide_False by apply not_elem_of_nil. by rewrite app_nil_r.
Qed.

(** *** The results of a round *)

Definition flat_keys (ks : list (string * string)) : list string := mjoin ((λ x, [x.1; x.2]) <$> ks).

Lemma pair_ids_cases a b : pair_ids a b = (a, b) ∨ pair_ids a b = (b, a).
Proof. unfold pair_ids. destruct (String.ltb b a); [by right|by left]. Qed.

Lemma pair_ids_inj a b c d : pair_ids a b = pair_ids c d → (a = c ∧ b = d) ∨ (a = d ∧ b = c).
Proof.
  intros E. destruct (pair_ids_cases a b) as [E1|E1], (pair_ids_cases c d) as [E2|E2];
    rewrite E1, E2 in E; injection E as -> ->; auto.
Qed.

Lemma elem_of_pair_ids x a b : x ∈ [(pair_ids a b).1; (pair_ids a b).2] ↔ x = a ∨ x = b.
Proof.
  destruct (pair_ids_cases a b) as [E|E]; rewrite E; cbn; rewrite elem_of_cons, list_elem_of_singleton; tauto.
Qed.

(** The matches of a round depend on who plays only. *)
Definition shape (ms : list SwissMatchup) : list (string * option string) := (λ m, (sm_home m, sm_away m)) <$> ms.

Definition shape_keys (ms : list SwissMatchup) : list (string * string) :=
  omap (λ m, pair_ids (sm_home m) <$> sm_away m) ms.

Lemma players_split ms : players_in ms ≡ₚ bye_players ms ++ flat_keys (shape_keys ms).
Proof.
  induction ms as [|m ms IH]; [done|]. unfold players_in, bye_players, shape_keys, players_of in *. cbn.
  destruct (sm_away m) as [a|]; cbn; rewrite IH; [|done].
  unfold flat_keys. cbn. rewrite <- !Permutation_middle.
  destruct (pair_ids_cases (sm_home m) a) as [E|E]; rewrite E; cbn; [done|by constructor].
Qed.

Lemma flat_keys_NoDup ks : NoDup (flat_keys ks) → NoDup ks.
Proof.
  induction ks as [|[a b] ks IH]; [constructor|].
  change (flat_keys ((a, b) :: ks)) with (a :: b :: flat_keys ks).
  intros [Ha [Hb Hk]%list.NoDup_cons]%list.NoDup_cons. constructor; [|by apply IH].
  intros Hin. apply Ha. right. apply list_elem_of_join. exists [a; b]. split; [by left|].
  apply list_elem_of_fmap. by exists (a, b).
Qed.

Lemma shape_lookup ms i m : ms !! i = Some m → shape ms !! i = Some (sm_home m, sm_away m).
Proof. intros H. unfold shape. by rewrite list_lookup_fmap, H. Qed.

Lemma shape_finish ms i m hs aws : ms !! i = Some m → shape (<[i := finish_match hs aws m]> ms) = shape ms.
Proof.
  intros H. unfold shape. rewrite list_fmap_insert. apply list_insert_id. by rewrite list_lookup_fmap, H.
Qed.

Lemma find_matchup_spec r a ms : rs_away r = Some a → pair_ids (rs_home r) a ∈ shape_keys ms →
  ∃ i rev m h w, find_matchup r ms = Some (i, rev) ∧ ms !! i = Some m ∧ sm_home m = h ∧ sm_away m = Some w ∧
    pair_ids h w = pair_ids (rs_home r) a.
Proof.
  intros Ha Hin. unfold find_matchup. rewrite Ha.
  assert (∀ h w i, find_index (is_match h (Some w)) ms = Some i →
    ∃ m, ms !! i = Some m ∧ sm_home m = h ∧ sm_away m = Some w) as Hf.
  { intros h w i (m & Hm & Hb)%find_index_Some. exists m. split; [done|]. unfold is_match in Hb.
    apply andb_true_iff in Hb as [?%bool_decide_eq_true ?%bool_decide_eq_true]. done. }
  destruct (find_index (is_match (rs_home r) (Some a)) ms) as [i|] eqn:E1.
  { apply Hf in E1 as (m & Hm & E & E'). by exists i, false, m, (rs_home r), a. }
  destruct (find_index (is_match a (Some (rs_home r))) ms) as [i|] eqn:E2.
  { apply Hf in E2 as (m & Hm & E & E'). exists i, true, m, a, (rs_home r). split_and!; try done.
    unfold pair_ids. destruct (String.ltb (rs_home r) a) eqn:L1, (String.ltb a (rs_home r)) eqn:L2; try done.
    - exfalso. unfold String.ltb in *. rewrite String.compare_antisym in L1. destruct (String.compare a (rs_home r)); done.
    - f_equal; [|symmetry]; unfold String.ltb in *; rewrite String.compare_antisym in L1;
        destruct (String.compare a (rs_home r)) eqn:C; try done; by apply String.compare_eq_iff in C. }
  exfalso. rewrite find_index_None in E1, E2.
  apply list_elem_of_omap in Hin as (m & Hm & (w & Hw & E)%fmap_Some).
  pose proof (E1 m Hm) as F1. pose proof (E2 m Hm) as F2. unfold is_match in F1, F2.
  apply pair_ids_inj in E as [[G G']|[G G']].
  - by rewrite !bool_decide_eq_true_2 in F1 by congruence.
  - by rewrite !bool_decide_eq_true_2 in F2 by congruence.
Qed.

Lemma shape_eq ms ms' : shape ms = shape ms' →
  players_in ms = players_in ms' ∧ bye_players ms = bye_players ms' ∧ shape_keys ms = shape_keys ms'.
Proof.
  intros H.
  assert (∀ ms, players_in ms = mjoin ((λ x : string * option string, x.1 :: match x.2 with Some w => [w] | None => [] end) <$> shape ms) ∧
    bye_players ms = omap (λ x : string * option string, match x.2 with None => Some x.1 | Some _ => None end) (shape ms) ∧
    shape_keys ms = omap (λ x : string * option string, pair_ids x.1 <$> x.2) (shape ms)) as Hs.
  { unfold players_in, bye_players, shape_keys, shape, players_of.
    intros l. induction l as [|m l (IH1 & IH2 & IH3)]; [done|].
    split_and!; cbn; [|destruct (sm_away m)..]; cbn; solve [exact IH1 | exact IH2 | exact IH3 | f_equal; solve [exact IH2 | exact IH3 | f_equal; exact IH1]]. }
  destruct (Hs ms) as (-> & -> & ->), (Hs ms') as (-> & -> & ->). by rewrite H.
Qed.

(** The entry of a result goes to the two players of its match. *)
Lemma apply_submitted_spec round ms ps r a : book ps → players_in ms ≡ₚ ps.*1 → rs_away r = Some a →
  pair_ids (rs_home r) a ∈ shape_keys ms →
  ∃ ms' ps', apply_submitted round (ms, ps) r = (ms', ps') ∧ shape ms' = shape ms ∧ ps'.*1 = ps.*1 ∧ book ps' ∧
    ∀ k, k ∈ ps.*1 → rounds_of k ps' = rounds_of k ps ++
      if decide (k ∈ [(pair_ids (rs_home r) a).1; (pair_ids (rs_home r) a).2]) then [round] else [].
Proof.
  intros Hb Hp Ha Hin. destruct (find_matchup_spec r a ms Ha Hin) as (i & rev & m & h & w & E & Hm & Hh & Hw & Hk).
  unfold apply_submitted. rewrite E, Hm, Hw, Hh.
  set (hs := score_of (if rev then _ else _)). set (aws := score_of (if rev then rs_homeScore r else _)).
  eexists _, _. split; [reflexivity|].
  assert (players_of m = [h; w]) as Hpm by (unfold players_of; by rewrite Hh, Hw).
  assert (h ∈ ps.*1 ∧ w ∈ ps.*1 ∧ h ≠ w) as (Hh' & Hw' & Hne).
  { apply list_elem_of_lookup_2, list_elem_of_split in Hm as (l1 & l2 & ->).
    assert (h :: w :: players_in (l1 ++ l2) ≡ₚ ps.*1) as Hp'.
    { rewrite <- Hp. unfold players_in. rewrite !fmap_app, !join_app. cbn [fmap list_fmap mjoin list_join]. rewrite Hpm.
      cbn. by rewrite <- !Permutation_middle. }
    split_and!; [rewrite <- Hp'; by left|rewrite <- Hp'; right; by left|].
    pose proof (book_keys _ Hb) as Hn. rewrite <- Hp' in Hn. apply list.NoDup_cons in Hn as [Hn _]. intros ->. apply Hn. by left. }
  split_and!.
  - by apply shape_finish.
  - unfold record_match. by rewrite !update_keys.
  - by apply match_book.
  - intros k Hkk. unfold record_match. rewrite rounds_of_update by (by rewrite update_keys).
    rewrite rounds_of_update, <- (assoc (++)) by done. f_equal. cbn [me_round match_entry].
    pose proof (elem_of_pair_ids k (rs_home r) a) as Hki. rewrite <- Hk in *. rewrite elem_of_pair_ids in Hki.
    destruct (decide (k ∈ _)) as [Hd|Hd]; rewrite elem_of_pair_ids in Hd; repeat case_decide; subst; try done; tauto.
Qed.

Definition result_key (r : SubmittedResult) (k : string * string) : Prop :=
  ∃ a, rs_away r = Some a ∧ k = pair_ids (rs_home r) a.

Lemma check_results_spec expected results sub sub' : mfoldl (check_result expected) sub results = Ok sub' → NoDup sub →
  NoDup sub' ∧ ∃ ks, sub' = sub ++ ks ∧ Forall2 result_key results ks ∧ ∀ k, k ∈ ks → k ∈ expected.
Proof.
  revert sub. induction results as [|r results IH]; intros sub H Hn.
  { injection H as <-. split; [done|]. exists []. rewrite app_nil_r. split_and!; [done|constructor|].
    intros k Hk. by apply not_elem_of_nil in Hk. }
  cbn in H. unfold check_result in *. inv_ok. bool_to_prop. subst.
  destruct (IH _ H) as (Hn' & ks & -> & Hf & Hk).
  { apply NoDup_app. split_and!; [done| |apply NoDup_singleton]. by intros k Hk' ->%list_elem_of_singleton. }
  split; [done|]. eexists (_ :: ks). rewrite <- (assoc (++)). split; [reflexivity|]. split.
  - constructor; [|done]. eexists. split; [eassumption|done].
  - intros k [->|Hin]%elem_of_cons; [done|by apply Hk].
Qed.

Lemma apply_results_spec round results ks ms ps ms' ps' : book ps → players_in ms ≡ₚ ps.*1 →
  Forall2 result_key results ks → (∀ k, k ∈ ks → k ∈ shape_keys ms) → NoDup (flat_keys ks) →
  fold_left (apply_submitted round) results (ms, ps) = (ms', ps') →
  shape ms' = shape ms ∧ ps'.*1 = ps.*1 ∧ book ps' ∧
  ∀ k, k ∈ ps.*1 → rounds_of k ps' = rounds_of k ps ++ if decide (k ∈ flat_keys ks) then [round] else [].
Proof.
  intros Hb Hp Hf. revert ms ps Hb Hp.
  induction Hf as [|r [x y] results ks (a & Ha & E) Hf IH]; intros ms ps Hb Hp Hk Hn H.
  { injection H as <- <-. split_and!; try done. intros k _. rewrite decide_False by apply not_elem_of_nil.
    by rewrite app_nil_r. }
  change (flat_keys ((x, y) :: ks)) with ([x; y] ++ flat_keys ks) in *. apply NoDup_app in Hn as (_ & Hxy & Hn).
  destruct (apply_submitted_spec round ms ps r a Hb Hp Ha) as (ms1 & ps1 & E1 & Hs1 & Hk1 & Hb1 & Hr1).
  { rewrite <- E. apply Hk. by left. }
  cbn [fold_left] in H. rewrite E1 in H. destruct (shape_eq _ _ Hs1) as (Hs2 & _ & Hs3).
  destruct (IH ms1 ps1) as (Hs' & Hk' & Hb' & Hr'); [done|by rewrite Hs2, Hk1| |done|done|].
  { intros k Hin. rewrite Hs3. apply Hk. by right. }
  split_and!; [by rewrite Hs'|by rewrite Hk'|done|]. intros k Hkk.
  rewrite Hr' by (by rewrite Hk1). rewrite Hr1, <- E, <- (assoc (++)) by done. f_equal. cbn [fst snd].
  destruct (decide (k ∈ [x; y])) as [H1|H1]; destruct (decide (k ∈ flat_keys ks)) as [H2|H2].
  - by apply Hxy in H1.
  - rewrite decide_True; [done|]. apply elem_of_app. by left.
  - rewrite decide_True; [done|]. apply elem_of_app. by right.
  - rewrite decide_False; [done|]. rewrite elem_of_app. tauto.
Qed.

(** *** The invariant *)

Record swiss_inv (st : SwissTournamentState) : Prop := {
  si_book : book (st_participants st);
  si_some : st_participants st ≠ [];
  si_rounds : st_currentRound st = Z.of_nat (length (st_rounds st));
  si_limit : st_currentRound st ≤ st_totalRounds st;
  si_idle : st_status st ≠ ROUND_ACTIVE →
    ∀ k, k ∈ (st_participants st).*1 → rounds_of k (st_participants st) = seqZ 1 (st_currentRound st);
  si_active : st_status st = ROUND_ACTIVE → ∃ rs r, st_rounds st = rs ++ [r] ∧ sr_isFinished r = false ∧
    players_in (sr_matchups r) ≡ₚ (st_participants st).*1 ∧
    ∀ k, k ∈ (st_participants st).*1 → rounds_of k (st_participants st) =
      seqZ 1 (st_currentRound st - 1) ++ if decide (k ∈ bye_players (sr_matchups r)) then [st_currentRound st] else []
}.

Lemma current_round_last st rs r : swiss_inv st → st_rounds st = rs ++ [r] → getCurrentRound st = Some r.
Proof.
  intros Hi E. unfold getCurrentRound. rewrite (si_rounds _ Hi), E, length_app. cbn [length].
  rewrite bool_decide_eq_false_2 by (by destruct rs). rewrite orb_false_r.
  destruct (Z.leb_spec (Z.of_nat (length rs + 1)) 0); [lia|].
  replace (Z.to_nat _) with (length rs) by lia. by rewrite lookup_app_r, Nat.sub_diag.
Qed.

Lemma seqZ_next n : 0 ≤ n → seqZ 1 (n + 1) = seqZ 1 n ++ [n + 1].
Proof. intros Hn. rewrite seqZ_app by lia. f_equal. rewrite seqZ_cons by lia. f_equal. lia. Qed.

(** Only the standings change. *)
Lemma same_play_inv st st' : swiss_inv st → same_play (st_participants st) (st_participants st') →
  st_currentRound st' = st_currentRound st → st_totalRounds st' = st_totalRounds st →
  st_status st' = st_status st → st_rounds st' = st_rounds st → swiss_inv st'.
Proof.
  intros [H1 H2 H3 H4 H5 H6] Hs E1 E2 E3 E4.
  constructor; rewrite ?E1, ?E2, ?E3, ?E4, ?(proj1 Hs); try done.
  - by apply (same_play_book _ _ Hs).
  - intros E. apply H2. apply fmap_nil_inv with (f := fst). rewrite <- (proj1 Hs), E. done.
  - intros Hst k Hk. rewrite (same_play_rounds _ _ _ Hs). by apply H5.
  - intros (rs & r & F1 & F2 & F3 & F4)%H6. exists rs, r. split_and!; try done.
    intros k Hk. rewrite (same_play_rounds _ _ _ Hs). by apply F4.
Qed.

Lemma generate_inv st gw : swiss_inv st → swiss_inv (generateNextRound gw st).1.
Proof.
  intros Hi. unfold generateNextRound. case_bool_decide as Hc; [done|].
  assert (bool_decide (st_status st = ROUND_ACTIVE) && match getCurrentRound st with Some r => negb (sr_isFinished r) | None => false end
    = bool_decide (st_status st = ROUND_ACTIVE)) as ->.
  { case_bool_decide as Ha; [|done]. destruct (si_active _ Hi Ha) as (rs & r & Hr & Hf & _).
    rewrite (current_round_last _ _ _ Hi Hr). by rewrite Hf. }
  case_bool_decide as Ha; [done|]. destruct (Z.ltb_spec (st_totalRounds st) (st_currentRound st + 1)) as [Hl|Hl].
  { destruct Hi as [H1 H2 H3 H4 H5 H6]. constructor; try done. cbn. intros _. by apply H5. }
  pose proof (recompute_same st (si_book _ Hi)) as Hs.
  assert (swiss_inv (recomputeStandingsAndTieBreakers st)) as Hi' by by apply (same_play_inv st).
  destruct (computePairings _ _) as [ms st'] eqn:E.
  destruct (compute_pairings_spec _ _ _ _ (si_book _ Hi') (si_some _ Hi') E) as (H1 & H2 & H3 & H4 & E1 & E2 & E3 & E4).
  change (st_currentRound (recomputeStandingsAndTieBreakers st)) with (st_currentRound st) in *.
  change (st_totalRounds (recomputeStandingsAndTieBreakers st)) with (st_totalRounds st) in *.
  change (st_rounds (recomputeStandingsAndTieBreakers st)) with (st_rounds st) in *.
  cbn [fst]. constructor; cbn [st_participants st_rounds st_currentRound st_totalRounds st_status].
  - done.
  - intros E'. apply (si_some _ Hi'), fmap_nil_inv with (f := fst). by rewrite <- H2, E'.
  - rewrite E4, length_app, (si_rounds _ Hi). cbn. lia.
  - lia.
  - done.
  - intros _. eexists _, _. split; [reflexivity|]. cbn. rewrite H2. split_and!; [done|done|].
    intros k Hk. rewrite (H4 k Hk). f_equal. rewrite (si_idle _ Hi') by done. f_equal. cbn. lia.
Qed.

Lemma submit_inv st n results st' : swiss_inv st → submitRoundResults n results st = Ok st' → swiss_inv st'.
Proof.
  intros Hi H. unfold submitRoundResults in H. inv_ok. bool_to_prop.
  destruct (si_active _ Hi Hguard) as (rs & r & Hr & Hf & Hp & Hro).
  rewrite (current_round_last _ _ _ Hi Hr) in Hsome. injection Hsome as <-. subst n.
  change (expected_keys r) with (shape_keys (sr_matchups r)) in *.
  apply check_results_spec in Hm as (Hn & ks & -> & Hfk & Hks); [|constructor]. cbn in Hn, Hguard1.
  assert (NoDup (bye_players (sr_matchups r) ++ flat_keys (shape_keys (sr_matchups r)))) as Hnp.
  { rewrite <- players_split, Hp. apply (si_book _ Hi). }
  apply NoDup_app in Hnp as (_ & Hdis & Hnf). pose proof (flat_keys_NoDup _ Hnf) as Hne.
  rewrite (proj2 (length_remove_dups_eq _)) in Hguard1 by done. apply Nat.eqb_eq in Hguard1.
  assert (ks ≡ₚ shape_keys (sr_matchups r)) as Hpk.
  { apply submseteq_length_Permutation; [by apply NoDup_submseteq|lia]. }
  assert (flat_keys ks ≡ₚ flat_keys (shape_keys (sr_matchups r))) as Hpf.
  { unfold flat_keys. by rewrite Hpk. }
  destruct (fold_left _ _ _) as [ms ps] eqn:E.
  apply (apply_results_spec _ _ ks) in E as (Hs & Hk & Hb & Hrd); [|by apply Hi|done|done|done|by rewrite Hpf].
  injection H as <-.
  set (st1 := Build_SwissTournamentState (st_totalRounds st) (st_currentRound st) (st_status st) ps
    (<[Z.to_nat (st_currentRound st - 1) := Build_SwissRound (sr_roundNumber r) (sr_gameweekId r) true ms]> (st_rounds st))).
  change (swiss_inv (Build_SwissTournamentState (st_totalRounds st) (st_currentRound st)
    (if st_totalRounds st <=? st_currentRound st then TOURNAMENT_COMPLETED else ROUND_COMPLETED)
    (st_participants (recomputeStandingsAndTieBreakers st1)) (st_rounds st1))).
  pose proof (recompute_same st1 Hb) as Hsp. change (st_participants st1) with ps in Hsp.
  constructor; cbn [st_participants st_rounds st_currentRound st_totalRounds st_status].
  - by apply (same_play_book _ _ Hsp).
  - intros E'. apply (si_some _ Hi), fmap_nil_inv with (f := fst). rewrite <- Hk, <- (proj1 Hsp), E'. done.
  - cbn. rewrite length_insert. apply Hi.
  - apply Hi.
  - intros _ k Hin. rewrite (proj1 Hsp), Hk in Hin. rewrite (same_play_rounds _ _ _ Hsp), Hrd, Hro by done.
    pose proof (si_rounds _ Hi) as Hlen. rewrite Hr, length_app in Hlen. cbn in Hlen.
    rewrite <- Hp, players_split in Hin. cbn.
    replace (seqZ 1 (st_currentRound st)) with (seqZ 1 (st_currentRound st - 1) ++ [st_currentRound st]).
    2: { replace (st_currentRound st) with (st_currentRound st - 1 + 1) at 2 3 by lia. symmetry. apply seqZ_next. lia. }
    rewrite <- (assoc (++)). f_equal.
    destruct (decide (k ∈ bye_players (sr_matchups r))) as [H1|H1].
    + rewrite decide_False; [done|]. rewrite Hpf. by apply Hdis.
    + rewrite decide_True; [done|]. rewrite Hpf. apply elem_of_app in Hin as [?|?]; done.
  - intros Ha. exfalso. revert Ha. by destruct (_ <=? _).
Qed.

Lemma new_engine_inv participants totalRounds st : new_engine participants totalRounds = Ok st → swiss_inv st.
Proof.
  intros H. unfold new_engine in H. inv_ok. bool_to_prop. subst st.
  set (ps := imap _ participants).
  assert (ps.*1 = participants.*1) as Hk.
  { subst ps. rewrite fmap_imap. apply list_eq. intros i. rewrite list_lookup_imap, list_lookup_fmap. cbn. by destruct (_ !! i). }
  assert (NoDup ps.*1) as Hn.
  { rewrite Hk. apply length_remove_dups_eq. rewrite length_fmap. lia. }
  assert (∀ k p, map_get k ps = Some p → ∃ i s, p = new_participant i (k, s)) as Hp.
  { intros k p (i & [k' s] & [= -> ->] & _)%map_get_elem%elem_of_lookup_imap. by eexists _, _. }
  constructor; cbn [st_participants st_rounds st_currentRound st_totalRounds st_status].
  - constructor; [done| | | |].
    + by intros k p (i & s & ->)%Hp.
    + intros k p (i & s & ->)%Hp. by constructor.
    + intros a b p q (i & s & ->)%Hp _ Hin. by apply not_elem_of_nil in Hin.
    + intros a b p q (i & s & ->)%Hp _ Hge. cbn in Hge. lia.
  - intros E. subst ps. destruct participants; [cbn in *; lia|done].
  - done.
  - lia.
  - intros _ k [p Hg]%map_get_keys. unfold rounds_of. rewrite Hg. by destruct (Hp _ _ Hg) as (i & s & ->).
  - done.
Qed.

Lemma swiss_step_inv st st' : swiss_inv st → swiss_step st st' → swiss_inv st'.
Proof.
  intros Hi H. revert Hi. destruct H as [s gw|s s' n results H|s]; intros Hi.
  - by apply generate_inv.
  - by apply (submit_inv s n results).
  - apply (same_play_inv s); try done. apply recompute_same, Hi.
Qed.

Lemma swiss_reachable_inv st st' : swiss_inv st → rtc swiss_step st st' → swiss_inv st'.
Proof. intros Hi H. revert Hi. induction H; [done|]. intros Hi. by eapply IHrtc, swiss_step_inv. Qed.

Lemma tally_total (h : list MatchEntry) :
  countb (λ m, bool_decide (me_result m = WIN)) h + countb (λ m, bool_decide (me_result m = DRAW)) h +
  countb (λ m, bool_decide (me_result m = LOSS)) h + countb (λ m, bool_decide (me_result m = BYE)) h = Z.of_nat (length h).
Proof.
  induction h as [|m h IH]; [done|]. rewrite !countb_cons. cbn [length].
  destruct (me_result m); repeat case_bool_decide; try discriminate; try congruence; lia.
Qed.

(** *** Who is paired *)

(** Two participants have met. *)
Definition met (st : SwissTournamentState) (a b : string) : Prop :=
  ∃ p, map_get a (st_participants st) = Some p ∧ b ∈ sp_opponentsFaced p.

Lemma open_keys round pairs :
  shape_keys ((λ x, open_match round x.1 x.2) <$> pairs) = (λ x, pair_ids (sp_id x.1) (sp_id x.2)) <$> pairs.
Proof. induction pairs as [|x pairs IH]; [done|]. unfold shape_keys in *. cbn in *. by rewrite IH. Qed.

Lemma compute_pairings_open round st ms st' : book (st_participants st) → (st_participants st) ≠ [] →
  computePairings round st = (ms, st') →
  ∃ available byes ps, is_odd available = false ∧ shape_keys byes = [] ∧ (∀ m, m ∈ byes → sm_away m = None) ∧
    same_play (st_participants st) ps ∧ NoDup (sp_id <$> available) ∧
    (∀ p, p ∈ available → map_get (sp_id p) ps = Some p) ∧
    ms = byes ++ ((λ x, open_match round x.1 x.2) <$>
      (if round =? 1 then first_round_pairs available else pairByScoreBrackets available)).
Proof.
  intros Hb Hne H. unfold computePairings in H. destruct (getStandings st) as [l st1] eqn:Es.
  apply standings_rows in Es as (Hs & Hb1 & Hids & Hrows & _); [|done].
  assert (NoDup (sp_id <$> l)) as Hn by (rewrite Hids; apply Hb).
  destruct (is_odd l) eqn:Ho.
  - destruct (bye_index_spec l) as (p & Hp & _); [by intros ->|]. rewrite Hp in H. injection H as <- <-.
    exists (delete (bye_index l) l), [bye_match round p], (st_participants st1). split_and!; try done.
    + unfold is_odd in *. rewrite length_delete by by eexists. pose proof (lookup_lt_Some _ _ _ Hp).
      replace (length l) with (S (length l - 1)) in Ho by lia. rewrite Nat.odd_succ in Ho. by rewrite <- Nat.negb_even, Ho.
    + by intros m ->%list_elem_of_singleton.
    + rewrite (delete_Permutation l _ _ Hp) in Hn. by apply list.NoDup_cons in Hn as [_ Hn].
    + intros q Hq%list_elem_of_delete_inv. by apply Hrows.
  - injection H as <- <-. exists l, [], (st_participants st1). split_and!; try done.
    + intros m Hm. by apply not_elem_of_nil in Hm.
    + intros q Hq. by apply Hrows.
Qed.

(** What the solver would need: somebody's pairing of the same players without a rematch. *)
Lemma fresh_from_ids ps available (alt : list (string * string)) : book ps → NoDup (sp_id <$> available) →
  (∀ p, p ∈ available → map_get (sp_id p) ps = Some p) → flat_keys alt ≡ₚ sp_id <$> available →
  (∀ x, x ∈ alt → ∀ p, map_get x.1 ps = Some p → x.2 ∉ sp_opponentsFaced p) →
  ∃ pairs, fresh_pairing available pairs.
Proof.
  intros Hb Hn Hg Hp Hf.
  assert (∀ k, k ∈ flat_keys alt → ∃ p, p ∈ available ∧ sp_id p = k ∧ map_get k ps = Some p) as Hk.
  { intros k. rewrite Hp. intros (p & -> & Hin)%list_elem_of_fmap. exists p. by rewrite Hg. }
  destruct available as [|d av] eqn:Eav.
  { exists []. split; [done|]. intros x Hx. by apply not_elem_of_nil in Hx. }
  rewrite <- Eav in *. clear Eav av. set (get := λ k, default d (map_get k ps)).
  exists ((λ x, (get x.1, get x.2)) <$> alt). split.
  - assert (flat ((λ x, (get x.1, get x.2)) <$> alt) = get <$> flat_keys alt) as ->.
    { clear. induction alt as [|x alt IH]; [done|].
      change (flat_keys (x :: alt)) with (x.1 :: x.2 :: flat_keys alt). cbn [fmap list_fmap]. by rewrite <- IH. }
    rewrite Hp, <- list_fmap_compose. apply reflexive_eq. rewrite <- (list_fmap_id available) at 2.
    apply list_fmap_ext. intros i p Hi. cbn. unfold get. by rewrite Hg by (by eapply list_elem_of_lookup_2).
  - intros y (x & -> & Hx)%list_elem_of_fmap.
    assert (x.1 ∈ flat_keys alt ∧ x.2 ∈ flat_keys alt) as [(p & _ & E1 & G1)%Hk (q & _ & E2 & G2)%Hk].
    { unfold flat_keys. split; apply list_elem_of_join; exists [x.1; x.2]; (split; [|apply list_elem_of_fmap; by exists x]).
      - by left.
      - right; by left. }
    cbn. unfold get. rewrite G1, G2. cbn. unfold faced. pose proof (Hf x Hx p G1) as Hnot.
    rewrite E1, E2. split; apply bool_decide_eq_false_2; [done|]. intros Hin. apply Hnot.
    by apply (book_sym _ Hb x.2 x.1 q p).
Qed.

Lemma players_of_shape m ms w : m ∈ ms → sm_away m = Some w → pair_ids (sm_home m) w ∈ shape_keys ms.
Proof. intros Hm Hw. apply list_elem_of_omap. exists m. by rewrite Hw. Qed.

(** The first round is paired before anybody has met anybody. *)
Lemma nobody_met st a b : swiss_inv st → st_status st ≠ ROUND_ACTIVE → st_currentRound st = 0 → ¬ met st a b.
Proof.
  intros Hi Hs H0 (p & Hp & Hb). pose proof (si_idle _ Hi Hs a) as Hr. rewrite H0 in Hr. unfold rounds_of in Hr.
  rewrite Hp in Hr. rewrite (tally_opponents p) in Hb by by apply (book_tally _ (si_book _ Hi) a).
  assert (sp_matchHistory p = []) as E.
  { eapply fmap_nil_inv. apply Hr, map_get_keys. by eexists. }
  rewrite E in Hb. by apply not_elem_of_nil in Hb.
Qed.

Lemma no_rematch_aux st gw st' r alt : swiss_inv st → generateNextRound gw st = (st', Ok r) →
  flat_keys alt ≡ₚ flat_keys (expected_keys r) → (∀ x, x ∈ alt → ¬ met st x.1 x.2) →
  ∀ m w, m ∈ sr_matchups r → sm_away m = Some w → ¬ met st (sm_home m) w.
Proof.
  intros Hi H Hp Hf. unfold generateNextRound in H.
  destruct (bool_decide (st_status st = TOURNAMENT_COMPLETED)); [done|].
  destruct (bool_decide (st_status st = ROUND_ACTIVE) && _) eqn:Hg; [done|].
  destruct (_ <? _); [done|].
  assert (st_status st ≠ ROUND_ACTIVE) as Hst.
  { intros Ha. destruct (si_active _ Hi Ha) as (rs & r' & Hr & Hff & _).
    rewrite (current_round_last _ _ _ Hi Hr), bool_decide_eq_true_2, Hff in Hg by done. done. }
  pose proof (recompute_same st (si_book _ Hi)) as Hs.
  pose proof (same_play_book _ _ Hs (si_book _ Hi)) as Hb.
  destruct (computePairings _ _) as [ms st2] eqn:E. injection H as _ <-. cbn [sr_matchups] in *.
  apply compute_pairings_open in E as (av & byes & ps & Hev & Hbk & Hby & Hs' & Hn & Hrows & ->); [|done|].
  2: { intros E'. apply (si_some _ Hi), fmap_nil_inv with (f := fst). by rewrite <- (proj1 Hs), E'. }
  change (st_currentRound (recomputeStandingsAndTieBreakers st)) with (st_currentRound st) in *.
  destruct (Z.eqb_spec (st_currentRound st + 1) 1) as [H1|H1].
  { intros m w _ _. apply nobody_met; [done|done|lia]. }
  intros m w [Hm%Hby|Hm]%elem_of_app Hw; [congruence|].
  apply list_elem_of_fmap in Hm as ([p q] & -> & Hin). cbn in Hw. injection Hw as <-. cbn [fst snd sm_home open_match].
  assert (∀ k p, map_get k ps = Some p → ∃ p', map_get k (st_participants st) = Some p' ∧
    sp_opponentsFaced p = sp_opponentsFaced p') as Hback.
  { intros k x (y & Hy & Hr)%(same_play_back _ _ _ _ Hs'). apply (same_play_back _ _ _ _ Hs) in Hy as (z & Hz & Hr').
    exists z. split; [done|]. apply same_record_fields in Hr as (_ & _ & -> & _), Hr' as (_ & _ & -> & _). done. }
  assert (∃ pairs, fresh_pairing av pairs) as Hfresh.
  { apply (fresh_from_ids ps av alt); [by apply (same_play_book _ _ Hs')|done|done| |].
    - rewrite Hp. unfold expected_keys. cbn [sr_matchups]. change (flat_keys (shape_keys (byes ++ ((λ x, open_match (st_currentRound st + 1) x.1 x.2) <$> pairByScoreBrackets av))) ≡ₚ sp_id <$> av).
      unfold shape_keys. rewrite omap_app. change (omap _ byes) with (shape_keys byes). rewrite Hbk.
      pose proof (players_split ((λ x, open_match (st_currentRound st + 1) x.1 x.2) <$> pairByScoreBrackets av)) as Hps.
      rewrite bye_players_open, players_in_open in Hps. rewrite (pairs_perm av Hev) in Hps. by symmetry.
    - intros x Hx y Hy Hxy. apply (Hf x Hx). destruct (Hback _ _ Hy) as (z & Hz & E). exists z. by rewrite <- E. }
  unfold pairByScoreBrackets, solveBacktrackPairings in Hin.
  destruct (solve_complete (length av) av (le_n _) Hfresh) as [pairs Hsol]. rewrite Hsol in Hin.
  apply solve_sound in Hsol as [Hperm Hx]. specialize (Hx _ Hin). cbn in Hx. unfold faced in Hx. apply bool_decide_eq_false in Hx.
  assert (p ∈ av) as Hpav.
  { rewrite <- Hperm. unfold flat. apply list_elem_of_join. exists [p; q]. split; [by left|]. apply list_elem_of_fmap. by exists (p, q). }
  intros (z & Hz & Hm). apply Hx. destruct (Hback _ _ (Hrows _ Hpav)) as (z' & Hz' & ->). by simplify_eq.
Qed.

(** ** Theorems *)

(** Between rounds every participant of a Swiss tournament has played each of
    the rounds so far exactly once, the bye counting as a match: its history
    lists the rounds in order. At any time what it shows (wins, draws, losses,
    byes, match points and the opponents faced) is the tally of that history,
    having met is mutual, and nobody has a second bye while another
    participant is still without one. *)
Theorem swiss_everyone_plays participants totalRounds st0 st k p :
  new_engine participants totalRounds = Ok st0 → rtc swiss_step st0 st →
  map_get k (st_participants st) = Some p →
  tallied p ∧
  (st_status st ≠ ROUND_ACTIVE →
    (me_round <$> sp_matchHistory p) = seqZ 1 (st_currentRound st) ∧
    sp_wins p + sp_draws p + sp_losses p = st_currentRound st) ∧
  ∀ k' q, map_get k' (st_participants st) = Some q →
    (k' ∈ sp_opponentsFaced p → k ∈ sp_opponentsFaced q) ∧ (2 ≤ sp_byes p → 1 ≤ sp_byes q).
Proof.
  intros H0 Hr Hp. pose proof (swiss_reachable_inv _ _ (new_engine_inv _ _ _ H0) Hr) as Hi.
  pose proof (book_tally _ (si_book _ Hi) _ _ Hp) as Ht. split_and!; [done| |].
  - intros Hs. pose proof (si_idle _ Hi Hs k) as Hk. unfold rounds_of in Hk. rewrite Hp in Hk.
    rewrite <- Hk by (apply map_get_keys; by eexists). split; [done|].
    assert (length (me_round <$> sp_matchHistory p) = length (seqZ 1 (st_currentRound st))) as Hl.
    { rewrite <- Hk; [done|]. apply map_get_keys. by eexists. }
    rewrite length_fmap, length_seqZ in Hl. pose proof (tally_total (sp_matchHistory p)) as Htt.
    rewrite (tally_wins _ Ht), (tally_draws _ Ht), (tally_losses _ Ht), (tally_byes _ Ht).
    pose proof (si_rounds _ Hi). lia.
  - intros k' q Hq. split; [by apply (book_sym _ (si_book _ Hi) k k')|by apply (book_byes _ (si_book _ Hi) k k')].
Qed.

(** C33. A Swiss round has no avoidable rematch: if the players it pairs (those
    without the bye) could be paired with no two of them having met, then none
    of the round's matches is between participants who have met. The
    backtracking search is complete. *)
Theorem swiss_no_avoidable_rematch participants totalRounds st0 st gameweekId st' r alternative :
  new_engine participants totalRounds = Ok st0 → rtc swiss_step st0 st →
  generateNextRound gameweekId st = (st', Ok r) →
  flat_keys alternative ≡ₚ flat_keys (expected_keys r) → (∀ x, x ∈ alternative → ¬ met st x.1 x.2) →
  ∀ m away, m ∈ sr_matchups r → sm_away m = Some away → ¬ met st (sm_home m) away.
Proof.
  intros H0 Hr. by apply no_rematch_aux, (swiss_reachable_inv st0), Hr; eapply new_engine_inv.
Qed.

End engine.

(** ** Witnesses *)

Definition demo_participants : list (string * option Z) := [("a", None); ("b", None); ("c", None); ("d", None); ("e", None)]%string.
Definition demo_compare (a b : string) : Z := 0.

Definition demo_start : SwissTournamentState :=
  match new_engine demo_participants None with Ok st => st | Err _ => Build_SwissTournamentState 0 0 CREATED [] [] end.

Definition demo_results (r : SwissRound) : list SubmittedResult :=
  omap (λ m, (λ away, Build_SubmittedResult away (Some (sm_home m)) (int 40) (int 55)) <$> sm_away m) (sr_matchups r).

(** A round is drawn up and its results, with the sides swapped, are submitted. *)
Definition demo_play (st : SwissTournamentState) : SwissTournamentState :=
  match generateNextRound demo_compare 7 st with
  | (st', Ok r) => match submitRoundResults demo_compare (st_currentRound st') (demo_results r) st' with Ok st => st | Err _ => st' end
  | (st', Err _) => st'
  end.

Lemma demo_play_reach st st' r st2 : generateNextRound demo_compare 7 st = (st', Ok r) →
  submitRoundResults demo_compare (st_currentRound st') (demo_results r) st' = Ok st2 → rtc (swiss_step demo_compare) st st2.
Proof.
  intros E1 E2. eapply rtc_l; [|eapply rtc_l; [|apply rtc_refl]].
  - apply (swiss_generate _ st 7).
  - rewrite E1. by eapply swiss_submit.
Qed.

Definition demo_round (st : SwissTournamentState) : SwissTournamentState * SwissRound :=
  match generateNextRound demo_compare 7 st with
  | (st', Ok r) => (st', r)
  | (st', Err _) => (st', Build_SwissRound 0 0 false [])
  end.

Lemma swiss_everyone_plays_witness :
  ∃ p, map_get "a"%string (st_participants (demo_play demo_start)) = Some p ∧ tallied p ∧
    (me_round <$> sp_matchHistory p) = [1].
Proof.
  destruct (map_get "a"%string (st_participants (demo_play demo_start))) as [p|] eqn:E; [|vm_compute in E; discriminate E].
  exists p. split; [reflexivity|].
  destruct (swiss_everyone_plays demo_compare demo_participants None demo_start (demo_play demo_start) "a" p) as (Ht & Hr & _).
  - vm_compute; reflexivity.
  - apply (demo_play_reach demo_start (demo_round demo_start).1 (demo_round demo_start).2); vm_compute; reflexivity.
  - exact E.
  - split; [exact Ht|]. apply Hr. vm_compute. discriminate.
Defined.

Lemma swiss_no_avoidable_rematch_witness :
  expected_keys (demo_round (demo_play demo_start)).2 = [("a", "b"); ("c", "e")]%string ∧
  ¬ met (demo_play demo_start) "a" "b".
Proof.
  assert (expected_keys (demo_round (demo_play demo_start)).2 = [("a", "b"); ("c", "e")]%string) as E
    by (vm_compute; reflexivity).
  split; [exact E|].
  apply (swiss_no_avoidable_rematch demo_compare demo_participants None demo_start (demo_play demo_start) 7
    (demo_round (demo_play demo_start)).1 (demo_round (demo_play demo_start)).2
    (expected_keys (demo_round (demo_play demo_start)).2))
    with (m := Build_SwissMatchup 2 "a" (Some "b"%string) None None false None).
  - vm_compute; reflexivity.
  - apply (demo_play_reach demo_start (demo_round demo_start).1 (demo_round demo_start).2); vm_compute; reflexivity.
  - vm_compute; reflexivity.
  - reflexivity.
  - rewrite E. intros x Hx (p & Hp & Hin). repeat (apply elem_of_cons in Hx as [->|Hx]); [| |by apply elem_of_nil in Hx];
      vm_compute in Hp; injection Hp as <-; vm_compute in Hin; repeat (apply elem_of_cons in Hin as [Hin|Hin]; [discriminate Hin|]); by apply elem_of_nil in Hin.
  - vm_compute. right. left.
  - reflexivity.
Defined.
