(* ===== verification/Merkle.v ===== *)
(** * Merkle proofs of prize claims: [backend/src/services/financial/merkleTree.ts],
      [settlementProof.ts] and [contractLeagueId.ts]

    The tree over the claims of a league's winners, its branch proofs and their
    verification, with buffers as lists of bytes.  SHA-256 and the XDR encoding
    of the Stellar SDK are arguments; the commitment of the settlement plan is
    the digest of its canonical JSON value, whose rendering as text is an
    argument too. *)

From Stdlib Require Import QArith Ascii String Strings.Byte.
From S2P Require Import Prelude Text Prize TxCoordinator Financial.

#[local] Open Scope Z_scope.

#[export] Instance byte_eq_dec : EqDecision byte := Byte.byte_eq_dec.

(** ** [BigInt(x)] *)

Inductive bigint_arg : Type :=
| FromText (s : list ascii)
| FromNumber (n : jsnum)
| FromBigInt (z : Z).

Inductive MerkleError : Type :=
| BigIntSyntax
| BigIntRange
| EmptyTree
| EmptyWinners
| IndexOutOfBounds
| SdkError.

(** [BigInt(x)]. *)
Definition BigInt (x : bigint_arg) : result MerkleError Z :=
  match x with
  | FromText s => or_throw (bigint_of_text s) BigIntSyntax
  | FromNumber n => or_throw (as_integer n) BigIntRange
  | FromBigInt z => Ok z
  end.

(** [leagueIdPrefixFromContractId], for a [u64]. *)
Definition leagueIdPrefixFromContractId (contractLeagueId : Z) : list ascii :=
  let hex := pad_start 16 "0"%char (radix_text 16 contractLeagueId) in
  take 8 hex ++ ["-"]%char ++ take 4 (drop 8 hex) ++ ["-"]%char ++ take 4 (drop 12 hex).

(** ** Buffers *)

Notation buffer := (list byte).

(** [Buffer.compare]. *)
Fixpoint buffer_compare (a b : buffer) : comparison :=
  match a, b with
  | [], [] => Eq
  | [], _ => Lt
  | _, [] => Gt
  | x :: a, y :: b => match (Byte.to_N x ?= Byte.to_N y)%N with Eq => buffer_compare a b | c => c end
  end.

Definition byte_of (n : Z) : byte := default x00 (Byte.of_N (Z.to_N n)).

(** [toString("hex")] *)
Definition to_hex (b : buffer) : list ascii :=
  mjoin ((λ x, let n := Z.of_N (Byte.to_N x) in [digit_char (n / 16); digit_char (n mod 16)]) <$> b).

(** [Buffer.from(text, "hex")] stops at the first pair that is not one. *)
Fixpoint from_hex (l : list ascii) : buffer :=
  match l with
  | a :: b :: l => if is_hex a && is_hex b then byte_of (16 * hex_digit a + hex_digit b) :: from_hex l else []
  | _ => []
  end.

Inductive buffer_arg : Type :=
| Raw (b : buffer)
| Hex (s : list ascii).

Definition to_buffer (x : buffer_arg) : buffer := match x with Raw b => b | Hex s => from_hex s end.

(** ** The tree *)

Record WinnerClaimItem : Type := {
  wc_winnerAddress : string;
  wc_amount : bigint_arg
}.

Record MerkleClaimProof : Type := {
  mc_leagueId : bigint_arg;
  mc_winnerAddress : string;
  mc_amount : list ascii;
  mc_proof : list (list ascii);
  mc_root : list ascii
}.

Record MerkleTree : Type := {
  mt_leaves : list buffer;
  mt_layers : list (list buffer)
}.

Section merkle.
(** SHA-256. *)
Context (sha256 : buffer → buffer).
(** The XDR of a [u64] league id, an address and an [i128] amount; the SDK
    throws on what it cannot encode. *)
Context (claim_xdr : Z → string → Z → option buffer).

Definition hashClaimLeaf (leagueId : bigint_arg) (winnerAddress : string) (amount : bigint_arg) : result MerkleError buffer :=
  let* leagueIdBigInt := BigInt leagueId in
  let* amountBigInt := BigInt amount in
  let* leafBytes := or_throw (claim_xdr leagueIdBigInt winnerAddress amountBigInt) SdkError in
  Ok (sha256 leafBytes).

Definition sort_pair (l r : buffer) : buffer :=
  match buffer_compare l r with Gt => r ++ l | _ => l ++ r end.

Definition hashPair (l r : buffer) : buffer := sha256 (sort_pair l r).

(** One round of the loop: the last of an odd number is paired with itself. *)
Fixpoint next_level (current : list buffer) : list buffer :=
  match current with
  | l :: r :: rest => hashPair l r :: next_level rest
  | [l] => [hashPair l l]
  | [] => []
  end.

(** Each level is at most half of the one below, rounded up: the number of
    leaves is fuel enough. *)
Fixpoint build_layers (fuel : nat) (current : list buffer) : list (list buffer) :=
  current :: match fuel with
             | O => []
             | S fuel => if (1 <? length current)%nat then build_layers fuel (next_level current) else []
             end.

Definition new_MerkleTree (leaves : list buffer) : result MerkleError MerkleTree :=
  throw_if (bool_decide (leaves = [])) EmptyTree ;;;
  Ok {| mt_leaves := leaves; mt_layers := build_layers (length leaves) leaves |}.

Definition getRoot (t : MerkleTree) : buffer := default [] (last (mt_layers t) ≫= head).
Definition getRootHex (t : MerkleTree) : list ascii := to_hex (getRoot t).

Definition sibling_index (idx len : nat) : nat :=
  let siblingIdx := if Nat.odd idx then (idx - 1)%nat else S idx in
  if (siblingIdx <? len)%nat then siblingIdx else idx.

(** The loop over every layer but the last. *)
Fixpoint branch (layers : list (list buffer)) (idx : nat) : list (list ascii) :=
  match layers with
  | layer :: (_ :: _) as above => to_hex (default [] (layer !! sibling_index idx (length layer))) :: branch above (Nat.div2 idx)
  | _ => []
  end.

Definition getProof (leafIndex : Z) (t : MerkleTree) : result MerkleError (list (list ascii)) :=
  throw_if ((leafIndex <? 0) || (Z.of_nat (length (mt_leaves t)) <=? leafIndex)) IndexOutOfBounds ;;;
  Ok (branch (mt_layers t) (Z.to_nat leafIndex)).

(** One turn of [winners.forEach]: a later claim of the same address replaces the earlier one. *)
Definition add_claim (leagueId : bigint_arg) (t : MerkleTree) (acc : list (string * MerkleClaimProof)) (x : nat * WinnerClaimItem) :
    result MerkleError (list (string * MerkleClaimProof)) :=
  let '(idx, w) := x in
  let* amount := BigInt (wc_amount w) in
  let* proof := getProof (Z.of_nat idx) t in
  Ok (map_set (wc_winnerAddress w)
    {| mc_leagueId := leagueId; mc_winnerAddress := wc_winnerAddress w; mc_amount := radix_text 10 amount;
       mc_proof := proof; mc_root := getRootHex t |} acc).

Definition generateLeagueMerkleTree (leagueId : bigint_arg) (winners : list WinnerClaimItem) :
    result MerkleError (MerkleTree * list ascii * list (string * MerkleClaimProof)) :=
  throw_if (bool_decide (winners = [])) EmptyWinners ;;;
  let* leaves := mmapM (λ w, hashClaimLeaf leagueId (wc_winnerAddress w) (wc_amount w)) winners in
  let* tree := new_MerkleTree leaves in
  let* claimProofs := mfoldl (add_claim leagueId tree) [] (imap pair winners) in
  Ok (tree, getRootHex tree, claimProofs).

Definition verifyMerkleProof (leafHash : buffer) (proof : list buffer_arg) (expectedRoot : buffer_arg) : bool :=
  bool_decide (foldl (λ current item, hashPair current (to_buffer item)) leafHash proof = to_buffer expectedRoot).

(** ** The settlement's commitments *)

Record ProofWinner : Type := {
  sw_rank : Z;
  sw_userId : string;
  sw_stellarAddress : string;
  sw_totalPoints : Z;
  sw_prizeAmount : Q
}.

Record SettlementProofInput : Type := {
  sp_leagueId : list ascii;
  sp_grossPool : Q;
  sp_platformFee : Q;
  sp_winners : list ProofWinner
}.

Inductive json : Type :=
| JText (s : list ascii)
| JNumber (q : Q)
| JArray (l : list json)
| JObject (l : list (string * json)).

(** [JSON.stringify] and the UTF-8 bytes of its text. *)
Context (stringify : json → buffer).

Definition canonical_winner (w : ProofWinner) : json :=
  JObject [("rank", JNumber (inject_Z (sw_rank w))); ("userId", JText (list_ascii_of_string (sw_userId w)));
           ("stellarAddress", JText (list_ascii_of_string (sw_stellarAddress w)));
           ("totalPoints", JNumber (inject_Z (sw_totalPoints w))); ("prizeAmount", JNumber (sw_prizeAmount w))]%string.

Definition canonical (input : SettlementProofInput) : json :=
  JObject [("leagueId", JText (sp_leagueId input)); ("grossPool", JNumber (sp_grossPool input));
           ("platformFee", JNumber (sp_platformFee input));
           ("winners", JArray (canonical_winner <$> sort_by (asc sw_rank) (sp_winners input)))]%string.

Definition createSettlementProof (input : SettlementProofInput) : list ascii := to_hex (sha256 (stringify (canonical input))).

(** Prizes in stroops, seven decimals. *)
Definition claim_item (w : ProofWinner) : WinnerClaimItem :=
  {| wc_winnerAddress := sw_stellarAddress w;
     wc_amount := FromNumber (int (math_round (sw_prizeAmount w * inject_Z 10000000))) |}.

Definition createSettlementMerkleTree (input : SettlementProofInput) :
    result MerkleError (list ascii * list (string * MerkleClaimProof)) :=
  let* ' (_, rootHex, claimProofs) := generateLeagueMerkleTree (FromText (sp_leagueId input)) (claim_item <$> sp_winners input) in
  Ok (rootHex, claimProofs).

End merkle.

(** ** Lemmas: buffers *)

Lemma to_hex_byte x l : from_hex (to_hex [x] ++ l) = x :: from_hex l.
Proof. by destruct x. Qed.

Lemma hex_roundtrip b : from_hex (to_hex b) = b.
Proof.
  induction b as [|x b IH]; [done|]. change (to_hex (x :: b)) with (to_hex [x] ++ to_hex b).
  by rewrite to_hex_byte, IH.
Qed.

Lemma buffer_compare_sym a b : buffer_compare a b = CompOpp (buffer_compare b a).
Proof.
  revert b. induction a as [|x a IH]; intros [|y b]; [done..|]. cbn.
  rewrite (N.compare_antisym (Byte.to_N y) (Byte.to_N x)). destruct (Byte.to_N y ?= Byte.to_N x)%N; [apply IH|done..].
Qed.

Lemma buffer_compare_eq a b : buffer_compare a b = Eq → a = b.
Proof.
  revert b. induction a as [|x a IH]; intros [|y b]; try done. cbn.
  destruct (N.compare_spec (Byte.to_N x) (Byte.to_N y)) as [E| |]; try done. intros H. f_equal; [|by apply IH].
  pose proof (Byte.of_to_N x) as Hx. rewrite E, Byte.of_to_N in Hx. by injection Hx.
Qed.

Lemma sort_pair_comm l r : sort_pair l r = sort_pair r l.
Proof.
  unfold sort_pair. rewrite (buffer_compare_sym r l). destruct (buffer_compare l r) eqn:E; [|done|done].
  by rewrite (buffer_compare_eq _ _ E).
Qed.

Lemma sort_pair_split l r : sort_pair l r = l ++ r ∨ sort_pair l r = r ++ l.
Proof. unfold sort_pair. destruct (buffer_compare l r); auto. Qed.

(** Of two sorted pairs of hashes that are equal, the parts are. *)
Lemma sort_pair_inj a b c d : length a = length c → length a = length d → sort_pair a b = sort_pair c d → a = c ∨ a = d.
Proof.
  intros Hc Hd E. assert (length b = length c ∧ length b = length d) as [Hb Hb'].
  { apply (f_equal length) in E.
    destruct (sort_pair_split a b) as [E1|E1], (sort_pair_split c d) as [E2|E2]; rewrite E1, E2, !length_app in E; lia. }
  destruct (sort_pair_split a b) as [E1|E1], (sort_pair_split c d) as [E2|E2]; rewrite E1, E2 in E.
  - left. by apply app_inj_1 in E as [? _].
  - right. by apply app_inj_1 in E as [? _].
  - right. by apply app_inj_1 in E as [_ ?]; [|congruence].
  - left. by apply app_inj_1 in E as [_ ?]; [|congruence].
Qed.

(** ** Lemmas: the tree *)

Section tree_lemmas.
Context (sha256 : buffer → buffer) (claim_xdr : Z → string → Z → option buffer).

Lemma hashPair_comm l r : hashPair sha256 l r = hashPair sha256 r l.
Proof. unfold hashPair. by rewrite sort_pair_comm. Qed.

Lemma list_pair_ind {A} (P : list A → Prop) : P [] → (∀ x, P [x]) → (∀ x y l, P l → P (x :: y :: l)) → ∀ l, P l.
Proof.
  intros H0 H1 H2. assert (∀ l, P l ∧ ∀ x, P (x :: l)) as H; [|intros l; apply H].
  induction l as [|y l [IH1 IH2]]; [by split|]. split; [apply IH2|]. intros x. by apply H2.
Qed.

Lemma length_next_level l : length (next_level sha256 l) = Nat.div2 (S (length l)).
Proof. induction l as [|x|x y l IH] using list_pair_ind; [done|done|]. cbn in *. by rewrite IH. Qed.

(** A node is the parent of its child and its child's sibling. *)
Lemma next_level_lookup l idx x : l !! idx = Some x → next_level sha256 l !! Nat.div2 idx =
  Some (hashPair sha256 x (default [] (l !! sibling_index idx (length l)))).
Proof.
  revert idx. induction l as [|y|y z l IH] using list_pair_ind; intros [|[|idx]] H; try done.
  - by injection H as ->.
  - by injection H as ->.
  - injection H as ->. cbn. by rewrite hashPair_comm.
  - change (l !! idx = Some x) in H. change (Nat.div2 (S (S idx))) with (S (Nat.div2 idx)). cbn [next_level].
    change ((hashPair sha256 y z :: next_level sha256 l) !! S (Nat.div2 idx)) with (next_level sha256 l !! Nat.div2 idx).
    rewrite (IH _ H). do 2 f_equal. f_equal.
    assert (sibling_index (S (S idx)) (length (y :: z :: l)) = S (S (sibling_index idx (length l)))) as ->; [|done].
    pose proof (lookup_lt_Some _ _ _ H) as Hlt. unfold sibling_index. cbn [length].
    change (Nat.odd (S (S idx))) with (Nat.odd idx). destruct (Nat.odd idx) eqn:Ho.
    + assert (idx ≠ 0%nat) by (by intros ->). replace (S (S idx) - 1)%nat with (S (S (idx - 1))) by lia.
      by destruct (Nat.ltb_spec (S (S (idx - 1))) (S (S (length l)))), (Nat.ltb_spec (idx - 1) (length l)); try lia.
    + by destruct (Nat.ltb_spec (S (S (S idx))) (S (S (length l)))), (Nat.ltb_spec (S idx) (length l)); try lia.
Qed.

Lemma div2_half n : (1 < n)%nat → (Nat.div2 (S n) < n)%nat.
Proof. intros Hn. rewrite Nat.div2_div. apply Nat.Div0.div_lt_upper_bound. lia. Qed.

Lemma build_head fuel l : ∃ above, build_layers sha256 fuel l = l :: above.
Proof. destruct fuel; by eexists. Qed.

(** Following a branch from a leaf reaches the root. *)
Lemma branch_reaches_root fuel l idx x : (length l ≤ fuel)%nat → l !! idx = Some x →
  foldl (λ current item, hashPair sha256 current (from_hex item)) x (branch (build_layers sha256 fuel l) idx) =
  default [] (last (build_layers sha256 fuel l) ≫= head).
Proof.
  revert l idx x. induction fuel as [|fuel IH]; intros l idx x Hl Hx.
  { destruct l; [done|cbn in Hl; lia]. }
  cbn [build_layers]. destruct (Nat.ltb_spec 1 (length l)) as [H1|H1].
  - destruct (build_head fuel (next_level sha256 l)) as [above E].
    assert (branch (l :: build_layers sha256 fuel (next_level sha256 l)) idx =
      to_hex (default [] (l !! sibling_index idx (length l))) :: branch (build_layers sha256 fuel (next_level sha256 l)) (Nat.div2 idx)) as ->
      by by rewrite E.
    cbn [foldl]. rewrite hex_roundtrip.
    rewrite (IH (next_level sha256 l) (Nat.div2 idx)); [by rewrite E| |by apply next_level_lookup].
    rewrite length_next_level. pose proof (div2_half _ H1). lia.
  - destruct l as [|y [|z l]]; [done| |cbn in H1; lia]. destruct idx as [|idx]; [|done]. by injection Hx as ->.
Qed.

(** The last layer is the root alone. *)
Lemma build_root fuel l : (length l ≤ fuel)%nat → l ≠ [] → ∃ r, last (build_layers sha256 fuel l) = Some [r].
Proof.
  revert l. induction fuel as [|fuel IH]; intros l Hl Hne; [destruct l; [done|cbn in Hl; lia]|]. cbn [build_layers].
  destruct (Nat.ltb_spec 1 (length l)) as [H1|H1].
  - destruct (IH (next_level sha256 l)) as [r Hr].
    + rewrite length_next_level. pose proof (div2_half _ H1). lia.
    + intros E. apply (f_equal length) in E. rewrite length_next_level in E. destruct l as [|a [|b l]]; cbn in *; lia.
    + exists r. destruct (build_head fuel (next_level sha256 l)) as [above E]. by rewrite E in *.
  - destruct l as [|y [|z l]]; [done| |cbn in H1; lia]. by exists y.
Qed.

End tree_lemmas.

(** ** Lemmas: the claims *)

Section claim_lemmas.
Context (sha256 : buffer → buffer) (claim_xdr : Z → string → Z → option buffer).

Lemma new_tree_ok leaves t : new_MerkleTree sha256 leaves = Ok t →
  leaves ≠ [] ∧ t = {| mt_leaves := leaves; mt_layers := build_layers sha256 (length leaves) leaves |}.
Proof. unfold new_MerkleTree. case_bool_decide; [done|]. by intros [= <-]. Qed.

Lemma get_proof_ok idx t p : getProof (Z.of_nat idx) t = Ok p → p = branch (mt_layers t) idx.
Proof. unfold getProof. destruct (_ || _); [done|]. intros [= <-]. by rewrite Nat2Z.id. Qed.

(** The claims made so far: each address has the claim of one of its items. *)
Definition claims_of (leagueId : bigint_arg) (t : MerkleTree) (items : list (nat * WinnerClaimItem))
    (claims : list (string * MerkleClaimProof)) : Prop :=
  NoDup claims.*1 ∧ (∀ a, a ∈ claims.*1 ↔ a ∈ (λ x, wc_winnerAddress x.2) <$> items) ∧
  ∀ a c, (a, c) ∈ claims → ∃ idx w amount, (idx, w) ∈ items ∧ wc_winnerAddress w = a ∧ BigInt (wc_amount w) = Ok amount ∧
    c = {| mc_leagueId := leagueId; mc_winnerAddress := a; mc_amount := radix_text 10 amount;
           mc_proof := branch (mt_layers t) idx; mc_root := getRootHex t |}.

Lemma add_claims_spec leagueId t items done_ claims claims' : claims_of leagueId t done_ claims →
  mfoldl (add_claim leagueId t) claims items = Ok claims' → claims_of leagueId t (done_ ++ items) claims'.
Proof.
  revert done_ claims. induction items as [|[idx w] items IH]; intros done_ claims Hc H.
  { injection H as <-. by rewrite app_nil_r. }
  cbn [mfoldl] in H. destruct (add_claim leagueId t claims (idx, w)) as [claims1|] eqn:E; [|done]. cbn in H.
  rewrite cons_middle, (assoc (++)). apply (IH _ claims1); [|done]. clear IH H.
  unfold add_claim in E. inv_ok. subst claims1.
  match goal with H : getProof _ _ = Ok _ |- _ => apply get_proof_ok in H as -> end.
  destruct Hc as (Hn & Hk & Hg). split_and!.
  - by apply map_set_NoDup.
  - intros b. rewrite map_set_keys, fmap_app, elem_of_app, <- Hk. cbn. rewrite list_elem_of_singleton.
    case_decide; [naive_solver|]. by rewrite elem_of_app, list_elem_of_singleton.
  - intros b c [E|Hin]%elem_of_map_set; [injection E as -> ->|].
    + eexists idx, w, _. split_and!; [apply elem_of_app; right; by left|done|eassumption|done].
    + destruct (Hg _ _ Hin) as (i & w' & n & Hi & Hrest). exists i, w', n. split; [|done]. apply elem_of_app. by left.
Qed.

Lemma generate_spec leagueId winners t rootHex claims :
  generateLeagueMerkleTree sha256 claim_xdr leagueId winners = Ok (t, rootHex, claims) →
  ∃ leaves, Forall2 (λ w leaf, hashClaimLeaf sha256 claim_xdr leagueId (wc_winnerAddress w) (wc_amount w) = Ok leaf) winners leaves ∧
    leaves ≠ [] ∧ t = {| mt_leaves := leaves; mt_layers := build_layers sha256 (length leaves) leaves |} ∧
    rootHex = getRootHex t ∧ claims_of leagueId t (imap pair winners) claims.
Proof.
  intros H. unfold generateLeagueMerkleTree in H. inv_ok.
  apply new_tree_ok in Hm0 as [Hne Ht]. simplify_eq. eexists. split; [by apply mmapM_ok|]. split_and!; [done|done|done|].
  apply (add_claims_spec _ _ (imap pair winners) [] []); [|done]. split_and!; [constructor|by intros|].
  by intros ? c ?%not_elem_of_nil.
Qed.
End claim_lemmas.

(** ** Lemmas: forged claims *)

(** The inputs hashed for the inner nodes of a tree, and by the walk up a proof. *)
Fixpoint level_preimages (l : list buffer) : list buffer :=
  match l with
  | a :: b :: l => sort_pair a b :: level_preimages l
  | [a] => [sort_pair a a]
  | [] => []
  end.

Section forgery.
Context (sha256 : buffer → buffer) (claim_xdr : Z → string → Z → option buffer).

Definition tree_preimages (fuel : nat) (l : list buffer) : list buffer :=
  mjoin (level_preimages <$> build_layers sha256 fuel l).

Fixpoint walk_preimages (current : buffer) (proof : list buffer_arg) : list buffer :=
  match proof with
  | [] => []
  | item :: proof => sort_pair current (to_buffer item) :: walk_preimages (hashPair sha256 current (to_buffer item)) proof
  end.

(** Two different inputs of the list have different hashes. *)
Definition no_collision (l : list buffer) : Prop :=
  Forall (λ x, Forall (λ y, sha256 x = sha256 y → x = y) l) l.

Lemma next_level_elem l x : x ∈ next_level sha256 l →
  ∃ a b, a ∈ l ∧ b ∈ l ∧ x = sha256 (sort_pair a b) ∧ sort_pair a b ∈ level_preimages l.
Proof.
  induction l as [|a|a b l IH] using list_pair_ind; [by intros ?%not_elem_of_nil| |].
  - intros ->%list_elem_of_singleton. exists a, a. split_and!; try done; by left.
  - intros [->|H]%elem_of_cons.
    + exists a, b. split_and!; [by left|right; by left|done|by left].
    + destruct (IH H) as (c & d & Hc & Hd & -> & Hin). exists c, d. split_and!; [by do 2 right|by do 2 right|done|by right].
Qed.

(** A node of the tree is a leaf or the hash of two nodes. *)
Lemma layers_node fuel l x : x ∈ mjoin (build_layers sha256 fuel l) → x ∈ l ∨
  ∃ a b, a ∈ mjoin (build_layers sha256 fuel l) ∧ b ∈ mjoin (build_layers sha256 fuel l) ∧ x = sha256 (sort_pair a b) ∧
    sort_pair a b ∈ tree_preimages fuel l.
Proof.
  unfold tree_preimages. revert l. induction fuel as [|fuel IH]; intros l; cbn [build_layers].
  { cbn. rewrite app_nil_r. auto. }
  destruct (1 <? length l)%nat; [|cbn; rewrite app_nil_r; auto]. cbn.
  rewrite elem_of_app. intros [H|H]; [by left|right]. destruct (IH _ H) as [Hx|(a & b & Ha & Hb & -> & Hp)].
  - apply next_level_elem in Hx as (a & b & Ha & Hb & -> & Hp). exists a, b. rewrite !elem_of_app. auto.
  - exists a, b. rewrite !elem_of_app. auto.
Qed.

Lemma walk_snoc current proof item : walk_preimages current (proof ++ [item]) =
  walk_preimages current proof ++ [sort_pair (foldl (λ c i, hashPair sha256 c (to_buffer i)) current proof) (to_buffer item)].
Proof. revert current. induction proof as [|i proof IH]; intros current; [done|]. cbn. by rewrite IH. Qed.

Context (sha256_length : ∀ b, length (sha256 b) = 32%nat).

(** Going down from the root: what a proof of hashes leads from is a leaf. *)
Lemma walk_from_leaf fuel (pre : list buffer) x proof : x ∉ pre → (∀ p, p ∈ pre ∨ p = x → length p ≠ 64%nat) →
  Forall (λ item, length (to_buffer item) = 32%nat) proof →
  no_collision (x :: pre ++ tree_preimages fuel (sha256 <$> pre) ++ walk_preimages (sha256 x) proof) →
  foldl (λ c i, hashPair sha256 c (to_buffer i)) (sha256 x) proof ∉ mjoin (build_layers sha256 fuel (sha256 <$> pre)).
Proof.
  intros Hx Hlen. set (hashed := λ proof, x :: pre ++ tree_preimages fuel (sha256 <$> pre) ++ walk_preimages (sha256 x) proof).
  fold (hashed proof).
  assert (∀ y, y ∈ mjoin (build_layers sha256 fuel (sha256 <$> pre)) → length y = 32%nat) as Hnode.
  { intros y [(z & -> & _)%list_elem_of_fmap|(a & b & _ & _ & -> & _)]%layers_node; apply sha256_length. }
  assert (∀ a b, length a = 32%nat → length b = 32%nat → length (sort_pair a b) = 64%nat) as Hpair.
  { intros a b Ha Hb. destruct (sort_pair_split a b) as [E|E]; rewrite E, length_app; lia. }
  induction proof as [|item proof IH] using rev_ind; intros Hp Hc Hin.
  - assert (∀ y, y ∈ hashed [] → sha256 x = sha256 y → x = y) as Hxy.
    { intros y Hy. apply (proj1 (Forall_forall _ _) (proj1 (Forall_forall _ _) Hc x ltac:(by left)) y Hy). }
    cbn in Hin. apply layers_node in Hin as [(p & E & Hpp)%list_elem_of_fmap|(a & b & Ha & Hb & E & Hab)].
    + apply Hx. rewrite (Hxy p); [done| |done]. right. apply elem_of_app. by left.
    + apply (Hlen x); [by right|]. rewrite (Hxy (sort_pair a b)); [apply Hpair; by apply Hnode| |done].
      right. rewrite !elem_of_app. auto.
  - apply Forall_app in Hp as [Hp Hi]. inversion Hi as [|? ? Hi' _]; subst. rewrite foldl_app in Hin. cbn in Hin.
    set (c := foldl _ _ _) in *. unfold hashed in Hc. rewrite walk_snoc in Hc. fold c in Hc.
    assert (no_collision (hashed proof)) as Hc'.
    { unfold no_collision in *. rewrite Forall_forall in Hc. apply Forall_forall. intros y Hy.
      assert (∀ z, z ∈ hashed proof → z ∈ x :: pre ++ tree_preimages fuel (sha256 <$> pre) ++ walk_preimages (sha256 x) proof ++ [sort_pair c (to_buffer item)]) as Hsub.
      { intros z. unfold hashed. rewrite !elem_of_cons, !elem_of_app. tauto. }
      apply Forall_forall. intros z Hz. by apply (proj1 (Forall_forall _ _) (Hc y (Hsub y Hy)) z (Hsub z Hz)). }
    assert (∀ y, y ∈ x :: pre ++ tree_preimages fuel (sha256 <$> pre) → sha256 (sort_pair c (to_buffer item)) = sha256 y →
      sort_pair c (to_buffer item) = y) as Hsame.
    { intros y Hy. unfold no_collision in Hc. rewrite Forall_forall in Hc.
      apply (proj1 (Forall_forall _ _) (Hc (sort_pair c (to_buffer item)) ltac:(rewrite elem_of_cons, !elem_of_app, list_elem_of_singleton; auto 6))).
      revert Hy. rewrite !elem_of_cons, !elem_of_app. tauto. }
    assert (length c = 32%nat) as Hcl.
    { subst c. destruct proof as [|i p _] using rev_ind; [apply sha256_length|]. rewrite foldl_app. apply sha256_length. }
    apply layers_node in Hin as [(p & E & Hpp)%list_elem_of_fmap|(a & b & Ha & Hb & E & Hab)].
    + apply (Hlen p); [by left|]. rewrite <- (Hsame p); [by apply Hpair| |done]. right. apply elem_of_app. by left.
    + apply Hsame in E; [|right; apply elem_of_app; by right].
      apply sort_pair_inj in E as [->| ->]; [by apply IH|by apply IH| |]; rewrite Hcl; symmetry; by apply Hnode.
Qed.
End forgery.

(** ** Lemmas: league ids *)

(** Eight, four, four, four and twelve hex digits. *)
Definition is_uuid (s : list ascii) : Prop :=
  ∃ a b c d e, s = a ++ ["-"]%char ++ b ++ ["-"]%char ++ c ++ ["-"]%char ++ d ++ ["-"]%char ++ e ∧
    length a = 8%nat ∧ length b = 4%nat ∧ length c = 4%nat ∧ length d = 4%nat ∧ length e = 12%nat ∧
    Forall (λ x, is_hex x = true) (a ++ b ++ c ++ d ++ e).

Lemma hex_facts c : is_hex c = true → is_blank c = false ∧ c ≠ "-"%char ∧ c ≠ "+"%char ∧ 0 ≤ hex_digit c < 16 ∧
  digit_char (hex_digit c) = lower_char c.
Proof. destruct c as [[] [] [] [] [] [] [] []]; try done; intros _; by split_and!. Qed.

Lemma parse_dash base l : "-"%char ∈ l → parse_digits base l = None.
Proof.
  intros H. unfold parse_digits. assert (forallb (λ c, is_hex c && (hex_digit c <? base)) l = false) as ->.
  { apply not_true_iff_false. rewrite forallb_forall. intros Hall. apply list_elem_of_In, Hall in H. done. }
  by rewrite andb_false_r.
Qed.

(** A hyphen after the first characters is no number. *)
Lemma dash_not_bigint x y l : is_hex x = true → (∀ c, last (x :: y :: l) = Some c → is_blank c = false) →
  "-"%char ∈ l → bigint_of_text (x :: y :: l) = None.
Proof.
  intros Hx Hl Hin. pose proof (hex_facts x Hx) as (Hb & Hm & Hp & _). unfold bigint_of_text.
  rewrite trim_text_id; [|by intros c [= <-]|done].
  assert (∀ b, parse_digits b (x :: y :: l) = None) as Hall by (intros b; apply parse_dash; by do 2 right).
  destruct (decide (x = "0"%char)) as [->|H0].
  - rewrite !parse_dash by done. by repeat case_match.
  - destruct x as [[] [] [] [] [] [] [] []]; try done; apply Hall.
Qed.

Lemma uuid_not_bigint s : is_uuid s → bigint_of_text s = None.
Proof.
  intros (a & b & c & d & e & -> & Ha & _ & _ & _ & He & Hall). rewrite !Forall_app in Hall.
  destruct Hall as (Hfa & _ & _ & _ & Hfe). destruct a as [|x [|y a]]; [done|done|].
  change ((x :: y :: a) ++ ?r) with (x :: y :: (a ++ r)). apply dash_not_bigint.
  - by inversion Hfa.
  - intros z Hz. change (x :: y :: (a ++ ?r)) with ((x :: y :: a) ++ r) in Hz. rewrite !(assoc (++)), last_app in Hz.
    destruct (last e) as [w|] eqn:E; [|by apply last_None in E as ->].
    injection Hz as ->. apply hex_facts. apply last_Some_elem_of in E. by apply (proj1 (Forall_forall _ _) Hfe).
  - rewrite !elem_of_app. right. left. by left.
Qed.

(** Sixteen digits are printed back, with their leading zeros. *)
Lemma pad_hex l : in_base 16 l → length l = 16%nat →
  pad_start 16 "0"%char (radix_text 16 (radix_value 16 l)) = digit_char <$> l.
Proof.
  intros Hl Hlen. pose proof (radix_value_bounds 16 l ltac:(lia) Hl) as Hv. rewrite Hlen in Hv.
  unfold radix_text. destruct (Z.ltb_spec (radix_value 16 l) 0) as [|_]; [lia|].
  destruct (radix_digits_spec 16 (radix_value 16 l)) as (H1 & H2 & _); [lia|lia|].
  unfold pad_start. rewrite length_fmap. change "0"%char with (digit_char 0). rewrite <- fmap_replicate, <- fmap_app. f_equal.
  assert (length (radix_digits 16 (radix_value 16 l)) ≤ 16)%nat.
  { unfold radix_digits. rewrite length_reverse. apply radix_fuel_length; [lia|done|lia]. }
  apply (radix_value_inj 16); [lia| |done| |].
  - apply Forall_app. split; [|done]. apply Forall_replicate. lia.
  - rewrite length_app, length_replicate. lia.
  - by rewrite radix_value_zeros, H1.
Qed.

(** ** Theorems *)

(** C26. Every winner of a league's tree has one published claim under its address,
    and each published claim verifies: the leaf of the claim as published (its
    amount printed and read back) with the published proof leads to the
    published root, which is the root of the tree. *)
Theorem merkle_claims_verify sha256 claim_xdr leagueId winners t rootHex claims :
  generateLeagueMerkleTree sha256 claim_xdr leagueId winners = Ok (t, rootHex, claims) →
  rootHex = getRootHex t ∧ (∃ root, last (mt_layers t) = Some [root]) ∧
  NoDup claims.*1 ∧ (∀ a, a ∈ claims.*1 ↔ a ∈ wc_winnerAddress <$> winners) ∧
  ∀ a c, map_get a claims = Some c →
    mc_root c = rootHex ∧
    ∃ w leaf, w ∈ winners ∧ wc_winnerAddress w = a ∧ BigInt (FromText (mc_amount c)) = BigInt (wc_amount w) ∧
      hashClaimLeaf sha256 claim_xdr (mc_leagueId c) (mc_winnerAddress c) (FromText (mc_amount c)) = Ok leaf ∧
      verifyMerkleProof sha256 leaf (Hex <$> mc_proof c) (Hex (mc_root c)) = true.
Proof.
  intros H. apply generate_spec in H as (leaves & Hl & Hne & -> & -> & Hn & Hk & Hg). split_and!; [done| |done| |].
  - by apply build_root.
  - intros a. rewrite Hk, fmap_imap. assert (imap (λ n x, wc_winnerAddress (n, x).2) winners = wc_winnerAddress <$> winners) as E.
    { apply list_eq. intros i. by rewrite list_lookup_imap, list_lookup_fmap. }
    by rewrite <- E.
  - intros a c (idx & w & amount & Hin & <- & Ha & ->)%map_get_elem%Hg. split; [done|].
    apply elem_of_lookup_imap in Hin as (i & w' & [= -> ->] & Hw).
    destruct (Forall2_lookup_l _ _ _ _ _ Hl Hw) as (leaf & Hleaf & Hh).
    assert (BigInt (FromText (radix_text 10 amount)) = Ok amount) as Hb by (cbn; by rewrite bigint_decimal).
    exists w', leaf. split_and!; [by eapply list_elem_of_lookup_2|done|by rewrite Ha| |].
    + cbn [mc_leagueId mc_winnerAddress mc_amount]. rewrite <- Hh. unfold hashClaimLeaf. by rewrite Hb, Ha.
    + unfold verifyMerkleProof. apply bool_decide_eq_true. cbn [mc_proof mc_root to_buffer mt_layers].
      unfold getRootHex. rewrite hex_roundtrip, foldl_fmap. by apply branch_reaches_root.
Qed.

(** C28. A claim that verifies against the root of a league's tree with a proof of
    hashes is a claim of one of its winners, unless SHA-256 collides on two of
    the inputs that were hashed.  SHA-256 gives 32 bytes; the encodings of
    claims are not 64 bytes long, and differ for different claims. *)
Theorem forged_claim_rejected sha256 claim_xdr leagueId winners t rootHex claims address amount league n pre pres leaf proof :
  (∀ b, length (sha256 b) = 32%nat) →
  (∀ l a m b, claim_xdr l a m = Some b → length b ≠ 64%nat) →
  (∀ l a m l' a' m' b, claim_xdr l a m = Some b → claim_xdr l' a' m' = Some b → l = l' ∧ a = a' ∧ m = m') →
  generateLeagueMerkleTree sha256 claim_xdr leagueId winners = Ok (t, rootHex, claims) →
  BigInt leagueId = Ok league → BigInt amount = Ok n → claim_xdr league address n = Some pre →
  Forall2 (λ w b, ∃ m, BigInt (wc_amount w) = Ok m ∧ claim_xdr league (wc_winnerAddress w) m = Some b) winners pres →
  hashClaimLeaf sha256 claim_xdr leagueId address amount = Ok leaf →
  Forall (λ item, length (to_buffer item) = 32%nat) proof →
  no_collision sha256 (pre :: pres ++ tree_preimages sha256 (length winners) (sha256 <$> pres) ++ walk_preimages sha256 leaf proof) →
  verifyMerkleProof sha256 leaf proof (Hex rootHex) = true →
  ∃ w, w ∈ winners ∧ wc_winnerAddress w = address ∧ BigInt (wc_amount w) = BigInt amount.
Proof.
  intros Hlen H64 Hinj Hg Hlg Hn Hpre Hpres Hleaf Hp Hc Hv.
  apply generate_spec in Hg as (leaves & Hl & Hne & -> & -> & _).
  assert (leaf = sha256 pre) as -> by (unfold hashClaimLeaf in Hleaf; rewrite Hlg, Hn in Hleaf; cbn in Hleaf;
    rewrite Hpre in Hleaf; by injection Hleaf).
  assert (leaves = sha256 <$> pres) as ->.
  { clear -Hl Hpres Hlg. revert leaves Hl. induction Hpres as [|w b ws pres (m & Hm & Hx) _ IH]; intros leaves Hl;
      inversion Hl as [|? y ? ls Hy Hls]; subst; [done|]. cbn. f_equal; [|by apply IH].
    unfold hashClaimLeaf in Hy. rewrite Hlg, Hm in Hy. cbn in Hy. rewrite Hx in Hy. by injection Hy. }
  assert (length (sha256 <$> pres) = length winners) as El by (rewrite length_fmap; symmetry; by eapply Forall2_length).
  destruct (decide (pre ∈ pres)) as [Hin|Hnot].
  - apply list_elem_of_lookup in Hin as [i Hi]. destruct (Forall2_lookup_r _ _ _ _ _ Hpres Hi) as (w & Hw & m & Hm & Hx).
    destruct (Hinj _ _ _ _ _ _ _ Hx Hpre) as (_ & Ea & En). exists w. split_and!; [by eapply list_elem_of_lookup_2|done|].
    by rewrite Hm, Hn, En.
  - exfalso. unfold verifyMerkleProof in Hv. apply bool_decide_eq_true in Hv. cbn [to_buffer] in Hv.
    unfold getRootHex in Hv. rewrite hex_roundtrip in Hv.
    apply (walk_from_leaf sha256 Hlen (length winners) pres pre proof) in Hnot; [| |done|done].
    + apply Hnot. rewrite Hv. unfold getRoot. cbn [mt_layers]. rewrite El.
      destruct (build_root sha256 (length winners) (sha256 <$> pres)) as [r Hr]; [lia|done|]. rewrite Hr. cbn.
      apply list_elem_of_join. exists [r]. split; [by left|by apply last_Some_elem_of].
    + intros p [Hpp| ->]; [|by eapply H64].
      apply list_elem_of_lookup in Hpp as [i Hi]. destruct (Forall2_lookup_r _ _ _ _ _ Hpres Hi) as (w & Hw & m & Hm & Hx).
      by eapply H64.
Qed.

(** The settlement's tree is never built for a league of the database: the id
    of a league is a UUID, which is no integer, so [BigInt] throws. *)
Theorem uuid_league_has_no_tree sha256 claim_xdr input :
  is_uuid (sp_leagueId input) → sp_winners input ≠ [] →
  createSettlementMerkleTree sha256 claim_xdr input = Err BigIntSyntax.
Proof.
  intros Hu Hw. unfold createSettlementMerkleTree, generateLeagueMerkleTree.
  destruct (sp_winners input) as [|w ws]; [done|]. cbn [fmap list_fmap].
  rewrite bool_decide_eq_false_2 by done. cbn. unfold hashClaimLeaf. cbn. by rewrite uuid_not_bigint.
Qed.

(** The contract's id of a league is a [u64] that keeps the first 16 digits of
    its UUID: the prefix printed back is the UUID's, in lower case. *)
Theorem contract_league_id_prefix s : is_uuid (list_ascii_of_string s) →
  ∃ n, toContractLeagueId s = Ok n ∧ 0 ≤ n < 2 ^ 64 ∧
    leagueIdPrefixFromContractId n = lower_char <$> take 18 (list_ascii_of_string s).
Proof.
  intros (a & b & c & d & e & Hs & Ha & Hb & Hc & _ & _ & Hall).
  assert (∀ l, Forall (λ x, is_hex x = true) l → List.filter (λ c, negb (Ascii.eqb c "-")) l = l) as Hf.
  { intros l Hl. apply lfilter_id. intros x Hx. apply (proj1 (Forall_forall _ _) Hl) in Hx.
    destruct (Ascii.eqb_spec x "-") as [->|]; [by apply hex_facts in Hx as (_ & ? & _)|done]. }
  rewrite !Forall_app in Hall. destruct Hall as (H1 & H2 & H3 & H4 & H5).
  set (l := a ++ b ++ c). assert (length l = 16%nat) as Hl by (subst l; rewrite !length_app; lia).
  assert (Forall (λ x, is_hex x = true) l) as Hlh by (subst l; by rewrite !Forall_app).
  assert (in_base 16 (hex_digit <$> l)) as Hin.
  { apply Forall_fmap. eapply Forall_impl; [exact Hlh|]. intros x Hx. cbn. apply hex_facts in Hx. tauto. }
  exists (radix_value 16 (hex_digit <$> l)). split_and!.
  - assert (List.filter (λ c, negb (Ascii.eqb c "-")) ["-"%char] = []) as Hd by done.
    assert (take 16 (a ++ b ++ c ++ d ++ e) = l) as El.
    { replace (a ++ b ++ c ++ d ++ e) with (l ++ d ++ e) by (subst l; by rewrite <- !(assoc (++))). by apply take_app_length'. }
    unfold toContractLeagueId. rewrite Hs, !List.filter_app, !Hd, (Hf a), (Hf b), (Hf c), (Hf d), (Hf e), !app_nil_l by done.
    rewrite El, Hl. cbn. assert (forallb is_hex l = true) as -> by (apply forallb_forall; intros x Hx; apply (proj1 (Forall_forall _ _) Hlh); by apply list_elem_of_In).
    cbn. f_equal. unfold radix_value. by rewrite foldl_fmap.
  - by apply radix_value_bounds.
  - pose proof (radix_value_bounds 16 _ ltac:(lia) Hin) as Hb'. rewrite length_fmap, Hl in Hb'. change (2 ^ 64) with (16 ^ Z.of_nat 16). lia.
  - unfold leagueIdPrefixFromContractId. rewrite pad_hex by (done || by rewrite length_fmap). rewrite Hs.
    assert (digit_char <$> (hex_digit <$> l) = lower_char <$> l) as ->.
    { rewrite <- list_fmap_compose. apply list_fmap_ext. intros i x Hx. apply list_elem_of_lookup_2 in Hx.
      apply (proj1 (Forall_forall _ _) Hlh) in Hx. by apply hex_facts in Hx as (_ & _ & _ & _ & ?). }
    subst l. do 8 (destruct a as [|? a]; [done|]). destruct a; [|done].
    do 4 (destruct b as [|? b]; [done|]). destruct b; [|done].
    do 4 (destruct c as [|? c]; [done|]). destruct c; [|done]. done.
Qed.

(** The commitment of a settlement does not depend on the order the winners
    come in, when their ranks differ. *)
Theorem settlement_proof_order_independent sha256 stringify leagueId gross fee ws ws' :
  ws ≡ₚ ws' → NoDup (sw_rank <$> ws) →
  createSettlementProof sha256 stringify (Build_SettlementProofInput leagueId gross fee ws) =
  createSettlementProof sha256 stringify (Build_SettlementProofInput leagueId gross fee ws').
Proof.
  intros Hp Hn. unfold createSettlementProof, canonical. cbn [sp_winners sp_leagueId sp_grossPool sp_platformFee].
  do 3 f_equal. rewrite (sort_by_unique (asc sw_rank) ws ws'); [done| |done].
  intros x y [i Hi]%list_elem_of_lookup [j Hj]%list_elem_of_lookup E. assert (i = j) as <-; [|by simplify_eq].
  apply (NoDup_lookup (sw_rank <$> ws) i j (sw_rank x)); rewrite ?list_lookup_fmap, ?Hi, ?Hj; cbn; [done|done|].
  f_equal. unfold asc in E. lia.
Qed.

(** ** Witnesses *)

Definition demo_hash (b : buffer) : buffer := take 32 (byte_of (Z.of_nat (length b)) :: b ++ replicate 32 x00).

Definition demo_xdr (league : Z) (a : string) (n : Z) : option buffer :=
  if bool_decide (league = 7 ∧ a = "GA"%string ∧ n = 70) then Some [x01]
  else if bool_decide (league = 7 ∧ a = "GB"%string ∧ n = 20) then Some [x02]
  else if bool_decide (league = 7 ∧ a = "GC"%string ∧ n = 10) then Some [x03] else None.

Definition demo_league : bigint_arg := FromText (list_ascii_of_string "7").

Definition demo_winners : list WinnerClaimItem :=
  [Build_WinnerClaimItem "GA" (FromBigInt 70); Build_WinnerClaimItem "GB" (FromNumber (int 20));
   Build_WinnerClaimItem "GC" (FromText (list_ascii_of_string "10"))].

Definition demo_tree : MerkleTree * list ascii * list (string * MerkleClaimProof) :=
  match generateLeagueMerkleTree demo_hash demo_xdr demo_league demo_winners with
  | Ok x => x
  | Err _ => (Build_MerkleTree [] [], [], [])
  end.

Definition demo_proof : list buffer_arg := Hex <$> branch (mt_layers demo_tree.1.1) 2.

Lemma merkle_claims_verify_witness : demo_tree.2.*1 = ["GA"; "GB"; "GC"]%string ∧
  ∀ a c, map_get a demo_tree.2 = Some c → mc_root c = demo_tree.1.2.
Proof.
  split; [vm_compute; reflexivity|].
  destruct (merkle_claims_verify demo_hash demo_xdr demo_league demo_winners demo_tree.1.1 demo_tree.1.2 demo_tree.2)
    as (_ & _ & _ & _ & Hv); [vm_compute; reflexivity|].
  intros a c Hc. apply (Hv a c Hc).
Defined.

Lemma demo_hash_length b : length (demo_hash b) = 32%nat.
Proof. unfold demo_hash. rewrite length_take. cbn [length]. rewrite length_app, length_replicate. lia. Qed.

Lemma demo_xdr_length l a m b : demo_xdr l a m = Some b → length b ≠ 64%nat.
Proof. unfold demo_xdr. intros E; repeat case_bool_decide; simplify_eq; cbn; lia. Qed.

Lemma demo_xdr_inj l a m l' a' m' b : demo_xdr l a m = Some b → demo_xdr l' a' m' = Some b → l = l' ∧ a = a' ∧ m = m'.
Proof. unfold demo_xdr. intros E E'; repeat case_bool_decide; simplify_eq; naive_solver. Qed.

Lemma forged_claim_rejected_witness :
  ∃ w, w ∈ demo_winners ∧ wc_winnerAddress w = "GC"%string ∧ BigInt (wc_amount w) = BigInt (FromBigInt 10).
Proof.
  apply (forged_claim_rejected demo_hash demo_xdr demo_league demo_winners demo_tree.1.1 demo_tree.1.2 demo_tree.2
    "GC" (FromBigInt 10) 7 10 [x03] [[x01]; [x02]; [x03]] (demo_hash [x03]) demo_proof).
  - apply demo_hash_length.
  - apply demo_xdr_length.
  - apply demo_xdr_inj.
  - vm_compute; reflexivity.
  - vm_compute; reflexivity.
  - reflexivity.
  - vm_compute; reflexivity.
  - repeat constructor; eexists; (split; [reflexivity|vm_compute; reflexivity]).
  - vm_compute; reflexivity.
  - repeat constructor.
  - apply (bool_decide_unpack _). vm_compute. exact I.
  - vm_compute; reflexivity.
Defined.

Definition demo_uuid : string := "0a1B2c3d-4e5f-6789-abcd-ef0123456789".

Lemma demo_is_uuid : is_uuid (list_ascii_of_string demo_uuid).
Proof.
  exists (list_ascii_of_string "0a1B2c3d"), (list_ascii_of_string "4e5f"), (list_ascii_of_string "6789"),
    (list_ascii_of_string "abcd"), (list_ascii_of_string "ef0123456789").
  split_and!; try reflexivity. apply (bool_decide_unpack _). vm_compute. exact I.
Qed.

Lemma uuid_league_has_no_tree_witness :
  createSettlementMerkleTree demo_hash demo_xdr
    (Build_SettlementProofInput (list_ascii_of_string demo_uuid) 100 5
      [Build_ProofWinner 1 "u1" "GA" 99 95]) = Err BigIntSyntax.
Proof. apply uuid_league_has_no_tree; [apply demo_is_uuid|discriminate]. Defined.

Lemma contract_league_id_prefix_witness : ∃ n, toContractLeagueId demo_uuid = Ok n ∧
  leagueIdPrefixFromContractId n = list_ascii_of_string "0a1b2c3d-4e5f-6789".
Proof.
  destruct (contract_league_id_prefix demo_uuid demo_is_uuid) as (n & H1 & _ & H2). exists n. split; [exact H1|].
  rewrite H2. vm_compute; reflexivity.
Defined.

Lemma settlement_proof_order_independent_witness :
  createSettlementProof demo_hash (λ _, []) (Build_SettlementProofInput [] 100 5
    [Build_ProofWinner 1 "u1" "GA" 99 70; Build_ProofWinner 2 "u2" "GB" 90 25]) =
  createSettlementProof demo_hash (λ _, []) (Build_SettlementProofInput [] 100 5
    [Build_ProofWinner 2 "u2" "GB" 90 25; Build_ProofWinner 1 "u1" "GA" 99 70]).
Proof.
  apply settlement_proof_order_independent; [constructor|]. apply (bool_decide_unpack _). vm_compute. exact I.
Defined.

(** Two prizes paid to one address make two leaves but one published claim: the
    first can no longer be claimed. *)
Lemma same_address_loses_a_claim :
  match generateLeagueMerkleTree demo_hash demo_xdr (FromBigInt 7)
    [Build_WinnerClaimItem "GA" (FromBigInt 70); Build_WinnerClaimItem "GA" (FromBigInt 70)] with
  | Ok (t, _, claims) => length (mt_leaves t) = 2%nat ∧ length claims = 1%nat
  | Err _ => False
  end.
Proof. vm_compute. by split. Qed.
