(* ===== verification/Escrow.v ===== *)
(** * The escrow contract: [contracts/src/lib.rs]

    The entry points that hold and move money, over the storage of the contract
    and the ledgers of the tokens it holds: leagues and deposits, every kind of
    settlement ([settle_internal]), claims of prizes (stored and by Merkle
    proof), refunds, the freeze of disputes, pauses and fee withdrawals.

    An invocation that returns an error, traps or overflows leaves nothing
    behind, so a call maps a state to an outcome.  [i128] and [u32] arithmetic
    is checked ([overflow-checks = true]).  The token contracts, SHA-256 and XDR
    are arguments; [TokenLaws] is what the interface of tokens documents.
    Lifetimes of entries, the pages of participants, the balance that
    [create_league] reads to see whether there is a token, and emitted events
    are left out; so are the pauses of the guardian, of federation peers and of
    pause proposals, which move no money ([es_unpause_after] is theirs). *)

From Stdlib Require Import Ascii String Strings.Byte.
From S2P Require Import Prelude Prize Merkle.

#[local] Open Scope string_scope.
#[local] Open Scope list_scope.
#[local] Open Scope Z_scope.

(** ** Data *)

Inductive EscrowError : Type :=
| AlreadyInitialized | NotInitialized | LeagueAlreadyExists | EscrowLeagueNotFound | LeagueNotAcceptingDeposits
| AlreadyDeposited | AlreadySettled | InvalidAmount | PayoutExceedsDeposits | NotAuthorized | FeeExceedsMaxCap
| InvalidPrizeDistribution | NoClaimablePrize | ContractPaused | AlreadyPaused | NotPaused | TimelockNotElapsed
| NoDeposit | InvalidProof | InvalidMultisig | LeagueNotCancelled | AlreadyClaimed | InvalidFeeShare | HashMismatch
| TimelockActive | ProposalNotFound | AlreadyApproved | ProposalExecuted
| Trap.

Inductive EscrowStatus : Type := Upcoming | Active | Settled | Cancelled.

#[export] Instance EscrowStatus_eq_dec : EqDecision EscrowStatus.
Proof. solve_decision. Defined.

Record LeagueState : Type := {
  el_creator : string;
  el_entry_fee : Z;
  el_asset : string;
  el_total_deposited : Z;
  el_participant_count : Z;
  el_status : EscrowStatus
}.

Record WinnerPayout : Type := { wp_winner : string; wp_amount : Z }.

Record AdminConfig : Type := { ac_signers : list string; ac_threshold : Z }.

Record TimelockProposal : Type := {
  tp_proposer : string;
  tp_destination : string;
  tp_asset : string;
  tp_amount : Z;
  tp_unlock_ledger : Z;
  tp_approvals : list string;
  tp_executed : bool
}.

(** The storage, a map for each kind of [DataKey]. *)
Record Escrow : Type := {
  es_admin : option string;
  es_config : option AdminConfig;
  es_paused : bool;
  es_paused_at : option Z;
  es_unpause_after : option Z;
  es_leagues : gmap Z LeagueState;
  es_deposits : gmap (Z * string) Z;
  es_claimable : gmap (Z * string) Z;
  es_hashes : gmap Z (list byte);
  es_frozen : gset Z;
  es_reasons : gmap Z (list byte);
  es_roots : gmap Z (list byte);
  es_claimed : gset (Z * string);
  es_proposals : gmap Z TimelockProposal
}.

Definition empty_escrow : Escrow :=
  {| es_admin := None; es_config := None; es_paused := false; es_paused_at := None; es_unpause_after := None;
     es_leagues := ∅; es_deposits := ∅; es_claimable := ∅; es_hashes := ∅; es_frozen := ∅; es_reasons := ∅; es_roots := ∅;
     es_claimed := ∅; es_proposals := ∅ |}.

(** Who authorised the invocation, the ledger's time and sequence, and whether a
    federation peer reports that it is paused. *)
Record Invocation : Type := {
  iv_auth : list string;
  iv_timestamp : Z;
  iv_sequence : Z;
  iv_peer_paused : bool
}.

Definition put_leagues (x : gmap Z LeagueState) (s : Escrow) : Escrow :=
  {| es_admin := es_admin s; es_config := es_config s; es_paused := es_paused s; es_paused_at := es_paused_at s;
     es_unpause_after := es_unpause_after s; es_leagues := x; es_deposits := es_deposits s; es_claimable := es_claimable s;
     es_hashes := es_hashes s; es_frozen := es_frozen s; es_reasons := es_reasons s; es_roots := es_roots s;
     es_claimed := es_claimed s; es_proposals := es_proposals s |}.

Definition put_deposits (x : gmap (Z * string) Z) (s : Escrow) : Escrow :=
  {| es_admin := es_admin s; es_config := es_config s; es_paused := es_paused s; es_paused_at := es_paused_at s;
     es_unpause_after := es_unpause_after s; es_leagues := es_leagues s; es_deposits := x; es_claimable := es_claimable s;
     es_hashes := es_hashes s; es_frozen := es_frozen s; es_reasons := es_reasons s; es_roots := es_roots s;
     es_claimed := es_claimed s; es_proposals := es_proposals s |}.

Definition put_claimable (x : gmap (Z * string) Z) (s : Escrow) : Escrow :=
  {| es_admin := es_admin s; es_config := es_config s; es_paused := es_paused s; es_paused_at := es_paused_at s;
     es_unpause_after := es_unpause_after s; es_leagues := es_leagues s; es_deposits := es_deposits s; es_claimable := x;
     es_hashes := es_hashes s; es_frozen := es_frozen s; es_reasons := es_reasons s; es_roots := es_roots s;
     es_claimed := es_claimed s; es_proposals := es_proposals s |}.

Definition put_hashes (x : gmap Z (list byte)) (s : Escrow) : Escrow :=
  {| es_admin := es_admin s; es_config := es_config s; es_paused := es_paused s; es_paused_at := es_paused_at s;
     es_unpause_after := es_unpause_after s; es_leagues := es_leagues s; es_deposits := es_deposits s; es_claimable := es_claimable s;
     es_hashes := x; es_frozen := es_frozen s; es_reasons := es_reasons s; es_roots := es_roots s;
     es_claimed := es_claimed s; es_proposals := es_proposals s |}.

Definition put_freeze (x : gset Z) (y : gmap Z (list byte)) (s : Escrow) : Escrow :=
  {| es_admin := es_admin s; es_config := es_config s; es_paused := es_paused s; es_paused_at := es_paused_at s;
     es_unpause_after := es_unpause_after s; es_leagues := es_leagues s; es_deposits := es_deposits s; es_claimable := es_claimable s;
     es_hashes := es_hashes s; es_frozen := x; es_reasons := y; es_roots := es_roots s;
     es_claimed := es_claimed s; es_proposals := es_proposals s |}.

Definition put_merkle (x : gmap Z (list byte)) (y : gset (Z * string)) (s : Escrow) : Escrow :=
  {| es_admin := es_admin s; es_config := es_config s; es_paused := es_paused s; es_paused_at := es_paused_at s;
     es_unpause_after := es_unpause_after s; es_leagues := es_leagues s; es_deposits := es_deposits s; es_claimable := es_claimable s;
     es_hashes := es_hashes s; es_frozen := es_frozen s; es_reasons := es_reasons s; es_roots := x;
     es_claimed := y; es_proposals := es_proposals s |}.

Definition put_proposals (x : gmap Z TimelockProposal) (s : Escrow) : Escrow :=
  {| es_admin := es_admin s; es_config := es_config s; es_paused := es_paused s; es_paused_at := es_paused_at s;
     es_unpause_after := es_unpause_after s; es_leagues := es_leagues s; es_deposits := es_deposits s; es_claimable := es_claimable s;
     es_hashes := es_hashes s; es_frozen := es_frozen s; es_reasons := es_reasons s; es_roots := es_roots s;
     es_claimed := es_claimed s; es_proposals := x |}.

Definition put_pause (x : bool) (y z : option Z) (s : Escrow) : Escrow :=
  {| es_admin := es_admin s; es_config := es_config s; es_paused := x; es_paused_at := y;
     es_unpause_after := z; es_leagues := es_leagues s; es_deposits := es_deposits s; es_claimable := es_claimable s;
     es_hashes := es_hashes s; es_frozen := es_frozen s; es_reasons := es_reasons s; es_roots := es_roots s;
     es_claimed := es_claimed s; es_proposals := es_proposals s |}.

Definition put_admin (x : string) (y : AdminConfig) (s : Escrow) : Escrow :=
  {| es_admin := Some x; es_config := Some y; es_paused := es_paused s; es_paused_at := es_paused_at s;
     es_unpause_after := es_unpause_after s; es_leagues := es_leagues s; es_deposits := es_deposits s; es_claimable := es_claimable s;
     es_hashes := es_hashes s; es_frozen := es_frozen s; es_reasons := es_reasons s; es_roots := es_roots s;
     es_claimed := es_claimed s; es_proposals := es_proposals s |}.

Definition with_status (status : EscrowStatus) (l : LeagueState) : LeagueState :=
  {| el_creator := el_creator l; el_entry_fee := el_entry_fee l; el_asset := el_asset l;
     el_total_deposited := el_total_deposited l; el_participant_count := el_participant_count l; el_status := status |}.

Definition with_deposits (total count : Z) (l : LeagueState) : LeagueState :=
  {| el_creator := el_creator l; el_entry_fee := el_entry_fee l; el_asset := el_asset l;
     el_total_deposited := total; el_participant_count := count; el_status := el_status l |}.

(** Checked arithmetic. *)
Definition i128 (z : Z) : result EscrowError Z := if (- 2 ^ 127 <=? z) && (z <? 2 ^ 127) then Ok z else Err Trap.
Definition u32 (z : Z) : result EscrowError Z := if (0 <=? z) && (z <? 2 ^ 32) then Ok z else Err Trap.

Definition EMERGENCY_REFUND_TIMELOCK_SECONDS : Z := 14 * 24 * 60 * 60.
Definition TIMELOCK_DELAY_LEDGERS : Z := 2 * 17280.

(** [x.require_auth()] *)
Definition require_auth (iv : Invocation) (x : string) : result EscrowError () := throw_if (negb (bool_decide (x ∈ iv_auth iv))) Trap.

Definition require_admin (iv : Invocation) (admin : string) (s : Escrow) : result EscrowError () :=
  require_auth iv admin ;;;
  let* stored_admin := or_throw (es_admin s) NotInitialized in
  throw_if (negb (bool_decide (admin = stored_admin))) NotAuthorized.

Definition ensure_operational (iv : Invocation) (s : Escrow) : result EscrowError () :=
  throw_if (es_paused s) ContractPaused ;;;
  throw_if (iv_peer_paused iv) ContractPaused.

Definition get_league (s : Escrow) (league_id : Z) : result EscrowError LeagueState := or_throw (es_leagues s !! league_id) EscrowLeagueNotFound.

Definition is_league_frozen (s : Escrow) (league_id : Z) : bool := bool_decide (league_id ∈ es_frozen s).

Definition is_final (status : EscrowStatus) : bool := bool_decide (status = Settled) || bool_decide (status = Cancelled).

(** ** The entry points *)

Section contract.
(** The ledgers of the token contracts: [balance] and [transfer], which traps
    unless the sender can pay; and the address of this contract. *)
Context {T : Type} (balance : T → string → string → Z) (transfer : T → string → string → string → Z → option T) (self : string).
(** SHA-256, and the XDR of a claim, an address and an [i128]. *)
Context (sha256 : list byte → list byte) (claim_xdr : Z → string → Z → option (list byte)).
Context (address_xdr : string → list byte) (i128_xdr : Z → list byte).

Definition World : Type := Escrow * T.

Definition token_transfer (asset from to : string) (amount : Z) (t : T) : result EscrowError T :=
  or_throw (transfer t asset from to amount) Trap.

Definition initialize (iv : Invocation) (admin : string) (w : World) : result EscrowError World :=
  throw_if (bool_decide (is_Some (es_admin w.1))) AlreadyInitialized ;;;
  require_auth iv admin ;;;
  let s := put_admin admin {| ac_signers := [admin]; ac_threshold := 1 |} w.1 in
  Ok (put_pause false (es_paused_at s) (es_unpause_after s) s, w.2).

Definition initialize_multisig (iv : Invocation) (signers : list string) (threshold : Z) (w : World) : result EscrowError World :=
  throw_if (bool_decide (is_Some (es_admin w.1))) AlreadyInitialized ;;;
  throw_if ((threshold =? 0) || (Z.of_nat (length signers) <? threshold) || (32 <? Z.of_nat (length signers))) InvalidMultisig ;;;
  mfoldl (λ _ signer, require_auth iv signer) () signers ;;;
  let* admin := or_throw (head signers) Trap in
  Ok (put_admin admin {| ac_signers := signers; ac_threshold := threshold |} w.1, w.2).

Definition pause (iv : Invocation) (admin : string) (w : World) : result EscrowError World :=
  require_admin iv admin w.1 ;;;
  throw_if (es_paused w.1) AlreadyPaused ;;;
  Ok (put_pause true (Some (iv_timestamp iv)) (es_unpause_after w.1) w.1, w.2).

Definition unpause (iv : Invocation) (admin : string) (w : World) : result EscrowError World :=
  require_admin iv admin w.1 ;;;
  throw_if (negb (es_paused w.1)) NotPaused ;;;
  throw_if (match es_unpause_after w.1 with Some unpause_after => iv_timestamp iv <? unpause_after | None => false end) TimelockNotElapsed ;;;
  Ok (put_pause false None None w.1, w.2).

Definition create_league (iv : Invocation) (creator : string) (league_id entry_fee : Z) (asset : string) (w : World) : result EscrowError World :=
  require_auth iv creator ;;;
  throw_if (entry_fee <? 0) InvalidAmount ;;;
  throw_if (bool_decide (is_Some (es_leagues w.1 !! league_id))) LeagueAlreadyExists ;;;
  let state := {| el_creator := creator; el_entry_fee := entry_fee; el_asset := asset; el_total_deposited := 0;
                  el_participant_count := 0; el_status := Upcoming |} in
  Ok (put_leagues (<[league_id := state]> (es_leagues w.1)) w.1, w.2).

Definition deposit (iv : Invocation) (participant : string) (league_id : Z) (w : World) : result EscrowError World :=
  ensure_operational iv w.1 ;;;
  require_auth iv participant ;;;
  let* league := get_league w.1 league_id in
  throw_if (negb (bool_decide (el_status league = Upcoming))) LeagueNotAcceptingDeposits ;;;
  throw_if (bool_decide (is_Some (es_deposits w.1 !! (league_id, participant)))) AlreadyDeposited ;;;
  let* t := if 0 <? el_entry_fee league then token_transfer (el_asset league) participant self (el_entry_fee league) w.2 else Ok w.2 in
  let* total_deposited := i128 (el_total_deposited league + el_entry_fee league) in
  let* participant_count := u32 (el_participant_count league + 1) in
  let s := put_deposits (<[(league_id, participant) := el_entry_fee league]> (es_deposits w.1)) w.1 in
  Ok (put_leagues (<[league_id := with_deposits total_deposited participant_count league]> (es_leagues s)) s, t).

(** *** Settlement *)

Definition authorize_signers (iv : Invocation) (approvals : list string) (s : Escrow) : result EscrowError () :=
  let* config := or_throw (es_config s) NotInitialized in
  throw_if ((Z.of_nat (length approvals) <? ac_threshold config) || (length (ac_signers config) <? length approvals)%nat) InvalidMultisig ;;;
  mfoldl (λ previous signer,
    throw_if (bool_decide (signer ∈ previous)) InvalidMultisig ;;;
    throw_if (negb (bool_decide (signer ∈ ac_signers config))) NotAuthorized ;;;
    require_auth iv signer ;;;
    Ok (previous ++ [signer])) [] approvals ;;;
  Ok ().

Definition compute_settlement_hash (winners : list WinnerPayout) (platform_fee : Z) : list byte :=
  sha256 (mjoin ((λ w, address_xdr (wp_winner w) ++ i128_xdr (wp_amount w)) <$> winners) ++ i128_xdr platform_fee).

(** The amounts the contract expects, and those when the first two tie. *)
Definition expected_payouts (prize_pool : Z) (winners : list WinnerPayout) (distribution_bps : option (list Z)) :
    result EscrowError (list Z * list Z) :=
  match distribution_bps with
  | Some splits_bps => let* e := or_throw (contractDistribution prize_pool (length winners) splits_bps) InvalidPrizeDistribution in Ok (e, [])
  | None =>
      match winners with
      | [] => Err InvalidPrizeDistribution
      | [_] => Ok ([prize_pool], [])
      | [_; _] =>
          let* x := i128 (prize_pool * 70) in
          let p1 := Z.quot x 100 in
          let p2 := prize_pool - p1 in
          let tied_first := Z.quot prize_pool 2 in
          Ok ([p1; p2], [tied_first; prize_pool - tied_first])
      | _ :: _ :: _ :: others =>
          let* x := i128 (prize_pool * 60) in
          let* y := i128 (prize_pool * 30) in
          let p1 := Z.quot x 100 in
          let p2 := Z.quot y 100 in
          let p3 := prize_pool - p1 - p2 in
          let tied_first := Z.quot (p1 + p2) 2 in
          Ok ([p1; p2; p3] ++ ((λ _, 0) <$> others), [tied_first; p1 + p2 - tied_first; p3] ++ ((λ _, 0) <$> others))
      end
  end.

(** The loop over the winners: the amount of each is checked and added up. *)
Definition add_winner (expected tied : list Z) (uses_tied_first : bool) (total_payout : Z) (x : nat * WinnerPayout) : result EscrowError Z :=
  let '(i, winner) := x in
  throw_if (wp_amount winner <? 0) InvalidAmount ;;;
  let* e := or_throw (expected !! i) Trap in
  let* matches_tied_first :=
    if uses_tied_first then let* f := or_throw (tied !! i) Trap in Ok (wp_amount winner =? f) else Ok false in
  throw_if (negb (wp_amount winner =? e) && negb matches_tied_first) InvalidPrizeDistribution ;;;
  i128 (total_payout + wp_amount winner).

Definition uses_tied_first (winners : list WinnerPayout) (tied : list Z) : bool :=
  match winners, tied with
  | w0 :: w1 :: _, t0 :: t1 :: _ => (wp_amount w0 =? t0) && (wp_amount w1 =? t1)
  | _, _ => false
  end.

(** The prizes become claimable. *)
Definition write_claimable (league_id : Z) (winners : list WinnerPayout) (m : gmap (Z * string) Z) : gmap (Z * string) Z :=
  foldl (λ m winner, if 0 <? wp_amount winner then <[(league_id, wp_winner winner) := wp_amount winner]> m else m) m winners.

Record SettleArgs : Type := {
  sa_approvals : list string;
  sa_winners : list WinnerPayout;
  sa_treasury : string;
  sa_platform_fee : Z;
  sa_affiliate : option string;
  sa_affiliate_cut : Z;
  sa_proof : option (list byte);
  sa_settlement_hash : option (list byte);
  sa_distribution_bps : option (list Z)
}.

(** The checks of the fees. *)
Definition check_fees (league : LeagueState) (args : SettleArgs) : result EscrowError () :=
  let* x := i128 (el_total_deposited league * 500) in
  throw_if (Z.quot x 10000 <? sa_platform_fee args) FeeExceedsMaxCap ;;;
  throw_if (sa_affiliate_cut args <? 0) InvalidAmount ;;;
  throw_if (sa_platform_fee args <? sa_affiliate_cut args) InvalidFeeShare ;;;
  let* y := i128 (sa_platform_fee args * 2000) in
  throw_if (Z.quot y 10000 <? sa_affiliate_cut args) InvalidFeeShare.

(** The checks of the winners' amounts. *)
Definition check_winners (league : LeagueState) (args : SettleArgs) : result EscrowError () :=
  let* prize_pool := i128 (el_total_deposited league - sa_platform_fee args) in
  let* '(expected, tied) := expected_payouts prize_pool (sa_winners args) (sa_distribution_bps args) in
  let* total_payout := mfoldl (add_winner expected tied (uses_tied_first (sa_winners args) tied)) (sa_platform_fee args) (imap pair (sa_winners args)) in
  throw_if (negb (total_payout =? el_total_deposited league)) PayoutExceedsDeposits.

(** The transfers of the net fee and of the affiliate's cut. *)
Definition pay_fees (league : LeagueState) (args : SettleArgs) (t : T) : result EscrowError T :=
  let net_platform_fee := sa_platform_fee args - sa_affiliate_cut args in
  let* t := if 0 <? net_platform_fee then token_transfer (el_asset league) self (sa_treasury args) net_platform_fee t else Ok t in
  match sa_affiliate args with
  | Some affiliate => if 0 <? sa_affiliate_cut args then token_transfer (el_asset league) self affiliate (sa_affiliate_cut args) t else Ok t
  | None => Ok t
  end.

Definition settle_internal (iv : Invocation) (league_id : Z) (args : SettleArgs) (w : World) : result EscrowError World :=
  ensure_operational iv w.1 ;;;
  authorize_signers iv (sa_approvals args) w.1 ;;;
  let* s := match sa_settlement_hash args with
    | Some expected_hash =>
        throw_if (negb (bool_decide (compute_settlement_hash (sa_winners args) (sa_platform_fee args) = expected_hash))) HashMismatch ;;;
        Ok (put_hashes (<[league_id := expected_hash]> (es_hashes w.1)) w.1)
    | None => Ok w.1
    end in
  throw_if (match sa_proof args with Some proof => forallb (λ b, bool_decide (b = x00)) proof | None => false end) InvalidProof ;;;
  let* league := get_league s league_id in
  throw_if (is_final (el_status league)) AlreadySettled ;;;
  throw_if (is_league_frozen s league_id) ContractPaused ;;;
  check_fees league args ;;;
  check_winners league args ;;;
  let* t := pay_fees league args w.2 in
  let s := put_claimable (write_claimable league_id (sa_winners args) (es_claimable s)) s in
  Ok (put_leagues (<[league_id := with_status Settled league]> (es_leagues s)) s, t).

(** The plain settlement by the administrator. *)
Definition settle (iv : Invocation) (admin : string) (league_id : Z) (winners : list WinnerPayout) (platform_treasury : string)
    (platform_fee : Z) (w : World) : result EscrowError World :=
  settle_internal iv league_id {| sa_approvals := [admin]; sa_winners := winners; sa_treasury := platform_treasury;
    sa_platform_fee := platform_fee; sa_affiliate := None; sa_affiliate_cut := 0; sa_proof := None; sa_settlement_hash := None;
    sa_distribution_bps := None |} w.

Definition settle_with_merkle_root (iv : Invocation) (admin : string) (league_id : Z) (merkle_root : list byte) (total_prize_pool : Z)
    (platform_treasury : string) (platform_fee : Z) (w : World) : result EscrowError World :=
  require_admin iv admin w.1 ;;;
  throw_if (es_paused w.1) ContractPaused ;;;
  throw_if (is_league_frozen w.1 league_id) ContractPaused ;;;
  let* league := get_league w.1 league_id in
  throw_if (is_final (el_status league)) AlreadySettled ;;;
  let* x := i128 (el_total_deposited league * 500) in
  throw_if ((Z.quot x 10000 <? platform_fee) || (platform_fee <? 0)) FeeExceedsMaxCap ;;;
  throw_if (total_prize_pool <? 0) PayoutExceedsDeposits ;;;
  let* total := i128 (total_prize_pool + platform_fee) in
  throw_if (negb (total =? el_total_deposited league)) PayoutExceedsDeposits ;;;
  let* t := if 0 <? platform_fee then token_transfer (el_asset league) self platform_treasury platform_fee w.2 else Ok w.2 in
  let s := put_merkle (<[league_id := merkle_root]> (es_roots w.1)) (es_claimed w.1) w.1 in
  Ok (put_leagues (<[league_id := with_status Settled league]> (es_leagues s)) s, t).

(** *** Claims *)

Definition claim_prize (iv : Invocation) (winner : string) (league_id : Z) (w : World) : result EscrowError World :=
  ensure_operational iv w.1 ;;;
  require_auth iv winner ;;;
  throw_if (is_league_frozen w.1 league_id) ContractPaused ;;;
  let* amount := or_throw (es_claimable w.1 !! (league_id, winner)) NoClaimablePrize in
  let* league := get_league w.1 league_id in
  let* t := token_transfer (el_asset league) self winner amount w.2 in
  Ok (put_claimable (delete (league_id, winner) (es_claimable w.1)) w.1, t).

(** The leaf of a claim, and whether a proof leads from it to a root. *)
Definition merkle_accepts (root : list byte) (league_id : Z) (winner : string) (amount : Z) (merkle_proof : list (list byte)) : bool :=
  match claim_xdr league_id winner amount with
  | Some leaf_bytes => bool_decide (foldl (hashPair sha256) (sha256 leaf_bytes) merkle_proof = root)
  | None => false
  end.

Definition claim_prize_merkle (iv : Invocation) (league_id : Z) (winner : string) (amount : Z) (merkle_proof : list (list byte))
    (w : World) : result EscrowError World :=
  require_auth iv winner ;;;
  throw_if (amount <=? 0) InvalidAmount ;;;
  throw_if (is_league_frozen w.1 league_id) ContractPaused ;;;
  let* league := get_league w.1 league_id in
  throw_if (negb (bool_decide (el_status league = Settled))) NoClaimablePrize ;;;
  throw_if (bool_decide ((league_id, winner) ∈ es_claimed w.1)) AlreadyClaimed ;;;
  let* stored_root := or_throw (es_roots w.1 !! league_id) NoClaimablePrize in
  throw_if (negb (merkle_accepts stored_root league_id winner amount merkle_proof)) InvalidProof ;;;
  let* t := token_transfer (el_asset league) self winner amount w.2 in
  Ok (put_merkle (es_roots w.1) ({[(league_id, winner)]} ∪ es_claimed w.1) w.1, t).

(** *** Refunds *)

(** A deposit leaves the league. *)
Definition take_out (league_id : Z) (participant : string) (amount : Z) (league : LeagueState) (s : Escrow) : result EscrowError Escrow :=
  let* total_deposited := i128 (el_total_deposited league - amount) in
  let* participant_count := u32 (el_participant_count league - 1) in
  let s := put_deposits (delete (league_id, participant) (es_deposits s)) s in
  Ok (put_leagues (<[league_id := with_deposits total_deposited participant_count league]> (es_leagues s)) s).

Definition emergency_refund_league (iv : Invocation) (participant : string) (league_id : Z) (w : World) : result EscrowError World :=
  require_auth iv participant ;;;
  throw_if (negb (es_paused w.1)) NotPaused ;;;
  let* paused_at := or_throw (es_paused_at w.1) NotPaused in
  throw_if (2 ^ 64 <=? paused_at + EMERGENCY_REFUND_TIMELOCK_SECONDS) TimelockNotElapsed ;;;
  throw_if (iv_timestamp iv <? paused_at + EMERGENCY_REFUND_TIMELOCK_SECONDS) TimelockNotElapsed ;;;
  let* league := get_league w.1 league_id in
  throw_if (bool_decide (el_status league = Settled)) AlreadySettled ;;;
  throw_if (is_league_frozen w.1 league_id) ContractPaused ;;;
  let* amount := or_throw (es_deposits w.1 !! (league_id, participant)) NoDeposit in
  throw_if (amount <=? 0) NoDeposit ;;;
  let* t := token_transfer (el_asset league) self participant amount w.2 in
  let* s := take_out league_id participant amount league w.1 in
  Ok (s, t).

Definition refund_deposit (iv : Invocation) (admin : string) (league_id : Z) (participant : string) (w : World) : result EscrowError World :=
  require_admin iv admin w.1 ;;;
  let* league := get_league w.1 league_id in
  throw_if (bool_decide (el_status league = Settled)) AlreadySettled ;;;
  let* amount := or_throw (es_deposits w.1 !! (league_id, participant)) NoDeposit in
  throw_if (amount <=? 0) AlreadyClaimed ;;;
  let* t := token_transfer (el_asset league) self participant amount w.2 in
  let* s := take_out league_id participant amount league w.1 in
  Ok (s, t).

(** The body of the loop of [refund]. *)
Definition refund_one (asset : string) (league_id : Z) (w : World) (participant : string) : result EscrowError World :=
  match es_deposits w.1 !! (league_id, participant) with
  | Some deposit_amount =>
      let* t := if 0 <? deposit_amount then token_transfer asset self participant deposit_amount w.2 else Ok w.2 in
      Ok (put_deposits (delete (league_id, participant) (es_deposits w.1)) w.1, t)
  | None => Ok w
  end.

Definition refund (iv : Invocation) (admin : string) (league_id : Z) (participants : list string) (w : World) : result EscrowError World :=
  require_admin iv admin w.1 ;;;
  let* league := get_league w.1 league_id in
  throw_if (bool_decide (el_status league = Settled)) AlreadySettled ;;;
  let* '(s, t) := mfoldl (refund_one (el_asset league) league_id) w participants in
  Ok (put_leagues (<[league_id := with_status Cancelled league]> (es_leagues s)) s, t).

Definition cancel_league (iv : Invocation) (caller : string) (league_id : Z) (w : World) : result EscrowError World :=
  require_auth iv caller ;;;
  let* league := get_league w.1 league_id in
  throw_if (bool_decide (el_status league = Settled)) AlreadySettled ;;;
  let* stored_admin := or_throw (es_admin w.1) NotInitialized in
  throw_if (negb (bool_decide (caller = stored_admin)) && negb (bool_decide (caller = el_creator league))) NotAuthorized ;;;
  Ok (put_leagues (<[league_id := with_status Cancelled league]> (es_leagues w.1)) w.1, w.2).

Definition claim_refund (iv : Invocation) (participant : string) (league_id : Z) (w : World) : result EscrowError World :=
  require_auth iv participant ;;;
  let* league := get_league w.1 league_id in
  throw_if (negb (bool_decide (el_status league = Cancelled))) LeagueNotCancelled ;;;
  let* amount := or_throw (es_deposits w.1 !! (league_id, participant)) NoDeposit in
  throw_if (amount <=? 0) AlreadyClaimed ;;;
  let* t := token_transfer (el_asset league) self participant amount w.2 in
  let* total_deposited := i128 (el_total_deposited league - amount) in
  let s := put_deposits (<[(league_id, participant) := 0]> (es_deposits w.1)) w.1 in
  Ok (put_leagues (<[league_id := with_deposits total_deposited (el_participant_count league) league]> (es_leagues s)) s, t).

(** *** Disputes *)

Definition freeze_league (iv : Invocation) (admin : string) (league_id : Z) (reason_hash : list byte) (w : World) : result EscrowError World :=
  require_admin iv admin w.1 ;;;
  let* league := get_league w.1 league_id in
  throw_if (is_final (el_status league)) AlreadySettled ;;;
  Ok (put_freeze ({[league_id]} ∪ es_frozen w.1) (<[league_id := reason_hash]> (es_reasons w.1)) w.1, w.2).

Definition thaw (league_id : Z) (s : Escrow) : Escrow := put_freeze (es_frozen s ∖ {[league_id]}) (delete league_id (es_reasons s)) s.

Definition unfreeze_league (iv : Invocation) (admin : string) (league_id : Z) (w : World) : result EscrowError World :=
  require_admin iv admin w.1 ;;;
  if is_league_frozen w.1 league_id then Ok (thaw league_id w.1, w.2) else Ok w.

Definition resolve_dispute_payout (iv : Invocation) (admin : string) (league_id : Z) (winners : list WinnerPayout)
    (platform_treasury : string) (platform_fee : Z) (w : World) : result EscrowError World :=
  require_admin iv admin w.1 ;;;
  settle iv admin league_id winners platform_treasury platform_fee (thaw league_id w.1, w.2).

Definition resolve_dispute_refund (iv : Invocation) (admin : string) (league_id : Z) (participants : list string) (w : World) :
    result EscrowError World :=
  require_admin iv admin w.1 ;;;
  refund iv admin league_id participants (thaw league_id w.1, w.2).

(** *** Withdrawal of fees *)

Definition require_signer (iv : Invocation) (caller : string) (s : Escrow) : result EscrowError AdminConfig :=
  let* config := or_throw (es_config s) NotInitialized in
  throw_if (negb (bool_decide (caller ∈ ac_signers config))) NotAuthorized ;;;
  Ok config.

Definition propose_fee_withdrawal (iv : Invocation) (caller : string) (proposal_id : Z) (destination asset : string) (amount : Z) (w : World) :
    result EscrowError World :=
  require_auth iv caller ;;;
  throw_if (amount <=? 0) InvalidAmount ;;;
  require_signer iv caller w.1 ;;;
  throw_if (bool_decide (is_Some (es_proposals w.1 !! proposal_id))) AlreadyInitialized ;;;
  let* unlock_ledger := u32 (iv_sequence iv + TIMELOCK_DELAY_LEDGERS) in
  let proposal := {| tp_proposer := caller; tp_destination := destination; tp_asset := asset; tp_amount := amount;
                     tp_unlock_ledger := unlock_ledger; tp_approvals := [caller]; tp_executed := false |} in
  Ok (put_proposals (<[proposal_id := proposal]> (es_proposals w.1)) w.1, w.2).

Definition with_approvals (approvals : list string) (executed : bool) (p : TimelockProposal) : TimelockProposal :=
  {| tp_proposer := tp_proposer p; tp_destination := tp_destination p; tp_asset := tp_asset p; tp_amount := tp_amount p;
     tp_unlock_ledger := tp_unlock_ledger p; tp_approvals := approvals; tp_executed := executed |}.

Definition approve_fee_withdrawal (iv : Invocation) (caller : string) (proposal_id : Z) (w : World) : result EscrowError World :=
  require_auth iv caller ;;;
  require_signer iv caller w.1 ;;;
  let* proposal := or_throw (es_proposals w.1 !! proposal_id) ProposalNotFound in
  throw_if (tp_executed proposal) ProposalExecuted ;;;
  throw_if (bool_decide (caller ∈ tp_approvals proposal)) AlreadyApproved ;;;
  Ok (put_proposals (<[proposal_id := with_approvals (tp_approvals proposal ++ [caller]) false proposal]> (es_proposals w.1)) w.1, w.2).

Definition execute_fee_withdrawal (iv : Invocation) (caller : string) (proposal_id : Z) (w : World) : result EscrowError World :=
  require_auth iv caller ;;;
  let* config := require_signer iv caller w.1 in
  let* proposal := or_throw (es_proposals w.1 !! proposal_id) ProposalNotFound in
  throw_if (tp_executed proposal) ProposalExecuted ;;;
  throw_if (iv_sequence iv <? tp_unlock_ledger proposal) TimelockActive ;;;
  let required_threshold := if (2 <=? length (ac_signers config))%nat && (ac_threshold config <? 2) then 2 else ac_threshold config in
  throw_if (Z.of_nat (length (tp_approvals proposal)) <? required_threshold) InvalidMultisig ;;;
  let* t := token_transfer (tp_asset proposal) self (tp_destination proposal) (tp_amount proposal) w.2 in
  Ok (put_proposals (<[proposal_id := with_approvals (tp_approvals proposal) true proposal]> (es_proposals w.1)) w.1, t).

(** ** Calls *)

Inductive Call : Type :=
| Initialize (admin : string)
| InitializeMultisig (signers : list string) (threshold : Z)
| Pause (admin : string)
| Unpause (admin : string)
| CreateLeague (creator : string) (league_id entry_fee : Z) (asset : string)
| DepositFee (participant : string) (league_id : Z)
| Settle (league_id : Z) (args : SettleArgs)
| SettleMerkle (admin : string) (league_id : Z) (root : list byte) (pool : Z) (treasury : string) (fee : Z)
| ClaimPrize (winner : string) (league_id : Z)
| ClaimPrizeMerkle (league_id : Z) (winner : string) (amount : Z) (proof : list (list byte))
| EmergencyRefund (participant : string) (league_id : Z)
| RefundDeposit (admin : string) (league_id : Z) (participant : string)
| Refund (admin : string) (league_id : Z) (participants : list string)
| CancelLeague (caller : string) (league_id : Z)
| ClaimRefund (participant : string) (league_id : Z)
| FreezeLeague (admin : string) (league_id : Z) (reason : list byte)
| UnfreezeLeague (admin : string) (league_id : Z)
| ResolvePayout (admin : string) (league_id : Z) (winners : list WinnerPayout) (treasury : string) (fee : Z)
| ResolveRefund (admin : string) (league_id : Z) (participants : list string)
| ProposeWithdrawal (caller : string) (proposal_id : Z) (destination asset : string) (amount : Z)
| ApproveWithdrawal (caller : string) (proposal_id : Z)
| ExecuteWithdrawal (caller : string) (proposal_id : Z).

Definition run_call (iv : Invocation) (c : Call) (w : World) : result EscrowError World :=
  match c with
  | Initialize admin => initialize iv admin w
  | InitializeMultisig signers threshold => initialize_multisig iv signers threshold w
  | Pause admin => pause iv admin w
  | Unpause admin => unpause iv admin w
  | CreateLeague creator l fee asset => create_league iv creator l fee asset w
  | DepositFee p l => deposit iv p l w
  | Settle l args => settle_internal iv l args w
  | SettleMerkle admin l root pool treasury fee => settle_with_merkle_root iv admin l root pool treasury fee w
  | ClaimPrize p l => claim_prize iv p l w
  | ClaimPrizeMerkle l p amount proof => claim_prize_merkle iv l p amount proof w
  | EmergencyRefund p l => emergency_refund_league iv p l w
  | RefundDeposit admin l p => refund_deposit iv admin l p w
  | Refund admin l ps => refund iv admin l ps w
  | CancelLeague caller l => cancel_league iv caller l w
  | ClaimRefund p l => claim_refund iv p l w
  | FreezeLeague admin l reason => freeze_league iv admin l reason w
  | UnfreezeLeague admin l => unfreeze_league iv admin l w
  | ResolvePayout admin l winners treasury fee => resolve_dispute_payout iv admin l winners treasury fee w
  | ResolveRefund admin l ps => resolve_dispute_refund iv admin l ps w
  | ProposeWithdrawal caller i destination asset amount => propose_fee_withdrawal iv caller i destination asset amount w
  | ApproveWithdrawal caller i => approve_fee_withdrawal iv caller i w
  | ExecuteWithdrawal caller i => execute_fee_withdrawal iv caller i w
  end.
End contract.

(** ** Lemmas: sums over maps *)

Definition sum_map {K V} `{Countable K} (f : K → V → Z) (m : gmap K V) : Z := sum_of (λ e : K * V, f e.1 e.2) (map_to_list m).

Section sum_map.
Context {K V : Type} `{Countable K}.
Implicit Types (f g : K → V → Z) (m : gmap K V).

Lemma sum_map_empty f : sum_map f (∅ : gmap K V) = 0.
Proof. unfold sum_map. by rewrite map_to_list_empty. Qed.

Lemma sum_map_insert_new f m k v : m !! k = None → sum_map f (<[k:=v]> m) = f k v + sum_map f m.
Proof. intros Hk. unfold sum_map. by rewrite (sum_of_perm _ _ _ (map_to_list_insert m k v Hk)), sum_of_cons. Qed.

Lemma sum_map_delete f m k v : m !! k = Some v → sum_map f m = f k v + sum_map f (delete k m).
Proof. intros Hk. rewrite <- sum_map_insert_new by apply lookup_delete_eq. by rewrite insert_delete_id. Qed.

Lemma sum_map_insert f m k v v' : m !! k = Some v → sum_map f (<[k:=v']> m) = sum_map f m - f k v + f k v'.
Proof.
  intros Hk. rewrite (sum_map_delete f m k v Hk), <- (insert_delete_eq m), sum_map_insert_new by apply lookup_delete_eq. lia.
Qed.

Lemma sum_map_ext f g m : (∀ k v, m !! k = Some v → f k v = g k v) → sum_map f m = sum_map g m.
Proof.
  intros E. unfold sum_map. apply sum_of_ext. intros [k v] Hin. apply E. by apply elem_of_map_to_list.
Qed.

Lemma sum_map_nonneg f m : (∀ k v, m !! k = Some v → 0 ≤ f k v) → 0 ≤ sum_map f m.
Proof.
  intros E. unfold sum_map, sum_of. apply sumZ_nonneg, Forall_fmap, Forall_forall. intros [k v] Hin. apply E. by apply elem_of_map_to_list.
Qed.

Lemma sum_map_zero f m : (∀ k v, m !! k = Some v → f k v = 0) → sum_map f m = 0.
Proof.
  intros E. rewrite (sum_map_ext f (λ _ _, 0)) by done. unfold sum_map. induction (map_to_list m) as [|e l IH]; [done|].
  by rewrite sum_of_cons, IH.
Qed.
End sum_map.

(** What a map of (league, participant) holds for a league. *)
Definition held (league_id : Z) (m : gmap (Z * string) Z) : Z := sum_map (λ k v, if k.1 =? league_id then v else 0) m.

Lemma held_insert_new l k v m : m !! k = None → held l (<[k:=v]> m) = (if k.1 =? l then v else 0) + held l m.
Proof. intros H. unfold held. by rewrite sum_map_insert_new. Qed.

Lemma held_insert l k v v' m : m !! k = Some v → held l (<[k:=v']> m) = held l m + if k.1 =? l then v' - v else 0.
Proof. intros H. unfold held. rewrite (sum_map_insert _ _ _ v) by done. destruct (k.1 =? l); lia. Qed.

Lemma held_delete l k v m : m !! k = Some v → held l (delete k m) = held l m - if k.1 =? l then v else 0.
Proof. intros H. unfold held. rewrite (sum_map_delete _ m k v) by done. lia. Qed.

Lemma held_nonneg l m : (∀ k v, m !! k = Some v → 0 ≤ v) → 0 ≤ held l m.
Proof. intros H. apply sum_map_nonneg. intros k v Hk. destruct (k.1 =? l); [by eapply H|lia]. Qed.

Lemma held_none l m : (∀ p, m !! (l, p) = None) → held l m = 0.
Proof. intros H. apply sum_map_zero. intros [l' p] v Hk. cbn. destruct (Z.eqb_spec l' l) as [->|]; [|done]. by rewrite H in Hk. Qed.

(** ** What the contract owes *)

(** The documented behaviour of a token contract. *)
Class TokenLaws {T : Type} (balance : T → string → string → Z) (transfer : T → string → string → string → Z → option T) : Prop := {
  transfer_moves t asset from to n t' : transfer t asset from to n = Some t' →
    0 ≤ n ∧ n ≤ balance t asset from ∧
    ∀ a x, balance t' a x = balance t a x - (if bool_decide (a = asset ∧ x = from) then n else 0)
                                          + (if bool_decide (a = asset ∧ x = to) then n else 0)
}.

Section solvency.
Context {T : Type} (balance : T → string → string → Z) (transfer : T → string → string → string → Z → option T) (self : string).
Context (sha256 : list byte → list byte) (claim_xdr : Z → string → Z → option (list byte)).
Context (address_xdr : string → list byte) (i128_xdr : Z → list byte).
Context `{!TokenLaws balance transfer}.

Notation accepts := (merkle_accepts sha256 claim_xdr).

(** A claim under a Merkle root: the winner, the amount and the proof. *)
Definition Claim : Type := (string * Z * list (list byte)).

(** Claims the contract would pay under a root. *)
Definition payable_claims (root : list byte) (league_id : Z) (paid : list Claim) : Prop :=
  NoDup (fst ∘ fst <$> paid) ∧ ∀ c, c ∈ paid → 0 < c.1.2 ∧ accepts root league_id c.1.1 c.1.2 c.2 = true.

(** No set of claims under the root exceeds the pool it was published with. *)
Definition root_covers (root : list byte) (league_id pool : Z) : Prop :=
  ∀ paid, payable_claims root league_id paid → sum_of (λ c : Claim, c.1.2) paid ≤ pool.

(** What is still due under the root of a league. *)
Definition merkle_due (s : Escrow) (league_id due : Z) : Prop :=
  match es_roots s !! league_id with
  | None => due = 0
  | Some root => ∃ pool paid, root_covers root league_id pool ∧ payable_claims root league_id paid ∧
      (∀ p, p ∈ (fst ∘ fst <$> paid) ↔ (league_id, p) ∈ es_claimed s) ∧ due = pool - sum_of (λ c : Claim, c.1.2) paid
  end.

(** The prizes of a settled league that are not claimed, or the deposits of another. *)
Definition league_owes (due : Z → Z) (s : Escrow) (league_id : Z) (league : LeagueState) : Z :=
  if bool_decide (el_status league = Settled) then held league_id (es_claimable s) + due league_id else held league_id (es_deposits s).

Definition liabilities (due : Z → Z) (s : Escrow) (asset : string) : Z :=
  sum_map (λ l league, if bool_decide (el_asset league = asset) then league_owes due s l league else 0) (es_leagues s).

(** The books of the contract are in order. *)
Record books (due : Z → Z) (s : Escrow) : Prop := {
  bk_total : ∀ l league, es_leagues s !! l = Some league → is_final (el_status league) = false →
    el_total_deposited league = held l (es_deposits s);
  bk_fee : ∀ l league, es_leagues s !! l = Some league → 0 ≤ el_entry_fee league;
  bk_deposit : ∀ k v, es_deposits s !! k = Some v → 0 ≤ v ∧ is_Some (es_leagues s !! k.1);
  bk_claimable : ∀ k v, es_claimable s !! k = Some v → 0 < v ∧ ∃ league, es_leagues s !! k.1 = Some league ∧ el_status league = Settled;
  bk_root : ∀ l root, es_roots s !! l = Some root → ∃ league, es_leagues s !! l = Some league ∧ el_status league = Settled;
  bk_claimed : ∀ l p, (l, p) ∈ es_claimed s → is_Some (es_roots s !! l);
  bk_due : ∀ l, merkle_due s l (due l)
}.

(** Whatever the token, the contract holds what it owes. *)
Definition solvent (w : Escrow * T) : Prop := ∃ due, books due w.1 ∧ ∀ asset, liabilities due w.1 asset ≤ balance w.2 asset self.

(** ** Lemmas: transfers *)

Lemma paid_out asset to n t t' : token_transfer transfer asset self to n t = Ok t' →
  0 ≤ n ∧ ∀ a, balance t a self - (if bool_decide (asset = a) then n else 0) ≤ balance t' a self.
Proof.
  intros H%or_throw_ok%transfer_moves. destruct H as (Hn & _ & H). split; [done|]. intros a. rewrite H.
  repeat case_bool_decide; naive_solver lia.
Qed.

Lemma paid_in asset from n t t' : from ≠ self → token_transfer transfer asset from self n t = Ok t' →
  ∀ a, balance t a self + (if bool_decide (asset = a) then n else 0) ≤ balance t' a self.
Proof.
  intros Hne H%or_throw_ok%transfer_moves. destruct H as (Hn & _ & H). intros a. rewrite H.
  repeat case_bool_decide; naive_solver lia.
Qed.

(** ** Lemmas: one league changes *)

Lemma liabilities_update due due' s s' l L L' a :
  es_leagues s !! l = Some L → es_leagues s' = <[l:=L']> (es_leagues s) → el_asset L' = el_asset L →
  (∀ l' M, l' ≠ l → league_owes due' s' l' M = league_owes due s l' M) →
  liabilities due' s' a = liabilities due s a + if bool_decide (el_asset L = a) then league_owes due' s' l L' - league_owes due s l L else 0.
Proof.
  intros HL E Ea Ho. unfold liabilities. rewrite E, (sum_map_delete _ (es_leagues s) l L HL).
  rewrite <- insert_delete_eq, sum_map_insert_new by apply lookup_delete_eq. rewrite Ea.
  rewrite (sum_map_ext _ (λ l league, if bool_decide (el_asset league = a) then league_owes due s l league else 0) (delete l (es_leagues s))).
  - case_bool_decide; lia.
  - intros l' M HM. apply lookup_delete_Some in HM as [Hne _]. by rewrite Ho by congruence.
Qed.

Lemma solvent_update due due' s s' t t' l L L' :
  (∀ a, liabilities due s a ≤ balance t a self) →
  es_leagues s !! l = Some L → es_leagues s' = <[l:=L']> (es_leagues s) → el_asset L' = el_asset L →
  (∀ l' M, l' ≠ l → league_owes due' s' l' M = league_owes due s l' M) →
  (∀ a, balance t a self + (if bool_decide (el_asset L = a) then league_owes due' s' l L' - league_owes due s l L else 0) ≤ balance t' a self) →
  ∀ a, liabilities due' s' a ≤ balance t' a self.
Proof. intros Hs HL E Ea Ho Hb a. rewrite (liabilities_update due due' s s' l L L' a HL E Ea Ho). specialize (Hs a). specialize (Hb a). lia. Qed.

(** ** Lemmas: deposits come and go *)

Lemma owes_open due s l L : el_status L ≠ Settled → league_owes due s l L = held l (es_deposits s).
Proof. intros H. unfold league_owes. by rewrite bool_decide_eq_false_2. Qed.

Lemma owes_settled due s l L : el_status L = Settled → league_owes due s l L = held l (es_claimable s) + due l.
Proof. intros H. unfold league_owes. by rewrite bool_decide_eq_true_2. Qed.

Lemma due_same s s' l d : es_roots s' = es_roots s → es_claimed s' = es_claimed s → merkle_due s l d → merkle_due s' l d.
Proof. unfold merkle_due. by intros -> ->. Qed.

(** A league that is not settled keeps so, and only its deposits move. *)
Lemma solvent_deposits due s s' t t' l L L' :
  books due s → (∀ a, liabilities due s a ≤ balance t a self) →
  es_leagues s !! l = Some L → es_leagues s' = <[l:=L']> (es_leagues s) →
  el_asset L' = el_asset L → el_entry_fee L' = el_entry_fee L → el_status L ≠ Settled → el_status L' ≠ Settled →
  (is_final (el_status L') = false → el_total_deposited L' = held l (es_deposits s')) →
  es_claimable s' = es_claimable s → es_roots s' = es_roots s → es_claimed s' = es_claimed s →
  (∀ k v, es_deposits s' !! k = Some v → 0 ≤ v ∧ (es_deposits s !! k = Some v ∨ k.1 = l)) →
  (∀ l', l' ≠ l → held l' (es_deposits s') = held l' (es_deposits s)) →
  (∀ a, balance t a self + (if bool_decide (el_asset L = a) then held l (es_deposits s') - held l (es_deposits s) else 0) ≤ balance t' a self) →
  solvent (s', t').
Proof.
  intros [B1 B2 B3 B4 B5 B6 B7] Hs HL EL Ea Ef Hst Hst' Ht Ec Er Ecl Hd Hh Hb. exists due. cbn [fst snd].
  assert (∀ l1 M, es_leagues s !! l1 = Some M → ∃ M', es_leagues s' !! l1 = Some M' ∧ (el_status M = Settled → el_status M' = Settled)) as Hkeep.
  { intros l1 M HM. rewrite EL. destruct (decide (l1 = l)) as [->|Hne].
    - rewrite lookup_insert_eq. exists L'. split; [done|]. congruence.
    - rewrite lookup_insert_ne by done. eauto. }
  split; [constructor|].
  - intros l1 M HM Hf. rewrite EL in HM. destruct (decide (l1 = l)) as [->|Hne].
    + rewrite lookup_insert_eq in HM. injection HM as <-. by apply Ht.
    + rewrite lookup_insert_ne in HM by done. rewrite Hh by done. by apply B1.
  - intros l1 M HM. rewrite EL in HM. destruct (decide (l1 = l)) as [->|Hne].
    + rewrite lookup_insert_eq in HM. injection HM as <-. rewrite Ef. by eapply B2.
    + rewrite lookup_insert_ne in HM by done. by eapply B2.
  - intros k v Hk. destruct (Hd k v Hk) as [Hv [Hk'|Hk']]; (split; [done|]).
    + destruct (B3 k v Hk') as [_ [M HM]]. destruct (Hkeep _ _ HM) as (M' & -> & _). by eexists.
    + rewrite Hk'. destruct (Hkeep _ _ HL) as (M' & -> & _). by eexists.
  - intros k v. rewrite Ec. intros Hk. destruct (B4 k v Hk) as (Hv & M & HM & Hsm). destruct (Hkeep _ _ HM) as (M' & HM' & Hm). eauto.
  - intros l1 root. rewrite Er. intros (M & HM & Hsm)%B5. destruct (Hkeep _ _ HM) as (M' & HM' & Hm). eauto.
  - intros l1 p. rewrite Ecl, Er. apply B6.
  - intros l1. by apply (due_same s s').
  - apply (solvent_update due due s s' t t' l L L'); [done..| |].
    + intros l' M Hne. unfold league_owes. by rewrite Ec, Hh.
    + by rewrite !owes_open.
Qed.

(** ** Lemmas: the calls that move deposits *)

Notation deposit := (deposit transfer self).
Notation refund_one := (refund_one transfer self).

Lemma held_elsewhere l l' p v m : l' ≠ l → held l' (<[(l, p):=v]> m) = held l' m.
Proof.
  intros Hne. destruct (m !! (l, p)) as [v'|] eqn:E.
  - rewrite (held_insert l' (l, p) v') by done. cbn. rewrite (proj2 (Z.eqb_neq _ _)) by congruence. lia.
  - rewrite held_insert_new by done. cbn. rewrite (proj2 (Z.eqb_neq _ _)) by congruence. lia.
Qed.

Lemma held_other_delete l l' p m : l' ≠ l → held l' (delete (l, p) m) = held l' m.
Proof.
  intros Hne. destruct (m !! (l, p)) as [v'|] eqn:E; [|by rewrite delete_id].
  rewrite (held_delete l' (l, p) v') by done. cbn. rewrite (proj2 (Z.eqb_neq _ _)) by congruence. lia.
Qed.

Lemma held_own_delete l p v m : m !! (l, p) = Some v → held l (delete (l, p) m) = held l m - v.
Proof. intros E. rewrite (held_delete l (l, p) v) by done. cbn. by rewrite Z.eqb_refl. Qed.

Lemma i128_ok z x : i128 z = Ok x → x = z.
Proof. unfold i128. destruct (_ && _); [by intros [= <-]|done]. Qed.

Lemma u32_ok z x : u32 z = Ok x → x = z.
Proof. unfold u32. destruct (_ && _); [by intros [= <-]|done]. Qed.

Lemma deposit_solvent iv p l w w' : self ∉ iv_auth iv → solvent w → deposit iv p l w = Ok w' → solvent w'.
Proof.
  intros Hself (due & B & Hs) H. unfold Escrow.deposit in H.
  apply bind_ok in H as (? & _ & H). apply bind_ok in H as (? & Ha%throw_if_ok & H).
  apply bind_ok in H as (L & HL%or_throw_ok & H). apply bind_ok in H as (? & Hst%throw_if_ok & H).
  apply bind_ok in H as (? & Hnew%throw_if_ok & H). apply bind_ok in H as (t & Ht & H).
  apply bind_ok in H as (? & ->%i128_ok & H). apply bind_ok in H as (? & _ & H). injection H as <-.
  apply negb_false_iff, bool_decide_eq_true in Ha, Hst. assert (p ≠ self) as Hp by congruence.
  assert (es_deposits w.1 !! (l, p) = None) as Hnone by (apply eq_None_not_Some; by apply bool_decide_eq_false in Hnew).
  pose proof (bk_fee _ _ B l L HL) as Hfee.
  assert (held l (<[(l, p):=el_entry_fee L]> (es_deposits w.1)) = el_entry_fee L + held l (es_deposits w.1)) as Hheld
    by (rewrite held_insert_new by done; cbn; by rewrite Z.eqb_refl).
  eapply (solvent_deposits due w.1 _ w.2 t l L); try done; cbn.
  - by rewrite Hst.
  - by rewrite Hst.
  - intros _. rewrite Hheld, (bk_total _ _ B l L HL) by by rewrite Hst. lia.
  - intros k v Hk. destruct (decide (k = (l, p))) as [->|Hne]; [rewrite lookup_insert_eq in Hk; injection Hk as <-; auto|].
    rewrite lookup_insert_ne in Hk by done. split; [by apply (bk_deposit _ _ B) in Hk as []|by left].
  - intros l' Hne. by apply held_elsewhere.
  - intros a. rewrite Hheld. destruct (Z.ltb_spec 0 (el_entry_fee L)).
    + apply (paid_in _ _ _ _ _ Hp) with (a := a) in Ht. destruct (bool_decide (el_asset L = a)); lia.
    + injection Ht as <-. destruct (bool_decide (el_asset L = a)); lia.
Qed.

(** A deposit is paid back: its entry is deleted or set to zero. *)
Lemma payback_solvent due s s' t t' l L L' p amount D :
  books due s → (∀ a, liabilities due s a ≤ balance t a self) →
  es_leagues s !! l = Some L → el_status L ≠ Settled → es_deposits s !! (l, p) = Some amount →
  token_transfer transfer (el_asset L) self p amount t = Ok t' →
  D = delete (l, p) (es_deposits s) ∨ D = <[(l, p):=0]> (es_deposits s) →
  s' = put_leagues (<[l:=L']> (es_leagues s)) (put_deposits D s) →
  el_asset L' = el_asset L → el_entry_fee L' = el_entry_fee L → el_status L' = el_status L →
  el_total_deposited L' = el_total_deposited L - amount →
  solvent (s', t').
Proof.
  intros B Hs HL Hst Hd Ht HD -> Ea Ef Est Etot. apply paid_out in Ht as [_ Ht].
  assert (held l D = held l (es_deposits s) - amount) as Hheld.
  { destruct HD as [-> | ->]; [by apply held_own_delete|]. rewrite (held_insert l (l, p) amount) by done. cbn. rewrite Z.eqb_refl. lia. }
  eapply (solvent_deposits due s _ t t' l L L'); try done; cbn.
  - congruence.
  - intros Hf. rewrite Etot, Hheld, (bk_total _ _ B l L HL) by congruence. done.
  - intros k v Hk. destruct HD as [-> | ->].
    + apply lookup_delete_Some in Hk as [_ Hk]. split; [by apply (bk_deposit _ _ B) in Hk as []|by left].
    + destruct (decide (k = (l, p))) as [->|Hne]; [rewrite lookup_insert_eq in Hk; injection Hk as <-; split; [lia|by right]|].
      rewrite lookup_insert_ne in Hk by done. split; [by apply (bk_deposit _ _ B) in Hk as []|by left].
  - intros l' Hne. destruct HD as [-> | ->]; [by apply held_other_delete|by apply held_elsewhere].
  - intros a. rewrite Hheld. specialize (Ht a). case_bool_decide; lia.
Qed.

Lemma take_out_solvent w t' l L p amount s' :
  solvent w → es_leagues w.1 !! l = Some L → el_status L ≠ Settled → es_deposits w.1 !! (l, p) = Some amount →
  token_transfer transfer (el_asset L) self p amount w.2 = Ok t' → take_out l p amount L w.1 = Ok s' → solvent (s', t').
Proof.
  intros (due & B & Hs) HL Hst Hd Ht H. unfold take_out in H.
  apply bind_ok in H as (? & ->%i128_ok & H). apply bind_ok in H as (? & _ & H). injection H as <-.
  eapply (payback_solvent due w.1); try done. by left.
Qed.

Lemma emergency_solvent iv p l w w' : solvent w → emergency_refund_league transfer self iv p l w = Ok w' → solvent w'.
Proof.
  intros Hs H. unfold emergency_refund_league in H.
  apply bind_ok in H as (? & _ & H). apply bind_ok in H as (? & _ & H). apply bind_ok in H as (? & _ & H).
  apply bind_ok in H as (? & _ & H). apply bind_ok in H as (? & _ & H).
  apply bind_ok in H as (L & HL%or_throw_ok & H). apply bind_ok in H as (? & Hst%throw_if_ok & H).
  apply bind_ok in H as (? & _ & H). apply bind_ok in H as (amount & Hd%or_throw_ok & H). apply bind_ok in H as (? & _ & H).
  apply bind_ok in H as (t & Ht & H). apply bind_ok in H as (s & Hto & H). injection H as <-.
  apply bool_decide_eq_false in Hst. by eapply take_out_solvent.
Qed.

Lemma refund_deposit_solvent iv admin l p w w' : solvent w → refund_deposit transfer self iv admin l p w = Ok w' → solvent w'.
Proof.
  intros Hs H. unfold refund_deposit in H.
  apply bind_ok in H as (? & _ & H).
  apply bind_ok in H as (L & HL%or_throw_ok & H). apply bind_ok in H as (? & Hst%throw_if_ok & H).
  apply bind_ok in H as (amount & Hd%or_throw_ok & H). apply bind_ok in H as (? & _ & H).
  apply bind_ok in H as (t & Ht & H). apply bind_ok in H as (s & Hto & H). injection H as <-.
  apply bool_decide_eq_false in Hst. by eapply take_out_solvent.
Qed.

Lemma claim_refund_solvent iv p l w w' : solvent w → claim_refund transfer self iv p l w = Ok w' → solvent w'.
Proof.
  intros (due & B & Hs) H. unfold claim_refund in H.
  apply bind_ok in H as (? & _ & H).
  apply bind_ok in H as (L & HL%or_throw_ok & H). apply bind_ok in H as (? & Hst%throw_if_ok & H).
  apply bind_ok in H as (amount & Hd%or_throw_ok & H). apply bind_ok in H as (? & _ & H).
  apply bind_ok in H as (t & Ht & H). apply bind_ok in H as (? & ->%i128_ok & H). injection H as <-.
  apply negb_false_iff, bool_decide_eq_true in Hst.
  eapply (payback_solvent due w.1); try done; [by rewrite Hst|by right].
Qed.

Lemma cancel_solvent iv caller l w w' : solvent w → cancel_league (T := T) iv caller l w = Ok w' → solvent w'.
Proof.
  intros (due & B & Hs) H. unfold cancel_league in H.
  apply bind_ok in H as (? & _ & H).
  apply bind_ok in H as (L & HL%or_throw_ok & H). apply bind_ok in H as (? & Hst%throw_if_ok & H).
  apply bind_ok in H as (? & _ & H). apply bind_ok in H as (? & _ & H). injection H as <-.
  apply bool_decide_eq_false in Hst.
  eapply (solvent_deposits due w.1 _ w.2 w.2 l L); try done; cbn.
  - intros k v Hk. split; [by apply (bk_deposit _ _ B) in Hk as []|by left].
  - intros a. case_bool_decide; lia.
Qed.

(** The loop of a refund only takes deposits of the league, and pays what it takes. *)
Lemma refund_loop asset l ps : ∀ w w', mfoldl (refund_one asset l) w ps = Ok w' →
  (∀ k v, es_deposits w.1 !! k = Some v → 0 ≤ v) →
  ∃ D, w'.1 = put_deposits D w.1 ∧ (∀ k v, D !! k = Some v → es_deposits w.1 !! k = Some v) ∧
    (∀ l', l' ≠ l → held l' D = held l' (es_deposits w.1)) ∧
    ∀ a, balance w.2 a self + (if bool_decide (asset = a) then held l D - held l (es_deposits w.1) else 0) ≤ balance w'.2 a self.
Proof.
  induction ps as [|p ps IH]; intros w w' H Hpos; cbn [mfoldl] in H.
  - injection H as <-. exists (es_deposits w.1). split_and!; [by destruct w as [[] ?]|done|done|]. intros a. case_bool_decide; lia.
  - apply bind_ok in H as (w1 & H1 & H2). unfold Escrow.refund_one in H1. destruct (es_deposits w.1 !! (l, p)) as [v|] eqn:Hd.
    + apply bind_ok in H1 as (t & Ht & H1). injection H1 as <-.
      destruct (IH _ _ H2) as (D & E & HD & Hh & Hb); [cbn; intros k v' [_ Hk]%lookup_delete_Some; by eapply Hpos|]. cbn in E, HD, Hh, Hb.
      exists D. split_and!; [by rewrite E| | |].
      * intros k v' Hk. by apply HD, lookup_delete_Some in Hk as [].
      * intros l' Hne. rewrite Hh by done. by apply held_other_delete.
      * intros a. specialize (Hb a). rewrite (held_own_delete l p v) in Hb by done. specialize (Hpos _ _ Hd).
        destruct (Z.ltb_spec 0 v).
        -- apply paid_out in Ht as [_ Ht]. specialize (Ht a). case_bool_decide; lia.
        -- injection Ht as <-. case_bool_decide; lia.
    + injection H1 as <-. by apply IH.
Qed.

Lemma refund_solvent iv admin l ps w w' : solvent w → refund transfer self iv admin l ps w = Ok w' → solvent w'.
Proof.
  intros (due & B & Hs) H. unfold refund in H.
  apply bind_ok in H as (? & _ & H).
  apply bind_ok in H as (L & HL%or_throw_ok & H). apply bind_ok in H as (? & Hst%throw_if_ok & H).
  apply bind_ok in H as ([s t] & Hloop & H). injection H as <-. apply bool_decide_eq_false in Hst.
  apply refund_loop in Hloop as (D & E & HD & Hh & Hb); [|intros k v Hk; by apply (bk_deposit _ _ B) in Hk as []]. cbn in E, Hb. subst s.
  eapply (solvent_deposits due w.1 _ w.2 t l L); try done; cbn.
  intros k v Hk%HD. split; [by apply (bk_deposit _ _ B) in Hk as []|by left].
Qed.

(** ** Lemmas: the calls that settle a league *)

Definition prizes (winners : list WinnerPayout) : Z := sum_of wp_amount winners.

Lemma add_winners_ok expected tied uses ws : ∀ i total total',
  mfoldl (add_winner expected tied uses) total (imap (λ j x, ((i + j)%nat, x)) ws) = Ok total' →
  total' = total + prizes ws ∧ ∀ x, x ∈ ws → 0 ≤ wp_amount x.
Proof.
  induction ws as [|x ws IH]; intros i total total' H.
  - injection H as <-. split; [unfold prizes, sum_of; cbn; lia|by intros y ?%elem_of_nil].
  - cbn [imap mfoldl] in H. apply bind_ok in H as (total1 & H1 & H2).
    unfold add_winner in H1. apply bind_ok in H1 as (? & Hneg%throw_if_ok & H1). apply bind_ok in H1 as (? & _ & H1).
    apply bind_ok in H1 as (? & _ & H1). apply bind_ok in H1 as (? & _ & ->%i128_ok).
    assert (imap ((λ j y, ((i + j)%nat, y)) ∘ S) ws = imap (λ j y, ((S i + j)%nat, y)) ws) as E
      by (apply imap_ext; intros j y _; cbn; f_equal; lia).
    rewrite E in H2. apply IH in H2 as [-> Hpos]. unfold prizes. rewrite sum_of_cons. split; [lia|].
    intros y [->|Hy]%elem_of_cons; [by apply Z.ltb_ge|by apply Hpos].
Qed.

Lemma check_winners_ok league args : check_winners league args = Ok () →
  prizes (sa_winners args) = el_total_deposited league - sa_platform_fee args ∧ ∀ x, x ∈ sa_winners args → 0 ≤ wp_amount x.
Proof.
  unfold check_winners. intros (pool & _ & H)%bind_ok. apply bind_ok in H as ([expected tied] & _ & H).
  apply bind_ok in H as (total & Hw & Ht%throw_if_ok). apply negb_false_iff, Z.eqb_eq in Ht.
  apply (add_winners_ok expected tied _ _ 0) in Hw as [-> Hpos]. split; [lia|done].
Qed.

Lemma check_fees_ok league args : check_fees league args = Ok () → 0 ≤ sa_affiliate_cut args ≤ sa_platform_fee args.
Proof.
  unfold check_fees. intros (x & _ & H)%bind_ok. apply bind_ok in H as (? & _ & H). apply bind_ok in H as (? & H1%throw_if_ok & H).
  apply bind_ok in H as (? & H2%throw_if_ok & _). apply Z.ltb_ge in H1, H2. lia.
Qed.

Lemma pay_fees_ok league args t t' : 0 ≤ sa_affiliate_cut args ≤ sa_platform_fee args → pay_fees transfer self league args t = Ok t' →
  ∀ a, balance t a self - (if bool_decide (el_asset league = a) then sa_platform_fee args else 0) ≤ balance t' a self.
Proof.
  intros Hc H a. unfold pay_fees in H. apply bind_ok in H as (t1 & H1 & H2).
  assert (balance t a self - (if bool_decide (el_asset league = a) then sa_platform_fee args - sa_affiliate_cut args else 0) ≤ balance t1 a self) as E1.
  { destruct (Z.ltb_spec 0 (sa_platform_fee args - sa_affiliate_cut args)); [by apply paid_out in H1 as [_ ?]|].
    injection H1 as <-. case_bool_decide; lia. }
  assert (balance t1 a self - (if bool_decide (el_asset league = a) then sa_affiliate_cut args else 0) ≤ balance t' a self) as E2.
  { destruct (sa_affiliate args) as [affiliate|]; [|injection H2 as <-; case_bool_decide; lia].
    destruct (Z.ltb_spec 0 (sa_affiliate_cut args)); [by apply paid_out in H2 as [_ ?]|]. injection H2 as <-. case_bool_decide; lia. }
  case_bool_decide; lia.
Qed.

Lemma write_claimable_ok l ws : ∀ m, (∀ k v, m !! k = Some v → 0 < v) → (∀ x, x ∈ ws → 0 ≤ wp_amount x) →
  (∀ k v, write_claimable l ws m !! k = Some v → 0 < v ∧ (m !! k = Some v ∨ k.1 = l)) ∧
  (∀ l', l' ≠ l → held l' (write_claimable l ws m) = held l' m) ∧ held l (write_claimable l ws m) ≤ held l m + prizes ws.
Proof.
  induction ws as [|x ws IH]; intros m Hm Hpos.
  - cbn. split_and!; [eauto|done|]. unfold prizes, sum_of. cbn. lia.
  - unfold write_claimable. cbn [foldl]. fold (write_claimable l ws).
    set (m1 := if 0 <? wp_amount x then <[(l, wp_winner x) := wp_amount x]> m else m).
    assert (∀ k v, m1 !! k = Some v → 0 < v ∧ (m !! k = Some v ∨ k.1 = l)) as H1.
    { intros k v Hk. unfold m1 in Hk. destruct (Z.ltb_spec 0 (wp_amount x)); [|eauto].
      destruct (decide (k = (l, wp_winner x))) as [->|Hne]; [rewrite lookup_insert_eq in Hk; injection Hk as <-; by split; [|right]|].
      rewrite lookup_insert_ne in Hk by done. eauto. }
    destruct (IH m1) as (I1 & I2 & I3); [intros k v Hk; by apply H1 in Hk as []|intros y Hy; apply Hpos; by right|].
    split_and!.
    + intros k v Hk. destruct (I1 k v Hk) as [Hv [Hk'|]]; (split; [done|]); [|by right]. by apply H1 in Hk' as [].
    + intros l' Hne. rewrite I2 by done. unfold m1. destruct (0 <? wp_amount x); [|done]. by apply held_elsewhere.
    + etrans; [exact I3|]. unfold prizes. rewrite sum_of_cons. fold (prizes ws). unfold m1.
      destruct (Z.ltb_spec 0 (wp_amount x)); [|specialize (Hpos x (list_elem_of_here _ _)); lia].
      destruct (m !! (l, wp_winner x)) as [v|] eqn:E.
      * rewrite (held_insert l (l, wp_winner x) v) by done. cbn. rewrite Z.eqb_refl. specialize (Hm _ _ E). lia.
      * rewrite held_insert_new by done. cbn. rewrite Z.eqb_refl. lia.
Qed.

(** What is owed and booked of a league before it is final. *)
Lemma open_league due s l L : books due s → es_leagues s !! l = Some L → is_final (el_status L) = false →
  league_owes due s l L = el_total_deposited L ∧ es_roots s !! l = None ∧ due l = 0 ∧
  (∀ p, es_claimable s !! (l, p) = None) ∧ (∀ p, (l, p) ∉ es_claimed s).
Proof.
  intros B HL Hf. assert (el_status L ≠ Settled) as Hst by (intros E; by rewrite E in Hf).
  assert (es_roots s !! l = None) as Hr.
  { apply eq_None_not_Some. intros [root Hr]. apply (bk_root _ _ B) in Hr as (M & HM & ?). congruence. }
  split_and!; [|done| | |].
  - rewrite owes_open by done. symmetry. by apply (bk_total _ _ B).
  - pose proof (bk_due _ _ B l) as H. unfold merkle_due in H. by rewrite Hr in H.
  - intros p. apply eq_None_not_Some. intros [v Hv]. apply (bk_claimable _ _ B) in Hv as (_ & M & HM & ?). cbn in HM. congruence.
  - intros p Hp. apply (bk_claimed _ _ B) in Hp as [? ?]. congruence.
Qed.

(** A league becomes settled; its prizes become claimable or due under a root. *)
Lemma solvent_settled due due' s s' t t' l L :
  books due s → (∀ a, liabilities due s a ≤ balance t a self) →
  es_leagues s !! l = Some L → is_final (el_status L) = false →
  es_leagues s' = <[l:=with_status Settled L]> (es_leagues s) → es_deposits s' = es_deposits s → es_claimed s' = es_claimed s →
  (∀ k v, es_claimable s' !! k = Some v → 0 < v ∧ (es_claimable s !! k = Some v ∨ k.1 = l)) →
  (∀ l', l' ≠ l → held l' (es_claimable s') = held l' (es_claimable s)) →
  (∀ l', l' ≠ l → es_roots s' !! l' = es_roots s !! l' ∧ due' l' = due l') → merkle_due s' l (due' l) →
  (∀ a, balance t a self - (if bool_decide (el_asset L = a) then el_total_deposited L - (held l (es_claimable s') + due' l) else 0) ≤ balance t' a self) →
  solvent (s', t').
Proof.
  intros B Hs HL Hf EL Ed Ecl Hc Hh Hr Hdue Hb. destruct (open_league due s l L B HL Hf) as (Howes & Hroot & Hd0 & _ & Hncl).
  destruct B as [B1 B2 B3 B4 B5 B6 B7]. exists due'. cbn [fst snd].
  assert (∀ l1 M, es_leagues s !! l1 = Some M → ∃ M', es_leagues s' !! l1 = Some M' ∧ (l1 = l ∨ el_status M = Settled → el_status M' = Settled)) as Hkeep.
  { intros l1 M HM. rewrite EL. destruct (decide (l1 = l)) as [->|Hne].
    - rewrite lookup_insert_eq. by eexists.
    - rewrite lookup_insert_ne by done. exists M. split; [done|]. by intros [?|?]. }
  split; [constructor|].
  - intros l1 M HM Hfin. rewrite EL in HM. destruct (decide (l1 = l)) as [->|Hne].
    + rewrite lookup_insert_eq in HM. by injection HM as <-.
    + rewrite lookup_insert_ne in HM by done. rewrite Ed. by apply B1.
  - intros l1 M HM. rewrite EL in HM. destruct (decide (l1 = l)) as [->|Hne].
    + rewrite lookup_insert_eq in HM. injection HM as <-. by apply (B2 l L).
    + rewrite lookup_insert_ne in HM by done. by eapply B2.
  - intros k v. rewrite Ed. intros Hk. destruct (B3 k v Hk) as [Hv [M HM]]. split; [done|]. destruct (Hkeep _ _ HM) as (M' & -> & _). by eexists.
  - intros k v Hk. destruct (Hc k v Hk) as [Hv [Hk'|E]]; (split; [done|]).
    + destruct (B4 k v Hk') as (_ & M & HM & Hsm). destruct (Hkeep _ _ HM) as (M' & HM' & Hm). eauto.
    + rewrite E. destruct (Hkeep _ _ HL) as (M' & HM' & Hm). eauto.
  - intros l1 root Hk. destruct (decide (l1 = l)) as [->|Hne].
    + destruct (Hkeep _ _ HL) as (M' & HM' & Hm). eauto.
    + destruct (Hr l1 Hne) as [E _]. rewrite E in Hk. destruct (B5 _ _ Hk) as (M & HM & Hsm). destruct (Hkeep _ _ HM) as (M' & HM' & Hm). eauto.
  - intros l1 p. rewrite Ecl. intros Hp. destruct (decide (l1 = l)) as [->|Hne]; [by apply Hncl in Hp|]. destruct (Hr l1 Hne) as [-> _]. by eapply B6.
  - intros l1. destruct (decide (l1 = l)) as [->|Hne]; [done|]. destruct (Hr l1 Hne) as [E1 ->]. specialize (B7 l1). unfold merkle_due in *.
    by rewrite E1, Ecl.
  - apply (solvent_update due due' s s' t t' l L (with_status Settled L)); [done..| |].
    + intros l' M Hne. unfold league_owes. destruct (Hr l' Hne) as [_ ->]. by rewrite Ed, Hh.
    + intros a. rewrite Howes, owes_settled by done. specialize (Hb a). destruct (bool_decide (el_asset L = a)); lia.
Qed.

(** The storage that says what is owed is the same. *)
Definition same_money (s s' : Escrow) : Prop :=
  es_leagues s' = es_leagues s ∧ es_deposits s' = es_deposits s ∧ es_claimable s' = es_claimable s ∧
  es_roots s' = es_roots s ∧ es_claimed s' = es_claimed s.

Lemma solvent_same s s' t : same_money s s' → solvent (s, t) → solvent (s', t).
Proof.
  intros (E1 & E2 & E3 & E4 & E5) (due & [B1 B2 B3 B4 B5 B6 B7] & Hs). exists due. cbn in *. split.
  - constructor; rewrite ?E1, ?E2, ?E3, ?E4, ?E5; try done. intros l. by apply (due_same s s').
  - intros a. etrans; [|apply Hs]. apply reflexive_eq. unfold liabilities. rewrite E1. apply sum_map_ext. intros l L _. unfold league_owes. by rewrite E2, E3.
Qed.

(** What a settlement did, in one place. *)
Lemma settle_internal_ok iv l args w w' :
  settle_internal transfer self sha256 address_xdr i128_xdr iv l args w = Ok w' →
  ∃ s L t, same_money w.1 s ∧ es_frozen s = es_frozen w.1 ∧ es_reasons s = es_reasons w.1 ∧ es_leagues w.1 !! l = Some L ∧
    is_final (el_status L) = false ∧ l ∉ es_frozen w.1 ∧
    check_fees L args = Ok () ∧ check_winners L args = Ok () ∧ pay_fees transfer self L args w.2 = Ok t ∧
    w' = (put_leagues (<[l := with_status Settled L]> (es_leagues s)) (put_claimable (write_claimable l (sa_winners args) (es_claimable s)) s), t).
Proof.
  intros H. unfold settle_internal in H. apply bind_ok in H as (? & _ & H). apply bind_ok in H as (? & _ & H).
  apply bind_ok in H as (s & Hs & H). apply bind_ok in H as (? & _ & H). apply bind_ok in H as (L & HL%or_throw_ok & H).
  apply bind_ok in H as (? & Hf%throw_if_ok & H). apply bind_ok in H as (? & Hz%throw_if_ok & H).
  apply bind_ok in H as ([] & Hcf & H). apply bind_ok in H as ([] & Hcw & H). apply bind_ok in H as (t & Hp & H). injection H as <-.
  assert (same_money w.1 s ∧ es_frozen s = es_frozen w.1 ∧ es_reasons s = es_reasons w.1) as (Hm & Efr & Ere).
  { destruct (sa_settlement_hash args) as [h|]; [|by injection Hs as <-]. by apply bind_ok in Hs as (? & _ & [= <-]). }
  exists s, L, t. split_and!; try done.
  - destruct Hm as (E & _). by rewrite <- E.
  - unfold is_league_frozen in Hz. apply bool_decide_eq_false in Hz. by rewrite <- Efr.
Qed.

Lemma settle_solvent iv l args w w' : solvent w →
  settle_internal transfer self sha256 address_xdr i128_xdr iv l args w = Ok w' → solvent w'.
Proof.
  intros (due & B & Hs) (s & L & t & (E1 & E2 & E3 & E4 & E5) & _ & _ & HL & Hf & _ & Hcf%check_fees_ok & [Hsum Hpos]%check_winners_ok & Hp & ->)%settle_internal_ok.
  destruct (open_league due w.1 l L B HL Hf) as (_ & Hroot & Hd0 & Hncl & _).
  destruct (write_claimable_ok l (sa_winners args) (es_claimable s)) as (W1 & W2 & W3); [|done|].
  { rewrite E3. intros k v Hk. by apply (bk_claimable _ _ B) in Hk as []. }
  apply (solvent_settled due due w.1 _ w.2 t l L); try done; cbn; rewrite <- ?E1, <- ?E3 in *; try done.
  - intros l' Hne. by rewrite E4.
  - unfold merkle_due. cbn. by rewrite E4, Hroot.
  - intros a. rewrite Hd0. pose proof (pay_fees_ok L args w.2 t Hcf Hp a) as Hb.
    rewrite (held_none l (es_claimable s)) in W3 by done. destruct (bool_decide (el_asset L = a)); lia.
Qed.

Lemma settle_merkle_solvent iv admin l root pool treasury fee w w' : root_covers root l pool → solvent w →
  settle_with_merkle_root transfer self iv admin l root pool treasury fee w = Ok w' → solvent w'.
Proof.
  intros Hcov (due & B & Hs) H. unfold settle_with_merkle_root in H.
  apply bind_ok in H as (? & _ & H). apply bind_ok in H as (? & _ & H). apply bind_ok in H as (? & _ & H).
  apply bind_ok in H as (L & HL%or_throw_ok & H). apply bind_ok in H as (? & Hf%throw_if_ok & H).
  apply bind_ok in H as (? & _ & H). apply bind_ok in H as (? & Hfee%throw_if_ok & H). apply bind_ok in H as (? & _ & H).
  apply bind_ok in H as (? & ->%i128_ok & H). apply bind_ok in H as (? & Htot%throw_if_ok & H).
  apply bind_ok in H as (t & Ht & H). injection H as <-.
  apply orb_false_iff in Hfee as [_ Hfee%Z.ltb_ge]. apply negb_false_iff, Z.eqb_eq in Htot.
  destruct (open_league due w.1 l L B HL Hf) as (_ & Hroot & Hd0 & Hncl & Hncm).
  apply (solvent_settled due (λ l', if decide (l' = l) then pool else due l') w.1 _ w.2 t l L); try done; cbn.
  - intros k v Hk. split; [by apply (bk_claimable _ _ B) in Hk as []|by left].
  - intros l' Hne. rewrite lookup_insert_ne by done. by rewrite decide_False.
  - unfold merkle_due. cbn. rewrite lookup_insert_eq, decide_True by done. exists pool, []. split_and!; [done| | |].
    + split; [constructor|]. by intros c ?%elem_of_nil.
    + intros p. split; [by intros ?%elem_of_nil|by intros ?%Hncm].
    + unfold sum_of. cbn. lia.
  - intros a. rewrite decide_True, (held_none l) by done.
    destruct (Z.ltb_spec 0 fee).
    + apply paid_out in Ht as [_ Ht]. specialize (Ht a). destruct (bool_decide (el_asset L = a)); lia.
    + injection Ht as <-. destruct (bool_decide (el_asset L = a)); lia.
Qed.

(** ** Lemmas: claims *)

Lemma claim_prize_solvent iv p l w w' : solvent w → claim_prize transfer self iv p l w = Ok w' → solvent w'.
Proof.
  intros (due & B & Hs) H. unfold claim_prize in H. apply bind_ok in H as (? & _ & H). apply bind_ok in H as (? & _ & H).
  apply bind_ok in H as (? & _ & H). apply bind_ok in H as (amount & Hc%or_throw_ok & H). apply bind_ok in H as (L & HL%or_throw_ok & H).
  apply bind_ok in H as (t & Ht & H). injection H as <-.
  destruct (bk_claimable _ _ B _ _ Hc) as (Hv & M & HM & Hst). cbn in HM. assert (M = L) as -> by congruence.
  exists due. cbn [fst snd]. split.
  - destruct B as [B1 B2 B3 B4 B5 B6 B7]. constructor; try done. cbn. intros k v [_ Hk]%lookup_delete_Some. by apply B4.
  - apply (solvent_update due due w.1 _ w.2 t l L L); try done; cbn.
    + by rewrite insert_id.
    + intros l' M' Hne. unfold league_owes. cbn. by rewrite held_other_delete.
    + intros a. rewrite !owes_settled by done. cbn. rewrite (held_own_delete l p amount) by done. apply paid_out in Ht as [_ Ht]. specialize (Ht a).
      destruct (bool_decide (el_asset L = a)); lia.
Qed.

Lemma claim_merkle_solvent iv l p amount proof w w' : solvent w →
  claim_prize_merkle transfer self sha256 claim_xdr iv l p amount proof w = Ok w' → solvent w'.
Proof.
  intros (due & B & Hs) H. unfold claim_prize_merkle in H. apply bind_ok in H as (? & _ & H). apply bind_ok in H as (? & Hpos%throw_if_ok & H).
  apply bind_ok in H as (? & _ & H). apply bind_ok in H as (L & HL%or_throw_ok & H). apply bind_ok in H as (? & Hst%throw_if_ok & H).
  apply bind_ok in H as (? & Hnew%throw_if_ok & H). apply bind_ok in H as (root & Hr%or_throw_ok & H). apply bind_ok in H as (? & Hacc%throw_if_ok & H).
  apply bind_ok in H as (t & Ht & H). injection H as <-.
  apply Z.leb_gt in Hpos. apply negb_false_iff in Hst, Hacc. apply bool_decide_eq_true in Hst. apply bool_decide_eq_false in Hnew.
  pose proof (bk_due _ _ B l) as Hd. unfold merkle_due in Hd. rewrite Hr in Hd. destruct Hd as (pool & paid & Hcov & [Hn Hpay] & Hcl & Ed).
  exists (λ l', if decide (l' = l) then due l - amount else due l'). cbn [fst snd]. split.
  - destruct B as [B1 B2 B3 B4 B5 B6 B7]. constructor; try done; cbn.
    + intros l1 q [E|Hq]%elem_of_union; [|by eapply B6]. apply elem_of_singleton in E as [= -> ->]. by eexists.
    + intros l1. unfold merkle_due. cbn. destruct (decide (l1 = l)) as [->|Hne].
      * rewrite Hr. exists pool, ((p, amount, proof) :: paid). split_and!; [done| | |].
        -- split.
           ++ cbn. apply NoDup_cons. split; [|done]. by rewrite Hcl.
           ++ intros c [->|Hc]%elem_of_cons; [done|by apply Hpay].
        -- intros q. cbn [fmap list_fmap]. rewrite elem_of_cons, Hcl, elem_of_union, elem_of_singleton. cbn. split; [intros [->|?]; auto|].
           intros [[= ->]|?]; auto.
        -- rewrite sum_of_cons. cbn. lia.
      * specialize (B7 l1). unfold merkle_due in B7. destruct (es_roots w.1 !! l1) as [r|]; [|done].
        destruct B7 as (pool' & paid' & H1 & H2 & H3 & H4). exists pool', paid'. split_and!; [done|done| |done].
        intros q. rewrite H3, elem_of_union, elem_of_singleton. split; [by right|]. intros [[= ? ?]|?]; [congruence|done].
  - apply (solvent_update due _ w.1 _ w.2 t l L L); try done; cbn.
    + by rewrite insert_id.
    + intros l' M' Hne. unfold league_owes. cbn. by rewrite decide_False.
    + intros a. rewrite !owes_settled by done. cbn. rewrite decide_True by done. apply paid_out in Ht as [_ Ht]. specialize (Ht a).
      destruct (bool_decide (el_asset L = a)); lia.
Qed.

Lemma create_solvent iv creator l fee asset w w' : solvent w → create_league (T := T) iv creator l fee asset w = Ok w' → solvent w'.
Proof.
  intros (due & B & Hs) H. unfold create_league in H. apply bind_ok in H as (? & _ & H). apply bind_ok in H as (? & Hfee%throw_if_ok & H).
  apply bind_ok in H as (? & Hnew%throw_if_ok & H). injection H as <-. apply Z.ltb_ge in Hfee.
  apply bool_decide_eq_false, eq_None_not_Some in Hnew.
  assert (∀ p, es_deposits w.1 !! (l, p) = None) as Hnd.
  { intros p. apply eq_None_not_Some. intros [v Hv]. apply (bk_deposit _ _ B) in Hv as [_ [M HM]]. cbn in HM. congruence. }
  destruct B as [B1 B2 B3 B4 B5 B6 B7].
  assert (∀ l1 M, es_leagues w.1 !! l1 = Some M → l1 ≠ l) as Hne by (intros l1 M HM ->; congruence).
  exists due. cbn [fst snd]. split; [constructor; try done; cbn|].
  - intros l1 M HM Hf. destruct (decide (l1 = l)) as [->|Hd]; [|rewrite lookup_insert_ne in HM by done; by apply B1].
    rewrite lookup_insert_eq in HM. injection HM as <-. cbn. by rewrite held_none.
  - intros l1 M HM. destruct (decide (l1 = l)) as [->|Hd]; [|rewrite lookup_insert_ne in HM by done; by eapply B2].
    rewrite lookup_insert_eq in HM. by injection HM as <-.
  - intros k v Hk. destruct (B3 k v Hk) as [Hv [M HM]]. split; [done|]. rewrite lookup_insert_ne by (apply not_eq_sym; by eapply Hne). by eexists.
  - intros k v Hk. destruct (B4 k v Hk) as (Hv & M & HM & Hm). split; [done|]. exists M. by rewrite lookup_insert_ne by (apply not_eq_sym; by eapply Hne).
  - intros l1 root Hk. destruct (B5 l1 root Hk) as (M & HM & Hm). exists M. by rewrite lookup_insert_ne by (apply not_eq_sym; by eapply Hne).
  - intros a. unfold liabilities. cbn. rewrite sum_map_insert_new by done. rewrite owes_open by done. cbn. rewrite held_none by done.
    specialize (Hs a). unfold liabilities in Hs. case_bool_decide; exact Hs.
Qed.

Lemma same_money_refl s : same_money s s.
Proof. done. Qed.

Lemma thaw_same l s : same_money s (thaw l s).
Proof. done. Qed.

(** The calls that leave what is owed alone. *)
Lemma quiet_call iv c w w' : run_call transfer self sha256 claim_xdr address_xdr i128_xdr iv c w = Ok w' →
  match c with
  | Initialize _ | InitializeMultisig _ _ | Pause _ | Unpause _ | FreezeLeague _ _ _ | UnfreezeLeague _ _
  | ProposeWithdrawal _ _ _ _ _ | ApproveWithdrawal _ _ => same_money w.1 w'.1 ∧ w'.2 = w.2
  | _ => True
  end.
Proof.
  destruct c; try done; cbn [run_call]; intros H;
    unfold initialize, initialize_multisig, pause, unpause, freeze_league, unfreeze_league, propose_fee_withdrawal, approve_fee_withdrawal in H;
    repeat (apply bind_ok in H as (? & _ & H)); try (destruct (is_league_frozen _ _)); injection H as <-; done.
Qed.

(** A call the invariant covers: not the withdrawal of fees, not authorised by
    the contract itself, and no root that promises more than the pool. *)
Definition sound_call (iv : Invocation) (c : Call) : Prop :=
  self ∉ iv_auth iv ∧
  match c with
  | SettleMerkle _ l root pool _ _ => root_covers root l pool
  | ExecuteWithdrawal _ _ => False
  | _ => True
  end.

Lemma call_solvent iv c w w' : sound_call iv c → solvent w →
  run_call transfer self sha256 claim_xdr address_xdr i128_xdr iv c w = Ok w' → solvent w'.
Proof.
  intros [Hself Hc] Hs H. pose proof (quiet_call iv c w w' H) as Q. destruct c; cbn [run_call] in H;
    try (destruct w, w', Q as [Q E]; cbn in Q, E; subst; by eapply solvent_same).
  - by eapply create_solvent.
  - by eapply deposit_solvent.
  - by eapply settle_solvent.
  - by eapply settle_merkle_solvent.
  - by eapply claim_prize_solvent.
  - by eapply claim_merkle_solvent.
  - by eapply emergency_solvent.
  - by eapply refund_deposit_solvent.
  - by eapply refund_solvent.
  - by eapply cancel_solvent.
  - by eapply claim_refund_solvent.
  - apply bind_ok in H as (? & _ & H). destruct w as [s t].
    exact (settle_solvent _ _ _ _ _ (solvent_same s _ t (thaw_same league_id s) Hs) H).
  - apply bind_ok in H as (? & _ & H). destruct w as [s t].
    exact (refund_solvent _ _ _ _ _ _ (solvent_same s _ t (thaw_same league_id s) Hs) H).
  - by destruct Hc.
Qed.

(** The states the calls lead to. *)
Inductive reached (t0 : T) : Escrow * T → Prop :=
| reached_start : reached t0 (empty_escrow, t0)
| reached_call iv c w w' : reached t0 w → sound_call iv c →
    run_call transfer self sha256 claim_xdr address_xdr i128_xdr iv c w = Ok w' → reached t0 w'.

Lemma empty_solvent t : (∀ a, 0 ≤ balance t a self) → solvent (empty_escrow, t).
Proof.
  intros Hb. exists (λ _, 0). cbn. split; [|intros a; unfold liabilities; cbn; by rewrite sum_map_empty].
  constructor; cbn; try (intros * H; by rewrite lookup_empty in H).
  - intros l p H. by apply elem_of_empty in H.
  - intros l. unfold merkle_due. cbn. by rewrite lookup_empty.
Qed.

Lemma reached_solvent t0 w : (∀ a, 0 ≤ balance t0 a self) → reached t0 w → solvent w.
Proof. intros Hb. induction 1; [by apply empty_solvent|by eapply call_solvent]. Qed.

(** ** Lemmas: each debt is covered *)

Lemma sum_map_ge {K V} `{Countable K} (f : K → V → Z) (m : gmap K V) k v :
  (∀ k v, m !! k = Some v → 0 ≤ f k v) → m !! k = Some v → f k v ≤ sum_map f m.
Proof.
  intros Hf Hk. rewrite (sum_map_delete f m k v Hk). assert (0 ≤ sum_map f (delete k m)); [|lia].
  apply sum_map_nonneg. intros k' v' [_ H']%lookup_delete_Some. by apply Hf.
Qed.

Lemma held_ge l p v m : (∀ k v, m !! k = Some v → 0 ≤ v) → m !! (l, p) = Some v → v ≤ held l m.
Proof.
  intros Hm Hk. pose proof (sum_map_ge (λ k v, if k.1 =? l then v else 0) m (l, p) v) as H. cbn in H. rewrite Z.eqb_refl in H. apply H; [|done].
  intros k' v' H'. destruct (k'.1 =? l); [by eapply Hm|lia].
Qed.

Lemma due_nonneg s l d : merkle_due s l d → 0 ≤ d.
Proof.
  unfold merkle_due. destruct (es_roots s !! l); [|by intros ->]. intros (pool & paid & Hc & Hp & _ & ->). specialize (Hc paid Hp). lia.
Qed.

Lemma owes_nonneg due s l L : books due s → 0 ≤ league_owes due s l L.
Proof.
  intros B. unfold league_owes. pose proof (due_nonneg _ _ _ (bk_due _ _ B l)). case_bool_decide.
  - pose proof (held_nonneg l (es_claimable s)) as Hh. assert (0 ≤ held l (es_claimable s)); [|lia].
    apply Hh. intros k v Hk. apply (bk_claimable _ _ B) in Hk as []. lia.
  - apply held_nonneg. intros k v Hk. by apply (bk_deposit _ _ B) in Hk as [].
Qed.

Lemma owes_covered due s t l L : books due s → (∀ a, liabilities due s a ≤ balance t a self) → es_leagues s !! l = Some L →
  league_owes due s l L ≤ balance t (el_asset L) self.
Proof.
  intros B Hs HL. etrans; [|apply Hs]. unfold liabilities.
  pose proof (sum_map_ge (λ l league, if bool_decide (el_asset league = el_asset L) then league_owes due s l league else 0) (es_leagues s) l L) as H.
  cbn in H. rewrite bool_decide_eq_true_2 in H by done. apply H; [|done]. intros k M _. case_bool_decide; [by apply owes_nonneg|lia].
Qed.

(** ** Lemmas: what a call leaves of a league it is not about *)

Definition call_league (c : Call) : option Z :=
  match c with
  | CreateLeague _ l _ _ | DepositFee _ l | Settle l _ | SettleMerkle _ l _ _ _ _ | ClaimPrize _ l | ClaimPrizeMerkle l _ _ _
  | EmergencyRefund _ l | RefundDeposit _ l _ | Refund _ l _ | CancelLeague _ l | ClaimRefund _ l | FreezeLeague _ l _
  | UnfreezeLeague _ l | ResolvePayout _ l _ _ _ | ResolveRefund _ l _ => Some l
  | _ => None
  end.

(** Prizes, root and claims of a league are the same. *)
Definition same_prizes (l : Z) (s s' : Escrow) : Prop :=
  (∀ p, es_claimable s' !! (l, p) = es_claimable s !! (l, p)) ∧ es_roots s' !! l = es_roots s !! l ∧
  (∀ p, (l, p) ∈ es_claimed s' ↔ (l, p) ∈ es_claimed s).

Definition same_deposits (l : Z) (s s' : Escrow) : Prop := ∀ p, es_deposits s' !! (l, p) = es_deposits s !! (l, p).

Definition same_league (l : Z) (s s' : Escrow) : Prop :=
  es_leagues s' !! l = es_leagues s !! l ∧ same_deposits l s s' ∧ same_prizes l s s' ∧ (l ∈ es_frozen s' ↔ l ∈ es_frozen s).

Lemma write_claimable_other l l' ws p : l' ≠ l → ∀ m, write_claimable l ws m !! (l', p) = m !! (l', p).
Proof.
  intros Hne. induction ws as [|x ws IH]; intros m; [done|]. 
  change (write_claimable l (x :: ws) m) with (write_claimable l ws (if 0 <? wp_amount x then <[(l, wp_winner x) := wp_amount x]> m else m)).
  rewrite IH. destruct (0 <? wp_amount x); [|done]. by rewrite lookup_insert_ne by congruence.
Qed.

Lemma refund_loop_same asset l ps : ∀ w w', mfoldl (refund_one asset l) w ps = Ok w' →
  ∃ D, w'.1 = put_deposits D w.1 ∧ ∀ l' p, l' ≠ l → D !! (l', p) = es_deposits w.1 !! (l', p).
Proof.
  induction ps as [|p ps IH]; intros w w' H; cbn [mfoldl] in H; [injection H as <-; exists (es_deposits w.1); by destruct w as [[] ?]|].
  apply bind_ok in H as (w1 & H1 & H2). unfold Escrow.refund_one in H1. destruct (es_deposits w.1 !! (l, p)) as [v|] eqn:Hd; [|injection H1 as <-; by apply IH].
  apply bind_ok in H1 as (t & _ & H1). injection H1 as <-. destruct (IH _ _ H2) as (D & E & HD). cbn in E, HD.
  exists D. split; [by rewrite E|]. intros l' p' Hne. rewrite HD by done. by rewrite lookup_delete_ne by congruence.
Qed.

Lemma settle_elsewhere iv l' l args w w' : l ≠ l' → settle_internal transfer self sha256 address_xdr i128_xdr iv l' args w = Ok w' →
  same_league l w.1 w'.1.
Proof.
  intros Hne (s & L & t & (E1 & E2 & E3 & E4 & E5) & Ef & _ & _ & _ & _ & _ & _ & _ & ->)%settle_internal_ok.
  split_and!; cbn.
  - rewrite lookup_insert_ne by done. by rewrite E1.
  - intros p. cbn. by rewrite E2.
  - split_and!; cbn; [|by rewrite E4|intros p; by rewrite E5]. intros p. rewrite write_claimable_other by done. by rewrite E3.
  - by rewrite Ef.
Qed.

Lemma refund_elsewhere iv admin l' l ps w w' : l ≠ l' → refund transfer self iv admin l' ps w = Ok w' → same_league l w.1 w'.1.
Proof.
  intros Hne H. unfold refund in H. apply bind_ok in H as (? & _ & H). apply bind_ok in H as (L & _ & H). apply bind_ok in H as (? & _ & H).
  apply bind_ok in H as ([s t] & Hloop & H). injection H as <-. apply refund_loop_same in Hloop as (D & E & HD). cbn in E. subst s.
  split_and!; cbn; [by rewrite lookup_insert_ne|intros p; by apply HD|done|done].
Qed.

Lemma call_elsewhere iv c w w' l : call_league c ≠ Some l →
  run_call transfer self sha256 claim_xdr address_xdr i128_xdr iv c w = Ok w' → same_league l w.1 w'.1.
Proof.
  clear dependent balance. intros Hne H. destruct c as [| | | | | |l' args| | | | | |admin l' ps| | | | |admin l' ws treasury fee|admin l' ps| | |]; cbn [run_call call_league] in *;
    try (unfold initialize, initialize_multisig, pause, unpause, create_league, Escrow.deposit, settle_with_merkle_root, claim_prize,
           claim_prize_merkle, emergency_refund_league, refund_deposit, take_out, cancel_league, claim_refund, freeze_league, unfreeze_league,
           propose_fee_withdrawal, approve_fee_withdrawal, execute_fee_withdrawal in H;
         repeat (apply bind_ok in H as (? & ? & H)); try (destruct (is_league_frozen _ _)); injection H as <-;
         repeat match goal with X : rbind _ _ = Ok _ |- _ => apply bind_ok in X as (? & ? & X) | X : Ok _ = Ok _ |- _ => injection X as <- end;
         split_and!; cbn; rewrite ?lookup_insert_ne by congruence; try done;
         try (intros p; cbn; rewrite ?lookup_insert_ne, ?lookup_delete_ne by congruence; done);
         try (split_and!; cbn; [intros p; cbn; by rewrite ?lookup_delete_ne by congruence|by rewrite ?lookup_insert_ne by congruence|intros p; set_solver]);
         set_solver).
  - eapply settle_elsewhere; [|exact H]. congruence.
  - eapply refund_elsewhere; [|exact H]. congruence.
  - apply bind_ok in H as (? & _ & H). destruct (settle_elsewhere _ l' l _ _ _ ltac:(congruence) H) as (H1 & H2 & H3 & H4). cbn in *.
    split_and!; [done|done|done|]. rewrite H4. set_solver.
  - apply bind_ok in H as (? & _ & H). destruct (refund_elsewhere _ _ l' l _ _ _ ltac:(congruence) H) as (H1 & H2 & H3 & H4). cbn in *.
    split_and!; [done|done|done|]. rewrite H4. set_solver.
Qed.

(** ** Lemmas: a frozen league *)

(** The calls that lift a freeze, and those that move deposits. *)
Definition lifts (l : Z) (c : Call) : Prop :=
  match c with UnfreezeLeague _ l' | ResolveRefund _ l' _ => l' = l | _ => False end.

Definition moves_deposits (l : Z) (c : Call) : Prop :=
  match c with DepositFee _ l' | RefundDeposit _ l' _ | Refund _ l' _ | ClaimRefund _ l' | ResolveRefund _ l' _ => l' = l | _ => False end.

Definition newly_settled (l : Z) (s s' : Escrow) : Prop :=
  (∃ L', es_leagues s' !! l = Some L' ∧ el_status L' = Settled) ∧ ¬ ∃ L, es_leagues s !! l = Some L ∧ el_status L = Settled.

Record frozen_step (l : Z) (c : Call) (s s' : Escrow) : Prop := {
  fs_prizes : same_prizes l s s';
  fs_status : ¬ newly_settled l s s';
  fs_frozen : lifts l c ∨ l ∈ es_frozen s';
  fs_deposits : moves_deposits l c ∨ same_deposits l s s'
}.

Lemma not_settled_new l s s' L' : es_leagues s' !! l = Some L' → el_status L' ≠ Settled → ¬ newly_settled l s s'.
Proof. intros H1 H2 [(M & HM & Hs) _]. congruence. Qed.

Lemma kept_settled l s s' : es_leagues s' !! l = es_leagues s !! l → ¬ newly_settled l s s'.
Proof. intros E [(M & HM & Hs) Hn]. apply Hn. exists M. by rewrite <- E. Qed.

Lemma same_prizes_refl l s s' : es_claimable s' = es_claimable s → es_roots s' = es_roots s → es_claimed s' = es_claimed s → same_prizes l s s'.
Proof. intros E1 E2 E3. split_and!; [intros p; by rewrite E1|by rewrite E2|intros p; by rewrite E3]. Qed.

Lemma refund_effect iv admin l ps w w' : refund transfer self iv admin l ps w = Ok w' →
  same_prizes l w.1 w'.1 ∧ ¬ newly_settled l w.1 w'.1 ∧ es_frozen w'.1 = es_frozen w.1.
Proof.
  intros H. unfold refund in H. apply bind_ok in H as (? & _ & H). apply bind_ok in H as (L & _ & H). apply bind_ok in H as (? & _ & H).
  apply bind_ok in H as ([s t] & Hloop & H). injection H as <-. apply refund_loop_same in Hloop as (D & E & _). cbn in E. subst s.
  split_and!; [by apply same_prizes_refl| |done]. by eapply not_settled_new; [apply lookup_insert_eq|].
Qed.

Lemma frozen_call iv c w w' l : l ∈ es_frozen w.1 →
  run_call transfer self sha256 claim_xdr address_xdr i128_xdr iv c w = Ok w' →
  match c with ResolvePayout _ l' _ _ _ => l' ≠ l | _ => True end → frozen_step l c w.1 w'.1.
Proof.
  clear dependent balance. intros Hf H Hc. destruct (decide (call_league c = Some l)) as [El|Hne].
  2: { destruct (call_elsewhere _ _ _ _ _ Hne H) as (H1 & H2 & H3 & H4). constructor; [done|by apply kept_settled|right; by apply H4|by right]. }
  assert (is_league_frozen w.1 l = true) as Hfb by by apply bool_decide_eq_true.
  destruct c; cbn in El, H; try done; injection El as ->.
  - unfold create_league in H. repeat (apply bind_ok in H as (? & ? & H)). injection H as <-.
    constructor; cbn; [by apply same_prizes_refl| |by right|by right]. by eapply not_settled_new; [apply lookup_insert_eq|].
  - unfold Escrow.deposit in H. apply bind_ok in H as (? & _ & H). apply bind_ok in H as (? & _ & H). apply bind_ok in H as (L & _ & H).
    apply bind_ok in H as (? & Hst%throw_if_ok & H). repeat (apply bind_ok in H as (? & ? & H)). injection H as <-.
    apply negb_false_iff, bool_decide_eq_true in Hst.
    constructor; cbn; [by apply same_prizes_refl| |by right|by left]. eapply not_settled_new; [apply lookup_insert_eq|]. cbn. by rewrite Hst.
  - apply settle_internal_ok in H as (? & ? & ? & _ & _ & _ & _ & _ & Hn & _). done.
  - unfold settle_with_merkle_root in H. apply bind_ok in H as (? & _ & H). apply bind_ok in H as (? & _ & H). by rewrite Hfb in H.
  - unfold claim_prize in H. apply bind_ok in H as (? & _ & H). apply bind_ok in H as (? & _ & H). by rewrite Hfb in H.
  - unfold claim_prize_merkle in H. apply bind_ok in H as (? & _ & H). apply bind_ok in H as (? & _ & H). by rewrite Hfb in H.
  - unfold emergency_refund_league in H. do 7 (apply bind_ok in H as (? & _ & H)). by rewrite Hfb in H.
  - unfold refund_deposit, take_out in H. apply bind_ok in H as (? & _ & H). apply bind_ok in H as (L & _ & H).
    apply bind_ok in H as (? & Hst%throw_if_ok & H). apply bool_decide_eq_false in Hst.
    do 3 (apply bind_ok in H as (? & ? & H)). apply bind_ok in H as (s & Hs & H). injection H as <-.
    repeat (apply bind_ok in Hs as (? & ? & Hs)). injection Hs as <-.
    constructor; cbn; [by apply same_prizes_refl| |by right|by left]. by eapply not_settled_new; [apply lookup_insert_eq|].
  - destruct (refund_effect _ _ _ _ _ _ H) as (H1 & H2 & H3). constructor; [done|done|right; by rewrite H3|by left].
  - unfold cancel_league in H. apply bind_ok in H as (? & _ & H). apply bind_ok in H as (L & _ & H). repeat (apply bind_ok in H as (? & ? & H)).
    injection H as <-. constructor; cbn; [by apply same_prizes_refl| |by right|by right]. by eapply not_settled_new; [apply lookup_insert_eq|].
  - unfold claim_refund in H. apply bind_ok in H as (? & _ & H). apply bind_ok in H as (L & _ & H). apply bind_ok in H as (? & Hst%throw_if_ok & H).
    repeat (apply bind_ok in H as (? & ? & H)). injection H as <-. apply negb_false_iff, bool_decide_eq_true in Hst.
    constructor; cbn; [by apply same_prizes_refl| |by right|by left]. eapply not_settled_new; [apply lookup_insert_eq|]. cbn. by rewrite Hst.
  - unfold freeze_league in H. repeat (apply bind_ok in H as (? & ? & H)). injection H as <-.
    constructor; cbn; [by apply same_prizes_refl|by apply kept_settled|right; set_solver|by right].
  - unfold unfreeze_league in H. apply bind_ok in H as (? & ? & H). rewrite Hfb in H. injection H as <-.
    constructor; cbn; [by apply same_prizes_refl|by apply kept_settled|by left|by right].
  - done.
  - apply bind_ok in H as (? & _ & H). destruct (refund_effect _ _ _ _ _ _ H) as (H1 & H2 & _).
    constructor; [done|done|by left|by left].
Qed.

(** ** Lemmas: a settlement *)

Lemma write_claimable_get l ws p : ∀ m, NoDup (wp_winner <$> ws) →
  write_claimable l ws m !! (l, p) =
  match List.find (λ x, bool_decide (wp_winner x = p) && (0 <? wp_amount x)) ws with Some x => Some (wp_amount x) | None => m !! (l, p) end.
Proof.
  induction ws as [|x ws IH]; intros m Hn; [done|]. cbn in Hn. apply NoDup_cons in Hn as [Hx Hn].
  change (write_claimable l (x :: ws) m) with (write_claimable l ws (if 0 <? wp_amount x then <[(l, wp_winner x) := wp_amount x]> m else m)).
  rewrite IH by done. cbn [List.find]. destruct (bool_decide_reflect (wp_winner x = p)) as [<-|Hne]; cbn [andb].
  - assert (List.find (λ y, bool_decide (wp_winner y = wp_winner x) && (0 <? wp_amount y)) ws = None) as ->.
    { destruct (List.find _ ws) as [y|] eqn:F; [|done]. apply find_elem in F as [Hy (E%bool_decide_eq_true_1 & _)%andb_true_iff].
      destruct Hx. rewrite <- E. by apply list_elem_of_fmap_2. }
    destruct (0 <? wp_amount x); [|done]. by rewrite lookup_insert_eq.
  - destruct (List.find _ ws); [done|]. destruct (0 <? wp_amount x); [|done]. by rewrite lookup_insert_ne by congruence.
Qed.

Lemma write_claimable_total l ws : ∀ m, NoDup (wp_winner <$> ws) → (∀ x, x ∈ ws → 0 ≤ wp_amount x) →
  (∀ x, x ∈ ws → m !! (l, wp_winner x) = None) → held l (write_claimable l ws m) = held l m + prizes ws.
Proof.
  induction ws as [|x ws IH]; intros m Hn Hpos Hm; [unfold prizes, sum_of; cbn; lia|]. cbn in Hn. apply NoDup_cons in Hn as [Hx Hn].
  change (write_claimable l (x :: ws) m) with (write_claimable l ws (if 0 <? wp_amount x then <[(l, wp_winner x) := wp_amount x]> m else m)).
  rewrite IH; [|done|intros y Hy; apply Hpos; by right|].
  - unfold prizes. rewrite sum_of_cons. destruct (Z.ltb_spec 0 (wp_amount x)).
    + rewrite held_insert_new by (apply Hm; by left). cbn. rewrite Z.eqb_refl. lia.
    + specialize (Hpos x (list_elem_of_here _ _)). lia.
  - intros y Hy. assert (wp_winner y ≠ wp_winner x) by (intros E; apply Hx; rewrite <- E; by apply list_elem_of_fmap_2).
    destruct (0 <? wp_amount x); [rewrite lookup_insert_ne by congruence|]; apply Hm; by right.
Qed.

Definition run_calls (w : Escrow * T) (calls : list (Invocation * Call)) : result EscrowError (Escrow * T) :=
  mfoldl (λ w '(iv, c), run_call transfer self sha256 claim_xdr address_xdr i128_xdr iv c w) w calls.

Lemma run_reached t0 calls : ∀ w w', reached t0 w → Forall (λ x, sound_call x.1 x.2) calls → run_calls w calls = Ok w' → reached t0 w'.
Proof.
  induction calls as [|[iv c] calls IH]; intros w w' Hw Hc H; [by injection H as <-|]. apply Forall_cons in Hc as [H1 H2].
  unfold run_calls in H. cbn [mfoldl] in H. apply bind_ok in H as (w1 & E1 & E2). apply (IH w1); [|done|exact E2]. by eapply reached_call.
Qed.
End solvency.

(** ** A ledger and a league of two *)

Notation Ledger := (gmap (string * string) Z).

Definition ledger_balance (t : Ledger) (asset x : string) : Z := default 0 (t !! (asset, x)).

Definition ledger_transfer (t : Ledger) (asset from to : string) (n : Z) : option Ledger :=
  if (0 <=? n) && (n <=? ledger_balance t asset from) then
    let t := <[(asset, from) := ledger_balance t asset from - n]> t in
    Some (<[(asset, to) := ledger_balance t asset to + n]> t)
  else None.

#[export] Instance ledger_laws : TokenLaws ledger_balance ledger_transfer.
Proof.
  constructor. intros t asset from to n t'. unfold ledger_transfer. destruct (_ && _) eqn:E; [|done]. intros [= <-].
  apply andb_true_iff in E as [E1%Z.leb_le E2%Z.leb_le]. split_and!; [done|done|]. intros a x. unfold ledger_balance.
  destruct (decide ((a, x) = (asset, to))) as [[= -> ->]|Hto].
  - rewrite lookup_insert_eq. cbn [default from_option id]. rewrite (bool_decide_eq_true_2 (asset = asset ∧ to = to)) by done.
    destruct (decide (to = from)) as [->|Hft].
    + rewrite lookup_insert_eq, bool_decide_eq_true_2 by done. cbn [default from_option id]. lia.
    + rewrite lookup_insert_ne by congruence. rewrite bool_decide_eq_false_2 by naive_solver. lia.
  - rewrite lookup_insert_ne by congruence. rewrite (bool_decide_eq_false_2 (a = asset ∧ x = to)) by naive_solver.
    destruct (decide ((a, x) = (asset, from))) as [[= -> ->]|Hfrom].
    + rewrite lookup_insert_eq, bool_decide_eq_true_2 by done. cbn [default from_option id]. lia.
    + rewrite lookup_insert_ne by congruence. rewrite bool_decide_eq_false_2 by naive_solver. lia.
Qed.

Definition demo_calls := run_calls ledger_transfer "C" demo_hash demo_xdr (λ _, []) (λ _, []).

Definition demo_ledger : Ledger := {[("usdc", "alice") := 10; ("usdc", "bob") := 10]}.

(** Signed by everyone concerned, never by the contract. *)
Definition signed (sequence : Z) : Invocation := {| iv_auth := ["adm"; "alice"; "bob"]; iv_timestamp := 1000; iv_sequence := sequence; iv_peer_paused := false |}.

Definition opening : list (Invocation * Call) :=
  (λ c, (signed 1, c)) <$> [Initialize "adm"; CreateLeague "alice" 1 10 "usdc"; DepositFee "alice" 1; DepositFee "bob" 1].

Definition pay (winners : list WinnerPayout) : SettleArgs :=
  {| sa_approvals := ["adm"]; sa_winners := winners; sa_treasury := "fees"; sa_platform_fee := 1; sa_affiliate := None;
     sa_affiliate_cut := 0; sa_proof := None; sa_settlement_hash := None; sa_distribution_bps := None |}.

Definition won (winner : string) (amount : Z) : WinnerPayout := {| wp_winner := winner; wp_amount := amount |}.

(** Twenty tokens, one for the platform, nineteen for the winners. *)
Example demo_settlement :
  match demo_calls (empty_escrow, demo_ledger) (opening ++ ((λ c, (signed 1, c)) <$> [Settle 1 (pay [won "alice" 13; won "bob" 6]); ClaimPrize "alice" 1])) with
  | Ok (s, t) => (ledger_balance t "usdc" "C", ledger_balance t "usdc" "alice", ledger_balance t "usdc" "fees", es_claimable s !! (1, "bob")) = (6, 13, 1, Some 6)
  | Err _ => False
  end.
Proof. vm_compute. reflexivity. Qed.

(** Fees leave at the settlement, so what a withdrawal takes are deposits. *)
Example withdrawal_takes_deposits :
  match demo_calls (empty_escrow, demo_ledger) (opening ++ [(signed 1, ProposeWithdrawal "adm" 7 "thief" "usdc" 20); (signed 40000, ExecuteWithdrawal "adm" 7)]) with
  | Ok (s, t) => ledger_balance t "usdc" "C" = 0 ∧ held 1 (es_deposits s) = 20
  | Err _ => False
  end.
Proof. vm_compute. done. Qed.

(** A winner listed twice keeps the last amount; the other can be claimed by nobody. *)
Example repeated_winner_loses :
  match demo_calls (empty_escrow, demo_ledger) (opening ++ [(signed 1, Settle 1 (pay [won "alice" 13; won "alice" 6]))]) with
  | Ok (s, t) => ledger_balance t "usdc" "C" = 19 ∧ held 1 (es_claimable s) = 6
  | Err _ => False
  end.
Proof. vm_compute. done. Qed.

(** A freeze does not stop the creator from cancelling, nor the refunds that
    follow; a resolution by payout is refused then. *)
Example cancelled_while_frozen :
  match demo_calls (empty_escrow, demo_ledger) (opening ++ ((λ c, (signed 1, c)) <$> [FreezeLeague "adm" 1 []; CancelLeague "alice" 1; ClaimRefund "alice" 1])) with
  | Ok w => (is_league_frozen w.1 1, ledger_balance w.2 "usdc" "alice",
      match demo_calls w [(signed 1, ResolvePayout "adm" 1 [won "bob" 10] "fees" 0)] with Err AlreadySettled => true | _ => false end) = (true, 10, true)
  | Err _ => False
  end.
Proof. vm_compute. reflexivity. Qed.

(** Under a threshold of two signers a dispute cannot be resolved by payout: it
    settles with the administrator's approval alone. *)
Example no_payout_under_multisig :
  match demo_calls (empty_escrow, demo_ledger) ([(signed 1, InitializeMultisig ["adm"; "bob"] 2)] ++ drop 1 opening ++ [(signed 1, FreezeLeague "adm" 1 [])]) with
  | Ok w => match demo_calls w [(signed 1, ResolvePayout "adm" 1 [won "alice" 13; won "bob" 6] "fees" 1)] with
            | Err e => e = InvalidMultisig | Ok _ => False end
  | Err _ => False
  end.
Proof. vm_compute. reflexivity. Qed.

(** ** Properties *)

(** C2. The escrow is solvent: after any calls (fee withdrawals apart), with any
    tokens that behave as documented, the contract holds at least what it owes in
    every token: the deposits of the leagues that are not settled, the prizes of
    those that are, and what is left under their Merkle roots.  No league is
    paid with another's money, so every single deposit and prize is covered; and
    a league that is open has booked exactly its deposits. *)
Theorem escrow_solvent {T} (balance : T → string → string → Z) (transfer : T → string → string → string → Z → option T) (self : string)
    (sha256 : list byte → list byte) (claim_xdr : Z → string → Z → option (list byte)) (address_xdr : string → list byte) (i128_xdr : Z → list byte)
    (t0 : T) (w : Escrow * T) :
  TokenLaws balance transfer → (∀ asset, 0 ≤ balance t0 asset self) →
  reached transfer self sha256 claim_xdr address_xdr i128_xdr t0 w →
  (∃ due, (∀ l, merkle_due sha256 claim_xdr w.1 l (due l)) ∧ ∀ asset, liabilities due w.1 asset ≤ balance w.2 asset self) ∧
  ∀ l league, es_leagues w.1 !! l = Some league →
    (is_final (el_status league) = false → el_total_deposited league = held l (es_deposits w.1)) ∧
    (el_status league ≠ Settled → ∀ p v, es_deposits w.1 !! (l, p) = Some v → 0 ≤ v ≤ balance w.2 (el_asset league) self) ∧
    (∀ p v, es_claimable w.1 !! (l, p) = Some v → 0 < v ≤ balance w.2 (el_asset league) self).
Proof.
  intros HT Hb Hr. destruct (reached_solvent balance transfer self sha256 claim_xdr address_xdr i128_xdr t0 w Hb Hr) as (due & B & Hs).
  split; [exists due; split; [apply B|done]|]. intros l L HL.
  pose proof (owes_covered balance self sha256 claim_xdr due w.1 w.2 l L B Hs HL) as Hc. split_and!.
  - intros Hf. by apply (bk_total _ _ _ _ B).
  - intros Hst p v Hv. split; [by apply (bk_deposit _ _ _ _ B) in Hv as []|]. rewrite owes_open in Hc by done.
    etrans; [|exact Hc]. apply (held_ge l p); [|done]. intros k v' Hk. by apply (bk_deposit _ _ _ _ B) in Hk as [].
  - intros p v Hv. destruct (bk_claimable _ _ _ _ B _ _ Hv) as (Hpos & M & HM & Hst). cbn in HM. assert (M = L) as -> by congruence.
    split; [done|]. rewrite owes_settled in Hc by done. pose proof (due_nonneg _ _ _ _ _ (bk_due _ _ _ _ B l)).
    assert (v ≤ held l (es_claimable w.1)); [|lia]. apply (held_ge l p); [|done]. intros k v' Hk. apply (bk_claimable _ _ _ _ B) in Hk as [? _]. lia.
Qed.

Lemma escrow_solvent_witness :
  match demo_calls (empty_escrow, demo_ledger) (opening ++ [(signed 1, Settle 1 (pay [won "alice" 13; won "bob" 6]))]) with
  | Ok w => 13 ≤ ledger_balance w.2 "usdc" "C"
  | Err _ => False
  end.
Proof.
  set (calls := opening ++ [(signed 1, Settle 1 (pay [won "alice" 13; won "bob" 6]))]).
  destruct (demo_calls (empty_escrow, demo_ledger) calls) as [w|e] eqn:E.
  2: { assert (is_ok (demo_calls (empty_escrow, demo_ledger) calls) = true) as F by (vm_compute; reflexivity). by rewrite E in F. }
  assert (reached ledger_transfer "C" demo_hash demo_xdr (λ _, []) (λ _, []) demo_ledger w) as R.
  { apply (run_reached ledger_transfer "C" demo_hash demo_xdr (λ _, []) (λ _, []) demo_ledger calls (empty_escrow, demo_ledger));
      [apply reached_start| |exact E]. repeat constructor; apply (bool_decide_unpack _); vm_compute; exact I. }
  destruct (escrow_solvent ledger_balance ledger_transfer "C" demo_hash demo_xdr (λ _, []) (λ _, []) demo_ledger w ledger_laws) as [_ H];
    [intros asset; unfold ledger_balance, demo_ledger|exact R|].
  - rewrite lookup_insert_ne by (intros [= _ ?]; discriminate). by rewrite lookup_singleton_ne by (intros [= _ ?]; discriminate).
  - assert (match demo_calls (empty_escrow, demo_ledger) calls with
      | Ok w => (el_asset <$> es_leagues w.1 !! 1, es_claimable w.1 !! (1, "alice")) | Err _ => (None, None) end = (Some "usdc", Some 13)) as F
      by (vm_compute; reflexivity).
    rewrite E in F. injection F as F1 F2. apply fmap_Some in F1 as (L & HL & EL).
    destruct (H 1 L HL) as (_ & _ & Hc). rewrite EL. exact (proj2 (Hc "alice" 13 F2)).
Defined.

(** A frozen league: whatever call succeeds, except the administrator's
    resolution by payout, its prizes, root and claims stay as they are and it is
    not settled; it stays frozen unless the call lifts the freeze, and its
    deposits move only by a deposit or a refund. *)
Theorem frozen_league_holds {T} (transfer : T → string → string → string → Z → option T) (self : string)
    (sha256 : list byte → list byte) (claim_xdr : Z → string → Z → option (list byte)) (address_xdr : string → list byte) (i128_xdr : Z → list byte)
    (iv : Invocation) (c : Call) (w w' : Escrow * T) (l : Z) :
  l ∈ es_frozen w.1 →
  run_call transfer self sha256 claim_xdr address_xdr i128_xdr iv c w = Ok w' →
  (∃ admin winners treasury fee, c = ResolvePayout admin l winners treasury fee) ∨ frozen_step l c w.1 w'.1.
Proof.
  intros Hf H. assert (Hp : ∀ P : Prop, (match c with ResolvePayout _ l' _ _ _ => l' ≠ l | _ => True end → P) →
    (∃ admin winners treasury fee, c = ResolvePayout admin l winners treasury fee) ∨ P).
  { intros P HP. destruct c as [| | | | | | | | | | | | | | | | |admin l' ws treasury fee| | | |]; try (right; by apply HP).
    destruct (decide (l' = l)) as [->|Hne]; [left; eauto|right; by apply HP]. }
  apply Hp. intros Hc. eapply frozen_call; [exact Hf|exact H|exact Hc].
Qed.

(** The opened league, frozen. *)
Definition frozen_world : Escrow * Ledger :=
  match demo_calls (empty_escrow, demo_ledger) (opening ++ [(signed 1, FreezeLeague "adm" 1 [])]) with
  | Ok w => w | Err _ => (empty_escrow, demo_ledger) end.

Lemma frozen_league_holds_witness :
  match run_call ledger_transfer "C" demo_hash demo_xdr (λ _, []) (λ _, []) (signed 1) (RefundDeposit "adm" 1 "bob") frozen_world with
  | Ok w' => 1 ∈ es_frozen w'.1 ∧ same_prizes 1 frozen_world.1 w'.1
  | Err _ => False
  end.
Proof.
  assert (is_league_frozen frozen_world.1 1 = true) as Hf%bool_decide_eq_true_1 by (vm_compute; reflexivity).
  assert (is_ok (run_call ledger_transfer "C" demo_hash demo_xdr (λ _, []) (λ _, []) (signed 1) (RefundDeposit "adm" 1 "bob") frozen_world) = true) as F
    by (vm_compute; reflexivity).
  destruct (run_call _ _ _ _ _ _ _ _ frozen_world) as [w'|e] eqn:R; [|discriminate F].
  destruct (frozen_league_holds _ _ _ _ _ _ _ _ _ _ 1 Hf R) as [(a & ws & t & f & [=])|[H1 _ [[]|H3] _]]. by split.
Defined.

(** C3. A settlement distributes everything: fee and prizes add up to the deposits
    booked, the fee is at most 5% and the affiliate's share at most a fifth of
    it; each winner, listed once, can claim exactly the amount listed, and
    nothing else of the contract changes. *)
Theorem settlement_distributes_everything {T} (transfer : T → string → string → string → Z → option T) (self : string)
    (sha256 : list byte → list byte) (address_xdr : string → list byte) (i128_xdr : Z → list byte)
    (iv : Invocation) (l : Z) (args : SettleArgs) (w w' : Escrow * T) :
  NoDup (wp_winner <$> sa_winners args) → (∀ p, es_claimable w.1 !! (l, p) = None) →
  settle_internal transfer self sha256 address_xdr i128_xdr iv l args w = Ok w' →
  ∃ league, es_leagues w.1 !! l = Some league ∧ is_final (el_status league) = false ∧ l ∉ es_frozen w.1 ∧
    sa_platform_fee args + prizes (sa_winners args) = el_total_deposited league ∧
    10000 * sa_platform_fee args ≤ 500 * el_total_deposited league ∧
    0 ≤ sa_affiliate_cut args ∧ 10000 * sa_affiliate_cut args ≤ 2000 * sa_platform_fee args ∧
    es_leagues w'.1 = <[l := with_status Settled league]> (es_leagues w.1) ∧ es_deposits w'.1 = es_deposits w.1 ∧
    (∀ x, x ∈ sa_winners args → 0 < wp_amount x → es_claimable w'.1 !! (l, wp_winner x) = Some (wp_amount x)) ∧
    held l (es_claimable w'.1) = prizes (sa_winners args) ∧
    (∀ l' p, l' ≠ l → es_claimable w'.1 !! (l', p) = es_claimable w.1 !! (l', p)).
Proof.
  intros Hn Hnone (s & L & t & (E1 & E2 & E3 & _ & _) & _ & _ & HL & Hf & Hz & Hcf & Hcw & _ & ->)%settle_internal_ok.
  pose proof (check_winners_ok _ _ Hcw) as [Hsum Hpos]. pose proof (check_fees_ok _ _ Hcf) as Hcut.
  assert (0 ≤ prizes (sa_winners args)) as Hp0 by (unfold prizes, sum_of; apply sumZ_nonneg, Forall_fmap, Forall_forall; done).
  unfold check_fees in Hcf. apply bind_ok in Hcf as (x & ->%i128_ok & H). apply bind_ok in H as (? & Hfee%throw_if_ok%Z.ltb_ge & H).
  apply bind_ok in H as (? & _ & H). apply bind_ok in H as (? & _ & H). apply bind_ok in H as (y & ->%i128_ok & Haff%throw_if_ok%Z.ltb_ge).
  pose proof (Z.mul_quot_le (el_total_deposited L * 500) 10000 ltac:(lia) ltac:(lia)).
  pose proof (Z.mul_quot_le (sa_platform_fee args * 2000) 10000 ltac:(lia) ltac:(lia)).
  exists L. cbn. rewrite E1, E2, E3. split_and!; try done; try lia.
  - intros z Hz' Hza. rewrite write_claimable_get by done.
    destruct (List.find _ _) as [z'|] eqn:F.
    + apply find_elem in F as [Hin (Ez%bool_decide_eq_true_1 & _)%andb_true_iff]. f_equal. f_equal. by eapply (fmap_unique wp_winner).
    + pose proof (find_absent _ _ _ F Hz') as Hx. cbn in Hx. rewrite bool_decide_eq_true_2, (proj2 (Z.ltb_lt _ _) Hza) in Hx by done. done.
  - rewrite write_claimable_total; [|done|done|intros; apply Hnone]. by rewrite held_none.
  - intros l' p Hne. by apply write_claimable_other.
Qed.

Definition opened_world : Escrow * Ledger :=
  match demo_calls (empty_escrow, demo_ledger) opening with Ok w => w | Err _ => (empty_escrow, demo_ledger) end.

Lemma settlement_distributes_everything_witness :
  match settle_internal ledger_transfer "C" demo_hash (λ _, []) (λ _, []) (signed 1) 1 (pay [won "alice" 13; won "bob" 6]) opened_world with
  | Ok w' => es_claimable w'.1 !! (1, "alice") = Some 13 ∧ held 1 (es_claimable w'.1) = 19
  | Err _ => False
  end.
Proof.
  assert (is_ok (settle_internal ledger_transfer "C" demo_hash (λ _, []) (λ _, []) (signed 1) 1 (pay [won "alice" 13; won "bob" 6]) opened_world) = true) as F
    by (vm_compute; reflexivity).
  assert (map_to_list (es_claimable opened_world.1) = []) as Hc%map_to_list_empty_iff by (vm_compute; reflexivity).
  destruct (settle_internal _ _ _ _ _ _ _ _ opened_world) as [w'|e] eqn:R; [|discriminate F].
  destruct (settlement_distributes_everything ledger_transfer "C" demo_hash (λ _, []) (λ _, []) (signed 1) 1 (pay [won "alice" 13; won "bob" 6]) opened_world w')
    as (L & _ & _ & _ & _ & _ & _ & _ & _ & _ & H & Hh & _); [| |exact R|].
  - apply (bool_decide_unpack _). vm_compute. exact I.
  - intros p. rewrite Hc. apply lookup_empty.
  - split; [apply (H (won "alice" 13)); [by left|done]|exact Hh].
Defined.
