(* ===== verification/Draft.v ===== *)
(** * Drafts: [backend/src/services/draft/draftService.ts]

    The ownership of players per league with its lock, the draft room's snake
    order, and the manager that adds the pool, the position quotas and the
    timer.  What is broadcast is a log of events, the identifiers and dates of
    the records are left out and the clock is an argument.  The key
    [leagueId:playerId] is a pair: the text of a number holds no colon.  The body of
    a locked section does not suspend, so a pick runs in three atomic steps: the
    checks of [makePick], the locked section, and what [makePick] does after it. *)

From Stdlib Require Import String.
From S2P Require Import Prelude Rules.

#[local] Open Scope Z_scope.

(** ** Data *)

Record LeaguePlayerOwnership : Type := {
  lo_leagueId : string;
  lo_playerId : Z;
  lo_squadId : string;
  lo_roundDrafted : nat;
  lo_pickNumber : nat
}.

(** Prices are tenths. *)
Record PlayerCandidate : Type := {
  pc_id : Z;
  pc_position : Position;
  pc_price : Z;
  pc_totalPoints : Z
}.

Inductive DraftStatus : Type := NOT_STARTED | IN_PROGRESS | COMPLETED.

#[export] Instance DraftStatus_eq_dec : EqDecision DraftStatus.
Proof. solve_decision. Defined.

Record DraftRoomState : Type := {
  dr_status : DraftStatus;
  dr_squadOrder : list string;
  dr_currentPickIndex : nat;
  dr_currentRound : nat;
  dr_currentTurnSquadId : option string;
  dr_turnDeadline : Z;
  dr_timePerPickSec : Z;
  dr_picks : list LeaguePlayerOwnership
}.

Inductive DraftError : Type :=
| PlayerAlreadyDraftedError (existingSquadId : string)
| NotYourTurnError
| NoPlayersLeft
| DraftAlreadyCompleted
| PlayerNotInPool
| PositionQuotaExceeded
| NoActiveTurn
| NoEligiblePlayers.

Inductive RoomEvent : Type :=
| DRAFT_PICK_MADE (pick : LeaguePlayerOwnership) (nextSquadId : option string) (nextRound nextIndex : nat)
| ROOM_AUTO_PICK_EXECUTED (squadId : string) (player : PlayerCandidate) (pick : LeaguePlayerOwnership).

Record DraftService : Type := {
  ds_ownershipMap : list ((string * Z) * LeaguePlayerOwnership);
  ds_draftRooms : list (string * DraftRoomState);
  ds_events : list (string * RoomEvent)
}.

(** ** The service *)

Definition createDraftRoom (leagueId : string) (squadOrder : list string) (timePerPickSec now : Z) (s : DraftService) : DraftService :=
  {| ds_ownershipMap := ds_ownershipMap s;
     ds_draftRooms := map_set leagueId
       {| dr_status := IN_PROGRESS; dr_squadOrder := squadOrder; dr_currentPickIndex := 0; dr_currentRound := 1;
          dr_currentTurnSquadId := head squadOrder; dr_turnDeadline := now + timePerPickSec * 1000;
          dr_timePerPickSec := timePerPickSec; dr_picks := [] |} (ds_draftRooms s);
     ds_events := ds_events s |}.

Definition getDraftRoom (leagueId : string) (s : DraftService) : option DraftRoomState := map_get leagueId (ds_draftRooms s).

(** The squad whose turn the pick is: reverse order on even rounds. *)
Definition snake_squad (squadOrder : list string) (nextIndex : nat) : option string :=
  let totalSquads := length squadOrder in
  let nextRound := S (nextIndex / totalSquads) in
  let roundIndex := (nextIndex mod totalSquads)%nat in
  if Nat.odd nextRound then squadOrder !! roundIndex else squadOrder !! (totalSquads - 1 - roundIndex)%nat.

(** The record joins the room and the turn goes to the next squad. *)
Definition advance_room (record : LeaguePlayerOwnership) (now : Z) (room : DraftRoomState) : DraftRoomState :=
  let nextIndex := S (dr_currentPickIndex room) in
  {| dr_status := dr_status room; dr_squadOrder := dr_squadOrder room; dr_currentPickIndex := nextIndex;
     dr_currentRound := S (nextIndex / length (dr_squadOrder room));
     dr_currentTurnSquadId := snake_squad (dr_squadOrder room) nextIndex;
     dr_turnDeadline := now + dr_timePerPickSec room * 1000; dr_timePerPickSec := dr_timePerPickSec room;
     dr_picks := dr_picks room ++ [record] |}.

(** The locked section of [executeDraftPick]. *)
Definition executeDraftPick (leagueId squadId : string) (playerId now : Z) (s : DraftService) :
    result DraftError (LeaguePlayerOwnership * DraftService) :=
  let room := getDraftRoom leagueId s in
  throw_if match room with
           | Some room => bool_decide (dr_status room = IN_PROGRESS) && negb (bool_decide (dr_currentTurnSquadId room = Some squadId))
           | None => false
           end NotYourTurnError ;;;
  match map_get (leagueId, playerId) (ds_ownershipMap s) with
  | Some existing => Err (PlayerAlreadyDraftedError (lo_squadId existing))
  | None =>
      let pickNumber := match room with Some room => S (length (dr_picks room)) | None => 1%nat end in
      let record := {| lo_leagueId := leagueId; lo_playerId := playerId; lo_squadId := squadId;
        lo_roundDrafted := match room with Some room => S ((pickNumber - 1) / length (dr_squadOrder room)) | None => 1%nat end;
        lo_pickNumber := pickNumber |} in
      let owned := map_set (leagueId, playerId) record (ds_ownershipMap s) in
      match room with
      | Some room =>
          let room := advance_room record now room in
          Ok (record, {| ds_ownershipMap := owned; ds_draftRooms := map_set leagueId room (ds_draftRooms s);
            ds_events := ds_events s ++ [(leagueId, DRAFT_PICK_MADE record (dr_currentTurnSquadId room) (dr_currentRound room)
              (dr_currentPickIndex room))] |})
      | None => Ok (record, {| ds_ownershipMap := owned; ds_draftRooms := ds_draftRooms s; ds_events := ds_events s |})
      end
  end.

(** Most points first, then the dearer. *)
Definition value_order : PlayerCandidate → PlayerCandidate → Z := then_by (desc pc_totalPoints) (desc pc_price).

Definition executeAutoPick (leagueId squadId : string) (availablePlayers : list PlayerCandidate) (now : Z) (s : DraftService) :
    result DraftError (LeaguePlayerOwnership * DraftService) :=
  let unpicked := sort_by value_order
    (List.filter (λ p, negb (map_has (leagueId, pc_id p) (ds_ownershipMap s))) availablePlayers) in
  let* highestValuePlayer := or_throw (head unpicked) NoPlayersLeft in
  let* ' (pick, s) := executeDraftPick leagueId squadId (pc_id highestValuePlayer) now s in
  Ok (pick, {| ds_ownershipMap := ds_ownershipMap s; ds_draftRooms := ds_draftRooms s;
               ds_events := ds_events s ++ [(leagueId, ROOM_AUTO_PICK_EXECUTED squadId highestValuePlayer pick)] |}).

(** [?.squadId || null]: an empty id is no owner. *)
Definition getPlayerOwner (leagueId : string) (playerId : Z) (s : DraftService) : option string :=
  match map_get (leagueId, playerId) (ds_ownershipMap s) with
  | Some o => if bool_decide (lo_squadId o = ""%string) then None else Some (lo_squadId o)
  | None => None
  end.

(** The keys that start with [leagueId:]. *)
Definition getLeagueOwnerships (leagueId : string) (s : DraftService) : list LeaguePlayerOwnership :=
  (List.filter (λ x, String.prefix (leagueId ++ ":") (x.1.1 ++ ":")) (ds_ownershipMap s)).*2.

Definition clear : DraftService := {| ds_ownershipMap := []; ds_draftRooms := []; ds_events := [] |}.

(** ** The manager *)

Definition SQUAD_POSITION_LIMITS : ByPosition Z := Build_ByPosition 2 5 5 3.

Record Turn : Type := {
  tn_squadId : string;
  tn_round : nat;
  tn_pickNumber : nat
}.

Inductive ManagerEvent : Type :=
| DRAFT_STARTED (turn : option Turn)
| DRAFT_TIMER_TICK (turn : option Turn) (remainingSeconds : Z) (pickIndex : nat)
| DRAFT_COMPLETED (totalPicks : nat)
| DRAFT_PICK_CONFIRMED (pick : LeaguePlayerOwnership) (player : PlayerCandidate) (nextTurn : option Turn)
| AUTO_PICK_EXECUTED (squadId : string) (player : PlayerCandidate) (pick : LeaguePlayerOwnership).

Record DraftRoomManager : Type := {
  dm_leagueId : string;
  dm_timePerPickSec : Z;
  dm_availablePlayers : list PlayerCandidate;
  dm_draftSequence : list Turn;
  dm_currentPickIndex : nat;
  dm_remainingSeconds : Z;
  dm_status : DraftStatus;
  dm_squadDraftedPlayers : list (string * list PlayerCandidate);
  dm_timer : bool;
  dm_events : list ManagerEvent
}.

(** The pick number is one more than the turns before. *)
Definition snake_round (participants : list string) (sequence : list Turn) (round : nat) : list Turn :=
  sequence ++ imap (λ i squadId, {| tn_squadId := squadId; tn_round := round; tn_pickNumber := S (length sequence + i) |})
    (if Nat.odd round then participants else rev participants).

Definition buildSnakePickOrder (participants : list string) (totalRounds : nat) : list Turn :=
  foldl (snake_round participants) [] (seq 1 totalRounds).

Definition new_DraftRoomManager (leagueId : string) (participants : list string) (rounds : option nat) (timePerPickSec : option Z)
    (availablePlayers : list PlayerCandidate) (now : Z) (s : DraftService) : DraftRoomManager * DraftService :=
  let timePerPickSec := default 60 timePerPickSec in
  ({| dm_leagueId := leagueId; dm_timePerPickSec := timePerPickSec; dm_availablePlayers := availablePlayers;
      dm_draftSequence := buildSnakePickOrder participants (default 15%nat rounds); dm_currentPickIndex := 0;
      dm_remainingSeconds := timePerPickSec; dm_status := NOT_STARTED;
      dm_squadDraftedPlayers := foldl (λ m p, map_set p [] m) [] participants; dm_timer := false; dm_events := [] |},
   createDraftRoom leagueId participants timePerPickSec now s).

Definition getCurrentTurn (m : DraftRoomManager) : option Turn := dm_draftSequence m !! dm_currentPickIndex m.

Definition getSquadPicks (squadId : string) (m : DraftRoomManager) : list PlayerCandidate :=
  default [] (map_get squadId (dm_squadDraftedPlayers m)).

Definition isPlayerEligibleForSquad (squadId : string) (player : PlayerCandidate) (m : DraftRoomManager) : bool :=
  count_position pc_position (pc_position player) (getSquadPicks squadId m) <? at_position SQUAD_POSITION_LIMITS (pc_position player).

Definition getSquadPositionCounts (squadId : string) (m : DraftRoomManager) : ByPosition Z :=
  let owned := getSquadPicks squadId m in
  Build_ByPosition (count_position pc_position GKP owned) (count_position pc_position DEF owned)
    (count_position pc_position MID owned) (count_position pc_position FWD owned).

Definition emitEvent (e : ManagerEvent) (m : DraftRoomManager) : DraftRoomManager :=
  {| dm_leagueId := dm_leagueId m; dm_timePerPickSec := dm_timePerPickSec m; dm_availablePlayers := dm_availablePlayers m;
     dm_draftSequence := dm_draftSequence m; dm_currentPickIndex := dm_currentPickIndex m;
     dm_remainingSeconds := dm_remainingSeconds m; dm_status := dm_status m;
     dm_squadDraftedPlayers := dm_squadDraftedPlayers m; dm_timer := dm_timer m; dm_events := dm_events m ++ [e] |}.

Definition set_clock (status : DraftStatus) (remainingSeconds : Z) (timer : bool) (m : DraftRoomManager) : DraftRoomManager :=
  {| dm_leagueId := dm_leagueId m; dm_timePerPickSec := dm_timePerPickSec m; dm_availablePlayers := dm_availablePlayers m;
     dm_draftSequence := dm_draftSequence m; dm_currentPickIndex := dm_currentPickIndex m;
     dm_remainingSeconds := remainingSeconds; dm_status := status;
     dm_squadDraftedPlayers := dm_squadDraftedPlayers m; dm_timer := timer; dm_events := dm_events m |}.

Definition start (m : DraftRoomManager) : DraftRoomManager :=
  if bool_decide (dm_status m = COMPLETED) then m else
  let m := set_clock IN_PROGRESS (dm_timePerPickSec m) true m in
  emitEvent (DRAFT_STARTED (getCurrentTurn m)) m.

Definition stop (m : DraftRoomManager) : DraftRoomManager := set_clock (dm_status m) (dm_remainingSeconds m) false m.

(** [makePick] up to the lock. *)
Definition pick_checks (squadId : string) (playerId : Z) (m : DraftRoomManager) : result DraftError PlayerCandidate :=
  let* currentTurn := or_throw (getCurrentTurn m) DraftAlreadyCompleted in
  throw_if (negb (bool_decide (tn_squadId currentTurn = squadId))) NotYourTurnError ;;;
  let* player := or_throw (List.find (λ p, pc_id p =? playerId) (dm_availablePlayers m)) PlayerNotInPool in
  throw_if (negb (isPlayerEligibleForSquad squadId player m)) PositionQuotaExceeded ;;;
  Ok player.

(** [makePick] after the lock. *)
Definition pick_made (squadId : string) (player : PlayerCandidate) (pick : LeaguePlayerOwnership) (m : DraftRoomManager) : DraftRoomManager :=
  let completed := bool_decide (length (dm_draftSequence m) ≤ S (dm_currentPickIndex m))%nat in
  let m := {| dm_leagueId := dm_leagueId m; dm_timePerPickSec := dm_timePerPickSec m;
    dm_availablePlayers := dm_availablePlayers m; dm_draftSequence := dm_draftSequence m;
    dm_currentPickIndex := S (dm_currentPickIndex m); dm_remainingSeconds := dm_timePerPickSec m;
    dm_status := if completed then COMPLETED else dm_status m;
    dm_squadDraftedPlayers := match map_get squadId (dm_squadDraftedPlayers m) with
                              | Some owned => map_set squadId (owned ++ [player]) (dm_squadDraftedPlayers m)
                              | None => dm_squadDraftedPlayers m
                              end;
    dm_timer := if completed then false else dm_timer m; dm_events := dm_events m |} in
  if completed then emitEvent (DRAFT_COMPLETED (length (dm_draftSequence m))) m
  else emitEvent (DRAFT_PICK_CONFIRMED pick player (getCurrentTurn m)) m.

(** The manager and the service it uses. *)
Notation draft := (DraftRoomManager * DraftService)%type.

(** [makePick] with nothing in between. *)
Definition makePick (squadId : string) (playerId now : Z) (d : draft) : result DraftError (LeaguePlayerOwnership * draft) :=
  let '(m, s) := d in
  let* player := pick_checks squadId playerId m in
  let* ' (pick, s) := executeDraftPick (dm_leagueId m) squadId playerId now s in
  Ok (pick, (pick_made squadId player pick m, s)).

Definition eligible_players (squadId : string) (d : draft) : list PlayerCandidate :=
  sort_by value_order (List.filter (λ p, isPlayerEligibleForSquad squadId p d.1)
    (List.filter (λ p, bool_decide (getPlayerOwner (dm_leagueId d.1) (pc_id p) d.2 = None)) (dm_availablePlayers d.1))).

Definition autoPickCurrentTurn (now : Z) (d : draft) : result DraftError (LeaguePlayerOwnership * draft) :=
  let* currentTurn := or_throw (if bool_decide (dm_status d.1 = COMPLETED) then None else getCurrentTurn d.1) NoActiveTurn in
  let squadId := tn_squadId currentTurn in
  let* bestPlayer := or_throw (head (eligible_players squadId d)) NoEligiblePlayers in
  let* ' (pick, (m, s)) := makePick squadId (pc_id bestPlayer) now d in
  Ok (pick, (emitEvent (AUTO_PICK_EXECUTED squadId bestPlayer pick) m, s)).

(** A tick of the timer; a rejected auto-pick leaves the countdown where it is. *)
Definition tick (now : Z) (d : draft) : draft * result DraftError unit :=
  let '(m, s) := d in
  if negb (bool_decide (dm_status m = IN_PROGRESS)) then ((m, s), Ok tt) else
  let m := set_clock (dm_status m) (dm_remainingSeconds m - 1) (dm_timer m) m in
  let m := emitEvent (DRAFT_TIMER_TICK (getCurrentTurn m) (dm_remainingSeconds m) (dm_currentPickIndex m)) m in
  if dm_remainingSeconds m <=? 0 then
    match autoPickCurrentTurn now (m, s) with
    | Ok (_, d) => (d, Ok tt)
    | Err e => ((m, s), Err e)
    end
  else ((m, s), Ok tt).

(** ** What can happen *)

(** One pick after the other. *)
Inductive play_step : draft → draft → Prop :=
| play_start m s : play_step (m, s) (start m, s)
| play_stop m s : play_step (m, s) (stop m, s)
| play_pick squadId playerId now pick d d' : makePick squadId playerId now d = Ok (pick, d') → play_step d d'
| play_auto now pick d d' : autoPickCurrentTurn now d = Ok (pick, d') → play_step d d'
| play_tick now d : play_step d (tick now d).1.

(** Calls of [makePick] that overlap: those waiting for the lock, in order, and
    those that hold their record but have not gone on yet. *)
Record world : Type := {
  w_manager : DraftRoomManager;
  w_service : DraftService;
  w_waiting : list (string * PlayerCandidate);
  w_picked : list (string * PlayerCandidate * LeaguePlayerOwnership)
}.

Inductive world_step : world → world → Prop :=
| world_clock m s w p status remaining timer : status ≠ COMPLETED ∨ status = dm_status m →
    world_step (Build_world m s w p) (Build_world (set_clock status remaining timer m) s w p)
| world_event m s w p e : world_step (Build_world m s w p) (Build_world (emitEvent e m) s w p)
| world_request m s w p squadId playerId player : pick_checks squadId playerId m = Ok player →
    world_step (Build_world m s w p) (Build_world m s (w ++ [(squadId, player)]) p)
| world_locked m s w p squadId player now pick s' :
    executeDraftPick (dm_leagueId m) squadId (pc_id player) now s = Ok (pick, s') →
    world_step (Build_world m s ((squadId, player) :: w) p) (Build_world m s' w (p ++ [(squadId, player, pick)]))
| world_refused m s w p squadId player now e :
    executeDraftPick (dm_leagueId m) squadId (pc_id player) now s = Err e →
    world_step (Build_world m s ((squadId, player) :: w) p) (Build_world m s w p)
| world_made m s w p squadId player pick :
    world_step (Build_world m s w ((squadId, player, pick) :: p)) (Build_world (pick_made squadId player pick m) s w p).

(** ** Lemmas: the snake order *)

Lemma snake_round_length participants seq round :
  length (snake_round participants seq round) = (length seq + length participants)%nat.
Proof. unfold snake_round. rewrite length_app, length_imap. by destruct (Nat.odd round); rewrite ?length_rev. Qed.

Lemma build_snoc participants r : buildSnakePickOrder participants (S r) =
  snake_round participants (buildSnakePickOrder participants r) (S r).
Proof. unfold buildSnakePickOrder. rewrite seq_S, foldl_app. done. Qed.

Lemma build_length participants r : length (buildSnakePickOrder participants r) = (r * length participants)%nat.
Proof. induction r as [|r IH]; [done|]. rewrite build_snoc, snake_round_length, IH. lia. Qed.

Lemma rev_lookup_mirror {A} (l : list A) i : (i < length l)%nat → rev l !! i = l !! (length l - 1 - i)%nat.
Proof. intros Hi. rewrite rev_alt. change (rev_append l []) with (reverse l). rewrite reverse_lookup by done. f_equal. lia. Qed.

(** The turn worked out pick by pick is the one of the list drawn up before. *)
Lemma build_lookup participants r k : (k < r * length participants)%nat →
  ∃ turn, buildSnakePickOrder participants r !! k = Some turn ∧ snake_squad participants k = Some (tn_squadId turn) ∧
    tn_round turn = S (k / length participants) ∧ tn_pickNumber turn = S k.
Proof.
  induction r as [|r IH]; intros Hk; [lia|]. set (n := length participants) in *. rewrite build_snoc.
  destruct (decide (k < r * n)%nat) as [Hlt|Hge].
  - destruct (IH Hlt) as (turn & Ht & Hrest). exists turn. split; [|done]. unfold snake_round.
    rewrite lookup_app_l by (rewrite build_length; fold n; lia). done.
  - assert (k = r * n + (k - r * n) ∧ k - r * n < n)%nat as [Ek Hi] by lia. set (i := (k - r * n)%nat) in *.
    assert (k / n = r ∧ k mod n = i)%nat as [Hd Hm].
    { split; [symmetry; apply (Nat.div_unique _ _ _ i); lia|symmetry; apply (Nat.mod_unique _ _ r); lia]. }
    unfold snake_round. rewrite lookup_app_r by (rewrite build_length; fold n; lia). rewrite build_length. fold n.
    replace (k - r * n)%nat with i by lia. rewrite list_lookup_imap. unfold snake_squad. fold n. rewrite Hd, Hm.
    destruct (Nat.odd (S r)).
    + destruct (lookup_lt_is_Some_2 participants i Hi) as [p Hp]. rewrite Hp. cbn. eexists. split_and!; [done..|cbn; lia].
    + rewrite rev_lookup_mirror by done. fold n.
      destruct (lookup_lt_is_Some_2 participants (n - 1 - i)) as [p Hp]; [fold n; lia|]. rewrite Hp. cbn.
      eexists. split_and!; [done..|cbn; lia].
Qed.

(** Everybody has one turn in each round. *)
Lemma snake_count participants r p : NoDup participants → p ∈ participants →
  countb (λ t, bool_decide (tn_squadId t = p)) (buildSnakePickOrder participants r) = Z.of_nat r.
Proof.
  intros Hn Hp. induction r as [|r IH]; [done|]. rewrite build_snoc. unfold snake_round. rewrite countb_app, IH.
  set (l := if Nat.odd (S r) then participants else rev participants).
  assert (l ≡ₚ participants) as Hl by (subst l; destruct (Nat.odd (S r)); [done|symmetry; apply Permutation_rev]).
  assert (countb (λ t, bool_decide (tn_squadId t = p)) (imap (λ i squadId, {| tn_squadId := squadId; tn_round := S r;
    tn_pickNumber := S (length (buildSnakePickOrder participants r) + i) |}) l) = countb (λ x, bool_decide (x = p)) l) as ->.
  { clear. generalize (length (buildSnakePickOrder participants r)). induction l as [|x l IHl]; intros n; [done|].
    cbn [imap]. rewrite !countb_cons. cbn. f_equal. rewrite <- (IHl (S n)). f_equal. apply imap_ext. intros i y _. cbn. f_equal. lia. }
  rewrite (countb_perm _ _ _ Hl), (countb_unique _ _ p); [lia|done|done|]. intros x _. by rewrite bool_decide_eq_true.
Qed.

(** ** Lemmas: the room *)

Section room.
Context (leagueId : string) (participants : list string).

(** The picks follow the snake order, and the players of the league that are
    owned are those picked. *)
Record room_ok (s : DraftService) (room : DraftRoomState) : Prop := {
  ro_get : getDraftRoom leagueId s = Some room;
  ro_status : dr_status room = IN_PROGRESS;
  ro_order : dr_squadOrder room = participants;
  ro_index : dr_currentPickIndex room = length (dr_picks room);
  ro_turn : dr_currentTurnSquadId room = snake_squad participants (length (dr_picks room));
  ro_picks : ∀ i o, dr_picks room !! i = Some o → snake_squad participants i = Some (lo_squadId o) ∧
    lo_roundDrafted o = S (i / length participants) ∧ lo_pickNumber o = S i;
  ro_players : NoDup (lo_playerId <$> dr_picks room);
  ro_owned : ∀ playerId o, map_get (leagueId, playerId) (ds_ownershipMap s) = Some o ↔ o ∈ dr_picks room ∧ lo_playerId o = playerId
}.

Lemma not_owned_not_picked s room playerId : room_ok s room → map_get (leagueId, playerId) (ds_ownershipMap s) = None →
  playerId ∉ lo_playerId <$> dr_picks room.
Proof.
  intros Hr Hn (o & -> & Ho)%list_elem_of_fmap. assert (map_get (leagueId, lo_playerId o) (ds_ownershipMap s) = Some o); [|congruence].
  by apply (ro_owned _ _ Hr).
Qed.

Lemma draft_execute_ok s room squadId playerId now pick s' : room_ok s room →
  executeDraftPick leagueId squadId playerId now s = Ok (pick, s') →
  room_ok s' (advance_room pick now room) ∧ lo_squadId pick = squadId ∧ lo_playerId pick = playerId ∧
  snake_squad participants (length (dr_picks room)) = Some squadId.
Proof.
  intros Hr H. unfold executeDraftPick in H. rewrite (ro_get _ _ Hr) in H. rewrite (ro_status _ _ Hr), (ro_turn _ _ Hr) in H.
  rewrite bool_decide_eq_true_2 in H by done. cbn [andb] in H.
  destruct (bool_decide (snake_squad participants (length (dr_picks room)) = Some squadId)) eqn:Et; [|done]. cbn [negb] in H.
  apply bool_decide_eq_true in Et. change (throw_if false NotYourTurnError) with (Ok (E := DraftError) tt) in H. cbn [rbind] in H.
  destruct (map_get (leagueId, playerId) (ds_ownershipMap s)) eqn:Eo; [done|]. cbv zeta in H.
  injection H as <- <-. cbn [lo_squadId lo_playerId]. split; [|done].
  set (pick := Build_LeaguePlayerOwnership _ _ _ _ _). pose proof (not_owned_not_picked _ _ _ Hr Eo) as Hnew.
  constructor; cbn [dr_picks dr_status dr_squadOrder dr_currentPickIndex dr_currentTurnSquadId advance_room ds_draftRooms ds_ownershipMap].
  - unfold getDraftRoom. cbn. by rewrite map_get_set_eq.
  - apply Hr.
  - apply Hr.
  - rewrite length_app, (ro_index _ _ Hr). cbn. lia.
  - rewrite length_app, (ro_index _ _ Hr), (ro_order _ _ Hr). cbn. f_equal. lia.
  - intros i o Hi. destruct (decide (i < length (dr_picks room))%nat) as [Hlt|Hge].
    + rewrite lookup_app_l in Hi by done. by apply (ro_picks _ _ Hr).
    + rewrite lookup_app_r in Hi by lia. destruct (i - length (dr_picks room))%nat as [|j] eqn:Ej; [|by destruct j].
      assert (i = length (dr_picks room)) as -> by lia. injection Hi as <-. subst pick. cbn. rewrite (ro_order _ _ Hr), Nat.sub_0_r. done.
  - rewrite fmap_app. apply NoDup_app. split_and!; [apply Hr| |apply NoDup_singleton].
    intros x Hx ->%list_elem_of_singleton. done.
  - intros p o. rewrite map_get_set, elem_of_app, list_elem_of_singleton. case_decide as Hd.
    + injection Hd as ->. split; [by intros [= <-]; split; [right|]|]. intros [[Ho| ->] E]; [|done].
      exfalso. apply Hnew. rewrite <- E. by apply list_elem_of_fmap_2.
    + rewrite (ro_owned _ _ Hr). split; [intros [??]; by split; [left|]|]. intros [[Ho| ->] E]; [done|]. subst pick. cbn in E. congruence.
Qed.

(** Nothing but the turn and the ownership can stand in the way of a pick. *)
Lemma execute_succeeds s room squadId playerId now : room_ok s room →
  snake_squad participants (length (dr_picks room)) = Some squadId → playerId ∉ lo_playerId <$> dr_picks room →
  is_ok (executeDraftPick leagueId squadId playerId now s) = true.
Proof.
  intros Hr Ht Hp. unfold executeDraftPick. rewrite (ro_get _ _ Hr), (ro_turn _ _ Hr), Ht.
  rewrite (bool_decide_eq_true_2 (Some squadId = Some squadId)), andb_false_r by done. cbn [throw_if rbind negb].
  destruct (map_get _ _) as [o|] eqn:E; [|done]. exfalso. apply Hp. apply (ro_owned _ _ Hr) in E as [Ho <-].
  by apply list_elem_of_fmap_2.
Qed.

Context (rounds : nat).

Definition finished_picks (m : DraftRoomManager) (room : DraftRoomState) : list LeaguePlayerOwnership :=
  take (dm_currentPickIndex m) (dr_picks room).

(** The manager lags behind the room by the picks that hold their record. *)
Record world_inv (w : world) : Prop := {
  wi_league : dm_leagueId (w_manager w) = leagueId;
  wi_sequence : dm_draftSequence (w_manager w) = buildSnakePickOrder participants rounds;
  wi_room : ∃ room, room_ok (w_service w) room ∧
    (dm_currentPickIndex (w_manager w) ≤ length (dr_picks room))%nat ∧
    drop (dm_currentPickIndex (w_manager w)) (dr_picks room) = (λ x, x.2) <$> w_picked w ∧
    ∀ squadId, squadId ∈ participants → ∃ l, map_get squadId (dm_squadDraftedPlayers (w_manager w)) = Some l ∧
      pc_id <$> l = lo_playerId <$> List.filter (λ o, bool_decide (lo_squadId o = squadId)) (finished_picks (w_manager w) room);
  wi_picked : ∀ x, x ∈ w_picked w → lo_squadId x.2 = x.1.1 ∧ lo_playerId x.2 = pc_id x.1.2
}.

Lemma pick_made_fields squadId player pick m :
  dm_leagueId (pick_made squadId player pick m) = dm_leagueId m ∧
  dm_draftSequence (pick_made squadId player pick m) = dm_draftSequence m ∧
  dm_availablePlayers (pick_made squadId player pick m) = dm_availablePlayers m ∧
  dm_currentPickIndex (pick_made squadId player pick m) = S (dm_currentPickIndex m) ∧
  dm_squadDraftedPlayers (pick_made squadId player pick m) =
    match map_get squadId (dm_squadDraftedPlayers m) with
    | Some owned => map_set squadId (owned ++ [player]) (dm_squadDraftedPlayers m)
    | None => dm_squadDraftedPlayers m
    end ∧
  (dm_status (pick_made squadId player pick m) = COMPLETED ↔
    (length (dm_draftSequence m) ≤ S (dm_currentPickIndex m))%nat ∨ dm_status m = COMPLETED).
Proof.
  unfold pick_made. case_bool_decide as E; cbn; split_and!; try done; split; auto. by intros [?|?].
Qed.

Lemma pick_made_squads squadId player pick m sq l : map_get sq (dm_squadDraftedPlayers m) = Some l →
  map_get sq (dm_squadDraftedPlayers (pick_made squadId player pick m)) =
    Some (l ++ if bool_decide (squadId = sq) then [player] else []).
Proof.
  intros Hl. destruct (pick_made_fields squadId player pick m) as (_ & _ & _ & _ & -> & _).
  case_bool_decide as E.
  - subst. rewrite Hl. by rewrite map_get_set_eq.
  - rewrite app_nil_r. destruct (map_get squadId _); [|done]. by rewrite map_get_set_ne by congruence.
Qed.

Lemma finished_snoc idx (picks : list LeaguePlayerOwnership) o rest : drop idx picks = o :: rest →
  take (S idx) picks = take idx picks ++ [o] ∧ drop (S idx) picks = rest ∧ (S idx ≤ length picks)%nat.
Proof.
  intros E. assert (picks !! idx = Some o) as Ho.
  { rewrite <- (Nat.add_0_r idx), <- lookup_drop, E. done. }
  split_and!; [by apply take_S_r| |by apply lookup_lt_Some in Ho].
  rewrite (drop_S _ _ _ Ho) in E. by injection E.
Qed.

Lemma world_made_inv m s w squadId player pick p : world_inv (Build_world m s w ((squadId, player, pick) :: p)) →
  world_inv (Build_world (pick_made squadId player pick m) s w p).
Proof.
  intros [H1 H2 (room & Hr & Hi & Hd & Hs) H4]. cbn [w_manager w_service w_waiting w_picked] in *.
  destruct (pick_made_fields squadId player pick m) as (E1 & E2 & _ & E4 & _).
  destruct (finished_snoc _ _ _ _ Hd) as (F1 & F2 & F3). destruct (H4 (squadId, player, pick)) as [P1 P2]; [by left|]. cbn in P1, P2.
  constructor; cbn [w_manager w_service w_waiting w_picked].
  - by rewrite E1.
  - by rewrite E2.
  - exists room. rewrite E4. split_and!; [done|done|done|]. intros sq Hsq. destruct (Hs sq Hsq) as (l & Hl & El).
    eexists. split; [by apply pick_made_squads|]. unfold finished_picks in *. rewrite E4, F1, List.filter_app, !fmap_app, <- El.
    f_equal. cbn [List.filter snd]. rewrite P1. case_bool_decide; cbn; by rewrite ?P2.
  - intros x Hx. apply H4. by right.
Qed.

Lemma world_locked_inv m s w squadId player now pick s' p :
  world_inv (Build_world m s ((squadId, player) :: w) p) →
  executeDraftPick (dm_leagueId m) squadId (pc_id player) now s = Ok (pick, s') →
  world_inv (Build_world m s' w (p ++ [(squadId, player, pick)])).
Proof.
  intros [H1 H2 (room & Hr & Hi & Hd & Hs) H4] H. cbn [w_manager w_service w_waiting w_picked] in *. rewrite H1 in H.
  destruct (draft_execute_ok _ _ _ _ _ _ _ Hr H) as (Hr' & E1 & E2 & _).
  constructor; cbn [w_manager w_service w_waiting w_picked]; [done|done| |].
  - exists (advance_room pick now room). unfold finished_picks in *. cbn [dr_picks advance_room] in *. split_and!; [done| | |].
    + rewrite length_app. lia.
    + rewrite drop_app_le, Hd, fmap_app by done. done.
    + intros sq Hsq. destruct (Hs sq Hsq) as (l & Hl & El). exists l. split; [done|]. by rewrite take_app_le by done.
  - intros x [Hx| ->%list_elem_of_singleton]%elem_of_app; [by apply H4|done].
Qed.

Lemma world_step_inv w w' : world_inv w → world_step w w' → world_inv w'.
Proof.
  intros Hi H. revert Hi. destruct H; intros Hi.
  - by destruct Hi; constructor.
  - by destruct Hi; constructor.
  - by destruct Hi; constructor.
  - by eapply world_locked_inv.
  - by destruct Hi; constructor.
  - by eapply world_made_inv.
Qed.

Lemma world_reachable_inv w w' : world_inv w → rtc world_step w w' → world_inv w'.
Proof. intros Hi H. revert Hi. induction H; [done|]. intros Hi. by eapply IHrtc, world_step_inv. Qed.

End room.

Lemma new_squads (participants : list string) : ∀ sq, sq ∈ participants →
  map_get sq (foldl (λ m p, map_set p [] m) [] participants) = Some ([] : list PlayerCandidate).
Proof.
  induction participants as [|p ps IH] using rev_ind; intros sq Hsq; [by apply not_elem_of_nil in Hsq|].
  rewrite foldl_app. cbn [foldl]. rewrite map_get_set. case_decide; [done|].
  apply IH. apply elem_of_app in Hsq as [?|?%list_elem_of_singleton]; done.
Qed.

Lemma new_manager_inv leagueId participants rounds timePerPickSec pool now s0 m s :
  (∀ playerId, map_get (leagueId, playerId) (ds_ownershipMap s0) = None) →
  new_DraftRoomManager leagueId participants rounds timePerPickSec pool now s0 = (m, s) →
  world_inv leagueId participants (default 15%nat rounds) (Build_world m s [] []).
Proof.
  intros Hn [= <- <-]. constructor; cbn [w_manager w_service w_waiting w_picked]; [done|done| |by intros x ?%not_elem_of_nil].
  exists (Build_DraftRoomState IN_PROGRESS participants 0 1 (head participants) (now + default 60 timePerPickSec * 1000)
    (default 60 timePerPickSec) []). split; [|split_and!; [cbn; lia|done|]].
  - constructor; cbn [dr_picks dr_status dr_squadOrder dr_currentPickIndex dr_currentTurnSquadId].
    + unfold getDraftRoom, createDraftRoom. cbn. by rewrite map_get_set_eq.
    + done.
    + done.
    + done.
    + unfold snake_squad. cbn. rewrite Nat.Div0.div_0_l, Nat.Div0.mod_0_l. cbn. by destruct participants.
    + done.
    + constructor.
    + intros playerId o. cbn. rewrite Hn. split; [done|]. intros [?%not_elem_of_nil _]. done.
  - intros sq Hsq. exists []. split; [by apply new_squads|done].
Qed.

(** ** Lemmas: one pick after the other *)

Section play.
Context (leagueId : string) (participants : list string) (rounds : nat) (pool : list PlayerCandidate).

Record draft_inv (d : draft) : Prop := {
  di_world : world_inv leagueId participants rounds (Build_world d.1 d.2 [] []);
  di_pool : dm_availablePlayers d.1 = pool;
  di_drafted : ∀ squadId p, squadId ∈ participants → p ∈ getSquadPicks squadId d.1 → p ∈ pool;
  di_quota : ∀ squadId pos, squadId ∈ participants →
    count_position pc_position pos (getSquadPicks squadId d.1) ≤ at_position SQUAD_POSITION_LIMITS pos;
  di_bound : (dm_currentPickIndex d.1 ≤ length (dm_draftSequence d.1))%nat;
  di_completed : dm_status d.1 = COMPLETED → dm_currentPickIndex d.1 = length (dm_draftSequence d.1)
}.

(** Only the clock, the timer and the log have changed. *)
Definition same_draft (m m' : DraftRoomManager) : Prop :=
  dm_leagueId m' = dm_leagueId m ∧ dm_draftSequence m' = dm_draftSequence m ∧ dm_availablePlayers m' = dm_availablePlayers m ∧
  dm_currentPickIndex m' = dm_currentPickIndex m ∧ dm_squadDraftedPlayers m' = dm_squadDraftedPlayers m ∧
  (dm_status m' = COMPLETED → dm_status m = COMPLETED).

Lemma same_draft_inv m m' s : same_draft m m' → draft_inv (m, s) → draft_inv (m', s).
Proof.
  intros (E1 & E2 & E3 & E4 & E5 & E6) [[W1 W2 W3 W4] H2 H3 H4 H5 H6]. cbn [fst snd w_manager w_service w_picked w_waiting] in *.
  unfold getSquadPicks, finished_picks in *.
  constructor; cbn [fst snd]; unfold getSquadPicks; rewrite ?E2, ?E3, ?E4, ?E5; try done; [|auto].
  constructor; cbn [w_manager w_service w_picked w_waiting]; unfold finished_picks; rewrite ?E1, ?E2, ?E3, ?E4, ?E5; done.
Qed.

(** Before a pick the room and the manager agree on whose turn it is. *)
Lemma synced_room d : draft_inv d → ∃ room, room_ok leagueId participants d.2 room ∧
  dm_currentPickIndex d.1 = length (dr_picks room) ∧ dm_leagueId d.1 = leagueId ∧
  (∀ squadId, squadId ∈ participants → ∃ l, map_get squadId (dm_squadDraftedPlayers d.1) = Some l ∧
      pc_id <$> l = lo_playerId <$> List.filter (λ o, bool_decide (lo_squadId o = squadId)) (dr_picks room)).
Proof.
  intros [[W1 W2 (room & Hr & Hi & Hd & Hs) _] _ _ _ _ _]. cbn [w_manager w_service w_picked] in *. exists room.
  assert (dm_currentPickIndex d.1 = length (dr_picks room)) as E.
  { apply (f_equal length) in Hd. rewrite length_drop in Hd. cbn in Hd. lia. }
  split_and!; [done|done|done|]. intros sq Hsq. destruct (Hs sq Hsq) as (l & Hl & El). exists l. split; [done|].
  unfold finished_picks in El. by rewrite E, firstn_all in El.
Qed.

Lemma makePick_inv squadId playerId now pick d d' : draft_inv d → makePick squadId playerId now d = Ok (pick, d') → draft_inv d'.
Proof.
  intros Hi H. destruct d as [m s], Hi as [Hw H2 H3 H4 H5 H6]. cbn [fst snd] in *. unfold makePick in H.
  destruct (pick_checks squadId playerId m) as [player|] eqn:Ec; [|done]. cbn [rbind] in H.
  destruct (executeDraftPick _ _ _ _ _) as [[pick' s']|] eqn:Ee; [|done]. cbn [rbind] in H. injection H as <- <-.
  unfold pick_checks in Ec. inv_ok. bool_to_prop. subst player.
  match goal with H : List.find _ _ = Some ?p |- _ => apply find_some in H as [Hin Hid]; rename p into player end.
  apply list_elem_of_In in Hin. apply Z.eqb_eq in Hid. subst playerId.
  assert (world_inv leagueId participants rounds (Build_world m s [(squadId, player)] [])) as Hl by (by destruct Hw; constructor).
  apply (world_locked_inv _ _ _ _ _ _ _ _ _ _ _ _ Hl) in Ee as Hl'. apply world_made_inv in Hl'. clear Hl.
  destruct (pick_made_fields squadId player pick' m) as (E1 & E2 & E3 & E4 & _ & E6).
  assert (∀ sq, sq ∈ participants → getSquadPicks sq (pick_made squadId player pick' m) =
    getSquadPicks sq m ++ if bool_decide (squadId = sq) then [player] else []) as Hsq.
  { intros sq Hsq. destruct (wi_room _ _ _ _ Hw) as (room & _ & _ & _ & Hs). destruct (Hs sq Hsq) as (l & Hsl & _).
    unfold getSquadPicks. rewrite (pick_made_squads _ _ _ _ _ _ Hsl). cbn in Hsl. by rewrite Hsl. }
  assert (dm_currentPickIndex m < length (dm_draftSequence m))%nat as Hlt.
  { eapply lookup_lt_Some. match goal with H : getCurrentTurn m = Some _ |- _ => exact H end. }
  constructor; cbn [fst snd]; [done|by rewrite E3| | | |].
  - intros sq p Hp. rewrite Hsq, elem_of_app by done. intros [?|Hx]; [by eapply H3|].
    case_bool_decide; [apply list_elem_of_singleton in Hx as ->; by rewrite <- H2|by apply not_elem_of_nil in Hx].
  - intros sq pos Hp. rewrite Hsq, count_position_app by done. specialize (H4 sq pos Hp).
    assert (count_position pc_position pos [] = 0) as E0 by done. case_bool_decide as E; [subst sq|lia].
    rewrite count_position_cons, E0. case_decide as Ep; [subst pos|lia].
    match goal with H : isPlayerEligibleForSquad _ _ _ = true |- _ => unfold isPlayerEligibleForSquad in H; apply Z.ltb_lt in H end.
    lia.
  - rewrite E2, E4. lia.
  - rewrite E2, E4. intros [?|Hc]%E6; [lia|]. specialize (H6 Hc). lia.
Qed.

Lemma autoPick_inv now pick d d' : draft_inv d → autoPickCurrentTurn now d = Ok (pick, d') → draft_inv d'.
Proof.
  intros Hi H. unfold autoPickCurrentTurn in H. inv_ok.
  match goal with H : makePick _ _ _ _ = Ok ?x |- _ => destruct x as [pk [m s]]; apply makePick_inv in H; [|done] end.
  injection H as <- <-. by eapply same_draft_inv; [|eassumption].
Qed.

Lemma clock_same m status remaining timer : status ≠ COMPLETED ∨ status = dm_status m → same_draft m (set_clock status remaining timer m).
Proof. intros H. repeat split. cbn. intros ->. by destruct H. Qed.

Lemma event_same m e : same_draft m (emitEvent e m).
Proof. by repeat split. Qed.

Lemma play_step_inv d d' : draft_inv d → play_step d d' → draft_inv d'.
Proof.
  intros Hi H. revert Hi. destruct H as [m s|m s|squadId playerId now pick d d' H|now pick d d' H|now [m s]]; intros Hi.
  - unfold start. case_bool_decide; [done|]. eapply same_draft_inv; [apply event_same|].
    eapply same_draft_inv; [apply clock_same; by left|done].
  - eapply same_draft_inv; [apply clock_same; by right|done].
  - by eapply makePick_inv.
  - by eapply autoPick_inv.
  - unfold tick. case_bool_decide; cbn [negb]; [|done]. cbv zeta.
    match goal with |- context [autoPickCurrentTurn now (?m', s)] => set (m1 := m') end.
    assert (draft_inv (m1, s)) as H1.
    { eapply same_draft_inv; [apply event_same|]. eapply same_draft_inv; [apply clock_same; by right|done]. }
    clearbody m1. destruct (_ <=? 0); [|done]. destruct (autoPickCurrentTurn now (m1, s)) as [[pk d]|] eqn:E; [|done].
    cbn [fst]. by eapply autoPick_inv.
Qed.

Lemma play_reachable_inv d d' : draft_inv d → rtc play_step d d' → draft_inv d'.
Proof. intros Hi H. revert Hi. induction H; [done|]. intros Hi. by eapply IHrtc, play_step_inv. Qed.

(** The picks of a squad are its turns so far. *)
Lemma squad_size d squadId : draft_inv d → squadId ∈ participants →
  Z.of_nat (length (getSquadPicks squadId d.1)) =
  countb (λ t, bool_decide (tn_squadId t = squadId)) (take (dm_currentPickIndex d.1) (dm_draftSequence d.1)).
Proof.
  intros Hi Hp. destruct (synced_room d Hi) as (room & Hr & Ei & _ & Hs). destruct (Hs squadId Hp) as (l & Hl & El).
  unfold getSquadPicks. rewrite Hl. cbn. apply (f_equal length) in El. rewrite !length_fmap in El.
  change (Z.of_nat (length l) = countb (λ t, bool_decide (tn_squadId t = squadId)) (take (dm_currentPickIndex d.1) (dm_draftSequence d.1))).
  rewrite El. change (Z.of_nat _) with (countb (λ o, bool_decide (lo_squadId o = squadId)) (dr_picks room)).
  pose (is_squad := λ x : string, bool_decide (x = squadId)).
  etrans; [symmetry; apply (countb_fmap lo_squadId is_squad)|]. etrans; [|apply (countb_fmap tn_squadId is_squad)]. f_equal. pose proof (di_bound _ Hi) as Hb. pose proof (wi_sequence _ _ _ _ (di_world _ Hi)) as Es.
  cbn [w_manager] in Es. rewrite Es in Hb |- *. rewrite build_length in Hb. apply list_eq. intros i. rewrite !list_lookup_fmap.
  destruct (decide (i < length (dr_picks room))%nat) as [Hlt|Hge].
  - rewrite lookup_take_lt by lia. destruct (lookup_lt_is_Some_2 _ _ Hlt) as [o Ho]. rewrite Ho.
    destruct (ro_picks _ _ _ _ Hr i o Ho) as (Ht & _).
    destruct (build_lookup participants rounds i) as (turn & -> & Ht2 & _); [lia|].
    cbn. rewrite Ht2 in Ht. congruence.
  - rewrite lookup_ge_None_2 by lia. rewrite lookup_take_ge by lia. done.
Qed.
End play.

(** ** Lemmas: the pool lasts *)

Lemma sum_below (f : string → Z) (b : Z) l x : (∀ y, y ∈ l → f y ≤ b) → x ∈ l → f x < b → sumZ (f <$> l) < Z.of_nat (length l) * b.
Proof.
  intros Hb Hx Hf. assert (∀ k, (∀ y, y ∈ k → f y ≤ b) → sumZ (f <$> k) ≤ Z.of_nat (length k) * b) as Hle.
  { induction k as [|y k IH]; intros Hk; [done|]. cbn [fmap list_fmap sumZ length]. pose proof (Hk y ltac:(by left)).
    assert (sumZ (f <$> k) ≤ Z.of_nat (length k) * b) by (apply IH; intros; apply Hk; by right). lia. }
  induction l as [|y l IH]; [by apply not_elem_of_nil in Hx|]. cbn [fmap list_fmap sumZ length].
  apply elem_of_cons in Hx as [->|Hx].
  - assert (sumZ (f <$> l) ≤ Z.of_nat (length l) * b) by (apply Hle; intros; apply Hb; by right). lia.
  - pose proof (Hb y ltac:(by left)).
    assert (sumZ (f <$> l) < Z.of_nat (length l) * b) by (apply IH; [intros; apply Hb; by right|done]). lia.
Qed.

Lemma room_for_position (l : list PlayerCandidate) : (length l < 15)%nat →
  ∃ pos, count_position pc_position pos l < at_position SQUAD_POSITION_LIMITS pos.
Proof.
  intros Hl. pose proof (count_position_total pc_position l) as Ht. unfold sum_of in Ht. cbn [positions fmap list_fmap sumZ] in Ht.
  destruct (Z.lt_ge_cases (count_position pc_position GKP l) 2); [by exists GKP|].
  destruct (Z.lt_ge_cases (count_position pc_position DEF l) 5); [by exists DEF|].
  destruct (Z.lt_ge_cases (count_position pc_position MID l) 5); [by exists MID|].
  exists FWD. change (at_position SQUAD_POSITION_LIMITS FWD) with 3. lia.
Qed.

Lemma countb_lookup_lt {A} (p : A → bool) l i x : l !! i = Some x → p x = true → countb p (take i l) + 1 ≤ countb p l.
Proof.
  intros Hi Hp. rewrite <- (take_drop_middle l i x Hi) at 2. rewrite countb_app, countb_cons, Hp.
  pose proof (countb_nonneg p (drop (S i) l)). lia.
Qed.

Lemma snake_squad_elem participants k p : snake_squad participants k = Some p → p ∈ participants.
Proof. unfold snake_squad. destruct (Nat.odd _); apply list_elem_of_lookup_2. Qed.

Section pool.
Context (leagueId : string) (participants : list string) (pool : list PlayerCandidate).
Context (distinct_squads : NoDup participants) (named_squads : ""%string ∉ participants).
Context (distinct_players : NoDup (pc_id <$> pool)).
Context (enough : ∀ pos, Z.of_nat (length participants) * at_position SQUAD_POSITION_LIMITS pos ≤ count_position pc_position pos pool).

Lemma same_player p q : p ∈ pool → q ∈ pool → pc_id p = pc_id q → p = q.
Proof.
  intros [i Hi]%list_elem_of_lookup [j Hj]%list_elem_of_lookup E. assert (i = j) as <-; [|by simplify_eq].
  apply (NoDup_lookup (pc_id <$> pool) i j (pc_id p)); rewrite ?list_lookup_fmap, ?Hi, ?Hj; cbn; [done|done|by rewrite E].
Qed.

(** There is a free player the squad on turn may take. *)
Lemma free_player d room turn : draft_inv leagueId participants 15 pool d → room_ok leagueId participants d.2 room →
  dm_currentPickIndex d.1 = length (dr_picks room) →
  (∀ squadId, squadId ∈ participants → ∃ l, map_get squadId (dm_squadDraftedPlayers d.1) = Some l ∧
      pc_id <$> l = lo_playerId <$> List.filter (λ o, bool_decide (lo_squadId o = squadId)) (dr_picks room)) →
  getCurrentTurn d.1 = Some turn → tn_squadId turn ∈ participants →
  ∃ c, c ∈ pool ∧ isPlayerEligibleForSquad (tn_squadId turn) c d.1 = true ∧ pc_id c ∉ lo_playerId <$> dr_picks room.
Proof.
  intros Hi Hr Ei Hs Ht Hp. set (sq := tn_squadId turn) in *.
  pose proof (wi_sequence _ _ _ _ (di_world _ _ _ _ _ Hi)) as Es. cbn [w_manager] in Es.
  assert (length (getSquadPicks sq d.1) < 15)%nat as Hlen.
  { pose proof (squad_size _ _ _ _ _ sq Hi Hp) as Hsz. unfold getCurrentTurn in Ht.
    pose proof (countb_lookup_lt (λ t, bool_decide (tn_squadId t = sq)) _ _ _ Ht ltac:(by apply bool_decide_eq_true)) as Hc.
    rewrite Es in Hc at 2. rewrite snake_count in Hc by done. lia. }
  destruct (room_for_position _ Hlen) as [pos Hpos].
  set (cands := List.filter (λ p, bool_decide (pc_position p = pos)) pool).
  destruct (decide (Forall (λ c, pc_id c ∈ lo_playerId <$> dr_picks room) cands)) as [Hall|Hsome].
  2: { apply not_Forall_Exists, Exists_exists in Hsome as (c & Hc & Hn); [|apply _].
    apply list_elem_of_In, filter_In in Hc as [Hc Hcp]. apply bool_decide_eq_true in Hcp. exists c.
    split_and!; [by apply list_elem_of_In| |done]. unfold isPlayerEligibleForSquad. rewrite Hcp. by apply Z.ltb_lt. }
  exfalso. set (f := λ sq, count_position pc_position pos (getSquadPicks sq d.1)).
  pose proof (sum_below f (at_position SQUAD_POSITION_LIMITS pos) participants sq) as Hsum.
  specialize (Hsum (λ y Hy, di_quota _ _ _ _ _ Hi y pos Hy) Hp Hpos).
  set (all := concat ((λ sq, getSquadPicks sq d.1) <$> participants)).
  assert (cands ⊆+ List.filter (λ p, bool_decide (pc_position p = pos)) all) as Hsub.
  { apply NoDup_submseteq.
    - apply NoDup_ListNoDup, List.NoDup_filter, NoDup_ListNoDup. by eapply NoDup_fmap_1.
    - intros c Hc. pose proof (proj1 (Forall_forall _ _) Hall c Hc) as Hpick.
      apply list_elem_of_In, filter_In in Hc as [Hc Hcp]. apply list_elem_of_In in Hc.
      apply list_elem_of_fmap in Hpick as (o & Eo & Ho). apply list_elem_of_lookup in Ho as [i Hio].
      destruct (ro_picks _ _ _ _ Hr i o Hio) as (Hsnake & _). apply snake_squad_elem in Hsnake.
      destruct (Hs _ Hsnake) as (l & Hl & El).
      assert (lo_playerId o ∈ pc_id <$> l) as (p & Ep & Hpl)%list_elem_of_fmap.
      { rewrite El. apply list_elem_of_fmap_2. apply list_elem_of_In, filter_In. split; [|by apply bool_decide_eq_true].
        apply list_elem_of_In. by eapply list_elem_of_lookup_2. }
      assert (p ∈ getSquadPicks (lo_squadId o) d.1) as Hpp by (unfold getSquadPicks; by rewrite Hl).
      assert (c = p) as ->.
      { apply same_player; [done| |congruence]. by apply (di_drafted _ _ _ _ _ Hi (lo_squadId o)). }
      apply list_elem_of_In, filter_In. split; [|done]. apply list_elem_of_In. subst all.
      apply list_elem_of_In, in_concat. exists (getSquadPicks (lo_squadId o) d.1).
      split; apply list_elem_of_In; [|done]. by apply (list_elem_of_fmap_2 (λ sq, getSquadPicks sq d.1)). }
  apply submseteq_length in Hsub. pose proof (enough pos) as He.
  assert (countb (λ p, bool_decide (pc_position p = pos)) all = sumZ (f <$> participants)) as Hall'.
  { subst all f. rewrite countb_concat, <- list_fmap_compose. done. }
  unfold countb in Hall'. unfold count_position, countb in He. fold cands in He. lia.
Qed.

Lemma auto_pick_free d turn now : draft_inv leagueId participants 15 pool d → getCurrentTurn d.1 = Some turn →
  is_ok (autoPickCurrentTurn now d) = true.
Proof.
  intros Hi Ht. destruct (synced_room _ _ _ _ _ Hi) as (room & Hr & Ei & El & Hs).
  pose proof (wi_sequence _ _ _ _ (di_world _ _ _ _ _ Hi)) as Es. cbn [w_manager] in Es.
  assert (snake_squad participants (length (dr_picks room)) = Some (tn_squadId turn)) as Hsnake.
  { unfold getCurrentTurn in Ht. pose proof (lookup_lt_Some _ _ _ Ht) as Hlt. rewrite Es, build_length in Hlt.
    destruct (build_lookup participants 15 _ Hlt) as (t & Ht' & Hsn & _). rewrite Es in Ht. rewrite Ei in *. congruence. }
  pose proof (snake_squad_elem _ _ _ Hsnake) as Hp.
  destruct (free_player d room turn Hi Hr Ei Hs Ht Hp) as (c & Hc & Hce & Hcn).
  assert (∀ p, getPlayerOwner leagueId (pc_id p) d.2 = None ↔ pc_id p ∉ lo_playerId <$> dr_picks room) as Hown.
  { intros p. unfold getPlayerOwner. split.
    - intros Hg (o & Eo & Ho)%list_elem_of_fmap. assert (map_get (leagueId, pc_id p) (ds_ownershipMap d.2) = Some o) as E.
      { by apply (ro_owned _ _ _ _ Hr). }
      rewrite E in Hg. case_bool_decide as Hempty; [|done]. apply list_elem_of_lookup in Ho as [i Hi'].
      destruct (ro_picks _ _ _ _ Hr i o Hi') as (Hsq & _). apply snake_squad_elem in Hsq. rewrite Hempty in Hsq. done.
    - intros Hn. destruct (map_get _ _) as [o|] eqn:E; [|done]. apply (ro_owned _ _ _ _ Hr) in E as [Ho Eo].
      exfalso. apply Hn. rewrite <- Eo. by apply list_elem_of_fmap_2. }
  unfold autoPickCurrentTurn. rewrite bool_decide_eq_false_2, Ht.
  2: { intros Hc'. apply (di_completed _ _ _ _ _ Hi) in Hc'. unfold getCurrentTurn in Ht. apply lookup_lt_Some in Ht. lia. }
  cbn [or_throw rbind]. destruct (head (eligible_players (tn_squadId turn) d)) as [best|] eqn:Eh.
  2: { exfalso. assert (c ∈ eligible_players (tn_squadId turn) d) as Hin; [|destruct (eligible_players _ _); [by apply not_elem_of_nil in Hin|done]].
    unfold eligible_players. rewrite elem_of_sort_by. apply list_elem_of_In. rewrite !filter_In. rewrite El, (di_pool _ _ _ _ _ Hi).
    split_and!; [by apply list_elem_of_In|by apply bool_decide_eq_true, Hown|done]. }
  assert (best ∈ eligible_players (tn_squadId turn) d) as Hbest by (destruct (eligible_players _ _); [done|]; injection Eh as ->; by left).
  unfold eligible_players in Hbest. rewrite elem_of_sort_by in Hbest. apply list_elem_of_In in Hbest. rewrite !filter_In in Hbest.
  rewrite El, (di_pool _ _ _ _ _ Hi) in Hbest. destruct Hbest as ((Hbp & Hbo) & Hbe). apply list_elem_of_In in Hbp.
  apply bool_decide_eq_true, Hown in Hbo. cbn [or_throw rbind]. destruct d as [m s]. cbn [fst snd] in *. unfold makePick, pick_checks.
  rewrite Ht. cbn [or_throw rbind]. rewrite bool_decide_eq_true_2 by done. cbn [negb throw_if rbind].
  pose proof (di_pool _ _ _ _ _ Hi) as Epool. cbn [fst] in Epool. rewrite Epool.
  destruct (List.find (λ p, pc_id p =? pc_id best) pool) as [p|] eqn:Ef.
  2: { exfalso. apply list_elem_of_In, (find_none _ _ Ef) in Hbp. cbn in Hbp. lia. }
  apply find_some in Ef as [Hpin Hpid]. apply list_elem_of_In in Hpin. apply Z.eqb_eq in Hpid.
  assert (p = best) as -> by (by apply same_player). cbn [or_throw rbind]. rewrite Hbe. cbn [negb throw_if rbind].
  pose proof (execute_succeeds _ _ _ _ _ (pc_id best) now Hr Hsnake Hbo) as Hx. rewrite El.
  destruct (executeDraftPick leagueId (tn_squadId turn) (pc_id best) now s) as [[pk s']|]; [|done]. done.
Qed.
End pool.

(** ** Theorems *)

(** However the calls of a draft overlap, its picks go to the squads in snake
    order and are numbered in turn, no player is picked twice, and the players
    of the league that are owned are exactly those picked, each by the squad
    that picked it. *)
Theorem draft_exclusive_in_order leagueId participants rounds timePerPickSec pool now s0 m s w :
  (∀ playerId, map_get (leagueId, playerId) (ds_ownershipMap s0) = None) →
  new_DraftRoomManager leagueId participants rounds timePerPickSec pool now s0 = (m, s) →
  rtc world_step (Build_world m s [] []) w →
  ∃ room, getDraftRoom leagueId (w_service w) = Some room ∧ NoDup (lo_playerId <$> dr_picks room) ∧
    dr_currentTurnSquadId room = snake_squad participants (length (dr_picks room)) ∧
    (∀ i o, dr_picks room !! i = Some o → snake_squad participants i = Some (lo_squadId o) ∧
      lo_roundDrafted o = S (i / length participants) ∧ lo_pickNumber o = S i) ∧
    ∀ playerId o, map_get (leagueId, playerId) (ds_ownershipMap (w_service w)) = Some o ↔
      o ∈ dr_picks room ∧ lo_playerId o = playerId.
Proof.
  intros H0 Hn Hr. pose proof (new_manager_inv _ _ _ _ _ _ _ _ _ H0 Hn) as Hi.
  destruct (world_reachable_inv _ _ _ _ _ Hi Hr) as [_ _ (room & Hroom & _) _]. exists room. by destruct Hroom.
Qed.

(** The turn a room works out from the index of the pick is the entry of the
    order the manager drew up: the same squad, in every round. *)
Theorem snake_orders_agree participants rounds k : (k < rounds * length participants)%nat →
  snake_squad participants k = tn_squadId <$> buildSnakePickOrder participants rounds !! k ∧
  length (buildSnakePickOrder participants rounds) = (rounds * length participants)%nat.
Proof.
  intros Hk. split; [|apply build_length]. by destruct (build_lookup participants rounds k Hk) as (turn & -> & -> & _).
Qed.

Lemma new_draft_inv leagueId participants rounds timePerPickSec pool now s0 d :
  (∀ playerId, map_get (leagueId, playerId) (ds_ownershipMap s0) = None) →
  new_DraftRoomManager leagueId participants rounds timePerPickSec pool now s0 = d →
  draft_inv leagueId participants (default 15%nat rounds) pool d.
Proof.
  intros H0 Hn. destruct d as [m s]. pose proof (new_manager_inv _ _ _ _ _ _ _ _ _ H0 Hn) as Hi.
  injection Hn as <- <-. constructor; cbn [fst snd]; try done; [| |cbn; lia].
  - intros sq p Hsq Hp. unfold getSquadPicks in Hp. cbn in Hp. rewrite (new_squads _ _ Hsq) in Hp. by apply not_elem_of_nil in Hp.
  - intros sq pos Hsq. unfold getSquadPicks. cbn [dm_squadDraftedPlayers]. rewrite (new_squads _ _ Hsq). by destruct pos.
Qed.

(** C34. When the picks of a draft of fifteen rounds do not overlap, no squad ever
    exceeds the quota of a position, and once it is completed every squad has
    exactly two goalkeepers, five defenders, five midfielders and three
    forwards, all different players of the pool. *)
Theorem completed_draft_fills_squads leagueId participants timePerPickSec pool now s0 d0 d squadId :
  (∀ playerId, map_get (leagueId, playerId) (ds_ownershipMap s0) = None) → NoDup participants →
  new_DraftRoomManager leagueId participants None timePerPickSec pool now s0 = d0 →
  rtc play_step d0 d → squadId ∈ participants →
  (∀ pos, count_position pc_position pos (getSquadPicks squadId d.1) ≤ at_position SQUAD_POSITION_LIMITS pos) ∧
  NoDup (pc_id <$> getSquadPicks squadId d.1) ∧ (∀ p, p ∈ getSquadPicks squadId d.1 → p ∈ pool) ∧
  (dm_status d.1 = COMPLETED → getSquadPositionCounts squadId d.1 = SQUAD_POSITION_LIMITS).
Proof.
  intros H0 Hn Hnew Hr Hsq. pose proof (new_draft_inv _ _ _ _ _ _ _ _ H0 Hnew) as Hi0. cbn [default] in Hi0.
  pose proof (play_reachable_inv _ _ _ _ _ _ Hi0 Hr) as Hi. split_and!.
  - intros pos. by apply (di_quota _ _ _ _ _ Hi).
  - destruct (synced_room _ _ _ _ _ Hi) as (room & Hroom & _ & _ & Hs). destruct (Hs squadId Hsq) as (l & Hl & El).
    unfold getSquadPicks. rewrite Hl. cbn [default]. change (NoDup (pc_id <$> l)). rewrite El.
    eapply sublist_NoDup; [exact (ro_players _ _ _ _ Hroom)|].
    clear. induction (dr_picks room) as [|o k IH]; [done|]. cbn. destruct (bool_decide _); cbn; by constructor.
  - intros p. by apply (di_drafted _ _ _ _ _ Hi).
  - intros Hc. apply (di_completed _ _ _ _ _ Hi) in Hc. pose proof (squad_size _ _ _ _ _ squadId Hi Hsq) as Hsz.
    rewrite Hc, firstn_all in Hsz. pose proof (wi_sequence _ _ _ _ (di_world _ _ _ _ _ Hi)) as Es. cbn [w_manager] in Es.
    rewrite Es, snake_count in Hsz by done.
    pose proof (count_position_total pc_position (getSquadPicks squadId d.1)) as Ht.
    unfold sum_of in Ht. cbn [positions fmap list_fmap sumZ] in Ht.
    pose proof (λ pos, di_quota _ _ _ _ _ Hi squadId pos Hsq) as Hq.
    pose proof (Hq GKP) as Q1. pose proof (Hq DEF) as Q2. pose proof (Hq MID) as Q3. pose proof (Hq FWD) as Q4.
    cbn [at_position SQUAD_POSITION_LIMITS at_GKP at_DEF at_MID at_FWD] in Q1, Q2, Q3, Q4.
    unfold getSquadPositionCounts, SQUAD_POSITION_LIMITS. f_equal; lia.
Qed.

(** With a pool of different players that holds enough of every position for
    all the squads, the automatic pick succeeds on every turn of a draft of
    fifteen rounds: it never runs out of eligible players. *)
Theorem auto_pick_never_stuck leagueId participants timePerPickSec pool now s0 d0 d turn now' :
  (∀ playerId, map_get (leagueId, playerId) (ds_ownershipMap s0) = None) → NoDup participants → ""%string ∉ participants →
  NoDup (pc_id <$> pool) →
  (∀ pos, Z.of_nat (length participants) * at_position SQUAD_POSITION_LIMITS pos ≤ count_position pc_position pos pool) →
  new_DraftRoomManager leagueId participants None timePerPickSec pool now s0 = d0 →
  rtc play_step d0 d → getCurrentTurn d.1 = Some turn →
  ∃ pick d', autoPickCurrentTurn now' d = Ok (pick, d') ∧ lo_squadId pick = tn_squadId turn.
Proof.
  intros H0 Hn He Hp Hpos Hnew Hr Ht. pose proof (new_draft_inv _ _ _ _ _ _ _ _ H0 Hnew) as Hi0. cbn [default] in Hi0.
  pose proof (play_reachable_inv _ _ _ _ _ _ Hi0 Hr) as Hi.
  pose proof (auto_pick_free _ _ _ Hn He Hp Hpos d turn now' Hi Ht) as Hok.
  destruct (autoPickCurrentTurn now' d) as [[pick d']|] eqn:E; [|done]. exists pick, d'. split; [done|].
  unfold autoPickCurrentTurn in E. rewrite Ht in E. destruct (bool_decide _); [done|]. cbn [or_throw rbind] in E.
  destruct (head _) as [best|]; [|done]. cbn [or_throw rbind] in E.
  destruct (makePick _ _ _ _) as [[pk [m s]]|] eqn:Em; [|done]. injection E as <- _.
  destruct d as [m0 s1]. unfold makePick in Em. destruct (pick_checks _ _ _) as [player|]; [|done]. cbn [rbind] in Em.
  destruct (executeDraftPick _ _ _ _ _) as [[pk' s2]|] eqn:Ee; [|done]. injection Em as <- _ _.
  destruct (synced_room _ _ _ _ _ Hi) as (room & Hroom & _ & El & _). cbn [fst] in El. rewrite El in Ee.
  by apply (draft_execute_ok _ _ _ _ _ _ _ _ _ Hroom) in Ee as (_ & ? & _).
Qed.

(** ** Overlapping picks *)

Inductive race_action : Type := Request (squadId : string) (playerId : Z) | Lock | Made.

Definition race_run (w : world) (a : race_action) : option world :=
  let m := w_manager w in
  match a with
  | Request squadId playerId =>
      match pick_checks squadId playerId m with
      | Ok player => Some (Build_world m (w_service w) (w_waiting w ++ [(squadId, player)]) (w_picked w))
      | Err _ => None
      end
  | Lock =>
      match w_waiting w with
      | (squadId, player) :: rest =>
          match executeDraftPick (dm_leagueId m) squadId (pc_id player) 0 (w_service w) with
          | Ok (pick, s) => Some (Build_world m s rest (w_picked w ++ [(squadId, player, pick)]))
          | Err _ => Some (Build_world m (w_service w) rest (w_picked w))
          end
      | [] => None
      end
  | Made =>
      match w_picked w with
      | (squadId, player, pick) :: rest => Some (Build_world (pick_made squadId player pick m) (w_service w) (w_waiting w) rest)
      | [] => None
      end
  end.

Lemma race_run_step w a w' : race_run w a = Some w' → world_step w w'.
Proof.
  destruct w as [m s wt pk], a as [squadId playerId| |]; cbn [race_run w_manager w_service w_waiting w_picked]; intros H.
  - destruct (pick_checks squadId playerId m) as [player|] eqn:E; [|done]. injection H as <-. by eapply world_request.
  - destruct wt as [|[squadId player] rest]; [done|]. destruct (executeDraftPick _ _ _ _ _) as [[pick s']|] eqn:E; injection H as <-.
    + by eapply world_locked.
    + by eapply world_refused.
  - destruct pk as [|[[squadId player] pick] rest]; [done|]. injection H as <-. apply world_made.
Qed.

Definition race_runs (w : world) (l : list race_action) : option world :=
  foldl (λ w a, w ≫= λ w, race_run w a) (Some w) l.

Lemma race_runs_reach w l w' : race_runs w l = Some w' → rtc world_step w w'.
Proof.
  unfold race_runs. revert w. induction l as [|a l IH]; intros w; [by intros [= <-]|]. cbn.
  destruct (race_run w a) as [w1|] eqn:E.
  - intros H. eapply rtc_l; [by eapply race_run_step|]. by apply IH.
  - intros H. exfalso. revert H. clear. induction l; [done|]. done.
Qed.

Definition race_pool : list PlayerCandidate :=
  [Build_PlayerCandidate 1 GKP 50 10; Build_PlayerCandidate 2 GKP 50 20; Build_PlayerCandidate 3 GKP 50 30;
   Build_PlayerCandidate 4 MID 60 40; Build_PlayerCandidate 5 MID 60 50; Build_PlayerCandidate 6 MID 60 60;
   Build_PlayerCandidate 7 MID 60 70; Build_PlayerCandidate 8 MID 60 80].

Definition race_start : world :=
  let d := new_DraftRoomManager "L" ["A"; "B"]%string None None race_pool 0 clear in Build_world d.1 d.2 [] [].

(** Five picks one by one, then two of the squad with two turns in a row. *)
Definition race_actions : list race_action :=
  mjoin ((λ x : string * Z, [Request x.1 x.2; Lock; Made]) <$> [("A", 4); ("B", 1); ("B", 5); ("A", 6); ("A", 7)]%string)
  ++ [Request "B" 2; Request "B" 3; Lock; Lock; Made; Made].

(** The quota is checked before the lock: at the turn of the snake a squad has
    two turns in a row, and two picks of it that overlap can leave it with a third goalkeeper. *)
Theorem overlapping_picks_break_quota : ∃ m s w,
  new_DraftRoomManager "L" ["A"; "B"]%string None None race_pool 0 clear = (m, s) ∧
  rtc world_step (Build_world m s [] []) w ∧
  at_position SQUAD_POSITION_LIMITS GKP < count_position pc_position GKP (getSquadPicks "B" (w_manager w)).
Proof.
  destruct (race_runs race_start race_actions) as [w|] eqn:E; [|vm_compute in E; discriminate E].
  exists (w_manager race_start), (w_service race_start), w. split; [done|]. split.
  - apply (race_runs_reach _ _ _ E).
  - assert (count_position pc_position GKP (getSquadPicks "B" (w_manager w)) = 3) as ->; [|done].
    assert (race_runs race_start race_actions = Some w →
      (λ w, count_position pc_position GKP (getSquadPicks "B" (w_manager w))) <$> race_runs race_start race_actions = Some 3) as H
      by (intros _; vm_compute; reflexivity).
    specialize (H E). rewrite E in H. by injection H.
Qed.

(** ** Witnesses *)

Definition demo_pool : list PlayerCandidate :=
  imap (λ i pos, Build_PlayerCandidate (Z.of_nat i) pos 50 (Z.of_nat i))
    (replicate 4 GKP ++ replicate 10 DEF ++ replicate 10 MID ++ replicate 6 FWD).

Definition demo_draft : DraftRoomManager * DraftService :=
  new_DraftRoomManager "L" ["A"; "B"]%string None None demo_pool 0 clear.

Definition demo_auto (d : DraftRoomManager * DraftService) : DraftRoomManager * DraftService :=
  match autoPickCurrentTurn 0 d with Ok (_, d') => d' | Err _ => d end.

Lemma demo_auto_step d : rtc play_step d (demo_auto d).
Proof.
  unfold demo_auto. destruct (autoPickCurrentTurn 0 d) as [[pick d']|] eqn:E; [|apply rtc_refl].
  apply rtc_once. by eapply play_auto.
Qed.

Lemma demo_autos n d : rtc play_step d (Nat.iter n demo_auto d).
Proof. induction n as [|n IH]; [apply rtc_refl|]. etrans; [exact IH|]. apply demo_auto_step. Qed.

Lemma draft_exclusive_in_order_witness : ∃ w room,
  race_runs race_start race_actions = Some w ∧ getDraftRoom "L" (w_service w) = Some room ∧ NoDup (lo_playerId <$> dr_picks room).
Proof.
  destruct (race_runs race_start race_actions) as [w|] eqn:E; [|vm_compute in E; discriminate E].
  destruct (draft_exclusive_in_order "L" ["A"; "B"]%string None None race_pool 0 clear (w_manager race_start) (w_service race_start) w)
    as (room & H1 & H2 & _).
  - intros playerId. reflexivity.
  - reflexivity.
  - apply (race_runs_reach _ _ _ E).
  - exists w, room. split; [reflexivity|]. split; assumption.
Defined.

Lemma snake_orders_agree_witness : snake_squad ["A"; "B"; "C"]%string 4 = Some "B"%string.
Proof.
  destruct (snake_orders_agree ["A"; "B"; "C"]%string 2 4) as [H _]; [cbn; lia|]. rewrite H. reflexivity.
Defined.

Lemma completed_draft_fills_squads_witness :
  getSquadPositionCounts "B" (Nat.iter 30 demo_auto demo_draft).1 = Build_ByPosition 2 5 5 3.
Proof.
  apply (completed_draft_fills_squads "L" ["A"; "B"]%string None demo_pool 0 clear demo_draft (Nat.iter 30 demo_auto demo_draft) "B").
  - intros playerId. reflexivity.
  - apply (bool_decide_unpack _). vm_compute. exact I.
  - reflexivity.
  - apply demo_autos.
  - right. left.
  - vm_compute. reflexivity.
Defined.

Lemma auto_pick_never_stuck_witness : ∃ pick d', autoPickCurrentTurn 0 (Nat.iter 7 demo_auto demo_draft) = Ok (pick, d') ∧
  lo_squadId pick = "A"%string.
Proof.
  apply (auto_pick_never_stuck "L" ["A"; "B"]%string None demo_pool 0 clear demo_draft (Nat.iter 7 demo_auto demo_draft)
    (Build_Turn "A" 4 8) 0).
  - intros playerId. reflexivity.
  - apply (bool_decide_unpack _). vm_compute. exact I.
  - apply (bool_decide_unpack _). vm_compute. exact I.
  - apply (bool_decide_unpack _). vm_compute. exact I.
  - intros []; vm_compute; discriminate.
  - reflexivity.
  - apply demo_autos.
  - vm_compute. reflexivity.
Defined.
