(* ===== verification/Json.v ===== *)
(** * JSON values and their canonical text

    The values [JSON.stringify] prints, and the two functions of the program
    that print them with sorted keys: [canonicalizePayload]
    ([backend/src/services/audit/cryptoAuditLog.ts]) and [stableStringify]
    ([backend/src/middleware/idempotency.ts]).  A number is the text
    [JSON.stringify] gives it ([NaN] and the infinities print as [null] and are
    [JNull]); a string is the UTF-8 text it stands for, and keys are compared
    by its bytes. *)

From Stdlib Require Import Strings.Ascii Strings.String.
From S2P Require Import Prelude.

#[local] Open Scope string_scope.
#[local] Open Scope Z_scope.

Inductive Json : Type :=
| JUndefined
| JNull
| JBool (b : bool)
| JNumber (text : string)
| JString (s : string)
| JArray (l : list Json)
| JObject (l : list (string * Json)).

(** The induction principle that goes through arrays and objects. *)
Lemma Json_ind' (P : Json → Prop) :
  P JUndefined → P JNull → (∀ b, P (JBool b)) → (∀ t, P (JNumber t)) → (∀ s, P (JString s)) →
  (∀ l, Forall P l → P (JArray l)) →
  (∀ l : list (string * Json), Forall (λ kv, P kv.2) l → P (JObject l)) →
  ∀ v, P v.
Proof.
  intros Hu Hn Hb Hnum Hs Ha Ho. fix IH 1. intros [| |b|t|s|l|l].
  - exact Hu.
  - exact Hn.
  - apply Hb.
  - apply Hnum.
  - apply Hs.
  - apply Ha. induction l as [|v l IHl]; constructor; [apply IH|apply IHl].
  - apply Ho. induction l as [|[k v] l IHl]; constructor; [apply IH|apply IHl].
Qed.

(** ** [JSON.stringify] of a string *)

Definition dquote : ascii := "034"%char.
Definition backslash : ascii := "092"%char.

Definition hex_digit (n : nat) : ascii :=
  ascii_of_nat (if (n <? 10)%nat then 48 + n else 87 + n).

Definition quote_char (c : ascii) : string :=
  let n := nat_of_ascii c in
  if decide (c = dquote) then String backslash (String dquote "")
  else if decide (c = backslash) then String backslash (String backslash "")
  else if (n =? 8)%nat then String backslash "b"
  else if (n =? 9)%nat then String backslash "t"
  else if (n =? 10)%nat then String backslash "n"
  else if (n =? 12)%nat then String backslash "f"
  else if (n =? 13)%nat then String backslash "r"
  else if (n <? 32)%nat
  then String backslash ("u00" +:+ String (hex_digit (n / 16)) (String (hex_digit (n mod 16)) ""))
  else String c "".

Fixpoint quote_chars (s : string) : string :=
  match s with "" => "" | String c s => quote_char c +:+ quote_chars s end.

Definition quote (s : string) : string := String dquote (quote_chars s +:+ String dquote "").

(** ** The two printers *)

(** [strs.join(",")]. *)
Fixpoint join (l : list string) : string :=
  match l with [] => "" | [s] => s | s :: l => s +:+ "," +:+ join l end.

Definition compare_keys (a b : string) : Z :=
  match String.compare a b with Lt => -1 | Eq => 0 | Gt => 1 end.

(** [.sort()] on the entries of an object, whose keys are distinct. *)
Definition sort_keys {A} : list (string * A) → list (string * A) :=
  sort_by (λ p q, compare_keys p.1 q.1).

Definition pair_text (kv : string * string) : string := quote kv.1 +:+ ":" +:+ kv.2.

Definition scalar_text (v : Json) : string :=
  match v with
  | JNull => "null"
  | JBool b => if b then "true" else "false"
  | JNumber t => t
  | JString s => quote s
  | _ => "undefined"
  end.

(** [canonicalizePayload]: an [undefined] element of an array joins as the empty
    text, elsewhere it is interpolated as [undefined]. *)
Fixpoint canonicalizePayload (v : Json) : string :=
  match v with
  | JArray l =>
      "[" +:+ join (map (λ v, match v with JUndefined => "" | _ => canonicalizePayload v end) l) +:+ "]"
  | JObject l =>
      "{" +:+ join (map pair_text (sort_keys (map (λ '(k, v), (k, canonicalizePayload v)) l))) +:+ "}"
  | _ => scalar_text v
  end.

(** [stableStringify]: [undefined] is [null] in an array, is left out of an
    object and is empty at the top. *)
Fixpoint stableStringify (v : Json) : string :=
  match v with
  | JUndefined => ""
  | JArray l =>
      "[" +:+ join (map (λ v, match v with JUndefined => "null" | _ => stableStringify v end) l) +:+ "]"
  | JObject l =>
      "{" +:+ join (map pair_text (sort_keys
        (omap (λ kv : string * Json, match kv with
                 | (_, JUndefined) => None
                 | (k, v) => Some (k, stableStringify v)
                 end) l))) +:+ "}"
  | _ => scalar_text v
  end.

(** What a value is after [JSON.stringify] and [JSON.parse], or once stored in
    a [jsonb] column. *)
Fixpoint stored (v : Json) : Json :=
  match v with
  | JArray l => JArray (map (λ v, match v with JUndefined => JNull | _ => stored v end) l)
  | JObject l =>
      JObject (omap (λ kv : string * Json, match kv with
                       | (_, JUndefined) => None
                       | (k, v) => Some (k, stored v)
                       end) l)
  | _ => v
  end.

(** ** Which values a text can stand for *)

Definition number_char (c : ascii) : bool :=
  let n := nat_of_ascii c in
  (48 <=? n)%nat && (n <=? 57)%nat || (n =? 43)%nat || (n =? 45)%nat || (n =? 46)%nat ||
  (n =? 69)%nat || (n =? 101)%nat.

Definition number_text (t : string) : bool :=
  negb (String.eqb t "") && forallb number_char (list_ascii_of_string t).

(** No [undefined] inside, numbers that read as numbers, distinct keys. *)
Fixpoint json_wf (v : Json) : bool :=
  match v with
  | JUndefined => false
  | JNumber t => number_text t
  | JArray l => forallb json_wf l
  | JObject l => bool_decide (NoDup l.*1) && forallb (λ kv, json_wf kv.2) l
  | _ => true
  end.

(** The same value up to the order of the keys of its objects, at any depth. *)
Inductive same_json : Json → Json → Prop :=
| same_refl v : same_json v v
| same_sym v w : same_json v w → same_json w v
| same_trans u v w : same_json u v → same_json v w → same_json u w
| same_element l1 l2 v w : same_json v w → same_json (JArray (l1 ++ v :: l2)) (JArray (l1 ++ w :: l2))
| same_property l1 l2 k v w : same_json v w →
    same_json (JObject (l1 ++ (k, v) :: l2)) (JObject (l1 ++ (k, w) :: l2))
| same_order l l' : NoDup l.*1 → l ≡ₚ l' → same_json (JObject l) (JObject l').

#[export] Instance same_json_equivalence : Equivalence same_json.
Proof. split; [exact same_refl|exact same_sym|exact same_trans]. Qed.

(** Keys sorted at every depth, and the text of such a value. *)
Fixpoint norm (v : Json) : Json :=
  match v with
  | JArray l => JArray (map norm l)
  | JObject l => JObject (sort_keys (map (λ '(k, v), (k, norm v)) l))
  | _ => v
  end.

Fixpoint print (v : Json) : string :=
  match v with
  | JArray l => "[" +:+ join (map print l) +:+ "]"
  | JObject l => "{" +:+ join (map (λ '(k, v), pair_text (k, print v)) l) +:+ "}"
  | _ => scalar_text v
  end.

(** ** Sorting keys *)

Lemma compare_keys_le a b : compare_keys a b ≤ 0 ↔ String.le a b.
Proof. unfold compare_keys, String.le, String.leb. destruct (String.compare a b); split; done. Qed.

Lemma compare_keys_eq a b : compare_keys a b = 0 → a = b.
Proof. unfold compare_keys. destruct (String.compare a b) eqn:E; try done. intros _. by apply String.compare_eq_iff. Qed.

#[export] Instance compare_keys_comparator : Comparator compare_keys.
Proof.
  split.
  - intros a b. unfold compare_keys. rewrite (String.compare_antisym b a). by destruct (String.compare a b).
  - intros a b c. rewrite !compare_keys_le. by etrans.
Qed.

#[export] Instance entries_comparator {A} :
  Comparator (λ p q : string * A, compare_keys p.1 q.1).
Proof.
  split; intros.
  - apply cmp_sgn.
  - by eapply (cmp_trans (cmp := compare_keys)).
Qed.

Lemma sort_keys_perm {A} (l : list (string * A)) : sort_keys l ≡ₚ l.
Proof. apply sort_by_perm. Qed.

(** Mapping the values and sorting the keys commute. *)
Lemma sort_keys_map {A B} (f : A → B) (l : list (string * A)) :
  sort_keys (map (λ '(k, v), (k, f v)) l) = map (λ '(k, v), (k, f v)) (sort_keys l).
Proof.
  unfold sort_keys. etrans; [apply (sort_by_fmap (λ '(k, v), (k, f v)))|].
  unfold fmap. cbn. f_equal. apply sort_by_ext. by intros [??] [??].
Qed.

(** With distinct keys the order they came in is forgotten. *)
Lemma sort_keys_unique {A} (l l' : list (string * A)) :
  NoDup l.*1 → l ≡ₚ l' → sort_keys l = sort_keys l'.
Proof.
  intros Hnd Hp. apply sort_by_unique; [apply _| |done]. intros [k v] [k' v'] Hin Hin' Hc.
  apply compare_keys_eq in Hc. cbn in Hc. subst k'. f_equal.
  apply list_elem_of_lookup in Hin as [i Hi]. apply list_elem_of_lookup in Hin' as [j Hj].
  assert (i = j) as ->.
  { eapply (NoDup_lookup l.*1); [done| |]; rewrite list_lookup_fmap; [by rewrite Hi|by rewrite Hj]. }
  congruence.
Qed.

Lemma keys_map {A B} (f : A → B) (l : list (string * A)) :
  (map (λ '(k, v), (k, f v)) l).*1 = l.*1.
Proof. induction l as [|[k v] l IH]; cbn; [done|]. by rewrite IH. Qed.

(** ** [canonicalizePayload] prints the normal form *)

Lemma norm_same v : json_wf v = true → same_json v (norm v).
Proof.
  induction v as [| | | | |l IH|l IH] using Json_ind'; try done; cbn.
  - rewrite forallb_forall. intros Hwf.
    assert (∀ l0, same_json (JArray (l0 ++ l)) (JArray (l0 ++ map norm l))) as Hgen; [|by apply (Hgen [])].
    induction IH as [|v l Hv IH IHl]; intros l0; cbn; [done|].
    etrans; [apply same_element, Hv, Hwf; by left|].
    rewrite (cons_middle (norm v)), (cons_middle (norm v) l0 (map norm l)), !app_assoc.
    apply IHl. intros w Hw. apply Hwf. by right.
  - intros [Hnd Hwf]%andb_true_iff. apply bool_decide_eq_true_1 in Hnd.
    rewrite forallb_forall in Hwf. 
    etrans; [|apply (same_order (map (λ '(k, v), (k, norm v)) l));
              [by rewrite (keys_map norm)|symmetry; apply sort_keys_perm]].
    clear Hnd.
    assert (∀ l0, same_json (JObject (l0 ++ l)) (JObject (l0 ++ map (λ '(k, v), (k, norm v)) l))) as Hgen;
      [|by apply (Hgen [])].
    induction IH as [|[k v] l Hv IH IHl]; intros l0; cbn; [done|].
    etrans; [apply same_property, Hv, (Hwf (k, v)); by left|].
    rewrite (cons_middle (k, norm v)), (cons_middle (k, norm v) l0 (map _ l)), !app_assoc.
    apply IHl. intros w Hw. apply Hwf. by right.
Qed.

Lemma same_norm v w : same_json v w → norm v = norm w.
Proof.
  induction 1 as [v|v w _ IH|u v w _ IH1 _ IH2|l1 l2 v w _ IH|l1 l2 k v w _ IH|l l' Hnd Hp]; cbn.
  - done.
  - done.
  - congruence.
  - by rewrite !map_app, !map_cons, IH.
  - by rewrite !map_app, !map_cons, IH.
  - f_equal. apply sort_keys_unique; [by rewrite (keys_map norm)|]. by apply Permutation_map.
Qed.

Lemma canonical_is_print v : json_wf v = true → canonicalizePayload v = print (norm v).
Proof.
  induction v as [| | | | |l IH|l IH] using Json_ind'; try done; cbn [json_wf canonicalizePayload norm print].
  - intros Hwf. rewrite forallb_forall in Hwf. do 3 f_equal. rewrite map_map. apply map_ext_in.
    intros v Hv. rewrite Forall_forall in IH.
    pose proof (IH v (proj2 (list_elem_of_In _ _) Hv) (Hwf v Hv)) as <-.
    specialize (Hwf v Hv). by destruct v.
  - intros [_ Hwf]%andb_true_iff. rewrite forallb_forall in Hwf. do 3 f_equal.
    rewrite !sort_keys_map, !map_map. apply map_ext_in. intros [k v] Hkv. do 2 f_equal.
    rewrite Forall_forall in IH.
    assert ((k, v) ∈ l) as Hin by (rewrite <- (sort_keys_perm l); by apply list_elem_of_In).
    apply (IH (k, v) Hin), (Hwf (k, v)). by apply list_elem_of_In.
Qed.

(** ** The text determines the value *)

#[local] Arguments String.append !_ _ /.

Lemma sapp_assoc (a b c : string) : (a +:+ b) +:+ c = a +:+ (b +:+ c).
Proof.
  induction a as [|x a IH]; [done|].
  cbn.
  by rewrite IH.
Qed.

(** Reading a quoted string back. *)
Definition unhex (c : ascii) : nat :=
  let n := nat_of_ascii c in if (n <? 58)%nat then (n - 48)%nat else (n - 87)%nat.

Definition unescape (c : ascii) : ascii :=
  if decide (c = "b"%char) then ascii_of_nat 8
  else if decide (c = "t"%char) then ascii_of_nat 9
  else if decide (c = "n"%char) then ascii_of_nat 10
  else if decide (c = "f"%char) then ascii_of_nat 12
  else if decide (c = "r"%char) then ascii_of_nat 13
  else c.

Fixpoint unquote_chars (s : string) : option (string * string) :=
  match s with
  | "" => None
  | String c s =>
      if decide (c = dquote) then Some ("", s)
      else if decide (c = backslash) then
        match s with
        | String "u" (String _ (String _ (String h (String l s)))) =>
            '(t, rest) ← unquote_chars s; Some (String (ascii_of_nat (16 * unhex h + unhex l)) t, rest)
        | String e s => '(t, rest) ← unquote_chars s; Some (String (unescape e) t, rest)
        | "" => None
        end
      else '(t, rest) ← unquote_chars s; Some (String c t, rest)
  end.

Lemma unquote_quote_char c s :
  unquote_chars (quote_char c +:+ s) = '(t, rest) ← unquote_chars s; Some (String c t, rest).
Proof. destruct c as [[] [] [] [] [] [] [] []]; reflexivity. Qed.

Lemma unquote_quote s rest : unquote_chars (quote_chars s +:+ String dquote rest) = Some (s, rest).
Proof.
  induction s as [|c s IH]; [reflexivity|]. cbn [quote_chars].
  by rewrite sapp_assoc, unquote_quote_char, IH.
Qed.

Lemma quote_prefix s t r1 r2 : quote s +:+ r1 = quote t +:+ r2 → s = t ∧ r1 = r2.
Proof.
  unfold quote. cbn. rewrite !sapp_assoc. cbn. intros [= H].
  pose proof (unquote_quote s r1) as Hs. rewrite H, unquote_quote in Hs. by injection Hs as -> ->.
Qed.

(** What may follow a value: nothing that could extend a number. *)
Definition delim (r : string) : bool :=
  match r with "" => true | String c _ => negb (number_char c) end.

Lemma number_prefix t u r1 r2 :
  forallb number_char (list_ascii_of_string t) = true →
  forallb number_char (list_ascii_of_string u) = true →
  delim r1 = true → delim r2 = true → t +:+ r1 = u +:+ r2 → t = u ∧ r1 = r2.
Proof.
  revert u. induction t as [|c t IH]; intros [|d u]; cbn; intros Ht Hu H1 H2 H.
  - done.
  - subst r1. cbn in H1. destruct (number_char d); done.
  - subst r2. cbn in H2. destruct (number_char c); done.
  - injection H as -> H. apply andb_true_iff in Ht as [_ Ht]. apply andb_true_iff in Hu as [_ Hu].
    by destruct (IH u Ht Hu H1 H2 H) as [-> ->].
Qed.

(** The first character says what kind of value follows. *)
Definition kind (v : Json) : nat :=
  match v with
  | JUndefined => 7 | JNull => 0 | JBool true => 2 | JBool false => 3 | JNumber _ => 1
  | JString _ => 4 | JArray _ => 5 | JObject _ => 6
  end.

Definition kind_of_char (c : ascii) : nat :=
  if number_char c then 1
  else if decide (c = "n"%char) then 0 else if decide (c = "t"%char) then 2
  else if decide (c = "f"%char) then 3 else if decide (c = dquote) then 4
  else if decide (c = "["%char) then 5 else if decide (c = "{"%char) then 6 else 8.

Lemma print_head v : json_wf v = true → ∃ c s, print v = String c s ∧ kind_of_char c = kind v.
Proof.
  destruct v as [| |[]|t|s|l|l]; intros Hwf; try done.
  - by exists "n"%char, "ull".
  - by exists "t"%char, "rue".
  - by exists "f"%char, "alse".
  - cbn in Hwf. unfold number_text in Hwf. apply andb_true_iff in Hwf as [Hne Hwf].
    destruct t as [|c t]; [done|]. exists c, t. split; [done|]. cbn in Hwf |- *.
    apply andb_true_iff in Hwf as [Hc _]. unfold kind_of_char. by rewrite Hc.
  - by eexists dquote, _.
  - by eexists "["%char, _.
  - by eexists "{"%char, _.
Qed.

Lemma same_kind v w r1 r2 :
  json_wf v = true → json_wf w = true → print v +:+ r1 = print w +:+ r2 → kind v = kind w.
Proof.
  intros (c & s & E1 & <-)%print_head (d & s' & E2 & <-)%print_head H.
  rewrite E1, E2 in H. cbn in H. by injection H as -> _.
Qed.

(** Lists of texts joined with commas and closed by [z]. *)
Section joined.
Context {A : Type} (p : A → string) (ok : A → Prop) (z : ascii).
Context (z_close : z ≠ ","%char) (z_delim : number_char z = false).
Context (p_head : ∀ a, ok a → ∃ c s, p a = String c s ∧ c ≠ z).

Definition prefix_free (a : A) : Prop :=
  ∀ b r1 r2, ok b → delim r1 = true → delim r2 = true → p a +:+ r1 = p b +:+ r2 → a = b ∧ r1 = r2.

Definition more (l : list A) : string :=
  match l with [] => "" | _ => "," +:+ join (map p l) end.

Lemma join_cons a l : join (map p (a :: l)) = p a +:+ more l.
Proof. destruct l; cbn; [|done]. induction (p a) as [|c s IH]; cbn; [done|]. by rewrite <- IH. Qed.

Lemma more_delim l r : delim (more l +:+ String z r) = true.
Proof. destruct l; cbn; [by rewrite z_delim|done]. Qed.

Lemma join_prefix l m r1 r2 :
  Forall prefix_free l → Forall ok l → Forall ok m →
  join (map p l) +:+ String z r1 = join (map p m) +:+ String z r2 → l = m ∧ r1 = r2.
Proof.
  intros Hpf. revert m. induction Hpf as [|a l Ha _ IH]; intros m Hl Hm H.
  - destruct m as [|b m]; [cbn in H; by injection H|]. exfalso. inversion Hm as [|?? Hb _]; subst.
    rewrite join_cons in H. destruct (p_head b Hb) as (c & s & E & Hc). rewrite E in H. cbn in H.
    injection H as H _. done.
  - inversion Hl as [|?? Hoa Hol]; subst. destruct m as [|b m].
    { exfalso. rewrite join_cons in H. destruct (p_head a Hoa) as (c & s & E & Hc). rewrite E in H.
      cbn in H. injection H as H _. done. }
    inversion Hm as [|?? Hob Hom]; subst. rewrite !join_cons, !sapp_assoc in H.
    apply Ha in H as [<- H]; [|done|apply more_delim|apply more_delim].
    destruct l as [|a' l], m as [|b' m]; cbn [more] in H; cbn in H.
    + injection H as ->. done.
    + by injection H.
    + injection H as H _. by destruct z_close.
    + injection H as H. by destruct (IH (b' :: m) Hol Hom H) as [-> ->].
Qed.

End joined.

Lemma print_prefix v : json_wf v = true → prefix_free print (λ w, json_wf w = true) v.
Proof.
  induction v as [| | | | |l IH|l IH] using Json_ind'; intros Hv w r1 r2 Hw H1 H2 H;
    pose proof (same_kind _ _ _ _ Hv Hw H) as Hk; destruct w as [| |b'|t'|s'|m|m];
    try (destruct b as []); try (destruct b' as []); try discriminate.
  all: cbn [print] in H.
  all: try (cbn in H; by injection H as ->).
  - cbn in Hv, Hw, H. unfold number_text in Hv, Hw.
    apply andb_true_iff in Hv as [_ Hv]. apply andb_true_iff in Hw as [_ Hw].
    by destruct (number_prefix t t' r1 r2 Hv Hw H1 H2 H) as [-> ->].
  - cbn [scalar_text] in H. by apply quote_prefix in H as [-> ->].
  - cbn [json_wf] in Hv, Hw. rewrite forallb_forall in Hv, Hw.
    cbn in H. rewrite !sapp_assoc in H. cbn in H. injection H as H.
    eapply (join_prefix print (λ w, json_wf w = true) "]"%char) in H as [-> ->];
      [done|done|done| | | |].
    + intros a Ha. destruct (print_head a Ha) as (c & s & E & Hc). exists c, s. split; [done|].
      intros ->. destruct a as [| |[]| | | |]; done.
    + rewrite Forall_forall in IH |- *. intros a Ha. apply IH; [done|]. by apply Hv, list_elem_of_In.
    + rewrite Forall_forall. intros a Ha. by apply Hv, list_elem_of_In.
    + rewrite Forall_forall. intros a Ha. by apply Hw, list_elem_of_In.
  - cbn [json_wf] in Hv, Hw. apply andb_true_iff in Hv as [_ Hv]. apply andb_true_iff in Hw as [_ Hw].
    rewrite forallb_forall in Hv, Hw. cbn in H. rewrite !sapp_assoc in H. cbn in H. injection H as H.
    eapply (join_prefix (λ '(k, v), pair_text (k, print v)) (λ kv, json_wf kv.2 = true) "}"%char) in H
      as [-> ->]; [done|done|done| | | |].
    + intros [k a] _. unfold pair_text, quote. cbn. eauto.
    + rewrite Forall_forall in IH |- *. intros [k a] Ha [k' a'] s1 s2 Ha' D1 D2 E.
      unfold pair_text in E. cbn [fst snd] in E. rewrite !sapp_assoc in E.
      apply quote_prefix in E as [-> E]. cbn in E. injection E as E.
      destruct (IH (k', a) Ha (Hv (k', a) (proj1 (list_elem_of_In _ _) Ha)) a' s1 s2 Ha' D1 D2 E) as [E1 ->].
      cbn in E1. by subst.
    + rewrite Forall_forall. intros a Ha. by apply Hv, list_elem_of_In.
    + rewrite Forall_forall. intros a Ha. by apply Hw, list_elem_of_In.
Qed.

Lemma sapp_nil_r (s : string) : s +:+ "" = s.
Proof. induction s as [|c s IH]; cbn; [done|]. by rewrite IH. Qed.

Lemma norm_wf v : json_wf v = true → json_wf (norm v) = true.
Proof.
  induction v as [| | | | |l IH|l IH] using Json_ind'; try done; cbn [json_wf norm].
  - rewrite !forallb_forall. intros Hwf v (w & <- & Hw)%in_map_iff. rewrite Forall_forall in IH.
    apply IH; [by apply list_elem_of_In|by apply Hwf].
  - intros [Hnd Hwf]%andb_true_iff. apply bool_decide_eq_true_1 in Hnd.
    apply andb_true_iff. split.
    + apply bool_decide_eq_true_2. by rewrite sort_keys_perm, (keys_map norm).
    + rewrite forallb_forall in Hwf |- *. intros kv Hkv%list_elem_of_In. rewrite sort_keys_perm in Hkv.
      apply list_elem_of_In, in_map_iff in Hkv as ([k v] & <- & Hin). rewrite Forall_forall in IH.
      apply (IH (k, v)); [by apply list_elem_of_In|by apply (Hwf (k, v))].
Qed.

Lemma print_inj v w : json_wf v = true → json_wf w = true → print v = print w → v = w.
Proof.
  intros Hv Hw H. destruct (print_prefix v Hv w "" "" Hw eq_refl eq_refl) as [E _]; [|done].
  by rewrite !sapp_nil_r.
Qed.

(** The canonical text is the same exactly for values that are the same up to
    the order of keys: neither does a reordered payload look tampered with, nor
    can a changed one keep its text. *)
Lemma canonical_text_iff v w : json_wf v = true → json_wf w = true →
  canonicalizePayload v = canonicalizePayload w ↔ same_json v w.
Proof.
  intros Hv Hw. rewrite !canonical_is_print by done. split.
  - intros H. assert (norm v = norm w) as E; [|rewrite (norm_same v Hv), E; symmetry; by apply norm_same].
    apply print_inj; [by apply norm_wf..|done].
  - intros H. by rewrite (same_norm v w H).
Qed.

(** *** [stableStringify] *)

Lemma stable_is_canonical v : v ≠ JUndefined → stableStringify v = canonicalizePayload (stored v).
Proof.
  induction v as [| | | | |l IH|l IH] using Json_ind'; try done; intros _;
    cbn [stableStringify stored canonicalizePayload].
  - do 3 f_equal. rewrite map_map. apply map_ext_in. intros v Hv. rewrite Forall_forall in IH.
    pose proof (IH v (proj2 (list_elem_of_In _ _) Hv)) as E.
    destruct v; try done; by apply E.
  - do 5 f_equal. induction IH as [|[k v] l Hv _ IHl]; [done|]. cbn [omap list_omap].
    destruct v; cbn [map]; rewrite ?IHl; [done|..]; do 2 f_equal; by apply Hv.
Qed.

(** So the text [stableStringify] prints, and the fingerprint taken of it,
    determine the body as it is received, up to the order of keys. *)
Lemma stable_text_iff v w :
  v ≠ JUndefined → w ≠ JUndefined → json_wf (stored v) = true → json_wf (stored w) = true →
  stableStringify v = stableStringify w ↔ same_json (stored v) (stored w).
Proof. intros. rewrite !stable_is_canonical by done. by apply canonical_text_iff. Qed.

(** Without [undefined] inside, storing a value changes nothing. *)
Lemma stored_id v : json_wf v = true → stored v = v.
Proof.
  induction v as [| | | | |l IH|l IH] using Json_ind'; try done; cbn [json_wf stored].
  - rewrite forallb_forall. intros Hwf. f_equal. rewrite <- (map_id l) at 2. apply map_ext_in.
    intros v Hv. rewrite Forall_forall in IH. specialize (Hwf v Hv).
    specialize (IH v (proj2 (list_elem_of_In _ _) Hv) Hwf). by destruct v.
  - intros [_ Hwf]%andb_true_iff. rewrite forallb_forall in Hwf. f_equal.
    induction IH as [|[k v] l Hv _ IHl]; [done|]. cbn [omap list_omap].
    specialize (Hv (Hwf (k, v) (or_introl eq_refl))). cbn in Hv.
    rewrite IHl by (intros; apply Hwf; by right).
    assert (json_wf v = true) as Hd by (apply (Hwf (k, v)); by left).
    destruct v; try done; by rewrite Hv.
Qed.

(** The canonical texts of the audit log and of the idempotency fingerprint:
    two payloads have the same text exactly when they are the same value up to
    the order of the keys of their objects, at any depth.  So reordering keys
    never looks like a change, and a change is never hidden by the text. *)
Theorem canonical_text_determines_payload v w : json_wf v = true → json_wf w = true →
  (canonicalizePayload v = canonicalizePayload w ↔ same_json v w) ∧
  (stableStringify v = stableStringify w ↔ same_json v w).
Proof.
  intros Hv Hw. split; [by apply canonical_text_iff|].
  assert (v ≠ JUndefined) by by destruct v. assert (w ≠ JUndefined) by by destruct w.
  rewrite stable_text_iff, !stored_id; rewrite ?stored_id; done.
Qed.

Definition sample_payload : Json :=
  JObject [("amount", JNumber "12.5"); ("to", JObject [("id", JString "u1"); ("ok", JBool true)])].

Definition reordered_payload : Json :=
  JObject [("to", JObject [("ok", JBool true); ("id", JString "u1")]); ("amount", JNumber "12.5")].

Lemma canonical_text_determines_payload_witness :
  canonicalizePayload sample_payload = canonicalizePayload reordered_payload ∧
  same_json sample_payload reordered_payload.
Proof.
  split; [reflexivity|].
  apply (canonical_text_determines_payload sample_payload reordered_payload); reflexivity.
Defined.
