(* ===== verification/IdempotencyStore.v ===== *)
(** * Stores for idempotency keys:
      [backend/src/services/idempotency/idempotencyStore.ts]

    What a store promises is the class [StoreLaws], stated through [record_at],
    the record a key holds at a time.  [MemoryIdempotencyStore] and
    [RedisIdempotencyStore] are its two instances.  The methods of the memory
    store run without an [await] and are functions; those of the Redis store
    are programs of Redis commands between which other clients act, and the
    linearisation lemmas say that each still takes effect at one instant.
    Redis itself and JSON are parameters with their documented laws. *)

From S2P Require Import Prelude.

#[local] Open Scope Z_scope.

Inductive IdempotencyState : Type := PENDING | IN_PROGRESS | COMPLETED | FAILED.

#[export] Instance IdempotencyState_eq_dec : EqDecision IdempotencyState.
Proof. solve_decision. Defined.

Record StoredResponse : Type := {
  sr_statusCode : Z;
  sr_headers : list (string * string);
  sr_body : string
}.

#[export] Instance StoredResponse_eq_dec : EqDecision StoredResponse.
Proof. solve_decision. Defined.

Record IdempotencyRecord : Type := {
  ir_state : IdempotencyState;
  ir_fingerprint : string;
  ir_token : string;
  ir_createdAt : Z;
  ir_updatedAt : Z;
  ir_response : option StoredResponse
}.

#[export] Instance IdempotencyRecord_eq_dec : EqDecision IdempotencyRecord.
Proof. solve_decision. Defined.

Inductive BeginResult : Type :=
| Acquired (token : string)
| Existing (record : IdempotencyRecord).

(** [newRecord], with the random token as an argument. *)
Definition newRecord (now : Z) (uuid fingerprint : string) : IdempotencyRecord :=
  {| ir_state := PENDING; ir_fingerprint := fingerprint; ir_token := uuid;
     ir_createdAt := now; ir_updatedAt := now; ir_response := None |}.

(** [{ ...record, state: "IN_PROGRESS", updatedAt }] and
    [{ ...record, state, response, updatedAt }]. *)
Definition in_progress (now : Z) (r : IdempotencyRecord) : IdempotencyRecord :=
  {| ir_state := IN_PROGRESS; ir_fingerprint := ir_fingerprint r; ir_token := ir_token r;
     ir_createdAt := ir_createdAt r; ir_updatedAt := now; ir_response := ir_response r |}.

Definition completed_record (now : Z) (state : IdempotencyState) (response : StoredResponse)
    (r : IdempotencyRecord) : IdempotencyRecord :=
  {| ir_state := state; ir_fingerprint := ir_fingerprint r; ir_token := ir_token r;
     ir_createdAt := ir_createdAt r; ir_updatedAt := now; ir_response := Some response |}.

(** ** The interface and its laws *)

(** [interface IdempotencyStore]; [uuids n] is the token of attempt [n], and
    [record_at] is the abstraction of a store.  A thrown error is [None]. *)
Class IdempotencyStore (S : Type) : Type := {
  begin : Z → (nat → string) → string → string → Z → S → S * option BeginResult;
  markInProgress : Z → string → string → Z → S → S * bool;
  complete : Z → string → string → IdempotencyState → StoredResponse → Z → S → S * bool;
  release : Z → string → string → S → S * bool;
  record_at : Z → S → string → option IdempotencyRecord;
  store_wf : Z → S → Prop
}.

Section effects.
Context {S : Type} `{IdempotencyStore S}.

(** From [now] on: nothing changes; [k] holds [r] for [ttl]; [k] is gone. *)
Definition keeps (now : Z) (s s' : S) : Prop :=
  ∀ t k, now ≤ t → record_at t s' k = record_at t s k.

Definition writes (now : Z) (k : string) (r : IdempotencyRecord) (ttl : Z) (s s' : S) : Prop :=
  ∀ t k', now ≤ t → record_at t s' k' =
    if decide (k = k') then if t <? now + ttl then Some r else None else record_at t s k'.

Definition erases (now : Z) (k : string) (s s' : S) : Prop :=
  ∀ t k', now ≤ t → record_at t s' k' = if decide (k = k') then None else record_at t s k'.

(** The compare-and-set contract of the three writes after the claim: only the
    owner's call has an effect, [eff], and it says so. *)
Definition owned_write (now : Z) (k tk : string) (eff : IdempotencyRecord → S → S → Prop)
    (s : S) (out : S * bool) : Prop :=
  store_wf now out.1 ∧
  match record_at now s k with
  | Some r => if decide (ir_token r = tk) then out.2 = true ∧ eff r s out.1
              else out.2 = false ∧ keeps now s out.1
  | None => out.2 = false ∧ keeps now s out.1
  end.

End effects.

Class StoreLaws (S : Type) `{IdempotencyStore S} : Prop := {
  store_wf_later now t s : now ≤ t → store_wf now s → store_wf t s;
  record_expires now t s k r : now ≤ t → record_at t s k = Some r → record_at now s k = Some r;
  begin_law now uuids k fp ttl s : 0 < ttl → store_wf now s →
    let out := begin now uuids k fp ttl s in
    store_wf now out.1 ∧
    match record_at now s k with
    | Some r => out.2 = Some (Existing r) ∧ keeps now s out.1
    | None => out.2 = Some (Acquired (uuids O)) ∧ writes now k (newRecord now (uuids O) fp) ttl s out.1
    end;
  markInProgress_law now k tk ttl s : 0 < ttl → store_wf now s →
    owned_write now k tk (λ r, writes now k (in_progress now r) ttl) s (markInProgress now k tk ttl s);
  complete_law now k tk st resp ttl s : 0 < ttl → store_wf now s →
    owned_write now k tk (λ r, writes now k (completed_record now st resp r) (ttl * 1000)) s
      (complete now k tk st resp ttl s);
  release_law now k tk s : store_wf now s →
    owned_write now k tk (λ _, erases now k) s (release now k tk s)
}.

(** ** The in-memory store *)

Module Memory.

Record entry : Type := { e_record : IdempotencyRecord; e_expiresAt : Z }.

Abbreviation store := (gmap string entry).

(** [read]: an expired entry is deleted on the way. *)
Definition read (now : Z) (k : string) (s : store) : store * option IdempotencyRecord :=
  match s !! k with
  | None => (s, None)
  | Some e => if e_expiresAt e <=? now then (delete k s, None) else (s, Some (e_record e))
  end.

Definition write (now : Z) (k : string) (r : IdempotencyRecord) (ttl : Z) (s : store) : store :=
  <[k := {| e_record := r; e_expiresAt := now + ttl |}]> s.

Definition mem_begin (now : Z) (uuids : nat → string) (k fp : string) (ttl : Z) (s : store)
    : store * option BeginResult :=
  match read now k s with
  | (s, Some r) => (s, Some (Existing r))
  | (s, None) => let r := newRecord now (uuids O) fp in
                 (write now k r ttl s, Some (Acquired (ir_token r)))
  end.

Definition mem_markInProgress (now : Z) (k tk : string) (ttl : Z) (s : store) : store * bool :=
  match read now k s with
  | (s, Some r) => if decide (ir_token r = tk) then (write now k (in_progress now r) ttl s, true)
                   else (s, false)
  | (s, None) => (s, false)
  end.

Definition mem_complete (now : Z) (k tk : string) (st : IdempotencyState) (resp : StoredResponse)
    (ttlSeconds : Z) (s : store) : store * bool :=
  match read now k s with
  | (s, Some r) => if decide (ir_token r = tk)
                   then (write now k (completed_record now st resp r) (ttlSeconds * 1000) s, true)
                   else (s, false)
  | (s, None) => (s, false)
  end.

Definition mem_release (now : Z) (k tk : string) (s : store) : store * bool :=
  match read now k s with
  | (s, Some r) => if decide (ir_token r = tk) then (delete k s, true) else (s, false)
  | (s, None) => (s, false)
  end.

Definition mem_record_at (now : Z) (s : store) (k : string) : option IdempotencyRecord :=
  e ← s !! k; if e_expiresAt e <=? now then None else Some (e_record e).

#[global] Instance MemoryIdempotencyStore : IdempotencyStore store := {
  begin := mem_begin;
  markInProgress := mem_markInProgress;
  complete := mem_complete;
  release := mem_release;
  record_at := mem_record_at;
  store_wf := λ _ _, True
}.

(** [read] answers with the record and changes nothing that can be seen. *)
Lemma read_spec now k s :
  (read now k s).2 = record_at now s k ∧ keeps now s (read now k s).1.
Proof.
  unfold read, keeps. cbn [record_at MemoryIdempotencyStore]. unfold mem_record_at.
  destruct (s !! k) as [e|] eqn:E; cbn; [|done].
  destruct (e_expiresAt e <=? now) eqn:Ex; cbn; [|done]. bool_to_prop. split; [done|].
  intros t k' Ht. destruct (decide (k = k')) as [<-|Hk].
  - rewrite lookup_delete_eq, E. cbn [mbind option_bind].
    destruct (Z.leb_spec (e_expiresAt e) t); [done|lia].
  - by rewrite lookup_delete_ne.
Qed.

Lemma write_spec now k r ttl s s' :
  keeps now s s' → writes now k r ttl s (write now k r ttl s').
Proof.
  intros Hs t k' Ht. specialize (Hs t k' Ht). cbn in *. unfold mem_record_at, write in *.
  case_decide as Hk.
  - subst k'. rewrite lookup_insert_eq. cbn [mbind option_bind e_expiresAt e_record].
    destruct (Z.leb_spec (now + ttl) t), (Z.ltb_spec t (now + ttl)); first [done|lia].
  - by rewrite lookup_insert_ne.
Qed.

Lemma delete_spec now k s s' : keeps now s s' → erases now k s (delete k s' : store).
Proof.
  intros Hs t k' Ht. specialize (Hs t k' Ht). cbn in *. unfold mem_record_at in *. case_decide as Hk.
  - subst k'. by rewrite lookup_delete_eq.
  - by rewrite lookup_delete_ne.
Qed.

(** Every write after [read] follows the compare-and-set contract. *)
Lemma owned_after_read now k tk (f : IdempotencyRecord → store → store)
    (eff : IdempotencyRecord → store → store → Prop) s :
  (∀ r s', keeps now s s' → eff r s (f r s')) →
  owned_write now k tk eff s
    match read now k s with
    | (s, Some r) => if decide (ir_token r = tk) then (f r s, true) else (s, false)
    | (s, None) => (s, false)
    end.
Proof.
  intros Hf. destruct (read_spec now k s) as [H1 H2].
  destruct (read now k s) as [s' o]. cbn [fst snd] in H1, H2. subst o.
  unfold owned_write. split; [exact I|].
  destruct (record_at now s k) as [r|]; [|by auto]. case_decide; cbn [fst snd]; auto.
Qed.

#[global] Instance memory_store_laws : StoreLaws store.
Proof.
  constructor.
  - done.
  - intros now t s k r Ht. cbn. unfold mem_record_at. destruct (s !! k) as [e|]; cbn [mbind option_bind]; [|done].
    destruct (Z.leb_spec (e_expiresAt e) t), (Z.leb_spec (e_expiresAt e) now); first [done|lia].
  - intros now uuids k fp ttl s _ _. cbn zeta. split; [done|].
    cbn [begin MemoryIdempotencyStore]. unfold mem_begin.
    destruct (read_spec now k s) as [H1 H2]. destruct (read now k s) as [s' o]. cbn [fst snd] in H1, H2.
    subst o. destruct (record_at now s k); [done|]. split; [done|]. by apply write_spec.
  - intros now k tk ttl s _ _.
    apply (owned_after_read now k tk (λ r, write now k (in_progress now r) ttl)).
    intros. by apply write_spec.
  - intros now k tk st resp ttl s _ _.
    apply (owned_after_read now k tk (λ r, write now k (completed_record now st resp r) (ttl * 1000))).
    intros. by apply write_spec.
  - intros now k tk s _. apply (owned_after_read now k tk (λ _, delete k)).
    intros. by apply delete_spec.
Qed.

End Memory.

(** ** The Redis store *)

(** The commands the store sends, at the server's time: [GET],
    [SET .. PX ttl] and [DEL], with what their documentation promises.  [V] is
    the type of the values kept, JSON text. *)
Class Redis (R V : Type) : Type := {
  rget : Z → R → string → option V;
  rset_px : Z → string → V → Z → R → R;
  rdel : string → R → R
}.

Class RedisLaws (R V : Type) `{Redis R V} : Prop := {
  rget_expires now t r k v : now ≤ t → rget t r k = Some v → rget now r k = Some v;
  rget_set_px now t r k k' v ttl : 0 < ttl → now ≤ t →
    rget t (rset_px now k v ttl r) k' =
      if decide (k = k') then if t <? now + ttl then Some v else None else rget t r k';
  rget_del t r k k' : rget t (rdel k r) k' = if decide (k = k') then None else rget t r k'
}.

Module RedisStore.

(** A method as the program of its [await]s: reading the clock and the three
    commands, each atomic on the server.  [EvalCas _ _ None _] passes the empty
    replacement. *)
Inductive prog (V A : Type) : Type :=
| Ret (a : A)
| Throw
| Now (k : Z → prog V A)
| SetNX (key : string) (v : V) (ttl : Z) (k : bool → prog V A)
| Get (key : string) (k : option V → prog V A)
| EvalCas (key tk : string) (v : option V) (ttl : Z) (k : bool → prog V A).
Arguments Ret {V A} _.
Arguments Throw {V A}.
Arguments Now {V A} _.
Arguments SetNX {V A} _ _ _ _.
Arguments Get {V A} _ _.
Arguments EvalCas {V A} _ _ _ _ _.

Section store.
Context {R V : Type} `{RedisLaws R V}.
Context (stringify : IdempotencyRecord → V) (parse : V → option IdempotencyRecord).

(** [SET key v PX ttl NX]. *)
Definition set_nx (now : Z) (k : string) (v : V) (ttl : Z) (r : R) : R * bool :=
  match rget now r k with Some _ => (r, false) | None => (rset_px now k v ttl r, true) end.

(** [IDEMPOTENCY_CAS_SCRIPT]: the script runs atomically. *)
Definition cas_script (now : Z) (k expected : string) (replacement : option V) (ttl : Z) (r : R)
    : R * bool :=
  match rget now r k with
  | None => (r, false)
  | Some current =>
      match parse current with
      | None => (r, false)
      | Some decoded =>
          if decide (ir_token decoded = expected) then
            match replacement with
            | None => (rdel k r, true)
            | Some v => (rset_px now k v ttl r, true)
            end
          else (r, false)
      end
  end.

(** [attempts] of the 3 iterations are left. *)
Fixpoint begin_loop (attempts attempt : nat) (uuids : nat → string) (k fp : string) (ttl : Z)
    : prog V BeginResult :=
  match attempts with
  | O => Throw
  | S attempts =>
      Now (λ now, let record := newRecord now (uuids attempt) fp in
      SetNX k (stringify record) ttl (λ claimed : bool,
        if claimed then Ret (Acquired (ir_token record)) else
        Get k (λ existing, match existing with
          | Some v => match parse v with Some r => Ret (Existing r) | None => Throw end
          | None => begin_loop attempts (S attempt) uuids k fp ttl
          end)))
  end.

Definition redis_begin (uuids : nat → string) (k fp : string) (ttl : Z) : prog V BeginResult :=
  begin_loop 3 0 uuids k fp ttl.

(** The common shape of [markInProgress] and [complete]: read, compare, [cas]. *)
Definition read_then_cas (k tk : string) (f : Z → IdempotencyRecord → IdempotencyRecord) (ttl : Z)
    : prog V bool :=
  Get k (λ existing, match existing with
    | None => Ret false
    | Some v => match parse v with
                | None => Throw
                | Some record =>
                    if decide (ir_token record = tk)
                    then Now (λ now, EvalCas k tk (Some (stringify (f now record))) ttl Ret)
                    else Ret false
                end
    end).

Definition redis_markInProgress (k tk : string) (ttl : Z) : prog V bool :=
  read_then_cas k tk in_progress ttl.

Definition redis_complete (k tk : string) (st : IdempotencyState) (resp : StoredResponse)
    (ttlSeconds : Z) : prog V bool :=
  read_then_cas k tk (λ now, completed_record now st resp) (ttlSeconds * 1000).

Definition redis_release (k tk : string) : prog V bool := EvalCas k tk None 0 Ret.

(** A program with nobody in between. *)
Fixpoint run {A} (now : Z) (p : prog V A) (r : R) : R * option A :=
  match p with
  | Ret a => (r, Some a)
  | Throw => (r, None)
  | Now k => run now (k now) r
  | SetNX key v ttl k => let '(r, b) := set_nx now key v ttl r in run now (k b) r
  | Get key k => run now (k (rget now r key)) r
  | EvalCas key tk v ttl k => let '(r, b) := cas_script now key tk v ttl r in run now (k b) r
  end.

(** A program among others: before each command, the clock and the server
    change as [rely] allows. *)
Inductive exec {A} (rely : Z → R → Z → R → Prop) : prog V A → Z → R → Z → R → option A → Prop :=
| exec_ret a t r : exec rely (Ret a) t r t r (Some a)
| exec_throw t r : exec rely Throw t r t r None
| exec_now k t r t1 r1 t2 r2 o : rely t r t1 r1 →
    exec rely (k t1) t1 r1 t2 r2 o → exec rely (Now k) t r t2 r2 o
| exec_set_nx key v ttl k t r t1 r1 t2 r2 o : rely t r t1 r1 →
    exec rely (k (set_nx t1 key v ttl r1).2) t1 (set_nx t1 key v ttl r1).1 t2 r2 o →
    exec rely (SetNX key v ttl k) t r t2 r2 o
| exec_get key k t r t1 r1 t2 r2 o : rely t r t1 r1 →
    exec rely (k (rget t1 r1 key)) t1 r1 t2 r2 o → exec rely (Get key k) t r t2 r2 o
| exec_cas key tk v ttl k t r t1 r1 t2 r2 o : rely t r t1 r1 →
    exec rely (k (cas_script t1 key tk v ttl r1).2) t1 (cas_script t1 key tk v ttl r1).1 t2 r2 o →
    exec rely (EvalCas key tk v ttl k) t r t2 r2 o.

Definition redis_record_at (now : Z) (r : R) (k : string) : option IdempotencyRecord :=
  rget now r k ≫= parse.

(** A call that threw counts as [false]: the middleware takes both for a failure. *)
Definition answer (out : R * option bool) : R * bool := (out.1, default false out.2).

#[local] Instance RedisIdempotencyStore : IdempotencyStore R := {
  begin := λ now uuids k fp ttl r, run now (redis_begin uuids k fp ttl) r;
  markInProgress := λ now k tk ttl r, answer (run now (redis_markInProgress k tk ttl) r);
  complete := λ now k tk st resp ttl r, answer (run now (redis_complete k tk st resp ttl) r);
  release := λ now k tk r, answer (run now (redis_release k tk) r);
  record_at := redis_record_at;
  store_wf := λ now r, ∀ t k v, now ≤ t → rget t r k = Some v → parse v ≠ None
}.

(** Running alone is one of the executions among others. *)
Lemma run_exec {A} (rely : Z → R → Z → R → Prop) (p : prog V A) now r :
  (∀ t r, rely t r t r) → exec rely p now r now (run now p r).1 (run now p r).2.
Proof.
  intros Hr. revert r. induction p as [a| |k IH|key v ttl k IH|key k IH|key tk v ttl k IH];
    intros r; cbn; try (destruct (set_nx _ _ _ _ _) as [r' b] eqn:E);
    try (destruct (cas_script _ _ _ _ _ _) as [r' b] eqn:E); econstructor; eauto; rewrite ?E; apply IH.
Qed.

Context (parse_stringify : ∀ r, parse (stringify r) = Some r).

Lemma set_px_writes now k rec ttl r :
  0 < ttl → writes now k rec ttl r (rset_px now k (stringify rec) ttl r).
Proof.
  intros Httl t k' Ht. cbn. unfold redis_record_at. rewrite rget_set_px by done.
  case_decide; [|done]. case_match; [|done]. cbn. apply parse_stringify.
Qed.

Lemma del_erases now k r : erases now k r (rdel k r).
Proof. intros t k' Ht. cbn. unfold redis_record_at. rewrite rget_del. by case_decide. Qed.

Lemma wf_set_px now k rec ttl r :
  0 < ttl → store_wf now r → store_wf now (rset_px now k (stringify rec) ttl r).
Proof.
  intros Httl Hwf t k' v Ht. rewrite rget_set_px by done. repeat case_match; [|done|by apply Hwf].
  intros [= <-]. by rewrite parse_stringify.
Qed.

(** The compare-and-set script is an owned write. *)
Lemma cas_owned now k tk rec' ttl r : 0 < ttl → store_wf now r →
  owned_write now k tk (λ _, writes now k rec' ttl) r (cas_script now k tk (Some (stringify rec')) ttl r).
Proof.
  intros Httl Hwf. unfold owned_write. cbn [record_at RedisIdempotencyStore]. unfold redis_record_at, cas_script.
  destruct (rget now r k) as [v|]; cbn; [|done]. destruct (parse v) as [rec|]; cbn; [|done].
  case_decide; cbn; [|done]. split; [by apply wf_set_px|]. split; [done|]. by apply set_px_writes.
Qed.

Lemma release_owned now k tk ttl r : store_wf now r →
  owned_write now k tk (λ _, erases now k) r (cas_script now k tk None ttl r).
Proof.
  intros Hwf. unfold owned_write. cbn [record_at RedisIdempotencyStore]. unfold redis_record_at, cas_script.
  destruct (rget now r k) as [v|]; cbn; [|done]. destruct (parse v) as [rec|]; cbn; [|done].
  case_decide; cbn; [|done]. split; [|split; [done|apply del_erases]].
  intros t k' w Ht. rewrite rget_del. case_decide; [done|]. by apply Hwf.
Qed.

(** Alone, read and compare-and-set are one owned write. *)
Lemma read_then_cas_owned now k tk f ttl r : 0 < ttl → store_wf now r →
  owned_write now k tk (λ rec, writes now k (f now rec) ttl) r
    (answer (run now (read_then_cas k tk f ttl) r)).
Proof.
  intros Httl Hwf. cbn. destruct (rget now r k) as [v|] eqn:E.
  2:{ unfold owned_write. cbn [record_at RedisIdempotencyStore]. unfold redis_record_at. by rewrite E. }
  destruct (parse v) as [rec|] eqn:Ep; [|by destruct (Hwf now k v)].
  assert (record_at now r k = Some rec) as Hrec.
  { cbn. unfold redis_record_at. by rewrite E. }
  case_decide as Ht; [|unfold owned_write; rewrite Hrec; by rewrite decide_False].
  cbn. pose proof (cas_owned now k tk (f now rec) ttl r Httl Hwf) as Hc.
  destruct (cas_script _ _ _ _ _ _) as [r' b]. unfold owned_write in *. rewrite Hrec in *.
  by rewrite decide_True in * by done.
Qed.

Lemma redis_store_laws : StoreLaws R.
Proof.
  constructor.
  - intros now t r Ht Hwf t' k v Ht'. apply Hwf. lia.
  - intros now t r k rec Ht. cbn. unfold redis_record_at. intros (v & Hv & Hp)%bind_Some.
    by rewrite (rget_expires now t r k v).
  - intros now uuids k fp ttl r Httl Hwf. cbn zeta. cbn [begin RedisIdempotencyStore].
    cbn. unfold redis_record_at, set_nx. destruct (rget now r k) as [v|] eqn:E; cbn.
    + rewrite E. destruct (parse v) as [rec|] eqn:Ep; [done|by destruct (Hwf now k v)].
    + split; [by apply wf_set_px|]. split; [done|]. by apply set_px_writes.
  - intros. by apply read_then_cas_owned.
  - intros now k tk st resp ttl r Httl Hwf.
    apply (read_then_cas_owned now k tk (λ now, completed_record now st resp)); [lia|done].
  - intros now k tk r Hwf. cbn. pose proof (release_owned now k tk 0 r Hwf) as Hc.
    by destruct (cas_script _ _ _ _ _ _).
Qed.

(** *** Among other clients *)

Section rely.
Context (rely : Z → R → Z → R → Prop).
Context (rely_trans : ∀ t r t1 r1 t2 r2, rely t r t1 r1 → rely t1 r1 t2 r2 → rely t r t2 r2).
Context (rely_time : ∀ t r t1 r1, rely t r t1 r1 → t ≤ t1).

(** Nobody else writes a record that carries the token [tk] at [k]. *)
Definition private (k tk : string) : Prop :=
  ∀ t r t1 r1 rec rec1, rely t r t1 r1 →
    record_at t r k = Some rec → ir_token rec = tk →
    record_at t1 r1 k = Some rec1 → ir_token rec1 = tk → rec1 = rec.

(** The outcome of a call between two states: all of its effect happens at one
    instant, or there is none. *)
Definition linearises {A} (t0 : Z) (r0 : R) (t1 : Z) (r1 : R) (o : option A)
    (effect : A → Z → R → R → Prop) : Prop :=
  match o with
  | Some a => ∃ rc, rely t0 r0 t1 rc ∧ effect a t1 rc r1
  | None => rely t0 r0 t1 r1
  end.

(** A claim, or the record seen at the instant of the answer. *)
Definition begin_effect (uuids : nat → string) (k fp : string) (ttl : Z) (b : BeginResult)
    (t : Z) (r r' : R) : Prop :=
  match b with
  | Acquired tk => ∃ i made, (i < 3)%nat ∧ tk = uuids i ∧ made ≤ t ∧ rget t r k = None ∧
                   writes t k (newRecord made tk fp) ttl r r'
  | Existing rec => r' = r ∧ record_at t r k = Some rec
  end.

(** An update by the owner, of the record the key holds at that instant. *)
Definition update_effect (k tk : string) (f : Z → IdempotencyRecord → IdempotencyRecord) (ttl : Z)
    (b : bool) (t : Z) (r r' : R) : Prop :=
  if b then ∃ rec made, made ≤ t ∧ record_at t r k = Some rec ∧ ir_token rec = tk ∧
            writes t k (f made rec) ttl r r'
  else r' = r.

Definition release_effect (k tk : string) (b : bool) (t : Z) (r r' : R) : Prop :=
  if b then (∃ rec, record_at t r k = Some rec ∧ ir_token rec = tk) ∧ erases t k r r' else r' = r.

Lemma begin_loop_linearises n i uuids k fp ttl ts rs t0 r0 t1 r1 o :
  0 < ttl → (i + n ≤ 3)%nat → rely ts rs t0 r0 →
  exec rely (begin_loop n i uuids k fp ttl) t0 r0 t1 r1 o →
  linearises ts rs t1 r1 o (begin_effect uuids k fp ttl).
Proof.
  intros Httl. revert i t0 r0. induction n as [|n IH]; intros i t0 r0 Hi Hs Hex; cbn in Hex.
  { by inversion Hex; subst. }
  inversion Hex as [| |? ? ? ta ra ? ? ? Ha Hex1| | |]; subst. clear Hex.
  inversion Hex1 as [| | |? ? ? ? ? ? tb rb ? ? ? Hb Hex| |]; subst. clear Hex1.
  assert (rely ts rs tb rb) as Hab by eauto. unfold set_nx in Hex.
  destruct (rget tb rb k) as [v|] eqn:Eg; cbn in Hex.
  - inversion Hex as [| | | |? ? ? ? tc rc ? ? ? Hc Hex1|]; subst. clear Hex.
    assert (rely ts rs tc rc) as H1 by eauto. destruct (rget tc rc k) as [w|] eqn:Ew.
    + destruct (parse w) as [rec|] eqn:Ep; inversion Hex1; subst; cbn; [|done].
      exists r1. split_and!; [done|done|]. unfold redis_record_at. by rewrite Ew.
    + apply (IH (S i) tc rc); [lia|done|done].
  - inversion Hex; subst; cbn. exists rb. split; [done|]. exists i, ta.
    split_and!; [lia|done|by eapply rely_time|done|]. by apply set_px_writes.
Qed.

Lemma read_then_cas_linearises k tk f ttl t0 r0 t1 r1 o :
  0 < ttl → private k tk →
  exec rely (read_then_cas k tk f ttl) t0 r0 t1 r1 o →
  linearises t0 r0 t1 r1 o (update_effect k tk f ttl).
Proof.
  intros Httl Hpriv Hex. unfold read_then_cas in Hex.
  inversion Hex as [| | | |? ? ? ? ta ra ? ? ? Ha Hex1|]; subst. clear Hex.
  destruct (rget ta ra k) as [v|] eqn:Eg; [|inversion Hex1; subst; by exists r1].
  destruct (parse v) as [rec|] eqn:Ep; [|by inversion Hex1; subst].
  case_decide as Htk; [|inversion Hex1; subst; by exists r1].
  inversion Hex1 as [| |? ? ? tb rb ? ? ? Hb Hex| | |]; subst. clear Hex1.
  inversion Hex as [| | | | |? ? ? ? ? ? ? tc rc ? ? ? Hc Hex1]; subst. clear Hex.
  inversion Hex1; subst; clear Hex1. cbn [linearises]. exists rc. split; [by eauto|].
  unfold cas_script, update_effect. destruct (rget t1 rc k) as [w|] eqn:Ew; [|done].
  destruct (parse w) as [rec'|] eqn:Ep'; [|done]. case_decide as Htk'; [|done]. cbn [fst snd].
  assert (rec' = rec) as ->.
  { apply (Hpriv ta ra t1 rc); [by eauto| |done| |done]; cbn; unfold redis_record_at.
    - by rewrite Eg.
    - by rewrite Ew. }
  exists rec, tb. split_and!; [by eapply rely_time| |done|by apply set_px_writes].
  cbn. unfold redis_record_at. by rewrite Ew.
Qed.

Lemma release_linearises k tk t0 r0 t1 r1 o :
  exec rely (redis_release k tk) t0 r0 t1 r1 o →
  linearises t0 r0 t1 r1 o (release_effect k tk).
Proof.
  intros Hex. inversion Hex as [| | | | |? ? ? ? ? ? ? tc rc ? ? ? Hc Hex1]; subst. clear Hex.
  inversion Hex1; subst; clear Hex1. exists rc. split; [done|].
  unfold cas_script, release_effect. destruct (rget t1 rc k) as [w|] eqn:Ew; [|done].
  destruct (parse w) as [rec|] eqn:Ep; [|done]. case_decide; [|done]. split; [|apply del_erases].
  exists rec. split; [|done]. cbn. unfold redis_record_at. by rewrite Ew.
Qed.

(** C22. The Redis store under concurrency: however other clients' commands fall
    between those of a call, as long as none of them writes the caller's own
    token, a claim, an extension, a completion and a release each take effect at
    one instant as the class says, or not at all. *)
Theorem redis_store_linearisable uuids k tk fp ttl st resp t0 r0 t1 r1 ob o :
  0 < ttl → (∀ t r, rely t r t r) → private k tk →
  (exec rely (redis_begin uuids k fp ttl) t0 r0 t1 r1 ob →
     linearises t0 r0 t1 r1 ob (begin_effect uuids k fp ttl)) ∧
  (exec rely (redis_markInProgress k tk ttl) t0 r0 t1 r1 o →
     linearises t0 r0 t1 r1 o (update_effect k tk in_progress ttl)) ∧
  (exec rely (redis_complete k tk st resp ttl) t0 r0 t1 r1 o →
     linearises t0 r0 t1 r1 o
       (update_effect k tk (λ now, completed_record now st resp) (ttl * 1000))) ∧
  (exec rely (redis_release k tk) t0 r0 t1 r1 o →
     linearises t0 r0 t1 r1 o (release_effect k tk)).
Proof.
  intros Httl Hrefl Hpriv. split_and!.
  - by apply begin_loop_linearises.
  - by apply read_then_cas_linearises.
  - apply read_then_cas_linearises; [lia|done].
  - apply release_linearises.
Qed.

End rely.
End store.
End RedisStore.

(** ** A concrete server *)

Module SampleRedis.

(** A server that keeps values with their deadlines. *)
Definition server_of (V : Type) : Type := gmap string (V * Z).

#[global] Instance sample_redis {V} : Redis (server_of V) V := {
  rget now r k := '(v, d) ← (r : gmap string (V * Z)) !! k; if now <? d then Some v else None;
  rset_px now k v ttl r := <[k := (v, now + ttl)]> (r : gmap string (V * Z));
  rdel k r := delete k (r : gmap string (V * Z))
}.

#[global] Instance sample_redis_laws {V} : RedisLaws (server_of V) V.
Proof.
  split.
  - intros now t r k v Ht. cbn [rget sample_redis]. destruct ((r : gmap string (V * Z)) !! k) as [[w d]|]; cbn [mbind option_bind]; [|done].
    destruct (Z.ltb_spec t d), (Z.ltb_spec now d); first [done|lia].
  - intros now t r k k' v ttl _ _. cbn [rget rset_px sample_redis]. case_decide as E.
    + subst k'. by rewrite lookup_insert_eq.
    + by rewrite lookup_insert_ne.
  - intros t r k k'. cbn [rget rdel sample_redis]. case_decide as E.
    + subst k'. by rewrite lookup_delete_eq.
    + by rewrite lookup_delete_ne.
Qed.

Abbreviation server := (server_of IdempotencyRecord).

(** Others may do anything but bring a record of the token ["t1"] to the key. *)
Definition others (t : Z) (r : server) (t' : Z) (r' : server) : Prop :=
  t ≤ t' ∧ ∀ rec, rget t' r' "k" = Some rec → ir_token rec = "t1" → rget t r "k" = Some rec.

Definition claimed_server : server := rset_px 0 "k" (newRecord 0 "t1" "fp") 60000 (∅ : gmap string (IdempotencyRecord * Z)).

Lemma others_trans t r t1 r1 t2 r2 : others t r t1 r1 → others t1 r1 t2 r2 → others t r t2 r2.
Proof. intros [T1 H1] [T2 H2]. split; [lia|]. intros rec Hr Ht. by apply H1, Ht; apply H2. Qed.

Lemma others_private k : k = "k" → RedisStore.private id Some others k "t1".
Proof.
  intros -> t r t' r' rec rec' [_ H] Hr Ht Hr' Ht'.
  assert (∀ n (s : server) k, record_at (IdempotencyStore := RedisStore.RedisIdempotencyStore id Some) n s k =
            rget n s k) as E.
  { intros n s k. cbn [record_at RedisStore.RedisIdempotencyStore]. unfold RedisStore.redis_record_at.
    by destruct (rget n s k). }
  unfold RedisStore.private in *. rewrite E in Hr, Hr'. specialize (H rec' Hr' Ht'). congruence.
Qed.

End SampleRedis.

(** The owner extends its lock after ten seconds. *)
Lemma redis_store_linearisable_witness :
  ∃ r1, RedisStore.exec Some SampleRedis.others
          (RedisStore.redis_markInProgress id Some "k" "t1" 60000) 10000 SampleRedis.claimed_server 10000 r1 (Some true) ∧
        RedisStore.linearises SampleRedis.others 10000 SampleRedis.claimed_server 10000 r1 (Some true)
          (RedisStore.update_effect id Some "k" "t1" in_progress 60000).
Proof.
  eexists. assert (RedisStore.exec Some SampleRedis.others
          (RedisStore.redis_markInProgress id Some "k" "t1" 60000) 10000 SampleRedis.claimed_server 10000
          (RedisStore.run Some 10000 (RedisStore.redis_markInProgress id Some "k" "t1" 60000)
             SampleRedis.claimed_server).1 (Some true)) as Hex.
  { refine (RedisStore.run_exec Some SampleRedis.others
      (RedisStore.redis_markInProgress id Some "k" "t1" 60000) 10000 SampleRedis.claimed_server _).
    intros t r. split; [lia|done]. }
  split; [exact Hex|].
  eapply (RedisStore.redis_store_linearisable id Some (λ _, eq_refl) SampleRedis.others SampleRedis.others_trans
    (λ t r t1 r1 H, proj1 H) (λ _, "t1") "k" "t1" "fp" 60000 COMPLETED
    {| sr_statusCode := 200; sr_headers := []; sr_body := "" |} _ _ _ _ None (Some true)).
  - lia.
  - intros t r. split; [lia|done].
  - by apply SampleRedis.others_private.
  - exact Hex.
Defined.
