(* ===== verification/Idempotency.v ===== *)
(** * The idempotency middleware: [backend/src/middleware/idempotency.ts]

    [admission] and [decide_begin] are the middleware's answers; what happens to
    the requests it lets through, whose awaits interleave, is a step relation
    over the clock, the store and the requests in flight.  The store is any
    [IdempotencyStore] with its laws, and its calls may also be lost, with or
    without their effect.  [fl_until] is the time up to which the last answer
    of the store guarantees the lock; it decides nothing. *)

From Stdlib Require Import Strings.Ascii Strings.String.
From S2P Require Import Prelude Json IdempotencyStore.

#[local] Open Scope string_scope.
#[local] Open Scope Z_scope.

(** The options after their defaults. *)
Record IdempotencyOptions : Type := {
  io_ttlSeconds : Z;
  io_lockTtlMs : Z;
  io_required : bool;
  io_methods : list string
}.

Definition default_options : IdempotencyOptions :=
  {| io_ttlSeconds := 24 * 60 * 60; io_lockTtlMs := 60000; io_required := false;
     io_methods := ["POST"; "PUT"; "PATCH"; "DELETE"] |}.

Record Request : Type := {
  rq_method : string;
  rq_baseUrl : string;
  rq_path : string;
  rq_key : option string;
  rq_user : option string;
  rq_body : Json
}.

(** [KEY_PATTERN]. *)
Definition key_char (c : ascii) : bool :=
  let n := nat_of_ascii c in
  (65 <=? n)%nat && (n <=? 90)%nat || (97 <=? n)%nat && (n <=? 122)%nat ||
  (48 <=? n)%nat && (n <=? 57)%nat ||
  bool_decide (c ∈ ["_"; "-"; ":"; "."]%char).

Definition key_pattern (k : string) : bool :=
  forallb key_char (list_ascii_of_string k) && (1 <=? String.length k)%nat && (String.length k <=? 255)%nat.

Definition isTransientStatus (statusCode : Z) : bool :=
  (500 <=? statusCode) || bool_decide (statusCode ∈ [408; 425; 429]).

(** What the caller gets without the handler running. *)
Inductive Reply : Type :=
| Refusal (status : Z) (code : string)
| Replay (response : StoredResponse).

(** The synchronous part before the store is asked. *)
Inductive Admission : Type :=
| Pass
| Refuse (r : Reply)
| Guarded (storageKey fingerprint : string).

Section middleware.
(** [createHash("sha256").update(_).digest("hex")]. *)
Context (sha256 : string → string).
Context (o : IdempotencyOptions).

Definition newline : string := String (ascii_of_nat 10) "".

Definition requestFingerprint (rq : Request) : string :=
  sha256 (rq_method rq +:+ " " +:+ rq_baseUrl rq +:+ rq_path rq +:+ newline +:+
          stableStringify (rq_body rq)).

Definition storage_key (rq : Request) (rawKey : string) : string :=
  "idempotency:" +:+ default "anonymous" (rq_user rq) +:+ ":" +:+ rawKey.

Definition admission (rq : Request) : Admission :=
  if negb (bool_decide (rq_method rq ∈ io_methods o)) then Pass else
  match rq_key rq with
  | None => if io_required o then Refuse (Refusal 400 "IDEMPOTENCY_KEY_REQUIRED") else Pass
  | Some rawKey =>
      if negb (key_pattern rawKey) then Refuse (Refusal 400 "IDEMPOTENCY_KEY_INVALID")
      else Guarded (storage_key rq rawKey) (requestFingerprint rq)
  end.

(** The answer to [begin]; [None] where it threw. *)
Definition unavailable : Reply := Refusal 503 "IDEMPOTENCY_UNAVAILABLE".

Definition decide_begin (fingerprint : string) (b : option BeginResult) : Reply + string :=
  match b with
  | None => inl unavailable
  | Some (Acquired token) => inr token
  | Some (Existing record) =>
      if negb (bool_decide (ir_fingerprint record = fingerprint))
      then inl (Refusal 422 "IDEMPOTENCY_KEY_REUSED") else
      match ir_state record, ir_response record with
      | COMPLETED, Some r | FAILED, Some r => inl (Replay r)
      | _, _ => inl (Refusal 409 "IDEMPOTENCY_REQUEST_IN_PROGRESS")
      end
  end.

(** A request that holds a claim: before and after [markInProgress]. *)
Inductive Phase : Type := Claimed | Running.

Record Flight : Type := {
  fl_key : string;
  fl_fingerprint : string;
  fl_token : string;
  fl_phase : Phase;
  fl_until : Z
}.

Definition extended (phase : Phase) (until : Z) (f : Flight) : Flight :=
  {| fl_key := fl_key f; fl_fingerprint := fl_fingerprint f; fl_token := fl_token f;
     fl_phase := phase; fl_until := until |}.

(** [response] in [settle]: the status, the captured body, the content type. *)
Definition captured (statusCode : Z) (contentType : option string) (body : string) : StoredResponse :=
  {| sr_statusCode := statusCode;
     sr_headers := match contentType with Some c => [("Content-Type", c)] | None => [] end;
     sr_body := body |}.

Inductive Event : Type :=
| Answered (rid : nat) (r : Reply)
| HandlerStarted (rid : nat) (key : string)
| HandlerEnded (rid : nat) (key : string) (statusCode : Z).

Section world.
Context {S : Type} `{HS : IdempotencyStore S}.

Definition settle (now : Z) (f : Flight) (finished : bool) (r : StoredResponse) (s : S) : S * bool :=
  if negb finished || isTransientStatus (sr_statusCode r) then release now (fl_key f) (fl_token f) s
  else complete now (fl_key f) (fl_token f) (if sr_statusCode r <? 400 then COMPLETED else FAILED)
         r (io_ttlSeconds o) s.

(** [w_tokens]: the random tokens drawn so far. *)
Record World : Type := {
  w_now : Z;
  w_store : S;
  w_flights : gmap nat Flight;
  w_tokens : gset string;
  w_log : list Event
}.

Inductive Action : Type :=
| Tick
| Begin (rid : nat)
| Mark (rid : nat)
| Heartbeat (rid : nat)
| Settle (rid : nat).

(** A call that failed may or may not have reached the store.  For a heartbeat
    and for [settle] the first is the successful step; [st_heartbeat_lost] and
    [st_settle_lost] are the second. *)
Definition lossy (s s' : S) (after : S) : Prop := after = s ∨ after = s'.

Inductive step : World → Action → World → Prop :=
| st_tick w d : 0 ≤ d →
    step w Tick {| w_now := w_now w + d; w_store := w_store w; w_flights := w_flights w;
                   w_tokens := w_tokens w; w_log := w_log w |}
| st_claim w rid rq key fp uuids s' tk : admission rq = Guarded key fp →
    w_flights w !! rid = None → (∀ i, uuids i ∉ w_tokens w) →
    begin (w_now w) uuids key fp (io_lockTtlMs o) (w_store w) = (s', Some (Acquired tk)) →
    step w (Begin rid)
      {| w_now := w_now w; w_store := s';
         w_flights := <[rid := {| fl_key := key; fl_fingerprint := fp; fl_token := tk; fl_phase := Claimed;
                                  fl_until := w_now w + io_lockTtlMs o |}]> (w_flights w);
         w_tokens := {[tk]} ∪ w_tokens w; w_log := w_log w |}
| st_answer w rid rq key fp uuids s' b r : admission rq = Guarded key fp →
    w_flights w !! rid = None → (∀ i, uuids i ∉ w_tokens w) →
    begin (w_now w) uuids key fp (io_lockTtlMs o) (w_store w) = (s', b) → decide_begin fp b = inl r →
    step w (Begin rid)
      {| w_now := w_now w; w_store := s'; w_flights := w_flights w; w_tokens := w_tokens w;
         w_log := w_log w ++ [Answered rid r] |}
| st_begin_lost w rid rq key fp uuids s' : admission rq = Guarded key fp →
    w_flights w !! rid = None → (∀ i, uuids i ∉ w_tokens w) →
    lossy (w_store w) (begin (w_now w) uuids key fp (io_lockTtlMs o) (w_store w)).1 s' →
    step w (Begin rid)
      {| w_now := w_now w; w_store := s'; w_flights := w_flights w;
         w_tokens := {[uuids O]} ∪ w_tokens w; w_log := w_log w ++ [Answered rid unavailable] |}
| st_mark w rid f s' : w_flights w !! rid = Some f → fl_phase f = Claimed →
    markInProgress (w_now w) (fl_key f) (fl_token f) (io_lockTtlMs o) (w_store w) = (s', true) →
    step w (Mark rid)
      {| w_now := w_now w; w_store := s';
         w_flights := <[rid := extended Running (w_now w + io_lockTtlMs o) f]> (w_flights w);
         w_tokens := w_tokens w; w_log := w_log w ++ [HandlerStarted rid (fl_key f)] |}
| st_mark_fails w rid f s' : w_flights w !! rid = Some f → fl_phase f = Claimed →
    (markInProgress (w_now w) (fl_key f) (fl_token f) (io_lockTtlMs o) (w_store w) = (s', false) ∨
     lossy (w_store w)
       (markInProgress (w_now w) (fl_key f) (fl_token f) (io_lockTtlMs o) (w_store w)).1 s') →
    step w (Mark rid)
      {| w_now := w_now w; w_store := s'; w_flights := delete rid (w_flights w);
         w_tokens := w_tokens w; w_log := w_log w ++ [Answered rid unavailable] |}
| st_heartbeat w rid f s' ok : w_flights w !! rid = Some f → fl_phase f = Running →
    markInProgress (w_now w) (fl_key f) (fl_token f) (io_lockTtlMs o) (w_store w) = (s', ok) →
    step w (Heartbeat rid)
      {| w_now := w_now w; w_store := s';
         w_flights := <[rid := extended Running
                                 (if ok then w_now w + io_lockTtlMs o else fl_until f) f]> (w_flights w);
         w_tokens := w_tokens w; w_log := w_log w |}
| st_heartbeat_lost w rid f : w_flights w !! rid = Some f → fl_phase f = Running →
    step w (Heartbeat rid) w
| st_settle w rid f finished r s' : w_flights w !! rid = Some f → fl_phase f = Running →
    (settle (w_now w) f finished r (w_store w)).1 = s' →
    step w (Settle rid)
      {| w_now := w_now w; w_store := s'; w_flights := delete rid (w_flights w);
         w_tokens := w_tokens w; w_log := w_log w ++ [HandlerEnded rid (fl_key f) (sr_statusCode r)] |}
| st_settle_lost w rid f r : w_flights w !! rid = Some f → fl_phase f = Running →
    step w (Settle rid)
      {| w_now := w_now w; w_store := w_store w; w_flights := delete rid (w_flights w);
         w_tokens := w_tokens w; w_log := w_log w ++ [HandlerEnded rid (fl_key f) (sr_statusCode r)] |}.

Definition steps : World → World → Prop := rtc (λ w w', ∃ a, step w a w').

Definition empty_world (now : Z) (s : S) : World :=
  {| w_now := now; w_store := s; w_flights := ∅; w_tokens := ∅; w_log := [] |}.

(** Runs of the handler for a key. *)
Definition starts (key : string) (log : list Event) : Z :=
  countb (λ e, match e with HandlerStarted _ k => bool_decide (k = key) | _ => false end) log.

(** ** The invariant *)

Context `{!StoreLaws S}.
Context (ttl_pos : 0 < io_ttlSeconds o) (lock_pos : 0 < io_lockTtlMs o).

(** The record of a flight's key is its own for as long as the lock is promised. *)
Definition holds_lock (now : Z) (s : S) (f : Flight) : Prop :=
  ∀ t, now ≤ t → t < fl_until f →
  ∃ r, record_at t s (fl_key f) = Some r ∧ ir_token r = fl_token f.

Record inv (now : Z) (s : S) (flights : gmap nat Flight) (tokens : gset string) : Prop := {
  inv_wf : store_wf now s;
  inv_records : ∀ t k r, now ≤ t → record_at t s k = Some r → ir_token r ∈ tokens;
  inv_drawn : ∀ rid f, flights !! rid = Some f → fl_token f ∈ tokens;
  inv_distinct : ∀ rid1 rid2 f1 f2, flights !! rid1 = Some f1 → flights !! rid2 = Some f2 →
    fl_token f1 = fl_token f2 → rid1 = rid2;
  inv_locks : ∀ rid f, flights !! rid = Some f → holds_lock now s f;
  inv_prints : ∀ rid f t r, flights !! rid = Some f → now ≤ t → record_at t s (fl_key f) = Some r →
    ir_token r = fl_token f → ir_fingerprint r = fl_fingerprint f
}.

Definition world_inv (w : World) : Prop := inv (w_now w) (w_store w) (w_flights w) (w_tokens w).

(** What an owner's call can do to the store: nothing, or replace or remove its
    own live record. *)
Definition own_effect (now : Z) (f : Flight) (s s' : S) : Prop :=
  keeps now s s' ∨
  (∃ r, record_at now s (fl_key f) = Some r ∧ ir_token r = fl_token f) ∧
  (erases now (fl_key f) s s' ∨
   ∃ r ttl, ir_token r = fl_token f ∧ ir_fingerprint r = fl_fingerprint f ∧
            writes now (fl_key f) r ttl s s').

Lemma inv_delete now s fl tk rid : inv now s fl tk → inv now s (delete rid fl) tk.
Proof.
  intros [W R D N L P]. split; [done|done|..].
  - intros rid' f [_ Hf]%lookup_delete_Some. eauto.
  - intros rid1 rid2 f1 f2 [_ H1]%lookup_delete_Some [_ H2]%lookup_delete_Some. eauto.
  - intros rid' f [_ Hf]%lookup_delete_Some. eauto.
  - intros rid' f t r [_ Hf]%lookup_delete_Some. eauto.
Qed.

Lemma inv_later now t s fl tk : now ≤ t → inv now s fl tk → inv t s fl tk.
Proof.
  intros Ht [W R D N L P]. split; [by eapply store_wf_later| |done|done| |].
  - intros t' k r Ht'. apply R. lia.
  - intros rid f Hf t' Ht'. apply (L rid f Hf). lia.
  - intros rid f t' r Hf Ht'. apply (P rid f t' r Hf). lia.
Qed.

(** A lock survives what others do, because the record under it is its own. *)
Lemma holds_elsewhere now s s' f k tk :
  holds_lock now s f → fl_token f ≠ tk →
  (∀ t k', now ≤ t → k' ≠ k → record_at t s' k' = record_at t s k') →
  (∀ r, record_at now s k = Some r → ir_token r = tk) → holds_lock now s' f.
Proof.
  intros HL Hne Ho Hk t Ht Hu. destruct (decide (fl_key f = k)) as [E|E].
  - exfalso. destruct (HL now) as (r & Hr & Htk); [lia|lia|]. rewrite E in Hr. apply Hk in Hr. congruence.
  - rewrite Ho by done. by apply HL.
Qed.

Lemma writes_elsewhere now k r ttl s s' t k' :
  writes now k r ttl s s' → now ≤ t → k' ≠ k → record_at t s' k' = record_at t s k'.
Proof. intros E Ht Hk. rewrite E by done. by rewrite decide_False by done. Qed.

Lemma erases_elsewhere now k s s' t k' :
  erases now k s s' → now ≤ t → k' ≠ k → record_at t s' k' = record_at t s k'.
Proof. intros E Ht Hk. rewrite E by done. by rewrite decide_False by done. Qed.

Lemma inv_keeps now s s' fl tk : store_wf now s' → keeps now s s' → inv now s fl tk → inv now s' fl tk.
Proof.
  intros W' K [W R D N L P]. split; [done| |done|done| |].
  - intros t k r Ht. rewrite K by done. by apply R.
  - intros rid f Hf t Ht. rewrite K by done. by apply (L rid f Hf).
  - intros rid f t r Hf Ht. rewrite K by done. by apply (P rid f t r Hf).
Qed.

(** The invariant after an owner's call, but for the owner's own promise. *)
Lemma own_effect_inv now s s' fl tk rid f :
  inv now s fl tk → fl !! rid = Some f → store_wf now s' → own_effect now f s s' →
  inv now s' (delete rid fl) tk ∧
  (∀ t r, now ≤ t → record_at t s' (fl_key f) = Some r → ir_token r = fl_token f →
     ir_fingerprint r = fl_fingerprint f).
Proof.
  intros Hinv Hf W' [K|((r0 & Hr0 & Ht0) & Heff)].
  { split; [by eapply inv_keeps, inv_delete|]. intros t r Ht. rewrite K by done. by eapply inv_prints. }
  pose proof Hinv as [W R D N L P].
  assert (∀ t k', now ≤ t → k' ≠ fl_key f → record_at t s' k' = record_at t s k') as Ho.
  { intros t k' Ht Hk. destruct Heff as [E|(r & ttl & _ & _ & E)];
      [by eapply erases_elsewhere|by eapply writes_elsewhere]. }
  assert (∀ t r, now ≤ t → record_at t s' (fl_key f) = Some r →
            ir_token r = fl_token f ∧ ir_fingerprint r = fl_fingerprint f) as Hown.
  { intros t r Ht Hr. destruct Heff as [E|(r1 & ttl & E1 & E2 & E)]; rewrite E in Hr by done;
      rewrite decide_True in Hr by done; [done|]. case_match; [by injection Hr as <-|done]. }
  split; [|intros; by eapply Hown].
  split; [done|..].
  - intros t k r Ht Hr. destruct (decide (k = fl_key f)) as [->|Hk].
    + apply Hown in Hr as [-> _]; [|done]. by eapply D.
    + rewrite Ho in Hr by done. by eapply R.
  - intros rid' f' [_ Hf']%lookup_delete_Some. by eapply D.
  - intros rid1 rid2 f1 f2 [_ H1]%lookup_delete_Some [_ H2]%lookup_delete_Some. by apply N.
  - intros rid' f' [Hne Hf']%lookup_delete_Some. eapply (holds_elsewhere now s s' f' (fl_key f) (fl_token f)).
    + by eapply L.
    + intros E. apply Hne. by eapply N.
    + done.
    + intros r Hr. congruence.
  - intros rid' f' t r [Hne Hf']%lookup_delete_Some Ht Hr Hrt.
    destruct (decide (fl_key f' = fl_key f)) as [E|E].
    + exfalso. rewrite E in Hr. apply Hown in Hr as [Hr _]; [|done].
      apply Hne. symmetry. eapply N; [done|done|congruence].
    + rewrite Ho in Hr by done. by eapply P.
Qed.

(** Putting a flight (back) whose token is its own and whose promise holds. *)
Lemma inv_insert now s fl tk rid f :
  inv now s fl tk → fl_token f ∈ tk →
  (∀ rid' f', rid' ≠ rid → fl !! rid' = Some f' → fl_token f' ≠ fl_token f) →
  holds_lock now s f →
  (∀ t r, now ≤ t → record_at t s (fl_key f) = Some r → ir_token r = fl_token f →
     ir_fingerprint r = fl_fingerprint f) →
  inv now s (<[rid := f]> fl) tk.
Proof.
  intros [W R D N L P] Hd Hn Hl Hp. split; [done|done|..].
  - intros rid' f' [[<- <-]|[_ ?]]%lookup_insert_Some; eauto.
  - intros rid1 rid2 f1 f2 [[<- <-]|[N1 H1]]%lookup_insert_Some [[<- <-]|[N2 H2]]%lookup_insert_Some E; eauto.
    + by destruct (Hn rid2 f2).
    + by destruct (Hn rid1 f1).
  - intros rid' f' [[<- <-]|[_ ?]]%lookup_insert_Some; eauto.
  - intros rid' f' t r [[<- <-]|[_ ?]]%lookup_insert_Some; eauto.
Qed.

(** ** The steps keep it *)

(** The compare-and-set contract gives an owner's effect. *)
Lemma owned_effect now s fl tk rid f eff out :
  inv now s fl tk → fl !! rid = Some f →
  owned_write now (fl_key f) (fl_token f) eff s out →
  (∀ r s', eff r s s' → ir_token r = fl_token f → ir_fingerprint r = fl_fingerprint f →
     erases now (fl_key f) s s' ∨ ∃ r' ttl, ir_token r' = fl_token f ∧ ir_fingerprint r' = fl_fingerprint f ∧
       writes now (fl_key f) r' ttl s s') →
  store_wf now out.1 ∧ own_effect now f s out.1 ∧
  (out.2 = true → ∃ r, record_at now s (fl_key f) = Some r ∧ ir_token r = fl_token f ∧
     ir_fingerprint r = fl_fingerprint f ∧ eff r s out.1) ∧
  (out.2 = false → keeps now s out.1).
Proof.
  intros Hinv Hf [W Ho] Heff. split; [done|].
  destruct (record_at now s (fl_key f)) as [r|] eqn:Er; [|destruct Ho as [-> K]; split_and!; [by left|done|done]].
  case_decide as Ht; [|destruct Ho as [-> K]; split_and!; [by left|done|done]].
  destruct Ho as [-> He].
  assert (ir_fingerprint r = fl_fingerprint f) as Hfp by (eapply (inv_prints _ _ _ _ Hinv rid f now); by eauto).
  split_and!; [|eauto|done]. right. split; [eauto|]. by apply (Heff r).
Qed.

Lemma mark_effect now s fl tk rid f :
  inv now s fl tk → fl !! rid = Some f →
  let out := markInProgress now (fl_key f) (fl_token f) (io_lockTtlMs o) s in
  store_wf now out.1 ∧ own_effect now f s out.1 ∧
  (out.2 = true → ∀ t, now ≤ t → t < now + io_lockTtlMs o →
     ∃ r, record_at t out.1 (fl_key f) = Some r ∧ ir_token r = fl_token f) ∧
  (out.2 = false → keeps now s out.1).
Proof.
  intros Hinv Hf out.
  pose proof (markInProgress_law now (fl_key f) (fl_token f) (io_lockTtlMs o) s lock_pos
    (inv_wf _ _ _ _ Hinv)) as Ho.
  destruct (owned_effect now s fl tk rid f _ _ Hinv Hf Ho) as (W & E & T & K).
  { intros r s' Hw Ht Hp. right. by exists (in_progress now r), (io_lockTtlMs o). }
  split_and!; [done|done| |done]. intros Ht t Hle Hlt. destruct (T Ht) as (r & _ & Hrt & _ & Hw).
  exists (in_progress now r). split; [|done]. unfold out. rewrite Hw by done.
  rewrite decide_True by done. by rewrite (proj2 (Z.ltb_lt _ _) Hlt).
Qed.

Lemma settle_effect now s fl tk rid f finished r :
  inv now s fl tk → fl !! rid = Some f →
  let s' := (settle now f finished r s).1 in store_wf now s' ∧ own_effect now f s s'.
Proof.
  intros Hinv Hf. unfold settle. case_match.
  - destruct (owned_effect now s fl tk rid f _ _ Hinv Hf
      (release_law now (fl_key f) (fl_token f) s (inv_wf _ _ _ _ Hinv))) as (W & E & _); [by left|done].
  - set (st := if sr_statusCode r <? 400 then _ else _).
    destruct (owned_effect now s fl tk rid f _ _ Hinv Hf
      (complete_law now (fl_key f) (fl_token f) st r (io_ttlSeconds o) s ttl_pos (inv_wf _ _ _ _ Hinv)))
      as (W & E & _); [|done].
    intros r0 s' Hw Ht Hp. right. by exists (completed_record now st r r0), (io_ttlSeconds o * 1000).
Qed.

(** A claim, or the record in the way. *)
Lemma begin_effect now s fl tk uuids key fp :
  inv now s fl tk →
  let out := begin now uuids key fp (io_lockTtlMs o) s in
  store_wf now out.1 ∧
  (out.2 = Some (Acquired (uuids O)) ∧ record_at now s key = None ∧
     writes now key (newRecord now (uuids O) fp) (io_lockTtlMs o) s out.1 ∨
   ∃ r, out.2 = Some (Existing r) ∧ record_at now s key = Some r ∧ keeps now s out.1).
Proof.
  intros Hinv out.
  destruct (begin_law now uuids key fp (io_lockTtlMs o) s lock_pos (inv_wf _ _ _ _ Hinv)) as [W E].
  split; [done|]. fold out in E. destruct (record_at now s key) as [r|].
  - right. exists r. by destruct E.
  - left. by destruct E.
Qed.

(** The store after a claim, with its token among those drawn. *)
Lemma claim_inv now s s' fl tk k u fp :
  inv now s fl tk → store_wf now s' → u ∉ tk → record_at now s k = None →
  writes now k (newRecord now u fp) (io_lockTtlMs o) s s' →
  inv now s' fl ({[u]} ∪ tk) ∧
  (∀ t r, now ≤ t → record_at t s' k = Some r → ir_token r = u ∧ ir_fingerprint r = fp) ∧
  (∀ t, now ≤ t → t < now + io_lockTtlMs o → record_at t s' k = Some (newRecord now u fp)).
Proof.
  intros Hinv W' Hu Hnone Hw. pose proof Hinv as [W R D N L P].
  assert (∀ t r, now ≤ t → record_at t s' k = Some r → r = newRecord now u fp) as Hk.
  { intros t r Ht Hr. rewrite Hw in Hr by done. rewrite decide_True in Hr by done.
    case_match; [by injection Hr|done]. }
  split_and!.
  - split; [done|..].
    + intros t k' r Ht Hr. destruct (decide (k' = k)) as [->|E].
      * rewrite (Hk t r) by done. set_solver.
      * rewrite (writes_elsewhere now k _ _ s s') in Hr by done. apply R in Hr; [set_solver|done].
    + intros rid f Hf. apply D in Hf. set_solver.
    + done.
    + intros rid f Hf. eapply (holds_elsewhere now s s' f k u).
      * by eapply L.
      * intros E. apply Hu. rewrite <- E. by eapply D.
      * intros. by eapply writes_elsewhere.
      * intros r Hr. congruence.
    + intros rid f t r Hf Ht Hr Hrt. destruct (decide (fl_key f = k)) as [E|E].
      * rewrite E in Hr. rewrite (Hk t r) in Hrt by done. cbn in Hrt. apply D in Hf. congruence.
      * rewrite (writes_elsewhere now k _ _ s s') in Hr by done. by eapply P.
  - intros t r Ht Hr. by rewrite (Hk t r).
  - intros t Ht Hlt. rewrite Hw by done. rewrite decide_True by done. by rewrite (proj2 (Z.ltb_lt _ _) Hlt).
Qed.

Lemma inv_more_tokens now s fl tk u : inv now s fl tk → inv now s fl ({[u]} ∪ tk).
Proof.
  intros [W R D N L P]. split; [done| | |done|done|done].
  - intros t k r Ht Hr. apply R in Hr; [set_solver|done].
  - intros rid f Hf. apply D in Hf. set_solver.
Qed.

Lemma distinct_after_delete now s fl tk rid f :
  inv now s fl tk → fl !! rid = Some f →
  ∀ rid' f', rid' ≠ rid → delete rid fl !! rid' = Some f' → fl_token f' ≠ fl_token f.
Proof. intros Hi Hf rid' f' Hne [_ Hf']%lookup_delete_Some E. apply Hne. by eapply inv_distinct. Qed.

Lemma step_inv w a w' : step w a w' → world_inv w → world_inv w'.
Proof.
  unfold world_inv.
  destruct 1 as [w d Hd|w rid rq key fp uuids s' tk Hadm Hnew Hfresh Hb
    |w rid rq key fp uuids s' b r Hadm Hnew Hfresh Hb Hans|w rid rq key fp uuids s' Hadm Hnew Hfresh Hb
    |w rid f s' Hf Hph Hm|w rid f s' Hf Hph Hm|w rid f s' ok Hf Hph Hm|w rid f Hf Hph
    |w rid f finished r s' Hf Hph Hs|w rid f r Hf Hph]; cbn; intros Hinv.
  - by eapply inv_later; [|exact Hinv]; lia.
  - destruct (begin_effect _ _ _ _ uuids key fp Hinv) as [W [(E & Hn & Hw)|(r & E & _)]];
      rewrite Hb in *; [|done]. cbn in *. injection E as ->.
    destruct (claim_inv _ _ _ _ _ _ _ _ Hinv W (Hfresh O) Hn Hw) as (Hinv' & Hown & Hlive).
    apply inv_insert; [done|cbn; set_solver| | |]; cbn.
    + intros rid' f' _ Hf' E. apply (Hfresh O). rewrite <- E. by eapply inv_drawn.
    + intros t Ht Hlt. eexists. by rewrite Hlive.
    + intros t r Ht Hr _. by eapply Hown.
  - destruct (begin_effect _ _ _ _ uuids key fp Hinv) as [W [(E & Hn & Hw)|(r0 & E & _ & K)]];
      rewrite Hb in *; cbn in *; [rewrite E in Hans; discriminate Hans|]. by eapply inv_keeps.
  - destruct (begin_effect _ _ _ _ uuids key fp Hinv) as [W E]. destruct Hb as [->| ->].
    { by apply inv_more_tokens. }
    destruct E as [(E & Hn & Hw)|(r0 & E & _ & K)].
    + by destruct (claim_inv _ _ _ _ _ _ _ _ Hinv W (Hfresh O) Hn Hw).
    + by eapply inv_more_tokens, inv_keeps.
  - destruct (mark_effect _ _ _ _ rid f Hinv Hf) as (W & E & T & K). rewrite Hm in *. cbn in *.
    destruct (own_effect_inv _ _ _ _ _ rid f Hinv Hf W E) as [Hinv' Hp].
    rewrite <- insert_delete_eq. apply inv_insert; [done|exact (inv_drawn _ _ _ _ Hinv rid f Hf)| | |done].
    + exact (distinct_after_delete _ _ _ _ rid f Hinv Hf).
    + intros t Ht Hlt. by apply T.
  - destruct (mark_effect _ _ _ _ rid f Hinv Hf) as (W & E & T & _). destruct Hm as [Hm|[->| ->]].
    + rewrite Hm in *. by eapply own_effect_inv.
    + by apply inv_delete.
    + by eapply own_effect_inv.
  - destruct (mark_effect _ _ _ _ rid f Hinv Hf) as (W & E & T & K). rewrite Hm in *. cbn in *.
    destruct (own_effect_inv _ _ _ _ _ rid f Hinv Hf W E) as [Hinv' Hp].
    rewrite <- insert_delete_eq. apply inv_insert; [done|exact (inv_drawn _ _ _ _ Hinv rid f Hf)| | |done].
    + exact (distinct_after_delete _ _ _ _ rid f Hinv Hf).
    + destruct ok; [intros t Ht Hlt; by apply T|].
      intros t Ht Hlt. cbn in *. rewrite K by done. by eapply inv_locks.
  - done.
  - destruct (settle_effect _ _ _ _ rid f finished r Hinv Hf) as [W E]. subst s'. by eapply own_effect_inv.
  - by apply inv_delete.
Qed.

Lemma steps_inv w w' : world_inv w → steps w w' → world_inv w'.
Proof. intros Hw. induction 1 as [|w w1 w2 (a & Ha) _ IH]; [done|]. by apply IH, (step_inv w a). Qed.

Lemma step_time w a w' : step w a w' → w_now w ≤ w_now w'.
Proof. destruct 1; cbn; lia. Qed.

(** ** A finished response *)

(** The key holds [rec] up to [until], and no request in flight owns it. *)
Record sealed (key : string) (rec : IdempotencyRecord) (until : Z) (w : World) : Prop := {
  sealed_record : ∀ t, w_now w ≤ t → t < until → record_at t (w_store w) key = Some rec;
  sealed_token : ir_token rec ∈ w_tokens w;
  sealed_owner : ∀ rid f, w_flights w !! rid = Some f → fl_token f ≠ ir_token rec
}.

(** Another owner's call leaves it alone. *)
Lemma sealed_effect key rec until now f s s' :
  (∀ t, now ≤ t → t < until → record_at t s key = Some rec) → fl_token f ≠ ir_token rec →
  own_effect now f s s' → ∀ t, now ≤ t → t < until → record_at t s' key = Some rec.
Proof.
  intros Hs Hne [K|((r & Hr & Ht) & E)] t Hle Hlt; [rewrite K by done; by apply Hs|].
  destruct (decide (key = fl_key f)) as [->|Hk].
  - rewrite (Hs now) in Hr by lia. injection Hr as <-. congruence.
  - destruct E as [E|(r1 & ttl & _ & _ & E)];
      rewrite E by done; rewrite decide_False by done; by apply Hs.
Qed.

Lemma step_sealed key rec until w a w' :
  world_inv w → step w a w' → sealed key rec until w → sealed key rec until w'.
Proof.
  unfold world_inv. intros Hinv Hstep [R T Ow].
  destruct Hstep as [w d Hd|w rid rq k fp uuids s' tk Hadm Hnew Hfresh Hb
    |w rid rq k fp uuids s' b r Hadm Hnew Hfresh Hb Hans|w rid rq k fp uuids s' Hadm Hnew Hfresh Hb
    |w rid f s' Hf Hph Hm|w rid f s' Hf Hph Hm|w rid f s' ok Hf Hph Hm|w rid f Hf Hph
    |w rid f finished r s' Hf Hph Hs|w rid f r Hf Hph].
  - split; cbn; [|done|done]. intros t Ht. apply R. lia.
  - destruct (begin_effect _ _ _ _ uuids k fp Hinv) as [_ [(E & Hn & Hw)|(r & E & _)]];
      rewrite Hb in *; [|done]. cbn [fst snd] in *. injection E as ->. split; cbn.
    + intros t Ht Hlt. rewrite Hw by done. case_decide as Hk; [|by apply R].
      subst k. rewrite R in Hn by lia. done.
    + set_solver.
    + intros rid' f' [[_ <-]|[_ Hf']]%lookup_insert_Some; cbn; [|by eapply Ow].
      intros E. apply (Hfresh O). by rewrite E.
  - destruct (begin_effect _ _ _ _ uuids k fp Hinv) as [_ [(E & Hn & Hw)|(r0 & E & _ & K)]];
      rewrite Hb in *; cbn [fst snd] in *; [rewrite E in Hans; discriminate Hans|].
    split; cbn; [|done|done]. intros t Ht Hlt. rewrite K by done. by apply R.
  - destruct (begin_effect _ _ _ _ uuids k fp Hinv) as [_ E]. split; cbn; [|set_solver|done].
    destruct Hb as [->| ->]; [done|]. intros t Ht Hlt.
    destruct E as [(_ & Hn & Hw)|(r0 & _ & _ & K)]; [|rewrite K by done; by apply R].
    rewrite Hw by done. case_decide as Hk; [|by apply R]. subst k. rewrite R in Hn by lia. done.
  - destruct (mark_effect _ _ _ _ rid f Hinv Hf) as (_ & E & _). rewrite Hm in E. split; cbn.
    + eapply sealed_effect; [exact R|by eapply Ow|exact E].
    + done.
    + intros rid' f' [[_ <-]|[_ Hf']]%lookup_insert_Some; cbn; by eapply Ow.
  - destruct (mark_effect _ _ _ _ rid f Hinv Hf) as (_ & E & _). split; cbn.
    + destruct Hm as [Hm|[->| ->]]; [rewrite Hm in E|done|];
        (eapply sealed_effect; [exact R|by eapply Ow|exact E]).
    + done.
    + intros rid' f' [_ Hf']%lookup_delete_Some. by eapply Ow.
  - destruct (mark_effect _ _ _ _ rid f Hinv Hf) as (_ & E & _). rewrite Hm in E. split; cbn.
    + eapply sealed_effect; [exact R|by eapply Ow|exact E].
    + done.
    + intros rid' f' [[_ <-]|[_ Hf']]%lookup_insert_Some; cbn; by eapply Ow.
  - done.
  - destruct (settle_effect _ _ _ _ rid f finished r Hinv Hf) as [_ E]. subst s'. split; cbn.
    + eapply sealed_effect; [exact R|by eapply Ow|exact E].
    + done.
    + intros rid' f' [_ Hf']%lookup_delete_Some. by eapply Ow.
  - split; cbn; [done|done|]. intros rid' f' [_ Hf']%lookup_delete_Some. by eapply Ow.
Qed.

Lemma starts_app key l1 l2 : starts key (l1 ++ l2) = starts key l1 + starts key l2.
Proof. unfold starts. apply countb_app. Qed.

(** While the record stands the handler is not run for its key. *)
Lemma step_sealed_starts key rec until w a w' :
  world_inv w → step w a w' → sealed key rec until w → w_now w < until →
  starts key (w_log w') = starts key (w_log w).
Proof.
  unfold world_inv. intros Hinv Hstep [R T Ow] Hlt.
  destruct Hstep as [| | | |w rid f s' Hf Hph Hm| | | | |]; cbn [w_log]; rewrite ?starts_app; try done;
    try (unfold starts, countb; cbn; lia).
  pose proof (markInProgress_law (w_now w) (fl_key f) (fl_token f) (io_lockTtlMs o) (w_store w) lock_pos
    (inv_wf _ _ _ _ Hinv)) as [_ Ho]. rewrite Hm in Ho. cbn in Ho.
  destruct (record_at _ _ _) as [r|] eqn:Er; [|by destruct Ho]. case_decide as Ht; [|by destruct Ho].
  unfold starts at 2, countb. cbn. case_bool_decide as Hk; [|cbn; lia]. exfalso. subst key.
  rewrite R in Er by lia. injection Er as <-. by eapply Ow.
Qed.

Lemma steps_sealed key rec until w w' :
  world_inv w → sealed key rec until w → steps w w' → w_now w' < until →
  sealed key rec until w' ∧ starts key (w_log w') = starts key (w_log w) ∧ w_now w ≤ w_now w'.
Proof.
  intros Hinv Hs Hsteps. revert Hinv Hs.
  induction Hsteps as [w|w w1 w' (a & Ha) _ IH]; intros Hinv Hs Hlt; [done|].
  assert (w_now w ≤ w_now w1) as Hle by by eapply step_time.
  destruct IH as (H1 & H2 & H3); [by eapply step_inv|by eapply step_sealed|done|].
  split_and!; [done| |lia]. rewrite H2. eapply step_sealed_starts; [done|done|done|lia].
Qed.

Lemma empty_inv now s :
  store_wf now s → (∀ t k, now ≤ t → record_at t s k = None) → world_inv (empty_world now s).
Proof.
  intros Hwf He. split; cbn; [done| | | | |].
  - intros t k r Ht. by rewrite He.
  - intros rid f. by rewrite lookup_empty.
  - intros rid1 rid2 f1 f2. by rewrite lookup_empty.
  - intros rid f. by rewrite lookup_empty.
  - intros rid f t r. by rewrite lookup_empty.
Qed.

(** C21. What the middleware promises of its lock: two requests in flight with the
    same key are never both inside the time their locks were granted for, so
    the handler never runs twice at once while heartbeats get through; and a
    request whose lock went to another one cannot touch the other's record,
    neither with a late heartbeat nor with its own response. *)
Theorem handlers_never_overlap now s w :
  store_wf now s → (∀ t k, now ≤ t → record_at t s k = None) → steps (empty_world now s) w →
  (∀ rid1 rid2 f1 f2, w_flights w !! rid1 = Some f1 → w_flights w !! rid2 = Some f2 →
     fl_key f1 = fl_key f2 → w_now w < fl_until f1 → w_now w < fl_until f2 → rid1 = rid2) ∧
  (∀ rid f rec finished r, w_flights w !! rid = Some f →
     record_at (w_now w) (w_store w) (fl_key f) = Some rec → ir_token rec ≠ fl_token f →
     keeps (w_now w) (w_store w)
       (markInProgress (w_now w) (fl_key f) (fl_token f) (io_lockTtlMs o) (w_store w)).1 ∧
     keeps (w_now w) (w_store w) (settle (w_now w) f finished r (w_store w)).1).
Proof.
  intros Hwf He Hsteps. pose proof (steps_inv _ _ (empty_inv now s Hwf He) Hsteps) as Hinv. split.
  - intros rid1 rid2 f1 f2 H1 H2 Hk L1 L2.
    destruct (inv_locks _ _ _ _ Hinv rid1 f1 H1 (w_now w)) as (r1 & E1 & T1); [lia|done|].
    destruct (inv_locks _ _ _ _ Hinv rid2 f2 H2 (w_now w)) as (r2 & E2 & T2); [lia|done|].
    apply (inv_distinct _ _ _ _ Hinv rid1 rid2 f1 f2 H1 H2). rewrite Hk in E1. congruence.
  - intros rid f rec finished r Hf Hr Hne.
    destruct (mark_effect _ _ _ _ rid f Hinv Hf) as (_ & E1 & _).
    destruct (settle_effect _ _ _ _ rid f finished r Hinv Hf) as [_ E2].
    split; [destruct E1 as [K|((r0 & Hr0 & Ht0) & _)]|destruct E2 as [K|((r0 & Hr0 & Ht0) & _)]];
      [done|congruence|done|congruence].
Qed.

(** The world after a request's handler ended. *)
Definition after_settle (w : World) (rid : nat) (f : Flight) (finished : bool) (r : StoredResponse) : World :=
  {| w_now := w_now w; w_store := (settle (w_now w) f finished r (w_store w)).1;
     w_flights := delete rid (w_flights w); w_tokens := w_tokens w;
     w_log := w_log w ++ [HandlerEnded rid (fl_key f) (sr_statusCode r)] |}.

(** A live owner's final response seals its key for the whole time to live. *)
Lemma settle_seals w rid f r :
  world_inv w → w_flights w !! rid = Some f → w_now w < fl_until f →
  isTransientStatus (sr_statusCode r) = false →
  ∃ rec, sealed (fl_key f) rec (w_now w + io_ttlSeconds o * 1000) (after_settle w rid f true r) ∧
    ir_state rec = (if sr_statusCode r <? 400 then COMPLETED else FAILED) ∧
    ir_response rec = Some r ∧ ir_fingerprint rec = fl_fingerprint f.
Proof.
  intros Hinv Hf Hlive Htr.
  destruct (inv_locks _ _ _ _ Hinv rid f Hf (w_now w)) as (r0 & Hr0 & Ht0); [lia|done|].
  pose proof (inv_prints _ _ _ _ Hinv rid f (w_now w) r0 Hf ltac:(lia) Hr0 Ht0) as Hfp.
  set (st := if sr_statusCode r <? 400 then _ else _).
  pose proof (complete_law (w_now w) (fl_key f) (fl_token f) st r (io_ttlSeconds o) (w_store w) ttl_pos
    (inv_wf _ _ _ _ Hinv)) as [_ Ho].
  rewrite Hr0, decide_True in Ho by done. destruct Ho as [_ Hw].
  exists (completed_record (w_now w) st r r0). split_and!; [|done|done|done]. split.
  - intros t Ht Hlt. cbn in *. unfold settle. rewrite Htr. cbn [negb orb]. fold st.
    rewrite Hw by done. rewrite decide_True by done. by rewrite (proj2 (Z.ltb_lt _ _) Hlt).
  - cbn. rewrite Ht0. by eapply (inv_drawn _ _ _ _ Hinv).
  - cbn [w_flights after_settle]. intros rid' f' [Hne Hf']%lookup_delete_Some E.
    apply Hne. cbn in E. rewrite Ht0 in E. symmetry.
    by apply (inv_distinct _ _ _ _ Hinv rid' rid f' f).
Qed.

(** C20. Exactly-once for a response that is kept: when a handler ends, within its
    lock, with a status that is not transient, then for [ttlSeconds] whatever
    other requests do the handler does not run for that key again, and every
    repetition of the request is answered with that response (and the reuse of
    the key for another request with 422).  After a transient failure the key
    is free at once for a retry. *)
Theorem completed_response_replayed now s w rid f r w' :
  store_wf now s → (∀ t k, now ≤ t → record_at t s k = None) → steps (empty_world now s) w →
  w_flights w !! rid = Some f → fl_phase f = Running → w_now w < fl_until f →
  steps (after_settle w rid f true r) w' →
  if isTransientStatus (sr_statusCode r)
  then ∀ uuids fp, decide_begin fp
         (begin (w_now w) uuids (fl_key f) fp (io_lockTtlMs o) (w_store (after_settle w rid f true r))).2
         = inr (uuids O)
  else w_now w' < w_now w + io_ttlSeconds o * 1000 →
       starts (fl_key f) (w_log w') = starts (fl_key f) (w_log w) ∧
       ∀ uuids fp, decide_begin fp
         (begin (w_now w') uuids (fl_key f) fp (io_lockTtlMs o) (w_store w')).2
         = inl (if bool_decide (fl_fingerprint f = fp) then Replay r
                else Refusal 422 "IDEMPOTENCY_KEY_REUSED").
Proof.
  intros Hwf He Hsteps Hf Hph Hlive Hafter.
  pose proof (steps_inv _ _ (empty_inv now s Hwf He) Hsteps) as Hinv.
  assert (world_inv (after_settle w rid f true r)) as Hinv1.
  { eapply (step_inv w (Settle rid)); [by apply st_settle with (finished := true)|done]. }
  destruct (isTransientStatus _) eqn:Htr.
  - intros uuids fp. cbn. pose proof (begin_effect _ _ _ _ uuids (fl_key f) fp Hinv1) as [_ E]. cbn in E.
    destruct E as [(-> & _)|(r0 & _ & Hr0 & _)]; [done|]. exfalso. revert Hr0.
    unfold settle. rewrite Htr. cbn [negb orb].
    pose proof (release_law (w_now w) (fl_key f) (fl_token f) (w_store w) (inv_wf _ _ _ _ Hinv)) as [_ Ho].
    destruct (inv_locks _ _ _ _ Hinv rid f Hf (w_now w)) as (r1 & Hr1 & Ht1); [lia|done|].
    rewrite Hr1, decide_True in Ho by done. destruct Ho as [_ Ho]. rewrite Ho by lia. by rewrite decide_True.
  - intros Hlt. destruct (settle_seals w rid f r Hinv Hf Hlive Htr) as (rec & Hs & Hst & Hresp & Hfp).
    destruct (steps_sealed _ _ _ _ _ Hinv1 Hs Hafter Hlt) as ([R _ _] & Hn & Hle). split.
    + rewrite Hn. cbn [after_settle w_log]. rewrite starts_app. unfold starts at 2, countb. cbn. lia.
    + intros uuids fp. pose proof (steps_inv _ _ Hinv1 Hafter) as Hinv2.
      destruct (begin_effect _ _ _ _ uuids (fl_key f) fp Hinv2) as [_ [(_ & E & _)|(r0 & -> & E & _)]];
        rewrite R in E by lia; [done|]. injection E as <-. cbn [decide_begin].
      rewrite Hfp, Hst, Hresp. case_bool_decide; cbn; [by case_match|done].
Qed.

End world.
End middleware.

(** ** A concrete run on the memory store *)

Definition plain_hash (s : string) : string := s.

Definition deposit_request : Request :=
  {| rq_method := "POST"; rq_baseUrl := "/api/financial"; rq_path := "/deposit"; rq_key := Some "k-1";
     rq_user := Some "u1"; rq_body := JObject [("amount", JNumber "5")] |}.

Definition deposit_key : string := "idempotency:u1:k-1".
Definition deposit_print : string := requestFingerprint plain_hash deposit_request.

Definition token_1 (_ : nat) : string := "t1".
Definition token_2 (_ : nat) : string := "t2".

Definition claimed_flight (token : string) (now : Z) : Flight :=
  {| fl_key := deposit_key; fl_fingerprint := deposit_print; fl_token := token; fl_phase := Claimed;
     fl_until := now + 60000 |}.

Definition claimed_world : World (S := Memory.store) :=
  {| w_now := 0; w_store := (begin 0 token_1 deposit_key deposit_print 60000 (∅ : Memory.store)).1;
     w_flights := <[1%nat := claimed_flight "t1" 0]> ∅; w_tokens := {["t1"]} ∪ ∅; w_log := [] |}.

Definition running_world : World (S := Memory.store) :=
  {| w_now := 0; w_store := (markInProgress 0 deposit_key "t1" 60000 (w_store claimed_world)).1;
     w_flights := <[1%nat := extended Running 60000 (claimed_flight "t1" 0)]> (w_flights claimed_world);
     w_tokens := w_tokens claimed_world; w_log := [] ++ [HandlerStarted 1 deposit_key] |}.

Abbreviation mem_steps := (steps plain_hash default_options (S := Memory.store)).

Lemma running_reached : mem_steps (empty_world 0 (∅ : Memory.store)) running_world.
Proof.
  eapply rtc_l; [|eapply rtc_l; [|apply rtc_refl]].
  - exists (Begin 1). refine (st_claim plain_hash default_options (empty_world 0 (∅ : Memory.store)) 1
      deposit_request deposit_key deposit_print token_1 (w_store claimed_world) "t1" _ _ _ _).
    + vm_compute. reflexivity.
    + reflexivity.
    + intros i. set_solver.
    + vm_compute. reflexivity.
  - exists (Mark 1). refine (st_mark plain_hash default_options claimed_world 1 (claimed_flight "t1" 0)
      (w_store running_world) _ _ _).
    + reflexivity.
    + reflexivity.
    + vm_compute. reflexivity.
Qed.

Definition created : StoredResponse := captured 201 (Some "application/json") "{}".

Lemma memory_starts_empty (now : Z) :
  store_wf now (∅ : Memory.store) ∧ ∀ t k, now ≤ t → record_at t (∅ : Memory.store) k = None.
Proof. split; [done|]. intros t k _. cbn. unfold Memory.mem_record_at. by rewrite lookup_empty. Qed.

Lemma handlers_never_overlap_witness :
  ∃ f, w_flights running_world !! 1%nat = Some f ∧ w_now running_world < fl_until f ∧
    ∀ rid2 f2, w_flights running_world !! rid2 = Some f2 → fl_key f2 = deposit_key →
      0 < fl_until f2 → 1%nat = rid2.
Proof.
  exists (extended Running 60000 (claimed_flight "t1" 0)). split; [reflexivity|]. split; [reflexivity|].
  intros rid2 f2 H2 Hk L2.
  eapply (proj1 (handlers_never_overlap plain_hash default_options ltac:(reflexivity) ltac:(reflexivity)
    0 (∅ : Memory.store) running_world (proj1 (memory_starts_empty 0)) (proj2 (memory_starts_empty 0))
    running_reached) 1%nat rid2 (extended Running 60000 (claimed_flight "t1" 0)) f2);
    [reflexivity|exact H2|symmetry; exact Hk|reflexivity|exact L2].
Defined.

Definition later_world : World (S := Memory.store) :=
  let w := after_settle default_options running_world 1 (extended Running 60000 (claimed_flight "t1" 0)) true created in
  {| w_now := w_now w + 3600000; w_store := w_store w; w_flights := w_flights w;
     w_tokens := w_tokens w; w_log := w_log w |}.

Lemma later_reached : mem_steps
  (after_settle default_options running_world 1 (extended Running 60000 (claimed_flight "t1" 0)) true created)
  later_world.
Proof. apply rtc_once. exists Tick. by apply st_tick. Qed.

Lemma completed_response_replayed_witness :
  starts deposit_key (w_log later_world) = 1 ∧
  decide_begin deposit_print (begin 3600000 token_2 deposit_key deposit_print 60000 (w_store later_world)).2
    = inl (Replay created).
Proof.
  pose proof (completed_response_replayed plain_hash default_options ltac:(reflexivity) ltac:(reflexivity)
    0 (∅ : Memory.store) running_world 1 (extended Running 60000 (claimed_flight "t1" 0)) created later_world
    (proj1 (memory_starts_empty 0)) (proj2 (memory_starts_empty 0)) running_reached
    ltac:(reflexivity) ltac:(reflexivity) ltac:(reflexivity) later_reached ltac:(vm_compute; reflexivity))
    as [H1 H2].
  split; [etrans; [exact H1|reflexivity]|].
  etrans; [exact (H2 token_2 deposit_print)|vm_compute; reflexivity].
Defined.

(** The store cannot be reached as the handler ends; a minute later the client
    retries. *)
Definition lost_world (now : Z) : World (S := Memory.store) :=
  {| w_now := now; w_store := w_store running_world; w_flights := delete 1%nat (w_flights running_world);
     w_tokens := w_tokens running_world;
     w_log := w_log running_world ++ [HandlerEnded 1 deposit_key 201] |}.

Definition reclaimed_world : World (S := Memory.store) :=
  {| w_now := 60000;
     w_store := (begin 60000 token_2 deposit_key deposit_print 60000 (w_store (lost_world 60000))).1;
     w_flights := <[2%nat := claimed_flight "t2" 60000]> (w_flights (lost_world 60000));
     w_tokens := {["t2"]} ∪ w_tokens (lost_world 60000); w_log := w_log (lost_world 60000) |}.

Definition rerun_world : World (S := Memory.store) :=
  {| w_now := 60000; w_store := (markInProgress 60000 deposit_key "t2" 60000 (w_store reclaimed_world)).1;
     w_flights := <[2%nat := extended Running 120000 (claimed_flight "t2" 60000)]> (w_flights reclaimed_world);
     w_tokens := w_tokens reclaimed_world;
     w_log := w_log reclaimed_world ++ [HandlerStarted 2 deposit_key] |}.

Lemma rerun_reached : mem_steps (empty_world 0 (∅ : Memory.store)) rerun_world.
Proof.
  etrans; [exact running_reached|].
  eapply rtc_l; [|eapply rtc_l; [|eapply rtc_l; [|eapply rtc_l; [|apply rtc_refl]]]].
  - exists (Settle 1). refine (st_settle_lost plain_hash default_options running_world 1
      (extended Running 60000 (claimed_flight "t1" 0)) created _ _); reflexivity.
  - exists Tick. refine (st_tick plain_hash default_options (lost_world 0) 60000 _). lia.
  - exists (Begin 2). refine (st_claim plain_hash default_options (lost_world 60000) 2 deposit_request
      deposit_key deposit_print token_2 (w_store reclaimed_world) "t2" _ _ _ _).
    + vm_compute. reflexivity.
    + reflexivity.
    + intros i. apply (bool_decide_unpack _). vm_compute. exact I.
    + vm_compute. reflexivity.
  - exists (Mark 2). refine (st_mark plain_hash default_options reclaimed_world 2 (claimed_flight "t2" 60000)
      (w_store rerun_world) _ _ _).
    + reflexivity.
    + reflexivity.
    + vm_compute. reflexivity.
Qed.

(** What the fail-closed design does not cover: when the store cannot be reached
    as a handler ends, its record stays [IN_PROGRESS] until the lock expires,
    and after that a retry runs the handler a second time although the first
    run answered 201. *)
Example lost_completion_runs_twice :
  ∃ w, mem_steps (empty_world 0 (∅ : Memory.store)) w ∧ starts deposit_key (w_log w) = 2 ∧
    HandlerEnded 1 deposit_key 201 ∈ w_log w.
Proof.
  exists rerun_world. split; [exact rerun_reached|]. split; [vm_compute; reflexivity|].
  unfold rerun_world, reclaimed_world, lost_world, running_world. cbn [w_log]. set_solver.
Qed.
