(* ===== verification/AuditLog.v ===== *)
(** * The hash-chained audit log: [backend/src/services/audit/cryptoAuditLog.ts]

    The chain in memory, and in the table the appends of several processes race
    for.  SHA-256 is an argument; what the chain protects is stated for chains
    on whose hashed texts it does not collide. *)

From Stdlib Require Import Strings.Ascii Strings.String.
From S2P Require Import Prelude Json.

#[local] Open Scope string_scope.
#[local] Open Scope Z_scope.

Definition GENESIS_HASH : string :=
  "0000000000000000000000000000000000000000000000000000000000000000".

Record CryptoAuditEntry : Type := {
  ca_id : string;
  ca_sequence : Z;
  ca_action : string;
  ca_actorId : string;
  ca_entityType : string;
  ca_entityId : string;
  ca_payload : Json;
  ca_timestamp : string;
  ca_previousHash : string;
  ca_hash : string
}.

Inductive ChainError : Type := SequenceMismatch | BrokenContinuity | TamperedRow.

Record VerificationResult : Type := {
  vr_valid : bool;
  vr_totalEntries : Z;
  vr_verifiedBlocks : option Z;
  vr_tamperedIndex : option Z;
  vr_corruptRecordId : option string;
  vr_error : option ChainError;
  vr_lastVerifiedHash : option string
}.

Section chain.
(** [createHash("sha256").update(_, "utf8").digest("hex")]. *)
Context (sha256 : string → string).

Definition dataToHash (previousHash : string) (payload : Json) (timestamp actorId : string) : string :=
  previousHash +:+ "|" +:+ canonicalizePayload payload +:+ "|" +:+ timestamp +:+ "|" +:+ actorId.

Definition calculateAuditHash (previousHash : string) (payload : Json) (timestamp actorId : string) : string :=
  sha256 (dataToHash previousHash payload timestamp actorId).

(** ** The chain in memory *)

Record CryptographicAuditLog : Type := {
  al_chain : list CryptoAuditEntry;
  al_currentHash : string
}.

Definition new_CryptographicAuditLog (initialEntries : list CryptoAuditEntry) : CryptographicAuditLog :=
  {| al_chain := initialEntries;
     al_currentHash := match last initialEntries with Some e => ca_hash e | None => GENESIS_HASH end |}.

(** What a caller asks to be recorded. *)
Record Mutation : Type := {
  mu_action : string;
  mu_actorId : string;
  mu_entityType : string;
  mu_entityId : string;
  mu_payload : Json
}.

Definition link (id : string) (sequence : Z) (m : Mutation) (timestamp previousHash : string) : CryptoAuditEntry :=
  {| ca_id := id; ca_sequence := sequence; ca_action := mu_action m; ca_actorId := mu_actorId m;
     ca_entityType := mu_entityType m; ca_entityId := mu_entityId m; ca_payload := mu_payload m;
     ca_timestamp := timestamp; ca_previousHash := previousHash;
     ca_hash := calculateAuditHash previousHash (mu_payload m) timestamp (mu_actorId m) |}.

(** [record]; the id, of the sequence number and the clock, is an argument. *)
Definition record (id : string) (timestamp : string) (m : Mutation) (log : CryptographicAuditLog)
    : CryptographicAuditLog * CryptoAuditEntry :=
  let entry := link id (Z.of_nat (length (al_chain log)) + 1) m timestamp (al_currentHash log) in
  ({| al_chain := al_chain log ++ [entry]; al_currentHash := ca_hash entry |}, entry).

Definition corrupt (total : Z) (i : Z) (e : CryptoAuditEntry) (err : ChainError) : VerificationResult :=
  {| vr_valid := false; vr_totalEntries := total; vr_verifiedBlocks := Some i; vr_tamperedIndex := Some i;
     vr_corruptRecordId := Some (ca_id e); vr_error := Some err; vr_lastVerifiedHash := None |}.

(** The loop of [verify] from index [i] on. *)
Fixpoint verify_from (total i : Z) (expectedPrevHash : string) (chain : list CryptoAuditEntry)
    : VerificationResult :=
  match chain with
  | [] => {| vr_valid := true; vr_totalEntries := total; vr_verifiedBlocks := Some total;
             vr_tamperedIndex := None; vr_corruptRecordId := None; vr_error := None;
             vr_lastVerifiedHash := Some expectedPrevHash |}
  | entry :: chain =>
      if negb (ca_sequence entry =? i + 1) then corrupt total i entry SequenceMismatch
      else if negb (String.eqb (ca_previousHash entry) expectedPrevHash)
      then corrupt total i entry BrokenContinuity
      else if negb (String.eqb (calculateAuditHash (ca_previousHash entry) (ca_payload entry)
                                  (ca_timestamp entry) (ca_actorId entry)) (ca_hash entry))
      then corrupt total i entry TamperedRow
      else verify_from total (i + 1) (ca_hash entry) chain
  end.

Definition verify (chain : list CryptoAuditEntry) : VerificationResult :=
  match chain with
  | [] => {| vr_valid := true; vr_totalEntries := 0; vr_verifiedBlocks := None; vr_tamperedIndex := None;
             vr_corruptRecordId := None; vr_error := None; vr_lastVerifiedHash := Some GENESIS_HASH |}
  | _ => verify_from (Z.of_nat (length chain)) 0 GENESIS_HASH chain
  end.

(** ** The chain in the database *)

(** [crypto_audit_log] in the order of insertion; [sequence] and [hash] are
    unique and [payload] is a JSON column. *)
Abbreviation table := (list CryptoAuditEntry).

(** [findFirst({ orderBy: { sequence: "desc" } })] and [findMany] ascending. *)
Definition findFirst (t : table) : option CryptoAuditEntry := head (sort_by (desc ca_sequence) t).
Definition findMany (t : table) : list CryptoAuditEntry := sort_by (asc ca_sequence) t.

(** [create]: [None] is the unique violation P2002. *)
Definition create (e : CryptoAuditEntry) (t : table) : option table :=
  if existsb (λ r, (ca_sequence r =? ca_sequence e) || String.eqb (ca_hash r) (ca_hash e)) t then None
  else Some (t ++ [{| ca_id := ca_id e; ca_sequence := ca_sequence e; ca_action := ca_action e;
                      ca_actorId := ca_actorId e; ca_entityType := ca_entityType e;
                      ca_entityId := ca_entityId e; ca_payload := stored (ca_payload e);
                      ca_timestamp := ca_timestamp e; ca_previousHash := ca_previousHash e;
                      ca_hash := ca_hash e |}])%list.

Definition MAX_APPEND_ATTEMPTS : Z := 3.

(** The row [append] tries to insert, from the head it read. *)
Definition next_link (id : string) (m : Mutation) (timestamp : string) (head : option CryptoAuditEntry)
    : CryptoAuditEntry :=
  link id (default 0 (ca_sequence <$> head) + 1) m timestamp (default GENESIS_HASH (ca_hash <$> head)).

(** An [append] that has read the head and is about to insert. *)
Record Append : Type := {
  ap_mutation : Mutation;
  ap_attempt : Z;
  ap_head : option CryptoAuditEntry
}.

Inductive AppendOutcome : Type := Appended (rid : nat) (e : CryptoAuditEntry) | RaceLost (rid : nat) | Failed (rid : nat).

Record AuditWorld : Type := {
  aw_table : table;
  aw_appends : gmap nat Append;
  aw_done : list AppendOutcome
}.

Definition retry (a : Append) (head : option CryptoAuditEntry) : Append :=
  {| ap_mutation := ap_mutation a; ap_attempt := ap_attempt a + 1; ap_head := head |}.

(** [append] calls of several processes: a call reads the head, and later
    inserts; on P2002 it reads again unless it was the last attempt; any other
    error ends it. *)
Inductive append_step : AuditWorld → AuditWorld → Prop :=
| as_read w rid m : aw_appends w !! rid = None →
    append_step w {| aw_table := aw_table w;
      aw_appends := <[rid := {| ap_mutation := m; ap_attempt := 1; ap_head := findFirst (aw_table w) |}]> (aw_appends w);
      aw_done := aw_done w |}
| as_insert w rid a id timestamp t' : aw_appends w !! rid = Some a →
    create (next_link id (ap_mutation a) timestamp (ap_head a)) (aw_table w) = Some t' →
    append_step w {| aw_table := t'; aw_appends := delete rid (aw_appends w);
      aw_done := aw_done w ++ [Appended rid (next_link id (ap_mutation a) timestamp (ap_head a))] |}
| as_retry w rid a id timestamp : aw_appends w !! rid = Some a →
    create (next_link id (ap_mutation a) timestamp (ap_head a)) (aw_table w) = None →
    ap_attempt a < MAX_APPEND_ATTEMPTS →
    append_step w {| aw_table := aw_table w;
      aw_appends := <[rid := retry a (findFirst (aw_table w))]> (aw_appends w); aw_done := aw_done w |}
| as_give_up w rid a id timestamp : aw_appends w !! rid = Some a →
    create (next_link id (ap_mutation a) timestamp (ap_head a)) (aw_table w) = None →
    MAX_APPEND_ATTEMPTS ≤ ap_attempt a →
    append_step w {| aw_table := aw_table w; aw_appends := delete rid (aw_appends w);
      aw_done := aw_done w ++ [RaceLost rid] |}
| as_error w rid a : aw_appends w !! rid = Some a →
    append_step w {| aw_table := aw_table w; aw_appends := delete rid (aw_appends w);
      aw_done := aw_done w ++ [Failed rid] |}.

(** ** A valid chain *)

(** The link before index [i] of a chain. *)
Definition hash_before (chain : list CryptoAuditEntry) (i : nat) : string :=
  match i with O => GENESIS_HASH | S i => default "" (ca_hash <$> chain !! i) end.

Definition link_ok (i : Z) (previous : string) (e : CryptoAuditEntry) : Prop :=
  ca_sequence e = i + 1 ∧ ca_previousHash e = previous ∧
  ca_hash e = calculateAuditHash previous (ca_payload e) (ca_timestamp e) (ca_actorId e).

Definition chain_ok (chain : list CryptoAuditEntry) : Prop :=
  ∀ i e, chain !! i = Some e → link_ok (Z.of_nat i) (hash_before chain i) e.

(** The same, from an index and a hash on. *)
Fixpoint links_ok (i : Z) (previous : string) (chain : list CryptoAuditEntry) : Prop :=
  match chain with [] => True | e :: chain => link_ok i previous e ∧ links_ok (i + 1) (ca_hash e) chain end.

Definition last_hash (previous : string) (chain : list CryptoAuditEntry) : string :=
  match last chain with Some e => ca_hash e | None => previous end.

Lemma last_hash_cons p e chain : last_hash p (e :: chain) = last_hash (ca_hash e) chain.
Proof. unfold last_hash. rewrite last_cons. by destruct (last chain). Qed.

Lemma last_hash_snoc p e chain : last_hash p (chain ++ [e]) = ca_hash e.
Proof. unfold last_hash. by rewrite last_snoc. Qed.

Lemma links_ok_app i p c1 c2 :
  links_ok i p (c1 ++ c2) ↔ links_ok i p c1 ∧ links_ok (i + Z.of_nat (length c1)) (last_hash p c1) c2.
Proof.
  revert i p. induction c1 as [|e c1 IH]; intros i p; cbn [app links_ok length].
  - rewrite Z.add_0_r. unfold last_hash. cbn. tauto.
  - rewrite IH, last_hash_cons. replace (i + Z.of_nat (S (length c1))) with (i + 1 + Z.of_nat (length c1)) by lia.
    tauto.
Qed.

Lemma links_ok_lookup i p chain : links_ok i p chain ↔
  ∀ j e, chain !! j = Some e →
    link_ok (i + Z.of_nat j) (match j with O => p | S j => default "" (ca_hash <$> chain !! j) end) e.
Proof.
  revert i p. induction chain as [|e chain IH]; intros i p; cbn [links_ok].
  { split; [|done]. by intros _ [|j] e. }
  rewrite IH. split.
  - intros [H1 H2] [|j] e' Hj; cbn in Hj.
    + injection Hj as <-. by rewrite Z.add_0_r.
    + replace (i + Z.of_nat (S j)) with (i + 1 + Z.of_nat j) by lia. by destruct j; apply H2.
  - intros H. split.
    + specialize (H O e eq_refl). by rewrite Z.add_0_r in H.
    + intros j e' Hj. specialize (H (S j) e' Hj).
      replace (i + 1 + Z.of_nat j) with (i + Z.of_nat (S j)) by lia. by destruct j.
Qed.

Lemma chain_ok_links chain : chain_ok chain ↔ links_ok 0 GENESIS_HASH chain.
Proof.
  rewrite links_ok_lookup. unfold chain_ok, hash_before. split; intros H j e Hj; specialize (H j e Hj);
    rewrite Z.add_0_l in *; exact H.
Qed.

(** [verify] accepts exactly the valid chains. *)
Lemma verify_from_ok total i p chain :
  links_ok i p chain → verify_from total i p chain =
    {| vr_valid := true; vr_totalEntries := total; vr_verifiedBlocks := Some total; vr_tamperedIndex := None;
       vr_corruptRecordId := None; vr_error := None; vr_lastVerifiedHash := Some (last_hash p chain) |}.
Proof.
  revert i p. induction chain as [|e chain IH]; intros i p; cbn [links_ok verify_from]; [done|].
  intros [(-> & -> & Hh) Hl]. rewrite Z.eqb_refl, String.eqb_refl. cbn [negb].
  rewrite <- Hh, String.eqb_refl. cbn [negb]. rewrite IH by done. by rewrite last_hash_cons.
Qed.

(** Otherwise it points at the first link that is wrong, after links that are right. *)
Lemma verify_from_bad total i p chain :
  ¬ links_ok i p chain → ∃ good e bad err, chain = (good ++ e :: bad)%list ∧ links_ok i p good ∧
    ¬ link_ok (i + Z.of_nat (length good)) (last_hash p good) e ∧
    verify_from total i p chain = corrupt total (i + Z.of_nat (length good)) e err.
Proof.
  revert i p. induction chain as [|e chain IH]; intros i p; cbn [links_ok verify_from]; [tauto|]. intros Hbad.
  assert (∀ err, ¬ link_ok i p e → ∃ good e' bad err', e :: chain = (good ++ e' :: bad)%list ∧ links_ok i p good ∧
    ¬ link_ok (i + Z.of_nat (length good)) (last_hash p good) e' ∧
    corrupt total i e err = corrupt total (i + Z.of_nat (length good)) e' err') as Hhere.
  { intros err Hl. exists [], e, chain, err. cbn. rewrite Z.add_0_r. by split_and!. }
  destruct (ca_sequence e =? i + 1) eqn:E1; cbn [negb]; bool_to_prop.
  2:{ apply Hhere. by intros (? & _). }
  destruct (String.eqb_spec (ca_previousHash e) p) as [E2|E2]; cbn [negb].
  2:{ apply Hhere. by intros (_ & ? & _). }
  destruct (String.eqb_spec (calculateAuditHash (ca_previousHash e) (ca_payload e) (ca_timestamp e) (ca_actorId e))
    (ca_hash e)) as [E3|E3]; cbn [negb].
  2:{ apply Hhere. intros (_ & _ & E4). by rewrite E2 in E3. }
  destruct (IH (i + 1) (ca_hash e)) as (good & e' & bad & err & -> & Hg & Hb & ->).
  { intros Hl. apply Hbad. split; [|done]. split_and!; [done|done|by rewrite <- E2]. }
  exists (e :: good), e', bad, err. cbn [length links_ok]. rewrite last_hash_cons.
  replace (i + Z.of_nat (S (length good))) with (i + 1 + Z.of_nat (length good)) by lia.
  split_and!; try done. by rewrite <- E2.
Qed.

#[export] Instance link_ok_dec i p e : Decision (link_ok i p e).
Proof. unfold link_ok. apply _. Defined.

#[export] Instance links_ok_dec i p chain : Decision (links_ok i p chain).
Proof. revert i p. induction chain; intros; cbn [links_ok]; apply _. Defined.

Lemma verify_valid chain : vr_valid (verify chain) = true ↔ chain_ok chain.
Proof.
  rewrite chain_ok_links. destruct chain as [|e chain]; [done|]. cbn [verify].
  set (c := e :: chain). split; [|intros H; by rewrite verify_from_ok].
  intros H. destruct (decide (links_ok 0 GENESIS_HASH c)) as [|Hbad]; [done|].
  destruct (verify_from_bad (Z.of_nat (length c)) 0 GENESIS_HASH c Hbad) as (? & ? & ? & ? & _ & _ & _ & E).
  by rewrite E in H.
Qed.

Lemma verify_last chain : chain_ok chain → vr_lastVerifiedHash (verify chain) = Some (last_hash GENESIS_HASH chain).
Proof. rewrite chain_ok_links. intros H. destruct chain; [done|]. cbn [verify]. by rewrite verify_from_ok. Qed.

(** [verify] accepts exactly the chains whose entries are numbered from 1, link
    to the entry before and carry the hash of their content; of any other chain
    it reports the first entry that breaks this. *)
Theorem verify_reports_first_corruption chain :
  (vr_valid (verify chain) = true ↔ chain_ok chain) ∧
  (¬ chain_ok chain → ∃ i e, chain !! i = Some e ∧ vr_tamperedIndex (verify chain) = Some (Z.of_nat i) ∧
     vr_corruptRecordId (verify chain) = Some (ca_id e) ∧ chain_ok (take i chain) ∧
     ¬ link_ok (Z.of_nat i) (hash_before chain i) e).
Proof.
  split; [apply verify_valid|]. rewrite chain_ok_links. intros Hbad.
  destruct chain as [|e0 chain]; [by destruct Hbad|]. cbn [verify]. set (c := e0 :: chain) in *.
  destruct (verify_from_bad (Z.of_nat (length c)) 0 GENESIS_HASH c Hbad)
    as (good & e & bad & err & Hc & Hg & Hb & ->).
  rewrite Z.add_0_l in *. exists (length good), e. split_and!.
  - rewrite Hc. by apply list_lookup_middle.
  - done.
  - done.
  - rewrite Hc, take_app_length. by apply chain_ok_links.
  - intros Hl. apply Hb. clearbody c. subst c. unfold hash_before in Hl.
    destruct good as [|g good] using rev_ind; [done|].
    rewrite last_hash_snoc. rewrite length_app, Nat.add_comm in *. cbn [length Nat.add] in *.
    rewrite <- app_assoc, lookup_app_r, Nat.sub_diag in Hl by lia. done.
Qed.

(** ** What the hash protects *)

Section protected.
Context (sha256_length : ∀ x, String.length (sha256 x) = 64%nat).

Definition no_bar (s : string) : bool := forallb (λ c, negb (Ascii.eqb c "|"%char)) (list_ascii_of_string s).

#[local] Arguments String.append !_ _ /.

Lemma bar_split s t a b :
  no_bar s = true → no_bar t = true → s +:+ "|" +:+ a = t +:+ "|" +:+ b → s = t ∧ a = b.
Proof.
  unfold no_bar. revert t. induction s as [|c s IH]; intros [|d t]; cbn; intros Hs Ht E.
  - by injection E.
  - injection E as <- _. done.
  - injection E as -> _. done.
  - injection E as -> E. apply andb_true_iff in Hs as [_ Hs]. apply andb_true_iff in Ht as [_ Ht].
    by destruct (IH t Hs Ht E) as [-> ->].
Qed.

Lemma prefix_same_length (s t a b : string) :
  String.length s = String.length t → s +:+ a = t +:+ b → s = t ∧ a = b.
Proof.
  revert t. induction s as [|c s IH]; intros [|d t]; cbn; intros Hl E; try done.
  injection E as -> E. injection Hl as Hl. by destruct (IH t Hl E) as [-> ->].
Qed.

(** The text that is hashed gives back the previous hash and the three fields. *)
Lemma data_determines p1 p2 v w t1 t2 a1 a2 :
  String.length p1 = String.length p2 → json_wf v = true → json_wf w = true →
  no_bar t1 = true → no_bar t2 = true →
  dataToHash p1 v t1 a1 = dataToHash p2 w t2 a2 →
  p1 = p2 ∧ same_json v w ∧ t1 = t2 ∧ a1 = a2.
Proof.
  unfold dataToHash. intros Hl Hv Hw H1 H2 E.
  apply prefix_same_length in E as [-> E]; [|done]. cbn in E. injection E as E.
  rewrite !canonical_is_print in E by done.
  destruct (print_prefix (norm v) (norm_wf v Hv) (norm w) _ _ (norm_wf w Hw)
    (eq_refl : delim (String "|"%char _) = true) (eq_refl : delim (String "|"%char _) = true) E) as [En E'].
  injection E' as E'. apply bar_split in E' as [-> ->]; [|done|done]. split_and!; try done.
  rewrite (norm_same v Hv), En. symmetry. by apply norm_same.
Qed.

Definition well_formed (e : CryptoAuditEntry) : Prop :=
  json_wf (ca_payload e) = true ∧ no_bar (ca_timestamp e) = true.

(** The fields of an entry that its hash covers. *)
Definition covered (e1 e2 : CryptoAuditEntry) : Prop :=
  ca_sequence e1 = ca_sequence e2 ∧ ca_previousHash e1 = ca_previousHash e2 ∧ ca_hash e1 = ca_hash e2 ∧
  same_json (ca_payload e1) (ca_payload e2) ∧ ca_timestamp e1 = ca_timestamp e2 ∧
  ca_actorId e1 = ca_actorId e2.

(** The texts that were hashed for the entries of a chain. *)
Definition hashed_texts (chain : list CryptoAuditEntry) : list string :=
  (λ e, dataToHash (ca_previousHash e) (ca_payload e) (ca_timestamp e) (ca_actorId e)) <$> chain.

(** SHA-256 gives different digests on different texts of the list, and never
    the hash that stands for the empty chain. *)
Definition no_collision (texts : list string) : Prop :=
  Forall (λ x, sha256 x ≠ GENESIS_HASH ∧ Forall (λ y, sha256 x = sha256 y → x = y) texts) texts.

Lemma no_collision_sub texts texts' : texts' ⊆ texts → no_collision texts → no_collision texts'.
Proof.
  unfold no_collision. rewrite !Forall_forall. intros Hs H x Hx%Hs. destruct (H x Hx) as [H1 H2]. split; [done|].
  rewrite Forall_forall in *. auto.
Qed.

Lemma link_length i p e : links_ok 0 GENESIS_HASH p → link_ok i (last_hash GENESIS_HASH p) e →
  String.length (ca_previousHash e) = 64%nat.
Proof.
  intros Hl (_ & -> & _). destruct p as [|g p _] using rev_ind; [done|].
  rewrite last_hash_snoc. apply links_ok_app in Hl as [_ [(_ & _ & ->) _]]. apply sha256_length.
Qed.

Lemma last_link c e : links_ok 0 GENESIS_HASH (c ++ [e]) →
  links_ok 0 GENESIS_HASH c ∧ link_ok (Z.of_nat (length c)) (last_hash GENESIS_HASH c) e.
Proof. rewrite links_ok_app, Z.add_0_l. by intros [? [? _]]. Qed.

Lemma same_head_same_chain c1 c2 :
  links_ok 0 GENESIS_HASH c1 → links_ok 0 GENESIS_HASH c2 → Forall well_formed c1 → Forall well_formed c2 →
  no_collision (hashed_texts c1 ++ hashed_texts c2) →
  last_hash GENESIS_HASH c1 = last_hash GENESIS_HASH c2 → Forall2 covered c1 c2.
Proof.
  assert (∀ c e, links_ok 0 GENESIS_HASH (c ++ [e]) → ∃ x, x ∈ hashed_texts (c ++ [e]) ∧ ca_hash e = sha256 x ∧
    x = dataToHash (ca_previousHash e) (ca_payload e) (ca_timestamp e) (ca_actorId e)) as Hlast.
  { intros c e [_ (_ & Hp & Hh)]%last_link.
    exists (dataToHash (ca_previousHash e) (ca_payload e) (ca_timestamp e) (ca_actorId e)).
    split_and!; [|by rewrite Hh, Hp|done].
    apply list_elem_of_fmap. exists e. split; [done|]. apply elem_of_app. right. by left. }
  revert c2. induction c1 as [|e1 c1 IH] using rev_ind; intros c2 H1 H2 W1 W2 Hn E;
    (destruct c2 as [|e2 c2 _] using rev_ind; [try by constructor|]); unfold no_collision in Hn;
    rewrite Forall_forall in Hn; rewrite ?last_hash_snoc in E.
  - destruct (Hlast _ _ H2) as (x & Hx & Hh & _). destruct (Hn x) as [[] _]; [by apply elem_of_app; right|].
    by rewrite <- Hh, <- E.
  - destruct (Hlast _ _ H1) as (x & Hx & Hh & _). destruct (Hn x) as [[] _]; [by apply elem_of_app; left|].
    by rewrite <- Hh, E.
  - destruct (Hlast _ _ H1) as (x & Hx & Hhx & Ex), (Hlast _ _ H2) as (y & Hy & Hhy & Ey).
    assert (x = y) as Exy.
    { destruct (Hn x) as [_ Hxy]; [by apply elem_of_app; left|]. rewrite Forall_forall in Hxy.
      apply Hxy; [by apply elem_of_app; right|congruence]. }
    apply last_link in H1 as [H1 L1]. apply last_link in H2 as [H2 L2].
    apply Forall_app in W1 as [W1 [[V1 T1] _]%Forall_cons]. apply Forall_app in W2 as [W2 [[V2 T2] _]%Forall_cons].
    pose proof (link_length _ _ _ H1 L1) as N1. pose proof (link_length _ _ _ H2 L2) as N2.
    rewrite Ex, Ey in Exy. apply data_determines in Exy as (Ep & Ev & Et & Ea); [|congruence|done|done|done|done].
    destruct L1 as (S1 & P1 & _), L2 as (S2 & P2 & _).
    assert (Forall2 covered c1 c2) as F.
    { apply IH; try done; [|congruence]. eapply no_collision_sub; [|unfold no_collision; rewrite Forall_forall; exact Hn].
      unfold hashed_texts. rewrite !fmap_app. intros z. rewrite !elem_of_app. tauto. }
    apply Forall2_app; [done|]. constructor; [|done].
    pose proof (Forall2_length _ _ _ F). split_and!; try done. congruence.
Qed.

Lemma covered_same_head p c1 c2 : Forall2 covered c1 c2 → last_hash p c1 = last_hash p c2.
Proof.
  intros F. revert p. induction F as [|e1 e2 c1 c2 (_ & _ & Hh & _) _ IH]; intros p; [done|].
  rewrite !last_hash_cons, Hh. apply IH.
Qed.

(** C27. Tamper evidence, against a last hash that was kept elsewhere: of two chains
    that verify, the last verified hashes are the same exactly when the chains
    have the same number of entries, in the same order, with the same payloads,
    actors and times; so altering, reordering, adding or dropping an entry
    shows, whatever is recomputed afterwards, unless SHA-256 collides on two of
    the texts hashed for these two chains (or gives the hash of the empty one).
    What an entry calls its action and its entity is not covered. *)
Theorem tampering_is_evident c1 c2 :
  vr_valid (verify c1) = true → vr_valid (verify c2) = true →
  Forall well_formed c1 → Forall well_formed c2 →
  no_collision (hashed_texts c1 ++ hashed_texts c2) →
  vr_lastVerifiedHash (verify c1) = vr_lastVerifiedHash (verify c2) ↔ Forall2 covered c1 c2.
Proof.
  rewrite !verify_valid. intros H1 H2 W1 W2 Hn. rewrite !verify_last by done.
  apply chain_ok_links in H1. apply chain_ok_links in H2. split.
  - intros [= E]. by apply same_head_same_chain.
  - intros F. by rewrite (covered_same_head _ _ _ F).
Qed.

End protected.

(** ** What it does not protect *)

(** The action and the entity are not hashed: they can be rewritten. *)
Definition relabel (action entityType entityId : string) (e : CryptoAuditEntry) : CryptoAuditEntry :=
  {| ca_id := ca_id e; ca_sequence := ca_sequence e; ca_action := action; ca_actorId := ca_actorId e;
     ca_entityType := entityType; ca_entityId := entityId; ca_payload := ca_payload e;
     ca_timestamp := ca_timestamp e; ca_previousHash := ca_previousHash e; ca_hash := ca_hash e |}.

(** Rewriting what an entry was about, or cutting off the newest entries, leaves
    a chain that verifies. *)
Lemma relabelled_chain_verifies chain i action entityType entityId n :
  vr_valid (verify chain) = true →
  vr_valid (verify (alter (relabel action entityType entityId) i chain)) = true ∧
  vr_valid (verify (take n chain)) = true.
Proof.
  rewrite !verify_valid. intros Hc. split.
  - intros j e Hj. unfold hash_before.
    assert (∀ k, ca_hash <$> alter (relabel action entityType entityId) i chain !! k = ca_hash <$> chain !! k) as Eh.
    { intros k. destruct (decide (i = k)) as [->|].
      - rewrite list_lookup_alter_eq. by destruct (chain !! k).
      - by rewrite list_lookup_alter_ne. }
    destruct (decide (i = j)) as [->|Hne].
    + rewrite list_lookup_alter_eq in Hj. apply fmap_Some in Hj as (e0 & H0 & ->).
      pose proof (Hc j e0 H0) as Hl. destruct j; [exact Hl|]. rewrite Eh. exact Hl.
    + rewrite list_lookup_alter_ne in Hj by done. pose proof (Hc j e Hj) as Hl.
      destruct j; [exact Hl|]. rewrite Eh. exact Hl.
  - apply chain_ok_links. apply chain_ok_links in Hc. rewrite <- (take_drop n chain), links_ok_app in Hc. tauto.
Qed.

(** ** Appending *)

Lemma link_is_ok id i m ts p : link_ok (i - 1) p (link id i m ts p).
Proof. unfold link_ok. cbn. split_and!; [lia|done|done]. Qed.

Lemma links_snoc p c e : links_ok 0 p c → link_ok (Z.of_nat (length c)) (last_hash p c) e → links_ok 0 p (c ++ [e]).
Proof. intros Hc He. apply links_ok_app. rewrite Z.add_0_l. by split. Qed.

(** The log in memory always verifies. *)
Lemma record_keeps_valid id ts m log :
  chain_ok (al_chain log) → al_currentHash log = last_hash GENESIS_HASH (al_chain log) →
  let log' := (record id ts m log).1 in
  chain_ok (al_chain log') ∧ al_currentHash log' = last_hash GENESIS_HASH (al_chain log') ∧
  vr_valid (verify (al_chain log')) = true.
Proof.
  intros Hc Hh. cbn zeta. assert (chain_ok (al_chain (record id ts m log).1)) as Hok.
  { apply chain_ok_links, links_snoc; [by apply chain_ok_links|]. rewrite <- Hh.
    pose proof (link_is_ok id (Z.of_nat (length (al_chain log)) + 1) m ts (al_currentHash log)) as H.
    by rewrite Z.add_simpl_r in H. }
  split_and!; [done| |by apply verify_valid]. cbn. by rewrite last_hash_snoc.
Qed.

(** *** The table is read back as it was written *)

Lemma links_sequence i p c j e : links_ok i p c → c !! j = Some e → ca_sequence e = i + Z.of_nat j + 1.
Proof. rewrite links_ok_lookup. intros H Hj. by destruct (H j e Hj). Qed.

Lemma sequences_distinct i p c a b : links_ok i p c → a ∈ c → b ∈ c → ca_sequence a = ca_sequence b → a = b.
Proof.
  intros Hc [j Hj]%list_elem_of_lookup [k Hk]%list_elem_of_lookup E.
  rewrite (links_sequence _ _ _ _ _ Hc Hj), (links_sequence _ _ _ _ _ Hc Hk) in E.
  assert (j = k) as -> by lia. congruence.
Qed.

Lemma links_sorted i p c : links_ok i p c → StronglySorted (λ a b, asc ca_sequence a b ≤ 0) c.
Proof.
  revert i p. induction c as [|e c IH]; intros i p Hc; [constructor|].
  pose proof (links_sequence i p (e :: c) O e Hc eq_refl) as He. destruct Hc as [_ Hc].
  constructor; [by eapply IH|]. rewrite Forall_forall. intros x [j Hx]%list_elem_of_lookup.
  pose proof (links_sequence _ _ _ _ _ Hc Hx). unfold asc. lia.
Qed.

Lemma findMany_chain c : links_ok 0 GENESIS_HASH c → findMany c = c.
Proof. intros Hc. by eapply sort_by_id, links_sorted. Qed.

Lemma reverse_sorted c : links_ok 0 GENESIS_HASH c →
  StronglySorted (λ a b, desc ca_sequence a b ≤ 0) (reverse c).
Proof.
  induction c as [|e c IH] using rev_ind; intros Hc; [constructor|]. rewrite reverse_snoc.
  pose proof (links_sequence 0 GENESIS_HASH (c ++ [e]) (length c) e Hc) as He.
  rewrite list_lookup_middle in He by done. specialize (He eq_refl).
  apply last_link in Hc as [Hc _]. constructor; [by apply IH|]. rewrite Forall_forall.
  intros x Hx. rewrite elem_of_reverse in Hx. apply list_elem_of_lookup in Hx as [j Hx]. pose proof (links_sequence _ _ _ _ _ Hc Hx).
  apply lookup_lt_Some in Hx. unfold desc. lia.
Qed.

Lemma findFirst_chain c : links_ok 0 GENESIS_HASH c → findFirst c = last c.
Proof.
  intros Hc. unfold findFirst. rewrite (sort_by_unique (desc ca_sequence) c (reverse c)).
  - rewrite sort_by_id by by apply reverse_sorted. destruct c as [|e c _] using rev_ind; [done|].
    by rewrite reverse_snoc, last_snoc.
  - intros a b Ha Hb E. eapply sequences_distinct; [done|done|done|]. unfold desc in E. lia.
  - by rewrite reverse_Permutation.
Qed.

(** *** Racing appends *)

(** A head that was read is the end of a prefix of the table. *)
Definition read_head (t : table) (head : option CryptoAuditEntry) : Prop :=
  ∃ n, (n ≤ length t)%nat ∧ head = last (take n t).

Lemma last_take_hash c n : default GENESIS_HASH (ca_hash <$> last (take n c)) = last_hash GENESIS_HASH (take n c).
Proof. unfold last_hash. by destruct (last (take n c)). Qed.

Lemma last_take_sequence c n : links_ok 0 GENESIS_HASH c → (n ≤ length c)%nat →
  default 0 (ca_sequence <$> last (take n c)) = Z.of_nat n.
Proof.
  intros Hc Hn. destruct n as [|n]; [done|]. destruct (lookup_lt_is_Some_2 c n) as [e He]; [lia|].
  rewrite (take_S_r c n e He), last_snoc. cbn. rewrite (links_sequence _ _ _ _ _ Hc He). lia.
Qed.

(** An insert succeeds only from the current head, and links to it. *)
Lemma create_from_head id m ts head t t' :
  links_ok 0 GENESIS_HASH t → read_head t head → json_wf (mu_payload m) = true →
  create (next_link id m ts head) t = Some t' →
  t' = (t ++ [next_link id m ts head])%list ∧ links_ok 0 GENESIS_HASH t'.
Proof.
  intros Ht (n & Hn & ->) Hwf. unfold create. destruct (existsb _ t) eqn:Ex; [done|]. intros [= <-].
  unfold next_link in *. rewrite last_take_hash, last_take_sequence in * by done.
  assert (n = length t) as ->.
  { destruct (decide (n = length t)) as [|Hne]; [done|]. exfalso.
    destruct (lookup_lt_is_Some_2 t n) as [e He]; [lia|].
    assert (existsb (λ r, (ca_sequence r =? ca_sequence (link id (Z.of_nat n + 1) m ts (last_hash GENESIS_HASH (take n t))))
       || String.eqb (ca_hash r) (ca_hash (link id (Z.of_nat n + 1) m ts (last_hash GENESIS_HASH (take n t))))) t = true)
      as Hex; [|congruence].
    apply existsb_exists. exists e. split; [apply list_elem_of_In; by eapply list_elem_of_lookup_2|].
    apply orb_true_iff. left. cbn. rewrite (links_sequence _ _ _ _ _ Ht He). apply Z.eqb_eq. lia. }
  rewrite take_ge in * by lia. cbn [ca_payload link ca_id ca_sequence ca_action ca_actorId ca_entityType ca_entityId
    ca_timestamp ca_previousHash ca_hash]. rewrite stored_id by done. split; [done|].
  apply links_snoc; [done|].
  pose proof (link_is_ok id (Z.of_nat (length t) + 1) m ts (last_hash GENESIS_HASH t)) as H.
  by rewrite Z.add_simpl_r in H.
Qed.

(** Appends of payloads that a JSON column keeps as they are. *)
Definition plain_step (w w' : AuditWorld) : Prop :=
  append_step w w' ∧ ∀ rid a, aw_appends w' !! rid = Some a → json_wf (mu_payload (ap_mutation a)) = true.

Definition appended (o : AppendOutcome) : option CryptoAuditEntry :=
  match o with Appended _ e => Some e | _ => None end.

Definition no_appends : AuditWorld := {| aw_table := []; aw_appends := ∅; aw_done := [] |}.

Record audit_inv (w : AuditWorld) : Prop := {
  ai_chain : links_ok 0 GENESIS_HASH (aw_table w);
  ai_heads : ∀ rid a, aw_appends w !! rid = Some a → read_head (aw_table w) (ap_head a);
  ai_plain : ∀ rid a, aw_appends w !! rid = Some a → json_wf (mu_payload (ap_mutation a)) = true;
  ai_rows : omap appended (aw_done w) = aw_table w
}.

Lemma read_head_now t : links_ok 0 GENESIS_HASH t → read_head t (findFirst t).
Proof. intros Ht. exists (length t). rewrite findFirst_chain, take_ge by done. done. Qed.

Lemma read_head_later t e head : read_head t head → read_head (t ++ [e])%list head.
Proof.
  intros (n & Hn & ->). exists n. rewrite length_app. split; [cbn; lia|]. by rewrite take_app_le.
Qed.

Lemma audit_step_inv w w' : plain_step w w' → audit_inv w → audit_inv w'.
Proof.
  intros [Hstep Hplain] [C Hd P R]. destruct Hstep as [w rid m Hnew|w rid a id ts t' Ha Hc
    |w rid a id ts Ha Hc Hn|w rid a id ts Ha Hc Hn|w rid a Ha]; (split; cbn in *; [try done| |done|]).
  - intros rid' a' [[_ <-]|[_ H']]%lookup_insert_Some; [by apply read_head_now|by eapply Hd].
  - done.
  - by destruct (create_from_head _ _ _ _ _ _ C (Hd rid a Ha) (P rid a Ha) Hc).
  - destruct (create_from_head _ _ _ _ _ _ C (Hd rid a Ha) (P rid a Ha) Hc) as [-> _].
    intros rid' a' [_ H']%lookup_delete_Some. by eapply read_head_later, Hd.
  - destruct (create_from_head _ _ _ _ _ _ C (Hd rid a Ha) (P rid a Ha) Hc) as [-> _].
    by rewrite omap_app, R.
  - intros rid' a' [[_ <-]|[_ H']]%lookup_insert_Some; [by apply read_head_now|by eapply Hd].
  - done.
  - intros rid' a' [_ H']%lookup_delete_Some. by eapply Hd.
  - by rewrite omap_app, R, app_nil_r.
  - intros rid' a' [_ H']%lookup_delete_Some. by eapply Hd.
  - by rewrite omap_app, R, app_nil_r.
Qed.

(** However appends of several processes interleave, the stored chain verifies,
    its rows are exactly the entries whose append succeeded, in that order, and
    an insert is refused only if another append got in between (or two hashes
    are equal). *)
Theorem racing_appends_serialise w :
  rtc plain_step no_appends w →
  vr_valid (verify (findMany (aw_table w))) = true ∧
  findMany (aw_table w) = omap appended (aw_done w) ∧
  (∀ rid a id ts, aw_appends w !! rid = Some a →
     create (next_link id (ap_mutation a) ts (ap_head a)) (aw_table w) = None →
     ap_head a ≠ findFirst (aw_table w) ∨
     ∃ r, r ∈ aw_table w ∧ ca_hash r = ca_hash (next_link id (ap_mutation a) ts (ap_head a))).
Proof.
  intros Hw. assert (audit_inv w) as [C Hd P R].
  { assert (audit_inv no_appends) as H0.
    { split; cbn; [done|intros ??; by rewrite lookup_empty|intros ??; by rewrite lookup_empty|done]. }
    revert H0. induction Hw as [w|w w1 w2 H1 _ IH]; [done|]. intros H0. by apply IH, (audit_step_inv w). }
  rewrite findMany_chain by done. split_and!; [by apply verify_valid, chain_ok_links|done|].
  intros rid a id ts Ha. unfold create. destruct (existsb _ _) eqn:Ex; [intros _|done].
  apply existsb_exists in Ex as (r & Hr%list_elem_of_In & [Hs|Hh]%orb_true_iff).
  - left. intros E. rewrite findFirst_chain in E by done. apply Z.eqb_eq in Hs. cbn in Hs. rewrite E in Hs.
    pose proof (last_take_sequence (aw_table w) (length (aw_table w)) C ltac:(lia)) as E2.
    rewrite take_ge in E2 by lia. rewrite E2 in Hs. apply list_elem_of_lookup in Hr as [j Hj].
    rewrite (links_sequence _ _ _ _ _ C Hj) in Hs. apply lookup_lt_Some in Hj. lia.
  - right. exists r. split; [done|]. by apply String.eqb_eq.
Qed.

(** A payload with an [undefined] property is hashed with it and stored without:
    the log then reports its own entry as tampered with, unless SHA-256 gives both
    texts the same digest. *)
Definition undefined_payload : Json := JObject [("note", JUndefined)].

Lemma undefined_payload_false_alarm id action actor etype eid ts :
  let m := {| mu_action := action; mu_actorId := actor; mu_entityType := etype; mu_entityId := eid;
              mu_payload := undefined_payload |} in
  ∃ t, create (next_link id m ts (findFirst [])) [] = Some t ∧
    (vr_valid (verify (findMany t)) = true →
     calculateAuditHash GENESIS_HASH undefined_payload ts actor = calculateAuditHash GENESIS_HASH (JObject []) ts actor) ∧
    dataToHash GENESIS_HASH undefined_payload ts actor ≠ dataToHash GENESIS_HASH (JObject []) ts actor.
Proof.
  cbn zeta. eexists. split; [reflexivity|]. rewrite verify_valid. split.
  - intros Hok. by specialize (Hok O _ eq_refl) as (_ & _ & E).
  - unfold dataToHash. cbn. intros [=].
Qed.

End chain.
(** ** Concrete chains *)

Module Sample.
(** Text of 64 characters standing for a digest. *)
Definition fixed_hash (s : string) : string :=
  String.substring (String.length s) 64 (GENESIS_HASH +:+ s).

Definition transfer : Mutation :=
  {| mu_action := "SQUAD_TRANSFER"; mu_actorId := "u1"; mu_entityType := "squad"; mu_entityId := "s1";
     mu_payload := JObject [("in", JNumber "7"); ("out", JNumber "9")] |}.

Definition sample_chain : list CryptoAuditEntry :=
  al_chain (record fixed_hash "a2" "2026-01-02" transfer
    (record fixed_hash "a1" "2026-01-01" transfer (new_CryptographicAuditLog [])).1).1.

Lemma fixed_hash_length x : String.length (fixed_hash x) = 64%nat.
Proof.
  unfold fixed_hash.
  assert (∀ s m n, (m + n ≤ String.length s)%nat → String.length (String.substring m n s) = n) as H.
  { intros s. induction s as [|c s IH]; intros [|m] [|n]; cbn; intros Hl; try lia; rewrite ?IH; lia. }
  apply H. assert (∀ a b : string, String.length (a +:+ b) = (String.length a + String.length b)%nat) as Ha.
  { intros a b. induction a as [|c a IH]; [done|]. change (S (String.length (a +:+ b)) = S (String.length a + String.length b)).
    by rewrite IH. }
  rewrite Ha. change (String.length GENESIS_HASH) with 64%nat. lia.
Qed.

(** Two appends read the empty table; the second loses the race and tries again. *)
Definition first_row : CryptoAuditEntry := next_link fixed_hash "r1" transfer "2026-01-01" None.
Definition second_row : CryptoAuditEntry := next_link fixed_hash "r3" transfer "2026-01-02" (Some first_row).

Definition reading (attempt : Z) (head : option CryptoAuditEntry) : Append :=
  {| ap_mutation := transfer; ap_attempt := attempt; ap_head := head |}.

Definition race (n : nat) : AuditWorld :=
  match n with
  | 0%nat => no_appends
  | 1%nat => {| aw_table := []; aw_appends := <[1%nat := reading 1 None]> ∅; aw_done := [] |}
  | 2%nat => {| aw_table := []; aw_appends := <[2%nat := reading 1 None]> (<[1%nat := reading 1 None]> ∅);
                aw_done := [] |}
  | 3%nat => {| aw_table := [first_row];
                aw_appends := delete 1%nat (<[2%nat := reading 1 None]> (<[1%nat := reading 1 None]> ∅));
                aw_done := [Appended 1 first_row] |}
  | 4%nat => {| aw_table := [first_row];
                aw_appends := <[2%nat := reading 2 (Some first_row)]>
                  (delete 1%nat (<[2%nat := reading 1 None]> (<[1%nat := reading 1 None]> ∅)));
                aw_done := [Appended 1 first_row] |}
  | _ => {| aw_table := [first_row; second_row];
            aw_appends := delete 2%nat (<[2%nat := reading 2 (Some first_row)]>
                  (delete 1%nat (<[2%nat := reading 1 None]> (<[1%nat := reading 1 None]> ∅))));
            aw_done := [Appended 1 first_row; Appended 2 second_row] |}
  end.

Lemma race_payloads n rid a : aw_appends (race n) !! rid = Some a → json_wf (mu_payload (ap_mutation a)) = true.
Proof.
  destruct n as [|[|[|[|[|n]]]]]; cbn [race aw_appends no_appends];
    repeat first [intros [[_ <-]|[_ H]]%lookup_insert_Some; [reflexivity|revert H]
                 |intros [_ H]%lookup_delete_Some; revert H]; by rewrite lookup_empty.
Qed.

Lemma race_reached : rtc (plain_step fixed_hash) no_appends (race 5).
Proof.
  apply (rtc_l _ (race 0) (race 1)); [|apply (rtc_l _ _ (race 2)); [|apply (rtc_l _ _ (race 3));
    [|apply (rtc_l _ _ (race 4)); [|apply rtc_once]]]]; (split; [|apply race_payloads]).
  - refine (as_read fixed_hash (race 0) 1 transfer _). reflexivity.
  - refine (as_read fixed_hash (race 1) 2 transfer _). reflexivity.
  - refine (as_insert fixed_hash (race 2) 1 (reading 1 None) "r1" "2026-01-01" [first_row] _ _);
      [reflexivity|vm_compute; reflexivity].
  - refine (as_retry fixed_hash (race 3) 2 (reading 1 None) "r2" "2026-01-02" _ _ _);
      [reflexivity|vm_compute; reflexivity|reflexivity].
  - refine (as_insert fixed_hash (race 4) 2 (reading 2 (Some first_row)) "r3" "2026-01-02"
      [first_row; second_row] _ _); [reflexivity|vm_compute; reflexivity].
Qed.

(** The same transfers, the first one attributed to somebody else and all hashes
    computed again. *)
Definition framed : Mutation :=
  {| mu_action := "SQUAD_TRANSFER"; mu_actorId := "u2"; mu_entityType := "squad"; mu_entityId := "s1";
     mu_payload := JObject [("in", JNumber "7"); ("out", JNumber "9")] |}.

Definition forged_chain : list CryptoAuditEntry :=
  al_chain (record fixed_hash "a2" "2026-01-02" transfer
    (record fixed_hash "a1" "2026-01-01" framed (new_CryptographicAuditLog [])).1).1.

Lemma sample_chain_valid : vr_valid (verify fixed_hash sample_chain) = true.
Proof. vm_compute. reflexivity. Qed.

End Sample.

Lemma verify_reports_first_corruption_witness :
  ∃ i e, Sample.sample_chain !! 0%nat ≠ None ∧
    (relabel "x" "y" "z" <$> [e]) !! 0%nat ≠ None ∧
    reverse Sample.sample_chain !! i = Some e ∧ ¬ link_ok Sample.fixed_hash (Z.of_nat i)
      (hash_before (reverse Sample.sample_chain) i) e.
Proof.
  destruct (proj2 (verify_reports_first_corruption Sample.fixed_hash (reverse Sample.sample_chain)))
    as (i & e & Hi & _ & _ & _ & Hb).
  - rewrite <- verify_valid. vm_compute. discriminate.
  - exists i, e. split_and!; [discriminate|discriminate|exact Hi|exact Hb].
Defined.

Lemma tampering_is_evident_witness :
  vr_valid (verify Sample.fixed_hash Sample.forged_chain) = true ∧
  vr_lastVerifiedHash (verify Sample.fixed_hash Sample.sample_chain)
    ≠ vr_lastVerifiedHash (verify Sample.fixed_hash Sample.forged_chain) ∧
  vr_lastVerifiedHash (verify Sample.fixed_hash Sample.sample_chain)
    = vr_lastVerifiedHash (verify Sample.fixed_hash (relabel "OTHER" "x" "y" <$> Sample.sample_chain)).
Proof.
  assert (vr_valid (verify Sample.fixed_hash Sample.forged_chain) = true) as Hf by (vm_compute; reflexivity).
  assert (vr_valid (verify Sample.fixed_hash (relabel "OTHER" "x" "y" <$> Sample.sample_chain)) = true) as Hr
    by (vm_compute; reflexivity).
  split; [exact Hf|]. split.
  - intros E. apply (tampering_is_evident Sample.fixed_hash Sample.fixed_hash_length Sample.sample_chain
      Sample.forged_chain Sample.sample_chain_valid Hf) in E.
    + inversion E as [|? ? ? ? (_ & _ & _ & _ & _ & Ha) _]. discriminate Ha.
    + repeat constructor.
    + repeat constructor.
    + unfold no_collision. apply (bool_decide_unpack _). vm_compute. exact I.
  - apply (tampering_is_evident Sample.fixed_hash Sample.fixed_hash_length Sample.sample_chain
      (relabel "OTHER" "x" "y" <$> Sample.sample_chain) Sample.sample_chain_valid Hr).
    + repeat constructor.
    + repeat constructor.
    + unfold no_collision. apply (bool_decide_unpack _). vm_compute. exact I.
    + repeat constructor; intros; reflexivity.
Defined.

Lemma racing_appends_serialise_witness :
  length (aw_table (Sample.race 5)) = 2%nat ∧
  vr_valid (verify Sample.fixed_hash (findMany (aw_table (Sample.race 5)))) = true.
Proof.
  split; [reflexivity|].
  exact (proj1 (racing_appends_serialise Sample.fixed_hash (Sample.race 5) Sample.race_reached)).
Defined.
