(* ===== verification/FinancialAudit.v ===== *)
(** * The buffered recorder of money movements:
      [backend/src/services/audit/financialAuditLog.ts]

    The logger's fields and methods, and a step relation over its timer, the
    callers that await a flush and the answers of the database. *)

From S2P Require Import Prelude.

#[local] Open Scope Z_scope.

Section buffer.
(** An entry as [record] builds it; nothing here looks inside. *)
Context {FinancialAuditEntry : Type}.
Context (batchSize maxBufferSize : nat).

(** [l_flushing]: [drain] is running, with the batch whose [createMany] it
    awaits; [l_waiting]: calls of [flush] that await it. *)
Record FinancialAuditLogger : Type := {
  l_buffer : list FinancialAuditEntry;
  l_timer : bool;
  l_flushing : option (list FinancialAuditEntry);
  l_waiting : nat;
  l_dropped : Z;
  l_table : list FinancialAuditEntry
}.

Definition new_FinancialAuditLogger : FinancialAuditLogger :=
  {| l_buffer := []; l_timer := false; l_flushing := None; l_waiting := 0; l_dropped := 0; l_table := [] |}.

Definition set_buffer (b : list FinancialAuditEntry) (l : FinancialAuditLogger) : FinancialAuditLogger :=
  {| l_buffer := b; l_timer := l_timer l; l_flushing := l_flushing l; l_waiting := l_waiting l;
     l_dropped := l_dropped l; l_table := l_table l |}.

Definition set_timer (t : bool) (l : FinancialAuditLogger) : FinancialAuditLogger :=
  {| l_buffer := l_buffer l; l_timer := t; l_flushing := l_flushing l; l_waiting := l_waiting l;
     l_dropped := l_dropped l; l_table := l_table l |}.

Definition set_flushing (f : option (list FinancialAuditEntry)) (w : nat) (l : FinancialAuditLogger)
    : FinancialAuditLogger :=
  {| l_buffer := l_buffer l; l_timer := l_timer l; l_flushing := f; l_waiting := w;
     l_dropped := l_dropped l; l_table := l_table l |}.

(** [trimBuffer]: the oldest entries go. *)
Definition trimBuffer (l : FinancialAuditLogger) : FinancialAuditLogger :=
  let overflow := (length (l_buffer l) - maxBufferSize)%nat in
  {| l_buffer := drop overflow (l_buffer l); l_timer := l_timer l; l_flushing := l_flushing l;
     l_waiting := l_waiting l; l_dropped := l_dropped l + Z.of_nat overflow; l_table := l_table l |}.

Definition scheduleFlush : FinancialAuditLogger → FinancialAuditLogger := set_timer true.

(** The head of [drain]'s loop: splice a batch and await its [createMany]. *)
Definition next_batch (l : FinancialAuditLogger) : FinancialAuditLogger :=
  match l_buffer l with
  | [] => set_flushing None (l_waiting l) l
  | _ => set_flushing (Some (take batchSize (l_buffer l))) (l_waiting l)
           (set_buffer (drop batchSize (l_buffer l)) l)
  end.

(** [flush] up to its first wait. *)
Definition flush (l : FinancialAuditLogger) : FinancialAuditLogger :=
  match l_flushing l with
  | Some _ => set_flushing (l_flushing l) (S (l_waiting l)) l
  | None => match l_buffer l with [] => l | _ => next_batch (set_timer false l) end
  end.

Definition record (e : FinancialAuditEntry) (l : FinancialAuditLogger) : FinancialAuditLogger :=
  let l := trimBuffer (set_buffer (l_buffer l ++ [e]) l) in
  if (batchSize <=? length (l_buffer l))%nat then flush l else scheduleFlush l.

(** The answer of [createMany]: rows are inserted all or none. *)
Definition persisted (batch : list FinancialAuditEntry) (l : FinancialAuditLogger) : FinancialAuditLogger :=
  next_batch {| l_buffer := l_buffer l; l_timer := l_timer l; l_flushing := None; l_waiting := l_waiting l;
                l_dropped := l_dropped l; l_table := l_table l ++ batch |}.

Definition put_back (batch : list FinancialAuditEntry) (l : FinancialAuditLogger) : FinancialAuditLogger :=
  scheduleFlush (trimBuffer (set_flushing None (l_waiting l) (set_buffer (batch ++ l_buffer l) l))).

(** [close]: the timer is cleared and the rest flushed. *)
Definition close (l : FinancialAuditLogger) : FinancialAuditLogger := flush (set_timer false l).

Inductive Label : Type := Record (e : FinancialAuditEntry) | Other.

Inductive log_step : FinancialAuditLogger → Label → FinancialAuditLogger → Prop :=
| ls_record l e : log_step l (Record e) (record e l)
| ls_timer l : l_timer l = true → log_step l Other (flush (set_timer false l))
| ls_persisted l batch : l_flushing l = Some batch → log_step l Other (persisted batch l)
| ls_failed l batch : l_flushing l = Some batch → log_step l Other (put_back batch l)
| ls_wake l n : l_flushing l = None → l_waiting l = S n → log_step l Other (flush (set_flushing None n l))
| ls_flush l : log_step l Other (flush l)
| ls_close l : log_step l Other (close l).

(** A run with the entries recorded on the way. *)
Inductive log_run : list FinancialAuditEntry → FinancialAuditLogger → Prop :=
| lr_new : log_run [] new_FinancialAuditLogger
| lr_record es l l' e : log_run es l → log_step l (Record e) l' → log_run (es ++ [e]) l'
| lr_other es l l' : log_run es l → log_step l Other l' → log_run es l'.

(** ** What is kept *)

Definition in_flight (l : FinancialAuditLogger) : list FinancialAuditEntry := default [] (l_flushing l).

(** Everything the logger still accounts for, oldest first. *)
Definition kept (l : FinancialAuditLogger) : list FinancialAuditEntry :=
  (l_table l ++ in_flight l ++ l_buffer l)%list.

(** An entry that is buffered will be tried: a timer, a drain or a waiting
    flush is there to do it. *)
Definition will_flush (l : FinancialAuditLogger) : Prop :=
  l_buffer l = [] ∨ l_timer l = true ∨ l_flushing l ≠ None ∨ (0 < l_waiting l)%nat.

Record log_inv (es : list FinancialAuditEntry) (l : FinancialAuditLogger) : Prop := {
  li_sub : kept l `sublist_of` es;
  li_count : Z.of_nat (length es) = Z.of_nat (length (kept l)) + l_dropped l;
  li_dropped : 0 ≤ l_dropped l;
  li_bound : (length (l_buffer l) ≤ maxBufferSize)%nat;
  li_flush : will_flush l
}.

Lemma trim_bound l : (length (l_buffer (trimBuffer l)) ≤ maxBufferSize)%nat.
Proof. cbn. rewrite length_drop. lia. Qed.

Lemma next_batch_kept l : l_flushing l = None → kept (next_batch l) = kept l.
Proof.
  intros Hf. unfold next_batch, kept, in_flight. destruct (l_buffer l) as [|e b] eqn:E; cbn.
  - by rewrite Hf, ?E.
  - by rewrite Hf, take_drop.
Qed.

Lemma flush_kept l : kept (flush l) = kept l.
Proof.
  unfold flush. destruct (l_flushing l) as [b|] eqn:Hf; [by unfold kept, in_flight; cbn; rewrite Hf|].
  destruct (l_buffer l) as [|e b] eqn:E; [done|].
  rewrite next_batch_kept by done. by unfold kept, in_flight; cbn; rewrite Hf.
Qed.

Lemma flush_dropped l : l_dropped (flush l) = l_dropped l.
Proof. unfold flush, next_batch. repeat case_match; reflexivity. Qed.

Lemma next_batch_bound l : (length (l_buffer (next_batch l)) ≤ length (l_buffer l))%nat.
Proof. unfold next_batch. destruct (l_buffer l) eqn:E; cbn; [by rewrite E|]. rewrite length_drop. cbn. lia. Qed.

Lemma flush_bound l : (length (l_buffer (flush l)) ≤ length (l_buffer l))%nat.
Proof.
  unfold flush. destruct (l_flushing l); [done|]. destruct (l_buffer l) eqn:E; [by rewrite E|].
  rewrite <- E. apply (next_batch_bound (set_timer false l)).
Qed.

Lemma next_batch_flush l : will_flush (next_batch l).
Proof. unfold will_flush, next_batch. destruct (l_buffer l) eqn:E; cbn; [by left|]. right. right. by left. Qed.

Lemma flush_flush l : will_flush (flush l).
Proof.
  unfold flush. destruct (l_flushing l) eqn:Hf; [by right; right; left|].
  destruct (l_buffer l) eqn:E; [by left|]. apply next_batch_flush.
Qed.

Lemma trim_kept l :
  kept (trimBuffer l) `sublist_of` kept l ∧
  Z.of_nat (length (kept l)) + l_dropped l = Z.of_nat (length (kept (trimBuffer l))) + l_dropped (trimBuffer l).
Proof.
  unfold kept, in_flight. cbn. split.
  - repeat apply sublist_app; try done. apply sublist_drop.
  - rewrite !length_app, length_drop. lia.
Qed.

Lemma sublist_same_length {A} (l1 l2 : list A) : l1 `sublist_of` l2 → length l1 = length l2 → l1 = l2.
Proof.
  induction 1 as [|x l1 l2 _ IH|x l1 l2 Hs _]; cbn; intros Hl; [done| |].
  - f_equal. apply IH. lia.
  - apply sublist_length in Hs. lia.
Qed.

(** One more entry at the end. *)
Lemma push_kept e l : kept (set_buffer (l_buffer l ++ [e]) l) = (kept l ++ [e])%list.
Proof. unfold kept, in_flight. cbn. by rewrite !app_assoc. Qed.

Lemma record_inv es l e : log_inv es l → log_inv (es ++ [e]) (record e l).
Proof.
  intros [Hs Hc Hd Hb Hf]. unfold record. set (l1 := set_buffer (l_buffer l ++ [e]) l).
  destruct (trim_kept l1) as [Ts Tc]. unfold l1 in Tc at 1. rewrite push_kept, length_app in Tc.
  change (length [e]) with 1%nat in Tc. change (l_dropped l1) with (l_dropped l) in Tc.
  pose proof (trim_bound l1) as Tb.
  assert (kept (trimBuffer l1) `sublist_of` (es ++ [e])%list) as Hsub.
  { etrans; [exact Ts|]. unfold l1. rewrite push_kept. by apply sublist_app. }
  assert (0 ≤ l_dropped (trimBuffer l1)) as Hd1 by (cbn; lia).
  case_match.
  - split; [by rewrite flush_kept|rewrite flush_kept, flush_dropped, length_app; change (length [e]) with 1%nat; lia|by rewrite flush_dropped| |].
    + pose proof (flush_bound (trimBuffer l1)). lia.
    + apply flush_flush.
  - split; [done| |done|done|right; by left]. rewrite length_app. change (length [e]) with 1%nat.
    change (kept (scheduleFlush (trimBuffer l1))) with (kept (trimBuffer l1)).
    change (l_dropped (scheduleFlush (trimBuffer l1))) with (l_dropped (trimBuffer l1)). lia.
Qed.

Lemma flush_inv es l l0 : log_inv es l → kept l0 = kept l → l_dropped l0 = l_dropped l →
  (length (l_buffer l0) ≤ length (l_buffer l))%nat → log_inv es (flush l0).
Proof.
  intros [Hs Hc Hd Hb Hf] Hk Hdr Hl.
  split; [by rewrite flush_kept, Hk|rewrite flush_kept, flush_dropped, Hk; lia|rewrite flush_dropped; lia| |].
  - pose proof (flush_bound l0). lia.
  - apply flush_flush.
Qed.

Lemma other_inv es l l' : log_step l Other l' → log_inv es l → log_inv es l'.
Proof.
  intros Hstep Hinv. pose proof Hinv as [Hs Hc Hd Hb Hf].
  inversion Hstep as [|l0 Ht|l0 batch Hfl|l0 batch Hfl|l0 n Hfl Hw|l0|l0]; subst.
  - by apply (flush_inv es l).
  - unfold persisted. set (l1 := {| l_buffer := _ |}).
    assert (kept (next_batch l1) = kept l) as Hk.
    { rewrite next_batch_kept by done. unfold kept, in_flight, l1. cbn. rewrite Hfl. cbn. by rewrite <- app_assoc. }
    assert (l_dropped (next_batch l1) = l_dropped l) as Hdr.
    { unfold next_batch. by destruct (l_buffer l1). }
    split; [by rewrite Hk|by rewrite Hk, Hdr|by rewrite Hdr| |apply next_batch_flush].
    pose proof (next_batch_bound l1). cbn in *. lia.
  - unfold put_back. set (l1 := set_flushing None (l_waiting l) (set_buffer (batch ++ l_buffer l) l)).
    assert (kept l1 = kept l) as Hk by (unfold kept, in_flight, l1; cbn; by rewrite Hfl).
    destruct (trim_kept l1) as [Ts Tc]. rewrite Hk in Ts, Tc. cbn in Tc.
    split; [by etrans|cbn in *; lia|cbn; lia|apply trim_bound|]. right. by left.
  - apply (flush_inv es l); try done. unfold kept, in_flight. cbn. by rewrite Hfl.
  - by apply (flush_inv es l).
  - by apply (flush_inv es l).
Qed.

(** The recorder loses nothing silently: whatever the order of records, timers,
    flushes and answers of the database, what is in the table, in flight and in
    the buffer are recorded entries in the order they were recorded, each at
    most once; what is missing is exactly what [droppedCount] counts, so it is
    everything as long as the buffer never overflowed; the buffer is bounded,
    and while it holds entries something is pending that will flush it. *)
Theorem audit_buffer_conserves es l :
  log_run es l →
  kept l `sublist_of` es ∧
  Z.of_nat (length es) = Z.of_nat (length (kept l)) + l_dropped l ∧
  (l_dropped l = 0 → kept l = es) ∧
  (length (l_buffer l) ≤ maxBufferSize)%nat ∧ will_flush l.
Proof.
  intros Hrun. assert (log_inv es l) as [Hs Hc Hd Hb Hf].
  { induction Hrun as [|es l l' e _ IH Hstep|es l l' _ IH Hstep].
    - split; cbn; [done|done|done|lia|by left].
    - inversion Hstep; subst. by apply record_inv.
    - by eapply other_inv. }
  split_and!; [done|done| |done|done]. intros H0.
  apply sublist_same_length; [done|lia].
Qed.

End buffer.

(** Three movements; the first batch of two is refused once. *)
Lemma sample_run : ∃ l, log_run 2 3 ["a"; "b"; "c"] l ∧
  l_table l = ["a"; "b"] ∧ l_flushing l = Some ["c"] ∧ l_buffer l = [] ∧ l_dropped l = 0.
Proof.
  pose proof (lr_record 2 3 [] _ _ "a" (lr_new 2 3) (ls_record 2 3 _ "a")) as H1.
  pose proof (lr_record 2 3 ["a"] _ _ "b" H1 (ls_record 2 3 _ "b")) as H2.
  pose proof (lr_record 2 3 ["a"; "b"] _ _ "c" H2 (ls_record 2 3 _ "c")) as H3.
  pose (s3 := record 2 3 "c" (record 2 3 "b" (record 2 3 "a" new_FinancialAuditLogger))).
  pose (s4 := put_back 3 ["a"; "b"] s3).
  pose (s5 := flush 2 (set_timer false s4)).
  pose proof (lr_other 2 3 _ s3 s4 H3 (ls_failed 2 3 s3 ["a"; "b"] eq_refl)) as H4.
  pose proof (lr_other 2 3 _ s4 s5 H4 (ls_timer 2 3 s4 eq_refl)) as H5.
  pose proof (lr_other 2 3 _ s5 _ H5 (ls_persisted 2 3 s5 ["a"; "b"] eq_refl)) as H6.
  eexists. split; [exact H6|]. by vm_compute.
Qed.

Lemma audit_buffer_conserves_witness : ∃ l : FinancialAuditLogger (FinancialAuditEntry := string),
  l_table l = ["a"; "b"] ∧ kept l = ["a"; "b"; "c"].
Proof.
  destruct sample_run as (l & Hrun & Ht & _ & _ & Hd). exists l. split; [exact Ht|].
  exact (proj1 (proj2 (proj2 (audit_buffer_conserves 2 3 ["a"; "b"; "c"] l Hrun))) Hd).
Defined.
