(* ===== verification/LockManager.v ===== *)
(** * Distributed locks of squad mutations: [backend/src/services/lockManager.ts]

    [withLock] is a sequence of awaits that other calls interleave with: a step
    relation over the clock, the Redis server and the calls in progress.  The
    server is the interface of [IdempotencyStore], its commands may fail with or
    without having been executed, and the operation under the lock takes any
    time.  [lc_until] is the end of the time to live the lock was set with; it
    decides nothing. *)

From S2P Require Import Prelude IdempotencyStore.

#[local] Open Scope Z_scope.

(** [SquadLockedError] (403) and [SquadLockConflictError] (409). *)
Inductive LockError : Type := SquadLockedError | SquadLockConflictError.

(** The options after their defaults; [setTimeout] delays are only time passing. *)
Record LockOptions : Type := {
  lo_ttlMs : Z;
  lo_retryCount : nat;
  lo_deadline : option Z
}.

Definition default_lock_options : LockOptions :=
  {| lo_ttlMs := 10000; lo_retryCount := 5; lo_deadline := None |}.

Definition assertMonotonicDeadline (deadline now : Z) : result LockError unit :=
  throw_if (deadline <=? now) SquadLockedError.

(** [if (options.deadline) assertMonotonicDeadline(..)]. *)
Definition check_deadline (o : LockOptions) (now : Z) : result LockError unit :=
  match lo_deadline o with Some d => assertMonotonicDeadline d now | None => Ok tt end.

Definition ttlSeconds (o : LockOptions) : Z := Z.max 1 (- ((- lo_ttlMs o) / 1000)).

(** Trying for the lock, holding it before the operation, and during it. *)
Inductive LockPhase : Type := Trying | Holding | Operating.

Record LockCall : Type := {
  lc_resource : string;
  lc_options : LockOptions;
  lc_value : string;
  lc_attempt : nat;
  lc_phase : LockPhase;
  lc_until : Z
}.

Definition in_phase (p : LockPhase) (until : Z) (c : LockCall) : LockCall :=
  {| lc_resource := lc_resource c; lc_options := lc_options c; lc_value := lc_value c;
     lc_attempt := lc_attempt c; lc_phase := p; lc_until := until |}.

Definition next_attempt (c : LockCall) : LockCall :=
  {| lc_resource := lc_resource c; lc_options := lc_options c; lc_value := lc_value c;
     lc_attempt := S (lc_attempt c); lc_phase := Trying; lc_until := lc_until c |}.

(** What [withLock] ends with, and when the operation runs. *)
Inductive LockEvent : Type :=
| OperationStarted (rid : nat) (o : LockOptions) (at_ : Z)
| LockReturned (rid : nat) (o : LockOptions) (at_ : Z)
| LockThrew (rid : nat) (e : LockError)
| OperationThrew (rid : nat).

Definition lockKey (resource : string) : string := "lock:" +:+ resource.

Section locks.
Context {R : Type} `{HR : RedisLaws R string}.

(** [client.set(lockKey, lockValue, "EX", ttlSeconds, "NX")]. *)
Definition set_ex_nx (now : Z) (c : LockCall) (r : R) : R :=
  rset_px now (lockKey (lc_resource c)) (lc_value c) (ttlSeconds (lc_options c) * 1000) r.

(** The script of [releaseLock]: delete if the value is still ours. *)
Definition releaseLock (now : Z) (c : LockCall) (r : R) : R :=
  match rget now r (lockKey (lc_resource c)) with
  | Some v => if decide (v = lc_value c) then rdel (lockKey (lc_resource c)) r else r
  | None => r
  end.

Record LockWorld : Type := {
  lw_now : Z;
  lw_server : R;
  lw_calls : gmap nat LockCall;
  lw_values : gset string;
  lw_log : list LockEvent
}.

Definition world_with (w : LockWorld) (r : R) (calls : gmap nat LockCall) (events : list LockEvent) : LockWorld :=
  {| lw_now := lw_now w; lw_server := r; lw_calls := calls; lw_values := lw_values w;
     lw_log := lw_log w ++ events |}.

(** A command that threw may have been executed all the same. *)
Definition maybe (r r' after : R) : Prop := after = r ∨ after = r'.

(** How [withLock] ends once the operation returned: the last check. *)
Definition final_event (rid : nat) (o : LockOptions) (now : Z) : LockEvent :=
  match check_deadline o now with Ok _ => LockReturned rid o now | Err e => LockThrew rid e end.

Inductive lock_step : LockWorld → LockWorld → Prop :=
| lk_tick w d : 0 ≤ d →
    lock_step w {| lw_now := lw_now w + d; lw_server := lw_server w; lw_calls := lw_calls w;
                   lw_values := lw_values w; lw_log := lw_log w |}
| lk_call w rid resource o value : lw_calls w !! rid = None → value ∉ lw_values w →
    check_deadline o (lw_now w) = Ok tt →
    lock_step w {| lw_now := lw_now w; lw_server := lw_server w;
      lw_calls := <[rid := {| lc_resource := resource; lc_options := o; lc_value := value; lc_attempt := 0;
                              lc_phase := Trying; lc_until := lw_now w |}]> (lw_calls w);
      lw_values := {[value]} ∪ lw_values w; lw_log := lw_log w |}
| lk_call_late w rid o e : lw_calls w !! rid = None → check_deadline o (lw_now w) = Err e →
    lock_step w (world_with w (lw_server w) (lw_calls w) [LockThrew rid e])
| lk_try_late w rid c e : lw_calls w !! rid = Some c → lc_phase c = Trying →
    (lc_attempt c < lo_retryCount (lc_options c))%nat → check_deadline (lc_options c) (lw_now w) = Err e →
    lock_step w (world_with w (lw_server w) (delete rid (lw_calls w)) [LockThrew rid e])
| lk_acquired w rid c : lw_calls w !! rid = Some c → lc_phase c = Trying →
    (lc_attempt c < lo_retryCount (lc_options c))%nat → check_deadline (lc_options c) (lw_now w) = Ok tt →
    rget (lw_now w) (lw_server w) (lockKey (lc_resource c)) = None →
    lock_step w (world_with w (set_ex_nx (lw_now w) c (lw_server w))
      (<[rid := in_phase Holding (lw_now w + ttlSeconds (lc_options c) * 1000) c]> (lw_calls w)) [])
| lk_refused w rid c r' : lw_calls w !! rid = Some c → lc_phase c = Trying →
    (lc_attempt c < lo_retryCount (lc_options c))%nat → check_deadline (lc_options c) (lw_now w) = Ok tt →
    (r' = lw_server w ∨
     rget (lw_now w) (lw_server w) (lockKey (lc_resource c)) = None ∧ r' = set_ex_nx (lw_now w) c (lw_server w)) →
    lock_step w (world_with w r' (<[rid := next_attempt c]> (lw_calls w)) [])
| lk_conflict w rid c : lw_calls w !! rid = Some c → lc_phase c = Trying →
    (lo_retryCount (lc_options c) ≤ lc_attempt c)%nat →
    lock_step w (world_with w (lw_server w) (delete rid (lw_calls w)) [LockThrew rid SquadLockConflictError])
| lk_enter w rid c : lw_calls w !! rid = Some c → lc_phase c = Holding →
    check_deadline (lc_options c) (lw_now w) = Ok tt →
    lock_step w (world_with w (lw_server w) (<[rid := in_phase Operating (lc_until c) c]> (lw_calls w))
      [OperationStarted rid (lc_options c) (lw_now w)])
| lk_enter_late w rid c e r' : lw_calls w !! rid = Some c → lc_phase c = Holding →
    check_deadline (lc_options c) (lw_now w) = Err e →
    maybe (lw_server w) (releaseLock (lw_now w) c (lw_server w)) r' →
    lock_step w (world_with w r' (delete rid (lw_calls w)) [LockThrew rid e])
| lk_return w rid c r' : lw_calls w !! rid = Some c → lc_phase c = Operating →
    maybe (lw_server w) (releaseLock (lw_now w) c (lw_server w)) r' →
    lock_step w (world_with w r' (delete rid (lw_calls w)) [final_event rid (lc_options c) (lw_now w)])
| lk_throw w rid c r' : lw_calls w !! rid = Some c → lc_phase c = Operating →
    maybe (lw_server w) (releaseLock (lw_now w) c (lw_server w)) r' →
    lock_step w (world_with w r' (delete rid (lw_calls w)) [OperationThrew rid]).

Definition no_locks (now : Z) (r : R) : LockWorld :=
  {| lw_now := now; lw_server := r; lw_calls := ∅; lw_values := ∅; lw_log := [] |}.

(** ** The invariant *)

Definition owns (now : Z) (r : R) (c : LockCall) : Prop :=
  lc_phase c = Trying ∨
  ∀ t, now ≤ t → t < lc_until c → rget t r (lockKey (lc_resource c)) = Some (lc_value c).

Record lock_inv (now : Z) (r : R) (calls : gmap nat LockCall) (values : gset string) : Prop := {
  lkv_stored : ∀ t resource v, now ≤ t → rget t r (lockKey resource) = Some v → v ∈ values;
  lkv_drawn : ∀ rid c, calls !! rid = Some c → lc_value c ∈ values;
  lkv_distinct : ∀ rid1 rid2 c1 c2, calls !! rid1 = Some c1 → calls !! rid2 = Some c2 →
    lc_value c1 = lc_value c2 → rid1 = rid2;
  lkv_owned : ∀ rid c, calls !! rid = Some c → owns now r c
}.

Lemma ttl_positive o : 0 < ttlSeconds o * 1000.
Proof. unfold ttlSeconds. lia. Qed.

Lemma lockKey_inj a b : lockKey a = lockKey b → a = b.
Proof. unfold lockKey. by intros ?%(inj (String.append _)). Qed.

Lemma lock_inv_later now t r calls values : now ≤ t → lock_inv now r calls values → lock_inv t r calls values.
Proof.
  intros Ht [S D N O]. split; [|done|done|].
  - intros t' resource v Ht'. apply S. lia.
  - intros rid c Hc. destruct (O rid c Hc) as [?|Ho]; [by left|]. right. intros t' Ht'. apply Ho. lia.
Qed.

Lemma lock_inv_delete now r calls values rid : lock_inv now r calls values → lock_inv now r (delete rid calls) values.
Proof.
  intros [S D N O]. split; [done|..].
  - intros rid' c [_ Hc]%lookup_delete_Some. eauto.
  - intros rid1 rid2 c1 c2 [_ H1]%lookup_delete_Some [_ H2]%lookup_delete_Some. eauto.
  - intros rid' c [_ Hc]%lookup_delete_Some. eauto.
Qed.

(** Releasing or setting under the own value leaves the other owners alone. *)
Lemma owns_elsewhere now r r' c k :
  owns now r c →
  (∀ t k', now ≤ t → k' ≠ k → rget t r' k' = rget t r k') →
  (∀ v, rget now r k = Some v → v ≠ lc_value c) → owns now r' c.
Proof.
  intros [?|Ho] Hr Hk; [by left|]. right. intros t Ht Hlt.
  destruct (decide (lockKey (lc_resource c) = k)) as [E|E].
  - exfalso. apply (Hk (lc_value c)); [|done]. rewrite <- E. apply Ho; lia.
  - rewrite Hr by done. by apply Ho.
Qed.

Lemma release_inv now r calls values rid c r' :
  lock_inv now r calls values → calls !! rid = Some c → maybe r (releaseLock now c r) r' →
  lock_inv now r' (delete rid calls) values.
Proof.
  intros Hinv Hc [->| ->]; [by apply lock_inv_delete|]. unfold releaseLock.
  destruct (rget now r _) as [v|] eqn:Ev; [|by apply lock_inv_delete].
  case_decide as Hv; [|by apply lock_inv_delete]. subst v. pose proof Hinv as [S D N O].
  apply (lock_inv_delete _ _ _ _ rid) in Hinv as [_ D' N' _]. split; [|done|done|].
  - intros t resource w Ht. rewrite rget_del. case_decide; [done|]. by apply S.
  - intros rid' c' [Hne Hc']%lookup_delete_Some. eapply (owns_elsewhere now r _ c' (lockKey (lc_resource c))).
    + by eapply O.
    + intros t k' _ Hk. rewrite rget_del. by rewrite decide_False by done.
    + intros v Hv E. apply Hne. eapply N; [done|done|congruence].
Qed.

Lemma set_inv now r calls values rid c :
  lock_inv now r calls values → calls !! rid = Some c → rget now r (lockKey (lc_resource c)) = None →
  let r' := set_ex_nx now c r in
  (∀ t resource v, now ≤ t → rget t r' (lockKey resource) = Some v → v ∈ values) ∧
  (∀ rid' c', rid' ≠ rid → calls !! rid' = Some c' → owns now r' c') ∧
  (∀ t, now ≤ t → t < now + ttlSeconds (lc_options c) * 1000 →
     rget t r' (lockKey (lc_resource c)) = Some (lc_value c)).
Proof.
  intros [S D N O] Hc Hnone r'. pose proof (ttl_positive (lc_options c)) as Hp. unfold r', set_ex_nx. split_and!.
  - intros t resource v Ht. rewrite rget_set_px by done. case_decide; [|by apply S].
    case_match; [|done]. intros [= <-]. by eapply D.
  - intros rid' c' Hne Hc'. eapply (owns_elsewhere now r _ c' (lockKey (lc_resource c))).
    + by eapply O.
    + intros t k' Ht Hk. rewrite rget_set_px by done. by rewrite decide_False by done.
    + intros v Hv. congruence.
  - intros t Ht Hlt. rewrite rget_set_px by done. rewrite decide_True by done.
    by rewrite (proj2 (Z.ltb_lt _ _) Hlt).
Qed.

(** The caller's own entry changes phase, its value stays. *)
Lemma lock_inv_update now r' calls values rid c c' :
  (∀ t resource v, now ≤ t → rget t r' (lockKey resource) = Some v → v ∈ values) →
  (∀ rid' c', rid' ≠ rid → calls !! rid' = Some c' → owns now r' c') →
  (∀ rid c, calls !! rid = Some c → lc_value c ∈ values) →
  (∀ rid1 rid2 c1 c2, calls !! rid1 = Some c1 → calls !! rid2 = Some c2 →
    lc_value c1 = lc_value c2 → rid1 = rid2) →
  calls !! rid = Some c → lc_value c' = lc_value c → owns now r' c' →
  lock_inv now r' (<[rid := c']> calls) values.
Proof.
  intros S O D N Hc Hv Ho. split; [done|..].
  - intros rid' c0 [[_ <-]|[_ H0]]%lookup_insert_Some; [rewrite Hv|]; by eapply D.
  - intros rid1 rid2 c1 c2 [[<- <-]|[N1 H1]]%lookup_insert_Some [[<- <-]|[N2 H2]]%lookup_insert_Some E;
      [done|eapply N; [exact Hc|done|congruence]|eapply N; [done|exact Hc|congruence]|by eapply N].
  - intros rid' c0 [[_ <-]|[Hne H0]]%lookup_insert_Some; [done|]. by eapply O.
Qed.

Definition winv (w : LockWorld) : Prop := lock_inv (lw_now w) (lw_server w) (lw_calls w) (lw_values w).

Lemma lock_step_inv w w' : lock_step w w' → winv w → winv w'.
Proof.
  unfold winv. destruct 1 as [w d Hd|w rid resource o value Hnew Hfresh Hdl|w rid o e Hnew Hdl
    |w rid c e Hc Hp Ha Hdl|w rid c Hc Hp Ha Hdl Hn|w rid c r' Hc Hp Ha Hdl Hr|w rid c Hc Hp Ha
    |w rid c Hc Hp Hdl|w rid c e r' Hc Hp Hdl Hr|w rid c r' Hc Hp Hr|w rid c r' Hc Hp Hr]; cbn; intros Hinv.
  - eapply lock_inv_later; [|exact Hinv]. lia.
  - destruct Hinv as [S D N O]. split.
    + intros t rs v Ht Hv. apply S in Hv; [set_solver|done].
    + intros rid' c [[_ <-]|[_ Hc]]%lookup_insert_Some; [cbn; set_solver|]. apply D in Hc. set_solver.
    + intros rid1 rid2 c1 c2 [[<- <-]|[N1 H1]]%lookup_insert_Some [[<- <-]|[N2 H2]]%lookup_insert_Some E;
        cbn in E; [done| | |by eapply N].
      * exfalso. apply Hfresh. rewrite E. by eapply D.
      * exfalso. apply Hfresh. rewrite <- E. by eapply D.
    + intros rid' c [[_ <-]|[_ Hc]]%lookup_insert_Some; [by left|]. by eapply O.
  - done.
  - by apply lock_inv_delete.
  - destruct (set_inv _ _ _ _ _ _ Hinv Hc Hn) as (S' & O' & Hown). destruct Hinv as [S D N O].
    eapply lock_inv_update; [done|done|done|done|done|done|]. right. intros t Ht Hlt. by apply Hown.
  - destruct Hr as [->|[Hn ->]].
    + destruct Hinv as [S D N O]. eapply lock_inv_update; [done| |done|done|done|done|by left]. intros. by eapply O.
    + destruct (set_inv _ _ _ _ _ _ Hinv Hc Hn) as (S' & O' & Hown). destruct Hinv as [S D N O].
      eapply lock_inv_update; [done|done|done|done|done|done|by left].
  - by apply lock_inv_delete.
  - destruct Hinv as [S D N O]. eapply lock_inv_update; [done| |done|done|done|done|].
    + intros. by eapply O.
    + right. destruct (O rid c Hc) as [Ht|Ho]; [congruence|]. done.
  - by eapply release_inv.
  - by eapply release_inv.
  - by eapply release_inv.
Qed.

(** Operations start, and results are returned, before the deadline. *)
Definition in_time (e : LockEvent) : Prop :=
  match e with
  | OperationStarted _ o t | LockReturned _ o t => ∀ d, lo_deadline o = Some d → t < d
  | _ => True
  end.

Lemma check_deadline_ok o now u : check_deadline o now = Ok u → ∀ d, lo_deadline o = Some d → now < d.
Proof.
  unfold check_deadline. intros Hd d E. rewrite E in Hd. unfold assertMonotonicDeadline in Hd.
  apply throw_if_ok in Hd. bool_to_prop. lia.
Qed.

Lemma final_in_time rid o now : in_time (final_event rid o now).
Proof. unfold final_event. destruct (check_deadline o now) eqn:E; [|done]. cbn. by eapply check_deadline_ok. Qed.

Lemma step_in_time w w' : lock_step w w' → Forall in_time (lw_log w) → Forall in_time (lw_log w').
Proof.
  destruct 1; cbn; intros Hl; rewrite ?app_nil_r; try done; apply Forall_app; (split; [done|]);
    (constructor; [|done]); try done; [cbn; eapply check_deadline_ok; eassumption|apply final_in_time].
Qed.

(** The server forgets every lock once the longest time to live has passed. *)
Definition expires_within (T : Z) (w : LockWorld) : Prop :=
  ∀ resource t, lw_now w + T ≤ t → rget t (lw_server w) (lockKey resource) = None.

Definition short_lived (T : Z) (w : LockWorld) : Prop :=
  ∀ rid c, lw_calls w !! rid = Some c → ttlSeconds (lc_options c) * 1000 ≤ T.

Lemma set_expires T now r c resource t : ttlSeconds (lc_options c) * 1000 ≤ T → now + T ≤ t → 0 ≤ T →
  rget t r (lockKey resource) = None → rget t (set_ex_nx now c r) (lockKey resource) = None.
Proof.
  intros HT Ht H0 Hn. pose proof (ttl_positive (lc_options c)). unfold set_ex_nx.
  rewrite rget_set_px by lia. case_decide; [|done]. by rewrite (proj2 (Z.ltb_ge _ _)) by lia.
Qed.

Lemma release_expires T now r c r' : maybe r (releaseLock now c r) r' →
  (∀ resource t, now + T ≤ t → rget t r (lockKey resource) = None) →
  ∀ resource t, now + T ≤ t → rget t r' (lockKey resource) = None.
Proof.
  intros [->| ->] He resource t Ht; [by apply He|]. unfold releaseLock.
  destruct (rget now r _) as [v|]; [|by apply He]. destruct (decide (v = lc_value c)); [|by apply He].
  rewrite rget_del. destruct (decide _); [done|by apply He].
Qed.

Lemma step_expires T w w' : 0 ≤ T → lock_step w w' → short_lived T w → expires_within T w → expires_within T w'.
Proof.
  unfold expires_within. intros H0 Hstep Hs He.
  destruct Hstep as [w d Hd|w rid resource o value Hnew Hfresh Hdl|w rid o e Hnew Hdl
    |w rid c e Hc Hp Ha Hdl|w rid c Hc Hp Ha Hdl Hn|w rid c r' Hc Hp Ha Hdl Hr|w rid c Hc Hp Ha
    |w rid c Hc Hp Hdl|w rid c e r' Hc Hp Hdl Hr|w rid c r' Hc Hp Hr|w rid c r' Hc Hp Hr]; cbn; try done.
  - intros resource t Ht. apply He. lia.
  - intros resource t Ht. apply (set_expires T); [by eapply Hs|done|done|by apply He].
  - intros resource t Ht. destruct Hr as [->|[_ ->]]; [by apply He|].
    apply (set_expires T); [by eapply Hs|done|done|by apply He].
  - by eapply release_expires.
  - by eapply release_expires.
  - by eapply release_expires.
Qed.

(** A run all of whose calls use a time to live of at most [T]. *)
Definition locked_step (T : Z) (w w' : LockWorld) : Prop := lock_step w w' ∧ short_lived T w'.

(** C29. What the lock manager promises: two calls that hold the lock of one resource
    are never both within its time to live; with a deadline, the operation
    starts and a result is returned strictly before it, however long the lock
    was waited for and the operation took; and no lock is stuck: whoever crashed
    or could not reach the server, after the longest time to live without new
    locks every key is free. *)
Theorem locks_exclusive_in_time T now r w :
  0 ≤ T → (∀ resource t, now ≤ t → rget t r (lockKey resource) = None) →
  rtc (locked_step T) (no_locks now r) w →
  (∀ rid1 rid2 c1 c2, lw_calls w !! rid1 = Some c1 → lw_calls w !! rid2 = Some c2 →
     lc_resource c1 = lc_resource c2 → lc_phase c1 ≠ Trying → lc_phase c2 ≠ Trying →
     lw_now w < lc_until c1 → lw_now w < lc_until c2 → rid1 = rid2) ∧
  Forall in_time (lw_log w) ∧ expires_within T w.
Proof.
  intros HT Hempty Hrun.
  assert (winv w ∧ Forall in_time (lw_log w) ∧ short_lived T w ∧ expires_within T w) as (Hinv & Hlog & _ & Hexp).
  { assert (winv (no_locks now r) ∧ Forall in_time (lw_log (no_locks now r)) ∧ short_lived T (no_locks now r) ∧
            expires_within T (no_locks now r)) as H0.
    { split_and!.
      - split; cbn; [intros t rs v Ht; by rewrite Hempty|intros ??; by rewrite lookup_empty..].
      - constructor.
      - intros rid c. cbn. by rewrite lookup_empty.
      - intros resource t Ht. apply Hempty. cbn in Ht. lia. }
    revert H0. induction Hrun as [w|w w1 w2 [H1 H2] _ IH]; [done|]. intros (A & B & C & D). apply IH.
    split_and!; [by eapply lock_step_inv|by eapply step_in_time|done|by eapply step_expires]. }
  split_and!; [|done|done]. intros rid1 rid2 c1 c2 H1 H2 E P1 P2 L1 L2.
  eapply (lkv_distinct _ _ _ _ Hinv); [done|done|].
  destruct (lkv_owned _ _ _ _ Hinv rid1 c1 H1) as [?|O1]; [done|].
  destruct (lkv_owned _ _ _ _ Hinv rid2 c2 H2) as [?|O2]; [done|].
  specialize (O1 (lw_now w) ltac:(lia) L1). specialize (O2 (lw_now w) ltac:(lia) L2). rewrite E in O1. congruence.
Qed.

End locks.

(** ** A concrete run: the first operation outlasts its lock *)

Abbreviation lock_server := (SampleRedis.server_of string).
Abbreviation lock_world := (LockWorld (R := lock_server)).

Definition call_1 (p : LockPhase) (until : Z) : LockCall :=
  {| lc_resource := "squad:s1"; lc_options := {| lo_ttlMs := 10000; lo_retryCount := 5; lo_deadline := Some 15000 |};
     lc_value := "v1"; lc_attempt := 0; lc_phase := p; lc_until := until |}.

Definition call_2 (p : LockPhase) (until : Z) : LockCall :=
  {| lc_resource := "squad:s1"; lc_options := {| lo_ttlMs := 10000; lo_retryCount := 5; lo_deadline := Some 15000 |};
     lc_value := "v2"; lc_attempt := 0; lc_phase := p; lc_until := until |}.

Definition server_0 : lock_server := (∅ : gmap string (string * Z)).
Definition server_1 : lock_server := set_ex_nx 0 (call_1 Trying 0) server_0.
Definition server_2 : lock_server := set_ex_nx 10000 (call_2 Trying 10000) server_1.

Definition calls_1 (p : LockPhase) (until : Z) : gmap nat LockCall := <[1%nat := call_1 p until]> ∅.

(** What happens in the [n]-th step. *)
Definition slow_next (n : nat) (w : lock_world) : lock_world :=
  match n with
  | 0%nat => {| lw_now := 0; lw_server := server_0; lw_calls := calls_1 Trying 0;
                lw_values := {["v1"]} ∪ lw_values w; lw_log := lw_log w |}
  | 1%nat => world_with w server_1 (<[1%nat := call_1 Holding 10000]> (lw_calls w)) []
  | 2%nat => world_with w server_1 (<[1%nat := call_1 Operating 10000]> (lw_calls w))
               [OperationStarted 1 (lc_options (call_1 Operating 0)) 0]
  | 3%nat => {| lw_now := 0 + 10000; lw_server := server_1; lw_calls := lw_calls w;
                lw_values := lw_values w; lw_log := lw_log w |}
  | 4%nat => {| lw_now := 10000; lw_server := server_1; lw_calls := <[2%nat := call_2 Trying 10000]> (lw_calls w);
                lw_values := {["v2"]} ∪ lw_values w; lw_log := lw_log w |}
  | 5%nat => world_with w server_2 (<[2%nat := call_2 Holding 20000]> (lw_calls w)) []
  | 6%nat => world_with w server_2 (<[2%nat := call_2 Operating 20000]> (lw_calls w))
               [OperationStarted 2 (lc_options (call_2 Operating 0)) 10000]
  | 7%nat => {| lw_now := 10000 + 5000; lw_server := server_2; lw_calls := lw_calls w;
                lw_values := lw_values w; lw_log := lw_log w |}
  | _ => world_with w server_2 (delete 2%nat (lw_calls w)) [LockThrew 2 SquadLockedError]
  end.

Fixpoint slow (n : nat) : lock_world :=
  match n with O => no_locks 0 server_0 | S n => slow_next n (slow n) end.

Lemma slow_next_calls n w rid c : lw_calls (slow_next n w) !! rid = Some c →
  lw_calls w !! rid = Some c ∨ lc_options c = lc_options (call_1 Trying 0).
Proof.
  do 8 (destruct n as [|n];
    [cbn; unfold calls_1; rewrite ?lookup_insert_Some, ?lookup_empty; naive_solver|]).
  cbn. rewrite lookup_delete_Some. tauto.
Qed.

Lemma slow_short_lived n : short_lived 10000 (slow n).
Proof.
  induction n as [|n IH]; intros rid c; [cbn; by rewrite lookup_empty|].
  intros [Hc| ->]%slow_next_calls; [by eapply IH|]. by vm_compute.
Qed.

Lemma slow_step n : (n < 9)%nat → locked_step 10000 (slow n) (slow (S n)).
Proof.
  intros Hn. split; [|apply slow_short_lived].
  destruct n as [|[|[|[|[|[|[|[|[|n]]]]]]]]]; [clear Hn..|lia].
  - refine (lk_call (slow 0) 1 "squad:s1" (lc_options (call_1 Trying 0)) "v1" _ _ _); [reflexivity|set_solver|reflexivity].
  - refine (lk_acquired (slow 1) 1 (call_1 Trying 0) _ _ _ _ _); [reflexivity|reflexivity|cbn; lia|reflexivity|reflexivity].
  - refine (lk_enter (slow 2) 1 (call_1 Holding 10000) _ _ _); reflexivity.
  - refine (lk_tick (slow 3) 10000 _). lia.
  - refine (lk_call (slow 4) 2 "squad:s1" (lc_options (call_2 Trying 0)) "v2" _ _ _); [reflexivity|set_solver|reflexivity].
  - refine (lk_acquired (slow 5) 2 (call_2 Trying 10000) _ _ _ _ _);
      [reflexivity|reflexivity|cbn; lia|reflexivity|reflexivity].
  - refine (lk_enter (slow 6) 2 (call_2 Holding 20000) _ _ _); reflexivity.
  - refine (lk_tick (slow 7) 5000 _). lia.
  - refine (lk_return (slow 8) 2 (call_2 Operating 20000) server_2 _ _ _); [reflexivity|reflexivity|by left].
Qed.

Lemma slow_reached n : (n ≤ 9)%nat → rtc (locked_step 10000) (slow 0) (slow n).
Proof.
  induction n as [|n IH]; intros Hn; [done|]. eapply rtc_r; [apply IH; lia|]. apply slow_step. lia.
Qed.

Lemma server_0_empty resource t : 0 ≤ t → rget t server_0 (lockKey resource) = None.
Proof. intros _. cbn [rget SampleRedis.sample_redis]. unfold server_0. by rewrite lookup_empty. Qed.

Lemma locks_exclusive_in_time_witness :
  lw_calls (slow 3) !! 1%nat = Some (call_1 Operating 10000) ∧ Forall in_time (lw_log (slow 7)) ∧
  expires_within 10000 (slow 7).
Proof.
  split; [reflexivity|].
  exact (proj2 (locks_exclusive_in_time 10000 0 server_0 (slow 7) ltac:(lia) server_0_empty
    (slow_reached 7 ltac:(lia)))).
Defined.

(** The lock is not extended: an operation that takes longer than its time to
    live overlaps with the next one.  And the last check comes after the
    operation: one that crosses the deadline is reported as refused although it
    was carried out. *)
Example slow_operation_overlaps :
  (lw_calls (slow 7) !! 1%nat = Some (call_1 Operating 10000) ∧
   lw_calls (slow 7) !! 2%nat = Some (call_2 Operating 20000)) ∧
  (OperationStarted 2 (lc_options (call_2 Operating 0)) 10000 ∈ lw_log (slow 9) ∧
   LockThrew 2 SquadLockedError ∈ lw_log (slow 9)).
Proof. split; [by split|]. cbn. set_solver. Qed.
