(* ===== verification/Pricing.v ===== *)
(** * Player prices: [backend/src/services/fpl/playerPricingEngine.ts]

    Prices are [Decimal(4, 1)] columns and are tenths here, so that
    [Math.round(x * 10) / 10] is the identity on them; the tables the engine
    reads and writes are players, price changes and squad transfers. *)

From S2P Require Import Prelude.

#[local] Open Scope Z_scope.

(** Tenths of a million, and milliseconds. *)
Definition MIN_PLAYER_PRICE : Z := 35.
Definition MAX_PLAYER_PRICE : Z := 150.
Definition MAX_PRICE_CHANGE_PER_24H : Z := 1.
Definition DEFAULT_NET_TRANSFER_THRESHOLD : Z := 5.
Definition ROLLING_WINDOW_MS : Z := 24 * 60 * 60 * 1000.

(** The reason's text, by its parts. *)
Inductive PriceReason : Type := WithinThreshold | HeavyIn (clamped : bool) | HeavyOut (clamped : bool).

Record PriceAdjustmentResult : Type := {
  pa_newPrice : Z;
  pa_diff : Z;
  pa_adjusted : bool;
  pa_reason : PriceReason
}.

Definition calculatePriceAdjustment (currentPrice netTransfers : Z)
    (threshold minPrice maxPrice maxChange : option Z) : PriceAdjustmentResult :=
  let threshold := default DEFAULT_NET_TRANSFER_THRESHOLD threshold in
  let minPrice := default MIN_PLAYER_PRICE minPrice in
  let maxPrice := default MAX_PLAYER_PRICE maxPrice in
  let maxChange := default MAX_PRICE_CHANGE_PER_24H maxChange in
  let rawDelta := if threshold <=? netTransfers then maxChange
                  else if netTransfers <=? - threshold then - maxChange else 0 in
  let targetPrice := currentPrice + rawDelta in
  let clampedPrice := Z.max minPrice (Z.min maxPrice targetPrice) in
  let diff := clampedPrice - currentPrice in
  let low := (targetPrice <? minPrice) && (rawDelta <? 0) in
  let high := (maxPrice <? targetPrice) && (0 <? rawDelta) in
  {| pa_newPrice := clampedPrice;
     pa_diff := diff;
     pa_adjusted := negb (diff =? 0);
     pa_reason := if threshold <=? netTransfers then HeavyIn (low || high)
                  else if netTransfers <=? - threshold then HeavyOut (low || high) else WithinThreshold |}.

(** ** The tables *)

Record PricedPlayer : Type := { pp_id : Z; pp_fplId : Z; pp_price : Z }.

Record PriceChange : Type := {
  pc_playerId : Z;
  pc_fplId : Z;
  pc_oldPrice : Z;
  pc_newPrice : Z;
  pc_diff : Z;
  pc_changedAt : Z
}.

Record Transfer : Type := { tr_playerInId : Z; tr_playerOutId : Z; tr_timestamp : Z }.

Record PricingDb : Type := {
  db_players : list PricedPlayer;
  db_changes : list PriceChange;
  db_transfers : list Transfer
}.

Record RecalculateOptions : Type := {
  ro_threshold : option Z;
  ro_windowMs : option Z;
  ro_force : bool
}.

Definition daily : RecalculateOptions := {| ro_threshold := None; ro_windowMs := None; ro_force := false |}.

Record PlayerPriceAdjustmentResult : Type := {
  par_playerId : Z;
  par_fplId : Z;
  par_oldPrice : Z;
  par_newPrice : Z;
  par_diff : Z;
  par_netTransfers : Z;
  par_reason : PriceReason;
  par_adjustedAt : Z
}.

(** ** The engine; [now] is [options.referenceDate] or the clock. *)

Definition calculateNetTransfers (playerId windowMs referenceDate : Z) (db : PricingDb) : Z :=
  let within t := (referenceDate - windowMs <=? tr_timestamp t) && (tr_timestamp t <=? referenceDate) in
  countb (λ t, (tr_playerInId t =? playerId) && within t) (db_transfers db) -
  countb (λ t, (tr_playerOutId t =? playerId) && within t) (db_transfers db).

Definition findPlayer (playerId : Z) (db : PricingDb) : option PricedPlayer :=
  List.find (λ p, pp_id p =? playerId) (db_players db).

(** A change of the player at or after [windowStart]. *)
Definition recentChange (playerId windowStart : Z) (db : PricingDb) : bool :=
  existsb (λ c, (pc_playerId c =? playerId) && (windowStart <=? pc_changedAt c)) (db_changes db).

Definition set_price (playerId price : Z) (p : PricedPlayer) : PricedPlayer :=
  if pp_id p =? playerId then {| pp_id := pp_id p; pp_fplId := pp_fplId p; pp_price := price |} else p.

(** The two writes of an adjustment. *)
Definition apply_adjustment (now : Z) (p : PricedPlayer) (a : PriceAdjustmentResult) (db : PricingDb) : PricingDb :=
  {| db_players := set_price (pp_id p) (pa_newPrice a) <$> db_players db;
     db_changes := db_changes db ++
       [{| pc_playerId := pp_id p; pc_fplId := pp_fplId p; pc_oldPrice := pp_price p;
           pc_newPrice := pa_newPrice a; pc_diff := pa_diff a; pc_changedAt := now |}];
     db_transfers := db_transfers db |}.

Definition recalculatePlayerPrice (now playerId : Z) (options : RecalculateOptions) (db : PricingDb)
    : PricingDb * option PlayerPriceAdjustmentResult :=
  let windowMs := default ROLLING_WINDOW_MS (ro_windowMs options) in
  match findPlayer playerId db with
  | None => (db, None)
  | Some player =>
      if negb (ro_force options) && recentChange (pp_id player) (now - windowMs) db then (db, None) else
      let netTransfers := calculateNetTransfers (pp_id player) windowMs now db in
      let a := calculatePriceAdjustment (pp_price player) netTransfers (ro_threshold options) None None None in
      let answer newPrice diff :=
        {| par_playerId := pp_id player; par_fplId := pp_fplId player; par_oldPrice := pp_price player;
           par_newPrice := newPrice; par_diff := diff; par_netTransfers := netTransfers;
           par_reason := pa_reason a; par_adjustedAt := now |} in
      if negb (pa_adjusted a) then (db, Some (answer (pp_price player) 0))
      else (apply_adjustment now player a db, Some (answer (pa_newPrice a) (pa_diff a)))
  end.

Record RecalculationSummary : Type := {
  su_totalEvaluated : Z;
  su_adjustedCount : Z;
  su_skippedCount : Z;
  su_unchangedCount : Z;
  su_results : list PlayerPriceAdjustmentResult
}.

Definition count_result (r : option PlayerPriceAdjustmentResult) (s : RecalculationSummary) : RecalculationSummary :=
  match r with
  | None => {| su_totalEvaluated := su_totalEvaluated s; su_adjustedCount := su_adjustedCount s;
               su_skippedCount := su_skippedCount s + 1; su_unchangedCount := su_unchangedCount s;
               su_results := su_results s |}
  | Some r => {| su_totalEvaluated := su_totalEvaluated s;
                 su_adjustedCount := su_adjustedCount s + (if par_diff r =? 0 then 0 else 1);
                 su_skippedCount := su_skippedCount s;
                 su_unchangedCount := su_unchangedCount s + (if par_diff r =? 0 then 1 else 0);
                 su_results := su_results s ++ [r] |}
  end.

(** The loop of [recalculateAllPlayerPrices] over the ids it read; [now i] is
    the clock at the [i]-th player. *)
Fixpoint recalculate_loop (now : nat → Z) (ids : list Z) (options : RecalculateOptions)
    (s : RecalculationSummary) (db : PricingDb) : PricingDb * RecalculationSummary :=
  match ids with
  | [] => (db, s)
  | id :: ids =>
      let '(db, r) := recalculatePlayerPrice (now O) id options db in
      recalculate_loop (λ i, now (S i)) ids options (count_result r s) db
  end.

Definition recalculateAllPlayerPrices (now : nat → Z) (options : RecalculateOptions) (db : PricingDb)
    : PricingDb * RecalculationSummary :=
  recalculate_loop now (pp_id <$> db_players db) options
    {| su_totalEvaluated := Z.of_nat (length (db_players db)); su_adjustedCount := 0; su_skippedCount := 0;
       su_unchangedCount := 0; su_results := [] |} db.

(** ** One adjustment *)

Definition in_bounds (price : Z) : Prop := MIN_PLAYER_PRICE ≤ price ≤ MAX_PLAYER_PRICE.

(** For a price within the bounds: it stays within, moves by at most 0.1m, and
    moves exactly when the transfers reached the threshold and the bound on
    that side is not reached. *)
Lemma adjustment_spec price net threshold :
  in_bounds price → 0 < default DEFAULT_NET_TRANSFER_THRESHOLD threshold →
  let T := default DEFAULT_NET_TRANSFER_THRESHOLD threshold in
  let a := calculatePriceAdjustment price net threshold None None None in
  in_bounds (pa_newPrice a) ∧ pa_newPrice a = price + pa_diff a ∧
  pa_diff a = (if T <=? net then Z.min 1 (MAX_PLAYER_PRICE - price)
               else if net <=? - T then - Z.min 1 (price - MIN_PLAYER_PRICE) else 0) ∧
  pa_adjusted a = negb (pa_diff a =? 0).
Proof.
  unfold in_bounds, calculatePriceAdjustment. cbn [pa_newPrice pa_diff pa_adjusted].
  unfold MIN_PLAYER_PRICE, MAX_PLAYER_PRICE, MAX_PRICE_CHANGE_PER_24H. intros Hp HT.
  generalize (default DEFAULT_NET_TRANSFER_THRESHOLD threshold) HT. clear HT. intros T HT. cbn.
  destruct (Z.leb_spec T net), (Z.leb_spec net (- T)); split_and!; try done; lia.
Qed.

(** A price outside the bounds is not moved by 0.1m: it jumps to the bound,
    whatever the transfers. *)
Lemma out_of_bounds_jumps :
  pa_diff (calculatePriceAdjustment 154 0 None None None None) = -4 ∧
  pa_reason (calculatePriceAdjustment 154 0 None None None None) = WithinThreshold.
Proof. done. Qed.

(** ** Runs of the daily job *)

(** Recalculations of single players at times that do not go back, without
    [force] and with the default window, and transfers in between. *)
Inductive pricing_run (db0 : PricingDb) : Z → PricingDb → Prop :=
| pr_start t : pricing_run db0 t db0
| pr_recalculate t t' playerId o db : pricing_run db0 t db → t ≤ t' →
    ro_force o = false → ro_windowMs o = None → 0 < default DEFAULT_NET_TRANSFER_THRESHOLD (ro_threshold o) →
    pricing_run db0 t' (recalculatePlayerPrice t' playerId o db).1
| pr_transfer t tr db : pricing_run db0 t db →
    pricing_run db0 t {| db_players := db_players db; db_changes := db_changes db;
                         db_transfers := db_transfers db ++ [tr] |}.

(** Two changes of one player are more than a window apart. *)
Definition apart (a b : PriceChange) : Prop :=
  pc_playerId a = pc_playerId b → ROLLING_WINDOW_MS < pc_changedAt b - pc_changedAt a.

Definition moves (playerId : Z) (changes : list PriceChange) : Z :=
  sum_of (λ c, if pc_playerId c =? playerId then pc_diff c else 0) changes.

Record pricing_inv (db0 : PricingDb) (t : Z) (db : PricingDb) : Prop := {
  pi_times : Forall (λ c, pc_changedAt c ≤ t) (db_changes db);
  pi_apart : StronglySorted apart (db_changes db);
  pi_prices : Forall2 (λ p0 p, pp_id p = pp_id p0 ∧ in_bounds (pp_price p) ∧
                 pp_price p = pp_price p0 + moves (pp_id p0) (db_changes db)) (db_players db0) (db_players db);
  pi_small : Forall (λ c, Z.abs (pc_diff c) ≤ MAX_PRICE_CHANGE_PER_24H ∧
                 pc_newPrice c = pc_oldPrice c + pc_diff c) (db_changes db)
}.

Lemma StronglySorted_snoc {A} (R : A → A → Prop) l x :
  StronglySorted R l → Forall (λ a, R a x) l → StronglySorted R (l ++ [x]).
Proof.
  induction 1 as [|a l Hl IH Ha]; intros Hx; cbn; [by repeat constructor|].
  inversion Hx; subst. constructor; [by apply IH|]. apply Forall_app. by repeat constructor.
Qed.

Lemma recentChange_false playerId start db : recentChange playerId start db = false →
  Forall (λ c, pc_playerId c = playerId → pc_changedAt c < start) (db_changes db).
Proof.
  unfold recentChange. intros H. rewrite Forall_forall. intros c Hc Hid.
  destruct (Z.lt_ge_cases (pc_changedAt c) start) as [|Hge]; [done|]. exfalso.
  assert (existsb (λ c, (pc_playerId c =? playerId) && (start <=? pc_changedAt c)) (db_changes db) = true) as Hx;
    [|congruence].
  apply existsb_exists. exists c. split; [by apply list_elem_of_In|].
  rewrite (proj2 (Z.eqb_eq _ _) Hid). cbn. by apply Z.leb_le.
Qed.

Lemma moves_snoc playerId changes c :
  moves playerId (changes ++ [c]) = moves playerId changes + (if pc_playerId c =? playerId then pc_diff c else 0).
Proof. unfold moves. rewrite sum_of_app. unfold sum_of at 2. cbn. lia. Qed.

(** The price column follows the changes: only the player's own row moves. *)
Lemma prices_after (ps0 ps : list PricedPlayer) changes p p0 i a now :
  NoDup (pp_id <$> ps0) → ps0 !! i = Some p0 → ps !! i = Some p → pp_id p = pp_id p0 →
  in_bounds (pa_newPrice a) → pa_newPrice a = pp_price p + pa_diff a →
  Forall2 (λ p0 p, pp_id p = pp_id p0 ∧ in_bounds (pp_price p) ∧
     pp_price p = pp_price p0 + moves (pp_id p0) changes) ps0 ps →
  Forall2 (λ q0 q, pp_id q = pp_id q0 ∧ in_bounds (pp_price q) ∧
     pp_price q = pp_price q0 + moves (pp_id q0) (changes ++
       [{| pc_playerId := pp_id p; pc_fplId := pp_fplId p; pc_oldPrice := pp_price p;
           pc_newPrice := pa_newPrice a; pc_diff := pa_diff a; pc_changedAt := now |}]))
    ps0 (set_price (pp_id p) (pa_newPrice a) <$> ps).
Proof.
  intros Hnd Hi0 Hi Hid Hb Hnew Hpr. apply Forall2_fmap_r, Forall2_same_length_lookup.
  apply Forall2_same_length_lookup in Hpr as [Hlen Hpr]. split; [done|]. intros j q0 q Hj0 Hj.
  destruct (Hpr j q0 q Hj0 Hj) as (Eid & Eb & Ep). unfold compose. rewrite !moves_snoc. unfold set_price. cbn [pc_playerId pc_diff].
  destruct (decide (i = j)) as [<-|Hne].
  - rewrite Hi in Hj. injection Hj as <-. rewrite Hi0 in Hj0. injection Hj0 as <-.
    rewrite Z.eqb_refl, (proj2 (Z.eqb_eq _ _) Hid). cbn. split_and!; [done|done|]. lia.
  - assert (pp_id p ≠ pp_id q0) as Hdiff.
    { intros E. apply Hne. eapply (NoDup_lookup (pp_id <$> ps0)); [done| |];
        rewrite list_lookup_fmap, ?Hi0, ?Hj0; cbn; [by rewrite <- Hid, E|done]. }
    rewrite (proj2 (Z.eqb_neq (pp_id q) (pp_id p))) by congruence.
    rewrite (proj2 (Z.eqb_neq (pp_id p) (pp_id q0))) by done. split_and!; [done|done|lia].
Qed.

Lemma recalculate_inv db0 t t' playerId o db :
  NoDup (pp_id <$> db_players db0) → t ≤ t' → ro_force o = false → ro_windowMs o = None →
  0 < default DEFAULT_NET_TRANSFER_THRESHOLD (ro_threshold o) →
  pricing_inv db0 t db → pricing_inv db0 t' (recalculatePlayerPrice t' playerId o db).1.
Proof.
  intros Hnd Ht Hforce Hwin HT [Htimes Hap Hpr Hsm].
  assert (Forall (λ c, pc_changedAt c ≤ t') (db_changes db)) as Htimes'.
  { eapply Forall_impl; [exact Htimes|]. intros; cbn in *; lia. }
  assert (pricing_inv db0 t' db) as Hsame by by split.
  unfold recalculatePlayerPrice. rewrite Hwin, Hforce. cbn [default negb andb].
  destruct (findPlayer playerId db) as [p|] eqn:Ep; [|done].
  destruct (recentChange _ _ _) eqn:Er; [done|]. cbn zeta.
  set (net := calculateNetTransfers _ _ _ _).
  apply List.find_some in Ep as [Hp%list_elem_of_In _].
  apply list_elem_of_lookup in Hp as [i Hi].
  destruct (Forall2_lookup_r _ _ _ _ _ Hpr Hi) as (p0 & Hi0 & Hid & Hb & Hprice).
  destruct (adjustment_spec (pp_price p) net (ro_threshold o) Hb HT) as (Hnb & Hnew & Hdiff & Hadj).
  set (a := calculatePriceAdjustment _ _ _ _ _ _) in *.
  destruct (pa_adjusted a); cbn [negb fst]; [|done]. apply recentChange_false in Er.
  split; cbn [apply_adjustment db_changes db_players].
  - apply Forall_app. split; [done|]. constructor; [cbn; lia|done].
  - apply StronglySorted_snoc; [done|]. eapply Forall_impl; [exact Er|]. intros c Hc E. cbn in *.
    specialize (Hc E). lia.
  - by eapply prices_after.
  - apply Forall_app. split; [done|]. constructor; [|done]. cbn [pc_diff pc_newPrice pc_oldPrice].
    split; [|done]. rewrite Hdiff. clear - Hb.
    unfold in_bounds in Hb. unfold MAX_PRICE_CHANGE_PER_24H, MAX_PLAYER_PRICE, MIN_PLAYER_PRICE in *.
    repeat case_match; lia.
Qed.

Lemma apart_window playerId changes t :
  StronglySorted apart changes →
  countb (λ c, (pc_playerId c =? playerId) && (t <=? pc_changedAt c) &&
               (pc_changedAt c <=? t + ROLLING_WINDOW_MS)) changes ≤ 1.
Proof.
  induction 1 as [|c l Hl IH Hc]; [done|]. unfold countb in *. cbn [List.filter].
  destruct (_ && _ && _) eqn:E; [|done].
  assert (List.filter (λ c, (pc_playerId c =? playerId) && (t <=? pc_changedAt c) &&
     (pc_changedAt c <=? t + ROLLING_WINDOW_MS)) l = []) as ->; [|done].
  destruct (List.filter _ l) as [|d r] eqn:Ef; [done|]. exfalso.
  assert (In d (List.filter (λ c, (pc_playerId c =? playerId) && (t <=? pc_changedAt c) &&
     (pc_changedAt c <=? t + ROLLING_WINDOW_MS)) l)) as Hd by (rewrite Ef; by left).
  apply filter_In in Hd as [Hd Ed]. rewrite Forall_forall in Hc.
  specialize (Hc d (proj2 (list_elem_of_In _ _) Hd)). bool_to_prop. unfold apart in Hc. lia.
Qed.

Lemma pricing_run_inv db0 t db :
  NoDup (pp_id <$> db_players db0) → Forall (λ p, in_bounds (pp_price p)) (db_players db0) →
  db_changes db0 = [] → pricing_run db0 t db → pricing_inv db0 t db.
Proof.
  intros Hnd Hb Hno. induction 1 as [t|t t' playerId o db _ IH Ht Hf Hw HT|t tr db _ IH].
  - split; rewrite Hno; [constructor|constructor| |constructor].
    apply Forall_Forall2_diag. eapply Forall_impl; [exact Hb|]. intros p Hp. split_and!; [done|done|].
    unfold moves, sum_of. cbn. lia.
  - by eapply recalculate_inv.
  - by destruct IH; split.
Qed.

(** What the engine promises: over any run of the job, however often it is
    started, every price stays between 3.5m and 15.0m, equals where it started
    plus the recorded changes, and within any 24 hours changes at most once and
    by at most 0.1m, provided it started within the bounds. *)
Theorem prices_move_slowly db0 t db :
  NoDup (pp_id <$> db_players db0) → Forall (λ p, in_bounds (pp_price p)) (db_players db0) →
  db_changes db0 = [] → pricing_run db0 t db →
  Forall2 (λ p0 p, pp_id p = pp_id p0 ∧ in_bounds (pp_price p) ∧
     pp_price p = pp_price p0 + moves (pp_id p0) (db_changes db)) (db_players db0) (db_players db) ∧
  Forall (λ c, Z.abs (pc_diff c) ≤ MAX_PRICE_CHANGE_PER_24H) (db_changes db) ∧
  (∀ playerId start, countb (λ c, (pc_playerId c =? playerId) && (start <=? pc_changedAt c) &&
     (pc_changedAt c <=? start + ROLLING_WINDOW_MS)) (db_changes db) ≤ 1).
Proof.
  intros Hnd Hb Hno Hrun. destruct (pricing_run_inv db0 t db Hnd Hb Hno Hrun) as [_ Hap Hpr Hsm].
  split_and!; [done| |intros; by apply apart_window]. eapply Forall_impl; [exact Hsm|]. by intros c [? _].
Qed.

(** The counters of the summary add up to the players evaluated. *)
Lemma recalculate_loop_counts now ids o s db :
  let s' := (recalculate_loop now ids o s db).2 in
  su_adjustedCount s' + su_skippedCount s' + su_unchangedCount s' =
  su_adjustedCount s + su_skippedCount s + su_unchangedCount s + Z.of_nat (length ids).
Proof.
  revert now s db. induction ids as [|id ids IH]; intros now s db; cbn [recalculate_loop length]; [cbn; lia|].
  destruct (recalculatePlayerPrice _ _ _ _) as [db' r]. cbn zeta in *. rewrite IH.
  destruct r as [r|]; cbn; [case_match|]; lia.
Qed.

Definition sample_db : PricingDb :=
  {| db_players := [{| pp_id := 1; pp_fplId := 11; pp_price := 100 |}; {| pp_id := 2; pp_fplId := 12; pp_price := 150 |}];
     db_changes := [];
     db_transfers := replicate 6 {| tr_playerInId := 1; tr_playerOutId := 2; tr_timestamp := 500 |} |}.

(** The job at noon, and again an hour later. *)
Definition sample_after : PricingDb :=
  (recalculatePlayerPrice 3601000 1 daily (recalculatePlayerPrice 1000 2 daily
    (recalculatePlayerPrice 1000 1 daily sample_db).1).1).1.

Lemma sample_pricing_run : pricing_run sample_db 3601000 sample_after.
Proof.
  apply (pr_recalculate sample_db 1000 3601000 1 daily); [|lia|done|done|by vm_compute].
  apply (pr_recalculate sample_db 1000 1000 2 daily); [|lia|done|done|by vm_compute].
  apply (pr_recalculate sample_db 1000 1000 1 daily); [|lia|done|done|by vm_compute].
  apply pr_start.
Qed.

Lemma prices_move_slowly_witness :
  db_changes sample_after ≠ [] ∧
  Forall (λ c, Z.abs (pc_diff c) ≤ MAX_PRICE_CHANGE_PER_24H) (db_changes sample_after).
Proof.
  split; [by vm_compute|].
  refine (proj1 (proj2 (prices_move_slowly sample_db 3601000 sample_after _ _ eq_refl sample_pricing_run))).
  - apply (bool_decide_unpack _). vm_compute. exact I.
  - repeat constructor; by vm_compute.
Defined.
