(* ===== verification/Bonus.v ===== *)
(** * Provisional bonus points: [backend/src/services/scoring/provisionalBps.ts]

    [allocateProvisionalBonus] groups the live feed's rows by fixture, sorts each
    group and hands out 3, 2 and 1 points, ties sharing a rank.  The key
    [`${fixtureId}:${playerId}`] is the pair. *)

From S2P Require Import Prelude.

#[local] Open Scope Z_scope.

Record BpsCandidate : Type := {
  bc_playerId : Z;
  bc_fixtureId : Z;
  bc_bps : jsnum;
  bc_minutes : Z
}.

(** The value of [bps] where [Number.isInteger] holds. *)
Definition bps_value (c : BpsCandidate) : Z := default 0 (as_integer (bc_bps c)).

(** Not skipped by either [continue]. *)
Definition eligible (c : BpsCandidate) : bool :=
  match as_integer (bc_bps c) with
  | Some b => negb (b <? 0) && negb ((bc_minutes c <=? 0) || (b <=? 0))
  | None => false
  end.

Definition award_key (c : BpsCandidate) : Z * Z := (bc_fixtureId c, bc_playerId c).

Abbreviation awards := (list ((Z * Z) * Z)).

(** The [Map] from a fixture to its candidates, without the skipped ones. *)
Definition byFixture (candidates : list BpsCandidate) : list (Z * list BpsCandidate) :=
  group_by (λ c, if eligible c then Some (bc_fixtureId c) else None) candidates.

Definition bps_order : BpsCandidate → BpsCandidate → Z := then_by (desc bps_value) (asc bc_playerId).

(** The players from the head of [players] on with [bps]. *)
Fixpoint tied_run (bps : Z) (players : list BpsCandidate) : list BpsCandidate :=
  match players with
  | [] => []
  | p :: players => if bps_value p =? bps then p :: tied_run bps players else []
  end.

(** The [while] loop, on the players from [index] on; a round consumes at least
    one of them, so their number is fuel enough. *)
Fixpoint award_loop (fuel : nat) (index : Z) (players : list BpsCandidate) (m : awards) : awards :=
  match fuel, players with
  | S fuel, p :: _ =>
      if index <? 3 then
        let tied := tied_run (bps_value p) players in
        let award := Z.max 0 (3 - index) in
        let m := if 0 <? award then foldl (λ m q, map_set (award_key q) award m) m tied else m in
        award_loop fuel (index + Z.of_nat (length tied)) (drop (length tied) players) m
      else m
  | _, _ => m
  end.

Definition award_group (m : awards) (players : list BpsCandidate) : awards :=
  let players := sort_by bps_order players in
  award_loop (length players) 0 players m.

Definition allocateProvisionalBonus (candidates : list BpsCandidate) : awards :=
  foldl award_group [] (map_values (byFixture candidates)).

(** ** The rule *)

(** How many players of the same fixture have more. *)
Definition better (candidates : list BpsCandidate) (c : BpsCandidate) : Z :=
  countb (λ d, eligible d && (bc_fixtureId d =? bc_fixtureId c) && (bps_value c <? bps_value d)) candidates.

Definition bonus_rule (candidates : list BpsCandidate) (c : BpsCandidate) : option Z :=
  if better candidates c <? 3 then Some (3 - better candidates c) else None.

Lemma tied_run_prefix b l : ∃ rest, l = tied_run b l ++ rest ∧ Forall (λ p, bps_value p = b) (tied_run b l).
Proof.
  induction l as [|p l (rest & E & IH)]; cbn; [by exists []|]. destruct (bps_value p =? b) eqn:Eb; bool_to_prop.
  - exists rest. cbn. split; [by rewrite <- E|]. by constructor.
  - by exists (p :: l).
Qed.

(** After the run of ties everyone has less. *)
Lemma tied_run_rest b l : StronglySorted (λ p q, bps_order p q ≤ 0) l → Forall (λ p, bps_value p ≤ b) l →
  Forall (λ p, bps_value p < b) (drop (length (tied_run b l)) l).
Proof.
  induction 1 as [|p l Hl IH Hp]; intros Hb; cbn; [constructor|]. inversion Hb as [|?? Hpb Hlb]; subst.
  destruct (bps_value p =? b) eqn:E; bool_to_prop; cbn; [by apply IH|].
  constructor; [lia|]. rewrite Forall_forall in Hp, Hlb |- *. intros q Hq. specialize (Hp q Hq).
  unfold bps_order, then_by, desc in Hp. case_match; bool_to_prop; lia.
Qed.

Lemma order_bps p q : bps_order p q ≤ 0 → bps_value q ≤ bps_value p.
Proof. unfold bps_order, then_by, desc. case_match; bool_to_prop; lia. Qed.

#[export] Instance bps_order_comparator : Comparator bps_order.
Proof. unfold bps_order. apply _. Qed.

Lemma award_ties (award : Z) (tied : list BpsCandidate) (m : awards) k :
  map_get k (foldl (λ m q, map_set (award_key q) award m) m tied) =
  if bool_decide (k ∈ award_key <$> tied) then Some award else map_get k m.
Proof.
  revert m. induction tied as [|q tied IH]; intros m; cbn [foldl fmap list_fmap]; [done|].
  rewrite IH, map_get_set. repeat case_bool_decide; try done; repeat case_decide; set_solver.
Qed.

(** Players of [players] with more than [q]. *)
Definition above (players : list BpsCandidate) (q : BpsCandidate) : Z :=
  countb (λ d, bps_value q <? bps_value d) players.

Lemma above_max players q : Forall (λ d, bps_value d ≤ bps_value q) players → above players q = 0.
Proof. rewrite Forall_forall. intros H. apply countb_zero. intros d Hd. apply Z.ltb_ge. by apply H. Qed.

Lemma above_all players q : Forall (λ d, bps_value q < bps_value d) players → above players q = Z.of_nat (length players).
Proof.
  unfold above. induction 1 as [|d l Hd _ IH]; [done|]. rewrite countb_cons, IH, (proj2 (Z.ltb_lt _ _) Hd). cbn. lia.
Qed.

Lemma sorted_app_l {A} (R : A → A → Prop) (l1 l2 : list A) : StronglySorted R (l1 ++ l2) → StronglySorted R l2.
Proof. induction l1 as [|a l1 IH]; cbn; [done|]. inversion 1; subst. by apply IH. Qed.

Lemma award_loop_spec fuel index players m k :
  (length players ≤ fuel)%nat → 0 ≤ index → StronglySorted (λ p q, bps_order p q ≤ 0) players →
  NoDup (award_key <$> players) →
  (k ∉ award_key <$> players → map_get k (award_loop fuel index players m) = map_get k m) ∧
  (∀ q, q ∈ players → k = award_key q → map_get k (award_loop fuel index players m) =
     if index + above players q <? 3 then Some (3 - (index + above players q)) else map_get k m).
Proof.
  revert index players m. induction fuel as [|fuel IH]; intros index players m Hf Hi Hs Hnd.
  { destruct players; [|cbn in Hf; lia]. split; [done|]. intros q []%elem_of_nil. }
  destruct players as [|p ps]; [split; [done|]; by intros q []%elem_of_nil|].
  cbn [award_loop]. destruct (Z.ltb_spec index 3) as [Hlt|Hge].
  2:{ split; [done|]. intros q Hq ->. pose proof (countb_nonneg (λ d, bps_value q <? bps_value d) (p :: ps)).
      unfold above. rewrite (proj2 (Z.ltb_ge _ _)) by lia. done. }
  set (players := p :: ps) in *. set (tied := tied_run (bps_value p) players).
  assert (Forall (λ q, bps_value q ≤ bps_value p) players) as Hmax.
  { inversion Hs as [|?? _ Hp]; subst. constructor; [lia|]. eapply Forall_impl; [exact Hp|]. apply order_bps. }
  destruct (tied_run_prefix (bps_value p) players) as (rest & Hsplit & Htied). fold tied in Hsplit, Htied.
  pose proof (tied_run_rest (bps_value p) players Hs Hmax) as Hless. fold tied in Hless.
  assert (drop (length tied) players = rest) as Hdrop by (rewrite Hsplit at 1; apply drop_app_length).
  rewrite Hdrop in *. assert (1 ≤ length tied)%nat as Hlen.
  { unfold tied, players. cbn. rewrite Z.eqb_refl. cbn. lia. }
  rewrite (proj2 (Z.ltb_lt _ _)) by lia. rewrite Z.max_r by lia.
  set (m' := foldl _ m tied).
  pose proof Hnd as Hnd'. rewrite Hsplit, fmap_app in Hnd'. apply NoDup_app in Hnd' as (_ & Hdis & Hndr).
  destruct (IH (index + Z.of_nat (length tied)) rest m') as [H1 H2].
  { apply (f_equal length) in Hsplit. rewrite length_app in Hsplit. unfold players in *. cbn in *. lia. }
  { lia. } { eapply sorted_app_l. by rewrite <- Hsplit. } { done. }
  split.
  - intros Hk. rewrite Hsplit, fmap_app in Hk. rewrite H1 by set_solver. unfold m'. rewrite award_ties.
    rewrite bool_decide_eq_false_2; [done|]. set_solver.
  - intros q Hq ->. rewrite Hsplit in Hq. apply elem_of_app in Hq as [Hq|Hq].
    + rewrite (above_max players q).
      2:{ rewrite Forall_forall in Htied. by rewrite (Htied q Hq). }
      rewrite H1; [|apply Hdis, list_elem_of_fmap; by exists q]. unfold m'. rewrite award_ties.
      rewrite bool_decide_eq_true_2 by (apply list_elem_of_fmap; by exists q).
      rewrite Z.add_0_r. by rewrite (proj2 (Z.ltb_lt _ _) Hlt).
    + rewrite (H2 q Hq eq_refl).
      assert (above players q = Z.of_nat (length tied) + above rest q) as ->.
      { unfold above at 1. rewrite Hsplit, countb_app. fold (above tied q) (above rest q).
        rewrite above_all; [done|]. rewrite Forall_forall in Htied, Hless |- *. intros d Hd.
        rewrite (Htied d Hd). by apply Hless. }
      rewrite Z.add_assoc. destruct (_ <? 3); [done|]. unfold m'. rewrite award_ties.
      rewrite bool_decide_eq_false_2; [done|]. intros Hin. apply (Hdis _ Hin), list_elem_of_fmap. by exists q.
Qed.

(** ** Grouping *)

Definition group_of (candidates : list BpsCandidate) (f : Z) : list BpsCandidate :=
  List.filter (λ c, eligible c && (bc_fixtureId c =? f)) candidates.

Lemma group_of_with_key l f : List.filter (with_key (λ c, if eligible c then Some (bc_fixtureId c) else None) f) l = group_of l f.
Proof.
  apply List.filter_ext. intros c. unfold with_key. destruct (eligible c); cbn; [|by rewrite bool_decide_eq_false_2].
  destruct (Z.eqb_spec (bc_fixtureId c) f); [by apply bool_decide_eq_true_2; subst|by apply bool_decide_eq_false_2; intros [=]].
Qed.

(** Each fixture once, with its eligible players in the order of the feed. *)
Lemma byFixture_spec l :
  NoDup (byFixture l).*1 ∧ (∀ f, default [] (map_get f (byFixture l)) = group_of l f) ∧ (∀ f g, map_get f (byFixture l) = Some g → g ≠ []).
Proof.
  destruct (group_by_spec (λ c, if eligible c then Some (bc_fixtureId c) else None) l) as (? & Hget & ?).
  split_and!; [done| |done]. intros f. by rewrite <- group_of_with_key, <- Hget.
Qed.

Lemma byFixture_entry l f g : (f, g) ∈ byFixture l → g = group_of l f.
Proof. intros [-> _]%group_by_entry. apply group_of_with_key. Qed.

(** ** The groups do not interfere *)

Lemma group_facts l f q : q ∈ group_of l f ↔ q ∈ l ∧ eligible q = true ∧ bc_fixtureId q = f.
Proof.
  unfold group_of. rewrite list_elem_of_In, filter_In, <- list_elem_of_In, andb_true_iff, Z.eqb_eq. tauto.
Qed.

Lemma award_group_spec l f m k :
  NoDup (award_key <$> List.filter eligible l) →
  (∀ q, q ∈ group_of l f → k = award_key q → map_get k (award_group m (group_of l f)) =
     if better l q <? 3 then Some (3 - better l q) else map_get k m) ∧
  (k.1 ≠ f → map_get k (award_group m (group_of l f)) = map_get k m) ∧
  (k ∉ award_key <$> List.filter eligible l → map_get k (award_group m (group_of l f)) = map_get k m).
Proof.
  intros Hnd. unfold award_group. set (players := sort_by bps_order (group_of l f)).
  assert (players ≡ₚ group_of l f) as Hp by apply sort_by_perm.
  assert (NoDup (award_key <$> players)) as Hndp.
  { rewrite Hp. unfold group_of. revert Hnd. clear. induction l as [|c l IH]; [done|]. cbn.
    destruct (eligible c) eqn:Ec; cbn; [|done]. intros [Hc Hnd]%NoDup_cons.
    destruct (_ =? _); cbn; [|by apply IH]. apply NoDup_cons. split; [|by apply IH].
    intros (q & E & Hq)%list_elem_of_fmap. apply Hc, list_elem_of_fmap. exists q. split; [done|].
    apply list_elem_of_In, filter_In in Hq as [Hq [He _]%andb_true_iff].
    by apply list_elem_of_In, filter_In. }
  destruct (award_loop_spec (length players) 0 players m k) as [H1 H2]; [done|done|apply sort_by_sorted, _|done|].
  split_and!.
  - intros q Hq ->. rewrite (H2 q); [|by rewrite Hp|done]. rewrite Z.add_0_l.
    assert (above players q = better l q) as ->; [|done].
    unfold above, better. rewrite (countb_perm _ _ _ Hp). apply group_facts in Hq as (_ & _ & <-).
    unfold group_of. clear. induction l as [|c l IH]; [done|]. cbn. rewrite countb_cons.
    destruct (eligible c && _) eqn:E; cbn; [by rewrite countb_cons, IH|]. by rewrite IH.
  - intros Hk. apply H1. rewrite Hp. intros (q & -> & Hq)%list_elem_of_fmap. by apply group_facts in Hq as (_ & _ & ?).
  - intros Hk. apply H1. rewrite Hp. intros (q & -> & Hq)%list_elem_of_fmap. apply Hk, list_elem_of_fmap.
    exists q. split; [done|]. apply group_facts in Hq as (? & ? & _). by apply list_elem_of_In, filter_In; rewrite <- list_elem_of_In.
Qed.

Lemma award_groups_spec l (gs : list (Z * list BpsCandidate)) m k :
  NoDup (award_key <$> List.filter eligible l) → NoDup gs.*1 → (∀ f g, (f, g) ∈ gs → g = group_of l f) →
  (∀ q, q ∈ l → eligible q = true → k = award_key q →
     map_get k (foldl award_group m gs.*2) =
     if bool_decide (bc_fixtureId q ∈ gs.*1) && (better l q <? 3) then Some (3 - better l q) else map_get k m) ∧
  (k ∉ award_key <$> List.filter eligible l → map_get k (foldl award_group m gs.*2) = map_get k m).
Proof.
  intros Hnd. revert m. induction gs as [|[f g] gs IH]; intros m Hg Hin; [done|].
  apply NoDup_cons in Hg as [Hf Hg].
  assert (g = group_of l f) as -> by (apply Hin; by left).
  destruct (IH (award_group m (group_of l f)) Hg) as [H1 H2]; [intros; apply Hin; by right|].
  destruct (award_group_spec l f m k Hnd) as (A1 & A2 & A3). cbn [fmap list_fmap foldl fst snd]. split.
  - intros q Hq He ->. rewrite (H1 q Hq He eq_refl). destruct (decide (bc_fixtureId q = f)) as [E|E].
    + rewrite (bool_decide_eq_false_2 (bc_fixtureId q ∈ gs.*1)) by by rewrite E.
      rewrite bool_decide_eq_true_2 by (rewrite E; by left). cbn [andb].
      apply A1; [by apply group_facts|done].
    + rewrite A2 by done.
      rewrite (bool_decide_ext (bc_fixtureId q ∈ f :: gs.*1) (bc_fixtureId q ∈ gs.*1)); [done|]. set_solver.
  - intros Hk. rewrite H2 by done. by apply A3.
Qed.

(** C30. The bonus a player gets is the rule of the game, whatever the order of the
    feed: among the eligible players of the same fixture, one whom [r] players
    beat gets [3 - r] points while [r] is below 3, equal scores getting the same
    and using up the places after them; nobody else gets any. *)
Theorem provisional_bonus_rule l k :
  NoDup (award_key <$> List.filter eligible l) →
  (∀ q, q ∈ l → eligible q = true → k = award_key q →
     map_get k (allocateProvisionalBonus l) = bonus_rule l q) ∧
  (k ∉ award_key <$> List.filter eligible l → map_get k (allocateProvisionalBonus l) = None).
Proof.
  intros Hnd. destruct (byFixture_spec l) as (Hg & Hget & _).
  destruct (award_groups_spec l (byFixture l) [] k Hnd Hg (byFixture_entry l)) as [H1 H2]. split; [|exact H2].
  intros q Hq He ->. unfold allocateProvisionalBonus, map_values. rewrite (H1 q Hq He eq_refl).
  rewrite bool_decide_eq_true_2; [done|]. specialize (Hget (bc_fixtureId q)).
  destruct (map_get (bc_fixtureId q) (byFixture l)) as [g|] eqn:Eg.
  - apply map_get_elem in Eg. apply list_elem_of_fmap. by exists (bc_fixtureId q, g).
  - exfalso. assert (q ∈ group_of l (bc_fixtureId q)) as Hin by by apply group_facts.
    rewrite <- Hget in Hin. by apply elem_of_nil in Hin.
Qed.

Definition row (p f b : Z) : BpsCandidate :=
  {| bc_playerId := p; bc_fixtureId := f; bc_bps := int b; bc_minutes := 90 |}.

Definition sample_feed : list BpsCandidate :=
  [row 1 7 20; row 2 7 35; row 3 8 10; row 4 7 35; row 5 7 20; row 6 7 12].

Lemma provisional_bonus_rule_witness :
  map_get (7, 1) (allocateProvisionalBonus sample_feed) = Some 1 ∧
  map_get (7, 4) (allocateProvisionalBonus sample_feed) = Some 3 ∧
  map_get (7, 6) (allocateProvisionalBonus sample_feed) = None.
Proof.
  assert (NoDup (award_key <$> List.filter eligible sample_feed)) as Hnd
    by (apply (bool_decide_unpack _); vm_compute; exact I).
  split_and!.
  - rewrite (proj1 (provisional_bonus_rule sample_feed (7, 1) Hnd) (row 1 7 20)); [reflexivity|set_solver|reflexivity..].
  - rewrite (proj1 (provisional_bonus_rule sample_feed (7, 4) Hnd) (row 4 7 35)); [reflexivity|set_solver|reflexivity..].
  - rewrite (proj1 (provisional_bonus_rule sample_feed (7, 6) Hnd) (row 6 7 12)); [reflexivity|set_solver|reflexivity..].
Defined.
