(* ===== verification/Ratings.v ===== *)
(** * Match ratings and matchmaking:
      [backend/src/services/league/matchRatingService.ts]

    The Elo update of a gameweek and the queue that pairs opponents.  Stored
    ratings have two decimals and are hundredths here; between a read and a
    write the code computes with floating-point numbers, which are real numbers
    in this file.  Both operations are serializable transactions and are
    functions of the tables. *)

From Stdlib Require Import Reals Lra.
From S2P Require Import Prelude.

#[local] Open Scope Z_scope.

(** Hundredths. *)
Definition INITIAL_RATING : Z := 120000.
Definition PROVISIONAL_GAMES : Z := 10.

Inductive MatchmakingError : Type := NoSquad | QueueChanged.

(** ** Elo *)

Section elo.
#[local] Open Scope R_scope.

Definition expectedScore (rating opponentRating : R) : R :=
  1 / (1 + Rpower 10 ((opponentRating - rating) / 400)).

Definition clamp (value minimum maximum : R) : R := Rmin maximum (Rmax minimum value).

Definition kFactor (gamesPlayed opponentGamesPlayed : Z) : R :=
  if (gamesPlayed <? PROVISIONAL_GAMES)%Z || (opponentGamesPlayed <? PROVISIONAL_GAMES)%Z then 40 else 24.

Definition marginFactor (margin : R) : R := clamp (ln (1 + Rabs margin) / ln 10) 1 2.

Definition scheduleFactor (rating opponentRating : R) : R :=
  clamp (1 + ((rating + opponentRating) / 2 - 1200) / 4000) (3 / 4) (5 / 4).

Definition calculateEloDelta (rating opponentRating score margin : R) (gamesPlayed opponentGamesPlayed : Z) : R :=
  kFactor gamesPlayed opponentGamesPlayed * marginFactor margin * scheduleFactor rating opponentRating *
  (score - expectedScore rating opponentRating).

Lemma power_pos x : 0 < Rpower 10 x.
Proof. unfold Rpower. apply exp_pos. Qed.

Lemma expected_bounds a b : 0 < expectedScore a b < 1.
Proof.
  unfold expectedScore. pose proof (power_pos ((b - a) / 400)) as Hp. unfold Rdiv. rewrite Rmult_1_l. split.
  - apply Rinv_0_lt_compat. lra.
  - rewrite <- Rinv_1. apply Rinv_lt_contravar; lra.
Qed.

(** The two expectations of a match add up to one. *)
Lemma expected_sum a b : expectedScore a b + expectedScore b a = 1.
Proof.
  unfold expectedScore. set (x := (b - a) / 400). replace ((a - b) / 400) with (- x) by (unfold x; lra).
  rewrite Rpower_Ropp. pose proof (power_pos x) as Hp. field. lra.
Qed.

Lemma clamp_bounds v lo hi : lo <= hi -> lo <= clamp v lo hi <= hi.
Proof.
  intros H. unfold clamp. split.
  - apply Rmin_glb; [done|apply Rmax_l].
  - apply Rmin_l.
Qed.

(** The factor in front of the surprise, the same for both players. *)
Definition stake (a b margin : R) (g h : Z) : R := kFactor g h * marginFactor margin * scheduleFactor a b.

Lemma stake_symmetric a b margin g h : stake a b margin g h = stake b a margin h g.
Proof. unfold stake, kFactor, scheduleFactor. rewrite orb_comm, (Rplus_comm a b). done. Qed.

Lemma stake_bounds a b margin g h : 0 < stake a b margin g h <= 100.
Proof.
  unfold stake, marginFactor, scheduleFactor.
  pose proof (clamp_bounds (ln (1 + Rabs margin) / ln 10) 1 2 ltac:(lra)) as Hm.
  pose proof (clamp_bounds (1 + ((a + b) / 2 - 1200) / 4000) (3 / 4) (5 / 4) ltac:(lra)) as Hs.
  set (m := clamp _ 1 2) in *. set (s := clamp _ (3 / 4) (5 / 4)) in *.
  assert (24 <= kFactor g h <= 40) as Hk by (unfold kFactor; destruct (_ || _); lra).
  set (k := kFactor g h) in *. split; [apply Rmult_lt_0_compat; [apply Rmult_lt_0_compat|]; lra|].
  assert (k * m <= 40 * 2) by (apply Rmult_le_compat; lra).
  assert (k * m * s <= 40 * 2 * (5 / 4)) by (apply Rmult_le_compat; [apply Rmult_le_pos; lra|lra|done|lra]). lra.
Qed.

(** What one player wins the other loses; a winner gains, a loser loses, and
    nobody moves by more than a hundred points in a match. *)
Lemma elo_match a b score margin g h :
  calculateEloDelta a b score margin g h + calculateEloDelta b a (1 - score) margin h g = 0 /\
  (0 <= score <= 1 -> Rabs (calculateEloDelta a b score margin g h) <= 100) /\
  (score = 1 -> 0 < calculateEloDelta a b score margin g h) /\
  (score = 0 -> calculateEloDelta a b score margin g h < 0).
Proof.
  unfold calculateEloDelta. fold (stake a b margin g h) (stake b a margin h g). rewrite (stake_symmetric b a).
  pose proof (stake_bounds a b margin g h) as Hk. pose proof (expected_sum a b) as Hsum.
  pose proof (expected_bounds a b) as He. set (K := stake a b margin g h) in *.
  repeat split.
  - replace (expectedScore b a) with (1 - expectedScore a b) by lra. lra.
  - intros Hs. rewrite Rabs_mult, (Rabs_pos_eq K) by lra.
    assert (Rabs (score - expectedScore a b) <= 1) as Hd by (apply Rabs_le; lra).
    assert (K * Rabs (score - expectedScore a b) <= 100 * 1); [|lra].
    apply Rmult_le_compat; [lra|apply Rabs_pos|lra|done].
  - intros ->. apply Rmult_lt_0_compat; lra.
  - intros ->. assert (0 < K * expectedScore a b) by (apply Rmult_lt_0_compat; lra). lra.
Qed.

(** [Number(x.toFixed(2))] in hundredths: to the nearest, ties away from zero. *)
Definition toFixed2 (x : R) : Z :=
  if Rlt_dec x 0 then (- Int_part (- x * 100 + 1 / 2))%Z else Int_part (x * 100 + 1 / 2).

Lemma toFixed2_error x : Rabs (IZR (toFixed2 x) - x * 100) <= 1 / 2.
Proof.
  unfold toFixed2. destruct (Rlt_dec x 0) as [Hx|Hx].
  - destruct (base_Int_part (- x * 100 + 1 / 2)) as [H1 H2]. rewrite opp_IZR. apply Rabs_le. lra.
  - destruct (base_Int_part (x * 100 + 1 / 2)) as [H1 H2]. apply Rabs_le. lra.
Qed.

End elo.

(** ** The update after a gameweek *)

(** A fixture with the users of its members. *)
Record RatedFixture : Type := {
  rf_gameweekId : Z;
  rf_isFinished : bool;
  rf_headToHead : bool;
  rf_home : string;
  rf_away : option string;
  rf_homeScore : option Z;
  rf_awayScore : option Z
}.

Record MatchRating : Type := { mr_rating : Z; mr_gamesPlayed : Z; mr_volatility : Z }.

Record MatchRatingHistory : Type := {
  mh_userId : string;
  mh_gameweekId : Z;
  mh_ratingBefore : Z;
  mh_ratingAfter : Z;
  mh_delta : Z
}.

(** Fixtures in the order of their ids. *)
Record RatingDb : Type := {
  rd_fixtures : list RatedFixture;
  rd_ratings : list (string * MatchRating);
  rd_history : list MatchRatingHistory
}.

(** The [where] of the query, with the columns it makes non-null. *)
Definition rated_fixture (gameweekId : Z) (f : RatedFixture) : option (string * string * Z * Z) :=
  if (rf_gameweekId f =? gameweekId) && rf_isFinished f && rf_headToHead f then
    match rf_away f, rf_homeScore f, rf_awayScore f with
    | Some away, Some hs, Some as_ => Some (rf_home f, away, hs, as_)
    | _, _, _ => None
    end
  else None.

(** [new Set(..)]: the first occurrences. *)
Definition add_user (users : list string) (u : string) : list string :=
  if bool_decide (u ∈ users) then users else users ++ [u].

Definition user_ids (fixtures : list (string * string * Z * Z)) : list string :=
  foldl (λ us '(home, away, _, _), add_user (add_user us home) away) [] fixtures.

Definition rating_of (ratings : list (string * MatchRating)) (u : string) : Z :=
  default INITIAL_RATING (mr_rating <$> map_get u ratings).

Definition games_of (ratings : list (string * MatchRating)) (u : string) : Z :=
  default 0 (mr_gamesPlayed <$> map_get u ratings).

(** Hundredths as the number the code computes with. *)
Definition points (hundredths : Z) : R := (IZR hundredths / 100)%R.

Definition score_outcome (homeScore awayScore : Z) : R :=
  if awayScore <? homeScore then 1%R else if homeScore <? awayScore then 0%R else (1 / 2)%R.

Definition add_delta (u : string) (x : R) (deltas : list (string * R)) : list (string * R) :=
  map_set u (default 0%R (map_get u deltas) + x)%R deltas.

Definition add_game (u : string) (games : list (string * Z)) : list (string * Z) :=
  map_set u (default 0 (map_get u games) + 1) games.

Definition rate_fixture (current : list (string * MatchRating)) (acc : list (string * R) * list (string * Z))
    (f : string * string * Z * Z) : list (string * R) * list (string * Z) :=
  let '(home, away, hs, as_) := f in
  let '(deltas, games) := acc in
  if bool_decide (home = away) then acc else
  let a := points (rating_of current home) in
  let b := points (rating_of current away) in
  let g := games_of current home in
  let h := games_of current away in
  let margin := IZR (hs - as_) in
  let deltas := add_delta home (calculateEloDelta a b (score_outcome hs as_) margin g h) deltas in
  let deltas := add_delta away (calculateEloDelta b a (1 - score_outcome hs as_)%R margin h g) deltas in
  (deltas, add_game away (add_game home games)).

(** The writes for one user. *)
Definition save_rating (gameweekId : Z) (current : list (string * MatchRating)) (deltas : list (string * R))
    (games : list (string * Z)) (db : RatingDb) (u : string) : RatingDb :=
  let ratingBefore := rating_of current u in
  let delta := default 0%R (map_get u deltas) in
  let ratingAfter := toFixed2 (points ratingBefore + delta)%R in
  let previous := points (default 0 (mr_volatility <$> map_get u current)) in
  let volatility := toFixed2 (sqrt (9 / 10 * previous ^ 2 + 1 / 10 * delta ^ 2)) in
  {| rd_fixtures := rd_fixtures db;
     rd_ratings := map_set u {| mr_rating := ratingAfter;
                                mr_gamesPlayed := games_of current u + default 0 (map_get u games);
                                mr_volatility := volatility |} (rd_ratings db);
     rd_history := rd_history db ++ [{| mh_userId := u; mh_gameweekId := gameweekId; mh_ratingBefore := ratingBefore;
                                        mh_ratingAfter := ratingAfter; mh_delta := toFixed2 delta |}] |}.

Definition updateMatchRatings (gameweekId : Z) (db : RatingDb) : RatingDb * Z :=
  if 0 <? countb (λ h, mh_gameweekId h =? gameweekId) (rd_history db) then (db, 0) else
  let fixtures := omap (rated_fixture gameweekId) (rd_fixtures db) in
  match fixtures with
  | [] => (db, 0)
  | _ =>
      let userIds := user_ids fixtures in
      let current := rd_ratings db in
      let '(deltas, games) := foldl (rate_fixture current)
        ((λ u, (u, 0%R)) <$> userIds, (λ u, (u, 0)) <$> userIds) fixtures in
      (foldl (save_rating gameweekId current deltas games) db userIds, Z.of_nat (length userIds))
  end.

(** *** What it keeps *)

Definition total (deltas : list (string * R)) : R := foldr Rplus 0%R deltas.*2.

Lemma add_user_spec us u : NoDup us → NoDup (add_user us u) ∧ ∀ x, x ∈ add_user us u ↔ x ∈ us ∨ x = u.
Proof.
  unfold add_user. case_bool_decide as E; intros Hnd; [split; [done|]; set_solver|]. split; [|set_solver].
  apply NoDup_app. split_and!; [done|set_solver|apply NoDup_singleton].
Qed.

Lemma user_ids_spec fixtures : NoDup (user_ids fixtures) ∧
  ∀ home away hs as_, (home, away, hs, as_) ∈ fixtures → home ∈ user_ids fixtures ∧ away ∈ user_ids fixtures.
Proof.
  unfold user_ids. induction fixtures as [|[[[home away] hs] as_] fixtures IH] using rev_ind.
  { split; [constructor|]. by intros ???? []%elem_of_nil. }
  rewrite foldl_app. cbn [foldl]. destruct IH as [Hnd Hin]. set (us := foldl _ _ _) in *.
  destruct (add_user_spec us home Hnd) as [Hnd1 H1].
  destruct (add_user_spec (add_user us home) away Hnd1) as [Hnd2 H2]. split; [done|].
  intros x y s t. rewrite elem_of_app, list_elem_of_singleton, !H2, !H1.
  intros [Hf|[= -> -> -> ->]]; [apply Hin in Hf|]; tauto.
Qed.

Lemma total_set u v y deltas : map_get u deltas = Some v → total (map_set u y deltas) = (total deltas + (y - v))%R.
Proof.
  unfold total. induction deltas as [|[k w] m IH]; cbn; [done|]. case_decide as E; cbn.
  - intros [= ->]. lra.
  - intros Hv. rewrite IH by done. lra.
Qed.

Lemma total_add u x deltas : is_Some (map_get u deltas) → total (add_delta u x deltas) = (total deltas + x)%R.
Proof.
  intros [v Hv]. unfold add_delta. rewrite Hv. change (default 0%R (Some v)) with v.
  rewrite (total_set u v) by done. lra.
Qed.

Lemma add_delta_keys u x deltas : is_Some (map_get u deltas) → (add_delta u x deltas).*1 = deltas.*1.
Proof.
  intros [v Hv%map_get_elem]. unfold add_delta. rewrite map_set_keys, decide_True; [done|].
  apply list_elem_of_fmap. by exists (u, v).
Qed.

Lemma has_key {V} u (m : list (string * V)) : u ∈ m.*1 → is_Some (map_get u m).
Proof.
  induction m as [|[k v] m IH]; cbn; [by intros []%elem_of_nil|]. intros [->|Hu]%elem_of_cons.
  - rewrite decide_True by done. by eexists.
  - case_decide; [by eexists|by apply IH].
Qed.

(** The deltas of a match day add up to nothing. *)
Lemma rate_fixtures_zero current fixtures deltas games us :
  deltas.*1 = us → (∀ home away hs as_, (home, away, hs, as_) ∈ fixtures → home ∈ us ∧ away ∈ us) →
  let out := foldl (rate_fixture current) (deltas, games) fixtures in
  out.1.*1 = us ∧ total out.1 = total deltas.
Proof.
  revert deltas games. induction fixtures as [|[[[home away] hs] as_] fixtures IH]; intros deltas games Hk Hin; [done|].
  cbn [foldl]. destruct (Hin home away hs as_) as [Hh Ha]; [by left|].
  assert (∀ home away hs as_, (home, away, hs, as_) ∈ fixtures → home ∈ us ∧ away ∈ us) as Hin'.
  { intros ???? Hf. eapply Hin. by right. }
  destruct (rate_fixture current (deltas, games) (home, away, hs, as_)) as [d g] eqn:E. cbn [rate_fixture] in E.
  unfold rate_fixture in E. case_bool_decide; injection E as <- <-; [by apply IH|].
  set (y := calculateEloDelta _ _ _ _ _ _). set (x := calculateEloDelta _ _ _ _ _ _).
  assert (is_Some (map_get home deltas)) as H1 by (apply has_key; by rewrite Hk).
  pose proof (add_delta_keys home x deltas H1) as K1.
  assert (is_Some (map_get away (add_delta home x deltas))) as H2 by (apply has_key; by rewrite K1, Hk).
  pose proof (add_delta_keys away y _ H2) as K2.
  destruct (IH (add_delta away y (add_delta home x deltas)) (add_game away (add_game home games))) as [E1 E2];
    [by rewrite K2, K1|done|]. split; [done|]. rewrite E2, !total_add by done.
  destruct (elo_match (points (rating_of current home)) (points (rating_of current away)) (score_outcome hs as_)
    (IZR (hs - as_)) (games_of current home) (games_of current away)) as [Hz _]. fold x y in Hz. lra.
Qed.

(** One history row and one rating per user, in order. *)
Lemma save_ratings gameweekId current deltas games us db :
  NoDup us →
  let db' := foldl (save_rating gameweekId current deltas games) db us in
  rd_fixtures db' = rd_fixtures db ∧
  (∃ rows, rd_history db' = rd_history db ++ rows ∧
     Forall2 (λ u h, mh_userId h = u ∧ mh_gameweekId h = gameweekId ∧ mh_ratingBefore h = rating_of current u ∧
       mh_ratingAfter h = toFixed2 (points (rating_of current u) + default 0%R (map_get u deltas)) ∧
       rating_of (rd_ratings db') u = mh_ratingAfter h) us rows) ∧
  (∀ u, u ∉ us → map_get u (rd_ratings db') = map_get u (rd_ratings db)).
Proof.
  revert db. induction us as [|u us IH]; intros db Hnd.
  { split_and!; [done| |done]. exists []. by rewrite app_nil_r. }
  apply NoDup_cons in Hnd as [Hu Hnd]. cbn [foldl].
  destruct (IH (save_rating gameweekId current deltas games db u) Hnd) as (Hf & (rows & Hrows & Hall) & Hother).
  set (db1 := save_rating gameweekId current deltas games db u) in *. split_and!; [done| |].
  - eexists (_ :: rows). rewrite Hrows. split.
    { unfold db1, save_rating. cbn [rd_history]. rewrite <- app_assoc. reflexivity. }
    constructor; [|done].
    split_and!; try reflexivity. unfold rating_of at 1. rewrite (Hother u Hu). unfold db1, save_rating.
    cbn [rd_ratings]. by rewrite map_get_set_eq.
  - intros v Hv. rewrite Hother by set_solver. unfold db1, save_rating. cbn [rd_ratings].
    apply map_get_set_ne. set_solver.
Qed.

Lemma total_lookup us (deltas : list (string * R)) : NoDup us → deltas.*1 = us →
  total deltas = foldr Rplus 0%R ((λ u, default 0%R (map_get u deltas)) <$> us).
Proof.
  intros Hnd <-. unfold total. induction deltas as [|[k v] m IH]; [done|].
  cbn [fmap list_fmap fst snd foldr] in *. apply NoDup_cons in Hnd as [Hk Hnd].
  cbn [map_get]. rewrite decide_True by done. cbn [default]. rewrite IH by done. f_equal.
  assert ((λ u, default 0%R (if decide (u = k) then Some v else map_get u m)) <$> m.*1 =
          (λ u, default 0%R (map_get u m)) <$> m.*1) as ->; [|done].
  apply list_fmap_ext. intros i u Hu. rewrite decide_False; [done|]. intros ->.
  apply Hk. by eapply list_elem_of_lookup_2.
Qed.

(** Rounding loses at most half a hundredth per user. *)
Lemma rounding_bound current deltas us rows gameweekId ratings :
  Forall2 (λ u h, mh_userId h = u ∧ mh_gameweekId h = gameweekId ∧ mh_ratingBefore h = rating_of current u ∧
       mh_ratingAfter h = toFixed2 (points (rating_of current u) + default 0%R (map_get u deltas)) ∧
       rating_of ratings u = mh_ratingAfter h) us rows →
  (Rabs (IZR (sum_of (λ h, mh_ratingAfter h - mh_ratingBefore h)%Z rows) -
         100 * foldr Rplus 0 ((λ u, default 0 (map_get u deltas)) <$> us)) <= INR (length us) / 2)%R.
Proof.
  induction 1 as [|u h us rows (_ & _ & Hb & Ha & _) _ IH]; [unfold sum_of; cbn; apply Rabs_le; lra|].
  change (sum_of (λ h, mh_ratingAfter h - mh_ratingBefore h) (h :: rows)) with
    ((mh_ratingAfter h - mh_ratingBefore h) + sum_of (λ h, mh_ratingAfter h - mh_ratingBefore h) rows).
  set (S1 := sum_of _ rows) in *. cbn [fmap list_fmap foldr length] in *. set (D := foldr Rplus _ _) in *.
  set (d := default 0%R (map_get u deltas)) in *. rewrite S_INR, plus_IZR, minus_IZR, Ha, Hb.
  pose proof (toFixed2_error (points (rating_of current u) + d)) as He. unfold points in *.
  set (b := IZR (rating_of current u)) in *. set (t := IZR (toFixed2 _)) in *.
  revert He IH. unfold Rabs. repeat destruct (Rcase_abs _); lra.
Qed.

(** What the update promises: every user with an official match gets one history
    row, from the rating before to the new one; the points change hands (the
    ratings of all of them together move by at most half a hundredth per user,
    the rounding); and updating the gameweek again changes nothing. *)
Theorem ratings_zero_sum gameweekId db db' n :
  updateMatchRatings gameweekId db = (db', n) → n ≠ 0 →
  ∃ us rows, NoDup us ∧ n = Z.of_nat (length us) ∧ rd_history db' = rd_history db ++ rows ∧
    Forall2 (λ u h, mh_userId h = u ∧ mh_gameweekId h = gameweekId ∧
      mh_ratingBefore h = rating_of (rd_ratings db) u ∧ mh_ratingAfter h = rating_of (rd_ratings db') u) us rows ∧
    (Rabs (IZR (sum_of (λ h, mh_ratingAfter h - mh_ratingBefore h)%Z rows)) <= IZR n / 2)%R ∧
    (∀ u, u ∉ us → map_get u (rd_ratings db') = map_get u (rd_ratings db)) ∧
    updateMatchRatings gameweekId db' = (db', 0).
Proof.
  unfold updateMatchRatings at 1. destruct (0 <? countb _ (rd_history db)); [congruence|].
  set (fixtures := omap (rated_fixture gameweekId) (rd_fixtures db)).
  destruct fixtures as [|f fs] eqn:Ef; [congruence|]. rewrite <- Ef in *.
  destruct (user_ids_spec fixtures) as [Hnd Hin]. set (us := user_ids fixtures) in *.
  destruct (rate_fixtures_zero (rd_ratings db) fixtures ((λ u, (u, 0%R)) <$> us) ((λ u, (u, 0)) <$> us) us)
    as [Hk Hz]; [by rewrite <- list_fmap_compose, list_fmap_id|done|].
  destruct (foldl (rate_fixture (rd_ratings db)) _ fixtures) as [deltas games]. cbn [fst] in Hk, Hz.
  intros [= <- <-] Hn.
  destruct (save_ratings gameweekId (rd_ratings db) deltas games us db Hnd) as (Hf & (rows & Hrows & Hall) & Hother).
  set (db' := foldl _ db us) in *. exists us, rows. split_and!; try done.
  - eapply Forall2_impl; [exact Hall|]. intros u h (E1 & E2 & E3 & E4 & E5). by rewrite E5.
  - assert (total ((λ u, (u, 0%R)) <$> us) = 0%R) as H0.
    { unfold total. rewrite <- list_fmap_compose. clear. induction us as [|u us IH]; cbn in *; [done|]. rewrite IH. lra. }
    pose proof (rounding_bound _ _ _ _ _ _ Hall) as Hb. rewrite <- total_lookup in Hb by done.
    rewrite Hz, H0, Rmult_0_r, Rminus_0_r in Hb. by rewrite <- INR_IZR_INZ.
  - unfold updateMatchRatings. rewrite (proj2 (Z.ltb_lt _ _)); [done|].
    destruct us as [|u us']; [done|].
    apply Forall2_cons_inv_l in Hall as (h & rows' & (_ & Hg & _) & _ & ->).
    apply (countb_pos _ _ h); [rewrite Hrows; set_solver|]. by apply Z.eqb_eq.
Qed.

(** ** The matchmaking queue *)

Inductive MatchmakingStatus : Type := QUEUED | MATCHED.

Record QueueEntry : Type := {
  qe_id : string;
  qe_userId : string;
  qe_ratingAtRequest : Z;
  qe_tolerance : Z;
  qe_status : MatchmakingStatus;
  qe_matchedUserId : option string;
  qe_joinedAt : Z;
  qe_matchedAt : option Z
}.

(** Users with whether they have a squad. *)
Record QueueDb : Type := {
  qd_users : list (string * bool);
  qd_ratings : list (string * MatchRating);
  qd_queue : list QueueEntry
}.

Inductive JoinResult : Type :=
| AlreadyMatched (rating : Z) (opponent : option string) (matchedAt : option Z)
| Queued (rating joinedAt : Z)
| Paired (rating : Z) (opponent : string) (opponentRating matchedAt : Z).

(** Tolerances are whole points, ratings hundredths. *)
Definition areRatingsCompatible (rating opponentRating tolerance opponentTolerance : Z) : bool :=
  Z.abs (rating - opponentRating) <=? 100 * Z.min tolerance opponentTolerance.

Definition clamp_tolerance (requested : Z) : Z := Z.min 1000 (Z.max 100 requested).

Definition refresh_entry (rating tolerance : Z) (e : QueueEntry) : QueueEntry :=
  {| qe_id := qe_id e; qe_userId := qe_userId e; qe_ratingAtRequest := rating; qe_tolerance := tolerance;
     qe_status := qe_status e; qe_matchedUserId := qe_matchedUserId e; qe_joinedAt := qe_joinedAt e;
     qe_matchedAt := qe_matchedAt e |}.

Definition matched_entry (opponent : string) (now : Z) (e : QueueEntry) : QueueEntry :=
  {| qe_id := qe_id e; qe_userId := qe_userId e; qe_ratingAtRequest := qe_ratingAtRequest e;
     qe_tolerance := qe_tolerance e; qe_status := MATCHED; qe_matchedUserId := Some opponent;
     qe_joinedAt := qe_joinedAt e; qe_matchedAt := Some now |}.

Definition is_queued (e : QueueEntry) : bool := match qe_status e with QUEUED => true | MATCHED => false end.

(** [update({ where: { id } })] and [updateMany({ where: { id, status } })] with
    its count. *)
Definition update_entry (id : string) (f : QueueEntry → QueueEntry) (q : list QueueEntry) : list QueueEntry :=
  (λ e, if bool_decide (qe_id e = id) then f e else e) <$> q.

Definition claim_entry (id opponent : string) (now : Z) (q : list QueueEntry) : list QueueEntry * Z :=
  ((λ e, if bool_decide (qe_id e = id) && is_queued e then matched_entry opponent now e else e) <$> q,
   countb (λ e, bool_decide (qe_id e = id) && is_queued e) q).

(** Waiting opponents in reach, the oldest first; the ids are only compared. *)
Definition oldest_first (id_order : string → string → Z) : QueueEntry → QueueEntry → Z :=
  then_by (asc qe_joinedAt) (λ a b, id_order (qe_id a) (qe_id b)).

Definition candidates (id_order : string → string → Z) (userId : string) (rating tolerance : Z)
    (q : list QueueEntry) : list QueueEntry :=
  sort_by (oldest_first id_order)
    (List.filter (λ e, is_queued e && negb (bool_decide (qe_userId e = userId)) &&
       (rating - 100 * tolerance <=? qe_ratingAtRequest e) && (qe_ratingAtRequest e <=? rating + 100 * tolerance)) q).

Definition own_entry (userId : string) (q : list QueueEntry) : option QueueEntry :=
  List.find (λ e, bool_decide (qe_userId e = userId)) q.

Definition with_queue (db : QueueDb) (q : list QueueEntry) : QueueDb :=
  {| qd_users := qd_users db; qd_ratings := qd_ratings db; qd_queue := q |}.

(** The caller's entry, refreshed or created with the id [newId]. *)
Definition caller_entry (now : Z) (newId userId : string) (rating tolerance : Z) (existing : option QueueEntry)
    (q : list QueueEntry) : QueueEntry * list QueueEntry :=
  match existing with
  | Some e => (refresh_entry rating tolerance e, update_entry (qe_id e) (refresh_entry rating tolerance) q)
  | None =>
      let e := {| qe_id := newId; qe_userId := userId; qe_ratingAtRequest := rating; qe_tolerance := tolerance;
                  qe_status := QUEUED; qe_matchedUserId := None; qe_joinedAt := now; qe_matchedAt := None |} in
      (e, q ++ [e])
  end.

(** The pairing of the caller's entry. *)
Definition pair_up (id_order : string → string → Z) (now : Z) (userId : string) (rating tolerance : Z) (db : QueueDb)
    (entry : QueueEntry) (q : list QueueEntry) : result MatchmakingError (QueueDb * JoinResult) :=
  match List.find (λ c, areRatingsCompatible rating (qe_ratingAtRequest c) tolerance (qe_tolerance c))
          (candidates id_order userId rating tolerance q) with
  | None => Ok (with_queue db q, Queued rating (qe_joinedAt entry))
  | Some opponent =>
      let '(q, ownClaim) := claim_entry (qe_id entry) (qe_userId opponent) now q in
      let '(q, opponentClaim) := claim_entry (qe_id opponent) userId now q in
      throw_if (negb (ownClaim =? 1) || negb (opponentClaim =? 1)) QueueChanged ;;;
      Ok (with_queue db q, Paired rating (qe_userId opponent) (qe_ratingAtRequest opponent) now)
  end.

Definition joinMatchmakingQueue (id_order : string → string → Z) (now : Z) (newId userId : string)
    (requestedTolerance : Z) (db : QueueDb) : result MatchmakingError (QueueDb * JoinResult) :=
  let tolerance := clamp_tolerance requestedTolerance in
  throw_if (negb (default false (map_get userId (qd_users db)))) NoSquad ;;;
  let rating := rating_of (qd_ratings db) userId in
  let existing := own_entry userId (qd_queue db) in
  match existing with
  | Some ({| qe_status := MATCHED |} as e) =>
      Ok (db, AlreadyMatched (qe_ratingAtRequest e) (qe_matchedUserId e) (qe_matchedAt e))
  | _ =>
      let '(entry, q) := caller_entry now newId userId rating tolerance existing (qd_queue db) in
      pair_up id_order now userId rating tolerance db entry q
  end.

(** *** Pairs are mutual *)

(** Unique keys; a matched entry names a user whose entry is matched back. *)
Record queue_inv (q : list QueueEntry) : Prop := {
  qi_ids : NoDup (qe_id <$> q);
  qi_users : NoDup (qe_userId <$> q);
  qi_pairs : ∀ e, e ∈ q → qe_status e = MATCHED →
    ∃ e', e' ∈ q ∧ qe_matchedUserId e = Some (qe_userId e') ∧ qe_status e' = MATCHED ∧
          qe_matchedUserId e' = Some (qe_userId e) ∧ qe_userId e' ≠ qe_userId e
}.

Lemma update_map_keys {K} (g : QueueEntry → K) (f : QueueEntry → QueueEntry) (p : QueueEntry → bool) (q : list QueueEntry) :
  (∀ e, g (f e) = g e) → g <$> ((λ e, if p e then f e else e) <$> q) = g <$> q.
Proof.
  intros Hg. rewrite <- list_fmap_compose. apply list_fmap_ext. intros i e _. cbn. case_match; [apply Hg|done].
Qed.

(** Exactly one row is claimed when the id is there and waiting. *)
Lemma claim_count id opp now q e : NoDup (qe_id <$> q) → e ∈ q → qe_id e = id → is_queued e = true →
  (claim_entry id opp now q).2 = 1.
Proof.
  intros Hnd He <- Hq. cbn. apply list_elem_of_lookup in He as [i Hi].
  rewrite <- (take_drop_middle q i e Hi) in *. rewrite countb_app, countb_cons, bool_decide_eq_true_2, Hq by done.
  rewrite !fmap_app in Hnd. apply NoDup_app in Hnd as (_ & Hd & Hn). cbn in Hn. apply NoDup_cons in Hn as [Hn _].
  rewrite !countb_zero; [done|..].
  - intros a Ha. rewrite bool_decide_eq_false_2; [done|]. intros E. apply Hn, list_elem_of_fmap. by exists a.
  - intros a Ha. rewrite bool_decide_eq_false_2; [done|]. intros E. apply (Hd (qe_id a)).
    + apply list_elem_of_fmap. by exists a.
    + cbn. rewrite E. by left.
Qed.

Lemma own_entry_spec u q : match own_entry u q with
  | Some e => e ∈ q ∧ qe_userId e = u
  | None => ∀ e, e ∈ q → qe_userId e ≠ u
  end.
Proof.
  unfold own_entry. destruct (List.find _ q) as [e|] eqn:E.
  - apply List.find_some in E as [H1 H2]. split; [by apply list_elem_of_In|by apply bool_decide_eq_true_1 in H2].
  - intros e He Hu. pose proof (List.find_none _ _ E e (proj1 (list_elem_of_In _ _) He)) as Hf. cbn in Hf.
    by apply bool_decide_eq_false_1 in Hf.
Qed.

Lemma is_queued_true e : is_queued e = true ↔ qe_status e = QUEUED.
Proof. unfold is_queued. by destruct (qe_status e). Qed.

(** The own entry, refreshed or new, keeps the invariant. *)
Lemma own_entry_inv rating tolerance q e :
  queue_inv q → e ∈ q → qe_status e = QUEUED → queue_inv (update_entry (qe_id e) (refresh_entry rating tolerance) q) ∧
  refresh_entry rating tolerance e ∈ update_entry (qe_id e) (refresh_entry rating tolerance) q.
Proof.
  intros [I U P] He Hq. unfold update_entry. set (f := λ e0, if bool_decide (qe_id e0 = qe_id e) then _ else e0). split.
  - split.
    + unfold f. by rewrite (update_map_keys qe_id (refresh_entry rating tolerance) (λ e0, bool_decide (qe_id e0 = qe_id e))).
    + unfold f. by rewrite (update_map_keys qe_userId (refresh_entry rating tolerance) (λ e0, bool_decide (qe_id e0 = qe_id e))).
    + assert (∀ x, qe_status (f x) = qe_status x ∧ qe_userId (f x) = qe_userId x ∧
                   qe_matchedUserId (f x) = qe_matchedUserId x) as Hf.
      { intros x. unfold f. by case_bool_decide. }
      intros e1 (x & -> & Hx)%list_elem_of_fmap. destruct (Hf x) as (-> & -> & ->). intros Hm.
      destruct (P x Hx Hm) as (y & Hy & E1 & E2 & E3 & E4). exists (f y).
      destruct (Hf y) as (-> & -> & ->). split_and!; try done. apply list_elem_of_fmap. by exists y.
  - apply list_elem_of_fmap. exists e. split; [|done]. unfold f. by rewrite bool_decide_eq_true_2.
Qed.

Lemma new_entry_inv q e :
  queue_inv q → qe_id e ∉ qe_id <$> q → (∀ x, x ∈ q → qe_userId x ≠ qe_userId e) → qe_status e = QUEUED →
  queue_inv (q ++ [e]).
Proof.
  intros [I U P] Hid Hu Hq. split.
  - rewrite fmap_app. apply NoDup_app. split_and!; [done| |apply NoDup_singleton]. set_solver.
  - rewrite fmap_app. apply NoDup_app. split_and!; [done| |apply NoDup_singleton].
    intros u (x & -> & Hx)%list_elem_of_fmap Hin. apply (Hu x Hx). set_solver.
  - intros x [Hx|Hx]%elem_of_app Hm; [|apply list_elem_of_singleton in Hx as ->; congruence].
    destruct (P x Hx Hm) as (y & Hy & E). exists y. split; [apply elem_of_app; by left|done].
Qed.

(** Pairing two waiting entries. *)
Lemma pair_inv q a b now :
  queue_inv q → a ∈ q → b ∈ q → qe_status a = QUEUED → qe_status b = QUEUED → qe_userId a ≠ qe_userId b →
  let q2 := (claim_entry (qe_id a) (qe_userId b) now q).1 in
  let q3 := (claim_entry (qe_id b) (qe_userId a) now q2).1 in
  (claim_entry (qe_id a) (qe_userId b) now q).2 = 1 ∧
  (claim_entry (qe_id b) (qe_userId a) now q2).2 = 1 ∧ queue_inv q3 ∧
  matched_entry (qe_userId b) now a ∈ q3 ∧ matched_entry (qe_userId a) now b ∈ q3.
Proof.
  intros [I U P] Ha Hb Qa Qb Hne q2 q3.
  assert (qe_id a ≠ qe_id b) as Hid.
  { intros E. apply Hne. by rewrite (fmap_unique qe_id q a b I Ha Hb E). }
  set (f := λ e, if bool_decide (qe_id e = qe_id a) && is_queued e then matched_entry (qe_userId b) now e else e).
  set (g := λ e, if bool_decide (qe_id e = qe_id b) && is_queued e then matched_entry (qe_userId a) now e else e).
  assert (q2 = f <$> q) as E2 by done. assert (q3 = g <$> q2) as E3 by done.
  assert (f a = matched_entry (qe_userId b) now a) as Fa.
  { unfold f. by rewrite bool_decide_eq_true_2, (proj2 (is_queued_true a) Qa). }
  assert (f b = b) as Fb by (unfold f; by rewrite bool_decide_eq_false_2).
  assert (g b = matched_entry (qe_userId a) now b) as Gb.
  { unfold g. by rewrite bool_decide_eq_true_2, (proj2 (is_queued_true b) Qb). }
  assert (∀ x, x ∈ q → g (f x) = if bool_decide (qe_id x = qe_id a) then matched_entry (qe_userId b) now a
                     else if bool_decide (qe_id x = qe_id b) then matched_entry (qe_userId a) now b else x) as Hgf.
  { intros x Hx. case_bool_decide as E; [|case_bool_decide as E'].
    - rewrite (fmap_unique qe_id q x a I Hx Ha E), Fa. unfold g. by rewrite bool_decide_eq_false_2.
    - by rewrite (fmap_unique qe_id q x b I Hx Hb E'), Fb.
    - unfold f. rewrite bool_decide_eq_false_2 by done. cbn [andb]. unfold g. by rewrite bool_decide_eq_false_2. }
  assert (∀ x, x ∈ q → g (f x) ∈ q3) as Hin.
  { intros x Hx. rewrite E3, E2. apply list_elem_of_fmap. exists (f x). split; [done|]. apply list_elem_of_fmap. by exists x. }
  assert (matched_entry (qe_userId b) now a ∈ q3) as Ma.
  { pose proof (Hin a Ha) as H. rewrite Hgf, bool_decide_eq_true_2 in H by done. exact H. }
  assert (matched_entry (qe_userId a) now b ∈ q3) as Mb.
  { pose proof (Hin b Hb) as H. rewrite Hgf, bool_decide_eq_false_2, bool_decide_eq_true_2 in H by done. exact H. }
  split_and!; try done.
  - by apply (claim_count _ _ _ _ a I Ha eq_refl), is_queued_true.
  - apply (claim_count _ _ _ _ b); [|rewrite E2; apply list_elem_of_fmap; by exists b|done|by apply is_queued_true].
    rewrite E2. unfold f. by rewrite (update_map_keys qe_id).
  - split.
    + rewrite E3, E2. unfold g, f. by rewrite !(update_map_keys qe_id).
    + rewrite E3, E2. unfold g, f. by rewrite !(update_map_keys qe_userId).
    + rewrite E3, E2. intros e (y & -> & (x & -> & Hx)%list_elem_of_fmap)%list_elem_of_fmap.
      rewrite (Hgf x Hx). case_bool_decide as Ea; [|case_bool_decide as Eb]; intros Hm.
      * exists (matched_entry (qe_userId a) now b). split_and!; try done; by apply not_eq_sym.
      * exists (matched_entry (qe_userId b) now a). by split_and!.
      * destruct (P x Hx Hm) as (y & Hy & E4 & E5 & E6 & E7). exists y. split_and!; try done.
        pose proof (Hin y Hy) as H. rewrite Hgf in H by done.
        rewrite bool_decide_eq_false_2 in H.
        2:{ intros E. rewrite (fmap_unique qe_id q y a I Hy Ha E) in E5. congruence. }
        rewrite bool_decide_eq_false_2 in H; [exact H|].
        intros E. rewrite (fmap_unique qe_id q y b I Hy Hb E) in E5. congruence.
Qed.

Lemma find_sorted {A} (R : A → A → Prop) (p : A → bool) l x :
  StronglySorted R l → List.find p l = Some x → ∀ y, y ∈ l → p y = true → y = x ∨ R x y.
Proof.
  induction 1 as [|a l Hl IH Ha]; cbn; [done|]. destruct (p a) eqn:E.
  - intros [= <-] y [->|Hy]%elem_of_cons _; [by left|]. right. by eapply Forall_forall in Ha.
  - intros Hf y [->|Hy]%elem_of_cons Hp; [congruence|]. by apply IH.
Qed.

(** An opponent the caller could be paired with. *)
Definition waiting_opponent (userId : string) (rating tolerance : Z) (q : list QueueEntry) (c : QueueEntry) : Prop :=
  c ∈ q ∧ qe_status c = QUEUED ∧ qe_userId c ≠ userId ∧
  areRatingsCompatible rating (qe_ratingAtRequest c) tolerance (qe_tolerance c) = true.

Lemma candidate_iff id_order userId rating tolerance q c :
  c ∈ candidates id_order userId rating tolerance q ∧
    areRatingsCompatible rating (qe_ratingAtRequest c) tolerance (qe_tolerance c) = true ↔
  waiting_opponent userId rating tolerance q c.
Proof.
  unfold candidates, waiting_opponent. rewrite elem_of_sort_by, list_elem_of_In, filter_In, <- list_elem_of_In,
    !andb_true_iff, negb_true_iff, bool_decide_eq_false, is_queued_true, !Z.leb_le.
  split; [tauto|]. intros (H1 & H2 & H3 & H4). split_and!; try done; unfold areRatingsCompatible in H4; bool_to_prop; lia.
Qed.

(** The refreshed queue, with the caller's entry, waiting. *)
Lemma queue_with_caller rating tolerance now newId userId q :
  queue_inv q → newId ∉ qe_id <$> q →
  (∀ e, own_entry userId q = Some e → qe_status e = QUEUED) →
  let out := caller_entry now newId userId rating tolerance (own_entry userId q) q in
  queue_inv out.2 ∧ out.1 ∈ out.2 ∧ qe_status out.1 = QUEUED ∧ qe_userId out.1 = userId.
Proof.
  intros Hinv Hnew Hq. pose proof (own_entry_spec userId q) as Hs. destruct (own_entry userId q) as [e|]; cbn zeta.
  - destruct Hs as [He Hu]. destruct (own_entry_inv rating tolerance q e Hinv He (Hq e eq_refl)) as [H1 H2].
    split_and!; [done|done|exact (Hq e eq_refl)|exact Hu].
  - cbn [fst snd]. split_and!; [|apply elem_of_app; right; by left|done|done].
    apply new_entry_inv; [done|exact Hnew|exact Hs|done].
Qed.

Section Pairing.
Context (id_order : string → string → Z) `{!Comparator id_order}.

#[local] Instance oldest_first_comparator : Comparator (oldest_first id_order).
Proof.
  apply then_by_comparator; [apply _|].
  split; [intros a b; apply cmp_sgn|intros a b c; apply cmp_trans].
Qed.

(** The candidate found is the compatible one that waits longest. *)
Lemma opponent_found userId rating tolerance q c :
  List.find (λ c, areRatingsCompatible rating (qe_ratingAtRequest c) tolerance (qe_tolerance c))
    (candidates id_order userId rating tolerance q) = Some c →
  waiting_opponent userId rating tolerance q c ∧
  ∀ d, waiting_opponent userId rating tolerance q d → qe_joinedAt c ≤ qe_joinedAt d.
Proof.
  intros Hf. pose proof (List.find_some _ _ Hf) as [Hc Hr]. rewrite <- list_elem_of_In in Hc.
  split; [by apply (candidate_iff id_order)|].
  intros d [Hd Hdr]%(candidate_iff id_order).
  assert (StronglySorted (λ a b, oldest_first id_order a b ≤ 0) (candidates id_order userId rating tolerance q)) as Hs
    by apply sort_by_sorted, _.
  destruct (find_sorted _ _ _ c Hs Hf d Hd Hdr) as [->|H]; [lia|].
  revert H. unfold oldest_first, then_by, asc. case_match; bool_to_prop; lia.
Qed.

(** Claiming only takes entries out of the waiting ones. *)
Lemma claim_waiting userId rating tolerance id opp now q c :
  waiting_opponent userId rating tolerance (claim_entry id opp now q).1 c → waiting_opponent userId rating tolerance q c.
Proof.
  intros (Hc & Hs & Hu & Hr). cbn in Hc. apply list_elem_of_fmap in Hc as (x & -> & Hx).
  destruct (bool_decide _ && _); [done|]. by split_and!.
Qed.

(** [a] and [b] are matched with each other. *)
Definition mutual (q : list QueueEntry) (a b : QueueEntry) : Prop :=
  a ∈ q ∧ b ∈ q ∧ qe_status a = MATCHED ∧ qe_status b = MATCHED ∧
  qe_matchedUserId a = Some (qe_userId b) ∧ qe_matchedUserId b = Some (qe_userId a).

Definition paired_well (userId : string) (rating tolerance : Z) (db : QueueDb) (r : JoinResult) : Prop :=
  match r with
  | AlreadyMatched _ _ _ => False
  | Queued _ _ => ∀ c, ¬ waiting_opponent userId rating tolerance (qd_queue db) c
  | Paired _ opponent opponentRating _ => opponent ≠ userId ∧
      ∃ a b, mutual (qd_queue db) a b ∧ qe_userId a = userId ∧ qe_userId b = opponent ∧
         qe_ratingAtRequest b = opponentRating ∧
         areRatingsCompatible rating opponentRating tolerance (qe_tolerance b) = true ∧
         ∀ c, waiting_opponent userId rating tolerance (qd_queue db) c → qe_joinedAt b ≤ qe_joinedAt c
  end.

Lemma pair_step now userId rating tolerance db entry q :
  queue_inv q → entry ∈ q → qe_status entry = QUEUED → qe_userId entry = userId →
  ∃ db' r, pair_up id_order now userId rating tolerance db entry q = Ok (db', r) ∧
    queue_inv (qd_queue db') ∧ paired_well userId rating tolerance db' r.
Proof.
  intros Hq Hin Hst Hu. unfold pair_up. destruct (List.find _ _) as [c|] eqn:Ef.
  - destruct (opponent_found _ _ _ _ _ Ef) as [(Hc & Hcs & Hcu & Hr) Hold].
    destruct (pair_inv q entry c now Hq Hin Hc Hst Hcs) as (E1 & E2 & Hinv & Ma & Mb); [congruence|].
    rewrite Hu in *.
    destruct (claim_entry (qe_id entry) (qe_userId c) now q) as [q2 n1] eqn:C1. cbn [fst snd] in *.
    destruct (claim_entry (qe_id c) userId now q2) as [q3 n2] eqn:C2. cbn [fst snd] in *. subst n1 n2.
    eexists _, _. split; [reflexivity|]. split; [done|]. split; [done|].
    exists (matched_entry (qe_userId c) now entry), (matched_entry userId now c). unfold mutual. cbn. rewrite Hu.
    split_and!; try done. intros d Hd. apply Hold, (claim_waiting _ _ _ (qe_id entry) (qe_userId c) now).
    rewrite C1. cbn [fst]. apply (claim_waiting _ _ _ (qe_id c) userId now). by rewrite C2.
  - eexists _, _. split; [reflexivity|]. split; [done|].
    intros d [Hd Hr]%(candidate_iff id_order). apply list_elem_of_In in Hd.
    pose proof (List.find_none _ _ Ef d Hd) as Hn. cbn in Hn. congruence.
Qed.

(** What the queue promises: a request with a squad never fails; pairs are always
    mutual, of two different users; a request is paired exactly when someone
    within both tolerances is waiting, and then with the one who has waited
    longest. *)
Theorem matchmaking_pairs now newId userId requested db :
  queue_inv (qd_queue db) → newId ∉ qe_id <$> qd_queue db →
  let rating := rating_of (qd_ratings db) userId in
  let tolerance := clamp_tolerance requested in
  match joinMatchmakingQueue id_order now newId userId requested db with
  | Err e => e = NoSquad ∧ default false (map_get userId (qd_users db)) = false
  | Ok (db', r) => queue_inv (qd_queue db') ∧
      ((db' = db ∧ ∃ e, e ∈ qd_queue db ∧ qe_userId e = userId ∧ qe_status e = MATCHED ∧
          r = AlreadyMatched (qe_ratingAtRequest e) (qe_matchedUserId e) (qe_matchedAt e)) ∨
       paired_well userId rating tolerance db' r)
  end.
Proof.
  intros Hinv Hnew rating tolerance. unfold joinMatchmakingQueue. fold rating tolerance.
  destruct (default false (map_get userId (qd_users db))); cbn [negb throw_if rbind]; [|done].
  pose proof (own_entry_spec userId (qd_queue db)) as Hs.
  destruct (own_entry userId (qd_queue db)) as [[i u rr tt [] m j ma]|] eqn:Ee.
  2:{ split; [done|]. left. split; [done|]. eexists. split_and!; [apply Hs..|done|done]. }
  all: destruct (queue_with_caller rating tolerance now newId userId (qd_queue db) Hinv Hnew) as (Hq & Hin & Hst & Hu);
    [rewrite Ee; by intros e [= <-]|]; rewrite Ee in Hq, Hin, Hst, Hu.
  all: destruct (caller_entry now newId userId rating tolerance _ (qd_queue db)) as [entry q]; cbn [fst snd] in *.
  all: destruct (pair_step now userId rating tolerance db entry q Hq Hin Hst Hu) as (db' & r & -> & H1 & H2).
  all: split; [done|by right].
Qed.

End Pairing.

(** ** Sample runs *)

Module Sample.
#[local] Open Scope string_scope.

Definition fixture (home away : string) (hs as_ : Z) : RatedFixture :=
  {| rf_gameweekId := 3; rf_isFinished := true; rf_headToHead := true; rf_home := home; rf_away := Some away;
     rf_homeScore := Some hs; rf_awayScore := Some as_ |}.

Definition played : RatingDb :=
  {| rd_fixtures := [fixture "ann" "bob" 61 48; fixture "cyd" "dan" 50 50; fixture "ann" "ann" 61 61];
     rd_ratings := [("bob", {| mr_rating := 131250; mr_gamesPlayed := 14; mr_volatility := 1210 |})];
     rd_history := [] |}.

Definition rated : RatingDb := (updateMatchRatings 3 played).1.

Lemma rated_run : updateMatchRatings 3 played = (rated, 4%Z).
Proof. apply injective_projections; [reflexivity|vm_compute; reflexivity]. Qed.

Definition waiting_entry (id user : string) (rating tolerance joined : Z) : QueueEntry :=
  {| qe_id := id; qe_userId := user; qe_ratingAtRequest := rating; qe_tolerance := tolerance; qe_status := QUEUED;
     qe_matchedUserId := None; qe_joinedAt := joined; qe_matchedAt := None |}.

(** [cyd] waits longest but accepts only opponents within 100 points. *)
Definition waiting : QueueDb :=
  {| qd_users := [("ann", true); ("bob", true); ("cyd", true); ("eve", false)];
     qd_ratings := [("ann", {| mr_rating := 135000; mr_gamesPlayed := 14; mr_volatility := 1210 |})];
     qd_queue := [waiting_entry "e1" "bob" 118000 200 20; waiting_entry "e2" "cyd" 121000 100 10] |}.

Lemma waiting_inv : queue_inv (qd_queue waiting).
Proof.
  split; [apply (bool_decide_unpack _); vm_compute; exact I..|].
  intros e He Hm. repeat (apply elem_of_cons in He as [->|He]; [done|]). by apply elem_of_nil in He.
Qed.

End Sample.

Lemma ratings_zero_sum_witness :
  ∃ us rows, NoDup us ∧ 4 = Z.of_nat (length us) ∧ rd_history Sample.rated = rd_history Sample.played ++ rows ∧
    Forall2 (λ u h, mh_userId h = u ∧ mh_gameweekId h = 3 ∧
      mh_ratingBefore h = rating_of (rd_ratings Sample.played) u ∧
      mh_ratingAfter h = rating_of (rd_ratings Sample.rated) u) us rows ∧
    (Rabs (IZR (sum_of (λ h, mh_ratingAfter h - mh_ratingBefore h)%Z rows)) <= IZR 4 / 2)%R ∧
    (∀ u, u ∉ us → map_get u (rd_ratings Sample.rated) = map_get u (rd_ratings Sample.played)) ∧
    updateMatchRatings 3 Sample.rated = (Sample.rated, 0).
Proof. exact (ratings_zero_sum 3 Sample.played Sample.rated 4 Sample.rated_run ltac:(done)). Defined.

Lemma matchmaking_pairs_witness :
  ∃ db', joinMatchmakingQueue (asc (λ s, Z.of_nat (String.length s))) 30 "e3" "ann" 200 Sample.waiting =
           Ok (db', Paired 135000 "bob" 118000 30) ∧ queue_inv (qd_queue db') ∧
    paired_well "ann" 135000 200 db' (Paired 135000 "bob" 118000 30).
Proof.
  pose proof (matchmaking_pairs (asc (λ s, Z.of_nat (String.length s))) 30 "e3" "ann" 200 Sample.waiting
    Sample.waiting_inv ltac:(apply (bool_decide_unpack _); vm_compute; exact I)) as H.
  cbn zeta in H.
  assert (∃ db', joinMatchmakingQueue (asc (λ s, Z.of_nat (String.length s))) 30 "e3" "ann" 200 Sample.waiting =
           Ok (db', Paired 135000 "bob" 118000 30)) as [db' E] by (eexists; vm_compute; reflexivity).
  rewrite E in H. destruct H as [Hq [[_ (e & _ & _ & _ & [=])]|Hp]]. by exists db'.
Defined.

(** A request of a user who is matched already changes nothing: the entry is
    never released, so the user keeps the first opponent for good. *)
Lemma matched_for_good id_order now newId userId requested db e :
  default false (map_get userId (qd_users db)) = true → own_entry userId (qd_queue db) = Some e →
  qe_status e = MATCHED →
  joinMatchmakingQueue id_order now newId userId requested db =
    Ok (db, AlreadyMatched (qe_ratingAtRequest e) (qe_matchedUserId e) (qe_matchedAt e)).
Proof.
  intros Hs He Hm. unfold joinMatchmakingQueue. rewrite Hs, He. cbn. destruct e as [i u r t [] m j a]; [done|reflexivity].
Qed.
