(* ===== verification/RefreshTokens.v ===== *)
(** * Refresh tokens: [backend/src/services/auth/refreshTokenService.ts]

    Issuing, rotating and revoking the tokens a client renews its access with.
    A rotation is a sequence of awaits that other calls interleave with: a step
    relation over the clock, the committed table and the calls in progress.  The
    database runs at its default isolation, READ COMMITTED: the two statements of
    a rotation's transaction are two steps, the row claimed by the first is locked
    and its change invisible until the second commits, and the update that revokes
    a family sees the rows committed when it started, waits for those of them that
    are locked, and changes no others.  Only hashes are stored; the hash function
    is a parameter, and so are the random values a call draws.  The flag of a
    revocation, [tw_dead] and the log record what happened and decide nothing. *)

From S2P Require Import Prelude.

#[local] Open Scope Z_scope.

(** ** The table *)

Record RefreshToken : Type := {
  rt_id : string;
  rt_familyId : string;
  rt_userId : string;
  rt_tokenHash : string;
  rt_expiresAt : Z;
  rt_revokedAt : option Z
}.

(** The three messages of [RefreshTokenUnauthorizedError]. *)
Inductive RotateError : Type := TokenInvalid | TokenExpired | TokenReused.

Definition DEFAULT_TTL_SECONDS : Z := 30 * 24 * 60 * 60.

Definition refresh_ttl (configured : jsnum) : Z :=
  match as_integer configured with
  | Some c => if (c <=? MAX_SAFE_INTEGER) && (0 <? c) then c else DEFAULT_TTL_SECONDS
  | None => DEFAULT_TTL_SECONDS
  end.

Definition is_live (r : RefreshToken) : bool := match rt_revokedAt r with None => true | Some _ => false end.

Definition revoke_row (now : Z) (r : RefreshToken) : RefreshToken :=
  {| rt_id := rt_id r; rt_familyId := rt_familyId r; rt_userId := rt_userId r; rt_tokenHash := rt_tokenHash r;
     rt_expiresAt := rt_expiresAt r; rt_revokedAt := Some now |}.

(** [findUnique({ where: { tokenHash } })]. *)
Definition find_token (h : string) (rows : list RefreshToken) : option RefreshToken :=
  List.find (λ r, bool_decide (rt_tokenHash r = h)) rows.

(** [updateMany({ where, data: { revokedAt } })] with its count. *)
Definition revoke_where (p : RefreshToken → bool) (now : Z) (rows : list RefreshToken) : list RefreshToken * Z :=
  ((λ r, if p r then revoke_row now r else r) <$> rows, countb p rows).

(** [create]: the unique columns are the id and the hash. *)
Definition create_token (r : RefreshToken) (rows : list RefreshToken) : option (list RefreshToken) :=
  if existsb (λ x, bool_decide (rt_id x = rt_id r) || bool_decide (rt_tokenHash x = rt_tokenHash r)) rows then None
  else Some (rows ++ [r]).

(** ** Rotation *)

(** The calls in progress, between two awaits.  [RotateCreate] holds the lock on
    the row it claimed; [Revoking] has started its update, having [seen] some
    rows, for a rotation (with the expiry of the token, if it was found revoked)
    or for a logout; [raced] says whether a rotation of the family has committed
    since. *)
Inductive TokenCall : Type :=
| RotateRead (raw : string)
| RotateClaim (raw : string) (current : RefreshToken) (now : Z)
| RotateCreate (raw : string) (current : RefreshToken) (now : Z)
| RotateRevoke (raw familyId : string) (expiresAt : option Z)
| LogoutRead (raw : string)
| LogoutRevoke (raw familyId : string)
| Revoking (raw familyId : string) (rotation : option (option Z)) (seen : list string) (raced : bool).

(** [raced] as in the call; [LoggedOut] of a token that is not stored has none. *)
Inductive TokenEvent : Type :=
| Issued (raw : string)
| Exchanged (raw next : string)
| Rejected (raw : string) (e : RotateError)
| RejectedAndRevoked (raw : string) (e : RotateError) (raced : bool)
| LoggedOut (raw : string) (raced : option bool)
| Crashed (raw : string).

(** Either the call goes on or it ends. *)
Definition progress : Type := TokenCall + TokenEvent.

Section tokens.
Context (hash : string → string) (ttl : Z).

(** [rotate] up to its first write; the checks of the argument come first. *)
Definition rotate_read (now : Z) (raw : string) (rows : list RefreshToken) : progress :=
  if Z.of_nat (String.length raw) <? 32 then inr (Rejected raw TokenInvalid) else
  match find_token (hash raw) rows with
  | None => inr (Rejected raw TokenInvalid)
  | Some current =>
      if negb (is_live current) then inl (RotateRevoke raw (rt_familyId current) (Some (rt_expiresAt current)))
      else if rt_expiresAt current <=? now then inr (Rejected raw TokenExpired)
      else inl (RotateClaim raw current now)
  end.

(** The message after the family was revoked: a token that was found revoked may
    have expired as well; a lost claim is a reuse. *)
Definition revoke_message (now : Z) (expiresAt : option Z) : RotateError :=
  match expiresAt with Some t => if t <=? now then TokenExpired else TokenReused | None => TokenReused end.

Definition claimable (current : RefreshToken) (now : Z) (r : RefreshToken) : bool :=
  bool_decide (rt_id r = rt_id current) && is_live r && (now <? rt_expiresAt r).

(** The transaction of a rotation: the first statement claims the token read, *)
Definition rotate_claim (raw : string) (current : RefreshToken) (now : Z) (rows : list RefreshToken) : progress :=
  if negb ((revoke_where (claimable current now) now rows).2 =? 1)
  then inl (RotateRevoke raw (rt_familyId current) None)
  else inl (RotateCreate raw current now).

(** and the second creates the next one; the commit shows both. *)
Definition rotate_create (raw : string) (current : RefreshToken) (now : Z) (id next : string)
    (rows : list RefreshToken) : list RefreshToken * TokenEvent :=
  match create_token {| rt_id := id; rt_familyId := rt_familyId current; rt_userId := rt_userId current;
                        rt_tokenHash := hash next; rt_expiresAt := now + ttl * 1000; rt_revokedAt := None |}
                     (revoke_where (claimable current now) now rows).1 with
  | Some rows' => (rows', Exchanged raw next)
  | None => (rows, Crashed raw)
  end.

(** [revokeFamily]: the rows its update sees when it starts, *)
Definition family_live (familyId : string) (r : RefreshToken) : bool :=
  bool_decide (rt_familyId r = familyId) && is_live r.

Definition revoke_start (raw familyId : string) (rotation : option (option Z)) (rows : list RefreshToken) : progress :=
  inl (Revoking raw familyId rotation (rt_id <$> List.filter (family_live familyId) rows) false).

(** those of them it changes, once none is locked: the condition is evaluated again, *)
Definition revokeFamily (familyId : string) (seen : list string) (now : Z) (rows : list RefreshToken) : list RefreshToken :=
  (revoke_where (λ r, bool_decide (rt_id r ∈ seen) && family_live familyId r) now rows).1.

(** and the answer. *)
Definition revoke_answer (raw : string) (rotation : option (option Z)) (raced : bool) (now : Z) : TokenEvent :=
  match rotation with
  | Some expiresAt => RejectedAndRevoked raw (revoke_message now expiresAt) raced
  | None => LoggedOut raw (Some raced)
  end.

Definition logout_read (raw : string) (rows : list RefreshToken) : progress :=
  match find_token (hash raw) rows with
  | Some found => inl (LogoutRevoke raw (rt_familyId found))
  | None => inr (LoggedOut raw None)
  end.

Definition issue (now : Z) (id familyId userId raw : string) (rows : list RefreshToken) :
    list RefreshToken * TokenEvent :=
  match create_token {| rt_id := id; rt_familyId := familyId; rt_userId := userId; rt_tokenHash := hash raw;
                        rt_expiresAt := now + ttl * 1000; rt_revokedAt := None |} rows with
  | Some rows' => (rows', Issued raw)
  | None => (rows, Crashed raw)
  end.

(** ** Interleavings *)

Record TokenWorld : Type := {
  tw_now : Z;
  tw_rows : list RefreshToken;
  tw_calls : gmap nat TokenCall;
  tw_dead : list string;
  tw_log : list TokenEvent
}.

Definition families (rows : list RefreshToken) : list string := rt_familyId <$> rows.

(** Call [rid] goes on with [p]. *)
Definition resume (rid : nat) (p : progress) (rows : list RefreshToken) (dead : list string) (w : TokenWorld) : TokenWorld :=
  {| tw_now := tw_now w; tw_rows := rows; tw_dead := dead ++ tw_dead w;
     tw_calls := match p with inl c => <[rid := c]> (tw_calls w) | inr _ => delete rid (tw_calls w) end;
     tw_log := match p with inl _ => tw_log w | inr e => tw_log w ++ [e] end |}.

Definition with_call (rid : nat) (c : TokenCall) (w : TokenWorld) : TokenWorld :=
  {| tw_now := tw_now w; tw_rows := tw_rows w; tw_dead := tw_dead w; tw_calls := <[rid := c]> (tw_calls w);
     tw_log := tw_log w |}.

Definition raw_of (c : TokenCall) : string :=
  match c with
  | RotateRead raw | RotateClaim raw _ _ | RotateCreate raw _ _ | RotateRevoke raw _ _ | LogoutRead raw
  | LogoutRevoke raw _ | Revoking raw _ _ _ _ => raw
  end.

(** A row claimed by a transaction that is still open. *)
Definition locked (w : TokenWorld) (id : string) : Prop :=
  ∃ rid raw current now, tw_calls w !! rid = Some (RotateCreate raw current now) ∧ rt_id current = id.

(** The revocations of the family that a commit overtakes. *)
Definition overtaken (familyId : string) (c : TokenCall) : TokenCall :=
  match c with
  | Revoking raw f rotation seen raced => Revoking raw f rotation seen (raced || bool_decide (f = familyId))
  | _ => c
  end.

(** The world after a transaction of the family committed with call [rid], which answers [e]. *)
Definition committed (rid : nat) (e : TokenEvent) (familyId : string) (rows : list RefreshToken) (w : TokenWorld) : TokenWorld :=
  {| tw_now := tw_now w; tw_rows := rows; tw_calls := overtaken familyId <$> delete rid (tw_calls w);
     tw_dead := tw_dead w; tw_log := tw_log w ++ [e] |}.

(** A login draws a new family; everything else is the code's choice. *)
Inductive token_step : TokenWorld → TokenWorld → Prop :=
| tk_tick w d : 0 ≤ d →
    token_step w {| tw_now := tw_now w + d; tw_rows := tw_rows w; tw_dead := tw_dead w; tw_calls := tw_calls w;
                    tw_log := tw_log w |}
| tk_issue w id familyId userId raw : familyId ∉ families (tw_rows w) →
    token_step w {| tw_now := tw_now w; tw_rows := (issue (tw_now w) id familyId userId raw (tw_rows w)).1;
                    tw_dead := tw_dead w; tw_calls := tw_calls w;
                    tw_log := tw_log w ++ [(issue (tw_now w) id familyId userId raw (tw_rows w)).2] |}
| tk_rotate w rid raw : tw_calls w !! rid = None → token_step w (with_call rid (RotateRead raw) w)
| tk_logout w rid raw : tw_calls w !! rid = None → token_step w (with_call rid (LogoutRead raw) w)
| tk_read w rid raw : tw_calls w !! rid = Some (RotateRead raw) →
    token_step w (resume rid (rotate_read (tw_now w) raw (tw_rows w)) (tw_rows w) [] w)
| tk_claim w rid raw current now : tw_calls w !! rid = Some (RotateClaim raw current now) → ¬ locked w (rt_id current) →
    token_step w (resume rid (rotate_claim raw current now (tw_rows w)) (tw_rows w) [] w)
| tk_create w rid raw current now id next : tw_calls w !! rid = Some (RotateCreate raw current now) →
    let done := rotate_create raw current now id next (tw_rows w) in
    token_step w (committed rid done.2 (rt_familyId current) done.1 w)
| tk_logout_read w rid raw : tw_calls w !! rid = Some (LogoutRead raw) →
    token_step w (resume rid (logout_read raw (tw_rows w)) (tw_rows w) [] w)
| tk_revoke_start w rid raw familyId x : tw_calls w !! rid = Some (RotateRevoke raw familyId x) →
    token_step w (resume rid (revoke_start raw familyId (Some x) (tw_rows w)) (tw_rows w) [] w)
| tk_logout_start w rid raw familyId : tw_calls w !! rid = Some (LogoutRevoke raw familyId) →
    token_step w (resume rid (revoke_start raw familyId None (tw_rows w)) (tw_rows w) [] w)
| tk_revoke w rid raw familyId rotation seen raced :
    tw_calls w !! rid = Some (Revoking raw familyId rotation seen raced) → (∀ id, id ∈ seen → ¬ locked w id) →
    token_step w (resume rid (inr (revoke_answer raw rotation raced (tw_now w)))
      (revokeFamily familyId seen (tw_now w) (tw_rows w)) (if raced then [] else [familyId]) w)
(** A failing database ends the call, with its statement or transaction committed or not. *)
| tk_crash w rid c : tw_calls w !! rid = Some c →
    token_step w (resume rid (inr (Crashed (raw_of c))) (tw_rows w) [] w)
| tk_create_lost w rid raw current now id next : tw_calls w !! rid = Some (RotateCreate raw current now) →
    token_step w (committed rid (Crashed raw) (rt_familyId current) (rotate_create raw current now id next (tw_rows w)).1 w)
| tk_revoke_lost w rid raw familyId rotation seen raced :
    tw_calls w !! rid = Some (Revoking raw familyId rotation seen raced) → (∀ id, id ∈ seen → ¬ locked w id) →
    token_step w (resume rid (inr (Crashed raw)) (revokeFamily familyId seen (tw_now w) (tw_rows w)) [] w).

Definition no_tokens (now : Z) : TokenWorld :=
  {| tw_now := now; tw_rows := []; tw_calls := ∅; tw_dead := []; tw_log := [] |}.

(** ** What the table keeps *)

(** The columns that never change. *)
Definition same_row (r r' : RefreshToken) : Prop :=
  rt_id r' = rt_id r ∧ rt_familyId r' = rt_familyId r ∧ rt_tokenHash r' = rt_tokenHash r ∧
  (is_live r = false → is_live r' = false).

(** Rows are kept and stay revoked. *)
Definition evolves (rows rows' : list RefreshToken) : Prop :=
  ∀ r, r ∈ rows → ∃ r', r' ∈ rows' ∧ same_row r r'.

#[global] Instance evolves_refl : Reflexive evolves.
Proof. intros rows r Hr. by exists r. Qed.

#[global] Instance evolves_trans : Transitive evolves.
Proof.
  intros a b c H1 H2 r Hr. destruct (H1 r Hr) as (r' & Hr' & A1 & A2 & A3 & A4).
  destruct (H2 r' Hr') as (r'' & Hr'' & B1 & B2 & B3 & B4). exists r''. split; [done|].
  split_and!; try congruence. auto.
Qed.

Lemma same_row_revoke (p : RefreshToken → bool) now r : same_row r (if p r then revoke_row now r else r).
Proof. by destruct (p r). Qed.

Lemma revoke_where_evolves p now rows : evolves rows (revoke_where p now rows).1.
Proof.
  intros r Hr. exists (if p r then revoke_row now r else r). split; [|apply same_row_revoke].
  apply list_elem_of_fmap. by exists r.
Qed.

Lemma create_token_rows r rows rows' : create_token r rows = Some rows' →
  rows' = rows ++ [r] ∧ rt_id r ∉ rt_id <$> rows ∧ rt_tokenHash r ∉ rt_tokenHash <$> rows.
Proof.
  unfold create_token. destruct (existsb _ rows) eqn:E; [done|]. intros [= <-].
  assert (∀ x, x ∈ rows → rt_id x ≠ rt_id r ∧ rt_tokenHash x ≠ rt_tokenHash r) as H.
  { intros x Hx. split; intros Hc; enough (existsb (λ x, bool_decide (rt_id x = rt_id r) ||
      bool_decide (rt_tokenHash x = rt_tokenHash r)) rows = true) by congruence.
    all: apply existsb_exists; exists x; split; [by apply list_elem_of_In|].
    all: apply orb_true_iff. 1: left. 2: right. all: by apply bool_decide_eq_true. }
  split_and!; [done|..]; intros (x & Hx & Hin)%list_elem_of_fmap; by destruct (H x Hin).
Qed.

(** At most one token of a family is live. *)
Record table_inv (rows : list RefreshToken) : Prop := {
  tb_ids : NoDup (rt_id <$> rows);
  tb_hashes : NoDup (rt_tokenHash <$> rows);
  tb_live : ∀ r r', r ∈ rows → r' ∈ rows → is_live r = true → is_live r' = true →
    rt_familyId r = rt_familyId r' → r = r'
}.

Lemma revoke_row_live (p : RefreshToken → bool) now r : is_live (if p r then revoke_row now r else r) = true →
  p r = false ∧ (if p r then revoke_row now r else r) = r ∧ is_live r = true.
Proof. destruct (p r); [done|]. intros Hl; by split_and!. Qed.

Lemma revoke_where_inv p now rows : table_inv rows → table_inv (revoke_where p now rows).1.
Proof.
  intros [I Hh L]. assert (∀ {K} (g : RefreshToken → K), (∀ r, g (revoke_row now r) = g r) →
    g <$> (revoke_where p now rows).1 = g <$> rows) as Hg.
  { intros K g E. cbn. rewrite <- list_fmap_compose. apply list_fmap_ext. intros i r _. cbn. by destruct (p r). }
  split; [by rewrite Hg|by rewrite Hg|].
  intros r r' (x & -> & Hx)%list_elem_of_fmap (y & -> & Hy)%list_elem_of_fmap.
  intros (E1 & -> & L1)%revoke_row_live (E2 & -> & L2)%revoke_row_live. by apply L.
Qed.

Lemma create_token_inv r rows : table_inv rows → rt_id r ∉ rt_id <$> rows → rt_tokenHash r ∉ rt_tokenHash <$> rows →
  (∀ x, x ∈ rows → rt_familyId x = rt_familyId r → is_live x = false) → table_inv (rows ++ [r]).
Proof.
  intros [I Hh L] Hi Ht Hf. split.
  - rewrite fmap_app. apply NoDup_app. split_and!; [done|set_solver|apply NoDup_singleton].
  - rewrite fmap_app. apply NoDup_app. split_and!; [done|set_solver|apply NoDup_singleton].
  - intros x y [Hx|Hx]%elem_of_app [Hy|Hy]%elem_of_app Lx Ly E;
      try apply list_elem_of_singleton in Hx; try apply list_elem_of_singleton in Hy; subst; [by apply L|..|done].
    + rewrite (Hf x Hx E) in Lx. done.
    + rewrite (Hf y Hy (eq_sym E)) in Ly. done.
Qed.

Lemma evolves_app rows r : evolves rows (rows ++ [r]).
Proof. intros x Hx. exists x. split; [apply elem_of_app; by left|done]. Qed.

(** A token of the table, whatever its state. *)
Definition stored_as (rows : list RefreshToken) (h familyId : string) : Prop :=
  ∃ r, r ∈ rows ∧ rt_tokenHash r = h ∧ rt_familyId r = familyId.

Definition all_revoked (rows : list RefreshToken) (familyId : string) : Prop :=
  ∀ r, r ∈ rows → rt_familyId r = familyId → is_live r = false.

Lemma stored_evolves rows rows' h f : evolves rows rows' → stored_as rows h f → stored_as rows' h f.
Proof. intros Hev (r & Hr & <- & <-). destruct (Hev r Hr) as (r' & Hr' & H1 & H2 & H3 & _). by exists r'. Qed.

(** What a call remembers is still true of the table. *)
Definition call_ok (rows : list RefreshToken) (c : TokenCall) : Prop :=
  match c with
  | RotateClaim raw current _ => (∃ r, r ∈ rows ∧ same_row current r) ∧ rt_tokenHash current = hash raw
  | RotateCreate raw current now =>
      (∃ r, r ∈ rows ∧ same_row current r ∧ claimable current now r = true) ∧ rt_tokenHash current = hash raw
  | RotateRevoke raw f _ | LogoutRevoke raw f => stored_as rows (hash raw) f
  | Revoking raw f _ seen raced =>
      stored_as rows (hash raw) f ∧ (raced = false → ∀ r, r ∈ rows → family_live f r = true → rt_id r ∈ seen)
  | _ => True
  end.

(** How the tables of two moments relate: a family is never live again. *)
Definition table_step (rows rows' : list RefreshToken) : Prop :=
  table_inv rows' ∧ evolves rows rows' ∧
  ∀ f, f ∈ families rows → all_revoked rows f → all_revoked rows' f.

Lemma revoke_where_step p now rows : table_inv rows → table_step rows (revoke_where p now rows).1.
Proof.
  intros Hi. split_and!; [by apply revoke_where_inv|apply revoke_where_evolves|].
  intros f _ Hall r (x & -> & Hx)%list_elem_of_fmap Hf. destruct (p x); [done|]. by apply Hall.
Qed.

Lemma issue_step now id f u raw rows : table_inv rows → f ∉ families rows → table_step rows (issue now id f u raw rows).1.
Proof.
  intros Hi Hf. unfold issue. destruct (create_token _ rows) as [rows'|] eqn:E; [|by split_and!].
  apply create_token_rows in E as (-> & H1 & H2). cbn [fst]. split_and!; [|apply evolves_app|].
  - apply create_token_inv; [done..|]. cbn. intros x Hx <-. destruct Hf. apply list_elem_of_fmap. by exists x.
  - intros g Hg Hall x [Hx|Hx]%elem_of_app E; [by apply Hall|]. apply list_elem_of_singleton in Hx as ->. by subst g.
Qed.

(** The claim leaves a claimable row of the table locked, or finds the token used. *)
Lemma rotate_claim_cases raw current now rows : table_inv rows → (∃ r, r ∈ rows ∧ same_row current r) →
  rotate_claim raw current now rows = inl (RotateRevoke raw (rt_familyId current) None) ∨
  rotate_claim raw current now rows = inl (RotateCreate raw current now) ∧
  ∃ r, r ∈ rows ∧ same_row current r ∧ claimable current now r = true.
Proof.
  intros Hi (x & Hx & A). unfold rotate_claim. cbn [revoke_where snd].
  destruct (Z.eqb_spec (countb (claimable current now) rows) 1) as [E|]; [right|by left]. split; [done|].
  assert (0 < countb (claimable current now) rows) as (r & Hr & Hcl)%countb_elem by lia.
  assert (r = x) as ->; [|by exists x]. apply (fmap_unique rt_id rows); [apply Hi|done..|]. destruct A as (A & _).
  unfold claimable in Hcl. apply andb_true_iff in Hcl as [[Ei%bool_decide_eq_true _]%andb_true_iff _]. congruence.
Qed.

(** What a step may do to the rows seen by the calls in progress: rows with a
    protected id stay as they are, and new live rows are of the given families. *)
Record kept (K F : string → Prop) (rows rows' : list RefreshToken) : Prop := {
  kp_evolves : evolves rows rows';
  kp_same : ∀ r, r ∈ rows → K (rt_id r) → r ∈ rows';
  kp_live : ∀ r, r ∈ rows' → is_live r = true → r ∈ rows ∨ F (rt_familyId r)
}.

Lemma revoke_where_kept p now rows : kept (λ id, ∀ r, rt_id r = id → p r = false) (λ _, False) rows (revoke_where p now rows).1.
Proof.
  split; [apply revoke_where_evolves| |].
  - intros r Hr Hp. apply list_elem_of_fmap. exists r. split; [|done]. by rewrite Hp.
  - intros r (x & -> & Hx)%list_elem_of_fmap (_ & -> & _)%revoke_row_live. by left.
Qed.

Lemma issue_kept now id f u raw rows : kept (λ _, True) (λ g, g = f) rows (issue now id f u raw rows).1.
Proof.
  unfold issue. destruct (create_token _ rows) as [rows'|] eqn:E; cbn [fst]; [|by split; [done|by intros|by left]].
  apply create_token_rows in E as (-> & _). split; [apply evolves_app| |].
  - intros r Hr _. apply elem_of_app. by left.
  - intros r [Hr|Hr]%elem_of_app _; [by left|right]. by apply list_elem_of_singleton in Hr as ->.
Qed.

(** The commit of a rotation. *)
Lemma rotate_create_cases raw current now id next rows : table_inv rows →
  (∃ r, r ∈ rows ∧ same_row current r ∧ claimable current now r = true) →
  let rows' := (rotate_create raw current now id next rows).1 in
  let e := (rotate_create raw current now id next rows).2 in
  table_step rows rows' ∧ kept (λ id, id ≠ rt_id current) (λ f, f = rt_familyId current) rows rows' ∧
  ((e = Crashed raw ∧ rows' = rows) ∨
   (e = Exchanged raw next ∧
    (∃ r, r ∈ rows ∧ rt_tokenHash r = rt_tokenHash current ∧ is_live r = true) ∧
    (∃ r, r ∈ rows' ∧ rt_tokenHash r = rt_tokenHash current ∧ is_live r = false))).
Proof.
  intros Hi (x & Hx & (A1 & A2 & A3 & _) & Hcl). cbn zeta. unfold rotate_create.
  set (p := claimable current now) in *. set (new := {| rt_id := id |}).
  pose proof Hcl as Hcl'. apply andb_true_iff in Hcl' as [[_ L]%andb_true_iff _].
  assert (kept (λ id, id ≠ rt_id current) (λ f, f = rt_familyId current) rows (revoke_where p now rows).1) as [K1 K2 K3].
  { destruct (revoke_where_kept p now rows) as [K1 K2 K3]. split; [done| |].
    - intros r Hr Hne. apply K2; [done|]. intros y Ey. unfold p, claimable. by rewrite bool_decide_eq_false_2 by congruence.
    - intros r Hr Lr. by destruct (K3 r Hr Lr) as [|[]]; left. }
  destruct (create_token new (revoke_where p now rows).1) as [rows'|] eqn:Ec; cbn [fst snd].
  2:{ split_and!; [by split_and!|by split; [done|by intros|by left]|by left]. }
  apply create_token_rows in Ec as (-> & H1 & H2).
  assert (all_revoked (revoke_where p now rows).1 (rt_familyId current)) as Hall.
  { intros y (z & -> & Hz)%list_elem_of_fmap Hf. destruct (is_live (if p z then revoke_row now z else z)) eqn:Ly; [|done].
    apply revoke_row_live in Ly as (Hp & Ey & Lz). rewrite Ey in Hf.
    rewrite (tb_live rows Hi z x Hz Hx Lz L) in Hp by congruence. congruence. }
  split_and!; [split_and!| |right; split_and!; [done| |]].
  - by apply create_token_inv; [apply revoke_where_inv|..].
  - transitivity ((revoke_where p now rows).1); [done|apply evolves_app].
  - intros f Hf Hd y [Hy|Hy]%elem_of_app Ey.
    + destruct (revoke_where_step p now rows Hi) as (_ & _ & Hdead). by apply (Hdead f Hf Hd y Hy).
    + apply list_elem_of_singleton in Hy as ->. cbn in Ey. subst f. rewrite (Hd x Hx A2) in L. done.
  - split.
    + transitivity ((revoke_where p now rows).1); [done|apply evolves_app].
    + intros r Hr Hne. apply elem_of_app. left. by apply K2.
    + intros r [Hr|Hr]%elem_of_app Lr; [by apply K3|]. right. by apply list_elem_of_singleton in Hr as ->.
  - exists x. by split_and!.
  - exists (revoke_row now x). split_and!; [|done|done]. apply elem_of_app. left.
    apply list_elem_of_fmap. exists x. by rewrite Hcl.
Qed.

Lemma find_token_spec h rows r : find_token h rows = Some r → r ∈ rows ∧ rt_tokenHash r = h.
Proof. intros [H1 H2]%find_elem. split; [done|]. by apply bool_decide_eq_true_1 in H2. Qed.

(** ** The contract *)

(** The hashes that were exchanged. *)
Definition exchanged (log : list TokenEvent) : list string :=
  omap (λ e, match e with Exchanged raw _ => Some (hash raw) | _ => None end) log.

(** An answer after a revocation that nothing overtook. *)
Definition revoked_for (raw : string) (e : TokenEvent) : Prop :=
  (∃ err, e = RejectedAndRevoked raw err false) ∨ e = LoggedOut raw (Some false).

Record token_inv (w : TokenWorld) : Prop := {
  ti_table : table_inv (tw_rows w);
  ti_calls : ∀ rid c, tw_calls w !! rid = Some c → call_ok (tw_rows w) c;
  ti_locks : ∀ rid rid' raw raw' current current' now now',
    tw_calls w !! rid = Some (RotateCreate raw current now) → tw_calls w !! rid' = Some (RotateCreate raw' current' now') →
    rt_id current = rt_id current' → rid = rid';
  ti_dead : ∀ f, f ∈ tw_dead w → f ∈ families (tw_rows w) ∧ all_revoked (tw_rows w) f;
  ti_once : NoDup (exchanged (tw_log w));
  ti_used : ∀ h, h ∈ exchanged (tw_log w) → ∃ r, r ∈ tw_rows w ∧ rt_tokenHash r = h ∧ is_live r = false;
  ti_reused : ∀ raw e, e ∈ tw_log w → revoked_for raw e →
    ∃ f, f ∈ tw_dead w ∧ stored_as (tw_rows w) (hash raw) f
}.

Lemma stored_family rows h f : stored_as rows h f → f ∈ families rows.
Proof. intros (r & Hr & _ & <-). apply list_elem_of_fmap. by exists r. Qed.

Lemma families_evolve rows rows' f : evolves rows rows' → f ∈ families rows → f ∈ families rows'.
Proof.
  intros Hev (r & -> & Hr)%list_elem_of_fmap. destruct (Hev r Hr) as (r' & Hr' & _ & <- & _).
  apply list_elem_of_fmap. by exists r'.
Qed.

(** A call in progress is still right after a step of the others. *)
Lemma call_ok_kept K F rows rows' c :
  kept K F rows rows' → call_ok rows c →
  (∀ raw current now, c = RotateCreate raw current now → K (rt_id current)) →
  (∀ raw f x seen, c = Revoking raw f x seen false → ¬ F f) → call_ok rows' c.
Proof.
  intros [Hev Hk Hl] Hok HK HF. destruct c as [raw|raw current now|raw current now|raw f x|raw|raw f|raw f x seen raced]; cbn in *; try done;
    try by eapply stored_evolves.
  - destruct Hok as [(r & Hr & A1 & A2 & A3 & A4) Hh]. split; [|done]. destruct (Hev r Hr) as (r' & Hr' & B1 & B2 & B3 & B4).
    exists r'. split; [done|]. split_and!; try congruence. auto.
  - destruct Hok as [(r & Hr & A & Hc) Hh]. split; [|done]. exists r. split; [|done]. apply Hk; [done|].
    destruct A as (-> & _). by eapply HK.
  - destruct Hok as [Hs Hseen]. split; [by eapply stored_evolves|]. intros -> r Hr Hf.
    pose proof Hf as [Ef%bool_decide_eq_true Lf]%andb_true_iff.
    destruct (Hl r Hr Lf) as [|HFr]; [by apply Hseen|]. rewrite Ef in HFr. by destruct (HF raw f x seen eq_refl).
Qed.

(** A step of the table that adds nothing to the log but [evs]. *)
Lemma tokens_frame w rows' calls dead evs now :
  token_inv w → table_step (tw_rows w) rows' →
  (∀ rid c, calls !! rid = Some c → call_ok rows' c) →
  (∀ rid rid' raw raw' current current' n n', calls !! rid = Some (RotateCreate raw current n) →
    calls !! rid' = Some (RotateCreate raw' current' n') → rt_id current = rt_id current' → rid = rid') →
  (∀ f, f ∈ dead → f ∈ families rows' ∧ all_revoked rows' f) →
  NoDup (exchanged evs) →
  (∀ h, h ∈ exchanged evs → (∃ r, r ∈ tw_rows w ∧ rt_tokenHash r = h ∧ is_live r = true) ∧
     ∃ r, r ∈ rows' ∧ rt_tokenHash r = h ∧ is_live r = false) →
  (∀ raw e, e ∈ evs → revoked_for raw e → ∃ f, f ∈ dead ∧ stored_as rows' (hash raw) f) →
  token_inv {| tw_now := now; tw_rows := rows'; tw_calls := calls; tw_dead := dead ++ tw_dead w; tw_log := tw_log w ++ evs |}.
Proof.
  intros [It Ic Ik Id Io Iu Ir] (Hi & Hev & Hd) Hc Hk Hdead Hn Hx Hre. split; cbn; [done|done|done|..].
  - intros f [Hf|Hf]%elem_of_app; [by apply Hdead|]. destruct (Id f Hf) as [H1 H2].
    split; [by eapply families_evolve|by apply Hd].
  - unfold exchanged. rewrite omap_app. apply NoDup_app. split_and!; [done| |done].
    intros h H1 H2. destruct (Iu h H1) as (r & Hr & E1 & L1). destruct (Hx h H2) as [(r' & Hr' & E2 & L2) _].
    assert (r = r') as -> by (apply (fmap_unique rt_tokenHash (tw_rows w)); [apply It|done..|congruence]). congruence.
  - intros h. unfold exchanged. rewrite omap_app. intros [H1|H1]%elem_of_app; [|by apply Hx].
    destruct (Iu h H1) as (r & Hr & <- & L1). destruct (Hev r Hr) as (r' & Hr' & _ & _ & E & L). exists r'. auto.
  - intros raw e [H1|H1]%elem_of_app He.
    + destruct (Ir raw e H1 He) as (f & Hf & Hs). exists f. split; [apply elem_of_app; by right|by eapply stored_evolves].
    + destruct (Hre raw e H1 He) as (f & Hf & Hs). exists f. split; [apply elem_of_app; by left|done].
Qed.

Lemma table_step_refl rows : table_inv rows → table_step rows rows.
Proof. intros Hi. split_and!; [done|reflexivity|done]. Qed.

Lemma resume_lookup rid p (w : TokenWorld) rows' dead rid' c :
  tw_calls (resume rid p rows' dead w) !! rid' = Some c →
  tw_calls w !! rid' = Some c ∨ p = inl c.
Proof.
  cbn. destruct p as [c'|e].
  - destruct (decide (rid' = rid)) as [->|Hne]; [rewrite lookup_insert_eq; intros [= ->]; by right|].
    rewrite lookup_insert_ne by done. by left.
  - intros [_ H]%lookup_delete_Some. by left.
Qed.

(** The event of a call that ended. *)
Definition events_of (p : progress) : list TokenEvent := match p with inl _ => [] | inr e => [e] end.

(** The locks after a call went on: a new one only on a row that was not locked. *)
Lemma resume_locks w rid p rows' dead : token_inv w →
  (∀ raw current now, p = inl (RotateCreate raw current now) → ¬ locked w (rt_id current)) →
  ∀ rid1 rid2 raw1 raw2 c1 c2 n1 n2, tw_calls (resume rid p rows' dead w) !! rid1 = Some (RotateCreate raw1 c1 n1) →
    tw_calls (resume rid p rows' dead w) !! rid2 = Some (RotateCreate raw2 c2 n2) → rt_id c1 = rt_id c2 → rid1 = rid2.
Proof.
  intros Hw Hp rid1 rid2 raw1 raw2 c1 c2 n1 n2. cbn. destruct p as [c|e].
  - rewrite !lookup_insert_Some. intros [[<- ->]|[N1 H1]] [[<- Hc]|[N2 H2]] E; try done.
    + by destruct (Hp raw1 c1 n1 eq_refl); exists rid2, raw2, c2, n2.
    + subst c. destruct (Hp raw2 c2 n2 eq_refl). by exists rid1, raw1, c1, n1.
    + by eapply (ti_locks w Hw).
  - rewrite !lookup_delete_Some. intros [_ H1] [_ H2]. by apply (ti_locks w Hw _ _ _ _ _ _ _ _ H1 H2).
Qed.

Lemma resume_inv w rid p rows' dead K :
  token_inv w → table_step (tw_rows w) rows' → kept K (λ _, False) (tw_rows w) rows' →
  (∀ id, locked w id → K id) →
  (∀ c, p = inl c → call_ok rows' c) →
  (∀ raw current now, p = inl (RotateCreate raw current now) → ¬ locked w (rt_id current)) →
  (∀ f, f ∈ dead → f ∈ families rows' ∧ all_revoked rows' f) →
  (∀ raw next, p ≠ inr (Exchanged raw next)) →
  (∀ raw e, p = inr e → revoked_for raw e → ∃ f, f ∈ dead ∧ stored_as rows' (hash raw) f) →
  token_inv (resume rid p rows' dead w).
Proof.
  intros Hw Hs Hkept HK Hc Hl Hd Hx Hr.
  assert (resume rid p rows' dead w = {| tw_now := tw_now w; tw_rows := rows';
    tw_calls := tw_calls (resume rid p rows' dead w); tw_dead := dead ++ tw_dead w;
    tw_log := tw_log w ++ events_of p |}) as ->.
  { unfold resume. destruct p; cbn; [by rewrite app_nil_r|done]. }
  apply tokens_frame; try done.
  - intros rid' c [H|H]%resume_lookup; [|by apply Hc]. eapply call_ok_kept; [done|by eapply Hw| |by intros ????? []].
    intros raw current now ->. apply HK. by exists rid', raw, current, now.
  - by apply resume_locks.
  - destruct p as [|[]]; cbn; repeat constructor; by intros ?%elem_of_nil.
  - intros h. destruct p as [|[]]; cbn; try (by intros ?%elem_of_nil). by destruct (Hx raw next).
  - intros raw e'. destruct p as [|e]; cbn; [by intros ?%elem_of_nil|]. intros ->%list_elem_of_singleton. by apply Hr.
Qed.

(** A call that went on or ended without touching the table. *)
Lemma resume_same w rid p :
  token_inv w → (∀ c, p = inl c → call_ok (tw_rows w) c) →
  (∀ raw current now, p = inl (RotateCreate raw current now) → ¬ locked w (rt_id current)) →
  (∀ raw next, p ≠ inr (Exchanged raw next)) → (∀ raw e, p = inr e → ¬ revoked_for raw e) →
  token_inv (resume rid p (tw_rows w) [] w).
Proof.
  intros Hw Hc Hl Hx Hr. apply (resume_inv w rid p (tw_rows w) [] (λ _, True)); try done.
  - apply table_step_refl, Hw.
  - split; [done|by intros|by left].
  - by intros ? ?%elem_of_nil.
  - intros raw e He Hrev. by destruct (Hr raw e He).
Qed.

Lemma rotate_read_ok now raw rows : match rotate_read now raw rows with
  | inl c => call_ok rows c
  | inr e => ∃ err, e = Rejected raw err
  end ∧ ∀ raw' current now', rotate_read now raw rows ≠ inl (RotateCreate raw' current now').
Proof.
  unfold rotate_read. destruct (_ <? 32); [by split; [eexists|]|].
  destruct (find_token _ rows) as [r|] eqn:Ef; [|by split; [eexists|]].
  apply find_token_spec in Ef as [Hr Hh]. destruct (is_live r) eqn:L; cbn [negb].
  - destruct (_ <=? _); [by split; [eexists|]|]. cbn. split; [|done]. split; [|done]. by exists r.
  - split; [|done]. cbn. by exists r.
Qed.

(** A revocation that nothing overtook leaves no live row of its family. *)
Lemma revoked_dead w raw f x seen raced now :
  token_inv w → call_ok (tw_rows w) (Revoking raw f x seen raced) →
  let rows' := revokeFamily f seen now (tw_rows w) in
  table_step (tw_rows w) rows' ∧ kept (λ id, id ∉ seen) (λ _, False) (tw_rows w) rows' ∧ stored_as rows' (hash raw) f ∧
  (raced = false → all_revoked rows' f).
Proof.
  intros Hw [Hs Hseen]. cbn zeta. unfold revokeFamily. set (p := λ r, _ && family_live f r). split_and!.
  - apply revoke_where_step, Hw.
  - destruct (revoke_where_kept p now (tw_rows w)) as [K1 K2 K3]. split; [done| |done].
    intros r Hr Hn. apply K2; [done|]. intros y Ey. unfold p. rewrite Ey. by rewrite bool_decide_eq_false_2.
  - eapply stored_evolves; [apply revoke_where_evolves|done].
  - intros -> r (y & -> & Hy)%list_elem_of_fmap Hf. destruct (is_live (if p y then revoke_row now y else y)) eqn:L; [|done].
    apply revoke_row_live in L as (Hp & Ey & L). rewrite Ey in Hf.
    assert (family_live f y = true) as Hfl by (unfold family_live; by rewrite bool_decide_eq_true_2, L).
    unfold p in Hp. rewrite Hfl, bool_decide_eq_true_2 in Hp by by apply Hseen. done.
Qed.

(** The commit of a rotation, answered or not. *)
Lemma committed_inv w rid raw current now id next e :
  token_inv w → tw_calls w !! rid = Some (RotateCreate raw current now) →
  e = (rotate_create raw current now id next (tw_rows w)).2 ∨ e = Crashed raw →
  let rows' := (rotate_create raw current now id next (tw_rows w)).1 in
  token_inv (committed rid e (rt_familyId current) rows' w) ∧ table_step (tw_rows w) rows'.
Proof.
  intros Hw Hc He. cbn zeta. pose proof (ti_calls w Hw rid _ Hc) as [Hcl Hh].
  destruct (rotate_create_cases raw current now id next (tw_rows w) (ti_table w Hw) Hcl) as (Hs & Hk & Hcases). cbn zeta in *.
  set (rows' := (rotate_create raw current now id next (tw_rows w)).1) in *. split; [|done].
  apply (tokens_frame w rows' _ [] [e]); try done.
  - intros rid' c' (c & <- & [Hne Hc']%lookup_delete_Some)%lookup_fmap_Some.
    pose proof (ti_calls w Hw rid' c Hc') as Hok.
    assert ((∀ raw f x seen, c = Revoking raw f x seen false → f ≠ rt_familyId current) → call_ok rows' c) as Hkeep.
    { intros HF. eapply call_ok_kept; [exact Hk|done| |exact HF]. cbn. intros raw' current' now' -> E.
      apply Hne. symmetry. by eapply (ti_locks w Hw). }
    destruct c as [| | | | | |raw' f x seen raced]; cbn [overtaken]; try (by apply Hkeep).
    destruct raced; cbn [orb]; [by apply Hkeep|]. case_bool_decide as Ef; [|apply Hkeep; by intros ???? [= _ <- _ _]].
    cbn. split; [|done]. eapply stored_evolves; [apply Hk|apply Hok].
  - intros rid1 rid2 raw1 raw2 c1 c2 n1 n2. rewrite !lookup_fmap_Some.
    intros (d1 & E1 & [_ H1]%lookup_delete_Some) (d2 & E2 & [_ H2]%lookup_delete_Some).
    destruct d1; cbn in E1; try done. destruct d2; cbn in E2; try done. injection E1 as -> -> ->. injection E2 as -> -> ->.
    by apply (ti_locks w Hw _ _ _ _ _ _ _ _ H1 H2).
  - by intros ? ?%elem_of_nil.
  - destruct He as [->| ->]; [|constructor]. destruct Hcases as [[-> _]|(-> & _)]; repeat constructor. by intros ?%elem_of_nil.
  - intros h. destruct He as [->| ->]; [|by intros ?%elem_of_nil].
    destruct Hcases as [[-> _]|(-> & H1 & H2)]; [by intros ?%elem_of_nil|]. cbn. intros ->%list_elem_of_singleton. by rewrite <- Hh.
  - intros raw' e' ->%list_elem_of_singleton Hrev. destruct He as [->| ->]; [destruct Hcases as [[E _]|(E & _)]; rewrite E in Hrev|];
      by destruct Hrev as [[? ?]|?].
Qed.

Lemma with_call_inv w rid c : token_inv w → (∀ raw current now, c ≠ RotateCreate raw current now) → call_ok (tw_rows w) c →
  token_inv (with_call rid c w).
Proof.
  intros Hw Hn Hok. destruct Hw as [It Ic Ik Id Io Iu Ir]. split; try done; cbn.
  - intros rid' c' [[_ <-]|[_ H]]%lookup_insert_Some; [done|by eapply Ic].
  - intros rid1 rid2 raw1 raw2 c1 c2 n1 n2. rewrite !lookup_insert_Some.
    intros [[_ E]|[_ H1]] [[_ E']|[_ H2]]; try (by destruct (Hn _ _ _ E)); try (by destruct (Hn _ _ _ E')). by apply (Ik _ _ _ _ _ _ _ _ H1 H2).
Qed.

(** Every step preserves it and is a step of the table. *)
Lemma token_step_inv w w' : token_inv w → token_step w w' → token_inv w' ∧ table_step (tw_rows w) (tw_rows w').
Proof.
  intros Hw Hstep. pose proof (table_step_refl _ (ti_table w Hw)) as Hrefl.
  destruct Hstep as [w d|w id f u raw Hf|w rid raw H|w rid raw H|w rid raw H|w rid raw current now H Hl|w rid raw current now id next H ended
    |w rid raw H|w rid raw f x H|w rid raw f H|w rid raw f x seen raced H Hl|w rid c H|w rid raw current now id next H
    |w rid raw f x seen raced H Hl].
  - split; [by destruct Hw|done].
  - assert (table_step (tw_rows w) (issue (tw_now w) id f u raw (tw_rows w)).1) as Hs
      by (apply issue_step; [apply Hw|done]). split; [|done].
    apply (tokens_frame w _ _ [] [(issue (tw_now w) id f u raw (tw_rows w)).2]); try done.
    + intros rid c Hc. pose proof (ti_calls w Hw rid c Hc) as Hok. eapply call_ok_kept; [apply issue_kept|done|done|].
      intros raw' g x seen -> ->. destruct Hok as [Hst _]. apply Hf. by eapply stored_family.
    + apply Hw.
    + by intros ? ?%elem_of_nil.
    + unfold issue. case_match; constructor.
    + unfold issue. case_match; cbn; by intros ? ?%elem_of_nil.
    + unfold issue. case_match; cbn; intros r e ->%list_elem_of_singleton [[? ?]|?]; done.
  - split; [by apply with_call_inv|done].
  - split; [by apply with_call_inv|done].
  - split; [|done]. destruct (rotate_read_ok (tw_now w) raw (tw_rows w)) as [Hok Hno].
    apply resume_same; try done.
    + intros c E. by rewrite E in Hok.
    + intros ??? E. by apply Hno in E.
    + intros r n E. rewrite E in Hok. by destruct Hok.
    + intros r e E. rewrite E in Hok. destruct Hok as [err ->]. by intros [[? ?]|?].
  - split; [|done]. pose proof (ti_calls w Hw rid _ H) as [Hcur Hh].
    destruct (rotate_claim_cases raw current now (tw_rows w) (ti_table w Hw) Hcur) as [->|[-> Hr]].
    + apply resume_same; try done. intros c [= <-]. cbn. destruct Hcur as (r & Hr & _ & E1 & E2 & _). exists r. split_and!; [done|congruence..].
    + apply resume_same; try done; [by intros c [= <-]|]. by intros ??? [= <- <- <-].
  - eapply (committed_inv w rid raw current now id next); [done|done|by left].
  - split; [|done]. unfold logout_read. destruct (find_token _ _) as [r|] eqn:Ef.
    + apply resume_same; try done. intros c [= <-]. cbn. apply find_token_spec in Ef as [Hr Hh]. by exists r.
    + apply resume_same; try done. intros r e [= <-] [[? ?]|?]; done.
  - split; [|done]. apply resume_same; try done. intros c [= <-]. pose proof (ti_calls w Hw rid _ H) as Hs. cbn. split; [done|].
    intros _ r Hr Hlive. apply list_elem_of_fmap. exists r. split; [done|]. by apply elem_of_lfilter.
  - split; [|done]. apply resume_same; try done. intros c [= <-]. pose proof (ti_calls w Hw rid _ H) as Hs. cbn. split; [done|].
    intros _ r Hr Hlive. apply list_elem_of_fmap. exists r. split; [done|]. by apply elem_of_lfilter.
  - destruct (revoked_dead w raw f x seen raced (tw_now w) Hw (ti_calls w Hw rid _ H)) as (Ht & Hk & Hs & Ha). cbn zeta in *.
    split; [|done]. eapply resume_inv; [done|done|exact Hk| |done|done| | |].
    + intros id Hid Hin. by apply (Hl id Hin).
    + destruct raced; [by intros ? ?%elem_of_nil|]. intros g ->%list_elem_of_singleton. split; [by eapply stored_family|by apply Ha].
    + intros r n. unfold revoke_answer. by destruct x.
    + intros r e [= <-]. unfold revoke_answer. intros Hrev. assert (raced = false ∧ r = raw) as [-> ->].
      { destruct x; destruct Hrev as [[err E]|E]; by simplify_eq. }
      exists f. by split; [left|].
  - split; [|done]. apply resume_same; try done. intros r e [= <-] [[? ?]|?]; done.
  - eapply (committed_inv w rid raw current now id next); [done|done|by right].
  - destruct (revoked_dead w raw f x seen raced (tw_now w) Hw (ti_calls w Hw rid _ H)) as (Ht & Hk & Hs & Ha). cbn zeta in *.
    split; [|done]. eapply resume_inv; [done|done|exact Hk| |done|done| |done|].
    + intros id Hid Hin. by apply (Hl id Hin).
    + by intros ? ?%elem_of_nil.
    + intros r e [= <-] [[? ?]|?]; done.
Qed.

Lemma live_at_most_one {A} (p : A → bool) (l : list A) : NoDup l →
  (∀ x y, x ∈ l → y ∈ l → p x = true → p y = true → x = y) → countb p l ≤ 1.
Proof.
  induction l as [|a l IH]; intros Hn Hu; [done|]. apply NoDup_cons in Hn as [Ha Hn]. rewrite countb_cons.
  destruct (p a) eqn:E.
  - rewrite countb_zero; [done|]. intros x Hx. destruct (p x) eqn:Ex; [|done]. destruct Ha.
    rewrite (Hu a x); [done|by left|by right|done..].
  - apply IH; [done|]. intros x y Hx Hy. apply Hu; by right.
Qed.

(** Only a live token is exchanged. *)
Lemma step_exchanged w w' h : token_inv w → token_step w w' → h ∈ exchanged (tw_log w') →
  h ∈ exchanged (tw_log w) ∨ ∃ r, r ∈ tw_rows w ∧ rt_tokenHash r = h ∧ is_live r = true.
Proof.
  intros Hw Hstep. assert (∀ e, (∀ raw next, e ≠ Exchanged raw next) → h ∈ exchanged (tw_log w ++ [e]) → h ∈ exchanged (tw_log w)) as Hno.
  { intros e He. unfold exchanged. rewrite omap_app. destruct e; try (cbn; by rewrite app_nil_r). by destruct (He raw next). }
  assert (∀ rid p rows dead, (∀ raw next, p ≠ inr (Exchanged raw next)) →
    h ∈ exchanged (tw_log (resume rid p rows dead w)) → h ∈ exchanged (tw_log w)) as Hres.
  { intros rid p rows dead Hp. cbn. destruct p as [c|e]; [done|]. apply Hno. intros raw next ->. by apply (Hp raw next). }
  destruct Hstep as [w d|w id f u raw Hf|w rid raw H|w rid raw H|w rid raw H|w rid raw current now H Hl|w rid raw current now id next H ended
    |w rid raw H|w rid raw f x H|w rid raw f H|w rid raw f x seen raced H Hl|w rid c H|w rid raw current now id next H
    |w rid raw f x seen raced H Hl];
    try (by left); try (intros Hin; left; eapply Hres; [|exact Hin]; done).
  - intros Hin. left. eapply Hno; [|exact Hin]. intros r n. unfold issue. by case_match.
  - intros Hin. left. eapply Hres; [|exact Hin]. intros r n E. pose proof (rotate_read_ok (tw_now w) raw (tw_rows w)) as [Hok _].
    rewrite E in Hok. by destruct Hok.
  - intros Hin. left. eapply Hres; [|exact Hin]. unfold rotate_claim. by case_match.
  - pose proof (ti_calls w Hw rid _ H) as [Hcl Hh].
    destruct (rotate_create_cases raw current now id next (tw_rows w) (ti_table w Hw) Hcl) as (_ & _ & [[E _]|(E & H1 & _)]); cbn zeta in *.
    + intros Hin. left. eapply Hno; [|exact Hin]. intros r n E'. unfold ended in E'. by rewrite E in E'.
    + intros Hin. change (tw_log (committed rid ended.2 (rt_familyId current) ended.1 w)) with (tw_log w ++ [ended.2]) in Hin.
      unfold ended in Hin. rewrite E in Hin. unfold exchanged in Hin. rewrite omap_app in Hin.
      apply elem_of_app in Hin as [Hin|Hin]; [by left|right]. cbn in Hin. apply list_elem_of_singleton in Hin as ->. by rewrite <- Hh.
  - intros Hin. left. eapply Hres; [|exact Hin]. unfold logout_read. by case_match.
  - intros Hin. left. eapply Hres; [|exact Hin]. intros r n. unfold revoke_answer. by destruct x.
  - intros Hin. left. eapply Hno; [|exact Hin]. done.
Qed.

Lemma tokens_inv t0 w : rtc token_step (no_tokens t0) w → token_inv w.
Proof.
  intros Hr. assert (token_inv (no_tokens t0)) as H0.
  { split; cbn; try (by intros ? ?%elem_of_nil); try done; [|apply NoDup_nil_2|by intros ? ? ?%elem_of_nil].
    split; [apply NoDup_nil_2|apply NoDup_nil_2|by intros ? ? ?%elem_of_nil]. }
  revert H0. generalize (no_tokens t0), Hr. induction 1 as [|a b c Hab _ IH]; [done|]. intros Ha.
  apply IH; [done|]. by eapply token_step_inv.
Qed.

Lemma later_family w w' f : token_inv w → rtc token_step w w' → f ∈ families (tw_rows w) → all_revoked (tw_rows w) f →
  all_revoked (tw_rows w') f ∧
  ∀ h, stored_as (tw_rows w') h f → h ∈ exchanged (tw_log w') → h ∈ exchanged (tw_log w).
Proof.
  intros Hw Hr. revert Hw. induction Hr as [w|a b c Hab Hbc IH]; [done|]. intros Ha Hf Hall.
  destruct (token_step_inv a b Ha Hab) as [Hb (_ & Hev & Hd)].
  destruct IH as [H1 H2]; [done|by eapply families_evolve|by apply Hd|]. split; [done|].
  intros h Hs Hin. specialize (H2 h Hs Hin). destruct (step_exchanged a b h Ha Hab H2) as [|(r & Hr & E & L)]; [done|].
  exfalso. assert (rtc token_step b c) as Hbc' by done.
  assert (evolves (tw_rows b) (tw_rows c) ∧ token_inv c) as [Hev' Hc].
  { clear -Hb Hbc'. induction Hbc' as [|x y z Hxy _ IH]; [by split|].
    destruct (token_step_inv x y Hb Hxy) as [Hy (_ & He & _)]. destruct (IH Hy). split; [by transitivity (tw_rows y)|done]. }
  destruct (Hev r Hr) as (r' & Hr' & _ & F' & E' & _). destruct (Hev' r' Hr') as (r'' & Hr'' & _ & F'' & E'' & _).
  destruct Hs as (s & Hs & Es & Fs).
  assert (s = r'') as -> by (apply (fmap_unique rt_tokenHash (tw_rows c)); [apply Hc|done..|congruence]).
  rewrite (Hall r Hr) in L; [done|congruence].
Qed.

(** C23. What rotation promises, whatever the interleaving of logins, renewals,
    logouts and failures on a READ COMMITTED database: at most one token of a
    family is valid; a token is exchanged at most once; and once a used token was
    presented again and the call was told so, or a logout was answered, no token
    of its family is valid or exchanged ever again - unless a rotation of that
    family committed while the revocation was running, whose new token it misses. *)
Theorem refresh_tokens_rotate_once t0 w :
  rtc token_step (no_tokens t0) w →
  (∀ f, countb (λ r, bool_decide (rt_familyId r = f) && is_live r) (tw_rows w) ≤ 1) ∧
  NoDup (exchanged (tw_log w)) ∧
  (∀ raw, (∃ err, RejectedAndRevoked raw err false ∈ tw_log w) ∨ LoggedOut raw (Some false) ∈ tw_log w →
     ∃ f, stored_as (tw_rows w) (hash raw) f ∧
     ∀ w', rtc token_step w w' → all_revoked (tw_rows w') f ∧
       ∀ h, stored_as (tw_rows w') h f → h ∈ exchanged (tw_log w') → h ∈ exchanged (tw_log w)).
Proof.
  intros Hr. pose proof (tokens_inv t0 w Hr) as Hw. split_and!; [|apply Hw|].
  - intros f. pose proof (tb_ids _ (ti_table w Hw)) as Hn. pose proof (tb_live _ (ti_table w Hw)) as Hl.
    apply live_at_most_one; [by eapply NoDup_fmap_1|]. intros r r' H1 H2 [E1 L1]%andb_true_iff [E2 L2]%andb_true_iff.
    apply Hl; try done. apply bool_decide_eq_true in E1, E2. congruence.
  - intros raw Hin. assert (∃ e, e ∈ tw_log w ∧ revoked_for raw e) as (e & He & Hrev).
    { destruct Hin as [[err Hin]|Hin]; eexists; (split; [exact Hin|]); [left; by exists err|by right]. }
    destruct (ti_reused w Hw raw e He Hrev) as (f & Hf & Hs). exists f. split; [done|].
    intros w' Hw'. destruct (ti_dead w Hw f Hf) as [H1 H2]. by apply later_family.
Qed.

End tokens.

(** ** A sample run: a login, a renewal, and the used token once more *)

Module Sample.
#[local] Open Scope string_scope.

Definition first : string := "0123456789abcdef0123456789abcdef-first".
Definition second : string := "0123456789abcdef0123456789abcdef-second".
Definition sha (s : string) : string := "sha256:" +:+ s.

Definition after_login : TokenWorld :=
  {| tw_now := 1000; tw_rows := (issue sha 3600 1000 "t1" "f1" "ann" first []).1; tw_dead := []; tw_calls := ∅;
     tw_log := [Issued first] |}.

Definition presented (w : TokenWorld) : TokenWorld := with_call 1 (RotateRead first) w.

Definition read (w : TokenWorld) : TokenWorld := resume 1 (rotate_read sha (tw_now w) first (tw_rows w)) (tw_rows w) [] w.

Definition live_row : RefreshToken :=
  {| rt_id := "t1"; rt_familyId := "f1"; rt_userId := "ann"; rt_tokenHash := sha first; rt_expiresAt := 3601000;
     rt_revokedAt := None |}.

Definition is_create (c : TokenCall) : bool := match c with RotateCreate _ _ _ => true | _ => false end.

Lemma no_lock w id : forallb (λ p, negb (is_create p.2)) (map_to_list (tw_calls w)) = true → ¬ locked w id.
Proof.
  rewrite forallb_forall. intros H (rid & raw & current & now & Hc%elem_of_map_to_list & _).
  apply list_elem_of_In, H in Hc. discriminate Hc.
Qed.

(** The claim, then the commit. *)
Definition claimed (w : TokenWorld) : TokenWorld := resume 1 (rotate_claim first live_row 1000 (tw_rows w)) (tw_rows w) [] w.

Definition renewed : TokenWorld :=
  let w := claimed (read (presented after_login)) in
  let ended := rotate_create sha 3600 first live_row 1000 "t2" second (tw_rows w) in
  committed 1 ended.2 "f1" ended.1 w.

Definition revoking : TokenWorld :=
  let w := read (presented renewed) in
  resume 1 (revoke_start first "f1" (Some (Some 3601000)) (tw_rows w)) (tw_rows w) [] w.

Definition reused : TokenWorld :=
  resume 1 (inr (revoke_answer first (Some (Some 3601000)) false 1000)) (revokeFamily "f1" ["t2"] 1000 (tw_rows revoking)) ["f1"] revoking.

Lemma renewed_run : rtc (token_step sha 3600) (no_tokens 1000) renewed.
Proof.
  apply (rtc_l _ _ after_login).
  { apply (tk_issue sha 3600 (no_tokens 1000) "t1" "f1" "ann" first). by intros ?%elem_of_nil. }
  apply (rtc_l _ _ (presented after_login)); [by apply tk_rotate|].
  apply (rtc_l _ _ (read (presented after_login))); [by apply tk_read|].
  apply (rtc_l _ _ (claimed (read (presented after_login)))).
  { apply (tk_claim sha 3600 (read (presented after_login)) 1 first live_row 1000); [reflexivity|apply no_lock; vm_compute; reflexivity]. }
  apply rtc_once. exact (tk_create sha 3600 (claimed (read (presented after_login))) 1 first live_row 1000 "t2" second eq_refl).
Qed.

Lemma reused_run : rtc (token_step sha 3600) (no_tokens 1000) reused.
Proof.
  transitivity renewed; [apply renewed_run|].
  apply (rtc_l _ _ (presented renewed)); [by apply tk_rotate|].
  apply (rtc_l _ _ (read (presented renewed))); [by apply tk_read|].
  apply (rtc_l _ _ revoking); [by apply tk_revoke_start|].
  apply rtc_once. apply (tk_revoke sha 3600 revoking 1 first "f1" (Some (Some 3601000)) ["t2"] false); [reflexivity|].
  intros id _. apply no_lock. vm_compute. reflexivity.
Qed.

(** The race: [second] is being renewed when [first] is presented again; the
    revocation starts while the renewal has claimed its token and not committed,
    waits for it, and misses the token it creates. *)
Definition third : string := "0123456789abcdef0123456789abcdef-third".

Definition second_row : RefreshToken :=
  {| rt_id := "t2"; rt_familyId := "f1"; rt_userId := "ann"; rt_tokenHash := sha second; rt_expiresAt := 3601000;
     rt_revokedAt := None |}.

Definition race_claimed : TokenWorld :=
  let w := with_call 2 (RotateRead second) renewed in
  let w := resume 2 (rotate_read sha 1000 second (tw_rows w)) (tw_rows w) [] w in
  resume 2 (rotate_claim second second_row 1000 (tw_rows w)) (tw_rows w) [] w.

Definition race_revoking : TokenWorld :=
  let w := read (presented race_claimed) in
  resume 1 (revoke_start first "f1" (Some (Some 3601000)) (tw_rows w)) (tw_rows w) [] w.

Definition race_committed : TokenWorld :=
  let ended := rotate_create sha 3600 second second_row 1000 "t3" third (tw_rows race_revoking) in
  committed 2 ended.2 "f1" ended.1 race_revoking.

Definition race_over : TokenWorld :=
  resume 1 (inr (revoke_answer first (Some (Some 3601000)) true 1000)) (revokeFamily "f1" ["t2"] 1000 (tw_rows race_committed)) [] race_committed.

Lemma race_run : rtc (token_step sha 3600) (no_tokens 1000) race_over.
Proof.
  transitivity renewed; [apply renewed_run|].
  apply (rtc_l _ _ (with_call 2 (RotateRead second) renewed)); [by apply tk_rotate|].
  eapply rtc_l; [apply (tk_read sha 3600 (with_call 2 (RotateRead second) renewed) 2 second); reflexivity|].
  eapply rtc_l.
  { apply (tk_claim sha 3600 _ 2 second second_row 1000); [reflexivity|].
    apply no_lock. vm_compute. reflexivity. }
  apply (rtc_l _ _ (presented race_claimed)); [by apply tk_rotate|].
  apply (rtc_l _ _ (read (presented race_claimed))); [by apply tk_read|].
  apply (rtc_l _ _ race_revoking); [by apply tk_revoke_start|].
  apply (rtc_l _ _ race_committed).
  { exact (tk_create sha 3600 race_revoking 2 second second_row 1000 "t3" third eq_refl). }
  apply rtc_once. apply (tk_revoke sha 3600 race_committed 1 first "f1" (Some (Some 3601000)) ["t2"] true); [reflexivity|].
  intros id _. apply no_lock. vm_compute. reflexivity.
Qed.

End Sample.

(** The caller is told that the token was reused, and a token of the family is valid. *)
Example reuse_detection_misses_a_token :
  rtc (token_step Sample.sha 3600) (no_tokens 1000) Sample.race_over ∧
  last (tw_log Sample.race_over) = Some (RejectedAndRevoked Sample.first TokenReused true) ∧
  rt_tokenHash <$> List.filter is_live (tw_rows Sample.race_over) = [Sample.sha Sample.third].
Proof. split; [apply Sample.race_run|]. split; vm_compute; reflexivity. Qed.

(** The renewal succeeded; the second presentation ended it for both tokens. *)
Lemma refresh_tokens_rotate_once_witness :
  tw_log Sample.reused = [Issued Sample.first; Exchanged Sample.first Sample.second; RejectedAndRevoked Sample.first TokenReused false] ∧
  (∀ f, countb (λ r, bool_decide (rt_familyId r = f) && is_live r) (tw_rows Sample.reused) ≤ 1) ∧
  ∃ f, stored_as (tw_rows Sample.reused) (Sample.sha Sample.first) f ∧
    stored_as (tw_rows Sample.reused) (Sample.sha Sample.second) f ∧ all_revoked (tw_rows Sample.reused) f.
Proof.
  destruct (refresh_tokens_rotate_once Sample.sha 3600 1000 Sample.reused Sample.reused_run) as (H1 & _ & H3).
  split_and!; [vm_compute; reflexivity|done|].
  destruct (H3 Sample.first) as (f & Hf & Hlater).
  { left. exists TokenReused. replace (tw_log Sample.reused) with
      [Issued Sample.first; Exchanged Sample.first Sample.second; RejectedAndRevoked Sample.first TokenReused false]
      by (vm_compute; reflexivity). right. right. by left. }
  exists f. split; [done|]. split; [|apply (Hlater Sample.reused), rtc_refl].
  destruct Hf as (r & Hr & Eh & Ef). assert (f = "f1"%string) as ->.
  { vm_compute in Hr. repeat (apply elem_of_cons in Hr as [->|Hr]; [done|]). by apply elem_of_nil in Hr. }
  exists (revoke_row 1000 Sample.second_row). split; [|done]. vm_compute. right. by left.
Defined.
