(* ===== verification/Sessions.v ===== *)
(** * Sessions: [backend/src/services/auth/sessionRegistryService.ts]

    The registry of signed-in devices: creation, the check every request makes,
    and revocation of one or of all.  Its methods run without an await, so they
    are functions of the registry.  [D] is the type of the device information
    taken from the request's headers; session ids are drawn by the caller. *)

From S2P Require Import Prelude.

#[local] Open Scope Z_scope.

Section sessions.
Context {D : Type}.

Record UserSession : Type := {
  se_id : string;
  se_userId : string;
  se_device : D;
  se_createdAt : Z;
  se_lastActiveAt : Z;
  se_expiresAt : Z;
  se_isRevoked : bool;
  se_revokedAt : option Z;
  se_revocationReason : option string
}.

Record SessionRevocationEvent : Type := {
  re_userId : string;
  re_revokedSessionId : option string;
  re_revokedAllExcept : option string;
  re_reason : string;
  re_timestamp : Z
}.

(** [revokedSessionIds] is a set; the events are those emitted so far. *)
Record SessionRegistry : Type := {
  sr_sessions : list (string * UserSession);
  sr_userSessionsIndex : list (string * list string);
  sr_revokedSessionIds : list string;
  sr_events : list SessionRevocationEvent
}.

Definition no_sessions : SessionRegistry :=
  {| sr_sessions := []; sr_userSessionsIndex := []; sr_revokedSessionIds := []; sr_events := [] |}.

Definition DEFAULT_SESSION_TTL : Z := 7 * 24 * 3600.

(** [Set.add]. *)
Definition set_add (id : string) (s : list string) : list string :=
  if bool_decide (id ∈ s) then s else s ++ [id].

Definition createSession (now : Z) (sessionId userId : string) (device : D) (ttlSeconds : Z) (r : SessionRegistry) : SessionRegistry :=
  let session := {| se_id := sessionId; se_userId := userId; se_device := device; se_createdAt := now;
                    se_lastActiveAt := now; se_expiresAt := now + ttlSeconds * 1000; se_isRevoked := false;
                    se_revokedAt := None; se_revocationReason := None |} in
  {| sr_sessions := map_set sessionId session (sr_sessions r);
     sr_userSessionsIndex := map_set userId (set_add sessionId (default [] (map_get userId (sr_userSessionsIndex r))))
                               (sr_userSessionsIndex r);
     sr_revokedSessionIds := sr_revokedSessionIds r;
     sr_events := sr_events r |}.

Definition getSession (sessionId : string) (r : SessionRegistry) : option UserSession := map_get sessionId (sr_sessions r).

Definition is_active (now : Z) (s : UserSession) : bool := negb (se_isRevoked s) && (now <? se_expiresAt s).

(** The most recently active first. *)
Definition listUserSessions (now : Z) (userId : string) (r : SessionRegistry) : list UserSession :=
  match map_get userId (sr_userSessionsIndex r) with
  | None => []
  | Some ids =>
      let result := List.filter (is_active now) (omap (λ id, getSession id r) ids) in
      sort_by (desc se_lastActiveAt) (reverse result)
  end.

Definition touch (now : Z) (s : UserSession) : UserSession :=
  {| se_id := se_id s; se_userId := se_userId s; se_device := se_device s; se_createdAt := se_createdAt s;
     se_lastActiveAt := now; se_expiresAt := se_expiresAt s; se_isRevoked := se_isRevoked s;
     se_revokedAt := se_revokedAt s; se_revocationReason := se_revocationReason s |}.

Definition with_sessions (ss : list (string * UserSession)) (r : SessionRegistry) : SessionRegistry :=
  {| sr_sessions := ss; sr_userSessionsIndex := sr_userSessionsIndex r;
     sr_revokedSessionIds := sr_revokedSessionIds r; sr_events := sr_events r |}.

(** The activity of a valid session is noted at most every five minutes. *)
Definition isSessionValid (now : Z) (sessionId userId : string) (r : SessionRegistry) : SessionRegistry * bool :=
  if bool_decide (sessionId ∈ sr_revokedSessionIds r) then (r, false) else
  match getSession sessionId r with
  | None => (r, false)
  | Some session =>
      if negb (bool_decide (se_userId session = userId)) || se_isRevoked session then (r, false) else
      if se_expiresAt session <? now then (r, false) else
      (if 300000 <? now - se_lastActiveAt session
       then with_sessions (map_set sessionId (touch now session) (sr_sessions r)) r else r, true)
  end.

Definition mark_revoked (now : Z) (reason : string) (s : UserSession) : UserSession :=
  {| se_id := se_id s; se_userId := se_userId s; se_device := se_device s; se_createdAt := se_createdAt s;
     se_lastActiveAt := se_lastActiveAt s; se_expiresAt := se_expiresAt s; se_isRevoked := true;
     se_revokedAt := Some now; se_revocationReason := Some reason |}.

Definition add_revoked (sessionId : string) (r : SessionRegistry) : SessionRegistry :=
  {| sr_sessions := sr_sessions r; sr_userSessionsIndex := sr_userSessionsIndex r;
     sr_revokedSessionIds := set_add sessionId (sr_revokedSessionIds r); sr_events := sr_events r |}.

Definition dispatchRevocationEvent (e : SessionRevocationEvent) (r : SessionRegistry) : SessionRegistry :=
  {| sr_sessions := sr_sessions r; sr_userSessionsIndex := sr_userSessionsIndex r;
     sr_revokedSessionIds := sr_revokedSessionIds r; sr_events := sr_events r ++ [e] |}.

(** Unknown ids are refused from now on too. *)
Definition revokeSession (now : Z) (sessionId reason : string) (r : SessionRegistry) : SessionRegistry * bool :=
  match getSession sessionId r with
  | None => (add_revoked sessionId r, false)
  | Some session =>
      let r := add_revoked sessionId (with_sessions (map_set sessionId (mark_revoked now reason session) (sr_sessions r)) r) in
      (dispatchRevocationEvent {| re_userId := se_userId session; re_revokedSessionId := Some sessionId;
         re_revokedAllExcept := None; re_reason := reason; re_timestamp := now |} r, true)
  end.

(** [exceptSessionId && id === exceptSessionId]: an empty exception is none. *)
Definition excepted (exceptId : option string) (id : string) : bool :=
  match exceptId with Some e => negb (bool_decide (e = ""%string)) && bool_decide (id = e) | None => false end.

(** One round of the loop of [revokeAllUserSessions]. *)
Definition revoke_one (now : Z) (exceptId : option string) (reason : string) (acc : SessionRegistry * Z) (id : string) :
    SessionRegistry * Z :=
  let '(r, n) := acc in
  if excepted exceptId id then acc else
  match getSession id r with
  | Some s =>
      if se_isRevoked s then (add_revoked id r, n)
      else (add_revoked id (with_sessions (map_set id (mark_revoked now reason s) (sr_sessions r)) r), n + 1)
  | None => (add_revoked id r, n)
  end.

Definition revokeAllUserSessions (now : Z) (userId : string) (exceptId : option string) (reason : string)
    (r : SessionRegistry) : SessionRegistry * Z :=
  match map_get userId (sr_userSessionsIndex r) with
  | None => (r, 0)
  | Some ids =>
      let '(r, revokedCount) := foldl (revoke_one now exceptId reason) (r, 0) ids in
      (dispatchRevocationEvent {| re_userId := userId; re_revokedSessionId := None; re_revokedAllExcept := exceptId;
         re_reason := reason; re_timestamp := now |} r, revokedCount)
  end.

(** ** Revocation is final *)

Inductive SessionOp : Type :=
| OpCreate (now : Z) (id userId : string) (device : D) (ttl : Z)
| OpCheck (now : Z) (id userId : string)
| OpRevoke (now : Z) (id reason : string)
| OpRevokeAll (now : Z) (userId : string) (exceptId : option string) (reason : string).

Definition run_op (r : SessionRegistry) (op : SessionOp) : SessionRegistry :=
  match op with
  | OpCreate now id u d ttl => createSession now id u d ttl r
  | OpCheck now id u => (isSessionValid now id u r).1
  | OpRevoke now id reason => (revokeSession now id reason r).1
  | OpRevokeAll now u e reason => (revokeAllUserSessions now u e reason r).1
  end.

Definition creates (id : string) (op : SessionOp) : bool :=
  match op with OpCreate _ id' _ _ _ => bool_decide (id' = id) | _ => false end.

Lemma elem_of_set_add x id s : x ∈ set_add id s ↔ x = id ∨ x ∈ s.
Proof. unfold set_add. case_bool_decide; set_solver. Qed.

(** How one operation changes what is known of a session: revoked ids stay, and
    nothing but its creation gives an id to a user. *)
Definition session_step (id : string) (r r' : SessionRegistry) : Prop :=
  (id ∈ sr_revokedSessionIds r → id ∈ sr_revokedSessionIds r') ∧
  (se_userId <$> getSession id r' = se_userId <$> getSession id r).

#[local] Instance session_step_refl id : Reflexive (session_step id).
Proof. by split. Qed.

#[local] Instance session_step_trans id : Transitive (session_step id).
Proof. intros a b c [H1 H2] [H3 H4]. split; [auto|congruence]. Qed.

Lemma step_add_revoked id id' r : session_step id r (add_revoked id' r).
Proof. split; [|done]. cbn. rewrite elem_of_set_add. by right. Qed.

Lemma step_update id id' s r : (∀ s0, getSession id' r = Some s0 → se_userId s = se_userId s0) →
  is_Some (getSession id' r) → session_step id r (with_sessions (map_set id' s (sr_sessions r)) r).
Proof.
  intros Hu [s0 E]. split; [done|]. unfold getSession in *. cbn. destruct (decide (id = id')) as [->|Hne].
  - rewrite map_get_set_eq, E. cbn. by rewrite (Hu s0 E).
  - by rewrite map_get_set_ne.
Qed.

Lemma step_revoke_one id now e reason r n id' : session_step id r (revoke_one now e reason (r, n) id').1.
Proof.
  unfold revoke_one. destruct (excepted e id'); [done|]. destruct (getSession id' r) as [s|] eqn:E; [|apply step_add_revoked].
  destruct (se_isRevoked s); [apply step_add_revoked|]. cbn [fst].
  etransitivity; [|apply step_add_revoked]. apply step_update; [intros s0 E'; cbn; congruence|by exists s].
Qed.

Lemma step_revoke_all id now e reason ids r n : session_step id r (foldl (revoke_one now e reason) (r, n) ids).1.
Proof.
  revert r n. induction ids as [|x ids IH]; intros r n; [done|]. cbn [foldl].
  pose proof (step_revoke_one id now e reason r n x) as H. destruct (revoke_one now e reason (r, n) x) as [r1 n1].
  etransitivity; [exact H|apply IH].
Qed.

Lemma run_op_step id r op : creates id op = false → session_step id r (run_op r op).
Proof.
  destruct op as [now i u d ttl|now i u|now i reason|now u e reason]; cbn; intros Hc.
  - apply bool_decide_eq_false in Hc. split; [done|]. unfold getSession. cbn. by rewrite map_get_set_ne.
  - unfold isSessionValid. case_bool_decide; [done|]. destruct (getSession i r) as [s|] eqn:E; [|done].
    destruct (_ || _); [done|]. destruct (_ <? now); [done|]. cbn. destruct (300000 <? _); [|done].
    apply step_update; [intros s0 E'; cbn; congruence|by exists s].
  - unfold revokeSession. destruct (getSession i r) as [s|] eqn:E; [|apply step_add_revoked]. cbn.
    transitivity (with_sessions (map_set i (mark_revoked now reason s) (sr_sessions r)) r); [|apply step_add_revoked].
    apply step_update; [intros s0 E'; cbn; congruence|by exists s].
  - unfold revokeAllUserSessions. destruct (map_get u _) as [ids|]; [|done].
    pose proof (step_revoke_all id now e reason ids r 0) as H. by destruct (foldl _ (r, 0) ids).
Qed.

(** A revoked id, whatever is created later. *)
Lemma run_op_revoked id r op : id ∈ sr_revokedSessionIds r → id ∈ sr_revokedSessionIds (run_op r op).
Proof.
  destruct (creates id op) eqn:E; [|by apply run_op_step]. by destruct op.
Qed.

Lemma run_revoked id ops r : id ∈ sr_revokedSessionIds r → id ∈ sr_revokedSessionIds (foldl run_op r ops).
Proof. revert r. induction ops as [|op ops IH]; intros r H; [done|]. apply IH. by apply run_op_revoked. Qed.

Lemma run_step id ops r : Forall (λ op, creates id op = false) ops → session_step id r (foldl run_op r ops).
Proof.
  intros H. revert r. induction H as [|op ops Ho _ IH]; intros r; [done|]. cbn. etransitivity; [by apply run_op_step|apply IH].
Qed.

Lemma revoked_invalid now id u r : id ∈ sr_revokedSessionIds r → (isSessionValid now id u r).2 = false.
Proof. intros H. unfold isSessionValid. by rewrite bool_decide_eq_true_2. Qed.

Lemma foreign_invalid now id u r : (∀ v, se_userId <$> getSession id r = Some v → v ≠ u) →
  (isSessionValid now id u r).2 = false.
Proof.
  intros H. unfold isSessionValid. case_bool_decide; [done|]. destruct (getSession id r) as [s|]; [|done].
  rewrite bool_decide_eq_false_2; [done|]. by apply H.
Qed.

(** Every session is in its user's index. *)
Definition indexed (r : SessionRegistry) : Prop :=
  ∀ id v, se_userId <$> getSession id r = Some v → id ∈ default [] (map_get v (sr_userSessionsIndex r)).

Lemma index_kept r op id v : id ∈ default [] (map_get v (sr_userSessionsIndex r)) →
  id ∈ default [] (map_get v (sr_userSessionsIndex (run_op r op))).
Proof.
  assert (∀ now e reason ids r n,
    sr_userSessionsIndex (foldl (revoke_one now e reason) (r, n) ids).1 = sr_userSessionsIndex r) as Hall.
  { intros now e reason ids. induction ids as [|x ids IH]; intros r0 n; [done|]. cbn [foldl].
    destruct (revoke_one now e reason (r0, n) x) as [r1 n1] eqn:E. rewrite IH. revert E. unfold revoke_one.
    destruct (excepted e x); [by intros [= <- _]|]. destruct (getSession x r0) as [s|]; [|by intros [= <- _]].
    destruct (se_isRevoked s); by intros [= <- _]. }
  destruct op as [now i u d ttl|now i u|now i reason|now u e reason]; cbn; intros H.
  - destruct (decide (v = u)) as [->|Hne].
    + rewrite map_get_set_eq. cbn. apply elem_of_set_add. by right.
    + by rewrite map_get_set_ne.
  - unfold isSessionValid. case_bool_decide; [done|]. destruct (getSession i r) as [s|]; [|done].
    destruct (_ || _); [done|]. destruct (_ <? now); [done|]. cbn. by destruct (300000 <? _).
  - unfold revokeSession. by destruct (getSession i r).
  - unfold revokeAllUserSessions. destruct (map_get u _) as [ids|] eqn:E; [|done].
    pose proof (Hall now e reason ids r 0) as Hi. destruct (foldl _ (r, 0) ids) as [r1 n]. cbn in *. by rewrite Hi.
Qed.

Lemma run_op_indexed r op : indexed r → indexed (run_op r op).
Proof.
  intros Hi id v. destruct (creates id op) eqn:E.
  - destruct op as [now i u d ttl| | |]; try done. cbn in E. apply bool_decide_eq_true in E as ->. cbn.
    unfold getSession. cbn. rewrite map_get_set_eq. cbn. intros [= <-]. rewrite map_get_set_eq. cbn.
    apply elem_of_set_add. by left.
  - destruct (run_op_step id r op E) as [_ ->]. intros H. by apply index_kept, Hi.
Qed.

Lemma run_indexed ops r : indexed r → indexed (foldl run_op r ops).
Proof. revert r. induction ops as [|op ops IH]; intros r H; [done|]. by apply IH, run_op_indexed. Qed.

Lemma revoke_all_revokes now e reason ids r n id : id ∈ ids → excepted e id = false →
  id ∈ sr_revokedSessionIds (foldl (revoke_one now e reason) (r, n) ids).1.
Proof.
  revert r n. induction ids as [|x ids IH]; intros r n Hin He; [by apply elem_of_nil in Hin|]. cbn [foldl].
  apply elem_of_cons in Hin as [<-|Hin].
  - destruct (revoke_one now e reason (r, n) id) as [r1 n1] eqn:E. apply (step_revoke_all id).
    replace r1 with (revoke_one now e reason (r, n) id).1 by by rewrite E. unfold revoke_one. rewrite He.
    destruct (getSession id r) as [s|]; [destruct (se_isRevoked s)|]; cbn; apply elem_of_set_add; by left.
  - destruct (revoke_one now e reason (r, n) x). by apply IH.
Qed.

(** Logging out the other devices leaves the excepted session as it is. *)
Lemma excepted_kept now e reason ids r n id : excepted e id = true →
  getSession id (foldl (revoke_one now e reason) (r, n) ids).1 = getSession id r ∧
  (id ∈ sr_revokedSessionIds (foldl (revoke_one now e reason) (r, n) ids).1 ↔ id ∈ sr_revokedSessionIds r).
Proof.
  intros He. revert r n. induction ids as [|x ids IH]; intros r n; [done|]. cbn [foldl].
  destruct (revoke_one now e reason (r, n) x) as [r1 n1] eqn:E. destruct (IH r1 n1) as [-> ->].
  replace r1 with (revoke_one now e reason (r, n) x).1 by by rewrite E. unfold revoke_one.
  destruct (excepted e x) eqn:Ex; [done|]. assert (id ≠ x) as Hne by congruence.
  destruct (getSession x r) as [s|]; [destruct (se_isRevoked s)|]; cbn; rewrite elem_of_set_add;
    (split; [|set_solver]); [done| |done].
  unfold getSession. cbn. by rewrite map_get_set_ne.
Qed.

(** C24. What revocation promises: after logging out the other devices of a user, no
    session of the user but the excepted one is ever valid again, unless it is
    created later, whatever happens in between; the excepted one is valid as
    before; and a session revoked alone is never valid again. *)
Theorem session_revocation_final ops now u e reason :
  let r := foldl run_op no_sessions ops in
  let r' := (revokeAllUserSessions now u e reason r).1 in
  (∀ ops' now' id, Forall (λ op, creates id op = false) ops' → excepted e id = false →
     (isSessionValid now' id u (foldl run_op r' ops')).2 = false) ∧
  (∀ now' id, excepted e id = true → (isSessionValid now' id u r').2 = (isSessionValid now' id u r).2) ∧
  (∀ ops' id now' v, (isSessionValid now' id v (foldl run_op (revokeSession now id reason r).1 ops')).2 = false).
Proof.
  intros r r'. assert (indexed r) as Hi by (apply run_indexed; by intros id v).
  split_and!.
  - intros ops' now' id Hc He. destruct (decide (id ∈ sr_revokedSessionIds r')) as [Hin|Hnot].
    { apply revoked_invalid. by apply run_revoked. }
    apply foreign_invalid. intros v Hv ->. destruct (run_step id ops' r' Hc) as [_ E]. rewrite E in Hv.
    destruct (run_op_step id r (OpRevokeAll now u e reason) eq_refl) as [_ E']. cbn in E'. fold r' in E'. rewrite E' in Hv.
    apply Hi in Hv. apply Hnot. unfold r', revokeAllUserSessions.
    destruct (map_get u (sr_userSessionsIndex r)) as [ids|]; [|by apply elem_of_nil in Hv].
    pose proof (revoke_all_revokes now e reason ids r 0 id Hv He) as H. by destruct (foldl _ (r, 0) ids).
  - intros now' id He. unfold r', revokeAllUserSessions. destruct (map_get u _) as [ids|]; [|done].
    pose proof (excepted_kept now e reason ids r 0 id He) as [E1 E2]. destruct (foldl _ (r, 0) ids) as [r1 n].
    cbn [fst] in *. unfold isSessionValid. change (getSession id (dispatchRevocationEvent _ r1)) with (getSession id r1).
    rewrite E1. cbn [dispatchRevocationEvent sr_revokedSessionIds]. rewrite (bool_decide_ext _ _ E2).
    repeat case_match; done.
  - intros ops' id now' v. apply revoked_invalid, run_revoked. unfold revokeSession.
    destruct (getSession id r); cbn; apply elem_of_set_add; by left.
Qed.

End sessions.

(** ** A sample registry *)

Module Sample.
#[local] Open Scope string_scope.

Definition ops : list SessionOp :=
  [OpCreate 0 "phone" "ann" tt DEFAULT_SESSION_TTL; OpCreate 10 "laptop" "ann" tt DEFAULT_SESSION_TTL;
   OpCreate 20 "tablet" "bob" tt DEFAULT_SESSION_TTL; OpCheck 30 "phone" "ann"].

End Sample.

(** Logged out from the laptop: the phone is refused for good, the laptop not. *)
Lemma session_revocation_final_witness :
  let r := foldl run_op no_sessions Sample.ops in
  let r' := (revokeAllUserSessions 100 "ann" (Some "laptop"%string) "other devices" r).1 in
  (isSessionValid 100 "phone" "ann" r).2 = true ∧
  (isSessionValid 200 "phone" "ann" (foldl run_op r' [OpCheck 150 "phone" "ann"])).2 = false ∧
  (isSessionValid 200 "laptop" "ann" r').2 = true.
Proof.
  destruct (session_revocation_final Sample.ops 100 "ann" (Some "laptop"%string) "other devices") as (H1 & H2 & _).
  split_and!; [vm_compute; reflexivity| |].
  - apply H1; [by repeat constructor|reflexivity].
  - rewrite H2; reflexivity.
Defined.
