(* ===== verification/Auth.v ===== *)
(** * Who a request is and what it may do:
      [backend/src/middleware/authMiddleware.ts], [backend/src/config/permissions.ts],
      [backend/src/config/serviceAuth.ts]

    The roles and their permissions, the service keys of automated callers, the
    middleware that authenticates a request and the guard of a route.  The
    verification of access tokens (the key ring's), SHA-256 and the role lookup
    are parameters; the registry of sessions is the one of [Sessions].  The
    cache of the parsed keys is of the same text and is left out. *)

From Stdlib Require Import Ascii String.
From S2P Require Import Prelude Text Sessions.

#[local] Open Scope Z_scope.

(** ** Roles and permissions *)

Inductive UserRole : Type := USER | MODERATOR | ADMIN.
Inductive Role : Type := Account (r : UserRole) | SERVICE.

Inductive Permission : Type :=
| PROFILE_READ | PROFILE_UPDATE_OWN
| SQUAD_CREATE | SQUAD_UPDATE_OWN | SQUAD_READ_OWN
| LEAGUE_CREATE | LEAGUE_JOIN | LEAGUE_CANCEL_OWN | LEAGUE_MANAGE_OWN | LEAGUE_TIER_MANAGE
| PAYMENT_MANAGE_OWN | SETTLEMENT_READ | AFFILIATE_READ_OWN
| FPL_SYNC | SCORE_CALCULATE | FINANCIAL_RECONCILE | SYSTEM_HEALTH_READ | AUTH_KEYS_MANAGE
| PAYOUT_READ | PAYOUT_MANAGE | FINANCIAL_AUDIT_READ
| SECURITY_REVIEW.

#[export] Instance Permission_eq_dec : EqDecision Permission.
Proof. solve_decision. Defined.

#[export] Instance UserRole_eq_dec : EqDecision UserRole.
Proof. solve_decision. Defined.

#[export] Instance Role_eq_dec : EqDecision Role.
Proof. solve_decision. Defined.

Definition USER_PERMISSIONS : list Permission :=
  [PROFILE_READ; PROFILE_UPDATE_OWN; SQUAD_CREATE; SQUAD_UPDATE_OWN; SQUAD_READ_OWN; LEAGUE_CREATE; LEAGUE_JOIN;
   LEAGUE_CANCEL_OWN; LEAGUE_MANAGE_OWN; PAYMENT_MANAGE_OWN; SETTLEMENT_READ; AFFILIATE_READ_OWN].

Definition ROLE_PERMISSIONS (role : Role) : list Permission :=
  match role with
  | Account USER => USER_PERMISSIONS
  | Account MODERATOR =>
      USER_PERMISSIONS ++ [FPL_SYNC; FINANCIAL_RECONCILE; SYSTEM_HEALTH_READ; PAYOUT_READ; LEAGUE_TIER_MANAGE]
  | Account ADMIN =>
      USER_PERMISSIONS ++ [FPL_SYNC; SCORE_CALCULATE; FINANCIAL_RECONCILE; SYSTEM_HEALTH_READ; PAYOUT_READ;
                           LEAGUE_TIER_MANAGE; PAYOUT_MANAGE; FINANCIAL_AUDIT_READ; AUTH_KEYS_MANAGE; SECURITY_REVIEW]
  | SERVICE => [FPL_SYNC; SCORE_CALCULATE; FINANCIAL_RECONCILE; SYSTEM_HEALTH_READ; AUTH_KEYS_MANAGE]
  end.

Definition hasPermission (role : Role) (p : Permission) : bool := bool_decide (p ∈ ROLE_PERMISSIONS role).

Definition isElevatedPermission (p : Permission) : bool := negb (hasPermission (Account USER) p).

(** ** Service keys *)

Definition MIN_SERVICE_KEY_LENGTH : nat := 32.

(** [/^[a-z0-9_-]+$/i]. *)
Definition is_name_char (c : ascii) : bool :=
  is_lower_letter (lower_char c) || is_digit c || existsb (Ascii.eqb c) ["_"; "-"]%char.

Definition is_service_name (name : list ascii) : bool := negb (bool_decide (name = [])) && forallb is_name_char name.

Section auth.
Context {Digest D : Type} `{EqDecision Digest} (sha256 : list ascii → Digest).

(** One entry; an entry without a name or with a short key is ignored. *)
Definition parse_entry (entry : list ascii) : option (list ascii * Digest) :=
  match find_index (Ascii.eqb ":"%char) entry with
  | None | Some O => None
  | Some separator =>
      let name := trim_text (take separator entry) in
      let key := trim_text (drop (S separator) entry) in
      if negb (is_service_name name) then None
      else if (length key <? MIN_SERVICE_KEY_LENGTH)%nat then None
      else Some (name, sha256 key)
  end.

Definition parseServiceApiKeys (raw : option (list ascii)) : list (list ascii * Digest) :=
  match raw with
  | None | Some [] => []
  | Some raw => omap parse_entry (split_char ","%char raw)
  end.

(** The name of the first key with the presented digest. *)
Definition authenticateServiceKey (presentedKey : list ascii) (raw : option (list ascii)) : option (list ascii) :=
  if bool_decide (presentedKey = []) then None else
  let presented := sha256 presentedKey in
  foldl (λ found configured, if bool_decide (presented = configured.2) && bool_decide (found = None)
                             then Some configured.1 else found) None (parseServiceApiKeys raw).

(** ** Requests *)

(** An empty user or session id is none. *)
Definition given (s : option string) : option string :=
  match s with Some x => if bool_decide (x = ""%string) then None else Some x | None => None end.

Record JwtPayload : Type := {
  jp_userId : string;
  jp_sessionId : option string;
  jp_role : option string
}.

Inductive JwtError : Type := TokenExpiredError | JsonWebTokenError.

(** What [RefreshTokenService] signs: at a login with the session, at a renewal
    without. *)
Definition issue_payload (userId : string) (role : option string) (sessionId : option string) : JwtPayload :=
  {| jp_userId := userId; jp_sessionId := given sessionId; jp_role := Some (default "USER"%string role) |}.

Definition rotate_payload (userId : string) (role : option string) : JwtPayload :=
  {| jp_userId := userId; jp_sessionId := None; jp_role := Some (default "USER"%string role) |}.

(** A header is absent, given once or given more than once. *)
Inductive HeaderValue : Type := One (s : list ascii) | Many.

Record HttpRequest : Type := {
  rq_serviceKey : option HeaderValue;
  rq_authorization : option (list ascii)
}.

Inductive Principal : Type :=
| ServicePrincipal (name : list ascii)
| UserPrincipal (userId : string) (role : UserRole) (sessionId : option string).

Definition role_of (p : Principal) : Role :=
  match p with ServicePrincipal _ => SERVICE | UserPrincipal _ r _ => Account r end.

(** The responses that end a request. *)
Inductive AuthError : Type :=
| InvalidServiceCredentials | MissingAuthorization | MalformedAuthorization | InvalidPayload | SessionRevoked
| ExpiredToken | InvalidToken | NoPrincipal | AccountGone | Forbidden.

Definition asUserRole (role : option string) : UserRole :=
  match role with
  | Some r => if String.eqb r "ADMIN" then ADMIN else if String.eqb r "MODERATOR" then MODERATOR else USER
  | None => USER
  end.

(** [trim().split(/\s+/)] into the scheme and the token. *)
Definition bearer_token (header : list ascii) : option (list ascii) :=
  match split_blanks (trim_text header) with
  | [scheme; token] => if bool_decide (lower_char <$> scheme = list_ascii_of_string "bearer") then Some token else None
  | _ => None
  end.

Definition requireAuth (verify : list ascii → result JwtError JwtPayload) (now : Z) (keys : option (list ascii))
    (req : HttpRequest) (reg : @SessionRegistry D) : @SessionRegistry D * result AuthError Principal :=
  match rq_serviceKey req with
  | Some h =>
      (reg, match h with
            | One k => match authenticateServiceKey k keys with
                       | Some name => Ok (ServicePrincipal name)
                       | None => Err InvalidServiceCredentials
                       end
            | Many => Err InvalidServiceCredentials
            end)
  | None =>
      match rq_authorization req with
      | None | Some [] => (reg, Err MissingAuthorization)
      | Some header =>
          match bearer_token header with
          | None => (reg, Err MalformedAuthorization)
          | Some token =>
              match verify token with
              | Err TokenExpiredError => (reg, Err ExpiredToken)
              | Err JsonWebTokenError => (reg, Err InvalidToken)
              | Ok payload =>
                  if bool_decide (jp_userId payload = ""%string) then (reg, Err InvalidPayload) else
                  match given (jp_sessionId payload) with
                  | None => (reg, Ok (UserPrincipal (jp_userId payload) (asUserRole (jp_role payload)) None))
                  | Some sid =>
                      let '(reg, valid) := isSessionValid now sid (jp_userId payload) reg in
                      (reg, if valid then Ok (UserPrincipal (jp_userId payload) (asUserRole (jp_role payload)) (Some sid))
                            else Err SessionRevoked)
                  end
              end
          end
      end
  end.

(** [requirePermission(...permissions)], with the role lookup [resolve]; the
    principal goes on with its current role. *)
Definition permissionGuard (resolve : string → option UserRole) (permissions : list Permission) (user : option Principal) :
    result AuthError Principal :=
  match user with
  | None => Err NoPrincipal
  | Some p =>
      throw_if (negb (forallb (hasPermission (role_of p)) permissions)) Forbidden ;;;
      if existsb isElevatedPermission permissions then
        match p with
        | ServicePrincipal _ => Ok p
        | UserPrincipal id _ sid =>
            let* currentRole := or_throw (resolve id) AccountGone in
            throw_if (negb (forallb (hasPermission (Account currentRole)) permissions)) Forbidden ;;;
            Ok (UserPrincipal id currentRole sid)
        end
      else Ok p
  end.

Definition requireRole (allowedRoles : list Role) (user : option Principal) : result AuthError Principal :=
  match user with
  | None => Err NoPrincipal
  | Some p => throw_if (negb (bool_decide (role_of p ∈ allowedRoles))) Forbidden ;;; Ok p
  end.

(** A valid token is attached, anything else is ignored; sessions are not asked. *)
Definition optionalAuth (verify : list ascii → result JwtError JwtPayload) (req : HttpRequest) : option Principal :=
  match rq_authorization req with
  | None | Some [] => None
  | Some header =>
      match bearer_token header with
      | Some token =>
          match verify token with
          | Ok payload => if bool_decide (jp_userId payload = ""%string) then None
                          else Some (UserPrincipal (jp_userId payload) (asUserRole (jp_role payload)) None)
          | Err _ => None
          end
      | None => None
      end
  end.

(** A protected route: the middleware, then the guard. *)
Definition protected (verify : list ascii → result JwtError JwtPayload) (resolve : string → option UserRole) (now : Z)
    (keys : option (list ascii)) (permissions : list Permission) (req : HttpRequest) (reg : @SessionRegistry D) :
    @SessionRegistry D * result AuthError Principal :=
  let '(reg, r) := requireAuth verify now keys req reg in
  (reg, let* user := r in permissionGuard resolve permissions (Some user)).

(** ** What a protected route knows of its caller *)

(** [k] is a configured key of [name]: an entry of the text with that name and a
    long enough key of the same digest. *)
Definition configured (name k : list ascii) (raw : option (list ascii)) : Prop :=
  ∃ text entry key, raw = Some text ∧ entry ∈ split_char ","%char text ∧
    parse_entry entry = Some (name, sha256 key) ∧ (MIN_SERVICE_KEY_LENGTH ≤ length key)%nat ∧ sha256 k = sha256 key.

Lemma parse_entry_key entry name d : parse_entry entry = Some (name, d) →
  ∃ key, (MIN_SERVICE_KEY_LENGTH ≤ length key)%nat ∧ d = sha256 key.
Proof.
  unfold parse_entry. destruct (find_index _ entry) as [[|i]|]; [done| |done].
  destruct (negb _); [done|]. destruct (Nat.ltb_spec (length (trim_text (drop (S (S i)) entry))) MIN_SERVICE_KEY_LENGTH) as [|Hl]; [done|].
  intros [= <- <-]. by eexists.
Qed.

Lemma first_match presented (l : list (list ascii * Digest)) name :
  foldl (λ found c, if bool_decide (presented = c.2) && bool_decide (found = None) then Some c.1 else found) None l = Some name →
  (name, presented) ∈ l.
Proof.
  assert (∀ found, foldl (λ found c, if bool_decide (presented = c.2) && bool_decide (found = None) then Some c.1 else found)
    found l = Some name → found = Some name ∨ (found = None ∧ (name, presented) ∈ l)) as H.
  { induction l as [|[n d] l IH]; intros found; cbn; [by left|]. intros E. apply IH in E.
    destruct (decide (presented = d)) as [<-|Hd].
    - rewrite bool_decide_eq_true_2 in E by done. destruct found as [f|].
      + rewrite bool_decide_eq_false_2 in E by done. cbn in E. destruct E as [|[]]; [by left|done].
      + rewrite bool_decide_eq_true_2 in E by done. cbn in E. right. split; [done|].
        destruct E as [[= ->]|[]]; [by left|done].
    - rewrite bool_decide_eq_false_2 in E by done. cbn in E. destruct E as [|[]]; [by left|right]. split; [done|by right]. }
  intros E. by destruct (H None E) as [|[]].
Qed.

Lemma authenticate_configured k raw name : authenticateServiceKey k raw = Some name → configured name k raw.
Proof.
  unfold authenticateServiceKey. case_bool_decide; [done|]. intros Hin%first_match.
  destruct raw as [[|c text]|]; [by apply elem_of_nil in Hin| |by apply elem_of_nil in Hin].
  unfold parseServiceApiKeys in Hin. apply list_elem_of_omap in Hin as (entry & He & Hp).
  destruct (parse_entry_key _ _ _ Hp) as (key & Hl & E). exists (c :: text), entry, key. rewrite <- E. by split_and!.
Qed.

Lemma all_held role ps : forallb (hasPermission role) ps = true ↔ ∀ q, q ∈ ps → q ∈ ROLE_PERMISSIONS role.
Proof.
  rewrite forallb_forall. split; intros H q Hq.
  - apply list_elem_of_In, H in Hq. by apply bool_decide_eq_true_1 in Hq.
  - apply bool_decide_eq_true_2, H. by apply list_elem_of_In.
Qed.

(** What the guard lets through: the principal itself, a user with the current
    role when the route asks for more than every user has. *)
Lemma guard_passed resolve permissions u p :
  permissionGuard resolve permissions (Some u) = Ok p →
  (∀ q, q ∈ permissions → q ∈ ROLE_PERMISSIONS (role_of p)) ∧
  (∀ userId role sid, p = UserPrincipal userId role sid → (∃ q, q ∈ permissions ∧ q ∉ USER_PERMISSIONS) →
    resolve userId = Some role) ∧
  match u with
  | ServicePrincipal _ => p = u
  | UserPrincipal userId _ sid => ∃ role, p = UserPrincipal userId role sid
  end.
Proof.
  unfold permissionGuard. destruct (forallb (hasPermission (role_of u)) permissions) eqn:Ep; [|done].
  cbn [negb throw_if rbind]. rewrite all_held in Ep. destruct (existsb isElevatedPermission permissions) eqn:El.
  - destruct u as [name|id role sid]; [by intros [= <-]|].
    destruct (resolve id) as [cur|] eqn:Er; [|done]. cbn [or_throw rbind].
    destruct (forallb (hasPermission (Account cur)) permissions) eqn:Ep2; [|done]. cbn [negb throw_if rbind].
    rewrite all_held in Ep2. intros [= <-]. split_and!; [done| |by eexists]. by intros ??? [= <- <- <-] _.
  - intros [= <-]. split_and!; [done| |by destruct u; [|eexists]]. intros ??? -> (q & Hq & Hnot). exfalso.
    enough (existsb isElevatedPermission permissions = true) by congruence.
    apply existsb_exists. exists q. split; [by apply list_elem_of_In|]. unfold isElevatedPermission, hasPermission.
    by rewrite bool_decide_eq_false_2.
Qed.

(** C25. What a route with [permissions] knows when its handler runs: the caller
    presented a configured service key, or a verified token.  A token that names
    a session counts only while that session is valid for its user; a token that
    names none, as those of a renewal, is checked against no session, so nothing
    that happens to the user's sessions matters to it.  The caller's role holds
    every permission, and when one of them is more than every user has, that role
    is the account's current one, not the token's. *)
Theorem protected_route_sound verify resolve now keys permissions req reg reg' p :
  protected verify resolve now keys permissions req reg = (reg', Ok p) →
  (∀ q, q ∈ permissions → q ∈ ROLE_PERMISSIONS (role_of p)) ∧
  match p with
  | ServicePrincipal name => ∃ k, rq_serviceKey req = Some (One k) ∧ configured name k keys
  | UserPrincipal userId role sid =>
      (∃ header token payload, rq_authorization req = Some header ∧ bearer_token header = Some token ∧
         verify token = Ok payload ∧ userId = jp_userId payload ∧ userId ≠ ""%string ∧ sid = given (jp_sessionId payload) ∧
         match sid with
         | Some s => isSessionValid now s userId reg = (reg', true)
         | None => ∀ reg2, protected verify resolve now keys permissions req reg2 = (reg2, Ok p)
         end) ∧
      ((∃ q, q ∈ permissions ∧ q ∉ USER_PERMISSIONS) → resolve userId = Some role)
  end.
Proof.
  unfold protected. destruct (requireAuth verify now keys req reg) as [reg1 r] eqn:Ea.
  destruct r as [u|e]; [|done]. cbn [rbind]. intros [= -> Hg].
  assert (match u with
    | ServicePrincipal name => ∃ k, rq_serviceKey req = Some (One k) ∧ configured name k keys
    | UserPrincipal userId role sid => ∃ header token payload, rq_authorization req = Some header ∧
         bearer_token header = Some token ∧ verify token = Ok payload ∧ userId = jp_userId payload ∧ userId ≠ ""%string ∧
         sid = given (jp_sessionId payload) ∧
         match sid with
         | Some s => isSessionValid now s userId reg = (reg', true)
         | None => ∀ reg2, requireAuth verify now keys req reg2 = (reg2, Ok u)
         end
    end) as Hu.
  { revert Ea. unfold requireAuth. destruct (rq_serviceKey req) as [[k|]|]; [|done|].
    - destruct (authenticateServiceKey k keys) as [name|] eqn:E; [|done]. intros [= _ <-].
      exists k. split; [done|by apply authenticate_configured].
    - destruct (rq_authorization req) as [[|c header]|]; [done| |done].
      destruct (bearer_token (c :: header)) as [token|] eqn:Eb; [|done].
      destruct (verify token) as [payload|[]] eqn:Ev; [|done..]. case_bool_decide as Hid; [done|].
      destruct (given (jp_sessionId payload)) as [s|] eqn:Es.
      + destruct (isSessionValid now s (jp_userId payload) reg) as [reg2 []] eqn:Ei; [|done]. intros [= -> <-].
        exists (c :: header), token, payload. rewrite Es. by split_and!.
      + intros [= _ <-]. exists (c :: header), token, payload. rewrite Es. by split_and!. }
  destruct (guard_passed _ _ _ _ Hg) as (Hheld & Hcur & Hsame). split; [done|].
  destruct u as [name|userId role sid]; [by rewrite Hsame|]. destruct Hsame as [role' ->].
  split; [|by eapply Hcur]. destruct Hu as (header & token & payload & H1 & H2 & H3 & H4 & H5 & H6 & H7).
  exists header, token, payload. split_and!; try done. destruct sid; [done|].
  intros reg2. rewrite H7. cbn [rbind]. f_equal. exact Hg.
Qed.

(** A token from a renewal names no session, so no revocation reaches it: it
    authenticates the user whatever the registry says. *)
Lemma renewed_token_outlives_revocation verify now keys req c header token userId role reg :
  rq_serviceKey req = None → rq_authorization req = Some (c :: header) → bearer_token (c :: header) = Some token →
  verify token = Ok (rotate_payload userId role) → userId ≠ ""%string →
  requireAuth verify now keys req reg = (reg, Ok (UserPrincipal userId (asUserRole (Some (default "USER"%string role))) None)).
Proof.
  intros H1 H2 H3 H4 H5. unfold requireAuth. rewrite H1, H2, H3, H4. cbn [rotate_payload jp_userId jp_sessionId jp_role].
  by rewrite bool_decide_eq_false_2.
Qed.

End auth.

(** The ladder permission documented as admin-only. *)
Example moderators_manage_tiers : hasPermission (Account MODERATOR) LEAGUE_TIER_MANAGE = true.
Proof. reflexivity. Qed.

(** ** Sample requests *)

Module Sample.
#[local] Open Scope string_scope.

Definition text (s : string) : list ascii := list_ascii_of_string s.

Definition no_hash (l : list ascii) : list ascii := l.

Definition admin_token : JwtPayload := {| jp_userId := "ann"; jp_sessionId := Some "s1"; jp_role := Some "ADMIN" |}.

Definition sample_verify (token : list ascii) : result JwtError JwtPayload :=
  if bool_decide (token = text "tok-ann") then Ok admin_token else Err JsonWebTokenError.

(** Demoted since the token was signed. *)
Definition current_role (id : string) : option UserRole := if String.eqb id "ann" then Some MODERATOR else None.

Definition request : HttpRequest :=
  {| rq_serviceKey := None; rq_authorization := Some (text "Bearer   tok-ann ") |}.

Definition registry : @SessionRegistry unit := createSession 0 "s1" "ann" tt DEFAULT_SESSION_TTL no_sessions.

Definition keys : option (list ascii) :=
  Some (text "bad entry,scheduler: 0123456789abcdef0123456789abcdef ,weak:short").

Definition cron : HttpRequest :=
  {| rq_serviceKey := Some (One (text "0123456789abcdef0123456789abcdef")); rq_authorization := None |}.

Example demoted_admin_refused :
  (protected no_hash sample_verify current_role 1000 keys [PAYOUT_MANAGE] request registry).2 = Err Forbidden.
Proof. vm_compute. reflexivity. Qed.

Example service_key_accepted :
  (protected no_hash sample_verify current_role 1000 keys [FPL_SYNC] cron registry).2 = Ok (ServicePrincipal (text "scheduler")).
Proof. vm_compute. reflexivity. Qed.

End Sample.

(** The demoted administrator still syncs, as the moderator the account is now. *)
Lemma protected_route_sound_witness :
  protected Sample.no_hash Sample.sample_verify Sample.current_role 1000 Sample.keys [FPL_SYNC] Sample.request Sample.registry =
    (Sample.registry, Ok (UserPrincipal "ann" MODERATOR (Some "s1"))) ∧
  Sample.current_role "ann" = Some MODERATOR ∧
  (isSessionValid 1000 "s1" "ann" Sample.registry).2 = true.
Proof.
  assert (protected Sample.no_hash Sample.sample_verify Sample.current_role 1000 Sample.keys [FPL_SYNC] Sample.request Sample.registry =
    (Sample.registry, Ok (UserPrincipal "ann" MODERATOR (Some "s1")))) as E by (vm_compute; reflexivity).
  destruct (protected_route_sound _ _ _ _ _ _ _ _ _ _ E) as (_ & (h & t & p & _ & _ & _ & _ & _ & _ & Hs) & Hr).
  split_and!; [done| |by rewrite Hs].
  apply Hr. exists FPL_SYNC. split; [by left|]. by apply (bool_decide_unpack _).
Defined.
