(* ===== verification/JwtKeys.v ===== *)
(** * Rotating signing keys: [backend/src/services/auth/jwtKeyRing.ts],
      [backend/src/services/auth/jwtKeyRotationService.ts], [backend/src/config/jwt.ts]

    The ring a node signs and verifies with, the store of keys the nodes share,
    and the service that refreshes rings, rotates keys and revokes them.  The
    rings' methods are functions; the service's are sequences of awaits, a step
    relation over the clock, the store, the nodes and the calls in progress.

    The token library and the cryptography are an interface with the documented
    laws.  [jw_ever] remembers every key ever inserted, [nd_readAt] when a ring's
    contents were read and [nd_handled] the revocations a node has seen; they
    decide nothing. *)

From S2P Require Import Prelude Auth.

#[local] Open Scope Z_scope.

Definition REFRESH_INTERVAL_MS : Z := 60000.
Definition PRE_PUBLISH_MS : Z := 5 * 60000.
Definition CLOCK_SKEW_MS : Z := 60000.
Definition UNKNOWN_KID_REFRESH_COOLDOWN_MS : Z := 5000.
Definition REVOKED_KEY_RETENTION_MS : Z := 30 * 24 * 60 * 60000.

(** The errors [verify] adds to those of the library. *)
Inductive KeyRingError : Type :=
| Malformed | UnknownKey | RetiredKey | LegacyRefused | NoSigningKey | Library (e : JwtError).

(** ** The library *)

Class TokenLibrary (P K E T : Type) : Type := {
  jwt_sign : JwtPayload → K → string → Z → Z → T;
  jwt_decode : T → option (option string);
  jwt_verify : T → P → Z → result JwtError JwtPayload;
  jwt_verify_hs256 : T → string → Z → result JwtError JwtPayload;
  encryptPrivateKey : K → string → E;
  decryptPrivateKey : E → string → option K;
  matching : P → K → Prop
}.

(** A token verifies with its pair's public key until its second of expiry. *)
Class TokenLaws (P K E T : Type) `{TokenLibrary P K E T} : Prop := {
  decode_sign p k kid at_ lifetime : jwt_decode (jwt_sign p k kid at_ lifetime) = Some (Some kid);
  verify_sign p q k kid at_ lifetime now : matching q k → now / 1000 < at_ / 1000 + lifetime →
    jwt_verify (jwt_sign p k kid at_ lifetime) q now = Ok p;
  decrypt_encrypt k kid : decryptPrivateKey (encryptPrivateKey k kid) kid = Some k
}.

(** The scan of [currentSigningKey] and of [rotate]: the first with the greatest
    [f]. *)
Definition pick_latest {A} (f : A → Z) (l : list A) : option A :=
  foldl (λ current x, match current with
                      | Some c => if f c <? f x then Some x else current
                      | None => Some x
                      end) None l.

Lemma pick_latest_spec {A} (f : A → Z) (l : list A) :
  match pick_latest f l with
  | Some c => c ∈ l ∧ ∀ x, x ∈ l → f x ≤ f c
  | None => l = []
  end.
Proof.
  unfold pick_latest. set (g := λ _ _, _). assert (∀ l acc, ∃ c, foldl g (Some acc) l = Some c ∧
    (c = acc ∨ c ∈ l) ∧ f acc ≤ f c ∧ ∀ x, x ∈ l → f x ≤ f c) as H.
  { clear l. induction l as [|y l IH]; intros acc; cbn [foldl].
    - exists acc. split_and!; [done|by left|done|by intros ? ?%elem_of_nil].
    - unfold g at 2. destruct (Z.ltb_spec (f acc) (f y)) as [Hlt|Hge].
      + destruct (IH y) as (c & -> & Hc & H1 & H2). exists c. split_and!; [done| |lia|].
        * right. destruct Hc as [->|Hc]; [by left|by right].
        * intros x [->|Hx]%elem_of_cons; [done|by apply H2].
      + destruct (IH acc) as (c & -> & Hc & H1 & H2). exists c. split_and!; [done| |done|].
        * destruct Hc as [->|Hc]; [by left|right; by right].
        * intros x [->|Hx]%elem_of_cons; [lia|by apply H2]. }
  destruct l as [|y l]; [done|]. cbn [foldl]. unfold g at 2. destruct (H l y) as (c & -> & Hc & H1 & H2).
  split; [destruct Hc as [->|Hc]; [by left|by right]|]. intros x [->|Hx]%elem_of_cons; [done|by apply H2].
Qed.

Section keys.
Context {P K E T : Type} `{HL : TokenLaws P K E T}.

(** ** The ring *)

Record JwtSigningKey : Type := {
  sk_kid : string;
  sk_publicKey : P;
  sk_privateKey : option K;
  sk_activatesAt : Z;
  sk_retiresAt : option Z
}.

Definition KeyRing : Type := list (string * JwtSigningKey).

Definition isRetired (key : JwtSigningKey) (now : Z) : bool :=
  match sk_retiresAt key with Some r => r <=? now | None => false end.

Definition replaceAll (keys : list JwtSigningKey) : KeyRing :=
  foldl (λ m k, map_set (sk_kid k) k m) [] keys.

Definition ring_remove (kid : string) (ring : KeyRing) : KeyRing := map_delete kid ring.

Definition can_sign (now : Z) (key : JwtSigningKey) : bool :=
  bool_decide (is_Some (sk_privateKey key)) && (sk_activatesAt key <=? now) && negb (isRetired key now).

(** The last activated key that can sign: the loop skips the others. *)
Definition currentSigningKey (now : Z) (ring : KeyRing) : option JwtSigningKey :=
  pick_latest sk_activatesAt (List.filter (can_sign now) ring.*2).

(** [sign] in production: no ephemeral keys. *)
Definition ring_sign (now lifetime : Z) (payload : JwtPayload) (ring : KeyRing) : result KeyRingError T :=
  match currentSigningKey now ring with
  | Some key => match sk_privateKey key with
                | Some k => Ok (jwt_sign payload k (sk_kid key) now lifetime)
                | None => Err NoSigningKey
                end
  | None => Err NoSigningKey
  end.

Definition library {A} (r : result JwtError A) : result KeyRingError A :=
  match r with Ok a => Ok a | Err e => Err (Library e) end.

Definition verifyLegacy (legacySecret : option string) (now : Z) (token : T) : result KeyRingError JwtPayload :=
  match given legacySecret with
  | None => Err LegacyRefused
  | Some secret => library (jwt_verify_hs256 token secret now)
  end.

Definition ring_verify (legacySecret : option string) (now : Z) (token : T) (ring : KeyRing) : result KeyRingError JwtPayload :=
  match jwt_decode token with
  | None => Err Malformed
  | Some kid =>
      match given kid with
      | None => verifyLegacy legacySecret now token
      | Some kid =>
          match map_get kid ring with
          | None => Err UnknownKey
          | Some key => if isRetired key now then Err RetiredKey else library (jwt_verify token (sk_publicKey key) now)
          end
      end
  end.

(** What the middleware of [Auth] sees of it. *)
Definition verifyAccessToken (legacySecret : option string) (ring : KeyRing) (now : Z) (token : T) : result JwtError JwtPayload :=
  match ring_verify legacySecret now token ring with
  | Ok p => Ok p
  | Err (Library e) => Err e
  | Err _ => Err JsonWebTokenError
  end.

Definition publicJwks (now : Z) (ring : KeyRing) : list (string * P) :=
  (λ key, (sk_kid key, sk_publicKey key)) <$>
    sort_by (desc sk_activatesAt) (List.filter (λ key, negb (isRetired key now)) ring.*2).

(** ** The store *)

Record JwtKeyRecord : Type := {
  kr_kid : string;
  kr_publicJwk : P;
  kr_encryptedPrivateKey : E;
  kr_activatesAt : Z;
  kr_retiresAt : option Z;
  kr_revokedAt : option Z
}.

Definition usable (now : Z) (r : JwtKeyRecord) : bool :=
  match kr_revokedAt r with Some _ => false | None =>
    match kr_retiresAt r with Some t => now <? t | None => true end end.

Definition listUsable (now : Z) (store : list JwtKeyRecord) : list JwtKeyRecord := List.filter (usable now) store.

Definition find_key (kid : string) (store : list JwtKeyRecord) : option JwtKeyRecord :=
  List.find (λ r, bool_decide (kr_kid r = kid)) store.

(** The key id is the primary key. *)
Definition insert_key (r : JwtKeyRecord) (store : list JwtKeyRecord) : option (list JwtKeyRecord) :=
  if existsb (λ x, bool_decide (kr_kid x = kr_kid r)) store then None else Some (store ++ [r]).

Definition set_retires (t : Z) (r : JwtKeyRecord) : JwtKeyRecord :=
  {| kr_kid := kr_kid r; kr_publicJwk := kr_publicJwk r; kr_encryptedPrivateKey := kr_encryptedPrivateKey r;
     kr_activatesAt := kr_activatesAt r; kr_retiresAt := Some t; kr_revokedAt := kr_revokedAt r |}.

Definition setRetiresAt (kids : list string) (t : Z) (store : list JwtKeyRecord) : list JwtKeyRecord :=
  (λ r, if bool_decide (kr_kid r ∈ kids) then set_retires t r else r) <$> store.

Definition revoke_key (kid : string) (t : Z) (store : list JwtKeyRecord) : list JwtKeyRecord :=
  (λ r, if bool_decide (kr_kid r = kid) then
     {| kr_kid := kr_kid r; kr_publicJwk := kr_publicJwk r; kr_encryptedPrivateKey := kr_encryptedPrivateKey r;
        kr_activatesAt := kr_activatesAt r; kr_retiresAt := kr_retiresAt r; kr_revokedAt := Some t |} else r) <$> store.

(** [if (!record.revokedAt) await this.store.revoke(..)]. *)
Definition revoke_if_unrevoked (kid : string) (t : Z) (store : list JwtKeyRecord) : list JwtKeyRecord :=
  match find_key kid store with
  | Some r => match kr_revokedAt r with None => revoke_key kid t store | Some _ => store end
  | None => store
  end.

(** Retired keys go, and keys revoked long ago. *)
Definition dead_key (now : Z) (r : JwtKeyRecord) : bool :=
  match kr_retiresAt r with Some t => t <=? now | None => false end ||
  match kr_revokedAt r with Some t => t <=? now - REVOKED_KEY_RETENTION_MS | None => false end.

Definition prune (now : Z) (store : list JwtKeyRecord) : list JwtKeyRecord * Z :=
  (List.filter (λ r, negb (dead_key now r)) store, countb (dead_key now) store).

Definition toSigningKey (r : JwtKeyRecord) : JwtSigningKey :=
  {| sk_kid := kr_kid r; sk_publicKey := kr_publicJwk r;
     sk_privateKey := decryptPrivateKey (kr_encryptedPrivateKey r) (kr_kid r);
     sk_activatesAt := kr_activatesAt r; sk_retiresAt := kr_retiresAt r |}.

(** ** What a rotation decides *)

Inductive RotationPlan : Type :=
| CreateFirst (activatesAt : Z)
| CreateSuccessor (activatesAt graceEndsAt : Z) (outgoing : list string)
| OnlyPrune.

Definition is_active (now : Z) (r : JwtKeyRecord) : bool := kr_activatesAt r <=? now.

Definition latest (records : list JwtKeyRecord) : option JwtKeyRecord := pick_latest kr_activatesAt records.

(** From the keys [rotate] read at [now]. *)
Definition rotation_plan (rotationIntervalMs tokenLifetimeSeconds now : Z) (usable : list JwtKeyRecord) : RotationPlan :=
  let active := List.filter (is_active now) usable in
  let hasPending := (length active <? length usable)%nat in
  match latest active with
  | None => CreateFirst now
  | Some current =>
      if negb hasPending && (kr_activatesAt current + rotationIntervalMs - PRE_PUBLISH_MS <=? now) then
        let activatesAt := now + PRE_PUBLISH_MS in
        CreateSuccessor activatesAt (activatesAt + tokenLifetimeSeconds * 1000 + CLOCK_SKEW_MS)
          (kr_kid <$> List.filter (λ r, bool_decide (kr_retiresAt r = None)) active)
      else OnlyPrune
  end.

Definition new_key (kid : string) (p : P) (k : K) (activatesAt : Z) : JwtKeyRecord :=
  {| kr_kid := kid; kr_publicJwk := p; kr_encryptedPrivateKey := encryptPrivateKey k kid; kr_activatesAt := activatesAt;
     kr_retiresAt := None; kr_revokedAt := None |}.

(** A whole rotation without interruption, on the store. *)
Definition rotate_now (rotationIntervalMs tokenLifetimeSeconds now : Z) (kid : string) (p : P) (k : K)
    (store : list JwtKeyRecord) : list JwtKeyRecord :=
  match rotation_plan rotationIntervalMs tokenLifetimeSeconds now (listUsable now store) with
  | CreateFirst a => (prune now (default store (insert_key (new_key kid p k a) store))).1
  | CreateSuccessor a g outgoing =>
      (prune now (setRetiresAt outgoing g (default store (insert_key (new_key kid p k a) store)))).1
  | OnlyPrune => (prune now store).1
  end.

(** ** Nodes and calls *)

Record Node : Type := {
  nd_ring : KeyRing;
  nd_readAt : option Z;
  nd_epoch : nat;
  nd_handled : list string
}.

Definition new_node : Node := {| nd_ring := []; nd_readAt := None; nd_epoch := 0; nd_handled := [] |}.

(** [refresh] and [rotate] between two awaits; [now] is the time they asked the
    clock for. *)
Inductive KeyCall : Type :=
| Refreshing (node epoch : nat) (now : Z)
| RefreshRead (node epoch : nat) (records : list JwtKeyRecord) (readAt : Z)
| RotateList (now : Z)
| RotateInsert (now : Z) (plan : RotationPlan)
| RotateRetire (now activatesAt graceEndsAt : Z) (outgoing : list string)
| RotatePrune (now : Z).

Record EverKey : Type := { ek_activatesAt : Z; ek_createdAt : Z; ek_successor : bool; ek_key : P * E }.

Record KeyWorld : Type := {
  jw_now : Z;
  jw_store : list JwtKeyRecord;
  jw_nodes : gmap nat Node;
  jw_calls : gmap nat KeyCall;
  jw_ever : gmap string EverKey;
  jw_revoked : list string
}.

Definition set_store (store : list JwtKeyRecord) (w : KeyWorld) : KeyWorld :=
  {| jw_now := jw_now w; jw_store := store; jw_nodes := jw_nodes w; jw_calls := jw_calls w; jw_ever := jw_ever w;
     jw_revoked := jw_revoked w |}.

Definition set_node (i : nat) (n : Node) (w : KeyWorld) : KeyWorld :=
  {| jw_now := jw_now w; jw_store := jw_store w; jw_nodes := <[i := n]> (jw_nodes w); jw_calls := jw_calls w;
     jw_ever := jw_ever w; jw_revoked := jw_revoked w |}.

Definition set_call (cid : nat) (c : option KeyCall) (w : KeyWorld) : KeyWorld :=
  {| jw_now := jw_now w; jw_store := jw_store w; jw_nodes := jw_nodes w;
     jw_calls := match c with Some c => <[cid := c]> (jw_calls w) | None => delete cid (jw_calls w) end;
     jw_ever := jw_ever w; jw_revoked := jw_revoked w |}.

Definition set_ever (kid : string) (k : EverKey) (w : KeyWorld) : KeyWorld :=
  {| jw_now := jw_now w; jw_store := jw_store w; jw_nodes := jw_nodes w; jw_calls := jw_calls w;
     jw_ever := <[kid := k]> (jw_ever w); jw_revoked := jw_revoked w |}.

(** The ring of a refresh that was not overtaken by a revocation. *)
Definition refreshed (records : list JwtKeyRecord) (readAt : Z) (n : Node) : Node :=
  {| nd_ring := replaceAll (toSigningKey <$> records); nd_readAt := Some readAt; nd_epoch := nd_epoch n;
     nd_handled := nd_handled n |}.

(** What a revocation event does on a node. *)
Definition handle_revoked (kid : string) (n : Node) : Node :=
  {| nd_ring := ring_remove kid (nd_ring n); nd_readAt := nd_readAt n; nd_epoch := S (nd_epoch n);
     nd_handled := kid :: nd_handled n |}.

Definition after_plan (now : Z) (plan : RotationPlan) : KeyCall :=
  match plan with OnlyPrune => RotatePrune now | _ => RotateInsert now plan end.

Definition plan_activation (plan : RotationPlan) : option (Z * bool) :=
  match plan with
  | CreateFirst a => Some (a, false)
  | CreateSuccessor a _ _ => Some (a, true)
  | OnlyPrune => None
  end.

Definition after_insert (now : Z) (plan : RotationPlan) : KeyCall :=
  match plan with
  | CreateSuccessor a g outgoing => RotateRetire now a g outgoing
  | _ => RotatePrune now
  end.

Context (rotationIntervalMs lifetime : Z).

(** How long a ring may be in use since it was read, and how long a rotation may
    take from its clock reading to its insertion. *)
Context (max_age max_delay : Z).

Inductive rotation_step : KeyWorld → KeyWorld → Prop :=
| rs_tick w d : 0 ≤ d →
    (∀ i n u, jw_nodes w !! i = Some n → nd_readAt n = Some u → jw_now w + d ≤ u + max_age) →
    rotation_step w {| jw_now := jw_now w + d; jw_store := jw_store w; jw_nodes := jw_nodes w; jw_calls := jw_calls w;
                       jw_ever := jw_ever w; jw_revoked := jw_revoked w |}
| rs_join w i : jw_nodes w !! i = None → rotation_step w (set_node i new_node w)
| rs_refresh w cid i n : jw_nodes w !! i = Some n → jw_calls w !! cid = None →
    rotation_step w (set_call cid (Some (Refreshing i (nd_epoch n) (jw_now w))) w)
| rs_read w cid i e t : jw_calls w !! cid = Some (Refreshing i e t) →
    rotation_step w (set_call cid (Some (RefreshRead i e (listUsable t (jw_store w)) (jw_now w))) w)
| rs_apply w cid i n records u : jw_calls w !! cid = Some (RefreshRead i (nd_epoch n) records u) →
    jw_nodes w !! i = Some n → jw_now w ≤ u + max_age →
    rotation_step w (set_call cid None (set_node i (refreshed records u n) w))
| rs_reread w cid i n e records u : jw_calls w !! cid = Some (RefreshRead i e records u) →
    jw_nodes w !! i = Some n → e ≠ nd_epoch n →
    rotation_step w (set_call cid (Some (Refreshing i (nd_epoch n) (jw_now w))) w)
| rs_rotate w cid : jw_calls w !! cid = None → rotation_step w (set_call cid (Some (RotateList (jw_now w))) w)
| rs_list w cid t : jw_calls w !! cid = Some (RotateList t) → jw_now w ≤ t + max_delay →
    rotation_step w (set_call cid
      (Some (after_plan t (rotation_plan rotationIntervalMs lifetime t (listUsable t (jw_store w))))) w)
| rs_insert w cid t plan a succ kid p k store : jw_calls w !! cid = Some (RotateInsert t plan) →
    plan_activation plan = Some (a, succ) → jw_now w ≤ t + max_delay → jw_ever w !! kid = None → kid ≠ ""%string → matching p k →
    insert_key (new_key kid p k a) (jw_store w) = Some store →
    rotation_step w (set_call cid (Some (after_insert t plan))
      (set_ever kid {| ek_activatesAt := a; ek_createdAt := jw_now w; ek_successor := succ;
                      ek_key := (p, encryptPrivateKey k kid) |} (set_store store w)))
| rs_retire w cid t a g outgoing : jw_calls w !! cid = Some (RotateRetire t a g outgoing) →
    rotation_step w (set_call cid (Some (RotatePrune t)) (set_store (setRetiresAt outgoing g (jw_store w)) w))
| rs_prune w cid t : jw_calls w !! cid = Some (RotatePrune t) →
    rotation_step w (set_call cid None (set_store (prune t (jw_store w)).1 w))
| rs_crash w cid c : jw_calls w !! cid = Some c → rotation_step w (set_call cid None w).

(** Revocations: the row first, then the node itself and, by the event, others. *)
Inductive key_step : KeyWorld → KeyWorld → Prop :=
| ks_rotation w w' : rotation_step w w' → key_step w w'
| ks_revoke w kid : key_step w
    {| jw_now := jw_now w; jw_store := revoke_if_unrevoked kid (jw_now w) (jw_store w); jw_nodes := jw_nodes w;
       jw_calls := jw_calls w; jw_ever := jw_ever w;
       jw_revoked := if bool_decide (is_Some (find_key kid (jw_store w))) then kid :: jw_revoked w else jw_revoked w |}
| ks_handle w i n kid : jw_nodes w !! i = Some n → kid ∈ jw_revoked w → key_step w (set_node i (handle_revoked kid n) w).

Definition no_keys (now : Z) : KeyWorld :=
  {| jw_now := now; jw_store := []; jw_nodes := ∅; jw_calls := ∅; jw_ever := ∅; jw_revoked := [] |}.

(** ** Rings as lists of keys *)

Lemma replaceAll_app acc keys : NoDup (acc.*1 ++ (sk_kid <$> keys)) →
  foldl (λ m k, map_set (sk_kid k) k m) acc keys = acc ++ ((λ k, (sk_kid k, k)) <$> keys).
Proof.
  revert acc. induction keys as [|k keys IH]; intros acc Hn; cbn; [by rewrite app_nil_r|].
  assert (map_set (sk_kid k) k acc = acc ++ [(sk_kid k, k)]) as ->.
  { apply NoDup_app in Hn as (_ & Hd & _). assert (sk_kid k ∉ acc.*1) as Hk by (intros Hin; apply (Hd _ Hin); by left).
    clear -Hk. induction acc as [|[a b] acc IH]; [done|]. cbn in *. rewrite decide_False by set_solver.
    rewrite IH by set_solver. done. }
  rewrite IH; [by rewrite <- app_assoc|]. rewrite fmap_app. cbn. by rewrite <- app_assoc.
Qed.

Lemma replaceAll_eq keys : NoDup (sk_kid <$> keys) → replaceAll keys = (λ k, (sk_kid k, k)) <$> keys.
Proof. intros Hn. unfold replaceAll. by rewrite replaceAll_app. Qed.

Lemma keyed_get keys kid : NoDup (sk_kid <$> keys) →
  ∀ key, map_get kid ((λ k, (sk_kid k, k)) <$> keys) = Some key ↔ key ∈ keys ∧ sk_kid key = kid.
Proof.
  induction keys as [|k keys IH]; cbn; intros Hn key; [split; [done|by intros [?%elem_of_nil _]]|].
  apply NoDup_cons in Hn as [Hk Hn]. destruct (decide (kid = sk_kid k)) as [->|Hne].
  - split; [intros [= <-]; by split; [left|]|]. intros [[->|Hin]%elem_of_cons Ekid]; [done|].
    destruct Hk. rewrite <- Ekid. apply list_elem_of_fmap. by exists key.
  - rewrite IH by done. rewrite elem_of_cons. split; [by intros [H1 H2]; auto|]. intros [[->|H1] H2]; [done|by split].
Qed.

Lemma current_spec now keys :
  match currentSigningKey now ((λ k, (sk_kid k, k)) <$> keys) with
  | Some c => c ∈ keys ∧ can_sign now c = true ∧ ∀ x, x ∈ keys → can_sign now x = true → sk_activatesAt x ≤ sk_activatesAt c
  | None => ∀ x, x ∈ keys → can_sign now x = false
  end.
Proof.
  unfold currentSigningKey. rewrite <- list_fmap_compose, list_fmap_id.
  pose proof (pick_latest_spec sk_activatesAt (List.filter (can_sign now) keys)) as Hp.
  assert (∀ x, x ∈ List.filter (can_sign now) keys ↔ x ∈ keys ∧ can_sign now x = true) as Hin
    by (intros x; by rewrite !list_elem_of_In, filter_In).
  destruct (pick_latest _ _) as [c|].
  - destruct Hp as [[H1 H2]%Hin Hm]. split_and!; [done|done|]. intros x Hx Hs. by apply Hm, Hin.
  - intros x Hx. destruct (can_sign now x) eqn:Es; [|done].
    assert (x ∈ List.filter (can_sign now) keys) as Hc by by apply Hin. rewrite Hp in Hc. by apply elem_of_nil in Hc.
Qed.

(** ** What the keys keep while none is revoked *)

(** What the operators provide for: the pre-publication covers the age of a ring
    and the delay of an insertion. *)
Hypothesis timing : 0 ≤ lifetime ∧ 0 ≤ max_age ∧ 0 ≤ max_delay ≤ CLOCK_SKEW_MS ∧ max_age + max_delay < PRE_PUBLISH_MS.

Definition grace (a : Z) : Z := a + lifetime * 1000 + CLOCK_SKEW_MS.

(** [g] is the end of the grace of a key activated at [a]: that of a successor. *)
Definition superseded (ever : gmap string EverKey) (a g : Z) : Prop :=
  ∃ kid e, ever !! kid = Some e ∧ ek_successor e = true ∧ a < ek_activatesAt e ∧ g = grace (ek_activatesAt e).

Definition gone (ever : gmap string EverKey) (a u : Z) : Prop := ∃ g, superseded ever a g ∧ g ≤ u.

Record record_ok (ever : gmap string EverKey) (r : JwtKeyRecord) : Prop := {
  ro_ever : ∃ e, ever !! kr_kid r = Some e ∧ ek_activatesAt e = kr_activatesAt r;
  ro_kid : kr_kid r ≠ ""%string;
  ro_live : kr_revokedAt r = None;
  ro_grace : ∀ g, kr_retiresAt r = Some g → superseded ever (kr_activatesAt r) g;
  ro_pair : ∃ k, decryptPrivateKey (kr_encryptedPrivateKey r) (kr_kid r) = Some k ∧ matching (kr_publicJwk r) k;
  ro_key : ∀ e, ever !! kr_kid r = Some e → ek_key e = (kr_publicJwk r, kr_encryptedPrivateKey r)
}.

(** Some keys, read at [u]: all that were inserted before, but for those whose
    grace had ended. *)
Record view_ok (ever : gmap string EverKey) (records : list JwtKeyRecord) (u : Z) : Prop := {
  vo_kids : NoDup (kr_kid <$> records);
  vo_records : ∀ r, r ∈ records → record_ok ever r;
  vo_all : ∀ kid e, ever !! kid = Some e → ek_createdAt e < u →
    (∃ r, r ∈ records ∧ kr_kid r = kid) ∨ gone ever (ek_activatesAt e) u
}.

(** A key that is or will be inserted. *)
Definition planned (w : KeyWorld) (a : Z) (succ : bool) : Prop :=
  (∃ kid e, jw_ever w !! kid = Some e ∧ ek_activatesAt e = a ∧ ek_successor e = succ) ∨
  (∃ cid t plan, jw_calls w !! cid = Some (RotateInsert t plan) ∧ plan_activation plan = Some (a, succ)).

Definition plan_ok (ever : gmap string EverKey) (t : Z) (plan : RotationPlan) : Prop :=
  match plan with
  | CreateFirst a => a = t
  | CreateSuccessor a g outgoing => a = t + PRE_PUBLISH_MS ∧ g = grace a ∧
      (∃ kid e, ever !! kid = Some e ∧ ek_activatesAt e ≤ t) ∧
      ∀ kid, kid ∈ outgoing → ∃ e, ever !! kid = Some e ∧ ek_activatesAt e ≤ t
  | OnlyPrune => False
  end.

Definition key_call_ok (w : KeyWorld) (c : KeyCall) : Prop :=
  match c with
  | Refreshing _ _ t | RotateList t | RotatePrune t => t ≤ jw_now w
  | RefreshRead _ _ records u => u ≤ jw_now w ∧ view_ok (jw_ever w) records u
  | RotateInsert t plan => t ≤ jw_now w ∧ plan_ok (jw_ever w) t plan
  | RotateRetire t a g outgoing => t ≤ jw_now w ∧ g = grace a ∧
      (∃ kid e, jw_ever w !! kid = Some e ∧ ek_activatesAt e = a ∧ ek_successor e = true) ∧
      ∀ kid, kid ∈ outgoing → ∃ e, jw_ever w !! kid = Some e ∧ ek_activatesAt e < a
  end.

Definition node_ok (w : KeyWorld) (n : Node) : Prop :=
  match nd_readAt n with
  | None => nd_ring n = []
  | Some u => u ≤ jw_now w ≤ u + max_age ∧
      ∃ records, nd_ring n = replaceAll (toSigningKey <$> records) ∧ view_ok (jw_ever w) records u
  end.

Record keys_inv (w : KeyWorld) : Prop := {
  ki_created : ∀ kid e, jw_ever w !! kid = Some e → ek_createdAt e ≤ jw_now w ∧
    if ek_successor e then ek_createdAt e + PRE_PUBLISH_MS ≤ ek_activatesAt e + max_delay
    else ek_activatesAt e ≤ ek_createdAt e;
  ki_order : ∀ a b, planned w a false → planned w b true → a < b;
  ki_kids : NoDup (kr_kid <$> jw_store w);
  ki_store : ∀ r, r ∈ jw_store w → record_ok (jw_ever w) r;
  ki_kept : ∀ kid e, jw_ever w !! kid = Some e →
    (∃ r, r ∈ jw_store w ∧ kr_kid r = kid) ∨ gone (jw_ever w) (ek_activatesAt e) (jw_now w);
  ki_nodes : ∀ i n, jw_nodes w !! i = Some n → node_ok w n;
  ki_calls : ∀ cid c, jw_calls w !! cid = Some c → key_call_ok w c
}.

(** *** Growth *)

Lemma superseded_mono ever ever' a g : ever ⊆ ever' → superseded ever a g → superseded ever' a g.
Proof. intros Hs (kid & e & H1 & H2). exists kid, e. split; [by eapply lookup_weaken|done]. Qed.

Lemma gone_mono ever ever' a u u' : ever ⊆ ever' → u ≤ u' → gone ever a u → gone ever' a u'.
Proof. intros Hs Hu (g & H1 & H2). exists g. split; [by eapply superseded_mono|lia]. Qed.

Lemma record_ok_mono ever ever' r : ever ⊆ ever' → record_ok ever r → record_ok ever' r.
Proof.
  intros Hs [(e & He & Ea) H2 H3 H4 H5 H6]. pose proof (lookup_weaken _ _ _ _ He Hs) as He2. split; try done.
  - by exists e.
  - intros g Hg. by eapply superseded_mono, H4.
  - intros e' He'. apply H6. congruence.
Qed.

(** A key inserted at [now] is newer than anything read so far. *)
Lemma view_ok_insert ever records u kid e : ever !! kid = None → u ≤ ek_createdAt e →
  view_ok ever records u → view_ok (<[kid := e]> ever) records u.
Proof.
  intros Hnew Hu [H1 H2 H3]. pose proof (insert_subseteq ever kid e Hnew) as Hs. split; [done| |].
  - intros r Hr. by eapply record_ok_mono, H2.
  - intros kid' e' He' Hc. destruct (decide (kid' = kid)) as [->|Hne].
    + rewrite lookup_insert_eq in He'. injection He' as <-. lia.
    + rewrite lookup_insert_ne in He' by done. destruct (H3 kid' e' He' Hc) as [|Hg]; [by left|right].
      eapply gone_mono; [exact Hs|reflexivity|done].
Qed.

(** The key activated last up to [t] has not lost its grace by then. *)
Lemma last_activated (ever : gmap string EverKey) t : (∃ kid e, ever !! kid = Some e ∧ ek_activatesAt e ≤ t) →
  ∃ kid e, ever !! kid = Some e ∧ ek_activatesAt e ≤ t ∧
    (∀ kid' e', ever !! kid' = Some e' → ek_activatesAt e' ≤ t → ek_activatesAt e' ≤ ek_activatesAt e) ∧
    ∀ g, superseded ever (ek_activatesAt e) g → grace t < g.
Proof.
  intros (k0 & e0 & H0 & Ha0).
  pose proof (pick_latest_spec (λ p : string * EverKey, ek_activatesAt p.2)
    (List.filter (λ p, ek_activatesAt p.2 <=? t) (map_to_list ever))) as Hp.
  assert (∀ p, p ∈ List.filter (λ p : string * EverKey, ek_activatesAt p.2 <=? t) (map_to_list ever) ↔
    ever !! p.1 = Some p.2 ∧ ek_activatesAt p.2 ≤ t) as Hin.
  { intros [k e]. rewrite list_elem_of_In, filter_In, <- list_elem_of_In, elem_of_map_to_list. cbn. by rewrite Z.leb_le. }
  destruct (pick_latest _ _) as [[k e]|].
  - destruct Hp as [[Hk He]%Hin Hm]. cbn in *. exists k, e.
    assert (∀ kid' e', ever !! kid' = Some e' → ek_activatesAt e' ≤ t → ek_activatesAt e' ≤ ek_activatesAt e) as Hmax.
    { intros kid' e' He' Hle. by apply (Hm (kid', e')), Hin. }
    split_and!; [done..|]. intros g (k' & e' & He' & _ & Hlt & ->). unfold grace.
    destruct (Z.le_gt_cases (ek_activatesAt e') t) as [Hle|]; [specialize (Hmax k' e' He' Hle); lia|lia].
  - assert ((k0, e0) ∈ List.filter (λ p : string * EverKey, ek_activatesAt p.2 <=? t) (map_to_list ever)) as Hc
      by by apply Hin. rewrite Hp in Hc. by apply elem_of_nil in Hc.
Qed.

(** The keys ever inserted by two moments. *)
Definition ever_grows (w w' : KeyWorld) : Prop :=
  jw_now w ≤ jw_now w' ∧
  (jw_ever w' = jw_ever w ∨
   ∃ kid e, jw_ever w !! kid = None ∧ ek_createdAt e = jw_now w ∧ jw_ever w' = <[kid := e]> (jw_ever w)).

Lemma grows_subseteq w w' : ever_grows w w' → jw_ever w ⊆ jw_ever w'.
Proof. intros [_ [->|(kid & e & Hn & _ & ->)]]; [done|by apply insert_subseteq]. Qed.

Lemma view_ok_grows w w' records u : ever_grows w w' → u ≤ jw_now w → view_ok (jw_ever w) records u →
  view_ok (jw_ever w') records u.
Proof. intros [_ [->|(kid & e & Hn & Hc & ->)]] Hu Hv; [done|]. apply view_ok_insert; [done|lia|done]. Qed.

Lemma plan_ok_mono ever ever' t plan : ever ⊆ ever' → plan_ok ever t plan → plan_ok ever' t plan.
Proof.
  intros Hs. destruct plan as [a|a g outgoing|]; cbn; [done| |done].
  intros (-> & -> & (k & e & He & Ha) & Ho). split_and!; [done|done|exists k, e; split; [by eapply lookup_weaken|done]|].
  intros kid Hk. destruct (Ho kid Hk) as (e' & He' & Ha'). exists e'. split; [by eapply lookup_weaken|done].
Qed.

Lemma call_ok_grows w w' c : ever_grows w w' → key_call_ok w c → key_call_ok w' c.
Proof.
  intros Hg. pose proof (grows_subseteq w w' Hg) as Hs. pose proof (proj1 Hg) as Ht.
  destruct c as [i e t|i e records u|t|t plan|t a g out|t]; cbn; try lia.
  - intros [Hu Hv]. split; [lia|by eapply view_ok_grows].
  - intros [H1 H2]. split; [lia|by eapply plan_ok_mono].
  - intros (H1 & H2 & (k & e & He & Ha) & Ho). split_and!; [lia|done|exists k, e; split; [by eapply lookup_weaken|done]|].
    intros kid Hk. destruct (Ho kid Hk) as (e' & He' & Ha'). exists e'. split; [by eapply lookup_weaken|done].
Qed.

Lemma node_ok_grows w w' n : ever_grows w w' → (∀ u, nd_readAt n = Some u → jw_now w' ≤ u + max_age) →
  node_ok w n → node_ok w' n.
Proof.
  intros Hg Hage. unfold node_ok. destruct (nd_readAt n) as [u|]; [|done]. intros [Hu (records & Hr & Hv)].
  pose proof (proj1 Hg). specialize (Hage u eq_refl). split; [lia|]. exists records. split; [done|].
  eapply view_ok_grows; [done|lia|done].
Qed.

(** *** Reading the store *)

Lemma in_usable t store r : r ∈ listUsable t store ↔ r ∈ store ∧ usable t r = true.
Proof. unfold listUsable. by rewrite !list_elem_of_In, filter_In. Qed.

Lemma usable_grace w t r : keys_inv w → r ∈ jw_store w →
  usable t r = true ∨ ∃ g, superseded (jw_ever w) (kr_activatesAt r) g ∧ g ≤ t.
Proof.
  intros Hw Hr. destruct (ki_store w Hw r Hr) as [_ _ Hl Hg _ _]. unfold usable. rewrite Hl.
  destruct (kr_retiresAt r) as [g|]; [|by left]. destruct (Z.ltb_spec t g); [by left|right]. exists g. by split; [apply Hg|].
Qed.

Lemma read_view w t : keys_inv w → t ≤ jw_now w → view_ok (jw_ever w) (listUsable t (jw_store w)) (jw_now w).
Proof.
  intros Hw Ht. split.
  - apply NoDup_fmap_lfilter, Hw.
  - intros r [Hr _]%in_usable. by apply Hw.
  - intros kid e He _. destruct (ki_kept w Hw kid e He) as [(r & Hr & <-)|]; [|by right].
    destruct (usable_grace w t r Hw Hr) as [Hu|(g & Hg & Hle)].
    + left. exists r. by rewrite in_usable.
    + right. exists g. destruct (ki_store w Hw r Hr) as [(e' & He' & Ea) _ _ _ _ _]. rewrite He in He'. injection He' as <-.
      rewrite Ea. split; [done|lia].
Qed.

(** With no active key in the answer, none was ever activated. *)
Lemma nothing_active w t : keys_inv w → t ≤ jw_now w ≤ t + max_delay →
  List.filter (is_active t) (listUsable t (jw_store w)) = [] → ∀ kid e, jw_ever w !! kid = Some e → t < ek_activatesAt e.
Proof.
  intros Hw Ht Hnil kid e He. apply Z.nle_gt. intros Hle.
  destruct (last_activated (jw_ever w) t) as (k & e1 & He1 & Ha1 & _ & Hgrace); [by exists kid, e|].
  destruct timing as (HT & _ & [_ HW] & _). unfold CLOCK_SKEW_MS in *.
  assert (∀ g, superseded (jw_ever w) (ek_activatesAt e1) g → jw_now w < g ∧ t < g) as Hg.
  { intros g Hs. specialize (Hgrace g Hs). unfold grace, CLOCK_SKEW_MS in Hgrace. lia. }
  destruct (ki_kept w Hw k e1 He1) as [(r & Hr & <-)|(g & Hs & Hle')]; [|specialize (Hg g Hs); lia].
  destruct (ki_store w Hw r Hr) as [(e2 & He2 & Ea) _ _ _ _ _]. rewrite He1 in He2. injection He2 as <-.
  assert (r ∈ List.filter (is_active t) (listUsable t (jw_store w))) as Hin; [|rewrite Hnil in Hin; by apply elem_of_nil in Hin].
  apply list_elem_of_In, filter_In. split; [|unfold is_active; apply Z.leb_le; lia].
  apply list_elem_of_In, in_usable. split; [done|].
  destruct (usable_grace w t r Hw Hr) as [|(g & Hs & Hle')]; [done|]. rewrite <- Ea in Hs. specialize (Hg g Hs). lia.
Qed.

Lemma plan_spec t records : match rotation_plan rotationIntervalMs lifetime t records with
  | CreateFirst a => a = t ∧ List.filter (is_active t) records = []
  | CreateSuccessor a g outgoing => a = t + PRE_PUBLISH_MS ∧ g = grace a ∧
      (∃ r, r ∈ records ∧ kr_activatesAt r ≤ t) ∧
      ∀ kid, kid ∈ outgoing → ∃ r, r ∈ records ∧ kr_kid r = kid ∧ kr_activatesAt r ≤ t
  | OnlyPrune => True
  end.
Proof.
  unfold rotation_plan, latest. pose proof (pick_latest_spec kr_activatesAt (List.filter (is_active t) records)) as Hp.
  assert (∀ r, r ∈ List.filter (is_active t) records → r ∈ records ∧ kr_activatesAt r ≤ t) as Hin.
  { intros r. rewrite list_elem_of_In, filter_In, <- list_elem_of_In. unfold is_active. by rewrite Z.leb_le. }
  destruct (pick_latest _ _) as [c|]; [|by split]. destruct (_ && _); [|done]. split_and!; [done|done| |].
  - exists c. apply Hin, Hp.
  - intros kid (r & -> & Hr)%list_elem_of_fmap. exists r. apply list_elem_of_In, filter_In in Hr as [Hr _].
    apply list_elem_of_In, Hin in Hr. by destruct Hr.
Qed.

(** *** Every step keeps it *)

(** A step that inserts no key: what is left to show. *)
Lemma inv_frame w w' :
  keys_inv w → jw_ever w' = jw_ever w → jw_now w ≤ jw_now w' →
  (∀ a s, planned w' a s → planned w a s) →
  NoDup (kr_kid <$> jw_store w') → (∀ r, r ∈ jw_store w' → record_ok (jw_ever w) r) →
  (∀ r, r ∈ jw_store w → (∃ r', r' ∈ jw_store w' ∧ kr_kid r' = kr_kid r) ∨ gone (jw_ever w) (kr_activatesAt r) (jw_now w')) →
  (∀ i n, jw_nodes w' !! i = Some n → (jw_nodes w !! i = Some n ∧ ∀ u, nd_readAt n = Some u → jw_now w' ≤ u + max_age) ∨ node_ok w' n) →
  (∀ cid c, jw_calls w' !! cid = Some c → jw_calls w !! cid = Some c ∨ key_call_ok w' c) →
  keys_inv w'.
Proof.
  intros [I1 I2 I3 I4 I5 I6 I7] He Ht Hp Hk Hs Hg Hn Hc.
  assert (ever_grows w w') as Hgr by (split; [done|by left]). split.
  - intros kid e. rewrite He. intros Hk'. destruct (I1 kid e Hk'). split; [lia|done].
  - intros a b Ha Hb. by apply I2; apply Hp.
  - done.
  - rewrite He. done.
  - rewrite He. intros kid e Hk'. destruct (I5 kid e Hk') as [(r & Hr & <-)|Hgo].
    + destruct (Hg r Hr) as [Hl|Hgo]; [by left|right]. destruct (I4 r Hr) as [(e' & He' & Ea) _ _ _ _ _].
      rewrite Hk' in He'. injection He' as <-. by rewrite Ea.
    + right. by eapply gone_mono.
  - intros i n Hi. destruct (Hn i n Hi) as [[Hi' Hage]|]; [|done]. eapply node_ok_grows; [done|done|by eapply I6].
  - intros cid c Hi. destruct (Hc cid c Hi) as [Hi'|]; [|done]. eapply call_ok_grows; [done|by eapply I7].
Qed.

Lemma planned_calls w w' a s : jw_ever w' = jw_ever w →
  (∀ cid t plan, jw_calls w' !! cid = Some (RotateInsert t plan) → jw_calls w !! cid = Some (RotateInsert t plan)) →
  planned w' a s → planned w a s.
Proof.
  intros He Hc [(kid & e & H1)|(cid & t & plan & H1 & H2)].
  - left. rewrite He in H1. by exists kid, e.
  - right. exists cid, t, plan. split; [by apply Hc|done].
Qed.

Lemma set_call_lookup cid c w cid' c' : jw_calls (set_call cid c w) !! cid' = Some c' →
  (cid' = cid ∧ c = Some c') ∨ jw_calls w !! cid' = Some c'.
Proof.
  cbn. destruct c as [c|].
  - destruct (decide (cid' = cid)) as [->|Hne]; [rewrite lookup_insert_eq; intros [= ->]; by left|].
    rewrite lookup_insert_ne by done. by right.
  - intros [_ Hl]%lookup_delete_Some. by right.
Qed.

Lemma node_age w i n u : keys_inv w → jw_nodes w !! i = Some n → nd_readAt n = Some u → jw_now w ≤ u + max_age.
Proof. intros Hw Hi Hu. pose proof (ki_nodes w Hw i n Hi) as Hn. unfold node_ok in Hn. rewrite Hu in Hn. lia. Qed.

(** A step that only changes the calls, to [c] which is in order. *)
Lemma inv_call w cid c : keys_inv w →
  (∀ c', c = Some c' → key_call_ok w c' ∧ ∀ t plan, c' ≠ RotateInsert t plan) → keys_inv (set_call cid c w).
Proof.
  intros Hw Hc. apply (inv_frame w); try done; try (by apply Hw).
  - intros a s. apply planned_calls; [done|]. intros cid' t plan [[-> ->]|]%set_call_lookup; [|done].
    by destruct (Hc _ eq_refl) as [_ Hno]; destruct (Hno t plan).
  - intros r Hr. left. by exists r.
  - intros i n Hi. left. split; [done|]. intros u Hu. by eapply (node_age w).
  - intros cid' c' [[-> ->]|]%set_call_lookup; [right|by left]. by destruct (Hc c' eq_refl).
Qed.

Lemma inv_tick w d : keys_inv w → 0 ≤ d →
  (∀ i n u, jw_nodes w !! i = Some n → nd_readAt n = Some u → jw_now w + d ≤ u + max_age) →
  keys_inv {| jw_now := jw_now w + d; jw_store := jw_store w; jw_nodes := jw_nodes w; jw_calls := jw_calls w;
              jw_ever := jw_ever w; jw_revoked := jw_revoked w |}.
Proof.
  intros Hw Hd Hage. apply (inv_frame w); try done; try (by apply Hw); cbn; [lia| | |by left].
  - intros r Hr. left. by exists r.
  - intros i n Hi. left. split; [done|]. intros u Hu. by eapply Hage.
Qed.

Lemma inv_node w i n : keys_inv w → node_ok (set_node i n w) n → keys_inv (set_node i n w).
Proof.
  intros Hw Hn. apply (inv_frame w); try done; try (by apply Hw); cbn; [| |by left].
  - intros r Hr. left. by exists r.
  - intros i' n'. destruct (decide (i' = i)) as [->|Hne].
    + rewrite lookup_insert_eq. intros [= <-]. by right.
    + rewrite lookup_insert_ne by done. intros Hi. left. split; [done|]. intros u Hu. by eapply (node_age w).
Qed.

Lemma inv_store w store : keys_inv w → NoDup (kr_kid <$> store) → (∀ r, r ∈ store → record_ok (jw_ever w) r) →
  (∀ r, r ∈ jw_store w → (∃ r', r' ∈ store ∧ kr_kid r' = kr_kid r) ∨ gone (jw_ever w) (kr_activatesAt r) (jw_now w)) →
  keys_inv (set_store store w).
Proof.
  intros Hw H1 H2 H3. apply (inv_frame w); try done; cbn; [|by left].
  intros i n Hi. left. split; [done|]. intros u Hu. by eapply (node_age w).
Qed.

Lemma inv_plan w cid t plan : keys_inv w → t ≤ jw_now w → plan_ok (jw_ever w) t plan →
  (∀ a s, plan_activation plan = Some (a, s) → ∀ b, planned w b (negb s) → if s then b < a else a < b) →
  keys_inv (set_call cid (Some (RotateInsert t plan)) w).
Proof.
  intros Hw Ht Hp Ho. assert (∀ a s, planned (set_call cid (Some (RotateInsert t plan)) w) a s →
    planned w a s ∨ plan_activation plan = Some (a, s)) as Hpl.
  { intros a s [Hin|(cid' & t' & plan' & Hc & Hpa)]; [left; by left|].
    apply set_call_lookup in Hc as [[-> [= <- <-]]|Hc]; [by right|left; right; by exists cid', t', plan']. }
  destruct Hw as [I1 I2 I3 I4 I5 I6 I7]. split; try done.
  - intros a b [Ha|Ha]%Hpl [Hb|Hb]%Hpl; [by apply I2| | |congruence].
    + apply (Ho b true Hb a Ha).
    + apply (Ho a false Ha b Hb).
  - intros cid' c' [[-> [= <-]]|Hc]%set_call_lookup; [by split|by apply (I7 cid')].
Qed.

Lemma inv_list w cid t : keys_inv w → t ≤ jw_now w ≤ t + max_delay →
  keys_inv (set_call cid (Some (after_plan t (rotation_plan rotationIntervalMs lifetime t (listUsable t (jw_store w))))) w).
Proof.
  intros Hw Ht. pose proof (plan_spec t (listUsable t (jw_store w))) as Hs. pose proof timing as (HT & _ & _ & HD).
  assert (∀ r, r ∈ listUsable t (jw_store w) → ∃ e, jw_ever w !! kr_kid r = Some e ∧ ek_activatesAt e = kr_activatesAt r) as Hev.
  { intros r [Hr _]%in_usable. apply (ki_store w Hw r Hr). }
  destruct (rotation_plan _ _ _ _) as [a|a g out|]; cbn [after_plan].
  - destruct Hs as [-> Hnil]. apply inv_plan; [done|lia|done|]. intros a s [= <- <-] b. cbn [negb].
    pose proof (nothing_active w t Hw ltac:(lia) Hnil) as Hno. intros [(kid & e & He & <- & _)|(cid' & t' & plan & Hc & Hpa)].
    + by eapply Hno.
    + pose proof (ki_calls w Hw cid' _ Hc) as [_ Hok]. destruct plan as [|a' g' o'|]; try done.
      cbn in Hpa. injection Hpa as ->. destruct Hok as (-> & _ & (k & e & He & Hle) & _).
      specialize (Hno k e He). unfold PRE_PUBLISH_MS. lia.
  - destruct Hs as (-> & -> & (r & Hr & Hle) & Hout). apply inv_plan; [done|lia| |].
    + cbn. split_and!; [done|done| |].
      * destruct (Hev r Hr) as (e & He & Ea). exists (kr_kid r), e. split; [done|lia].
      * intros kid Hk. destruct (Hout kid Hk) as (x & Hx & <- & Hxa). destruct (Hev x Hx) as (e & He & Ea).
        exists e. split; [done|lia].
    + intros a s [= <- <-] b. cbn [negb]. intros [(kid & e & He & <- & Hsu)|(cid' & t' & plan & Hc & Hpa)].
      * pose proof (ki_created w Hw kid e He) as [Hc1 Hc2]. rewrite Hsu in Hc2. lia.
      * pose proof (ki_calls w Hw cid' _ Hc) as [Ht' Hok]. destruct plan; try done. cbn in Hpa, Hok. injection Hpa as ->. lia.
  - apply inv_call; [done|]. intros c' [= <-]. split; [cbn; lia|done].
Qed.

Lemma insert_key_rows r store store' : insert_key r store = Some store' →
  store' = store ++ [r] ∧ kr_kid r ∉ kr_kid <$> store.
Proof.
  unfold insert_key. destruct (existsb _ store) eqn:Ee; [done|]. intros [= <-]. split; [done|].
  intros (x & Hx & Hin)%list_elem_of_fmap. enough (existsb (λ x, bool_decide (kr_kid x = kr_kid r)) store = true) by congruence.
  apply existsb_exists. exists x. split; [by apply list_elem_of_In|by apply bool_decide_eq_true].
Qed.

Lemma keys_insert_inv w cid t plan a succ kid p k store : keys_inv w → jw_calls w !! cid = Some (RotateInsert t plan) →
  plan_activation plan = Some (a, succ) → jw_now w ≤ t + max_delay → jw_ever w !! kid = None → kid ≠ ""%string →
  matching p k → insert_key (new_key kid p k a) (jw_store w) = Some store →
  keys_inv (set_call cid (Some (after_insert t plan))
    (set_ever kid {| ek_activatesAt := a; ek_createdAt := jw_now w; ek_successor := succ;
                      ek_key := (p, encryptPrivateKey k kid) |} (set_store store w))).
Proof.
  intros Hw Hcall Hpa Hd Hnew Hkid Hpair (-> & Hfresh)%insert_key_rows. set (w' := set_call _ _ _).
  assert (ever_grows w w') as Hg by (split; [done|right; exists kid; eexists; split; [exact Hnew|split; [|reflexivity]]; reflexivity]).
  pose proof (grows_subseteq w w' Hg) as Hsub. pose proof (ki_calls w Hw cid _ Hcall) as [Ht Hplan].
  assert (∀ b s, planned w' b s → planned w b s) as Hpl.
  { intros b s [(kid' & e & He & Ea & Es)|(cid' & t' & plan' & Hc & Hp)].
    - cbn in He. destruct (decide (kid' = kid)) as [->|Hne].
      + rewrite lookup_insert_eq in He. injection He as <-. cbn in Ea, Es. subst. right. by exists cid, t, plan.
      + rewrite lookup_insert_ne in He by done. left. by exists kid', e.
    - apply set_call_lookup in Hc as [[-> Hc]|Hc]; [|right; by exists cid', t', plan'].
      injection Hc as Hc. by destruct plan. }
  destruct Hw as [I1 I2 I3 I4 I5 I6 I7]. split.
  - intros kid' e. cbn. destruct (decide (kid' = kid)) as [->|Hne].
    + rewrite lookup_insert_eq. intros [= <-]. cbn. split; [lia|].
      destruct plan as [b|b g o|]; cbn in Hpa; [| |done]; injection Hpa as -> <-; cbn in Hplan; [lia|].
      destruct Hplan as (-> & _). lia.
    + rewrite lookup_insert_ne by done. apply I1.
  - intros b c Hb Hc. by apply I2; apply Hpl.
  - cbn. rewrite fmap_app. apply NoDup_snoc; [done|exact Hfresh].
  - cbn. intros r [Hr|Hr]%elem_of_app; [eapply record_ok_mono; [exact Hsub|by apply I4]|].
    apply list_elem_of_singleton in Hr as ->. split; cbn; try done.
    + eexists. rewrite lookup_insert_eq. by split.
    + exists k. split; [apply decrypt_encrypt|done].
    + intros e. rewrite lookup_insert_eq. by intros [= <-].
  - cbn. intros kid' e. destruct (decide (kid' = kid)) as [->|Hne].
    + intros _. left. exists (new_key kid p k a). split; [apply elem_of_app; right; by left|done].
    + rewrite lookup_insert_ne by done. intros He. destruct (I5 kid' e He) as [(r & Hr & <-)|Hgo].
      * left. exists r. split; [apply elem_of_app; by left|done].
      * right. by eapply gone_mono; [exact Hsub|reflexivity|].
  - intros i n Hi. eapply node_ok_grows; [done| |by eapply I6]. intros u Hu.
    pose proof (I6 i n Hi) as Hn. unfold node_ok in Hn. rewrite Hu in Hn. cbn. lia.
  - intros cid' c [[-> [= <-]]|Hc]%set_call_lookup; [|by eapply call_ok_grows, (I7 cid')].
    destruct plan as [b|b g o|]; cbn in *; try done. injection Hpa as -> <-. destruct Hplan as (-> & -> & _ & Ho).
    split_and!; [done|done|eexists kid, _; rewrite lookup_insert_eq; by split_and!|].
    intros kid' Hk'. destruct (Ho kid' Hk') as (e & He & Hle). exists e. split; [by eapply lookup_weaken|].
    unfold PRE_PUBLISH_MS. lia.
Qed.

Lemma inv_retire w t a g out : keys_inv w → key_call_ok w (RotateRetire t a g out) →
  keys_inv (set_store (setRetiresAt out g (jw_store w)) w).
Proof.
  intros Hw (Ht & -> & (k & e & He & Ea & Es) & Ho).
  assert (∀ r, r ∈ jw_store w → ∃ r', r' ∈ setRetiresAt out (grace a) (jw_store w) ∧ kr_kid r' = kr_kid r) as Hkeep.
  { intros r Hr. exists (if bool_decide (kr_kid r ∈ out) then set_retires (grace a) r else r). split; [|by case_bool_decide].
    apply list_elem_of_fmap. by exists r. }
  apply inv_store; [done| | |].
  - assert (kr_kid <$> setRetiresAt out (grace a) (jw_store w) = kr_kid <$> jw_store w) as ->; [|apply Hw].
    unfold setRetiresAt. rewrite <- list_fmap_compose. apply list_fmap_ext. intros i r _. cbn. by case_bool_decide.
  - intros r (x & -> & Hx)%list_elem_of_fmap. pose proof (ki_store w Hw x Hx) as Hok. case_bool_decide as Hin; [|done].
    destruct Hok as [(e' & He' & Ea') H2 H3 _ H5 H6]. split; try done; [by exists e'|].
    cbn. intros g [= <-]. exists k, e. destruct (Ho _ Hin) as (e2 & He2 & Hlt). rewrite He' in He2. injection He2 as <-.
    split_and!; [done|done|lia|congruence].
  - intros r Hr. left. by apply Hkeep.
Qed.

Lemma inv_prune w t : keys_inv w → t ≤ jw_now w → keys_inv (set_store (prune t (jw_store w)).1 w).
Proof.
  intros Hw Ht. assert (∀ r, r ∈ (prune t (jw_store w)).1 ↔ r ∈ jw_store w ∧ dead_key t r = false) as Hin.
  { intros r. cbn. by rewrite !list_elem_of_In, filter_In, negb_true_iff. }
  apply inv_store; [done| | |].
  - apply NoDup_fmap_lfilter, Hw.
  - intros r [Hr _]%Hin. by apply Hw.
  - intros r Hr. destruct (dead_key t r) eqn:Ed; [right|left; exists r; by rewrite Hin].
    destruct (ki_store w Hw r Hr) as [_ _ Hl Hg _ _]. unfold dead_key in Ed. rewrite Hl, orb_false_r in Ed.
    destruct (kr_retiresAt r) as [g|]; [|done]. apply Z.leb_le in Ed. exists g. split; [by apply Hg|lia].
Qed.

Lemma rotation_step_inv w w' : keys_inv w → rotation_step w w' → keys_inv w'.
Proof.
  intros Hw Hstep. destruct Hstep as [w d Hd Hage|w i Hi|w cid i n Hi Hc|w cid i e t Hc|w cid i n records u Hc Hi Hage
    |w cid i n e records u Hc Hi He|w cid Hc|w cid t Hc Hd|w cid t plan a succ kid p k store Hc Hpa Hd Hnew Hkid Hp Hs
    |w cid t a g out Hc|w cid t Hc|w cid c Hc].
  - by apply inv_tick.
  - by apply inv_node.
  - apply inv_call; [done|]. intros c [= <-]. split; [cbn; lia|done].
  - apply inv_call; [done|]. intros c [= <-]. split; [|done]. pose proof (ki_calls w Hw cid _ Hc) as Ht. cbn in *.
    split; [lia|by apply read_view].
  - pose proof (ki_calls w Hw cid _ Hc) as [Hu Hv]. apply inv_call; [|by intros c [=]].
    apply inv_node; [done|]. cbn. split; [lia|]. by exists records.
  - apply inv_call; [done|]. intros c [= <-]. split; [cbn; lia|done].
  - apply inv_call; [done|]. intros c [= <-]. split; [cbn; lia|done].
  - pose proof (ki_calls w Hw cid _ Hc) as Ht. cbn in Ht. apply inv_list; [done|lia].
  - by eapply keys_insert_inv.
  - pose proof (ki_calls w Hw cid _ Hc) as Hok. apply inv_call; [by eapply inv_retire|].
    intros c [= <-]. split; [apply Hok|done].
  - pose proof (ki_calls w Hw cid _ Hc) as Ht. cbn in Ht. apply inv_call; [by apply inv_prune|by intros c [=]].
  - apply inv_call; [done|by intros c' [=]].
Qed.

Lemma no_keys_inv t : keys_inv (no_keys t).
Proof.
  split; cbn.
  - intros kid e. by rewrite lookup_empty.
  - intros a b [(k & e & He & _)|(c & t' & p & Hc & _)]; cbn in *; by rewrite lookup_empty in *.
  - constructor.
  - by intros r ?%elem_of_nil.
  - intros kid e. by rewrite lookup_empty.
  - intros i n. by rewrite lookup_empty.
  - intros c k. by rewrite lookup_empty.
Qed.

Lemma rotation_inv t w : rtc rotation_step (no_keys t) w → keys_inv w.
Proof.
  intros Hr. pose proof (no_keys_inv t) as H0. revert H0. induction Hr as [|a b c Hab _ IH]; [done|].
  intros Ha. by eapply IH, rotation_step_inv.
Qed.

(** ** A token outlives no rotation *)

Lemma step_grows w w' : rotation_step w w' → ever_grows w w'.
Proof.
  destruct 1; try (split; [cbn; lia|by left]).
  split; [done|]. right. exists kid. eexists. split; [done|]. split; [|reflexivity]. done.
Qed.

(** What happens to the keys later. *)
Lemma run_grows w w' : keys_inv w → rtc rotation_step w w' →
  keys_inv w' ∧ jw_ever w ⊆ jw_ever w' ∧ jw_now w ≤ jw_now w' ∧
  ∀ kid e, jw_ever w' !! kid = Some e → jw_ever w !! kid = None → jw_now w ≤ ek_createdAt e.
Proof.
  intros Hw Hr. revert Hw. induction Hr as [|a b c Hab _ IH]; intros Ha; [split_and!; [done|done|done|congruence]|].
  pose proof (rotation_step_inv a b Ha Hab) as Hb. destruct (IH Hb) as (Hc & Hs & Ht & Hn).
  pose proof (step_grows a b Hab) as Hg. pose proof (grows_subseteq a b Hg) as Hs1. pose proof (proj1 Hg) as Ht1.
  split_and!; [done|by transitivity (jw_ever b)|lia|]. intros kid e He Hnone.
  destruct (jw_ever b !! kid) as [e'|] eqn:Eb; [|specialize (Hn kid e He Eb); lia].
  rewrite (lookup_weaken _ _ _ _ Eb Hs) in He. injection He as <-.
  destruct Hg as [_ [E0|(k & e0 & Hk & Hc0 & E0)]]; rewrite E0 in Eb; [congruence|].
  destruct (decide (kid = k)) as [->|Hne]; [rewrite lookup_insert_eq in Eb; injection Eb as <-; lia|].
  rewrite lookup_insert_ne in Eb by done. congruence.
Qed.

Lemma ring_of_view records : NoDup (kr_kid <$> records) →
  replaceAll (toSigningKey <$> records) = (λ k, (sk_kid k, k)) <$> (toSigningKey <$> records) ∧
  NoDup (sk_kid <$> (toSigningKey <$> records)).
Proof.
  intros Hn. assert (sk_kid <$> (toSigningKey <$> records) = kr_kid <$> records) as Hk
    by (rewrite <- list_fmap_compose; apply list_fmap_ext; done).
  split; [apply replaceAll_eq|]; by rewrite Hk.
Qed.

(** A node stops signing with a key before its successor activates. *)
Lemma signing_key_is_last w i n key :
  keys_inv w → jw_nodes w !! i = Some n → currentSigningKey (jw_now w) (nd_ring n) = Some key →
  ∃ r, record_ok (jw_ever w) r ∧ key = toSigningKey r ∧ kr_activatesAt r ≤ jw_now w ∧
    ∀ kid e, jw_ever w !! kid = Some e → ek_successor e = true → kr_activatesAt r < ek_activatesAt e →
      jw_now w < ek_activatesAt e.
Proof.
  intros Hw Hi Hk. pose proof (ki_nodes w Hw i n Hi) as Hn. unfold node_ok in Hn.
  destruct (nd_readAt n) as [u|]; [|by rewrite Hn in Hk]. destruct Hn as [Hu (records & Er & Hv)].
  destruct (ring_of_view records (vo_kids _ _ _ Hv)) as [Ering Hnd]. rewrite Er, Ering in Hk.
  pose proof (current_spec (jw_now w) (toSigningKey <$> records)) as Hspec. rewrite Hk in Hspec.
  destruct Hspec as ((r & -> & Hr)%list_elem_of_fmap & Hs & Hmax). exists r.
  pose proof (vo_records _ _ _ Hv r Hr) as Hok. split_and!; [done|done| |].
  { unfold can_sign in Hs. apply andb_true_iff in Hs as [[_ Ha%Z.leb_le]%andb_true_iff _]. exact Ha. }
  intros kid e He Hsu Hlt. apply Z.nle_gt. intros Hle. pose proof timing as (HT & _ & _ & HD).
  destruct (last_activated (jw_ever w) (jw_now w)) as (k & e1 & He1 & Ha1 & Hm1 & Hgrace); [by exists kid, e|].
  pose proof (Hm1 kid e He Hle) as Hge.
  assert (ek_successor e1 = true) as Hsu1.
  { destruct (ek_successor e1) eqn:Es; [done|]. enough (ek_activatesAt e1 < ek_activatesAt e) by lia.
    apply (ki_order w Hw); left; [by exists k, e1|by exists kid, e]. }
  destruct (ki_created w Hw k e1 He1) as [Hc1 Hc2]. rewrite Hsu1 in Hc2.
  assert (∀ g, superseded (jw_ever w) (ek_activatesAt e1) g → jw_now w < g) as Hg.
  { intros g Hs'. specialize (Hgrace g Hs'). unfold grace, CLOCK_SKEW_MS in Hgrace. lia. }
  destruct (vo_all _ _ _ Hv k e1 He1) as [(x & Hx & <-)|(g & Hs' & Hle')]; [unfold PRE_PUBLISH_MS in *; lia| |specialize (Hg g Hs'); lia].
  destruct (vo_records _ _ _ Hv x Hx) as [(e2 & He2 & Ea) _ Hl Hgr (pk & Hdec & _) _].
  rewrite He1 in He2. injection He2 as <-.
  enough (kr_activatesAt x ≤ kr_activatesAt r) by lia.
  apply (Hmax (toSigningKey x)); [apply list_elem_of_fmap; by exists x|].
  unfold can_sign, isRetired. cbn. rewrite Hdec. rewrite bool_decide_eq_true_2 by by eexists.
  rewrite (proj2 (Z.leb_le _ _)) by lia. cbn [andb]. destruct (kr_retiresAt x) as [g|]; [|done].
  specialize (Hgr g eq_refl). rewrite <- Ea in Hgr. specialize (Hg g Hgr).
  rewrite (proj2 (Z.leb_gt _ _)) by lia. done.
Qed.

(** What rotation promises while no key is revoked, for any number of nodes,
    rotations that race and rotations that die half-way: a token that a node
    signs verifies, until it expires, on every node whose ring was read after
    its key was created; and for a rotated key that is every node. *)
Theorem rotation_rejects_no_token t0 w i n payload tok legacySecret :
  rtc rotation_step (no_keys t0) w → jw_nodes w !! i = Some n →
  ring_sign (jw_now w) lifetime payload (nd_ring n) = Ok tok →
  ∃ key e, currentSigningKey (jw_now w) (nd_ring n) = Some key ∧ jw_ever w !! sk_kid key = Some e ∧
    ∀ w' j m u, rtc rotation_step w w' → jw_nodes w' !! j = Some m → nd_readAt m = Some u →
      ek_successor e = true ∨ ek_createdAt e < u →
      jw_now w' / 1000 < jw_now w / 1000 + lifetime →
      ring_verify legacySecret (jw_now w') tok (nd_ring m) = Ok payload.
Proof.
  intros Hr Hi Hsign. pose proof (rotation_inv t0 w Hr) as Hw. unfold ring_sign in Hsign.
  destruct (currentSigningKey (jw_now w) (nd_ring n)) as [key|] eqn:Ek; [|done].
  destruct (signing_key_is_last w i n key Hw Hi Ek) as (r & Hok & -> & Hact & Hlast).
  destruct Hok as [(e & He & Ea) Hkid _ _ (pk & Hdec & Hpair) Hkey]. cbn [toSigningKey sk_privateKey sk_kid] in *.
  rewrite Hdec in Hsign. injection Hsign as <-. exists (toSigningKey r), e. split_and!; [done|done|].
  intros w' j m u Hrun Hj Hu Hseen Hexp. destruct (run_grows w w' Hw Hrun) as (Hw' & Hsub & Htime & Hnew).
  pose proof timing as (HT & _ & Hdelay & HD). pose proof (ki_nodes w' Hw' j m Hj) as Hm. unfold node_ok in Hm. rewrite Hu in Hm.
  destruct Hm as [Hage (records & Er & Hv)]. pose proof (lookup_weaken _ _ _ _ He Hsub) as He'.
  assert (jw_now w' < jw_now w + lifetime * 1000) as Hlt.
  { pose proof (Z.div_mod (jw_now w') 1000). pose proof (Z.mod_pos_bound (jw_now w') 1000).
    pose proof (Z.mul_div_le (jw_now w) 1000). lia. }
  assert (∀ g, superseded (jw_ever w') (ek_activatesAt e) g → jw_now w' < g) as Hsup.
  { intros g (k2 & e2 & He2 & Hs2 & Ha2 & ->). enough (jw_now w ≤ ek_activatesAt e2) by (unfold grace, CLOCK_SKEW_MS; lia).
    destruct (jw_ever w !! k2) as [e3|] eqn:E3.
    - rewrite (lookup_weaken _ _ _ _ E3 Hsub) in He2. injection He2 as <-.
      enough (jw_now w < ek_activatesAt e3) by lia. apply (Hlast k2 e3 E3 Hs2). lia.
    - specialize (Hnew k2 e2 He2 E3). destruct (ki_created w' Hw' k2 e2 He2) as [_ Hc2]. rewrite Hs2 in Hc2.
      unfold PRE_PUBLISH_MS, CLOCK_SKEW_MS in *. lia. }
  assert (ek_createdAt e < u) as Hcu.
  { destruct Hseen as [Hs|]; [|done]. destruct (ki_created w Hw _ e He) as [_ Hc]. rewrite Hs in Hc.
    unfold PRE_PUBLISH_MS in *. lia. }
  destruct (vo_all _ _ _ Hv _ e He' Hcu) as [(x & Hx & Exk)|(g & Hg & Hle)]; [|specialize (Hsup g Hg); lia].
  destruct (vo_records _ _ _ Hv x Hx) as [(e4 & He4 & Ea4) _ _ Hgr _ Hkey4].
  rewrite Exk in He4. rewrite He' in He4. injection He4 as <-.
  rewrite Exk in Hkey4. pose proof (Hkey4 e He') as K1. rewrite (Hkey e He) in K1. injection K1 as Epub Eenc.
  destruct (ring_of_view records (vo_kids _ _ _ Hv)) as [Ering Hnd].
  unfold ring_verify. rewrite decode_sign. cbn [given]. rewrite bool_decide_eq_false_2 by done.
  rewrite Er, Ering, (proj2 (keyed_get _ (kr_kid r) Hnd (toSigningKey x))) by (split; [apply list_elem_of_fmap; by exists x|done]).
  assert (isRetired (toSigningKey x) (jw_now w') = false) as ->.
  { unfold isRetired. cbn. destruct (kr_retiresAt x) as [g|]; [|done]. specialize (Hgr g eq_refl). rewrite <- Ea4 in Hgr.
    specialize (Hsup g Hgr). apply Z.leb_gt. lia. }
  unfold library. cbn [toSigningKey sk_publicKey]. rewrite <- Epub. by rewrite (verify_sign payload _ pk _ _ _ _ Hpair Hexp).
Qed.

(** ** A revoked key stays out of a ring *)

Lemma ring_kids keys : NoDup (replaceAll keys).*1 ∧ ∀ kid, kid ∈ (replaceAll keys).*1 → kid ∈ sk_kid <$> keys.
Proof.
  unfold replaceAll. assert (∀ acc : KeyRing, NoDup acc.*1 →
    NoDup (foldl (λ m k, map_set (sk_kid k) k m) acc keys).*1 ∧
    ∀ kid, kid ∈ (foldl (λ m k, map_set (sk_kid k) k m) acc keys).*1 → kid ∈ acc.*1 ∨ kid ∈ sk_kid <$> keys) as Hk.
  { induction keys as [|k keys IH]; intros acc Hn; cbn [foldl]; [split; [done|by left]|].
    destruct (IH (map_set (sk_kid k) k acc)) as [H1 H2]; [by apply map_set_NoDup|]. split; [done|].
    intros kid [Hin|Hin]%H2; [|right; by right]. rewrite map_set_keys in Hin. case_decide; [by left|].
    apply elem_of_app in Hin as [| ->%list_elem_of_singleton]; [by left|right; by left]. }
  destruct (Hk [] ltac:(constructor)) as [H1 H2]. split; [done|]. intros kid [Hin|]%H2; [by apply elem_of_nil in Hin|done].
Qed.

(** The node and the epoch of a refresh in progress. *)
Definition refresh_of (c : KeyCall) : option (nat * nat) :=
  match c with Refreshing i e _ | RefreshRead i e _ _ => Some (i, e) | _ => None end.

Record revocation_inv (w : KeyWorld) : Prop := {
  rv_store : ∀ r, r ∈ jw_store w → is_Some (jw_ever w !! kr_kid r);
  rv_revoked : ∀ kid, kid ∈ jw_revoked w → is_Some (jw_ever w !! kid) ∧
    ∀ r, r ∈ jw_store w → kr_kid r = kid → kr_revokedAt r ≠ None;
  rv_nodes : ∀ i n kid, jw_nodes w !! i = Some n → NoDup (nd_ring n).*1 ∧
    (kid ∈ nd_handled n → kid ∈ jw_revoked w ∧ kid ∉ (nd_ring n).*1);
  rv_calls : ∀ cid c i e, jw_calls w !! cid = Some c → refresh_of c = Some (i, e) →
    ∃ n, jw_nodes w !! i = Some n ∧ (e ≤ nd_epoch n)%nat;
  rv_reads : ∀ cid i n records u kid, jw_calls w !! cid = Some (RefreshRead i (nd_epoch n) records u) →
    jw_nodes w !! i = Some n → kid ∈ nd_handled n → kid ∉ kr_kid <$> records
}.

(** A step that keeps the nodes, with one call set to [c]. *)
Lemma rv_frame w w' cid c : revocation_inv w → jw_nodes w' = jw_nodes w → jw_revoked w' = jw_revoked w →
  jw_ever w ⊆ jw_ever w' → jw_calls w' = jw_calls (set_call cid c w) →
  (∀ r, r ∈ jw_store w' → (∃ r', r' ∈ jw_store w ∧ kr_kid r' = kr_kid r ∧ (kr_revokedAt r' ≠ None → kr_revokedAt r ≠ None)) ∨
     (jw_ever w !! kr_kid r = None ∧ is_Some (jw_ever w' !! kr_kid r))) →
  (∀ i e, (refresh_of <$> c) = Some (Some (i, e)) → ∃ n, jw_nodes w !! i = Some n ∧ (e ≤ nd_epoch n)%nat) →
  (∀ i n records u kid, c = Some (RefreshRead i (nd_epoch n) records u) → jw_nodes w !! i = Some n →
     kid ∈ nd_handled n → kid ∉ kr_kid <$> records) →
  revocation_inv w'.
Proof.
  intros [R1 R2 R3 R4 R5] Hn Hr He Hc Hs Hf Hrd. split.
  - intros r Hin. destruct (Hs r Hin) as [(r' & Hr' & <- & _)|[_ Hi]]; [|done].
    destruct (R1 r' Hr') as [e Hk]. exists e. by eapply lookup_weaken.
  - rewrite Hr. intros kid Hk. destruct (R2 kid Hk) as [[e Hke] Hrev]. split; [exists e; by eapply lookup_weaken|].
    intros r Hin <-. destruct (Hs r Hin) as [(r' & Hr' & Ek & Himp)|[Hno _]]; [by apply Himp, Hrev|congruence].
  - rewrite Hn, Hr. apply R3.
  - rewrite Hn, Hc. intros cid' c' i e [[-> ->]|Hl]%set_call_lookup Hro; [apply Hf; cbn; by rewrite Hro|by eapply R4].
  - rewrite Hn, Hc. intros cid' i n records u kid [[-> Ec]|Hl]%set_call_lookup Hi Hk; [by eapply Hrd|by eapply R5].
Qed.

(** One that keeps the store as well. *)
Lemma rv_call w cid c : revocation_inv w →
  (∀ i e, (refresh_of <$> c) = Some (Some (i, e)) → ∃ n, jw_nodes w !! i = Some n ∧ (e ≤ nd_epoch n)%nat) →
  (∀ i n records u kid, c = Some (RefreshRead i (nd_epoch n) records u) → jw_nodes w !! i = Some n →
     kid ∈ nd_handled n → kid ∉ kr_kid <$> records) →
  revocation_inv (set_call cid c w).
Proof.
  intros Hw Hf Hr. apply (rv_frame w _ cid c); try done. intros r Hin. left. by exists r.
Qed.

Lemma usable_unrevoked t store kid : (∀ r, r ∈ store → kr_kid r = kid → kr_revokedAt r ≠ None) →
  kid ∉ kr_kid <$> listUsable t store.
Proof.
  intros Hrev (r & -> & [Hr Hu]%in_usable)%list_elem_of_fmap. unfold usable in Hu.
  specialize (Hrev r Hr eq_refl). by destruct (kr_revokedAt r).
Qed.

Lemma rv_apply w cid i n records u : revocation_inv w → jw_calls w !! cid = Some (RefreshRead i (nd_epoch n) records u) →
  jw_nodes w !! i = Some n → revocation_inv (set_call cid None (set_node i (refreshed records u n) w)).
Proof.
  intros [R1 R2 R3 R4 R5] Hc Hi. assert (sk_kid <$> (toSigningKey <$> records) = kr_kid <$> records) as Ek
    by (rewrite <- list_fmap_compose; apply list_fmap_ext; done).
  split; try done.
  - intros j m kid. cbn. destruct (decide (j = i)) as [->|Hne]; [|rewrite lookup_insert_ne by done; apply R3].
    rewrite lookup_insert_eq. intros [= <-]. cbn. destruct (ring_kids (toSigningKey <$> records)) as [H1 H2].
    split; [done|]. intros Hk. destruct (R3 i n kid Hi) as [_ Hh]. split; [by apply Hh|].
    intros Hin%H2. rewrite Ek in Hin. by apply (R5 cid i n records u kid Hc Hi Hk).
  - intros cid' c j e [[_ [=]]|Hl]%set_call_lookup Hro. destruct (R4 cid' c j e Hl Hro) as (m & Hm & Hle). cbn.
    destruct (decide (j = i)) as [->|Hne]; [|rewrite lookup_insert_ne by done; by exists m].
    rewrite lookup_insert_eq. eexists. split; [done|]. cbn. congruence.
  - intros cid' j m records' u' kid [[_ [=]]|Hl]%set_call_lookup. cbn in *.
    destruct (decide (j = i)) as [->|Hne]; [|rewrite lookup_insert_ne by done; by eapply R5].
    rewrite lookup_insert_eq. intros [= <-]. cbn in *. by eapply R5.
Qed.

Lemma rotation_step_rv w w' : revocation_inv w → rotation_step w w' → revocation_inv w'.
Proof.
  intros Hw Hstep. destruct Hstep as [w d Hd Hage|w i Hi|w cid i n Hi Hc|w cid i e t Hc|w cid i n records u Hc Hi Hage
    |w cid i n e records u Hc Hi He|w cid Hc|w cid t Hc Hd|w cid t plan a succ kid p k store Hc Hpa Hd Hnew Hkid Hp Hs
    |w cid t a g out Hc|w cid t Hc|w cid c Hc].
  - by destruct Hw.
  - destruct Hw as [R1 R2 R3 R4 R5]. split; try done; cbn.
    + intros j n kid. destruct (decide (j = i)) as [->|Hne]; [|rewrite lookup_insert_ne by done; apply R3].
      rewrite lookup_insert_eq. intros [= <-]. cbn. split; [constructor|by intros ?%elem_of_nil].
    + intros cid c j e Hc Hro. destruct (R4 cid c j e Hc Hro) as (m & Hm & Hle). exists m.
      rewrite lookup_insert_ne by congruence. done.
    + intros cid j n records u kid Hc. destruct (decide (j = i)) as [->|Hne]; [|rewrite lookup_insert_ne by done; by eapply R5].
      rewrite lookup_insert_eq. intros [= <-] Hk. cbn in Hk. by apply elem_of_nil in Hk.
  - apply rv_call; [done| |done]. intros j e [= <- <-]. by exists n.
  - apply rv_call; [done| |].
    + intros j e' [= <- <-]. by apply (rv_calls w Hw cid (Refreshing i e t)).
    + intros j n records u kid [= <- -> <- _] Hn Hk. destruct (rv_nodes w Hw i n kid Hn) as [_ Hh].
      apply usable_unrevoked, (rv_revoked w Hw). by apply Hh.
  - by apply rv_apply.
  - apply rv_call; [done| |done]. intros j e' [= <- <-]. by exists n.
  - by apply rv_call.
  - apply rv_call; [done|..]; intros; by destruct (rotation_plan _ _ _ _).
  - apply insert_key_rows in Hs as [-> _]. apply (rv_frame w _ cid (Some (after_insert t plan))); try done.
    + by apply insert_subseteq.
    + cbn. intros r [Hr|Hr]%elem_of_app; [left; by exists r|]. apply list_elem_of_singleton in Hr as ->. right.
      cbn. rewrite lookup_insert_eq. by split.
    + by intros i e; destruct plan.
    + by intros; destruct plan.
  - apply (rv_frame w _ cid (Some (RotatePrune t))); try done. cbn. intros r (x & -> & Hx)%list_elem_of_fmap.
    left. exists x. by case_bool_decide.
  - apply (rv_frame w _ cid None); try done. cbn. intros r Hr. apply list_elem_of_In, filter_In in Hr as [Hr%list_elem_of_In _].
    left. by exists r.
  - by apply rv_call.
Qed.

Lemma revoked_rows kid t store : NoDup (kr_kid <$> store) → (∀ r, r ∈ revoke_if_unrevoked kid t store →
  ∃ r', r' ∈ store ∧ kr_kid r' = kr_kid r ∧ (kr_revokedAt r' ≠ None → kr_revokedAt r ≠ None)) ∧
  ∀ r, r ∈ revoke_if_unrevoked kid t store → kr_kid r = kid → kr_revokedAt r ≠ None.
Proof.
  intros Hnd. unfold revoke_if_unrevoked. destruct (find_key kid store) as [x|] eqn:Ef.
  - apply find_elem in Ef as [Hx Hk%bool_decide_eq_true_1]. destruct (kr_revokedAt x) eqn:Er.
    + split; [intros r Hr; by exists r|]. intros r Hr <-. by rewrite (fmap_unique kr_kid store r x Hnd Hr Hx), Er.
    + split; intros r (y & -> & Hy)%list_elem_of_fmap; case_bool_decide; try done.
      * exists y. by split_and!.
      * by exists y.
  - split; [intros r Hr; by exists r|]. intros r Hr <-. unfold find_key in Ef.
    pose proof (find_absent _ _ r Ef Hr) as Hf. by apply bool_decide_eq_false_1 in Hf.
Qed.

Lemma key_step_rv w w' : revocation_inv w ∧ NoDup (kr_kid <$> jw_store w) → key_step w w' →
  revocation_inv w' ∧ NoDup (kr_kid <$> jw_store w').
Proof.
  intros Hh Hst. destruct Hst as [w1 w2 Hstep|w1 kid|w1 i n kid Hi Hk]; destruct Hh as [Hw Hnd].
  - split; [by eapply rotation_step_rv|]. destruct Hstep; cbn; try done.
    + match goal with Hs : insert_key _ _ = _ |- _ => apply insert_key_rows in Hs as [-> Hf] end. rewrite fmap_app. by apply NoDup_snoc.
    + unfold setRetiresAt. rewrite <- list_fmap_compose. erewrite list_fmap_ext; [exact Hnd|].
      intros i r _. cbn. by case_bool_decide.
    + by apply NoDup_fmap_lfilter.
  - destruct (revoked_rows kid (jw_now w1) (jw_store w1) Hnd) as [H1 H2]. split.
    + destruct Hw as [R1 R2 R3 R4 R5]. split; cbn; try done.
      * intros r Hr. destruct (H1 r Hr) as (r' & Hr' & <- & _). by apply R1.
      * intros k Hk. assert (k ∈ jw_revoked w1 ∨ (k = kid ∧ is_Some (find_key kid (jw_store w1)))) as [Hin|[-> [x Hx]]].
        { case_bool_decide; [|by left]. apply elem_of_cons in Hk as [->|]; [by right|by left]. }
        -- destruct (R2 k Hin) as [He Hrev]. split; [done|]. intros r Hr <-.
           destruct (H1 r Hr) as (r' & Hr' & Ek & Himp). by apply Himp, Hrev.
        -- apply find_elem in Hx as [Hx Ex%bool_decide_eq_true_1]. split; [rewrite <- Ex; by apply R1|]. apply H2.
      * intros i n k Hi. destruct (R3 i n k Hi) as [Hn Hh]. split; [done|]. intros [H3 H4]%Hh. split; [|done].
        case_bool_decide; [by right|done].
    + cbn. unfold revoke_if_unrevoked. destruct (find_key _ _) as [x|]; [|done]. destruct (kr_revokedAt x); [done|].
      unfold revoke_key. rewrite <- list_fmap_compose. erewrite list_fmap_ext; [exact Hnd|].
      intros j r _. cbn. by case_bool_decide.
  - split; [|done]. destruct Hw as [R1 R2 R3 R4 R5]. split; cbn; try done.
    + intros j m k. destruct (decide (j = i)) as [->|Hne]; [|rewrite lookup_insert_ne by done; apply R3].
      rewrite lookup_insert_eq. intros [= <-]. cbn. destruct (R3 i n k Hi) as [Hn Hh].
      split; [by apply map_delete_NoDup|]. intros [->|Hin]%elem_of_cons.
      * split; [done|by apply map_delete_notin].
      * destruct (Hh Hin) as [H1 H2]. split; [done|]. destruct (decide (k = kid)) as [->|Hne]; [by apply map_delete_notin|].
        apply map_get_None. unfold ring_remove. rewrite map_get_delete_ne by done. by apply map_get_None.
    + intros cid c j e Hc Hro. destruct (R4 cid c j e Hc Hro) as (m & Hm & Hle).
      destruct (decide (j = i)) as [->|Hne]; [|rewrite lookup_insert_ne by done; by exists m].
      rewrite lookup_insert_eq. eexists. split; [done|]. cbn. assert (m = n) as -> by congruence. lia.
    + intros cid j m records u k Hc. destruct (decide (j = i)) as [->|Hne]; [|rewrite lookup_insert_ne by done; by eapply R5].
      rewrite lookup_insert_eq. intros [= <-] _. cbn in Hc. exfalso.
      destruct (R4 cid _ i (S (nd_epoch n)) Hc eq_refl) as (m & Hm & Hle). assert (m = n) as -> by congruence. lia.
Qed.

(** What revocation promises, in any interleaving with refreshes that were under
    way: once a node has handled the revocation of a key, no token signed with
    it verifies there again. *)
Theorem revoked_key_never_verifies t0 w i n kid tok legacySecret now :
  rtc key_step (no_keys t0) w → jw_nodes w !! i = Some n → kid ∈ nd_handled n → kid ≠ ""%string →
  jwt_decode tok = Some (Some kid) →
  ring_verify legacySecret now tok (nd_ring n) = Err UnknownKey.
Proof.
  intros Hr Hi Hk Hne Hd. assert (revocation_inv w) as Hw.
  { assert (revocation_inv (no_keys t0) ∧ NoDup (kr_kid <$> jw_store (no_keys t0))) as H0.
    { split; [|constructor]. split; cbn; try (by intros ? ?%elem_of_nil); intros *; by rewrite lookup_empty. }
    revert H0. clear Hi. induction Hr as [|a b c Hab _ IH]; [by intros []|]. intros Ha. by eapply IH, key_step_rv. }
  destruct (rv_nodes w Hw i n kid Hi) as [_ Hh]. destruct (Hh Hk) as [_ Hout].
  unfold ring_verify. rewrite Hd. cbn [given]. rewrite bool_decide_eq_false_2 by done.
  by rewrite (proj2 (map_get_None kid (nd_ring n)) Hout).
Qed.

End keys.

(** ** A sample library and runs *)

Module Sample.
#[local] Open Scope string_scope.
#[local] Open Scope Z_scope.

(** A token shows its payload, key, key id, issue and lifetime. *)
Record Tok : Type := { tok_payload : JwtPayload; tok_key : string; tok_kid : string; tok_at : Z; tok_life : Z }.

#[global] Instance sample_tokens : TokenLibrary string string (string * string) Tok := {|
  jwt_sign p k kid at_ life := {| tok_payload := p; tok_key := k; tok_kid := kid; tok_at := at_; tok_life := life |};
  jwt_decode tok := Some (Some (tok_kid tok));
  jwt_verify tok q now :=
    if bool_decide (tok_key tok = q) then
      if now / 1000 <? tok_at tok / 1000 + tok_life tok then Ok (tok_payload tok) else Err TokenExpiredError
    else Err JsonWebTokenError;
  jwt_verify_hs256 _ _ _ := Err JsonWebTokenError;
  encryptPrivateKey k kid := (k, kid);
  decryptPrivateKey e kid := if bool_decide (e.2 = kid) then Some e.1 else None;
  matching q k := q = k
|}.

#[global] Instance sample_laws : TokenLaws string string (string * string) Tok.
Proof.
  split.
  - done.
  - intros p q k kid at_ life now -> Hlt. cbn. rewrite bool_decide_eq_true_2 by done.
    by rewrite (proj2 (Z.ltb_lt _ _) Hlt).
  - intros k kid. cbn. by rewrite bool_decide_eq_true_2.
Qed.

Definition ann : JwtPayload := {| jp_userId := "ann"; jp_sessionId := None; jp_role := None |}.

Definition month : Z := 30 * 24 * 60 * 60000.
Definition week : Z := 7 * 24 * 3600.

Definition World : Type := @KeyWorld string string (string * string).

(** The first key, and two nodes that read it. *)
Definition w0 : World := no_keys 0.
Definition w1 : World := set_call 1 (Some (RotateList 0)) w0.
Definition w2 : World := set_call 1 (Some (RotateInsert 0 (CreateFirst 0))) w1.
Definition w3 : World :=
  set_call 1 (Some (RotatePrune 0)) (set_ever "k1"
    {| ek_activatesAt := 0; ek_createdAt := 0; ek_successor := false; ek_key := ("pair1", ("pair1", "k1")) |}
    (set_store [new_key "k1" "pair1" "pair1" 0] w2)).
Definition w4 : World :=
  {| jw_now := 5; jw_store := jw_store w3; jw_nodes := jw_nodes w3; jw_calls := jw_calls w3; jw_ever := jw_ever w3;
     jw_revoked := jw_revoked w3 |}.
Definition join (i : nat) (w : World) : World := set_node i new_node w.
Definition ask (i : nat) (w : World) : World := set_call 2 (Some (Refreshing i 0 5)) w.
Definition answer (i : nat) (w : World) : World := set_call 2 (Some (RefreshRead i 0 (listUsable 5 (jw_store w)) 5)) w.
Definition load (i : nat) (w : World) : World := set_call 2 None (set_node i (refreshed (listUsable 5 (jw_store w)) 5 new_node) w).
Definition node_start (i : nat) (w : World) : World := load i (answer i (ask i (join i w))).
Definition signing : World := node_start 1 w4.
Definition verifying : World := node_start 2 signing.

Notation step := (rotation_step month week 60000 60000) (only parsing).

Lemma first_key : rtc step w0 w4.
Proof.
  apply (rtc_l _ _ w1); [by apply (rs_rotate _ _ _ _ w0 1)|].
  apply (rtc_l _ _ w2); [by apply (rs_list _ _ _ _ w1 1 0)|].
  apply (rtc_l _ _ w3); 
    [exact (rs_insert month week 60000 60000 w2 1 0 (CreateFirst 0) 0 false "k1" "pair1" "pair1" [new_key "k1" "pair1" "pair1" 0]
       eq_refl eq_refl ltac:(done) eq_refl ltac:(done) eq_refl eq_refl)|].
  apply rtc_once. apply (rs_tick _ _ _ _ w3 5); [done|]. intros i n u. cbn. by rewrite lookup_empty.
Qed.

Lemma started i w : jw_now w = 5 → jw_nodes w !! i = None → jw_calls w !! 2%nat = None → rtc step w (node_start i w).
Proof.
  intros Ht Hi Hc. apply (rtc_l _ _ (join i w)); [by apply rs_join|].
  assert (jw_nodes (join i w) !! i = Some new_node) as Hn by apply lookup_insert_eq.
  apply (rtc_l _ _ (ask i (join i w))).
  { pose proof (rs_refresh month week 60000 60000 (join i w) 2 i new_node Hn Hc) as Hs. cbn in Hs. rewrite Ht in Hs. exact Hs. }
  apply (rtc_l _ _ (answer i (ask i (join i w)))).
  { pose proof (rs_read month week 60000 60000 (ask i (join i w)) 2 i 0 5 ltac:(apply lookup_insert_eq)) as Hs.
    cbn [jw_now ask set_call join set_node] in Hs. rewrite Ht in Hs. exact Hs. }
  apply rtc_once, (rs_apply month week 60000 60000 (answer i (ask i (join i w))) 2 i new_node (listUsable 5 (jw_store w)) 5);
    [apply lookup_insert_eq|exact Hn|cbn; lia].
Qed.

Lemma timing : 0 ≤ week ∧ 0 ≤ 60000 ∧ 0 ≤ 60000 ≤ CLOCK_SKEW_MS ∧ 60000 + 60000 < PRE_PUBLISH_MS.
Proof. unfold week, CLOCK_SKEW_MS, PRE_PUBLISH_MS. lia. Qed.

Lemma signing_run : rtc step w0 signing.
Proof. etransitivity; [apply first_key|]. apply (started 1 w4); reflexivity. Qed.

Lemma verifying_run : rtc step signing verifying.
Proof. apply (started 2 signing); reflexivity. Qed.

(** Node 1 handles the revocation of its key. *)
Definition revoked : World :=
  set_node 1 (handle_revoked "k1" (refreshed (listUsable 5 (jw_store w4)) 5 new_node))
    {| jw_now := 5; jw_store := revoke_if_unrevoked "k1" 5 (jw_store signing); jw_nodes := jw_nodes signing;
       jw_calls := jw_calls signing; jw_ever := jw_ever signing; jw_revoked := ["k1"] |}.

Lemma revoked_run : rtc (key_step month week 60000 60000) w0 revoked.
Proof.
  transitivity signing.
  { eapply rtc_subrel; [|exact signing_run]. intros a b Hab. by apply ks_rotation. }
  eapply rtc_l; [apply (ks_revoke _ _ _ _ signing "k1")|].
  apply rtc_once, (ks_handle month week 60000 60000); [reflexivity|]. by left.
Qed.

End Sample.

(** What node 1 signs, node 2 accepts. *)
Lemma rotation_rejects_no_token_witness : ∃ n m tok,
  jw_nodes Sample.signing !! 1%nat = Some n ∧ jw_nodes Sample.verifying !! 2%nat = Some m ∧
  ring_sign 5 Sample.week Sample.ann (nd_ring n) = Ok tok ∧
  ring_verify None 5 tok (nd_ring m) = Ok Sample.ann.
Proof.
  assert (∃ n, jw_nodes Sample.signing !! 1%nat = Some n ∧ ∃ tok, ring_sign 5 Sample.week Sample.ann (nd_ring n) = Ok tok)
    as (n & Hn & tok & Ht).
  { eexists. split; [reflexivity|]. eexists. vm_compute. reflexivity. }
  destruct (rotation_rejects_no_token Sample.month Sample.week 60000 60000 Sample.timing 0 Sample.signing 1 n Sample.ann tok None
    Sample.signing_run Hn Ht) as (key & e & Hk & He & Hall).
  assert (∃ m, jw_nodes Sample.verifying !! 2%nat = Some m ∧ nd_readAt m = Some 5) as (m & Hm & Hu).
  { eexists. split; reflexivity. }
  exists n, m, tok. split_and!; [done|done|done|].
  apply (Hall Sample.verifying 2%nat m 5 Sample.verifying_run Hm Hu).
  - right. assert (map_Forall (λ _ e, ek_createdAt e < 5) (jw_ever Sample.signing)) as Hf
      by (apply map_Forall_insert_2; [done|apply map_Forall_empty]). exact (Hf _ _ He).
  - reflexivity.
Defined.

Lemma revoked_key_never_verifies_witness : ∃ n tok,
  jw_nodes Sample.revoked !! 1%nat = Some n ∧ jwt_verify tok "pair1" 5 = Ok Sample.ann ∧
  ring_verify None 5 tok (nd_ring n) = Err UnknownKey.
Proof.
  assert (∃ n, jw_nodes Sample.revoked !! 1%nat = Some n ∧ "k1" ∈ nd_handled n) as (n & Hn & Hh).
  { eexists. split; [reflexivity|]. by left. }
  exists n, (jwt_sign Sample.ann "pair1" "k1" 5 Sample.week). split_and!; [done|reflexivity|].
  by apply (revoked_key_never_verifies Sample.month Sample.week 60000 60000 0 Sample.revoked 1 n "k1" _ _ _ Sample.revoked_run Hn Hh).
Defined.

(** Revoking a successor just before it activates leaves the outgoing key with
    the end of grace computed from it: the outgoing key goes on signing until
    the replacement activates, and its last tokens are refused before they
    expire. *)
Example revoked_successor_cuts_grace :
  let month := Sample.month in
  let first := [new_key "k1" "pair1" "pair1" 0] in
  let rotated := rotate_now month Sample.week (month - PRE_PUBLISH_MS) "k2" "pair2" "pair2" first in
  let replaced := rotate_now month Sample.week (month - 1000) "k3" "pair3" "pair3"
                    (revoke_if_unrevoked "k2" (month - 1000) rotated) in
  let ring now := replaceAll (toSigningKey <$> listUsable now replaced) in
  let signed := month + 200000 in
  let later := month + Sample.week * 1000 + 100000 in
  ∃ tok, ring_sign signed Sample.week Sample.ann (ring signed) = Ok tok ∧
    jwt_verify tok "pair1" later = Ok Sample.ann ∧
    ring_verify None later tok (ring signed) = Err RetiredKey.
Proof.
  intros month first rotated replaced ring signed later. exists (jwt_sign Sample.ann "pair1" "k1" signed Sample.week).
  split_and!; vm_compute; reflexivity.
Qed.
