(* ===== verification/Reconciliation.v ===== *)
(** * Ledger reconciliation: [backend/src/services/financial/ledgerReconciliationService.ts]

    The daily comparison of the ledger's confirmed rows with the events of the
    escrow contract and with Horizon: the parser of the events, the paging of
    [getEvents], the lookup of a transaction on Horizon, the comparison and the
    report.  Amounts are exact integers of stroops, as in the code; a date is
    its milliseconds; the [message] of a discrepancy, the rendering of the
    report and the run's random id are left out.  The RPC node and Horizon are
    arguments. *)

From Stdlib Require Import QArith Ascii String.
From S2P Require Import Prelude Text ScVal Financial.

#[local] Open Scope Z_scope.

Definition STROOPS_PER_UNIT : Z := 10000000.
Definition ROUNDING_TOLERANCE_STROOPS : Z := 50000.
Definition DEFAULT_LOOKBACK_LEDGERS : Z := 17280.

Inductive LedgerMovementKind : Type := K_DEPOSIT | K_PRIZE_ALLOCATION | K_PLATFORM_FEE | K_PRIZE_CLAIM | K_REFUND.

Inductive DiscrepancyType : Type :=
| PHANTOM_DB_RECORD | UNINDEXED_ON_CHAIN | AMOUNT_MISMATCH | COUNT_MISMATCH | LEAGUE_MISMATCH
| DUPLICATE_DB_RECORD | MISSING_CONTRACT_EVENT.

Inductive DiscrepancySeverity : Type := Critical | Warning.

#[export] Instance LedgerMovementKind_eq_dec : EqDecision LedgerMovementKind.
Proof. solve_decision. Defined.
#[export] Instance DiscrepancyType_eq_dec : EqDecision DiscrepancyType.
Proof. solve_decision. Defined.
#[export] Instance DiscrepancySeverity_eq_dec : EqDecision DiscrepancySeverity.
Proof. solve_decision. Defined.

Record OnChainMovement : Type := {
  mv_kind : LedgerMovementKind;
  mv_txHash : string;
  mv_ledgerSeq : Z;
  mv_closedAt : option Z;
  mv_eventType : string;
  mv_contractLeagueId : Z;
  mv_address : option string;
  mv_amountStroops : option Z;
  mv_count : option jsnum
}.

Record OnChainEventBatch : Type := { eb_movements : list OnChainMovement; eb_fromLedger : Z; eb_toLedger : Z }.

Inductive HorizonStatus : Type := H_SUCCESS | H_FAILED | H_NOT_FOUND.

#[export] Instance HorizonStatus_eq_dec : EqDecision HorizonStatus.
Proof. solve_decision. Defined.

Record HorizonLookupResult : Type := {
  hz_status : HorizonStatus;
  hz_ledgerSeq : option Z;
  hz_closedAt : option Z;
  hz_usdcTransferredStroops : option Z
}.

(** A row of [transactions] as the query selects it; the amount is the text of
    the column's decimal. *)
Record DbLedgerRow : Type := {
  dr_id : string;
  dr_userId : option string;
  dr_leagueId : option string;
  dr_memberId : option string;
  dr_type : TransactionType;
  dr_amount : list ascii;
  dr_stellarTxHash : string;
  dr_ledgerSeq : option Z;
  dr_confirmedAt : option Z;
  dr_createdAt : Z
}.

Record ReconciliationDiscrepancy : Type := {
  dc_type : DiscrepancyType;
  dc_severity : DiscrepancySeverity;
  dc_kind : LedgerMovementKind;
  dc_txHash : string;
  dc_ledgerSeq : option Z;
  dc_timestamp : option Z;
  dc_leagueId : option string;
  dc_contractLeagueId : option Z;
  dc_transactionIds : list string;
  dc_dbAmount : option (list ascii);
  dc_onChainAmount : option (list ascii);
  dc_dbCount : option Z;
  dc_onChainCount : option jsnum
}.

Inductive ReportStatus : Type := BALANCED | DISCREPANCIES_FOUND.

Record LedgerReconciliationReport : Type := {
  lr_ledgerRange : Z * Z;
  lr_status : ReportStatus;
  lr_dbRecords : Z;
  lr_onChainMovements : Z;
  lr_matched : Z;
  lr_verifiedViaHorizon : Z;
  lr_critical : Z;
  lr_warning : Z;
  lr_byType : list (DiscrepancyType * Z);
  lr_discrepancies : list ReconciliationDiscrepancy
}.

Inductive ReconcileError : Type := InvalidDecimal | UpstreamError | BadEvent.

(** ** Amounts *)

Fixpoint span_digits (l : list ascii) : list ascii * list ascii :=
  match l with
  | c :: l' => if is_digit c then let (d, r) := span_digits l' in (c :: d, r) else ([], l)
  | [] => ([], [])
  end.

Definition decimal_value (l : list ascii) : Z := radix_value 10 (hex_digit <$> l).

Definition strip_minus (text : list ascii) : bool * list ascii :=
  match text with c :: body => if Ascii.eqb c "-" then (true, body) else (false, text) | [] => (false, []) end.

(** The regular expression reads an optional sign, digits, and digits after a
    point; the fraction is cut at seven digits. *)
Definition decimalToStroops (value : list ascii) : result ReconcileError Z :=
  let text := trim_text value in
  let (negative, body) := strip_minus text in
  let (whole, rest) := span_digits body in
  let signed z := if negative : bool then - z else z in
  match rest with
  | [] => Ok (signed (decimal_value whole * STROOPS_PER_UNIT))
  | "."%char :: fraction =>
      if forallb is_digit fraction
      then Ok (signed (decimal_value whole * STROOPS_PER_UNIT + decimal_value (take 7 (fraction ++ replicate 7 "0"%char))))
      else Err InvalidDecimal
  | _ => Err InvalidDecimal
  end.

Definition formatStroops (stroops : Z) : list ascii :=
  let abs := if stroops <? 0 then - stroops else stroops in
  (if stroops <? 0 then ["-"%char] else []) ++ radix_text 10 (abs / STROOPS_PER_UNIT) ++
  ["."%char] ++ pad_start 7 "0"%char (radix_text 10 (abs mod STROOPS_PER_UNIT)).

(** ** Rows *)

Definition baseTxHash (hash : string) : string :=
  string_of_list_ascii (lower_char <$> take 64 (list_ascii_of_string hash)).

Definition dbKind (row : DbLedgerRow) : LedgerMovementKind :=
  match dr_type row with
  | ENTRY_FEE => K_DEPOSIT
  | PLATFORM_FEE => K_PLATFORM_FEE
  | REFUND => K_REFUND
  | PRIZE_PAYOUT => if (64 <? String.length (dr_stellarTxHash row))%nat then K_PRIZE_CLAIM else K_PRIZE_ALLOCATION
  end.

Inductive identity : Type := Single | Named (id : string).

#[export] Instance identity_eq_dec : EqDecision identity.
Proof. solve_decision. Defined.

Definition or_else {A} (a b : option A) : option A := match a with Some _ => a | None => b end.

Definition rowIdentity (kind : LedgerMovementKind) (row : DbLedgerRow) : identity :=
  match kind with
  | K_REFUND => Named (default (dr_id row) (or_else (dr_memberId row) (dr_userId row)))
  | K_PRIZE_ALLOCATION | K_PRIZE_CLAIM => Named (default (dr_id row) (dr_userId row))
  | _ => Single
  end.

(** ** Escrow events *)

Record EscrowEvent : Type := {
  ev_inSuccessfulContractCall : bool;
  ev_txHash : string;
  ev_ledger : Z;
  ev_ledgerClosedAt : option Z;
  ev_name : string;
  ev_league : native;
  ev_value : native
}.

(** [const [a, b] = value]: missing elements are [undefined]. *)
Definition native_pair (x : native) : result ReconcileError (option native * option native) :=
  match x with
  | NArray l => Ok (l !! 0%nat, l !! 1%nat)
  | _ => Err BadEvent
  end.

Definition element_BigInt (x : option native) : result ReconcileError Z :=
  let* x := or_throw x BadEvent in or_throw (native_BigInt x) BadEvent.

Definition element_text (x : option native) : option string :=
  match x with Some (NText s) => Some s | _ => None end.

Definition parseEscrowEvent (event : EscrowEvent) : result ReconcileError (list OnChainMovement) :=
  if negb (ev_inSuccessfulContractCall event) then Ok []
  else
    let* contractLeagueId := or_throw (native_BigInt (ev_league event)) BadEvent in
    let base kind address amount count := {|
      mv_kind := kind; mv_txHash := lower_string (ev_txHash event); mv_ledgerSeq := ev_ledger event;
      mv_closedAt := ev_ledgerClosedAt event; mv_eventType := ev_name event; mv_contractLeagueId := contractLeagueId;
      mv_address := address; mv_amountStroops := amount; mv_count := count |} in
    if bool_decide (ev_name event = "deposit"%string) then
      let* '(participant, amount) := native_pair (ev_value event) in
      let* amount := element_BigInt amount in
      Ok [base K_DEPOSIT (element_text participant) (Some amount) None]
    else if bool_decide (ev_name event = "settle"%string) then
      let* '(totalPayout, platformFee) := native_pair (ev_value event) in
      let* total := element_BigInt totalPayout in
      let* fee := element_BigInt platformFee in
      Ok [base K_PRIZE_ALLOCATION None (Some (total - fee)) None; base K_PLATFORM_FEE None (Some fee) None]
    else if bool_decide (ev_name event = "claimed"%string) then
      let* '(winner, amount) := native_pair (ev_value event) in
      let* amount := element_BigInt amount in
      Ok [base K_PRIZE_CLAIM (element_text winner) (Some amount) None]
    else if bool_decide (ev_name event = "refund"%string) then
      Ok [base K_REFUND None None (Some (native_Number (ev_value event)))]
    else Ok [].

Inductive page_request : Type := FromLedger (ledger : Z) | AfterCursor (cursor : string).

Definition nonempty (s : string) : bool := negb (bool_decide (s = ""%string)).

Section sources.
Context (getRpcLedgerRange : Z * Z).
Context (getEscrowContractEvents : page_request → nat → result ReconcileError (list EscrowEvent * option string)).

(** The events of a page up to the last ledger of the range, and whether one
    beyond it was seen; an event that cannot be parsed is skipped. *)
Fixpoint scan_page (toLedger : Z) (events : list EscrowEvent) : list OnChainMovement * bool :=
  match events with
  | [] => ([], false)
  | event :: events =>
      if toLedger <? ev_ledger event then ([], true)
      else
        let parsed := match parseEscrowEvent event with Ok ms => ms | Err _ => [] end in
        let (ms, reachedEnd) := scan_page toLedger events in (parsed ++ ms, reachedEnd)
  end.

(** The loop over the pages; [maxPages] of them at most. *)
Fixpoint fetch_pages (maxPages pageSize : nat) (fromLedger toLedger : Z) (cursor : option string) (movements : list OnChainMovement) :
    result ReconcileError (list OnChainMovement) :=
  match maxPages with
  | O => Ok movements
  | S maxPages =>
      let request := match cursor with
        | Some c => if nonempty c then AfterCursor c else FromLedger fromLedger
        | None => FromLedger fromLedger end in
      let* '(events, next) := getEscrowContractEvents request pageSize in
      let (ms, reachedEnd) := scan_page toLedger events in
      if reachedEnd || (length events <? pageSize)%nat then Ok (movements ++ ms)
      else fetch_pages maxPages pageSize fromLedger toLedger next (movements ++ ms)
  end.

(** The first and the last ledger of the scan. *)
Definition ledger_window (fromLedger toLedger : option Z) (lookbackLedgers : Z) : Z * Z :=
  let (oldestLedger, latestLedger) := getRpcLedgerRange in
  let toLedger := Z.min (default latestLedger toLedger) latestLedger in
  (Z.max (default (toLedger - lookbackLedgers) fromLedger) oldestLedger, toLedger).

Definition fetchMovements (pageSize maxPages : nat) (fromLedger toLedger : option Z) (lookbackLedgers : Z) :
    result ReconcileError OnChainEventBatch :=
  let (fromLedger, toLedger) := ledger_window fromLedger toLedger lookbackLedgers in
  let* movements := fetch_pages maxPages pageSize fromLedger toLedger None [] in
  Ok {| eb_movements := movements; eb_fromLedger := fromLedger; eb_toLedger := toLedger |}.

(** Horizon: a transaction, or that it is unknown; its operations. *)
Record HorizonTransaction : Type := { ht_successful : bool; ht_ledger : Z; ht_createdAt : Z }.

Record HorizonBalanceChange : Type := { bc_type : string; bc_assetCode : option string; bc_amount : list ascii }.

Record HorizonOperation : Type := {
  op_type : string;
  op_assetCode : option string;
  op_amount : list ascii;
  op_balanceChanges : option (list HorizonBalanceChange)
}.

Inductive horizon_answer (A : Type) : Type := Found (a : A) | NotFound | Unreachable.
#[global] Arguments Found {A}.
#[global] Arguments NotFound {A}.
#[global] Arguments Unreachable {A}.

Context (usdcAssetCode : string).
Context (transaction : string → horizon_answer HorizonTransaction) (forTransaction : string → horizon_answer (list HorizonOperation)).

Definition add_change (transferred : Z) (change : HorizonBalanceChange) : result ReconcileError Z :=
  if bool_decide (bc_type change = "transfer"%string) && bool_decide (bc_assetCode change = Some usdcAssetCode)
  then let* z := decimalToStroops (bc_amount change) in Ok (transferred + z)
  else Ok transferred.

Definition add_operation (transferred : Z) (op : HorizonOperation) : result ReconcileError Z :=
  let* transferred :=
    if bool_decide (op_type op = "payment"%string) && bool_decide (op_assetCode op = Some usdcAssetCode)
    then let* z := decimalToStroops (op_amount op) in Ok (transferred + z)
    else Ok transferred in
  match op_balanceChanges op with
  | Some changes =>
      if bool_decide (op_type op = "invoke_host_function"%string) then mfoldl add_change transferred changes
      else Ok transferred
  | None => Ok transferred
  end.

(** [HorizonLedgerLookup.lookup]. *)
Definition horizon_lookup (txHash : string) : result ReconcileError HorizonLookupResult :=
  match transaction txHash with
  | NotFound => Ok {| hz_status := H_NOT_FOUND; hz_ledgerSeq := None; hz_closedAt := None; hz_usdcTransferredStroops := None |}
  | Unreachable => Err UpstreamError
  | Found tx =>
      if negb (ht_successful tx) then
        Ok {| hz_status := H_FAILED; hz_ledgerSeq := Some (ht_ledger tx); hz_closedAt := Some (ht_createdAt tx);
              hz_usdcTransferredStroops := None |}
      else match forTransaction txHash with
        | Found ops =>
            let* transferred := mfoldl add_operation 0 (take 200 ops) in
            Ok {| hz_status := H_SUCCESS; hz_ledgerSeq := Some (ht_ledger tx); hz_closedAt := Some (ht_createdAt tx);
                  hz_usdcTransferredStroops := Some transferred |}
        | _ => Err UpstreamError
        end
  end.

End sources.

(** ** The comparison *)

Abbreviation db_group := (LedgerMovementKind * string * list DbLedgerRow)%type.
Abbreviation chain_group := (LedgerMovementKind * string * list OnChainMovement)%type.

(** The key [`${kind}:${txHash}`] of a row; an empty hash is skipped. *)
Definition row_key (row : DbLedgerRow) : option (LedgerMovementKind * string) :=
  if nonempty (dr_stellarTxHash row) then Some (dbKind row, baseTxHash (dr_stellarTxHash row)) else None.

Definition movement_key (m : OnChainMovement) : option (LedgerMovementKind * string) := Some (mv_kind m, mv_txHash m).

Definition safeContractId (leagueId : string) : option Z :=
  match toContractLeagueId leagueId with Ok z => Some z | Err _ => None end.

(** A text that is neither [null] nor empty. *)
Definition truthy_text (o : option string) : option string :=
  match o with Some s => if nonempty s then Some s else None | None => None end.

(** The first row of every identity. *)
Definition distinct_rows (kind : LedgerMovementKind) (rows : list DbLedgerRow) : list DbLedgerRow :=
  map_values (foldl (λ m row, let i := rowIdentity kind row in if map_has i m then m else map_set i row m) [] rows).

Definition dbTotal (kind : LedgerMovementKind) (rows : list DbLedgerRow) : result ReconcileError (Z * list DbLedgerRow) :=
  let distinct := distinct_rows kind rows in
  let* stroops := mfoldl (λ sum row, let* z := decimalToStroops (dr_amount row) in Ok (sum + z)) 0 distinct in
  Ok (stroops, distinct).

Definition jsnum_add (a b : jsnum) : jsnum := match a, b with Fin p, Fin q => Fin (p + q) | _, _ => NonFinite end.

Definition chain_count (movements : list OnChainMovement) : jsnum :=
  foldl (λ sum m, jsnum_add sum (default (int 0) (mv_count m))) (int 0) movements.

Definition chain_stroops (movements : list OnChainMovement) : Z := sum_of (λ m, default 0 (mv_amountStroops m)) movements.

(** The common fields: of the first event when there is one, else of the first row. *)
Definition base (kind : LedgerMovementKind) (txHash : string) (rows : list DbLedgerRow) (movements : list OnChainMovement)
    (type : DiscrepancyType) (severity : DiscrepancySeverity) : ReconciliationDiscrepancy :=
  let first := head movements in
  let row := head rows in
  {| dc_type := type; dc_severity := severity; dc_kind := kind; dc_txHash := txHash;
     dc_ledgerSeq := or_else (mv_ledgerSeq <$> first) (row ≫= dr_ledgerSeq);
     dc_timestamp := or_else (first ≫= mv_closedAt) ((λ r, default (dr_createdAt r) (dr_confirmedAt r)) <$> row);
     dc_leagueId := row ≫= dr_leagueId;
     dc_contractLeagueId := or_else (mv_contractLeagueId <$> first) (truthy_text (row ≫= dr_leagueId) ≫= safeContractId);
     dc_transactionIds := dr_id <$> rows;
     dc_dbAmount := None; dc_onChainAmount := None; dc_dbCount := None; dc_onChainCount := None |}.

Definition set_amounts (db chain : option (list ascii)) (d : ReconciliationDiscrepancy) : ReconciliationDiscrepancy :=
  {| dc_type := dc_type d; dc_severity := dc_severity d; dc_kind := dc_kind d; dc_txHash := dc_txHash d;
     dc_ledgerSeq := dc_ledgerSeq d; dc_timestamp := dc_timestamp d; dc_leagueId := dc_leagueId d;
     dc_contractLeagueId := dc_contractLeagueId d; dc_transactionIds := dc_transactionIds d;
     dc_dbAmount := db; dc_onChainAmount := chain; dc_dbCount := dc_dbCount d; dc_onChainCount := dc_onChainCount d |}.

Definition set_counts (db : option Z) (chain : option jsnum) (d : ReconciliationDiscrepancy) : ReconciliationDiscrepancy :=
  {| dc_type := dc_type d; dc_severity := dc_severity d; dc_kind := dc_kind d; dc_txHash := dc_txHash d;
     dc_ledgerSeq := dc_ledgerSeq d; dc_timestamp := dc_timestamp d; dc_leagueId := dc_leagueId d;
     dc_contractLeagueId := dc_contractLeagueId d; dc_transactionIds := dc_transactionIds d;
     dc_dbAmount := dc_dbAmount d; dc_onChainAmount := dc_onChainAmount d; dc_dbCount := db; dc_onChainCount := chain |}.

Definition set_row_league (leagueId : option string) (d : ReconciliationDiscrepancy) : ReconciliationDiscrepancy :=
  {| dc_type := dc_type d; dc_severity := dc_severity d; dc_kind := dc_kind d; dc_txHash := dc_txHash d;
     dc_ledgerSeq := dc_ledgerSeq d; dc_timestamp := dc_timestamp d; dc_leagueId := leagueId;
     dc_contractLeagueId := dc_contractLeagueId d; dc_transactionIds := dc_transactionIds d;
     dc_dbAmount := dc_dbAmount d; dc_onChainAmount := dc_onChainAmount d; dc_dbCount := dc_dbCount d;
     dc_onChainCount := dc_onChainCount d |}.

Definition set_ledger (ledger : option Z) (d : ReconciliationDiscrepancy) : ReconciliationDiscrepancy :=
  {| dc_type := dc_type d; dc_severity := dc_severity d; dc_kind := dc_kind d; dc_txHash := dc_txHash d;
     dc_ledgerSeq := ledger; dc_timestamp := dc_timestamp d; dc_leagueId := dc_leagueId d;
     dc_contractLeagueId := dc_contractLeagueId d; dc_transactionIds := dc_transactionIds d;
     dc_dbAmount := dc_dbAmount d; dc_onChainAmount := dc_onChainAmount d; dc_dbCount := dc_dbCount d;
     dc_onChainCount := dc_onChainCount d |}.

Definition unindexed (kind : LedgerMovementKind) (txHash : string) (movements : list OnChainMovement) : ReconciliationDiscrepancy :=
  let d := base kind txHash [] movements UNINDEXED_ON_CHAIN Critical in
  if bool_decide (kind = K_REFUND) then set_counts None (Some (chain_count movements)) d
  else set_amounts None (Some (formatStroops (chain_stroops movements))) d.

Definition duplicate_rows (kind : LedgerMovementKind) (txHash : string) (rows : list DbLedgerRow) :
    result ReconcileError (list ReconciliationDiscrepancy) :=
  let* '(_, distinct) := dbTotal kind rows in
  if bool_decide (length distinct = length rows) then Ok []
  else Ok [set_counts (Some (Z.of_nat (length rows))) None
    (base kind txHash rows [] DUPLICATE_DB_RECORD (if bool_decide (kind = K_DEPOSIT) then Critical else Warning))].

(** A row of another league than [eventLeague]; a row without a league is of any. *)
Definition other_league (eventLeague : Z) (row : DbLedgerRow) : bool :=
  match truthy_text (dr_leagueId row) with
  | Some l => negb (bool_decide (safeContractId l = Some eventLeague))
  | None => false
  end.

Definition compareGroups (kind : LedgerMovementKind) (txHash : string) (rows : list DbLedgerRow) (movements : list OnChainMovement) :
    result ReconcileError (list ReconciliationDiscrepancy) :=
  let* found := duplicate_rows kind txHash rows in
  let* '(dbStroops, distinct) := dbTotal kind rows in
  let d type := base kind txHash rows movements type Critical in
  let found := found ++
    match head movements with
    | Some first => match List.find (other_league (mv_contractLeagueId first)) distinct with
        | Some row => [set_row_league (dr_leagueId row) (d LEAGUE_MISMATCH)]
        | None => [] end
    | None => []
    end in
  if bool_decide (kind = K_REFUND) then
    let onChainCount := chain_count movements in
    if bool_decide (as_integer onChainCount = Some (Z.of_nat (length distinct))) then Ok found
    else Ok (found ++ [set_counts (Some (Z.of_nat (length distinct))) (Some onChainCount)
      (set_amounts (Some (formatStroops dbStroops)) None (d COUNT_MISMATCH))])
  else
    let chainStroops := chain_stroops movements in
    let diff := if chainStroops <? dbStroops then dbStroops - chainStroops else chainStroops - dbStroops in
    if ROUNDING_TOLERANCE_STROOPS * Z.max (Z.of_nat (length distinct)) 1 <? diff
    then Ok (found ++ [set_amounts (Some (formatStroops dbStroops)) (Some (formatStroops chainStroops)) (d AMOUNT_MISMATCH)])
    else Ok found.

Definition checkAgainstHorizon (kind : LedgerMovementKind) (txHash : string) (rows : list DbLedgerRow) (horizon : HorizonLookupResult) :
    result ReconcileError (list ReconciliationDiscrepancy) :=
  let* '(dbStroops, _) := dbTotal kind rows in
  let d type severity := base kind txHash rows [] type severity in
  let with_ledger d := set_ledger (or_else (dc_ledgerSeq d) (hz_ledgerSeq horizon)) d in
  match hz_status horizon with
  | H_NOT_FOUND | H_FAILED =>
      Ok [with_ledger (set_amounts (Some (formatStroops dbStroops)) None (d PHANTOM_DB_RECORD Critical))]
  | H_SUCCESS =>
      let onChain := default 0 (hz_usdcTransferredStroops horizon) in
      if bool_decide (kind = K_DEPOSIT) && (0 <? onChain) then
        let diff := if onChain <? dbStroops then dbStroops - onChain else onChain - dbStroops in
        if diff <=? ROUNDING_TOLERANCE_STROOPS then Ok []
        else Ok [set_amounts (Some (formatStroops dbStroops)) (Some (formatStroops onChain)) (d AMOUNT_MISMATCH Critical)]
      else
        Ok [with_ledger (set_amounts (Some (formatStroops dbStroops)) None
          (d MISSING_CONTRACT_EVENT (if bool_decide (kind = K_DEPOSIT) then Critical else Warning)))]
  end.

Section compare.
Context (horizon : string → result ReconcileError HorizonLookupResult).

(** A lookup that fails counts as a transaction that is not found. *)
Definition safeLookup (txHash : string) : HorizonLookupResult :=
  match horizon txHash with
  | Ok r => r
  | Err _ => {| hz_status := H_NOT_FOUND; hz_ledgerSeq := None; hz_closedAt := None; hz_usdcTransferredStroops := None |}
  end.

Definition is_critical (d : ReconciliationDiscrepancy) : bool := bool_decide (dc_severity d = Critical).

(** One turn of the loop over the groups of events. *)
Definition chain_turn (dbGroups : list db_group) (acc : list ReconciliationDiscrepancy * Z) (group : chain_group) :
    result ReconcileError (list ReconciliationDiscrepancy * Z) :=
  let '(discrepancies, matched) := acc in
  let '(key, movements) := group in
  match map_get key dbGroups with
  | None => Ok (discrepancies ++ [unindexed key.1 key.2 movements], matched)
  | Some rows =>
      let* found := compareGroups key.1 key.2 rows movements in
      Ok (discrepancies ++ found, if existsb is_critical found then matched else matched + 1)
  end.

(** One turn of the loop over the groups of rows, with the cache of the lookups. *)
Definition row_turn (chainGroups : list chain_group)
    (acc : list (string * HorizonLookupResult) * list ReconciliationDiscrepancy * Z) (group : db_group) :
    result ReconcileError (list (string * HorizonLookupResult) * list ReconciliationDiscrepancy * Z) :=
  let '(cache, discrepancies, verified) := acc in
  let '(key, rows) := group in
  if map_has key chainGroups then Ok acc
  else
    let lookup := match map_get key.2 cache with Some r => r | None => safeLookup key.2 end in
    let cache := map_set key.2 lookup cache in
    let* found := checkAgainstHorizon key.1 key.2 rows lookup in
    let verified := if bool_decide (length found = 0%nat) then verified + 1 else verified in
    let* dups := duplicate_rows key.1 key.2 rows in
    Ok (cache, discrepancies ++ dups ++ found, verified).

Definition severity_rank (d : ReconciliationDiscrepancy) : Z := if is_critical d then 0 else 1.

Definition discrepancy_order : ReconciliationDiscrepancy → ReconciliationDiscrepancy → Z :=
  then_by (asc severity_rank) (asc (λ d, default 0 (dc_ledgerSeq d))).

Definition compare (rows : list DbLedgerRow) (batch : OnChainEventBatch) : result ReconcileError LedgerReconciliationReport :=
  let dbGroups := group_by row_key rows in
  let chainGroups := group_by movement_key (eb_movements batch) in
  let* '(discrepancies, matched) := mfoldl (chain_turn dbGroups) ([], 0) chainGroups in
  let* '(_, discrepancies, verified) := mfoldl (row_turn chainGroups) ([], discrepancies, 0) dbGroups in
  let discrepancies := sort_by discrepancy_order discrepancies in
  Ok {| lr_ledgerRange := (eb_fromLedger batch, eb_toLedger batch);
        lr_status := if bool_decide (length discrepancies = 0%nat) then BALANCED else DISCREPANCIES_FOUND;
        lr_dbRecords := Z.of_nat (length rows);
        lr_onChainMovements := Z.of_nat (length (eb_movements batch));
        lr_matched := matched; lr_verifiedViaHorizon := verified;
        lr_critical := countb is_critical discrepancies;
        lr_warning := countb (λ d, negb (is_critical d)) discrepancies;
        lr_byType := tally dc_type discrepancies;
        lr_discrepancies := discrepancies |}.

End compare.

(** ** A run *)

Record ReconcileOptions : Type := {
  ro_fromLedger : option Z;
  ro_toLedger : option Z;
  ro_lookbackLedgers : option Z;
  ro_since : option Z;
  ro_notify : bool
}.

Inductive RunEffect : Type := RecordRun (balanced : bool) | NotifyAdmins (critical : bool) (discrepancies : Z).

(** The [where] of the query, on a row with its status. *)
Definition in_scope (batch : OnChainEventBatch) (since : Z) (r : TransactionStatus * DbLedgerRow) : bool :=
  bool_decide (r.1 = TS_CONFIRMED) &&
  match dr_ledgerSeq r.2 with
  | Some s => (eb_fromLedger batch <=? s) && (s <=? eb_toLedger batch)
  | None => match dr_confirmedAt r.2 with Some t => since <=? t | None => false end
  end.

(** [reconcile], with the rows that have a hash; the source of the events is an
    argument.  It gives the report and what the run does with it. *)
Definition reconcile (now : Z) (table : list (TransactionStatus * DbLedgerRow))
    (fetch : option Z → option Z → Z → result ReconcileError OnChainEventBatch)
    (horizon : string → result ReconcileError HorizonLookupResult) (options : ReconcileOptions) :
    result ReconcileError (LedgerReconciliationReport * list RunEffect) :=
  let lookback := default DEFAULT_LOOKBACK_LEDGERS (ro_lookbackLedgers options) in
  let* batch := fetch (ro_fromLedger options) (ro_toLedger options) lookback in
  let since := default (now - (eb_toLedger batch - eb_fromLedger batch + 1) * 5000) (ro_since options) in
  let rows := (List.filter (in_scope batch since) table).*2 in
  let* report := compare horizon rows batch in
  Ok (report,
    RecordRun (match lr_status report with BALANCED => true | _ => false end) ::
    match lr_status report with
    | DISCREPANCIES_FOUND =>
        if ro_notify options then [NotifyAdmins (0 <? lr_critical report) (Z.of_nat (length (lr_discrepancies report)))] else []
    | BALANCED => []
    end).

(** ** Amounts are printed and read back *)

Lemma span_digits_app l r : forallb is_digit l = true → (∀ c, head r = Some c → is_digit c = false) → span_digits (l ++ r) = (l, r).
Proof.
  intros Hl Hr. induction l as [|c l IH]; cbn.
  - destruct r as [|c r]; [done|]. cbn. by rewrite (Hr c eq_refl).
  - cbn in Hl. apply andb_true_iff in Hl as [-> Hl]. by rewrite IH.
Qed.

Lemma digits_text l : in_base 10 l → forallb is_digit (digit_char <$> l) = true ∧ decimal_value (digit_char <$> l) = radix_value 10 l.
Proof.
  intros Hl. unfold decimal_value. rewrite <- list_fmap_compose.
  assert (forallb is_digit (digit_char <$> l) = true ∧ (hex_digit ∘ digit_char) <$> l = l) as [-> ->]; [|done].
  induction Hl as [|d l Hd Hl [IH1 IH2]]; [done|]. rewrite !fmap_cons. cbn [forallb]. rewrite digit_char_digit, IH1, IH2 by done.
  split; [done|]. f_equal. cbn. apply digit_char_hex. lia.
Qed.

Lemma decimal_format z : decimalToStroops (formatStroops z) = Ok z.
Proof.
  unfold formatStroops. set (n := if z <? 0 then - z else z). assert (0 ≤ n) as Hn by (subst n; destruct (Z.ltb_spec z 0); lia).
  pose proof (Z.div_pos n STROOPS_PER_UNIT Hn ltac:(done)). pose proof (Z.mod_pos_bound n STROOPS_PER_UNIT ltac:(done)).
  unfold radix_text at 1. rewrite (proj2 (Z.ltb_ge (n / STROOPS_PER_UNIT) 0)) by done.
  destruct (radix_digits_spec 10 (n / STROOPS_PER_UNIT)) as (Hw1 & Hw2 & Hw3); [done|done|].
  destruct (pad_radix 10 7 (n mod STROOPS_PER_UNIT)) as (f & -> & Hf1 & Hf2 & Hf3); [done|exact H0|lia|].
  set (w := radix_digits 10 (n / STROOPS_PER_UNIT)) in *.
  destruct (digits_text w Hw2) as [Hdw Hvw], (digits_text f Hf1) as [Hdf Hvf].
  destruct w as [|d w']; [done|]. set (w := d :: w') in *. pose proof (Forall_inv Hw2) as Hd. cbn in Hd.
  assert (∃ f' x, digit_char <$> f = f' ++ [digit_char x] ∧ 0 ≤ x < 10) as (f' & x & Ef & Hx).
  { destruct f as [|x f _] using rev_ind; [done|]. exists (digit_char <$> f), x. rewrite fmap_app. split; [done|].
    by apply Forall_app in Hf1 as [_ ?%Forall_inv]. }
  unfold decimalToStroops. rewrite trim_text_id.
  - assert (span_digits ((digit_char <$> w) ++ "."%char :: (digit_char <$> f)) = (digit_char <$> w, "."%char :: (digit_char <$> f))) as Hspan.
    { apply span_digits_app; [done|]. by intros c [= <-]. }
    assert (decimal_value (digit_char <$> w) * STROOPS_PER_UNIT +
      decimal_value (take 7 ((digit_char <$> f) ++ replicate 7 "0"%char)) = n) as Hval.
    { rewrite take_app_le, take_ge, Hvw, Hvf, Hw1, Hf3 by (rewrite length_fmap; lia). pose proof (Z.div_mod n STROOPS_PER_UNIT ltac:(done)). lia. }
    destruct (Z.ltb_spec z 0) as [Hz|Hz]; cbn [app].
    + change (strip_minus _) with (true, (digit_char <$> w) ++ "."%char :: (digit_char <$> f)).
      cbv beta iota zeta. rewrite Hspan, Hdf, Hval. f_equal. subst n. lia.
    + assert (strip_minus ((digit_char <$> w) ++ "."%char :: (digit_char <$> f)) =
        (false, (digit_char <$> w) ++ "."%char :: (digit_char <$> f))) as ->.
      { pose proof (digit_char_dec d Hd). subst w. cbn. rewrite (proj2 (Ascii.eqb_neq _ _)); [done|]. set_solver. }
      cbv beta iota zeta. by rewrite Hspan, Hdf, Hval.
  - intros c Hc. destruct (z <? 0); [by injection Hc as <-|]. injection Hc as <-. apply digit_char_hex. lia.
  - intros c Hc. rewrite Ef, !(assoc_L (++)), last_snoc in Hc. injection Hc as <-. apply digit_char_hex. lia.
Qed.

(** ** The rows of one movement *)

Lemma distinct_facts kind rows :
  (NoDup (rowIdentity kind <$> rows) → distinct_rows kind rows = rows) ∧
  (length (distinct_rows kind rows) = length rows → NoDup (rowIdentity kind <$> rows)) ∧
  (∀ row, row ∈ distinct_rows kind rows → row ∈ rows).
Proof.
  unfold distinct_rows, map_values. set (step := λ m row, _).
  assert (let m := foldl step [] rows in
    m.*1 ⊆ rowIdentity kind <$> rows ∧ rowIdentity kind <$> rows ⊆ m.*1 ∧ (length m ≤ length rows)%nat ∧ m.*2 ⊆ rows ∧
    (NoDup (rowIdentity kind <$> rows) → m.*2 = rows) ∧ (length m = length rows → NoDup (rowIdentity kind <$> rows))) as H.
  { induction rows as [|x rows IH] using rev_ind; [cbn; split_and!; try set_solver; constructor|].
    rewrite foldl_app, fmap_app, length_app. cbn [foldl]. set (m := foldl step [] rows) in *. cbn in IH.
    destruct IH as (H1 & H2 & H3 & H4 & H5 & H6). cbn. unfold step at 1 2 3 4 5 6.
    unfold map_has. destruct (map_get (rowIdentity kind x) m) as [y|] eqn:E.
    - rewrite bool_decide_eq_true_2 by done. apply map_get_elem, (list_elem_of_fmap_2 fst) in E. cbn in E.
      split_and!; [set_solver|set_solver|lia|set_solver| |intros; lia]. intros Hnd. exfalso.
      apply list.NoDup_app in Hnd as (_ & Hnd & _). apply (Hnd (rowIdentity kind x)); [by apply H1|by left].
    - rewrite bool_decide_eq_false_2 by (by intros [? ?]). apply map_get_None in E.
      rewrite map_set_absent, !fmap_app, length_app by done. cbn.
      split_and!; [set_solver|set_solver|lia|set_solver| |].
      + intros Hnd. apply list.NoDup_app in Hnd as (Hnd & _ & _). by rewrite H5.
      + intros Hl. apply NoDup_snoc; [apply H6; lia|]. intros Hin. by apply E, H2. }
  cbn in H. destruct H as (_ & _ & _ & H4 & H5 & H6). split_and!; [done| |set_solver].
  rewrite length_fmap. done.
Qed.

(** The amount of a row, when its text is a decimal. *)
Definition row_stroops (row : DbLedgerRow) : Z := match decimalToStroops (dr_amount row) with Ok z => z | Err _ => 0 end.

Definition readable (row : DbLedgerRow) : Prop := is_ok (decimalToStroops (dr_amount row)) = true.

Lemma dbTotal_ok kind rows : Forall readable rows →
  dbTotal kind rows = Ok (sum_of row_stroops (distinct_rows kind rows), distinct_rows kind rows).
Proof.
  intros H. unfold dbTotal. assert (Forall readable (distinct_rows kind rows)) as Hd.
  { rewrite Forall_forall in H |- *. intros row Hin. by apply H, (distinct_facts kind). }
  set (l := distinct_rows kind rows) in *. clearbody l.
  assert (∀ z, mfoldl (λ sum row, let* z := decimalToStroops (dr_amount row) in Ok (sum + z)) z l = Ok (z + sum_of row_stroops l)) as ->.
  { induction Hd as [|row l Hr Hl IH]; intros z; [by rewrite Z.add_0_r|]. cbn [mfoldl]. rewrite sum_of_cons.
    unfold row_stroops at 1. unfold readable in Hr. destruct (decimalToStroops (dr_amount row)) as [y|]; [|done]. cbn. rewrite IH. f_equal. lia. }
  done.
Qed.

(** What the comparison asks of the rows and the events of one movement. *)
Record agree (kind : LedgerMovementKind) (rows : list DbLedgerRow) (movements : list OnChainMovement) : Prop := {
  ag_once : NoDup (rowIdentity kind <$> rows);
  ag_league : ∀ row m, row ∈ rows → head movements = Some m → other_league (mv_contractLeagueId m) row = false;
  ag_amount :
    if bool_decide (kind = K_REFUND) then as_integer (chain_count movements) = Some (Z.of_nat (length rows))
    else Z.abs (sum_of row_stroops rows - chain_stroops movements) ≤ ROUNDING_TOLERANCE_STROOPS * Z.max (Z.of_nat (length rows)) 1
}.

(** What it asks of rows without an event: a payment that Horizon knows. *)
Definition paid_on_horizon (kind : LedgerMovementKind) (rows : list DbLedgerRow) (r : HorizonLookupResult) : Prop :=
  NoDup (rowIdentity kind <$> rows) ∧ kind = K_DEPOSIT ∧ hz_status r = H_SUCCESS ∧
  0 < default 0 (hz_usdcTransferredStroops r) ∧
  Z.abs (sum_of row_stroops rows - default 0 (hz_usdcTransferredStroops r)) ≤ ROUNDING_TOLERANCE_STROOPS.

Definition key_of (d : ReconciliationDiscrepancy) : LedgerMovementKind * string := (dc_kind d, dc_txHash d).

(** A finding about one movement, empty exactly when [good]. *)
Definition verdict (key : LedgerMovementKind * string) (good : Prop) (found : list ReconciliationDiscrepancy) : Prop :=
  (found = [] ↔ good) ∧ Forall (λ d, key_of d = key) found.

Lemma verdict_keys key good found k : verdict key good found → k ∉ key_of <$> found ↔ (k = key → good).
Proof.
  intros [Hg Hf]. rewrite Forall_forall in Hf. split.
  - intros Hk ->. apply Hg. destruct found as [|d found]; [done|]. exfalso. apply Hk. rewrite <- (Hf d) by (by left). by left.
  - intros Hk (d & -> & Hd)%list_elem_of_fmap. rewrite (Hf d Hd) in Hk. apply Hg in Hk; [|done]. subst. by apply elem_of_nil in Hd.
Qed.

Lemma duplicates_verdict kind h rows : Forall readable rows → ∃ found,
  duplicate_rows kind h rows = Ok found ∧ verdict (kind, h) (NoDup (rowIdentity kind <$> rows)) found.
Proof.
  intros Hr. unfold duplicate_rows. rewrite dbTotal_ok by done. cbn [rbind]. destruct (distinct_facts kind rows) as (H1 & H2 & _).
  case_bool_decide as Hl; eexists; (split; [reflexivity|]); split; try by repeat constructor.
  - split; [intros _; by apply H2|done].
  - split; [done|]. intros Hnd%H1. by rewrite Hnd in Hl.
Qed.

Lemma find_none {A} (p : A → bool) l : List.find p l = None ↔ ∀ x, x ∈ l → p x = false.
Proof.
  split; [intros H x; by apply find_absent|]. intros H. destruct (List.find p l) as [x|] eqn:E; [|done].
  apply find_elem in E as [Hx Hp]. by rewrite H in Hp.
Qed.

Lemma verdict_app key g1 g2 f1 f2 : verdict key g1 f1 → verdict key g2 f2 → verdict key (g1 ∧ g2) (f1 ++ f2).
Proof.
  intros [H1 H2] [H3 H4]. split; [|by apply Forall_app]. rewrite <- H1, <- H3. split; [by intros ?%app_nil|by intros [-> ->]].
Qed.

Lemma verdict_iff key g g' f : (g ↔ g') → verdict key g f → verdict key g' f.
Proof. unfold verdict. tauto. Qed.

Lemma verdict_one key (b : bool) d : key_of d = key → verdict key (b = true) (if b then [] else [d]).
Proof. intros H. destruct b; split; try done; by repeat constructor. Qed.

Lemma abs_diff a b c : (if b <? a then a - b else b - a) ≤ c ↔ Z.abs (a - b) ≤ c.
Proof. destruct (Z.ltb_spec b a); lia. Qed.

Lemma compareGroups_verdict kind h rows ms : Forall readable rows → ms ≠ [] → ∃ found,
  compareGroups kind h rows ms = Ok found ∧ verdict (kind, h) (agree kind rows ms) found.
Proof.
  intros Hr Hms. unfold compareGroups. destruct (duplicates_verdict kind h rows Hr) as (dups & -> & Hd).
  rewrite dbTotal_ok by done. destruct (distinct_facts kind rows) as (H1 & _ & H3). cbn [rbind].
  destruct ms as [|m ms]; [done|]. cbn [head]. set (M := m :: ms). set (distinct := distinct_rows kind rows) in *.
  set (leagues := match List.find _ _ with Some _ => _ | None => _ end).
  assert (verdict (kind, h) (∀ row, row ∈ distinct → other_league (mv_contractLeagueId m) row = false) leagues) as Hl.
  { eapply verdict_iff; [apply find_none|]. subst leagues. destruct (List.find _ _); split; try done; by repeat constructor. }
  set (amount := if bool_decide (kind = K_REFUND)
    then bool_decide (as_integer (chain_count M) = Some (Z.of_nat (length distinct)))
    else negb (ROUNDING_TOLERANCE_STROOPS * Z.max (Z.of_nat (length distinct)) 1 <?
      (if chain_stroops M <? sum_of row_stroops distinct then sum_of row_stroops distinct - chain_stroops M
       else chain_stroops M - sum_of row_stroops distinct))).
  assert (∀ d, key_of d = (kind, h) → verdict (kind, h) (agree kind rows M) ((dups ++ leagues) ++ if amount then [] else [d])) as Hall.
  { intros d Hk. eapply verdict_iff; [|exact (verdict_app _ _ _ _ _ (verdict_app _ _ _ _ _ Hd Hl) (verdict_one _ amount d Hk))].
    assert (NoDup (rowIdentity kind <$> rows) → amount = true ↔
      if bool_decide (kind = K_REFUND) then as_integer (chain_count M) = Some (Z.of_nat (length rows))
      else Z.abs (sum_of row_stroops rows - chain_stroops M) ≤ ROUNDING_TOLERANCE_STROOPS * Z.max (Z.of_nat (length rows)) 1) as Hamount.
    { intros Hnd. subst amount. rewrite H1 by done. destruct (bool_decide (kind = K_REFUND)); [apply bool_decide_eq_true|].
      rewrite negb_true_iff, Z.ltb_ge. apply abs_diff. }
    split.
    - intros [[Hnd Ho] Ha]. rewrite H1 in Ho by done. split; [done| |by apply Hamount]. by intros row ? Hin [= <-]; apply Ho.
    - intros [Hnd Ho Ha]. split; [split|by apply Hamount]; [done|]. intros row Hin. by apply (Ho row m); [apply H3|]. }
  subst amount. destruct (bool_decide (kind = K_REFUND)).
  - set (d := set_counts _ _ _). specialize (Hall d eq_refl). case_bool_decide; [rewrite app_nil_r in Hall|]; by eexists.
  - set (d := set_amounts _ _ _). specialize (Hall d eq_refl).
    destruct (ROUNDING_TOLERANCE_STROOPS * _ <? _); cbn [negb] in Hall; [|rewrite app_nil_r in Hall]; by eexists.
Qed.

Lemma horizon_verdict kind h rows r : Forall readable rows → ∃ found dups,
  checkAgainstHorizon kind h rows r = Ok found ∧ duplicate_rows kind h rows = Ok dups ∧
  verdict (kind, h) (paid_on_horizon kind rows r) (dups ++ found).
Proof.
  intros Hr. destruct (duplicates_verdict kind h rows Hr) as (dups & -> & Hd). unfold checkAgainstHorizon.
  rewrite dbTotal_ok by done. destruct (distinct_facts kind rows) as (H1 & _ & _). cbn [rbind].
  set (onChain := default 0 (hz_usdcTransferredStroops r)). set (total := sum_of row_stroops (distinct_rows kind rows)).
  set (paid := bool_decide (hz_status r = H_SUCCESS) && (bool_decide (kind = K_DEPOSIT) && (0 <? onChain)) &&
    ((if onChain <? total then total - onChain else onChain - total) <=? ROUNDING_TOLERANCE_STROOPS)).
  assert (∀ d, key_of d = (kind, h) → verdict (kind, h) (paid_on_horizon kind rows r) (dups ++ if paid then [] else [d])) as Hall.
  { intros d Hk. eapply verdict_iff; [|exact (verdict_app _ _ _ _ _ Hd (verdict_one _ paid d Hk))].
    unfold paid_on_horizon. subst paid. fold onChain. rewrite !andb_true_iff, !bool_decide_eq_true, Z.ltb_lt, Z.leb_le, abs_diff. subst total.
    split; intros (Hnd & Hrest); rewrite H1 in * by done; tauto. }
  subst paid. destruct (hz_status r).
  2, 3: set (d := set_ledger _ _); specialize (Hall d eq_refl); do 2 eexists; (split_and!; [reflexivity..|exact Hall]).
  rewrite bool_decide_eq_true_2 in Hall by done. cbn [andb] in Hall. destruct (bool_decide (kind = K_DEPOSIT) && (0 <? onChain)); cbn [andb] in Hall.
  - set (d := set_amounts _ _ _). specialize (Hall d eq_refl). destruct (_ <=? _); do 2 eexists; (split_and!; [reflexivity..|exact Hall]).
  - set (d := set_ledger _ _). specialize (Hall d eq_refl). do 2 eexists; split_and!; [reflexivity..|exact Hall].
Qed.

(** ** The loops *)

Lemma keys_snoc key good found ds k : verdict key good found →
  k ∉ key_of <$> (ds ++ found) ↔ k ∉ key_of <$> ds ∧ (k = key → good).
Proof. intros H. rewrite fmap_app, elem_of_app, <- (verdict_keys _ _ _ _ H). tauto. Qed.

Lemma chain_loop (dbGroups : list db_group) groups ds0 n0 :
  (∀ key rows, map_get key dbGroups = Some rows → Forall readable rows) →
  (∀ key ms, (key, ms) ∈ groups → ms ≠ []) → ∃ ds n,
  mfoldl (chain_turn dbGroups) (ds0, n0) groups = Ok (ds, n) ∧
  ∀ k, k ∉ key_of <$> ds ↔ k ∉ key_of <$> ds0 ∧
    ∀ ms, (k, ms) ∈ groups → ∃ rows, map_get k dbGroups = Some rows ∧ agree k.1 rows ms.
Proof.
  intros Hr. revert ds0 n0. induction groups as [|[key ms] groups IH]; intros ds0 n0 Hms.
  { do 2 eexists. split; [reflexivity|]. intros k. split; [|tauto]. intros H. split; [done|]. by intros ms ?%elem_of_nil. }
  cbn [mfoldl]. assert (∃ found n, chain_turn dbGroups (ds0, n0) (key, ms) = Ok (ds0 ++ found, n) ∧
    verdict key (∃ rows, map_get key dbGroups = Some rows ∧ agree key.1 rows ms) found) as (found & n & -> & Hv).
  { unfold chain_turn. destruct (map_get key dbGroups) as [rows|] eqn:E.
    - destruct (compareGroups_verdict key.1 key.2 rows ms) as (found & -> & Hv); [by eapply Hr|by eapply Hms; left|].
      cbn. do 2 eexists. split; [reflexivity|]. destruct key. eapply verdict_iff, Hv. cbn. split; [eauto|]. by intros (? & [= <-] & ?).
    - do 2 eexists. split; [reflexivity|]. split; [split; [done|by intros (? & ? & _)]|]. constructor; [|constructor].
      unfold unindexed. destruct key as [kind h]. by destruct (bool_decide _). }
  cbn [rbind]. destruct (IH (ds0 ++ found) n) as (ds & n' & -> & H); [by intros ? ? ?; eapply Hms; right|].
  do 2 eexists. split; [reflexivity|]. intros k. rewrite H, (keys_snoc _ _ _ _ _ Hv). split.
  - intros [[Hk Hg] Hrest]. split; [done|]. intros ms' [[= -> ->]|Hin]%elem_of_cons; [by apply Hg|by apply Hrest].
  - intros [Hk Hall]. split_and!; [done| |].
    + intros ->. apply Hall. by left.
    + intros ms' Hin. apply Hall. by right.
Qed.

Section loops.
Context (horizon : string → result ReconcileError HorizonLookupResult).

(** The cache only holds answers of the lookup. *)
Definition cached (cache : list (string * HorizonLookupResult)) : Prop :=
  ∀ h r, map_get h cache = Some r → r = safeLookup horizon h.

Lemma row_loop (chainGroups : list chain_group) groups cache ds0 n0 :
  cached cache → (∀ key rows, (key, rows) ∈ groups → Forall readable rows) → ∃ cache' ds n,
  mfoldl (row_turn horizon chainGroups) (cache, ds0, n0) groups = Ok (cache', ds, n) ∧
  ∀ k, k ∉ key_of <$> ds ↔ k ∉ key_of <$> ds0 ∧
    ∀ rows, (k, rows) ∈ groups → map_has k chainGroups = false → paid_on_horizon k.1 rows (safeLookup horizon k.2).
Proof.
  revert cache ds0 n0. induction groups as [|[key rows] groups IH]; intros cache ds0 n0 Hc Hr.
  { do 3 eexists. split; [reflexivity|]. intros k. split; [|tauto]. intros H. split; [done|]. by intros rows ?%elem_of_nil. }
  cbn [mfoldl]. assert (∃ cache' found n, row_turn horizon chainGroups (cache, ds0, n0) (key, rows) = Ok (cache', ds0 ++ found, n) ∧
    cached cache' ∧ verdict key (map_has key chainGroups = false → paid_on_horizon key.1 rows (safeLookup horizon key.2)) found)
    as (cache' & found & n & -> & Hc' & Hv).
  { unfold row_turn. destruct (map_has key chainGroups).
    - exists cache, [], n0. rewrite app_nil_r. split_and!; [done|done|]. split; [|constructor]. split; [|done]. by intros _ ?.
    - assert ((match map_get key.2 cache with Some r => r | None => safeLookup horizon key.2 end) = safeLookup horizon key.2) as ->.
      { destruct (map_get key.2 cache) eqn:E; [by apply Hc in E|done]. }
      destruct (horizon_verdict key.1 key.2 rows (safeLookup horizon key.2)) as (found & dups & -> & -> & Hv); [by eapply Hr; left|].
      cbn [rbind]. do 3 eexists. split_and!; [reflexivity| |].
      + intros h r. rewrite map_get_set. case_decide as E; [by subst h; intros [= <-]|apply Hc].
      + destruct key. eapply verdict_iff, Hv. tauto. }
  cbn [rbind]. destruct (IH cache' (ds0 ++ found) n Hc') as (c & ds & n' & -> & H); [by intros ? ? ?; eapply Hr; right|].
  do 3 eexists. split; [reflexivity|]. intros k. rewrite H, (keys_snoc _ _ _ _ _ Hv). split.
  - intros [[Hk Hg] Hrest]. split; [done|]. intros rows' [[= -> ->]|Hin]%elem_of_cons; [by apply Hg|by apply Hrest].
  - intros [Hk Hall]. split_and!; [done| |].
    + intros ->. apply Hall. by left.
    + intros rows' Hin. apply Hall. by right.
Qed.

(** ** The specification *)

Definition rows_of (kind : LedgerMovementKind) (txHash : string) (rows : list DbLedgerRow) : list DbLedgerRow :=
  List.filter (with_key row_key (kind, txHash)) rows.

Definition movements_of (kind : LedgerMovementKind) (txHash : string) (ms : list OnChainMovement) : list OnChainMovement :=
  List.filter (with_key movement_key (kind, txHash)) ms.

(** A movement reconciles when nothing is known of it, when its rows agree with
    its events, or when a deposit without an event is a payment on Horizon. *)
Definition reconciled (rows : list DbLedgerRow) (ms : list OnChainMovement) (kind : LedgerMovementKind) (txHash : string) : Prop :=
  match rows_of kind txHash rows, movements_of kind txHash ms with
  | [], [] => True
  | [], _ => False
  | rows, [] => paid_on_horizon kind rows (safeLookup horizon txHash)
  | rows, ms => agree kind rows ms
  end.

Lemma reconciled_cases rows ms kind h : reconciled rows ms kind h ↔
  (∀ g, (kind, h, g) ∈ group_by movement_key ms → ∃ r, map_get (kind, h) (group_by row_key rows) = Some r ∧ agree kind r g) ∧
  (∀ g, (kind, h, g) ∈ group_by row_key rows → map_has (kind, h) (group_by movement_key ms) = false →
    paid_on_horizon kind g (safeLookup horizon h)).
Proof.
  setoid_rewrite group_by_entry. rewrite group_by_get. unfold map_has. rewrite group_by_get.
  unfold reconciled. fold (rows_of kind h rows) (movements_of kind h ms).
  destruct (rows_of kind h rows) as [|r rs], (movements_of kind h ms) as [|m l].
  - split; [|done]. intros _. split; intros g [-> Hg]; done.
  - split; [done|]. intros [H _]. destruct (H (m :: l)) as (? & ? & _); done.
  - split; [intros H; split; intros g [-> Hg]; done|]. intros [_ H]. apply H; [done|]. by rewrite bool_decide_eq_false_2 by (by intros [? ?]).
  - split.
    + intros H. split; intros g [-> Hg]; [eauto|]. by rewrite bool_decide_eq_true_2 by eauto.
    + intros [H _]. by destruct (H (m :: l)) as (? & [= <-] & ?).
Qed.

Lemma compare_spec rows batch : Forall readable rows → ∃ report, compare horizon rows batch = Ok report ∧
  (∀ kind h, (kind, h) ∉ key_of <$> lr_discrepancies report ↔ reconciled rows (eb_movements batch) kind h) ∧
  lr_status report = if bool_decide (lr_discrepancies report = []) then BALANCED else DISCREPANCIES_FOUND.
Proof.
  intros Hr. unfold compare.
  assert (∀ key rows', (key, rows') ∈ group_by row_key rows → Forall readable rows') as Hg.
  { intros key rows' [-> _]%group_by_entry. apply Forall_forall. intros x Hx%list_elem_of_In%filter_In.
    rewrite Forall_forall in Hr. apply Hr, list_elem_of_In, Hx. }
  destruct (chain_loop (group_by row_key rows) (group_by movement_key (eb_movements batch)) [] 0) as (ds & n & -> & H1).
  { intros key rows' Hk%map_get_elem. by eapply Hg. }
  { by intros key ms [_ ?]%group_by_entry. }
  cbn [rbind]. destruct (row_loop (group_by movement_key (eb_movements batch)) (group_by row_key rows) [] ds 0) as (c & ds' & n' & -> & H2); [done|done|].
  cbn [rbind]. eexists. split; [reflexivity|]. cbn. split.
  - intros kind h. rewrite reconciled_cases. rewrite (fmap_Permutation key_of _ _ (sort_by_perm discrepancy_order ds')), H2, H1. cbn. split; [tauto|].
    intros [HA HB]. split; [split; [by intros ?%elem_of_nil|exact HA]|exact HB].
  - by destruct (sort_by discrepancy_order ds').
Qed.

End loops.

(** ** The pages *)

(** [getEvents] over the events [evs] from ledger [from] on: pages in their
    order, and cursors that resume after the events already served. *)
Record serves (getEvents : page_request → nat → result ReconcileError (list EscrowEvent * option string)) (from : Z)
    (evs : list EscrowEvent) (cursor : nat → string) : Prop := {
  sv_first : ∀ n, getEvents (FromLedger from) n = Ok (take n evs, Some (cursor (min n (length evs))));
  sv_next : ∀ k n, (k ≤ length evs)%nat → getEvents (AfterCursor (cursor k)) n = Ok (take n (drop k evs), Some (cursor (min (k + n) (length evs))));
  sv_cursor : ∀ k, nonempty (cursor k) = true
}.

Definition parsed (event : EscrowEvent) : list OnChainMovement := match parseEscrowEvent event with Ok ms => ms | Err _ => [] end.

Definition in_range (toLedger : Z) (event : EscrowEvent) : bool := negb (toLedger <? ev_ledger event).

Lemma scan_page_app to l1 l2 :
  scan_page to (l1 ++ l2) =
    let (m1, e1) := scan_page to l1 in if e1 then (m1, true) else let (m2, e2) := scan_page to l2 in (m1 ++ m2, e2).
Proof.
  induction l1 as [|e l1 IH]; [cbn; by destruct (scan_page to l2)|]. cbn. destruct (to <? ev_ledger e); [done|].
  rewrite IH. destruct (scan_page to l1) as [m1 []]; [done|]. destruct (scan_page to l2). by rewrite app_assoc.
Qed.

Lemma scan_sorted to l : StronglySorted (λ a b, ev_ledger a ≤ ev_ledger b) l →
  (scan_page to l).1 = concat (parsed <$> List.filter (in_range to) l).
Proof.
  induction 1 as [|e l Hs IH Hle]; [done|]. cbn. unfold in_range at 1. destruct (Z.ltb_spec to (ev_ledger e)) as [Hgt|_]; cbn.
  - assert (List.filter (in_range to) l = []) as ->; [|done]. clear IH Hs. induction Hle as [|x l Hx Hl IH]; [done|].
    cbn. unfold in_range at 1. by rewrite (proj2 (Z.ltb_lt _ _)) by lia.
  - destruct (scan_page to l) as [ms []]; cbn in IH; by rewrite IH.
Qed.

Section pages.
Context (getEvents : page_request → nat → result ReconcileError (list EscrowEvent * option string)).
Context (from to : Z) (evs : list EscrowEvent) (cursor : nat → string) (size : nat).
Context (Hserves : serves getEvents from evs cursor) (Hsize : (0 < size)%nat).

Lemma fetch_pages_spec pages k c acc : (k ≤ length evs)%nat → (c = None ∧ k = 0%nat ∨ c = Some (cursor k)) →
  fetch_pages getEvents pages size from to c acc = Ok (acc ++ (scan_page to (take (pages * size) (drop k evs))).1).
Proof.
  revert k c acc. induction pages as [|pages IH]; intros k c acc Hk Hc; [cbn; by rewrite app_nil_r|]. cbn [fetch_pages].
  assert (getEvents (match c with Some c => if nonempty c then AfterCursor c else FromLedger from | None => FromLedger from end) size =
    Ok (take size (drop k evs), Some (cursor (min (k + size) (length evs))))) as ->.
  { destruct Hc as [[-> ->]| ->]; [apply Hserves|]. rewrite (sv_cursor _ _ _ _ Hserves). by apply Hserves. }
  cbn [rbind]. replace (S pages * size)%nat with (size + pages * size)%nat by lia. rewrite <- take_take_drop, scan_page_app.
  destruct (scan_page to (take size (drop k evs))) as [ms []] eqn:E; [done|]. cbn [orb].
  destruct (Nat.ltb_spec (length (take size (drop k evs))) size) as [Hlt|Hge].
  - rewrite length_take in Hlt. rewrite (drop_ge _ size) by lia. rewrite take_nil. cbn. by rewrite app_nil_r.
  - rewrite length_take, length_drop in Hge. rewrite (IH (min (k + size) (length evs))) by (lia || by right).
    replace (min (k + size) (length evs)) with (k + size)%nat by lia. rewrite drop_drop, <- app_assoc.
    by destruct (scan_page to (take (pages * size) (drop (k + size) evs))).
Qed.

Lemma all_pages pages : (length evs ≤ pages * size)%nat → StronglySorted (λ a b, ev_ledger a ≤ ev_ledger b) evs →
  fetch_pages getEvents pages size from to None [] = Ok (concat (parsed <$> List.filter (in_range to) evs)).
Proof.
  intros Hle Hs. rewrite (fetch_pages_spec pages 0) by (lia || by left). rewrite drop_0, take_ge by done. by rewrite scan_sorted.
Qed.

End pages.

(** ** Theorems *)

(** C10. A run of the reconciliation reports exactly the movements that do not
    reconcile.  Over events that the RPC node pages in order of their ledgers,
    at most as many as the pages can hold, and rows with decimal amounts, the
    run ends with a report, and it has a discrepancy of a movement (a kind and
    a transaction) if and only if the rows in scope and the parsed events of
    the range disagree on it: rows without an event that are not a payment
    Horizon knows, an event without rows, two rows of one identity, another
    league, another number of refunds, an amount beyond the rounding of the
    rows.  The report is balanced when there is none, and administrators are
    told when there is one. *)
Theorem ledger_reconciliation_exact now table ledgers getEvents pageSize maxPages horizon options from to evs cursor rows :
  ledger_window ledgers (ro_fromLedger options) (ro_toLedger options)
    (default DEFAULT_LOOKBACK_LEDGERS (ro_lookbackLedgers options)) = (from, to) →
  serves getEvents from evs cursor → (0 < pageSize)%nat → (length evs ≤ maxPages * pageSize)%nat →
  StronglySorted (λ a b, ev_ledger a ≤ ev_ledger b) evs →
  rows = (List.filter (in_scope {| eb_movements := []; eb_fromLedger := from; eb_toLedger := to |}
    (default (now - (to - from + 1) * 5000) (ro_since options))) table).*2 →
  Forall readable rows →
  let movements := concat (parsed <$> List.filter (in_range to) evs) in
  ∃ report effects,
    reconcile now table (fetchMovements ledgers getEvents pageSize maxPages) horizon options = Ok (report, effects) ∧
    (∀ kind h, (kind, h) ∈ key_of <$> lr_discrepancies report ↔ ¬ reconciled horizon rows movements kind h) ∧
    (lr_status report = BALANCED ↔ ∀ kind h, reconciled horizon rows movements kind h) ∧
    ((∃ c n, NotifyAdmins c n ∈ effects) ↔ ro_notify options = true ∧ ∃ kind h, ¬ reconciled horizon rows movements kind h).
Proof.
  intros Hw Hs Hp Hle Hsort -> Hr movements. unfold reconcile, fetchMovements. rewrite Hw.
  rewrite (all_pages _ _ _ _ _ _ Hs Hp _ Hle Hsort). cbn [rbind eb_toLedger eb_fromLedger].
  set (batch := {| eb_movements := concat _ |}). set (since := default _ (ro_since options)) in *.
  assert (in_scope batch since = in_scope {| eb_movements := []; eb_fromLedger := from; eb_toLedger := to |} since) as -> by done.
  set (rows := (List.filter _ table).*2) in *. destruct (compare_spec horizon rows batch Hr) as (report & -> & Hk & Hst).
  change (eb_movements batch) with movements in Hk. cbn [rbind]. do 2 eexists. split; [reflexivity|].
  assert (∀ kind h, (kind, h) ∈ key_of <$> lr_discrepancies report ↔ ¬ reconciled horizon rows movements kind h) as Hk'.
  { intros kind h. rewrite <- Hk. destruct (decide ((kind, h) ∈ key_of <$> lr_discrepancies report)); tauto. }
  split; [done|]. case_bool_decide as E; rewrite Hst.
  - assert (∀ kind h, reconciled horizon rows movements kind h) as Hall by (intros; apply Hk; rewrite E; by intros ?%elem_of_nil).
    split; [done|]. split; [intros (c & n & [|Hin]%elem_of_cons); [done|by apply elem_of_nil in Hin]|intros (_ & kind & h & Hn); by destruct Hn].
  - destruct (lr_discrepancies report) as [|d ds] eqn:Ed; [done|].
    assert (¬ reconciled horizon rows movements (dc_kind d) (dc_txHash d)) as Hn by (apply Hk'; rewrite fmap_cons; by left).
    split; [split; [done|by intros Hall; destruct Hn]|]. split.
    + intros (c & n & [|Hin]%elem_of_cons); [done|]. destruct (ro_notify options); [|by apply elem_of_nil in Hin]. eauto.
    + intros [-> _]. do 2 eexists. right. by left.
Qed.

(** ** Examples *)

Definition hash_a : string := "aaaaaaaaaaaaaaaaaaaaaaaaaaaaaaaaaaaaaaaaaaaaaaaaaaaaaaaaaaaaaaaa".
Definition hash_b : string := "bbbbbbbbbbbbbbbbbbbbbbbbbbbbbbbbbbbbbbbbbbbbbbbbbbbbbbbbbbbbbbbb".
Definition hash_c : string := "cccccccccccccccccccccccccccccccccccccccccccccccccccccccccccccccc".
Definition some_league : string := "0a1b2c3d-4e5f-6789-abcd-ef0123456789".

Definition demo_row (type : TransactionType) (hash amount user : string) : DbLedgerRow :=
  {| dr_id := user; dr_userId := Some user; dr_leagueId := Some some_league; dr_memberId := None; dr_type := type;
     dr_amount := list_ascii_of_string amount; dr_stellarTxHash := hash; dr_ledgerSeq := Some 105; dr_confirmedAt := None; dr_createdAt := 0 |}.

Definition escrow_event (ledger : Z) (hash name : string) (value : native) : EscrowEvent :=
  {| ev_inSuccessfulContractCall := true; ev_txHash := hash; ev_ledger := ledger; ev_ledgerClosedAt := None; ev_name := name;
     ev_league := NBig 728224406569969545; ev_value := value |}.

(** A deposit, a settlement with a fee, and an event after the range. *)
Definition demo_events : list EscrowEvent :=
  [escrow_event 104 hash_a "deposit" (NArray [NText "GA"; NBig 250000000]);
   escrow_event 105 hash_b "settle" (NArray [NBig 500000000; NBig 50000000]);
   escrow_event 130 hash_c "refund" (NNum 3)].

Definition demo_cursor (k : nat) : string := string_of_list_ascii (replicate (S k) "c"%char).

Definition demo_rpc (r : page_request) (n : nat) : result ReconcileError (list EscrowEvent * option string) :=
  match r with
  | FromLedger _ => Ok (take n demo_events, Some (demo_cursor (min n 3)))
  | AfterCursor c => let k := Nat.pred (String.length c) in Ok (take n (drop k demo_events), Some (demo_cursor (min (k + n) 3)))
  end.

Lemma demo_serves from : serves demo_rpc from demo_events demo_cursor.
Proof.
  split; [done| |done]. intros k n Hk. cbn. destruct k as [|[|[|[|k]]]]; done.
Qed.

Definition demo_options : ReconcileOptions :=
  {| ro_fromLedger := Some 100; ro_toLedger := Some 110; ro_lookbackLedgers := None; ro_since := None; ro_notify := true |}.

(** The fee is booked by the settlement and, with a suffix, by the indexer. *)
Definition demo_table : list (TransactionStatus * DbLedgerRow) :=
  [(TS_CONFIRMED, demo_row ENTRY_FEE hash_a "25" "u1"); (TS_PENDING, demo_row ENTRY_FEE hash_c "25" "u2");
   (TS_CONFIRMED, demo_row PRIZE_PAYOUT hash_b "30" "u1"); (TS_CONFIRMED, demo_row PRIZE_PAYOUT hash_b "15" "u2");
   (TS_CONFIRMED, demo_row PLATFORM_FEE hash_b "5" "admin"); (TS_CONFIRMED, demo_row PLATFORM_FEE (hash_b +:+ "-fee") "5" "creator")].

Definition no_horizon (_ : string) : result ReconcileError HorizonLookupResult := Err UpstreamError.

Definition demo_rows : list DbLedgerRow :=
  (List.filter (in_scope {| eb_movements := []; eb_fromLedger := 100; eb_toLedger := 110 |} 0) demo_table).*2.

Lemma ledger_reconciliation_exact_witness : ∃ report effects,
  reconcile 55000 demo_table (fetchMovements (50, 120) demo_rpc 2 10) no_horizon demo_options = Ok (report, effects) ∧
  (∀ kind h, (kind, h) ∈ key_of <$> lr_discrepancies report ↔
    ¬ reconciled no_horizon demo_rows (concat (parsed <$> List.filter (in_range 110) demo_events)) kind h) ∧
  (lr_status report = BALANCED ↔
    ∀ kind h, reconciled no_horizon demo_rows (concat (parsed <$> List.filter (in_range 110) demo_events)) kind h) ∧
  ((∃ c n, NotifyAdmins c n ∈ effects) ↔ true = true ∧
    ∃ kind h, ¬ reconciled no_horizon demo_rows (concat (parsed <$> List.filter (in_range 110) demo_events)) kind h).
Proof.
  apply (ledger_reconciliation_exact 55000 demo_table (50, 120) demo_rpc 2 10 no_horizon demo_options 100 110 demo_events demo_cursor).
  - reflexivity.
  - apply demo_serves.
  - lia.
  - cbn. lia.
  - repeat constructor; cbn; lia.
  - reflexivity.
  - vm_compute. repeat constructor.
Defined.

(** On that ledger the fee, booked twice, is the one discrepancy: every settled
    league is reported. *)
Example settlement_fee_reported :
  match reconcile 55000 demo_table (fetchMovements (50, 120) demo_rpc 2 10) no_horizon demo_options with
  | Ok (report, effects) =>
      ((λ d, (dc_type d, dc_severity d, dc_kind d)) <$> lr_discrepancies report, lr_matched report, effects)
  | Err _ => ([], 0, [])
  end = ([(DUPLICATE_DB_RECORD, Warning, K_PLATFORM_FEE)], 3, [RecordRun false; NotifyAdmins false 1]).
Proof. vm_compute. reflexivity. Qed.

Definition demo_tx (_ : string) : horizon_answer HorizonTransaction :=
  Found {| ht_successful := true; ht_ledger := 105; ht_createdAt := 0 |}.

Definition demo_ops (type : string) (_ : string) : horizon_answer (list HorizonOperation) :=
  Found [{| op_type := type; op_assetCode := Some "USDC"%string; op_amount := list_ascii_of_string "25.0000000"; op_balanceChanges := None |}].

Definition report_types (horizon : string → result ReconcileError HorizonLookupResult) : list (DiscrepancyType * DiscrepancySeverity) :=
  match compare horizon [demo_row ENTRY_FEE hash_a "25" "u1"] {| eb_movements := []; eb_fromLedger := 0; eb_toLedger := 9 |} with
  | Ok report => (λ d, (dc_type d, dc_severity d)) <$> lr_discrepancies report
  | Err _ => []
  end.

(** A plain payment reconciles; the path payment that the deposit verification
    accepts is reported as critical; so is every row while Horizon is down. *)
Example path_payment_reported :
  report_types (horizon_lookup "USDC" demo_tx (demo_ops "payment")) = [] ∧
  report_types (horizon_lookup "USDC" demo_tx (demo_ops "path_payment_strict_receive")) = [(MISSING_CONTRACT_EVENT, Critical)] ∧
  report_types no_horizon = [(PHANTOM_DB_RECORD, Critical)].
Proof. vm_compute. done. Qed.
