(* ===== verification/DepositQueue.v ===== *)
(** * Decoding of escrow events and their queue: [backend/src/queues/depositQueue.ts]

    [decodeSorobanEscrowEvent] reads the values the SDK decoded; the queue keeps
    the keys it has seen in the process and, when there is one, in Redis.  An
    amount in USDC is its stroops divided by ten million, so only the stroops
    are kept.  No processor is registered in the program. *)

From Stdlib Require Import Ascii String.
From S2P Require Import Prelude Text ScVal.

#[local] Open Scope Z_scope.

Inductive EscrowCategory : Type := Cat_DEPOSIT | Cat_CLAIM | Cat_REFUND | Cat_SETTLE | Cat_CREATED | Cat_UNKNOWN.

#[export] Instance EscrowCategory_eq_dec : EqDecision EscrowCategory.
Proof. solve_decision. Defined.

Record SorobanEvent : Type := {
  se_id : option string;
  se_txHash : string;
  se_ledger : Z;
  se_ledgerClosedAt : Z;
  se_inSuccessfulContractCall : option bool;
  se_topic : list native;
  se_value : native
}.

Record DecodedEvent : Type := {
  de_eventId : string;
  de_txHash : string;
  de_ledger : Z;
  de_ledgerClosedAt : Z;
  de_rawTopicName : string;
  de_category : EscrowCategory;
  de_contractLeagueId : Z;
  de_participant : option string;
  de_amountStroops : option Z;
  de_totalPayoutStroops : option Z;
  de_platformFeeStroops : option Z;
  de_refundCount : option jsnum;
  de_rawValue : native
}.

Definition one_of (names : list string) (s : string) : bool := bool_decide (s ∈ names).

Definition classifyEscrowTopic (topicName : string) : EscrowCategory :=
  if one_of ["deposit"; "Deposit"]%string topicName then Cat_DEPOSIT
  else if one_of ["claimed"; "m_claimed"; "claim"; "PrizeClaimed"]%string topicName then Cat_CLAIM
  else if one_of ["refund"; "DepositRefunded"; "EmergencyRefund"; "LeagueRefundClaimed"]%string topicName then Cat_REFUND
  else if one_of ["settle"; "m_settle"]%string topicName then Cat_SETTLE
  else if one_of ["created"]%string topicName then Cat_CREATED
  else Cat_UNKNOWN.

(** What the branches of a category set. *)
Record DecodedValue : Type := {
  dv_participant : option string;
  dv_amount : option Z;
  dv_total : option Z;
  dv_fee : option Z;
  dv_count : option jsnum
}.

Definition empty_value : DecodedValue :=
  {| dv_participant := None; dv_amount := None; dv_total := None; dv_fee := None; dv_count := None |}.

Definition paid_value (participant : option string) (amount : option Z) : DecodedValue :=
  {| dv_participant := participant; dv_amount := amount; dv_total := None; dv_fee := None; dv_count := None |}.

Definition counted_value (count : jsnum) : DecodedValue :=
  {| dv_participant := None; dv_amount := None; dv_total := None; dv_fee := None; dv_count := Some count |}.

(** [None] is an exception: these conversions are outside the [try]. *)
Definition decode_value (category : EscrowCategory) (value : native) : option DecodedValue :=
  match category, value with
  | (Cat_DEPOSIT | Cat_CLAIM), NArray (participant :: amount :: _) =>
      (λ stroops, paid_value (Some (native_text participant)) (Some stroops)) <$> native_BigInt amount
  | (Cat_DEPOSIT | Cat_CLAIM), NRecord fields =>
      let participant := native_field "participant" fields in
      let winner := native_field "winner" fields in
      let set := existsb native_truthy (option_list participant ++ option_list winner) in
      (* [participant ?? winner] *)
      let chosen := match participant with Some NVoid | None => winner | _ => participant end in
      let name := if set then native_text <$> chosen else None in
      match native_field "amount" fields with
      | Some amount => (λ stroops, paid_value name (Some stroops)) <$> native_BigInt amount
      | None => Some (paid_value name None)
      end
  | Cat_REFUND, NArray (NText participant :: amount :: _) =>
      (λ stroops, paid_value (Some participant) (Some stroops)) <$> native_BigInt amount
  | Cat_REFUND, NArray [NText participant] => Some (paid_value (Some participant) None)
  | Cat_REFUND, NArray (count :: _) => Some (counted_value (native_Number count))
  | Cat_REFUND, (NBig _ | NNum _) => Some (counted_value (native_Number value))
  | Cat_SETTLE, NArray (total :: fee :: _) =>
      match native_BigInt total, native_BigInt fee with
      | Some total, Some fee =>
          Some {| dv_participant := None; dv_amount := None; dv_total := Some total; dv_fee := Some fee; dv_count := None |}
      | _, _ => None
      end
  | _, _ => Some empty_value
  end.

Inductive decode_result : Type := Skipped | Thrown | Decoded (d : DecodedEvent).

Definition decodeSorobanEscrowEvent (event : SorobanEvent) : decode_result :=
  if bool_decide (se_inSuccessfulContractCall event = Some false) then Skipped
  else match se_topic event with
  | name :: league :: _ =>
      match native_BigInt league with
      | None => Skipped
      | Some contractLeagueId =>
          let rawTopicName := native_text name in
          let category := classifyEscrowTopic rawTopicName in
          match decode_value category (se_value event) with
          | None => Thrown
          | Some v => Decoded {|
              de_eventId := default (integer_text (se_ledger event) +:+ "-" +:+ se_txHash event +:+ "-" +:+ rawTopicName) (se_id event);
              de_txHash := se_txHash event; de_ledger := se_ledger event; de_ledgerClosedAt := se_ledgerClosedAt event;
              de_rawTopicName := rawTopicName; de_category := category; de_contractLeagueId := contractLeagueId;
              de_participant := dv_participant v; de_amountStroops := dv_amount v; de_totalPayoutStroops := dv_total v;
              de_platformFeeStroops := dv_fee v; de_refundCount := dv_count v; de_rawValue := se_value event |}
          end
      end
  | _ => Skipped
  end.

(** ** The queue *)

(** Redis, when there is one: the keys with the time they expire. *)
Record DepositQueue : Type := {
  dq_processedKeys : list string;
  dq_jobs : list (string * DecodedEvent);
  dq_redis : option (list (string * Z))
}.

Definition idempotencyTtlMs : Z := 7 * 24 * 60 * 60 * 1000.

Definition nonempty_text (o : option string) : option string :=
  match o with Some s => if bool_decide (s = ""%string) then None else Some s | None => None end.

Definition buildIdempotencyKey (d : DecodedEvent) : string :=
  let participantPart := match nonempty_text (de_participant d) with Some p => ":" +:+ p | None => "" end in
  "soroban:deposit-queue:" +:+ de_txHash d +:+ ":" +:+ de_rawTopicName d +:+ ":" +:+ integer_text (de_contractLeagueId d) +:+ participantPart.

Definition live_key (now : Z) (key : string) (redis : list (string * Z)) : bool :=
  match map_get key redis with Some expiry => now <? expiry | None => false end.

Definition add_key (key : string) (keys : list string) : list string := if bool_decide (key ∈ keys) then keys else keys ++ [key].

(** [reachable] tells whether Redis answers; an error leaves the set in memory
    to decide. *)
Definition enqueue (now : Z) (reachable : bool) (d : DecodedEvent) (q : DepositQueue) : DepositQueue * bool :=
  let key := buildIdempotencyKey d in
  if bool_decide (key ∈ dq_processedKeys q) then (q, false)
  else
    let seen := match dq_redis q with Some redis => reachable && live_key now key redis | None => false end in
    if seen then
      ({| dq_processedKeys := add_key key (dq_processedKeys q); dq_jobs := dq_jobs q; dq_redis := dq_redis q |}, false)
    else
      ({| dq_processedKeys := add_key key (dq_processedKeys q); dq_jobs := dq_jobs q ++ [(key, d)];
          dq_redis := if reachable then map_set key (now + idempotencyTtlMs) <$> dq_redis q else dq_redis q |}, true).

(** ** Each key is queued once *)

Record queue_ok (q : DepositQueue) : Prop := {
  qo_once : NoDup (dq_jobs q).*1;
  qo_known : (dq_jobs q).*1 ⊆ dq_processedKeys q
}.

Lemma add_key_spec k key keys : k ∈ add_key key keys ↔ k = key ∨ k ∈ keys.
Proof. unfold add_key. case_bool_decide; set_solver. Qed.

Lemma enqueue_ok now reachable d q : queue_ok q → queue_ok (enqueue now reachable d q).1.
Proof.
  intros [H1 H2]. unfold enqueue. case_bool_decide as Hk; [done|].
  destruct (match dq_redis q with Some _ => _ | None => _ end); split; cbn.
  - done.
  - intros k Hin. apply add_key_spec. right. by apply H2.
  - rewrite fmap_app. apply NoDup_snoc; [done|]. cbn. intros Hin. by apply Hk, H2.
  - intros k. rewrite fmap_app, add_key_spec. intros [Hin| ->%list_elem_of_singleton]%elem_of_app; [right; by apply H2|by left].
Qed.

(** A key that was seen is not queued again, whatever Redis answers. *)
Lemma enqueue_again now reachable d q now' reachable' : let q1 := (enqueue now reachable d q).1 in
  enqueue now' reachable' d q1 = (q1, false).
Proof.
  assert (buildIdempotencyKey d ∈ dq_processedKeys (enqueue now reachable d q).1) as Hin.
  { unfold enqueue. case_bool_decide as Hk; [done|]. destruct (match dq_redis q with Some _ => _ | None => _ end); cbn; apply add_key_spec; by left. }
  cbn. unfold enqueue at 1. by rewrite bool_decide_eq_true_2.
Qed.
