(* ===== verification/Indexer.v ===== *)
(** * The escrow event indexer: [backend/src/workers/eventIndexer.ts]

    The handler of one event over the tables of the payments ([Financial]),
    with the wallets, the deposit exceptions and their refund claims, the log
    of contract events, the queue and the financial audit; and the polling with
    its two cursors.  Amounts in USDC are kept in stroops; the column of a
    transaction rounds them to cents.  A deposit that is one stroop off its fee,
    which the code decides in floating point, counts as the fee.  The
    transactions are upserted by their hash, which is no unique key, so Prisma
    refuses every upsert and the batch around it writes nothing.  The
    confirmation e-mail and the timer of the polling are left out. *)

From Stdlib Require Import QArith Ascii String.
From S2P Require Import Prelude Text ScVal LeagueDb League TxCoordinator Financial Merkle DepositQueue Reconciliation.

#[local] Open Scope Z_scope.

(** ** State *)

Inductive ExceptionReason : Type := UNKNOWN_LEAGUE | LEAGUE_OVER_CAPACITY | UNLINKED_SENDER | DEPOSIT_AMOUNT_MISMATCH.

(** Amounts in stroops. *)
Record DepositException : Type := {
  dx_txHash : string;
  dx_leagueId : option string;
  dx_contractLeagueId : Z;
  dx_senderAddress : string;
  dx_amount : Z;
  dx_expectedAmount : option Z;
  dx_reason : ExceptionReason
}.

(** A claim, by the hash of its exception. *)
Record DepositRefundClaim : Type := { rc_exception : string; rc_paid : bool; rc_completedAt : option Z }.

Record ContractEvent : Type := {
  ce_eventType : string;
  ce_leagueId : option string;
  ce_txHash : string;
  ce_ledgerSeq : Z;
  ce_contractLeagueId : Z;
  ce_value : native
}.

Inductive IndexerAudit : Type := DEPOSIT_CONFIRMED | FEE_EXTRACTION | AUDIT_REFUND | WITHDRAWAL.

(** An audit record: the action, the user, the league, the amount in stroops, the hash. *)
Record AuditRecord : Type := {
  au_action : IndexerAudit;
  au_userId : option string;
  au_leagueId : string;
  au_amount : Z;
  au_txHash : string
}.

(** [ix_wallets]: the wallet address of a user. *)
Record IndexerDb : Type := {
  ix_db : FinancialDb;
  ix_wallets : list (string * string);
  ix_exceptions : list DepositException;
  ix_claims : list DepositRefundClaim;
  ix_contractEvents : list ContractEvent;
  ix_queue : DepositQueue;
  ix_audit : list AuditRecord
}.

Definition ix_members (s : IndexerDb) : list LeagueMember := db_members (fd_league (ix_db s)).
Definition ix_leagues (s : IndexerDb) : list (string * LeagueRow) := db_leagues (fd_league (ix_db s)).

Definition put_db (db : FinancialDb) (s : IndexerDb) : IndexerDb :=
  {| ix_db := db; ix_wallets := ix_wallets s; ix_exceptions := ix_exceptions s; ix_claims := ix_claims s;
     ix_contractEvents := ix_contractEvents s; ix_queue := ix_queue s; ix_audit := ix_audit s |}.

Definition put_exceptions (x : list DepositException) (c : list DepositRefundClaim) (s : IndexerDb) : IndexerDb :=
  {| ix_db := ix_db s; ix_wallets := ix_wallets s; ix_exceptions := x; ix_claims := c;
     ix_contractEvents := ix_contractEvents s; ix_queue := ix_queue s; ix_audit := ix_audit s |}.

(** The event is logged and queued before it is applied. *)
Definition log_event (e : ContractEvent) (q : DepositQueue) (s : IndexerDb) : IndexerDb :=
  {| ix_db := ix_db s; ix_wallets := ix_wallets s; ix_exceptions := ix_exceptions s; ix_claims := ix_claims s;
     ix_contractEvents := ix_contractEvents s ++ [e]; ix_queue := q; ix_audit := ix_audit s |}.

Definition record_audit (rs : list AuditRecord) (s : IndexerDb) : IndexerDb :=
  {| ix_db := ix_db s; ix_wallets := ix_wallets s; ix_exceptions := ix_exceptions s; ix_claims := ix_claims s;
     ix_contractEvents := ix_contractEvents s; ix_queue := ix_queue s; ix_audit := ix_audit s ++ rs |}.

Inductive IndexerError : Type := BadEventValue | InvalidWhere | UniqueViolation | MissingColumn | RpcError.

(** ** Queries and writes *)

(** [league.findFirst({ where: { id: { startsWith } } })]. *)
Definition league_of (contractLeagueId : Z) (s : IndexerDb) : option (string * LeagueRow) :=
  let prefix := leagueIdPrefixFromContractId contractLeagueId in
  List.find (λ l, bool_decide (take (length prefix) (list_ascii_of_string l.1) = prefix)) (ix_leagues s).

(** The address of the member, or of the wallet of its user; a filter on an
    absent address is no filter. *)
Definition linked (s : IndexerDb) (participant : option string) (m : LeagueMember) : bool :=
  match participant with
  | Some p => bool_decide (map_get (mb_id m) (fd_addresses (ix_db s)) = Some p) || bool_decide (map_get (mb_userId m) (ix_wallets s) = Some p)
  | None => true
  end.

Definition member_of (leagueId : string) (participant : option string) (s : IndexerDb) : option LeagueMember :=
  List.find (λ m, bool_decide (mb_leagueId m = leagueId) && linked s participant m) (ix_members s).

Definition league_size (leagueId : string) (s : IndexerDb) : Z :=
  countb (λ m, bool_decide (mb_leagueId m = leagueId)) (ix_members s).

Definition stroops_of_cents (c : Z) : Z := c * 100000.
Definition cents_of_stroops (z : Z) : Z := round_div z 100000.

(** [update: { status: CONFIRMED, ledgerSeq, confirmedAt }], with [memberId]. *)
Definition confirm_row (ledger confirmedAt : Z) (memberId : option string) (t : TransactionRow) : TransactionRow :=
  {| tx_userId := tx_userId t; tx_leagueId := tx_leagueId t; tx_memberId := or_else memberId (tx_memberId t);
     tx_type := tx_type t; tx_amount := tx_amount t; tx_stellarTxHash := tx_stellarTxHash t;
     tx_ledgerSeq := Some ledger; tx_memo := tx_memo t; tx_status := TS_CONFIRMED; tx_confirmedAt := Some confirmedAt |}.

Definition event_row (userId leagueId : string) (memberId : option string) (type : TransactionType) (stroops : Z) (hash : string)
    (ledger confirmedAt : Z) : TransactionRow :=
  {| tx_userId := userId; tx_leagueId := Some leagueId; tx_memberId := memberId; tx_type := type;
     tx_amount := cents_of_stroops stroops; tx_stellarTxHash := Some hash; tx_ledgerSeq := Some ledger; tx_memo := None;
     tx_status := TS_CONFIRMED; tx_confirmedAt := Some confirmedAt |}.

(** The [where] of an upsert: Prisma takes a unique key of the schema only.  The
    transactions have [@@unique([stellarTxHash, memberId])] and none on the hash
    alone. *)
Inductive TransactionWhere : Type := ByHash (hash : string) | ByHashAndMember (hash memberId : string).

Definition unique_where (w : TransactionWhere) : bool :=
  match w with ByHash _ => false | ByHashAndMember _ _ => true end.

Definition selects (w : TransactionWhere) (t : TransactionRow) : bool :=
  match w with
  | ByHash h => bool_decide (tx_stellarTxHash t = Some h)
  | ByHashAndMember h m => bool_decide (tx_stellarTxHash t = Some h) && bool_decide (tx_memberId t = Some m)
  end.

(** [transaction.upsert({ where, update, create })]. *)
Definition upsert_tx (w : TransactionWhere) (update : TransactionRow → TransactionRow) (create : TransactionRow) (rows : list TransactionRow) :
    result IndexerError (list TransactionRow) :=
  if negb (unique_where w) then Err InvalidWhere
  else match find_index (selects w) rows with
  | Some i => Ok (alter update i rows)
  | None => if existsb (same_tx_key create) rows then Err UniqueViolation else Ok (rows ++ [create])
  end.

Definition map_members (f : LeagueMember → LeagueMember) (id : string) (db : FinancialDb) : FinancialDb :=
  set_members db ((λ m, if bool_decide (mb_id m = id) then f m else m) <$> db_members (fd_league db)).

Definition set_league_state (st : LeagueStatus) (id : string) (db : FinancialDb) : FinancialDb :=
  set_leagues db ((λ l, if bool_decide (l.1 = id) then (l.1, set_league_status st l.2) else l) <$> db_leagues (fd_league db)).

(** The upsert of one row as the last write of a transaction. *)
Definition with_upsert (w : TransactionWhere) (update : TransactionRow → TransactionRow) (create : TransactionRow) (db : FinancialDb) :
    result IndexerError FinancialDb :=
  let* rows := upsert_tx w update create (fd_transactions db) in
  Ok (set_transactions db rows).

(** ** Handlers *)

Abbreviation outcome := (IndexerDb * result IndexerError bool)%type.

(** A batch of writes: all of them or none. *)
Definition commit (s : IndexerDb) (r : result IndexerError FinancialDb) (k : IndexerDb → outcome) : outcome :=
  match r with Ok db => k (put_db db s) | Err e => (s, Err e) end.

(** [flagDeposit]: the first reason stays. *)
Definition flagDeposit (d : DecodedEvent) (stroops : Z) (reason : ExceptionReason) (leagueId : option string) (expected : option Z) (s : IndexerDb) : outcome :=
  match de_participant d with
  | None => (s, Err MissingColumn)
  | Some sender =>
      if existsb (λ x, bool_decide (dx_txHash x = de_txHash d)) (ix_exceptions s) then (s, Ok false)
      else (put_exceptions (ix_exceptions s ++ [{| dx_txHash := de_txHash d; dx_leagueId := leagueId; dx_contractLeagueId := de_contractLeagueId d;
         dx_senderAddress := sender; dx_amount := stroops; dx_expectedAmount := expected; dx_reason := reason |}]) (ix_claims s) s, Ok false)
  end.

Definition confirm_member : LeagueMember → LeagueMember := set_payment_state (Some Member_ACTIVE) PAYMENT_CONFIRMED (Some true) None.
Definition refund_member : LeagueMember → LeagueMember := set_payment_state (Some Member_REFUNDED) Pay_REFUNDED None None.

Definition is_refunded (m : LeagueMember) : bool :=
  bool_decide (mb_paymentStatus m = REFUND_PENDING) || bool_decide (mb_paymentStatus m = Pay_REFUNDED).

(** The exception of a deposit goes, and with it the claim of its refund. *)
Definition clear_exception (hash : string) (s : IndexerDb) : IndexerDb :=
  put_exceptions (List.filter (λ x, negb (bool_decide (dx_txHash x = hash))) (ix_exceptions s))
    (List.filter (λ c, negb (bool_decide (rc_exception c = hash))) (ix_claims s)) s.

Definition handle_deposit (d : DecodedEvent) (league : option (string * LeagueRow)) (s : IndexerDb) : outcome :=
  let stroops := default 0 (de_amountStroops d) in
  match league with
  | None => flagDeposit d stroops UNKNOWN_LEAGUE None None s
  | Some (leagueId, league) =>
      match member_of leagueId (de_participant d) s with
      | None =>
          flagDeposit d stroops (if lg_maxMembers league <=? league_size leagueId s then LEAGUE_OVER_CAPACITY else UNLINKED_SENDER)
            (Some leagueId) None s
      | Some member =>
          let expected := stroops_of_cents (lg_entryFee league) in
          if 1 <? Z.abs (stroops - expected) then flagDeposit d stroops DEPOSIT_AMOUNT_MISMATCH (Some leagueId) (Some expected) s
          else if lg_maxMembers league <? league_size leagueId s then
            flagDeposit d stroops LEAGUE_OVER_CAPACITY (Some leagueId) (Some expected) s
          else if is_refunded member then (s, Ok false)
          else
            let wasConfirmed := bool_decide (mb_paymentStatus member = PAYMENT_CONFIRMED) in
            let db := map_members confirm_member (mb_id member) (ix_db s) in
            let db := match de_participant d with
              | Some p => set_addresses db (map_set (mb_id member) p (fd_addresses db))
              | None => db end in
            commit s
              (with_upsert (ByHash (de_txHash d)) (confirm_row (de_ledger d) (de_ledgerClosedAt d) (Some (mb_id member)))
                (event_row (mb_userId member) leagueId (Some (mb_id member)) ENTRY_FEE stroops (de_txHash d) (de_ledger d) (de_ledgerClosedAt d)) db)
              (λ s, (record_audit (if wasConfirmed then [] else
                 [{| au_action := DEPOSIT_CONFIRMED; au_userId := Some (mb_userId member); au_leagueId := leagueId; au_amount := stroops; au_txHash := de_txHash d |}])
                 (clear_exception (de_txHash d) s), Ok true))
      end
  end.

Definition handle_settle (d : DecodedEvent) (league : option (string * LeagueRow)) (s : IndexerDb) : outcome :=
  let platformFee := default 0 (de_platformFeeStroops d) in
  match league with
  | None => (s, Ok false)
  | Some (leagueId, league) =>
      let wasCompleted := bool_decide (lg_status league = COMPLETED) in
      let db := set_league_state COMPLETED leagueId (ix_db s) in
      let hash := de_txHash d +:+ "-fee" in
      commit s
        (if (0 <? platformFee) && negb (bool_decide (lg_creatorId league = ""%string))
         then with_upsert (ByHash hash) (confirm_row (de_ledger d) (de_ledgerClosedAt d) None)
                (event_row (lg_creatorId league) leagueId None PLATFORM_FEE platformFee hash (de_ledger d) (de_ledgerClosedAt d)) db
         else Ok db)
        (λ s, (record_audit (if (0 <? platformFee) && negb wasCompleted then
           [{| au_action := FEE_EXTRACTION; au_userId := None; au_leagueId := leagueId; au_amount := platformFee; au_txHash := hash |}] else []) s, Ok true))
  end.

(** The refund of one member, as the writes of a transaction. *)
Definition refund_writes (d : DecodedEvent) (leagueId : string) (stroops : Z) (m : LeagueMember) (db : FinancialDb) : result IndexerError FinancialDb :=
  let hash := de_txHash d +:+ "-" +:+ mb_id m in
  with_upsert (ByHash hash) (confirm_row (de_ledger d) (de_ledgerClosedAt d) None)
    (event_row (mb_userId m) leagueId (Some (mb_id m)) REFUND stroops hash (de_ledger d) (de_ledgerClosedAt d)) (map_members refund_member (mb_id m) db).

Definition refund_due (leagueId : string) (m : LeagueMember) : bool :=
  bool_decide (mb_leagueId m = leagueId) &&
  (bool_decide (mb_paymentStatus m = PAYMENT_CONFIRMED) || bool_decide (mb_paymentStatus m = REFUND_PENDING)).

Definition handle_refund (d : DecodedEvent) (league : option (string * LeagueRow)) (s : IndexerDb) : outcome :=
  if one_of ["EmergencyRefund"; "LeagueRefundClaimed"]%string (de_rawTopicName d) && bool_decide (is_Some (nonempty_text (de_participant d))) then
    match league with
    | None => (s, Ok false)
    | Some (leagueId, league) =>
        match member_of leagueId (de_participant d) s with
        | None => (s, Ok true)
        | Some m => commit s (refund_writes d leagueId (default (stroops_of_cents (lg_entryFee league)) (de_amountStroops d)) m (ix_db s)) (λ s, (s, Ok true))
        end
    end
  else
    match league with
    | None => (s, Ok false)
    | Some (leagueId, league) =>
        let membersToRefund := List.filter (refund_due leagueId) (ix_members s) in
        let fee := stroops_of_cents (lg_entryFee league) in
        commit s (mfoldl (λ db m, refund_writes d leagueId fee m db) (set_league_state CANCELLED leagueId (ix_db s)) membersToRefund)
          (λ s, (record_audit ((λ m, {| au_action := AUDIT_REFUND; au_userId := Some (mb_userId m); au_leagueId := leagueId; au_amount := fee;
             au_txHash := de_txHash d +:+ "-" +:+ mb_id m |}) <$> membersToRefund) s, Ok true))
    end.

(** The first claim whose exception has this league and sender is paid. *)
Definition of_claim (d : DecodedEvent) (s : IndexerDb) (c : DepositRefundClaim) : bool :=
  existsb (λ x, bool_decide (dx_txHash x = rc_exception c) && bool_decide (dx_contractLeagueId x = de_contractLeagueId d) &&
    match de_participant d with Some p => bool_decide (dx_senderAddress x = p) | None => true end) (ix_exceptions s).

Definition handle_deposit_refunded (d : DecodedEvent) (s : IndexerDb) : outcome :=
  match find_index (of_claim d s) (ix_claims s) with
  | Some i =>
      (put_exceptions (ix_exceptions s)
         (alter (λ c, if rc_paid c then c else {| rc_exception := rc_exception c; rc_paid := true; rc_completedAt := Some (de_ledgerClosedAt d) |}) i (ix_claims s)) s, Ok true)
  | None => (s, Ok true)
  end.

Definition handle_claim (d : DecodedEvent) (league : option (string * LeagueRow)) (s : IndexerDb) : outcome :=
  let stroops := default 0 (de_amountStroops d) in
  match league with
  | None => (s, Ok false)
  | Some (leagueId, _) =>
      match member_of leagueId (de_participant d) s with
      | None => (s, Ok true)
      | Some m =>
          let hash := de_txHash d +:+ "-" +:+ default "undefined"%string (de_participant d) in
          commit s
            (with_upsert (ByHash hash) (confirm_row (de_ledger d) (de_ledgerClosedAt d) (Some (mb_id m)))
              (event_row (mb_userId m) leagueId (Some (mb_id m)) PRIZE_PAYOUT stroops hash (de_ledger d) (de_ledgerClosedAt d)) (ix_db s))
            (λ s, (record_audit [{| au_action := WITHDRAWAL; au_userId := Some (mb_userId m); au_leagueId := leagueId; au_amount := stroops; au_txHash := hash |}] s, Ok true))
      end
  end.

(** [handleEvent]; the clock and whether Redis answers are arguments. *)
Definition apply_event (d : DecodedEvent) (league : option (string * LeagueRow)) (s : IndexerDb) : outcome :=
  let name := de_rawTopicName d in
  if one_of ["deposit"; "Deposit"]%string name then handle_deposit d league s
  else if one_of ["settle"; "m_settle"]%string name then handle_settle d league s
  else if one_of ["refund"; "EmergencyRefund"; "LeagueRefundClaimed"]%string name then handle_refund d league s
  else if one_of ["DepositRefunded"]%string name then handle_deposit_refunded d s
  else if one_of ["claimed"; "m_claimed"; "claim"; "PrizeClaimed"]%string name then handle_claim d league s
  else (s, Ok (one_of ["created"]%string name)).

Definition handleEvent (now : Z) (redis : bool) (event : SorobanEvent) (s : IndexerDb) : outcome :=
  match decodeSorobanEscrowEvent event with
  | Skipped => (s, Ok false)
  | Thrown => (s, Err BadEventValue)
  | Decoded d =>
      let league := league_of (de_contractLeagueId d) s in
      let entry := {| ce_eventType := de_rawTopicName d; ce_leagueId := fst <$> league; ce_txHash := de_txHash d; ce_ledgerSeq := de_ledger d;
        ce_contractLeagueId := de_contractLeagueId d; ce_value := de_rawValue d |} in
      apply_event d league (log_event entry (enqueue now redis d (ix_queue s)).1 s)
  end.

(** ** Polling *)

Record Cursor : Type := { cu_lastLedger : Z; cu_cursor : option string }.

(** The cursor in PostgreSQL and the one in Redis, when there is a Redis. *)
Record Poller : Type := { po_db : IndexerDb; po_pg : option Cursor; po_redis : option (option Cursor) }.

Record RpcPage : Type := { pg_events : list SorobanEvent; pg_cursor : option string; pg_latestLedger : Z }.

(** An answer of the node: a page, a position it no longer keeps, or a failure. *)
Inductive rpc_answer : Type := Page (p : RpcPage) | OutOfRetention | RpcFailed.

Section polling.
Context (batchSize : nat) (startLedger : option Z).

(** [loadSavedCursor]; the two flags tell whether Redis answers the [get] and
    takes the [set]. *)
Definition loadSavedCursor (getOk setOk : bool) (p : Poller) : Poller * option Cursor :=
  match po_redis p with
  | Some (Some c) => if getOk then (p, Some c) else
      (match po_pg p with Some c' => if setOk then {| po_db := po_db p; po_pg := po_pg p; po_redis := Some (Some c') |} else p | None => p end, po_pg p)
  | Some None =>
      (match po_pg p with Some c' => if setOk then {| po_db := po_db p; po_pg := po_pg p; po_redis := Some (Some c') |} else p | None => p end, po_pg p)
  | None => (p, po_pg p)
  end.

Definition saveCursor (setOk : bool) (c : Cursor) (p : Poller) : Poller :=
  {| po_db := po_db p; po_pg := Some c; po_redis := if setOk then (λ _, Some c) <$> po_redis p else po_redis p |}.

(** The events of the page in their order; the first failure ends the loop. *)
Fixpoint handle_all (now : Z) (redis : bool) (events : list SorobanEvent) (s : IndexerDb) : IndexerDb * option IndexerError :=
  match events with
  | [] => (s, None)
  | e :: events =>
      match handleEvent now redis e s with
      | (s, Ok _) => handle_all now redis events s
      | (s, Err err) => (s, Some err)
      end
  end.

Definition truthy_cursor (c : option Cursor) : option string := c ≫= λ c, nonempty_text (cu_cursor c).

(** What a poll runs against: the node's answers, its ledgers, and whether
    Redis and the save in PostgreSQL go through. *)
Record PollEnv : Type := {
  en_now : Z;
  en_rpc : page_request → nat → rpc_answer;
  en_oldest : Z;
  en_latest : Z;
  en_redisGet : bool;
  en_redisSet : bool;
  en_save : bool
}.

Definition first_request (env : PollEnv) (saved : option Cursor) : page_request :=
  match truthy_cursor saved with
  | Some c => AfterCursor c
  | None => FromLedger (match saved with Some c => cu_lastLedger c + 1 | None => default (en_latest env) startLedger end)
  end.

(** The page of a poll; from the node's oldest ledger when it no longer keeps
    the saved position. *)
Definition fetch_page (env : PollEnv) (saved : option Cursor) : rpc_answer :=
  match en_rpc env (first_request env saved) batchSize with
  | OutOfRetention => en_rpc env (FromLedger (en_oldest env)) batchSize
  | a => a
  end.

(** [pollOnce]: the number of events, or the error the timer backs off on. *)
Definition pollOnce (env : PollEnv) (p : Poller) : Poller * result IndexerError nat :=
  let (p, saved) := loadSavedCursor (en_redisGet env) (en_redisSet env) p in
  match fetch_page env saved with
  | Page page =>
      let (s, err) := handle_all (en_now env) (en_redisSet env) (pg_events page) (po_db p) in
      let p := {| po_db := s; po_pg := po_pg p; po_redis := po_redis p |} in
      match err with
      | Some e => (p, Err e)
      | None =>
          let lastLedger := match last (pg_events page) with
            | Some e => se_ledger e
            | None => match saved with Some c => cu_lastLedger c | None => pg_latestLedger page end end in
          if en_save env
          then (saveCursor (en_redisSet env) {| cu_lastLedger := lastLedger; cu_cursor := pg_cursor page |} p, Ok (length (pg_events page)))
          else (p, Err RpcError)
      end
  | _ => (p, Err RpcError)
  end.

(** [resetCursor]. *)
Definition resetCursor (redisOk : bool) (start : option Z) (p : Poller) : Poller :=
  match start with
  | Some l => saveCursor redisOk {| cu_lastLedger := l - 1; cu_cursor := None |} p
  | None => {| po_db := po_db p; po_pg := None; po_redis := if redisOk then (λ _, None) <$> po_redis p else po_redis p |}
  end.

End polling.

(** The events of a page that are handled before the first failure. *)
Fixpoint handled_prefix (now : Z) (redis : bool) (events : list SorobanEvent) (s : IndexerDb) : list SorobanEvent :=
  match events with
  | [] => []
  | e :: events =>
      match handleEvent now redis e s with
      | (s, Ok _) => e :: handled_prefix now redis events s
      | (_, Err _) => []
      end
  end.

(** [backoffDelay], on natural numbers of failures. *)
Definition backoffDelay (failures baseMs maxMs : Z) : Z := Z.min maxMs (baseMs * 2 ^ Z.max 0 (failures - 1)).

(** ** Effects of the writes *)
(** ** What an event leaves as it is *)

(** Deliveries in any order and number, each with its clock and Redis. *)
Definition deliver (events : list (Z * bool * SorobanEvent)) (s : IndexerDb) : IndexerDb :=
  foldl (λ s '(now, redis, e), (handleEvent now redis e s).1) s events.

(** What a league keeps when its status changes. *)
Definition terms (l : string * LeagueRow) : string * (Z * Z * string) :=
  (l.1, (lg_entryFee l.2, lg_maxMembers l.2, lg_creatorId l.2)).

(** The members, the transactions, the addresses, and the terms of the leagues. *)
Definition books (s : IndexerDb) :=
  (ix_members s, fd_transactions (ix_db s), fd_addresses (ix_db s), ix_wallets s, terms <$> ix_leagues s).

(** Prisma refuses an upsert by the hash alone, so a batch with one writes nothing. *)
Lemma upsert_refused hash update create db : with_upsert (ByHash hash) update create db = Err InvalidWhere.
Proof. done. Qed.

Lemma refunds_refused d leagueId stroops ms db :
  mfoldl (λ db m, refund_writes d leagueId stroops m db) db ms = match ms with [] => Ok db | _ => Err InvalidWhere end.
Proof. by destruct ms. Qed.

Definition state_of (st : LeagueStatus) (id : string) (l : string * LeagueRow) : string * LeagueRow :=
  if bool_decide (l.1 = id) then (l.1, set_league_status st l.2) else l.

Lemma books_league st id s : books (put_db (set_league_state st id (ix_db s)) s) = books s.
Proof.
  unfold books. f_equal. unfold ix_leagues. cbn. rewrite <- list_fmap_compose. apply list_fmap_ext. intros i [k l] _. cbn.
  by destruct (bool_decide (k = id)).
Qed.

Lemma books_flag d stroops reason l e s : books (flagDeposit d stroops reason l e s).1 = books s.
Proof. unfold flagDeposit. by destruct (de_participant d); [destruct (existsb _ _)|]. Qed.

(** ** The verdict on a deposit *)

Definition league_terms (c : Z) (s : IndexerDb) : option (string * (Z * Z * string)) := terms <$> league_of c s.

(** Why a deposit is not credited, with its league and the amount expected, or
    the member it pays for. *)
Definition verdict (d : DecodedEvent) (s : IndexerDb) : (ExceptionReason * option string * option Z) + LeagueMember :=
  match league_terms (de_contractLeagueId d) s with
  | None => inl (UNKNOWN_LEAGUE, None, None)
  | Some (leagueId, (fee, maxMembers, _)) =>
      match member_of leagueId (de_participant d) s with
      | None => inl (if maxMembers <=? league_size leagueId s then LEAGUE_OVER_CAPACITY else UNLINKED_SENDER, Some leagueId, None)
      | Some member =>
          let expected := stroops_of_cents fee in
          if 1 <? Z.abs (default 0 (de_amountStroops d) - expected) then inl (DEPOSIT_AMOUNT_MISMATCH, Some leagueId, Some expected)
          else if maxMembers <? league_size leagueId s then inl (LEAGUE_OVER_CAPACITY, Some leagueId, Some expected)
          else inr member
      end
  end.

Lemma handle_deposit_verdict d s : handle_deposit d (league_of (de_contractLeagueId d) s) s =
  match verdict d s with
  | inl (reason, leagueId, expected) => flagDeposit d (default 0 (de_amountStroops d)) reason leagueId expected s
  | inr m => (s, if is_refunded m then Ok false else Err InvalidWhere)
  end.
Proof.
  unfold handle_deposit, verdict, league_terms. destruct (league_of _ s) as [[leagueId league]|]; [|done]. cbn [fmap option_fmap option_map terms fst snd].
  destruct (member_of _ _ s) as [m|]; [|done]. cbv zeta. destruct (1 <? _); [done|]. destruct (_ <? league_size _ _); [done|].
  by destruct (is_refunded m).
Qed.

Lemma find_view {A B} (f : A → B) (p : B → bool) l : List.find p (f <$> l) = f <$> List.find (λ x, p (f x)) l.
Proof. induction l as [|x l IH]; [done|]. cbn. by destruct (p (f x)). Qed.

Lemma league_terms_find c s : league_terms c s =
  let prefix := leagueIdPrefixFromContractId c in
  List.find (λ l, bool_decide (take (length prefix) (list_ascii_of_string l.1) = prefix)) (terms <$> ix_leagues s).
Proof. unfold league_terms, league_of. cbv zeta. by rewrite find_view. Qed.

Lemma same_league c s s' : books s' = books s → league_terms c s' = league_terms c s.
Proof. intros [= _ _ _ _ E]. by rewrite !league_terms_find, E. Qed.

Lemma same_member l p s s' : books s' = books s → member_of l p s' = member_of l p s.
Proof. intros [= E1 _ E2 E3 _]. unfold member_of, linked. by rewrite E1, E2, E3. Qed.

Lemma same_size l s s' : books s' = books s → league_size l s' = league_size l s.
Proof. intros [= E _ _ _ _]. unfold league_size. by rewrite E. Qed.

Lemma same_verdict d s s' : books s' = books s → verdict d s' = verdict d s.
Proof.
  intros H. unfold verdict. rewrite (same_league _ s s' H). destruct (league_terms _ s) as [[l [[fee mx] cr]]|]; [|done].
  by rewrite (same_member l _ s s' H), !(same_size l s s' H).
Qed.

Lemma apply_books d s : books (apply_event d (league_of (de_contractLeagueId d) s) s).1 = books s.
Proof.
  unfold apply_event. cbv zeta. destruct (one_of ["deposit"; _]%string _).
  { rewrite handle_deposit_verdict. destruct (verdict d s) as [[[reason l] e]|m]; [apply books_flag|done]. }
  destruct (one_of ["settle"; _]%string _).
  { unfold handle_settle. destruct (league_of _ s) as [[id l]|]; [|done]. cbv zeta. destruct (_ && negb (bool_decide (lg_creatorId l = _))); [done|].
    apply (books_league COMPLETED id s). }
  destruct (one_of ["refund"; _; _]%string _).
  { unfold handle_refund. destruct (_ && bool_decide _).
    - destruct (league_of _ s) as [[id l]|]; [|done]. by destruct (member_of _ _ _).
    - destruct (league_of _ s) as [[id l]|]; [|done]. cbv zeta. rewrite refunds_refused.
      destruct (List.filter _ _); [apply (books_league CANCELLED id s)|done]. }
  destruct (one_of ["DepositRefunded"]%string _).
  { unfold handle_deposit_refunded. by destruct (find_index _ _). }
  destruct (one_of ["claimed"; _; _; _]%string _); [|done].
  unfold handle_claim. destruct (league_of _ s) as [[id l]|]; [|done]. by destruct (member_of _ _ _).
Qed.

Lemma event_books now redis e s : books (handleEvent now redis e s).1 = books s.
Proof.
  unfold handleEvent. destruct (decodeSorobanEscrowEvent e) as [| |d]; [done..|]. cbv zeta.
  set (s0 := log_event _ _ s). exact (apply_books d s0).
Qed.

Lemma deliver_books events s : books (deliver events s) = books s.
Proof.
  revert s. induction events as [|[[now redis] e] events IH]; intros s; [done|].
  change (deliver _ s) with (deliver events (handleEvent now redis e s).1). rewrite IH. apply event_books.
Qed.

(** ** The exceptions of deposits *)

Definition deposit_topic (d : DecodedEvent) : bool := one_of ["deposit"; "Deposit"]%string (de_rawTopicName d).

Definition has_exception (hash : string) (s : IndexerDb) : Prop := hash ∈ dx_txHash <$> ix_exceptions s.

(** The exception of a deposit: its sender and amount, and a reason that holds. *)
Definition describes (s : IndexerDb) (d : DecodedEvent) (x : DepositException) : Prop :=
  dx_txHash x = de_txHash d ∧ dx_contractLeagueId x = de_contractLeagueId d ∧ de_participant d = Some (dx_senderAddress x) ∧
  dx_amount x = default 0 (de_amountStroops d) ∧
  match dx_reason x with
  | UNKNOWN_LEAGUE => league_of (de_contractLeagueId d) s = None ∧ dx_leagueId x = None
  | UNLINKED_SENDER => ∃ id l, league_of (de_contractLeagueId d) s = Some (id, l) ∧ dx_leagueId x = Some id ∧
      member_of id (de_participant d) s = None ∧ league_size id s < lg_maxMembers l
  | DEPOSIT_AMOUNT_MISMATCH => ∃ id l, league_of (de_contractLeagueId d) s = Some (id, l) ∧ dx_leagueId x = Some id ∧
      dx_expectedAmount x = Some (stroops_of_cents (lg_entryFee l)) ∧ 1 < Z.abs (dx_amount x - stroops_of_cents (lg_entryFee l))
  | LEAGUE_OVER_CAPACITY => ∃ id l, league_of (de_contractLeagueId d) s = Some (id, l) ∧ dx_leagueId x = Some id ∧
      (lg_maxMembers l < league_size id s ∨ league_size id s = lg_maxMembers l ∧ member_of id (de_participant d) s = None)
  end.

(** The deposit pays the fee of its league, for a member linked to its sender,
    and the league is not over its capacity. *)
Definition creditable (s : IndexerDb) (d : DecodedEvent) (m : LeagueMember) : Prop :=
  ∃ id l, league_of (de_contractLeagueId d) s = Some (id, l) ∧ member_of id (de_participant d) s = Some m ∧
    Z.abs (default 0 (de_amountStroops d) - stroops_of_cents (lg_entryFee l)) ≤ 1 ∧ league_size id s ≤ lg_maxMembers l.

Lemma league_terms_Some c s id fee mx cr : league_terms c s = Some (id, (fee, mx, cr)) →
  ∃ l, league_of c s = Some (id, l) ∧ lg_entryFee l = fee ∧ lg_maxMembers l = mx.
Proof. unfold league_terms. intros ([k l] & E & H)%fmap_Some. injection H as -> -> -> ->. by exists l. Qed.

Lemma verdict_credits d s m : verdict d s = inr m → creditable s d m.
Proof.
  unfold verdict. destruct (league_terms _ s) as [[id [[fee mx] cr]]|] eqn:El; [|done].
  apply league_terms_Some in El as (l & El & <- & <-). destruct (member_of id _ s) as [m'|] eqn:Em; [|done]. cbv zeta.
  destruct (Z.ltb_spec 1 (Z.abs (default 0 (de_amountStroops d) - stroops_of_cents (lg_entryFee l)))); [done|].
  destruct (Z.ltb_spec (lg_maxMembers l) (league_size id s)); [done|]. intros [= <-]. by exists id, l.
Qed.

Lemma verdict_describes d s p reason l e : de_participant d = Some p → verdict d s = inl (reason, l, e) →
  describes s d {| dx_txHash := de_txHash d; dx_leagueId := l; dx_contractLeagueId := de_contractLeagueId d; dx_senderAddress := p;
    dx_amount := default 0 (de_amountStroops d); dx_expectedAmount := e; dx_reason := reason |}.
Proof.
  intros Hp H. unfold describes. cbn. split_and!; [done|done|done|done|]. revert H. unfold verdict.
  destruct (league_terms _ s) as [[id [[fee mx] cr]]|] eqn:El.
  2:{ intros [= <- <- <-]. split; [|done]. unfold league_terms in El. by destruct (league_of _ s). }
  apply league_terms_Some in El as (lg & El & <- & <-). destruct (member_of id _ s) as [m|] eqn:Em; cbv zeta.
  - destruct (Z.ltb_spec 1 (Z.abs (default 0 (de_amountStroops d) - stroops_of_cents (lg_entryFee lg)))).
    { intros [= <- <- <-]. by exists id, lg. }
    destruct (Z.ltb_spec (lg_maxMembers lg) (league_size id s)); [|done]. intros [= <- <- <-]. exists id, lg. split_and!; [done|done|by left].
  - destruct (Z.leb_spec (lg_maxMembers lg) (league_size id s)); intros [= <- <- <-]; exists id, lg.
    + split_and!; [done|done|]. destruct (decide (league_size id s = lg_maxMembers lg)); [by right|left; lia].
    + by split_and!.
Qed.

Lemma same_describes d s s' x : books s' = books s → describes s' d x → describes s d x.
Proof.
  intros H (H1 & H2 & H3 & H4 & H5). unfold describes. split_and!; [done..|].
  assert (∀ id l, league_of (de_contractLeagueId d) s' = Some (id, l) → ∃ l0, league_of (de_contractLeagueId d) s = Some (id, l0) ∧
    lg_entryFee l0 = lg_entryFee l ∧ lg_maxMembers l0 = lg_maxMembers l) as Hl.
  { intros id l E. apply (league_terms_Some _ s id _ _ (lg_creatorId l)). rewrite <- (same_league _ s s' H). unfold league_terms. by rewrite E. }
  destruct (dx_reason x).
  1:{ destruct H5 as [E ?]. split; [|done]. pose proof (same_league (de_contractLeagueId d) s s' H) as T. unfold league_terms in T. rewrite E in T.
      by destruct (league_of _ s). }
  all: destruct H5 as (id & l & (l0 & E & E1 & E2)%Hl & Hrest); exists id, l0; rewrite ?E1, ?E2;
    rewrite ?(same_member id _ s s' H), ?(same_size id s s' H) in Hrest; split; [exact E|exact Hrest].
Qed.

(** An event adds the exception of its deposit, when there is none yet, and
    takes none back. *)
Lemma event_exceptions now redis e s : let s' := (handleEvent now redis e s).1 in
  ix_exceptions s' = ix_exceptions s ∨
  ∃ d x, decodeSorobanEscrowEvent e = Decoded d ∧ deposit_topic d = true ∧ describes s d x ∧ ¬ has_exception (dx_txHash x) s ∧
    ix_exceptions s' = ix_exceptions s ++ [x].
Proof.
  cbv zeta. unfold handleEvent. destruct (decodeSorobanEscrowEvent e) as [| |d] eqn:Ed; [by left..|]. cbv zeta. set (s0 := log_event _ _ s).
  change (league_of (de_contractLeagueId d) s) with (league_of (de_contractLeagueId d) s0). unfold apply_event. cbv zeta.
  destruct (one_of ["deposit"; _]%string _) eqn:E1.
  { rewrite handle_deposit_verdict. destruct (verdict d s0) as [[[reason l] ex]|m] eqn:Ev; [|by left].
    unfold flagDeposit. destruct (de_participant d) as [p|] eqn:Ep; [|by left]. destruct (existsb _ _) eqn:Ex; [by left|right].
    exists d. eexists. split_and!; [done|exact E1|exact (verdict_describes d s0 p reason l ex Ep Ev)| |reflexivity].
    intros (x & Hx & Hin)%list_elem_of_fmap. apply not_true_iff_false in Ex. apply Ex, existsb_exists. exists x.
    split; [by apply list_elem_of_In|]. apply bool_decide_eq_true_2. by rewrite <- Hx. }
  left. destruct (one_of ["settle"; _]%string _).
  { unfold handle_settle. destruct (league_of _ s0) as [[id l]|]; [|done]. cbv zeta. by destruct (_ && negb (bool_decide (lg_creatorId l = _))). }
  destruct (one_of ["refund"; _; _]%string _).
  { unfold handle_refund. destruct (_ && bool_decide _), (league_of _ s0) as [[id l]|]; [by destruct (member_of _ _ _)|done| |done].
    cbv zeta. rewrite refunds_refused. by destruct (List.filter _ _). }
  destruct (one_of ["DepositRefunded"]%string _).
  { unfold handle_deposit_refunded. by destruct (find_index _ _). }
  destruct (one_of ["claimed"; _; _; _]%string _); [|done].
  unfold handle_claim. destruct (league_of _ s0) as [[id l]|]; [|done]. by destruct (member_of _ _ _).
Qed.

(** What the handler answers to a deposit. *)
Lemma deposit_answer now redis e d p s : decodeSorobanEscrowEvent e = Decoded d → deposit_topic d = true → de_participant d = Some p →
  match verdict d s with
  | inl _ => has_exception (de_txHash d) (handleEvent now redis e s).1
  | inr m => (handleEvent now redis e s).2 = if is_refunded m then Ok false else Err InvalidWhere
  end.
Proof.
  intros Ed Et Ep. unfold handleEvent. rewrite Ed. cbv zeta. set (s0 := log_event _ _ s).
  change (league_of (de_contractLeagueId d) s) with (league_of (de_contractLeagueId d) s0). change (verdict d s) with (verdict d s0).
  unfold apply_event, deposit_topic in *. rewrite Et. cbv zeta. rewrite handle_deposit_verdict.
  destruct (verdict d s0) as [[[reason l] ex]|m]; [|by destruct (is_refunded m)]. unfold flagDeposit, has_exception. rewrite Ep.
  destruct (existsb _ _) eqn:Ex; cbn.
  - apply existsb_exists in Ex as (x & Hx%list_elem_of_In & <-%bool_decide_eq_true_1). by apply list_elem_of_fmap_2.
  - rewrite fmap_app. apply elem_of_app. right. by left.
Qed.

Lemma deliver_exceptions events s : ∃ new, ix_exceptions (deliver events s) = ix_exceptions s ++ new ∧
  NoDup (dx_txHash <$> new) ∧ (∀ x, x ∈ new → ¬ has_exception (dx_txHash x) s ∧
    ∃ now redis e d, (now, redis, e) ∈ events ∧ decodeSorobanEscrowEvent e = Decoded d ∧ deposit_topic d = true ∧ describes s d x).
Proof.
  induction events as [|[[now redis] e] events IH] using rev_ind.
  { exists []. split_and!; [by rewrite app_nil_r|by apply NoDup_nil_2|by intros x ?%elem_of_nil]. }
  destruct IH as (new & E & Hnd & Hnew). unfold deliver. rewrite foldl_app. cbn [foldl]. fold (deliver events s).
  destruct (event_exceptions now redis e (deliver events s)) as [Es|(d & x & Hd & Ht & Hx & Hno & Es)]; rewrite Es, E.
  - exists new. split_and!; [done|done|]. intros x Hx. destruct (Hnew x Hx) as (H1 & n & r & e' & d & H2 & H3). split; [done|].
    exists n, r, e', d. split; [apply elem_of_app; by left|done].
  - unfold has_exception in Hno. rewrite E, fmap_app, elem_of_app in Hno. exists (new ++ [x]). split_and!; [by rewrite app_assoc| |].
    + rewrite fmap_app. apply NoDup_snoc; [done|]. intros H. apply Hno. by right.
    + intros y [Hy| ->%list_elem_of_singleton]%elem_of_app.
      * destruct (Hnew y Hy) as (H1 & n & r & e' & d' & H2 & H3). split; [done|]. exists n, r, e', d'. split; [apply elem_of_app; by left|done].
      * split; [intros H; apply Hno; by left|]. exists now, redis, e, d. split_and!; [apply elem_of_app; right; by left|done|done|].
        eapply same_describes; [apply deliver_books|exact Hx].
Qed.

Lemma deliver_app events1 events2 s : deliver (events1 ++ events2) s = deliver events2 (deliver events1 s).
Proof. unfold deliver. by rewrite foldl_app. Qed.

Lemma exception_stays hash events s : has_exception hash s → has_exception hash (deliver events s).
Proof. unfold has_exception. destruct (deliver_exceptions events s) as (new & -> & _). rewrite fmap_app, elem_of_app. by left. Qed.

(** ** Redelivery *)

(** The same tables with another log and queue. *)
Definition relog (c : list ContractEvent) (q : DepositQueue) (s : IndexerDb) : IndexerDb :=
  {| ix_db := ix_db s; ix_wallets := ix_wallets s; ix_exceptions := ix_exceptions s; ix_claims := ix_claims s;
     ix_contractEvents := c; ix_queue := q; ix_audit := ix_audit s |}.

Lemma find_stable {A} (g : A → A) (p p' : A → bool) l : (∀ x, x ∈ l → p' (g x) = p x) →
  List.find p' (g <$> l) = g <$> List.find p l.
Proof.
  intros H. induction l as [|x l IH]; [done|]. cbn. rewrite H by (by left). destruct (p x); [done|].
  apply IH. intros. apply H. by right.
Qed.

Lemma league_after st id s s' c : ix_leagues s' = state_of st id <$> ix_leagues s →
  league_of c s' = state_of st id <$> league_of c s.
Proof.
  intros E. unfold league_of. rewrite E. apply find_stable. intros l _. unfold state_of. by destruct (bool_decide (l.1 = id)).
Qed.

Lemma league_state_again st id db : set_league_state st id (set_league_state st id db) = set_league_state st id db.
Proof.
  unfold set_league_state. cbn. unfold set_leagues at 1. cbn. unfold set_leagues. f_equal. unfold with_leagues. cbn. f_equal.
  rewrite <- list_fmap_compose. apply list_fmap_ext. intros i [k l] _. cbn.
  by destruct (bool_decide (k = id)) eqn:B; cbn; rewrite ?B.
Qed.

Lemma relog_again s : put_db (ix_db s) s = s.
Proof. by destruct s. Qed.

Lemma no_audit s : record_audit [] s = s.
Proof. destruct s. unfold record_audit. cbn. by rewrite app_nil_r. Qed.

(** Handling again answers the same and changes nothing more. *)
Definition settles (handle : IndexerDb → outcome) (s : IndexerDb) : Prop :=
  ∀ c q, let s1 := relog c q (handle s).1 in handle s1 = (s1, (handle s).2).

Lemma deposit_again d s : settles (λ s, handle_deposit d (league_of (de_contractLeagueId d) s) s) s.
Proof.
  intros c q. cbv beta zeta. rewrite !handle_deposit_verdict. set (s1 := relog c q _).
  assert (verdict d s1 = verdict d s) as ->.
  { apply same_verdict. subst s1. destruct (verdict d s) as [[[reason l] e]|m]; [exact (books_flag d _ reason l e s)|done]. }
  subst s1. destruct (verdict d s) as [[[reason l] e]|m]; [|done]. unfold flagDeposit. destruct (de_participant d) as [p|]; [|done].
  destruct (existsb _ (ix_exceptions s)) eqn:E; cbn; [by rewrite E|]. rewrite existsb_app. cbn.
  by rewrite bool_decide_eq_true_2, orb_true_r by done.
Qed.

Lemma settle_again d c0 s : settles (λ s, handle_settle d (league_of c0 s) s) s.
Proof.
  intros c q. cbv beta zeta. unfold handle_settle at 2 3 4. destruct (league_of c0 s) as [[id l]|] eqn:El.
  2:{ cbn. change (league_of c0 (relog c q s)) with (league_of c0 s). by rewrite El. }
  cbv zeta. destruct (_ && negb (bool_decide (lg_creatorId l = _))) eqn:Ef.
  { cbn. change (league_of c0 (relog c q s)) with (league_of c0 s). rewrite El. unfold handle_settle. by rewrite Ef. }
  cbn [commit fst snd]. set (s1 := relog c q _).
  assert (league_of c0 s1 = Some (id, set_league_status COMPLETED l)) as ->.
  { rewrite (league_after COMPLETED id s s1) by done. rewrite El. cbn. unfold state_of. cbn. by rewrite bool_decide_eq_true_2. }
  unfold handle_settle. cbn [lg_status lg_creatorId set_league_status]. rewrite Ef, (bool_decide_eq_true_2 (COMPLETED = COMPLETED)) by done.
  rewrite andb_false_r. unfold commit. change (ix_db s1) with (set_league_state COMPLETED id (ix_db s)).
  rewrite league_state_again. by rewrite no_audit.
Qed.

Lemma refund_again d c0 s : settles (λ s, handle_refund d (league_of c0 s) s) s.
Proof.
  intros c q. cbv beta zeta. unfold handle_refund. destruct (_ && bool_decide _).
  - destruct (league_of c0 s) as [[id l]|] eqn:El.
    + destruct (member_of id _ s) as [m|] eqn:Em; cbn; change (league_of c0 (relog c q s)) with (league_of c0 s); rewrite El;
        change (member_of id (de_participant d) (relog c q s)) with (member_of id (de_participant d) s); by rewrite Em.
    + cbn. change (league_of c0 (relog c q s)) with (league_of c0 s). by rewrite El.
  - destruct (league_of c0 s) as [[id l]|] eqn:El.
    2:{ cbn. change (league_of c0 (relog c q s)) with (league_of c0 s). by rewrite El. }
    cbv zeta. rewrite refunds_refused. destruct (List.filter (refund_due id) (ix_members s)) as [|m ms] eqn:Ef.
    + cbn [commit fst snd fmap list_fmap]. set (s1 := relog c q _).
      assert (league_of c0 s1 = Some (id, set_league_status CANCELLED l)) as ->.
      { rewrite (league_after CANCELLED id s s1) by done. rewrite El. cbn. unfold state_of. cbn. by rewrite bool_decide_eq_true_2. }
      rewrite refunds_refused. change (ix_members s1) with (ix_members s). rewrite Ef. unfold commit.
      change (ix_db s1) with (set_league_state CANCELLED id (ix_db s)). rewrite league_state_again. cbn. by rewrite no_audit.
    + cbn [commit fst snd]. change (league_of c0 (relog c q s)) with (league_of c0 s). rewrite El. rewrite refunds_refused.
      change (ix_members (relog c q s)) with (ix_members s). by rewrite Ef.
Qed.

Lemma deposit_refunded_again d s : settles (handle_deposit_refunded d) s.
Proof.
  intros c q. cbv beta zeta. unfold handle_deposit_refunded. destruct (find_index (of_claim d s) (ix_claims s)) as [i|] eqn:E.
  2:{ cbn. change (of_claim d (relog c q s)) with (of_claim d s). by rewrite E. }
  set (pay := λ c, if rc_paid c then c else _). cbn [fst snd].
  change (of_claim d (relog c q _)) with (of_claim d s). cbn [ix_claims relog put_exceptions].
  assert (∀ y, of_claim d s (pay y) = of_claim d s y) as Hof by (intros y; unfold pay, of_claim; by destruct (rc_paid y)).
  assert (find_index (of_claim d s) (alter pay i (ix_claims s)) = Some i) as ->.
  { clear -E Hof. revert i E. induction (ix_claims s) as [|x l IH]; intros i; [done|]. cbn. destruct (of_claim d s x) eqn:Ex.
    - intros [= <-]. cbn. by rewrite Hof, Ex.
    - intros (j & Hj & ->)%fmap_Some. cbn. by rewrite Ex, (IH j Hj). }
  f_equal. unfold relog, put_exceptions. cbn. f_equal. rewrite list_alter_alter_eq. apply list_alter_ext; [|done].
  intros x _. unfold pay. cbn. by destruct (rc_paid x) eqn:Ex; cbn; rewrite ?Ex.
Qed.

Lemma claim_again d c0 s : settles (λ s, handle_claim d (league_of c0 s) s) s.
Proof.
  intros c q. cbv beta zeta. unfold handle_claim. destruct (league_of c0 s) as [[id l]|] eqn:El.
  - destruct (member_of id _ s) as [m|] eqn:Em; cbn; change (league_of c0 (relog c q s)) with (league_of c0 s); rewrite El;
      change (member_of id (de_participant d) (relog c q s)) with (member_of id (de_participant d) s); by rewrite Em.
  - cbn. change (league_of c0 (relog c q s)) with (league_of c0 s). by rewrite El.
Qed.

Lemma apply_again d s : settles (λ s, apply_event d (league_of (de_contractLeagueId d) s) s) s.
Proof.
  unfold apply_event. cbv zeta. destruct (one_of ["deposit"; _]%string _); [apply deposit_again|].
  destruct (one_of ["settle"; _]%string _); [apply settle_again|]. destruct (one_of ["refund"; _; _]%string _); [apply refund_again|].
  destruct (one_of ["DepositRefunded"]%string _); [apply deposit_refunded_again|].
  destruct (one_of ["claimed"; _; _; _]%string _); [apply claim_again|]. by intros c q.
Qed.

Lemma apply_log d league s : ix_queue (apply_event d league s).1 = ix_queue s ∧ ix_contractEvents (apply_event d league s).1 = ix_contractEvents s.
Proof.
  unfold apply_event, handle_deposit, handle_settle, handle_refund, handle_deposit_refunded, handle_claim, commit, flagDeposit. cbv zeta.
  repeat case_match; done.
Qed.

(** ** Theorems *)

(** C4. What the indexer does with deposits.  Whatever events are delivered, in
    whatever order and however often, the members, the addresses and the ledger
    of transactions stay as they are: no deposit is confirmed.  The exceptions
    only grow, by at most one for a hash that has none; each new one has the
    sender, the amount and the league of a delivered deposit and a reason that
    holds: no such league, nobody linked to the sender, another amount than the
    fee, or a league over its capacity.  And no deposit is lost without a trace:
    a delivered deposit with a sender has an exception of its hash, or it pays
    the fee of its league for a member, and then delivering it again is refused
    with an error, unless the member is refunded already. *)
Theorem indexer_flags_deposits events s : let s' := deliver events s in
  (ix_members s' = ix_members s ∧ fd_addresses (ix_db s') = fd_addresses (ix_db s) ∧ fd_transactions (ix_db s') = fd_transactions (ix_db s)) ∧
  (∃ new, ix_exceptions s' = ix_exceptions s ++ new ∧ NoDup (dx_txHash <$> new) ∧ ∀ x, x ∈ new → ¬ has_exception (dx_txHash x) s ∧
    ∃ now redis e d, (now, redis, e) ∈ events ∧ decodeSorobanEscrowEvent e = Decoded d ∧ deposit_topic d = true ∧ describes s d x) ∧
  ∀ now redis e d p, (now, redis, e) ∈ events → decodeSorobanEscrowEvent e = Decoded d → deposit_topic d = true → de_participant d = Some p →
    has_exception (de_txHash d) s' ∨
    ∃ m, creditable s d m ∧ ∀ now redis, (handleEvent now redis e s').2 = if is_refunded m then Ok false else Err InvalidWhere.
Proof.
  cbv zeta. split_and!; [| | |apply deliver_exceptions|]; try by pose proof (deliver_books events s) as [= ? ? ? ? ?].
  intros now redis e d p (evs1 & evs2 & ->)%list_elem_of_split Ed Et Ep.
  assert (verdict d (deliver (evs1 ++ (now, redis, e) :: evs2) s) = verdict d s) as Hv by (apply same_verdict, deliver_books).
  pose proof (λ now redis s, deposit_answer now redis e d p s Ed Et Ep) as Ha. destruct (verdict d s) as [r|m] eqn:Ev.
  - left. rewrite deliver_app. change (deliver (_ :: evs2) ?s) with (deliver evs2 (handleEvent now redis e s).1). apply exception_stays.
    specialize (Ha now redis (deliver evs1 s)). by rewrite (same_verdict d s), Ev in Ha by apply deliver_books.
  - right. exists m. split; [by apply verdict_credits|]. intros now' redis'. specialize (Ha now' redis' (deliver (evs1 ++ (now, redis, e) :: evs2) s)).
    by rewrite Hv in Ha.
Qed.

(** C5. Handling an event a second time, whenever and whether or not Redis
    answers, gives the same answer, be it a result or an error, and leaves the
    leagues, members, transactions, exceptions, refund claims, the queue and the
    audit as the first time left them; only the log of contract events gets the
    same record once more. *)
Theorem event_redelivery_idempotent now redis now' redis' e s :
  let s1 := (handleEvent now redis e s).1 in
  let s2 := (handleEvent now' redis' e s1).1 in
  (handleEvent now' redis' e s1).2 = (handleEvent now redis e s).2 ∧
  ix_db s2 = ix_db s1 ∧ ix_wallets s2 = ix_wallets s1 ∧ ix_exceptions s2 = ix_exceptions s1 ∧ ix_claims s2 = ix_claims s1 ∧
  ix_queue s2 = ix_queue s1 ∧ ix_audit s2 = ix_audit s1 ∧
  ∃ record, ix_contractEvents s1 = ix_contractEvents s ++ record ∧ ix_contractEvents s2 = ix_contractEvents s1 ++ record.
Proof.
  cbv zeta. unfold handleEvent. destruct (decodeSorobanEscrowEvent e) as [| |d]; [split_and!; try done; exists []; by rewrite !app_nil_r..|].
  cbv zeta. set (q1 := (enqueue now redis d (ix_queue s)).1). set (s0 := log_event _ q1 s).
  change (league_of (de_contractLeagueId d) s) with (league_of (de_contractLeagueId d) s0).
  pose proof (apply_again d s0) as Hagain. pose proof (apply_log d (league_of (de_contractLeagueId d) s0) s0) as [Hq Hl].
  pose proof (apply_books d s0) as Hb. unfold settles in Hagain. cbv zeta beta in Hagain.
  set (s1 := (apply_event d _ s0).1) in *. rewrite Hq. change (ix_queue s0) with q1. subst q1. rewrite enqueue_again. cbn [fst].
  set (q1 := (enqueue now redis d (ix_queue s)).1) in *. set (entry := {| ce_eventType := _ |}).
  change (log_event entry q1 s1) with (relog (ix_contractEvents s1 ++ [entry]) q1 s1).
  change (league_of (de_contractLeagueId d) s1) with (league_of (de_contractLeagueId d) (relog (ix_contractEvents s1 ++ [entry]) q1 s1)).
  rewrite Hagain. split_and!; try done. eexists. split; [exact Hl|]. cbn. subst entry. f_equal. f_equal. f_equal.
  pose proof (same_league (de_contractLeagueId d) s0 s1 Hb) as E. unfold league_terms in E.
  apply (f_equal (fmap fst)) in E. rewrite <- !option_fmap_compose in E. exact E.
Qed.

(** ** No event is skipped *)

Section polls.
Context (batchSize : nat) (startLedger : Z) (evs : list SorobanEvent) (cursor : nat → string).



(** The events a poll handles. *)
Definition poll_events (env : PollEnv) (p : Poller) : list SorobanEvent :=
  let (p, saved) := loadSavedCursor (en_redisGet env) (en_redisSet env) p in
  match fetch_page batchSize (Some startLedger) env saved with
  | Page page => handled_prefix (en_now env) (en_redisSet env) (pg_events page) (po_db p)
  | _ => []
  end.


Definition covered (c : option Cursor) (k : nat) : Prop := ∀ c', c = Some c' → ∃ j, (j ≤ k)%nat ∧ cu_cursor c' = Some (cursor j).

Lemma covered_None k : covered None k.
Proof. done. Qed.



Context (Hcursor : ∀ k, cursor k ≠ ""%string) (Hnodup : NoDup evs) (Hstart : ∀ e, e ∈ evs → startLedger ≤ se_ledger e).









Definition poll (env : PollEnv) (ph : Poller * list SorobanEvent) : Poller * list SorobanEvent :=
  ((pollOnce batchSize (Some startLedger) env ph.1).1, ph.2 ++ poll_events env ph.1).

Definition polls (envs : list PollEnv) (ph : Poller * list SorobanEvent) : Poller * list SorobanEvent :=
  foldl (λ ph env, poll env ph) ph envs.


Context (Hinj : ∀ j k, cursor j = cursor k → j = k).




End polls.


(** ** The indexer and the settlement *)

Lemma settled_league d c0 s s1 b leagueId league : league_of c0 s = Some (leagueId, league) →
  handle_settle d (league_of c0 s) s = (s1, Ok b) → ∃ l, find_league leagueId (ix_db s1) = Some l ∧ lg_status l = COMPLETED.
Proof.
  intros El H. rewrite El in H. unfold handle_settle in H. cbv zeta in H. unfold commit in H.
  destruct (if (_ && _) : bool then _ else _) as [db'|] eqn:Ew; [|done]. injection H as <- _.
  assert (db_leagues (fd_league db') = state_of COMPLETED leagueId <$> ix_leagues s) as Hl.
  { destruct (_ && _); [|by injection Ew as <-]. unfold with_upsert in Ew. destruct (upsert_tx _ _ _ _); [|done]. by injection Ew as <-. }
  unfold find_league. cbn. rewrite Hl. apply find_elem in El as [Hin _]. clear -Hin. induction (ix_leagues s) as [|[k l] ls IH]; [by apply elem_of_nil in Hin|].
  rewrite fmap_cons. unfold state_of at 1. cbn. case_bool_decide as E; cbn.
  - subst k. rewrite decide_True by done. eauto.
  - rewrite decide_False by done. apply IH. apply elem_of_cons in Hin as [Hin|Hin]; [|done]. by injection Hin as <- _.
Qed.

(** When the indexer handles the event of a settlement before the settlement
    commits, the commit finds the league completed and books nothing: neither
    prizes nor the fee, and the journal stays open. *)
Lemma indexed_settlement_never_booked d s s1 b leagueId league adminUserId plan txHash ledgerSeq now :
  league_of (de_contractLeagueId d) s = Some (leagueId, league) → one_of ["settle"; "m_settle"]%string (de_rawTopicName d) = true →
  apply_event d (league_of (de_contractLeagueId d) s) s = (s1, Ok b) →
  (commitSettlement leagueId adminUserId plan txHash ledgerSeq now (ix_db s1)).1 = ix_db s1.
Proof.
  intros El Hn H. unfold apply_event in H. cbv zeta in H.
  assert (one_of ["deposit"; "Deposit"]%string (de_rawTopicName d) = false) as E.
  { apply bool_decide_eq_true_1 in Hn. rewrite !elem_of_cons in Hn. by destruct Hn as [->|[->|Hn%elem_of_nil]]. }
  rewrite E, Hn in H. destruct (settled_league _ _ _ _ _ _ _ El H) as (l & Hl & Hs).
  unfold commitSettlement, mtransaction, mbind', mread, mlift. rewrite Hl, bool_decide_eq_true_2 by done.
  cbn. destruct (toContractLeagueId leagueId); done.
Qed.

(** ** Examples *)
Definition sample_indexed (p : PaymentStatus) : IndexerDb :=
  {| ix_db := sample_paid_db ACTIVE p; ix_wallets := []; ix_exceptions := []; ix_claims := []; ix_contractEvents := [];
     ix_queue := {| dq_processedKeys := []; dq_jobs := []; dq_redis := Some [] |}; ix_audit := [] |}.

Definition sample_event (name : string) (ledger : Z) (league : Z) (value : native) : SorobanEvent :=
  {| se_id := None; se_txHash := integer_text ledger; se_ledger := ledger; se_ledgerClosedAt := 7; se_inSuccessfulContractCall := Some true;
     se_topic := [NText name; NBig league]; se_value := value |}.

(** A deposit in the sample league, [171], of which "GA" is a member. *)
Definition sample_deposit (ledger : Z) (sender : string) (stroops : Z) : SorobanEvent :=
  sample_event "deposit" ledger 171 (NArray [NText sender; NBig stroops]).

(** A stranger's deposit, a cent too little, twice, and one of an unknown league. *)
Definition sample_deliveries : list (Z * bool * SorobanEvent) :=
  [(0, true, sample_deposit 1 "GX" 100000000); (1, false, sample_deposit 2 "GA" 99900000); (2, true, sample_deposit 2 "GA" 99900000);
   (3, true, sample_event "deposit" 3 5 (NArray [NText "GA"; NBig 100000000])); (4, true, sample_deposit 4 "GA" 100000000)].

Lemma indexer_flags_deposits_witness : let s := sample_indexed PAYMENT_SUBMITTED in let s' := deliver sample_deliveries s in
  (dx_reason <$> ix_exceptions s') = [LEAGUE_OVER_CAPACITY; DEPOSIT_AMOUNT_MISMATCH; UNKNOWN_LEAGUE] ∧
  ∃ m d, decodeSorobanEscrowEvent (sample_deposit 4 "GA" 100000000) = Decoded d ∧ creditable s d m ∧
    ∀ now redis, (handleEvent now redis (sample_deposit 4 "GA" 100000000) s').2 = if is_refunded m then Ok false else Err InvalidWhere.
Proof.
  cbv zeta. split; [vm_compute; reflexivity|].
  destruct (indexer_flags_deposits sample_deliveries (sample_indexed PAYMENT_SUBMITTED)) as (_ & _ & H). cbv zeta in H.
  destruct (H 4 true (sample_deposit 4 "GA" 100000000) _ "GA"%string ltac:(unfold sample_deliveries; do 4 right; left)
    eq_refl eq_refl eq_refl) as [Hx|(m & Hc & Ha)].
  - exfalso. revert Hx. unfold has_exception. apply (bool_decide_unpack _). vm_compute. exact I.
  - exists m. eexists. split_and!; [reflexivity|exact Hc|exact Ha].
Defined.

(** The members, the ledger, the jobs and the log after these deliveries: the deposit
    of the fee by a member is not confirmed either. *)
Example deposits_never_confirmed :
  let s' := deliver sample_deliveries (sample_indexed PAYMENT_SUBMITTED) in
  (mb_paymentStatus <$> ix_members s') = [PAYMENT_SUBMITTED; PAYMENT_SUBMITTED; PAYMENT_SUBMITTED] ∧ fd_transactions (ix_db s') = [] ∧
  length (dq_jobs (ix_queue s')) = 4%nat ∧ length (ix_contractEvents s') = 5%nat.
Proof. vm_compute. done. Qed.

(** A refund of the league is refused while a member is due one. *)
Example refund_refused :
  (handleEvent 0 true (sample_event "refund" 9 171 (NNum 3)) (sample_indexed PAYMENT_CONFIRMED)).2 = Err InvalidWhere ∧
  (handleEvent 0 true (sample_event "refund" 9 171 (NNum 3)) (sample_indexed Pay_REFUNDED)).2 = Ok true.
Proof. vm_compute. done. Qed.

(** A reset that Redis misses is lost: the next poll resumes at the old cursor. *)
Example reset_lost_in_redis :
  let c := {| cu_lastLedger := 90; cu_cursor := Some "c90"%string |} in
  let p := {| po_db := sample_indexed PAYMENT_CONFIRMED; po_pg := Some c; po_redis := Some (Some c) |} in
  (loadSavedCursor true true (resetCursor false (Some 10) p)).2 = Some c ∧
  (loadSavedCursor true true (resetCursor true (Some 10) p)).2 = Some {| cu_lastLedger := 9; cu_cursor := None |}.
Proof. done. Qed.

(** A deposit whose amount cannot be read stops the polling for good: its page
    fails before the cursor is saved, each time. *)
Example poison_event_blocks :
  let e := sample_event "deposit" 9 171 (NArray [NText "GA"; NText "ten"]) in
  (handleEvent 0 true e (sample_indexed PAYMENT_SUBMITTED)).2 = Err BadEventValue.
Proof. done. Qed.














(** A deposit of the fee by a member is refused in every poll, so the events
    after it are never handled. *)
Definition blocked_rpc (r : page_request) (n : nat) : rpc_answer :=
  Page {| pg_events := [sample_event "created" 1 171 NVoid; sample_deposit 2 "GA" 100000000; sample_event "created" 3 172 NVoid];
    pg_cursor := Some "c"%string; pg_latestLedger := 3 |}.

Example deposit_blocks_polling :
  let env := {| en_now := 0; en_rpc := blocked_rpc; en_oldest := 1; en_latest := 3; en_redisGet := true; en_redisSet := true; en_save := true |} in
  let p := {| po_db := sample_indexed PAYMENT_SUBMITTED; po_pg := None; po_redis := Some None |} in
  let '(p', h) := polls 9 1 [env; env; env] (p, []) in
  (se_ledger <$> h) = [1; 1; 1] ∧ po_pg p' = None ∧ (pollOnce 9 (Some 1) env p').2 = Err InvalidWhere.
Proof. vm_compute. done. Qed.
