(* ===== verification/ReplayQueue.v ===== *)
(** * Replay of Soroban submissions: [backend/src/services/financial/sorobanTransactionReplayQueue.ts]

    [submit], [processDueSubmissions] and the store are programs over single
    database statements and calls of the node, which other programs interleave
    with at every [await].  The chain is a parameter: what its ledgers include
    and the sequences of its accounts.  [update] reads and writes in one database
    transaction at the default isolation, so its read and its writes are two
    steps.  Dates of one expression are one reading of the clock.  The message
    kept with a financial row that failed is left out. *)

From Stdlib Require Import Ascii String.
From S2P Require Import Prelude Text ScVal Financial.

#[local] Open Scope string_scope.
#[local] Open Scope list_scope.
#[local] Open Scope Z_scope.

Inductive SubmissionStatus : Type :=
  Sub_PENDING_VERIFICATION | Sub_SUBMITTED | Sub_SUCCESS | Sub_FAILED | Sub_DROPPED.

#[export] Instance SubmissionStatus_eq_dec : EqDecision SubmissionStatus.
Proof. solve_decision. Defined.

(** The input of [enqueue]: what identifies a submission. *)
Record SubmissionInput : Type := {
  si_txHash : string;
  si_sourceAccount : string;
  si_sequence : Z;
  si_signedEnvelope : string
}.

Record Submission : Type := {
  sub_id : string;
  sub_input : SubmissionInput;
  sub_status : SubmissionStatus;
  sub_attemptCount : Z;
  sub_lastAttemptAt : option Z;
  sub_nextAttemptAt : Z;
  sub_lastPolledAt : option Z;
  sub_ledgerSeq : option Z;
  sub_lastError : option string;
  sub_leaseExpiresAt : option Z
}.

Definition sub_txHash (s : Submission) : string := si_txHash (sub_input s).

(** What makes two submissions compete: [@@unique([sourceAccount, sequence])]. *)
Definition sub_slot (s : Submission) : string * Z := (si_sourceAccount (sub_input s), si_sequence (sub_input s)).

Definition terminalStatuses (s : SubmissionStatus) : bool :=
  match s with Sub_SUCCESS | Sub_FAILED | Sub_DROPPED => true | _ => false end.

(** The columns [update] may set; [None] leaves a column as it is. *)
Record SubmissionPatch : Type := {
  pa_incrementAttempts : bool;
  pa_lastAttemptAt : option Z;
  pa_lastPolledAt : option Z;
  pa_nextAttemptAt : option Z;
  pa_ledgerSeq : option Z;
  pa_lastError : option string;
  pa_leaseExpiresAt : option (option Z)
}.

Definition apply_patch (status : SubmissionStatus) (p : SubmissionPatch) (s : Submission) : Submission :=
  {| sub_id := sub_id s; sub_input := sub_input s; sub_status := status;
     sub_attemptCount := if pa_incrementAttempts p then sub_attemptCount s + 1 else sub_attemptCount s;
     sub_lastAttemptAt := match pa_lastAttemptAt p with Some t => Some t | None => sub_lastAttemptAt s end;
     sub_nextAttemptAt := default (sub_nextAttemptAt s) (pa_nextAttemptAt p);
     sub_lastPolledAt := match pa_lastPolledAt p with Some t => Some t | None => sub_lastPolledAt s end;
     sub_ledgerSeq := match pa_ledgerSeq p with Some l => Some l | None => sub_ledgerSeq s end;
     sub_lastError := pa_lastError p;
     sub_leaseExpiresAt := default (sub_leaseExpiresAt s) (pa_leaseExpiresAt p) |}.

Definition with_lease (lease : option Z) (s : Submission) : Submission :=
  {| sub_id := sub_id s; sub_input := sub_input s; sub_status := sub_status s; sub_attemptCount := sub_attemptCount s;
     sub_lastAttemptAt := sub_lastAttemptAt s; sub_nextAttemptAt := sub_nextAttemptAt s;
     sub_lastPolledAt := sub_lastPolledAt s; sub_ledgerSeq := sub_ledgerSeq s; sub_lastError := sub_lastError s;
     sub_leaseExpiresAt := lease |}.

(** [data] of [create], with the defaults of the columns. *)
Definition new_submission (id : string) (now : Z) (input : SubmissionInput) : Submission :=
  {| sub_id := id; sub_input := input; sub_status := Sub_PENDING_VERIFICATION; sub_attemptCount := 0;
     sub_lastAttemptAt := None; sub_nextAttemptAt := now; sub_lastPolledAt := None; sub_ledgerSeq := None;
     sub_lastError := None; sub_leaseExpiresAt := None |}.

Record Transition : Type := {
  ts_submissionId : string;
  ts_fromStatus : option SubmissionStatus;
  ts_toStatus : SubmissionStatus;
  ts_reason : string
}.

(** ** The chain and its node *)

(** A parsed envelope: a transaction, or a fee bump, which has no [sequence]. *)
Inductive Envelope (Tx : Type) : Type := Plain (tx : Tx) | FeeBump.
Arguments Plain {Tx} tx.
Arguments FeeBump {Tx}.

(** The SDK's transactions, and the history of the chain: when a ledger closed,
    in seconds, the sequence of an account in it, and whether it included a
    transaction, successfully or not.  [maxTime] is zero without time bounds. *)
Class Chain (Tx : Type) : Type := {
  tx_hash : Tx → string;
  tx_source : Tx → string;
  tx_sequence : Tx → Z;
  tx_maxTime : Tx → Z;
  toXDR : Tx → string;
  fromXDR : string → option (Envelope Tx);
  close_time : Z → Z;
  account_sequence : Z → string → option Z;
  included : Z → string → option bool
}.

(** What the protocol documents: a hash identifies the body of a transaction, an
    envelope parses back, ledgers close in order, a transaction is included no
    later than its time bound, and from then on its sequence is consumed. *)
Class ChainLaws (Tx : Type) `{Chain Tx} : Prop := {
  hash_body : ∀ t u, tx_hash t = tx_hash u →
    tx_source t = tx_source u ∧ tx_sequence t = tx_sequence u ∧ tx_maxTime t = tx_maxTime u;
  parse_envelope : ∀ t, fromXDR (toXDR t) = Some (Plain t);
  close_in_order : ∀ l m, l ≤ m → close_time l ≤ close_time m;
  included_in_time : ∀ l t o, included l (tx_hash t) = Some o → 0 < tx_maxTime t → close_time l ≤ tx_maxTime t;
  included_consumes : ∀ l m t o a, included l (tx_hash t) = Some o → l ≤ m →
    account_sequence m (tx_source t) = Some a → tx_sequence t ≤ a
}.

(** [GetTransactionResponse], the return value decoded; [NOT_FOUND] tells when
    the last ledger the node knows closed. *)
Inductive TransactionAnswer : Type :=
| TxSuccess (ledger : Z) (returnValue : option native)
| TxFailed (ledger : Z) (resultXdr : string)
| TxNotFound (latestLedgerCloseTime : Z).

(** [SendTransactionResponse]. *)
Inductive SendStatus : Type := Send_PENDING | Send_DUPLICATE | Send_TRY_AGAIN_LATER | Send_ERROR (errorResult : option string).
Record SendAnswer : Type := { sa_status : SendStatus; sa_hash : option string }.

(** The errors a call may end with; an error of the node has a message when it is
    an [Error]. *)
Inductive QueueError : Type :=
| P2002
| DbError
| RpcError (message : option string)
| BadEnvelope
| Disappeared (txHash : string).

#[export] Instance QueueError_eq_dec : EqDecision QueueError.
Proof. solve_decision. Defined.

(** [error instanceof Error ? error.message : fallback]. *)
Definition error_message (e : QueueError) (fallback : string) : string :=
  match e with RpcError (Some m) => m | _ => fallback end.

(** ** The programs *)

Section programs.
Context {Tx : Type} `{Chain Tx}.

(** What a program awaits, or reads of the process: one database statement, one
    call of the node, the clock, the map [returnValues] of its queue. *)
Inductive Command : Type :=
| Clock
| SleepUntil (time : Z)
| FindByHash (txHash : string)
| FindById (id : string)
| CreateSubmission (input : SubmissionInput)
| FindDue (now : Z) (limit : nat)
| ClaimLease (record : Submission) (now leaseUntil : Z)
| ClearLease (id : string)
| WriteUpdate (current : Submission) (status : SubmissionStatus) (patch : SubmissionPatch) (reason : string)
| GetTransaction (txHash : string)
| GetAccount (account : string)
| SendTransaction (envelope : Envelope Tx)
| SetValue (id : string) (value : option native)
| GetValue (id : string)
| DropValue (id : string).

Definition reply (c : Command) : Type :=
  match c with
  | Clock => Z
  | FindByHash _ | FindById _ => option Submission
  | CreateSubmission _ | WriteUpdate _ _ _ _ => Submission
  | FindDue _ _ => list Submission
  | ClaimLease _ _ _ => bool
  | GetTransaction _ => TransactionAnswer
  | GetAccount _ => Z
  | SendTransaction _ => SendAnswer
  | GetValue _ => option native
  | SleepUntil _ | ClearLease _ | SetValue _ _ | DropValue _ => ()
  end.

(** An [async] function: it returned, it threw, or it awaits a command that
    replies or fails. *)
Inductive routine (A : Type) : Type :=
| Ret (a : A)
| Throw (e : QueueError)
| Act (c : Command) (k : result QueueError (reply c) → routine A).
Arguments Ret {A} a.
Arguments Throw {A} e.
Arguments Act {A} c k.

#[global] Instance prog_ret : MRet routine := λ A, Ret.
#[global] Instance prog_bind : MBind routine := λ A B f, fix go p :=
  match p with Ret a => f a | Throw e => Throw e | Act c k => Act c (λ r, go (k r)) end.

Definition of_result {A} (r : result QueueError A) : routine A := match r with Ok a => Ret a | Err e => Throw e end.

Definition act (c : Command) : routine (reply c) := Act c of_result.

(** A [try] around one call. *)
Definition awaited (c : Command) : routine (result QueueError (reply c)) := Act c Ret.

Fixpoint caught {A} (p : routine A) : routine (result QueueError A) :=
  match p with
  | Ret a => Ret (Ok a)
  | Throw e => Ret (Err e)
  | Act c k => Act c (λ r, caught (k r))
  end.

(** [try { p } finally { q }]. *)
Definition finally {A} (p : routine A) (q : routine ()) : routine A := r ← caught p; _ ← q; of_result r.

Definition not_null {A} (e : QueueError) (o : option A) : routine A := match o with Some a => Ret a | None => Throw e end.

(** ** [PrismaSorobanReplayStore] *)

Definition getById (id : string) : routine (option Submission) := act (FindById id).
Definition getByHash (txHash : string) : routine (option Submission) := act (FindByHash txHash).

Definition enqueue (input : SubmissionInput) : routine Submission :=
  existing ← getByHash (si_txHash input);
  match existing with
  | Some record => mret record
  | None =>
      created ← awaited (CreateSubmission input);
      match created with
      | Ok record => mret record
      | Err P2002 => raced ← getByHash (si_txHash input); not_null P2002 raced
      | Err e => Throw e
      end
  end.

Definition listDue (now : Z) (limit : nat) : routine (list Submission) := act (FindDue now limit).
Definition claim (record : Submission) (now leaseUntil : Z) : routine bool := act (ClaimLease record now leaseUntil).
Definition release (id : string) : routine () := act (ClearLease id).

Definition update (id : string) (status : SubmissionStatus) (patch : SubmissionPatch) (reason : string) :
    routine (option Submission) :=
  current ← act (FindById id);
  match current with
  | None => mret None
  | Some current =>
      if terminalStatuses (sub_status current) then mret (Some current)
      else updated ← act (WriteUpdate current status patch reason); mret (Some updated)
  end.

(** ** [SorobanTransactionReplayQueue] *)

(** The options after their defaults. *)
Record QueueOptions : Type := {
  qo_pollIntervalMs : Z;
  qo_maxPollAttempts : nat;
  qo_baseBackoffMs : Z;
  qo_maxBackoffMs : Z;
  qo_batchSize : nat;
  qo_leaseMs : Z
}.

Definition default_options : QueueOptions :=
  {| qo_pollIntervalMs := 1000; qo_maxPollAttempts := 5; qo_baseBackoffMs := 2000; qo_maxBackoffMs := 60000;
     qo_batchSize := 25; qo_leaseMs := 60000 |}.

Record ReplayResult : Type := {
  rr_success : bool;
  rr_txHash : string;
  rr_status : SubmissionStatus;
  rr_sequence : string;
  rr_returnValue : option native;
  rr_ledgerSeq : option Z;
  rr_error : option string;
  rr_pendingVerification : bool;
  rr_dropped : bool
}.

Definition result_of (s : Submission) (value : option native) : ReplayResult :=
  let base success ledgerSeq error pending dropped :=
    {| rr_success := success; rr_txHash := sub_txHash s; rr_status := sub_status s;
       rr_sequence := integer_text (si_sequence (sub_input s)); rr_returnValue := value; rr_ledgerSeq := ledgerSeq;
       rr_error := error; rr_pendingVerification := pending; rr_dropped := dropped |} in
  match sub_status s with
  | Sub_SUCCESS => base true (sub_ledgerSeq s) None false false
  | Sub_DROPPED =>
      base false None (Some (default "null" (sub_lastError s) +:+
        ". Submit a newly signed transaction using the account's current sequence.")) false true
  | Sub_FAILED => base false (sub_ledgerSeq s) (Some (default "Transaction failed on ledger" (sub_lastError s))) false false
  | _ => base false None (Some (default "Transaction is awaiting on-chain verification" (sub_lastError s))) true false
  end.

Definition toResult (s : Submission) : routine ReplayResult :=
  match sub_status s with
  | Sub_SUCCESS => value ← act (GetValue (sub_id s)); mret (result_of s value)
  | _ => mret (result_of s None)
  end.

Section queue.
Context (o : QueueOptions).

Definition backoff (attemptCount : Z) : Z :=
  Z.min (qo_baseBackoffMs o * 2 ^ Z.max 0 (attemptCount - 1)) (qo_maxBackoffMs o).

Definition defer (s : Submission) (error : option string) (status : SubmissionStatus) : routine (option Submission) :=
  let delayMs := backoff (sub_attemptCount s + 1) in
  now ← act Clock;
  update (sub_id s) status
    {| pa_incrementAttempts := true; pa_lastAttemptAt := Some now; pa_lastPolledAt := Some now;
       pa_nextAttemptAt := Some (now + delayMs); pa_ledgerSeq := None; pa_lastError := error; pa_leaseExpiresAt := None |}
    (default (if decide (status = Sub_SUBMITTED) then "Envelope broadcast for confirmation"
              else "Transaction remains unconfirmed; verification will retry") error).

Definition still_pending (s : Submission) (error : string) : routine (option Submission) :=
  defer s (Some error) Sub_PENDING_VERIFICATION.

(** [sent.hash && sent.hash.toLowerCase() !== txHash.toLowerCase()]. *)
Definition other_hash (sent : SendAnswer) (s : Submission) : bool :=
  match sa_hash sent with
  | Some h => negb (bool_decide (h = "")) && negb (bool_decide (lower_string h = lower_string (sub_txHash s)))
  | None => false
  end.

(** Sending an envelope and recording how the node took it. *)
Definition send_and_record (s : Submission) (envelope : Envelope Tx) (fallback : string) : routine (option Submission) :=
  sent ← awaited (SendTransaction envelope);
  match sent with
  | Err e => still_pending s (error_message e fallback)
  | Ok sent =>
      match sa_status sent with
      | Send_ERROR xdr => still_pending s ("RPC rejected submission: " +:+ default "unknown" xdr)
      | _ =>
          if other_hash sent s then still_pending s "Soroban RPC returned a hash that does not match the signed envelope"
          else defer s None Sub_SUBMITTED
      end
  end.

Definition parse (s : Submission) : routine (Envelope Tx) := not_null BadEnvelope (fromXDR (si_signedEnvelope (sub_input s))).

(** A transaction the node does not know. *)
Definition process_missing (s : Submission) (latestCloseTime : Z) : routine (option Submission) :=
  envelope ← parse s;
  match envelope with
  | FeeBump => still_pending s "Fee-bump envelopes are not supported by the replay queue"
  | Plain tx =>
      account ← awaited (GetAccount (si_sourceAccount (sub_input s)));
      match account with
      | Err e => still_pending s (error_message e "Could not verify source account sequence")
      | Ok accountSequence =>
          let expired := (0 <? tx_maxTime tx) && (tx_maxTime tx <? latestCloseTime) in
          if expired && (accountSequence <? si_sequence (sub_input s)) then
            now ← act Clock;
            update (sub_id s) Sub_DROPPED
              {| pa_incrementAttempts := false; pa_lastAttemptAt := None; pa_lastPolledAt := Some now;
                 pa_nextAttemptAt := None; pa_ledgerSeq := None;
                 pa_lastError := Some "Transaction expired and its sequence number remains unused";
                 pa_leaseExpiresAt := Some None |}
              "Verified expired after ledger close while source sequence remained unused"
          else if expired then still_pending s "Source sequence was consumed but this hash is not yet verifiable"
          else send_and_record s (Plain tx) "Soroban replay attempt failed"
      end
  end.

Definition processSubmission (id : string) (captureReturnValue : bool) : routine (option Submission) :=
  submission ← getById id;
  match submission with
  | None => mret None
  | Some s =>
      if terminalStatuses (sub_status s) then mret (Some s)
      else
        answer ← awaited (GetTransaction (sub_txHash s));
        match answer with
        | Err e => still_pending s (error_message e "Soroban getTransaction failed")
        | Ok (TxSuccess ledger value) =>
            now ← act Clock;
            updated ← update id Sub_SUCCESS
              {| pa_incrementAttempts := false; pa_lastAttemptAt := None; pa_lastPolledAt := Some now;
                 pa_nextAttemptAt := Some now; pa_ledgerSeq := Some ledger; pa_lastError := None;
                 pa_leaseExpiresAt := Some None |}
              ("Confirmed in ledger " +:+ integer_text ledger);
            _ ← (if captureReturnValue then act (SetValue id value) else mret tt);
            mret updated
        | Ok (TxFailed ledger resultXdr) =>
            let errorMessage := ("Transaction failed in ledger: " +:+ resultXdr) in
            now ← act Clock;
            update id Sub_FAILED
              {| pa_incrementAttempts := false; pa_lastAttemptAt := None; pa_lastPolledAt := Some now;
                 pa_nextAttemptAt := None; pa_ledgerSeq := Some ledger; pa_lastError := Some errorMessage;
                 pa_leaseExpiresAt := Some None |}
              errorMessage
        | Ok (TxNotFound latestCloseTime) => process_missing s latestCloseTime
        end
  end.

Definition broadcastExactEnvelope (s : Submission) : routine () :=
  envelope ← parse s;
  _ ← send_and_record s envelope "Soroban submission RPC failed";
  mret tt.

Definition sleep (ms : Z) : routine () := now ← act Clock; act (SleepUntil (now + ms)).

(** The polling loop of [submit], [left] attempts before its end. *)
Fixpoint poll (record : Submission) (left : nat) (attempts : nat) : routine (option ReplayResult) :=
  match left with
  | O => mret None
  | S left' =>
      result ← processSubmission (sub_id record) true;
      let again :=
        _ ← (if bool_decide (left' = O) then mret tt
             else sleep (Z.min (qo_pollIntervalMs o * 2 ^ Z.of_nat attempts) 30000));
        poll record left' (S attempts) in
      match result with
      | Some s =>
          if terminalStatuses (sub_status s) then
            response ← toResult s;
            _ ← act (DropValue (sub_id record));
            mret (Some response)
          else again
      | None => again
      end
  end.

Definition input_of (tx : Tx) : SubmissionInput :=
  {| si_txHash := tx_hash tx; si_sourceAccount := tx_source tx; si_sequence := tx_sequence tx;
     si_signedEnvelope := toXDR tx |}.

(** What [submit] does once it holds the lease, before the [finally]. *)
Definition leased (tx : Tx) (record : Submission) : routine ReplayResult :=
  _ ← broadcastExactEnvelope record;
  response ← poll record (qo_maxPollAttempts o) O;
  match response with
  | Some response => mret response
  | None => pending ← getById (sub_id record); s ← not_null (Disappeared (tx_hash tx)) pending; toResult s
  end.

Definition submit (tx : Tx) : routine ReplayResult :=
  record ← enqueue (input_of tx);
  if terminalStatuses (sub_status record) then toResult record
  else
    now ← act Clock;
    claimed ← claim record now (now + qo_leaseMs o);
    if (claimed : bool) then finally (leased tx record) (release (sub_id record))
    else current ← getById (sub_id record); s ← not_null (Disappeared (tx_hash tx)) current; toResult s.

Fixpoint process_all (due : list Submission) (processed : nat) : routine nat :=
  match due with
  | [] => mret processed
  | record :: due =>
      now ← act Clock;
      claimed ← claim record now (now + qo_leaseMs o);
      if (claimed : bool) then
        _ ← finally (_ ← processSubmission (sub_id record) false; mret tt) (release (sub_id record));
        process_all due (S processed)
      else process_all due processed
  end.

Definition processDueSubmissions : routine nat :=
  now ← act Clock;
  due ← listDue now (qo_batchSize o);
  process_all due O.
End queue.

(** ** The tables, the node and the clock *)

(** [qs_values] is [returnValues] of every queue object of the process;
    [qs_sent] what reached the node. *)
Record Store : Type := {
  qs_now : Z;
  qs_ledger : Z;
  qs_rows : list Submission;
  qs_transitions : list Transition;
  qs_transactions : list TransactionRow;
  qs_sent : list (Envelope Tx);
  qs_values : list ((nat * string) * option native)
}.

Definition set_rows (w : Store) (rows : list Submission) : Store :=
  {| qs_now := qs_now w; qs_ledger := qs_ledger w; qs_rows := rows; qs_transitions := qs_transitions w;
     qs_transactions := qs_transactions w; qs_sent := qs_sent w; qs_values := qs_values w |}.

Definition set_values (w : Store) (values : list ((nat * string) * option native)) : Store :=
  {| qs_now := qs_now w; qs_ledger := qs_ledger w; qs_rows := qs_rows w; qs_transitions := qs_transitions w;
     qs_transactions := qs_transactions w; qs_sent := qs_sent w; qs_values := values |}.

Definition add_transition (t : Transition) (w : Store) : Store :=
  {| qs_now := qs_now w; qs_ledger := qs_ledger w; qs_rows := qs_rows w; qs_transitions := qs_transitions w ++ [t];
     qs_transactions := qs_transactions w; qs_sent := qs_sent w; qs_values := qs_values w |}.

Definition set_transactions_of (w : Store) (l : list TransactionRow) : Store :=
  {| qs_now := qs_now w; qs_ledger := qs_ledger w; qs_rows := qs_rows w; qs_transitions := qs_transitions w;
     qs_transactions := l; qs_sent := qs_sent w; qs_values := qs_values w |}.

Definition add_sent (e : Envelope Tx) (w : Store) : Store :=
  {| qs_now := qs_now w; qs_ledger := qs_ledger w; qs_rows := qs_rows w; qs_transitions := qs_transitions w;
     qs_transactions := qs_transactions w; qs_sent := qs_sent w ++ [e]; qs_values := qs_values w |}.

Definition set_times (w : Store) (now ledger : Z) : Store :=
  {| qs_now := now; qs_ledger := ledger; qs_rows := qs_rows w; qs_transitions := qs_transitions w;
     qs_transactions := qs_transactions w; qs_sent := qs_sent w; qs_values := qs_values w |}.

Definition row_by_id (id : string) (rows : list Submission) : option Submission :=
  List.find (λ s, bool_decide (sub_id s = id)) rows.

Definition row_by_hash (txHash : string) (rows : list Submission) : option Submission :=
  List.find (λ s, bool_decide (sub_txHash s = txHash)) rows.

Definition change_row (id : string) (f : Submission → Submission) (rows : list Submission) : list Submission :=
  (λ s, if bool_decide (sub_id s = id) then f s else s) <$> rows.

(** [OR: [{ leaseExpiresAt: null }, { leaseExpiresAt: { lte: now } }]]. *)
Definition lease_free (now : Z) (s : Submission) : bool :=
  match sub_leaseExpiresAt s with Some t => t <=? now | None => true end.

(** The [where] of [listDue]. *)
Definition is_due (now : Z) (s : Submission) : bool :=
  negb (terminalStatuses (sub_status s)) && (sub_nextAttemptAt s <=? now) && lease_free now s.

(** The [where] of [claim]. *)
Definition lease_available (record : Submission) (now : Z) (s : Submission) : bool :=
  bool_decide (sub_id s = sub_id record) && bool_decide (sub_status s = sub_status record) &&
  (sub_nextAttemptAt s <=? now) && lease_free now s.

Definition competes (input : SubmissionInput) (id : string) (s : Submission) : bool :=
  bool_decide (sub_id s = id) || bool_decide (sub_txHash s = si_txHash input) ||
  bool_decide (sub_slot s = (si_sourceAccount input, si_sequence input)).

(** [transaction.updateMany({ where: { stellarTxHash } })]. *)
Definition settle_transactions (status : SubmissionStatus) (txHash : string) (ledgerSeq : option Z) (now : Z)
    (l : list TransactionRow) : list TransactionRow :=
  let change f := (λ t, if bool_decide (tx_stellarTxHash t = Some txHash) then f t else t) <$> l in
  match status with
  | Sub_SUCCESS => change (with_tx_status TS_CONFIRMED ledgerSeq (Some now))
  | Sub_FAILED => change (λ t, with_tx_status TS_FAILED ledgerSeq (tx_confirmedAt t) t)
  | _ => l
  end.

(** The condition on which [update] appends a transition. *)
Definition is_transition (current : Submission) (status : SubmissionStatus) (patch : SubmissionPatch) : bool :=
  negb (bool_decide (sub_status current = status)) ||
  bool_decide (status = Sub_PENDING_VERIFICATION) &&
  match pa_lastError patch with Some e => negb (bool_decide (sub_lastError current = Some e)) | None => false end.

(** What the outside answers to a command that asks it. *)
Inductive answer : Type :=
| Nothing
| Uuid (id : string)
| NodeTransaction (a : TransactionAnswer)
| NodeAccount (sequence : Z)
| NodeSend (a : SendAnswer).

(** A command executed by queue object [i]: its reply and the state it leaves.
    [None] when it waits, or when the answer is of another kind. *)
Definition run_command (i : nat) (a : answer) (c : Command) (w : Store) : option (result QueueError (reply c) * Store) :=
  match c with
  | Clock => Some (Ok (qs_now w), w)
  | SleepUntil t => if t <=? qs_now w then Some (Ok tt, w) else None
  | FindByHash h => Some (Ok (row_by_hash h (qs_rows w)), w)
  | FindById id => Some (Ok (row_by_id id (qs_rows w)), w)
  | CreateSubmission input =>
      match a with
      | Uuid id =>
          if existsb (competes input id) (qs_rows w) then Some (Err P2002, w)
          else
            let s := new_submission id (qs_now w) input in
            Some (Ok s, add_transition
              {| ts_submissionId := id; ts_fromStatus := None; ts_toStatus := Sub_PENDING_VERIFICATION;
                 ts_reason := "Persisted before transaction submission" |}
              (set_rows w (qs_rows w ++ [s])))
      | _ => None
      end
  | FindDue now limit =>
      Some (Ok (take limit (sort_by (λ s t, sub_nextAttemptAt s - sub_nextAttemptAt t)
                                    (List.filter (is_due now) (qs_rows w)))), w)
  | ClaimLease record now leaseUntil =>
      Some (Ok (existsb (lease_available record now) (qs_rows w)),
            set_rows w ((λ s, if lease_available record now s then with_lease (Some leaseUntil) s else s) <$> qs_rows w))
  | ClearLease id => Some (Ok tt, set_rows w (change_row id (with_lease None) (qs_rows w)))
  | WriteUpdate current status patch reason =>
      match row_by_id (sub_id current) (qs_rows w) with
      | None => Some (Err DbError, w)
      | Some row =>
          let w := set_rows w (change_row (sub_id current) (apply_patch status patch) (qs_rows w)) in
          let w := if is_transition current status patch then
                     add_transition {| ts_submissionId := sub_id current; ts_fromStatus := Some (sub_status current);
                                       ts_toStatus := status; ts_reason := reason |} w
                   else w in
          Some (Ok (apply_patch status patch row),
                set_transactions_of w
                  (settle_transactions status (sub_txHash current) (pa_ledgerSeq patch) (qs_now w) (qs_transactions w)))
      end
  | GetTransaction _ => match a with NodeTransaction a => Some (Ok a, w) | _ => None end
  | GetAccount _ => match a with NodeAccount n => Some (Ok n, w) | _ => None end
  | SendTransaction e => match a with NodeSend a => Some (Ok a, add_sent e w) | _ => None end
  | SetValue id v => Some (Ok tt, set_values w (map_set (i, id) v (qs_values w)))
  | GetValue id => Some (Ok (mjoin (map_get (i, id) (qs_values w))), w)
  | DropValue id => Some (Ok tt, set_values w (map_delete (i, id) (qs_values w)))
  end.

(** What a node may answer: what the ledgers hold up to its last one.  It may not
    know a transaction that a ledger included. *)
Definition honest (w : Store) (c : Command) (a : answer) : bool :=
  match c, a with
  | GetTransaction h, NodeTransaction (TxSuccess l _) => (l <=? qs_ledger w) && bool_decide (included l h = Some true)
  | GetTransaction h, NodeTransaction (TxFailed l _) => (l <=? qs_ledger w) && bool_decide (included l h = Some false)
  | GetTransaction h, NodeTransaction (TxNotFound t) => t =? close_time (qs_ledger w)
  | GetAccount a, NodeAccount n => bool_decide (account_sequence (qs_ledger w) a = Some n)
  | _, _ => true
  end.

(** ** Programs in progress *)

Inductive Call : Type := CallSubmit (tx : Tx) | CallDue.
Inductive CallOutcome : Type := Submitted (r : ReplayResult) | Processed (n : nat).

Record Thread : Type := { th_queue : nat; th_call : Call; th_prog : routine CallOutcome }.

Record World : Type := { wd_store : Store; wd_threads : list Thread }.

(** The queue objects have the options [o i]. *)
Definition begin_call (o : QueueOptions) (call : Call) : routine CallOutcome :=
  match call with
  | CallSubmit tx => r ← submit o tx; mret (Submitted r)
  | CallDue => n ← processDueSubmissions o; mret (Processed n)
  end.

(** Time passes; a ledger closes; another service books a transaction; a call is
    made of queue object [i]; a thread's command is executed; it fails, executed
    or not. *)
Inductive event : Type :=
| Elapse (ms : nat)
| CloseLedger
| Book (t : TransactionRow)
| Spawn (i : nat) (call : Call)
| Run (j : nat) (a : answer)
| Break (j : nat) (a : answer) (executed : bool) (e : QueueError).

Definition set_store (w : World) (s : Store) : World := {| wd_store := s; wd_threads := wd_threads w |}.

Definition resume (w : World) (j : nat) (p : routine CallOutcome) (s : Store) : World :=
  {| wd_store := s;
     wd_threads := alter (λ t, {| th_queue := th_queue t; th_call := th_call t; th_prog := p |}) j (wd_threads w) |}.

Definition step (o : nat → QueueOptions) (w : World) (e : event) : option World :=
  let s := wd_store w in
  match e with
  | Elapse ms => Some (set_store w (set_times s (qs_now s + Z.of_nat ms) (qs_ledger s)))
  | CloseLedger => Some (set_store w (set_times s (qs_now s) (qs_ledger s + 1)))
  | Book t => Some (set_store w (set_transactions_of s (qs_transactions s ++ [t])))
  | Spawn i call =>
      Some {| wd_store := s; wd_threads := wd_threads w ++ [{| th_queue := i; th_call := call; th_prog := begin_call (o i) call |}] |}
  | Run j a =>
      t ← wd_threads w !! j;
      match th_prog t with
      | Act c k => '(r, s') ← run_command (th_queue t) a c s; Some (resume w j (k r) s')
      | _ => None
      end
  | Break j a executed err =>
      t ← wd_threads w !! j;
      match th_prog t with
      | Act c k =>
          if executed then '(_, s') ← run_command (th_queue t) a c s; Some (resume w j (k (Err err)) s')
          else Some (resume w j (k (Err err)) s)
      | _ => None
      end
  end.

(** An event the outside may cause: the node is honest; a row booked by another
    service is not settled yet. *)
Definition unsettled (t : TransactionRow) : bool :=
  match tx_status t with TS_PENDING | TS_SUBMITTED => true | _ => false end.

Definition allowed (w : World) (e : event) : bool :=
  match e with
  | Run j a | Break j a true _ =>
      match wd_threads w !! j with
      | Some t => match th_prog t with Act c _ => honest (wd_store w) c a | _ => true end
      | None => true
      end
  | Book t => unsettled t
  | _ => true
  end.

Inductive reaches (o : nat → QueueOptions) (w : World) : World → Prop :=
| reaches_refl : reaches o w w
| reaches_step w' w'' e : reaches o w w' → allowed w' e = true → step o w' e = Some w'' → reaches o w w''.

(** No submission yet. *)
Definition empty_world (w : World) : Prop :=
  qs_rows (wd_store w) = [] ∧ qs_sent (wd_store w) = [] ∧ wd_threads w = [] ∧
  forallb unsettled (qs_transactions (wd_store w)) = true.
End programs.

Arguments Ret {Tx A} a.
Arguments Throw {Tx A} e.
Arguments Act {Tx A} c k.

(** ** What holds of the queue *)

Section safety.
Context {Tx : Type} `{HL : ChainLaws Tx}.
Implicit Types (w : Store (Tx := Tx)) (s : Submission) (W : World (Tx := Tx)).

(** What a status claims about the chain. *)
Definition justified (txHash : string) (status : SubmissionStatus) (ledgerSeq : option Z) : Prop :=
  match status with
  | Sub_SUCCESS => ∃ l, ledgerSeq = Some l ∧ included l txHash = Some true
  | Sub_FAILED => ∃ l, ledgerSeq = Some l ∧ included l txHash = Some false
  | Sub_DROPPED => ∀ l, included l txHash = None
  | _ => True
  end.

(** A financial row is confirmed or failed only as the chain says. *)
Definition tx_justified (t : TransactionRow) : Prop :=
  match tx_status t with
  | TS_CONFIRMED => ∃ h l, tx_stellarTxHash t = Some h ∧ tx_ledgerSeq t = Some l ∧ included l h = Some true
  | TS_FAILED => ∃ h l, tx_stellarTxHash t = Some h ∧ tx_ledgerSeq t = Some l ∧ included l h = Some false
  | _ => True
  end.

(** The queue holds a row of this identity, made for a transaction. *)
Definition known w s : Prop :=
  (∃ r, r ∈ qs_rows w ∧ sub_id r = sub_id s ∧ sub_input r = sub_input s) ∧ ∃ tx, sub_input s = input_of tx.

(** A copy of a row read at some time. *)
Definition snapshot w s : Prop := known w s ∧ justified (sub_txHash s) (sub_status s) (sub_ledgerSeq s).

(** Ledgers close and rows keep their identity. *)
Definition extends w w' : Prop := qs_ledger w ≤ qs_ledger w' ∧ ∀ s, known w s → known w' s.

#[local] Instance extends_preorder : PreOrder extends.
Proof. split; [by split|]. intros w1 w2 w3 [H1 K1] [H2 K2]. split; [lia|auto]. Qed.

(** What a command needs to be executed. *)
Definition needs w (c : Command (Tx := Tx)) : Prop :=
  match c with
  | CreateSubmission input => ∃ tx, input = input_of tx
  | WriteUpdate current status patch _ =>
      known w current ∧ justified (sub_txHash current) status (pa_ledgerSeq patch)
  | SendTransaction e => ∃ tx s, e = Plain tx ∧ sub_input s = input_of tx ∧ known w s
  | _ => True
  end.

(** What its reply tells. *)
Definition tells w (c : Command (Tx := Tx)) : reply c → Prop :=
  match c with
  | FindByHash h => λ r, ∀ s, r = Some s → snapshot w s ∧ sub_txHash s = h
  | FindById id => λ r, ∀ s, r = Some s → snapshot w s ∧ sub_id s = id ∧
                         ∀ s0, known w s0 → sub_id s0 = id → sub_input s = sub_input s0
  | CreateSubmission input => λ s, snapshot w s ∧ sub_input s = input
  | FindDue _ _ => λ l, ∀ s, s ∈ l → snapshot w s
  | WriteUpdate current _ _ _ => λ s, snapshot w s ∧ sub_id s = sub_id current ∧ sub_input s = sub_input current
  | GetTransaction h => λ r, match r with
                         | TxSuccess l _ => included l h = Some true
                         | TxFailed l _ => included l h = Some false
                         | TxNotFound t => ∃ l, t = close_time l ∧ l ≤ qs_ledger w
                         end
  | GetAccount a => λ n, ∃ l, account_sequence l a = Some n ∧ l = qs_ledger w
  | _ => λ _, True
  end.

(** A program keeps what its commands need, whatever happens between them, and
    returns what [Q] says. *)
Fixpoint safe {A} w (p : routine (Tx := Tx) A) (Q : Store → A → Prop) : Prop :=
  match p with
  | Ret a => Q w a
  | Throw _ => True
  | Act c k => needs w c ∧
      ∀ w' r, extends w w' → match r with Ok a => tells w' c a | Err _ => True end → safe w' (k r) Q
  end.

Definition stable {A} (Q : Store → A → Prop) : Prop := ∀ w w' a, extends w w' → Q w a → Q w' a.

Lemma known_extends w w' s : extends w w' → known w s → known w' s.
Proof. intros [_ He]. apply He. Qed.

Lemma snapshot_extends w w' s : extends w w' → snapshot w s → snapshot w' s.
Proof. intros He [H1 H2]. split; [by eapply known_extends|done]. Qed.

Lemma needs_extends w w' c : extends w w' → needs w c → needs w' c.
Proof.
  intros He. destruct c; cbn; auto; [intros [? ?]; eauto using known_extends|].
  intros (tx & s & ? & ? & ?). exists tx, s. eauto using known_extends.
Qed.

Lemma safe_extends {A} (p : routine A) (Q : Store → A → Prop) w w' :
  stable Q → extends w w' → safe w p Q → safe w' p Q.
Proof.
  intros HQ He. destruct p as [a|e|c k]; cbn; [by apply HQ|done|].
  intros [Hn Hk]. split; [by eapply needs_extends|]. intros w'' r He'. apply Hk. by etrans.
Qed.

Lemma safe_bind {A B} (p : routine A) (k : A → routine B) (Q : Store → A → Prop) (R : Store → B → Prop) w :
  safe w p Q → (∀ w' a, extends w w' → Q w' a → safe w' (k a) R) → safe w (p ≫= k) R.
Proof.
  revert w. induction p as [a|e|c f IH]; intros w; cbn; [intros HQ Hk; by apply Hk|done|].
  intros [Hn Hf] Hk. split; [done|]. intros w' r He Hr. apply IH; [by apply Hf|].
  intros w'' a He'. apply Hk. by etrans.
Qed.

Lemma safe_weaken {A} (p : routine A) (Q R : Store → A → Prop) w :
  safe w p Q → (∀ w' a, extends w w' → Q w' a → R w' a) → safe w p R.
Proof.
  revert w. induction p as [a|e|c f IH]; intros w; cbn; [intros HQ Hk; by apply Hk|done|].
  intros [Hn Hf] Hk. split; [done|]. intros w' r He Hr. eapply IH; [by apply Hf|].
  intros w'' a He'. apply Hk. by etrans.
Qed.

Lemma safe_act c w : needs w c → safe w (act c) (λ w' a, tells w' c a).
Proof. intros Hn. split; [done|]. intros w' [a|e] He Hr; cbn; auto. Qed.

Lemma safe_attempt c w : needs w c →
  safe w (awaited c) (λ w' r, match r with Ok a => tells w' c a | Err _ => True end).
Proof. intros Hn. split; [done|]. intros w' r He Hr; cbn; auto. Qed.

Lemma safe_caught {A} (p : routine A) (Q : Store → A → Prop) w :
  safe w p Q → safe w (caught p) (λ w' r, match r with Ok a => Q w' a | Err _ => True end).
Proof.
  revert w. induction p as [a|e|c f IH]; intros w; cbn; [done|done|].
  intros [Hn Hf]. split; [done|]. intros w' r He Hr. by apply IH, Hf.
Qed.

Lemma safe_finally {A} (p : routine A) (q : routine ()) (Q : Store → A → Prop) w :
  stable Q → safe w p Q → (∀ w', extends w w' → safe w' q (λ _ _, True)) → safe w (finally p q) Q.
Proof.
  intros HQ Hp Hq. eapply safe_bind; [by apply safe_caught|]. cbn. intros w' r He Hr.
  eapply safe_bind; [by apply Hq|]. cbn. intros w'' _ He' _. destruct r; cbn; [by eapply HQ|done].
Qed.

Lemma safe_not_null {A} e (x : option A) w (Q : Store → A → Prop) :
  (∀ a, x = Some a → Q w a) → safe w (not_null e x) Q.
Proof. intros HQ. destruct x; cbn; auto. Qed.

(** *** The programs keep to it *)

(** A later copy of the same row. *)
Definition copy_of s w s' : Prop := snapshot w s' ∧ sub_id s' = sub_id s ∧ sub_input s' = sub_input s.

Lemma copy_extends s w w' s' : extends w w' → copy_of s w s' → copy_of s w' s'.
Proof. intros He (H1 & H2 & H3). split; [by eapply snapshot_extends|done]. Qed.

(** What [submit] may answer for a transaction. *)
Definition result_ok (tx : Tx) w (r : ReplayResult) : Prop :=
  rr_txHash r = tx_hash tx ∧ justified (tx_hash tx) (rr_status r) (rr_ledgerSeq r) ∧
  (rr_success r = true → rr_status r = Sub_SUCCESS) ∧ ∃ s, known w s ∧ sub_txHash s = tx_hash tx.

Lemma result_ok_stable tx : stable (result_ok tx).
Proof.
  intros w w' r He (H1 & H2 & H3 & s & Hs & H4). repeat split; [done|done|done|].
  exists s. eauto using known_extends.
Qed.

(** A transaction past its time bound whose sequence is unused was not included
    and will not be. *)
Lemma never_included tx l l' n : l ≤ l' → account_sequence l' (tx_source tx) = Some n → 0 < tx_maxTime tx →
  tx_maxTime tx < close_time l → n < tx_sequence tx → ∀ m, included m (tx_hash tx) = None.
Proof.
  intros Hl Hn Hmax Hclosed Hseq m. destruct (included m (tx_hash tx)) as [o|] eqn:Hi; [|done]. exfalso.
  pose proof (included_in_time _ _ _ Hi Hmax). destruct (decide (m ≤ l')).
  - pose proof (included_consumes _ _ _ _ _ Hi l0 Hn). lia.
  - pose proof (close_in_order l m ltac:(lia)). lia.
Qed.

Lemma safe_update w s status patch reason : known w s → justified (sub_txHash s) status (pa_ledgerSeq patch) →
  safe w (update (sub_id s) status patch reason) (λ w' r, ∀ s', r = Some s' → copy_of s w' s').
Proof.
  intros Hs Hj. eapply safe_bind; [by apply safe_act|].
  intros w1 [c|] He Hc; [|done]. destruct (Hc c eq_refl) as (Hsnap & Hid & Hin). specialize (Hin s (known_extends _ _ _ He Hs) eq_refl).
  destruct (terminalStatuses (sub_status c)) eqn:Ht; [by intros s' [= <-]|].
  eapply safe_bind; [apply safe_act; split; [apply Hsnap|]; unfold sub_txHash; by rewrite Hin|].
  intros w2 u _ (Hu & Hi & Hp) s' [= <-]. unfold copy_of. by rewrite Hi, Hp, Hid, Hin.
Qed.

Lemma safe_defer o w s error status : known w s → terminalStatuses status = false →
  safe w (defer o s error status) (λ w' r, ∀ s', r = Some s' → copy_of s w' s').
Proof.
  intros Hs Ht. eapply safe_bind; [by apply safe_act|]. intros w1 now He _.
  apply safe_update; [by eapply known_extends|]. by destruct status.
Qed.

Lemma safe_send o w s envelope fallback tx : known w s → sub_input s = input_of tx → envelope = Plain tx →
  safe w (send_and_record o s envelope fallback) (λ w' r, ∀ s', r = Some s' → copy_of s w' s').
Proof.
  intros Hs Hi ->. eapply safe_bind; [apply safe_attempt; by exists tx, s|].
  intros w1 [a|e] He _.
  - pose proof (known_extends _ _ _ He Hs) as Hs1. destruct (sa_status a); [destruct (other_hash a s)..|]; by apply safe_defer.
  - apply safe_defer; [by eapply known_extends|done].
Qed.

Lemma safe_parse w s : known w s →
  safe w (parse s) (λ _ e, ∃ tx, e = Plain tx ∧ sub_input s = input_of tx).
Proof.
  intros [_ [tx Htx]]. apply safe_not_null. rewrite Htx. cbn. rewrite parse_envelope. intros e [= <-]. by exists tx.
Qed.

Lemma safe_process_missing o w s l : known w s → l ≤ qs_ledger w →
  safe w (process_missing o s (close_time l)) (λ w' r, ∀ s', r = Some s' → copy_of s w' s').
Proof.
  intros Hs Hl. eapply safe_bind; [by apply safe_parse|]. intros w1 e He (tx & -> & Hi).
  eapply safe_bind; [by apply safe_attempt|]. intros w2 [n|e] He2 Hn; cycle 1.
  { apply safe_defer; [|done]. eapply known_extends; [|done]. by etrans. }
  assert (known w2 s) as Hs2 by (eapply known_extends; [|done]; by etrans). destruct Hn as (l' & Hn & ->).
  cbv zeta. destruct ((0 <? tx_maxTime tx) && (tx_maxTime tx <? close_time l)) eqn:Hx; cbn [andb]; [|by eapply safe_send].
  destruct (n <? _) eqn:H3; [|by apply safe_defer].
  eapply safe_bind; [by apply safe_act|]. intros w3 now He3 _.
  apply safe_update; [by eapply known_extends|]. unfold sub_txHash. rewrite Hi in *. cbn in *.
  apply andb_true_iff in Hx as [H1 H2]. destruct He as [He _], He2 as [He2 _].
  apply (never_included tx l (qs_ledger w2) n); [lia|exact Hn|lia..].
Qed.

Lemma safe_process o w s capture : known w s →
  safe w (processSubmission o (sub_id s) capture) (λ w' r, ∀ s', r = Some s' → copy_of s w' s').
Proof.
  intros Hs. eapply safe_bind; [by apply safe_act|].
  intros w1 [c|] He Hc; [|done]. destruct (Hc c eq_refl) as (Hsnap & Hid & Hin). specialize (Hin s (known_extends _ _ _ He Hs) eq_refl).
  assert (∀ p, safe w1 p (λ w' r, ∀ s', r = Some s' → copy_of c w' s') → safe w1 p (λ w' r, ∀ s', r = Some s' → copy_of s w' s')) as Hcopy.
  { intros p Hp. eapply safe_weaken; [exact Hp|]. cbn. intros w' r _ Hr s' Hs'. destruct (Hr s' Hs') as (? & E1 & E2).
    by rewrite Hid in E1; rewrite Hin in E2. }
  destruct (terminalStatuses (sub_status c)) eqn:Ht; [by intros s' [= <-]|].
  rewrite <- Hid. apply Hcopy. eapply safe_bind; [by apply safe_attempt|].
  destruct Hsnap as [Hk _]. intros w2 [a|e] He2 Ha; [|apply safe_defer; [by eapply known_extends|done]].
  pose proof (known_extends _ _ _ He2 Hk) as Hk2. destruct a as [l v|l xdr|t].
  - eapply safe_bind; [by apply safe_act|]. intros w3 now He3 _.
    eapply safe_bind; [apply safe_update; [by eapply known_extends|by exists l]|]. cbn. intros w4 u He4 Hu.
    destruct capture.
    + eapply safe_bind; [by apply safe_act|]. intros w5 ? He5 _ s' Hs'. by eapply copy_extends, Hu.
    + exact Hu.
  - eapply safe_bind; [by apply safe_act|]. intros w3 now He3 _. apply safe_update; [by eapply known_extends|by exists l].
  - destruct Ha as (l & -> & Hl). by apply safe_process_missing.
Qed.

Lemma result_of_ok w s tx v : snapshot w s → sub_txHash s = tx_hash tx → result_ok tx w (result_of s v).
Proof.
  intros [Hk Hj] Hh. rewrite Hh in Hj. unfold result_ok, result_of.
  destruct (sub_status s); cbn in *; (split; [done|]); (split; [done|]); (split; [done|]); by exists s.
Qed.

Lemma safe_toResult w s tx : snapshot w s → sub_txHash s = tx_hash tx → safe w (toResult s) (result_ok tx).
Proof.
  intros Hs Hh. unfold toResult. destruct (sub_status s); try by apply result_of_ok.
  eapply safe_bind; [by apply safe_act|]. intros w' v He _. apply result_of_ok; [|done]. by eapply snapshot_extends.
Qed.

Lemma copy_hash s w s' : copy_of s w s' → sub_txHash s' = sub_txHash s.
Proof. intros (_ & _ & H'). unfold sub_txHash. by rewrite H'. Qed.

Lemma safe_poll o w s tx left n : known w s → sub_txHash s = tx_hash tx →
  safe w (poll o s left n) (λ w' r, ∀ r', r = Some r' → result_ok tx w' r').
Proof.
  intros Hs Hh. revert w n Hs. induction left as [|left IH]; intros w n Hs; cbn [poll]; [done|].
  eapply safe_bind; [by apply safe_process|]. intros w1 res He Hres. cbv zeta.
  match goal with |- context [mbind ?k (if bool_decide _ then _ else _)] => set (again := mbind k _) end.
  assert (safe w1 again (λ w' r, ∀ r', r = Some r' → result_ok tx w' r')) as Hagain.
  { eapply safe_bind with (Q := λ _ _, True).
    - case_bool_decide; [done|]. eapply safe_bind; [by apply safe_act|]. intros w2 now _ _. eapply safe_weaken; [by apply safe_act|done].
    - intros w2 _ He2 _. apply IH. eapply known_extends, Hs. by etrans. }
  destruct res as [s'|]; [|done]. destruct (terminalStatuses _); [|done].
  pose proof (Hres s' eq_refl) as Hc. eapply safe_bind; [eapply safe_toResult; [apply Hc|]|].
  - rewrite <- Hh. by eapply copy_hash.
  - intros w2 r He2 Hr. eapply safe_bind; [by apply safe_act|]. intros w3 _ He3 _ r' [= <-]. by eapply result_ok_stable.
Qed.

Lemma safe_enqueue w tx : safe w (enqueue (input_of tx)) (λ w' s, snapshot w' s ∧ sub_txHash s = tx_hash tx).
Proof.
  eapply safe_bind; [by apply safe_act|]. intros w1 [s|] He Hs; [by apply Hs|].
  eapply safe_bind; [apply safe_attempt; by exists tx|]. intros w2 [s|e] He2 Hc.
  - destruct Hc as [? Hi]. split; [done|]. unfold sub_txHash. by rewrite Hi.
  - destruct e; try done. eapply safe_bind; [by apply safe_act|]. intros w3 r He3 Hr. by apply safe_not_null.
Qed.

Lemma safe_reread w s tx : known w s → sub_txHash s = tx_hash tx →
  safe w (x ← getById (sub_id s); s' ← not_null (Disappeared (tx_hash tx)) x; toResult s') (result_ok tx).
Proof.
  intros Hs Hh. eapply safe_bind; [by apply safe_act|]. intros w1 r He Hr.
  eapply safe_bind; [apply (safe_not_null _ _ _ (λ w' s', w' = w1 ∧ copy_of s w' s'))|].
  - intros s' ->. destruct (Hr s' eq_refl) as (H1 & H2 & H3). split; [done|]. split; [done|]. split; [done|].
    apply H3; [by eapply known_extends|done].
  - intros w2 s' He2 [-> Hc]. apply safe_toResult; [apply Hc|]. rewrite <- Hh. by eapply copy_hash.
Qed.

Lemma safe_submit o w tx : safe w (submit o tx) (result_ok tx).
Proof.
  eapply safe_bind; [by apply safe_enqueue|]. intros w1 s He [Hs Hh].
  destruct (terminalStatuses (sub_status s)); [by apply safe_toResult|].
  eapply safe_bind; [by apply safe_act|]. intros w2 now He2 _.
  eapply safe_bind; [by apply safe_act|]. intros w3 b He3 _.
  assert (known w3 s) as Hk by (eapply known_extends; [|apply Hs]; by etrans).
  destruct b; [|by apply safe_reread].
  apply safe_finally; [apply result_ok_stable| |intros w' _; eapply safe_weaken; [by apply safe_act|done]].
  eapply safe_bind; [eapply safe_bind; [by apply safe_parse|]|].
  - intros w4 e He4 (tx' & -> & Hi). eapply safe_bind; [eapply safe_send; [|exact Hi|done]; by eapply known_extends|].
    intros w5 r He5 _. instantiate (1 := λ _ _, True). done.
  - intros w4 _ He4 _. pose proof (known_extends _ _ _ He4 Hk) as Hk4.
    eapply safe_bind; [by apply safe_poll|]. intros w5 [r|] He5 Hr; [by apply Hr|].
    apply safe_reread; [by eapply known_extends|done].
Qed.

Lemma safe_process_all o w due n : Forall (known w) due → safe w (process_all o due n) (λ _ _, True).
Proof.
  revert w n. induction due as [|s due IH]; intros w n Hdue; [done|]. cbn [process_all].
  apply Forall_cons_1 in Hdue as [Hs Hdue].
  assert (∀ w', extends w w' → Forall (known w') due) as Hk.
  { intros w' He. eapply Forall_impl; [exact Hdue|]. intros x. by apply known_extends. }
  eapply safe_bind; [by apply safe_act|]. intros w1 now He _.
  eapply safe_bind; [by apply safe_act|]. intros w2 b He2 _.
  assert (extends w w2) as He' by by etrans. destruct b; [|by apply IH, Hk].
  eapply safe_bind with (Q := λ _ _, True).
  - apply safe_finally; [done| |intros w' _; eapply safe_weaken; [by apply safe_act|done]].
    eapply safe_bind; [by apply safe_process, (known_extends w)|done].
  - intros w3 _ He3 _. apply IH, Hk. by etrans.
Qed.

Lemma safe_due o w : safe w (processDueSubmissions o) (λ _ _, True).
Proof.
  eapply safe_bind; [by apply safe_act|]. intros w1 now He _.
  eapply safe_bind; [by apply safe_act|]. intros w2 due He2 Hdue. apply safe_process_all, Forall_forall.
  intros s Hs. by apply (Hdue s Hs).
Qed.

(** *** Commands keep the tables *)

Record store_ok w : Prop := {
  so_ids : NoDup (sub_id <$> qs_rows w);
  so_hashes : NoDup (sub_txHash <$> qs_rows w);
  so_slots : NoDup (sub_slot <$> qs_rows w);
  so_rows : ∀ s, s ∈ qs_rows w → (∃ tx, sub_input s = input_of tx) ∧ justified (sub_txHash s) (sub_status s) (sub_ledgerSeq s);
  so_paid : ∀ t, t ∈ qs_transactions w → tx_justified t;
  so_sent : ∀ e, e ∈ qs_sent w → ∃ tx s, e = Plain tx ∧ sub_input s = input_of tx ∧ known w s
}.

Lemma row_snapshot w s : store_ok w → s ∈ qs_rows w → snapshot w s.
Proof. intros Hw Hs. destruct (so_rows _ Hw s Hs) as [? ?]. split; [split; [by exists s|done]|done]. Qed.

Lemma known_row w s : store_ok w → known w s → ∃ r, r ∈ qs_rows w ∧ row_by_id (sub_id s) (qs_rows w) = Some r ∧
  sub_id r = sub_id s ∧ sub_input r = sub_input s.
Proof.
  intros Hw [(r & Hr & Hid & Hin) _]. exists r. repeat split; [done| |done..].
  unfold row_by_id. destruct (List.find _ _) as [r'|] eqn:Hf.
  - apply find_elem in Hf as [Hr' Hid'%bool_decide_eq_true_1]. f_equal.
    apply (fmap_unique sub_id _ _ _ (so_ids _ Hw)); congruence.
  - apply (find_absent _ _ r) in Hf; [|done]. by apply bool_decide_eq_false_1 in Hf.
Qed.

(** A change of other tables. *)
Lemma store_ok_same w w' : store_ok w → qs_rows w' = qs_rows w → qs_transactions w' = qs_transactions w →
  qs_sent w' = qs_sent w → qs_ledger w ≤ qs_ledger w' → store_ok w' ∧ extends w w'.
Proof.
  intros [] Hr Ht Hs Hl. assert (extends w w') as He by (split; [done|]; unfold known; by rewrite Hr).
  split; [|done]. split; rewrite ?Hr, ?Ht, ?Hs; try done.
  intros e He'. destruct (so_sent0 e He') as (tx & s & ? & ? & ?). exists tx, s. eauto using known_extends.
Qed.

(** A change of rows in place. *)
Lemma store_ok_map f w : store_ok w →
  (∀ s, s ∈ qs_rows w → sub_id (f s) = sub_id s ∧ sub_input (f s) = sub_input s ∧
     justified (sub_txHash s) (sub_status (f s)) (sub_ledgerSeq (f s))) →
  store_ok (set_rows w (f <$> qs_rows w)) ∧ extends w (set_rows w (f <$> qs_rows w)).
Proof.
  intros [] Hf. assert (extends w (set_rows w (f <$> qs_rows w))) as He.
  { split; [done|]. intros s [(r & Hr & Hid & Hin) Htx]. split; [|done]. exists (f r).
    destruct (Hf r Hr) as (E1 & E2 & _). rewrite E1, E2. split; [by apply list_elem_of_fmap_2|done]. }
  assert (∀ {K} (g : Submission → K), (∀ s, s ∈ qs_rows w → g (f s) = g s) → g <$> (f <$> qs_rows w) = g <$> qs_rows w) as Hg.
  { intros K g Hgf. rewrite <- list_fmap_compose. apply list_fmap_ext. intros i s Hi. apply Hgf. by eapply list_elem_of_lookup_2. }
  split; [|done]. split; cbn; try done.
  - rewrite (Hg _ sub_id); [done|]. intros s Hs. by apply Hf.
  - rewrite (Hg _ sub_txHash); [done|]. intros s Hs. unfold sub_txHash. by destruct (Hf s Hs) as (_ & -> & _).
  - rewrite (Hg _ sub_slot); [done|]. intros s Hs. unfold sub_slot. by destruct (Hf s Hs) as (_ & -> & _).
  - intros s' (s & -> & Hs)%list_elem_of_fmap. destruct (Hf s Hs) as (_ & E & Hj). unfold sub_txHash. rewrite E. split; [|done].
    by apply so_rows0.
  - intros e He'. destruct (so_sent0 e He') as (tx & s & ? & ? & ?). exists tx, s. eauto using known_extends.
Qed.

Lemma settle_justified status txHash l now rows : justified txHash status l →
  (∀ t, t ∈ rows → tx_justified t) → ∀ t, t ∈ settle_transactions status txHash l now rows → tx_justified t.
Proof.
  intros Hj Hrows t. destruct status; cbn; auto.
  all: intros (t0 & -> & Ht0)%list_elem_of_fmap; case_bool_decide as Hh; [|by apply Hrows].
  all: destruct Hj as (l' & -> & Hj); unfold tx_justified; cbn; by exists txHash, l'.
Qed.

Lemma exec_create i a input w r w' : store_ok w → (∃ tx, input = input_of tx) →
  run_command i a (CreateSubmission input) w = Some (r, w') →
  store_ok w' ∧ extends w w' ∧ match r with Ok s => tells w' (CreateSubmission input) s | Err _ => True end.
Proof.
  intros Hw [tx ->]. cbn. destruct a as [|id| | |]; try done. destruct (existsb _ _) eqn:Hx.
  { intros [= <- <-]. split; [done|]. split; [by split|done]. }
  intros [= <- <-]. set (s := new_submission _ _ _).
  assert (∀ r, r ∈ qs_rows w → competes (input_of tx) id r = false) as Hfree.
  { intros r Hr. apply not_true_iff_false. intros Hc. apply not_true_iff_false in Hx. apply Hx, existsb_exists.
    exists r. by split; [apply list_elem_of_In|]. }
  assert (∀ K (g : Submission → K), NoDup (g <$> qs_rows w) → (∀ r, competes (input_of tx) id r = false → g r ≠ g s) →
    NoDup (g <$> (qs_rows w ++ [s]))) as Hnd.
  { intros K g Hg Hgs. rewrite fmap_app. apply NoDup_snoc; [done|].
    intros (r & E & Hr)%list_elem_of_fmap. by apply (Hgs r (Hfree r Hr)). }
  assert (∀ r, competes (input_of tx) id r = false →
    sub_id r ≠ id ∧ sub_txHash r ≠ tx_hash tx ∧ sub_slot r ≠ (tx_source tx, tx_sequence tx)) as Hc.
  { intros r [[H1 H2]%orb_false_iff H3]%orb_false_iff. apply bool_decide_eq_false_1 in H1, H2, H3. done. }
  set (w' := add_transition _ _). assert (extends w w') as He.
  { split; [done|]. intros s' [(r & Hr & Hid) Htx]. split; [|done]. exists r. split; [|done]. cbn. apply elem_of_app. by left. }
  destruct Hw. split; [|split; [done|]].
  - split; cbn; try done.
    + apply Hnd; [done|]. intros r Hr. by apply Hc.
    + apply Hnd; [done|]. intros r Hr. by apply Hc.
    + apply Hnd; [done|]. intros r Hr. by apply Hc.
    + intros s' [Hs'| ->%list_elem_of_singleton]%elem_of_app; [by apply so_rows0|]. split; [by exists tx|done].
    + intros e He'. destruct (so_sent0 e He') as (tx' & s' & ? & ? & ?). exists tx', s'. eauto using known_extends.
  - split; [|done]. split; [|done]. split; [|by exists tx]. exists s. split; [|done]. cbn. apply elem_of_app. right. by apply list_elem_of_singleton.
Qed.

Lemma exec_write i a c status patch reason w r w' : store_ok w → needs w (WriteUpdate c status patch reason) →
  run_command i a (WriteUpdate c status patch reason) w = Some (r, w') →
  store_ok w' ∧ extends w w' ∧ match r with Ok s => tells w' (WriteUpdate c status patch reason) s | Err _ => True end.
Proof.
  intros Hw [Hk Hj]. destruct (known_row w c Hw Hk) as (r0 & Hr0 & Hf & Hid & Hin). cbn. rewrite Hf. cbv zeta.
  assert (∀ s, s ∈ qs_rows w → sub_id s = sub_id c → sub_txHash s = sub_txHash c) as Hsame.
  { intros s Hs E. assert (s = r0) as ->; [|unfold sub_txHash; by rewrite Hin].
    apply (fmap_unique sub_id _ _ _ (so_ids _ Hw)); congruence. }
  assert (∀ s, sub_txHash s = sub_txHash c → justified (sub_txHash s) (sub_status (apply_patch status patch s))
    (sub_ledgerSeq (apply_patch status patch s))) as Hnew.
  { intros s ->. cbn. destruct status; cbn in *; try done; by destruct Hj as (l & -> & ?); exists l. }
  destruct (store_ok_map (λ s, if bool_decide (sub_id s = sub_id c) then apply_patch status patch s else s) w Hw) as [Hw1 He1].
  { intros s Hs. case_bool_decide as Hi; [|split; [done|]; split; [done|]; by apply (so_rows _ Hw)]. split; [done|]. split; [done|]. by apply Hnew, Hsame. }
  intros [= <- <-]. set (w1 := set_rows w _) in *.
  match goal with |- store_ok (set_transactions_of ?x _) ∧ _ => set (w2 := x) end.
  assert (store_ok w2 ∧ extends w1 w2) as [Hw2 He2] by (unfold w2; case_match; by apply store_ok_same).
  assert (qs_transactions w2 = qs_transactions w1) as Ht by (unfold w2; by case_match).
  assert (extends w2 (set_transactions_of w2 (settle_transactions status (sub_txHash c) (pa_ledgerSeq patch) (qs_now w2) (qs_transactions w2)))) as He3 by done.
  assert (sub_txHash r0 = sub_txHash c) as Hh by (unfold sub_txHash; by rewrite Hin).
  split; [|split; [by etrans; [|etrans]|]].
  - destruct Hw2. split; cbn; try done. by eapply settle_justified.
  - cbn. split; [|done]. split; [|by apply (Hnew r0)]. eapply known_extends; [exact He3|]. eapply known_extends; [exact He2|].
    eapply known_extends; [exact He1|]. destruct Hk as [? ?]. split; [by exists r0|]. cbn. by rewrite Hin.
Qed.

(** A command whose needs are met keeps the tables, and its reply tells the truth
    when the node is honest. *)
Lemma exec_ok i a c w r w' : store_ok w → needs w c → honest w c a = true → run_command i a c w = Some (r, w') →
  store_ok w' ∧ extends w w' ∧ match r with Ok x => tells w' c x | Err _ => True end.
Proof.
  intros Hw Hn Ha Hx.
  assert (∀ w1, qs_rows w1 = qs_rows w → qs_transactions w1 = qs_transactions w → qs_sent w1 = qs_sent w →
    qs_ledger w1 = qs_ledger w → store_ok w1 ∧ extends w w1 ∧ True) as Hsame.
  { intros w1 E1 E2 E3 E4. destruct (store_ok_same w w1 Hw E1 E2 E3) as [? ?]; [lia|done]. }
  assert (store_ok w ∧ extends w w) as [_ Hrefl] by done.
  destruct c; [..|by eapply exec_create in Hx| | | |by eapply exec_write in Hx| | | | | |]; cbn in Hx.
  - injection Hx as <- <-. by apply Hsame.
  - destruct (_ <=? _); [|done]. injection Hx as <- <-. by apply Hsame.
  - injection Hx as <- <-. split; [done|]. split; [done|]. intros s [Hs Hh%bool_decide_eq_true_1]%find_elem.
    split; [by apply row_snapshot|done].
  - injection Hx as <- <-. split; [done|]. split; [done|]. intros s [Hs Hh%bool_decide_eq_true_1]%find_elem.
    split; [by apply row_snapshot|]. split; [done|]. intros s0 [(r & Hr & Hid & Hin) _] E. rewrite <- Hin. f_equal.
    apply (fmap_unique sub_id _ _ _ (so_ids _ Hw)); congruence.
  - injection Hx as <- <-. split; [done|]. split; [done|]. intros s Hs. apply row_snapshot; [done|].
    apply list_elem_of_In, (List.filter_In (is_due now)). apply list_elem_of_In.
    rewrite <- elem_of_sort_by. by eapply subseteq_take.
  - injection Hx as <- <-. match goal with |- context [set_rows w (?f <$> _)] => destruct (store_ok_map f w Hw) as [? ?] end; [|done].
    intros s Hs. destruct (so_rows _ Hw s Hs) as [_ ?]. by case_match.
  - injection Hx as <- <-. unfold change_row. match goal with |- context [set_rows w (?f <$> _)] => destruct (store_ok_map f w Hw) as [? ?] end; [|done].
    intros s Hs. destruct (so_rows _ Hw s Hs) as [_ ?]. by case_match.
  - destruct a as [| |a| |]; try done. injection Hx as <- <-. split; [done|]. split; [done|]. cbn in Ha. destruct a; cbn.
    + by apply andb_true_iff in Ha as [_ ?%bool_decide_eq_true_1].
    + by apply andb_true_iff in Ha as [_ ?%bool_decide_eq_true_1].
    + exists (qs_ledger w). lia.
  - destruct a; try done. injection Hx as <- <-. split; [done|]. split; [done|]. exists (qs_ledger w).
    by apply bool_decide_eq_true_1 in Ha.
  - destruct a; try done. injection Hx as <- <-. assert (extends w (add_sent envelope w)) as He by done.
    split; [|done]. destruct Hw. split; try done. cbn.
    intros e [He'| ->%list_elem_of_singleton]%elem_of_app; [|done]. by apply so_sent0.
  - injection Hx as <- <-. by apply Hsame.
  - injection Hx as <- <-. by apply Hsame.
  - injection Hx as <- <-. by apply Hsame.
Qed.

(** *** Every reachable state *)

Definition outcome_ok (call : Call (Tx := Tx)) w (out : CallOutcome) : Prop :=
  match call, out with CallSubmit tx, Submitted r => result_ok tx w r | _, _ => True end.

Record world_ok (W : World) : Prop := {
  wo_store : store_ok (wd_store W);
  wo_threads : ∀ t, t ∈ wd_threads W → safe (wd_store W) (th_prog t) (outcome_ok (th_call t))
}.

Lemma outcome_ok_stable call : stable (outcome_ok call).
Proof. intros w w' out He. destruct call, out; cbn; [by apply result_ok_stable|done..]. Qed.

Lemma safe_start o w call : safe w (begin_call o call) (outcome_ok call).
Proof.
  destruct call; (eapply safe_bind; [apply safe_submit || apply safe_due|]); by intros w' r _ Hr.
Qed.

Lemma threads_extend w w' (ts : list Thread) : extends w w' → (∀ t, t ∈ ts → safe w (th_prog t) (outcome_ok (th_call t))) →
  ∀ t, t ∈ ts → safe w' (th_prog t) (outcome_ok (th_call t)).
Proof. intros He Hts t Ht. eapply safe_extends; [apply outcome_ok_stable|exact He|by apply Hts]. Qed.

Lemma world_ok_empty W : empty_world W → world_ok W.
Proof.
  intros (Hr & Hs & Ht & Hp). split; [|rewrite Ht; by intros t ?%not_elem_of_nil].
  split; rewrite ?Hr, ?Hs; try by constructor.
  - by intros s ?%not_elem_of_nil.
  - intros t Hin. rewrite forallb_forall in Hp. specialize (Hp t (proj1 (list_elem_of_In _ _) Hin)).
    unfold unsettled in Hp. unfold tx_justified. by destruct (tx_status t).
  - by intros s ?%not_elem_of_nil.
Qed.

Lemma resume_ok W j t p w' : world_ok W → wd_threads W !! j = Some t → store_ok w' → extends (wd_store W) w' →
  safe w' p (outcome_ok (th_call t)) → world_ok (resume W j p w').
Proof.
  intros [_ Hts] Hj Hw He Hp. split; [done|]. cbn. intros t' (i & Hi)%list_elem_of_lookup.
  destruct (decide (i = j)) as [->|Hne].
  - rewrite list_lookup_alter_eq, Hj in Hi. injection Hi as <-. exact Hp.
  - rewrite list_lookup_alter_ne in Hi by done. eapply threads_extend; [exact He|exact Hts|by eapply list_elem_of_lookup_2].
Qed.

Lemma queue_step_ok o W e W' : world_ok W → allowed W e = true → step o W e = Some W' →
  world_ok W' ∧ extends (wd_store W) (wd_store W').
Proof.
  intros HW Ha Hs. pose proof HW as [Hw Hts]. destruct e as [ms| |t|i call|j a|j a executed err]; cbn in Hs.
  - injection Hs as <-. destruct (store_ok_same (wd_store W) (set_times (wd_store W) (qs_now (wd_store W) + Z.of_nat ms) (qs_ledger (wd_store W))) Hw) as [? ?]; try done.
    split; [|done]. split; [done|]. by eapply threads_extend.
  - injection Hs as <-. destruct (store_ok_same (wd_store W) (set_times (wd_store W) (qs_now (wd_store W)) (qs_ledger (wd_store W) + 1)) Hw) as [? ?]; try done; [cbn; lia|].
    split; [|done]. split; [done|]. by eapply threads_extend.
  - injection Hs as <-. assert (extends (wd_store W) (wd_store (set_store W (set_transactions_of (wd_store W) (qs_transactions (wd_store W) ++ [t]))))) as He by done.
    split; [|done]. split; [|by eapply threads_extend]. destruct Hw. split; try done. cbn.
    intros t' [Ht'| ->%list_elem_of_singleton]%elem_of_app; [by apply so_paid0|].
    cbn in Ha. unfold unsettled in Ha. unfold tx_justified. by destruct (tx_status t).
  - injection Hs as <-. split; [|done]. split; [done|]. cbn.
    intros t [Ht| ->%list_elem_of_singleton]%elem_of_app; [by apply Hts|]. apply safe_start.
  - destruct (wd_threads W !! j) as [t|] eqn:Hj; [|done]. cbn in Hs.
    pose proof (Hts t (list_elem_of_lookup_2 _ _ _ Hj)) as Ht. destruct (th_prog t) as [| |c k] eqn:Hp; [done..|].
    destruct (run_command _ _ _ _) as [[r w']|] eqn:Hx; [|done]. injection Hs as <-. destruct Ht as [Hn Hk].
    cbn in Ha. rewrite Hj, Hp in Ha. destruct (exec_ok _ _ _ _ _ _ Hw Hn Ha Hx) as (Hw' & He & Hr).
    split; [|done]. eapply resume_ok; [done|exact Hj|done|done|]. by apply Hk.
  - destruct (wd_threads W !! j) as [t|] eqn:Hj; [|done]. cbn in Hs.
    pose proof (Hts t (list_elem_of_lookup_2 _ _ _ Hj)) as Ht. destruct (th_prog t) as [| |c k] eqn:Hp; [done..|].
    destruct Ht as [Hn Hk]. destruct executed.
    + destruct (run_command _ _ _ _) as [[r w']|] eqn:Hx; [|done]. injection Hs as <-.
      cbn in Ha. rewrite Hj, Hp in Ha. destruct (exec_ok _ _ _ _ _ _ Hw Hn Ha Hx) as (Hw' & He & Hr).
      split; [|done]. eapply resume_ok; [done|exact Hj|done|done|]. by apply Hk.
    + injection Hs as <-. split; [|done]. eapply resume_ok; [done|exact Hj|done|done|]. by apply Hk.
Qed.

Lemma reaches_ok o W W' : world_ok W → reaches o W W' → world_ok W' ∧ extends (wd_store W) (wd_store W').
Proof.
  intros HW. induction 1 as [|W1 W2 e _ [IH1 IH2] Ha Hs]; [done|].
  destruct (queue_step_ok o W1 e W2 IH1 Ha Hs) as [? ?]. split; [done|]. by etrans.
Qed.

Lemma slot_unique w s s' : store_ok w → known w s → known w s' → sub_slot s = sub_slot s' → sub_input s = sub_input s'.
Proof.
  intros Hw [(r & Hr & _ & E) _] [(r' & Hr' & _ & E') _] Hslot. rewrite <- E, <- E'. f_equal.
  apply (fmap_unique sub_slot _ _ _ (so_slots _ Hw)); [done..|]. unfold sub_slot in *. by rewrite E, E'.
Qed.

Lemma input_injective (t u : Tx) : input_of t = input_of u → t = u.
Proof. intros [= _ _ _ E]. pose proof (parse_envelope t) as H1. rewrite E, parse_envelope in H1. by injection H1. Qed.

(** C7. C1: whatever calls run together, are interrupted or lose their replies, and
    whatever the node leaves out, a submission is marked successful or failed only
    when its ledger included it so, and dropped only when no ledger ever includes
    it; the financial rows of its hash are confirmed or failed as the chain says;
    and what [submit] returns is about its transaction and true. *)
Theorem submissions_tell_the_chain o W0 W : empty_world W0 → reaches o W0 W →
  (∀ s, s ∈ qs_rows (wd_store W) → justified (sub_txHash s) (sub_status s) (sub_ledgerSeq s)) ∧
  (∀ t, t ∈ qs_transactions (wd_store W) → tx_justified t) ∧
  (∀ t tx r, t ∈ wd_threads W → th_call t = CallSubmit tx → th_prog t = Ret (Submitted r) →
     rr_txHash r = tx_hash tx ∧ justified (tx_hash tx) (rr_status r) (rr_ledgerSeq r) ∧
     (rr_success r = true → rr_status r = Sub_SUCCESS)).
Proof.
  intros H0 HW. destruct (reaches_ok o W0 W (world_ok_empty W0 H0) HW) as [[Hw Hts] _]. split; [|split].
  - intros s Hs. by apply (so_rows _ Hw).
  - apply (so_paid _ Hw).
  - intros t tx r Ht Hc Hp. pose proof (Hts t Ht) as Hsafe. rewrite Hc, Hp in Hsafe.
    destruct Hsafe as (H1 & H2 & H3 & _). done.
Qed.

(** C8. C2: only envelopes that a row holds reach the node, and all that ever reach it
    for one account and sequence are the same one. *)
Theorem one_envelope_per_sequence o W0 W : empty_world W0 → reaches o W0 W →
  (∀ e, e ∈ qs_sent (wd_store W) → ∃ tx s, e = Plain tx ∧ s ∈ qs_rows (wd_store W) ∧ sub_input s = input_of tx) ∧
  (∀ t u, Plain t ∈ qs_sent (wd_store W) → Plain u ∈ qs_sent (wd_store W) →
     tx_source t = tx_source u → tx_sequence t = tx_sequence u → t = u).
Proof.
  intros H0 HW. destruct (reaches_ok o W0 W (world_ok_empty W0 H0) HW) as [[Hw _] _]. split.
  - intros e He. destruct (so_sent _ Hw e He) as (tx & s & -> & Hi & [(r & Hr & _ & E) _]). exists tx, r. by rewrite E.
  - intros t u Ht Hu E1 E2. destruct (so_sent _ Hw _ Ht) as (t' & s & [= <-] & Hi & Hs).
    destruct (so_sent _ Hw _ Hu) as (u' & s' & [= <-] & Hi' & Hs').
    apply input_injective. rewrite <- Hi, <- Hi'. apply (slot_unique _ _ _ Hw Hs Hs').
    unfold sub_slot. rewrite Hi, Hi'. cbn. by rewrite E1, E2.
Qed.

(** C9. C3: once a row holds a sequence of an account, another transaction with that
    sequence is never sent and its [submit] never returns, also when the row was
    dropped and the sequence is the account's next one: the transaction the
    caller is told to sign. *)
Theorem dropped_sequence_never_replaced o W0 W W' s tx : empty_world W0 → reaches o W0 W →
  s ∈ qs_rows (wd_store W) → si_sourceAccount (sub_input s) = tx_source tx →
  si_sequence (sub_input s) = tx_sequence tx → sub_txHash s ≠ tx_hash tx → reaches o W W' →
  Plain tx ∉ qs_sent (wd_store W') ∧
  ∀ t out, t ∈ wd_threads W' → th_call t = CallSubmit tx → th_prog t ≠ Ret (Submitted out).
Proof.
  intros H0 HW Hs E1 E2 Hne HW'. destruct (reaches_ok o W0 W (world_ok_empty W0 H0) HW) as [HW1 _].
  destruct (reaches_ok o W W' HW1 HW') as [[Hw Hts] He].
  assert (known (wd_store W') s) as Hk by (eapply known_extends, row_snapshot; [done|apply HW1|done]).
  assert (∀ r, known (wd_store W') r → sub_txHash r = tx_hash tx → False) as Habsurd.
  { intros r Hr Hh. pose proof Hr as [_ [u Hu]]. unfold sub_txHash in Hh. rewrite Hu in Hh. cbn in Hh.
    destruct (hash_body _ _ Hh) as (E3 & E4 & _). apply Hne. unfold sub_txHash.
    rewrite (slot_unique _ _ _ Hw Hk Hr); [by rewrite Hu|]. unfold sub_slot. rewrite Hu. cbn. congruence. }
  split.
  - intros Hin. destruct (so_sent _ Hw _ Hin) as (u & r & [= <-] & Hi & Hr). apply (Habsurd r Hr).
    unfold sub_txHash. by rewrite Hi.
  - intros t out Ht Hc Hp. pose proof (Hts t Ht) as Hsafe. rewrite Hc, Hp in Hsafe.
    destruct Hsafe as (_ & _ & _ & r & Hr & Hh). by apply (Habsurd r).
Qed.

Lemma reaches_trans o W1 W2 W3 : reaches o W1 W2 → reaches o W2 W3 → reaches o W1 W3.
Proof. intros H1. induction 1 as [|W W' e _ IH Ha Hs]; [done|]. by eapply reaches_step. Qed.

Lemma reaches_one o W e W' : step o W e = Some W' → allowed W e = true → reaches o W W'.
Proof. intros Hs Ha. by eapply reaches_step; [constructor|..]. Qed.

End safety.

(** ** Runs *)

(** Two transactions of one account with the same sequence: the second is signed
    again after the first expired.  [at_] is the ledger that includes the first. *)
Inductive sample_tx : Type := First | Again.

Definition sample_chain (at_ : option Z) : Chain sample_tx := {|
  tx_hash t := match t with First => "a1" | Again => "b2" end;
  tx_source _ := "GACCOUNT";
  tx_sequence _ := 2;
  tx_maxTime t := match t with First => 30 | Again => 90 end;
  toXDR t := match t with First => "xdr1" | Again => "xdr2" end;
  fromXDR s := if bool_decide (s = "xdr1") then Some (Plain First) else if bool_decide (s = "xdr2") then Some (Plain Again) else None;
  close_time l := 5 * l;
  account_sequence l _ := Some (match at_ with Some k => if k <=? l then 2 else 1 | None => 1 end);
  included l h := if bool_decide (h = "a1" ∧ at_ = Some l) then Some true else None
|}.

Lemma sample_laws at_ : (∀ k, at_ = Some k → k ≤ 6) → @ChainLaws sample_tx (sample_chain at_).
Proof.
  intros Hk. split; cbn.
  - by intros [] [].
  - by intros [].
  - lia.
  - intros l [] o; case_bool_decide as Hi; try done; destruct Hi as [? Hi]; [|done]. specialize (Hk l Hi). lia.
  - intros l m [] o a; case_bool_decide as Hi; try done; destruct Hi as [? ->]; [|done]. intros _ Hl [= <-].
    by rewrite (proj2 (Z.leb_le l m) Hl).
Qed.

(** What a command asks the outside. *)
Definition asks {Tx} (c : Command (Tx := Tx)) : bool :=
  match c with CreateSubmission _ | GetTransaction _ | GetAccount _ | SendTransaction _ => true | _ => false end.

(** Thread [j] alone, for at most [fuel] commands, until it ends or asks more than
    the answers given; it sleeps by letting time pass. *)
Fixpoint drive {Tx} `{Chain Tx} (o : nat → QueueOptions) (j fuel : nat) (answers : list answer) (W : World) : option World :=
  match fuel, th_prog <$> wd_threads W !! j with
  | S fuel, Some (Act c _) =>
      let go e answers := if allowed W e then W' ← step o W e; drive o j fuel answers W' else None in
      match c with
      | SleepUntil t => if qs_now (wd_store W) <? t then go (Elapse (Z.to_nat (t - qs_now (wd_store W)))) answers else go (Run j Nothing) answers
      | _ => if asks c then match answers with a :: answers => go (Run j a) answers | [] => Some W end else go (Run j Nothing) answers
      end
  | _, _ => Some W
  end.

Lemma drive_reaches {Tx} `{Chain Tx} o j fuel answers W W' : drive o j fuel answers W = Some W' → reaches o W W'.
Proof.
  revert answers W. induction fuel as [|fuel IH]; intros answers W; cbn -[allowed step]; [intros [= ->]; constructor|].
  assert (∀ e answers, (if allowed W e then W1 ← step o W e; drive o j fuel answers W1 else None) = Some W' → reaches o W W') as Hgo.
  { intros e as_ Hd. destruct (allowed W e) eqn:Ha; [|done]. destruct (step o W e) as [W1|] eqn:Hs; [|done].
    eapply reaches_trans; [by eapply reaches_step; [constructor|..]|by eapply IH]. }
  destruct (th_prog <$> _) as [[| |c k]|]; try (by intros [= ->]; constructor).
  destruct c; cbn [asks]; try by apply Hgo. 1: by destruct (_ <? _); apply Hgo.
  all: destruct answers; [by intros [= ->]; constructor|by apply Hgo].
Qed.

(** A run: what happens outside, and threads that go on alone. *)
Inductive scene {Tx : Type} : Type :=
| Happens (e : event (Tx := Tx))
| Drives (j fuel : nat) (answers : list answer).

Fixpoint play {Tx} `{Chain Tx} (o : nat → QueueOptions) (l : list scene) (W : World) : option World :=
  match l with
  | [] => Some W
  | Happens e :: l => if allowed W e then W' ← step o W e; play o l W' else None
  | Drives j fuel answers :: l => W' ← drive o j fuel answers W; play o l W'
  end.

Lemma play_reaches {Tx} `{Chain Tx} o l W W' : play o l W = Some W' → reaches o W W'.
Proof.
  revert W. induction l as [|[e|j fuel answers] l IH]; intros W; cbn -[allowed step drive].
  - intros [= ->]. constructor.
  - destruct (allowed W e) eqn:Ha; [|done]. destruct (step o W e) as [W1|] eqn:Hs; [|done].
    intros Hp. eapply reaches_trans; [by eapply reaches_one|by apply IH].
  - destruct (drive _ _ _ _ _) as [W1|] eqn:Hd; [|done]. intros Hp.
    eapply reaches_trans; [by eapply drive_reaches|by apply IH].
Qed.

Definition sample_options (_ : nat) : QueueOptions := default_options.

Lemma play_app {Tx} `{Chain Tx} o l1 l2 W W' :
  play o (l1 ++ l2) W = Some W' → ∃ W1, play o l1 W = Some W1 ∧ play o l2 W1 = Some W'.
Proof.
  revert W. induction l1 as [|[e|j fuel answers] l1 IH]; intros W; cbn -[allowed step drive]; [by exists W|..].
  - destruct (allowed W e); [|done]. intros (W1 & -> & Hp)%bind_Some. by apply IH.
  - intros (W1 & -> & Hp)%bind_Some. by apply IH.
Qed.

(** One financial row carries the hash of the first transaction. *)
Definition sample_row : TransactionRow :=
  {| tx_userId := "u"; tx_leagueId := None; tx_memberId := None; tx_type := REFUND; tx_amount := 500;
     tx_stellarTxHash := Some "a1"; tx_ledgerSeq := None; tx_memo := None; tx_status := TS_SUBMITTED; tx_confirmedAt := None |}.

Definition sample_world (ledger : Z) : World (Tx := sample_tx) :=
  {| wd_store := {| qs_now := 1000; qs_ledger := ledger; qs_rows := []; qs_transitions := []; qs_transactions := [sample_row];
                    qs_sent := []; qs_values := [] |};
     wd_threads := [] |}.

Definition pending_hash : answer := NodeSend {| sa_status := Send_PENDING; sa_hash := Some "A1" |}.

(** A submission whose polls miss it until ledger 4 includes it. *)
Definition confirmed_script : list (scene (Tx := sample_tx)) :=
  [Happens (Spawn 0 (CallSubmit First));
   Drives 0 60 [Uuid "s1"; pending_hash; NodeTransaction (TxNotFound 15); NodeAccount 1; pending_hash];
   Happens CloseLedger;
   Drives 0 60 [NodeTransaction (TxSuccess 4 (Some (NNum 7)))]].
#[local] Notation confirmed_world at_ := (play (H := sample_chain at_) sample_options confirmed_script (sample_world 3)).

(** A submission that expires: ledger 7 closed after its time bound. *)
Definition dropped_script : list (scene (Tx := sample_tx)) :=
  [Happens (Spawn 0 (CallSubmit First));
   Drives 0 60 [Uuid "s1"; pending_hash; NodeTransaction (TxNotFound 35); NodeAccount 1]].
#[local] Notation dropped_world at_ := (play (H := sample_chain at_) sample_options dropped_script (sample_world 7)).

(** Signed again with the sequence of the account, as the result says. *)
Definition again_script : list (scene (Tx := sample_tx)) := [Happens (Spawn 0 (CallSubmit Again)); Drives 1 60 [Uuid "s2"; pending_hash]].
#[local] Notation again_world at_ := (play (H := sample_chain at_) sample_options (dropped_script ++ again_script) (sample_world 7)).

(** [submit] hangs in its first call of the node until its lease is over; the
    daemon of another instance confirms the submission between the read and the
    write of the [update] that records the late answer. *)
Definition reopened_world at_ : option World := play (H := sample_chain at_) sample_options
  [Happens (Spawn 0 (CallSubmit First)); Drives 0 60 [Uuid "s1"];
   Happens (Elapse 61000);
   Happens (Spawn 1 CallDue); Drives 1 8 [NodeTransaction (TxSuccess 4 None)];
   Drives 0 3 [NodeSend {| sa_status := Send_DUPLICATE; sa_hash := Some "a1" |}];
   Drives 1 60 []; Drives 0 1 []] (sample_world 4).

(** Three instances process one pending submission: the first hangs past its
    lease, the second claims it, the first ends and releases, the third claims. *)
Definition shared_world at_ : option World :=
  let W := sample_world 4 in
  play (H := sample_chain at_) sample_options
    [Happens (Spawn 0 CallDue); Drives 0 60 [];
     Happens (Elapse 61000);
     Happens (Spawn 1 CallDue); Drives 1 60 [];
     Drives 0 60 [NodeTransaction (TxNotFound 20); NodeAccount 1; pending_hash];
     Happens (Elapse 2000);
     Happens (Spawn 2 CallDue); Drives 2 60 []]
    (set_store W (set_rows (wd_store W) [new_submission "s1" 1000 (input_of (H := sample_chain at_) First)])).

(** The command a thread awaits. *)
Definition awaits {Tx} (t : Thread (Tx := Tx)) : option Command := match th_prog t with Act c _ => Some c | _ => None end.

Example confirmed_run : (λ W, (sub_status <$> qs_rows (wd_store W), tx_status <$> qs_transactions (wd_store W), qs_sent (wd_store W)))
  <$> confirmed_world (Some 4) = Some ([Sub_SUCCESS], [TS_CONFIRMED], [Plain First; Plain First]).
Proof. vm_compute. reflexivity. Qed.

(** The submission signed again is refused by the unique index before it is sent,
    and the financial row stays as it was. *)
Example dropped_then_refused : (λ W, (sub_status <$> qs_rows (wd_store W), tx_status <$> qs_transactions (wd_store W), qs_sent (wd_store W),
    (λ t, match th_prog t with Throw e => Some e | _ => None end) <$> wd_threads W))
  <$> again_world None = Some ([Sub_DROPPED], [TS_SUBMITTED], [Plain First], [None; Some P2002]).
Proof. vm_compute. reflexivity. Qed.

(** A successful submission is submitted again, its financial row confirmed. *)
Example terminal_status_overwritten : (λ W, (sub_status <$> qs_rows (wd_store W), tx_status <$> qs_transactions (wd_store W),
    (λ t, (ts_fromStatus t, ts_toStatus t)) <$> qs_transitions (wd_store W))) <$> reopened_world (Some 4)
  = Some ([Sub_SUBMITTED], [TS_CONFIRMED],
          [(None, Sub_PENDING_VERIFICATION); (Some Sub_PENDING_VERIFICATION, Sub_SUCCESS); (Some Sub_PENDING_VERIFICATION, Sub_SUBMITTED)]).
Proof. vm_compute. reflexivity. Qed.

(** Two instances process the same envelope while both leases run. *)
Example lease_released_by_another : (λ W, awaits <$> wd_threads W) <$> shared_world None
  = Some [None; Some (GetTransaction "a1"); Some (GetTransaction "a1")].
Proof. vm_compute. reflexivity. Qed.

(** *** The theorems at these runs *)

Lemma sample_empty ledger : empty_world (sample_world ledger).
Proof. done. Qed.

Example dropped_run : (λ W, (λ s, (sub_status s, sub_input s)) <$> qs_rows (wd_store W)) <$> dropped_world None
  = Some [(Sub_DROPPED, input_of (H := sample_chain None) First)].
Proof. vm_compute. reflexivity. Qed.

Lemma submissions_tell_the_chain_witness : ∃ W, confirmed_world (Some 4) = Some W ∧
  (sub_status <$> qs_rows (wd_store W)) = [Sub_SUCCESS] ∧
  ∀ t, t ∈ qs_transactions (wd_store W) → tx_justified (H := sample_chain (Some 4)) t.
Proof.
  pose proof confirmed_run as R. destruct (confirmed_world (Some 4)) as [W|] eqn:E; [|done]. cbn in R. injection R as R _ _.
  exists W. split; [done|]. split; [done|].
  assert (∀ k, Some 4 = Some k → k ≤ 6) as Hk by (intros k [= <-]; lia).
  apply (submissions_tell_the_chain (HL := sample_laws (Some 4) Hk) sample_options (sample_world 3) W (sample_empty 3)).
  exact (play_reaches _ _ _ _ E).
Defined.

Lemma one_envelope_per_sequence_witness : ∃ W, confirmed_world (Some 4) = Some W ∧ qs_sent (wd_store W) = [Plain First; Plain First] ∧
  ∃ tx s, Plain First = Plain tx ∧ s ∈ qs_rows (wd_store W) ∧ sub_input s = input_of (H := sample_chain (Some 4)) tx.
Proof.
  pose proof confirmed_run as R. destruct (confirmed_world (Some 4)) as [W|] eqn:E; [|done]. cbn in R. injection R as _ _ Hs.
  exists W. split; [done|]. split; [done|].
  assert (∀ k, Some 4 = Some k → k ≤ 6) as Hk by (intros k [= <-]; lia).
  apply (one_envelope_per_sequence (HL := sample_laws (Some 4) Hk) sample_options (sample_world 3) W (sample_empty 3)).
  - exact (play_reaches _ _ _ _ E).
  - rewrite Hs. by left.
Defined.

Lemma dropped_sequence_never_replaced_witness : ∃ W W', dropped_world None = Some W ∧ again_world None = Some W' ∧
  (sub_status <$> qs_rows (wd_store W)) = [Sub_DROPPED] ∧ Plain Again ∉ qs_sent (wd_store W').
Proof.
  pose proof dropped_then_refused as R'. destruct (again_world None) as [W'|] eqn:E'; [|done]. clear R'.
  destruct (play_app _ _ _ _ _ E') as (W & E & E2). pose proof dropped_run as R. rewrite E in R.
  assert (∃ s, qs_rows (wd_store W) = [s] ∧ sub_status s = Sub_DROPPED ∧ sub_input s = input_of (H := sample_chain None) First)
    as (s & Hs & Hd & Hi).
  { cbn in R. injection R as R. clear -R. destruct (qs_rows (wd_store W)) as [|s [|s' l]]; [done| |done].
    injection R as H1 H2. by exists s. }
  exists W, W'. split; [exact E|]. split; [exact eq_refl|]. split; [by rewrite Hs; cbn; rewrite Hd|].
  assert (∀ k, None = Some k → k ≤ 6) as Hk by done.
  apply (dropped_sequence_never_replaced (HL := sample_laws None Hk) sample_options (sample_world 7) W W' s Again (sample_empty 7)).
  - exact (play_reaches _ _ _ _ E).
  - rewrite Hs. by left.
  - by rewrite Hi.
  - by rewrite Hi.
  - unfold sub_txHash. by rewrite Hi.
  - exact (play_reaches _ _ _ _ E2).
Defined.

(** ** [SorobanTransactionReplayDaemon] *)

(** [dm_timer] is the field [timer]; [dm_armed] the timers that will fire, the
    next named [dm_next]; [dm_runs] counts the calls of [processDueSubmissions]
    in progress. *)
Record Daemon : Type := {
  dm_timer : option nat;
  dm_running : bool;
  dm_processing : bool;
  dm_armed : list nat;
  dm_next : nat;
  dm_runs : nat
}.

Definition new_daemon : Daemon :=
  {| dm_timer := None; dm_running := false; dm_processing := false; dm_armed := []; dm_next := 0; dm_runs := 0 |}.

Definition with_flags (running processing : bool) (runs : nat) (d : Daemon) : Daemon :=
  {| dm_timer := dm_timer d; dm_running := running; dm_processing := processing; dm_armed := dm_armed d;
     dm_next := dm_next d; dm_runs := runs |}.

Definition schedule (d : Daemon) : Daemon :=
  if negb (dm_running d) then d
  else {| dm_timer := Some (dm_next d); dm_running := dm_running d; dm_processing := dm_processing d;
          dm_armed := dm_armed d ++ [dm_next d]; dm_next := S (dm_next d); dm_runs := dm_runs d |}.

Definition daemon_start (d : Daemon) : Daemon :=
  if dm_running d then d else schedule (with_flags true (dm_processing d) (dm_runs d) d).

Definition without_timer (t : nat) (l : list nat) : list nat := List.filter (λ u, negb (Nat.eqb u t)) l.

Definition daemon_stop (d : Daemon) : Daemon :=
  {| dm_timer := None; dm_running := false; dm_processing := dm_processing d;
     dm_armed := match dm_timer d with Some t => without_timer t (dm_armed d) | None => dm_armed d end;
     dm_next := dm_next d; dm_runs := dm_runs d |}.

(** [tick] up to its [await], and after it, however it ended. *)
Definition tick_begins (t : nat) (d : Daemon) : Daemon :=
  let d := {| dm_timer := dm_timer d; dm_running := dm_running d; dm_processing := dm_processing d;
              dm_armed := without_timer t (dm_armed d); dm_next := dm_next d; dm_runs := dm_runs d |} in
  if negb (dm_running d) || dm_processing d then d else with_flags true true (S (dm_runs d)) d.

Definition tick_ends (d : Daemon) : Daemon := schedule (with_flags (dm_running d) false (pred (dm_runs d)) d).

Inductive daemon_step : Daemon → Daemon → Prop :=
| ds_start d : daemon_step d (daemon_start d)
| ds_stop d : daemon_step d (daemon_stop d)
| ds_fire t d : t ∈ dm_armed d → daemon_step d (tick_begins t d)
| ds_end d : (0 < dm_runs d)%nat → daemon_step d (tick_ends d).

(** One pass over the queue at a time, and never a daemon that runs without a pass
    or a timer to come. *)
Definition daemon_alive (d : Daemon) : Prop :=
  dm_runs d = (if dm_processing d then 1 else 0)%nat ∧ (dm_running d = true → dm_processing d = false → dm_armed d ≠ []) ∧
  (∀ t, dm_timer d = Some t → t < dm_next d)%nat.

Lemma schedule_alive d : dm_runs d = (if dm_processing d then 1 else 0)%nat → (∀ t, dm_timer d = Some t → t < dm_next d)%nat →
  daemon_alive (schedule d).
Proof.
  intros Hr Ht. unfold schedule. destruct (dm_running d) eqn:Hd; cbn.
  - split; [done|]. split; [by destruct (dm_armed d)|]. intros t [= <-]. cbn. lia.
  - split; [done|]. split; [by rewrite Hd|done].
Qed.

Lemma daemon_step_alive d d' : daemon_alive d → daemon_step d d' → daemon_alive d'.
Proof.
  intros (Hr & Ha & Ht). destruct 1 as [d|d|t d Hin|d Hruns].
  - unfold daemon_start. destruct (dm_running d) eqn:Hd; [unfold daemon_alive; by rewrite Hd|]. by apply schedule_alive.
  - by repeat split.
  - unfold tick_begins. cbv zeta. destruct (dm_running d) eqn:Hd, (dm_processing d) eqn:Hp; cbn.
    all: repeat split; cbn; rewrite ?Hp, ?Hd in *; try done; by rewrite Hr.
  - apply schedule_alive; cbn; [|done]. rewrite Hr. by destruct (dm_processing d).
Qed.

Lemma daemon_never_stalls d : rtc daemon_step new_daemon d → daemon_alive d.
Proof.
  intros Hd. assert (daemon_alive new_daemon) as H0 by done. revert H0.
  induction Hd as [|d1 d2 d3 Hs _ IH]; [done|]. intros Ha. by eapply IH, daemon_step_alive.
Qed.

(** Stopped and started again during a pass that ends at once, it keeps two timers
    and [stop] clears one. *)
Example restarted_daemon_doubles :
  let d := tick_ends (daemon_start (daemon_stop (tick_begins 0 (daemon_start new_daemon)))) in
  dm_armed d = [1; 2]%nat ∧ dm_armed (daemon_stop d) = [1]%nat.
Proof. split; reflexivity. Qed.
